(* ===== verification/_CoqProject ===== *)
-Q . S2P
Prelude.v
LockTypes.v
Interval.v
Resource.v
ScopeTree.v
Compat.v
Ledger.v
Queue.v
Graph.v
Manager.v
ManagerInv.v
ManagerPass.v
ManagerPaid.v
ManagerOps.v
ManagerRuns.v
ManagerSteps.v
ManagerIdle.v
ManagerGrant.v
ManagerLive.v
ManagerEnd.v
TxnState.v
TxnManager.v
TxnPins.v
TxnSteps.v
Bolt.v
Keys.v
Versions.v
Visibility.v
Layouts.v
Conflict.v
Store.v
CommitLog.v
Wal.v
Group.v
GroupQueue.v
GroupSteps.v
WalSteps.v
WalCodec.v
WalFile.v
WalRecover.v
WalGroup.v
GroupFacts.v
Compact.v
CompactSteps.v
CompactPass.v
CompactFacts.v
Scan.v
ScanCursor.v
ScanRuns.v
ScanFacts.v
WriteSet.v
WriteSetInv.v
WriteSetSteps.v
WriteSetMerge.v
WriteSetReads.v
WriteSetFacts.v
LayerScan.v
LayerMerge.v
LayerSteps.v
LayerReads.v
LayerFacts.v
CurrentRead.v
RootCommit.v
StreamSteps.v
RootSteps.v
Session.v
RootEnd.v
RootFacts.v
TopK.v
SortRow.v
ExternalSort.v
SorterBooks.v
SorterOrder.v
SorterFacts.v
SorterRuns.v
Physical.v
PhysicalFacts.v
Dedup.v
Decimal.v
DecimalText.v
