(* ===== verification/Prelude.v ===== *)
(** * GBaseLite, verified: header of the development

    GBaseLite is a single-node SQL database written in Go.  This library models the parts of it that decide
    what transactions may do, what they read and what a crash leaves, the operators and sorters that a query
    runs through, and the fixed-point numbers it computes with, and proves them correct.

    ** Parts and files

    The lock manager ([src/lockmanager/]).

    - [LockTypes]: [types.go].  Modes, kinds, scope and request states, identities, limits.
    - [Interval], [Resource]: [interval.go] and the identity part of [resource.go].  Interval overlap,
      validation, the canonical keys [ResourceKey] (what competes) and [ClaimKey] (what is one lock),
      canonical order and deduplication of a bundle.
    - [ScopeTree]: the namespace registry and the per-owner tree of scopes, both in [resource.go].
    - [Compat]: [compatibility.go].  The conflict matrix and the prerequisites of a bundle.
    - [Ledger]: [budget.go].  The accounting ledger that admits requests and bounds memory.
    - [Queue]: [queue.go].  Claims of one resource with their mode index, its FIFO queue, the conflict and
      fairness tests, and the bundle of components that is one request.
    - [Graph]: [graph.go].  The wait-for graph, the bounded deadlock search, the victim.
    - [Manager]: [manager.go].  The state behind the mutex and every method on it.
    - [ManagerInv], [ManagerPass], [ManagerOps], [ManagerRuns]: the invariant of that state, and that the
      building blocks, the fair pass, acquiring, and every other method keep it.
    - [ManagerSteps]: the methods as one step function, the states a run reaches, and the properties of
      every run.
    - [ManagerPaid]: the reservations of requests are known to the ledger, whose refusals are counted.
    - [ManagerIdle], [ManagerGrant], [ManagerLive]: between methods no waiting request could be granted, unless
      the ledger has refused it; what a grant in one critical section leaves behind.
    - [ManagerEnd]: how a waiting request ends, what a wait may report, and evaluated runs where the code
      differs from its comments.

    The versioned store ([src/mvcc/], with the bounds of [src/storageengine/range.go]).

    - [TxnState]: [transaction_state.go].  The lifecycle of a transaction.
    - [TxnManager]: [transaction_manager.go].  The registry of transactions and read views, with the
      reference counts that hold the history they read.
    - [TxnPins], [TxnSteps]: the invariants of the registry, what unregistering a transaction removes, and
      the properties of every run.
    - [Bolt]: the bucket and cursor operations of the file format, as an interface with its laws.
    - [Keys]: keys, sequences, records and ranges; the range guards.
    - [Versions]: the buckets of a store file, both layouts of the version history, snapshot reads.
    - [Visibility], [Layouts]: what a read sees and what installing a version does, in terms of the history
      of a key.
    - [Conflict]: [conflict.go].  The rule that decides whether a transaction may commit.
    - [Store]: [store.go], [local_commit.go].  The state of a store, its physical transactions, sequences,
      publication markers.
    - [CommitLog]: the abstract store, a list of commits, and when a database represents it; triples over
      actions of the store with a condition on every state of the disk.
    - [Wal], [WalCodec], [WalFile]: [local_wal.go].  The log file of a group: writing, verifying and
      installing it; the file read back is the file written.
    - [Group], [GroupQueue]: [group_commit.go].  Groups of commits, and the queue they are taken from.
    - [GroupSteps], [WalSteps], [WalRecover], [WalGroup], [GroupFacts]: what a group did in terms of the
      abstract store, with and without the log file; recovery; runs of groups.
    - [Compact], [CompactSteps], [CompactPass], [CompactFacts]: [maintenance.go].  The bounded transactions
      that remove old versions, what they do to the history of a key, and a whole pass.
    - [Scan], [ScanCursor], [ScanRuns], [ScanFacts]: [range.go], [flat_scan.go].  The pages of a range scan
      in both layouts, the walking and the seeking reader, and scans while the store changes.
    - [WriteSet]: [write_buffer.go], [merge.go], the write half of [transaction.go].  The private writes of a
      transaction, in memory and staged on disk.  [WriteSetInv], [WriteSetSteps], [WriteSetMerge],
      [WriteSetReads], [WriteSetFacts]: the map a write set stands for, what each operation does to it, the
      commit of a child, reads through the layers.
    - [LayerScan], [LayerMerge], [LayerSteps], [LayerReads], [LayerFacts]: the range scan of a transaction,
      which merges its own layers with the pages of the store.
    - [CurrentRead], [Session]: [current_read.go].  Reads under a lock, the check of the grant, the baselines
      they leave, and a root's own run of writes, guards and locked reads.
    - [RootCommit], [StreamSteps], [RootSteps], [RootEnd], [RootFacts]: [local_commit.go], [local_stream.go],
      the commit half of [transaction.go].  The commit of a root, bounded, streamed, or staged; what a
      verified grant says.

    Query execution ([src/executor/], [src/physical/]).

    - [TopK]: [topk.go].  The heap that keeps the first rows of an order.
    - [SortRow], [ExternalSort]: [external_sort.go], [candidate_sorter.go], [query_budget.go].  The rows of a
      run file, the sorter with its memory pool and its files.  [SorterBooks], [SorterOrder],
      [SorterFacts], [SorterRuns]: what it charges and gives back, and what it hands on.
    - [Physical], [PhysicalFacts]: [operator.go], [materialized.go].  Operators as functions of a callback, and
      a whole query plan.
    - [Dedup]: [stable_dedup.go], [distinct.go], [target_dedup.go], [row_identity.go].  Deduplication by sorting
      twice, and the keys of physical rows.

    Values ([src/storage/]).

    - [Decimal], [DecimalText]: [decimal.go].  Decimals kept as texts: literals, order, keys, the operators,
      rounding to a column.

    ** How state and operations correspond

    A Go struct is a [Record] with its fields, a Go map a [gmap], a set-valued map a [gset].  Pointers that the
    code shares (requests, reservations) are keys into a heap of the owning record: [m_requests] for requests,
    [l_objs] for reservations; aliasing is then an equality of keys.  A method is a function from the state and
    its arguments to the new state and its results; an error is a value of [lock_error], or of the error type
    of its package, in a [result].  A method of the lock manager takes its mutex for its whole body, so
    goroutines interleave whole methods, which is what a list of steps is.  The exceptions that change the
    state are [ReleaseOwner], [ReleaseAll] and [ResetEpoch], which refund the ledger after they have dropped
    the mutex, and a wait: a refund is a step of its own, allowed anywhere, and the functions of these
    methods take what others do where they hold no mutex as an argument.  A Go loop over a map visits its
    entries in an unspecified order: [range] of the class [MapRange] is that order, any permutation, chosen
    afresh for each loop, and the theorems hold for all of them.

    An operation of the store or of the sorter that can fail midway is an action of a small monad over the store
    or the world of the sorter, because what it has done before the failure counts.  Where others may
    act between two transactions of one operation (the pages of a scan, a locked read), their changes are
    an argument of the definition, of which the theorems assume no more than that they are runs of the
    store.  An operator of [Physical] is a function of the callback and of whatever state it works on.

    Integers are [Z]; where the code guards against the end of a [uint64] ([math.MaxUint64]) or lets a counter
    wrap, the definition does the same.  Byte order, lengths and length prefixes are those of the code.

    ** What the theorems show

    - Identities and bundles: the canonical keys identify exactly one conflict domain and, without empty bounds,
      one lock; deduplication is canonical; a bundle is accepted exactly with its prerequisites.
    - Compatibility: the matrix is exact, symmetric, and decides gap against insertion by containment.
    - Accounting: after any run of the ledger its totals are the sums over what is live; waiters and edges are
      within the limits, and so is the memory while every live reservation counts its waiter; a refused
      reservation leaves nothing behind.
    - Trees and graphs: closing a subtree, ancestry and the deadlock search terminate and are exact; closing leaves
      no descendant open in a tree that has no open scope below a closed one.
    - The manager: in every reachable state claims of different owners never exclude each other, queues and
      indexes are exact, decisions are final, and the fair pass terminates.
    - Waiting: a request that waits lacks components that are not all first in line and free, or holds them all
      and the ledger has refused a commit; a request stops waiting only by being decided; a request that may not
      wait is granted whole or leaves nothing; a wait answers only what was decided.
    - The registry: reference counts are exact, history that is pinned is kept, transactions follow their
      lifecycle, and unregistering removes exactly a transaction's family.
    - The store: records and version keys are read back as they were written, and a read at a snapshot gives
      the newest committed version not above it, whichever the layout.
    - Commits: a log file is accepted exactly when it is complete and intact; a group of commits appends its
      accepted requests to the abstract log, or, whichever write fails and wherever the process dies, none or
      all of them; opening a store after a crash gives back the log its disk stands for; any run of groups
      gives snapshot isolation, first committer wins; the queue stays within its bounds and loses nothing.
    - Compaction: no read at a pinned timestamp and no snapshot from the head on changes; passes end, remove only
      versions nobody can see, and repeated often enough leave no other.  A root begun lazily pins nothing before
      its first consistent read.
    - Scans: a range scan ends and yields exactly the rows of its range at its snapshot, in order, with
      commits and compaction between its pages; the scan of a transaction finds what its point reads find.
    - Write sets: they are what the acknowledged calls describe, with exact accounting; after the commit
      of a child the parent reads as the child did.
    - Roots: a locked read reports the newest published version or the transaction's own write, under a claim; the
      commit of a root is one commit of the abstract log, validated against what it may build on, or
      leaves nothing.
    - Sorting: the external sorter hands on what a stable sort in memory would, whatever was spilled; what it
      charges it gives back; its rows are read back as written when the reader's limit admits them; the
      bounded sort gives the page of the full one.
    - Plans: an ordered, filtered, joined and paged query hands on exactly the page of the ordered rows;
      deduplication keeps the first of each row in the order of the input and closes its sorters once.
    - Decimals: the operators give the exact value rounded half away from zero, or an error exactly where
      they must; order and keys are those of the values; literals mean what they say; an accepted text
      is canonical and reads back as itself.

    ** Failures and crashes

    [Env] answers whether a context has ended and whether a write fails, each time it is asked; [SortEnv] does so
    for the sorter and its files.  A [Store] keeps the list of all states its disk has had; a crash leaves one
    of them.  A database transaction reaches the disk as a whole or not at all, and so does the replacement
    of the log file, which is what the library and the file system promise the code.

    ** Code that is not in the repository, and what is left open

    The file format is a library: [Bolt] states its buckets as maps from byte strings with cursors, and
    [BoltLaws] that these follow one ordered list of entries, which is what the library documents.  It does
    not say where a cursor goes on after deleting, so [DeletingCursor] leaves that open between the two
    entries it can be, and what is proved of compaction holds for either.  Sorted lists implement both, for
    evaluation.  The JSON text of a range dependency is the parameter [GuardCodec].  The checksum and the hash
    of the log file are the class [Digest]; only their widths are assumed ([DigestLaws]).  [Locking] is how an
    acquisition for a write ends, [Registry] the lock manager as it is at each moment; [StoreOptions] and
    [SortOptions] are settings.

    ** Fuel

    [CloseSubtree] and [Ancestors] get the number of scopes plus one, the cycle search the work budget the
    code gives it, and the rounds of the fair pass one more than there are waiting requests; each bound is
    proved sufficient.  [dropDescendantsLocked] gets one round per registered transaction and one more.  A
    cursor loop gets the number of entries of its bucket, and so does the compaction of a row, which deletes
    an entry in each round; a pass of compaction gets a number of transactions, and twice the versions and
    once the rows of the store, and one more, are enough.  The pages of a scan and the merge of layers get
    more than there are keys.  Reading a guard reads the keys it covers, which are data keys, so one level of
    reading is enough; the fuel given is the number of keys.  The loop over the frames of a log file gets the
    length of the file; every frame is longer than a byte.  The merge of sort runs gets its heads and the
    bytes left, the compaction of runs one more than their number, and the heap its length.  [nat_text] gets
    the binary length of the number.

    ** Limits of what is stated

    A store that writes its groups through the log file has a [wal_identity] of 32 bytes, which opening it with
    that option sets.  [recovered] and [disk_stands] ask for it, so the theorems on groups, recovery,
    compaction and roots are about such stores, whether or not a group goes through the file; a store that
    was never opened with the option is not covered.  The scan of a transaction captures the stage of each
    layer when it is opened, where the code looks it up for every page: others may commit between pages, but
    the transaction's own writes during its scan are not modelled; nor are the record of the observed
    range and the counters the scan keeps.

    ** Not modelled

    Goroutines, channels and contexts appear as the step at which the code resumes.  Wall-clock time is a field
    that the environment sets.  In the packages that are modelled: replicated commands, the registry of dirty
    writes, the export of a layout, the unpaged scans [Store.Scan] and [Tx.Scan], the counters of scans and
    observations, the candidate adapter of [candidate_sorter.go], the operators [Scan], [Window] and [Modify]
    with the description of plans, and of [decimal.go] the conversions from other Go types, the column
    declaration and the upgrade of snapshots.  Log output, HTTP, the wire protocol, the SQL front end with its
    evaluation, the page files and the disk indexes are not modelled; the manifest lists each part with its
    reason. *)

From stdpp Require Import gmap list sorting numbers strings fin_maps.
From Stdlib Require Import Strings.Byte ZArith Lia.

#[global] Open Scope Z_scope.

Create HintDb bytes.
Create HintDb gbl.
Create Rewrite HintDb bytes.

(** ** Go strings and byte slices

    A Go [string] and a non-nil [[]byte] are both finite sequences of bytes; the code
    converts between them freely ([string(k)], [[]byte(s)]).  Both are [bytes] here.  A slice
    that may be nil, where the code tells nil from empty, is an [option bytes]. *)

Abbreviation byte := Byte.byte.
Abbreviation bytes := (list Byte.byte).

#[export] Instance byte_eq_dec : EqDecision byte := Byte.byte_eq_dec.
#[export] Instance byte_countable : Countable byte :=
  inj_countable Byte.to_N Byte.of_N Byte.of_to_N.

(** String literals of the source. *)
Definition str (s : string) : bytes := String.list_byte_of_string s.

(** A slice used where nil and empty coincide ([len], [copy], [append], comparison). *)
Definition raw (k : option bytes) : bytes := default [] k.

(** [len] of a slice or string, as a Go [int]. *)
Definition blen (s : bytes) : Z := Z.of_nat (length s).

Lemma blen_app a b : blen (a ++ b) = blen a + blen b.
Proof. unfold blen. rewrite length_app. lia. Qed.

(** The value of one byte. *)
Definition bval (b : byte) : Z := Z.of_N (Byte.to_N b).

Definition byte_of_Z (z : Z) : byte :=
  match Byte.of_N (Z.to_N (z mod 256)) with Some b => b | None => x00 end.

Lemma bval_range b : 0 <= bval b < 256.
Proof. unfold bval. pose proof (Byte.to_N_bounded b). lia. Qed.

Lemma bval_inj a b : bval a = bval b -> a = b.
Proof.
  unfold bval. intros H. assert (Byte.to_N a = Byte.to_N b) as HN by lia.
  apply (f_equal Byte.of_N) in HN. rewrite !Byte.of_to_N in HN. congruence.
Qed.

Lemma bval_of_Z z : bval (byte_of_Z z) = z mod 256.
Proof.
  unfold byte_of_Z, bval. pose proof (Z.mod_pos_bound z 256 ltac:(lia)) as Hb.
  destruct (Byte.of_N (Z.to_N (z mod 256))) as [b|] eqn:E.
  - apply Byte.to_of_N in E. rewrite E. lia.
  - apply Byte.of_N_None_iff in E. lia.
Qed.

Lemma byte_of_bval b : byte_of_Z (bval b) = b.
Proof. apply bval_inj. rewrite bval_of_Z. apply Z.mod_small, bval_range. Qed.

(** ** Unsigned lexicographic order: [bytes.Compare] and the order of Go strings *)

Fixpoint bcompare (a b : bytes) : comparison :=
  match a, b with
  | [], [] => Eq
  | [], _ :: _ => Lt
  | _ :: _, [] => Gt
  | x :: a', y :: b' =>
      match bval x ?= bval y with
      | Eq => bcompare a' b'
      | c => c
      end
  end.

Definition blt (a b : bytes) : Prop := bcompare a b = Lt.
Definition ble (a b : bytes) : Prop := bcompare a b <> Gt.
Definition bltb (a b : bytes) : bool := match bcompare a b with Lt => true | _ => false end.

#[export] Instance blt_dec a b : Decision (blt a b).
Proof. unfold blt. solve_decision. Defined.
#[export] Instance ble_dec a b : Decision (ble a b).
Proof. unfold ble. apply _. Defined.

Lemma bltb_spec a b : bltb a b = true <-> blt a b.
Proof. unfold bltb, blt. destruct (bcompare a b); split; congruence. Qed.

Lemma bcompare_refl a : bcompare a a = Eq.
Proof. induction a as [|x a IH]; [done|]. cbn. by rewrite Z.compare_refl. Qed.

Lemma bcompare_eq a b : bcompare a b = Eq <-> a = b.
Proof.
  split; [|intros ->; apply bcompare_refl].
  revert b. induction a as [|x a IH]; intros [|y b]; cbn; try done.
  destruct (bval x ?= bval y) eqn:E; try done. intros H.
  apply Z.compare_eq, bval_inj in E. f_equal; eauto.
Qed.

Lemma bcompare_antisym a b : bcompare b a = CompOpp (bcompare a b).
Proof.
  revert b. induction a as [|x a IH]; intros [|y b]; cbn; try done.
  rewrite (Z.compare_antisym (bval x) (bval y)).
  destruct (bval x ?= bval y); cbn; auto.
Qed.

Lemma bcompare_gt a b : bcompare a b = Gt <-> blt b a.
Proof. unfold blt. rewrite (bcompare_antisym a b). destruct (bcompare a b); cbn; split; congruence. Qed.

Lemma blt_trans a b c : blt a b -> blt b c -> blt a c.
Proof.
  unfold blt. revert b c. induction a as [|x a IH]; intros [|y b] [|z c]; cbn; try done.
  destruct (Z.compare_spec (bval x) (bval y)), (Z.compare_spec (bval y) (bval z));
    intros; try done; destruct (Z.compare_spec (bval x) (bval z)); try done; try lia; eauto.
Qed.

Lemma blt_irrefl a : ~ blt a a.
Proof. unfold blt. rewrite bcompare_refl. done. Qed.

#[export] Instance blt_strict : StrictOrder blt.
Proof. split; [intros a; apply blt_irrefl | intros a b c; apply blt_trans]. Qed.

Lemma blt_total a b : blt a b \/ a = b \/ blt b a.
Proof.
  destruct (bcompare a b) eqn:E; [right; left; by apply bcompare_eq | by left |].
  right; right. by apply bcompare_gt.
Qed.

Lemma not_blt a b : ~ blt a b <-> ble b a.
Proof. unfold ble. rewrite bcompare_gt. done. Qed.

Lemma ble_lt_or_eq a b : ble a b <-> blt a b \/ a = b.
Proof.
  unfold ble, blt. rewrite <- bcompare_eq. destruct (bcompare a b); intuition congruence.
Qed.

#[export] Instance ble_preorder : PreOrder ble.
Proof.
  split; [intros a; apply ble_lt_or_eq; by right|].
  intros a b c H1 H2. apply ble_lt_or_eq in H1, H2. apply ble_lt_or_eq.
  destruct H1 as [H1| ->], H2 as [H2| ->]; eauto using blt_trans.
Qed.

Lemma ble_antisym a b : ble a b -> ble b a -> a = b.
Proof.
  intros H1 H2. apply ble_lt_or_eq in H1 as [H1|]; [|done].
  apply not_blt in H2. done.
Qed.

Lemma blt_le_trans a b c : blt a b -> ble b c -> blt a c.
Proof. intros H [H2| ->]%ble_lt_or_eq; eauto using blt_trans. Qed.

Lemma ble_lt_trans a b c : ble a b -> blt b c -> blt a c.
Proof. intros [H| ->]%ble_lt_or_eq H2; eauto using blt_trans. Qed.

Lemma blt_le a b : blt a b -> ble a b.
Proof. intros H. apply ble_lt_or_eq. by left. Qed.

Lemma bcompare_app p a b : bcompare (p ++ a) (p ++ b) = bcompare a b.
Proof. induction p as [|x p IH]; [done|]. cbn. by rewrite Z.compare_refl. Qed.

Lemma ble_nil a : ble [] a.
Proof. unfold ble. by destruct a. Qed.

Lemma ble_app a b : ble a (a ++ b).
Proof. unfold ble. rewrite <- (app_nil_r a) at 1. rewrite bcompare_app. apply ble_nil. Qed.

#[export] Hint Resolve bcompare_refl blt_irrefl ble_nil ble_app blt_le : bytes.

(** ** Big-endian words: [binary.BigEndian.PutUint64] / [Uint64] *)

Definition u64_max : Z := 2 ^ 64 - 1.
Definition is_u64 (z : Z) : Prop := 0 <= z < 2 ^ 64.

(** The [n] low-order bytes of [z], most significant first. *)
Fixpoint be_bytes (n : nat) (z : Z) : bytes :=
  match n with
  | O => []
  | S m => byte_of_Z (z / 256 ^ Z.of_nat m) :: be_bytes m z
  end.

Fixpoint be_val (s : bytes) : Z :=
  match s with
  | [] => 0
  | b :: s' => bval b * 256 ^ Z.of_nat (length s') + be_val s'
  end.

Definition be64 (z : Z) : bytes := be_bytes 8 z.

Lemma length_be_bytes n z : length (be_bytes n z) = n.
Proof. induction n; cbn; auto. Qed.

Lemma length_be64 z : length (be64 z) = 8%nat.
Proof. apply length_be_bytes. Qed.

Lemma be_val_range s : 0 <= be_val s < 256 ^ Z.of_nat (length s).
Proof.
  induction s as [|b s IH]; cbn [be_val length]; [lia|].
  rewrite Nat2Z.inj_succ, Z.pow_succ_r by lia. pose proof (bval_range b). nia.
Qed.

Lemma be_val_bytes n z : be_val (be_bytes n z) = z mod 256 ^ Z.of_nat n.
Proof.
  induction n as [|n IH]; cbn [be_bytes be_val]; [by rewrite Z.mod_1_r|].
  rewrite length_be_bytes, bval_of_Z, IH, Nat2Z.inj_succ, Z.pow_succ_r by lia.
  rewrite (Z.mul_comm 256), Z.rem_mul_r by lia. lia.
Qed.

Lemma be_bytes_val s : be_bytes (length s) (be_val s) = s.
Proof.
  enough (forall n s z, length s = n -> be_bytes n (z * 256 ^ Z.of_nat n + be_val s) = s) as H
    by (rewrite <- (H _ s 0 eq_refl) at 3; f_equal; lia).
  clear s. induction n as [|n IH]; intros [|b s] z Hl; try done. cbn in Hl. injection Hl as Hl.
  cbn [be_bytes be_val]. pose proof (be_val_range s) as Hr. rewrite Hl in Hr |- *.
  rewrite Nat2Z.inj_succ, Z.pow_succ_r by lia.
  replace (z * (256 * 256 ^ Z.of_nat n) + (bval b * 256 ^ Z.of_nat n + be_val s))
    with ((z * 256 + bval b) * 256 ^ Z.of_nat n + be_val s) by lia.
  f_equal; [|by apply IH].
  rewrite Z.div_add_l, (Z.div_small (be_val s)) by lia.
  apply bval_inj. rewrite bval_of_Z, Z.add_0_r, Z.add_comm, Z.mod_add by lia.
  apply Z.mod_small, bval_range.
Qed.

Lemma be_val_be64 z : is_u64 z -> be_val (be64 z) = z.
Proof. intros H. unfold be64. rewrite be_val_bytes. by apply Z.mod_small. Qed.

Lemma be64_be_val s : length s = 8%nat -> be64 (be_val s) = s.
Proof. intros H. unfold be64. rewrite <- H. apply be_bytes_val. Qed.

Lemma be64_inj a b : is_u64 a -> is_u64 b -> be64 a = be64 b -> a = b.
Proof. intros Ha Hb H. rewrite <- (be_val_be64 a), <- (be_val_be64 b) by done. by rewrite H. Qed.

Lemma bcompare_be_val s t :
  length s = length t -> bcompare s t = (be_val s ?= be_val t).
Proof.
  revert t. induction s as [|b s IH]; intros [|c t] Hl; try done. injection Hl as Hl.
  cbn [bcompare be_val]. rewrite (IH t Hl).
  pose proof (be_val_range s). pose proof (be_val_range t). rewrite Hl in *.
  destruct (Z.compare_spec (bval b) (bval c)) as [->|?|?].
  - rewrite Z.add_compare_mono_l. done.
  - symmetry. apply Z.compare_lt_iff. nia.
  - symmetry. apply Z.compare_gt_iff. nia.
Qed.

(** Fixed-width big-endian encoding is monotone, so the key order of versions is their
    numeric order. *)
Lemma bcompare_be64 a b : is_u64 a -> is_u64 b -> bcompare (be64 a) (be64 b) = (a ?= b).
Proof.
  intros Ha Hb. rewrite bcompare_be_val by (by rewrite !length_be64).
  by rewrite !be_val_be64.
Qed.

(** Comparison of two keys that share a prefix and are followed by fixed-width suffixes. *)
Lemma bcompare_app_diff a b x y :
  length a = length b -> a <> b -> bcompare (a ++ x) (b ++ y) = bcompare a b.
Proof.
  revert b. induction a as [|p a IH]; intros [|q b] Hl Hn; try done. injection Hl as Hl. cbn.
  destruct (Z.compare_spec (bval p) (bval q)) as [E|?|?]; try done.
  apply IH; [done|]. apply bval_inj in E. congruence.
Qed.

#[export] Hint Rewrite length_be64 length_be_bytes bcompare_app : bytes.

(** ** Results and the error monad

    A Go function returning [(T, error)] is a function into [result E T]; on the error path
    the code returns the zero value beside the error, which no caller reads. *)

Inductive result (E A : Type) : Type :=
  | Ok (a : A)
  | Err (e : E).
Arguments Ok {E A} a.
Arguments Err {E A} e.

Definition rbind {E A B} (m : result E A) (f : A -> result E B) : result E B :=
  match m with Ok a => f a | Err e => Err e end.

Declare Scope gbl_scope.
Delimit Scope gbl_scope with gbl.
Notation "'let*' x ':=' m 'in' k" := (rbind m (fun x => k))
  (at level 10, x pattern, m at level 100, k at level 200) : gbl_scope.
Notation "'guard' c 'else' e 'in' k" := (if (c : bool) then k else Err e)
  (at level 10, c at level 100, e at level 100, k at level 200) : gbl_scope.
#[global] Open Scope gbl_scope.

Definition is_ok {E A} (m : result E A) : bool := match m with Ok _ => true | Err _ => false end.

(** ** Sorting: [sort.Strings], [sort.Slice], [sort.SliceStable]

    The standard library's sort is modelled by insertion before the first element that is
    greater, which is stable; [less] is the comparison the call site passes. *)

Section Sort.
Context {A : Type} (less : A -> A -> bool).

Fixpoint insert_sorted (x : A) (l : list A) : list A :=
  match l with
  | [] => [x]
  | y :: l' => if less x y then x :: l else y :: insert_sorted x l'
  end.

Definition sort_stable (l : list A) : list A := foldr insert_sorted [] (reverse l).

Lemma insert_sorted_perm x l : insert_sorted x l ≡ₚ x :: l.
Proof.
  induction l as [|y l IH]; cbn; [done|]. destruct (less x y); [done|].
  rewrite IH. by constructor.
Qed.

Lemma foldr_insert_perm l : foldr insert_sorted [] l ≡ₚ l.
Proof. induction l as [|x l IH]; cbn; [done|]. by rewrite insert_sorted_perm, IH. Qed.

Lemma sort_stable_perm l : sort_stable l ≡ₚ l.
Proof. unfold sort_stable. rewrite foldr_insert_perm. by rewrite reverse_Permutation. Qed.

(** The order a sorted slice satisfies: no element is less than an earlier one. *)
Definition not_after (x y : A) : Prop := less y x = false.

Context (less_asym : forall x y, less x y = true -> less y x = false).
Context (not_less_trans : forall x y z, less y x = false -> less z y = false -> less z x = false).

Lemma insert_sorted_sorted x l :
  StronglySorted not_after l -> StronglySorted not_after (insert_sorted x l).
Proof.
  induction 1 as [|y l Hs IH Hy]; cbn; [by repeat constructor|].
  destruct (less x y) eqn:E.
  - constructor; [by constructor|]. constructor; [by apply less_asym|].
    eapply Forall_impl; [exact Hy|]. intros z Hz. eapply not_less_trans; [|exact Hz].
    by apply less_asym.
  - constructor; [done|]. rewrite insert_sorted_perm. by constructor.
Qed.

Lemma sort_stable_sorted l : StronglySorted not_after (sort_stable l).
Proof.
  unfold sort_stable. induction (reverse l) as [|x k IH]; cbn; [constructor|].
  by apply insert_sorted_sorted.
Qed.

(** Two slices with the same elements sort to the same slice when the comparison tells
    different elements apart. *)
Context (less_total : forall x y, less x y = false -> less y x = false -> x = y).

Lemma sort_stable_unique l k : l ≡ₚ k -> sort_stable l = sort_stable k.
Proof.
  intros Hp. apply (StronglySorted_unique_strong not_after).
  - intros x y _ _ Hxy Hyx. by apply less_total.
  - apply sort_stable_sorted.
  - apply sort_stable_sorted.
  - by rewrite !sort_stable_perm.
Qed.
End Sort.

Lemma bltb_asym x y : bltb x y = true -> bltb y x = false.
Proof.
  intros H%bltb_spec. apply not_true_is_false. rewrite bltb_spec. intros H2.
  apply (blt_irrefl x). by apply (blt_trans _ y).
Qed.

Lemma bltb_false x y : bltb x y = false <-> ble y x.
Proof. rewrite <- not_true_iff_false, bltb_spec. apply not_blt. Qed.

Lemma bltb_not_trans x y z : bltb y x = false -> bltb z y = false -> bltb z x = false.
Proof. rewrite !bltb_false. intros. by transitivity y. Qed.

Lemma bltb_total x y : bltb x y = false -> bltb y x = false -> x = y.
Proof. rewrite !bltb_false. intros. by apply ble_antisym. Qed.

(** [sort.Strings] does not depend on the order it is given. *)
Lemma sort_strings_unique (l k : list bytes) : l ≡ₚ k -> sort_stable bltb l = sort_stable bltb k.
Proof.
  apply sort_stable_unique; [apply bltb_asym|apply bltb_not_trans|apply bltb_total].
Qed.

(** A map that keeps the order commutes with the sort. *)
Lemma insert_sorted_fmap {A B} (f : A -> B) (less : A -> A -> bool) (less' : B -> B -> bool) x l :
  (forall a b, less' (f a) (f b) = less a b) -> f <$> insert_sorted less x l = insert_sorted less' (f x) (f <$> l).
Proof.
  intros Hf. induction l as [|a l IH]; [done|]. cbn [insert_sorted fmap list_fmap]. rewrite Hf.
  destruct (less x a); [done|]. cbn [fmap list_fmap]. by rewrite <- IH.
Qed.

Lemma sort_stable_fmap {A B} (f : A -> B) (less : A -> A -> bool) (less' : B -> B -> bool) l :
  (forall a b, less' (f a) (f b) = less a b) -> f <$> sort_stable less l = sort_stable less' (f <$> l).
Proof.
  intros Hf. unfold sort_stable. rewrite <- fmap_reverse. induction (reverse l) as [|x k IH]; [done|].
  cbn [foldr fmap list_fmap]. rewrite (insert_sorted_fmap f less less') by done. by rewrite IH.
Qed.

(** ** Sums over maps: the accounting loops *)

Section MapSum.
Context {K V : Type} `{Countable K}.
Implicit Types (f : K -> V -> Z) (m : gmap K V).

Definition map_sum f m : Z := map_fold (fun k v acc => f k v + acc) 0 m.

Lemma map_sum_empty f : map_sum f ∅ = 0.
Proof. apply map_fold_empty. Qed.

Lemma map_sum_insert f m k v :
  m !! k = None -> map_sum f (<[k:=v]> m) = f k v + map_sum f m.
Proof. intros Hk. unfold map_sum. rewrite map_fold_insert_L; [done| |done]. intros; lia. Qed.

Lemma map_sum_delete f m k v :
  m !! k = Some v -> map_sum f m = f k v + map_sum f (delete k m).
Proof.
  intros Hk. rewrite <- (insert_delete_id m k v) at 1 by done.
  apply map_sum_insert, lookup_delete_eq.
Qed.

Lemma map_sum_delete_any f m k :
  map_sum f (delete k m) = map_sum f m - from_option (f k) 0 (m !! k).
Proof.
  destruct (m !! k) as [v|] eqn:E; cbn.
  - rewrite (map_sum_delete f m k v E). lia.
  - rewrite delete_id by done. lia.
Qed.

Lemma map_sum_insert_any f m k v :
  map_sum f (<[k:=v]> m) = map_sum f m - from_option (f k) 0 (m !! k) + f k v.
Proof.
  rewrite <- (insert_delete_eq m k v), map_sum_insert by apply lookup_delete_eq.
  rewrite map_sum_delete_any. lia.
Qed.

Lemma map_sum_ext f g m :
  (forall k v, m !! k = Some v -> f k v = g k v) -> map_sum f m = map_sum g m.
Proof.
  induction m as [|k v m Hk IH] using map_ind; intros Hfg; [done|].
  rewrite !map_sum_insert by done. rewrite IH; [|intros; apply Hfg; by simplify_map_eq].
  f_equal. apply Hfg. by simplify_map_eq.
Qed.

Lemma map_sum_nonneg f m :
  (forall k v, m !! k = Some v -> 0 <= f k v) -> 0 <= map_sum f m.
Proof.
  induction m as [|k v m Hk IH] using map_ind; intros Hf; [done|].
  rewrite map_sum_insert by done.
  assert (0 <= f k v) by (apply Hf; by simplify_map_eq).
  enough (0 <= map_sum f m) by lia. apply IH. intros; apply Hf. by simplify_map_eq.
Qed.

Lemma map_sum_1 m : map_sum (fun _ _ => 1) m = Z.of_nat (size m).
Proof.
  induction m as [|k v m Hk IH] using map_ind; [by rewrite map_sum_empty, map_size_empty|].
  rewrite map_sum_insert, map_size_insert_None, IH by done. lia.
Qed.
End MapSum.

(** ** Go map iteration

    [for k, v := range m] visits the entries in an order the language leaves unspecified, and
    two loops over the same map may differ.  The order is a parameter: [tick] tells the loops
    of one operation apart.  Results about definitions that range over a map hold for every
    instance. *)

Class MapRange : Type := {
  range : nat -> forall (K V : Type) (ED : EqDecision K) (CK : Countable K), gmap K V -> list (K * V);
  range_perm : forall tick K V ED CK m, range tick K V ED CK m ≡ₚ map_to_list m
}.
Arguments range {_} tick {K V ED CK} m.

(** The instance used to evaluate definitions on concrete inputs. *)
#[export, program] Instance canonical_range : MapRange | 100 :=
  {| range := fun _ K V ED CK m => map_to_list m |}.
Next Obligation. done. Qed.

Lemma elem_of_range `{MapRange} tick `{Countable K} {V} (m : gmap K V) k v :
  (k, v) ∈ range tick m <-> m !! k = Some v.
Proof. rewrite range_perm. apply elem_of_map_to_list. Qed.

Lemma range_NoDup `{MapRange} tick `{Countable K} {V} (m : gmap K V) :
  NoDup (range tick m).*1.
Proof. rewrite range_perm. apply NoDup_fst_map_to_list. Qed.

(** A loop over a set, [for k := range m] of a [map[K]bool]. *)
Definition range_set `{MapRange} (tick : nat) `{Countable K} (s : gset K) : list K :=
  (range tick (gset_to_gmap tt s)).*1.

Lemma elem_of_range_set `{MapRange} tick `{Countable K} (s : gset K) (k : K) :
  k ∈ range_set tick s <-> k ∈ s.
Proof.
  unfold range_set. rewrite list_elem_of_fmap. split.
  - intros ([k' []] & -> & Hk%elem_of_range). by apply lookup_gset_to_gmap_Some in Hk as [? _].
  - intros Hk. exists (k, tt). split; [done|]. apply elem_of_range. by apply lookup_gset_to_gmap_Some.
Qed.

Lemma range_set_NoDup `{MapRange} tick `{Countable K} (s : gset K) : NoDup (range_set tick s).
Proof. apply range_NoDup. Qed.

(** ** Small list operations of the code *)

(** Swap-with-last removal: [l[i] = l[len-1]; l = l[:len-1]]. *)
Definition swap_remove {A} (i : nat) (l : list A) : list A :=
  match last l with
  | Some z => take (length l - 1) (<[i:=z]> l)
  | None => []
  end.

(** The first index whose element satisfies [p]. *)
Fixpoint find_index {A} (p : A -> bool) (l : list A) : option nat :=
  match l with
  | [] => None
  | x :: l' => if p x then Some O else S <$> find_index p l'
  end.

Lemma find_index_Some {A} (p : A -> bool) (l : list A) (i : nat) :
  find_index p l = Some i ->
  exists x, l !! i = Some x /\ p x = true /\
    (forall j y, (j < i)%nat -> l !! j = Some y -> p y = false).
Proof.
  revert i. induction l as [|x l IH]; intros i; cbn; [done|].
  destruct (p x) eqn:E.
  - intros [= <-]. exists x. split_and!; [done..|]. lia.
  - intros (j & Hj & ->)%fmap_Some_1. destruct (IH _ Hj) as (y & Hy & Hp & Hlt).
    exists y. split_and!; [done..|]. intros [|j'] z Hj' Hz; cbn in Hz; [congruence|].
    eapply Hlt; [|done]. lia.
Qed.

Lemma find_index_None {A} (p : A -> bool) (l : list A) :
  find_index p l = None <-> Forall (fun x => p x = false) l.
Proof.
  induction l as [|x l IH]; cbn; [by split; [constructor|]|].
  rewrite Forall_cons, <- IH. destruct (p x); [split; [done|by intros [? _]]|].
  destruct (find_index p l); cbn; intuition congruence.
Qed.

(** Removing the [i]-th element by swapping in the last one keeps the other elements. *)
Lemma swap_remove_perm {A} (l : list A) i x :
  l !! i = Some x -> x :: swap_remove i l ≡ₚ l.
Proof.
  intros Hi. unfold swap_remove. destruct l as [|z k _] using rev_ind; [done|].
  rewrite last_snoc, length_app. cbn. replace (length k + 1 - 1)%nat with (length k) by lia.
  destruct (decide (i = length k)) as [->|Hne].
  - rewrite lookup_app_r, Nat.sub_diag in Hi by lia. injection Hi as ->.
    rewrite insert_app_r_alt, Nat.sub_diag by lia. cbn. rewrite take_app_length.
    apply Permutation_cons_append.
  - assert (i < length k)%nat by (apply lookup_lt_Some in Hi; rewrite length_app in Hi; cbn in Hi; lia).
    rewrite lookup_app_l in Hi by done. rewrite insert_app_l by done.
    rewrite take_app_le, take_ge by (rewrite length_insert; lia).
    rewrite insert_take_drop by done.
    rewrite <- (take_drop_middle k i x) at 3 by done.
    rewrite <- app_assoc. cbn. rewrite <- !Permutation_middle.
    by rewrite app_nil_r.
Qed.

(** ** Field update

    [r <| f := v |>] is the assignment [r.f = v] of a Go struct.  A record declares how it is
    rebuilt from its own projections ([Rebuild]); the update of a field abstracts that field in
    the rebuilt record. *)

Class Rebuild (R : Type) : Type := rebuild : R -> R.
Class FieldUpdate {R T : Type} (proj : R -> T) : Type := field_update : (T -> T) -> R -> R.
Arguments field_update {R T} proj {_} g x /.

Ltac derive_field_update R proj :=
  let g := fresh "g" in
  let x := fresh "x" in
  intros g x;
  let t := eval hnf in (@rebuild R _ x) in
  lazymatch eval pattern (proj x) in t with
  | ?ctx _ => let u := eval cbv beta in (ctx (g (proj x))) in exact u
  end.

#[export] Hint Extern 1 (@FieldUpdate ?R _ ?proj) => derive_field_update R proj : typeclass_instances.

Notation "x <| f := v |>" := (field_update f (fun _ => v) x)
  (at level 1, f at level 10, v at level 200, left associativity) : gbl_scope.
Notation "x <| f ::= g |>" := (field_update f g x)
  (at level 1, f at level 10, g at level 200, left associativity) : gbl_scope.

(** ** Automation

    [bool_prop] turns the boolean conditions of the code, where they are hypotheses, into
    propositions; [bool_goal] does the same in the goal. *)

Ltac bool_prop :=
  repeat match goal with
  | H : true = true |- _ => clear H
  | H : false = false |- _ => clear H
  | H : true = _ |- _ => symmetry in H
  | H : false = _ |- _ => symmetry in H
  | H : _ && _ = true |- _ => apply andb_true_iff in H as [? ?]
  | H : _ || _ = false |- _ => apply orb_false_iff in H as [? ?]
  | H : _ || _ = true |- _ => apply orb_true_iff in H as [H|H]
  | H : _ && _ = false |- _ => apply andb_false_iff in H as [H|H]
  | H : negb _ = true |- _ => apply negb_true_iff in H
  | H : negb _ = false |- _ => apply negb_false_iff in H
  | H : bool_decide _ = true |- _ => apply bool_decide_eq_true in H
  | H : bool_decide _ = false |- _ => apply bool_decide_eq_false in H
  | H : (_ <? _) = true |- _ => apply Z.ltb_lt in H
  | H : (_ <? _) = false |- _ => apply Z.ltb_ge in H
  | H : (_ <=? _) = true |- _ => apply Z.leb_le in H
  | H : (_ <=? _) = false |- _ => apply Z.leb_gt in H
  | H : (_ =? _) = true |- _ => apply Z.eqb_eq in H
  | H : (_ =? _) = false |- _ => apply Z.eqb_neq in H
  end.

Ltac bool_goal :=
  rewrite ?andb_true_iff, ?orb_true_iff, ?negb_true_iff, ?bool_decide_eq_true,
    ?bool_decide_eq_false, ?Z.ltb_lt, ?Z.ltb_ge, ?Z.leb_le, ?Z.leb_gt, ?Z.eqb_eq, ?Z.eqb_neq,
    ?orb_false_iff, ?andb_false_iff.

(** ** Membership in appended lists *)

Lemma elem_app_l {A} (x : A) l k : x ∈ l -> x ∈ l ++ k.
Proof. intros. apply elem_of_app. by left. Qed.

Lemma elem_app_r {A} (x : A) l k : x ∈ k -> x ∈ l ++ k.
Proof. intros. apply elem_of_app. by right. Qed.

Lemma elem_snoc {A} (x : A) l : x ∈ l ++ [x].
Proof. apply elem_app_r. by apply list_elem_of_singleton. Qed.

#[export] Hint Resolve elem_app_l elem_app_r elem_snoc : gbl.

(** A loop that adds to a set: what each iteration adds is what the loop adds. *)
Lemma foldl_collects {A} `{Countable B} (step : gset B -> A -> gset B) (P : A -> B -> Prop) l s x :
  (forall s c x, x ∈ step s c <-> P c x \/ x ∈ s) ->
  x ∈ foldl step s l <-> x ∈ s \/ exists c, c ∈ l /\ P c x.
Proof.
  intros Hstep. revert s. induction l as [|c l IH]; intros s; cbn.
  - split; [by left|]. intros [|(? & []%not_elem_of_nil & _)]; done.
  - rewrite IH, Hstep. split.
    + intros [[?|?]|(d & ? & ?)]; [right; exists c|by left|right; exists d]; split; auto; by constructor.
    + intros [?|(d & [-> |?]%elem_of_cons & ?)]; [auto..|right; eauto].
Qed.

Lemma set_fold_collects `{Countable A} `{Countable B} (step : A -> gset B -> gset B) (P : A -> B -> Prop)
    (X : gset A) (s : gset B) (x : B) :
  (forall a s x, x ∈ step a s <-> P a x \/ x ∈ s) ->
  x ∈ set_fold step s X <-> x ∈ s \/ exists a, a ∈ X /\ P a x.
Proof.
  intros Hstep. unfold set_fold. cbn [compose].
  assert (forall a, a ∈ X <-> a ∈ elements X) as E by (intros; by rewrite elem_of_elements). setoid_rewrite E. clear E.
  induction (elements X) as [|a l IH]; cbn [foldr].
  - split; [by left|]. by intros [?|(? & []%not_elem_of_nil & _)].
  - rewrite Hstep, IH. setoid_rewrite elem_of_cons. split.
    + intros [?|[?|(a' & ? & ?)]]; [right; exists a|left|right; exists a']; tauto.
    + intros [?|(a' & [->|?] & ?)]; [tauto..|]. right; right. by exists a'.
Qed.

Lemma map_fold_collects `{Countable K} {V} `{Countable B} (step : K -> V -> gset B -> gset B)
    (P : K -> V -> B -> Prop) (m : gmap K V) (s : gset B) (x : B) :
  (forall k v s x, x ∈ step k v s <-> P k v x \/ x ∈ s) ->
  x ∈ map_fold step s m <-> x ∈ s \/ exists k v, m !! k = Some v /\ P k v x.
Proof.
  intros Hstep. rewrite map_fold_foldr.
  assert (forall k v, m !! k = Some v <-> (k, v) ∈ map_to_list m) as E by (intros; by rewrite elem_of_map_to_list).
  setoid_rewrite E. clear E.
  induction (map_to_list m) as [|[k v] l IH]; cbn [foldr curry uncurry].
  - split; [by left|]. by intros [?|(? & ? & []%not_elem_of_nil & _)].
  - rewrite Hstep, IH. setoid_rewrite elem_of_cons. split.
    + intros [?|[?|(k' & v' & ? & ?)]]; [right; exists k, v|left|right; exists k', v']; tauto.
    + intros [?|(k' & v' & [[= -> ->]|?] & ?)]; [tauto..|]. right; right. by exists k', v'.
Qed.
