(* ===== verification/LockTypes.v ===== *)
(** * The lock manager's data: [lockmanager/types.go]

    Modes, resource kinds, identities, scopes, request statuses and budget limits of the lock
    manager, with their validity predicates and the option-resolution rules. *)

From stdpp Require Import gmap list numbers strings.
From S2P Require Import Prelude.

(** The sentinel errors of the package. *)
Inductive lock_error : Type :=
  | ErrOwnerExists | ErrOwnerUnknown | ErrScopeUnknown | ErrScopeOwnerMismatch
  | ErrOrdinalExhausted | ErrInvalidResource | ErrBudgetMemory | ErrBudgetRootRequests
  | ErrBudgetWaiters | ErrBudgetGraph | ErrInvalidOptions | ErrTableIntentRequired
  | ErrInsertIntentionRequiresRecord | ErrUnsupportedMode | ErrOwnerEnding | ErrConflict
  | ErrLockWaitTimeout | ErrDeadlock | ErrLockResourceLimit | ErrLockInvalidated
  | ErrContext.  (* the error of a context that is already done *)

#[export] Instance lock_error_eq_dec : EqDecision lock_error.
Proof. solve_decision. Defined.

(** ** Enumerations

    Each is a Go string type; [...Other s] is any string that is not a published constant. *)

Inductive LockState : Type :=
  | LockStateFree | LockStateShared | LockStateExclusive | LockStateWaiting.

Inductive AbortReason : Type := AbortDeadlock | AbortEpoch.

Inductive OwnerState : Type :=
  | OwnerActive | OwnerAbortRequested | OwnerFinishing | OwnerEnded.

Inductive ScopeKind : Type :=
  | ScopeStatement | ScopeChild | ScopeSavepoint | ScopeKindOther (s : bytes).

Inductive ScopeState : Type := ScopeOpen | ScopeClosing | ScopeClosed.

Inductive RequestStatus : Type :=
  | RequestPending | RequestGranted | RequestTimedOut | RequestContextCanceled
  | RequestCanceled | RequestDeadlockVictim | RequestInvalidated | RequestResourceRejected.

Inductive ResourceKind : Type :=
  | KindTableIntent | KindRecord | KindInterval | KindOther (s : bytes).

Inductive Mode : Type :=
  | ModeIS | ModeIX | ModeS | ModeX | ModeGap | ModeInsertIntention | ModeOther (s : bytes).

Inductive WaitEdgeReason : Type := EdgeHolder | EdgeOlderWaiter.

#[export] Instance LockState_eq_dec : EqDecision LockState. Proof. solve_decision. Defined.
#[export] Instance AbortReason_eq_dec : EqDecision AbortReason. Proof. solve_decision. Defined.
#[export] Instance OwnerState_eq_dec : EqDecision OwnerState. Proof. solve_decision. Defined.
#[export] Instance ScopeKind_eq_dec : EqDecision ScopeKind. Proof. solve_decision. Defined.
#[export] Instance ScopeState_eq_dec : EqDecision ScopeState. Proof. solve_decision. Defined.
#[export] Instance RequestStatus_eq_dec : EqDecision RequestStatus. Proof. solve_decision. Defined.
#[export] Instance ResourceKind_eq_dec : EqDecision ResourceKind. Proof. solve_decision. Defined.
#[export] Instance Mode_eq_dec : EqDecision Mode. Proof. solve_decision. Defined.
#[export] Instance WaitEdgeReason_eq_dec : EqDecision WaitEdgeReason. Proof. solve_decision. Defined.

(** The string constants, where the code writes a mode into a key or compares modes as strings. *)
Definition mode_string (m : Mode) : bytes :=
  match m with
  | ModeIS => str "IS"
  | ModeIX => str "IX"
  | ModeS => str "S"
  | ModeX => str "X"
  | ModeGap => str "GAP"
  | ModeInsertIntention => str "INSERT_INTENTION"
  | ModeOther s => s
  end.

Definition mode_code (m : Mode) : nat + bytes :=
  match m with
  | ModeIS => inl 0%nat | ModeIX => inl 1%nat | ModeS => inl 2%nat | ModeX => inl 3%nat
  | ModeGap => inl 4%nat | ModeInsertIntention => inl 5%nat | ModeOther s => inr s
  end.

Definition mode_decode (c : nat + bytes) : Mode :=
  match c with
  | inl 0%nat => ModeIS | inl 1%nat => ModeIX | inl 2%nat => ModeS | inl 3%nat => ModeX
  | inl 4%nat => ModeGap | inl _ => ModeInsertIntention | inr s => ModeOther s
  end.

#[export] Instance Mode_countable : Countable Mode :=
  inj_countable' mode_code mode_decode ltac:(by intros []).

Definition reason_code (r : WaitEdgeReason) : bool :=
  match r with EdgeHolder => false | EdgeOlderWaiter => true end.

#[export] Instance WaitEdgeReason_countable : Countable WaitEdgeReason :=
  inj_countable' reason_code (fun b : bool => if b then EdgeOlderWaiter else EdgeHolder)
    ltac:(by intros []).

Definition Mode_Valid (m : Mode) : bool :=
  match m with
  | ModeIS | ModeIX | ModeS | ModeX | ModeGap | ModeInsertIntention => true
  | ModeOther _ => false
  end.

Definition Mode_Intention (m : Mode) : bool := bool_decide (m = ModeIS) || bool_decide (m = ModeIX).
Definition Mode_Record (m : Mode) : bool := bool_decide (m = ModeS) || bool_decide (m = ModeX).
Definition Mode_Interval (m : Mode) : bool :=
  bool_decide (m = ModeGap) || bool_decide (m = ModeInsertIntention).

Lemma Mode_Intention_spec m : Mode_Intention m = true <-> m = ModeIS \/ m = ModeIX.
Proof. unfold Mode_Intention. by rewrite orb_true_iff, !bool_decide_eq_true. Qed.

Lemma Mode_Record_spec m : Mode_Record m = true <-> m = ModeS \/ m = ModeX.
Proof. unfold Mode_Record. by rewrite orb_true_iff, !bool_decide_eq_true. Qed.

Lemma Mode_Interval_spec m : Mode_Interval m = true <-> m = ModeGap \/ m = ModeInsertIntention.
Proof. unfold Mode_Interval. by rewrite orb_true_iff, !bool_decide_eq_true. Qed.

Definition Kind_Valid (k : ResourceKind) : bool :=
  match k with
  | KindTableIntent | KindRecord | KindInterval => true
  | KindOther _ => false
  end.

Definition ScopeKind_Valid (k : ScopeKind) : bool :=
  match k with
  | ScopeStatement | ScopeChild | ScopeSavepoint => true
  | ScopeKindOther _ => false
  end.

Definition OwnerState_CanRequest (s : OwnerState) : bool := bool_decide (s = OwnerActive).

Definition Terminal (s : RequestStatus) : bool := negb (bool_decide (s = RequestPending)).

(** ** Identities and components *)

Record Identity : Type := mkIdentity {
  Generation : Z;
  Space : bytes;
  TableID : bytes;
  IndexID : bytes;
  Kind : ResourceKind;
  Key : option bytes;
  Lower : option bytes;
  Upper : option bytes;
  LowerInclusive : bool;
  UpperInclusive : bool;
  mode : Mode
}.

#[export] Instance Identity_rebuild : Rebuild Identity := fun i =>
  mkIdentity (Generation i) (Space i) (TableID i) (IndexID i) (Kind i) (Key i) (Lower i)
    (Upper i) (LowerInclusive i) (UpperInclusive i) (mode i).

#[export] Instance Identity_eq_dec : EqDecision Identity. Proof. solve_decision. Defined.

(** A [ResourceRef] embeds its [Identity] and adds nothing; [Clone] copies the byte slices,
    which is the identity on values. *)
Abbreviation ResourceRef := Identity.

Definition resourceFixedBytes : Z := 64.
Definition requestFixedBytes : Z := 128.
Definition waiterFixedBytes : Z := 64.
Definition grantFixedBytes : Z := 64.
Definition edgeFixedBytes : Z := 48.
Definition scopeFixedBytes : Z := 96.
Definition ownerFixedBytes : Z := 128.

Definition OwnedBytes64 (r : ResourceRef) : Z :=
  blen (Space r) + blen (TableID r) + blen (IndexID r) + blen (raw (Key r)) + blen (raw (Lower r))
  + blen (raw (Upper r)) + resourceFixedBytes.

Lemma OwnedBytes64_pos r : 64 <= OwnedBytes64 r.
Proof. unfold OwnedBytes64, resourceFixedBytes, blen. lia. Qed.

(** ** Scopes

    Times are instants in nanoseconds since Go's zero time, which is [0]. *)
Record Scope : Type := mkScope {
  ScopeID : Z;
  ScopeOwnerID : bytes;
  OriginTxnID : bytes;
  ParentScopeID : Z;
  SKind : ScopeKind;
  SState : ScopeState;
  OpenedAt : Z;
  ContextDeadline : Z;
  WaitBudget : Z
}.

#[export] Instance Scope_rebuild : Rebuild Scope := fun s =>
  mkScope (ScopeID s) (ScopeOwnerID s) (OriginTxnID s) (ParentScopeID s) (SKind s) (SState s)
    (OpenedAt s) (ContextDeadline s) (WaitBudget s).

Definition Scope_CanRequest (s : Scope) : bool := bool_decide (SState s = ScopeOpen).

(** ** Observable state of a resource *)
Definition Describe (holders : Z) (holderMode : Mode) (waiters : Z) : LockState :=
  if 0 <? waiters then LockStateWaiting
  else if holders =? 0 then LockStateFree
  else if bool_decide (holderMode = ModeX) then LockStateExclusive
  else LockStateShared.

(** ** Budget limits *)
Record BudgetLimits : Type := mkLimits {
  MemoryBytes : Z;
  RootRequests : Z;
  Waiters : Z;
  GraphWork : Z
}.

#[export] Instance BudgetLimits_rebuild : Rebuild BudgetLimits := fun l =>
  mkLimits (MemoryBytes l) (RootRequests l) (Waiters l) (GraphWork l).

Definition DefaultMemoryBytes : Z := Z.shiftl 64 20.
Definition DefaultRootRequests : Z := 262144.
Definition DefaultWaiters : Z := 4096.
Definition DefaultGraphWork : Z := 100000.
Definition MaxMemoryBytes : Z := Z.shiftl 1 40.
Definition MaxRootRequests : Z := Z.shiftl 1 31 - 1.
Definition MaxWaiters : Z := Z.shiftl 1 31 - 1.
Definition MaxGraphWork : Z := Z.shiftl 1 31 - 1.
Definition MaxDiagnosticRows : Z := 256.
Definition maxDeadlockSummaries : nat := 32.
Definition maxDeadlockNodes : nat := 32.

Definition or_default (v d : Z) : Z := if v =? 0 then d else v.

Definition Resolve (l : BudgetLimits) : result lock_error BudgetLimits :=
  let resolved := mkLimits (or_default (MemoryBytes l) DefaultMemoryBytes)
                    (or_default (RootRequests l) DefaultRootRequests)
                    (or_default (Waiters l) DefaultWaiters)
                    (or_default (GraphWork l) DefaultGraphWork) in
  if (MemoryBytes resolved <? 0) || (RootRequests resolved <? 0) || (Waiters resolved <? 0)
     || (GraphWork resolved <? 0)
  then Err ErrInvalidOptions
  else if (MaxMemoryBytes <? MemoryBytes resolved) || (MaxRootRequests <? RootRequests resolved)
     || (MaxWaiters <? Waiters resolved) || (MaxGraphWork <? GraphWork resolved)
  then Err ErrInvalidOptions
  else Ok resolved.

Definition ResolvePageLimit (limit : Z) : Z * bool :=
  if limit <=? 0 then (MaxDiagnosticRows, false)
  else if MaxDiagnosticRows <? limit then (MaxDiagnosticRows, true)
  else (limit, false).

(** A limit in force: positive and no larger than its published maximum. *)
Definition limits_in_range (l : BudgetLimits) : Prop :=
  0 < MemoryBytes l <= MaxMemoryBytes /\ 0 < RootRequests l <= MaxRootRequests /\
  0 < Waiters l <= MaxWaiters /\ 0 < GraphWork l <= MaxGraphWork.

Lemma or_default_cases v d : or_default v d = d /\ v = 0 \/ or_default v d = v /\ v <> 0.
Proof. unfold or_default. destruct (Z.eqb_spec v 0); auto. Qed.

Lemma Resolve_in_range l r : Resolve l = Ok r -> limits_in_range r.
Proof.
  unfold Resolve. cbn zeta.
  destruct (or_default_cases (MemoryBytes l) DefaultMemoryBytes) as [[-> _]|[-> ?]],
    (or_default_cases (RootRequests l) DefaultRootRequests) as [[-> _]|[-> ?]],
    (or_default_cases (Waiters l) DefaultWaiters) as [[-> _]|[-> ?]],
    (or_default_cases (GraphWork l) DefaultGraphWork) as [[-> _]|[-> ?]];
    cbn [MemoryBytes RootRequests Waiters GraphWork];
    repeat case_match; try done; intros [= <-]; unfold limits_in_range;
    cbn [MemoryBytes RootRequests Waiters GraphWork];
    repeat match goal with
      | H : _ || _ = false |- _ => apply orb_false_iff in H as [? ?]
      | H : (_ <? _) = false |- _ => apply Z.ltb_ge in H
      end; unfold MaxMemoryBytes, MaxRootRequests, MaxWaiters, MaxGraphWork in *;
    unfold DefaultMemoryBytes, DefaultRootRequests, DefaultWaiters, DefaultGraphWork in *;
    rewrite ?Z.shiftl_mul_pow2 in * by lia; lia.
Qed.
