(* ===== verification/Interval.v ===== *)
(** * Byte intervals: [lockmanager/interval.go] and the interval rules of [resource.go]

    Bounds are compared in unsigned byte order.  A nil bound ([None]) is infinity and an empty
    non-nil bound ([Some []]) is the least key.  [in_range] is the set of keys an interval
    denotes; each test of the code is related to it. *)

From stdpp Require Import list strings.
From S2P Require Import Prelude LockTypes.

(** ** The code *)

Definition intervalOrdered (lower upper : option bytes) (lowerInclusive upperInclusive : bool) : bool :=
  match lower, upper with
  | Some l, Some u =>
      match bcompare l u with
      | Lt => true
      | Eq => lowerInclusive && upperInclusive
      | Gt => false
      end
  | _, _ => true
  end.

Definition intervalContains (lower upper : option bytes) (lowerInclusive upperInclusive : bool)
    (key : option bytes) : bool :=
  (match lower with
   | None => true
   | Some l => match bcompare (raw key) l with Lt => false | Eq => lowerInclusive | Gt => true end
   end) &&
  (match upper with
   | None => true
   | Some u => match bcompare (raw key) u with Gt => false | Eq => upperInclusive | Lt => true end
   end).

Definition boundsDisjoint (lower : option bytes) (lowerInclusive : bool)
    (upper : option bytes) (upperInclusive : bool) : bool :=
  match lower, upper with
  | Some l, Some u =>
      match bcompare l u with
      | Lt => false
      | Eq => negb (lowerInclusive && upperInclusive)
      | Gt => true
      end
  | _, _ => false
  end.

Definition intervalsOverlap (aLower aUpper : option bytes) (aLowerInclusive aUpperInclusive : bool)
    (bLower bUpper : option bytes) (bLowerInclusive bUpperInclusive : bool) : bool :=
  if boundsDisjoint aLower aLowerInclusive bUpper bUpperInclusive then false
  else if boundsDisjoint bLower bLowerInclusive aUpper aUpperInclusive then false
  else true.

Definition containsPoint (lower upper : option bytes) (lowerInclusive upperInclusive : bool)
    (point : option bytes) : bool :=
  match point with
  | None => false
  | Some p =>
      (match lower with
       | None => true
       | Some l => match bcompare p l with Lt => false | Eq => lowerInclusive | Gt => true end
       end) &&
      (match upper with
       | None => true
       | Some u => match bcompare p u with Gt => false | Eq => upperInclusive | Lt => true end
       end)
  end.

Definition isEmptyInterval (lower upper : option bytes) (lowerInclusive upperInclusive : bool) : bool :=
  match lower, upper with
  | Some l, Some u =>
      match bcompare l u with
      | Eq => negb (lowerInclusive && upperInclusive)
      | _ => false
      end
  | _, _ => false
  end.

Definition gapBlocksInsertion (gap : ResourceRef) (insertionKey : option bytes) : bool :=
  if isEmptyInterval (Lower gap) (Upper gap) (LowerInclusive gap) (UpperInclusive gap) then false
  else containsPoint (Lower gap) (Upper gap) (LowerInclusive gap) (UpperInclusive gap) insertionKey.

Definition gapOverlapsGap (a b : ResourceRef) : bool :=
  if isEmptyInterval (Lower a) (Upper a) (LowerInclusive a) (UpperInclusive a)
     || isEmptyInterval (Lower b) (Upper b) (LowerInclusive b) (UpperInclusive b) then false
  else intervalsOverlap (Lower a) (Upper a) (LowerInclusive a) (UpperInclusive a)
         (Lower b) (Upper b) (LowerInclusive b) (UpperInclusive b).

Definition intervalComponentsEqual (a b : ResourceRef) : bool :=
  bool_decide (Kind a = Kind b) && bool_decide (mode a = mode b) &&
  bool_decide (Space a = Space b) && bool_decide (TableID a = TableID b) &&
  bool_decide (IndexID a = IndexID b) &&
  bool_decide (raw (Lower a) = raw (Lower b)) && bool_decide (raw (Upper a) = raw (Upper b)) &&
  bool_decide (LowerInclusive a = LowerInclusive b) &&
  bool_decide (UpperInclusive a = UpperInclusive b).

(** ** What an interval denotes *)

Definition above (lower : option bytes) (incl : bool) (k : bytes) : Prop :=
  match lower with
  | None => True
  | Some l => blt l k \/ (k = l /\ incl = true)
  end.

Definition below (upper : option bytes) (incl : bool) (k : bytes) : Prop :=
  match upper with
  | None => True
  | Some u => blt k u \/ (k = u /\ incl = true)
  end.

Definition in_range (lower upper : option bytes) (li ui : bool) (k : bytes) : Prop :=
  above lower li k /\ below upper ui k.

(** The keys a gap component protects. *)
Definition gap_covers (gap : ResourceRef) (k : bytes) : Prop :=
  in_range (Lower gap) (Upper gap) (LowerInclusive gap) (UpperInclusive gap) k.

Lemma above_test lower li k :
  match lower with
  | None => true
  | Some l => match bcompare k l with Lt => false | Eq => li | Gt => true end
  end = true <-> above lower li k.
Proof.
  destruct lower as [l|]; cbn; [|done]. destruct (bcompare k l) eqn:E.
  - apply bcompare_eq in E as ->. pose proof (blt_irrefl l). intuition.
  - assert (~ blt l k) by (rewrite <- bcompare_gt, E; done).
    split; [done|]. intros [?|[-> _]]; [done|]. by apply blt_irrefl in E.
  - split; [intros _; left; by apply bcompare_gt|done].
Qed.

Lemma below_test upper ui k :
  match upper with
  | None => true
  | Some u => match bcompare k u with Gt => false | Eq => ui | Lt => true end
  end = true <-> below upper ui k.
Proof.
  destruct upper as [u|]; cbn; [|done]. destruct (bcompare k u) eqn:E.
  - apply bcompare_eq in E as ->. pose proof (blt_irrefl u). intuition.
  - split; [intros _; by left|done].
  - apply bcompare_gt in E. split; [done|]. intros [H|[-> _]].
    + destruct (blt_irrefl u). by apply (blt_trans _ k).
    + by apply blt_irrefl in E.
Qed.

Lemma containsPoint_spec lower upper li ui p :
  containsPoint lower upper li ui (Some p) = true <-> in_range lower upper li ui p.
Proof. unfold containsPoint, in_range. by rewrite andb_true_iff, above_test, below_test. Qed.

Lemma intervalContains_spec lower upper li ui k :
  intervalContains lower upper li ui k = true <-> in_range lower upper li ui (raw k).
Proof. unfold intervalContains, in_range. by rewrite andb_true_iff, above_test, below_test. Qed.

Lemma isEmptyInterval_spec lower upper li ui k :
  isEmptyInterval lower upper li ui = true -> ~ in_range lower upper li ui k.
Proof.
  destruct lower as [l|], upper as [u|]; cbn; try done.
  destruct (bcompare l u) eqn:E; try done. apply bcompare_eq in E as ->.
  intros Hi [[Ha|[-> ->]] [Hb|[? ->]]]; subst; try done.
  - destruct (blt_irrefl u). by apply (blt_trans _ k).
  - by apply blt_irrefl in Ha.
  - by apply blt_irrefl in Hb.
Qed.

Lemma gapBlocksInsertion_spec gap p :
  gapBlocksInsertion gap (Some p) = true <-> gap_covers gap p.
Proof.
  unfold gapBlocksInsertion, gap_covers. case_match eqn:E.
  - split; [done|]. intros H. by apply (isEmptyInterval_spec _ _ _ _ p) in E.
  - apply containsPoint_spec.
Qed.

Lemma gapBlocksInsertion_nil gap : gapBlocksInsertion gap None = false.
Proof. unfold gapBlocksInsertion. by case_match. Qed.

Lemma boundsDisjoint_spec lower li upper ui k :
  above lower li k -> below upper ui k -> boundsDisjoint lower li upper ui = false.
Proof.
  destruct lower as [l|], upper as [u|]; cbn; try done.
  destruct (bcompare l u) eqn:E; try done.
  - apply bcompare_eq in E as ->. intros [Ha|[-> ->]] [Hb|[? ->]]; subst; try done.
    + destruct (blt_irrefl u). by apply (blt_trans _ k).
    + by apply blt_irrefl in Ha.
    + by apply blt_irrefl in Hb.
  - apply bcompare_gt in E. intros Ha Hb. exfalso.
    assert (ble l k) by (destruct Ha as [?|[-> _]]; [by apply blt_le|reflexivity]).
    assert (ble k u) by (destruct Hb as [?|[-> _]]; [by apply blt_le|reflexivity]).
    apply (blt_irrefl u). eapply blt_le_trans; [exact E|]. by transitivity k.
Qed.

(** An interval starts at a least key: unbounded below, or with its lower bound included. *)
Definition lower_closed (lower : option bytes) (li : bool) : Prop := lower = None \/ li = true.

Definition least (lower : option bytes) : bytes := raw lower.

Definition bmax (a b : bytes) : bytes := if bltb a b then b else a.

Lemma bmax_cases a b : (bmax a b = b /\ ble a b) \/ (bmax a b = a /\ ble b a).
Proof.
  unfold bmax. destruct (bltb a b) eqn:E.
  - left. split; [done|]. apply blt_le, bltb_spec, E.
  - right. split; [done|]. apply not_blt. rewrite <- bltb_spec, E. done.
Qed.

Lemma above_least lower li k : lower_closed lower li -> ble (least lower) k -> above lower li k.
Proof.
  unfold least. destruct lower as [l|]; cbn; [|done]. intros [?| ->] Hk; [done|].
  apply ble_lt_or_eq in Hk as [Hk| ->]; [by left|by right].
Qed.

Lemma below_least lower li upper ui :
  lower_closed lower li -> boundsDisjoint lower li upper ui = false ->
  (lower = None -> forall u, upper = Some u -> u <> [] \/ ui = true) ->
  below upper ui (least lower).
Proof.
  intros Hc Hd Hn. destruct upper as [u|]; [|done]. destruct lower as [l|]; cbn in *.
  - destruct Hc as [?| ->]; [done|]. destruct (bcompare l u) eqn:E; try done.
    + apply bcompare_eq in E as ->. right. split; [done|]. by destruct ui.
    + by left.
  - destruct (Hn eq_refl u eq_refl) as [Hu| ->].
    + left. destruct u; [done|]. reflexivity.
    + destruct u; [by right|]. left. reflexivity.
Qed.

(** No interval is legal and yet denotes nothing below its unbounded side: [(-inf, "")]. *)
Definition upper_usable (upper : option bytes) (ui : bool) : Prop :=
  forall u, upper = Some u -> u <> [] \/ ui = true.

Lemma intervalsOverlap_sound al au ali aui bl bu bli bui k :
  in_range al au ali aui k -> in_range bl bu bli bui k ->
  intervalsOverlap al au ali aui bl bu bli bui = true.
Proof.
  intros [Ha1 Ha2] [Hb1 Hb2]. unfold intervalsOverlap.
  by rewrite (boundsDisjoint_spec al ali bu bui k), (boundsDisjoint_spec bl bli au aui k).
Qed.

Lemma intervalOrdered_disjoint lower upper li ui :
  intervalOrdered lower upper li ui = true -> boundsDisjoint lower li upper ui = false.
Proof.
  destruct lower as [l|], upper as [u|]; cbn; try done.
  destruct (bcompare l u); try done. by intros ->.
Qed.

Lemma intervalsOverlap_complete al au ali aui bl bu bli bui :
  intervalOrdered al au ali aui = true -> intervalOrdered bl bu bli bui = true ->
  lower_closed al ali -> lower_closed bl bli -> upper_usable au aui -> upper_usable bu bui ->
  intervalsOverlap al au ali aui bl bu bli bui = true ->
  exists k, in_range al au ali aui k /\ in_range bl bu bli bui k.
Proof.
  intros Ha%intervalOrdered_disjoint Hb%intervalOrdered_disjoint Hca Hcb Hua Hub.
  unfold intervalsOverlap.
  destruct (boundsDisjoint al ali bu bui) eqn:D1; [done|].
  destruct (boundsDisjoint bl bli au aui) eqn:D2; [done|]. intros _.
  exists (bmax (least al) (least bl)).
  destruct (bmax_cases (least al) (least bl)) as [[-> Hle]|[-> Hle]];
    split; split; (apply above_least; [done|]; first [done|reflexivity]) ||
      (apply below_least with (li := ali); [done..|by intros _]) ||
      (apply below_least with (li := bli); [done..|by intros _]).
Qed.

Lemma intervalsOverlap_sym al au ali aui bl bu bli bui :
  intervalsOverlap al au ali aui bl bu bli bui = intervalsOverlap bl bu bli bui al au ali aui.
Proof. unfold intervalsOverlap. repeat case_match; done. Qed.

(** ** Properties *)

(** Overlap of two interval components is symmetric, always reported when they share a key,
    and, for bounds the planner produces (each lower bound absent or included, no upper bound
    that excludes everything), reported only when they do share one. *)
Theorem overlap_exact al au ali aui bl bu bli bui :
  let overlap := intervalsOverlap al au ali aui bl bu bli bui in
  overlap = intervalsOverlap bl bu bli bui al au ali aui /\
  ((exists k, in_range al au ali aui k /\ in_range bl bu bli bui k) -> overlap = true) /\
  (intervalOrdered al au ali aui = true -> intervalOrdered bl bu bli bui = true ->
   lower_closed al ali -> lower_closed bl bli -> upper_usable au aui -> upper_usable bu bui ->
   overlap = true -> exists k, in_range al au ali aui k /\ in_range bl bu bli bui k).
Proof.
  cbn zeta. split_and!.
  - apply intervalsOverlap_sym.
  - intros (k & Ha & Hb). by apply (intervalsOverlap_sound _ _ _ _ _ _ _ _ k).
  - by apply intervalsOverlap_complete.
Qed.

Lemma overlap_exact_witness :
  (exists k, in_range (Some (str "a")) (Some (str "c")) true false k /\
             in_range (Some (str "b")) None true false k) /\
  intervalsOverlap (Some (str "a")) (Some (str "b")) true false (Some (str "b")) None true false = false.
Proof.
  split; [|by vm_compute].
  apply (overlap_exact (Some (str "a")) (Some (str "c")) true false (Some (str "b")) None true false);
    try (by vm_compute); try (by right).
  intros u [= <-]. by left.
Defined.

(** No key lies strictly between a key and its successor. *)
Lemma no_key_between l k : blt l k -> blt k (l ++ [byte_of_Z 0]) -> False.
Proof.
  unfold blt. revert k. induction l as [|y l IH]; intros [|x k]; cbn [bcompare app]; try done.
  - intros _. rewrite bval_of_Z. pose proof (bval_range x).
    destruct (Z.compare_spec (bval x) (0 mod 256)) as [_|Hlt|_]; [by destruct k| |done].
    rewrite Z.mod_0_l in Hlt; lia.
  - destruct (Z.compare_spec (bval y) (bval x)) as [E|?|?]; [|intros _|done].
    + rewrite E, Z.compare_refl. apply IH.
    + destruct (Z.compare_spec (bval x) (bval y)) as [|?|?]; [lia..|done].
Qed.

(** An open interval between a key and its successor is legal, covers no key, and is still
    reported as overlapping itself. *)
Lemma open_overlap_without_common_key :
  let lo := Some (str "a") in
  let hi := Some (str "a" ++ [byte_of_Z 0]) in
  intervalOrdered lo hi false false = true /\
  intervalsOverlap lo hi false false lo hi false false = true /\
  (forall k, ~ in_range lo hi false false k).
Proof.
  cbn zeta. split_and!; [by vm_compute..|].
  intros k [[Hl|[_ ?]] [Hu|[_ ?]]]; try done. by apply (no_key_between (str "a") k).
Qed.
