(* ===== verification/Resource.v ===== *)
(** * Lock identities: [lockmanager/resource.go]

    Validation of an identity, the canonical key of its conflict domain ([ResourceKey]) and of
    the lock itself ([ClaimKey]), the canonical order and the deduplication of a bundle.  The
    binding registry and the scope tree of the same file are in [ScopeTree]. *)

From stdpp Require Import gmap list sorting strings.
From S2P Require Import Prelude LockTypes Interval.

Definition canonicalSpace (space : bytes) : bytes := space.

Definition is_nil {A} (o : option A) : bool := match o with None => true | Some _ => false end.

(** [Identity.Validate]; [Ok tt] is a nil error. *)
Definition Validate (id : Identity) : result lock_error unit :=
  guard Kind_Valid (Kind id) else ErrInvalidResource in
  guard Mode_Valid (mode id) else ErrInvalidResource in
  guard negb (bool_decide (Space id = [])) else ErrInvalidResource in
  guard bool_decide (Space id = canonicalSpace (Space id)) else ErrInvalidResource in
  match Kind id with
  | KindTableIntent =>
      guard negb (bool_decide (TableID id = [])
                  || negb (bool_decide (mode id = ModeIS)) && negb (bool_decide (mode id = ModeIX)))
        else ErrInvalidResource in
      guard negb (negb (blen (raw (Key id)) =? 0) || negb (blen (raw (Lower id)) =? 0)
                  || negb (blen (raw (Upper id)) =? 0)) else ErrInvalidResource in
      Ok tt
  | KindRecord =>
      guard Mode_Record (mode id) || bool_decide (mode id = ModeInsertIntention)
        else ErrInvalidResource in
      guard negb (is_nil (Key id)) else ErrInvalidResource in
      guard negb (negb (blen (raw (Lower id)) =? 0) || negb (blen (raw (Upper id)) =? 0))
        else ErrInvalidResource in
      Ok tt
  | KindInterval =>
      guard bool_decide (mode id = ModeGap) else ErrInvalidResource in
      guard blen (raw (Key id)) =? 0 else ErrInvalidResource in
      guard intervalOrdered (Lower id) (Upper id) (LowerInclusive id) (UpperInclusive id)
        else ErrInvalidResource in
      Ok tt
  | KindOther _ => Ok tt
  end.

Definition kindCode (k : ResourceKind) : byte :=
  match k with
  | KindTableIntent => byte_of_Z 1
  | KindInterval => byte_of_Z 2
  | KindRecord => byte_of_Z 3
  | KindOther _ => byte_of_Z 0
  end.

(** [writeUint64] and [writeField], appended to the buffer. *)
Definition writeUint64 (b : bytes) (v : Z) : bytes := b ++ be64 v.
Definition writeField (b s : bytes) : bytes := writeUint64 b (blen s) ++ s.
Definition writeFlag (b : bytes) (f : bool) : bytes := b ++ [byte_of_Z (if f then 1 else 0)].

Definition ResourceKey (id : Identity) : bytes :=
  let b := writeUint64 [] (Generation id) in
  if Mode_Interval (mode id) then
    let b := b ++ [kindCode KindInterval] in
    writeField b (Space id)
  else
    let b := b ++ [kindCode (Kind id)] in
    let b := writeField b (Space id) in
    let b := writeField b (raw (Key id)) in
    let b := writeField b (raw (Lower id)) in
    let b := writeField b (raw (Upper id)) in
    let b := writeFlag b (LowerInclusive id) in
    writeFlag b (UpperInclusive id).

Definition ClaimKey (id : Identity) : bytes :=
  if negb (Mode_Interval (mode id)) then ResourceKey id
  else
    let b := writeUint64 [] (Generation id) in
    let b := b ++ [kindCode KindInterval] in
    let b := writeField b (Space id) in
    let b := writeField b (mode_string (mode id)) in
    let b := writeField b (raw (Key id)) in
    let b := writeField b (raw (Lower id)) in
    let b := writeField b (raw (Upper id)) in
    let b := writeFlag b (LowerInclusive id) in
    writeFlag b (UpperInclusive id).

Definition SameClaim (a b : ResourceRef) : bool := bool_decide (ClaimKey a = ClaimKey b).

Definition ContainsKey (id : Identity) (key : option bytes) : bool :=
  if bool_decide (Kind id = KindInterval)
  then intervalContains (Lower id) (Upper id) (LowerInclusive id) (UpperInclusive id) key
  else false.

Definition Overlaps (id other : Identity) : bool :=
  if negb (bool_decide (Kind id = KindInterval)) || negb (bool_decide (Kind other = KindInterval))
  then false
  else if negb (Generation id =? Generation other) || negb (bool_decide (Space id = Space other))
  then false
  else if negb (is_ok (Validate id)) || negb (is_ok (Validate other)) then false
  else intervalsOverlap (Lower id) (Upper id) (LowerInclusive id) (UpperInclusive id)
         (Lower other) (Upper other) (LowerInclusive other) (UpperInclusive other).

(** [RefBytes]: the accounted size of a component list. *)
Definition RefBytes (components : list ResourceRef) : Z :=
  foldr (fun c acc => OwnedBytes64 c + acc) 0 components.

#[global] Arguments RefBytes : simpl never.

Lemma RefBytes_cons c l : RefBytes (c :: l) = OwnedBytes64 c + RefBytes l.
Proof. done. Qed.

Lemma RefBytes_snoc l c : RefBytes (l ++ [c]) = RefBytes l + OwnedBytes64 c.
Proof. induction l; cbn [app]; rewrite ?RefBytes_cons; [cbn|]; lia. Qed.

Lemma RefBytes_nonneg l : 0 <= RefBytes l.
Proof. induction l as [|c l IH]; [done|]. rewrite RefBytes_cons. pose proof (OwnedBytes64_pos c). lia. Qed.

(** The comparison of [SortResourceRefs]. *)
Definition ref_less (a b : ResourceRef) : bool :=
  if negb (bool_decide (ClaimKey a = ClaimKey b)) then bltb (ClaimKey a) (ClaimKey b)
  else bltb (mode_string (mode a)) (mode_string (mode b)).

Definition SortResourceRefs (components : list ResourceRef) : list ResourceRef :=
  sort_stable ref_less components.

Fixpoint RefsInCanonicalOrder (components : list ResourceRef) : bool :=
  match components with
  | a :: ((b :: _) as rest) =>
      if bltb (ClaimKey b) (ClaimKey a) then false else RefsInCanonicalOrder rest
  | _ => true
  end.

Definition modeRank (m : Mode) : Z :=
  match m with
  | ModeIS => 1 | ModeGap => 2 | ModeInsertIntention => 3 | ModeS => 4 | ModeIX => 5 | ModeX => 6
  | ModeOther _ => 0
  end.

(** [ValidateComponent] is in [compatibility.go]; [DedupeResourceRefs] calls the promoted
    [Identity.Validate] of the component. *)
Definition dedupe_step (acc : gmap bytes nat * list ResourceRef) (component : ResourceRef)
    : gmap bytes nat * list ResourceRef :=
  let '(byKey, out) := acc in
  match Validate component with
  | Err _ => (byKey, out ++ [component])
  | Ok _ =>
      let key := ClaimKey component in
      match byKey !! key with
      | Some index =>
          (byKey, alter (fun o => if modeRank (mode o) <? modeRank (mode component)
                                  then o <| mode := mode component |> else o) index out)
      | None => (<[key := length out]> byKey, out ++ [component])
      end
  end.

Definition DedupeResourceRefs (components : list ResourceRef) : list ResourceRef :=
  match components with
  | [] => []
  | _ => SortResourceRefs (snd (foldl dedupe_step (∅, []) components))
  end.

(** ** Sizes

    Go slices and strings are shorter than [2^63], and a generation is a [uint64].  Every
    identity of a running program satisfies this; a Rocq list need not. *)
Definition fits (s : bytes) : Prop := blen s < 2 ^ 63.

Definition sized (id : Identity) : Prop :=
  is_u64 (Generation id) /\ fits (Space id) /\ fits (raw (Key id)) /\ fits (raw (Lower id)) /\
  fits (raw (Upper id)) /\ fits (mode_string (mode id)).

Definition wf_ref (id : Identity) : Prop := Validate id = Ok tt /\ sized id.

(** ** Length-prefixed fields are self-delimiting *)

Definition field (s : bytes) : bytes := be64 (blen s) ++ s.

Lemma writeField_app b s : writeField b s = b ++ field s.
Proof. unfold writeField, writeUint64, field. by rewrite app_assoc. Qed.

Lemma field_inj s t x y :
  fits s -> fits t -> field s ++ x = field t ++ y -> s = t /\ x = y.
Proof.
  unfold fits, field. intros Hs Ht. rewrite <- !app_assoc. intros H.
  apply app_inj_1 in H as [Hl H]; [|by rewrite !length_be64].
  apply be64_inj in Hl; [|unfold is_u64, blen in *; lia..].
  apply app_inj_1 in H as [-> ->]; [done|]. unfold blen in Hl. lia.
Qed.

Definition flag (f : bool) : bytes := [byte_of_Z (if f then 1 else 0)].

Lemma flag_inj f g x y : flag f ++ x = flag g ++ y -> f = g /\ x = y.
Proof. destruct f, g; cbn; intros H; try done; by injection H. Qed.

(** The part both keys have in common after the namespace. *)
Definition key_tail (id : Identity) : bytes :=
  field (raw (Key id)) ++ field (raw (Lower id)) ++ field (raw (Upper id))
  ++ flag (LowerInclusive id) ++ flag (UpperInclusive id).

Definition key_head (id : Identity) (code : byte) : bytes :=
  be64 (Generation id) ++ [code] ++ field (Space id).

Lemma ResourceKey_eq id :
  ResourceKey id =
  if Mode_Interval (mode id) then key_head id (kindCode KindInterval)
  else key_head id (kindCode (Kind id)) ++ key_tail id.
Proof.
  unfold ResourceKey, key_head, key_tail, writeFlag, writeUint64. cbn zeta.
  rewrite !writeField_app, !app_nil_l. fold (flag (LowerInclusive id)) (flag (UpperInclusive id)).
  case_match; rewrite <- ?app_assoc; done.
Qed.

Lemma ClaimKey_eq id :
  ClaimKey id =
  if Mode_Interval (mode id)
  then key_head id (kindCode KindInterval) ++ field (mode_string (mode id)) ++ key_tail id
  else key_head id (kindCode (Kind id)) ++ key_tail id.
Proof.
  unfold ClaimKey. rewrite ResourceKey_eq. destruct (Mode_Interval (mode id)) eqn:E; cbn [negb]; [|done].
  unfold key_head, key_tail, writeFlag, writeUint64. cbn zeta.
  rewrite !writeField_app, !app_nil_l. fold (flag (LowerInclusive id)) (flag (UpperInclusive id)).
  rewrite <- ?app_assoc; done.
Qed.

Lemma key_head_inj a b c d x y :
  sized a -> sized b -> key_head a c ++ x = key_head b d ++ y ->
  Generation a = Generation b /\ c = d /\ Space a = Space b /\ x = y.
Proof.
  intros (Hga & Hsa & _) (Hgb & Hsb & _) H. unfold key_head in H. rewrite <- !app_assoc in H.
  apply app_inj_1 in H as [Hg H]; [|by rewrite !length_be64].
  apply be64_inj in Hg; [|done..]. apply app_inj_1 in H as [[= ->] H]; [|done].
  by apply field_inj in H as [-> ->].
Qed.

Lemma key_tail_inj a b :
  sized a -> sized b -> key_tail a = key_tail b ->
  raw (Key a) = raw (Key b) /\ raw (Lower a) = raw (Lower b) /\ raw (Upper a) = raw (Upper b) /\
  LowerInclusive a = LowerInclusive b /\ UpperInclusive a = UpperInclusive b.
Proof.
  intros (_ & _ & Hka & Hla & Hua & _) (_ & _ & Hkb & Hlb & Hub & _) H. unfold key_tail in H.
  apply field_inj in H as [-> H]; [|done..]. apply field_inj in H as [-> H]; [|done..].
  apply field_inj in H as [-> H]; [|done..]. apply flag_inj in H as [-> H].
  rewrite <- (app_nil_r (flag (UpperInclusive a))), <- (app_nil_r (flag (UpperInclusive b))) in H.
  by apply flag_inj in H as [-> _].
Qed.

Lemma mode_string_inj a b :
  Mode_Valid a = true -> Mode_Valid b = true -> mode_string a = mode_string b -> a = b.
Proof. destruct a, b; done. Qed.

Lemma kindCode_inj a b :
  Kind_Valid a = true -> Kind_Valid b = true -> kindCode a = kindCode b -> a = b.
Proof. destruct a, b; done. Qed.

(** ** What validation guarantees *)

Lemma Validate_kind id : Validate id = Ok tt -> Kind_Valid (Kind id) = true.
Proof. unfold Validate. by case_match. Qed.

Lemma Validate_mode id : Validate id = Ok tt -> Mode_Valid (mode id) = true.
Proof. unfold Validate. case_match; [|done]. by case_match. Qed.

(** The legal pairings of kind and mode. *)
Definition mode_fits_kind (k : ResourceKind) (m : Mode) : bool :=
  match k with
  | KindTableIntent => Mode_Intention m
  | KindRecord => Mode_Record m || bool_decide (m = ModeInsertIntention)
  | KindInterval => bool_decide (m = ModeGap)
  | KindOther _ => false
  end.

Lemma Validate_pairing id : Validate id = Ok tt -> mode_fits_kind (Kind id) (mode id) = true.
Proof.
  unfold Validate, mode_fits_kind.
  unfold Mode_Intention, Mode_Record.
  destruct (Kind id); cbn [Kind_Valid]; try done; repeat case_match; try done; intros _;
    bool_prop; bool_goal; by auto.
Qed.

(** An identity is valid exactly when it is one of the three legal shapes. *)
Definition legal_shape (id : Identity) : Prop :=
  Space id <> [] /\
  match Kind id with
  | KindTableIntent =>
      TableID id <> [] /\ (mode id = ModeIS \/ mode id = ModeIX) /\
      raw (Key id) = [] /\ raw (Lower id) = [] /\ raw (Upper id) = []
  | KindRecord =>
      (mode id = ModeS \/ mode id = ModeX \/ mode id = ModeInsertIntention) /\
      (exists k, Key id = Some k) /\ raw (Lower id) = [] /\ raw (Upper id) = []
  | KindInterval =>
      mode id = ModeGap /\ raw (Key id) = [] /\
      (forall l u, Lower id = Some l -> Upper id = Some u ->
        blt l u \/ l = u /\ LowerInclusive id = true /\ UpperInclusive id = true)
  | KindOther _ => False
  end.

Lemma blen_zero s : blen s = 0 <-> s = [].
Proof. unfold blen. destruct s; cbn; split; intros; try done; lia. Qed.

Lemma intervalOrdered_spec lower upper li ui :
  intervalOrdered lower upper li ui = true <->
  (forall l u, lower = Some l -> upper = Some u -> blt l u \/ l = u /\ li = true /\ ui = true).
Proof.
  unfold intervalOrdered. destruct lower as [l|]; [|split; [intros _; congruence|done]].
  destruct upper as [u|]; [|split; [intros _; congruence|done]].
  destruct (bcompare l u) eqn:E; split.
  - intros [-> ->]%andb_true_iff l' u' [= <-] [= <-]. right. by apply bcompare_eq in E.
  - apply bcompare_eq in E as ->. intros H. destruct (H _ _ eq_refl eq_refl) as [[]%blt_irrefl|(_&->&->)].
    done.
  - intros _ l' u' [= <-] [= <-]. by left.
  - done.
  - done.
  - intros H. apply bcompare_gt in E. destruct (H _ _ eq_refl eq_refl) as [?|(->&_)].
    + destruct (blt_irrefl u). by apply (blt_trans _ l).
    + by apply blt_irrefl in E.
Qed.

Lemma Validate_spec id : Validate id = Ok tt <-> legal_shape id.
Proof.
  split.
  - intros H. pose proof (Validate_pairing id H) as Hp. revert H.
    unfold Validate, legal_shape, mode_fits_kind, Mode_Intention, Mode_Record in *.
    destruct (Kind id); cbn [Kind_Valid]; repeat case_match; try done; intros _; bool_prop;
      rewrite ?blen_zero in *;
      (split_and!; first [done | by auto | by apply intervalOrdered_spec
                         | destruct (Key id); [by eauto|done]]).
  - unfold Validate, legal_shape. intros [Hs H].
    assert (Mode_Valid (mode id) = true) as ->
      by (destruct (Kind id); [destruct H as (_ & [-> | ->] & _)|destruct H as ([-> |[-> | ->]] & _)
            |destruct H as [-> _]|]; done).
    rewrite (bool_decide_eq_false_2 (Space id = [])) by done.
    rewrite (bool_decide_eq_true_2 (Space id = canonicalSpace (Space id))) by done.
    destruct (Kind id); cbn [Kind_Valid negb]; try done.
    + destruct H as (Ht & Hm & -> & -> & ->). rewrite (bool_decide_eq_false_2 (TableID id = [])) by done.
      destruct Hm as [-> | ->]; done.
    + destruct H as (Hm & [k ->] & -> & ->). destruct Hm as [-> |[-> | ->]]; done.
    + destruct H as (-> & -> & Ho). apply intervalOrdered_spec in Ho as ->. done.
Qed.

(** ** Two keys, two questions *)

(** Same conflict domain: the claims that must be compared with each other. *)
Definition same_domain (a b : Identity) : Prop :=
  Generation a = Generation b /\ Space a = Space b /\
  Mode_Interval (mode a) = Mode_Interval (mode b) /\
  (Mode_Interval (mode a) = false ->
     Kind a = Kind b /\ raw (Key a) = raw (Key b) /\ raw (Lower a) = raw (Lower b) /\
     raw (Upper a) = raw (Upper b) /\ LowerInclusive a = LowerInclusive b /\
     UpperInclusive a = UpperInclusive b).

(** The fields [ClaimKey] writes: in an interval domain the mode, the insertion key and the bounds
    count too; in a record or table domain the mode does not. *)
Definition same_fields (a b : Identity) : Prop :=
  Generation a = Generation b /\ Space a = Space b /\
  Mode_Interval (mode a) = Mode_Interval (mode b) /\
  (if Mode_Interval (mode a) then mode a = mode b else Kind a = Kind b) /\
  raw (Key a) = raw (Key b) /\ raw (Lower a) = raw (Lower b) /\ raw (Upper a) = raw (Upper b) /\
  LowerInclusive a = LowerInclusive b /\ UpperInclusive a = UpperInclusive b.

(** The kind byte of the key, read off a valid identity. *)
Definition key_code (id : Identity) : byte :=
  if Mode_Interval (mode id) then kindCode KindInterval else kindCode (Kind id).

Lemma interval_kind_mode id :
  Validate id = Ok tt -> Kind id = KindInterval -> Mode_Interval (mode id) = true.
Proof.
  intros Hv Hk. apply Validate_pairing in Hv. rewrite Hk in Hv. cbn in Hv.
  by apply bool_decide_eq_true in Hv as ->.
Qed.

Lemma key_code_inj a b :
  Validate a = Ok tt -> Validate b = Ok tt -> key_code a = key_code b ->
  Mode_Interval (mode a) = Mode_Interval (mode b) /\
  (Mode_Interval (mode a) = false -> Kind a = Kind b).
Proof.
  intros Ha Hb. pose proof (interval_kind_mode a Ha). pose proof (interval_kind_mode b Hb).
  apply Validate_kind in Ha, Hb. unfold key_code.
  destruct (Mode_Interval (mode a)), (Mode_Interval (mode b));
    destruct (Kind a), (Kind b); cbn in *; try done; intuition congruence.
Qed.

Lemma ResourceKey_same_domain a b :
  wf_ref a -> wf_ref b -> ResourceKey a = ResourceKey b <-> same_domain a b.
Proof.
  intros [Va Sa] [Vb Sb]. rewrite !ResourceKey_eq. split.
  - intros H.
    assert (key_head a (key_code a) ++ (if Mode_Interval (mode a) then [] else key_tail a) =
            key_head b (key_code b) ++ (if Mode_Interval (mode b) then [] else key_tail b)) as H'.
    { unfold key_code. destruct (Mode_Interval (mode a)), (Mode_Interval (mode b));
        rewrite ?app_nil_r; done. }
    apply key_head_inj in H' as (Hg & Hc & Hs & Ht); [|done..].
    apply key_code_inj in Hc as [Hi Hk]; [|done..].
    split_and!; [done..|]. intros E. rewrite <- Hi, E in Ht. split; [auto|].
    by apply key_tail_inj in Ht.
  - intros (Hg & Hs & Hi & Hn). rewrite <- Hi. unfold key_head, key_tail.
    destruct (Mode_Interval (mode a)); rewrite Hg, Hs; [done|].
    by destruct (Hn eq_refl) as (-> & -> & -> & -> & -> & ->).
Qed.

Lemma ClaimKey_same_fields a b :
  wf_ref a -> wf_ref b -> ClaimKey a = ClaimKey b <-> same_fields a b.
Proof.
  intros [Va Sa] [Vb Sb]. rewrite !ClaimKey_eq. split.
  - intros H.
    assert (key_head a (key_code a) ++
              (if Mode_Interval (mode a) then field (mode_string (mode a)) else []) ++ key_tail a =
            key_head b (key_code b) ++
              (if Mode_Interval (mode b) then field (mode_string (mode b)) else []) ++ key_tail b) as H'.
    { unfold key_code. by destruct (Mode_Interval (mode a)), (Mode_Interval (mode b)). }
    apply key_head_inj in H' as (Hg & Hc & Hs & Ht); [|done..].
    apply key_code_inj in Hc as [Hi Hk]; [|done..]. rewrite <- Hi in Ht.
    unfold same_fields. destruct (Mode_Interval (mode a)) eqn:E.
    + apply field_inj in Ht as [Hm Ht]; [|by destruct Sa as (_&_&_&_&_&?)|by destruct Sb as (_&_&_&_&_&?)].
      apply mode_string_inj in Hm; [|by apply Validate_mode..].
      split_and!; try done; by apply key_tail_inj in Ht as (?&?&?&?&?).
    + split_and!; auto; by apply key_tail_inj in Ht as (?&?&?&?&?).
  - intros (Hg & Hs & Hi & Hm & H1 & H2 & H3 & H4 & H5). unfold key_head, key_tail.
    rewrite <- Hi, Hg, Hs, H1, H2, H3, H4, H5. by destruct (Mode_Interval (mode a)); rewrite Hm.
Qed.

(** One lock lies in one conflict domain. *)
Lemma same_fields_domain a b : same_fields a b -> same_domain a b.
Proof.
  intros (Hg & Hs & Hi & Hm & H1 & H2 & H3 & H4 & H5). split_and!; try done.
  intros E. rewrite E in Hm. done.
Qed.

Lemma SameClaim_spec a b : SameClaim a b = true <-> ClaimKey a = ClaimKey b.
Proof. apply bool_decide_eq_true. Qed.

(** ** Canonical order *)

Lemma ref_less_asym x y : ref_less x y = true -> ref_less y x = false.
Proof.
  unfold ref_less. destruct (decide (ClaimKey x = ClaimKey y)) as [E|E].
  - rewrite E, bool_decide_eq_true_2 by done. cbn. intros H%bltb_spec.
    apply not_true_is_false. intros H2%bltb_spec. by apply (blt_irrefl (mode_string (mode x))), (blt_trans _ (mode_string (mode y))).
  - rewrite !bool_decide_eq_false_2 by congruence. cbn. intros H%bltb_spec.
    apply not_true_is_false. intros H2%bltb_spec. by apply (blt_irrefl (ClaimKey x)), (blt_trans _ (ClaimKey y)).
Qed.

Lemma ref_not_less_key x y : ref_less y x = false -> ble (ClaimKey x) (ClaimKey y).
Proof.
  unfold ref_less. destruct (decide (ClaimKey x = ClaimKey y)) as [E|E].
  - intros _. by rewrite E.
  - rewrite bool_decide_eq_false_2 by congruence. cbn. intros H. apply not_blt.
    rewrite <- bltb_spec, H. done.
Qed.

Lemma ref_not_less_spec x y :
  ref_less y x = false <->
  blt (ClaimKey x) (ClaimKey y) \/
  ClaimKey x = ClaimKey y /\ ble (mode_string (mode x)) (mode_string (mode y)).
Proof.
  unfold ref_less. destruct (decide (ClaimKey y = ClaimKey x)) as [E|E].
  - rewrite E, bool_decide_eq_true_2 by done. cbn. rewrite <- not_true_iff_false, bltb_spec, not_blt.
    split; [by right|]. intros [[]%blt_irrefl|[_ ?]]; done.
  - rewrite bool_decide_eq_false_2 by done. cbn. rewrite <- not_true_iff_false, bltb_spec, not_blt.
    rewrite ble_lt_or_eq. split; [intros [?|?]; [by left|congruence]|].
    intros [?|[? _]]; [by left|congruence].
Qed.

Lemma ref_not_less_trans x y z :
  ref_less y x = false -> ref_less z y = false -> ref_less z x = false.
Proof.
  rewrite !ref_not_less_spec. intros [H|[E H]] [H'|[E' H']].
  - left. by apply (blt_trans _ (ClaimKey y)).
  - left. by rewrite <- E'.
  - left. by rewrite E.
  - right. split; [congruence|]. by transitivity (mode_string (mode y)).
Qed.

Lemma SortResourceRefs_sorted l : StronglySorted (not_after ref_less) (SortResourceRefs l).
Proof. apply sort_stable_sorted; [apply ref_less_asym|apply ref_not_less_trans]. Qed.

Lemma SortResourceRefs_perm l : SortResourceRefs l ≡ₚ l.
Proof. apply sort_stable_perm. Qed.

Lemma SortResourceRefs_canonical l : RefsInCanonicalOrder (SortResourceRefs l) = true.
Proof.
  induction (SortResourceRefs_sorted l) as [|a k Hs IH Ha]; [done|].
  cbn. destruct k as [|b k]; [done|]. apply Forall_cons in Ha as [Hab _].
  apply ref_not_less_key, not_blt in Hab. rewrite <- bltb_spec in Hab.
  by destruct (bltb (ClaimKey b) (ClaimKey a)).
Qed.

(** The kind byte leads the key, so a table intention precedes every interval and an interval
    precedes every record of the same generation. *)
Lemma ClaimKey_kind_order a b :
  Generation a = Generation b -> bval (key_code a) < bval (key_code b) ->
  blt (ClaimKey a) (ClaimKey b).
Proof.
  intros Hg Hc. rewrite !ClaimKey_eq. unfold key_head, blt, key_code in *. rewrite Hg.
  destruct (Mode_Interval (mode a)), (Mode_Interval (mode b)); cbn [negb];
    rewrite <- !app_assoc, bcompare_app; cbn [bcompare app];
    by rewrite (proj2 (Z.compare_lt_iff _ _) Hc).
Qed.

(** ** Deduplication *)

(** Taking the mode of a component with the same claim keeps the identity legal and keeps its
    claim: interval claims already agree on the mode. *)
Lemma merge_mode_wf o c :
  wf_ref o -> wf_ref c -> ClaimKey o = ClaimKey c ->
  wf_ref (o <| mode := mode c |>) /\ ClaimKey (o <| mode := mode c |>) = ClaimKey o.
Proof.
  intros Ho Hc H. pose proof H as Hk. apply ClaimKey_same_fields in H; [|done..].
  destruct H as (_ & _ & Hi & Hm & _).
  destruct (Mode_Interval (mode o)) eqn:E.
  { rewrite <- Hm. by destruct o. }
  split.
  - destruct Ho as [Vo So], Hc as [Vc Sc]. split.
    + pose proof (Validate_pairing c Vc) as Hp. apply Validate_spec in Vo. apply Validate_spec.
      unfold legal_shape in *. cbn. rewrite <- Hm in Hp. destruct Vo as [? Vo]. split; [done|].
      destruct (Kind o); cbn in Hp; [| |apply bool_decide_eq_true in Hp; rewrite Hp in Hi; by vm_compute in Hi|done].
      * apply Mode_Intention_spec in Hp. destruct Vo as (?&_&?&?&?). by split_and!.
      * rewrite orb_true_iff, Mode_Record_spec, bool_decide_eq_true in Hp.
        destruct Vo as (_&?). split; [|done]. destruct Hp as [[?|?]|?]; auto.
    + destruct So as (?&?&?&?&?&_), Sc as (_&_&_&_&_&?). by split_and!.
  - rewrite !ClaimKey_eq. cbn. rewrite E, <- Hi. done.
Qed.

Record dedupe_inv (processed : list ResourceRef) (acc : gmap bytes nat * list ResourceRef) : Prop := {
  di_wf : Forall wf_ref acc.2;
  di_key k i : acc.1 !! k = Some i -> exists o, acc.2 !! i = Some o /\ ClaimKey o = k;
  di_index i o : acc.2 !! i = Some o -> acc.1 !! ClaimKey o = Some i;
  di_cover c : c ∈ processed ->
    exists o, o ∈ acc.2 /\ ClaimKey o = ClaimKey c /\ modeRank (mode c) <= modeRank (mode o);
  di_from o : o ∈ acc.2 ->
    exists c1 c2, c1 ∈ processed /\ c2 ∈ processed /\ o = c1 <| mode := mode c2 |> /\
      ClaimKey c1 = ClaimKey c2 /\ ClaimKey o = ClaimKey c2
}.

Lemma set_mode_self (c : ResourceRef) : c <| mode := mode c |> = c.
Proof. by destruct c. Qed.

Lemma dedupe_step_new processed acc c :
  dedupe_inv processed acc -> wf_ref c -> acc.1 !! ClaimKey c = None ->
  dedupe_inv (processed ++ [c]) (<[ClaimKey c := length acc.2]> acc.1, acc.2 ++ [c]).
Proof.
  intros [Hwf Hkey Hidx Hcov Hfrom] Hc Hnone. constructor; cbn.
  - apply Forall_app. split; [done|]. by apply Forall_singleton.
  - intros k i Hi. destruct (decide (k = ClaimKey c)) as [->|Hne].
    + rewrite lookup_insert_eq in Hi. injection Hi as <-. exists c.
      by rewrite lookup_app_r, Nat.sub_diag by done.
    + rewrite lookup_insert_ne in Hi by done. destruct (Hkey _ _ Hi) as (o & Ho & <-).
      exists o. split; [|done]. apply lookup_app_l_Some. done.
  - intros i o [Hi|[Hl Hi]]%lookup_app_Some.
    + pose proof (Hidx _ _ Hi) as Hi'. rewrite lookup_insert_ne; [done|]. congruence.
    + apply list_lookup_singleton_Some in Hi as [Hi <-]. rewrite lookup_insert_eq.
      f_equal. lia.
  - intros c' [Hin| ->%list_elem_of_singleton]%elem_of_app.
    + destruct (Hcov _ Hin) as (o & ? & ?). exists o. split; [|done]. by apply elem_app_l.
    + exists c. auto using elem_snoc with lia.
  - intros o [Hin| ->%list_elem_of_singleton]%elem_of_app.
    + destruct (Hfrom _ Hin) as (c1 & c2 & H1 & H2 & ?). exists c1, c2.
      destruct_and!. auto 10 with gbl.
    + exists c, c. pose proof (set_mode_self c). auto 10 with gbl.
Qed.

Lemma dedupe_step_merge processed acc c i o o' :
  dedupe_inv processed acc -> wf_ref c -> acc.2 !! i = Some o -> ClaimKey o = ClaimKey c ->
  o' = (if modeRank (mode o) <? modeRank (mode c) then o <| mode := mode c |> else o) ->
  dedupe_inv (processed ++ [c]) (acc.1, <[i := o']> acc.2).
Proof.
  intros [Hwf Hkey Hidx Hcov Hfrom] Hc Hi Hk Ho'.
  assert (wf_ref o) as Ho by (eapply Forall_lookup_1; eauto).
  destruct (merge_mode_wf o c Ho Hc Hk) as [Hm1 Hm2].
  assert (wf_ref o' /\ ClaimKey o' = ClaimKey o /\ modeRank (mode o) <= modeRank (mode o') /\
          modeRank (mode c) <= modeRank (mode o')) as (Hw & Hk' & Hr1 & Hr2).
  { subst o'. case_match; bool_prop; cbn [mode field_update]; split_and!; try done; cbn; lia. }
  assert (i < length acc.2)%nat as Hlt by (by eapply lookup_lt_Some).
  constructor; cbn.
  - by apply Forall_insert.
  - intros k j Hj. destruct (Hkey _ _ Hj) as (p & Hp & <-).
    destruct (decide (i = j)) as [<-|Hne].
    + exists o'. rewrite list_lookup_insert_eq by done. split; [done|]. congruence.
    + exists p. by rewrite list_lookup_insert_ne.
  - intros j p Hj. destruct (decide (i = j)) as [<-|Hne].
    + rewrite list_lookup_insert_eq in Hj by done. injection Hj as <-. rewrite Hk'. by apply Hidx.
    + rewrite list_lookup_insert_ne in Hj by done. by apply Hidx.
  - assert (o' ∈ <[i:=o']> acc.2) as Hin'
      by (apply list_elem_of_lookup; exists i; by apply list_lookup_insert_eq).
    intros c' [Hin| ->%list_elem_of_singleton]%elem_of_app; [|exists o'; split_and!; [done|congruence|done]].
    destruct (Hcov _ Hin) as (p & [j Hj]%list_elem_of_lookup & Hpk & Hpr).
    destruct (decide (i = j)) as [<-|Hne].
    + assert (p = o) as -> by congruence. exists o'. split_and!; [done|congruence|lia].
    + exists p. split; [|done]. apply list_elem_of_lookup. exists j. by rewrite list_lookup_insert_ne.
  - intros p [j Hj]%list_elem_of_lookup. destruct (decide (i = j)) as [<-|Hne].
    + rewrite list_lookup_insert_eq in Hj by done. injection Hj as <-.
      destruct (Hfrom o) as (c1 & c2 & H1 & H2 & Heq & Hk12 & Hko); [by apply list_elem_of_lookup_2 in Hi|].
      subst o'. case_match.
      * exists c1, c. split_and!; [auto with gbl..|by rewrite Heq|congruence|by rewrite Hm2].
      * exists c1, c2. auto 10 with gbl.
    + rewrite list_lookup_insert_ne in Hj by done.
      destruct (Hfrom p) as (c1 & c2 & ?); [by apply list_elem_of_lookup_2 in Hj|].
      exists c1, c2. destruct_and!. auto 10 with gbl.
Qed.

Lemma dedupe_inv_step processed acc c :
  dedupe_inv processed acc -> wf_ref c -> dedupe_inv (processed ++ [c]) (dedupe_step acc c).
Proof.
  intros Hinv Hc. destruct acc as [byKey out]. unfold dedupe_step.
  rewrite (proj1 Hc). destruct (byKey !! ClaimKey c) as [i|] eqn:E.
  - destruct (di_key _ _ Hinv _ _ E) as (o & Ho & Hk). cbn in Ho.
    replace (alter _ i out) with
      (<[i := if modeRank (mode o) <? modeRank (mode c) then o <| mode := mode c |> else o]> out).
    + by eapply (dedupe_step_merge processed (byKey, out)).
    + apply list_eq. intros j. destruct (decide (i = j)) as [<-|Hne].
      * rewrite list_lookup_alter_eq, Ho, list_lookup_insert_eq by (by eapply lookup_lt_Some). done.
      * by rewrite list_lookup_alter_ne, list_lookup_insert_ne.
  - by apply (dedupe_step_new processed (byKey, out)).
Qed.

Lemma dedupe_fold_inv l processed acc :
  dedupe_inv processed acc -> Forall wf_ref l -> dedupe_inv (processed ++ l) (foldl dedupe_step acc l).
Proof.
  revert processed acc. induction l as [|c l IH]; intros processed acc Hinv Hl; cbn.
  - by rewrite app_nil_r.
  - apply Forall_cons in Hl as [Hc Hl].
    rewrite cons_middle, app_assoc. apply IH; [|done]. by apply dedupe_inv_step.
Qed.

Lemma dedupe_inv_start : dedupe_inv [] (∅, []).
Proof. constructor; cbn; try done; intros; try set_solver. Qed.

(** The deduplicated bundle is the sorted output of the fold. *)
Lemma Dedupe_fold l :
  DedupeResourceRefs l = SortResourceRefs (snd (foldl dedupe_step (∅, []) l)).
Proof. by destruct l. Qed.

Lemma dedupe_inv_NoDup l acc : dedupe_inv l acc -> NoDup (ClaimKey <$> acc.2).
Proof.
  intros Hinv. apply NoDup_alt. intros i j k Hi Hj.
  apply list_lookup_fmap_Some in Hi as (x & -> & Hx), Hj as (y & Hk & Hy).
  apply (di_index _ _ Hinv) in Hx, Hy. congruence.
Qed.

Lemma Dedupe_bundle l :
  Forall wf_ref l -> Forall wf_ref (DedupeResourceRefs l) /\ NoDup (ClaimKey <$> DedupeResourceRefs l) /\
    (l <> [] -> DedupeResourceRefs l <> []).
Proof.
  intros Hl. rewrite Dedupe_fold.
  pose proof (dedupe_fold_inv l [] _ dedupe_inv_start Hl) as Hinv. rewrite app_nil_l in Hinv.
  pose proof (dedupe_inv_NoDup _ _ Hinv) as Hnd. destruct Hinv as [Hwf _ _ Hcov _].
  set (out := snd _) in *. pose proof (SortResourceRefs_perm out) as Hp.
  split_and!; [by rewrite Hp..|]. intros Hne Hnil. rewrite Hnil in Hp.
  destruct l as [|c l]; [done|]. destruct (Hcov c) as (o & Ho & _); [by left|].
  rewrite <- Hp in Ho. by apply not_elem_of_nil in Ho.
Qed.

(** ** Properties *)

(** Same lock.  The bounds are those of an interval, where an absent one is infinite and differs from
    every key, the empty one included; the other kinds have no bounds. *)
Definition same_lock (a b : Identity) : Prop :=
  Generation a = Generation b /\ Space a = Space b /\ Kind a = Kind b /\
  (Mode_Interval (mode a) = true \/ Mode_Interval (mode b) = true -> mode a = mode b) /\
  raw (Key a) = raw (Key b) /\
  (Kind a = KindInterval -> Lower a = Lower b /\ Upper a = Upper b) /\
  LowerInclusive a = LowerInclusive b /\ UpperInclusive a = UpperInclusive b.

(** No bound of an interval is the empty key. *)
Definition plain_bounds (id : Identity) : Prop :=
  Kind id = KindInterval -> Lower id <> Some [] /\ Upper id <> Some [].

Lemma raw_inj (x y : option bytes) : x <> Some [] -> y <> Some [] -> raw x = raw y -> x = y.
Proof. destruct x as [[|]|], y as [[|]|]; cbn; intros; try done; by f_equal. Qed.

Lemma bounds_free a : wf_ref a -> Kind a <> KindInterval -> raw (Lower a) = [] /\ raw (Upper a) = [].
Proof. intros [Hv%Validate_spec _] Hk. destruct Hv as [_ Hv]. destruct (Kind a); intuition. Qed.

Lemma kind_of_mode a : wf_ref a -> Kind a = KindInterval <-> mode a = ModeGap.
Proof.
  intros [Hv%Validate_spec _]. destruct Hv as [_ Hv].
  destruct (Kind a) eqn:E; split; intros; try done; destruct_and?; destruct_or?; congruence.
Qed.

Lemma kind_of_insert a : wf_ref a -> mode a = ModeInsertIntention -> Kind a = KindRecord.
Proof. intros [Hv%Validate_spec _] Hm. destruct Hv as [_ Hv]. destruct (Kind a); try done; destruct_and?; destruct_or?; congruence. Qed.

Lemma interval_modes m : Mode_Interval m = true <-> m = ModeGap \/ m = ModeInsertIntention.
Proof. destruct m; cbn; naive_solver. Qed.

Lemma same_fields_lock a b : wf_ref a -> wf_ref b -> plain_bounds a -> plain_bounds b -> same_fields a b <-> same_lock a b.
Proof.
  intros Ha Hb Pa Pb. unfold same_fields, same_lock. split.
  - intros (Hg & Hs & Hi & Hm & Hk & Hl & Hu & Hli & Hui).
    assert (Kind a = Kind b /\ (Mode_Interval (mode a) = true -> mode a = mode b)) as [HK HM].
    { destruct (Mode_Interval (mode a)) eqn:E; [|done]. split; [|done].
      apply interval_modes in E as [E|E]; [by rewrite (proj2 (kind_of_mode a Ha) E), (proj2 (kind_of_mode b Hb)) by congruence|].
      by rewrite (kind_of_insert a Ha E), (kind_of_insert b Hb) by congruence. }
    split_and!; try done; [intros [?|?]; apply HM; congruence|].
    intros E. destruct (Pa E), (Pb ltac:(congruence)). split; by apply raw_inj.
  - intros (Hg & Hs & HK & HM & Hk & Hlu & Hli & Hui).
    assert (Mode_Interval (mode a) = Mode_Interval (mode b)) as Hi.
    { destruct (Mode_Interval (mode a)) eqn:E, (Mode_Interval (mode b)) eqn:E'; try done; exfalso;
        [specialize (HM (or_introl eq_refl))|specialize (HM (or_intror eq_refl))]; congruence. }
    split_and!; try done; [destruct (Mode_Interval (mode a)); [by apply HM; left|done]|..];
      (destruct (decide (Kind a = KindInterval)) as [E|E];
        [destruct (Hlu E); congruence|destruct (bounds_free a Ha E), (bounds_free b Hb ltac:(congruence)); congruence]).
Qed.


Definition row_ref (k : string) (m : Mode) : ResourceRef :=
  mkIdentity 7 (str "t/pk") (str "t") (str "pk") KindRecord (Some (str k)) None None false false m.

Lemma row_ref_wf k m :
  Mode_Record m = true -> blen (str k) < 2 ^ 63 -> wf_ref (row_ref k m).
Proof.
  intros Hm Hk. split.
  - apply Validate_spec. split; [done|]. cbn. apply Mode_Record_spec in Hm.
    split_and!; [naive_solver|by eauto|done|done].
  - apply Mode_Record_spec in Hm as [-> | ->]; split_and!; cbn; done.
Qed.


(** Deduplication of a bundle of valid components yields a bundle in canonical order with one
    component per lock; every component asked for is represented at its own strength or a
    stronger one, every component of the result is valid, and none is invented: identity and mode
    come from components of the input that name the same lock. *)
Theorem dedupe_canonical l (Hl : Forall wf_ref l) :
  let out := DedupeResourceRefs l in
  RefsInCanonicalOrder out = true /\ NoDup (ClaimKey <$> out) /\ Forall wf_ref out /\
  (forall c, c ∈ l -> exists o, o ∈ out /\ SameClaim o c = true /\
     modeRank (mode c) <= modeRank (mode o)) /\
  (forall o, o ∈ out -> exists c1 c2, c1 ∈ l /\ c2 ∈ l /\ o = c1 <| mode := mode c2 |> /\
     SameClaim c1 c2 = true /\ SameClaim o c2 = true).
Proof.
  cbn zeta. rewrite Dedupe_fold.
  pose proof (dedupe_fold_inv l [] _ dedupe_inv_start Hl) as Hinv. rewrite app_nil_l in Hinv.
  pose proof (dedupe_inv_NoDup _ _ Hinv) as Hnd. destruct Hinv as [Hwf _ _ Hcov Hfrom].
  setoid_rewrite SameClaim_spec.
  set (out := snd _) in *. pose proof (SortResourceRefs_perm out) as Hp.
  split_and!; [apply SortResourceRefs_canonical|by rewrite Hp..| |].
  - intros c Hc. destruct (Hcov c Hc) as (o & Ho & ?). exists o. by rewrite Hp.
  - intros o Ho. apply Hfrom. by rewrite <- Hp.
Qed.

Lemma dedupe_canonical_witness :
  exists l : list ResourceRef, length l = 3%nat /\
    RefsInCanonicalOrder (DedupeResourceRefs l) = true /\
    DedupeResourceRefs l = [row_ref "a" ModeX; row_ref "b" ModeS].
Proof.
  exists [row_ref "b" ModeS; row_ref "a" ModeS; row_ref "a" ModeX].
  split; [done|]. split; [|by vm_compute].
  apply (dedupe_canonical [row_ref "b" ModeS; row_ref "a" ModeS; row_ref "a" ModeX]).
  repeat constructor; by apply row_ref_wf.
Defined.

(** The whole-domain gap and an empty interval are one lock to [ClaimKey]: the keys do not
    record whether a bound is absent or empty. *)
Definition gap_ref (lower upper : option bytes) (li ui : bool) : ResourceRef :=
  mkIdentity 7 (str "t/pk") (str "t") (str "pk") KindInterval None lower upper li ui ModeGap.

Lemma claim_key_conflates_unbounded_and_empty :
  let whole := gap_ref None None false false in
  let none := gap_ref None (Some []) false false in
  Validate whole = Ok tt /\ Validate none = Ok tt /\ SameClaim whole none = true /\
  (forall k, gap_covers whole k) /\ (forall k, ~ gap_covers none k).
Proof.
  cbn zeta. split_and!; [by vm_compute..|].
  intros k [_ H]. unfold below in H; cbn in H. destruct H as [H|[_ [=]]]. by destruct k.
Qed.
