(* ===== verification/ScopeTree.v ===== *)
(** * The scope tree: [ScopeTree] of [lockmanager/resource.go]

    Scopes are numbered upward and a parent exists before its child, so ancestry cannot loop;
    the loops over it carry fuel and the theorems show that the fuel never runs out.  A pointer
    returned by [Open] is the identifier: the scope itself is read from the tree. *)

From stdpp Require Import gmap list sorting strings.
From S2P Require Import Prelude LockTypes.

Record ScopeTree : Type := mkScopeTree {
  scopes : gmap Z Scope;
  nextID : Z
}.

#[export] Instance ScopeTree_rebuild : Rebuild ScopeTree := fun t => mkScopeTree (scopes t) (nextID t).

Definition NewScopeTree : ScopeTree := mkScopeTree ∅ 0.

Definition OpenWithBudget (t : ScopeTree) (ownerID originTxnID : bytes) (parentID : Z)
    (kind : ScopeKind) (openedAt deadline waitBudget : Z) : ScopeTree * result lock_error Scope :=
  if bool_decide (ownerID = []) || negb (ScopeKind_Valid kind) then (t, Err ErrScopeUnknown)
  else if negb (parentID =? 0) &&
    match scopes t !! parentID with
    | Some parent => negb (bool_decide (ScopeOwnerID parent = ownerID))
    | None => true
    end then (t, Err ErrScopeOwnerMismatch)
  else if nextID t =? u64_max then (t, Err ErrOrdinalExhausted)
  else
    let t := t <| nextID ::= Z.add 1 |> in
    let scope := mkScope (nextID t) ownerID originTxnID parentID kind ScopeOpen openedAt deadline
                   waitBudget in
    (t <| scopes ::= <[nextID t := scope]> |>, Ok scope).

Definition Open (t : ScopeTree) (ownerID originTxnID : bytes) (parentID : Z) (kind : ScopeKind)
    (openedAt deadline : Z) : ScopeTree * result lock_error Scope :=
  OpenWithBudget t ownerID originTxnID parentID kind openedAt deadline 0.

Definition Get (t : ScopeTree) (id : Z) : option Scope := scopes t !! id.

Definition BeginClose (t : ScopeTree) (id : Z) : ScopeTree * result lock_error Scope :=
  match scopes t !! id with
  | None => (t, Err ErrScopeUnknown)
  | Some scope =>
      let scope := if bool_decide (SState scope = ScopeOpen)
                   then scope <| SState := ScopeClosing |> else scope in
      (t <| scopes ::= <[id := scope]> |>, Ok scope)
  end.

Definition Close (t : ScopeTree) (id : Z) : ScopeTree :=
  t <| scopes ::= alter (fun scope => scope <| SState := ScopeClosed |>) id |>.

Definition Discard (t : ScopeTree) (id : Z) : ScopeTree := t <| scopes ::= delete id |>.

Definition is_open_child (p : Z) (scope : Scope) : bool :=
  (ParentScopeID scope =? p) && negb (bool_decide (SState scope = ScopeClosed)).

(** The breadth-first loop of [CloseSubtree]; [None] is fuel running out. *)
Fixpoint subtree_order `{MapRange} (t : ScopeTree) (fuel level : nat) (order : list Z)
    : option (list Z) :=
  match order !! level with
  | None => Some order
  | Some p =>
      match fuel with
      | O => None
      | S fuel =>
          subtree_order t fuel (S level)
            (order ++ (ScopeID ∘ snd <$> filter (fun kv => is_open_child p kv.2) (range level (scopes t))))
      end
  end.

Definition CloseSubtree `{MapRange} (t : ScopeTree) (id : Z) : option (ScopeTree * list Z) :=
  match scopes t !! id with
  | None => Some (t, [])
  | Some _ =>
      order ← subtree_order t (S (size (scopes t))) 0 [id];
      Some (foldl Close t (reverse order), reverse order)
  end.

(** The loop of [Ancestors] with its [seen] set. *)
Fixpoint ancestors_loop (t : ScopeTree) (fuel : nat) (seen : gset Z) (current : option Scope)
    : option (list Scope) :=
  match current with
  | None => Some []
  | Some scope =>
      if bool_decide (ScopeID scope ∈ seen) then Some []
      else match fuel with
      | O => None
      | S fuel =>
          if ParentScopeID scope =? 0 then Some [scope]
          else cons scope <$>
            ancestors_loop t fuel ({[ ScopeID scope ]} ∪ seen) (scopes t !! ParentScopeID scope)
      end
  end.

Definition Ancestors (t : ScopeTree) (id : Z) : option (list Scope) :=
  ancestors_loop t (S (size (scopes t))) ∅ (scopes t !! id).

Definition IsAncestor (t : ScopeTree) (ancestor descendant : Z) : option bool :=
  if (ancestor =? 0) || (descendant =? 0) then Some false
  else existsb (fun scope => ScopeID scope =? ancestor) <$> Ancestors t descendant.

Definition OpenScopes `{MapRange} (t : ScopeTree) : Z :=
  foldl (fun count kv => if negb (bool_decide (SState kv.2 = ScopeClosed)) then count + 1 else count)
    0 (range 0 (scopes t)).

Definition ScopeTree_Len (t : ScopeTree) : Z := Z.of_nat (size (scopes t)).

(** ** Invariant *)

Record tree_wf (t : ScopeTree) : Prop := {
  tw_next : is_u64 (nextID t);
  tw_id k s : scopes t !! k = Some s -> ScopeID s = k /\ 0 < k <= nextID t;
  tw_parent k s : scopes t !! k = Some s -> 0 <= ParentScopeID s < k;
  tw_owner k s p : scopes t !! k = Some s -> scopes t !! ParentScopeID s = Some p ->
    ScopeOwnerID p = ScopeOwnerID s
}.

Lemma NewScopeTree_wf : tree_wf NewScopeTree.
Proof. split; cbn; [done|..]; intros ? ?; by rewrite lookup_empty. Qed.

(** Updating the state of scopes in place keeps the invariant. *)
Definition same_but_state (s s' : Scope) : Prop :=
  ScopeID s' = ScopeID s /\ ParentScopeID s' = ParentScopeID s /\ ScopeOwnerID s' = ScopeOwnerID s.

Lemma restate_wf t t' :
  tree_wf t -> nextID t' = nextID t ->
  (forall k s', scopes t' !! k = Some s' -> exists s, scopes t !! k = Some s /\ same_but_state s s') ->
  tree_wf t'.
Proof.
  intros [Hn Hid Hp Ho] Hnx Hs. split; [by rewrite Hnx|..].
  - intros k s' Hk. destruct (Hs _ _ Hk) as (s & Hks & -> & _ & _). rewrite Hnx. auto.
  - intros k s' Hk. destruct (Hs _ _ Hk) as (s & Hks & _ & -> & _). eauto.
  - intros k s' p' Hk Hkp. destruct (Hs _ _ Hk) as (s & Hks & _ & Hpar & ->). rewrite Hpar in Hkp.
    destruct (Hs _ _ Hkp) as (p & Hps & _ & _ & ->). eauto.
Qed.

Lemma Close_wf t id : tree_wf t -> tree_wf (Close t id).
Proof.
  intros Hwf. apply (restate_wf t); [done..|]. intros k s'. cbn.
  intros [(-> & s & Hs & ->)|[? ?]]%lookup_alter_Some; [exists s|exists s']; by repeat split.
Qed.

Lemma BeginClose_wf t id : tree_wf t -> tree_wf (BeginClose t id).1.
Proof.
  intros Hwf. unfold BeginClose. destruct (scopes t !! id) as [s|] eqn:E; [|done].
  apply (restate_wf t); [done..|]. intros k s'. cbn.
  intros [[<- <-]|[? ?]]%lookup_insert_Some; [exists s|exists s']; [|by repeat split].
  case_bool_decide; by repeat split.
Qed.

Lemma Discard_wf t id : tree_wf t -> tree_wf (Discard t id).
Proof.
  intros Hwf. apply (restate_wf t); [done..|]. intros k s'. cbn.
  intros [_ ?]%lookup_delete_Some. exists s'. by repeat split.
Qed.

Lemma OpenWithBudget_wf t o x p k a d w : 
  tree_wf t -> 0 <= p -> tree_wf (OpenWithBudget t o x p k a d w).1.
Proof.
  intros Hwf Hp. unfold OpenWithBudget. case_match; [done|]. case_match eqn:E; [done|].
  destruct (nextID t =? u64_max) eqn:E2; [done|]. clear H. apply Z.eqb_neq in E2. cbn zeta. destruct Hwf as [Hn Hid Hpar Ho].
  assert (p = 0 \/ exists q, scopes t !! p = Some q /\ ScopeOwnerID q = o) as Hq.
  { bool_prop; [by left|right]. destruct (scopes t !! p) as [q|]; [|done]. bool_prop. by exists q. }
  assert (0 < 1 + nextID t <= u64_max) as Hnew by (unfold is_u64, u64_max in *; lia).
  split; cbn.
  - unfold is_u64, u64_max in *. lia.
  - intros i s [[<- <-]|[_ Hs]]%lookup_insert_Some; [cbn; lia|].
    destruct (Hid _ _ Hs). split; [done|lia].
  - intros i s [[<- <-]|[_ Hs]]%lookup_insert_Some; [cbn|by eapply Hpar].
    destruct Hq as [-> |(q & Hq & _)]; [lia|]. destruct (Hid _ _ Hq). lia.
  - intros i s par [[<- <-]|[_ Hs]]%lookup_insert_Some; cbn.
    + intros [[Heq _]|[_ Hl]]%lookup_insert_Some.
      * destruct Hq as [-> |(q & Hq & _)]; [lia|]. destruct (Hid _ _ Hq). lia.
      * destruct Hq as [-> |(q & Hq & <-)]; [|congruence]. destruct (Hid _ _ Hl). lia.
    + intros [[Heq _]|[_ Hl]]%lookup_insert_Some; [|by eapply Ho].
      pose proof (Hpar _ _ Hs). destruct (Hid _ _ Hs). lia.
Qed.

(** ** Closing a subtree *)

Definition open_child (t : ScopeTree) (p x : Z) : Prop :=
  exists s, scopes t !! x = Some s /\ is_open_child p s = true.

(** What lies below a scope through scopes that are not closed. *)
Inductive below_scope (t : ScopeTree) (id : Z) : Z -> Prop :=
  | bs_self : below_scope t id id
  | bs_child p x : below_scope t id p -> open_child t p x -> below_scope t id x.

Section Subtree.
Context `{MapRange} (t : ScopeTree) (Hwf : tree_wf t) (id : Z).

Definition children (level : nat) (p : Z) : list Z :=
  ScopeID ∘ snd <$> filter (fun kv => is_open_child p kv.2) (range level (scopes t)).

Lemma children_keys level p :
  children level p = (filter (fun kv => is_open_child p kv.2) (range level (scopes t))).*1.
Proof.
  unfold children. apply list_fmap_ext. intros i [k s] Hi. cbn.
  apply list_elem_of_lookup_2 in Hi. apply list_elem_of_filter in Hi as [_ Hi%elem_of_range].
  by apply (tw_id _ Hwf) in Hi as [? _].
Qed.

Lemma elem_of_children level p x : x ∈ children level p <-> open_child t p x.
Proof.
  rewrite children_keys, list_elem_of_fmap. split.
  - intros ([k s] & -> & [Hc Hi%elem_of_range]%list_elem_of_filter).
    exists s. split; [done|]. by apply Is_true_eq_true in Hc.
  - intros (s & Hs & Hc). exists (x, s). split; [done|]. apply list_elem_of_filter.
    rewrite elem_of_range. split; [|done]. by apply Is_true_eq_left.
Qed.

Lemma children_NoDup level p : NoDup (children level p).
Proof.
  rewrite children_keys. eapply sublist_NoDup; [apply (range_NoDup level (scopes t))|].
  apply fmap_sublist, sublist_filter.
Qed.

Lemma open_child_parent p x : open_child t p x -> p < x /\ is_Some (scopes t !! x).
Proof.
  intros (s & Hs & Hc). unfold is_open_child in Hc. bool_prop.
  pose proof (tw_parent _ Hwf _ _ Hs). split; [lia|by exists s].
Qed.

Lemma open_child_unique p q x : open_child t p x -> open_child t q x -> p = q.
Proof. intros (s & Hs & Hc) (s' & Hs' & Hc'). unfold is_open_child in *. bool_prop. congruence. Qed.

(** What the loop has established when it reaches [level]. *)
Record order_inv (level : nat) (order : list Z) : Prop := {
  oi_nodup : NoDup order;
  oi_level : (level <= length order)%nat;
  oi_known x : x ∈ order -> is_Some (scopes t !! x) /\ id <= x;
  oi_from i x : order !! i = Some x ->
    x = id \/ exists j p, (j < level)%nat /\ (j < i)%nat /\ order !! j = Some p /\ open_child t p x;
  oi_all j p x : (j < level)%nat -> order !! j = Some p -> open_child t p x -> x ∈ order;
  oi_self : id ∈ order
}.

Lemma order_inv_size level order : order_inv level order -> (length order <= size (scopes t))%nat.
Proof.
  intros Hi. rewrite <- (size_list_to_set (C:=gset Z) order) by apply Hi.
  rewrite <- size_dom. apply subseteq_size. intros x Hx%elem_of_list_to_set.
  apply elem_of_dom. by apply (oi_known _ _ Hi).
Qed.

Lemma order_fresh level order p x :
  order_inv level order -> order !! level = Some p -> open_child t p x -> x ∉ order.
Proof.
  intros Hi Hp Hc [i Hx]%list_elem_of_lookup. pose proof (open_child_parent _ _ Hc) as [Hlt _].
  destruct (oi_from _ _ Hi _ _ Hx) as [-> |(j & q & Hj & _ & Hq & Hcq)].
  - destruct (oi_known _ _ Hi p) as [_ Hle]; [by eapply list_elem_of_lookup_2|]. lia.
  - assert (q = p) as -> by (by eapply open_child_unique).
    pose proof (NoDup_lookup _ _ _ _ (oi_nodup _ _ Hi) Hq Hp). lia.
Qed.

Lemma order_inv_step level order p :
  order_inv level order -> order !! level = Some p ->
  order_inv (S level) (order ++ children level p).
Proof.
  intros Hi Hp. pose proof (fun x => order_fresh level order p x Hi Hp) as Hfresh.
  pose proof (lookup_lt_Some _ _ _ Hp) as Hlt. destruct Hi as [Hnd Hlv Hkn Hfr Hall Hself].
  assert (id <= p) as Hge by (apply Hkn; by eapply list_elem_of_lookup_2).
  split.
  - apply NoDup_app. split_and!; [done| |apply children_NoDup].
    intros x Hx Hc%elem_of_children. by apply (Hfresh x).
  - rewrite length_app. lia.
  - intros x [Hx|Hc%elem_of_children]%elem_of_app; [auto|].
    apply open_child_parent in Hc as [? ?]. split; [done|lia].
  - intros i x [Hx|[Hge' Hx]]%lookup_app_Some.
    + destruct (Hfr _ _ Hx) as [-> |(j & q & ? & ? & Hq & ?)]; [by left|right].
      exists j, q. split_and!; [lia|done| |done]. by apply lookup_app_l_Some.
    + right. exists level, p. apply list_elem_of_lookup_2, elem_of_children in Hx.
      split_and!; [lia|lia| |done]. by apply lookup_app_l_Some.
  - intros j q x Hj Hq Hc. apply elem_of_app.
    destruct (decide (j = level)) as [->|Hne].
    + rewrite lookup_app_l in Hq by done. assert (q = p) as -> by congruence.
      right. by apply elem_of_children.
    + rewrite lookup_app_l in Hq by lia. left. eapply (Hall j); eauto. lia.
  - by apply elem_app_l.
Qed.

Lemma subtree_order_total fuel level order :
  order_inv level order -> (size (scopes t) < fuel + level)%nat ->
  exists order', subtree_order t fuel level order = Some order' /\
    order_inv (length order') order'.
Proof.
  revert level order. induction fuel as [|fuel IH]; intros level order Hi Hf;
    pose proof (order_inv_size _ _ Hi) as Hs; cbn [subtree_order];
    destruct (order !! level) as [p|] eqn:E.
  1: apply lookup_lt_Some in E; lia.
  2: { apply IH; [by apply order_inv_step|lia]. }
  all: exists order; split; [done|]; apply lookup_ge_None in E;
    assert (level = length order) as -> by (pose proof (oi_level _ _ Hi); lia); done.
Qed.

Lemma order_inv_start : is_Some (scopes t !! id) -> order_inv 0 [id].
Proof.
  intros Hid. split; cbn; try lia.
  - apply NoDup_singleton.
  - intros x ->%list_elem_of_singleton. split; [done|lia].
  - intros [|i] x Hx; [left; by injection Hx|done].
  - by apply list_elem_of_singleton.
Qed.

Lemma order_inv_below order : order_inv (length order) order ->
  forall x, x ∈ order <-> below_scope t id x.
Proof.
  intros Hi x. split.
  - intros [i Hx]%list_elem_of_lookup. revert x Hx.
    induction i as [i IH] using lt_wf_ind. intros x Hx.
    destruct (oi_from _ _ Hi _ _ Hx) as [-> |(j & p & _ & Hj & Hp & Hc)]; [constructor|].
    econstructor; [by eapply IH|done].
  - induction 1 as [|p x _ [j Hj]%list_elem_of_lookup Hc]; [apply Hi|].
    eapply (oi_all _ _ Hi j); [by eapply lookup_lt_Some|done..].
Qed.
End Subtree.

Lemma foldl_Close t l k :
  scopes (foldl Close t l) !! k =
  if decide (k ∈ l) then (fun s => s <| SState := ScopeClosed |>) <$> scopes t !! k
  else scopes t !! k.
Proof.
  revert t. induction l as [|x l IH]; intros t; cbn [foldl]; [done|].
  rewrite IH. cbn [Close scopes field_update]. destruct (decide (k = x)) as [->|Hne].
  - rewrite lookup_alter_eq, (decide_True (P := x ∈ x :: l)) by (by left).
    case_decide; [|done]. destruct (scopes t !! x); done.
  - rewrite lookup_alter_ne by congruence.
    destruct (decide (k ∈ l)); [rewrite decide_True by (by right)|rewrite decide_False]; try done.
    by intros [?|?]%elem_of_cons.
Qed.

Lemma foldl_Close_wf t l : tree_wf t -> tree_wf (foldl Close t l).
Proof. revert t. induction l; cbn; auto using Close_wf. Qed.

(** ** Ancestry *)

(** The chain from a scope outward, up to its root scope or to a parent that was discarded. *)
Inductive ancestor_chain (t : ScopeTree) : Z -> list Scope -> Prop :=
  | ac_missing id : scopes t !! id = None -> ancestor_chain t id []
  | ac_root id s : scopes t !! id = Some s -> ParentScopeID s = 0 -> ancestor_chain t id [s]
  | ac_step id s rest :
      scopes t !! id = Some s -> ParentScopeID s <> 0 -> ancestor_chain t (ParentScopeID s) rest ->
      ancestor_chain t id (s :: rest).

(** [ancestor_of t a d]: following parents from [d] leads to [a]. *)
Inductive ancestor_of (t : ScopeTree) (a : Z) : Z -> Prop :=
  | an_self : is_Some (scopes t !! a) -> ancestor_of t a a
  | an_parent d s : scopes t !! d = Some s -> ancestor_of t a (ParentScopeID s) -> ancestor_of t a d.

Lemma no_scope_zero t : tree_wf t -> scopes t !! 0 = None.
Proof.
  intros Hwf. destruct (scopes t !! 0) as [s|] eqn:E; [|done].
  apply (tw_id _ Hwf) in E. lia.
Qed.

Lemma ancestors_loop_chain t fuel seen id :
  tree_wf t -> (forall x, x ∈ seen -> id < x /\ x ∈ dom (scopes t)) ->
  (size (scopes t) < fuel + size seen)%nat ->
  exists chain, ancestors_loop t fuel seen (scopes t !! id) = Some chain /\ ancestor_chain t id chain.
Proof.
  intros Hwf. revert seen id.
  induction fuel as [|fuel IH]; intros seen id Hseen Hf;
    assert (seen ⊆ dom (scopes t)) as Hsub by (intros x Hx; by apply Hseen);
    pose proof (subseteq_size _ _ Hsub) as Hsz; rewrite size_dom in Hsz.
  { cbn in Hf. lia. }
  cbn [ancestors_loop]. destruct (scopes t !! id) as [s|] eqn:E; [|exists []; by repeat constructor].
  destruct (tw_id _ Hwf _ _ E) as [-> Hpos]. rewrite bool_decide_eq_false_2 by (intros ?%Hseen; lia).
  destruct (Z.eqb_spec (ParentScopeID s) 0) as [Hz|Hnz].
  { exists [s]. split; [done|by apply ac_root]. }
  destruct (IH ({[id]} ∪ seen) (ParentScopeID s)) as (chain & -> & Hc).
  - intros x [->%elem_of_singleton|Hx]%elem_of_union.
    + split; [apply (tw_parent _ Hwf _ _ E)|]. by eapply elem_of_dom_2.
    + destruct (Hseen _ Hx). split; [|done]. pose proof (tw_parent _ Hwf _ _ E). lia.
  - rewrite size_union, size_singleton; [lia|]. intros x ->%elem_of_singleton Hx%Hseen. lia.
  - exists (s :: chain). split; [done|by eapply ac_step].
Qed.

Lemma Ancestors_chain t id :
  tree_wf t -> exists chain, Ancestors t id = Some chain /\ ancestor_chain t id chain.
Proof.
  intros Hwf. apply ancestors_loop_chain; [done|set_solver|rewrite size_empty; lia].
Qed.

Lemma chain_ancestor t d chain a :
  tree_wf t -> ancestor_chain t d chain ->
  existsb (fun scope => ScopeID scope =? a) chain = true <-> ancestor_of t a d.
Proof.
  intros Hwf. induction 1 as [id Hn|id s Hs Hp|id s rest Hs Hp Hc IH]; cbn.
  - split; [done|]. intros Ha. inversion Ha as [[x ?]|d' s]; congruence.
  - destruct (tw_id _ Hwf _ _ Hs) as [-> _]. rewrite orb_false_r, Z.eqb_eq. split.
    + intros <-. constructor. by exists s.
    + intros Ha. inversion Ha as [|d' s' Hs' Ha']; [done|]; subst.
      assert (s' = s) as -> by congruence. rewrite Hp in Ha'.
      inversion Ha' as [[x Hx]|d' s'' Hx]; subst; by rewrite (no_scope_zero t) in Hx.
  - destruct (tw_id _ Hwf _ _ Hs) as [-> _]. rewrite orb_true_iff, Z.eqb_eq, IH. split.
    + intros [<-|Ha]; [constructor; by exists s|by econstructor].
    + intros Ha. inversion Ha as [|d' s' Hs' Ha']; [by left|right]; subst. congruence.
Qed.

Lemma chain_owner t d chain o s0 :
  tree_wf t -> ancestor_chain t d chain -> scopes t !! d = Some s0 -> ScopeOwnerID s0 = o ->
  Forall (fun s => ScopeOwnerID s = o) chain.
Proof.
  intros Hwf Hc. revert s0. induction Hc as [id Hn|id s Hs Hp|id s rest Hs Hp Hc IH]; intros s0 H0 Ho.
  - constructor.
  - repeat constructor. congruence.
  - constructor; [congruence|]. destruct (scopes t !! ParentScopeID s) as [p|] eqn:E.
    + apply (IH p); [done|]. rewrite (tw_owner _ Hwf _ _ _ Hs E). congruence.
    + inversion Hc; subst; [constructor|congruence..].
Qed.

(** ** Properties *)

Lemma subtree_closed `{MapRange} t id (Hwf : tree_wf t) (Hid : is_Some (scopes t !! id)) :
  exists t' closed, CloseSubtree t id = Some (t', closed) /\ tree_wf t' /\ nextID t' = nextID t /\
    NoDup closed /\ (forall x, x ∈ closed <-> below_scope t id x) /\
    (forall i j p x, closed !! i = Some x -> closed !! j = Some p -> open_child t p x -> (i < j)%nat) /\
    (forall k, scopes t' !! k = if decide (k ∈ closed)
       then (fun s => s <| SState := ScopeClosed |>) <$> scopes t !! k else scopes t !! k).
Proof.
  destruct (subtree_order_total t Hwf id (S (size (scopes t))) 0 [id]) as (order & Ho & Hi);
    [by apply order_inv_start|lia|].
  unfold CloseSubtree. destruct Hid as [s ->]. rewrite Ho. cbn [mbind option_bind].
  exists (foldl Close t (reverse order)), (reverse order).
  split_and!; [done|by apply foldl_Close_wf| | | | |apply foldl_Close].
  - clear. generalize (reverse order) as l. intros l. revert t. induction l; cbn; [done|].
    intros t. by rewrite IHl.
  - rewrite reverse_Permutation. apply Hi.
  - intros x. rewrite elem_of_reverse. by apply order_inv_below.
  - intros i j p x Hx Hp Hc.
    pose proof (lookup_lt_Some _ _ _ Hx) as Hlx. pose proof (lookup_lt_Some _ _ _ Hp) as Hlp.
    rewrite length_reverse in Hlx, Hlp. rewrite reverse_lookup in Hx, Hp by done.
    destruct (oi_from _ _ _ _ Hi _ _ Hx) as [-> |(l & q & _ & Hl & Hq & Hcq)].
    + destruct (oi_known _ _ _ _ Hi p) as [_ ?]; [by eapply list_elem_of_lookup_2|].
      apply open_child_parent in Hc; [lia|done].
    + assert (q = p) as -> by (by eapply open_child_unique).
      pose proof (NoDup_lookup _ _ _ _ (oi_nodup _ _ _ _ Hi) Hq Hp). lia.
Qed.

(** No scope is still open below a closed one. *)
Definition nested (t : ScopeTree) : Prop :=
  forall k s p, scopes t !! k = Some s -> SState s <> ScopeClosed ->
    scopes t !! ParentScopeID s = Some p -> SState p <> ScopeClosed.

Lemma NewScopeTree_nested : nested NewScopeTree.
Proof. intros k s p Hs. cbn in Hs. by rewrite lookup_empty in Hs. Qed.

(** Scopes opened under parents that are not closed keep it so. *)
Lemma OpenWithBudget_nested t o x p k a d w : tree_wf t -> nested t ->
  (forall s, scopes t !! p = Some s -> SState s <> ScopeClosed) -> nested (OpenWithBudget t o x p k a d w).1.
Proof.
  intros Hwf Hn Hp. unfold OpenWithBudget. destruct (_ || _); [done|]. destruct (_ && _); [done|]. destruct (_ =? _); [done|].
  intros i s q. cbn [fst scopes nextID field_update]. cbn. intros Hs Hopen Hq.
  assert (forall q, <[1 + nextID t := mkScope (1 + nextID t) o x p k ScopeOpen a d w]> (scopes t) !! ParentScopeID s = Some q ->
    SState q = ScopeOpen \/ scopes t !! ParentScopeID s = Some q) as Hq'.
  { intros q'. destruct (decide (1 + nextID t = ParentScopeID s)) as [->|E]; [rewrite lookup_insert_eq|rewrite lookup_insert_ne by done; by right].
    intros [= <-]. by left. }
  destruct (Hq' q Hq) as [Eq|Hq0]; [congruence|]. destruct (decide (1 + nextID t = i)) as [<-|Hi].
  - rewrite lookup_insert_eq in Hs. injection Hs as <-. cbn in Hq0. by apply (Hp _ Hq0).
  - rewrite lookup_insert_ne in Hs by done. exact (Hn _ _ _ Hs Hopen Hq0).
Qed.

Lemma below_ancestor t id x : tree_wf t -> nested t -> is_Some (scopes t !! id) ->
  below_scope t id x <-> ancestor_of t id x /\ (x = id \/ exists s, scopes t !! x = Some s /\ SState s <> ScopeClosed).
Proof.
  intros Hwf Hn Hid. split.
  - induction 1 as [|p x _ [IH _] (s & Hs & [Hp Ho]%andb_true_iff)]; [split; [by constructor|by left]|].
    apply Z.eqb_eq in Hp as <-. apply negb_true_iff, bool_decide_eq_false in Ho.
    split; [by econstructor|right; by exists s].
  - intros [Ha Hx]. induction Ha as [|d s Hs Ha IH]; [constructor|].
    destruct (decide (d = id)) as [->|Hne]; [constructor|]. destruct Hx as [?|(s' & Hs' & Ho)]; [done|]. assert (s' = s) as -> by congruence. clear Hs'.
    apply (bs_child _ _ (ParentScopeID s)).
    + apply IH. destruct (decide (ParentScopeID s = id)) as [|Hp]; [by left|right].
      assert (is_Some (scopes t !! ParentScopeID s)) as [p Ep]; [by inversion Ha as [|? q Hq]; subst|].
      exists p. split; [done|]. exact (Hn _ _ _ Hs Ho Ep).
    + exists s. split; [done|]. unfold is_open_child. by rewrite Z.eqb_refl, bool_decide_eq_false_2.
Qed.

(** C4: In a tree where no scope is open below a closed one, which is every tree grown by opening scopes under
    parents that are not closed and by closing subtrees, closing a subtree always terminates and closes
    exactly the scope and every descendant that is not closed yet, each once and every child before its
    parent; afterwards every descendant is closed, no other scope has changed, and the tree is again such a
    one. *)
Theorem close_subtree_exact `{MapRange} t id (Hwf : tree_wf t) (Hn : nested t) (Hid : is_Some (scopes t !! id)) :
  exists t' closed, CloseSubtree t id = Some (t', closed) /\ tree_wf t' /\ nested t' /\ nextID t' = nextID t /\
    NoDup closed /\
    (forall x, x ∈ closed <-> ancestor_of t id x /\ (x = id \/ exists s, scopes t !! x = Some s /\ SState s <> ScopeClosed)) /\
    (forall i j p x, closed !! i = Some x -> closed !! j = Some p -> open_child t p x -> (i < j)%nat) /\
    (forall x s, ancestor_of t id x -> scopes t' !! x = Some s -> SState s = ScopeClosed) /\
    (forall k, scopes t' !! k = if decide (k ∈ closed)
       then (fun s => s <| SState := ScopeClosed |>) <$> scopes t !! k else scopes t !! k).
Proof.
  destruct (subtree_closed t id Hwf Hid) as (t' & closed & Hc & Hwf' & Hnext & Hd & Hb & Hord & Hst).
  assert (forall x s, ancestor_of t id x -> scopes t' !! x = Some s -> SState s = ScopeClosed) as Hall.
  { intros x s Ha Hs. rewrite Hst in Hs. case_decide as Hx; [apply fmap_Some in Hs as (s0 & _ & ->); done|].
    destruct (decide (SState s = ScopeClosed)) as [|Ho]; [done|]. exfalso. apply Hx, Hb, below_ancestor; try done.
    split; [done|]. destruct (decide (x = id)); [by left|right; by exists s]. }
  exists t', closed. split_and!; try done; [|intros x; by rewrite Hb, below_ancestor].
  intros k s p Hs Ho Hp. rewrite Hst in Hs. case_decide as Hk; [apply fmap_Some in Hs as (s0 & _ & ->); done|].
  rewrite Hst in Hp. case_decide as Hpk; [|exact (Hn _ _ _ Hs Ho Hp)].
  exfalso. apply Hk, Hb. apply Hb in Hpk. apply (bs_child _ _ _ _ Hpk). exists s. split; [done|].
  unfold is_open_child. by rewrite Z.eqb_refl, bool_decide_eq_false_2.
Qed.

Definition sample_open (t : ScopeTree) (p : Z) : ScopeTree :=
  (Open t (str "root") (str "tx") p ScopeStatement 1 0).1.

Definition sample_tree : ScopeTree := sample_open (sample_open (sample_open NewScopeTree 0) 1) 2.

Lemma sample_tree_wf : tree_wf sample_tree.
Proof.
  unfold sample_tree, sample_open, Open. repeat (apply OpenWithBudget_wf; [|lia]).
  apply NewScopeTree_wf.
Qed.

Lemma sample_tree_nested : nested sample_tree.
Proof.
  unfold sample_tree, sample_open, Open.
  repeat (apply OpenWithBudget_nested; [repeat (apply OpenWithBudget_wf; [|lia]); apply NewScopeTree_wf| |]).
  - apply NewScopeTree_nested.
  - by intros s.
  - intros s Hs. vm_compute in Hs. by injection Hs as <-.
  - intros s Hs. vm_compute in Hs. by injection Hs as <-.
Qed.

Lemma close_subtree_exact_witness :
  snd <$> CloseSubtree sample_tree 2 = Some [3; 2] /\
  exists t' closed, CloseSubtree sample_tree 2 = Some (t', closed) /\ NoDup closed.
Proof.
  split; [by vm_compute|].
  destruct (close_subtree_exact sample_tree 2 sample_tree_wf sample_tree_nested ltac:(by eexists))
    as (t' & closed & ? & _ & _ & _ & ? & _).
  by exists t', closed.
Defined.

(** The ancestor chain of a scope always terminates, is the chain of parents from the scope
    outward and stays inside the scope's owner; [IsAncestor] answers [true] exactly for the scopes
    on that chain. *)
Theorem ancestry_exact t a d (Hwf : tree_wf t) (Ha : a <> 0) (Hd : d <> 0) :
  exists chain, Ancestors t d = Some chain /\ ancestor_chain t d chain /\
    (exists b, IsAncestor t a d = Some b /\ (b = true <-> ancestor_of t a d)) /\
    (forall s, scopes t !! d = Some s -> Forall (fun s' => ScopeOwnerID s' = ScopeOwnerID s) chain).
Proof.
  destruct (Ancestors_chain t d Hwf) as (chain & Hc & Hch). exists chain.
  split_and!; [done..| |].
  - unfold IsAncestor. rewrite (proj2 (Z.eqb_neq a 0)), (proj2 (Z.eqb_neq d 0)), Hc by done. cbn.
    eexists. split; [done|]. by apply chain_ancestor.
  - intros s Hs. by eapply chain_owner.
Qed.

Lemma ancestry_exact_witness :
  IsAncestor sample_tree 1 3 = Some true /\
  exists chain, Ancestors sample_tree 3 = Some chain /\ ancestor_chain sample_tree 3 chain.
Proof.
  split; [by vm_compute|].
  destruct (ancestry_exact sample_tree 1 3 sample_tree_wf ltac:(done) ltac:(done))
    as (chain & ? & ? & _).
  by exists chain.
Defined.

(** A scope opened under a closed scope is out of reach of a later [CloseSubtree] of its
    grandparent: the walk does not pass through a closed scope. *)
Definition orphan_tree : ScopeTree :=
  sample_open (Close (sample_open (sample_open NewScopeTree 0) 1) 2) 2.

Lemma closed_scope_hides_descendants :
  exists t', CloseSubtree orphan_tree 1 = Some (t', [1]) /\
    IsAncestor orphan_tree 1 3 = Some true /\ SState <$> scopes t' !! 3 = Some ScopeOpen.
Proof. eexists. split; [by vm_compute|by vm_compute]. Qed.

(** ** The namespace registry: [ScopeTree] of [lockmanager/resource.go]

    One namespace has one SQL owner label.  The registry refuses a conflicting label and keeps
    the accounted size of what it holds.  The read-write mutex of the Go type makes every method
    one atomic step, which is what a function on the record is. *)

Record NamespaceBinding : Type := mkBinding {
  Namespace : bytes;
  BTableID : bytes;
  BIndexID : bytes;
  Node : bytes;
  Bound : Z
}.

Definition Binding_Validate (b : NamespaceBinding) : result lock_error unit :=
  if bool_decide (Namespace b = []) || bool_decide (BTableID b = []) then Err ErrInvalidResource
  else Ok tt.

Record Bindings : Type := mkBindings {
  b_generation : Z;
  b_entries : gmap bytes NamespaceBinding;
  b_bytes : Z
}.

#[export] Instance Bindings_rebuild : Rebuild Bindings := fun b =>
  mkBindings (b_generation b) (b_entries b) (b_bytes b).

Definition NewBindings (generation : Z) : Bindings := mkBindings generation ∅ 0.

Definition binding_bytes (b : NamespaceBinding) : Z :=
  blen (Namespace b) + blen (BTableID b) + blen (BIndexID b) + blen (Node b) + resourceFixedBytes.

(** The new state and the error, as [Bind] returns them. *)
Definition Bind (b : Bindings) (binding : NamespaceBinding) : Bindings * result lock_error unit :=
  match Binding_Validate binding with
  | Err e => (b, Err e)
  | Ok _ =>
      match b_entries b !! Namespace binding with
      | Some existing =>
          if negb (bool_decide (BTableID existing = BTableID binding))
             || negb (bool_decide (BIndexID existing = BIndexID binding))
             || negb (bool_decide (Node existing = Node binding))
          then (b, Err ErrInvalidResource)
          else (b, Ok tt)
      | None =>
          (b <| b_entries ::= <[Namespace binding := binding]> |>
             <| b_bytes ::= Z.add (binding_bytes binding) |>, Ok tt)
      end
  end.

Definition Bindings_Lookup (b : Bindings) (namespace : bytes) : option NamespaceBinding :=
  b_entries b !! namespace.

Definition Unbind (b : Bindings) (namespace : bytes) : Bindings :=
  match b_entries b !! namespace with
  | Some binding =>
      b <| b_bytes ::= fun n => n - binding_bytes binding |> <| b_entries ::= delete namespace |>
  | None => b
  end.

Definition Bindings_Reset (b : Bindings) (generation : Z) : Bindings :=
  b <| b_generation := generation |> <| b_entries := ∅ |> <| b_bytes := 0 |>.

Definition Bindings_Len (b : Bindings) : Z := Z.of_nat (size (b_entries b)).

(** ** Invariant: entries are stored under their namespace, valid, and exactly accounted. *)

Record bindings_wf (b : Bindings) : Prop := {
  bw_key ns e : b_entries b !! ns = Some e -> Namespace e = ns /\ Binding_Validate e = Ok tt;
  bw_bytes : b_bytes b = map_sum (fun _ e => binding_bytes e) (b_entries b)
}.

Lemma NewBindings_wf g : bindings_wf (NewBindings g).
Proof. split; cbn; [intros ? ?; by rewrite lookup_empty|]. by rewrite map_sum_empty. Qed.

Lemma Bind_wf b e : bindings_wf b -> bindings_wf (Bind b e).1.
Proof.
  intros Hwf. pose proof Hwf as [Hk Hb]. unfold Bind.
  destruct (Binding_Validate e) as [[]|] eqn:V; [|done].
  destruct (b_entries b !! Namespace e) eqn:E; [by case_match|]. split; cbn.
  - intros ns x [[<- <-]|[Hne Hx]]%lookup_insert_Some; [done|by apply Hk].
  - rewrite map_sum_insert, Hb by done. lia.
Qed.

Lemma Unbind_wf b ns : bindings_wf b -> bindings_wf (Unbind b ns).
Proof.
  intros Hwf. pose proof Hwf as [Hk Hb]. unfold Unbind.
  destruct (b_entries b !! ns) eqn:E; [|done]. split; cbn.
  - intros key x [_ Hx]%lookup_delete_Some. by apply Hk.
  - rewrite map_sum_delete_any, E, Hb. cbn. lia.
Qed.

Lemma Bindings_Reset_wf b g : bindings_wf (Bindings_Reset b g).
Proof. split; cbn; [intros ? ?; by rewrite lookup_empty|]. by rewrite map_sum_empty. Qed.

(** The operations as one step, and what a registry goes through. *)
Inductive binding_op : Type :=
  | OpBind (e : NamespaceBinding)
  | OpUnbind (ns : bytes)
  | OpReset (g : Z).

Definition binding_step (b : Bindings) (o : binding_op) : Bindings :=
  match o with
  | OpBind e => (Bind b e).1
  | OpUnbind ns => Unbind b ns
  | OpReset g => Bindings_Reset b g
  end.

Lemma binding_step_wf b o : bindings_wf b -> bindings_wf (binding_step b o).
Proof. destruct o; cbn; auto using Bind_wf, Unbind_wf, Bindings_Reset_wf. Qed.

Lemma binding_run_wf ops b : bindings_wf b -> bindings_wf (foldl binding_step b ops).
Proof. revert b. induction ops; cbn; auto using binding_step_wf. Qed.

(** A label survives every later [Bind]: it changes only through [Unbind] or [Reset]. *)
Lemma Bind_keeps_label b e ns x :
  Bindings_Lookup b ns = Some x -> Bindings_Lookup (Bind b e).1 ns = Some x.
Proof.
  unfold Bindings_Lookup, Bind. intros H. destruct (Binding_Validate e); [|done].
  destruct (b_entries b !! Namespace e) eqn:E; [by case_match|]. cbn.
  rewrite lookup_insert_ne; [done|]. congruence.
Qed.

Lemma Bind_ok_lookup b e :
  bindings_wf b -> (Bind b e).2 = Ok tt ->
  exists x, Bindings_Lookup (Bind b e).1 (Namespace e) = Some x /\
    BTableID x = BTableID e /\ BIndexID x = BIndexID e /\ Node x = Node e.
Proof.
  intros _. unfold Bindings_Lookup, Bind. destruct (Binding_Validate e); [|done].
  destruct (b_entries b !! Namespace e) as [x|] eqn:E.
  - case_match; [done|]. cbn. bool_prop. intros _. exists x. by rewrite E.
  - cbn. intros _. exists e. by rewrite lookup_insert_eq.
Qed.

(** Registry runs: after any sequence of binds, unbinds and resets on a fresh registry, the
    accounted size is exactly the size of the live entries, every entry is valid and filed under
    its own namespace, and a [Bind] that is answered without error leaves its namespace labelled
    with the table, index and node it asked for, whichever label was already there. *)
Theorem bindings_exact (g : Z) (ops : list binding_op) (e : NamespaceBinding) :
  let b := foldl binding_step (NewBindings g) ops in
  b_bytes b = map_sum (fun _ x => binding_bytes x) (b_entries b) /\
  (forall ns x, Bindings_Lookup b ns = Some x -> Namespace x = ns /\ Binding_Validate x = Ok tt) /\
  ((Bind b e).2 = Ok tt ->
     exists x, Bindings_Lookup (Bind b e).1 (Namespace e) = Some x /\
       BTableID x = BTableID e /\ BIndexID x = BIndexID e /\ Node x = Node e) /\
  (forall ns x, Bindings_Lookup b ns = Some x -> Bindings_Lookup (Bind b e).1 ns = Some x).
Proof.
  cbn zeta. pose proof (binding_run_wf ops _ (NewBindings_wf g)) as Hwf.
  split_and!; [apply (bw_bytes _ Hwf)|apply (bw_key _ Hwf)|by apply Bind_ok_lookup|].
  apply Bind_keeps_label.
Qed.
