(* ===== verification/Compat.v ===== *)
(** * Lock compatibility: [lockmanager/compatibility.go]

    The mode matrix, the bounds-aware conflict rule, validation of an atomic bundle with its
    prerequisites, and mode strength. *)

From stdpp Require Import gmap list strings.
From S2P Require Import Prelude LockTypes Interval Resource ScopeTree.

Definition modesCompatible (request held : Mode) : bool :=
  if negb (Mode_Valid request) || negb (Mode_Valid held) then false
  else match held with
  | ModeIS | ModeIX => true
  | ModeS => negb (bool_decide (request = ModeX))
  | ModeX => bool_decide (request = ModeGap) || Mode_Intention request
  | ModeGap => negb (bool_decide (request = ModeInsertIntention))
  | ModeInsertIntention =>
      negb (bool_decide (request = ModeGap)) && negb (bool_decide (request = ModeX))
  | ModeOther _ => false
  end.

Definition recordsConflict (request held : Mode) : bool := negb (modesCompatible request held).

Definition componentsConflict (requestRef heldRef : ResourceRef) : bool :=
  match mode requestRef, mode heldRef with
  | ModeGap, ModeInsertIntention => gapBlocksInsertion requestRef (Key heldRef)
  | ModeInsertIntention, ModeGap => gapBlocksInsertion heldRef (Key requestRef)
  | ModeGap, ModeGap => false
  | request, held => recordsConflict request held
  end.

Definition ValidateComponent (ref : ResourceRef) : result lock_error unit :=
  match Kind ref with
  | KindTableIntent =>
      if negb (Mode_Intention (mode ref)) then Err ErrUnsupportedMode else Validate ref
  | KindRecord =>
      if negb (Mode_Record (mode ref)) && negb (bool_decide (mode ref = ModeInsertIntention))
      then Err ErrUnsupportedMode else Validate ref
  | KindInterval =>
      if negb (bool_decide (mode ref = ModeGap)) then Err ErrUnsupportedMode else Validate ref
  | KindOther _ => Err ErrInvalidResource
  end.

(** The separator-joined key of [MissingRowClaims] and [MissingTableIntents]. *)
Definition joined (a b : bytes) : bytes := a ++ [byte_of_Z 0] ++ b.

Definition claimed_rows (components : list ResourceRef) : gset bytes :=
  foldl (fun s c =>
    if negb (bool_decide (Kind c = KindRecord)) || negb (bool_decide (mode c = ModeX)) then s
    else {[ joined (Space c) (raw (Key c)) ]} ∪ s) ∅ components.

Definition row_claim_step (claimed : gset bytes) (acc : gset bytes * list (option bytes))
    (c : ResourceRef) : gset bytes * list (option bytes) :=
  let '(seen, missing) := acc in
  if negb (bool_decide (Kind c = KindRecord)) || negb (bool_decide (mode c = ModeInsertIntention))
  then (seen, missing)
  else
    let match_ := joined (Space c) (raw (Key c)) in
    if bool_decide (match_ ∈ claimed) || bool_decide (match_ ∈ seen) then (seen, missing)
    else ({[ match_ ]} ∪ seen, missing ++ [Key c]).

Definition MissingRowClaims (components : list ResourceRef) : list (option bytes) :=
  snd (foldl (row_claim_step (claimed_rows components)) (∅, []) components).

Definition pinned_intents (components : list ResourceRef) : gset bytes :=
  foldl (fun s c =>
    if negb (bool_decide (Kind c = KindTableIntent)) then s
    else
      let s := {[ joined (TableID c) (mode_string (mode c)) ]} ∪ s in
      if bool_decide (mode c = ModeIX) then {[ joined (TableID c) (mode_string ModeIS) ]} ∪ s else s)
    ∅ components.

(** The table a component belongs to: its own label, or its namespace's binding. *)
Definition component_table (bindings : option Bindings) (c : ResourceRef) : bytes :=
  match TableID c, bindings with
  | [], Some b =>
      match Bindings_Lookup b (Space c) with Some binding => BTableID binding | None => [] end
  | t, _ => t
  end.

(** The intention a record or interval component needs. *)
Definition needed_intent (c : ResourceRef) : Mode :=
  match Kind c with
  | KindInterval => ModeIS
  | _ => if bool_decide (mode c = ModeX) || bool_decide (mode c = ModeInsertIntention)
         then ModeIX else ModeIS
  end.

Definition table_intent_step (bindings : option Bindings) (pinned : gset bytes)
    (acc : gset bytes * list bytes) (c : ResourceRef) : gset bytes * list bytes :=
  let '(checked, missing) := acc in
  if negb (bool_decide (Kind c = KindRecord)) && negb (bool_decide (Kind c = KindInterval))
  then (checked, missing)
  else
    let tableID := component_table bindings c in
    if bool_decide (tableID = []) then (checked, missing)
    else
      let key := joined tableID (mode_string (needed_intent c)) in
      if bool_decide (key ∈ checked) then (checked, missing)
      else ({[ key ]} ∪ checked,
            if negb (bool_decide (key ∈ pinned)) then missing ++ [tableID] else missing).

Definition MissingTableIntents (components : list ResourceRef) (bindings : option Bindings)
    : list bytes :=
  snd (foldl (table_intent_step bindings (pinned_intents components)) (∅, []) components).

Fixpoint validate_components (components : list ResourceRef) : result lock_error unit :=
  match components with
  | [] => Ok tt
  | c :: rest => let* _ := ValidateComponent c in validate_components rest
  end.

Definition ValidateBundle (components : list ResourceRef) (bindings : option Bindings)
    : result lock_error unit :=
  if (length components =? 0)%nat then Err ErrInvalidResource
  else
    let* _ := validate_components components in
    if (0 <? length (MissingTableIntents components bindings))%nat then Err ErrTableIntentRequired
    else if (0 <? length (MissingRowClaims components))%nat then Err ErrInsertIntentionRequiresRecord
    else Ok tt.

(** ** Strength *)

Definition modeStrengthKnown (m : Mode) : Z * bool :=
  match m with
  | ModeIS => (1, true)
  | ModeGap => (2, true)
  | ModeInsertIntention => (3, true)
  | ModeS => (4, true)
  | ModeIX => (5, true)
  | ModeX => (6, true)
  | ModeOther _ => (0, false)
  end.

Definition modeStrength (m : Mode) : Z := (modeStrengthKnown m).1.

(** The empty mode string. *)
Definition no_mode : Mode := ModeOther [].

Definition effectiveMode (modes : list Mode) : Mode :=
  foldl (fun strongest m => if modeStrength strongest <? modeStrength m then m else strongest)
    no_mode modes.

Definition upgradeNeeded (request held : Mode) : bool :=
  if bool_decide (held = no_mode) then false
  else
    let '(requestStrength, requestKnown) := modeStrengthKnown request in
    let '(heldStrength, heldKnown) := modeStrengthKnown held in
    if negb requestKnown || negb heldKnown then false
    else heldStrength <? requestStrength.

(** ** The conflict relation, written out *)

(** The unordered pairs that exclude each other: exclusive against shared, exclusive or
    inserting access to a row; a gap against an insertion inside it. *)
Inductive excludes : ResourceRef -> ResourceRef -> Prop :=
  | ex_write_write a b : mode a = ModeX -> mode b = ModeX -> excludes a b
  | ex_write_read a b : mode a = ModeX -> mode b = ModeS -> excludes a b
  | ex_write_insert a b : mode a = ModeX -> mode b = ModeInsertIntention -> excludes a b
  | ex_gap_insert a b k :
      mode a = ModeGap -> mode b = ModeInsertIntention -> Key b = Some k -> gap_covers a k ->
      excludes a b
  | ex_sym a b : excludes b a -> excludes a b.

Lemma gapBlocks_iff gap p :
  gapBlocksInsertion gap p = true <-> exists k, p = Some k /\ gap_covers gap k.
Proof.
  destruct p as [k|].
  - rewrite gapBlocksInsertion_spec. split; [by eauto|]. by intros (? & [= <-] & ?).
  - rewrite gapBlocksInsertion_nil. split; [done|]. by intros (? & ? & ?).
Qed.

Lemma componentsConflict_sym a b :
  Mode_Valid (mode a) = true -> Mode_Valid (mode b) = true ->
  componentsConflict a b = componentsConflict b a.
Proof. unfold componentsConflict. by destruct (mode a), (mode b). Qed.

Lemma excludes_conflict a b :
  excludes a b -> Mode_Valid (mode a) = true -> Mode_Valid (mode b) = true ->
  componentsConflict a b = true.
Proof.
  induction 1 as [a b Ha Hb|a b Ha Hb|a b Ha Hb|a b k Ha Hb Hk Hg|a b _ IH]; intros Va Vb.
  1-3: unfold componentsConflict; by rewrite Ha, Hb.
  - unfold componentsConflict. rewrite Ha, Hb. apply gapBlocks_iff. eauto.
  - rewrite componentsConflict_sym by done. auto.
Qed.

Lemma conflict_excludes a b :
  Mode_Valid (mode a) = true -> Mode_Valid (mode b) = true ->
  componentsConflict a b = true -> excludes a b.
Proof.
  unfold componentsConflict. intros Va Vb.
  destruct (mode a) eqn:Ea, (mode b) eqn:Eb; try done; cbn; try done; intros H;
    try (apply gapBlocks_iff in H as (k & Hk & Hg)); eauto using excludes.
Qed.

(** A record domain also holds the modes that never meet: intentions conflict with nothing. *)
Lemma intention_never_conflicts a b :
  Mode_Intention (mode a) = true -> Mode_Valid (mode b) = true -> componentsConflict a b = false.
Proof.
  intros [E|E]%Mode_Intention_spec Vb; unfold componentsConflict; rewrite E;
    by destruct (mode b).
Qed.

(** ** What a bundle must contain *)

Lemma joined_inj a b c d :
  byte_of_Z 0 ∉ a -> byte_of_Z 0 ∉ c -> joined a b = joined c d -> a = c /\ b = d.
Proof.
  unfold joined. revert c. induction a as [|x a IH]; intros [|y c] Ha Hc H.
  - by injection H.
  - injection H as H _. destruct Hc. rewrite H. by left.
  - injection H as H _. destruct Ha. rewrite H. by left.
  - injection H as -> H. apply not_elem_of_cons in Ha as [_ Ha], Hc as [_ Hc].
    destruct (IH c Ha Hc H) as [-> ->]. done.
Qed.

Lemma claimed_rows_spec l x :
  x ∈ claimed_rows l <->
  exists c, c ∈ l /\ Kind c = KindRecord /\ mode c = ModeX /\ x = joined (Space c) (raw (Key c)).
Proof.
  unfold claimed_rows. rewrite (foldl_collects _ (fun c x => Kind c = KindRecord /\ mode c = ModeX
    /\ x = joined (Space c) (raw (Key c)))); [set_solver|].
  intros s c y. repeat case_bool_decide; cbn; set_solver.
Qed.

Definition inserts (c : ResourceRef) : Prop := Kind c = KindRecord /\ mode c = ModeInsertIntention.

(** [missing] is empty exactly when every insertion seen so far has its row claimed. *)
Lemma row_claim_step_cases claimed seen missing c :
  (~ inserts c \/ joined (Space c) (raw (Key c)) ∈ claimed ∪ seen) /\
    row_claim_step claimed (seen, missing) c = (seen, missing) \/
  inserts c /\ joined (Space c) (raw (Key c)) ∉ claimed ∪ seen /\
    row_claim_step claimed (seen, missing) c =
      ({[ joined (Space c) (raw (Key c)) ]} ∪ seen, missing ++ [Key c]).
Proof.
  unfold row_claim_step, inserts. cbn zeta.
  repeat case_bool_decide; cbn; rewrite ?elem_of_union; tauto.
Qed.

Lemma row_claim_fold claimed l :
  let acc := foldl (row_claim_step claimed) (∅, []) l in
  acc.2 = [] -> acc.1 = ∅ /\
  forall c, c ∈ l -> inserts c -> joined (Space c) (raw (Key c)) ∈ claimed.
Proof.
  cbn zeta. induction l as [|c l IH] using rev_ind; cbn; [set_solver|].
  rewrite foldl_snoc. destruct (foldl _ _ l) as [seen missing]. cbn in IH.
  destruct (row_claim_step_cases claimed seen missing c) as [[Hc ->]|(_ & _ & ->)]; cbn;
    intros Hm; [|by destruct (app_eq_nil _ _ Hm)].
  destruct (IH Hm) as [-> Hl]. split; [done|].
  intros c' [?| ->%list_elem_of_singleton]%elem_of_app ?; [by auto|set_solver].
Qed.

Lemma row_claim_fold_nil claimed l :
  (forall c, c ∈ l -> inserts c -> joined (Space c) (raw (Key c)) ∈ claimed) ->
  forall seen, (foldl (row_claim_step claimed) (seen, []) l).2 = [].
Proof.
  induction l as [|c l IH]; intros H seen; cbn [foldl]; [done|].
  assert (Hl : forall d, d ∈ l -> inserts d -> joined (Space d) (raw (Key d)) ∈ claimed)
    by (intros; apply H; [by right|done]).
  destruct (row_claim_step_cases claimed seen [] c) as [[_ ->]|(Hi & Hn & _)]; [by apply IH|].
  destruct Hn. apply elem_of_union. left. apply H; [by left|done].
Qed.

Lemma MissingRowClaims_spec l :
  MissingRowClaims l = [] <->
  forall c, c ∈ l -> inserts c ->
    exists r, r ∈ l /\ Kind r = KindRecord /\ mode r = ModeX /\
      joined (Space r) (raw (Key r)) = joined (Space c) (raw (Key c)).
Proof.
  unfold MissingRowClaims. split.
  - intros H c Hc Hi. apply row_claim_fold in H as [_ H]. specialize (H c Hc Hi).
    apply claimed_rows_spec in H as (r & ? & ? & ? & ?). eauto 10.
  - intros H. apply row_claim_fold_nil. intros c Hc Hi. apply claimed_rows_spec.
    destruct (H c Hc Hi) as (r & ? & ? & ? & ?). eauto 10.
Qed.

(** A component that needs an intention on its table. *)
Definition in_table (bindings : option Bindings) (c : ResourceRef) : Prop :=
  (Kind c = KindRecord \/ Kind c = KindInterval) /\ component_table bindings c <> [].

Definition needed_key (bindings : option Bindings) (c : ResourceRef) : bytes :=
  joined (component_table bindings c) (mode_string (needed_intent c)).

Lemma pinned_intents_spec l x :
  x ∈ pinned_intents l <->
  exists t, t ∈ l /\ Kind t = KindTableIntent /\
    (x = joined (TableID t) (mode_string (mode t)) \/
     mode t = ModeIX /\ x = joined (TableID t) (mode_string ModeIS)).
Proof.
  unfold pinned_intents. rewrite (foldl_collects _ (fun t x => Kind t = KindTableIntent /\
    (x = joined (TableID t) (mode_string (mode t)) \/
     mode t = ModeIX /\ x = joined (TableID t) (mode_string ModeIS)))); [set_solver|].
  intros s c y. cbn zeta. repeat case_bool_decide; cbn [negb]; set_solver.
Qed.

Lemma table_intent_step_cases bindings pinned checked missing c :
  (~ in_table bindings c \/ needed_key bindings c ∈ checked) /\
    table_intent_step bindings pinned (checked, missing) c = (checked, missing) \/
  in_table bindings c /\ needed_key bindings c ∉ checked /\
    (table_intent_step bindings pinned (checked, missing) c).1 =
      {[ needed_key bindings c ]} ∪ checked /\
    (table_intent_step bindings pinned (checked, missing) c).2 =
      if decide (needed_key bindings c ∈ pinned) then missing
      else missing ++ [component_table bindings c].
Proof.
  unfold table_intent_step, in_table, needed_key. cbn zeta.
  repeat case_bool_decide; repeat case_decide; cbn; tauto.
Qed.

Lemma table_intent_fold bindings pinned l :
  let acc := foldl (table_intent_step bindings pinned) (∅, []) l in
  acc.2 = [] -> acc.1 ⊆ pinned /\
  forall c, c ∈ l -> in_table bindings c -> needed_key bindings c ∈ pinned.
Proof.
  cbn zeta. induction l as [|c l IH] using rev_ind; cbn [foldl].
  - intros _. split; [cbn; set_solver|]. by intros c []%not_elem_of_nil.
  - rewrite foldl_snoc. destruct (foldl _ _ l) as [checked missing]. cbn [fst snd] in IH.
    destruct (table_intent_step_cases bindings pinned checked missing c)
      as [[Hc ->]|(_ & _ & -> & ->)]; cbn [fst snd]; intros Hm.
    + destruct (IH Hm) as [Hs Hl]. split; [done|].
      intros c' [?| ->%list_elem_of_singleton]%elem_of_app ?; [by auto|set_solver].
    + case_decide; [|by destruct (app_eq_nil _ _ Hm)].
      destruct (IH Hm) as [Hs Hl]. split; [set_solver|].
      intros c' [?| ->%list_elem_of_singleton]%elem_of_app ?; by auto.
Qed.

Lemma table_intent_fold_nil bindings pinned l :
  (forall c, c ∈ l -> in_table bindings c -> needed_key bindings c ∈ pinned) ->
  forall checked, (foldl (table_intent_step bindings pinned) (checked, []) l).2 = [].
Proof.
  induction l as [|c l IH]; intros H checked; cbn [foldl]; [done|].
  assert (Hl : forall d, d ∈ l -> in_table bindings d -> needed_key bindings d ∈ pinned)
    by (intros; apply H; [by right|done]).
  destruct (table_intent_step_cases bindings pinned checked [] c) as [[_ ->]|(Hi & _ & _ & H2)];
    [by apply IH|].
  destruct (table_intent_step bindings pinned (checked, []) c) as [chk mis]. cbn in H2.
  rewrite decide_True in H2 by (apply H; [by left|done]). subst mis. by apply IH.
Qed.

Lemma MissingTableIntents_spec l bindings :
  MissingTableIntents l bindings = [] <->
  forall c, c ∈ l -> in_table bindings c ->
    exists t, t ∈ l /\ Kind t = KindTableIntent /\
      (needed_key bindings c = joined (TableID t) (mode_string (mode t)) \/
       mode t = ModeIX /\ needed_key bindings c = joined (TableID t) (mode_string ModeIS)).
Proof.
  unfold MissingTableIntents. split.
  - intros H c Hc Hi. apply table_intent_fold in H as [_ H]. specialize (H c Hc Hi).
    by apply pinned_intents_spec in H.
  - intros H. apply table_intent_fold_nil. intros c Hc Hi. apply pinned_intents_spec. auto.
Qed.

Lemma validate_components_spec l :
  validate_components l = Ok tt <-> forall c, c ∈ l -> ValidateComponent c = Ok tt.
Proof.
  induction l as [|c l IH]; cbn; [split; [by intros _ c []%not_elem_of_nil|done]|].
  destruct (ValidateComponent c) as [[]|e] eqn:E; cbn.
  - rewrite IH. split; [intros H d [-> |?]%elem_of_cons; auto|].
    intros H d Hd. apply H. by right.
  - split; [done|]. intros H. rewrite <- E. apply H. by left.
Qed.

(** A valid component passes [Identity.Validate] and conversely, so the bundle check adds
    nothing but the order of the tests. *)
Lemma ValidateComponent_spec c : ValidateComponent c = Ok tt <-> Validate c = Ok tt.
Proof.
  split.
  - unfold ValidateComponent. destruct (Kind c); repeat case_match; done.
  - intros H. pose proof (Validate_pairing c H) as Hp. unfold ValidateComponent.
    destruct (Kind c); cbn in Hp.
    + by rewrite Hp.
    + apply orb_true_iff in Hp as [-> | ->]; [done|]. cbn. by rewrite andb_false_r.
    + by rewrite Hp.
    + done.
Qed.

Lemma ValidateBundle_ok components bindings :
  ValidateBundle components bindings = Ok tt <->
  components <> [] /\ (forall c, c ∈ components -> Validate c = Ok tt) /\
  MissingTableIntents components bindings = [] /\ MissingRowClaims components = [].
Proof.
  unfold ValidateBundle. destruct components as [|c l]; cbn [length Nat.eqb]; [naive_solver|].
  set (k := c :: l). destruct (validate_components k) as [[]|e] eqn:E; cbn [rbind].
  - pose proof (proj1 (validate_components_spec k) E) as Hk.
    setoid_rewrite ValidateComponent_spec in Hk.
    destruct (MissingTableIntents k bindings); cbn; [|naive_solver].
    destruct (MissingRowClaims k); cbn; naive_solver.
  - split; [done|]. intros (_ & H & _). rewrite (proj2 (validate_components_spec k)) in E; [done|].
    intros d Hd. by apply ValidateComponent_spec, H.
Qed.

(** Names the key of the prerequisite sets can tell apart: no NUL byte. *)
Definition no_nul (s : bytes) : Prop := byte_of_Z 0 ∉ s.

Definition names_separable (components : list ResourceRef) (bindings : option Bindings) : Prop :=
  forall c, c ∈ components -> no_nul (Space c) /\ no_nul (TableID c) /\
    no_nul (component_table bindings c).

Definition intent_covers (held needed : Mode) : Prop := held = needed \/ held = ModeIX /\ needed = ModeIS.

(** A bundle is accepted exactly when it is not empty, every component is one of the legal
    shapes, every record or interval component whose table is known travels with an intention on
    that table that is strong enough, and every insertion intention travels with the exclusive
    claim of the very row it inserts. *)
Theorem bundle_prerequisites_exact components bindings
    (Hnames : names_separable components bindings) :
  ValidateBundle components bindings = Ok tt <->
  components <> [] /\ (forall c, c ∈ components -> legal_shape c) /\
  (forall c, c ∈ components -> in_table bindings c ->
     exists t, t ∈ components /\ Kind t = KindTableIntent /\
       TableID t = component_table bindings c /\ intent_covers (mode t) (needed_intent c)) /\
  (forall c, c ∈ components -> Kind c = KindRecord -> mode c = ModeInsertIntention ->
     exists r, r ∈ components /\ Kind r = KindRecord /\ mode r = ModeX /\
       Space r = Space c /\ raw (Key r) = raw (Key c)).
Proof.
  rewrite ValidateBundle_ok, MissingTableIntents_spec, MissingRowClaims_spec.
  setoid_rewrite <- Validate_spec.
  apply and_iff_compat_l. split; intros (Hv & Ht & Hr); (split; [done|]; split).
  - intros c Hc Hi. destruct (Ht c Hc Hi) as (t & Hin & Hk & Hkey). exists t.
    destruct (Hnames c Hc) as (_ & _ & Hc0), (Hnames t Hin) as (_ & Ht0 & _).
    unfold needed_key in Hkey. split; [done|]. split; [done|].
    assert (Hvm : Mode_Valid (mode t) = true) by (apply Validate_mode; auto).
    assert (Hvn : Mode_Valid (needed_intent c) = true)
      by (unfold needed_intent; repeat case_match; done).
    destruct Hkey as [Hkey|[Hm Hkey]]; apply joined_inj in Hkey as [<- Hkey]; try done.
    + split; [done|]. left. by apply mode_string_inj.
    + split; [done|]. right. split; [done|]. by apply mode_string_inj.
  - intros c Hc Hk Hm. destruct (Hr c Hc (conj Hk Hm)) as (r & Hin & Hkr & Hmr & Hj).
    destruct (Hnames c Hc) as (Hc0 & _), (Hnames r Hin) as (Hr0 & _).
    apply joined_inj in Hj as [? ?]; [|done..]. eauto 10.
  - intros c Hc Hi. destruct (Ht c Hc Hi) as (t & Hin & Hk & Hid & Hcov). exists t.
    unfold needed_key. rewrite Hid. destruct Hcov as [-> |[-> ->]]; auto.
  - intros c Hc [Hk Hm]. destruct (Hr c Hc Hk Hm) as (r & Hin & Hkr & Hmr & Hs & Hkey).
    exists r. unfold joined. by rewrite Hs, Hkey.
Qed.

(** C2: Two components of known modes conflict exactly when they are one of the excluding pairs:
    exclusive against exclusive, shared or inserting access, or a gap against an insertion whose
    key the gap covers.  The relation is symmetric, and an intention conflicts with nothing. *)
Theorem conflict_matrix_exact a b
    (Ha : Mode_Valid (mode a) = true) (Hb : Mode_Valid (mode b) = true) :
  (componentsConflict a b = true <-> excludes a b) /\
  componentsConflict a b = componentsConflict b a /\
  (Mode_Intention (mode a) = true -> componentsConflict a b = false).
Proof.
  split_and!.
  - split; [by apply conflict_excludes|]. intros H. by apply excludes_conflict.
  - by apply componentsConflict_sym.
  - intros Hi. by apply intention_never_conflicts.
Qed.

Lemma conflict_matrix_exact_witness :
  componentsConflict (row_ref "a" ModeS) (row_ref "a" ModeX) = true /\
  ~ excludes (row_ref "a" ModeS) (row_ref "a" ModeS).
Proof.
  split.
  - apply (proj1 (conflict_matrix_exact (row_ref "a" ModeS) (row_ref "a" ModeX) eq_refl eq_refl)).
    apply ex_sym. by apply ex_write_read.
  - intros H. apply (proj1 (conflict_matrix_exact (row_ref "a" ModeS) (row_ref "a" ModeS) eq_refl eq_refl)) in H. by vm_compute in H.
Defined.

Definition intent_ref (m : Mode) : ResourceRef :=
  mkIdentity 7 (str "t/pk") (str "t") [] KindTableIntent None None None false false m.

Lemma bundle_prerequisites_exact_witness :
  exists t, t ∈ [intent_ref ModeIX; row_ref "a" ModeX] /\ Kind t = KindTableIntent /\
    TableID t = str "t" /\ intent_covers (mode t) ModeIX.
Proof.
  destruct (bundle_prerequisites_exact [intent_ref ModeIX; row_ref "a" ModeX] None) as [H _].
  - intros c [-> |[-> |[]%not_elem_of_nil]%elem_of_cons]%elem_of_cons;
      split_and!; unfold no_nul; apply (bool_decide_eq_true _); by vm_compute.
  - destruct H as (_ & _ & Ht & _); [by vm_compute|].
    apply (Ht (row_ref "a" ModeX)); [by right; left|]. split; [by left|done].
Defined.
