(* ===== verification/Ledger.v ===== *)
(** * The accounting ledger: [lockmanager/budget.go]

    A reservation is a heap object named by its token ([objs]); [live] is the map of the same
    name, as the set of its tokens.  Sizes are Go [int64]: the memory bound proved here keeps
    every sum far below 2^63, so they are plain integers. *)

From stdpp Require Import gmap list sorting strings fin_maps.
From S2P Require Import Prelude LockTypes Resource.

Record Reservation : Type := mkReservation {
  r_ownerID : bytes;
  r_waiter : bool;
  r_resources : list ResourceRef;
  r_newResources : list ResourceRef;
  r_newResourceBytes : Z;
  r_reservedBytes : Z;
  r_committed : bool;
  r_released : bool
}.

#[export] Instance Reservation_rebuild : Rebuild Reservation := fun r =>
  mkReservation (r_ownerID r) (r_waiter r) (r_resources r) (r_newResources r)
    (r_newResourceBytes r) (r_reservedBytes r) (r_committed r) (r_released r).

Record ownerCharge : Type := mkCharge {
  c_resources : gmap bytes ResourceRef;
  c_resourceBytes : Z;
  c_fixedBytes : Z;
  c_grantedSet : gset bytes;
  c_grantedBytes : Z;
  c_grants : Z
}.

#[export] Instance ownerCharge_rebuild : Rebuild ownerCharge := fun c =>
  mkCharge (c_resources c) (c_resourceBytes c) (c_fixedBytes c) (c_grantedSet c)
    (c_grantedBytes c) (c_grants c).

Definition newOwnerCharge : ownerCharge := mkCharge ∅ 0 0 ∅ 0 0.

Definition trackedBytes (c : ownerCharge) : Z :=
  ownerFixedBytes + c_resourceBytes c + c_fixedBytes c + c_grantedBytes c
  + c_grants c * grantFixedBytes.

Record Ledger : Type := mkLedger {
  l_limits : BudgetLimits;
  l_next : Z;
  l_grants : Z;
  l_edges : Z;
  l_memory : Z;
  l_engineFixed : Z;
  l_owners : gmap bytes ownerCharge;
  l_live : gset Z;
  l_objs : gmap Z Reservation;
  l_rejections : Z
}.

#[export] Instance Ledger_rebuild : Rebuild Ledger := fun l =>
  mkLedger (l_limits l) (l_next l) (l_grants l) (l_edges l) (l_memory l) (l_engineFixed l)
    (l_owners l) (l_live l) (l_objs l) (l_rejections l).

Definition NewLedger (limits : BudgetLimits) : result lock_error Ledger :=
  let* resolved := Resolve limits in
  Ok (mkLedger resolved 0 0 0 0 0 ∅ ∅ ∅ 0).

Definition memoryUsage (l : Ledger) : Z := l_memory l.

(** An object field read through a token; a token of the manager always names an object. *)
Definition obj_test (l : Ledger) (p : Reservation -> bool) (t : Z) : bool :=
  from_option p false (l_objs l !! t).

Definition live_count (l : Ledger) (p : Reservation -> bool) : Z :=
  Z.of_nat (size (filter (fun t => obj_test l p t) (l_live l))).

Definition charge_kept (c : ownerCharge) : bool :=
  negb (bool_decide (size (c_resources c) = 0%nat) && (c_grants c =? 0) && (c_fixedBytes c =? 0)).

Definition recompute (l : Ledger) : Ledger :=
  let owners := filter (fun kv => charge_kept kv.2) (l_owners l) in
  let memory := map_sum (fun _ c => trackedBytes c) owners in
  let grants := map_sum (fun _ c => c_grants c) owners in
  let memory := memory
    + waiterFixedBytes * live_count l (fun r => negb (r_released r || r_committed r)) in
  let memory := memory + l_engineFixed l in
  let memory := memory + l_edges l * edgeFixedBytes in
  let memory := if memory <? 0 then 0 else memory in
  l <| l_owners := owners |> <| l_memory := memory |> <| l_grants := grants |>.

Definition reject (l : Ledger) : Ledger := l <| l_rejections ::= Z.add 1 |>.

Definition pendingLocked (l : Ledger) : Z := live_count l r_waiter.

(** The component keys named by an owner's live reservations. *)
Definition named_by (l : Ledger) (ownerID : bytes) : gset bytes :=
  set_fold (fun t acc =>
    match l_objs l !! t with
    | Some r => if bool_decide (r_ownerID r = ownerID)
                then list_to_set (ClaimKey <$> r_resources r) ∪ acc else acc
    | None => acc
    end) ∅ (l_live l).

Definition pendingExtraForLocked (l : Ledger) (ownerID : bytes) : Z :=
  match l_owners l !! ownerID with
  | None => 0
  | Some charge => Z.of_nat (size (named_by l ownerID ∖ dom (c_resources charge)))
  end.

Definition ownerComponentsLocked (l : Ledger) (ownerID : bytes) : Z :=
  match l_owners l !! ownerID with
  | None => 0
  | Some charge => Z.of_nat (size (c_resources charge)) + pendingExtraForLocked l ownerID
  end.

(** The loop of [Reserve] over the components: the keys seen, the identities the reservation
    introduces and their size. *)
Definition introduce_step (charge : ownerCharge) (acc : gset bytes * list ResourceRef * Z)
    (component : ResourceRef) : gset bytes * list ResourceRef * Z :=
  let '(seen, introduced, introducedBytes) := acc in
  let key := ClaimKey component in
  if bool_decide (key ∈ seen) then acc
  else if bool_decide (is_Some (c_resources charge !! key))
  then ({[ key ]} ∪ seen, introduced, introducedBytes)
  else ({[ key ]} ∪ seen, introduced ++ [component], introducedBytes + OwnedBytes64 component).

Definition introduce (charge : ownerCharge) (components : list ResourceRef)
    : gset bytes * list ResourceRef * Z :=
  foldl (introduce_step charge) (∅, [], 0) components.

Definition pin (m : gmap bytes ResourceRef) (introduced : list ResourceRef) : gmap bytes ResourceRef :=
  foldl (fun m c => <[ClaimKey c := c]> m) m introduced.

Definition Reserve (l : Ledger) (ownerID : bytes) (components : list ResourceRef) (waiter : bool)
    : Ledger * result lock_error Z :=
  if bool_decide (ownerID = []) then (l, Err ErrOwnerUnknown)
  else
    let reservedBytes := RefBytes components in
    let count := Z.of_nat (length components) in
    let waiterBytes := if waiter then waiterFixedBytes else 0 in
    if l_next l =? u64_max then (reject l, Err ErrOrdinalExhausted)
    else
      let charge := default newOwnerCharge (l_owners l !! ownerID) in
      let '(_, introduced, introducedBytes) := introduce charge components in
      let delta := introducedBytes + waiterBytes in
      let delta := if bool_decide (is_Some (l_owners l !! ownerID)) then delta
                   else delta + ownerFixedBytes in
      if MemoryBytes (l_limits l) <? memoryUsage l + delta then (reject l, Err ErrBudgetMemory)
      else if RootRequests (l_limits l) <? ownerComponentsLocked l ownerID + count
      then (reject l, Err ErrBudgetRootRequests)
      else if waiter && (Waiters (l_limits l) <? pendingLocked l + 1)
      then (reject l, Err ErrBudgetWaiters)
      else
        let l := l <| l_next ::= Z.add 1 |> in
        let token := l_next l in
        let reservation := mkReservation ownerID waiter components introduced introducedBytes
                             reservedBytes false false in
        if (length introduced =? 0)%nat && negb waiter then
          (l <| l_objs ::= <[token := reservation <| r_committed := true |>]> |>, Ok token)
        else
          let charge := charge <| c_resources ::= fun m => pin m introduced |>
                               <| c_resourceBytes ::= Z.add introducedBytes |> in
          let l := l <| l_owners ::= <[ownerID := charge]> |>
                     <| l_live ::= union {[ token ]} |>
                     <| l_objs ::= <[token := reservation]> |> in
          (recompute l, Ok token).

(** Granting the identities of a reservation, one by one. *)
Definition grant_step (charge : ownerCharge) (component : ResourceRef) : ownerCharge :=
  let key := ClaimKey component in
  if bool_decide (key ∈ c_grantedSet charge) then charge
  else charge <| c_grantedSet ::= union {[ key ]} |>
              <| c_grantedBytes ::= Z.add (OwnedBytes64 component) |>.

Definition Commit (l : Ledger) (token : Z) : Ledger * result lock_error unit :=
  match l_objs l !! token with
  | None => (l, Err ErrOwnerUnknown)
  | Some reservation =>
      if r_released reservation || r_committed reservation then (l, Ok tt)
      else match l_owners l !! r_ownerID reservation with
      | None =>
          let l := l <| l_objs ::= <[token := reservation <| r_committed := true |>]> |>
                     <| l_live ::= fun s => s ∖ {[ token ]} |> in
          (recompute l, Ok tt)
      | Some charge =>
          if MemoryBytes (l_limits l) <? memoryUsage l + grantFixedBytes
          then (reject l, Err ErrBudgetMemory)
          else
            let beforeGranted := c_grantedBytes charge in
            let charge := foldl grant_step charge (r_newResources reservation) in
            let grantedDelta := c_grantedBytes charge - beforeGranted in
            let charge := if negb (grantedDelta =? 0)
                          then charge <| c_resourceBytes ::= fun b => b - grantedDelta |>
                          else charge in
            let charge := charge <| c_grants ::= Z.add 1 |> in
            let reservation := reservation <| r_waiter := false |> <| r_committed := true |> in
            let l := l <| l_owners ::= <[r_ownerID reservation := charge]> |>
                       <| l_objs ::= <[token := reservation]> |>
                       <| l_live ::= fun s => s ∖ {[ token ]} |> in
            (recompute l, Ok tt)
      end
  end.

Definition unpin_step (charge : ownerCharge) (component : ResourceRef) : ownerCharge :=
  let key := ClaimKey component in
  if bool_decide (key ∈ c_grantedSet charge) then charge
  else if bool_decide (is_Some (c_resources charge !! key))
  then charge <| c_resources ::= delete key |>
              <| c_resourceBytes ::= fun b => b - OwnedBytes64 component |>
  else charge.

Definition Release (l : Ledger) (token : Z) : Ledger :=
  match l_objs l !! token with
  | None => l
  | Some reservation =>
      if r_released reservation || r_committed reservation then l
      else
        let l := l <| l_live ::= fun s => s ∖ {[ token ]} |> in
        let l := match l_owners l !! r_ownerID reservation with
                 | Some charge =>
                     l <| l_owners ::= <[r_ownerID reservation :=
                            foldl unpin_step charge (r_newResources reservation)]> |>
                 | None => l
                 end in
        let reservation := reservation <| r_released := true |> <| r_waiter := false |> in
        recompute (l <| l_objs ::= <[token := reservation]> |>)
  end.

Definition owned_by (l : Ledger) (ownerID : bytes) (t : Z) : bool :=
  obj_test l (fun r => bool_decide (r_ownerID r = ownerID)) t.

(** The state left by [ReleaseOwner]; the usage it returns is [totalsLocked]. *)
Definition Ledger_ReleaseOwner (l : Ledger) (ownerID : bytes) : Ledger :=
  let gone := filter (fun t => owned_by l ownerID t) (l_live l) in
  let l := l <| l_owners ::= delete ownerID |>
             <| l_live ::= fun s => s ∖ gone |>
             <| l_objs ::= fun m => map_imap (fun t r =>
                  Some (if bool_decide (t ∈ gone) then r <| r_released := true |> else r)) m |> in
  recompute l.

Definition ClaimEdge (l : Ledger) : Ledger * result lock_error unit :=
  if GraphWork (l_limits l) <? l_edges l + 1 then (reject l, Err ErrBudgetGraph)
  else if MemoryBytes (l_limits l) <? memoryUsage l + edgeFixedBytes
  then (reject l, Err ErrBudgetMemory)
  else (recompute (l <| l_edges ::= Z.add 1 |>), Ok tt).

Definition ReleaseEdge (l : Ledger) : Ledger :=
  if l_edges l <=? 0 then l else recompute (l <| l_edges ::= Z.pred |>).

Definition ChargeFixed (l : Ledger) (nbytes : Z) (ownerID : bytes) : Ledger * result lock_error unit :=
  if nbytes <=? 0 then (l, Ok tt)
  else
    let delta := if negb (bool_decide (ownerID = [])) && bool_decide (l_owners l !! ownerID = None)
                 then nbytes + ownerFixedBytes else nbytes in
    if MemoryBytes (l_limits l) <? memoryUsage l + delta then (reject l, Err ErrBudgetMemory)
    else if bool_decide (ownerID = []) then
      (recompute (l <| l_engineFixed ::= Z.add nbytes |>), Ok tt)
    else
      let charge := default newOwnerCharge (l_owners l !! ownerID) in
      (recompute (l <| l_owners ::= <[ownerID := charge <| c_fixedBytes ::= Z.add nbytes |>]> |>), Ok tt).

Definition ReleaseFixed (l : Ledger) (nbytes : Z) (ownerID : bytes) : Ledger :=
  if nbytes <=? 0 then l
  else if bool_decide (ownerID = []) then recompute (l <| l_engineFixed ::= fun f => f - nbytes |>)
  else l.

Definition Resources (l : Ledger) (ownerID : bytes) : gmap bytes ResourceRef :=
  match l_owners l !! ownerID with None => ∅ | Some charge => c_resources charge end.

Definition GrantedResources (l : Ledger) (ownerID : bytes) : gmap bytes ResourceRef :=
  match l_owners l !! ownerID with
  | None => ∅
  | Some charge => filter (fun kv => kv.1 ∈ c_grantedSet charge) (c_resources charge)
  end.

Definition ReleaseGrant (l : Ledger) (ownerID resourceKey : bytes) : Ledger :=
  match l_owners l !! ownerID with
  | None => l
  | Some charge =>
      if bool_decide (resourceKey ∉ c_grantedSet charge) then l
      else
        let charge := charge <| c_grantedSet ::= fun s => s ∖ {[ resourceKey ]} |> in
        let charge := match c_resources charge !! resourceKey with
          | Some resource =>
              let bytes := OwnedBytes64 resource in
              charge <| c_resources ::= delete resourceKey |>
                     <| c_grantedBytes ::= fun g => if bytes <=? g then g - bytes else 0 |>
          | None => charge
          end in
        let charge := if 0 <? c_grants charge then charge <| c_grants ::= Z.pred |> else charge in
        recompute (l <| l_owners ::= <[ownerID := charge]> |>)
  end.

Record BudgetUsage : Type := mkUsage {
  u_MemoryBytes : Z;
  u_Components : Z;
  u_Waiters : Z;
  u_GraphEdges : Z
}.

Definition usageLocked (l : Ledger) (ownerID : bytes) : BudgetUsage :=
  match l_owners l !! ownerID with
  | None => mkUsage 0 0 0 0
  | Some charge => mkUsage (trackedBytes charge) (ownerComponentsLocked l ownerID) 0 0
  end.

Definition totalsLocked (l : Ledger) : BudgetUsage :=
  mkUsage (l_memory l) (map_sum (fun ownerID _ => ownerComponentsLocked l ownerID) (l_owners l))
    (pendingLocked l) (l_edges l).

Definition GrantedComponents (l : Ledger) (ownerID : bytes) : Z :=
  match l_owners l !! ownerID with None => 0 | Some charge => Z.of_nat (size (c_grantedSet charge)) end.

Definition ReleaseAll (l : Ledger) : Ledger :=
  l <| l_owners := ∅ |> <| l_live := ∅ |> <| l_grants := 0 |> <| l_edges := 0 |>
    <| l_memory := 0 |> <| l_engineFixed := 0 |>.

(** ** One owner's accounting *)

Definition granted_sum (c : ownerCharge) : Z :=
  map_sum (fun k r => if bool_decide (k ∈ c_grantedSet c) then OwnedBytes64 r else 0) (c_resources c).

Definition reserved_sum (c : ownerCharge) : Z :=
  map_sum (fun k r => if bool_decide (k ∈ c_grantedSet c) then 0 else OwnedBytes64 r) (c_resources c).

(** [d] is what [resourceBytes] still has to give up inside [Commit]. *)
Record charge_off (d : Z) (c : ownerCharge) : Prop := {
  cw_sub : c_grantedSet c ⊆ dom (c_resources c);
  cw_granted : c_grantedBytes c = granted_sum c;
  cw_reserved : c_resourceBytes c = reserved_sum c + d;
  cw_fixed : 0 <= c_fixedBytes c;
  cw_grants : 0 <= c_grants c
}.

Abbreviation charge_wf := (charge_off 0).

Lemma newOwnerCharge_wf : charge_wf newOwnerCharge.
Proof. split; unfold granted_sum, reserved_sum; cbn; rewrite ?map_sum_empty; try done. Qed.

Lemma OwnedBytes64_nonneg r : 0 <= OwnedBytes64 r.
Proof. pose proof (OwnedBytes64_pos r). lia. Qed.

Lemma granted_sum_nonneg c : 0 <= granted_sum c.
Proof. apply map_sum_nonneg. intros. case_bool_decide; [apply OwnedBytes64_nonneg|done]. Qed.

Lemma reserved_sum_nonneg c : 0 <= reserved_sum c.
Proof. apply map_sum_nonneg. intros. case_bool_decide; [done|apply OwnedBytes64_nonneg]. Qed.

(** The owner's identities weigh what the two counters say together. *)
Lemma charge_total c : granted_sum c + reserved_sum c = map_sum (fun _ r => OwnedBytes64 r) (c_resources c).
Proof.
  unfold granted_sum, reserved_sum. induction (c_resources c) as [|k r m Hk IH] using map_ind.
  - by rewrite !map_sum_empty.
  - rewrite !map_sum_insert by done. case_bool_decide; lia.
Qed.

Lemma trackedBytes_eq c : charge_wf c ->
  trackedBytes c = ownerFixedBytes + map_sum (fun _ r => OwnedBytes64 r) (c_resources c)
    + c_fixedBytes c + c_grants c * grantFixedBytes.
Proof.
  intros Hc. unfold trackedBytes. rewrite <- charge_total, (cw_granted _ _ Hc), (cw_reserved _ _ Hc). lia.
Qed.

Lemma trackedBytes_pos c : charge_wf c -> 0 <= trackedBytes c.
Proof.
  intros Hc. unfold trackedBytes. rewrite (cw_granted _ _ Hc), (cw_reserved _ _ Hc).
  pose proof (granted_sum_nonneg c). pose proof (reserved_sum_nonneg c).
  pose proof (cw_fixed _ _ Hc). pose proof (cw_grants _ _ Hc).
  unfold ownerFixedBytes, grantFixedBytes. lia.
Qed.

Lemma map_sum_pick {V} (f g : bytes -> V -> Z) (m : gmap bytes V) k v :
  m !! k = Some v -> (forall k' v', k' <> k -> f k' v' = g k' v') ->
  map_sum f m = map_sum g m - g k v + f k v.
Proof.
  intros Hk Hfg. rewrite (map_sum_delete f m k v Hk), (map_sum_delete g m k v Hk).
  rewrite (map_sum_ext f g); [lia|]. intros k' v' [? _]%lookup_delete_Some. by apply Hfg.
Qed.

(** Granting one pinned identity moves its bytes. *)
Lemma grant_step_wf d c x :
  charge_off d c -> c_resources c !! ClaimKey x = Some x -> ClaimKey x ∉ c_grantedSet c ->
  charge_off (d + OwnedBytes64 x) (grant_step c x) /\
  c_resources (grant_step c x) = c_resources c /\
  c_grantedSet (grant_step c x) = {[ ClaimKey x ]} ∪ c_grantedSet c /\
  c_grantedBytes (grant_step c x) = c_grantedBytes c + OwnedBytes64 x /\
  c_grants (grant_step c x) = c_grants c /\ c_resourceBytes (grant_step c x) = c_resourceBytes c /\
  c_fixedBytes (grant_step c x) = c_fixedBytes c.
Proof.
  intros [Hs Hg Hr Hf Hn] Hx Hnot. unfold grant_step. rewrite bool_decide_eq_false_2 by done. cbn.
  split; [|split_and!; [done..|lia|done|done|done]]. split; cbn; [| | |done|done].
  - apply elem_of_dom_2 in Hx. set_solver.
  - unfold granted_sum. cbn. rewrite Hg. unfold granted_sum.
    rewrite (map_sum_pick (fun k r => if bool_decide (k ∈ {[ClaimKey x]} ∪ c_grantedSet c) then OwnedBytes64 r else 0)
      (fun k r => if bool_decide (k ∈ c_grantedSet c) then OwnedBytes64 r else 0)
      _ _ _ Hx) by (intros; repeat case_bool_decide; set_solver).
    cbv beta. rewrite (bool_decide_eq_false_2 (ClaimKey x ∈ c_grantedSet c)) by done.
    rewrite bool_decide_eq_true_2 by set_solver. lia.
  - unfold reserved_sum in *. cbn. rewrite Hr.
    rewrite (map_sum_pick (fun k r => if bool_decide (k ∈ {[ClaimKey x]} ∪ c_grantedSet c) then 0 else OwnedBytes64 r)
      (fun k r => if bool_decide (k ∈ c_grantedSet c) then 0 else OwnedBytes64 r)
      _ _ _ Hx) by (intros; repeat case_bool_decide; set_solver).
    cbv beta. rewrite (bool_decide_eq_false_2 (ClaimKey x ∈ c_grantedSet c)) by done.
    rewrite bool_decide_eq_true_2 by set_solver. lia.
Qed.

(** The identities a reservation introduced, as its owner holds them. *)
Definition pinned_in (c : ownerCharge) (l : list ResourceRef) : Prop :=
  forall x, x ∈ l -> c_resources c !! ClaimKey x = Some x /\ ClaimKey x ∉ c_grantedSet c.

Lemma grant_fold_wf d c l :
  charge_off d c -> NoDup (ClaimKey <$> l) -> pinned_in c l ->
  let c' := foldl grant_step c l in
  charge_off (d + RefBytes l) c' /\ c_resources c' = c_resources c /\
  c_grantedSet c' = list_to_set (ClaimKey <$> l) ∪ c_grantedSet c /\
  c_grantedBytes c' = c_grantedBytes c + RefBytes l /\ c_grants c' = c_grants c /\
  c_resourceBytes c' = c_resourceBytes c /\ c_fixedBytes c' = c_fixedBytes c.
Proof.
  cbn zeta. revert d c. induction l as [|x l IH]; intros d c Hc Hnd Hp; cbn [foldl].
  - change (RefBytes []) with 0. rewrite !Z.add_0_r. split; [done|]. split_and!; try done. set_solver.
  - apply NoDup_cons in Hnd as [Hx Hnd]. destruct (Hp x) as [H1 H2]; [by left|].
    destruct (grant_step_wf d c x Hc H1 H2) as (Hc' & Er & Eg & Eb & En & Erb & Ef).
    destruct (IH (d + OwnedBytes64 x) (grant_step c x) Hc' Hnd) as (Hw & -> & -> & -> & -> & -> & ->).
    + intros y Hy. rewrite Er, Eg. destruct (Hp y) as [? ?]; [by right|]. split; [done|].
      assert (ClaimKey y ∈ ClaimKey <$> l) by (by apply list_elem_of_fmap_2).
      intros [Hk%elem_of_singleton|?]%elem_of_union; [|done]. rewrite Hk in *. done.
    + rewrite RefBytes_cons, Er, Eg, Eb, En, Erb, Ef, Z.add_assoc.
      split; [done|]. split_and!; try done; [set_solver|lia].
Qed.

Lemma unpin_step_wf c x :
  charge_wf c -> c_resources c !! ClaimKey x = Some x -> ClaimKey x ∉ c_grantedSet c ->
  charge_wf (unpin_step c x) /\
  c_resources (unpin_step c x) = delete (ClaimKey x) (c_resources c) /\
  c_grantedSet (unpin_step c x) = c_grantedSet c /\
  c_resourceBytes (unpin_step c x) = c_resourceBytes c - OwnedBytes64 x /\
  c_grantedBytes (unpin_step c x) = c_grantedBytes c /\ c_grants (unpin_step c x) = c_grants c /\
  c_fixedBytes (unpin_step c x) = c_fixedBytes c.
Proof.
  intros [Hs Hg Hr Hf Hn] Hx Hnot. unfold unpin_step. rewrite bool_decide_eq_false_2 by done.
  rewrite bool_decide_eq_true_2 by (by eexists). cbn.
  split; [|split_and!; done]. split; cbn; [| | |done|done].
  - rewrite dom_delete. set_solver.
  - rewrite Hg. unfold granted_sum. cbn. rewrite map_sum_delete_any, Hx. cbn.
    rewrite bool_decide_eq_false_2 by done. lia.
  - rewrite Hr. unfold reserved_sum. cbn. rewrite map_sum_delete_any, Hx. cbn.
    rewrite bool_decide_eq_false_2 by done. lia.
Qed.

Lemma unpin_fold_wf c l :
  charge_wf c -> NoDup (ClaimKey <$> l) -> pinned_in c l ->
  let c' := foldl unpin_step c l in
  charge_wf c' /\ c_grantedSet c' = c_grantedSet c /\
  c_resourceBytes c' = c_resourceBytes c - RefBytes l /\
  c_grantedBytes c' = c_grantedBytes c /\ c_grants c' = c_grants c /\
  c_fixedBytes c' = c_fixedBytes c /\
  (forall k, c_resources c' !! k =
     if decide (k ∈ ClaimKey <$> l) then None else c_resources c !! k).
Proof.
  cbn zeta. revert c. induction l as [|x l IH]; intros c Hc Hnd Hp; cbn [foldl].
  - change (RefBytes []) with 0. split; [done|]. split_and!; try done. lia.
  - apply NoDup_cons in Hnd as [Hx Hnd]. destruct (Hp x) as [H1 H2]; [by left|].
    destruct (unpin_step_wf c x Hc H1 H2) as (Hc' & Er & Eg & Erb & Eb & En & Ef).
    destruct (IH (unpin_step c x) Hc' Hnd) as (Hw & -> & -> & -> & -> & -> & Hl).
    + intros y Hy. rewrite Er, Eg. destruct (Hp y) as [? ?]; [by right|]. split; [|done].
      assert (ClaimKey y ∈ ClaimKey <$> l) by (by apply list_elem_of_fmap_2).
      rewrite lookup_delete_ne; [done|]. intros E. by rewrite E in Hx.
    + rewrite Eg, Erb, Eb, En, Ef. split; [done|]. split_and!; try done; [rewrite RefBytes_cons; lia|].
      intros k. rewrite Hl, Er. cbn [fmap list_fmap].
      destruct (decide (k = ClaimKey x)) as [->|Hne].
      * rewrite lookup_delete_eq, (decide_True (P := ClaimKey x ∈ _ :: _)) by (by left).
        by case_decide.
      * rewrite lookup_delete_ne by done.
        destruct (decide (k ∈ ClaimKey <$> l)).
        -- by rewrite decide_True by (by right).
        -- rewrite decide_False; [done|]. by intros [?|?]%elem_of_cons.
Qed.

(** ** What a reservation introduces *)

Record introduced_by (charge : ownerCharge) (components : list ResourceRef)
    (acc : gset bytes * list ResourceRef * Z) : Prop := {
  ib_nodup : NoDup (ClaimKey <$> acc.1.2);
  ib_fresh x : x ∈ acc.1.2 -> c_resources charge !! ClaimKey x = None /\ x ∈ components;
  ib_bytes : acc.2 = RefBytes acc.1.2;
  ib_seen : acc.1.1 = list_to_set (ClaimKey <$> components);
  ib_cover k : k ∈ acc.1.1 -> is_Some (c_resources charge !! k) \/ k ∈ ClaimKey <$> acc.1.2;
  ib_in k : k ∈ ClaimKey <$> acc.1.2 -> k ∈ acc.1.1
}.

Lemma introduce_step_inv charge done_ acc x :
  introduced_by charge done_ acc -> introduced_by charge (done_ ++ [x]) (introduce_step charge acc x).
Proof.
  intros [Hnd Hf Hb Hs Hc Hi]. destruct acc as [[seen intro] n]. cbn in *.
  assert (forall S, S = list_to_set (ClaimKey <$> done_) ->
    {[ClaimKey x]} ∪ S = list_to_set (C:=gset bytes) (ClaimKey <$> done_ ++ [x])) as Hset
    by (intros ? ->; rewrite fmap_app, list_to_set_app_L; cbn; set_solver).
  assert (forall y, y ∈ intro -> c_resources charge !! ClaimKey y = None /\ y ∈ done_ ++ [x]) as Hf'
    by (intros y Hy; destruct (Hf y Hy); auto with gbl).
  case_bool_decide as H1; [|case_bool_decide as H2]; split; cbn; try done.
  - rewrite <- (Hset _ Hs). set_solver.
  - by apply Hset.
  - intros k [->%elem_of_singleton|?]%elem_of_union; auto.
  - set_solver.
  - rewrite fmap_app. apply NoDup_app. split_and!; [done| |apply NoDup_singleton].
    intros k Hk ->%list_elem_of_singleton. auto.
  - intros y [Hy| ->%list_elem_of_singleton]%elem_of_app; [auto|].
    split; [by apply eq_None_not_Some|apply elem_snoc].
  - rewrite RefBytes_snoc. lia.
  - by apply Hset.
  - intros k [->%elem_of_singleton|Hk]%elem_of_union; rewrite fmap_app.
    + right. apply elem_snoc.
    + destruct (Hc k Hk); [by left|right; by apply elem_app_l].
  - intros k. rewrite fmap_app, elem_of_app. cbn. rewrite list_elem_of_singleton. set_solver.
Qed.

Lemma introduce_inv charge components : introduced_by charge components (introduce charge components).
Proof.
  unfold introduce. induction components as [|x l IH] using rev_ind.
  - split; cbn; try done; [constructor|set_solver..].
  - rewrite foldl_snoc. by apply introduce_step_inv.
Qed.

Lemma pin_lookup m l k :
  NoDup (ClaimKey <$> l) ->
  (forall x, x ∈ l -> ClaimKey x = k -> pin m l !! k = Some x) /\
  (k ∉ ClaimKey <$> l -> pin m l !! k = m !! k).
Proof.
  unfold pin. intros Hnd. induction l as [|y l IH] using rev_ind; [by split; [set_solver|]|].
  rewrite foldl_snoc. rewrite fmap_app in *. apply NoDup_app in Hnd as (Hnd & Hd & _).
  destruct (IH Hnd) as [IH1 IH2]. cbn in *. split.
  - intros x [Hx| ->%list_elem_of_singleton]%elem_of_app Hk; subst k; [|by rewrite lookup_insert_eq].
    rewrite lookup_insert_ne; [by apply IH1|]. intros E.
    apply (Hd (ClaimKey x)); [by apply list_elem_of_fmap_2|]. rewrite <- E. by apply list_elem_of_singleton.
  - intros [Hk Hne%not_elem_of_cons]%not_elem_of_app. destruct Hne as [Hne _].
    rewrite lookup_insert_ne by done. by apply IH2.
Qed.

Lemma pin_dom m l : dom (pin m l) = list_to_set (ClaimKey <$> l) ∪ dom m.
Proof.
  unfold pin. revert m. induction l as [|x l IH]; intros m; cbn [foldl]; [set_solver|].
  rewrite IH, dom_insert_L. cbn. set_solver.
Qed.

Lemma pin_sum f m l :
  NoDup (ClaimKey <$> l) -> (forall x, x ∈ l -> m !! ClaimKey x = None) ->
  map_sum f (pin m l) = map_sum f m + foldr (fun x acc => f (ClaimKey x) x + acc) 0 l.
Proof.
  unfold pin. revert m. induction l as [|x l IH]; intros m Hnd Hm; cbn [foldl foldr]; [lia|].
  apply NoDup_cons in Hnd as [Hx Hnd]. rewrite IH; [|done|].
  - rewrite map_sum_insert by (apply Hm; by left). lia.
  - intros y Hy. rewrite lookup_insert_ne; [apply Hm; by right|].
    intros E. apply Hx. rewrite E. by apply list_elem_of_fmap_2.
Qed.

Definition pinned_charge (charge : ownerCharge) (l : list ResourceRef) : ownerCharge :=
  charge <| c_resources ::= fun m => pin m l |> <| c_resourceBytes ::= Z.add (RefBytes l) |>.

Lemma pinned_charge_wf c l :
  charge_wf c -> NoDup (ClaimKey <$> l) -> (forall x, x ∈ l -> c_resources c !! ClaimKey x = None) ->
  charge_wf (pinned_charge c l) /\ pinned_in (pinned_charge c l) l.
Proof.
  intros [Hs Hg Hr Hf Hn] Hnd Hfr.
  assert (forall x, x ∈ l -> ClaimKey x ∉ c_grantedSet c) as Hng.
  { intros x Hx Hin. apply Hs, elem_of_dom in Hin as [? Hin]. by rewrite (Hfr x Hx) in Hin. }
  split; [split; cbn; [| | |done|done]|].
  - rewrite pin_dom. set_solver.
  - rewrite Hg. unfold granted_sum. cbn. rewrite pin_sum by done.
    enough (foldr (fun x acc => (if bool_decide (ClaimKey x ∈ c_grantedSet c) then OwnedBytes64 x else 0) + acc) 0 l = 0) by lia.
    clear -Hng. induction l as [|x l IH]; [done|]. cbn [foldr].
    rewrite bool_decide_eq_false_2, IH by (intros; apply Hng; set_solver). done.
  - rewrite Hr. unfold reserved_sum. cbn. rewrite pin_sum by done.
    enough (foldr (fun x acc => (if bool_decide (ClaimKey x ∈ c_grantedSet c) then 0 else OwnedBytes64 x) + acc) 0 l = RefBytes l) by lia.
    clear -Hng. induction l as [|x l IH]; [done|]. cbn [foldr]. rewrite RefBytes_cons.
    rewrite bool_decide_eq_false_2, IH by (intros; apply Hng; set_solver). done.
  - intros x Hx. cbn. split; [|by apply Hng]. by apply (pin_lookup _ l (ClaimKey x) Hnd).
Qed.

(** ** The ledger's invariant *)

Definition settled (r : Reservation) : Prop := r_committed r = true \/ r_released r = true.

(** The identities a live reservation introduced are held by its owner and not granted. *)
Definition pinned (charge : option ownerCharge) (r : Reservation) : Prop :=
  NoDup (ClaimKey <$> r_newResources r) /\
  (r_newResources r = [] \/ exists c, charge = Some c /\ pinned_in c (r_newResources r)).

Record ledger_core (l : Ledger) : Prop := {
  lc_limits : limits_in_range (l_limits l);
  lc_next : is_u64 (l_next l);
  lc_token t : is_Some (l_objs l !! t) -> 0 < t <= l_next l;
  lc_live t : t ∈ l_live l -> exists r, l_objs l !! t = Some r /\ r_committed r = false /\
    r_released r = false /\ pinned (l_owners l !! r_ownerID r) r;
  lc_settled t r : l_objs l !! t = Some r -> t ∉ l_live l -> settled r;
  lc_disjoint t1 t2 r1 r2 k : t1 ∈ l_live l -> t2 ∈ l_live l -> t1 <> t2 ->
    l_objs l !! t1 = Some r1 -> l_objs l !! t2 = Some r2 -> r_ownerID r1 = r_ownerID r2 ->
    k ∈ ClaimKey <$> r_newResources r1 -> k ∉ ClaimKey <$> r_newResources r2;
  lc_charge o c : l_owners l !! o = Some c -> charge_wf c
}.

(** An operation on one owner: the reservations in [X] are settled, the owner's charge changes,
    and the identities its other live reservations introduced stay pinned. *)
Lemma ledger_core_change l l' o X :
  ledger_core l -> l_limits l' = l_limits l -> l_next l' = l_next l -> l_live l' = l_live l ∖ X ->
  (forall o', o' <> o -> l_owners l' !! o' = l_owners l !! o') ->
  (forall c, l_owners l' !! o = Some c -> charge_wf c) ->
  (forall t, t ∉ X -> l_objs l' !! t = l_objs l !! t) ->
  (forall t r, t ∈ X -> l_objs l' !! t = Some r -> settled r /\ is_Some (l_objs l !! t)) ->
  (forall t r, t ∈ l_live l -> t ∉ X -> l_objs l !! t = Some r -> r_ownerID r = o ->
     pinned (l_owners l !! o) r -> pinned (l_owners l' !! o) r) ->
  ledger_core l'.
Proof.
  intros [Hl Hn Ht Hlv Hst Hd Hc] El En Elv Ho Hco Hobj HX Hp.
  split.
  - by rewrite El.
  - by rewrite En.
  - intros t [r Hr]. rewrite En. apply Ht. destruct (decide (t ∈ X)) as [Hx|Hx].
    + by destruct (HX t r Hx Hr).
    + rewrite Hobj in Hr by done. by eexists.
  - intros t. rewrite Elv. intros [Hin Hx]%elem_of_difference.
    destruct (Hlv t Hin) as (r & Hr & ? & ? & Hpin). exists r. rewrite Hobj by done.
    split_and!; [done..|]. destruct (decide (r_ownerID r = o)) as [<-|Hne]; [by eapply Hp|].
    by rewrite Ho.
  - intros t r Hr. rewrite Elv, not_elem_of_difference. destruct (decide (t ∈ X)) as [Hx|Hx].
    + intros _. by apply (HX t).
    + rewrite Hobj in Hr by done. intros [?|?]; [by eapply Hst|done].
  - intros t1 t2 r1 r2 k. rewrite Elv, !elem_of_difference. intros [H1 Hx1] [H2 Hx2].
    rewrite !Hobj by done. by apply Hd.
  - intros o' c. destruct (decide (o' = o)) as [->|Hne]; [apply Hco|]. rewrite Ho by done. apply Hc.
Qed.

Lemma filter_owners l o c :
  l_owners (recompute l) !! o = Some c <-> l_owners l !! o = Some c /\ charge_kept c = true.
Proof. cbn. rewrite map_lookup_filter_Some. cbn. by rewrite Is_true_true. Qed.

(** A pruned owner holds no identity. *)
Lemma not_kept c : charge_kept c = false ->
  c_resources c = ∅ /\ c_grants c = 0 /\ c_fixedBytes c = 0.
Proof. unfold charge_kept. intros H. bool_prop. by rewrite <- map_size_empty_iff. Qed.

Lemma recompute_core l : ledger_core l -> ledger_core (recompute l).
Proof.
  intros [Hl Hn Ht Hlv Hst Hd Hc]. split; try done.
  - intros t Hin. destruct (Hlv t Hin) as (r & Hr & ? & ? & Hnd & Hp). exists r.
    split_and!; [done..|]. split; [done|]. destruct Hp as [?|(c & Ho & Hp)]; [by left|].
    destruct (charge_kept c) eqn:E.
    + right. exists c. split; [by apply filter_owners|done].
    + left. destruct (r_newResources r) as [|x k]; [done|]. apply not_kept in E as (E & _).
      destruct (Hp x) as [Hx _]; [by left|]. by rewrite E, lookup_empty in Hx.
  - intros o c [Ho _]%filter_owners. by apply (Hc o).
Qed.

Lemma reject_core l : ledger_core l -> ledger_core (reject l).
Proof. intros H. destruct H. by split. Qed.

Lemma lc_live_obj l t r :
  ledger_core l -> l_objs l !! t = Some r -> r_committed r = false -> r_released r = false ->
  t ∈ l_live l /\ pinned (l_owners l !! r_ownerID r) r.
Proof.
  intros Hl Hr Hc Hre. destruct (decide (t ∈ l_live l)) as [Hin|Hn].
  - destruct (lc_live _ Hl t Hin) as (r' & Hr' & _ & _ & Hp). split; [done|]. congruence.
  - destruct (lc_settled _ Hl t r Hr Hn); congruence.
Qed.

(** Changing an owner's charge so that what is pinned and not granted stays so. *)
Lemma pinned_mono c c' r :
  (forall x, x ∈ r_newResources r -> c_resources c !! ClaimKey x = Some x ->
     ClaimKey x ∉ c_grantedSet c ->
     c_resources c' !! ClaimKey x = Some x /\ ClaimKey x ∉ c_grantedSet c') ->
  pinned (Some c) r -> pinned (Some c') r.
Proof.
  intros H [Hnd [?|(d & [= <-] & Hp)]]; (split; [done|]); [by left|right].
  exists c'. split; [done|]. intros x Hx. destruct (Hp x Hx). by apply H.
Qed.

Definition charge_of (l : Ledger) (o : bytes) : ownerCharge := default newOwnerCharge (l_owners l !! o).

Lemma charge_of_wf l o : ledger_core l -> charge_wf (charge_of l o).
Proof.
  intros Hl. unfold charge_of. destruct (l_owners l !! o) eqn:E; cbn; [by eapply lc_charge|].
  apply newOwnerCharge_wf.
Qed.

(** ** The outcomes of [Reserve] *)

Definition owner_exists (l : Ledger) (o : bytes) : bool := bool_decide (is_Some (l_owners l !! o)).

Definition reservation_of (o : bytes) (cs intro : list ResourceRef) (w : bool) : Reservation :=
  mkReservation o w cs intro (RefBytes intro) (RefBytes cs) false false.

(** The ledger with a new live reservation, before the totals are recomputed. *)
Definition reserved (l : Ledger) (o : bytes) (cs intro : list ResourceRef) (w : bool) : Ledger :=
  l <| l_next ::= Z.add 1 |>
    <| l_owners ::= <[o := pinned_charge (charge_of l o) intro]> |>
    <| l_live ::= union {[ 1 + l_next l ]} |>
    <| l_objs ::= <[1 + l_next l := reservation_of o cs intro w]> |>.

(** The ledger after a request its owner already holds in full. *)
Definition noted (l : Ledger) (o : bytes) (cs : list ResourceRef) : Ledger :=
  l <| l_next ::= Z.add 1 |>
    <| l_objs ::= <[1 + l_next l := (reservation_of o cs [] false) <| r_committed := true |>]> |>.

Record reserve_ok (l : Ledger) (o : bytes) (cs intro : list ResourceRef) (w : bool) : Prop := {
  ro_owner : o <> [];
  ro_next : l_next l <> u64_max;
  ro_intro : exists seen, introduced_by (charge_of l o) cs (seen, intro, RefBytes intro);
  ro_memory : memoryUsage l + RefBytes intro + (if w then waiterFixedBytes else 0)
    + (if owner_exists l o then 0 else ownerFixedBytes) <= MemoryBytes (l_limits l);
  ro_root : ownerComponentsLocked l o + Z.of_nat (length cs) <= RootRequests (l_limits l);
  ro_waiters : w = true -> pendingLocked l + 1 <= Waiters (l_limits l)
}.

Lemma Reserve_cases l o cs w :
  (exists e, Reserve l o cs w = (l, Err e) \/ Reserve l o cs w = (reject l, Err e)) \/
  (exists intro, reserve_ok l o cs intro w /\
    (intro = [] /\ w = false /\ Reserve l o cs w = (noted l o cs, Ok (1 + l_next l)) \/
     (intro <> [] \/ w = true) /\
       Reserve l o cs w = (recompute (reserved l o cs intro w), Ok (1 + l_next l)))).
Proof.
  unfold Reserve. destruct (decide (o = [])) as [->|Ho]; [left; by eexists; left|].
  rewrite bool_decide_eq_false_2 by done. cbn zeta.
  destruct (l_next l =? u64_max) eqn:En; [left; by eexists; right|].
  fold (charge_of l o). pose proof (introduce_inv (charge_of l o) cs) as Hib.
  destruct (introduce (charge_of l o) cs) as [[seen intro] n].
  assert (n = RefBytes intro) as -> by (apply (ib_bytes _ _ _ Hib)). fold (owner_exists l o).
  match goal with |- context [MemoryBytes _ <? ?u] => destruct (MemoryBytes (l_limits l) <? u) eqn:Em end;
    [left; by eexists; right|].
  match goal with |- context [RootRequests _ <? ?u] => destruct (RootRequests (l_limits l) <? u) eqn:Er end;
    [left; by eexists; right|].
  destruct (w && _) eqn:Ew; [left; by eexists; right|]. right. exists intro. split.
  - apply Z.eqb_neq in En. apply Z.ltb_ge in Em, Er. split; try done.
    + by exists seen.
    + destruct (owner_exists l o), w; lia.
    + intros ->. cbn in Ew. by apply Z.ltb_ge in Ew.
  - destruct intro as [|x intro]; [destruct w|]; cbn [length Nat.eqb andb negb].
    + right. split; [by right|done].
    + by left.
    + right. split; [by left|done].
Qed.

Lemma next_token_fresh l : ledger_core l -> l_objs l !! (1 + l_next l) = None /\ 1 + l_next l ∉ l_live l.
Proof.
  intros Hl. assert (l_objs l !! (1 + l_next l) = None) as Hn.
  { destruct (l_objs l !! _) eqn:E; [|done].
    destruct (lc_token _ Hl (1 + l_next l)) as [_ ?]; [by eexists|lia]. }
  split; [done|]. intros (r & Hr & _)%(lc_live _ Hl). congruence.
Qed.

Lemma next_token_u64 l : ledger_core l -> l_next l <> u64_max -> is_u64 (1 + l_next l).
Proof. intros Hl Hne. pose proof (lc_next _ Hl). unfold is_u64, u64_max in *. lia. Qed.

Lemma token_insert l r :
  ledger_core l -> forall t, is_Some (<[1 + l_next l := r]> (l_objs l) !! t) -> 0 < t <= 1 + l_next l.
Proof.
  intros Hl t. pose proof (lc_next _ Hl). unfold is_u64 in *.
  intros [<-|[_ Hx]]%lookup_insert_is_Some; [lia|]. pose proof (lc_token _ Hl t Hx). lia.
Qed.

Lemma noted_core l o cs : ledger_core l -> l_next l <> u64_max -> ledger_core (noted l o cs).
Proof.
  intros Hl Hne. destruct (next_token_fresh l Hl) as [Hf Hnl].
  pose proof (next_token_u64 l Hl Hne). split; cbn; try apply Hl; try done.
  - by apply token_insert.
  - intros t Hin. rewrite lookup_insert_ne by (intros <-; done). by apply (lc_live _ Hl).
  - intros t r [[<- <-]|[? ?]]%lookup_insert_Some ?; [by left|by eapply (lc_settled _ Hl)].
  - intros t1 t2 r1 r2 k H1 H2 Hne'. rewrite !lookup_insert_ne by (intros <-; done).
    by apply (lc_disjoint _ Hl).
Qed.

(** What an older live reservation of the owner introduced is still held, so a new one does not
    introduce it again. *)
Lemma older_not_introduced l o intro (t : Z) r x seen cs :
  ledger_core l -> introduced_by (charge_of l o) cs (seen, intro, RefBytes intro) ->
  t ∈ l_live l -> l_objs l !! t = Some r -> r_ownerID r = o -> x ∈ r_newResources r ->
  c_resources (charge_of l o) !! ClaimKey x = Some x /\ ClaimKey x ∉ c_grantedSet (charge_of l o) /\
  ClaimKey x ∉ ClaimKey <$> intro.
Proof.
  intros Hl Hib Hin Hr <- Hx. destruct (lc_live _ Hl t Hin) as (r2 & Hr2 & _ & _ & _ & Hp).
  assert (r2 = r) as -> by congruence.
  destruct Hp as [E|(c & Ho & Hp)]; [rewrite E in Hx; set_solver|].
  assert (charge_of l (r_ownerID r) = c) as E by (unfold charge_of; by rewrite Ho).
  rewrite E in *. destruct (Hp x Hx) as [Hk Hg].
  split_and!; [done..|]. intros (y & Hy & Hyin)%list_elem_of_fmap.
  destruct (ib_fresh _ _ _ Hib y Hyin) as [Hfr _]. rewrite <- Hy in Hfr. congruence.
Qed.

Lemma reserved_core l o cs intro w :
  ledger_core l -> reserve_ok l o cs intro w -> ledger_core (reserved l o cs intro w).
Proof.
  intros Hl Hok. destruct (ro_intro _ _ _ _ _ Hok) as [seen Hib].
  destruct (next_token_fresh l Hl) as [Hf Hnl].
  pose proof (ib_nodup _ _ _ Hib) as Hnd. cbn in Hnd.
  destruct (pinned_charge_wf (charge_of l o) intro) as [Hcw Hpi];
    [by apply charge_of_wf|done|intros x Hx; by apply (ib_fresh _ _ _ Hib)|].
  assert (forall t r k, t ∈ l_live l -> l_objs l !! t = Some r -> r_ownerID r = o ->
    k ∈ ClaimKey <$> r_newResources r -> k ∉ ClaimKey <$> intro) as Hdj.
  { intros t r k ? ? ? (x & -> & Hx)%list_elem_of_fmap.
    by destruct (older_not_introduced l o intro t r x seen cs) as (_ & _ & ?). }
  pose proof (next_token_u64 l Hl (ro_next _ _ _ _ _ Hok)). split; cbn; try apply Hl; try done.
  - by apply token_insert.
  - intros t [->%elem_of_singleton|Hin]%elem_of_union.
    + eexists. rewrite lookup_insert_eq. split_and!; [done..|]. split; [done|]. right.
      eexists. cbn. by rewrite lookup_insert_eq.
    + rewrite lookup_insert_ne by (intros <-; done).
      destruct (lc_live _ Hl t Hin) as (r & Hr & ? & ? & Hp). exists r. split_and!; [done..|].
      destruct (decide (r_ownerID r = o)) as [Ho|Hne]; [|by rewrite lookup_insert_ne].
      rewrite Ho, lookup_insert_eq. split; [by apply Hp|]. right. eexists. split; [done|].
      intros x Hx. destruct (older_not_introduced l o intro t r x seen cs) as (Hk & Hg & Hn); try done.
      cbn. split; [|done]. by rewrite (proj2 (pin_lookup _ _ _ Hnd)).
  - intros t r [[<- <-]|[? ?]]%lookup_insert_Some; [set_solver|].
    intros ?. eapply (lc_settled _ Hl); [done|set_solver].
  - intros t1 t2 r1 r2 k [->%elem_of_singleton|H1]%elem_of_union [->%elem_of_singleton|H2]%elem_of_union Hne.
    + done.
    + rewrite lookup_insert_eq, lookup_insert_ne by done. intros [= <-] Hr2 Ho Hk Hk2.
      by apply (Hdj t2 r2 k).
    + rewrite lookup_insert_eq, lookup_insert_ne by done. intros Hr1 [= <-] Ho Hk.
      by apply (Hdj t1 r1 k).
    + rewrite !lookup_insert_ne by (intros <-; done). by apply (lc_disjoint _ Hl).
  - intros o' c [[<- <-]|[_ ?]]%lookup_insert_Some; [done|]. by apply (lc_charge _ Hl o').
Qed.

Lemma Reserve_core l o cs w : ledger_core l -> ledger_core (Reserve l o cs w).1.
Proof.
  intros Hl. destruct (Reserve_cases l o cs w) as [(e & [-> | ->])|(intro & Hok & Hc)];
    [done|by apply reject_core|].
  destruct Hc as [(-> & -> & ->)|[_ ->]]; [apply noted_core; [done|by apply Hok]|apply recompute_core].
  by apply reserved_core.
Qed.

(** ** [Commit], [Release] and the other operations *)

(** The charge after [Commit] granted a live reservation. *)
Definition committed_charge (c : ownerCharge) (r : Reservation) : ownerCharge :=
  let granted := foldl grant_step c (r_newResources r) in
  let delta := c_grantedBytes granted - c_grantedBytes c in
  (if negb (delta =? 0) then granted <| c_resourceBytes ::= fun b => b - delta |> else granted)
    <| c_grants ::= Z.add 1 |>.

Lemma pinned_facts c r : pinned (Some c) r ->
  NoDup (ClaimKey <$> r_newResources r) /\ pinned_in c (r_newResources r).
Proof.
  intros [Hnd Hp]. split; [done|]. intros x Hx.
  destruct Hp as [E|(d & [= ->] & Hp)]; [rewrite E in Hx; set_solver|by apply Hp].
Qed.

Lemma committed_charge_wf c r :
  charge_wf c -> pinned (Some c) r ->
  charge_wf (committed_charge c r) /\ c_resources (committed_charge c r) = c_resources c /\
  c_grantedSet (committed_charge c r) =
    list_to_set (ClaimKey <$> r_newResources r) ∪ c_grantedSet c /\
  c_grants (committed_charge c r) = 1 + c_grants c /\
  c_fixedBytes (committed_charge c r) = c_fixedBytes c.
Proof.
  intros Hc [Hnd Hp]%pinned_facts.
  destruct (grant_fold_wf 0 c _ Hc Hnd Hp) as (Hw & Er & Eg & Eb & En & Erb & Ef).
  unfold committed_charge. cbn zeta. set (g := foldl grant_step c (r_newResources r)) in *.
  destruct Hw as [Hs Hg Hr Hf Hn].
  assert (c_grantedBytes g - c_grantedBytes c = RefBytes (r_newResources r)) as -> by lia.
  destruct (Z.eqb_spec (RefBytes (r_newResources r)) 0) as [E0|E0]; cbn [negb].
  - split; [split; cbn; try done; [unfold reserved_sum in *; cbn in *; lia|lia]|]. cbn. split_and!; try done. lia.
  - split; [split; cbn; try done; [unfold reserved_sum in *; cbn in *; lia|lia]|].
    cbn. split_and!; try done. lia.
Qed.

(** The ledger before the totals are recomputed: a reservation whose owner is gone, a granted
    reservation, a refunded one, an owner that is gone. *)
Definition orphaned (l : Ledger) (t : Z) (r : Reservation) : Ledger :=
  l <| l_objs ::= <[t := r <| r_committed := true |>]> |> <| l_live ::= fun s => s ∖ {[ t ]} |>.

Definition committed (l : Ledger) (t : Z) (r : Reservation) (c : ownerCharge) : Ledger :=
  l <| l_owners ::= <[r_ownerID r := committed_charge c r]> |>
    <| l_objs ::= <[t := r <| r_waiter := false |> <| r_committed := true |>]> |>
    <| l_live ::= fun s => s ∖ {[ t ]} |>.

Definition refunded (l : Ledger) (t : Z) (r : Reservation) : Ledger :=
  let l := l <| l_live ::= fun s => s ∖ {[ t ]} |> in
  (match l_owners l !! r_ownerID r with
   | Some c => l <| l_owners ::= <[r_ownerID r := foldl unpin_step c (r_newResources r)]> |>
   | None => l
   end) <| l_objs ::= <[t := r <| r_released := true |> <| r_waiter := false |>]> |>.

Definition owned_live (l : Ledger) (o : bytes) : gset Z := filter (fun t => owned_by l o t) (l_live l).

Definition disowned (l : Ledger) (o : bytes) : Ledger :=
  l <| l_owners ::= delete o |>
    <| l_live ::= fun s => s ∖ owned_live l o |>
    <| l_objs ::= fun m => map_imap (fun t r =>
         Some (if bool_decide (t ∈ owned_live l o) then r <| r_released := true |> else r)) m |>.

Lemma Commit_cases l t :
  ledger_core l ->
  Commit l t = (l, Err ErrOwnerUnknown) /\ l_objs l !! t = None \/
  exists r, l_objs l !! t = Some r /\
    (settled r /\ Commit l t = (l, Ok tt) \/
     t ∈ l_live l /\ pinned (l_owners l !! r_ownerID r) r /\
       (l_owners l !! r_ownerID r = None /\
        Commit l t = (recompute (orphaned l t r), Ok tt) \/
        exists c, l_owners l !! r_ownerID r = Some c /\
          (memoryUsage l + grantFixedBytes > MemoryBytes (l_limits l) /\
             Commit l t = (reject l, Err ErrBudgetMemory) \/
           memoryUsage l + grantFixedBytes <= MemoryBytes (l_limits l) /\
             Commit l t = (recompute (committed l t r c), Ok tt)))).
Proof.
  intros Hl. unfold Commit. destruct (l_objs l !! t) as [r|] eqn:Er; [right|by left].
  exists r. split; [done|]. destruct (r_released r || r_committed r) eqn:Es.
  { left. unfold settled. bool_prop; auto. }
  right. bool_prop. destruct (lc_live_obj l t r Hl Er) as [Hin Hp]; [done..|].
  split; [done|]. split; [done|].
  destruct (l_owners l !! r_ownerID r) as [c|] eqn:Ec; [right|by left].
  exists c. split; [done|].
  destruct (_ <? _) eqn:Em; bool_prop; [left; split; [lia|done]|right; split; [lia|done]].
Qed.

Lemma orphaned_core l t r :
  ledger_core l -> l_objs l !! t = Some r -> l_owners l !! r_ownerID r = None ->
  ledger_core (orphaned l t r).
Proof.
  intros Hl Er Ec. apply (ledger_core_change l _ (r_ownerID r) {[ t ]}); cbn; try done.
  - intros c. rewrite Ec. done.
  - intros t' Hne. by rewrite lookup_insert_ne by set_solver.
  - intros t' r' ->%elem_of_singleton. rewrite lookup_insert_eq, Er. intros [= <-].
    split; [by left|done].
Qed.

Lemma committed_core l t r c :
  ledger_core l -> l_objs l !! t = Some r -> t ∈ l_live l -> l_owners l !! r_ownerID r = Some c ->
  pinned (Some c) r -> ledger_core (committed l t r c).
Proof.
  intros Hl Er Hin Ec Hp.
  destruct (committed_charge_wf c r (lc_charge _ Hl _ _ Ec) Hp) as (Hw & Hres & Hgr & _).
  apply (ledger_core_change l _ (r_ownerID r) {[ t ]}); cbn; try done.
  - intros o' Hne. by rewrite lookup_insert_ne.
  - intros c'. rewrite lookup_insert_eq. by intros [= <-].
  - intros t' Hne. by rewrite lookup_insert_ne by set_solver.
  - intros t' r' ->%elem_of_singleton. rewrite lookup_insert_eq, Er. intros [= <-].
    split; [by left|done].
  - intros t' r' Hin' Hne Hr' Ho. rewrite Ec, lookup_insert_eq. apply pinned_mono.
    intros x Hx Hk Hg. rewrite Hres, Hgr. split; [done|]. rewrite not_elem_of_union. split; [|done].
    rewrite elem_of_list_to_set.
    apply (lc_disjoint _ Hl t' t r' r); try done; [set_solver|]. by apply list_elem_of_fmap_2.
Qed.

Lemma Commit_core l t : ledger_core l -> ledger_core (Commit l t).1.
Proof.
  intros Hl. destruct (Commit_cases l t Hl) as [[-> _]|(r & Er & [[_ ->]|(Hin & Hp & H)])]; [done..|].
  destruct H as [[Ec ->]|(c & Ec & [[_ ->]|[_ ->]])]; [|by apply reject_core|]; apply recompute_core.
  - by apply orphaned_core.
  - rewrite Ec in Hp. by apply committed_core.
Qed.

Lemma Release_cases l t :
  ledger_core l ->
  Release l t = l \/
  exists r, l_objs l !! t = Some r /\ t ∈ l_live l /\ pinned (l_owners l !! r_ownerID r) r /\
    Release l t = recompute (refunded l t r).
Proof.
  intros Hl. unfold Release. destruct (l_objs l !! t) as [r|] eqn:Er; [|by left].
  destruct (r_released r || r_committed r) eqn:Es; [by left|]. right. bool_prop. exists r.
  destruct (lc_live_obj l t r Hl Er) as [Hin Hp]; [done..|]. split_and!; done.
Qed.

Lemma refunded_core l t r :
  ledger_core l -> l_objs l !! t = Some r -> t ∈ l_live l -> pinned (l_owners l !! r_ownerID r) r ->
  ledger_core (refunded l t r).
Proof.
  intros Hl Er Hin Hp. unfold refunded. cbn zeta. cbn [l_owners field_update].
  destruct (l_owners l !! r_ownerID r) as [c|] eqn:Ec.
  - destruct (pinned_facts _ _ Hp) as [Hnd Hpi].
    destruct (unpin_fold_wf c _ (lc_charge _ Hl _ _ Ec) Hnd Hpi) as (Hw & Hg & _ & _ & _ & _ & Hk).
    apply (ledger_core_change l _ (r_ownerID r) {[ t ]}); cbn; try done.
    + intros o' Hne. by rewrite lookup_insert_ne.
    + intros c'. rewrite lookup_insert_eq. by intros [= <-].
    + intros t' Hne. by rewrite lookup_insert_ne by set_solver.
    + intros t' r' ->%elem_of_singleton. rewrite lookup_insert_eq, Er. intros [= <-].
      split; [by right|done].
    + intros t' r' Hin' Hne Hr' Ho. rewrite Ec, lookup_insert_eq. apply pinned_mono.
      intros x Hx Hkx Hgx. rewrite Hk, Hg. split; [|done]. rewrite decide_False; [done|].
      apply (lc_disjoint _ Hl t' t r' r); try done; [set_solver|]. by apply list_elem_of_fmap_2.
  - apply (ledger_core_change l _ (r_ownerID r) {[ t ]}); cbn; try done.
    + intros c. rewrite Ec. done.
    + intros t' Hne. by rewrite lookup_insert_ne by set_solver.
    + intros t' r' ->%elem_of_singleton. rewrite lookup_insert_eq, Er. intros [= <-].
      split; [by right|done].
Qed.

Lemma Release_core l t : ledger_core l -> ledger_core (Release l t).
Proof.
  intros Hl. destruct (Release_cases l t Hl) as [-> |(r & Er & Hin & Hp & ->)]; [done|].
  by apply recompute_core, refunded_core.
Qed.

Lemma disowned_core l o : ledger_core l -> ledger_core (disowned l o).
Proof.
  intros Hl. apply (ledger_core_change l _ o (owned_live l o)); cbn; try done.
  - intros o' Hne. by rewrite lookup_delete_ne.
  - intros c. by rewrite lookup_delete_eq.
  - intros t Hn. rewrite map_lookup_imap. destruct (l_objs l !! t); [|done]. cbn.
    by rewrite bool_decide_eq_false_2.
  - intros t r Hin. rewrite map_lookup_imap. destruct (l_objs l !! t) as [r'|]; [|done]. cbn.
    rewrite bool_decide_eq_true_2 by done. intros [= <-]. split; [by right|done].
  - intros t r Hin Hn Hr Ho. destruct Hn. apply elem_of_filter. split; [|done].
    unfold owned_by, obj_test. rewrite Hr. cbn. by rewrite bool_decide_eq_true_2.
Qed.

Lemma Ledger_ReleaseOwner_eq l o : Ledger_ReleaseOwner l o = recompute (disowned l o).
Proof. done. Qed.

Lemma Ledger_ReleaseOwner_core l o : ledger_core l -> ledger_core (Ledger_ReleaseOwner l o).
Proof. intros Hl. by apply recompute_core, disowned_core. Qed.

(** Changes that touch no owner and no reservation. *)
Lemma ledger_core_totals l l' :
  ledger_core l -> l_limits l' = l_limits l -> l_next l' = l_next l -> l_live l' = l_live l ->
  l_owners l' = l_owners l -> l_objs l' = l_objs l -> ledger_core l'.
Proof.
  intros H. destruct l, l'; cbn. intros -> -> -> -> ->. destruct H. by split.
Qed.

Lemma ClaimEdge_core l : ledger_core l -> ledger_core (ClaimEdge l).1.
Proof.
  intros Hl. unfold ClaimEdge. repeat (case_match; [by apply reject_core|]). apply recompute_core.
  by apply (ledger_core_totals l).
Qed.

Lemma ReleaseEdge_core l : ledger_core l -> ledger_core (ReleaseEdge l).
Proof.
  intros Hl. unfold ReleaseEdge. case_match; [done|]. apply recompute_core.
  by apply (ledger_core_totals l).
Qed.

Lemma ReleaseFixed_core l n o : ledger_core l -> ledger_core (ReleaseFixed l n o).
Proof.
  intros Hl. unfold ReleaseFixed. repeat case_match; try done. apply recompute_core.
  by apply (ledger_core_totals l).
Qed.

(** A new charge of one owner under which everything pinned stays pinned. *)
Lemma ledger_core_charge l o c :
  ledger_core l -> charge_wf c ->
  (forall x, c_resources (charge_of l o) !! ClaimKey x = Some x ->
     ClaimKey x ∉ c_grantedSet (charge_of l o) ->
     c_resources c !! ClaimKey x = Some x /\ ClaimKey x ∉ c_grantedSet c) ->
  ledger_core (l <| l_owners ::= <[o := c]> |>).
Proof.
  intros Hl Hc Hkeep. apply (ledger_core_change l _ o ∅); cbn; try done.
  - by rewrite difference_empty_L.
  - intros o' Hne. by rewrite lookup_insert_ne.
  - intros c'. rewrite lookup_insert_eq. by intros [= <-].
  - intros t r _ _ _ _ Hp. rewrite lookup_insert_eq. unfold charge_of in Hkeep.
    destruct (l_owners l !! o) as [c0|] eqn:E; cbn in Hkeep.
    + eapply pinned_mono; [|exact Hp]. intros x _. apply Hkeep.
    + destruct Hp as [Hnd [?|(c1 & [=] & _)]]. split; [done|by left].
Qed.

Lemma ChargeFixed_core l n o : ledger_core l -> ledger_core (ChargeFixed l n o).1.
Proof.
  intros Hl. unfold ChargeFixed. destruct (n <=? 0) eqn:En; [done|]. apply Z.leb_gt in En.
  cbn zeta. destruct (MemoryBytes (l_limits l) <? _); [by apply reject_core|].
  case_match; apply recompute_core; [by apply (ledger_core_totals l)|].
  fold (charge_of l o). apply ledger_core_charge; [done| |done].
  destruct (charge_of_wf l o Hl) as [Hs Hg Hr Hf Hn]. split; cbn; try done. lia.
Qed.

Definition ungranted_charge (c : ownerCharge) (k : bytes) : ownerCharge :=
  let c := c <| c_grantedSet ::= fun s => s ∖ {[ k ]} |> in
  let c := match c_resources c !! k with
    | Some resource =>
        c <| c_resources ::= delete k |>
          <| c_grantedBytes ::= fun g =>
               if OwnedBytes64 resource <=? g then g - OwnedBytes64 resource else 0 |>
    | None => c
    end in
  if 0 <? c_grants c then c <| c_grants ::= Z.pred |> else c.

Lemma ungranted_charge_wf c k :
  charge_wf c -> k ∈ c_grantedSet c -> charge_wf (ungranted_charge c k) /\
  c_resources (ungranted_charge c k) = delete k (c_resources c) /\
  c_grantedSet (ungranted_charge c k) = c_grantedSet c ∖ {[ k ]}.
Proof.
  intros [Hs Hg Hr Hf Hn] Hk. pose proof Hk as [r Hkr]%Hs%elem_of_dom.
  unfold ungranted_charge. cbn. rewrite Hkr. cbn.
  assert (granted_sum c = OwnedBytes64 r + map_sum (fun k' r' =>
    if bool_decide (k' ∈ c_grantedSet c ∖ {[k]}) then OwnedBytes64 r' else 0) (delete k (c_resources c))) as Hgs.
  { unfold granted_sum. rewrite (map_sum_delete _ _ _ _ Hkr), bool_decide_eq_true_2 by done. f_equal.
    apply map_sum_ext. intros k' r' [Hne _]%lookup_delete_Some. repeat case_bool_decide; set_solver. }
  assert (reserved_sum c = map_sum (fun k' r' =>
    if bool_decide (k' ∈ c_grantedSet c ∖ {[k]}) then 0 else OwnedBytes64 r') (delete k (c_resources c))) as Hrs.
  { unfold reserved_sum. rewrite (map_sum_delete _ _ _ _ Hkr), bool_decide_eq_true_2 by done.
    rewrite Z.add_0_l. apply map_sum_ext. intros k' r' [Hne _]%lookup_delete_Some.
    repeat case_bool_decide; set_solver. }
  assert (0 <= granted_sum c - OwnedBytes64 r) as Hle.
  { rewrite Hgs. enough (0 <= map_sum (fun k' r' => if bool_decide (k' ∈ c_grantedSet c ∖ {[k]})
      then OwnedBytes64 r' else 0) (delete k (c_resources c))) by lia.
    apply map_sum_nonneg. intros. case_bool_decide; [apply OwnedBytes64_nonneg|done]. }
  rewrite (proj2 (Z.leb_le (OwnedBytes64 r) (c_grantedBytes c))) by lia.
  destruct (0 <? c_grants c) eqn:Eg; cbn; (split; [split; cbn|done]); try done;
    try (rewrite dom_delete_L; set_solver); try (bool_prop; lia);
    unfold granted_sum, reserved_sum; cbn; rewrite ?Hr, ?Hrs, ?Hg, ?Hgs; lia.
Qed.

Lemma ReleaseGrant_core l o k : ledger_core l -> ledger_core (ReleaseGrant l o k).
Proof.
  intros Hl. unfold ReleaseGrant. destruct (l_owners l !! o) as [c|] eqn:Ec; [|done].
  case_bool_decide as Hk; [done|]. apply recompute_core. fold (ungranted_charge c k).
  destruct (ungranted_charge_wf c k (lc_charge _ Hl _ _ Ec) Hk) as (Hw & Hr & Hg).
  apply ledger_core_charge; [done..|]. unfold charge_of. rewrite Ec. cbn.
  intros x Hx Hn. rewrite Hr, Hg. split; [|set_solver].
  rewrite lookup_delete_ne; [done|]. intros ->. by destruct Hn.
Qed.

(** ** Totals *)

(** The formula of the accounting model, before it is clamped at zero. *)
Definition raw_memory (l : Ledger) : Z :=
  map_sum (fun _ c => trackedBytes c) (l_owners l) + waiterFixedBytes * Z.of_nat (size (l_live l))
  + l_engineFixed l + l_edges l * edgeFixedBytes.

Record totals_ok (l : Ledger) : Prop := {
  to_memory : l_memory l = Z.max 0 (raw_memory l);
  to_grants : l_grants l = map_sum (fun _ c => c_grants c) (l_owners l);
  to_kept o c : l_owners l !! o = Some c -> charge_kept c = true
}.

Lemma live_count_all l :
  ledger_core l -> live_count l (fun r => negb (r_released r || r_committed r)) = Z.of_nat (size (l_live l)).
Proof.
  intros Hl. unfold live_count. do 2 f_equal. apply set_eq. intros t. rewrite elem_of_filter.
  split; [by intros [_ ?]|]. intros Hin. split; [|done].
  destruct (lc_live _ Hl t Hin) as (r & Hr & Hc & Hre & _). unfold obj_test. rewrite Hr. cbn.
  by rewrite Hc, Hre.
Qed.

Lemma recompute_totals l : ledger_core l -> totals_ok (recompute l).
Proof.
  intros Hl. split.
  - cbn. rewrite live_count_all by done. unfold raw_memory. cbn.
    set (m := _ + _ : Z). destruct (Z.ltb_spec m 0); unfold m in *; lia.
  - done.
  - by intros o c [_ ?]%filter_owners.
Qed.

Lemma map_sum_filter_le {V} (f : bytes -> V -> Z) (p : V -> bool) (m : gmap bytes V) :
  (forall k v, m !! k = Some v -> p v = false -> 0 <= f k v) ->
  map_sum f (filter (fun kv => p kv.2) m) <= map_sum f m.
Proof.
  induction m as [|k v m Hk IH] using map_ind; intros Hf; [by rewrite map_filter_empty|].
  assert (map_sum f (filter (fun kv => p kv.2) m) <= map_sum f m) as IH'.
  { apply IH. intros k' v' Hk'. apply Hf. rewrite lookup_insert_ne; [done|]. intros <-. congruence. }
  rewrite map_filter_insert, (map_sum_insert f m k v Hk). cbn. destruct (p v) eqn:Ep; cbn [decide].
  - rewrite decide_True by done. rewrite map_sum_insert; [lia|].
    apply map_lookup_filter_None. by left.
  - rewrite decide_False by (by intros ?%Is_true_true). rewrite delete_id by done.
    assert (0 <= f k v) by (apply Hf; [apply lookup_insert_eq|done]). lia.
Qed.

Lemma recompute_le l : ledger_core l -> l_memory (recompute l) <= Z.max 0 (raw_memory l).
Proof.
  intros Hl. rewrite (to_memory _ (recompute_totals l Hl)). unfold raw_memory. cbn.
  pose proof (map_sum_filter_le (fun _ c => trackedBytes c) charge_kept (l_owners l)) as H.
  assert (forall k v, l_owners l !! k = Some v -> charge_kept v = false -> 0 <= trackedBytes v) as Hp
    by (intros; by eapply trackedBytes_pos, lc_charge).
  specialize (H Hp). lia.
Qed.

Lemma charge_of_tracked l o :
  map_sum (fun _ c => trackedBytes c) (l_owners l) +
    (if owner_exists l o then 0 else ownerFixedBytes) =
  map_sum (fun _ c => trackedBytes c) (delete o (l_owners l)) + trackedBytes (charge_of l o).
Proof.
  rewrite map_sum_delete_any. unfold owner_exists, charge_of.
  destruct (l_owners l !! o) as [c|] eqn:E; cbn.
  - lia.
  - unfold trackedBytes, ownerFixedBytes. cbn. lia.
Qed.

Lemma raw_insert_owner l o c :
  raw_memory (l <| l_owners ::= <[o := c]> |>) =
  raw_memory l + (if owner_exists l o then 0 else ownerFixedBytes)
    + (trackedBytes c - trackedBytes (charge_of l o)).
Proof.
  unfold raw_memory. cbn. pose proof (charge_of_tracked l o).
  rewrite <- insert_delete_eq, map_sum_insert by apply lookup_delete_eq. lia.
Qed.

Lemma owner_exists_Some l o c : l_owners l !! o = Some c -> owner_exists l o = true /\ charge_of l o = c.
Proof. intros H. unfold owner_exists, charge_of. rewrite H. by rewrite bool_decide_eq_true_2. Qed.

Lemma raw_live l X : X ⊆ l_live l ->
  raw_memory (l <| l_live ::= fun s => s ∖ X |>) = raw_memory l - waiterFixedBytes * Z.of_nat (size X).
Proof.
  intros H. unfold raw_memory. cbn. rewrite size_difference by done.
  pose proof (subseteq_size _ _ H). unfold waiterFixedBytes. lia.
Qed.

(** Raw memory does not depend on the objects, the counters of refusals or the next token. *)
Lemma raw_same l l' :
  l_owners l' = l_owners l -> l_live l' = l_live l -> l_engineFixed l' = l_engineFixed l ->
  l_edges l' = l_edges l -> raw_memory l' = raw_memory l.
Proof. intros E1 E2 E3 E4. unfold raw_memory. by rewrite E1, E2, E3, E4. Qed.

Lemma tracked_pinned c l : trackedBytes (pinned_charge c l) = trackedBytes c + RefBytes l.
Proof. unfold trackedBytes. cbn. lia. Qed.

Lemma raw_reserved l o cs intro w :
  ledger_core l -> raw_memory (reserved l o cs intro w) =
  raw_memory l + RefBytes intro + waiterFixedBytes + (if owner_exists l o then 0 else ownerFixedBytes).
Proof.
  intros Hl. destruct (next_token_fresh l Hl) as [_ Hn].
  transitivity (raw_memory (l <| l_owners ::= <[o := pinned_charge (charge_of l o) intro]> |>
                  <| l_live ::= union {[ 1 + l_next l ]} |>)); [by apply raw_same|].
  pose proof (raw_insert_owner l o (pinned_charge (charge_of l o) intro)) as H.
  rewrite (tracked_pinned (charge_of l o) intro) in H.
  unfold raw_memory, waiterFixedBytes in *. cbn in *. rewrite size_union, size_singleton by set_solver.
  lia.
Qed.

Lemma raw_committed l t r c :
  ledger_core l -> t ∈ l_live l -> l_owners l !! r_ownerID r = Some c -> pinned (Some c) r ->
  raw_memory (committed l t r c) = raw_memory l - waiterFixedBytes + grantFixedBytes.
Proof.
  intros Hl Hin Ec Hp. destruct (owner_exists_Some _ _ _ Ec) as [E1 E2].
  destruct (committed_charge_wf c r (lc_charge _ Hl _ _ Ec) Hp) as (Hw & Hr & _ & Hg & Hf).
  transitivity (raw_memory (l <| l_live ::= fun s => s ∖ {[ t ]} |>
                              <| l_owners ::= <[r_ownerID r := committed_charge c r]> |>)); [done|].
  rewrite raw_insert_owner, raw_live, size_singleton by set_solver.
  change (owner_exists _ _) with (owner_exists l (r_ownerID r)).
  change (charge_of (_ <| l_live ::= _ |>) _) with (charge_of l (r_ownerID r)). rewrite E1, E2.
  rewrite !trackedBytes_eq, Hr, Hg, Hf by (done || by apply (lc_charge _ Hl _ _ Ec)). lia.
Qed.

Lemma raw_refunded l t r :
  ledger_core l -> t ∈ l_live l -> pinned (l_owners l !! r_ownerID r) r ->
  raw_memory (refunded l t r) = raw_memory l - waiterFixedBytes - RefBytes (r_newResources r).
Proof.
  intros Hl Hin Hp. unfold refunded. cbn zeta. cbn [l_owners field_update].
  destruct (l_owners l !! r_ownerID r) as [c|] eqn:Ec.
  - destruct (owner_exists_Some _ _ _ Ec) as [E1 E2].
    destruct (pinned_facts _ _ Hp) as [Hnd Hpi].
    destruct (unpin_fold_wf c _ (lc_charge _ Hl _ _ Ec) Hnd Hpi) as (_ & _ & Hrb & Hgb & Hg & Hf & _).
    transitivity (raw_memory (l <| l_live ::= fun s => s ∖ {[ t ]} |>
      <| l_owners ::= <[r_ownerID r := foldl unpin_step c (r_newResources r)]> |>)); [done|].
    rewrite raw_insert_owner, raw_live, size_singleton by set_solver.
    change (owner_exists _ _) with (owner_exists l (r_ownerID r)).
    change (charge_of (_ <| l_live ::= _ |>) _) with (charge_of l (r_ownerID r)). rewrite E1, E2.
    unfold trackedBytes. rewrite Hrb, Hgb, Hg, Hf. lia.
  - transitivity (raw_memory (l <| l_live ::= fun s => s ∖ {[ t ]} |>)); [done|].
    rewrite raw_live, size_singleton by set_solver.
    destruct Hp as [_ [-> |(c & [=] & _)]]. change (RefBytes []) with 0. lia.
Qed.

Lemma raw_disowned l o :
  ledger_core l ->
  raw_memory (disowned l o) = raw_memory l - waiterFixedBytes * Z.of_nat (size (owned_live l o))
    - from_option trackedBytes 0 (l_owners l !! o).
Proof.
  intros Hl. transitivity (raw_memory (l <| l_live ::= fun s => s ∖ owned_live l o |>
    <| l_owners ::= delete o |>)); [done|].
  transitivity (raw_memory (l <| l_live ::= fun s => s ∖ owned_live l o |>)
    - from_option trackedBytes 0 (l_owners l !! o)).
  - unfold raw_memory. cbn. rewrite map_sum_delete_any. destruct (l_owners l !! o); cbn; lia.
  - rewrite raw_live; [lia|]. intros t [_ ?]%elem_of_filter. done.
Qed.

(** ** Bounds *)

Definition unwaited (l : Ledger) : Z := live_count l (fun r => negb (r_waiter r)).

(** The memory budget is kept, up to the waiter overhead of live reservations that did not ask
    for it; so are the waiter and edge budgets. *)
Record ledger_bounds (l : Ledger) : Prop := {
  lb_memory : l_memory l <= MemoryBytes (l_limits l) + waiterFixedBytes * unwaited l;
  lb_waiters : pendingLocked l <= Waiters (l_limits l);
  lb_edges : 0 <= l_edges l <= GraphWork (l_limits l)
}.

Lemma live_count_nonneg l p : 0 <= live_count l p.
Proof. unfold live_count. lia. Qed.

Lemma live_count_empty l p : l_live l = ∅ -> live_count l p = 0.
Proof.
  intros E. unfold live_count. rewrite E.
  assert (filter (fun t => obj_test l p t) (∅ : gset Z) = ∅) as -> by set_solver.
  by rewrite size_empty.
Qed.

Lemma live_count_same l l' p :
  l_live l' = l_live l -> (forall t, t ∈ l_live l -> l_objs l' !! t = l_objs l !! t) ->
  live_count l' p = live_count l p.
Proof.
  intros E Ho. unfold live_count. rewrite E. do 2 f_equal. apply set_eq. intros t.
  rewrite !elem_of_filter. unfold obj_test. split; intros [Hp Hin]; (split; [|done]); by rewrite Ho in *.
Qed.

Lemma live_count_remove l l' p X :
  l_live l' = l_live l ∖ X -> (forall t, t ∉ X -> l_objs l' !! t = l_objs l !! t) ->
  live_count l p - Z.of_nat (size X) <= live_count l' p <= live_count l p.
Proof.
  intros E Ho. unfold live_count. rewrite E.
  set (F := filter (fun t => obj_test l p t) (l_live l)).
  assert (filter (fun t => obj_test l' p t) (l_live l ∖ X) = F ∖ X) as ->.
  { apply set_eq. intros t. unfold F. rewrite elem_of_difference, !elem_of_filter, elem_of_difference.
    unfold obj_test. split; [intros [Hp [? Hx]]|intros [[Hp ?] Hx]]; rewrite Ho in * by done; done. }
  pose proof (subseteq_size (F ∖ X) F ltac:(set_solver)).
  assert (F ⊆ (F ∖ X) ∪ X) as H2%subseteq_size by (intros t ?; destruct (decide (t ∈ X)); set_solver).
  rewrite size_union_alt in H2.
  pose proof (subseteq_size (X ∖ (F ∖ X)) X ltac:(set_solver)). lia.
Qed.

Lemma live_count_add l o cs intro w p :
  ledger_core l ->
  live_count (reserved l o cs intro w) p =
  live_count l p + (if p (reservation_of o cs intro w) then 1 else 0).
Proof.
  intros Hl. destruct (next_token_fresh l Hl) as [_ Hn]. unfold live_count.
  set (r := reservation_of o cs intro w).
  assert (filter (fun t => obj_test (reserved l o cs intro w) p t) (l_live (reserved l o cs intro w)) =
    (if p r then {[ 1 + l_next l ]} else ∅) ∪ filter (fun t => obj_test l p t) (l_live l)) as ->.
  { apply set_eq. intros t. rewrite elem_of_union, !elem_of_filter. cbn [reserved l_live field_update].
    rewrite elem_of_union, elem_of_singleton. unfold obj_test. cbn [reserved l_objs field_update].
    destruct (decide (t = 1 + l_next l)) as [->|Hne].
    - rewrite lookup_insert_eq. fold r. cbn. destruct (p r); set_solver.
    - rewrite lookup_insert_ne by done. destruct (p r); set_solver. }
  rewrite size_union.
  - destruct (p r); rewrite ?size_singleton, ?size_empty; lia.
  - intros t Ht [_ ?]%elem_of_filter. destruct (p r); set_solver.
Qed.

Lemma bounds_same l l' :
  ledger_bounds l -> l_limits l' = l_limits l -> l_memory l' = l_memory l ->
  l_live l' = l_live l -> l_edges l' = l_edges l ->
  (forall t, t ∈ l_live l -> l_objs l' !! t = l_objs l !! t) -> ledger_bounds l'.
Proof.
  intros [Hm Hw He] E1 E2 E3 E4 Ho. split; unfold unwaited, pendingLocked in *;
    rewrite ?(live_count_same l l'), ?E1, ?E2, ?E4 by done; done.
Qed.

(** Reservations leave the live set and the raw memory shrinks by at least their overhead. *)
Lemma bounds_remove l l' X :
  ledger_core l -> totals_ok l -> ledger_bounds l -> ledger_core l' -> X ⊆ l_live l ->
  l_limits l' = l_limits l -> l_live l' = l_live l ∖ X -> l_edges l' = l_edges l ->
  (forall t, t ∉ X -> l_objs l' !! t = l_objs l !! t) ->
  raw_memory l' <= raw_memory l - waiterFixedBytes * Z.of_nat (size X) \/
    raw_memory l' <= MemoryBytes (l_limits l) ->
  ledger_bounds (recompute l').
Proof.
  intros Hl Ht [Hm Hw He] Hl' HX El Elv Ee Ho Hraw. pose proof (recompute_le l' Hl') as Hle.
  pose proof (live_count_remove l l' (fun r => negb (r_waiter r)) X Elv Ho) as H1.
  pose proof (live_count_remove l l' r_waiter X Elv Ho) as H2.
  pose proof (live_count_nonneg l' (fun r => negb (r_waiter r))) as Hn.
  pose proof (lc_limits _ Hl) as (Hlim & _).
  unfold unwaited, pendingLocked, waiterFixedBytes in *. rewrite (to_memory _ Ht) in Hm.
  split; change (live_count (recompute l')) with (live_count l'); unfold unwaited, pendingLocked;
    change (l_limits (recompute l')) with (l_limits l'); change (l_edges (recompute l')) with (l_edges l');
    change (live_count (recompute l')) with (live_count l'); rewrite ?El, ?Ee; [|lia|done].
  unfold waiterFixedBytes. lia.
Qed.

(** The live set is the same and the raw memory stays within the budget or does not grow. *)
Lemma bounds_keep l l' :
  ledger_core l -> totals_ok l -> ledger_bounds l -> ledger_core l' ->
  l_limits l' = l_limits l -> l_live l' = l_live l -> l_objs l' = l_objs l ->
  0 <= l_edges l' <= GraphWork (l_limits l) ->
  raw_memory l' <= raw_memory l \/ raw_memory l' <= MemoryBytes (l_limits l) ->
  ledger_bounds (recompute l').
Proof.
  intros Hl Ht [Hm Hw He] Hl' El Elv Eo Ee Hraw. pose proof (recompute_le l' Hl') as Hle.
  pose proof (lc_limits _ Hl) as (Hlim & _). pose proof (live_count_nonneg l (fun r => negb (r_waiter r))).
  rewrite (to_memory _ Ht) in Hm. unfold unwaited, pendingLocked in *.
  split; unfold unwaited, pendingLocked; change (live_count (recompute l')) with (live_count l');
    change (l_limits (recompute l')) with (l_limits l'); change (l_edges (recompute l')) with (l_edges l');
    rewrite ?(live_count_same l l') by (try done; intros; by rewrite Eo); rewrite ?El; [|done..].
  unfold waiterFixedBytes in *. lia.
Qed.

Record ledger_wf (l : Ledger) : Prop := {
  lw_core : ledger_core l;
  lw_totals : totals_ok l;
  lw_bounds : ledger_bounds l
}.

(** [recompute] is idempotent. *)
Lemma recompute_fixed l : ledger_core l -> totals_ok l -> recompute l = l.
Proof.
  intros Hc [Hm Hg Hk]. unfold recompute. cbn zeta. cbn [l_owners field_update].
  rewrite live_count_all by done.
  assert (filter (fun kv => charge_kept kv.2) (l_owners l) = l_owners l) as ->.
  { apply map_filter_id. intros o c H. cbn. by rewrite (Hk _ _ H). }
  unfold raw_memory in Hm. destruct l. cbn in *. f_equal; [done|]. rewrite Hm.
  match goal with |- (if ?a <? 0 then 0 else _) = _ => destruct (Z.ltb_spec a 0) end; lia.
Qed.

Lemma memory_raw l : totals_ok l -> raw_memory l <= l_memory l.
Proof. intros H. rewrite (to_memory _ H). lia. Qed.

Lemma totals_same l l' :
  totals_ok l -> raw_memory l' = raw_memory l -> l_memory l' = l_memory l -> l_grants l' = l_grants l ->
  l_owners l' = l_owners l -> totals_ok l'.
Proof. intros [] E1 E2 E3 E4. split; rewrite ?E1, ?E2, ?E3, ?E4; done. Qed.

Lemma reject_wf l : ledger_wf l -> ledger_wf (reject l).
Proof.
  intros [Hc Ht Hb]. split; [by apply reject_core|by apply (totals_same l)|by apply (bounds_same l)].
Qed.

Lemma Reserve_wf l o cs w : ledger_wf l -> ledger_wf (Reserve l o cs w).1.
Proof.
  intros Hl. pose proof Hl as [Hc Ht Hb].
  destruct (Reserve_cases l o cs w) as [(e & [-> | ->])|(intro & Hok & H)]; [done|by apply reject_wf|].
  destruct H as [(-> & -> & ->)|[_ ->]]; cbn [fst].
  - split; [apply noted_core; [done|by apply Hok]|by apply (totals_same l)|].
    destruct (next_token_fresh l Hc) as [_ Hn]. apply (bounds_same l); try done.
    intros t Hin. cbn. rewrite lookup_insert_ne; [done|]. by intros <-.
  - pose proof (reserved_core l o cs intro w Hc Hok) as Hc'.
    split; [by apply recompute_core|by apply recompute_totals|].
    pose proof (recompute_le _ Hc') as Hle. rewrite raw_reserved in Hle by done.
    pose proof (memory_raw l Ht). pose proof (ro_memory _ _ _ _ _ Hok) as Hm.
    unfold memoryUsage in Hm. destruct Hb as [_ Hw He]. pose proof (lc_limits _ Hc) as (Hlim & _).
    pose proof (live_count_nonneg l (fun r => negb (r_waiter r))).
    split; unfold unwaited, pendingLocked;
      change (live_count (recompute ?x)) with (live_count (reserved l o cs intro w));
      change (l_limits (recompute ?x)) with (l_limits l); rewrite ?live_count_add by done; [| |done].
    + unfold waiterFixedBytes in *. destruct w; cbn [reservation_of r_waiter negb]; lia.
    + pose proof (ro_waiters _ _ _ _ _ Hok). unfold pendingLocked in *.
      destruct w; cbn [reservation_of r_waiter]; [|lia]. auto.
Qed.

Lemma Commit_wf l t : ledger_wf l -> ledger_wf (Commit l t).1.
Proof.
  intros Hl. pose proof Hl as [Hc Ht Hb].
  destruct (Commit_cases l t Hc) as [[-> _]|(r & Er & [[_ ->]|(Hin & Hp & H)])]; [done..|].
  destruct H as [[Ec ->]|(c & Ec & [[_ ->]|[Hm ->]])]; [|by apply reject_wf|]; cbn [fst].
  - pose proof (orphaned_core l t r Hc Er Ec) as Hc'.
    split; [by apply recompute_core|by apply recompute_totals|].
    apply (bounds_remove l _ {[ t ]}); try done; [set_solver| |].
    + intros t' Hn. cbn. by rewrite lookup_insert_ne by set_solver.
    + left. rewrite size_singleton. pose proof (raw_live l {[ t ]} ltac:(set_solver)) as H.
      rewrite size_singleton in H. transitivity (raw_memory (l <| l_live ::= fun s => s ∖ {[ t ]} |>));
        [by apply Z.eq_le_incl|lia].
  - rewrite Ec in Hp. pose proof (committed_core l t r c Hc Er Hin Ec Hp) as Hc'.
    split; [by apply recompute_core|by apply recompute_totals|].
    apply (bounds_remove l _ {[ t ]}); try done; [set_solver| |].
    + intros t' Hn. cbn. by rewrite lookup_insert_ne by set_solver.
    + right. rewrite raw_committed by done. pose proof (memory_raw l Ht).
      unfold memoryUsage, waiterFixedBytes, grantFixedBytes in *. lia.
Qed.

Lemma Release_wf l t : ledger_wf l -> ledger_wf (Release l t).
Proof.
  intros Hl. pose proof Hl as [Hc Ht Hb].
  destruct (Release_cases l t Hc) as [-> |(r & Er & Hin & Hp & ->)]; [done|].
  pose proof (refunded_core l t r Hc Er Hin Hp) as Hc'.
  split; [by apply recompute_core|by apply recompute_totals|].
  apply (bounds_remove l _ {[ t ]}); try done; try set_solver;
    try (unfold refunded; cbn; by destruct (l_owners l !! r_ownerID r)).
  - intros t' Hn. unfold refunded. cbn.
    destruct (l_owners l !! r_ownerID r); cbn; by rewrite lookup_insert_ne by set_solver.
  - left. rewrite raw_refunded, size_singleton by done. pose proof (RefBytes_nonneg (r_newResources r)). lia.
Qed.

Lemma Ledger_ReleaseOwner_wf l o : ledger_wf l -> ledger_wf (Ledger_ReleaseOwner l o).
Proof.
  intros [Hc Ht Hb]. pose proof (disowned_core l o Hc) as Hc'. rewrite Ledger_ReleaseOwner_eq.
  split; [by apply recompute_core|by apply recompute_totals|].
  apply (bounds_remove l _ (owned_live l o)); try done.
  - by intros t [_ ?]%elem_of_filter.
  - intros t Hn. cbn. rewrite map_lookup_imap. destruct (l_objs l !! t); [|done]. cbn.
    by rewrite bool_decide_eq_false_2.
  - left. rewrite raw_disowned by done. destruct (l_owners l !! o) as [c|] eqn:E; cbn; [|lia].
    pose proof (trackedBytes_pos c (lc_charge _ Hc _ _ E)). lia.
Qed.

(** A total that changed by a constant, on the same owners and reservations. *)
Lemma totals_step_wf l l' :
  ledger_wf l -> l_limits l' = l_limits l -> l_next l' = l_next l -> l_live l' = l_live l ->
  l_owners l' = l_owners l -> l_objs l' = l_objs l -> 0 <= l_edges l' <= GraphWork (l_limits l) ->
  raw_memory l' <= raw_memory l \/ raw_memory l' <= MemoryBytes (l_limits l) ->
  ledger_wf (recompute l').
Proof.
  intros [Hc Ht Hb] ? ? ? ? ? ? ?. pose proof (ledger_core_totals l l' Hc) as Hc'.
  split; [by apply recompute_core, Hc'|by apply recompute_totals, Hc'|].
  apply (bounds_keep l); try done. by apply Hc'.
Qed.

Lemma ClaimEdge_wf l : ledger_wf l -> ledger_wf (ClaimEdge l).1.
Proof.
  intros Hl. unfold ClaimEdge. destruct (_ <? _) eqn:E1; [by apply reject_wf|].
  destruct (MemoryBytes _ <? _) eqn:E2; [by apply reject_wf|]. bool_prop.
  pose proof (memory_raw l (lw_totals _ Hl)). pose proof (lb_edges _ (lw_bounds _ Hl)).
  apply (totals_step_wf l); try done; cbn; [lia|]. right.
  unfold raw_memory, memoryUsage in *. cbn. lia.
Qed.

Lemma ReleaseEdge_wf l : ledger_wf l -> ledger_wf (ReleaseEdge l).
Proof.
  intros Hl. unfold ReleaseEdge. destruct (_ <=? _) eqn:E1; [done|]. bool_prop.
  pose proof (lb_edges _ (lw_bounds _ Hl)).
  apply (totals_step_wf l); try done; cbn; [lia|]. left.
  unfold raw_memory, edgeFixedBytes. cbn. lia.
Qed.

Lemma ReleaseFixed_wf l n o : ledger_wf l -> ledger_wf (ReleaseFixed l n o).
Proof.
  intros Hl. unfold ReleaseFixed. destruct (n <=? 0) eqn:E1; [done|]. bool_prop.
  case_bool_decide; [|done]. apply (totals_step_wf l); try done; cbn; [apply Hl|]. left.
  unfold raw_memory. cbn. lia.
Qed.

Lemma ChargeFixed_wf l n o : ledger_wf l -> ledger_wf (ChargeFixed l n o).1.
Proof.
  intros Hl. pose proof (ChargeFixed_core l n o (lw_core _ Hl)) as Hcore. revert Hcore.
  unfold ChargeFixed. destruct (n <=? 0) eqn:E1; [done|]. cbn zeta.
  destruct (MemoryBytes _ <? _) eqn:E2; [intros _; by apply reject_wf|]. bool_prop.
  pose proof (memory_raw l (lw_totals _ Hl)). unfold memoryUsage in *.
  destruct (decide (o = [])) as [->|Ho].
  - rewrite bool_decide_eq_true_2 in * by done. intros _. cbn in E2.
    apply (totals_step_wf l); try done; cbn; [apply Hl|]. right. unfold raw_memory in *. cbn. lia.
  - rewrite bool_decide_eq_false_2 in * by done. fold (charge_of l o). cbn [fst negb andb] in *.
    set (c := (charge_of l o) <| c_fixedBytes ::= Z.add n |>). intros _.
    assert (ledger_core (l <| l_owners ::= <[o := c]> |>)) as Hc'.
    { apply ledger_core_charge; [apply Hl| |done].
      destruct (charge_of_wf l o (lw_core _ Hl)) as [Hs Hg Hr Hf Hn]. split; cbn; try done. lia. }
    split; [by apply recompute_core|by apply recompute_totals|].
    apply (bounds_keep l); try apply Hl; try done. right. rewrite raw_insert_owner.
    assert (trackedBytes c = trackedBytes (charge_of l o) + n) as -> by (unfold trackedBytes; cbn; lia).
    unfold owner_exists. destruct (l_owners l !! o) eqn:E; cbn in *; unfold ownerFixedBytes in *; lia.
Qed.

Lemma ungranted_tracked c k :
  charge_wf c -> k ∈ c_grantedSet c -> trackedBytes (ungranted_charge c k) <= trackedBytes c.
Proof.
  intros Hc Hk. destruct (ungranted_charge_wf c k Hc Hk) as (Hw & Hr & _).
  rewrite !trackedBytes_eq, Hr by done. rewrite map_sum_delete_any.
  assert (c_fixedBytes (ungranted_charge c k) = c_fixedBytes c /\
    c_grants (ungranted_charge c k) <= c_grants c) as [-> ?].
  { unfold ungranted_charge. cbn. destruct (c_resources c !! k); cbn; case_match; cbn; split; try done; lia. }
  assert (0 <= from_option (fun r => OwnedBytes64 r) 0 (c_resources c !! k)).
  { destruct (c_resources c !! k); cbn; [apply OwnedBytes64_nonneg|done]. }
  unfold grantFixedBytes. lia.
Qed.

Lemma ReleaseGrant_wf l o k : ledger_wf l -> ledger_wf (ReleaseGrant l o k).
Proof.
  intros Hl. pose proof Hl as [Hc Ht Hb]. pose proof (ReleaseGrant_core l o k Hc) as Hcore.
  unfold ReleaseGrant in *. destruct (l_owners l !! o) as [c|] eqn:Ec; [|done].
  case_bool_decide as Hk; [done|]. fold (ungranted_charge c k) in *.
  destruct (ungranted_charge_wf c k (lc_charge _ Hc _ _ Ec) Hk) as (Hw & Hr & Hg).
  destruct (owner_exists_Some _ _ _ Ec) as [E1 E2].
  assert (ledger_core (l <| l_owners ::= <[o := ungranted_charge c k]> |>)) as Hc'.
  { apply ledger_core_charge; [done..|]. rewrite E2. intros x Hx Hn. rewrite Hr, Hg.
    split; [|set_solver]. rewrite lookup_delete_ne; [done|]. intros ->. by destruct Hn. }
  split; [done|by apply recompute_totals|].
  apply (bounds_keep l); try done; [apply Hb|]. left. rewrite raw_insert_owner, E1, E2.
  pose proof (ungranted_tracked c k (lc_charge _ Hc _ _ Ec) Hk). lia.
Qed.

(** ** Runs *)

Inductive ledger_op : Type :=
  | OpReserve (o : bytes) (cs : list ResourceRef) (w : bool)
  | OpCommit (t : Z)
  | OpRelease (t : Z)
  | OpReleaseOwner (o : bytes)
  | OpClaimEdge
  | OpReleaseEdge
  | OpChargeFixed (n : Z) (o : bytes)
  | OpReleaseFixed (n : Z) (o : bytes)
  | OpReleaseGrant (o k : bytes).

Definition ledger_step (l : Ledger) (op : ledger_op) : Ledger :=
  match op with
  | OpReserve o cs w => (Reserve l o cs w).1
  | OpCommit t => (Commit l t).1
  | OpRelease t => Release l t
  | OpReleaseOwner o => Ledger_ReleaseOwner l o
  | OpClaimEdge => (ClaimEdge l).1
  | OpReleaseEdge => ReleaseEdge l
  | OpChargeFixed n o => (ChargeFixed l n o).1
  | OpReleaseFixed n o => ReleaseFixed l n o
  | OpReleaseGrant o k => ReleaseGrant l o k
  end.

Lemma ledger_step_wf l op : ledger_wf l -> ledger_wf (ledger_step l op).
Proof.
  destruct op; cbn; auto using Reserve_wf, Commit_wf, Release_wf, Ledger_ReleaseOwner_wf, ClaimEdge_wf,
    ReleaseEdge_wf, ChargeFixed_wf, ReleaseFixed_wf, ReleaseGrant_wf.
Qed.

Lemma ledger_run_wf ops l : ledger_wf l -> ledger_wf (foldl ledger_step l ops).
Proof. revert l. induction ops; cbn; auto using ledger_step_wf. Qed.

Lemma NewLedger_wf limits l : NewLedger limits = Ok l -> ledger_wf l.
Proof.
  unfold NewLedger. destruct (Resolve limits) as [r|] eqn:E; [|done]. intros [= <-].
  apply Resolve_in_range in E. destruct E as (Hm & Hr & Hw & Hg). split.
  - split; cbn; try done; try set_solver. intros t. rewrite lookup_empty. by intros [? ?].
  - split; cbn; [unfold raw_memory; cbn; by rewrite map_sum_empty|by rewrite map_sum_empty|].
    intros o c. by rewrite lookup_empty.
  - split; unfold unwaited, pendingLocked; rewrite ?live_count_empty by done; cbn; lia.
Qed.

(** ** A refused request charges nothing; a refunded one leaves nothing *)

Lemma unpin_pinned c intro :
  charge_wf c -> NoDup (ClaimKey <$> intro) ->
  (forall x, x ∈ intro -> c_resources c !! ClaimKey x = None) ->
  foldl unpin_step (pinned_charge c intro) intro = c.
Proof.
  intros Hc Hnd Hfr. destruct (pinned_charge_wf c intro Hc Hnd Hfr) as [Hw Hpi].
  destruct (unpin_fold_wf _ _ Hw Hnd Hpi) as (_ & Hg & Hrb & Hgb & Hn & Hf & Hk).
  assert (c_resources (foldl unpin_step (pinned_charge c intro) intro) = c_resources c) as Hr.
  { apply map_eq. intros k. rewrite Hk. case_decide as Hin.
    - apply list_elem_of_fmap in Hin as (x & -> & Hx). by rewrite Hfr.
    - cbn. by apply (pin_lookup _ _ _ Hnd). }
  destruct (foldl unpin_step (pinned_charge c intro) intro), c. cbn in *. subst. f_equal. lia.
Qed.

Lemma newOwnerCharge_not_kept : charge_kept newOwnerCharge = false.
Proof. done. Qed.

(** What [recompute] leaves of a map whose other owners are all kept. *)
Lemma filter_kept_insert (m : gmap bytes ownerCharge) o c :
  (forall o' c', m !! o' = Some c' -> charge_kept c' = true) ->
  filter (fun kv => charge_kept kv.2) (<[o := c]> m) = if charge_kept c then <[o := c]> m else delete o m.
Proof.
  intros Hm. apply map_eq. intros o'. apply option_eq. intros c'. rewrite map_lookup_filter_Some. cbn.
  rewrite Is_true_true. destruct (decide (o' = o)) as [->|Hne].
  - rewrite lookup_insert_eq. destruct (charge_kept c) eqn:E; rewrite ?lookup_insert_eq, ?lookup_delete_eq.
    + split; [by intros [? _]|]. intros [= <-]. done.
    + split; [intros [[= <-] ?]; congruence|done].
  - rewrite lookup_insert_ne by done.
    destruct (charge_kept c); rewrite ?lookup_insert_ne, ?lookup_delete_ne by done;
      (split; [by intros [? _]|intros H; by eauto]).
Qed.

Lemma pinned_not_kept c intro : charge_kept (pinned_charge c intro) = false -> intro = [].
Proof.
  intros (H & _)%not_kept. cbn in H. destruct intro as [|x intro]; [done|].
  apply (f_equal dom) in H. rewrite pin_dom, dom_empty_L in H. cbn in H. set_solver.
Qed.

Lemma pinned_nil c : pinned_charge c [] = c.
Proof. destruct c. unfold pinned_charge. cbn. by rewrite Z.add_0_l. Qed.

(** The owners after a reservation and its refund. *)
Lemma refund_owners l o cs intro w :
  ledger_wf l -> reserve_ok l o cs intro w ->
  l_owners (recompute (refunded (recompute (reserved l o cs intro w)) (1 + l_next l)
    (reservation_of o cs intro w))) = l_owners l.
Proof.
  intros Hl Hok. pose proof (to_kept _ (lw_totals _ Hl)) as Hkept.
  destruct (ro_intro _ _ _ _ _ Hok) as [seen Hib].
  pose proof (unpin_pinned (charge_of l o) intro (charge_of_wf l o (lw_core _ Hl))
    (ib_nodup _ _ _ Hib) (fun x Hx => proj1 (ib_fresh _ _ _ Hib x Hx))) as Hun.
  set (l1 := recompute (reserved l o cs intro w)).
  assert (l_owners l1 =
    if charge_kept (pinned_charge (charge_of l o) intro)
    then <[o := pinned_charge (charge_of l o) intro]> (l_owners l) else delete o (l_owners l)) as Ho
    by (by apply filter_kept_insert).
  unfold refunded. cbn zeta. cbn [l_owners field_update r_ownerID reservation_of]. rewrite Ho.
  destruct (charge_kept (pinned_charge (charge_of l o) intro)) eqn:E.
  - rewrite lookup_insert_eq. cbn [r_newResources reservation_of]. rewrite Hun.
    unfold recompute. cbn [l_owners field_update]. rewrite insert_insert_eq.
    rewrite filter_kept_insert by done. unfold charge_of in *.
    destruct (l_owners l !! o) as [c|] eqn:Ec; cbn.
    + rewrite (Hkept _ _ Ec). by apply insert_id.
    + by rewrite delete_id.
  - rewrite lookup_delete_eq. unfold recompute. cbn [l_owners field_update]. rewrite ?Ho.
    assert (intro = []) as -> by (by eapply pinned_not_kept). rewrite pinned_nil in E.
    assert (l_owners l !! o = None) as Hn.
    { destruct (l_owners l !! o) as [c|] eqn:Ec; [|done]. unfold charge_of in E. rewrite Ec in E.
      cbn in E. rewrite (Hkept _ _ Ec) in E. done. }
    rewrite delete_id by done. apply map_filter_id. intros o' c' H. cbn. by rewrite (Hkept _ _ H).
Qed.

Lemma refund_restores l o cs w t l1 :
  ledger_wf l -> Reserve l o cs w = (l1, Ok t) ->
  let l2 := Release l1 t in
  l_owners l2 = l_owners l /\ l_live l2 = l_live l /\ l_memory l2 = l_memory l /\
  l_grants l2 = l_grants l.
Proof.
  intros Hl HR. cbn zeta. destruct (next_token_fresh l (lw_core _ Hl)) as [_ Hn].
  pose proof (Reserve_wf l o cs w Hl) as Hl1. rewrite HR in Hl1. cbn in Hl1.
  destruct (Reserve_cases l o cs w) as [(e & [E|E])|(intro & Hok & [(-> & -> & E)|[_ E]])];
    rewrite HR in E; simplify_eq.
  - unfold Release. cbn. rewrite lookup_insert_eq. cbn. done.
  - assert (Release (recompute (reserved l o cs intro w)) (1 + l_next l) =
      recompute (refunded (recompute (reserved l o cs intro w)) (1 + l_next l) (reservation_of o cs intro w)))
      as E by (unfold Release; cbn; rewrite lookup_insert_eq; done).
    pose proof (Release_wf _ (1 + l_next l) Hl1) as Hl2. rewrite E in *.
    pose proof (refund_owners l o cs intro w Hl Hok) as Ho.
    set (l2 := recompute (refunded _ _ _)) in *.
    assert (l_live l2 = l_live l) as Hlv.
    { unfold l2, refunded. cbn. case_match; cbn; set_solver. }
    assert (l_engineFixed l2 = l_engineFixed l /\ l_edges l2 = l_edges l) as [He Hed].
    { unfold l2, refunded. cbn. case_match; done. }
    split_and!; [done..| |].
    + rewrite (to_memory _ (lw_totals _ Hl2)), (to_memory _ (lw_totals _ Hl)). f_equal.
      by apply raw_same.
    + by rewrite (to_grants _ (lw_totals _ Hl2)), (to_grants _ (lw_totals _ Hl)), Ho.
Qed.

(** ** Properties *)

(** C3: Accounting over any run from a fresh ledger, of reservations, commits, refunds, owner releases, edge
    and fixed charges in any order, where no more engine-wide fixed bytes were given back than charged:
    the reported memory is exactly what the owners hold, the live reservations, the fixed charges
    and the edges come to; the waiter and edge budgets hold; and so does the memory budget while every live
    reservation was made with the waiter accounting.  One made without it is checked without its 64
    bytes of overhead, so each such reservation can take the memory that far beyond the budget while it is live. *)
Theorem ledger_accounting_exact limits l0 ops (H0 : NewLedger limits = Ok l0) :
  let l := foldl ledger_step l0 ops in
  0 <= l_engineFixed l ->
  l_memory l =
    map_sum (fun _ c => ownerFixedBytes + map_sum (fun _ r => OwnedBytes64 r) (c_resources c)
                + c_fixedBytes c + c_grants c * grantFixedBytes) (l_owners l)
    + waiterFixedBytes * Z.of_nat (size (l_live l)) + l_engineFixed l + l_edges l * edgeFixedBytes /\
  (unwaited l = 0 -> l_memory l <= MemoryBytes (l_limits l)) /\
  l_memory l <= MemoryBytes (l_limits l) + waiterFixedBytes * unwaited l /\
  pendingLocked l <= Waiters (l_limits l) /\
  0 <= l_edges l <= GraphWork (l_limits l) /\
  l_grants l = map_sum (fun _ c => c_grants c) (l_owners l).
Proof.
  cbn zeta. intros Hfix. pose proof (ledger_run_wf ops l0 (NewLedger_wf limits l0 H0)) as [Hc Ht [Hm Hw He]].
  split_and!; try done; try apply He; [|lia|apply Ht].
  rewrite (to_memory _ Ht). unfold raw_memory. rewrite Z.max_r.
  - do 3 f_equal. apply map_sum_ext. intros o c Ho. by apply trackedBytes_eq, (lc_charge _ Hc o).
  - assert (0 <= map_sum (fun _ c => trackedBytes c) (l_owners (foldl ledger_step l0 ops))) as Hs; [|unfold waiterFixedBytes, edgeFixedBytes; lia].
    apply map_sum_nonneg. intros o c Ho. apply trackedBytes_pos. by apply (lc_charge _ Hc o).
Qed.

Lemma ledger_accounting_exact_witness :
  exists l0, NewLedger (mkLimits 0 0 0 0) = Ok l0 /\
    l_memory (foldl ledger_step l0 [OpReserve (str "o") [row_ref "a" ModeX] true; OpCommit 1]) = 264 /\
    l_memory (foldl ledger_step l0 [OpReserve (str "o") [row_ref "a" ModeX] true; OpCommit 1])
      <= MemoryBytes (l_limits (foldl ledger_step l0 [OpReserve (str "o") [row_ref "a" ModeX] true; OpCommit 1])).
Proof.
  eexists. split; [by vm_compute|]. split; [by vm_compute|].
  pose proof (ledger_accounting_exact (mkLimits 0 0 0 0) _
    [OpReserve (str "o") [row_ref "a" ModeX] true; OpCommit 1] ltac:(by vm_compute) ltac:(by vm_compute)) as H.
  by apply H.
Defined.

(** A request the ledger refuses changes nothing but the refusal counter, and a reservation
    that is accepted and later refunded restores the owners, the live reservations, the memory
    and the grants exactly, even when other owners and reservations are in place. *)
Theorem reserve_all_or_nothing l o cs w (Hl : ledger_wf l) :
  (forall e, (Reserve l o cs w).2 = Err e ->
     exists n, (Reserve l o cs w).1 = l <| l_rejections := n |>) /\
  (forall l1 t, Reserve l o cs w = (l1, Ok t) ->
     let l2 := Release l1 t in
     l_owners l2 = l_owners l /\ l_live l2 = l_live l /\ l_memory l2 = l_memory l /\
     l_grants l2 = l_grants l).
Proof.
  split; [|intros l1 t; by apply refund_restores].
  intros e He. destruct (Reserve_cases l o cs w) as [(e' & [E|E])|(intro & _ & [(_ & _ & E)|[_ E]])];
    rewrite E in *; try done.
  - exists (l_rejections l). by destruct l.
  - by eexists.
Qed.

Definition sample_ledger : Ledger := mkLedger (mkLimits 400 10 10 10) 0 0 0 0 0 ∅ ∅ ∅ 0.

Lemma sample_ledger_wf : ledger_wf sample_ledger.
Proof. by apply (NewLedger_wf (mkLimits 400 10 10 10)). Qed.

Lemma reserve_all_or_nothing_witness :
  (exists n, (Reserve sample_ledger (str "o") [row_ref "a" ModeX; row_ref "b" ModeX;
      row_ref "c" ModeX; row_ref "d" ModeX] true).1 = sample_ledger <| l_rejections := n |>) /\
  l_owners (Release (Reserve sample_ledger (str "o") [row_ref "a" ModeX] true).1 1) = ∅.
Proof.
  split.
  - eapply (reserve_all_or_nothing sample_ledger (str "o") _ true sample_ledger_wf). by vm_compute.
  - eapply (reserve_all_or_nothing sample_ledger (str "o") [row_ref "a" ModeX] true sample_ledger_wf).
    by vm_compute.
Defined.

(** Releasing an owner removes its charge and every live reservation of it, leaves every other
    owner as it was, cannot be undone by a late [Commit] or [Release] of one of those reservations,
    and is idempotent. *)
Theorem release_owner_final l o (Hl : ledger_wf l) :
  let l' := Ledger_ReleaseOwner l o in
  l_owners l' = delete o (l_owners l) /\
  (forall t r, t ∈ l_live l' -> l_objs l' !! t = Some r -> r_ownerID r <> o) /\
  (forall t r, l_objs l !! t = Some r -> r_ownerID r = o ->
     (Commit l' t).1 = l' /\ Release l' t = l') /\
  Ledger_ReleaseOwner l' o = l'.
Proof.
  cbn zeta. pose proof (Ledger_ReleaseOwner_wf l o Hl) as Hw. rewrite !Ledger_ReleaseOwner_eq in *.
  set (l' := recompute (disowned l o)) in *.
  assert (l_owners l' = delete o (l_owners l)) as Ho.
  { unfold l'. cbn. apply map_filter_id. intros o' c [_ H]%lookup_delete_Some. cbn.
    by rewrite (to_kept _ (lw_totals _ Hl) _ _ H). }
  assert (forall t r, t ∈ l_live l' -> l_objs l' !! t = Some r -> r_ownerID r <> o) as Hlive.
  { intros t r [Hin Hn]%elem_of_difference. unfold l'. cbn. rewrite map_lookup_imap.
    destruct (l_objs l !! t) as [r0|] eqn:E; [|done]. cbn. rewrite bool_decide_eq_false_2 by done.
    intros [= <-] Hr. apply Hn, elem_of_filter. split; [|done]. unfold owned_by, obj_test.
    rewrite E. cbn. by rewrite bool_decide_eq_true_2. }
  assert (owned_live l' o = ∅) as Hol.
  { apply set_eq. intros t. split; [|set_solver]. intros [Hp Hin]%elem_of_filter.
    destruct (lc_live _ (lw_core _ Hw) t Hin) as (r & Hr & _). unfold owned_by, obj_test in Hp.
    rewrite Hr in Hp. cbn in Hp. case_bool_decide; [|done]. by destruct (Hlive t r). }
  split_and!; [done..| |].
  - intros t r Er <-.
    assert (t ∉ l_live l') as Hn.
    { intros Hin. destruct (lc_live _ (lw_core _ Hw) t Hin) as (r' & Hr' & _).
      apply (Hlive t r' Hin Hr'). unfold l' in Hr'. cbn in Hr'. rewrite map_lookup_imap, Er in Hr'.
      cbn in Hr'. by case_bool_decide; simplify_eq. }
    destruct (Commit_cases l' t (lw_core _ Hw)) as [[-> _]|(r' & _ & [[_ ->]|(? & _)])]; [| |done].
    all: split; [done|].
    all: destruct (Release_cases l' t (lw_core _ Hw)) as [?|(r2 & _ & ? & _)]; done.
  - assert (disowned l' o = l') as ->; [|by apply recompute_fixed; apply Hw].
    unfold disowned. rewrite Hol. destruct l' as [a b c d e f g h i j] eqn:El'. cbn in *. f_equal.
    + rewrite Ho. by rewrite delete_id by apply lookup_delete_eq.
    + set_solver.
    + apply map_eq. intros t. rewrite map_lookup_imap. by destruct (i !! t).
Qed.

Lemma release_owner_final_witness :
  let l := (Reserve sample_ledger (str "o") [row_ref "a" ModeX] true).1 in
  l_owners (Ledger_ReleaseOwner l (str "o")) = ∅ /\
  (Commit (Ledger_ReleaseOwner l (str "o")) 1).1 = Ledger_ReleaseOwner l (str "o").
Proof.
  set (l := (Reserve sample_ledger (str "o") [row_ref "a" ModeX] true).1).
  assert (r_ownerID <$> l_objs l !! 1 = Some (str "o")) as Ho by (by vm_compute).
  split; [by vm_compute|].
  destruct (release_owner_final l (str "o") (Reserve_wf _ _ _ true sample_ledger_wf)) as (_ & _ & H & _).
  destruct (l_objs l !! 1) as [r|] eqn:E; [|done]. apply (H 1 r E). by injection Ho.
Defined.

(** [ReleaseFixed] does not stop at zero: an over-refund is remembered and the next engine-wide
    charge is free. *)
Lemma release_fixed_below_zero :
  let l := ReleaseFixed sample_ledger 100 [] in
  l_engineFixed l = -100 /\ l_memory (ChargeFixed l 100 []).1 = 0.
Proof. by vm_compute. Qed.

(** A reservation made without the waiter accounting is checked without the 64 bytes that
    [recompute] charges for it. *)
Lemma unwaited_reservation_exceeds_budget :
  let l := mkLedger (mkLimits 200 10 10 10) 0 0 0 0 0 ∅ ∅ ∅ 0 in
  let '(l1, r) := Reserve l (str "o") [row_ref "a" ModeX] false in
  r = Ok 1 /\ MemoryBytes (l_limits l1) < l_memory l1.
Proof. by vm_compute. Qed.
