(* ===== verification/Queue.v ===== *)
(** * Lock entries and requests: [lockmanager/queue.go]

    The claims of one resource by owner with their mode index, its FIFO queue, the conflict and
    fairness tests, and the request bundles the queues refer to.

    Pointers: a [*LockRequest] or [*requestBundle] is the request's number and the heap
    ([requests]) maps it to the bundle; a [*lockRequest], one component of a bundle, is the pair of
    the request's number and the component's index ([entryID]).  The heap is passed to every
    function that follows such a pointer.  A [*lockEntry] is reached through its key in the lock
    table. *)

From stdpp Require Import gmap list sorting strings fin_maps.
From S2P Require Import Prelude LockTypes Interval Resource ScopeTree Compat.

Abbreviation entryID := (Z * nat)%type.

(** ** Requests *)

Inductive entryState : Type := entryPending | entryHeld | entryAdopted.

#[export] Instance entryState_eq_dec : EqDecision entryState. Proof. solve_decision. Defined.

Record lockRequest : Type := mkEntry {
  q_ref : ResourceRef;
  q_state : entryState;
  q_adopted : option Z;
  q_blocked : bool;
  q_dead : bool
}.

#[export] Instance lockRequest_rebuild : Rebuild lockRequest := fun q =>
  mkEntry (q_ref q) (q_state q) (q_adopted q) (q_blocked q) (q_dead q).

Definition settled (q : lockRequest) : bool := negb (bool_decide (q_state q = entryPending)).

Record LockGrant : Type := mkGrant {
  GrantID : Z;
  GrantOwnerID : bytes;
  OriginScopeID : Z;
  GrantGeneration : Z;
  GrantTerm : Z;
  GrantComponents : list ResourceRef;
  GrantedAt : Z
}.

(** The shared decision of a request; [settled] is closed exactly when [d_decided] is set. *)
Record requestState : Type := mkDecision {
  d_status : RequestStatus;
  d_decided : bool;
  d_grant : option LockGrant
}.

#[export] Instance requestState_rebuild : Rebuild requestState := fun d =>
  mkDecision (d_status d) (d_decided d) (d_grant d).

Definition newRequestState : requestState := mkDecision RequestPending false None.

Definition record (s : requestState) (status : RequestStatus) : requestState * RequestStatus :=
  if d_decided s then (s, d_status s)
  else
    let s := s <| d_status := status |> in
    let s := if Terminal status then s <| d_decided := true |> else s in
    (s, d_status s).

Definition recordGrant (s : requestState) (grant : LockGrant) : requestState :=
  if d_decided s then s else s <| d_grant := Some grant |>.

Definition resolvedGrant (s : requestState) : option LockGrant := d_grant s.

(** [LockRequest] and the bundle that owns it, one record: the bundle's [req] pointer never
    changes.  A [*scopeJoin] is the index of the join in [b_joinClosed], which says whether its
    channel is closed; [b_joins] is the map from scope to join. *)
Record requestBundle : Type := mkBundle {
  b_OwnerID : bytes;
  b_ScopeID : Z;
  b_EnqueueOrdinal : Z;
  b_RequestedAt : Z;
  b_Deadline : Z;
  b_BlockedAt : Z;
  b_Status : RequestStatus;
  b_ShouldWait : option bool;
  b_BlockerIDs : list bytes;
  b_ReservedBytes : Z;
  b_ReservationToken : Z;
  b_reservation : Z;
  b_entries : list lockRequest;
  b_held : Z;
  b_grantID : Z;
  b_blockers : list bytes;
  b_blockedByOlderWaiter : bool;
  b_decision : requestState;
  b_joins : gmap Z nat;
  b_joinClosed : list bool
}.

#[export] Instance requestBundle_rebuild : Rebuild requestBundle := fun b =>
  mkBundle (b_OwnerID b) (b_ScopeID b) (b_EnqueueOrdinal b) (b_RequestedAt b) (b_Deadline b)
    (b_BlockedAt b) (b_Status b) (b_ShouldWait b) (b_BlockerIDs b) (b_ReservedBytes b)
    (b_ReservationToken b) (b_reservation b) (b_entries b) (b_held b) (b_grantID b) (b_blockers b)
    (b_blockedByOlderWaiter b) (b_decision b) (b_joins b) (b_joinClosed b).

Definition MayWait (b : requestBundle) : bool :=
  match b_ShouldWait b with None => true | Some answer => answer end.

(** The bundle after the call and the join. *)
Definition joinFor (b : requestBundle) (scopeID : Z) : requestBundle * nat :=
  match b_joins b !! scopeID with
  | Some join => (b, join)
  | None =>
      let join := length (b_joinClosed b) in
      (b <| b_joins ::= <[scopeID := join]> |> <| b_joinClosed ::= fun l => l ++ [false] |>, join)
  end.

(** [scopeJoin.close]: closing twice is closing once. *)
Definition join_close (b : requestBundle) (join : nat) : requestBundle :=
  b <| b_joinClosed ::= <[join := true]> |>.

Definition complete (b : requestBundle) : bool := Z.of_nat (length (b_entries b)) <=? b_held b.

Definition setStatus (b : requestBundle) (status : RequestStatus) : requestBundle :=
  let '(decision, recorded) := record (b_decision b) status in
  b <| b_decision := decision |> <| b_Status := recorded |>.

Definition setGrant (b : requestBundle) (grant : LockGrant) : requestBundle :=
  b <| b_decision ::= fun d => recordGrant d grant |>.

Definition recordedGrant (b : requestBundle) : option LockGrant := resolvedGrant (b_decision b).

Definition components (b : requestBundle) : list ResourceRef := q_ref <$> b_entries b.

(** The canonical keys of the bundle's components, deduplicated and sorted. *)
Definition resourceKeys (b : requestBundle) : list bytes :=
  sort_stable bltb (remove_dups (ResourceKey ∘ q_ref <$> b_entries b)).

Abbreviation heap := (gmap Z requestBundle).

Definition deref (h : heap) (e : entryID) : option lockRequest :=
  b ← h !! e.1; b_entries b !! e.2.

Definition req_owner (h : heap) (e : entryID) : bytes := from_option b_OwnerID [] (h !! e.1).

(** Writing one field of a component through its pointer. *)
Definition on_entry (h : heap) (e : entryID) (f : lockRequest -> lockRequest) : heap :=
  alter (fun b => b <| b_entries ::= alter f e.2 |>) e.1 h.

Definition entry_ids (r : Z) (b : requestBundle) : list entryID :=
  (fun i => (r, i)) <$> seq 0 (length (b_entries b)).

Definition untrack (r : Z) (b : requestBundle) (index : gmap bytes (gset entryID))
    : gmap bytes (gset entryID) :=
  match index !! b_OwnerID b with
  | None => index
  | Some requests =>
      let requests := requests ∖ list_to_set (entry_ids r b) in
      if bool_decide (requests = ∅) then delete (b_OwnerID b) index
      else <[b_OwnerID b := requests]> index
  end.

(** ** Entries *)

Record lockClaim : Type := mkClaim {
  cl_request : Z;
  cl_mode : Mode;
  cl_ref : ResourceRef;
  cl_pending : bool
}.

#[export] Instance lockClaim_rebuild : Rebuild lockClaim := fun c =>
  mkClaim (cl_request c) (cl_mode c) (cl_ref c) (cl_pending c).

Record lockEntry : Type := mkLockEntry {
  le_ref : ResourceRef;
  le_anonID : Z;
  le_claims : gmap bytes (list lockClaim);
  le_claimedModes : gmap Mode (gset bytes);
  le_waiting : list entryID;
  le_grantID : Z
}.

#[export] Instance lockEntry_rebuild : Rebuild lockEntry := fun e =>
  mkLockEntry (le_ref e) (le_anonID e) (le_claims e) (le_claimedModes e) (le_waiting e) (le_grantID e).

Definition newLockEntry (ref : ResourceRef) : lockEntry := mkLockEntry ref 0 ∅ ∅ [] 0.

Definition claims_of (e : lockEntry) (ownerID : bytes) : list lockClaim := default [] (le_claims e !! ownerID).

Definition counted (includePending : bool) (c : lockClaim) : bool := negb (cl_pending c && negb includePending).

Definition strongest (modes : list Mode) : option Mode :=
  match modes with [] => None | _ => Some (effectiveMode modes) end.

Definition effectiveClaim (e : lockEntry) (ownerID : bytes) (includePending : bool) : option Mode :=
  strongest (cl_mode <$> filter (fun c => counted includePending c) (claims_of e ownerID)).

Definition heldMode (e : lockEntry) (ownerID : bytes) : option Mode := effectiveClaim e ownerID false.
Definition offeredMode (e : lockEntry) (ownerID : bytes) : option Mode := effectiveClaim e ownerID true.

Definition effectiveClaimOf (e : lockEntry) (ownerID : bytes) (resource : ResourceRef)
    (includePending : bool) : option Mode :=
  strongest (cl_mode <$> filter (fun c => counted includePending c && SameClaim (cl_ref c) resource)
                           (claims_of e ownerID)).

Definition heldModeOf (e : lockEntry) (ownerID : bytes) (resource : ResourceRef) : option Mode :=
  effectiveClaimOf e ownerID resource false.
Definition offeredModeOf (e : lockEntry) (ownerID : bytes) (resource : ResourceRef) : option Mode :=
  effectiveClaimOf e ownerID resource true.

Definition hasAppliedClaim (e : lockEntry) (ownerID : bytes) (want : Mode) : bool :=
  existsb (fun c => negb (cl_pending c) && negb (upgradeNeeded want (cl_mode c))) (claims_of e ownerID).

Definition indexClaim (e : lockEntry) (ownerID : bytes) (m : Mode) : lockEntry :=
  e <| le_claimedModes ::= fun idx => <[m := {[ ownerID ]} ∪ default ∅ (idx !! m)]> idx |>.

Definition addClaim (e : lockEntry) (request : Z) (ownerID : bytes) (ref : ResourceRef) (pending : bool)
    : lockEntry :=
  let e := e <| le_claims ::= fun cl =>
                <[ownerID := default [] (cl !! ownerID) ++ [mkClaim request (mode ref) ref pending]]> cl |> in
  indexClaim e ownerID (mode ref).

Definition deindexClaim (e : lockEntry) (ownerID : bytes) (m : Mode) : lockEntry :=
  match le_claimedModes e !! m with
  | None => e
  | Some owners =>
      let owners := owners ∖ {[ ownerID ]} in
      if bool_decide (owners = ∅) then e <| le_claimedModes ::= delete m |>
      else e <| le_claimedModes ::= <[m := owners]> |>
  end.

Definition claim_is (request : Z) (ref : ResourceRef) (c : lockClaim) : bool :=
  (cl_request c =? request) && SameClaim (cl_ref c) ref.

Definition applyClaim (e : lockEntry) (request : Z) (ownerID : bytes) (ref : ResourceRef)
    : lockEntry * bool :=
  match find_index (claim_is request ref) (claims_of e ownerID) with
  | None => (e, false)
  | Some i =>
      (e <| le_claims ::= <[ownerID := alter (fun c => c <| cl_pending := false |>) i (claims_of e ownerID)]> |>,
       true)
  end.

Definition ownerHoldsMode (e : lockEntry) (ownerID : bytes) (m : Mode) : bool :=
  existsb (fun c => bool_decide (cl_mode c = m)) (claims_of e ownerID).

Definition put_claims (e : lockEntry) (ownerID : bytes) (claims : list lockClaim) : lockEntry :=
  if (length claims =? 0)%nat then e <| le_claims ::= delete ownerID |>
  else e <| le_claims ::= <[ownerID := claims]> |>.

(** Swap-removal of one claim, with the mode index kept alongside: the common tail of [dropClaim]
    and [dropClaimForOwner]. *)
Definition remove_claim (e : lockEntry) (ownerID : bytes) (i : nat) (m : Mode) : lockEntry :=
  let e := put_claims e ownerID (swap_remove i (claims_of e ownerID)) in
  if negb (ownerHoldsMode e ownerID m) then deindexClaim e ownerID m else e.

Definition dropClaim (e : lockEntry) (request : Z) (ownerID : bytes) (ref : ResourceRef)
    : lockEntry * bool :=
  match find_index (claim_is request ref) (claims_of e ownerID) with
  | None => (e, false)
  | Some i =>
      match claims_of e ownerID !! i with
      | Some c => (remove_claim e ownerID i (cl_mode c), true)
      | None => (e, false)
      end
  end.

Definition dropAllClaims (e : lockEntry) (ownerID : bytes) : lockEntry * bool :=
  match le_claims e !! ownerID with
  | None => (e, false)
  | Some claims =>
      let e := e <| le_claims ::= delete ownerID |> in
      (foldl (fun e m => if negb (ownerHoldsMode e ownerID m) then deindexClaim e ownerID m else e)
         e (remove_dups (cl_mode <$> claims)), true)
  end.

(** The weakest applied claim of the named resource, the first one among equals. *)
Fixpoint weakest_applied (resource : ResourceRef) (i : nat) (best : option (nat * Mode))
    (claims : list lockClaim) : option (nat * Mode) :=
  match claims with
  | [] => best
  | c :: rest =>
      weakest_applied resource (S i)
        (if cl_pending c || negb (SameClaim (cl_ref c) resource) then best
         else match best with
              | None => Some (i, cl_mode c)
              | Some (_, m) => if modeStrength (cl_mode c) <? modeStrength m then Some (i, cl_mode c) else best
              end) rest
  end.

Definition dropClaimForOwner (e : lockEntry) (ownerID : bytes) (resource : ResourceRef)
    : lockEntry * bool :=
  match weakest_applied resource 0 None (claims_of e ownerID) with
  | None => (e, false)
  | Some (i, m) => (remove_claim e ownerID i m, true)
  end.

(** The modes offered by owners other than [skip]; the order is the map's. *)
Definition heldModes (e : lockEntry) (skip : bytes) : list Mode :=
  omap (fun kv => if bool_decide (kv.1 = skip) then None else offeredMode e kv.1) (map_to_list (le_claims e)).

Definition holderModesByOwner (e : lockEntry) : gmap bytes Mode :=
  map_imap (fun ownerID _ => offeredMode e ownerID) (le_claims e).

Definition holderMode (e : lockEntry) : Mode :=
  effectiveMode (omap (fun kv => offeredMode e kv.1) (map_to_list (le_claims e))).

Definition holderCount (e : lockEntry) : Z := Z.of_nat (size (le_claims e)).
Definition waiterCount (e : lockEntry) : Z := Z.of_nat (length (le_waiting e)).

Definition state (e : lockEntry) : LockState := Describe (holderCount e) (holderMode e) (waiterCount e).

(** ** Conflicts *)

Definition claimComponent (claim : lockClaim) (request : ResourceRef) : ResourceRef :=
  if bool_decide (Kind (cl_ref claim) = KindOther [])
  then mkIdentity 0 (Space request) (TableID request) (IndexID request) (Kind request) (Key request)
         None None false false (cl_mode claim)
  else if negb (bool_decide (mode (cl_ref claim) = cl_mode claim))
  then (cl_ref claim) <| mode := cl_mode claim |>
  else cl_ref claim.

Definition ownerConflicts (e : lockEntry) (ownerID : bytes) (request : ResourceRef) : bool :=
  existsb (fun claim => componentsConflict request (claimComponent claim request)) (claims_of e ownerID).

Definition conflictingHolders (e : lockEntry) (request : ResourceRef) (skip : bytes) : list bytes :=
  sort_stable bltb
    (omap (fun kv => if bool_decide (kv.1 = skip) then None
                     else if ownerConflicts e kv.1 request then Some kv.1 else None)
       (map_to_list (le_claims e))).

Definition ownerBlocksWith (e : lockEntry) (ownerID : bytes) (m : Mode) (entry : entryID)
    (ref : ResourceRef) : bool :=
  existsb (fun claim =>
    bool_decide (cl_mode claim = m) && negb (cl_request claim =? entry.1) && negb (cl_pending claim)
    && componentsConflict ref (claimComponent claim ref)) (claims_of e ownerID).

(** The owner of a bucket of the mode index that blocks the entry. *)
Definition bucket_blocks (e : lockEntry) (m : Mode) (owner ownerID : bytes) (entry : entryID)
    (ref : ResourceRef) : bool :=
  if bool_decide (ownerID = owner) then false else ownerBlocksWith e ownerID m entry ref.

Definition blockingClaims `{MapRange} (e : lockEntry) (owner : bytes) (entry : entryID)
    (ref : ResourceRef) : list bytes :=
  sort_stable bltb
    (mjoin ((fun kv => filter (fun ownerID => bucket_blocks e kv.1 owner ownerID entry ref) (elements kv.2))
       <$> range 0 (le_claimedModes e))).

Definition hasBlockingClaims (e : lockEntry) (owner : bytes) (entry : entryID) (ref : ResourceRef) : bool :=
  existsb (fun kv => existsb (fun ownerID => bucket_blocks e kv.1 owner ownerID entry ref) (elements kv.2))
    (map_to_list (le_claimedModes e)).

Definition sameBundleRequest (a b : entryID) : bool := a.1 =? b.1.

(** The candidates of a queue that stand before [self] and would be hindered by [request]. *)
Fixpoint older_in (h : heap) (waiting : list entryID) (self : entryID) (request : ResourceRef)
    : list entryID :=
  match waiting with
  | [] => []
  | candidate :: rest =>
      if bool_decide (candidate = self) then []
      else
        let older := older_in h rest self request in
        match deref h candidate with
        | None => older
        | Some q =>
            if q_dead q then older
            else if sameBundleRequest candidate self then older
            else if componentsConflict request (q_ref q) then candidate :: older else older
        end
  end.

Definition olderBlockers (h : heap) (e : lockEntry) (self : entryID) (request : ResourceRef)
    : list entryID := older_in h (le_waiting e) self request.

Fixpoint ahead_in (h : heap) (waiting : list entryID) (self : entryID) (request : ResourceRef) : bool :=
  match waiting with
  | [] => false
  | candidate :: rest =>
      if bool_decide (candidate = self) then false
      else
        match deref h candidate with
        | None => ahead_in h rest self request
        | Some q =>
            if q_dead q then ahead_in h rest self request
            else if sameBundleRequest candidate self then ahead_in h rest self request
            else if componentsConflict request (q_ref q) then true else ahead_in h rest self request
        end
  end.

Definition waitersAhead (h : heap) (e : lockEntry) (self : entryID) (request : ResourceRef) : bool :=
  ahead_in h (le_waiting e) self request.

Definition immediateConflict (h : heap) (e : lockEntry) (candidate : entryID) (ref : ResourceRef) : bool :=
  (0 <? length (conflictingHolders e ref (req_owner h candidate)))%nat || waitersAhead h e candidate ref.

Definition claimAppliedFor (e : lockEntry) (request : Z) (ownerID : bytes) (ref : ResourceRef) : bool :=
  match find (claim_is request ref) (claims_of e ownerID) with
  | Some claim => negb (cl_pending claim)
  | None => false
  end.

(** The loop of [adoptableOwnClaim]: whether the entry may not be granted now, and the earlier
    request it is settled against. *)
Fixpoint adoptable_in (h : heap) (e : lockEntry) (waiting : list entryID) (entry : entryID)
    (ref : ResourceRef) : bool * option Z :=
  match waiting with
  | [] => (false, None)
  | earlier :: rest =>
      if bool_decide (earlier = entry) then (false, None)
      else
        match deref h earlier with
        | None => adoptable_in h e rest entry ref
        | Some q =>
            if q_dead q then adoptable_in h e rest entry ref
            else if negb (bool_decide (req_owner h earlier = req_owner h entry))
            then adoptable_in h e rest entry ref
            else if negb (SameClaim (q_ref q) ref) then adoptable_in h e rest entry ref
            else if upgradeNeeded (mode ref) (mode (q_ref q)) then adoptable_in h e rest entry ref
            else if negb (claimAppliedFor e earlier.1 (req_owner h earlier) (q_ref q)) then (true, None)
            else (true, Some earlier.1)
        end
  end.

Definition adoptableOwnClaim (h : heap) (e : lockEntry) (entry : entryID) (ref : ResourceRef)
    : heap * bool :=
  match adoptable_in h e (le_waiting e) entry ref with
  | (answer, None) => (h, answer)
  | (answer, Some earlier) =>
      (on_entry h entry (fun q => q <| q_state := entryAdopted |> <| q_adopted := Some earlier |>), answer)
  end.

Definition enqueue (e : lockEntry) (entry : entryID) : lockEntry :=
  e <| le_waiting ::= fun w => w ++ [entry] |>.

Definition remove (e : lockEntry) (target : entryID) : lockEntry :=
  match find_index (fun x => bool_decide (x = target)) (le_waiting e) with
  | None => e
  | Some i => e <| le_waiting ::= fun w => take i w ++ drop (S i) w |>
  end.

Definition grantable (h : heap) (e : lockEntry) (candidate : entryID) (ref : ResourceRef) : heap * bool :=
  if hasBlockingClaims e (req_owner h candidate) candidate ref then (h, false)
  else if waitersAhead h e candidate ref then
    (alter (fun b => b <| b_blockedByOlderWaiter := true |>) candidate.1 h, false)
  else
    let '(h, held_back) := adoptableOwnClaim h e candidate ref in
    (h, negb held_back).

(** ** The lock table *)

Abbreviation lockTable := (gmap bytes lockEntry).

(** [entryFor] makes the entry exist; it is then read at its key. *)
Definition entryFor (t : lockTable) (ref : ResourceRef) : lockTable :=
  match t !! ResourceKey ref with
  | Some _ => t
  | None => <[ResourceKey ref := newLockEntry ref]> t
  end.

Definition release (t : lockTable) (key : bytes) : lockTable :=
  match t !! key with
  | Some entry =>
      if bool_decide (le_claims entry = ∅) && (length (le_waiting entry) =? 0)%nat
      then delete key t else t
  | None => t
  end.

(** ** The mode index is exact *)

(** The owners indexed at one mode. *)
Definition bucket (e : lockEntry) (m : Mode) : gset bytes := default ∅ (le_claimedModes e !! m).

Definition has_mode (e : lockEntry) (o : bytes) (m : Mode) : Prop :=
  exists c, c ∈ claims_of e o /\ cl_mode c = m.

Record indexed (e : lockEntry) : Prop := {
  ix_nonempty o : le_claims e !! o <> Some [];
  ix_bucket m s : le_claimedModes e !! m = Some s -> s <> ∅;
  ix_exact o m : o ∈ bucket e m <-> has_mode e o m
}.

Lemma newLockEntry_indexed ref : indexed (newLockEntry ref).
Proof.
  split; cbn; [by intros o; rewrite lookup_empty|by intros m s; rewrite lookup_empty|].
  intros o m. unfold bucket, has_mode, claims_of. cbn. rewrite !lookup_empty. cbn. set_solver.
Qed.

Lemma ownerHoldsMode_spec e o m : ownerHoldsMode e o m = true <-> has_mode e o m.
Proof.
  unfold ownerHoldsMode, has_mode. rewrite existsb_exists. split.
  - intros (c & Hc & Hm). bool_prop. exists c. by rewrite list_elem_of_In.
  - intros (c & Hc & Hm). exists c. rewrite <- list_elem_of_In. by rewrite bool_decide_eq_true_2.
Qed.

Lemma bucket_indexClaim e o m o' m' :
  o' ∈ bucket (indexClaim e o m) m' <-> (o' = o /\ m' = m) \/ o' ∈ bucket e m'.
Proof.
  unfold bucket, indexClaim. cbn. destruct (decide (m' = m)) as [->|Hne].
  - rewrite lookup_insert_eq. cbn. rewrite elem_of_union, elem_of_singleton. tauto.
  - rewrite lookup_insert_ne by done. tauto.
Qed.

Lemma bucket_deindexClaim e o m o' m' :
  o' ∈ bucket (deindexClaim e o m) m' <-> o' ∈ bucket e m' /\ ~ (o' = o /\ m' = m).
Proof.
  unfold bucket, deindexClaim. destruct (le_claimedModes e !! m) as [s|] eqn:E.
  - case_bool_decide as Hs; cbn; (destruct (decide (m' = m)) as [->|Hne]);
      rewrite ?lookup_delete_eq, ?lookup_insert_eq, ?lookup_delete_ne, ?lookup_insert_ne, ?E by done; cbn;
      [set_solver|tauto|set_solver|tauto].
  - destruct (decide (m' = m)) as [->|Hne]; [rewrite E; cbn; set_solver|tauto].
Qed.

Lemma buckets_deindexClaim e o m :
  (forall m' s, le_claimedModes e !! m' = Some s -> s <> ∅) ->
  forall m' s, le_claimedModes (deindexClaim e o m) !! m' = Some s -> s <> ∅.
Proof.
  intros Hb m' s. unfold deindexClaim. destruct (le_claimedModes e !! m) as [s0|] eqn:E; [|apply Hb].
  case_bool_decide as Hs; cbn.
  - intros [_ ?]%lookup_delete_Some. by eapply Hb.
  - intros [[<- <-]|[_ ?]]%lookup_insert_Some; [done|by eapply Hb].
Qed.

Lemma claims_deindexClaim e o m : le_claims (deindexClaim e o m) = le_claims e.
Proof. unfold deindexClaim. case_match; [|done]. by case_match. Qed.

Lemma waiting_deindexClaim e o m : le_waiting (deindexClaim e o m) = le_waiting e.
Proof. unfold deindexClaim. case_match; [|done]. by case_match. Qed.

(** Replacing one owner's claims. *)
Lemma claims_of_insert e o l o' :
  claims_of (e <| le_claims ::= <[o := l]> |>) o' = if decide (o' = o) then l else claims_of e o'.
Proof.
  unfold claims_of. cbn. case_decide as H; [subst; by rewrite lookup_insert_eq|].
  by rewrite lookup_insert_ne.
Qed.

Lemma claims_of_delete e o o' :
  claims_of (e <| le_claims ::= delete o |>) o' = if decide (o' = o) then [] else claims_of e o'.
Proof.
  unfold claims_of. cbn. case_decide as H; [subst; by rewrite lookup_delete_eq|].
  by rewrite lookup_delete_ne.
Qed.

Lemma claims_of_addClaim e r o ref p o' :
  claims_of (addClaim e r o ref p) o' =
  if decide (o' = o) then claims_of e o ++ [mkClaim r (mode ref) ref p] else claims_of e o'.
Proof. unfold addClaim. apply (claims_of_insert e o). Qed.

Lemma addClaim_indexed e r o ref p : indexed e -> indexed (addClaim e r o ref p).
Proof.
  intros [Hn Hb He]. split.
  - intros o'. cbn. destruct (decide (o' = o)) as [->|Hne].
    + rewrite lookup_insert_eq. by intros [= [_ ?]%app_nil].
    + rewrite lookup_insert_ne by done. apply Hn.
  - intros m s. cbn. intros [[<- <-]|[_ ?]]%lookup_insert_Some; [set_solver|by eapply Hb].
  - intros o' m. unfold addClaim. rewrite bucket_indexClaim. unfold has_mode.
    setoid_rewrite claims_of_insert. change (bucket (e <| le_claims ::= _ |>) m) with (bucket e m).
    rewrite He. unfold has_mode. case_decide as H; [subst o'|split; [by intros [[? _]|?]|by right]].
    setoid_rewrite elem_of_app. setoid_rewrite list_elem_of_singleton. split.
    + intros [[_ ->]|(c & Hc & <-)]; [|by eauto]. eexists. split; [by right|done].
    + intros (c & [Hc| ->] & <-); [right; eauto|by left].
Qed.

Lemma claims_of_applyClaim e r o ref e' :
  applyClaim e r o ref = (e', true) ->
  exists i c, claims_of e o !! i = Some c /\ cl_request c = r /\ SameClaim (cl_ref c) ref = true /\
    forall o', claims_of e' o' =
      if decide (o' = o) then <[i := c <| cl_pending := false |>]> (claims_of e o) else claims_of e o'.
Proof.
  unfold applyClaim. destruct (find_index _ _) as [i|] eqn:E; [|done]. intros [<- _]%pair_equal_spec.
  apply find_index_Some in E as (c & Hc & Hp & _). unfold claim_is in Hp. bool_prop.
  exists i, c. split_and!; [done..|]. intros o'. rewrite claims_of_insert.
  case_decide; [|done]. apply list_eq. intros j. destruct (decide (i = j)) as [<-|Hne].
  - by rewrite list_lookup_alter_eq, Hc, list_lookup_insert_eq by (by eapply lookup_lt_Some).
  - by rewrite list_lookup_alter_ne, list_lookup_insert_ne.
Qed.

(** A change of one owner's claims that keeps the modes it holds. *)
Lemma indexed_same_modes e o l :
  indexed e -> l <> [] -> (forall m, (exists c, c ∈ l /\ cl_mode c = m) <-> has_mode e o m) ->
  indexed (e <| le_claims ::= <[o := l]> |>).
Proof.
  intros [Hn Hb He] Hl Hm. split; [|done|].
  - intros o'. cbn. destruct (decide (o' = o)) as [->|Hne].
    + rewrite lookup_insert_eq. congruence.
    + rewrite lookup_insert_ne by done. apply Hn.
  - intros o' m. change (bucket _ m) with (bucket e m). rewrite He. unfold has_mode at 2.
    setoid_rewrite claims_of_insert. case_decide as H; [subst o'; by rewrite Hm|done].
Qed.

Lemma insert_pending_modes (l : list lockClaim) i c m :
  l !! i = Some c ->
  (exists c', c' ∈ <[i := c <| cl_pending := false |>]> l /\ cl_mode c' = m) <->
  (exists c', c' ∈ l /\ cl_mode c' = m).
Proof.
  intros Hi. pose proof (lookup_lt_Some _ _ _ Hi) as Hlt. split; intros (c' & [j Hj]%list_elem_of_lookup & Hm).
  - destruct (decide (i = j)) as [<-|Hne].
    + rewrite list_lookup_insert_eq in Hj by done. injection Hj as <-. exists c.
      split; [by eapply list_elem_of_lookup_2|done].
    + rewrite list_lookup_insert_ne in Hj by done. exists c'. split; [by eapply list_elem_of_lookup_2|done].
  - destruct (decide (i = j)) as [<-|Hne].
    + exists (c <| cl_pending := false |>). assert (c' = c) as -> by congruence. split; [|done].
      apply (list_elem_of_lookup_2 _ i). by apply list_lookup_insert_eq.
    + exists c'. split; [|done]. apply (list_elem_of_lookup_2 _ j). by rewrite list_lookup_insert_ne.
Qed.

Lemma applyClaim_indexed e r o ref : indexed e -> indexed (applyClaim e r o ref).1.
Proof.
  intros He. unfold applyClaim. destruct (find_index _ _) as [i|] eqn:E; [|done]. cbn.
  apply find_index_Some in E as (c & Hc & _). pose proof (lookup_lt_Some _ _ _ Hc) as Hlt.
  replace (alter _ i (claims_of e o)) with (<[i := c <| cl_pending := false |>]> (claims_of e o)).
  - apply indexed_same_modes; [done| |intros m; by apply insert_pending_modes].
    intros Hnil%(f_equal length). rewrite length_insert in Hnil. cbn in Hnil. lia.
  - apply list_eq. intros j. destruct (decide (i = j)) as [<-|Hne].
    + by rewrite list_lookup_alter_eq, Hc, list_lookup_insert_eq.
    + by rewrite list_lookup_alter_ne, list_lookup_insert_ne.
Qed.

Lemma claims_of_put_claims e o l o' :
  claims_of (put_claims e o l) o' = if decide (o' = o) then l else claims_of e o'.
Proof.
  unfold put_claims. destruct (length l =? 0)%nat eqn:E; [|apply claims_of_insert].
  rewrite claims_of_delete. apply Nat.eqb_eq, nil_length_inv in E. by rewrite E.
Qed.

Lemma put_claims_nonempty e o l o' :
  (forall o, le_claims e !! o <> Some []) -> le_claims (put_claims e o l) !! o' <> Some [].
Proof.
  intros Hn. unfold put_claims. destruct (length l =? 0)%nat eqn:E; cbn.
  - intros [_ ?]%lookup_delete_Some. by eapply Hn.
  - intros [[<- Hl]|[_ ?]]%lookup_insert_Some; [by rewrite Hl in E|by eapply Hn].
Qed.

Lemma modes_put_claims e o l : le_claimedModes (put_claims e o l) = le_claimedModes e.
Proof. unfold put_claims. by case_match. Qed.

Lemma waiting_put_claims e o l : le_waiting (put_claims e o l) = le_waiting e.
Proof. unfold put_claims. by case_match. Qed.

Lemma claims_of_remove_claim e o i m o' :
  claims_of (remove_claim e o i m) o' =
  if decide (o' = o) then swap_remove i (claims_of e o) else claims_of e o'.
Proof.
  unfold remove_claim. cbn zeta. rewrite <- claims_of_put_claims.
  destruct (negb _); [|done]. unfold claims_of. by rewrite claims_deindexClaim.
Qed.

Lemma waiting_remove_claim e o i m : le_waiting (remove_claim e o i m) = le_waiting e.
Proof.
  unfold remove_claim. cbn zeta. destruct (negb _); rewrite ?waiting_deindexClaim; apply waiting_put_claims.
Qed.

(** Taking a mode out of the index when the owner has no claim left at it. *)
Lemma deindex_exact e o m :
  (forall o, le_claims e !! o <> Some []) ->
  (forall m s, le_claimedModes e !! m = Some s -> s <> ∅) ->
  (forall o' m', o' ∈ bucket e m' <-> has_mode e o' m' \/ (o' = o /\ m' = m)) ->
  indexed (if negb (ownerHoldsMode e o m) then deindexClaim e o m else e).
Proof.
  intros Hn Hb He. destruct (ownerHoldsMode e o m) eqn:Eo; cbn [negb].
  - apply ownerHoldsMode_spec in Eo. split; [done..|]. intros o' m'. rewrite He.
    split; [by intros [?|[-> ->]]|by left].
  - assert (~ has_mode e o m) as Hno by (rewrite <- ownerHoldsMode_spec, Eo; done).
    split; [by rewrite claims_deindexClaim|by apply buckets_deindexClaim|].
    intros o' m'. rewrite bucket_deindexClaim, He. unfold has_mode at 2. unfold claims_of.
    rewrite claims_deindexClaim. fold (claims_of e o'). fold (has_mode e o' m'). split.
    + intros [[?|?] Hd]; [done|by destruct Hd].
    + intros H. split; [by left|]. by intros [-> ->].
Qed.

(** [remove_claim] keeps the index exact: the mode leaves the index with its last claim. *)
Lemma remove_claim_indexed e o i c :
  indexed e -> claims_of e o !! i = Some c -> indexed (remove_claim e o i (cl_mode c)).
Proof.
  intros [Hn Hb He] Hi. pose proof (swap_remove_perm _ _ _ Hi) as Hperm. unfold remove_claim. cbn zeta.
  set (l := swap_remove i (claims_of e o)) in *. apply deindex_exact.
  - intros o'. by apply put_claims_nonempty.
  - intros m s. rewrite modes_put_claims. apply Hb.
  - intros o' m. unfold bucket. rewrite modes_put_claims. fold (bucket e m). rewrite He. unfold has_mode.
    rewrite claims_of_put_claims. destruct (decide (o' = o)) as [->|Hne].
    + setoid_rewrite <- Hperm. setoid_rewrite elem_of_cons. split.
      * intros (x & [-> |Hx] & <-); [by right|left; eauto].
      * intros [(x & Hx & <-)|[_ ->]]; eauto.
    + split; [by left|]. intros [?|[? _]]; done.
Qed.

Lemma dropClaim_cases e r o ref :
  dropClaim e r o ref = (e, false) /\ Forall (fun c => claim_is r ref c = false) (claims_of e o) \/
  exists i c, claims_of e o !! i = Some c /\ claim_is r ref c = true /\
    dropClaim e r o ref = (remove_claim e o i (cl_mode c), true).
Proof.
  unfold dropClaim. destruct (find_index _ _) as [i|] eqn:E.
  - right. apply find_index_Some in E as (c & Hc & Hp & _). exists i, c. by rewrite Hc.
  - left. split; [done|]. by apply find_index_None.
Qed.

Lemma dropClaim_indexed e r o ref : indexed e -> indexed (dropClaim e r o ref).1.
Proof.
  intros He. destruct (dropClaim_cases e r o ref) as [[-> _]|(i & c & Hi & _ & ->)]; [done|].
  by apply remove_claim_indexed.
Qed.

Lemma weakest_applied_sound resource l i best j m :
  weakest_applied resource i best l = Some (j, m) ->
  best = Some (j, m) \/ (i <= j)%nat /\ exists c, l !! (j - i)%nat = Some c /\ cl_mode c = m /\
    cl_pending c = false /\ SameClaim (cl_ref c) resource = true.
Proof.
  revert i best. induction l as [|c l IH]; intros i best; cbn; [by left|].
  intros H. destruct (IH _ _ H) as [Hb|(Hle & c' & Hc & Hp)].
  - destruct (cl_pending c || _) eqn:Ep; [by left|]. bool_prop.
    destruct best as [[j' m']|]; [case_match; [|by left]|]; injection Hb as <- <-;
      right; (split; [lia|]); exists c; by rewrite Nat.sub_diag.
  - right. split; [lia|]. exists c'. by replace (j - i)%nat with (S (j - S i)) by lia.
Qed.

Lemma dropClaimForOwner_cases e o resource :
  dropClaimForOwner e o resource = (e, false) \/
  exists i c, claims_of e o !! i = Some c /\ cl_pending c = false /\
    SameClaim (cl_ref c) resource = true /\
    dropClaimForOwner e o resource = (remove_claim e o i (cl_mode c), true).
Proof.
  unfold dropClaimForOwner. destruct (weakest_applied _ _ _ _) as [[i m]|] eqn:E; [|by left].
  right. apply weakest_applied_sound in E as [?|(_ & c & Hc & <- & Hp & Hs)]; [done|].
  rewrite Nat.sub_0_r in Hc. by exists i, c.
Qed.

Lemma dropClaimForOwner_indexed e o resource : indexed e -> indexed (dropClaimForOwner e o resource).1.
Proof.
  intros He. destruct (dropClaimForOwner_cases e o resource) as [->|(i & c & Hi & _ & _ & ->)]; [done|].
  by apply remove_claim_indexed.
Qed.

Lemma dropAllClaims_claims e o :
  forall o', claims_of (dropAllClaims e o).1 o' = if decide (o' = o) then [] else claims_of e o'.
Proof.
  intros o'. unfold dropAllClaims. destruct (le_claims e !! o) as [l|] eqn:E; cbn [fst].
  - assert (forall ms e0, le_claims (foldl (fun e m => if negb (ownerHoldsMode e o m)
      then deindexClaim e o m else e) e0 ms) = le_claims e0) as H.
    { induction ms as [|m ms IH]; intros e0; cbn; [done|]. rewrite IH.
      destruct (negb _); [apply claims_deindexClaim|done]. }
    unfold claims_of. rewrite H. apply (claims_of_delete e o).
  - case_decide as Hd; [|done]. subst. unfold claims_of. by rewrite E.
Qed.

Lemma dropAllClaims_waiting e o : le_waiting (dropAllClaims e o).1 = le_waiting e.
Proof.
  unfold dropAllClaims. destruct (le_claims e !! o) as [l|]; [|done]. cbn [fst].
  set (e0 := e <| le_claims ::= delete o |>). change (le_waiting e) with (le_waiting e0).
  generalize e0 as x. induction (remove_dups _) as [|m ms IH]; intros x; cbn; [done|].
  rewrite IH. destruct (negb _); [apply waiting_deindexClaim|done].
Qed.

(** One owner's modes leave the index one by one. *)
Lemma deindex_fold_exact e o ms :
  NoDup ms -> (forall o, le_claims e !! o <> Some []) ->
  (forall m s, le_claimedModes e !! m = Some s -> s <> ∅) ->
  (forall m, ~ has_mode e o m) ->
  (forall o' m', o' ∈ bucket e m' <-> has_mode e o' m' \/ (o' = o /\ m' ∈ ms)) ->
  indexed (foldl (fun e m => if negb (ownerHoldsMode e o m) then deindexClaim e o m else e) e ms).
Proof.
  intros Hnd. revert e. induction Hnd as [|m ms Hm Hnd IH]; intros e Hn Hb Hno He; cbn [foldl].
  - split; [done..|]. intros o' m'. rewrite He. split; [intros [?|[_ []%not_elem_of_nil]]; done|by left].
  - assert (ownerHoldsMode e o m = false) as -> by (apply not_true_is_false; by rewrite ownerHoldsMode_spec).
    cbn [negb]. assert (forall o' m', has_mode (deindexClaim e o m) o' m' <-> has_mode e o' m') as Hhm
      by (intros; unfold has_mode, claims_of; by rewrite claims_deindexClaim).
    apply IH.
    + intros o'. by rewrite claims_deindexClaim.
    + by apply buckets_deindexClaim.
    + intros m'. by rewrite Hhm.
    + intros o' m'. rewrite bucket_deindexClaim, He, Hhm, elem_of_cons. split.
      * intros [[?|[-> [-> |?]]] Hd]; [by left|by destruct Hd|by right].
      * intros [H|[-> H]]; (split; [auto|]).
        -- intros [-> _]. by apply (Hno m').
        -- intros [_ ->]. done.
Qed.

Lemma dropAllClaims_indexed e o : indexed e -> indexed (dropAllClaims e o).1.
Proof.
  intros [Hn Hb He]. unfold dropAllClaims. destruct (le_claims e !! o) as [l|] eqn:E; [|done]. cbn [fst].
  set (e0 := e <| le_claims ::= delete o |>).
  assert (forall o', claims_of e0 o' = if decide (o' = o) then [] else claims_of e o') as Hcl
    by apply claims_of_delete.
  apply deindex_fold_exact.
  - apply NoDup_remove_dups.
  - intros o'. cbn. intros [_ ?]%lookup_delete_Some. by eapply Hn.
  - apply Hb.
  - intros m (c & Hc & _). rewrite Hcl, decide_True in Hc by done. by apply not_elem_of_nil in Hc.
  - intros o' m. change (bucket e0 m) with (bucket e m). rewrite He. unfold has_mode. rewrite Hcl.
    rewrite elem_of_remove_dups, list_elem_of_fmap. case_decide as Hd.
    + subst o'. unfold claims_of. rewrite E. cbn. split.
      * intros (c & Hc & <-). right. eauto.
      * intros [(c & []%not_elem_of_nil & _)|(_ & c & -> & Hc)]. eauto.
    + split; [by left|]. by intros [?|[? _]].
Qed.

(** ** The fair pass's questions, answered claim by claim *)

(** A claim of another owner's that is applied and conflicts with a component. *)
Definition blocks (e : lockEntry) (owner : bytes) (entry : entryID) (ref : ResourceRef)
    (o : bytes) (c : lockClaim) : Prop :=
  o <> owner /\ c ∈ claims_of e o /\ cl_pending c = false /\ cl_request c <> entry.1 /\
    componentsConflict ref (claimComponent c ref) = true.

Lemma bucket_blocks_spec e m owner o entry ref :
  bucket_blocks e m owner o entry ref = true <->
  exists c, cl_mode c = m /\ blocks e owner entry ref o c.
Proof.
  unfold bucket_blocks, blocks. case_bool_decide as Ho.
  - split; [done|]. by intros (c & _ & ? & _).
  - unfold ownerBlocksWith. rewrite existsb_exists. split.
    + intros (c & Hc & Hp). bool_prop. exists c. rewrite list_elem_of_In. by split_and!.
    + intros (c & Hm & _ & Hc & Hp & Hr & Hcf). exists c. rewrite <- list_elem_of_In.
      split; [done|]. rewrite bool_decide_eq_true_2, Hp, Hcf by done. cbn.
      by rewrite (proj2 (Z.eqb_neq _ _) Hr).
Qed.

(** The scan over the mode index finds exactly what a scan over every claim would. *)
Lemma hasBlockingClaims_spec e owner entry ref :
  indexed e ->
  hasBlockingClaims e owner entry ref = true <-> exists o c, blocks e owner entry ref o c.
Proof.
  intros He. unfold hasBlockingClaims. rewrite existsb_exists. split.
  - intros ([m s] & _ & Hs). apply existsb_exists in Hs as (o & _ & Hb).
    apply bucket_blocks_spec in Hb as (c & _ & Hb). by exists o, c.
  - intros (o & c & Hb). pose proof Hb as (_ & Hc & _).
    assert (o ∈ bucket e (cl_mode c)) as Hin by (apply (ix_exact _ He); by exists c).
    unfold bucket in Hin. destruct (le_claimedModes e !! cl_mode c) as [s|] eqn:E; [|set_solver].
    cbn in Hin. exists (cl_mode c, s). rewrite <- list_elem_of_In, elem_of_map_to_list. split; [done|].
    apply existsb_exists. exists o. rewrite <- list_elem_of_In, elem_of_elements. split; [done|].
    apply bucket_blocks_spec. by exists c.
Qed.

Lemma elem_of_mjoin_list {A} (x : A) (ls : list (list A)) : x ∈ mjoin ls <-> exists l, l ∈ ls /\ x ∈ l.
Proof. rewrite list_elem_of_join. split; intros (l & ? & ?); by exists l. Qed.

Lemma elem_of_blockingClaims `{MapRange} e owner entry ref o :
  indexed e -> o ∈ blockingClaims e owner entry ref <-> exists c, blocks e owner entry ref o c.
Proof.
  intros He. unfold blockingClaims. rewrite sort_stable_perm, elem_of_mjoin_list. split.
  - intros (l & Hl & Ho). apply list_elem_of_fmap in Hl as ([m s] & -> & _).
    apply list_elem_of_filter in Ho as [Hb%Is_true_true _]. apply bucket_blocks_spec in Hb as (c & _ & Hb).
    by exists c.
  - intros (c & Hb). pose proof Hb as (_ & Hc & _).
    assert (o ∈ bucket e (cl_mode c)) as Hin by (apply (ix_exact _ He); by exists c).
    unfold bucket in Hin. destruct (le_claimedModes e !! cl_mode c) as [s|] eqn:E; [|set_solver].
    eexists. split; [apply list_elem_of_fmap; exists (cl_mode c, s); split; [done|by apply elem_of_range]|].
    apply list_elem_of_filter. cbn. rewrite elem_of_elements. split; [|done].
    apply Is_true_true, bucket_blocks_spec. by exists c.
Qed.

(** An older waiter of another request that is alive and would be hindered. *)
Definition hinders (h : heap) (self c : entryID) (request : ResourceRef) : Prop :=
  c.1 <> self.1 /\ exists q, deref h c = Some q /\ q_dead q = false /\
    componentsConflict request (q_ref q) = true.

Lemma older_in_spec h w self request c :
  c ∈ older_in h w self request <->
  hinders h self c request /\ exists i, w !! i = Some c /\ (forall j, (j <= i)%nat -> w !! j <> Some self).
Proof.
  induction w as [|x w IH]; cbn [older_in].
  - split; [by intros ?%not_elem_of_nil|]. by intros (_ & i & Hi & _).
  - case_bool_decide as Hx.
    + split; [by intros ?%not_elem_of_nil|]. intros (_ & i & _ & Hj). subst.
      by destruct (Hj 0%nat ltac:(lia)).
    + assert (c ∈ older_in h w self request <-> hinders h self c request /\
    exists i, (x :: w) !! S i = Some c /\ (forall j, (j <= S i)%nat -> (x :: w) !! j <> Some self)) as IH'.
      { rewrite IH. apply and_iff_compat_l. split; intros (i & Hi & Hj); exists i; (split; [done|]).
        - intros [|j] Hle; cbn; [congruence|]. apply Hj. lia.
        - intros j Hle. apply (Hj (S j)). lia. }
      assert (hinders h self x request <-> exists q, deref h x = Some q /\ q_dead q = false /\
    sameBundleRequest x self = false /\ componentsConflict request (q_ref q) = true) as Hhx.
      { unfold hinders, sameBundleRequest. split.
        - intros (Hne & q & ? & ? & ?). exists q. by rewrite Z.eqb_neq.
        - intros (q & ? & ? & ?%Z.eqb_neq & ?). split; [done|]. by exists q. }
      assert (c ∈ older_in h w self request \/ (c = x /\ hinders h self x request) <->
        hinders h self c request /\ exists i, (x :: w) !! i = Some c /\
    (forall j, (j <= i)%nat -> (x :: w) !! j <> Some self)) as Hgoal.
      { rewrite IH'. split.
        - intros [(Hh & i & ? & ?)|[-> Hh]]; (split; [done|]); [by exists (S i)|].
          exists 0%nat. split; [done|]. intros j Hj. assert (j = 0)%nat as -> by lia. cbn. congruence.
        - intros (Hh & [|i] & Hi & Hj); [right|left; split; [done|by exists i]].
          cbn in Hi. injection Hi as ->. done. }
      rewrite <- Hgoal, Hhx. clear IH IH' Hhx Hgoal.
      assert (forall P : Prop, ~ P -> c ∈ older_in h w self request <->
        c ∈ older_in h w self request \/ (c = x /\ P)) as Hno.
      { intros P HP. split; [by left|]. by intros [?|[_ ?]]. }
      destruct (deref h x) as [q|]; [|apply Hno; by intros (q & ? & _)].
      destruct (q_dead q) eqn:Ed; [apply Hno; intros (q' & [= <-] & ? & _); congruence|].
      destruct (sameBundleRequest x self) eqn:Es; [apply Hno; by intros (q' & _ & _ & ? & _)|].
      destruct (componentsConflict request (q_ref q)) eqn:Ec;
        [|apply Hno; intros (q' & [= <-] & _ & _ & ?); congruence].
      rewrite elem_of_cons. split; [intros [->|?]; [right|by left]|intros [?|[-> _]]; [by right|by left]].
      split; [done|]. by exists q.
Qed.

(** The yes/no form and the reporting form of the fairness rule agree. *)
Lemma ahead_in_older h w self request :
  ahead_in h w self request = negb (bool_decide (older_in h w self request = [])).
Proof.
  induction w as [|x w IH]; cbn [ahead_in older_in]; [done|].
  destruct (bool_decide (x = self)); [done|].
  destruct (deref h x) as [q|]; [|done]. destruct (q_dead q); [done|].
  destruct (sameBundleRequest x self); [done|]. by destruct (componentsConflict request (q_ref q)).
Qed.

Lemma waitersAhead_spec h e self request :
  waitersAhead h e self request = true <-> exists c, c ∈ olderBlockers h e self request.
Proof.
  unfold waitersAhead, olderBlockers. rewrite ahead_in_older, negb_true_iff, bool_decide_eq_false.
  destruct (older_in h (le_waiting e) self request) as [|c l].
  - split; [by intros []|]. by intros [c []%not_elem_of_nil].
  - split; [|done]. intros _. exists c. by left.
Qed.

(** What [conflictingHolders] leaves out conflicts with nothing another owner claims. *)
Lemma conflictingHolders_nil e ref skip :
  conflictingHolders e ref skip = [] <->
  forall o c, o <> skip -> c ∈ claims_of e o -> componentsConflict ref (claimComponent c ref) = false.
Proof.
  assert (forall o, o ∈ conflictingHolders e ref skip <-> o <> skip /\ ownerConflicts e o ref = true) as Hel.
  { intros o. unfold conflictingHolders. rewrite sort_stable_perm, list_elem_of_omap. split.
    - intros ([o' l] & Hin%elem_of_map_to_list & Ho). cbn in Ho.
      case_bool_decide; [done|]. destruct (ownerConflicts e o' ref) eqn:E; [|done].
      injection Ho as ->. done.
    - intros [Hne Hc]. destruct (le_claims e !! o) as [l|] eqn:E.
      + exists (o, l). rewrite elem_of_map_to_list. split; [done|]. cbn.
        by rewrite bool_decide_eq_false_2, Hc.
      + unfold ownerConflicts, claims_of in Hc. by rewrite E in Hc. }
  split.
  - intros Hnil o c Ho Hc. apply not_true_is_false. intros Hcf.
    assert (o ∈ conflictingHolders e ref skip) as Hin.
    { apply Hel. split; [done|]. unfold ownerConflicts. apply existsb_exists.
      exists c. by rewrite <- list_elem_of_In. }
    rewrite Hnil in Hin. by apply not_elem_of_nil in Hin.
  - intros H. destruct (conflictingHolders e ref skip) as [|o l] eqn:E; [done|].
    destruct (proj1 (Hel o)) as [Ho Hc]; [by left|]. unfold ownerConflicts in Hc.
    apply existsb_exists in Hc as (c & Hc & Hcf). rewrite <- list_elem_of_In in Hc.
    by rewrite (H o c Ho Hc) in Hcf.
Qed.
