(* ===== verification/Graph.v ===== *)
(** * The wait-for graph: [lockmanager/graph.go]

    Edges by waiting root, a revision that advances with the edge set, and the bounded
    depth-first search for a cycle. *)

From stdpp Require Import gmap list sorting strings fin_maps.
From S2P Require Import Prelude LockTypes.

Record LockEdge : Type := mkEdge {
  FromRootID : bytes;
  ToRootID : bytes;
  RequestID : Z;
  Reason : WaitEdgeReason;
  ResourceID : Z;
  Revision : Z
}.

#[export] Instance LockEdge_rebuild : Rebuild LockEdge := fun e =>
  mkEdge (FromRootID e) (ToRootID e) (RequestID e) (Reason e) (ResourceID e) (Revision e).

#[export] Instance LockEdge_eq_dec : EqDecision LockEdge. Proof. solve_decision. Defined.

Record graphEdgeKey : Type := mkEdgeKey { key_to : bytes; key_request : Z; key_reason : WaitEdgeReason }.

#[export] Instance graphEdgeKey_eq_dec : EqDecision graphEdgeKey. Proof. solve_decision. Defined.

#[export] Instance graphEdgeKey_countable : Countable graphEdgeKey :=
  inj_countable' (fun k => (key_to k, key_request k, key_reason k)) (fun '(t, r, w) => mkEdgeKey t r w) ltac:(by intros []).

Definition edge_key (e : LockEdge) : graphEdgeKey := mkEdgeKey (ToRootID e) (RequestID e) (Reason e).

Record waitGraph : Type := mkGraph {
  out : gmap bytes (gmap graphEdgeKey LockEdge);
  revision : Z
}.

#[export] Instance waitGraph_rebuild : Rebuild waitGraph := fun g => mkGraph (out g) (revision g).

Definition newWaitGraph : waitGraph := mkGraph ∅ 0.

(** [uint64] increment. *)
Definition succ64 (z : Z) : Z := (z + 1) mod 2 ^ 64.

Definition Size (g : waitGraph) : Z := map_sum (fun _ edges => Z.of_nat (size edges)) (out g).

Definition sameEdges (a b : gmap graphEdgeKey LockEdge) : bool :=
  if negb (size a =? size b)%nat then false
  else forallb (fun kv => bool_decide (is_Some (b !! kv.1))) (map_to_list a).

Definition setEdges (g : waitGraph) (from : bytes) (edges : list LockEdge) : waitGraph :=
  let g' := g <| revision ::= succ64 |> in
  let next := foldl (fun next edge =>
    <[edge_key edge := edge <| FromRootID := from |> <| Revision := revision g' |>]> next) ∅ edges in
  let current := default ∅ (out g' !! from) in
  if sameEdges current next then g
  else if (size next =? 0)%nat then g' <| out ::= delete from |>
  else g' <| out ::= <[from := next]> |>.

Definition removeRoot (g : waitGraph) (from : bytes) : waitGraph :=
  match out g !! from with
  | None => g
  | Some _ => g <| out ::= delete from |> <| revision ::= succ64 |>
  end.

Definition clear (g : waitGraph) : waitGraph :=
  if bool_decide (out g = ∅) then g else g <| out := ∅ |> <| revision ::= succ64 |>.

Definition reason_string (r : WaitEdgeReason) : bytes :=
  match r with EdgeHolder => str "HOLDER" | EdgeOlderWaiter => str "OLDER_WAITER" end.

(** The comparison of [sortEdges]. *)
Definition edge_less (a b : LockEdge) : bool :=
  if negb (bool_decide (FromRootID a = FromRootID b)) then bltb (FromRootID a) (FromRootID b)
  else if negb (RequestID a =? RequestID b) then RequestID a <? RequestID b
  else if negb (bool_decide (ToRootID a = ToRootID b)) then bltb (ToRootID a) (ToRootID b)
  else bltb (reason_string (Reason a)) (reason_string (Reason b)).

Definition sortEdges (edges : list LockEdge) : list LockEdge := sort_stable edge_less edges.

Definition edges `{MapRange} (g : waitGraph) : list LockEdge :=
  sortEdges (mjoin ((fun kv => snd <$> range 1 kv.2) <$> range 0 (out g))).

Definition edgesFrom `{MapRange} (g : waitGraph) (from : bytes) : list LockEdge :=
  sortEdges (snd <$> range 0 (default ∅ (out g !! from))).

(** ** Cycle detection *)

Inductive color : Type := Gray | Black.

(** The variables the closure [walk] shares. *)
Record dfs : Type := mkDfs {
  colors : gmap bytes color;
  stack : list bytes;
  edgeStack : list LockEdge;
  work : Z;
  cycleRoots : list bytes;
  cycleEdges : list LockEdge;
  exhausted : bool
}.

#[export] Instance dfs_rebuild : Rebuild dfs := fun s =>
  mkDfs (colors s) (stack s) (edgeStack s) (work s) (cycleRoots s) (cycleEdges s) (exhausted s).

Definition drop_last {A} (l : list A) : list A := take (length l - 1) l.

Definition start_of (s : dfs) (root : bytes) : nat :=
  default 0%nat (find_index (fun r => bool_decide (r = root)) (stack s)).

(** The loop of [walk] over the edges leaving [from]; [rec] is the recursive call. *)
Fixpoint walk_edges (rec : bytes -> dfs -> option (dfs * bool)) (workLimit : Z) (from : bytes)
    (edges : list LockEdge) (s : dfs) : option (dfs * bool) :=
  match edges with
  | [] => Some (s <| stack ::= drop_last |> <| colors ::= <[from := Black]> |>, false)
  | edge :: rest =>
      if bool_decide (ToRootID edge = from) then walk_edges rec workLimit from rest s
      else
        let s := s <| work ::= Z.add 1 |> in
        if (0 <? workLimit) && (workLimit <? work s) then Some (s <| exhausted := true |>, true)
        else match colors s !! ToRootID edge with
          | Some Gray =>
              let start := start_of s (ToRootID edge) in
              Some (s <| cycleRoots ::= fun r => r ++ drop start (stack s) |>
                      <| cycleEdges ::= fun e => e ++ drop start (edgeStack s) ++ [edge] |>, true)
          | None =>
              match rec (ToRootID edge) (s <| edgeStack ::= fun e => e ++ [edge] |>) with
              | None => None
              | Some (s, true) => Some (s, true)
              | Some (s, false) => walk_edges rec workLimit from rest (s <| edgeStack ::= drop_last |>)
              end
          | Some Black => walk_edges rec workLimit from rest s
          end
  end.

(** The search below one root; the boolean is the answer of [walk], [None] is fuel running out. *)
Fixpoint walk `{MapRange} (g : waitGraph) (workLimit : Z) (fuel : nat) (from : bytes) (s : dfs)
    : option (dfs * bool) :=
  match fuel with
  | O => None
  | S fuel =>
      let s := s <| colors ::= <[from := Gray]> |> <| stack ::= fun st => st ++ [from] |> in
      walk_edges (walk g workLimit fuel) workLimit from (edgesFrom g from) s
  end.

(** The comparison that orders the roots: registered ones first, by ordinal, then by name. *)
Definition root_less (ordinalOf : bytes -> option Z) (a b : bytes) : bool :=
  match ordinalOf a, ordinalOf b with
  | Some x, Some y => if negb (x =? y) then x <? y else bltb a b
  | Some _, None => true
  | None, Some _ => false
  | None, None => bltb a b
  end.

Fixpoint walk_roots `{MapRange} (g : waitGraph) (workLimit : Z) (fuel : nat) (roots : list bytes) (s : dfs)
    : option (dfs * bool) :=
  match roots with
  | [] => Some (s, false)
  | root :: rest =>
      match colors s !! root with
      | Some _ => walk_roots g workLimit fuel rest s
      | None =>
          match walk g workLimit fuel root (s <| stack := [] |> <| edgeStack := [] |>) with
          | None => None
          | Some (s, true) => Some (s, true)
          | Some (s, false) => walk_roots g workLimit fuel rest s
          end
      end
  end.

(** Cycle roots, cycle edges and the exhaustion flag. *)
Definition detectCycle `{MapRange} (g : waitGraph) (ordinalOf : bytes -> option Z) (workLimit : Z)
    : option (list bytes * list LockEdge * bool) :=
  let roots := sort_stable (root_less ordinalOf) (range 0 (out g)).*1 in
  match walk_roots g workLimit (S (size (out g))) roots (mkDfs ∅ [] [] 0 [] [] false) with
  | None => None
  | Some (s, true) => Some (cycleRoots s, cycleEdges s, exhausted s)
  | Some (s, false) => Some ([], [], false)
  end.

Definition victim_step (ordinalOf : bytes -> option Z) (best : option (bytes * Z)) (root : bytes)
    : option (bytes * Z) :=
  match ordinalOf root with
  | None => best
  | Some ordinal =>
      match best with
      | None => Some (root, ordinal)
      | Some (victim, victimOrdinal) =>
          if (victimOrdinal <? ordinal) || (ordinal =? victimOrdinal) && bltb root victim
          then Some (root, ordinal) else best
      end
  end.

(** [None] is the empty victim name. *)
Definition pickVictim (cycleRoots : list bytes) (ordinalOf : bytes -> option Z) : option (bytes * Z) :=
  foldl (victim_step ordinalOf) None cycleRoots.

(** ** The graph's invariant *)

Record graph_wf (g : waitGraph) : Prop := {
  gw_nonempty from : out g !! from <> Some ∅;
  gw_edge from es k e : out g !! from = Some es -> es !! k = Some e ->
    FromRootID e = from /\ edge_key e = k
}.

Lemma newWaitGraph_wf : graph_wf newWaitGraph.
Proof. split; cbn; [by intros; rewrite lookup_empty|by intros ? ? ? ?; rewrite lookup_empty]. Qed.

Lemma setEdges_map (from : bytes) (rev : Z) (es : list LockEdge) (m : gmap graphEdgeKey LockEdge)
    (k : graphEdgeKey) (e : LockEdge) :
  (forall k e, m !! k = Some e -> FromRootID e = from /\ edge_key e = k) ->
  foldl (fun next edge =>
    <[edge_key edge := edge <| FromRootID := from |> <| Revision := rev |>]> next) m es !! k = Some e ->
  FromRootID e = from /\ edge_key e = k.
Proof.
  revert m. induction es as [|x es IH]; intros m Hm; cbn; [by apply Hm|].
  apply IH. intros k' e' [[<- <-]|[_ ?]]%lookup_insert_Some; [done|by apply Hm].
Qed.

Lemma setEdges_wf g from es : graph_wf g -> graph_wf (setEdges g from es).
Proof.
  intros Hg. pose proof Hg as [Hn He]. unfold setEdges. cbn zeta.
  set (next := foldl _ ∅ es).
  assert (forall k e, next !! k = Some e -> FromRootID e = from /\ edge_key e = k) as Hnext.
  { intros k e. apply setEdges_map. intros k' e'. by rewrite lookup_empty. }
  clearbody next. destruct (sameEdges _ next); [done|].
  destruct (size next =? 0)%nat eqn:E2; split; cbn.
  - intros f [_ ?]%lookup_delete_Some. by eapply Hn.
  - intros f m k e [_ ?]%lookup_delete_Some. by eapply He.
  - intros f [[<- Hm]|[_ ?]]%lookup_insert_Some; [|by eapply Hn].
    apply Nat.eqb_neq in E2. apply E2. by rewrite Hm, map_size_empty.
  - intros f m k e [[<- <-]|[_ ?]]%lookup_insert_Some; [|by eapply He]. apply Hnext.
Qed.

Lemma removeRoot_wf g from : graph_wf g -> graph_wf (removeRoot g from).
Proof.
  intros [Hn He]. unfold removeRoot. case_match; [|done]. split; cbn.
  - intros f [_ ?]%lookup_delete_Some. by eapply Hn.
  - intros f m k e [_ ?]%lookup_delete_Some. by eapply He.
Qed.

Lemma clear_wf g : graph_wf g -> graph_wf (clear g).
Proof.
  intros Hg. unfold clear. case_bool_decide; [done|].
  split; cbn; [by intros; rewrite lookup_empty|by intros ? ? ? ?; rewrite lookup_empty].
Qed.

(** ** The search finds a cycle exactly when there is one *)

Section Search.
Context `{MapRange} (g : waitGraph) (Hg : graph_wf g) (workLimit : Z).

(** An edge of the graph; an edge of a root to itself never counts. *)
Definition edge_in (e : LockEdge) : Prop :=
  (exists es k, out g !! FromRootID e = Some es /\ es !! k = Some e) /\ ToRootID e <> FromRootID e.

Definition waits (u v : bytes) : Prop := exists e, edge_in e /\ FromRootID e = u /\ ToRootID e = v.

Lemma elem_of_edgesFrom u e :
  e ∈ edgesFrom g u <-> exists es k, out g !! u = Some es /\ es !! k = Some e.
Proof.
  unfold edgesFrom, sortEdges. rewrite sort_stable_perm, list_elem_of_fmap. split.
  - intros ([k e'] & -> & Hin%elem_of_range). cbn. destruct (out g !! u) as [es|] eqn:E; [|done].
    by exists es, k.
  - intros (es & k & Hu & Hk). exists (k, e). split; [done|]. apply elem_of_range. by rewrite Hu.
Qed.

Lemma edgesFrom_edge u e : e ∈ edgesFrom g u -> ToRootID e <> u -> edge_in e /\ FromRootID e = u.
Proof.
  intros (es & k & Hu & Hk)%elem_of_edgesFrom Hne.
  destruct (gw_edge _ Hg _ _ _ _ Hu Hk) as [<- _]. split; [|done]. split; [|done]. by exists es, k.
Qed.

Lemma waits_edgesFrom u v : waits u v -> exists e, e ∈ edgesFrom g u /\ ToRootID e = v /\ v <> u.
Proof.
  intros (e & [(es & k & Hu & Hk) Hne] & <- & <-). exists e. split; [|done].
  apply elem_of_edgesFrom. by exists es, k.
Qed.

Definition gray (s : dfs) (u : bytes) : Prop := colors s !! u = Some Gray.
Definition black (s : dfs) (u : bytes) : Prop := colors s !! u = Some Black.

(** The finished roots, latest first: every root a finished one waits for finished before it. *)
Inductive finished : list bytes -> Prop :=
  | fin_nil : finished []
  | fin_cons u l : finished l -> u ∉ l -> (forall v, waits u v -> v ∈ l) -> finished (u :: l).

(** [n] edges of the edge stack join the stack's roots; the last root is [top]. *)
Record dfs_inv (s : dfs) (done_ : list bytes) : Prop := {
  di_gray u : gray s u <-> u ∈ stack s;
  di_black u : black s u <-> u ∈ done_;
  di_finished : finished done_;
  di_nodup : NoDup (stack s);
  di_path i e : edgeStack s !! i = Some e ->
    edge_in e /\ stack s !! i = Some (FromRootID e) /\
    (stack s !! S i = Some (ToRootID e) \/ length (stack s) = S i);
  di_fresh : cycleRoots s = [] /\ cycleEdges s = [] /\ exhausted s = false
}.

(** A closed walk through distinct roots, as the detector reports it. *)
Definition is_cycle (roots : list bytes) (es : list LockEdge) : Prop :=
  roots <> [] /\ NoDup roots /\ length es = length roots /\
  (forall i e, es !! i = Some e ->
     edge_in e /\ roots !! i = Some (FromRootID e) /\
     (roots !! S i = Some (ToRootID e) \/ length roots = S i /\ roots !! 0%nat = Some (ToRootID e))).

(** What the search answers when it stops early. *)
Definition stopped (s : dfs) : Prop :=
  (exhausted s = true /\ 0 < workLimit < work s /\ cycleRoots s = []) \/
  (exhausted s = false /\ is_cycle (cycleRoots s) (cycleEdges s)).

Lemma lookup_drop_last {A} (l : list A) i x :
  drop_last l !! i = Some x <-> l !! i = Some x /\ (S i < length l)%nat.
Proof.
  unfold drop_last. rewrite lookup_take_Some. split; intros [? ?]; (split; [done|lia]).
Qed.

Lemma drop_last_snoc {A} (l : list A) x : drop_last (l ++ [x]) = l.
Proof.
  unfold drop_last. rewrite length_app. cbn. replace (length l + 1 - 1)%nat with (length l) by lia.
  apply take_app_length.
Qed.

(** The back edge closes the cycle. *)
Lemma back_edge_cycle s done_ from e :
  dfs_inv s done_ -> last (stack s) = Some from -> length (stack s) = S (length (edgeStack s)) ->
  edge_in e -> FromRootID e = from -> gray s (ToRootID e) ->
  is_cycle (drop (start_of s (ToRootID e)) (stack s))
    (drop (start_of s (ToRootID e)) (edgeStack s) ++ [e]).
Proof.
  intros Hi Hlast Hlen He Hfrom [j Hj]%(di_gray _ _ Hi)%list_elem_of_lookup.
  assert (exists n, find_index (fun r => bool_decide (r = ToRootID e)) (stack s) = Some n) as [n Hn].
  { destruct (find_index _ (stack s)) as [n|] eqn:E; [by exists n|].
    apply find_index_None in E. eapply Forall_lookup_1 in E; [|exact Hj].
    by apply bool_decide_eq_false in E. }
  unfold start_of. rewrite Hn. cbn. apply find_index_Some in Hn as (x & Hx & Hp & _).
  bool_prop. subst x. pose proof (lookup_lt_Some _ _ _ Hx) as Hlt.
  assert (length (drop n (edgeStack s)) = length (stack s) - n - 1)%nat as Hle
    by (rewrite length_drop; lia).
  split_and!.
  - intros E. apply (f_equal length) in E. rewrite length_drop in E. cbn in E. lia.
  - eapply sublist_NoDup; [apply (di_nodup _ _ Hi)|apply sublist_drop].
  - rewrite length_app, Hle, length_drop. cbn. lia.
  - intros i e' [Hi'|[Hge Hi']]%lookup_app_Some.
    + rewrite lookup_drop in Hi'. destruct (di_path _ _ Hi _ _ Hi') as (? & ? & Hnext).
      rewrite !lookup_drop. split_and!; [done..|]. left.
      replace (n + S i)%nat with (S (n + i)) by lia. destruct Hnext as [?|Hend]; [done|].
      apply lookup_lt_Some in Hi'. lia.
    + rewrite Hle in *. apply list_lookup_singleton_Some in Hi' as [Hz <-].
      rewrite !lookup_drop, length_drop. rewrite last_lookup in Hlast.
      split; [done|]. split.
      * rewrite Hfrom, <- Hlast. f_equal. lia.
      * right. split; [lia|]. by rewrite Nat.add_0_r.
Qed.

Definition walk_post (s : dfs) (done_ : list bytes) (from : bytes) (s' : dfs) (b : bool) : Prop :=
  if b then stopped s'
  else exists done', dfs_inv s' done' /\ from ∈ done' /\ done_ ⊆ done' /\ stack s' = stack s /\
    edgeStack s' = edgeStack s /\ dom (colors s) ⊆ dom (colors s').

(** The state when [walk] enters the loop, or is about to: [st] are the roots above [from]. *)
Record at_loop (from : bytes) (st : list bytes) (s : dfs) (done_ : list bytes) : Prop := {
  al_inv : dfs_inv s done_;
  al_stack : stack s = st ++ [from];
  al_edges : length (edgeStack s) = length st
}.

Lemma enter_loop from s done_ :
  dfs_inv s done_ -> colors s !! from = None -> length (edgeStack s) = length (stack s) ->
  (forall e, last (edgeStack s) = Some e -> ToRootID e = from) ->
  at_loop from (stack s) (s <| colors ::= <[from := Gray]> |> <| stack ::= fun st => st ++ [from] |>) done_.
Proof.
  intros [Hgr Hbl Hfin Hnd Hpath Hfr] Hc Hlen Hlast. split; [|done|done].
  assert (from ∉ stack s) as Hns by (intros Hin%Hgr; unfold gray in Hin; congruence).
  split; cbn; [| |done| | |done].
  - intros u. unfold gray. cbn. rewrite elem_of_app, list_elem_of_singleton.
    destruct (decide (u = from)) as [->|Hne].
    + rewrite lookup_insert_eq. split; [by right|done].
    + rewrite lookup_insert_ne by done. rewrite <- Hgr. unfold gray. tauto.
  - intros u. unfold black. cbn. rewrite <- Hbl. unfold black.
    destruct (decide (u = from)) as [->|Hne]; [rewrite lookup_insert_eq, Hc|rewrite lookup_insert_ne]; done.
  - apply NoDup_app. split_and!; [done| |apply NoDup_singleton].
    intros x Hx ->%list_elem_of_singleton. done.
  - intros i e Hi. destruct (Hpath _ _ Hi) as (He & Hst & Hnext). pose proof (lookup_lt_Some _ _ _ Hst).
    split; [done|]. rewrite !lookup_app_l by done. split; [done|]. left.
    destruct Hnext as [Hn|Hend]; [by apply lookup_app_l_Some|].
    rewrite (Hlast e) by (rewrite last_lookup, Hlen, Hend; done).
    by rewrite lookup_app_r, Hend, Nat.sub_diag by lia.
Qed.

(** The last edge leaving [from] is done: [from] is finished. *)
Lemma leave_loop from st s done_ :
  at_loop from st s done_ -> (forall v, waits from v -> v ∈ done_) ->
  dfs_inv (s <| stack ::= drop_last |> <| colors ::= <[from := Black]> |>) (from :: done_).
Proof.
  intros [[Hgr Hbl Hfin Hnd Hpath Hfr] Hst Hlen] Hsucc. rewrite Hst in Hnd.
  apply NoDup_app in Hnd as (Hnd & Hdisj & _).
  assert (from ∉ st) as Hns by (intros Hin; apply (Hdisj from Hin); by apply list_elem_of_singleton).
  assert (gray s from) as Hgf by (apply Hgr; rewrite Hst; apply elem_snoc).
  assert (from ∉ done_) as Hnd' by (intros Hb%Hbl; unfold gray, black in *; congruence).
  split; cbn; rewrite ?Hst, ?drop_last_snoc; [| |by constructor|done| |done].
  - intros u. unfold gray. cbn. destruct (decide (u = from)) as [->|Hne].
    + rewrite lookup_insert_eq. by split.
    + rewrite lookup_insert_ne by done. fold (gray s u). rewrite Hgr, Hst, elem_of_app, list_elem_of_singleton.
      tauto.
  - intros u. unfold black. cbn. rewrite elem_of_cons. destruct (decide (u = from)) as [->|Hne].
    + rewrite lookup_insert_eq. split; [by left|done].
    + rewrite lookup_insert_ne by done. fold (black s u). rewrite Hbl. tauto.
  - intros i e Hi. destruct (Hpath _ _ Hi) as (He & Hsi & Hnext).
    pose proof (lookup_lt_Some _ _ _ Hi) as Hlt. rewrite Hst in Hsi, Hnext. rewrite Hlen in Hlt.
    rewrite lookup_app_l in Hsi by done. split_and!; [done..|].
    destruct (decide (S i < length st)%nat) as [Hl|Hl]; [|right; lia]. left.
    destruct Hnext as [Hn|Hend]; [by rewrite lookup_app_l in Hn|].
    rewrite length_app in Hend. cbn in Hend. lia.
Qed.

(** Counting a unit of work, and pushing or dropping the edge to the next root. *)
Lemma inv_work s done_ w : dfs_inv s done_ -> dfs_inv (s <| work := w |>) done_.
Proof. by intros []. Qed.

Lemma inv_push from st s done_ e :
  at_loop from st s done_ -> edge_in e -> FromRootID e = from ->
  dfs_inv (s <| edgeStack ::= fun es => es ++ [e] |>) done_.
Proof.
  intros [[Hgr Hbl Hfin Hnd Hpath Hfr] Hst Hlen] He Hf. split; try done; cbn.
  intros i e' [Hi|[Hge Hi]]%lookup_app_Some; [by apply Hpath|].
  apply list_lookup_singleton_Some in Hi as [Hz <-]. split; [done|]. rewrite Hst, length_app. cbn.
  assert (i = length st) as -> by lia. split; [|right; lia].
  by rewrite lookup_app_r, Nat.sub_diag, Hf by done.
Qed.

Lemma inv_pop s done_ : dfs_inv s done_ -> dfs_inv (s <| edgeStack ::= drop_last |>) done_.
Proof.
  intros [Hgr Hbl Hfin Hnd Hpath Hfr]. split; try done; cbn.
  intros i e [Hi _]%lookup_drop_last. by apply Hpath.
Qed.

Definition rec_ok (rec : bytes -> dfs -> option (dfs * bool)) (n : nat) : Prop :=
  forall to s done_, dfs_inv s done_ -> colors s !! to = None ->
    length (edgeStack s) = length (stack s) ->
    (forall e, last (edgeStack s) = Some e -> ToRootID e = to) ->
    (size (dom (out g) ∖ dom (colors s)) < n)%nat ->
    exists s' b, rec to s = Some (s', b) /\ walk_post s done_ to s' b.

Lemma walk_edges_ok rec n from st es s done_ :
  rec_ok rec n -> at_loop from st s done_ -> es ⊆ edgesFrom g from ->
  (forall v, waits from v -> v ∈ done_ \/ exists e, e ∈ es /\ ToRootID e = v) ->
  (es <> [] -> size (dom (out g) ∖ dom (colors s)) < n)%nat ->
  exists s' b, walk_edges rec workLimit from es s = Some (s', b) /\
    if b then stopped s'
    else exists done', dfs_inv s' done' /\ from ∈ done' /\ done_ ⊆ done' /\ stack s' = st /\
      edgeStack s' = edgeStack s /\ dom (colors s) ⊆ dom (colors s').
Proof.
  intros Hrec. revert s done_. induction es as [|e es IH]; intros s done_ Hal Hsub Hsucc Hn; cbn [walk_edges].
  - eexists _, false. split; [done|]. exists (from :: done_). split_and!.
    + eapply leave_loop; [done|]. intros v Hv. destruct (Hsucc v Hv) as [?|(e & []%not_elem_of_nil & _)]. done.
    + by left.
    + set_solver.
    + cbn. by rewrite (al_stack _ _ _ _ Hal), drop_last_snoc.
    + done.
    + cbn. rewrite dom_insert_L. set_solver.
  - specialize (Hn ltac:(done)).
    assert (es ⊆ edgesFrom g from) as Hsub' by (intros x ?; apply Hsub; by right).
    destruct (decide (ToRootID e = from)) as [Hself|Hne].
    { rewrite bool_decide_eq_true_2 by done. apply IH; try done. intros v Hv.
      destruct (Hsucc v Hv) as [?|(e' & [->|?]%elem_of_cons & <-)]; [by left| |right; eauto].
      destruct (waits_edgesFrom _ _ Hv) as (_ & _ & _ & ?). done. }
    rewrite bool_decide_eq_false_2 by done. cbn zeta. set (s1 := s <| work ::= Z.add 1 |>).
    destruct (edgesFrom_edge from e) as [He Hfrom]; [apply Hsub; by left|done|].
    assert (at_loop from st s1 done_) as Hal1 by (destruct Hal; split; [by apply inv_work|done..]).
    pose proof (di_fresh _ _ (al_inv _ _ _ _ Hal)) as (Hr0 & He0 & Hx0).
    destruct ((0 <? workLimit) && (workLimit <? work s1)) eqn:Ew.
    { eexists _, true. split; [done|]. left. bool_prop. by split_and!. }
    destruct (colors s1 !! ToRootID e) as [[|]|] eqn:Ec.
    + eexists _, true. split; [done|]. right. cbn. rewrite Hr0, He0, Hx0. split; [done|].
      apply (back_edge_cycle s1 done_ from e); try done; [apply Hal1| |].
      * change (last (stack s) = Some from). by rewrite (al_stack _ _ _ _ Hal), last_snoc.
      * change (length (stack s) = S (length (edgeStack s))).
        rewrite (al_stack _ _ _ _ Hal), (al_edges _ _ _ _ Hal), length_app. cbn. lia.
    + apply (IH s1); try done. intros v Hv.
      destruct (Hsucc v Hv) as [?|(e' & [->|?]%elem_of_cons & <-)]; [by left|left|right; eauto].
      by apply (di_black _ _ (al_inv _ _ _ _ Hal1)).
    + destruct (Hrec (ToRootID e) (s1 <| edgeStack ::= fun es => es ++ [e] |>) done_)
        as (s2 & b & -> & Hpost).
      * by eapply inv_push.
      * done.
      * cbn. rewrite length_app, (al_edges _ _ _ _ Hal), (al_stack _ _ _ _ Hal), length_app. done.
      * cbn. intros e'. rewrite last_snoc. by intros [= <-].
      * done.
      * destruct b; [by eexists _, true|]. destruct Hpost as (done2 & Hi2 & Hin2 & Hsub2 & Hst2 & Hes2 & Hdom2).
        cbn in Hst2, Hes2, Hdom2.
        assert (edgeStack (s2 <| edgeStack ::= drop_last |>) = edgeStack s) as Hes3
          by (cbn; by rewrite Hes2, drop_last_snoc).
        destruct (IH (s2 <| edgeStack ::= drop_last |>) done2) as (s3 & b & -> & Hpost).
        -- split; [by apply inv_pop|cbn; rewrite Hst2; apply Hal|rewrite Hes3; apply Hal].
        -- done.
        -- intros v Hv. destruct (Hsucc v Hv) as [?|(e' & [->|?]%elem_of_cons & <-)];
             [left; by apply Hsub2|by left|right; eauto].
        -- intros _. cbn. eapply Nat.le_lt_trans; [|exact Hn]. apply subseteq_size. set_solver.
        -- exists s3, b. split; [done|]. destruct b; [done|].
           destruct Hpost as (done3 & Hi3 & Hin3 & Hsub3 & Hst3 & He3 & Hdom3). exists done3.
           rewrite He3, Hes3. cbn in Hdom3. split_and!; try done; set_solver.
Qed.

Lemma walk_ok fuel : rec_ok (walk g workLimit fuel) fuel.
Proof.
  induction fuel as [|fuel IH]; intros from s done_ Hi Hc Hlen Hlast Hn; [lia|]. cbn [walk].
  pose proof (enter_loop from s done_ Hi Hc Hlen Hlast) as Hal.
  set (s0 := s <| colors ::= <[from := Gray]> |> <| stack ::= fun st => st ++ [from] |>) in *.
  destruct (walk_edges_ok (walk g workLimit fuel) fuel from (stack s) (edgesFrom g from) s0 done_ IH)
    as (s' & b & E & Hpost); try done.
  - intros v (e & He & <- & _)%waits_edgesFrom. right. by exists e.
  - intros Hne. assert (from ∈ dom (out g)) as Hd.
    { apply elem_of_dom. destruct (out g !! from) eqn:Eo; [done|]. destruct Hne. unfold edgesFrom.
      rewrite Eo. cbn. destruct (range 0 _) as [|[k e] l] eqn:Er; [done|].
      assert ((k, e) ∈ range 0 (∅ : gmap graphEdgeKey LockEdge)) as Hin by (rewrite Er; by left).
      by apply elem_of_range in Hin. }
    assert (dom (out g) ∖ dom (colors s0) ⊂ dom (out g) ∖ dom (colors s)) as Hlt%subset_size; [|lia].
    cbn. rewrite dom_insert_L. assert (from ∉ dom (colors s)) by (by apply not_elem_of_dom). set_solver.
  - exists s', b. split; [done|]. unfold walk_post. destruct b; [done|].
    destruct Hpost as (done' & ? & ? & ? & ? & ? & Hd). exists done'. split_and!; try done.
    etransitivity; [|exact Hd]. cbn. rewrite dom_insert_L. set_solver.
Qed.

Lemma dfs_inv_reset s done_ :
  dfs_inv s done_ -> stack s = [] -> dfs_inv (s <| stack := [] |> <| edgeStack := [] |>) done_.
Proof.
  intros [Hgr Hbl Hfin Hnd Hpath Hfr] Hs. rewrite Hs in Hgr.
  split; cbn; [exact Hgr|exact Hbl|done|constructor|done|done].
Qed.

Lemma walk_roots_ok roots s done_ :
  dfs_inv s done_ -> stack s = [] ->
  exists s' b, walk_roots g workLimit (S (size (out g))) roots s = Some (s', b) /\
    if b then stopped s'
    else exists done', dfs_inv s' done' /\ done_ ⊆ done' /\ roots ⊆ done'.
Proof.
  revert s done_. induction roots as [|r roots IH]; intros s done_ Hi Hs; cbn [walk_roots].
  - exists s, false. split; [done|]. exists done_. split_and!; try done. set_solver.
  - destruct (colors s !! r) as [c|] eqn:Ec.
    + destruct (IH s done_ Hi Hs) as (s' & b & -> & Hpost). exists s', b. split; [done|].
      destruct b; [done|]. destruct Hpost as (done' & ? & Hsub & ?). exists done'. split_and!; try done.
      assert (r ∈ done_).
      { apply (di_black _ _ Hi). unfold black. destruct c; [|done].
        assert (r ∈ stack s) as Hin by (by apply (di_gray _ _ Hi)). rewrite Hs in Hin.
        by apply not_elem_of_nil in Hin. }
      set_solver.
    + destruct (walk_ok (S (size (out g))) r (s <| stack := [] |> <| edgeStack := [] |>) done_)
        as (s1 & b & -> & Hpost).
      * by apply dfs_inv_reset.
      * done.
      * done.
      * done.
      * cbn. apply Nat.lt_succ_r. rewrite <- size_dom. apply subseteq_size. set_solver.
      * destruct b; [by exists s1, true|]. destruct Hpost as (done1 & Hi1 & Hin1 & Hsub1 & Hst1 & _).
        destruct (IH s1 done1 Hi1 Hst1) as (s' & b & -> & Hpost). exists s', b. split; [done|].
        destruct b; [done|]. destruct Hpost as (done' & ? & ? & ?). exists done'. split_and!; try done; set_solver.
Qed.

(** Finished roots wait only for roots that finished earlier, so no path among them closes. *)
Lemma finished_acyclic l u v : finished l -> tc waits u v -> u ∈ l -> v ∈ l /\ u <> v.
Proof.
  intros Hf. revert u v. induction Hf as [|x l Hf IH Hx Hsucc]; intros u v Huv Hu;
    [by apply not_elem_of_nil in Hu|].
  assert (forall a b, tc waits a b -> a ∈ l -> b ∈ l) as Hstay by (intros a b ? ?; by apply (IH a b)).
  apply elem_of_cons in Hu as [->|Hu].
  - assert (v ∈ l) as Hv.
    { destruct Huv as [a b Hab|a b c Hab Hbc]; [by apply Hsucc|]. eapply Hstay; [exact Hbc|]. by apply Hsucc. }
    split; [by right|]. intros <-. done.
  - destruct (IH u v Huv Hu). split; [by right|done].
Qed.

Lemma dfs_start : dfs_inv (mkDfs ∅ [] [] 0 [] [] false) [].
Proof.
  split; cbn; try done; try constructor.
  - unfold gray. cbn. by rewrite lookup_empty.
  - by intros ?%not_elem_of_nil.
  - unfold black. cbn. by rewrite lookup_empty.
  - by intros ?%not_elem_of_nil.
Qed.

Lemma detectCycle_ok ordinalOf :
  exists roots es exh, detectCycle g ordinalOf workLimit = Some (roots, es, exh) /\
    ((exh = true /\ roots = [] /\ 0 < workLimit) \/
     (exh = false /\ is_cycle roots es) \/
     (exh = false /\ roots = [] /\ es = [] /\ forall u, ~ tc waits u u)).
Proof.
  unfold detectCycle. cbn zeta. set (rs := sort_stable _ _).
  destruct (walk_roots_ok rs _ [] dfs_start eq_refl) as (s & b & -> & Hpost). destruct b.
  - eexists _, _, _. split; [done|]. destruct Hpost as [(-> & ? & ->)|(-> & ?)]; [left|right; left]; [|done].
    split_and!; [done..|lia].
  - eexists _, _, _. split; [done|]. right. right. split_and!; [done..|].
    destruct Hpost as (done_ & Hi & _ & Hall). intros u Huu.
    assert (u ∈ done_) as Hu.
    { apply Hall. unfold rs. rewrite sort_stable_perm.
      assert (forall a b, tc waits a b -> exists v, waits a v) as Hout by (intros a b []; eauto).
      destruct (Hout _ _ Huu) as (v & e & [(es & k & Ho & _) _] & <- & _).
      apply list_elem_of_fmap. exists (FromRootID e, es). split; [done|]. by apply elem_of_range. }
    destruct (finished_acyclic done_ u u (di_finished _ _ Hi) Huu Hu). done.
Qed.
End Search.

(** ** Properties *)

Lemma is_cycle_waits g roots es : is_cycle g roots es -> exists u, tc (waits g) u u.
Proof.
  intros (Hne & _ & Hlen & Hes). destruct roots as [|u roots]; [done|]. exists u.
  set (l := u :: roots) in *.
  assert (forall i r, l !! i = Some r -> rtc (waits g) u r) as Hreach.
  { induction i as [|i IH]; intros r Hr; [by injection Hr as <-|].
    pose proof (lookup_lt_Some _ _ _ Hr) as Hlt.
    destruct (lookup_lt_is_Some_2 es i) as [e He]; [lia|].
    destruct (Hes _ _ He) as (Hin & Hfrom & [Hto|[Hend _]]); [|lia].
    eapply rtc_r; [by apply (IH (FromRootID e))|]. exists e. split_and!; [done..|congruence]. }
  destruct (lookup_lt_is_Some_2 es (length roots)) as [e He]; [cbn in Hlen; lia|].
  destruct (Hes _ _ He) as (Hin & Hfrom & [Hto|[_ Hto]]).
  - apply lookup_lt_Some in Hto. cbn in Hto. lia.
  - injection Hto as Hto. eapply tc_rtc_l; [by eapply (Hreach (length roots))|]. constructor.
    by exists e.
Qed.

(** C5: The deadlock search always terminates.  When it did not run out of its work budget, it
    reports a list of distinct roots with edges of the graph that lead from each to the next and
    from the last to the first, and it reports none exactly when no root waits, directly or
    through others, for itself.  When the budget ran out it reports no cycle. *)
Theorem detect_cycle_exact `{MapRange} g ordinalOf limit (Hg : graph_wf g) :
  exists roots es exh, detectCycle g ordinalOf limit = Some (roots, es, exh) /\
    (exh = true -> roots = [] /\ 0 < limit) /\
    (exh = false ->
       (roots <> [] -> is_cycle g roots es) /\ (roots = [] <-> forall u, ~ tc (waits g) u u)).
Proof.
  destruct (detectCycle_ok g Hg limit ordinalOf) as (roots & es & exh & E & Hcases).
  exists roots, es, exh. split; [done|].
  destruct Hcases as [(-> & -> & ?)|[(-> & Hc)|(-> & -> & -> & Hno)]].
  - split; [done|done].
  - split; [done|]. intros _. split; [done|]. split.
    + intros ->. by destruct Hc as [? _].
    + intros Hno. destruct (is_cycle_waits g roots es Hc) as [u Hu]. by destruct (Hno u).
  - split; [done|]. intros _. by split.
Qed.

Definition sample_edge (a b : string) : LockEdge := mkEdge (str a) (str b) 1 EdgeHolder 1 0.

Definition sample_graph : waitGraph :=
  setEdges (setEdges (setEdges newWaitGraph (str "a") [sample_edge "a" "b"])
    (str "b") [sample_edge "b" "c"]) (str "c") [sample_edge "c" "b"].

Lemma sample_graph_wf : graph_wf sample_graph.
Proof. unfold sample_graph. repeat apply setEdges_wf. apply newWaitGraph_wf. Qed.

Lemma detect_cycle_exact_witness :
  exists roots es, detectCycle sample_graph (fun _ => None) 100 = Some (roots, es, false) /\
    roots = [str "b"; str "c"] /\ is_cycle sample_graph roots es.
Proof.
  destruct (detect_cycle_exact sample_graph (fun _ => None) 100 sample_graph_wf)
    as (roots & es & exh & E & _ & Hc).
  assert (detectCycle sample_graph (fun _ => None) 100 =
    Some ([str "b"; str "c"], [mkEdge (str "b") (str "c") 1 EdgeHolder 1 2;
      mkEdge (str "c") (str "b") 1 EdgeHolder 1 3], false)) as E2 by (by vm_compute).
  rewrite E2 in E. injection E as <- <- <-. eexists _, _. split; [exact E2|]. split; [done|].
  by apply Hc.
Defined.

(** The victim is a registered root of the cycle with the largest registration ordinal, the
    smallest name among equals, and there is one as soon as any root of the cycle is registered. *)
Theorem victim_is_latest_registered roots ordinalOf :
  match pickVictim roots ordinalOf with
  | Some (victim, ordinal) =>
      victim ∈ roots /\ ordinalOf victim = Some ordinal /\
      (forall r o, r ∈ roots -> ordinalOf r = Some o -> o < ordinal \/ (o = ordinal /\ ble victim r))
  | None => forall r, r ∈ roots -> ordinalOf r = None
  end.
Proof.
  unfold pickVictim. induction roots as [|r roots IH] using rev_ind; cbn; [by intros r ?%not_elem_of_nil|].
  rewrite foldl_snoc. unfold victim_step. destruct (ordinalOf r) as [o|] eqn:Er.
  - destruct (foldl _ None roots) as [[v ov]|].
    + destruct IH as (Hin & Hv & Hmax). destruct ((ov <? o) || (o =? ov) && bltb r v) eqn:E.
      * split_and!; [apply elem_snoc|done|].
        intros r' o' [Hr'| ->%list_elem_of_singleton]%elem_of_app Ho'; [|right; split; [congruence|reflexivity]].
        destruct (Hmax r' o' Hr' Ho') as [?|[-> Hle]]; bool_prop; [left; lia|left; lia|left; lia|].
        subst. right. split; [done|]. match goal with H : bltb r v = true |- _ => apply bltb_spec, blt_le in H end.
        by transitivity v.
      * split_and!; [by apply elem_app_l|done|].
        intros r' o' [Hr'| ->%list_elem_of_singleton]%elem_of_app Ho'; [by apply Hmax|].
        assert (o' = o) as -> by congruence. bool_prop; [left; lia|].
        destruct (decide (o = ov)) as [->|?]; [right|left; lia]. split; [done|]. by apply bltb_false.
    + split_and!; [apply elem_snoc|done|].
      intros r' o' [Hr'| ->%list_elem_of_singleton]%elem_of_app Ho'; [by rewrite IH in Ho'|].
      right. split; [congruence|reflexivity].
  - destruct (foldl _ None roots) as [[v ov]|].
    + destruct IH as (Hin & Hv & Hmax). split_and!; [by apply elem_app_l|done|].
      intros r' o' [Hr'| ->%list_elem_of_singleton]%elem_of_app Ho'; [by apply Hmax|congruence].
    + intros r' [Hr'| ->%list_elem_of_singleton]%elem_of_app; [by apply IH|done].
Qed.
