(* ===== verification/Manager.v ===== *)
(** * The lock manager: [lockmanager/manager.go]

    One record is the state behind the manager's mutex, together with the registry and the ledger
    it owns; what an exported method does under the mutex is one function on that record.  Only
    [ReleaseOwner], [ReleaseAll] and [ResetEpoch] change the state in several parts, with the mutex
    dropped between them, as does a wait: their functions take what other callers do there as an
    argument.  The clock is the field [m_now], which the environment advances between calls.

    A [*LockOwner], [*requestBundle] and [*Reservation] is reached through its key ([m_owners],
    [m_requests], the ledger's objects).  [m_requests] keeps every request ever queued or granted,
    as the handles that point to it do; a request refused before it was queued leaves nothing.

    The loops over Go maps take their order from [range], with [m_tick] telling the loops apart. *)

From stdpp Require Import gmap list sorting strings fin_maps.
From S2P Require Import Prelude LockTypes Interval Resource Compat ScopeTree Ledger Queue Graph.

(** ** State *)

Record LockOwner : Type := mkOwner {
  RootID : bytes;
  Ordinal : Z;
  OwnerGeneration : Z;
  OwnerTerm : Z;
  ReadTS : Z;
  OState : OwnerState;
  StartedAt : Z;
  EndedAt : Z
}.

#[export] Instance LockOwner_rebuild : Rebuild LockOwner := fun o =>
  mkOwner (RootID o) (Ordinal o) (OwnerGeneration o) (OwnerTerm o) (ReadTS o) (OState o)
    (StartedAt o) (EndedAt o).

Record DeadlockSummary : Type := mkSummary {
  DetectedOrdinal : Z;
  GraphRevision : Z;
  VictimRootID : bytes;
  CycleRootIDs : list bytes;
  AnonymousIDs : list Z;
  SummaryModes : list Mode;
  Truncated : bool
}.

Record manager : Type := mkManager {
  m_generation : Z;
  m_term : Z;
  m_bindings : Bindings;
  m_ledger : Ledger;
  m_now : Z;
  m_locks : lockTable;
  m_owners : gmap bytes LockOwner;
  m_scopes : gmap bytes ScopeTree;
  m_nextOrdinal : Z;
  m_nextGrantID : Z;
  m_nextRequestID : Z;
  m_nextEnqueueOrdinal : Z;
  m_nextResourceID : Z;
  m_pending : gmap bytes (gset entryID);
  m_waiting : gset Z;
  m_abortRequested : gmap bytes AbortReason;
  m_deadlocked : gset bytes;
  m_graph : waitGraph;
  m_graphDirty : bool;
  m_deadlockRing : list DeadlockSummary;
  m_detectRuns : Z;
  m_timeouts : Z;
  m_deadlocks : Z;
  m_invalidated : Z;
  m_closed : bool;
  m_requests : heap;
  m_tick : nat
}.

#[export] Instance manager_rebuild : Rebuild manager := fun m =>
  mkManager (m_generation m) (m_term m) (m_bindings m) (m_ledger m) (m_now m) (m_locks m)
    (m_owners m) (m_scopes m) (m_nextOrdinal m) (m_nextGrantID m) (m_nextRequestID m)
    (m_nextEnqueueOrdinal m) (m_nextResourceID m) (m_pending m) (m_waiting m) (m_abortRequested m)
    (m_deadlocked m) (m_graph m) (m_graphDirty m) (m_deadlockRing m) (m_detectRuns m)
    (m_timeouts m) (m_deadlocks m) (m_invalidated m) (m_closed m) (m_requests m) (m_tick m).

Definition newManager (limits : BudgetLimits) (generation now : Z) : result lock_error manager :=
  let* ledger := NewLedger limits in
  Ok (mkManager generation 0 (NewBindings generation) ledger now ∅ ∅ ∅ 0 0 0 0 0 ∅ ∅ ∅ ∅
        newWaitGraph false [] 0 0 0 0 false ∅ 0).

(** What [AcquireWith] answers, by its [Op]. *)
Record LockHandle : Type := mkHandle {
  h_RequestID : Z;
  h_EnqueueOrdinal : Z;
  h_origin : bool;
  h_scopeDone : option nat
}.

Inductive AcquireResult : Type :=
  | LockOpGranted (g : LockGrant)
  | LockOpReentrant (g : LockGrant)
  | LockOpWait (h : LockHandle).

Definition next_tick (m : manager) : manager := m <| m_tick ::= S |>.

(** Writing through a [*requestBundle] and through a [*lockEntry] of the table. *)
Definition on_bundle (m : manager) (r : Z) (f : requestBundle -> requestBundle) : manager :=
  m <| m_requests ::= alter f r |>.

Definition put_lock (m : manager) (key : bytes) (e : lockEntry) : manager :=
  m <| m_locks ::= <[key := e]> |>.

Definition release_lock (m : manager) (key : bytes) : manager :=
  m <| m_locks ::= fun t => Queue.release t key |>.

(** ** Grants *)

Definition buildGrant (m : manager) (b : requestBundle) : LockGrant :=
  let owner := m_owners m !! b_OwnerID b in
  mkGrant (b_grantID b) (b_OwnerID b) (b_ScopeID b) (from_option OwnerGeneration 0 owner)
    (from_option OwnerTerm 0 owner) (components b) (m_now m).

Definition grantOfLocked (m : manager) (b : requestBundle) : LockGrant :=
  match recordedGrant b with Some grant => grant | None => buildGrant m b end.

Definition rebuildGraphLocked (m : manager) : manager := m <| m_graphDirty := true |>.

(** A queue keeps the candidates that are neither dead nor decided. *)
Definition live_candidate (h : heap) (c : entryID) : bool :=
  negb (from_option q_dead true (deref h c) || from_option (Terminal ∘ b_Status) true (h !! c.1)).

Definition pruneEntryLocked (h : heap) (e : lockEntry) : lockEntry :=
  e <| le_waiting ::= filter (fun c => live_candidate h c) |>.

Definition untrackPendingLocked (m : manager) (r : Z) (b : requestBundle) : manager :=
  m <| m_pending ::= untrack r b |>.

Definition completeBundleLocked (m : manager) (r : Z) : manager :=
  match m_requests m !! r with
  | None => m
  | Some b =>
      if Terminal (b_Status b) || negb (complete b) then m
      else
        let '(ledger, committed) := Commit (m_ledger m) (b_reservation b) in
        let m := m <| m_ledger := ledger |> in
        match committed with
        | Err _ => m
        | Ok _ =>
            let m := untrackPendingLocked m r b in
            let m := m <| m_waiting ::= fun s => s ∖ {[ r ]} |> in
            let '(m, b) :=
              if m_nextGrantID m <? u64_max then
                let m := m <| m_nextGrantID ::= Z.add 1 |> in
                (m, b <| b_grantID := m_nextGrantID m |>)
              else (m, b) in
            let b := setGrant b (buildGrant m b) in
            m <| m_requests ::= <[r := setStatus b RequestGranted]> |>
        end
  end.

(** One component of a granted bundle. *)
Definition grant_entry (r : Z) (m : manager) (i : nat) : manager :=
  match deref (m_requests m) (r, i) with
  | None => m
  | Some q =>
      match m_locks m !! ResourceKey (q_ref q) with
      | None => m
      | Some e =>
          let owner := req_owner (m_requests m) (r, i) in
          let held m e :=
            let m := put_lock m (ResourceKey (q_ref q)) (remove e (r, i)) in
            let m := m <| m_requests ::= fun h => on_entry h (r, i) (fun q => q <| q_state := entryHeld |>) |> in
            on_bundle m r (fun b => b <| b_held ::= Z.add 1 |>) in
          match q_state q with
          | entryHeld => m
          | entryAdopted => held m (dropClaim e r owner (q_ref q)).1
          | entryPending =>
              match applyClaim e r owner (q_ref q) with
              | (e, true) => held m e
              | (e, false) => held m (addClaim e r owner (q_ref q) false)
              end
          end
      end
  end.

(** Pruning the queue of one key and dropping the entry when nothing is left of it. *)
Definition prune_key (m : manager) (key : bytes) : manager :=
  match m_locks m !! key with
  | None => m
  | Some e => release_lock (put_lock m key (pruneEntryLocked (m_requests m) e)) key
  end.

Definition grantLocked (m : manager) (r : Z) : manager :=
  match m_requests m !! r with
  | None => m
  | Some b =>
      if Terminal (b_Status b) then m
      else
        let m := foldl (grant_entry r) m (seq 0 (length (b_entries b))) in
        let m := foldl prune_key m (resourceKeys b) in
        completeBundleLocked m r
  end.

(** The loop of [bundleReadyLocked]; a component may be found settled by an earlier claim of its
    own owner while it is being looked at. *)
Fixpoint ready_entries (t : lockTable) (h : heap) (r : Z) (entries : list nat) : heap * bool :=
  match entries with
  | [] => (h, true)
  | i :: rest =>
      match deref h (r, i) with
      | None => ready_entries t h r rest
      | Some q =>
          if q_dead q || settled q then ready_entries t h r rest
          else match t !! ResourceKey (q_ref q) with
          | None => (h, false)
          | Some e =>
              match grantable h e (r, i) (q_ref q) with
              | (h, true) => ready_entries t h r rest
              | (h, false) => (h, false)
              end
          end
      end
  end.

Definition bundleReadyLocked (m : manager) (r : Z) : manager * bool :=
  match m_requests m !! r with
  | None => (m, false)
  | Some b =>
      let '(h, ready) := ready_entries (m_locks m) (m_requests m) r (seq 0 (length (b_entries b))) in
      (m <| m_requests := h |>, ready)
  end.

(** ** The fair pass *)

(** One waiting bundle of one round; a bundle the round removed before reaching it is skipped. *)
Definition retry_one (acc : manager * bool) (r : Z) : manager * bool :=
  let '(m, progress) := acc in
  if negb (bool_decide (r ∈ m_waiting m)) then acc
  else match m_requests m !! r with
  | None => acc
  | Some b =>
      if Terminal (b_Status b) then (m <| m_waiting ::= fun s => s ∖ {[ r ]} |>, progress)
      else if complete b then (completeBundleLocked m r, progress)
      else
        let '(m, ready) := bundleReadyLocked m r in
        if negb ready then (m, progress) else (grantLocked m r, true)
  end.

Definition retry_round `{MapRange} (m : manager) : manager * bool :=
  foldl retry_one (next_tick m, false) (range_set (m_tick m) (m_waiting m)).

(** The rounds, until one makes no progress; [false] is fuel running out. *)
Fixpoint retry_loop `{MapRange} (fuel : nat) (m : manager) : manager * bool :=
  match fuel with
  | O => (m, false)
  | S fuel =>
      let '(m, progress) := retry_round m in
      if progress then retry_loop fuel m else (m, true)
  end.

Definition retry_fuel (m : manager) : nat := S (size (m_waiting m)).

Definition retryWaitingLocked `{MapRange} (m : manager) : manager :=
  rebuildGraphLocked (retry_loop (retry_fuel m) m).1.

Definition advanceEntryLocked `{MapRange} (m : manager) : manager := retryWaitingLocked m.
Definition advanceLocked `{MapRange} (m : manager) : manager := retryWaitingLocked m.

(** ** Ending a request *)

Definition finish_entry (r : Z) (m : manager) (i : nat) : manager :=
  match deref (m_requests m) (r, i) with
  | None => m
  | Some q =>
      let key := ResourceKey (q_ref q) in
      match m_locks m !! key with
      | None => m
      | Some e =>
          let owner := req_owner (m_requests m) (r, i) in
          let m := m <| m_requests ::= fun h => on_entry h (r, i) (fun q => q <| q_dead := true |>) |> in
          let '(e, dropped) := dropClaim e r owner (q_ref q) in
          let m := if dropped && bool_decide (q_state q = entryHeld)
                   then m <| m_ledger ::= fun l => ReleaseGrant l owner (ClaimKey (q_ref q)) |> else m in
          let e := pruneEntryLocked (m_requests m) (remove e (r, i)) in
          release_lock (put_lock m key e) key
      end
  end.

Definition advance_key `{MapRange} (m : manager) (key : bytes) : manager :=
  match m_locks m !! key with
  | None => m
  | Some _ => release_lock (advanceEntryLocked m) key
  end.

Definition finishRequestLocked `{MapRange} (m : manager) (r : Z) (status : RequestStatus)
    : manager * RequestStatus :=
  match m_requests m !! r with
  | None => (m, status)
  | Some b =>
      if Terminal (b_Status b) then (m, b_Status b)
      else
        let m := foldl (finish_entry r) m (seq 0 (length (b_entries b))) in
        let m := m <| m_ledger ::= fun l => Ledger.Release l (b_reservation b) |> in
        let m := untrackPendingLocked m r b in
        let m := m <| m_waiting ::= fun s => s ∖ {[ r ]} |> in
        let m := on_bundle m r (fun b => setStatus b status) in
        let m := foldl advance_key m (resourceKeys b) in
        (rebuildGraphLocked m, status)
  end.

(** The bundles with a pending component that [matches]; the predicates of the callers read the
    request only. *)
Definition pending_matching (m : manager) (matches : requestBundle -> bool) : gset Z :=
  map_fold (fun _ (requests : gset entryID) (acc : gset Z) =>
    set_fold (fun (e : entryID) acc =>
      if from_option matches false (m_requests m !! e.1) then {[ e.1 ]} ∪ acc else acc) acc requests)
    ∅ (m_pending m).

Definition finish_counted `{MapRange} (status : RequestStatus) (acc : manager * Z) (r : Z) : manager * Z :=
  let '(m, count) := acc in
  match m_requests m !! r with
  | None => acc
  | Some b =>
      if Terminal (b_Status b) then acc else ((finishRequestLocked m r status).1, count + 1)
  end.

Definition cancelRequestsLocked `{MapRange} (m : manager) (matches : requestBundle -> bool)
    (status : RequestStatus) : manager * Z :=
  foldl (finish_counted status) (next_tick m, 0) (range_set (m_tick m) (pending_matching m matches)).

(** The entry of the request is found by number, so which component is met first is immaterial. *)
Definition findPendingLocked (m : manager) (rootID : bytes) (requestID : Z) : option Z :=
  if existsb (fun e : entryID => e.1 =? requestID) (elements (default ∅ (m_pending m !! rootID)))
  then Some requestID else None.

(** ** Owners *)

Definition RegisterOwner (m : manager) (rootID : bytes) (generation term readTS : Z)
    : manager * result lock_error LockOwner :=
  if bool_decide (rootID = []) then (m, Err ErrInvalidOptions)
  else if m_closed m then (m, Err ErrOwnerUnknown)
  else if negb (generation =? m_generation m) then (m, Err ErrLockInvalidated)
  else if negb (term =? m_term m) then (m, Err ErrLockInvalidated)
  else match m_owners m !! rootID with
  | Some _ => (m, Err ErrOwnerExists)
  | None =>
      if m_nextOrdinal m =? u64_max then (m, Err ErrOrdinalExhausted)
      else
        let '(ledger, charged) := ChargeFixed (m_ledger m) ownerFixedBytes rootID in
        let m := m <| m_ledger := ledger |> in
        match charged with
        | Err e => (m, Err e)
        | Ok _ =>
            let m := m <| m_nextOrdinal ::= Z.add 1 |> in
            let owner := mkOwner rootID (m_nextOrdinal m) generation term readTS OwnerActive (m_now m) 0 in
            (m <| m_owners ::= <[rootID := owner]> |> <| m_scopes ::= <[rootID := NewScopeTree]> |>,
             Ok owner)
        end
  end.

Definition Owner (m : manager) (rootID : bytes) : option LockOwner := m_owners m !! rootID.

Definition OrdinalOfLocked (m : manager) (rootID : bytes) : option Z := Ordinal <$> m_owners m !! rootID.
Definition OrdinalOf (m : manager) (rootID : bytes) : option Z := OrdinalOfLocked m rootID.

Definition sortOwnersByOrdinal (owners : list LockOwner) : list LockOwner :=
  sort_stable (fun a b => Ordinal a <? Ordinal b) owners.

Definition Owners `{MapRange} (m : manager) : list LockOwner :=
  sortOwnersByOrdinal (snd <$> range (m_tick m) (m_owners m)).

Definition RequestAbort (m : manager) (rootID : bytes) (reason : AbortReason)
    : manager * result lock_error bool :=
  match m_owners m !! rootID with
  | None => (m, Err ErrOwnerUnknown)
  | Some owner =>
      if bool_decide (OState owner = OwnerEnded) then (m, Err ErrOwnerUnknown)
      else if bool_decide (is_Some (m_abortRequested m !! rootID)) then (m, Ok false)
      else
        let m := m <| m_abortRequested ::= <[rootID := reason]> |> in
        let m := if bool_decide (OState owner = OwnerActive)
                 then m <| m_owners ::= <[rootID := owner <| OState := OwnerAbortRequested |>]> |>
                 else m in
        (m, Ok true)
  end.

Definition AbortRequested (m : manager) (rootID : bytes) : bool :=
  bool_decide (is_Some (m_abortRequested m !! rootID)).
Definition AbortReasonOf (m : manager) (rootID : bytes) : option AbortReason := m_abortRequested m !! rootID.

Definition MarkFinishing (m : manager) (rootID : bytes) : manager * result lock_error unit :=
  match m_owners m !! rootID with
  | None => (m, Err ErrOwnerUnknown)
  | Some owner =>
      if bool_decide (OState owner = OwnerEnded) then (m, Ok tt)
      else (m <| m_owners ::= <[rootID := owner <| OState := OwnerFinishing |>]> |>, Ok tt)
  end.

Definition markAbortLocked (m : manager) (rootID : bytes) (reason : AbortReason) : manager :=
  match m_owners m !! rootID with
  | None => m
  | Some owner =>
      if bool_decide (OState owner = OwnerEnded) then m
      else
        let m := m <| m_abortRequested ::= <[rootID := reason]> |> in
        if bool_decide (OState owner = OwnerActive)
        then m <| m_owners ::= <[rootID := owner <| OState := OwnerAbortRequested |>]> |>
        else m
  end.

(** ** Scopes *)

Definition put_tree (m : manager) (rootID : bytes) (t : ScopeTree) : manager :=
  m <| m_scopes ::= <[rootID := t]> |>.

Definition OpenScopeWithBudget (m : manager) (rootID originTxnID : bytes) (parentScopeID : Z)
    (kind : ScopeKind) (deadline waitBudget : Z) : manager * result lock_error Scope :=
  match m_owners m !! rootID with
  | None => (m, Err ErrOwnerUnknown)
  | Some owner =>
      if bool_decide (OState owner = OwnerEnded) then (m, Err ErrOwnerUnknown)
      else
        let scopes := default NewScopeTree (m_scopes m !! rootID) in
        let '(tree, opened) := OpenWithBudget scopes rootID originTxnID parentScopeID kind (m_now m)
                                 deadline waitBudget in
        let m := put_tree m rootID tree in
        match opened with
        | Err e => (m, Err e)
        | Ok scope =>
            let '(ledger, charged) := ChargeFixed (m_ledger m) scopeFixedBytes rootID in
            let m := m <| m_ledger := ledger |> in
            match charged with
            | Err e => (put_tree m rootID (Discard tree (ScopeID scope)), Err e)
            | Ok _ => (m, Ok scope)
            end
        end
  end.

Definition OpenScope (m : manager) (rootID originTxnID : bytes) (parentScopeID : Z)
    (kind : ScopeKind) (deadline : Z) : manager * result lock_error Scope :=
  OpenScopeWithBudget m rootID originTxnID parentScopeID kind deadline 0.

Definition scope_anywhere `{MapRange} (m : manager) (scopeID : Z) : option (bytes * Scope) :=
  head (omap (fun kv => pair kv.1 <$> Get kv.2 scopeID) (range (m_tick m) (m_scopes m))).

Definition Manager_Scope `{MapRange} (m : manager) (rootID : bytes) (scopeID : Z) : option Scope :=
  if negb (bool_decide (rootID = [])) then t ← m_scopes m !! rootID; Get t scopeID
  else snd <$> scope_anywhere m scopeID.

Definition ownerOfScope `{MapRange} (m : manager) (scopeID : Z) : result lock_error bytes :=
  match scope_anywhere m scopeID with Some (rootID, _) => Ok rootID | None => Err ErrScopeUnknown end.

Definition verifyScope (m : manager) (rootID : bytes) (scopeID : Z) : result lock_error unit :=
  match m_scopes m !! rootID with
  | None => Err ErrOwnerUnknown
  | Some scopes =>
      match Get scopes scopeID with
      | None => Err ErrScopeUnknown
      | Some scope =>
          if negb (bool_decide (ScopeOwnerID scope = rootID)) then Err ErrScopeOwnerMismatch
          else if negb (Scope_CanRequest scope) then Err ErrScopeUnknown
          else Ok tt
      end
  end.

(** Closing the joins of one waiting bundle that belong to discarded scopes. *)
Definition close_bundle_joins (discarded : gset Z) (b : requestBundle) : requestBundle :=
  let gone := filter (fun kv => kv.1 ∈ discarded) (b_joins b) in
  map_fold (fun scopeID join b => (join_close b join) <| b_joins ::= delete scopeID |>) b gone.

Definition closeJoinsLocked (m : manager) (discarded : gset Z) : manager :=
  if bool_decide (discarded = ∅) || bool_decide (m_waiting m = ∅) then m
  else m <| m_requests ::= map_imap (fun r b =>
              Some (if bool_decide (r ∈ m_waiting m) then close_bundle_joins discarded b else b)) |>.

Definition BeginCloseScope `{MapRange} (m : manager) (rootID : bytes) (scopeID : Z)
    : manager * result lock_error (list Z) :=
  match m_scopes m !! rootID with
  | None => (m, Err ErrOwnerUnknown)
  | Some scopes =>
      match BeginClose scopes scopeID with
      | (tree, Err e) => (put_tree m rootID tree, Err e)
      | (tree, Ok _) =>
          let '(tree, closed) := default (tree, []) (CloseSubtree tree scopeID) in
          let m := put_tree m rootID tree in
          (closeJoinsLocked m (list_to_set closed), Ok closed)
      end
  end.

Definition CloseScope `{MapRange} (m : manager) (rootID : bytes) (scopeID : Z)
    : manager * result lock_error (list Z) :=
  match m_scopes m !! rootID with
  | None => (m, Err ErrOwnerUnknown)
  | Some scopes =>
      match Get scopes scopeID with
      | None => (m, Err ErrScopeUnknown)
      | Some _ =>
          let '(tree, closed) := default (scopes, []) (CloseSubtree scopes scopeID) in
          let m := put_tree m rootID tree in
          let discarded := list_to_set closed in
          let '(m, _) := cancelRequestsLocked m
            (fun b => bool_decide (b_OwnerID b = rootID) && bool_decide (b_ScopeID b ∈ discarded))
            RequestCanceled in
          (closeJoinsLocked m discarded, Ok closed)
      end
  end.

Definition Manager_Ancestors (m : manager) (rootID : bytes) (scopeID : Z) : list Scope :=
  match m_scopes m !! rootID with None => [] | Some scopes => default [] (Ancestors scopes scopeID) end.

Definition Sibling (m : manager) (rootID : bytes) (a b : Z) : bool :=
  match m_scopes m !! rootID with
  | None => false
  | Some scopes =>
      if a =? b then false
      else negb (default false (IsAncestor scopes a b)) && negb (default false (IsAncestor scopes b a))
  end.

(** ** Acquiring *)

Definition defaultLockWaitTimeout : Z := 50 * 1000000000.

Definition requestDeadlineLocked (m : manager) (rootID : bytes) (scopeID : Z) : Z :=
  match (scopes ← m_scopes m !! rootID; Get scopes scopeID) with
  | Some scope =>
      let budget := if 0 <? WaitBudget scope then WaitBudget scope else defaultLockWaitTimeout in
      let deadline := m_now m + budget in
      if negb (ContextDeadline scope =? 0) && (ContextDeadline scope <? deadline)
      then ContextDeadline scope else deadline
  | None => m_now m + defaultLockWaitTimeout
  end.

Definition claimSatisfiedByOwner (m : manager) (rootID : bytes) (component : ResourceRef) : bool :=
  match m_locks m !! ResourceKey component with
  | None => false
  | Some entry =>
      existsb (fun claim => negb (cl_pending claim) && SameClaim (cl_ref claim) component
                            && negb (upgradeNeeded (mode component) (cl_mode claim)))
        (claims_of entry rootID)
  end.

Definition bundleCoversRequest (b : requestBundle) (wanted : list ResourceRef) : bool :=
  forallb (fun component =>
    existsb (fun entry => SameClaim (q_ref entry) component
                          && negb (upgradeNeeded (mode component) (mode (q_ref entry))))
      (b_entries b)) wanted.

Definition joinable_step (m : manager) (wanted : list ResourceRef)
    (best : option (Z * requestBundle)) (e : entryID) : option (Z * requestBundle) :=
  match m_requests m !! e.1 with
  | None => best
  | Some b =>
      if Terminal (b_Status b) then best
      else if match best with
              | Some (_, best) => b_EnqueueOrdinal best <=? b_EnqueueOrdinal b
              | None => false
              end then best
      else if bundleCoversRequest b wanted then Some (e.1, b) else best
  end.

Definition joinableRequestLocked `{MapRange} (m : manager) (rootID : bytes) (wanted : list ResourceRef)
    : option (Z * requestBundle) :=
  foldl (joinable_step m wanted) None (range_set (m_tick m) (default ∅ (m_pending m !! rootID))).

Definition adopted_claim (m : manager) (rootID : bytes) (component : ResourceRef) : option Z :=
  entry ← m_locks m !! ResourceKey component;
  cl_request <$> find (fun claim => negb (cl_pending claim) && SameClaim (cl_ref claim) component
                                    && negb (upgradeNeeded (mode component) (cl_mode claim)))
                   (claims_of entry rootID).

Definition adoptedClaims (m : manager) (rootID : bytes) (wanted : list ResourceRef) : gmap bytes Z :=
  foldl (fun adopted component =>
    match adopted_claim m rootID component with
    | Some request => <[ClaimKey component := request]> adopted
    | None => adopted
    end) ∅ wanted.

Definition markAdoptedLocked (m : manager) (r : Z) (adopted : gmap bytes Z) : manager :=
  on_bundle m r (fun b => b <| b_entries ::= fmap (fun q =>
    if bool_decide (is_Some (adopted !! ClaimKey (q_ref q))) then q <| q_state := entryAdopted |> else q) |>).

Definition newRequestLocked (m : manager) (rootID : bytes) (scopeID : Z) (deduped : list ResourceRef)
    (reservation : Z) (mayWait : option bool) (adopted : gmap bytes Z) : manager * result lock_error Z :=
  if (m_nextRequestID m =? u64_max) || (m_nextEnqueueOrdinal m =? u64_max)
  then (m, Err ErrOrdinalExhausted)
  else
    let m := m <| m_nextRequestID ::= Z.add 1 |> <| m_nextEnqueueOrdinal ::= Z.add 1 |> in
    let entries := (fun component =>
      mkEntry component entryPending (adopted !! ClaimKey component) false false) <$> deduped in
    let bundle := mkBundle rootID scopeID (m_nextEnqueueOrdinal m) (m_now m)
      (requestDeadlineLocked m rootID scopeID) 0 RequestPending mayWait []
      (from_option r_reservedBytes 0 (l_objs (m_ledger m) !! reservation)) 0 reservation
      entries 0 0 [] false newRequestState ∅ [] in
    (m <| m_requests ::= <[m_nextRequestID m := bundle]> |>, Ok (m_nextRequestID m)).

(** One component of [inspectLocked]: the components found blocked and the holders seen so far. *)
Definition inspect_entry (r : Z) (acc : manager * list nat * gset bytes) (i : nat)
    : manager * list nat * gset bytes :=
  let '(m, blocked, seen) := acc in
  match deref (m_requests m) (r, i) with
  | None => acc
  | Some q =>
      let m := m <| m_locks ::= fun t => entryFor t (q_ref q) |> in
      match m_locks m !! ResourceKey (q_ref q) with
      | None => (m, blocked, seen)
      | Some e =>
          let holders := conflictingHolders e (q_ref q) (req_owner (m_requests m) (r, i)) in
          let fresh := filter (fun holder => holder ∉ seen) holders in
          let m := on_bundle m r (fun b => b <| b_blockers ::= fun l => l ++ fresh |>) in
          let waits := immediateConflict (m_requests m) e (r, i) (q_ref q) in
          let m := if waits && waitersAhead (m_requests m) e (r, i) (q_ref q)
                   then on_bundle m r (fun b => b <| b_blockedByOlderWaiter := true |>) else m in
          (m, if negb (length holders =? 0)%nat || waits then blocked ++ [i] else blocked,
           list_to_set fresh ∪ seen)
      end
  end.

Definition inspectLocked (m : manager) (r : Z) : manager * list nat :=
  match m_requests m !! r with
  | None => (m, [])
  | Some b =>
      let '(m, blocked, _) := foldl (inspect_entry r) (m, [], ∅) (seq 0 (length (b_entries b))) in
      (on_bundle m r (fun b => b <| b_blockers ::= sort_stable bltb |>), blocked)
  end.

Definition waiterAheadAnywhere (m : manager) (entry : entryID) : bool :=
  match deref (m_requests m) entry with
  | None => false
  | Some q =>
      match m_locks m !! ResourceKey (q_ref q) with
      | None => false
      | Some e => waitersAhead (m_requests m) e entry (q_ref q)
      end
  end.

Definition enqueue_entry (r : Z) (blocked : list nat) (m : manager) (i : nat) : manager :=
  match deref (m_requests m) (r, i) with
  | None => m
  | Some q =>
      let m := m <| m_requests ::= fun h =>
                 on_entry h (r, i) (fun q => q <| q_blocked := bool_decide (i ∈ blocked) |>) |> in
      let m := m <| m_locks ::= fun t => entryFor t (q_ref q) |> in
      match m_locks m !! ResourceKey (q_ref q) with
      | None => m
      | Some e =>
          let e := if negb (bool_decide (q_state q = entryAdopted))
                   then addClaim e r (req_owner (m_requests m) (r, i)) (q_ref q) true else e in
          put_lock m (ResourceKey (q_ref q)) (enqueue e (r, i))
      end
  end.

Definition enqueueLocked (m : manager) (r : Z) (blocked : list nat) : manager :=
  match m_requests m !! r with
  | None => m
  | Some b =>
      let m := foldl (enqueue_entry r blocked) m (seq 0 (length (b_entries b))) in
      let m := m <| m_pending ::= fun p =>
        <[b_OwnerID b := list_to_set (entry_ids r b) ∪ default ∅ (p !! b_OwnerID b)]> p |> in
      let m := m <| m_waiting ::= union {[ r ]} |> in
      on_bundle m r (fun b => b <| b_ReservationToken := b_reservation b |>)
  end.

(** The request was refused before it was queued: its charge is returned and the entries its
    inspection created are dropped again. *)
Definition refuse_request (m : manager) (r token : Z) : manager :=
  let m := m <| m_ledger ::= fun l => Ledger.Release l token |> in
  let keys := from_option (fun b => ResourceKey ∘ q_ref <$> b_entries b) [] (m_requests m !! r) in
  (foldl release_lock m keys) <| m_requests ::= delete r |>.

(** The conflicting request is queued, and may be granted by the fair pass that follows. *)
Definition wait_request `{MapRange} (m : manager) (rootID : bytes) (r : Z) (blocked : list nat)
    : manager * result lock_error AcquireResult :=
  let wanted := from_option components [] (m_requests m !! r) in
  let m := markAdoptedLocked m r (adoptedClaims m rootID wanted) in
  let m := on_bundle m r (fun b => if b_BlockedAt b =? 0 then b <| b_BlockedAt := m_now m |> else b) in
  let m := enqueueLocked m r blocked in
  let m := on_bundle m r (fun b => b <| b_BlockerIDs := b_blockers b |>) in
  let m := advanceLocked m in
  match m_requests m !! r with
  | None => (m, Err ErrOwnerUnknown)
  | Some b =>
      if complete b then (m, Ok (LockOpGranted (grantOfLocked m b)))
      else (m, Ok (LockOpWait (mkHandle r (b_EnqueueOrdinal b) true None)))
  end.

Definition grant_inline (m : manager) (r token : Z) : manager * result lock_error AcquireResult :=
  let m := grantLocked m r in
  match m_requests m !! r with
  | None => (m, Err ErrOwnerUnknown)
  | Some b =>
      if negb (complete b)
      then (m <| m_ledger ::= fun l => Ledger.Release l token |>, Err ErrBudgetMemory)
      else (m, Ok (LockOpGranted (grantOfLocked m b)))
  end.

Definition acquire_new `{MapRange} (m : manager) (rootID : bytes) (scopeID : Z)
    (deduped : list ResourceRef) (mayWait : option bool) : manager * result lock_error AcquireResult :=
  let '(ledger, reserved) := Reserve (m_ledger m) rootID deduped true in
  let m := m <| m_ledger := ledger |> in
  match reserved with
  | Err e => (m, Err e)
  | Ok token =>
      let '(m, created) := newRequestLocked m rootID scopeID deduped token mayWait ∅ in
      match created with
      | Err e => (m <| m_ledger ::= fun l => Ledger.Release l token |>, Err e)
      | Ok r =>
          let '(m, blocked) := inspectLocked m r in
          if (0 <? length blocked)%nat then
            if negb (from_option MayWait true (m_requests m !! r))
            then (refuse_request m r token, Err ErrConflict)
            else wait_request m rootID r blocked
          else grant_inline m r token
      end
  end.

(** [ctxDone] is [ctx.Err() != nil]; [mayWait] is what the caller's decision answers, [None] when
    there is none. *)
Definition AcquireWith `{MapRange} (m : manager) (ctxDone : bool) (rootID : bytes) (scopeID : Z)
    (wanted : list ResourceRef) (mayWait : option bool) : manager * result lock_error AcquireResult :=
  if ctxDone then (m, Err ErrContext)
  else match m_owners m !! rootID with
  | None => (m, Err ErrOwnerUnknown)
  | Some owner =>
      if negb (OwnerState_CanRequest (OState owner)) then (m, Err ErrOwnerEnding)
      else match verifyScope m rootID scopeID with
      | Err e => (m, Err e)
      | Ok _ =>
          match ValidateBundle wanted (Some (m_bindings m)) with
          | Err e => (m, Err e)
          | Ok _ =>
              let deduped := DedupeResourceRefs wanted in
              if forallb (claimSatisfiedByOwner m rootID) deduped then
                (m, Ok (LockOpReentrant (mkGrant 0 rootID scopeID (OwnerGeneration owner)
                                           (OwnerTerm owner) deduped (m_now m))))
              else match joinableRequestLocked m rootID deduped with
              | Some (r, queued) =>
                  if bool_decide (mayWait = Some false) then (m, Err ErrConflict)
                  else
                    let '(queued, join) := joinFor queued scopeID in
                    (m <| m_requests ::= <[r := queued]> |>,
                     Ok (LockOpWait (mkHandle r (b_EnqueueOrdinal queued) false (Some join))))
              | None => acquire_new m rootID scopeID deduped mayWait
              end
          end
      end
  end.

Definition Acquire `{MapRange} (m : manager) (ctxDone : bool) (rootID : bytes) (scopeID : Z)
    (wanted : list ResourceRef) : manager * result lock_error AcquireResult :=
  AcquireWith m ctxDone rootID scopeID wanted None.

Definition TryAcquire `{MapRange} (m : manager) (ctxDone : bool) (rootID : bytes) (scopeID : Z)
    (wanted : list ResourceRef) : manager * result lock_error AcquireResult :=
  AcquireWith m ctxDone rootID scopeID wanted (Some false).

(** ** The wait-for graph and deadlocks *)

Definition anonIDLocked (m : manager) (key : bytes) : manager * Z :=
  match m_locks m !! key with
  | None => (m, 0)
  | Some e =>
      if le_anonID e =? 0 then
        let m := if m_nextResourceID m <? u64_max then m <| m_nextResourceID ::= Z.add 1 |> else m in
        (put_lock m key (e <| le_anonID := m_nextResourceID m |>), m_nextResourceID m)
      else (m, le_anonID e)
  end.

(** The edges one queued component adds to its root. *)
Definition entry_edges `{MapRange} (m : manager) (e : lockEntry) (entry : entryID) (q : lockRequest)
    (anonID : Z) : list LockEdge :=
  let owner := req_owner (m_requests m) entry in
  ((fun ownerID => mkEdge owner ownerID entry.1 EdgeHolder anonID 0)
     <$> blockingClaims e owner entry (q_ref q)) ++
  ((fun older => mkEdge owner older entry.1 EdgeOlderWaiter anonID 0)
     <$> filter (fun older => older <> owner)
           (req_owner (m_requests m) <$> olderBlockers (m_requests m) e entry (q_ref q))).

Definition rebuild_entry `{MapRange}
    (acc : manager * gmap bytes (list LockEdge) * gset bytes) (entry : entryID)
    : manager * gmap bytes (list LockEdge) * gset bytes :=
  let '(m, byRoot, rootsSeen) := acc in
  match deref (m_requests m) entry with
  | None => acc
  | Some q =>
      let owner := req_owner (m_requests m) entry in
      let rootsSeen := {[ owner ]} ∪ rootsSeen in
      let key := ResourceKey (q_ref q) in
      match m_locks m !! key with
      | None => (m, byRoot, rootsSeen)
      | Some _ =>
          let '(m, anonID) := anonIDLocked m key in
          match m_locks m !! key with
          | None => (m, byRoot, rootsSeen)
          | Some e =>
              match entry_edges m e entry q anonID with
              | [] => (m, byRoot, rootsSeen)
              | added => (m, <[owner := default [] (byRoot !! owner) ++ added]> byRoot, rootsSeen)
              end
          end
      end
  end.

Definition dedupe_edge_step (acc : gset graphEdgeKey * list LockEdge) (edge : LockEdge)
    : gset graphEdgeKey * list LockEdge :=
  let '(seen, out) := acc in
  if bool_decide (edge_key edge ∈ seen) then acc else ({[ edge_key edge ]} ∪ seen, out ++ [edge]).

Definition dedupeEdges (edges : list LockEdge) : list LockEdge :=
  (foldl dedupe_edge_step (∅, []) edges).2.

Definition rebuildGraphNowLocked `{MapRange} (m : manager) : manager :=
  let tick := m_tick m in
  let queued := mjoin ((fun kv : bytes * gset entryID => range_set (S tick) kv.2) <$> range tick (m_pending m)) in
  let '(m, byRoot, rootsSeen) := foldl rebuild_entry (next_tick m, ∅, ∅) queued in
  let graph := foldl (fun g kv => setEdges g kv.1 (dedupeEdges kv.2)) (m_graph m) (range tick byRoot) in
  let stale := filter (fun from => from ∉ rootsSeen) (range tick (out graph)).*1 in
  m <| m_graph := foldl removeRoot graph stale |>.

Definition ensureGraphLocked `{MapRange} (m : manager) : manager :=
  if negb (m_graphDirty m) then m else rebuildGraphNowLocked m.

Definition WaitEdges `{MapRange} (m : manager) : manager * list LockEdge :=
  let m := ensureGraphLocked m in (m, edges (m_graph m)).

Definition Manager_Edges `{MapRange} (m : manager) : manager * list LockEdge :=
  let m := ensureGraphLocked m in (m, edges (m_graph m)).

Definition recordDeadlockLocked (m : manager) (summary : DeadlockSummary) : manager :=
  m <| m_deadlockRing ::= fun ring =>
    (if (maxDeadlockSummaries <=? length ring)%nat then drop 1 ring else ring) ++ [summary] |>.

Fixpoint summaries_upto (limit : Z) (newest_first : list DeadlockSummary) (out : list DeadlockSummary)
    : list DeadlockSummary * bool :=
  match newest_first with
  | [] => (out, false)
  | summary :: rest =>
      if limit <=? Z.of_nat (length out) then (out, true)
      else summaries_upto limit rest (out ++ [summary])
  end.

Definition deadlockSummariesLocked (m : manager) (limit : Z) : list DeadlockSummary * bool :=
  summaries_upto limit (reverse (m_deadlockRing m)) [].

Definition Deadlocks (m : manager) (limit : Z) : list DeadlockSummary * bool :=
  deadlockSummariesLocked m (if limit <=? 0 then Z.of_nat maxDeadlockSummaries else limit).

Definition modeOfRequestLocked `{MapRange} (m : manager) (requestID : Z) (rootID : bytes) : Mode :=
  match filter (fun e : entryID => e.1 = requestID)
          (range_set (m_tick m) (default ∅ (m_pending m !! rootID))) with
  | [] => no_mode
  | e :: _ => from_option (mode ∘ q_ref) no_mode (deref (m_requests m) e)
  end.

Definition truncateStrings {A} (values : list A) (limit : nat) : list A :=
  if (length values <=? limit)%nat then values else take limit values.

Definition DetectDeadlock `{MapRange} (m : manager) : manager * option DeadlockSummary :=
  let m := ensureGraphLocked (m <| m_detectRuns ::= succ64 |>) in
  match detectCycle (m_graph m) (OrdinalOfLocked m) (GraphWork (l_limits (m_ledger m))) with
  | None => (m, None)
  | Some (cycle, cycleEdges, exhausted) =>
      if exhausted then (m, None)
      else if bool_decide (cycle = []) then (m, None)
      else if existsb (fun root => bool_decide (root ∈ m_deadlocked m)) cycle then (m, None)
      else match pickVictim cycle (OrdinalOfLocked m) with
      | None => (m, None)
      | Some (victim, _) =>
          if bool_decide (victim = []) then (m, None)
          else
            let m := m <| m_deadlocks ::= succ64 |> <| m_deadlocked ::= union {[ victim ]} |> in
            let m := markAbortLocked m victim AbortDeadlock in
            let '(m, _) := cancelRequestsLocked m (fun b => bool_decide (b_OwnerID b = victim))
                             RequestDeadlockVictim in
            let kept := take maxDeadlockNodes cycleEdges in
            let summary := mkSummary (m_deadlocks m) (revision (m_graph m)) victim
              (truncateStrings cycle maxDeadlockNodes) (ResourceID <$> kept)
              ((fun edge => modeOfRequestLocked m (RequestID edge) (FromRootID edge)) <$> kept)
              (maxDeadlockNodes <? length cycle)%nat in
            (recordDeadlockLocked m summary, Some summary)
      end
  end.

(** ** Deadlines *)

Definition expired_entry (m : manager) (e : entryID) : option Z :=
  b ← m_requests m !! e.1;
  if (b_Deadline b =? 0) || negb (b_Deadline b <? m_now m) then None
  else if Terminal (b_Status b) then None else Some e.1.

Definition time_out_one `{MapRange} (acc : manager * Z) (r : Z) : manager * Z :=
  let '(m, count) := acc in
  match m_requests m !! r with
  | None => acc
  | Some b =>
      if Terminal (b_Status b) then acc
      else ((finishRequestLocked (m <| m_timeouts ::= succ64 |>) r RequestTimedOut).1, count + 1)
  end.

Definition checkDeadlinesLocked `{MapRange} (m : manager) : manager * Z :=
  let tick := m_tick m in
  let queued := mjoin ((fun kv : bytes * gset entryID => range_set (S tick) kv.2) <$> range tick (m_pending m)) in
  foldl time_out_one (next_tick m, 0) (omap (expired_entry m) queued).

Definition CheckTimeouts `{MapRange} (m : manager) : manager * Z := checkDeadlinesLocked m.

Definition timeOutIfExpired `{MapRange} (m : manager) (rootID : bytes) (handle : option LockHandle)
    : manager * bool :=
  match handle with
  | None => (m, false)
  | Some handle =>
      match findPendingLocked m rootID (h_RequestID handle) with
      | None => (m, false)
      | Some r =>
          match m_requests m !! r with
          | None => (m, false)
          | Some b =>
              if (b_Deadline b =? 0) || negb (b_Deadline b <? m_now m) then (m, false)
              else ((finishRequestLocked (m <| m_timeouts ::= succ64 |>) r RequestTimedOut).1, true)
          end
      end
  end.

(** ** Handles *)

Definition Status (m : manager) (handle : LockHandle) : RequestStatus :=
  from_option (fun b => d_status (b_decision b)) RequestCanceled (m_requests m !! h_RequestID handle).

Definition handle_grant (m : manager) (handle : LockHandle) : option LockGrant :=
  b ← m_requests m !! h_RequestID handle; resolvedGrant (b_decision b).

Definition WaitStatus (m : manager) (rootID : bytes) (handle : option LockHandle) : RequestStatus :=
  match handle with
  | None => RequestCanceled
  | Some handle =>
      match (r ← findPendingLocked m rootID (h_RequestID handle); m_requests m !! r) with
      | Some b => b_Status b
      | None => Status m handle
      end
  end.

Definition Cancel `{MapRange} (m : manager) (rootID : bytes) (handle : option LockHandle)
    : manager * RequestStatus :=
  match handle with
  | None => (m, RequestCanceled)
  | Some handle =>
      if negb (h_origin handle) then (m, Status m handle)
      else match findPendingLocked m rootID (h_RequestID handle) with
      | None => (m, Status m handle)
      | Some r => finishRequestLocked m r RequestCanceled
      end
  end.

Definition withdrawOnContextEnd `{MapRange} (m : manager) (rootID : bytes) (handle : LockHandle) : manager :=
  match findPendingLocked m rootID (h_RequestID handle) with
  | None => m
  | Some r => (finishRequestLocked m r RequestContextCanceled).1
  end.

Definition handleDeadline (m : manager) (rootID : bytes) (handle : LockHandle) : option Z :=
  r ← findPendingLocked m rootID (h_RequestID handle);
  b ← m_requests m !! r;
  if b_Deadline b =? 0 then None else Some (b_Deadline b).

Definition grantForHandle (m : manager) (rootID : bytes) (handle : LockHandle) : result lock_error LockGrant :=
  match m_owners m !! rootID with
  | None => Err ErrOwnerUnknown
  | Some owner =>
      match handle_grant m handle with
      | None => Err ErrConflict
      | Some resolved =>
          if negb (GrantGeneration resolved =? OwnerGeneration owner)
             || negb (GrantTerm resolved =? OwnerTerm owner) then Err ErrLockInvalidated
          else Ok resolved
      end
  end.

(** What ends a plain wait: one of the channels of its [select] is ready. *)
Inductive wakeup : Type := WokeSettled | WokeScopeDone | WokeContext.

(** [LockHandle.Wait] once a channel is ready: the status and whether an error goes with it. *)
Definition handle_wait (m : manager) (handle : LockHandle) (w : wakeup) : RequestStatus * option lock_error :=
  let status := Status m handle in
  if Terminal status then (status, None)
  else match w with
  | WokeSettled => (status, None)
  | WokeScopeDone => (RequestCanceled, Some ErrScopeUnknown)
  | WokeContext => (RequestCanceled, Some ErrContext)
  end.

(** The part of [waitWithDeadline] after its [select]; [w] is the channel that was ready, [None] the
    deadline's, and [w2] ends the plain wait when the deadline fired too early.  [during n] is what
    other callers do at the [n]-th point where this one holds no mutex. *)
Definition wait_woken `{MapRange} (m : manager) (during : nat -> manager -> manager) (rootID : bytes)
    (handle : LockHandle) (w : option wakeup) (w2 : wakeup) : manager * (RequestStatus * option lock_error) :=
  match w with
  | Some WokeSettled => (m, (Status m handle, None))
  | Some WokeScopeDone =>
      if Terminal (Status m handle) then (m, (Status m handle, None))
      else (m, (RequestCanceled, Some ErrScopeUnknown))
  | Some WokeContext =>
      if Terminal (Status m handle) then (m, (Status m handle, None))
      else if negb (h_origin handle) then (m, (RequestCanceled, Some ErrContext))
      else
        let m := during 3%nat (withdrawOnContextEnd (during 2%nat m) rootID handle) in
        if Terminal (Status m handle) then (m, (Status m handle, Some ErrContext))
        else (m, (RequestCanceled, Some ErrContext))
  | None =>
      match timeOutIfExpired m rootID (Some handle) with
      | (m, true) => let m := during 2%nat m in (m, (Status m handle, None))
      | (m, false) =>
          let m := during 2%nat m in
          if Terminal (Status m handle) then (m, (Status m handle, None))
          else let m := during 3%nat m in (m, handle_wait m handle w2)
      end
  end.

(** [waitWithDeadline]; the wait itself, [during 1], lets other callers run. *)
Definition waitWithDeadline `{MapRange} (m : manager) (during : nat -> manager -> manager) (rootID : bytes)
    (handle : LockHandle) (w : option wakeup) (w2 : wakeup)
    : manager * (RequestStatus * option lock_error) :=
  match timeOutIfExpired m rootID (Some handle) with
  | (m, true) => let m := during 0%nat m in (m, (Status m handle, None))
  | (m, false) =>
      let m := during 0%nat m in
      match handleDeadline m rootID handle with
      | None => let m := during 1%nat m in (m, handle_wait m handle w2)
      | Some _ => wait_woken (during 1%nat m) during rootID handle w w2
      end
  end.

(** The error each terminal status maps to; [ctxErr] is [ctx.Err()]. *)
Definition wait_result (m : manager) (rootID : bytes) (handle : LockHandle) (ctxErr : bool)
    (status : RequestStatus) : result lock_error AcquireResult :=
  match status with
  | RequestGranted => let* grant := grantForHandle m rootID handle in Ok (LockOpGranted grant)
  | RequestTimedOut => Err ErrLockWaitTimeout
  | RequestDeadlockVictim => Err ErrDeadlock
  | RequestInvalidated => Err ErrLockInvalidated
  | RequestResourceRejected => Err ErrLockResourceLimit
  | RequestContextCanceled => if ctxErr then Err ErrContext else Err ErrConflict
  | RequestCanceled => Err ErrConflict
  | RequestPending => Err ErrConflict
  end.

Definition WaitForGrantResult `{MapRange} (m : manager) (during : nat -> manager -> manager) (rootID : bytes)
    (handle : option LockHandle) (ctxErr : bool) (w : option wakeup) (w2 : wakeup)
    : manager * result lock_error AcquireResult :=
  match handle with
  | None => (m, Err ErrScopeUnknown)
  | Some handle =>
      match waitWithDeadline m during rootID handle w w2 with
      | (m, (status, Some err)) =>
          let status := Status m handle in
          if negb (Terminal status) then (m, Err err)
          else let m := during 4%nat m in (m, wait_result m rootID handle ctxErr status)
      | (m, (status, None)) => let m := during 4%nat m in (m, wait_result m rootID handle ctxErr status)
      end
  end.

(** ** Releasing *)

Definition release_owner_key `{MapRange} (ownerID resourceKey : bytes) (m : manager) (key : bytes) : manager :=
  match m_locks m !! key with
  | None => m
  | Some e =>
      if negb (bool_decide (resourceKey = [])) && negb (bool_decide (key = resourceKey)) then m
      else match dropAllClaims e ownerID with
      | (_, false) => m
      | (e, true) => release_lock (advanceEntryLocked (put_lock m key e)) key
      end
  end.

(** The loop over the table; an entry that went away before it was reached is not visited. *)
Definition releaseGrantsLocked `{MapRange} (m : manager) (ownerID resourceKey : bytes) : manager :=
  foldl (release_owner_key ownerID resourceKey) (next_tick m) (range (m_tick m) (m_locks m)).*1.

Definition Manager_Release `{MapRange} (m : manager) (rootID : bytes) (resource : ResourceRef)
    : manager * result lock_error bool :=
  match m_owners m !! rootID with
  | None => (m, Err ErrOwnerUnknown)
  | Some _ =>
      let key := ResourceKey resource in
      match m_locks m !! key with
      | None => (m, Ok false)
      | Some e =>
          match dropClaimForOwner e rootID resource with
          | (_, false) => (m, Ok false)
          | (e, true) =>
              let m := put_lock m key e in
              let m := m <| m_ledger ::= fun l => ReleaseGrant l rootID (ClaimKey resource) |> in
              (release_lock (advanceEntryLocked m) key, Ok true)
          end
      end
  end.

(** The part of [ReleaseOwner] under the mutex. *)
Definition ReleaseOwnerLocked `{MapRange} (m : manager) (rootID : bytes) : manager :=
  let m := m <| m_owners ::= delete rootID |> <| m_scopes ::= delete rootID |>
             <| m_abortRequested ::= delete rootID |>
             <| m_deadlocked ::= fun s => s ∖ {[ rootID ]} |> in
  let m := releaseGrantsLocked m rootID [] in
  let '(m, _) := cancelRequestsLocked m (fun b => bool_decide (b_OwnerID b = rootID)) RequestCanceled in
  let m := m <| m_graph ::= fun g => removeRoot g rootID |> in
  rebuildGraphLocked m.

(** The refund, which takes the ledger's own lock after the mutex has been dropped. *)
Definition refund (m : manager) (rootID : bytes) : manager :=
  m <| m_ledger ::= fun l => Ledger_ReleaseOwner l rootID |>.

(** [during] is what other callers do between the mutex and the refund. *)
Definition Manager_ReleaseOwner `{MapRange} (m : manager) (during : manager -> manager) (rootID : bytes)
    : manager * BudgetUsage :=
  let m := refund (during (ReleaseOwnerLocked m rootID)) rootID in
  (m, totalsLocked (m_ledger m)).

(** The owners are listed under the mutex, which is dropped before each of them is released:
    [before] and [during] are what other callers do there, owner by owner. *)
Definition Manager_ReleaseAll `{MapRange} (m : manager) (before during : bytes -> manager -> manager) : manager :=
  foldl (fun m rootID => (Manager_ReleaseOwner (before rootID m) (during rootID) rootID).1) (next_tick m)
    (range (m_tick m) (m_owners m)).*1.

Definition PendingRequests (m : manager) (rootID : bytes) : Z :=
  Z.of_nat (size (set_map (D:=gset Z) (fun e : entryID => e.1) (default ∅ (m_pending m !! rootID)))).

(** ** Epochs and shutdown *)

(** One owner of the loop of [ResetEpoch]; an owner in the table has not ended, but the code asks. *)
Definition end_owner (acc : manager * list bytes * Z) (kv : bytes * LockOwner) : manager * list bytes * Z :=
  let '(m, ended, invalidated) := acc in
  if bool_decide (OState kv.2 = OwnerEnded) then acc
  else (m <| m_abortRequested ::= <[kv.1 := AbortEpoch]> |>
          <| m_owners ::= delete kv.1 |> <| m_scopes ::= delete kv.1 |>,
        ended ++ [kv.1], invalidated + 1).

(** The part of [ResetEpoch] under the mutex, with the owners it ended. *)
Definition ResetEpochLocked `{MapRange} (m : manager) (generation term : Z) : manager * list bytes * Z :=
  let m := m <| m_generation := generation |> <| m_term := term |> in
  let '(m, ended, invalidated) := foldl end_owner (next_tick m, [], 0) (range (m_tick m) (m_owners m)) in
  let '(m, _) := cancelRequestsLocked m (fun _ => true) RequestInvalidated in
  let m := foldl (fun m rootID => releaseGrantsLocked m rootID []) m ended in
  let m := m <| m_graph ::= clear |> <| m_deadlocked := ∅ |> <| m_invalidated ::= succ64 |>
             <| m_bindings ::= fun b => Bindings_Reset b generation |> in
  (m, ended, invalidated).

(** [during] is what other callers do before the refund of each owner. *)
Definition ResetEpoch `{MapRange} (m : manager) (during : bytes -> manager -> manager) (generation term : Z)
    : manager * Z :=
  let '(m, ended, invalidated) := ResetEpochLocked m generation term in
  (foldl (fun m rootID => refund (during rootID m) rootID) m ended, invalidated).

Definition Manager_Close `{MapRange} (m : manager) : manager :=
  if m_closed m then m
  else
    let owned := dom (m_owners m) in
    let m := m <| m_closed := true |> <| m_owners := ∅ |>
               <| m_scopes ::= filter (fun kv => kv.1 ∉ owned) |>
               <| m_abortRequested ::= filter (fun kv => kv.1 ∉ owned) |> in
    let '(m, _) := cancelRequestsLocked m (fun _ => true) RequestCanceled in
    m <| m_locks := ∅ |> <| m_waiting := ∅ |> <| m_graph ::= clear |> <| m_deadlocked := ∅ |>
      <| m_ledger ::= ReleaseAll |>.

(** ** Reading the state *)

Definition LockTableSize (m : manager) : Z := Z.of_nat (size (m_locks m)).

Definition LockStateFor (m : manager) (resource : ResourceRef) : LockState :=
  from_option state LockStateFree (m_locks m !! ResourceKey resource).

Definition HeldMode (m : manager) (rootID : bytes) (resource : ResourceRef) : option Mode :=
  entry ← m_locks m !! ResourceKey resource; heldModeOf entry rootID resource.

Definition offeredModeFor (m : manager) (rootID : bytes) (resource : ResourceRef) : option Mode :=
  entry ← m_locks m !! ResourceKey resource; offeredModeOf entry rootID resource.

Definition OfferedMode (m : manager) (rootID : bytes) (resource : ResourceRef) : option Mode :=
  entry ← m_locks m !! ResourceKey resource; offeredMode entry rootID.

Record LockSnapshot : Type := mkSnapshot {
  SnapResource : ResourceRef;
  SnapState : LockState;
  SnapHolderMode : Mode;
  SnapHolders : Z;
  SnapWaiters : Z;
  SnapHolderRoots : list bytes
}.

Definition Snapshot `{MapRange} (m : manager) : list LockSnapshot :=
  sort_stable (fun a b => bltb (ResourceKey (SnapResource a)) (ResourceKey (SnapResource b)))
    ((fun e => mkSnapshot (le_ref e) (state e) (holderMode e) (holderCount e) (waiterCount e)
                 (sort_stable bltb (range (m_tick m) (le_claims e)).*1))
       <$> filter (fun e => negb ((holderCount e =? 0) && (waiterCount e =? 0)))
             (range (m_tick m) (m_locks m)).*2).

Record Stats : Type := mkStats {
  ActiveOwners : Z;
  StatGrantedComponents : Z;
  StatPendingRequests : Z;
  StatWaitEdges : Z;
  StatMemoryBytes : Z;
  Timeouts : Z;
  StatDeadlocks : Z;
  ResourceRejections : Z;
  EpochInvalidations : Z;
  StatRevision : Z
}.

Definition pending_bundles (m : manager) : gset Z :=
  map_fold (fun _ (requests : gset entryID) (acc : gset Z) => set_map (fun e : entryID => e.1) requests ∪ acc)
    ∅ (m_pending m).

Definition Manager_Stats `{MapRange} (m : manager) : manager * Stats :=
  let m := ensureGraphLocked (ensureGraphLocked m) in
  (m, mkStats (Z.of_nat (size (m_owners m)))
        (map_sum (fun rootID _ => GrantedComponents (m_ledger m) rootID) (m_owners m))
        (Z.of_nat (size (pending_bundles m))) (Size (m_graph m)) (u_MemoryBytes (totalsLocked (m_ledger m)))
        (m_timeouts m) (m_deadlocks m) (l_rejections (m_ledger m)) (m_invalidated m)
        (revision (m_graph m))).
