(* ===== verification/ManagerInv.v ===== *)
(** * The lock manager's invariant

    What holds of the lock table, the requests and the two indexes of waiting requests between
    any two calls, and that the building blocks of every operation keep it. *)

From stdpp Require Import gmap list sorting strings fin_maps.
From S2P Require Import Prelude LockTypes Interval Resource Compat ScopeTree Ledger Queue Graph Manager.

(** ** One request *)

Definition is_held (q : lockRequest) : bool := bool_decide (q_state q = entryHeld).

Definition held_count (entries : list lockRequest) : Z :=
  Z.of_nat (length (filter (fun q => is_held q) entries)).

Record bundle_ok (b : requestBundle) : Prop := {
  bo_refs : Forall (fun q => wf_ref (q_ref q)) (b_entries b);
  bo_keys : NoDup (ClaimKey <$> components b);
  bo_nonempty : b_entries b <> [];
  bo_held : b_held b = held_count (b_entries b);
  bo_status : d_status (b_decision b) = b_Status b;
  bo_decided : d_decided (b_decision b) = Terminal (b_Status b);
  bo_grant g : d_grant (b_decision b) = Some g ->
    b_Status b = RequestGranted /\ GrantOwnerID g = b_OwnerID b /\ GrantComponents g = components b;
  bo_granted : b_Status b = RequestGranted -> complete b = true /\ is_Some (d_grant (b_decision b))
}.

(** Changes of a request that leave its outcome, its identity and what it holds alone. *)
Definition benign_entry (q q' : lockRequest) : Prop :=
  q_ref q' = q_ref q /\ q_dead q' = q_dead q /\ (q_state q' = entryHeld <-> q_state q = entryHeld).

Record benign (b b' : requestBundle) : Prop := {
  bn_owner : b_OwnerID b' = b_OwnerID b;
  bn_scope : b_ScopeID b' = b_ScopeID b;
  bn_status : b_Status b' = b_Status b;
  bn_decision : b_decision b' = b_decision b;
  bn_held : b_held b' = b_held b;
  bn_reservation : b_reservation b' = b_reservation b;
  bn_entries : Forall2 benign_entry (b_entries b) (b_entries b')
}.

Lemma benign_entry_refl q : benign_entry q q.
Proof. done. Qed.

Lemma benign_entries_refl l : Forall2 benign_entry l l.
Proof. induction l; by constructor. Qed.

Lemma benign_refl b : benign b b.
Proof. split; try done. apply benign_entries_refl. Qed.

(** A change of fields other than the entries. *)
Lemma benign_fields b b' :
  b_OwnerID b' = b_OwnerID b -> b_ScopeID b' = b_ScopeID b -> b_Status b' = b_Status b ->
  b_decision b' = b_decision b -> b_held b' = b_held b -> b_reservation b' = b_reservation b ->
  b_entries b' = b_entries b -> benign b b'.
Proof. intros ? ? ? ? ? ? E. split; try done. rewrite E. apply benign_entries_refl. Qed.

Lemma benign_components b b' : benign b b' -> components b' = components b.
Proof.
  intros Hb. unfold components. symmetry. apply list_eq_Forall2, Forall2_fmap.
  eapply Forall2_impl; [apply (bn_entries _ _ Hb)|]. intros q q' [E _]. cbn. congruence.
Qed.

Lemma benign_held_count es es' : Forall2 benign_entry es es' -> held_count es' = held_count es.
Proof.
  unfold held_count. induction 1 as [|q q' es es' (_ & _ & Hs) _ IH]; [done|].
  assert (is_held q' = is_held q) as E by (unfold is_held; by apply bool_decide_ext).
  rewrite !filter_cons, E. destruct (is_held q); cbn [Is_true decide]; case_decide; cbn [length]; lia.
Qed.

Lemma benign_complete b b' : benign b b' -> complete b' = complete b.
Proof.
  intros Hb. unfold complete. by rewrite (bn_held _ _ Hb), (Forall2_length _ _ _ (bn_entries _ _ Hb)).
Qed.

Lemma benign_ok b b' : benign b b' -> bundle_ok b -> bundle_ok b'.
Proof.
  intros Hb [Hr Hk Hn Hh Hs Hd Hg Hgr]. pose proof (bn_entries _ _ Hb) as He. split.
  - clear -Hr He. induction He as [|q q' es es' [E _] _ IH]; [done|].
    apply Forall_cons in Hr as [? ?]. constructor; [by rewrite E|auto].
  - by rewrite (benign_components _ _ Hb).
  - intros E. rewrite E in He. by apply Forall2_nil_inv_r in He.
  - by rewrite (bn_held _ _ Hb), Hh, (benign_held_count _ _ He).
  - by rewrite (bn_decision _ _ Hb), (bn_status _ _ Hb).
  - by rewrite (bn_decision _ _ Hb), (bn_status _ _ Hb).
  - intros g. rewrite (bn_decision _ _ Hb), (bn_status _ _ Hb), (bn_owner _ _ Hb), (benign_components _ _ Hb).
    apply Hg.
  - rewrite (bn_decision _ _ Hb), (bn_status _ _ Hb), (benign_complete _ _ Hb). apply Hgr.
Qed.

Definition heap_benign (h h' : heap) : Prop := forall r, option_relation benign (fun _ => False) (fun _ => False) (h !! r) (h' !! r).

Lemma heap_benign_refl h : heap_benign h h.
Proof. intros r. destruct (h !! r); [apply benign_refl|done]. Qed.

Lemma heap_benign_Some h h' r b :
  heap_benign h h' -> h !! r = Some b -> exists b', h' !! r = Some b' /\ benign b b'.
Proof. intros Hh E. specialize (Hh r). rewrite E in Hh. destruct (h' !! r); [eauto|done]. Qed.

Lemma heap_benign_Some_inv h h' r b' :
  heap_benign h h' -> h' !! r = Some b' -> exists b, h !! r = Some b /\ benign b b'.
Proof. intros Hh E. specialize (Hh r). rewrite E in Hh. destruct (h !! r); [eauto|done]. Qed.

Lemma heap_benign_alter h r f : (forall b, benign b (f b)) -> heap_benign h (alter f r h).
Proof.
  intros Hf r'. destruct (decide (r' = r)) as [->|Hne].
  - rewrite lookup_alter_eq. destruct (h !! r); [apply Hf|done].
  - rewrite lookup_alter_ne by done. apply heap_benign_refl.
Qed.

Lemma heap_benign_owner h h' id : heap_benign h h' -> req_owner h' id = req_owner h id.
Proof.
  intros Hh. unfold req_owner. specialize (Hh id.1). destruct (h !! id.1), (h' !! id.1); try done.
  apply (bn_owner _ _ Hh).
Qed.

Lemma heap_benign_deref h h' id q' :
  heap_benign h h' -> deref h' id = Some q' -> exists q, deref h id = Some q /\ benign_entry q q'.
Proof.
  unfold deref. intros Hh Hq. destruct (h' !! id.1) as [b'|] eqn:E; [|done].
  destruct (heap_benign_Some_inv _ _ _ _ Hh E) as (b & -> & Hb). cbn in *.
  destruct (Forall2_lookup_r _ _ _ _ _ (bn_entries _ _ Hb) Hq) as (q & ? & ?). eauto.
Qed.

Lemma heap_benign_deref_fwd h h' id q :
  heap_benign h h' -> deref h id = Some q -> exists q', deref h' id = Some q' /\ benign_entry q q'.
Proof.
  unfold deref. intros Hh Hq. destruct (h !! id.1) as [b|] eqn:E; [|done].
  destruct (heap_benign_Some _ _ _ _ Hh E) as (b' & -> & Hb). cbn in *.
  destruct (Forall2_lookup_l _ _ _ _ _ (bn_entries _ _ Hb) Hq) as (q' & ? & ?). eauto.
Qed.

Lemma deref_Some h id q : deref h id = Some q <-> exists b, h !! id.1 = Some b /\ b_entries b !! id.2 = Some q.
Proof.
  unfold deref. destruct (h !! id.1) as [b|]; cbn; [|split; [done|by intros (? & ? & _)]].
  split; [eauto|by intros (? & [= <-] & ?)].
Qed.

(** ** The manager *)

(** A claim stands at the key of its component and belongs to a request of its owner. *)
Definition claim_ok (h : heap) (k o : bytes) (c : lockClaim) : Prop :=
  ResourceKey (cl_ref c) = k /\ cl_mode c = mode (cl_ref c) /\
  exists b, h !! cl_request c = Some b /\ b_OwnerID b = o /\ cl_ref c ∈ components b.

(** Claims in force of two owners do not conflict. *)
Definition exclusive (e : lockEntry) : Prop :=
  forall o1 o2 c1 c2, o1 <> o2 -> c1 ∈ claims_of e o1 -> c2 ∈ claims_of e o2 ->
    cl_pending c1 = false -> cl_pending c2 = false -> componentsConflict (cl_ref c1) (cl_ref c2) = false.

(** A queued component: alive, not held, at the key of its resource, of a waiting request. *)
Definition queued_ok (h : heap) (W : gset Z) (k : bytes) (id : entryID) : Prop :=
  id.1 ∈ W /\ exists q, deref h id = Some q /\ ResourceKey (q_ref q) = k /\
    q_state q <> entryHeld /\ q_dead q = false.

Definition in_queue (t : lockTable) (k : bytes) (id : entryID) : Prop :=
  exists e, t !! k = Some e /\ id ∈ le_waiting e.

(** [W] are the waiting requests, [V] those the pending index tracks, and [X] the components that
    an operation under way has taken out of their queues (or not put there yet). *)
Record inv (X : entryID -> Prop) (V W : gset Z) (m : manager) : Prop := {
  iv_bundle r b : m_requests m !! r = Some b -> bundle_ok b;
  iv_id r b : m_requests m !! r = Some b -> 0 < r <= m_nextRequestID m;
  iv_ref k e : m_locks m !! k = Some e -> ResourceKey (le_ref e) = k;
  iv_index k e : m_locks m !! k = Some e -> indexed e;
  iv_claim k e o c : m_locks m !! k = Some e -> c ∈ claims_of e o -> claim_ok (m_requests m) k o c;
  iv_excl k e : m_locks m !! k = Some e -> exclusive e;
  iv_queue k e id : m_locks m !! k = Some e -> id ∈ le_waiting e -> queued_ok (m_requests m) W k id;
  iv_nodup k e : m_locks m !! k = Some e -> NoDup (le_waiting e);
  iv_waiting r : r ∈ W -> exists b, m_requests m !! r = Some b /\ b_Status b = RequestPending;
  iv_entry id q : id.1 ∈ W -> ~ X id -> deref (m_requests m) id = Some q ->
    q_dead q = false /\ (q_state q <> entryHeld -> in_queue (m_locks m) (ResourceKey (q_ref q)) id);
  iv_tracked o id : id ∈ default ∅ (m_pending m !! o) <->
    id.1 ∈ V /\ req_owner (m_requests m) id = o /\ is_Some (deref (m_requests m) id);
  iv_pending o : m_pending m !! o <> Some ∅
}.

Abbreviation none_exempt := (fun _ : entryID => False).
Definition minv (m : manager) : Prop := inv none_exempt (m_waiting m) (m_waiting m) m.

Lemma inv_frame X V W m m' :
  m_locks m' = m_locks m -> m_requests m' = m_requests m -> m_pending m' = m_pending m ->
  m_nextRequestID m' = m_nextRequestID m -> inv X V W m -> inv X V W m'.
Proof. intros E1 E2 E3 E4 []. split; rewrite ?E1, ?E2, ?E3, ?E4; assumption. Qed.

Lemma inv_weaken (X X' : entryID -> Prop) V W m : (forall id, X id -> X' id) -> inv X V W m -> inv X' V W m.
Proof. intros HX []. split; try done. intros id q HW Hn. apply iv_entry0; auto. Qed.

Lemma claim_ok_benign h h' k o c : heap_benign h h' -> claim_ok h k o c -> claim_ok h' k o c.
Proof.
  intros Hh (Hk & Hm & b & Hb & Ho & Hc). split_and!; [done..|].
  destruct (heap_benign_Some _ _ _ _ Hh Hb) as (b' & ? & Hbb). exists b'.
  by rewrite (bn_owner _ _ Hbb), (benign_components _ _ Hbb).
Qed.

Lemma queued_ok_benign h h' W k id : heap_benign h h' -> queued_ok h W k id -> queued_ok h' W k id.
Proof.
  intros Hh (HW & q & Hq & Hk & Hs & Hd). split; [done|].
  destruct (heap_benign_deref_fwd _ _ _ _ Hh Hq) as (q' & ? & Er & Ed & Es). exists q'.
  split_and!; [done|congruence|by rewrite Es|congruence].
Qed.

(** A benign change of the requests. *)
Lemma inv_benign X V W m h :
  heap_benign (m_requests m) h -> inv X V W m -> inv X V W (m <| m_requests := h |>).
Proof.
  intros Hh []. split; cbn [m_requests m_locks m_pending m_nextRequestID field_update]; try done.
  - intros r b' Hr. destruct (heap_benign_Some_inv _ _ _ _ Hh Hr) as (b & ? & ?). eapply benign_ok; eauto.
  - intros r b' Hr. destruct (heap_benign_Some_inv _ _ _ _ Hh Hr) as (b & ? & ?). eauto.
  - intros k e o c Hk Hc. eapply claim_ok_benign; eauto.
  - intros k e id Hk Hid. eapply queued_ok_benign; eauto.
  - intros r Hr. destruct (iv_waiting0 r Hr) as (b & Hb & Hs).
    destruct (heap_benign_Some _ _ _ _ Hh Hb) as (b' & ? & Hbb). exists b'. by rewrite (bn_status _ _ Hbb).
  - intros id q' HW HX Hq'. destruct (heap_benign_deref _ _ _ _ Hh Hq') as (q & Hq & Er & Ed & Es).
    destruct (iv_entry0 id q HW HX Hq) as [? Hin]. rewrite Ed, Er, Es. auto.
  - intros o id. rewrite iv_tracked0, (heap_benign_owner _ _ _ Hh).
    apply and_iff_compat_l, and_iff_compat_l. split; intros [q Hq].
    + destruct (heap_benign_deref_fwd _ _ _ _ Hh Hq) as (q' & -> & _). done.
    + destruct (heap_benign_deref _ _ _ _ Hh Hq) as (q' & -> & _). done.
Qed.

Lemma inv_on_bundle X V W m r f :
  (forall b, benign b (f b)) -> inv X V W m -> inv X V W (on_bundle m r f).
Proof. intros Hf. apply (inv_benign X V W m). by apply heap_benign_alter. Qed.

(** Another entry at a key. *)
Lemma inv_put_lock X V W m k e e' :
  inv X V W m -> m_locks m !! k = Some e -> le_ref e' = le_ref e -> indexed e' ->
  (forall o c, c ∈ claims_of e' o -> claim_ok (m_requests m) k o c) -> exclusive e' ->
  NoDup (le_waiting e') ->
  (forall id, id ∈ le_waiting e' -> queued_ok (m_requests m) W k id) ->
  (forall id, id ∈ le_waiting e -> id ∉ le_waiting e' -> X id) ->
  inv X V W (put_lock m k e').
Proof.
  intros [] Hk Href Hix Hcl Hex Hnd Hq Hlost.
  split; cbn [m_requests m_locks m_pending m_nextRequestID field_update put_lock]; try done.
  - intros k' e0 [[<- <-]|[_ ?]]%lookup_insert_Some; [rewrite Href; eauto|eauto].
  - intros k' e0 [[<- <-]|[_ ?]]%lookup_insert_Some; eauto.
  - intros k' e0 o c [[<- <-]|[_ ?]]%lookup_insert_Some; eauto.
  - intros k' e0 [[<- <-]|[_ ?]]%lookup_insert_Some; eauto.
  - intros k' e0 id [[<- <-]|[_ ?]]%lookup_insert_Some; eauto.
  - intros k' e0 [[<- <-]|[_ ?]]%lookup_insert_Some; eauto.
  - intros id q HW HX Hd. destruct (iv_entry0 id q HW HX Hd) as [? Hin]. split; [done|].
    intros Hs. destruct (Hin Hs) as (e0 & He0 & Hid). unfold in_queue.
    destruct (decide (ResourceKey (q_ref q) = k)) as [E|Hne].
    + subst k. exists e'. rewrite lookup_insert_eq. split; [done|]. assert (e0 = e) as -> by congruence.
      destruct (decide (id ∈ le_waiting e')) as [|Hno]; [done|]. exfalso. by apply HX, Hlost.
    + exists e0. by rewrite lookup_insert_ne.
Qed.

(** Dropping an entry that nobody holds or waits for. *)
Lemma inv_release_lock X V W m k : inv X V W m -> inv X V W (release_lock m k).
Proof.
  intros Hm. change (inv X V W (m <| m_locks := Queue.release (m_locks m) k |>)). unfold Queue.release.
  destruct (m_locks m !! k) as [e|] eqn:Hk; [|by apply (inv_frame X V W m)].
  destruct (bool_decide _ && _) eqn:E; [|by apply (inv_frame X V W m)].
  destruct Hm. split; cbn [m_requests m_locks m_pending m_nextRequestID field_update]; try done.
  1-6: intros k' e0; intros; match goal with H : delete _ _ !! _ = Some _ |- _ =>
    apply lookup_delete_Some in H as [_ ?]; eauto end.
  intros id q HW HX Hd. destruct (iv_entry0 id q HW HX Hd) as [? Hin]. split; [done|].
  intros Hs. destruct (Hin Hs) as (e0 & He0 & Hid). exists e0. split; [|done].
  apply lookup_delete_Some. split; [|done]. intros Heq. subst k. assert (e0 = e) as -> by congruence.
  apply andb_true_iff in E as [_ E%Nat.eqb_eq%nil_length_inv]. rewrite E in Hid.
  by apply not_elem_of_nil in Hid.
Qed.

(** An entry made to exist. *)
Lemma inv_entryFor X V W m ref : inv X V W m -> inv X V W (m <| m_locks ::= fun t => entryFor t ref |>).
Proof.
  intros Hm. change (inv X V W (m <| m_locks := entryFor (m_locks m) ref |>)). unfold entryFor.
  destruct (m_locks m !! ResourceKey ref) as [e|] eqn:Hk; [by apply (inv_frame X V W m)|].
  destruct Hm. split; cbn [m_requests m_locks m_pending m_nextRequestID field_update]; try done.
  - intros k e [[<- <-]|[_ ?]]%lookup_insert_Some; [done|eauto].
  - intros k e [[<- <-]|[_ ?]]%lookup_insert_Some; [apply newLockEntry_indexed|eauto].
  - intros k e o c [[<- <-]|[_ ?]]%lookup_insert_Some; [|eauto].
    unfold claims_of. cbn. rewrite lookup_empty. by intros []%not_elem_of_nil.
  - intros k e [[<- <-]|[_ ?]]%lookup_insert_Some; [|eauto].
    intros o1 o2 c1 c2 _. unfold claims_of. cbn. rewrite lookup_empty. by intros []%not_elem_of_nil.
  - intros k e id [[<- <-]|[_ ?]]%lookup_insert_Some; [by intros []%not_elem_of_nil|eauto].
  - intros k e [[<- <-]|[_ ?]]%lookup_insert_Some; [constructor|eauto].
  - intros id q HW HX Hd. destruct (iv_entry0 id q HW HX Hd) as [? Hin]. split; [done|].
    intros Hs. destruct (Hin Hs) as (e0 & He0 & Hid). exists e0. split; [|done].
    rewrite lookup_insert_ne; [done|]. intros Heq. by rewrite Heq, He0 in Hk.
Qed.

Lemma entryFor_lookup t ref : exists e, entryFor t ref !! ResourceKey ref = Some e.
Proof.
  unfold entryFor. destruct (t !! ResourceKey ref) as [e|] eqn:E; [eauto|].
  rewrite lookup_insert_eq. eauto.
Qed.

(** ** Changing what one entry holds *)

Definition fewer_claims (e' e : lockEntry) : Prop := forall o c, c ∈ claims_of e' o -> c ∈ claims_of e o.

Lemma swap_remove_subset {A} (l : list A) i x y : l !! i = Some x -> y ∈ swap_remove i l -> y ∈ l.
Proof. intros Hi Hy. rewrite <- (swap_remove_perm _ _ _ Hi). by right. Qed.

Lemma remove_claim_fewer e o i c m : claims_of e o !! i = Some c -> fewer_claims (remove_claim e o i m) e.
Proof.
  intros Hi o' c'. rewrite claims_of_remove_claim. case_decide; [subst|done]. by apply (swap_remove_subset _ _ c).
Qed.

Lemma dropClaim_fewer e r o ref : fewer_claims (dropClaim e r o ref).1 e.
Proof.
  destruct (dropClaim_cases e r o ref) as [[-> _]|(i & c & Hi & _ & ->)]; [by intros ? ?|].
  by apply (remove_claim_fewer _ _ _ c).
Qed.

Lemma dropClaimForOwner_fewer e o ref : fewer_claims (dropClaimForOwner e o ref).1 e.
Proof.
  destruct (dropClaimForOwner_cases e o ref) as [->|(i & c & Hi & _ & _ & ->)]; [by intros ? ?|].
  by apply (remove_claim_fewer _ _ _ c).
Qed.

Lemma dropAllClaims_fewer e o : fewer_claims (dropAllClaims e o).1 e.
Proof. intros o' c. rewrite dropAllClaims_claims. case_decide; [by intros []%not_elem_of_nil|done]. Qed.

Lemma dropClaim_waiting e r o ref : le_waiting (dropClaim e r o ref).1 = le_waiting e.
Proof.
  destruct (dropClaim_cases e r o ref) as [[-> _]|(i & c & _ & _ & ->)]; [done|]. apply waiting_remove_claim.
Qed.

Lemma dropClaimForOwner_waiting e o ref : le_waiting (dropClaimForOwner e o ref).1 = le_waiting e.
Proof.
  destruct (dropClaimForOwner_cases e o ref) as [->|(i & c & _ & _ & _ & ->)]; [done|].
  apply waiting_remove_claim.
Qed.

Lemma ref_deindexClaim e o m : le_ref (deindexClaim e o m) = le_ref e.
Proof. unfold deindexClaim. destruct (le_claimedModes e !! m); [|done]. by case_bool_decide. Qed.

Lemma ref_remove_claim e o i m : le_ref (remove_claim e o i m) = le_ref e.
Proof.
  unfold remove_claim. cbn zeta. transitivity (le_ref (put_claims e o (swap_remove i (claims_of e o)))).
  - destruct (negb _); [apply ref_deindexClaim|done].
  - unfold put_claims. by destruct (_ =? _)%nat.
Qed.

Lemma dropClaim_ref e r o ref : le_ref (dropClaim e r o ref).1 = le_ref e.
Proof.
  destruct (dropClaim_cases e r o ref) as [[-> _]|(i & c & _ & _ & ->)]; [done|]. apply ref_remove_claim.
Qed.

Lemma dropClaimForOwner_ref e o ref : le_ref (dropClaimForOwner e o ref).1 = le_ref e.
Proof.
  destruct (dropClaimForOwner_cases e o ref) as [->|(i & c & _ & _ & _ & ->)]; [done|]. apply ref_remove_claim.
Qed.

Lemma dropAllClaims_ref e o : le_ref (dropAllClaims e o).1 = le_ref e.
Proof.
  unfold dropAllClaims. destruct (le_claims e !! o) as [l|]; [|done]. cbn [fst].
  set (e0 := e <| le_claims ::= delete o |>). change (le_ref e) with (le_ref e0).
  generalize e0 as x. induction (remove_dups _) as [|m ms IH]; intros x; cbn; [done|].
  rewrite IH. destruct (negb _); [apply ref_deindexClaim|done].
Qed.

Lemma fewer_exclusive e' e : fewer_claims e' e -> exclusive e -> exclusive e'.
Proof. intros Hf He o1 o2 c1 c2 Hne H1 H2. apply (He o1 o2 c1 c2 Hne); by apply Hf. Qed.

(** Taking one component out of a queue. *)
Lemma remove_waiting e id id' :
  NoDup (le_waiting e) -> id' ∈ le_waiting (remove e id) <-> id' ∈ le_waiting e /\ id' <> id.
Proof.
  intros Hnd. unfold remove. destruct (find_index _ _) as [i|] eqn:E.
  - apply find_index_Some in E as (x & Hx & Hp & _). apply bool_decide_eq_true in Hp as ->.
    cbn [le_waiting field_update]. rewrite <- (take_drop_middle _ _ _ Hx) in Hnd |- *.
    set (l1 := take i _) in *. set (l2 := drop (S i) _) in *.
    assert (length l1 = i) as Hl by (unfold l1; rewrite length_take; apply lookup_lt_Some in Hx; lia).
    rewrite <- Hl, take_app_length.
    replace (drop (S (length l1)) (l1 ++ id :: l2)) with l2.
    2: { change (id :: l2) with ([id] ++ l2). rewrite app_assoc, drop_app_ge by (rewrite length_app; cbn; lia).
         rewrite length_app. cbn. by replace (S (length l1) - (length l1 + 1))%nat with 0%nat by lia. }
    apply NoDup_app in Hnd as (_ & Hd & [Hn2 _]%NoDup_cons). rewrite !elem_of_app, elem_of_cons. split.
    + intros [H|H]; (split; [by auto|]); intros ->; [by apply (Hd id H); left|done].
    + intros [[H|[H|H]] Hne]; auto. done.
  - apply find_index_None in E. rewrite Forall_forall in E. split; [|by intros [? _]].
    intros H. split; [done|]. intros ->. specialize (E _ H). by apply bool_decide_eq_false in E.
Qed.

Lemma remove_NoDup e id : NoDup (le_waiting e) -> NoDup (le_waiting (remove e id)).
Proof.
  intros Hnd. unfold remove. destruct (find_index _ _) as [i|]; [|done]. cbn [le_waiting field_update].
  eapply sublist_NoDup; [exact Hnd|]. rewrite <- (take_drop i (le_waiting e)) at 3.
  apply sublist_app; [done|]. replace (S i) with (i + 1)%nat by lia. rewrite <- drop_drop.
  apply sublist_drop.
Qed.

Lemma remove_claims e id : le_claims (remove e id) = le_claims e.
Proof. unfold remove. by case_match. Qed.

Lemma remove_modes e id : le_claimedModes (remove e id) = le_claimedModes e.
Proof. unfold remove. by case_match. Qed.

Lemma remove_ref e id : le_ref (remove e id) = le_ref e.
Proof. unfold remove. by case_match. Qed.

(** What the index of modes says depends on the claims only. *)
Lemma indexed_same e e' :
  le_claims e' = le_claims e -> le_claimedModes e' = le_claimedModes e -> indexed e -> indexed e'.
Proof.
  intros Hc Hm [Hn Hb He]. split; rewrite ?Hc, ?Hm; [done|done|].
  intros o m. unfold bucket, has_mode, claims_of. rewrite Hc, Hm. apply He.
Qed.

Lemma exclusive_same e e' : le_claims e' = le_claims e -> exclusive e -> exclusive e'.
Proof. intros Hc He. unfold exclusive, claims_of. rewrite Hc. apply He. Qed.

(** Fewer claims, and at most one component leaves the queue. *)
Lemma inv_drop X V W m k e e1 id :
  inv X V W m -> m_locks m !! k = Some e -> le_ref e1 = le_ref e -> indexed e1 ->
  fewer_claims e1 e -> le_waiting e1 = le_waiting e ->
  inv (fun x => X x \/ x = id) V W (put_lock m k (remove e1 id)).
Proof.
  intros Hm Hk Href Hix Hf Hw.
  apply (inv_put_lock _ _ _ _ _ e); [by apply (inv_weaken X); [by left|]|done|..].
  - by rewrite remove_ref.
  - by apply (indexed_same e1); [apply remove_claims|apply remove_modes|].
  - intros o c. unfold claims_of. rewrite remove_claims. fold (claims_of e1 o). intros Hc%Hf.
    by apply (iv_claim _ _ _ _ Hm k e o).
  - apply (exclusive_same e1); [apply remove_claims|]. eapply fewer_exclusive; [done|].
    by apply (iv_excl _ _ _ _ Hm k).
  - apply remove_NoDup. rewrite Hw. by apply (iv_nodup _ _ _ _ Hm k).
  - intros x [Hx _]%remove_waiting; rewrite Hw in *; [|by apply (iv_nodup _ _ _ _ Hm k)].
    by apply (iv_queue _ _ _ _ Hm k e).
  - intros x Hx Hno. right. destruct (decide (x = id)); [done|]. destruct Hno.
    rewrite remove_waiting; rewrite Hw; [done|by apply (iv_nodup _ _ _ _ Hm k)].
Qed.

(** Fewer claims, the queue untouched. *)
Lemma inv_fewer X V W m k e e1 :
  inv X V W m -> m_locks m !! k = Some e -> le_ref e1 = le_ref e -> indexed e1 ->
  fewer_claims e1 e -> le_waiting e1 = le_waiting e -> inv X V W (put_lock m k e1).
Proof.
  intros Hm Hk Href Hix Hf Hw. apply (inv_put_lock _ _ _ _ _ e); try done; rewrite ?Hw.
  - intros o c Hc%Hf. by apply (iv_claim _ _ _ _ Hm k e o).
  - eapply fewer_exclusive; [done|]. by apply (iv_excl _ _ _ _ Hm k).
  - by apply (iv_nodup _ _ _ _ Hm k).
  - intros id. by apply (iv_queue _ _ _ _ Hm k e).
  - intros id H Hno. by destruct Hno.
Qed.

(** ** Granting one component *)

(** No other owner has a conflicting claim in force where a component belongs. *)
Definition free_of (t : lockTable) (owner : bytes) (ref : ResourceRef) : Prop :=
  forall e o c, t !! ResourceKey ref = Some e -> o <> owner -> c ∈ claims_of e o ->
    cl_pending c = false -> componentsConflict ref (cl_ref c) = false.

Lemma claim_ok_wf X V W m k o c : inv X V W m -> claim_ok (m_requests m) k o c -> wf_ref (cl_ref c).
Proof.
  intros Hm (_ & _ & b & Hb & _ & Hc). pose proof (bo_refs _ (iv_bundle _ _ _ _ Hm _ _ Hb)) as Hr.
  apply list_elem_of_fmap in Hc as (q & -> & Hq). by apply (proj1 (Forall_forall _ _) Hr).
Qed.

Lemma wf_mode_valid ref : wf_ref ref -> Mode_Valid (mode ref) = true.
Proof. intros [H _]. by apply Validate_mode. Qed.

Lemma wf_conflict_sym a b : wf_ref a -> wf_ref b -> componentsConflict a b = componentsConflict b a.
Proof. intros. apply componentsConflict_sym; by apply wf_mode_valid. Qed.

(** The claims of one owner change, and what is new does not conflict. *)
Lemma exclusive_change e e' o :
  exclusive e -> (forall o', o' <> o -> claims_of e' o' = claims_of e o') ->
  (forall c, c ∈ claims_of e' o -> cl_pending c = false ->
     (exists c0, c0 ∈ claims_of e o /\ cl_pending c0 = false /\ cl_ref c0 = cl_ref c) \/
     (forall o' c', o' <> o -> c' ∈ claims_of e o' -> cl_pending c' = false ->
        componentsConflict (cl_ref c) (cl_ref c') = false /\ componentsConflict (cl_ref c') (cl_ref c) = false)) ->
  exclusive e'.
Proof.
  intros He Hother Hown o1 o2 c1 c2 Hne H1 H2 P1 P2.
  destruct (decide (o1 = o)) as [->|H1o], (decide (o2 = o)) as [->|H2o].
  - done.
  - rewrite Hother in H2 by done. destruct (Hown c1 H1 P1) as [(c0 & Hc0 & Hp & <-)|Hfree].
    + by apply (He o o2).
    + by apply (Hfree o2 c2).
  - rewrite Hother in H1 by done. destruct (Hown c2 H2 P2) as [(c0 & Hc0 & Hp & <-)|Hfree].
    + by apply (He o1 o).
    + by apply (Hfree o1 c1).
  - rewrite Hother in H1, H2 by done. by apply (He o1 o2).
Qed.

Definition hold (m : manager) (r : Z) (i : nat) : manager :=
  on_bundle (m <| m_requests ::= fun h => on_entry h (r, i) (fun q => q <| q_state := entryHeld |>) |>) r
    (fun b => b <| b_held ::= Z.add 1 |>).

Definition hold_entry (b : requestBundle) (i : nat) : requestBundle :=
  b <| b_entries ::= alter (fun q => q <| q_state := entryHeld |>) i |> <| b_held ::= Z.add 1 |>.

Lemma hold_requests m r i : m_requests (hold m r i) = alter (fun b => hold_entry b i) r (m_requests m).
Proof.
  unfold hold, on_bundle, on_entry. cbn [m_requests field_update fst snd]. apply map_eq. intros r'.
  destruct (decide (r' = r)) as [->|Hne].
  - rewrite !lookup_alter_eq. cbn [fst snd]. by destruct (m_requests m !! r).
  - by rewrite !lookup_alter_ne.
Qed.

Lemma held_count_hold es i q :
  es !! i = Some q -> q_state q <> entryHeld ->
  held_count (alter (fun q => q <| q_state := entryHeld |>) i es) = 1 + held_count es.
Proof.
  unfold held_count. revert i. induction es as [|x es IH]; intros [|i]; cbn [lookup list_lookup]; try done.
  - intros [= ->] Hq. cbn [alter list_alter]. rewrite filter_cons_True by done.
    rewrite filter_cons_False by (unfold is_held; rewrite bool_decide_eq_false_2 by done; by intros []).
    cbn [length]. lia.
  - intros Hi Hq. pose proof (IH i Hi Hq) as E. unfold alter in *. cbn [list_alter].
    rewrite !filter_cons. case_decide; cbn [length]; lia.
Qed.

Lemma list_alter_cases {A} (f : A -> A) (l : list A) (i j : nat) y :
  alter f i l !! j = Some y -> (exists x, l !! i = Some x /\ y = f x /\ j = i) \/ (j <> i /\ l !! j = Some y).
Proof.
  destruct (decide (j = i)) as [->|Hne]; [rewrite list_lookup_alter_eq|rewrite list_lookup_alter_ne by done].
  - intros (x & Hx & ->)%fmap_Some. left. by exists x.
  - by right.
Qed.

Lemma list_alter_same {A} (f : A -> A) (l : list A) (i : nat) :
  (forall x, l !! i = Some x -> f x = x) -> alter f i l = l.
Proof.
  intros Hf. apply list_eq. intros j. destruct (decide (j = i)) as [->|Hne].
  - rewrite list_lookup_alter_eq. destruct (l !! i) as [x|]; cbn; [by rewrite Hf|done].
  - by rewrite list_lookup_alter_ne.
Qed.

Lemma hold_components b i : components (hold_entry b i) = components b.
Proof.
  unfold components, hold_entry. cbn [b_entries field_update]. apply list_eq. intros j.
  rewrite !list_lookup_fmap. destruct (decide (j = i)) as [->|Hne].
  - rewrite list_lookup_alter_eq. by destruct (b_entries b !! i).
  - by rewrite list_lookup_alter_ne.
Qed.

Lemma hold_ok b i q :
  bundle_ok b -> b_Status b = RequestPending -> b_entries b !! i = Some q -> q_state q <> entryHeld ->
  bundle_ok (hold_entry b i).
Proof.
  intros [Hr Hk Hn Hh Hs Hd Hg Hgr] Hst Hi Hq. split; rewrite ?hold_components; try done.
  - apply Forall_lookup. intros j x Hj. cbn [hold_entry b_entries field_update] in Hj.
    apply list_alter_cases in Hj as [(y & Hy & -> & ->)|[_ Hj]]; cbn;
      [apply (Forall_lookup_1 _ _ _ _ Hr Hy)|apply (Forall_lookup_1 _ _ _ _ Hr Hj)].
  - cbn. intros E%(f_equal length). rewrite length_alter in E. apply lookup_lt_Some in Hi. cbn in E. lia.
  - cbn. rewrite Hh. by rewrite (held_count_hold _ _ q).
  - intros E. cbn in E. congruence.
Qed.

Lemma deref_alter h r (f : requestBundle -> requestBundle) id :
  deref (alter f r h) id = if decide (id.1 = r) then b ← h !! r; b_entries (f b) !! id.2 else deref h id.
Proof.
  unfold deref. case_decide as E; [subst; rewrite lookup_alter_eq; by destruct (h !! id.1)|].
  by rewrite lookup_alter_ne.
Qed.

Lemma req_owner_alter h r f id :
  (forall b, b_OwnerID (f b) = b_OwnerID b) -> req_owner (alter f r h) id = req_owner h id.
Proof.
  intros Hf. unfold req_owner. destruct (decide (id.1 = r)) as [->|Hne].
  - rewrite lookup_alter_eq. destruct (h !! r); cbn; [apply Hf|done].
  - by rewrite lookup_alter_ne.
Qed.

Lemma deref_hold m r i b id q :
  m_requests m !! r = Some b -> b_entries b !! i = Some q ->
  deref (m_requests (hold m r i)) id =
    if decide (id = (r, i)) then Some (q <| q_state := entryHeld |>) else deref (m_requests m) id.
Proof.
  intros Hr Hi. rewrite hold_requests, deref_alter. destruct id as [r' j]. cbn [fst snd].
  destruct (decide (r' = r)) as [->|Hne].
  - rewrite Hr. cbn [mbind option_bind hold_entry b_entries field_update].
    destruct (decide (j = i)) as [->|Hj].
    + rewrite decide_True by done. by rewrite list_lookup_alter_eq, Hi.
    + rewrite decide_False by congruence. rewrite list_lookup_alter_ne by done.
      unfold deref. cbn [fst snd]. by rewrite Hr.
  - by rewrite decide_False by congruence.
Qed.

(** A component that stands in no queue becomes held. *)
Lemma inv_hold X V W m r i b q :
  inv X V W m -> m_requests m !! r = Some b -> b_Status b = RequestPending ->
  b_entries b !! i = Some q -> q_state q <> entryHeld ->
  (forall k, ~ in_queue (m_locks m) k (r, i)) -> (r ∈ W -> q_dead q = false) ->
  inv (fun id => X id /\ id <> (r, i)) V W (hold m r i).
Proof.
  intros Hm Hr Hst Hi Hq Hno Hdead.
  assert (forall id, deref (m_requests (hold m r i)) id = if decide (id = (r, i))
    then Some (q <| q_state := entryHeld |>) else deref (m_requests m) id) as Hde
    by (intros; by apply (deref_hold m r i b)).
  pose proof (hold_requests m r i) as Hreq.
  assert (forall r' b', m_requests (hold m r i) !! r' = Some b' ->
    exists b0, m_requests m !! r' = Some b0 /\ (b' = b0 \/ r' = r /\ b0 = b /\ b' = hold_entry b i)) as Hinv.
  { intros r' b'. rewrite Hreq. intros [(-> & b0 & Hb & ->)|[? ?]]%lookup_alter_Some; [|eauto].
    exists b0. assert (b0 = b) as -> by congruence. auto. }
  assert (forall r' b0, m_requests m !! r' = Some b0 -> exists b', m_requests (hold m r i) !! r' = Some b' /\
    b_OwnerID b' = b_OwnerID b0 /\ b_Status b' = b_Status b0 /\ components b' = components b0) as Hfwd.
  { intros r' b0 Hb0. rewrite Hreq. destruct (decide (r' = r)) as [->|Hne].
    - rewrite lookup_alter_eq, Hb0. exists (hold_entry b0 i). by rewrite hold_components.
    - rewrite lookup_alter_ne by done. eauto. }
  destruct Hm. split; try (intros; by eauto).
  - intros r' b' (b0 & Hb0 & [->|(-> & -> & ->)])%Hinv; [eauto|]. apply (hold_ok _ _ q); eauto.
  - intros r' b' (b0 & Hb0 & _)%Hinv. eauto.
  - intros k e o c Hk Hc. destruct (iv_claim0 k e o c Hk Hc) as (? & ? & b0 & Hb0 & <- & Hin).
    split_and!; [done..|]. destruct (Hfwd _ _ Hb0) as (b' & ? & ? & _ & Ec). exists b'. by rewrite Ec.
  - intros k e id Hk Hid. destruct (iv_queue0 k e id Hk Hid) as (HW & q0 & Hd & ?).
    split; [done|]. exists q0. rewrite Hde, decide_False; [done|]. intros ->. apply (Hno k). by exists e.
  - intros r' HW. destruct (iv_waiting0 r' HW) as (b0 & Hb0 & Hs). destruct (Hfwd _ _ Hb0) as (b' & ? & _ & ? & _).
    exists b'. split; [done|congruence].
  - intros id q' HW HX. rewrite Hde. case_decide as E; [|apply iv_entry0; tauto].
    intros [= <-]. subst id. split; [by apply Hdead|done].
  - intros o id. change (m_pending (hold m r i)) with (m_pending m). rewrite iv_tracked0, Hde.
    assert (req_owner (m_requests (hold m r i)) id = req_owner (m_requests m) id) as ->
      by (rewrite Hreq; by apply req_owner_alter).
    case_decide as E; [|done]. subst. apply and_iff_compat_l, and_iff_compat_l.
    split; [done|]. intros _. exists q. apply deref_Some. eauto.
Qed.

(** An entry with other claims and one component less in its queue. *)
Lemma inv_replace X V W m k e e1 id :
  inv X V W m -> m_locks m !! k = Some e -> le_ref e1 = le_ref e -> indexed e1 ->
  le_waiting e1 = le_waiting e ->
  (forall o c, c ∈ claims_of e1 o -> claim_ok (m_requests m) k o c) -> exclusive e1 ->
  inv (fun x => X x \/ x = id) V W (put_lock m k (remove e1 id)).
Proof.
  intros Hm Hk Href Hix Hw Hcl Hex.
  apply (inv_put_lock _ _ _ _ _ e); [by apply (inv_weaken X); [by left|]|done|..].
  - by rewrite remove_ref.
  - by apply (indexed_same e1); [apply remove_claims|apply remove_modes|].
  - intros o c. unfold claims_of. rewrite remove_claims. apply Hcl.
  - by apply (exclusive_same e1); [apply remove_claims|].
  - apply remove_NoDup. rewrite Hw. by apply (iv_nodup _ _ _ _ Hm k).
  - intros x [Hx _]%remove_waiting; rewrite Hw in *; [|by apply (iv_nodup _ _ _ _ Hm k)].
    by apply (iv_queue _ _ _ _ Hm k e).
  - intros x Hx Hno. right. destruct (decide (x = id)); [done|]. destruct Hno.
    rewrite remove_waiting; rewrite Hw; [done|by apply (iv_nodup _ _ _ _ Hm k)].
Qed.

Lemma dropClaim_other e r o ref o' : o' <> o -> claims_of (dropClaim e r o ref).1 o' = claims_of e o'.
Proof.
  intros Hne. destruct (dropClaim_cases e r o ref) as [[-> _]|(i & c & _ & _ & ->)]; [done|].
  cbn [fst]. by rewrite claims_of_remove_claim, decide_False.
Qed.

Lemma applyClaim_frame e r o ref :
  le_ref (applyClaim e r o ref).1 = le_ref e /\ le_waiting (applyClaim e r o ref).1 = le_waiting e.
Proof. unfold applyClaim. by destruct (find_index _ _). Qed.

Lemma same_claim_same_ref b x y :
  bundle_ok b -> x ∈ components b -> y ∈ components b -> SameClaim x y = true -> x = y.
Proof.
  intros Hb [i Hi]%list_elem_of_lookup [j Hj]%list_elem_of_lookup Hs%SameClaim_spec.
  assert (i = j) as ->; [|congruence].
  eapply (proj1 (NoDup_alt _) (bo_keys _ Hb)); rewrite list_lookup_fmap; [by rewrite Hi|].
  cbn. by rewrite Hj, Hs.
Qed.

(** What [grantLocked] leaves at the key of one component. *)
Record granted_entry (h : heap) (k owner : bytes) (e e1 : lockEntry) : Prop := {
  ge_ref : le_ref e1 = le_ref e;
  ge_index : indexed e1;
  ge_waiting : le_waiting e1 = le_waiting e;
  ge_other o : o <> owner -> claims_of e1 o = claims_of e o;
  ge_claim o c : c ∈ claims_of e1 o -> claim_ok h k o c;
  ge_excl : exclusive e1
}.

(** A claim of the owner's that is now in force was in force before or is free of conflicts. *)
Lemma exclusive_granted X V W m k e e1 owner ref :
  inv X V W m -> m_locks m !! k = Some e -> ResourceKey ref = k -> wf_ref ref ->
  free_of (m_locks m) owner ref -> (forall o, o <> owner -> claims_of e1 o = claims_of e o) ->
  (forall c, c ∈ claims_of e1 owner -> cl_pending c = false -> c ∈ claims_of e owner \/ cl_ref c = ref) ->
  exclusive e1.
Proof.
  intros Hm Hk <- Hwf Hfree Hother Hown. apply (exclusive_change e e1 owner); [|done|].
  - by apply (iv_excl _ _ _ _ Hm _ _ Hk).
  - intros c Hc Hp. destruct (Hown c Hc Hp) as [Hin| ->]; [left; by exists c|right].
    intros o' c' Ho' Hc' Hp'. pose proof (Hfree e o' c' Hk Ho' Hc' Hp') as Hf. split; [done|].
    rewrite wf_conflict_sym; [done| |done]. by eapply claim_ok_wf, (iv_claim _ _ _ _ Hm).
Qed.

Lemma granted_entry_adopted X V W m k e r owner ref :
  inv X V W m -> m_locks m !! k = Some e -> granted_entry (m_requests m) k owner e (dropClaim e r owner ref).1.
Proof.
  intros Hm Hk. pose proof (dropClaim_fewer e r owner ref) as Hf. split.
  - apply dropClaim_ref.
  - by apply dropClaim_indexed, (iv_index _ _ _ _ Hm k).
  - apply dropClaim_waiting.
  - intros o. apply dropClaim_other.
  - intros o c Hc%Hf. by apply (iv_claim _ _ _ _ Hm k e).
  - eapply fewer_exclusive; [done|]. by apply (iv_excl _ _ _ _ Hm k).
Qed.

Lemma granted_entry_applied X V W m k e e1 r b ref :
  inv X V W m -> m_locks m !! k = Some e -> m_requests m !! r = Some b -> ref ∈ components b ->
  ResourceKey ref = k -> free_of (m_locks m) (b_OwnerID b) ref ->
  applyClaim e r (b_OwnerID b) ref = (e1, true) -> granted_entry (m_requests m) k (b_OwnerID b) e e1.
Proof.
  intros Hm Hk Hr Href HK Hfree Hap. pose proof (iv_bundle _ _ _ _ Hm _ _ Hr) as Hb.
  destruct (applyClaim_frame e r (b_OwnerID b) ref) as [E1 E2].
  pose proof (applyClaim_indexed e r (b_OwnerID b) ref (iv_index _ _ _ _ Hm _ _ Hk)) as Hix.
  rewrite Hap in E1, E2, Hix. cbn [fst] in *.
  destruct (claims_of_applyClaim _ _ _ _ _ Hap) as (j & c0 & Hj & Hcr & Hsame & Hcl).
  assert (claim_ok (m_requests m) k (b_OwnerID b) c0) as Hc0
    by (apply (iv_claim _ _ _ _ Hm k e); [done|by eapply list_elem_of_lookup_2]).
  assert (cl_ref c0 = ref) as Ec0.
  { destruct Hc0 as (_ & _ & b' & Hb' & _ & Hin). assert (b' = b) as -> by congruence.
    by apply (same_claim_same_ref b). }
  assert (forall c, c ∈ claims_of e1 (b_OwnerID b) -> c ∈ claims_of e (b_OwnerID b) \/
    c = c0 <| cl_pending := false |>) as Hin.
  { intros c. rewrite Hcl, decide_True by done. intros [l Hl]%list_elem_of_lookup.
    apply list_lookup_insert_Some in Hl as [(_ & <- & _)|[_ Hl]]; [by right|].
    left. by eapply list_elem_of_lookup_2. }
  split; try done.
  - intros o Ho. by rewrite Hcl, decide_False.
  - intros o c Hc. destruct (decide (o = b_OwnerID b)) as [->|Ho].
    + destruct (Hin c Hc) as [?| ->]; [by apply (iv_claim _ _ _ _ Hm k e)|exact Hc0].
    + rewrite Hcl, decide_False in Hc by done. by apply (iv_claim _ _ _ _ Hm k e).
  - apply (exclusive_granted X V W m k e e1 (b_OwnerID b) ref); try done.
    + rewrite <- Ec0. by apply (claim_ok_wf X V W m k (b_OwnerID b)).
    + intros o Ho. by rewrite Hcl, decide_False.
    + intros c Hc _. destruct (Hin c Hc) as [?| ->]; [by left|by right].
Qed.

Lemma granted_entry_added X V W m k e r b ref :
  inv X V W m -> m_locks m !! k = Some e -> m_requests m !! r = Some b -> ref ∈ components b ->
  ResourceKey ref = k -> free_of (m_locks m) (b_OwnerID b) ref ->
  granted_entry (m_requests m) k (b_OwnerID b) e (addClaim e r (b_OwnerID b) ref false).
Proof.
  intros Hm Hk Hr Href HK Hfree. pose proof (iv_bundle _ _ _ _ Hm _ _ Hr) as Hb.
  split; try done.
  - by apply addClaim_indexed, (iv_index _ _ _ _ Hm k).
  - intros o Ho. by rewrite claims_of_addClaim, decide_False.
  - intros o c. rewrite claims_of_addClaim. case_decide as Ho; [subst o|by apply (iv_claim _ _ _ _ Hm k e)].
    intros [Hc| ->%list_elem_of_singleton]%elem_of_app; [by apply (iv_claim _ _ _ _ Hm k e)|].
    split_and!; [done..|]. by exists b.
  - apply (exclusive_granted X V W m k e _ (b_OwnerID b) ref); try done.
    + apply list_elem_of_fmap in Href as (q & -> & Hq). by apply (proj1 (Forall_forall _ _) (bo_refs _ Hb)).
    + intros o Ho. by rewrite claims_of_addClaim, decide_False.
    + intros c. rewrite claims_of_addClaim, decide_True by done.
      intros [Hc| ->%list_elem_of_singleton]%elem_of_app; [by left|by right].
Qed.

Definition held_entry (q : lockRequest) : lockRequest := q <| q_state := entryHeld |>.

(** What granting components of request [r] leaves alone: other owners' claims, other requests and
    every field but the lock table and the requests. *)
Record granting (r : Z) (owner : bytes) (m m' : manager) : Prop := {
  gr_locks k : option_relation (fun e e' => forall o, o <> owner -> claims_of e' o = claims_of e o)
    (fun _ => False) (fun _ => False) (m_locks m !! k) (m_locks m' !! k);
  gr_rest : m' = m <| m_locks := m_locks m' |> <| m_requests := m_requests m' |>;
  gr_other r' : r' <> r -> m_requests m' !! r' = m_requests m !! r'
}.

Lemma granting_refl r owner m : granting r owner m m.
Proof. split; [|by destruct m|done]. intros k. by destruct (m_locks m !! k). Qed.

Lemma granting_trans r owner m1 m2 m3 : granting r owner m1 m2 -> granting r owner m2 m3 -> granting r owner m1 m3.
Proof.
  intros [L1 E1 O1] [L2 E2 O2]. split.
  - intros k. specialize (L1 k). specialize (L2 k).
    destruct (m_locks m1 !! k), (m_locks m2 !! k), (m_locks m3 !! k); try done; cbn in *.
    intros o Ho. by rewrite L2, L1.
  - rewrite E2, E1. by destruct m1.
  - intros r' Hr'. by rewrite O2, O1.
Qed.

Lemma granting_Some r owner m m' k e :
  granting r owner m m' -> m_locks m !! k = Some e -> is_Some (m_locks m' !! k).
Proof. intros [L _ _] Hk. specialize (L k). rewrite Hk in L. by destruct (m_locks m' !! k). Qed.

Lemma granting_free r owner m m' ref :
  granting r owner m m' -> free_of (m_locks m) owner ref -> free_of (m_locks m') owner ref.
Proof.
  intros [L _ _] Hf e' o c Hk Ho Hc Hp. specialize (L (ResourceKey ref)). rewrite Hk in L.
  destruct (m_locks m !! ResourceKey ref) as [e|] eqn:E; [|done]. cbn in L. rewrite L in Hc by done.
  by apply (Hf e o).
Qed.

Lemma grant_entry_hold V W m r b i q e :
  inv none_exempt V W m -> m_requests m !! r = Some b -> b_entries b !! i = Some q ->
  m_locks m !! ResourceKey (q_ref q) = Some e -> q_state q <> entryHeld ->
  (q_state q = entryPending -> free_of (m_locks m) (b_OwnerID b) (q_ref q)) ->
  exists e1, granted_entry (m_requests m) (ResourceKey (q_ref q)) (b_OwnerID b) e e1 /\
    grant_entry r m i = hold (put_lock m (ResourceKey (q_ref q)) (remove e1 (r, i))) r i.
Proof.
  intros Hm Hr Hi Hk Hq Hfree. unfold grant_entry.
  assert (deref (m_requests m) (r, i) = Some q) as -> by (apply deref_Some; eauto).
  assert (req_owner (m_requests m) (r, i) = b_OwnerID b) as -> by (unfold req_owner; cbn; by rewrite Hr).
  assert (q_ref q ∈ components b) as Hin by (apply list_elem_of_fmap; exists q; split; [done|]; by eapply list_elem_of_lookup_2).
  rewrite Hk. destruct (q_state q) eqn:Es; [| done |].
  - destruct (applyClaim e r (b_OwnerID b) (q_ref q)) as [e1 [|]] eqn:Ea.
    + exists e1. split; [|done]. by apply (granted_entry_applied none_exempt V W m _ e e1 r b (q_ref q)); auto.
    + eexists. split; [|done].
      assert (e1 = e) as -> by (unfold applyClaim in Ea; destruct (find_index _ _); by injection Ea).
      by apply (granted_entry_added none_exempt V W m _ e r b (q_ref q)); auto.
  - eexists. split; [|done]. by apply (granted_entry_adopted none_exempt V W m).
Qed.

Lemma grant_entry_step V W m r b i :
  inv none_exempt V W m -> m_requests m !! r = Some b -> b_Status b = RequestPending ->
  (forall q, b_entries b !! i = Some q -> q_state q <> entryHeld -> is_Some (m_locks m !! ResourceKey (q_ref q))) ->
  (forall q, b_entries b !! i = Some q -> q_state q = entryPending -> free_of (m_locks m) (b_OwnerID b) (q_ref q)) ->
  let m' := grant_entry r m i in
  inv none_exempt V W m' /\ granting r (b_OwnerID b) m m' /\
  exists n, m_requests m' !! r = Some (b <| b_entries ::= alter held_entry i |> <| b_held := n |>).
Proof.
  intros Hm Hr Hst Hsome Hfree m'. subst m'.
  destruct (b_entries b !! i) as [q|] eqn:Hi.
  2: { assert (grant_entry r m i = m) as -> by (unfold grant_entry, deref; cbn; rewrite Hr; cbn; by rewrite Hi).
       split_and!; [done|apply granting_refl|]. exists (b_held b). rewrite Hr. f_equal. destruct b; cbn in *.
       rewrite list_alter_same; [done|congruence]. }
  destruct (decide (q_state q = entryHeld)) as [Eh|Hq].
  { assert (grant_entry r m i = m) as ->.
    { unfold grant_entry, deref. cbn. rewrite Hr. cbn. rewrite Hi. destruct (m_locks m !! _); [|done]. by rewrite Eh. }
    split_and!; [done|apply granting_refl|]. exists (b_held b). rewrite Hr. f_equal. destruct b; cbn in *.
    rewrite list_alter_same; [done|]. intros x Hx. assert (x = q) as -> by congruence.
    destruct q; cbn in *. by rewrite Eh. }
  destruct (Hsome q eq_refl Hq) as [e He].
  destruct (grant_entry_hold V W m r b i q e Hm Hr Hi He Hq (Hfree q eq_refl)) as (e1 & Hge & ->).
  set (k := ResourceKey (q_ref q)) in *. set (m1 := put_lock m k (remove e1 (r, i))).
  assert (inv (fun x => False \/ x = (r, i)) V W m1) as Hm1 by (destruct Hge; by apply (inv_replace _ _ _ _ _ e)).
  split_and!.
  - apply (inv_weaken (fun id => (False \/ id = (r, i)) /\ id <> (r, i))); [tauto|].
    apply (inv_hold _ _ _ _ _ _ b q); try done.
    + intros k' (e' & Hk' & Hin). cbn in Hk'. apply lookup_insert_Some in Hk' as [[<- <-]|[Hne Hk']].
      * apply remove_waiting in Hin as [_ ?]; [done|]. rewrite (ge_waiting _ _ _ _ _ Hge).
        by apply (iv_nodup _ _ _ _ Hm k).
      * destruct (iv_queue _ _ _ _ Hm k' e' _ Hk' Hin) as (_ & q' & Hd & HK & _). apply Hne.
        apply deref_Some in Hd as (b' & Hb' & Hi'). cbn in *. assert (q' = q) as -> by congruence. done.
    + intros HW. apply (iv_entry _ _ _ _ Hm (r, i) q); [done|tauto|]. apply deref_Some. eauto.
  - split.
    + intros k'. change (m_locks (hold m1 r i)) with (<[k := remove e1 (r, i)]> (m_locks m)).
      destruct (decide (k' = k)) as [->|Hne].
      * rewrite lookup_insert_eq, He. cbn. intros o Ho. unfold claims_of at 1. rewrite remove_claims.
        by apply (ge_other _ _ _ _ _ Hge).
      * rewrite lookup_insert_ne by done. by destruct (m_locks m !! k').
    + done.
    + intros r' Hr'. rewrite hold_requests. by rewrite lookup_alter_ne.
  - exists (1 + b_held b). rewrite hold_requests, lookup_alter_eq. cbn. rewrite Hr. done.
Qed.

(** All components of a bundle, one after the other. *)
Lemma grant_fold V W r l m b :
  inv none_exempt V W m -> m_requests m !! r = Some b -> b_Status b = RequestPending ->
  (forall i q, i ∈ l -> b_entries b !! i = Some q -> q_state q <> entryHeld ->
     is_Some (m_locks m !! ResourceKey (q_ref q))) ->
  (forall i q, b_entries b !! i = Some q -> q_state q = entryPending ->
     free_of (m_locks m) (b_OwnerID b) (q_ref q)) ->
  let m' := foldl (grant_entry r) m l in
  inv none_exempt V W m' /\ granting r (b_OwnerID b) m m' /\
  exists n, m_requests m' !! r =
    Some (b <| b_entries ::= fun es => foldl (fun es i => alter held_entry i es) es l |> <| b_held := n |>).
Proof.
  cbn zeta. revert m b. induction l as [|i l IH]; intros m b Hm Hr Hst Hsome Hfree; cbn [foldl].
  { split_and!; [done|apply granting_refl|]. exists (b_held b). rewrite Hr. by destruct b. }
  destruct (grant_entry_step V W m r b i Hm Hr Hst) as (Hm1 & Hg1 & n1 & Hr1).
  { intros q Hq. apply (Hsome i q); [by left|done]. }
  { intros q Hq. by apply (Hfree i q). }
  set (m1 := grant_entry r m i) in *. set (b1 := b <| b_entries ::= alter held_entry i |> <| b_held := n1 |>) in *.
  assert (forall j q, b_entries b1 !! j = Some q -> q_state q <> entryHeld -> b_entries b !! j = Some q) as Hback.
  { intros j q Hj Hq. cbn in Hj. apply list_alter_cases in Hj as [(x & _ & -> & _)|[_ ?]]; [by destruct Hq|done]. }
  destruct (IH m1 b1 Hm1 Hr1 Hst) as (Hm2 & Hg2 & n2 & Hr2).
  - intros j q Hj Hq Hs. destruct (Hsome j q) as [e He]; [by right|by apply Hback|done|].
    by apply (granting_Some _ _ _ _ _ _ Hg1 He).
  - intros j q Hq Hs. apply (granting_free _ _ _ _ _ Hg1). apply (Hfree j q); [|done].
    apply Hback; [done|congruence].
  - split_and!; [done|by apply (granting_trans _ _ _ m1)|]. exists n2. rewrite Hr2. done.
Qed.

Lemma held_fold_lookup (l : list nat) (es : list lockRequest) (i : nat) q :
  foldl (fun es i => alter held_entry i es) es l !! i = Some q -> i ∈ l -> q_state q = entryHeld.
Proof.
  assert (forall (l : list nat) (es : list lockRequest) (i : nat) q, foldl (fun es i => alter held_entry i es) es l !! i = Some q ->
    (exists q0, es !! i = Some q0 /\ q_state q0 = entryHeld) -> q_state q = entryHeld) as Hstay.
  { clear. induction l as [|j l IH]; intros es i q; cbn [foldl]; [intros ? (? & ? & ?); congruence|].
    intros Hq (q0 & Hq0 & Hs). apply (IH _ _ _ Hq). destruct (decide (i = j)) as [->|Hne].
    - rewrite list_lookup_alter_eq, Hq0. by eexists.
    - rewrite list_lookup_alter_ne by done. eauto. }
  revert es. induction l as [|j l IH]; intros es; cbn [foldl]; [by intros _ []%not_elem_of_nil|].
  intros Hq [->|Hin]%elem_of_cons; [|by eapply IH].
  assert (is_Some (es !! j)) as [q0 Hq0].
  { apply lookup_lt_is_Some. apply lookup_lt_Some in Hq.
    assert (forall l (es : list lockRequest), length (foldl (fun es i => alter held_entry i es) es l) = length es) as E
      by (clear; induction l as [|x l IH]; intros es; cbn; [done|by rewrite IH, length_alter]).
    by rewrite E, length_alter in Hq. }
  apply (Hstay _ _ _ _ Hq). rewrite list_lookup_alter_eq, Hq0. by eexists.
Qed.

Lemma held_count_all (es : list lockRequest) : (forall i q, es !! i = Some q -> q_state q = entryHeld) -> held_count es = Z.of_nat (length es).
Proof.
  intros Hes. unfold held_count. f_equal. induction es as [|x es IH]; [done|].
  rewrite filter_cons_True by (apply Is_true_true, bool_decide_eq_true; by apply (Hes 0%nat)).
  cbn [length]. f_equal. apply IH. intros i q. apply (Hes (S i)).
Qed.

Lemma held_count_full (es : list lockRequest) (i : nat) q :
  Z.of_nat (length es) <= held_count es -> es !! i = Some q -> q_state q = entryHeld.
Proof.
  unfold held_count. revert i. induction es as [|x es IH]; intros i Hle; [done|].
  pose proof (length_filter (fun q => is_held q) es) as Hf. rewrite filter_cons in Hle.
  case_decide as Hx; cbn [length] in Hle; [|lia]. apply Is_true_true, bool_decide_eq_true in Hx.
  destruct i as [|i]; cbn; [by intros [= ->]|]. apply IH. lia.
Qed.

Lemma complete_held b i q :
  bundle_ok b -> complete b = true -> b_entries b !! i = Some q -> q_state q = entryHeld.
Proof.
  intros Hb Hc%Z.leb_le. rewrite (bo_held _ Hb) in Hc. by apply held_count_full.
Qed.

(** A complete bundle stands in no queue. *)
Lemma complete_not_queued X V W m r b i k :
  inv X V W m -> m_requests m !! r = Some b -> complete b = true -> ~ in_queue (m_locks m) k (r, i).
Proof.
  intros Hm Hr Hc (e & Hk & Hin). destruct (iv_queue _ _ _ _ Hm k e _ Hk Hin) as (_ & q & Hd & _ & Hs & _).
  apply Hs. apply deref_Some in Hd as (b' & Hb' & Hi). cbn in *. assert (b' = b) as -> by congruence.
  apply (complete_held b i); [|done|done]. by apply (iv_bundle _ _ _ _ Hm r).
Qed.

(** ** Settling a request *)

Lemma elem_of_entry_ids r b id : id ∈ entry_ids r b <-> id.1 = r /\ is_Some (b_entries b !! id.2).
Proof.
  unfold entry_ids. rewrite list_elem_of_fmap, lookup_lt_is_Some. destruct id as [r' i]; cbn. split.
  - intros (j & [= -> ->] & Hj%elem_of_seq). split; [done|lia].
  - intros [-> Hi]. exists i. split; [done|]. apply elem_of_seq. lia.
Qed.

Lemma elem_of_untrack r b p o id :
  id ∈ default ∅ (untrack r b p !! o) <->
  id ∈ default ∅ (p !! o) /\ ~ (o = b_OwnerID b /\ id.1 = r /\ is_Some (b_entries b !! id.2)).
Proof.
  rewrite <- elem_of_entry_ids. unfold untrack. destruct (p !! b_OwnerID b) as [s|] eqn:Ep.
  - destruct (decide (o = b_OwnerID b)) as [->|Hne].
    + rewrite Ep. case_bool_decide as Hs; rewrite ?lookup_delete_eq, ?lookup_insert_eq; cbn; set_solver.
    + case_bool_decide; rewrite ?lookup_delete_ne, ?lookup_insert_ne by done; set_solver.
  - split; [|tauto]. intros H. split; [done|]. intros [-> _]. rewrite Ep in H. cbn in H. set_solver.
Qed.

Lemma untrack_nonempty r b p o : (forall o, p !! o <> Some ∅) -> untrack r b p !! o <> Some ∅.
Proof.
  intros Hp. unfold untrack. destruct (p !! b_OwnerID b) as [s|]; [|done]. case_bool_decide.
  - intros [_ ?]%lookup_delete_Some. by eapply Hp.
  - intros [[_ ?]|[_ ?]]%lookup_insert_Some; [done|by eapply Hp].
Qed.

(** The request [r], which stands in no queue, changes to [b'] and stops being tracked. *)
Lemma inv_settle X V W m r b b' m' :
  inv X V W m -> m_requests m !! r = Some b -> bundle_ok b' -> b_OwnerID b' = b_OwnerID b ->
  components b' = components b -> (forall k i, ~ in_queue (m_locks m) k (r, i)) ->
  m_locks m' = m_locks m -> m_requests m' = <[r := b']> (m_requests m) ->
  m_pending m' = untrack r b (m_pending m) -> m_nextRequestID m' = m_nextRequestID m ->
  inv X (V ∖ {[ r ]}) (W ∖ {[ r ]}) m'.
Proof.
  intros Hm Hr Hb' Ho Hc Hno EL ER EP EN.
  assert (forall id, is_Some (deref (m_requests m') id) <-> is_Some (deref (m_requests m) id)) as Hdom.
  { intros id. unfold deref. rewrite ER. destruct (decide (id.1 = r)) as [->|Hne].
    - rewrite lookup_insert_eq, Hr. cbn. rewrite !lookup_lt_is_Some.
      apply (f_equal length) in Hc. unfold components in Hc. rewrite !length_fmap in Hc. by rewrite Hc.
    - by rewrite lookup_insert_ne. }
  assert (forall id, req_owner (m_requests m') id = req_owner (m_requests m) id) as Hown.
  { intros id. unfold req_owner. rewrite ER. destruct (decide (id.1 = r)) as [->|Hne].
    - by rewrite lookup_insert_eq, Hr.
    - by rewrite lookup_insert_ne. }
  destruct Hm. split; rewrite ?EL, ?EN; try done.
  - intros r' b0. rewrite ER. intros [[<- <-]|[_ ?]]%lookup_insert_Some; eauto.
  - intros r' b0. rewrite ER. intros [[<- <-]|[_ ?]]%lookup_insert_Some; eauto.
  - intros k e o c Hk Hcl. destruct (iv_claim0 k e o c Hk Hcl) as (? & ? & b0 & Hb0 & ? & Hin).
    split_and!; [done..|]. rewrite ER. destruct (decide (cl_request c = r)) as [Er|Hne].
    + rewrite Er, lookup_insert_eq. exists b'. assert (b0 = b) as -> by congruence. by rewrite Hc, Ho.
    + rewrite lookup_insert_ne by done. eauto.
  - intros k e id Hk Hid. destruct (iv_queue0 k e id Hk Hid) as (HW & q & Hd & ?).
    assert (id.1 <> r) as Hne by (intros <-; apply (Hno k id.2); exists e; by destruct id).
    split; [set_solver|]. exists q. unfold deref. by rewrite ER, lookup_insert_ne.
  - intros r' [HW Hne%not_elem_of_singleton]%elem_of_difference. rewrite ER, lookup_insert_ne by done. eauto.
  - intros id q [HW Hne%not_elem_of_singleton]%elem_of_difference HX. unfold deref.
    rewrite ER, lookup_insert_ne by done. by apply iv_entry0.
  - intros o id. rewrite EP, elem_of_untrack, iv_tracked0, Hdom, Hown, elem_of_difference, not_elem_of_singleton.
    split.
    + intros ((HV & Ho' & Hs) & Hn). split_and!; try done. intros Hid. apply Hn. split_and!; [|done|].
      * rewrite <- Ho'. unfold req_owner. by rewrite Hid, Hr.
      * destruct Hs as [q (b0 & Hb0 & Hq)%deref_Some]. assert (b0 = b) as -> by congruence. eauto.
    + intros ((HV & Hne) & Ho' & Hs). split_and!; [done..|]. by intros (_ & ? & _).
  - intros o. rewrite EP. by apply untrack_nonempty.
Qed.

Lemma setStatus_ok b status :
  bundle_ok b -> b_Status b = RequestPending -> Terminal status = true -> status <> RequestGranted ->
  bundle_ok (setStatus b status).
Proof.
  intros [Hr Hk Hn Hh Hs Hd Hg Hgr] Hst Ht Hng. unfold setStatus, record.
  rewrite Hd, Hst. cbn [Terminal negb bool_decide decide]. rewrite Ht.
  split; try done; cbn.
  - intros g Hg'. apply Hg in Hg' as [E _]. congruence.
Qed.

Lemma granted_ok b g n :
  bundle_ok b -> b_Status b = RequestPending -> complete b = true ->
  GrantOwnerID g = b_OwnerID b -> GrantComponents g = components b ->
  bundle_ok (setStatus (setGrant (b <| b_grantID := n |>) g) RequestGranted).
Proof.
  intros [Hr Hk Hn Hh Hs Hd Hg Hgr] Hst Hc Ho Hcs. unfold setStatus, setGrant, recordGrant, record.
  cbn. rewrite Hd, Hst. cbn. split; try done; cbn.
  - intros g' [= <-]. done.
Qed.

Lemma setStatus_identity b status :
  b_OwnerID (setStatus b status) = b_OwnerID b /\ components (setStatus b status) = components b /\
  b_entries (setStatus b status) = b_entries b.
Proof. unfold setStatus. by destruct (record _ _). Qed.

Lemma completeBundle_waiting m r :
  m_waiting (completeBundleLocked m r) = m_waiting m \/
  m_waiting (completeBundleLocked m r) = m_waiting m ∖ {[ r ]}.
Proof.
  unfold completeBundleLocked. destruct (m_requests m !! r) as [b|]; [|by left].
  destruct (_ || _); [by left|]. destruct (Commit _ _) as [l [u|e]]; [|by left].
  right. by destruct (_ <? _).
Qed.

Lemma completeBundle_locks m r : m_locks (completeBundleLocked m r) = m_locks m.
Proof.
  unfold completeBundleLocked. destruct (m_requests m !! r) as [b|]; [|done].
  destruct (_ || _); [done|]. destruct (Commit _ _) as [l [u|e]]; [|done]. by destruct (_ <? _).
Qed.

Lemma completeBundle_inv m r b :
  minv m -> m_requests m !! r = Some b -> minv (completeBundleLocked m r).
Proof.
  intros Hm Hr. unfold completeBundleLocked. rewrite Hr.
  destruct (Terminal (b_Status b) || negb (complete b)) eqn:E; [done|].
  apply orb_false_iff in E as [Et Ec%negb_false_iff].
  assert (b_Status b = RequestPending) as Hst by (by apply negb_false_iff, bool_decide_eq_true in Et).
  destruct (Commit (m_ledger m) (b_reservation b)) as [l [u|e]]; [|by apply (inv_frame _ _ _ m)].
  pose proof (iv_bundle _ _ _ _ Hm _ _ Hr) as Hb. unfold minv.
  destruct (m_nextGrantID _ <? u64_max); cbn [m_waiting field_update untrackPendingLocked].
  - eapply (inv_settle _ _ _ m r b); [done|done| | | | |done..].
    + by apply granted_ok.
    + by destruct (setStatus_identity (setGrant (b <| b_grantID := 1 + m_nextGrantID m |>)
        (buildGrant m (b <| b_grantID := 1 + m_nextGrantID m |>))) RequestGranted) as [? _].
    + by destruct (setStatus_identity (setGrant (b <| b_grantID := 1 + m_nextGrantID m |>)
        (buildGrant m (b <| b_grantID := 1 + m_nextGrantID m |>))) RequestGranted) as (_ & ? & _).
    + intros k i. by apply (complete_not_queued _ _ _ _ _ b _ _ Hm).
  - eapply (inv_settle _ _ _ m r b); [done|done| | | | |done..].
    + pose proof (granted_ok b (buildGrant m b) (b_grantID b)) as H. destruct b. by apply H.
    + by destruct (setStatus_identity (setGrant b (buildGrant m b)) RequestGranted) as [? _].
    + by destruct (setStatus_identity (setGrant b (buildGrant m b)) RequestGranted) as (_ & ? & _).
    + intros k i. by apply (complete_not_queued _ _ _ _ _ b _ _ Hm).
Qed.

(** Under the invariant pruning finds nothing to drop. *)
Lemma prune_nothing X V W m k e :
  inv X V W m -> m_locks m !! k = Some e -> pruneEntryLocked (m_requests m) e = e.
Proof.
  intros Hm Hk. unfold pruneEntryLocked. destruct e as [ref anon cl md w g] eqn:Ee. cbn. f_equal.
  assert (forall id, id ∈ w -> live_candidate (m_requests m) id = true) as Hlive.
  { intros id Hid. destruct (iv_queue _ _ _ _ Hm k e id) as (HW & q & Hd & _ & _ & Hdead); [by subst..|].
    unfold live_candidate. rewrite Hd. destruct (iv_waiting _ _ _ _ Hm _ HW) as (b & -> & Hs).
    cbn. by rewrite Hdead, Hs. }
  clear -Hlive. induction w as [|id w IH]; [done|].
  rewrite filter_cons_True by (apply Is_true_true, Hlive; by left).
  f_equal. apply IH. intros. apply Hlive. by right.
Qed.

Lemma prune_key_release X V W m k :
  inv X V W m -> prune_key m k = release_lock m k.
Proof.
  intros Hm. unfold prune_key, release_lock, Queue.release. destruct (m_locks m !! k) as [e|] eqn:Hk.
  - rewrite (prune_nothing _ _ _ _ _ _ Hm Hk). unfold put_lock. destruct m; cbn in *.
    by rewrite insert_id by done.
  - destruct m; cbn in *. by rewrite Hk.
Qed.

Lemma prune_key_inv X V W m k : inv X V W m -> inv X V W (prune_key m k).
Proof. intros Hm. rewrite (prune_key_release _ _ _ _ _ Hm). by apply inv_release_lock. Qed.

Lemma prune_fold X V W l m :
  inv X V W m ->
  let m' := foldl prune_key m l in
  inv X V W m' /\ m' = m <| m_locks := m_locks m' |> /\
  (forall k e, m_locks m' !! k = Some e -> m_locks m !! k = Some e).
Proof.
  cbn zeta. revert m. induction l as [|k l IH]; intros m Hm; cbn [foldl]; [by split_and!; [|destruct m|]|].
  destruct (IH (prune_key m k)) as (H1 & H2 & H3); [by apply prune_key_inv|].
  rewrite (prune_key_release _ _ _ _ _ Hm) in *. split_and!; [done|by rewrite H2; destruct m|].
  intros k' e He. apply H3 in He. unfold release_lock, Queue.release in He. cbn in He.
  destruct (m_locks m !! k) as [e0|]; [|done]. destruct (_ && _); [|done].
  by apply lookup_delete_Some in He as [_ ?].
Qed.
