(* ===== verification/ManagerPass.v ===== *)
(** * The fair pass and the end of a request

    Granting a ready bundle, the rounds of the fair pass, and finishing a request keep the
    manager's invariant and the outcome of every request already decided; the pass terminates. *)

From stdpp Require Import gmap list sorting strings fin_maps.
From S2P Require Import Prelude LockTypes Interval Resource Compat ScopeTree Ledger Queue Graph Manager ManagerInv.

(** ** How requests evolve *)

(** A request keeps its owner, scope and components for good, and once it is decided its outcome
    and its grant never change. *)
Record evolution (b b' : requestBundle) : Prop := {
  ev_owner : b_OwnerID b' = b_OwnerID b;
  ev_scope : b_ScopeID b' = b_ScopeID b;
  ev_components : components b' = components b;
  ev_final : Terminal (b_Status b) = true -> b_Status b' = b_Status b /\ b_decision b' = b_decision b
}.

#[export] Instance evolution_preorder : PreOrder evolution.
Proof.
  split; [intros b; by split|]. intros b1 b2 b3 [O1 S1 C1 F1] [O2 S2 C2 F2]. split; [congruence..|].
  intros Ht. destruct (F1 Ht) as [E1 D1]. destruct F2 as [E2 D2]; [by rewrite E1|]. split; congruence.
Qed.

Definition evolves (h h' : heap) : Prop :=
  forall r b, h !! r = Some b -> exists b', h' !! r = Some b' /\ evolution b b'.

#[export] Instance evolves_preorder : PreOrder evolves.
Proof.
  split; [intros h r b ?; by exists b|]. intros h1 h2 h3 H1 H2 r b Hb.
  destruct (H1 r b Hb) as (b' & Hb' & E1). destruct (H2 r b' Hb') as (b'' & ? & E2).
  exists b''. split; [done|]. by transitivity b'.
Qed.

Lemma benign_evolution b b' : benign b b' -> evolution b b'.
Proof.
  intros Hb. split; [apply Hb|apply Hb|by apply benign_components|].
  intros _. split; apply Hb.
Qed.

Lemma heap_benign_evolves h h' : heap_benign h h' -> evolves h h'.
Proof.
  intros Hh r b Hr. destruct (heap_benign_Some _ _ _ _ Hh Hr) as (b' & ? & ?). exists b'.
  split; [done|]. by apply benign_evolution.
Qed.

Lemma evolves_insert h r b b' : h !! r = Some b -> evolution b b' -> evolves h (<[r := b']> h).
Proof.
  intros Hr He r' b0 Hb0. destruct (decide (r' = r)) as [->|Hne].
  - exists b'. rewrite lookup_insert_eq. split; [done|]. congruence.
  - exists b0. by rewrite lookup_insert_ne.
Qed.

(** ** What a pass leaves alone *)

Record frame (m m' : manager) : Prop := {
  fr_owners : m_owners m' = m_owners m;
  fr_scopes : m_scopes m' = m_scopes m;
  fr_nextRequestID : m_nextRequestID m' = m_nextRequestID m;
  fr_closed : m_closed m' = m_closed m;
  fr_now : m_now m' = m_now m;
  fr_deadlocked : m_deadlocked m' = m_deadlocked m
}.

#[export] Instance frame_preorder : PreOrder frame.
Proof. split; [by intros m|]. intros m1 m2 m3 [] []. split; congruence. Qed.

(** A request that stops waiting has been decided. *)
Definition decided (m : manager) (r : Z) : Prop :=
  exists b, m_requests m !! r = Some b /\ Terminal (b_Status b) = true.

Definition accounted (m m' : manager) : Prop :=
  forall r, r ∈ m_waiting m -> r ∈ m_waiting m' \/ decided m' r.

Lemma accounted_same m m' : m_waiting m' = m_waiting m -> accounted m m'.
Proof. intros E r Hr. left. by rewrite E. Qed.

Lemma decided_evolves m m' r : evolves (m_requests m) (m_requests m') -> decided m r -> decided m' r.
Proof.
  intros He (b & Hb & Ht). destruct (He r b Hb) as (b' & Hb' & Hev). exists b'. split; [done|].
  by destruct (ev_final _ _ Hev Ht) as [-> _].
Qed.

Lemma accounted_trans m1 m2 m3 :
  evolves (m_requests m2) (m_requests m3) -> accounted m1 m2 -> accounted m2 m3 -> accounted m1 m3.
Proof.
  intros He H1 H2 r Hr. destruct (H1 r Hr) as [Hw|Hd]; [by apply H2|]. right. by apply (decided_evolves m2).
Qed.

(** A step inside an operation: the invariant, the decided requests and the frame are kept, and
    no request starts to wait. *)
Record quiet (m m' : manager) : Prop := {
  qu_inv : minv m';
  qu_evolves : evolves (m_requests m) (m_requests m');
  qu_waiting : m_waiting m' ⊆ m_waiting m;
  qu_frame : frame m m';
  qu_accounted : accounted m m'
}.

Lemma quiet_refl m : minv m -> quiet m m.
Proof. intros Hm. split; try done. by apply accounted_same. Qed.

Lemma quiet_trans m1 m2 m3 : quiet m1 m2 -> quiet m2 m3 -> quiet m1 m3.
Proof.
  intros [_ E1 W1 F1 A1] [H E2 W2 F2 A2].
  split; [done|by etrans|set_solver|by etrans|by apply (accounted_trans m1 m2 m3)].
Qed.

(** Only fields the invariant does not read. *)
Lemma quiet_frame m m' :
  minv m -> m_locks m' = m_locks m -> m_requests m' = m_requests m -> m_pending m' = m_pending m ->
  m_waiting m' = m_waiting m -> frame m m' -> quiet m m'.
Proof.
  intros Hm E1 E2 E3 E4 Hf. split; [|by rewrite E2|by rewrite E4|done|by apply accounted_same].
  unfold minv. rewrite E4. apply (inv_frame _ _ _ m); try done. apply Hf.
Qed.

(** The waiting requests that are not complete: what the pass can still grant. *)
Definition unfinished (m : manager) : gset Z :=
  filter (fun r => from_option (fun b => negb (complete b)) false (m_requests m !! r) = true) (m_waiting m).

Lemma elem_of_unfinished m r :
  r ∈ unfinished m <-> r ∈ m_waiting m /\ exists b, m_requests m !! r = Some b /\ complete b = false.
Proof.
  unfold unfinished. rewrite elem_of_filter, (Logic.and_comm _ (r ∈ _)). apply and_iff_compat_l.
  destruct (m_requests m !! r) as [b|]; cbn; [rewrite negb_true_iff|].
  - split; [eauto|by intros (? & [= <-] & ?)].
  - split; [done|by intros (? & ? & _)].
Qed.

(** ** Completing *)

Lemma completeBundle_requests m r b :
  m_requests m !! r = Some b ->
  exists b', m_requests (completeBundleLocked m r) = <[r := b']> (m_requests m) /\ evolution b b' /\
    b_entries b' = b_entries b /\ b_held b' = b_held b.
Proof.
  intros Hr. unfold completeBundleLocked. rewrite Hr.
  assert (m_requests m = <[r := b]> (m_requests m)) as Hid by (by rewrite insert_id).
  destruct (Terminal (b_Status b)) eqn:Et; cbn [orb]; [exists b; by split_and!|].
  destruct (negb (complete b)); [exists b; by split_and!|].
  destruct (Commit _ _) as [l [u|e]]; [|exists b; by split_and!].
  destruct (_ <? _); eexists; (split; [done|]); unfold setStatus, setGrant;
    destruct (record _ _); (split; [|done]); (split; [done..|]); congruence.
Qed.

Lemma completeBundle_frame m r : frame m (completeBundleLocked m r).
Proof.
  unfold completeBundleLocked. destruct (m_requests m !! r) as [b|]; [|done].
  destruct (_ || _); [done|]. destruct (Commit _ _) as [l [u|e]]; [|done]. by destruct (_ <? _).
Qed.

Lemma completeBundle_decides m r r' :
  (forall r b, m_requests m !! r = Some b -> bundle_ok b) ->
  r' ∈ m_waiting m -> r' ∉ m_waiting (completeBundleLocked m r) -> decided (completeBundleLocked m r) r'.
Proof.
  intros Hok Hin Hn. unfold completeBundleLocked in *. destruct (m_requests m !! r) as [b|] eqn:Hr; [|done].
  destruct (Terminal (b_Status b) || negb (complete b)) eqn:E; [done|]. apply orb_false_iff in E as [Et _].
  destruct (Commit _ _) as [l [u|e]]; [|done]. cbn zeta in *.
  assert (r' = r) as ->.
  { apply dec_stable. intros Hne. apply Hn. destruct (_ <? _); cbn; set_solver. }
  pose proof (bo_decided _ (Hok r b Hr)) as Hd. rewrite Et in Hd.
  unfold decided. destruct (_ <? _); cbn; rewrite lookup_insert_eq; eexists; (split; [done|]);
    unfold setStatus, setGrant, recordGrant, record; cbn; by rewrite Hd.
Qed.

Lemma completeBundle_quiet m r : minv m -> quiet m (completeBundleLocked m r).
Proof.
  intros Hm. destruct (m_requests m !! r) as [b|] eqn:Hr.
  2: { unfold completeBundleLocked. rewrite Hr. by apply quiet_refl. }
  destruct (completeBundle_requests m r b Hr) as (b' & E & He & _). split.
  - by apply (completeBundle_inv m r b).
  - rewrite E. by apply (evolves_insert _ _ b).
  - destruct (completeBundle_waiting m r) as [-> | ->]; set_solver.
  - apply completeBundle_frame.
  - intros r' Hr'. destruct (decide (r' ∈ m_waiting (completeBundleLocked m r))) as [?|Hn]; [by left|right].
    apply (completeBundle_decides m r r'); [apply Hm|done..].
Qed.

Lemma completeBundle_unfinished m r : unfinished (completeBundleLocked m r) ⊆ unfinished m.
Proof.
  intros r'. rewrite !elem_of_unfinished. intros [HW (b' & Hb' & Hc)].
  assert (r' ∈ m_waiting m) by (destruct (completeBundle_waiting m r) as [E|E]; rewrite E in HW; set_solver).
  split; [done|]. destruct (m_requests m !! r) as [b|] eqn:Hr.
  - destruct (completeBundle_requests m r b Hr) as (b1 & E & _ & Ee & Eh). rewrite E in Hb'.
    apply lookup_insert_Some in Hb' as [[<- <-]|[_ ?]]; [|eauto].
    exists b. split; [done|]. unfold complete in *. by rewrite <- Ee, <- Eh.
  - unfold completeBundleLocked in Hb'. rewrite Hr in Hb'. eauto.
Qed.

(** ** Granting *)

Lemma held_fold_refs (l : list nat) (es : list lockRequest) :
  q_ref <$> foldl (fun es i => alter held_entry i es) es l = q_ref <$> es.
Proof.
  revert es. induction l as [|i l IH]; intros es; cbn; [done|]. rewrite IH. apply list_eq. intros j.
  rewrite !list_lookup_fmap. destruct (decide (j = i)) as [->|Hne].
  - rewrite list_lookup_alter_eq. by destruct (es !! i).
  - by rewrite list_lookup_alter_ne.
Qed.

Lemma held_fold_length (l : list nat) (es : list lockRequest) :
  length (foldl (fun es i => alter held_entry i es) es l) = length es.
Proof. pose proof (f_equal length (held_fold_refs l es)) as H. by rewrite !length_fmap in H. Qed.

(** A bundle that may be granted: its components that are not held have an entry in the table, and
    those still pending are free of other owners' claims. *)
Record grant_ready (m : manager) (r : Z) (b : requestBundle) : Prop := {
  rd_request : m_requests m !! r = Some b;
  rd_pending : b_Status b = RequestPending;
  rd_entry i q : b_entries b !! i = Some q -> q_state q <> entryHeld ->
    is_Some (m_locks m !! ResourceKey (q_ref q));
  rd_free i q : b_entries b !! i = Some q -> q_state q = entryPending ->
    free_of (m_locks m) (b_OwnerID b) (q_ref q)
}.

Lemma grantLocked_spec m r b :
  minv m -> grant_ready m r b ->
  quiet m (grantLocked m r) /\ unfinished (grantLocked m r) ⊆ unfinished m ∖ {[ r ]} /\
  exists b', m_requests (grantLocked m r) = <[r := b']> (m_requests m) /\ complete b' = true.
Proof.
  intros Hm [Hr Hst Hent Hfree]. unfold grantLocked. rewrite Hr, Hst. change (Terminal RequestPending) with false. cbn match.
  destruct (grant_fold _ _ r (seq 0 (length (b_entries b))) m b Hm Hr Hst) as (Hm1 & Hg & n & Hr1);
    [by intros; eapply Hent|done|].
  set (m1 := foldl (grant_entry r) m _) in *.
  set (b1 := b <| b_entries ::= _ |> <| b_held := n |>) in Hr1.
  destruct (prune_fold _ _ _ (resourceKeys b) m1 Hm1) as (Hm2 & Hrest & _).
  set (m2 := foldl prune_key m1 _) in *.
  assert (m_requests m2 = <[r := b1]> (m_requests m)) as Hreq.
  { rewrite Hrest. cbn. apply map_eq. intros r'. destruct (decide (r' = r)) as [->|Hne].
    - by rewrite lookup_insert_eq.
    - rewrite lookup_insert_ne by done. by apply (gr_other _ _ _ _ Hg). }
  assert (m2 = m <| m_locks := m_locks m2 |> <| m_requests := m_requests m2 |>) as Hsame.
  { rewrite Hrest, (gr_rest _ _ _ _ Hg). by destruct m. }
  assert (m_waiting m2 = m_waiting m) as HW by (by rewrite Hsame).
  assert (minv m2) as Hm2' by (unfold minv; rewrite HW; exact Hm2).
  assert (complete b1 = true) as Hc1.
  { unfold complete. apply Z.leb_le.
    rewrite (bo_held b1) by (apply (iv_bundle _ _ _ _ Hm2 r); by rewrite Hreq, lookup_insert_eq).
    rewrite held_count_all; [done|]. intros i q Hq. cbn in Hq. apply (held_fold_lookup _ _ _ _ Hq).
    apply lookup_lt_Some in Hq. rewrite held_fold_length in Hq. apply elem_of_seq. lia. }
  assert (evolution b b1) as Hev.
  { split; try done. apply held_fold_refs. }
  assert (quiet m m2) as Hq2.
  { split; [done|rewrite Hreq; by apply (evolves_insert _ _ b)|by rewrite HW| |by apply accounted_same]. rewrite Hsame. by split. }
  assert (m_requests m2 !! r = Some b1) as Hr2 by (by rewrite Hreq, lookup_insert_eq).
  destruct (completeBundle_requests m2 r b1 Hr2) as (b' & E & _ & Ee & Eh).
  assert (complete b' = true) as Hc' by (unfold complete in *; by rewrite Ee, Eh).
  split_and!.
  - eapply quiet_trans; [done|]. apply completeBundle_quiet, Hq2.
  - intros r' Hin%completeBundle_unfinished. apply elem_of_unfinished in Hin as (HWr & b0 & Hb0 & Hc0).
    rewrite Hreq in Hb0. apply lookup_insert_Some in Hb0 as [[<- <-]|[Hne Hb0]]; [congruence|].
    apply elem_of_difference. rewrite HW in HWr. split; [|set_solver]. apply elem_of_unfinished. eauto.
  - exists b'. split; [|done]. rewrite E, Hreq. by rewrite insert_insert_eq.
Qed.

(** ** Readiness *)

Lemma heap_benign_on_entry h id q f :
  deref h id = Some q -> benign_entry q (f q) -> heap_benign h (on_entry h id f).
Proof.
  intros (b & Hb & Hq)%deref_Some Hf r. unfold on_entry. destruct (decide (r = id.1)) as [->|Hne].
  2: { rewrite lookup_alter_ne by done. apply heap_benign_refl. }
  rewrite lookup_alter_eq, Hb. cbn. split; try done. cbn [b_entries field_update].
  apply Forall2_same_length_lookup_2; [by rewrite length_alter|].
  intros i x y Hx [(z & Hz & -> & ->)|[_ Hy]]%list_alter_cases.
  - assert (z = q) as -> by congruence. assert (x = q) as -> by congruence. done.
  - assert (x = y) as -> by congruence. apply benign_entry_refl.
Qed.

Lemma adoptable_benign h e entry ref q :
  deref h entry = Some q -> q_state q = entryPending -> heap_benign h (adoptableOwnClaim h e entry ref).1.
Proof.
  intros Hq Hs. unfold adoptableOwnClaim.
  destruct (adoptable_in h e (le_waiting e) entry ref) as [answer [earlier|]]; [|apply heap_benign_refl].
  apply (heap_benign_on_entry _ _ q); [done|]. split_and!; [done..|]. cbn. by rewrite Hs.
Qed.

(** A component is only adopted when it is not granted. *)
Lemma adoptable_in_answer h e w entry ref : (adoptable_in h e w entry ref).1 = false ->
  (adoptable_in h e w entry ref).2 = None.
Proof.
  induction w as [|x w IH]; cbn; [done|]. repeat (case_match; try done).
Qed.

Lemma grantable_spec h e entry ref q :
  deref h entry = Some q -> q_state q = entryPending ->
  heap_benign h (grantable h e entry ref).1 /\
  ((grantable h e entry ref).2 = true ->
     (grantable h e entry ref).1 = h /\ hasBlockingClaims e (req_owner h entry) entry ref = false /\
     waitersAhead h e entry ref = false).
Proof.
  intros Hq Hs. unfold grantable. destruct (hasBlockingClaims _ _ _ _); [split; [apply heap_benign_refl|done]|].
  destruct (waitersAhead _ _ _ _).
  { split; [|done]. apply heap_benign_alter. intros b. by apply benign_fields. }
  pose proof (adoptable_benign h e entry ref q Hq Hs) as Hb.
  destruct (adoptableOwnClaim h e entry ref) as [h' held_back] eqn:E. cbn [fst snd] in *.
  split; [done|]. intros ->%negb_true_iff. split; [|done]. unfold adoptableOwnClaim in E.
  pose proof (adoptable_in_answer h e (le_waiting e) entry ref) as Ha.
  destruct (adoptable_in h e (le_waiting e) entry ref) as [[] [?|]]; cbn in Ha; injection E; try done.
  by specialize (Ha eq_refl).
Qed.

Lemma ready_entries_spec t r l h :
  heap_benign h (ready_entries t h r l).1 /\
  ((ready_entries t h r l).2 = true ->
     (ready_entries t h r l).1 = h /\
     forall i q, i ∈ l -> deref h (r, i) = Some q -> q_dead q = false -> settled q = false ->
       exists e, t !! ResourceKey (q_ref q) = Some e /\
         hasBlockingClaims e (req_owner h (r, i)) (r, i) (q_ref q) = false /\
         waitersAhead h e (r, i) (q_ref q) = false).
Proof.
  induction l as [|i l IH]; cbn [ready_entries].
  { split; [apply heap_benign_refl|]. intros _. split; [done|]. by intros i q []%not_elem_of_nil. }
  destruct (deref h (r, i)) as [q|] eqn:Hq.
  2: { destruct IH as [H1 H2]. split; [done|]. intros Ht. destruct (H2 Ht) as [-> H3]. split; [done|].
       intros j q [->|Hj]%elem_of_cons Hjq; [congruence|by apply H3]. }
  destruct (q_dead q || settled q) eqn:Es.
  { destruct IH as [H1 H2]. split; [done|]. intros Ht. destruct (H2 Ht) as [-> H3]. split; [done|].
    intros j q' [->|Hj]%elem_of_cons Hjq Hd Hse; [|by apply H3].
    assert (q' = q) as -> by congruence. by rewrite Hd, Hse in Es. }
  apply orb_false_iff in Es as [Hd Hse].
  assert (q_state q = entryPending) as Hp by (by apply negb_false_iff, bool_decide_eq_true in Hse).
  destruct (t !! ResourceKey (q_ref q)) as [e|] eqn:He; [|by split; [apply heap_benign_refl|]].
  destruct (grantable_spec h e (r, i) (q_ref q) q Hq Hp) as [Hb Hg].
  destruct (grantable h e (r, i) (q_ref q)) as [h1 [|]]; cbn [fst snd] in *; [|done].
  destruct (Hg eq_refl) as (-> & Hbl & Hw). destruct IH as [H1 H2]. split; [done|].
  intros Ht. destruct (H2 Ht) as [-> H3]. split; [done|].
  intros j q' [->|Hj]%elem_of_cons Hjq Hd' Hse'; [|by apply H3].
  assert (q' = q) as -> by congruence. eauto.
Qed.

(** A valid claim is compared as the component it was taken for. *)
Lemma claimComponent_ref X V W m k e o c ref :
  inv X V W m -> m_locks m !! k = Some e -> c ∈ claims_of e o -> claimComponent c ref = cl_ref c.
Proof.
  intros Hm Hk Hc. pose proof (iv_claim _ _ _ _ Hm k e o c Hk Hc) as Hok.
  pose proof (claim_ok_wf _ _ _ _ _ _ _ Hm Hok) as [Hv _]. destruct Hok as (_ & Hmode & _).
  unfold claimComponent. rewrite bool_decide_eq_false_2.
  - rewrite Hmode. by rewrite bool_decide_eq_true_2.
  - intros E. apply Validate_kind in Hv. by rewrite E in Hv.
Qed.

Lemma not_blocking_free m r i b q e :
  minv m -> m_requests m !! r = Some b -> m_locks m !! ResourceKey (q_ref q) = Some e ->
  hasBlockingClaims e (b_OwnerID b) (r, i) (q_ref q) = false ->
  free_of (m_locks m) (b_OwnerID b) (q_ref q).
Proof.
  intros Hm Hr He Hbl e' o c He' Ho Hc Hp. assert (e' = e) as -> by congruence.
  apply not_true_is_false. intros Hcf. apply not_true_iff_false in Hbl. apply Hbl.
  apply (hasBlockingClaims_spec e); [by apply (iv_index _ _ _ _ Hm _ _ He)|]. exists o, c.
  destruct (iv_claim _ _ _ _ Hm _ _ _ _ He Hc) as (_ & _ & b' & Hb' & Hob & _).
  split_and!; [done..| |].
  - cbn. intros E. apply Ho. rewrite <- Hob. congruence.
  - by rewrite (claimComponent_ref _ _ _ _ _ _ _ _ _ Hm He Hc).
Qed.

Lemma bundleReady_spec m r b :
  minv m -> m_requests m !! r = Some b -> r ∈ m_waiting m ->
  let '(m', ready) := bundleReadyLocked m r in
  quiet m m' /\ unfinished m' ⊆ unfinished m /\ (ready = true -> m' = m /\ grant_ready m r b).
Proof.
  intros Hm Hr HW. unfold bundleReadyLocked. rewrite Hr.
  destruct (ready_entries_spec (m_locks m) r (seq 0 (length (b_entries b))) (m_requests m)) as [Hb Hready].
  destruct (ready_entries _ _ _ _) as [h ready]. cbn [fst snd] in *. split_and!.
  - split; [|by apply heap_benign_evolves|done|by split|by apply accounted_same].
    apply (inv_benign _ _ _ m); done.
  - intros r'. rewrite !elem_of_unfinished. cbn. intros [? (b' & Hb' & Hc)]. split; [done|].
    destruct (heap_benign_Some_inv _ _ _ _ Hb Hb') as (b0 & ? & Hbb). exists b0. split; [done|].
    by rewrite <- (benign_complete _ _ Hbb).
  - intros ->. destruct (Hready eq_refl) as [-> Hent]. split; [by destruct m|].
    destruct (iv_waiting _ _ _ _ Hm r HW) as (b' & Hb' & Hst). assert (b' = b) as -> by congruence.
    split; try done.
    + intros i q Hi Hq. assert (deref (m_requests m) (r, i) = Some q) as Hd by (apply deref_Some; eauto).
      destruct (iv_entry _ _ _ _ Hm (r, i) q HW (fun H => H) Hd) as [_ Hin].
      destruct (Hin Hq) as (e & He & _). by exists e.
    + intros i q Hi Hq. assert (deref (m_requests m) (r, i) = Some q) as Hd by (apply deref_Some; eauto).
      destruct (iv_entry _ _ _ _ Hm (r, i) q HW (fun H => H) Hd) as [Hdead _].
      destruct (Hent i q) as (e & He & Hbl & _); [|done|done| |].
      * apply elem_of_seq. apply lookup_lt_Some in Hi. lia.
      * unfold settled. by rewrite Hq.
      * apply (not_blocking_free m r i b q e); [done|done|done|].
        unfold req_owner in Hbl. cbn in Hbl. by rewrite Hr in Hbl.
Qed.

(** ** The rounds *)

Lemma unfinished_waiting m : unfinished m ⊆ m_waiting m.
Proof. intros r Hr. by apply elem_of_unfinished in Hr as [? _]. Qed.

Lemma drop_decided m r b :
  minv m -> m_requests m !! r = Some b -> r ∈ m_waiting m -> Terminal (b_Status b) = false.
Proof.
  intros Hm Hr HW. destruct (iv_waiting _ _ _ _ Hm r HW) as (b' & Hb' & Hst).
  assert (b' = b) as -> by congruence. by rewrite Hst.
Qed.

Lemma retry_one_spec m p r :
  minv m ->
  let '(m', p') := retry_one (m, p) r in
  quiet m m' /\ unfinished m' ⊆ unfinished m /\
  (p' = true -> p = true \/ (size (unfinished m') < size (unfinished m))%nat).
Proof.
  intros Hm. unfold retry_one. destruct (bool_decide (r ∈ m_waiting m)) eqn:E; cbn [negb].
  2: { split_and!; [by apply quiet_refl|done|by left]. }
  apply bool_decide_eq_true in E. destruct (m_requests m !! r) as [b|] eqn:Hr.
  2: { split_and!; [by apply quiet_refl|done|by left]. }
  rewrite (drop_decided m r b) by done. destruct (complete b) eqn:Hc.
  { split_and!; [by apply completeBundle_quiet|apply completeBundle_unfinished|by left]. }
  pose proof (bundleReady_spec m r b Hm Hr E) as Hready.
  destruct (bundleReadyLocked m r) as [m1 [|]]; cbn [negb].
  - destruct Hready as (_ & _ & Hrd). destruct (Hrd eq_refl) as [-> Hg].
    destruct (grantLocked_spec m r b Hm Hg) as (Hq & Hu & _).
    assert (r ∈ unfinished m) as Hin by (apply elem_of_unfinished; eauto).
    split_and!; [done|set_solver|]. intros _. right. apply subset_size. set_solver.
  - destruct Hready as (? & ? & _). split_and!; [done..|by left].
Qed.

Section Pass.
Context `{MapRange}.

Lemma next_tick_quiet m : minv m -> quiet m (next_tick m).
Proof. intros Hm. by apply quiet_frame. Qed.

Lemma retry_fold_spec l m p :
  minv m ->
  let '(m', p') := foldl retry_one (m, p) l in
  quiet m m' /\ unfinished m' ⊆ unfinished m /\
  (p' = true -> p = true \/ (size (unfinished m') < size (unfinished m))%nat).
Proof.
  revert m p. induction l as [|r l IH]; intros m p Hm; cbn [foldl].
  { split_and!; [by apply quiet_refl|done|by left]. }
  pose proof (retry_one_spec m p r Hm) as H1. destruct (retry_one (m, p) r) as [m1 p1].
  destruct H1 as (Hq1 & Hu1 & Hp1). pose proof (IH m1 p1 (qu_inv _ _ Hq1)) as H2.
  destruct (foldl retry_one (m1, p1) l) as [m2 p2]. destruct H2 as (Hq2 & Hu2 & Hp2).
  split_and!; [by eapply quiet_trans|by etrans|].
  pose proof (subseteq_size _ _ Hu1). pose proof (subseteq_size _ _ Hu2).
  intros Ht. destruct (Hp2 Ht) as [Ht1|?]; [destruct (Hp1 Ht1) as [?|?]; [by left|]|]; right; lia.
Qed.

Lemma retry_round_spec m :
  minv m ->
  let '(m', p') := retry_round m in
  quiet m m' /\ unfinished m' ⊆ unfinished m /\
  (p' = true -> (size (unfinished m') < size (unfinished m))%nat).
Proof.
  intros Hm. unfold retry_round.
  pose proof (retry_fold_spec (range_set (m_tick m) (m_waiting m)) (next_tick m) false
    (qu_inv _ _ (next_tick_quiet m Hm))) as H1.
  destruct (foldl _ _ _) as [m' p']. destruct H1 as (Hq & Hu & Hp). split_and!.
  - eapply quiet_trans; [by apply next_tick_quiet|done].
  - done.
  - intros Ht. by destruct (Hp Ht).
Qed.

(** The pass terminates: its fuel is never used up. *)
Lemma retry_loop_spec fuel m :
  minv m -> (size (unfinished m) < fuel)%nat ->
  quiet m (retry_loop fuel m).1 /\ (retry_loop fuel m).2 = true /\
  unfinished (retry_loop fuel m).1 ⊆ unfinished m.
Proof.
  revert m. induction fuel as [|fuel IH]; intros m Hm Hf; [lia|]. cbn [retry_loop].
  pose proof (retry_round_spec m Hm) as H1. destruct (retry_round m) as [m1 [|]].
  - destruct H1 as (Hq & Hu & Hp). destruct (IH m1 (qu_inv _ _ Hq)) as (Hq2 & Hd & Hu2).
    { specialize (Hp eq_refl). lia. }
    split_and!; [by eapply quiet_trans|done|by etrans].
  - by destruct H1 as (? & ? & _).
Qed.

Lemma retry_loop_mono fuel fuel' m :
  (fuel <= fuel')%nat -> (retry_loop fuel m).2 = true -> retry_loop fuel' m = retry_loop fuel m.
Proof.
  revert fuel' m. induction fuel as [|fuel IH]; intros [|fuel'] m Hle; cbn [retry_loop]; [done..|lia|].
  destruct (retry_round m) as [m1 [|]]; [|done]. apply IH. lia.
Qed.

Lemma retry_fuel_enough m : (size (unfinished m) < retry_fuel m)%nat.
Proof. unfold retry_fuel. pose proof (subseteq_size _ _ (unfinished_waiting m)). lia. Qed.

Lemma retryWaiting_quiet m : minv m -> quiet m (retryWaitingLocked m).
Proof.
  intros Hm. destruct (retry_loop_spec (retry_fuel m) m Hm (retry_fuel_enough m)) as (Hq & _).
  eapply quiet_trans; [done|]. by apply quiet_frame; [apply Hq|..].
Qed.

(** ** Ending a request *)

Lemma release_lock_quiet m k : minv m -> quiet m (release_lock m k).
Proof. intros Hm. split; [by apply inv_release_lock|done|done|by split|by apply accounted_same]. Qed.

Lemma advance_key_quiet m k : minv m -> quiet m (advance_key m k).
Proof.
  intros Hm. unfold advance_key. destruct (m_locks m !! k); [|by apply quiet_refl].
  eapply quiet_trans; [by apply retryWaiting_quiet|]. apply release_lock_quiet, retryWaiting_quiet, Hm.
Qed.

Lemma quiet_fold {A} (f : manager -> A -> manager) l m :
  (forall m x, minv m -> quiet m (f m x)) -> minv m -> quiet m (foldl f m l).
Proof.
  intros Hf. revert m. induction l as [|x l IH]; intros m Hm; cbn; [by apply quiet_refl|].
  eapply quiet_trans; [by apply Hf|]. apply IH, Hf, Hm.
Qed.
End Pass.

Definition dead_entry (q : lockRequest) : lockRequest := q <| q_dead := true |>.

(** A component that stands in no queue is marked dead. *)
Lemma inv_kill X V W m r i b q :
  inv X V W m -> m_requests m !! r = Some b -> b_entries b !! i = Some q ->
  (forall k, ~ in_queue (m_locks m) k (r, i)) ->
  inv (fun id => X id \/ id = (r, i)) V W
    (m <| m_requests ::= fun h => on_entry h (r, i) dead_entry |>).
Proof.
  intros Hm Hr Hi Hno. set (b1 := b <| b_entries ::= alter dead_entry i |>).
  assert (on_entry (m_requests m) (r, i) dead_entry = <[r := b1]> (m_requests m)) as E.
  { unfold on_entry. apply map_eq. intros r'. cbn [fst snd]. destruct (decide (r' = r)) as [->|Hne].
    - by rewrite lookup_alter_eq, lookup_insert_eq, Hr.
    - by rewrite lookup_alter_ne, lookup_insert_ne. }
  change (inv (fun id => X id \/ id = (r, i)) V W (m <| m_requests := on_entry (m_requests m) (r, i) dead_entry |>)).
  rewrite E.
  assert (components b1 = components b) as Hc.
  { unfold components, b1. cbn. apply list_eq. intros j. rewrite !list_lookup_fmap.
    destruct (decide (j = i)) as [->|Hne]; [rewrite list_lookup_alter_eq; by destruct (b_entries b !! i)|].
    by rewrite list_lookup_alter_ne. }
  assert (forall id, id <> (r, i) -> deref (<[r := b1]> (m_requests m)) id = deref (m_requests m) id) as Hde.
  { intros [r' j] Hne. unfold deref. cbn [fst snd]. destruct (decide (r' = r)) as [->|Hr'].
    - rewrite lookup_insert_eq, Hr. cbn. rewrite list_lookup_alter_ne; [done|congruence].
    - by rewrite lookup_insert_ne. }
  assert (held_count (b_entries b1) = held_count (b_entries b)) as Hh.
  { unfold held_count, b1. cbn [b_entries field_update]. clear. revert i.
    induction (b_entries b) as [|x es IH]; intros i; [done|].
    destruct i as [|i]; unfold alter in *; cbn [list_alter]; rewrite !filter_cons; [by repeat case_decide|].
    specialize (IH i). case_decide; cbn [length]; lia. }
  destruct Hm as [Bu Id Rf Ix Cl Ex Qu Nd Wa En Tr Pe]. split; cbn [m_requests m_locks m_pending m_nextRequestID field_update]; try done.
  - intros r' b' [[<- <-]|[_ ?]]%lookup_insert_Some; [|eauto]. destruct (Bu _ _ Hr) as [bo1 bo2 bo3 bo4 bo5 bo6 bo7 bo8]. split; rewrite ?Hc; try done.
    + apply Forall_lookup. intros j x [(y & Hy & -> & _)|[_ Hj]]%list_alter_cases; cbn;
        [apply (Forall_lookup_1 _ _ _ _ bo1 Hy)|apply (Forall_lookup_1 _ _ _ _ bo1 Hj)].
    + cbn. intros Hnil%(f_equal length). rewrite length_alter in Hnil. apply lookup_lt_Some in Hi. cbn in Hnil. lia.
    + by rewrite Hh.
    + cbn. intros Hs. destruct (bo8 Hs). split; [|done]. unfold complete in *. cbn. by rewrite length_alter.
  - intros r' b' [[<- <-]|[_ ?]]%lookup_insert_Some; eauto.
  - intros k e o c Hk Hcl. destruct (Cl k e o c Hk Hcl) as (? & ? & b0 & Hb0 & ? & ?).
    split_and!; [done..|]. destruct (decide (cl_request c = r)) as [Er|Hne].
    + rewrite Er, lookup_insert_eq. exists b1. rewrite Hc. assert (b0 = b) as -> by congruence. done.
    + rewrite lookup_insert_ne by done. eauto.
  - intros k e id Hk Hid. destruct (Qu k e id Hk Hid) as (HW & q0 & Hd & ?).
    split; [done|]. exists q0. rewrite Hde; [done|]. intros ->. apply (Hno k). by exists e.
  - intros r' HW. destruct (Wa r' HW) as (b0 & Hb0 & Hs).
    destruct (decide (r' = r)) as [->|Hne]; [|exists b0; by rewrite lookup_insert_ne].
    exists b1. rewrite lookup_insert_eq. split; [done|]. assert (b0 = b) as -> by congruence. done.
  - intros id q0 HW HX. rewrite Hde by tauto. apply En; tauto.
  - intros o id. rewrite Tr. apply and_iff_compat_l.
    assert (req_owner (<[r:=b1]> (m_requests m)) id = req_owner (m_requests m) id) as ->.
    { unfold req_owner. destruct (decide (id.1 = r)) as [->|Hne]; [by rewrite lookup_insert_eq, Hr|].
      by rewrite lookup_insert_ne. }
    apply and_iff_compat_l. destruct (decide (id = (r, i))) as [->|Hne]; [|by rewrite Hde].
    unfold deref. cbn. rewrite lookup_insert_eq, Hr. cbn. rewrite list_lookup_alter_eq, Hi. done.
Qed.

(** Only the dead marks of the components of a request change. *)
Record marked (b b' : requestBundle) : Prop := {
  mk_owner : b_OwnerID b' = b_OwnerID b;
  mk_scope : b_ScopeID b' = b_ScopeID b;
  mk_status : b_Status b' = b_Status b;
  mk_decision : b_decision b' = b_decision b;
  mk_components : components b' = components b
}.

#[export] Instance marked_preorder : PreOrder marked.
Proof. split; [by intros b|]. intros ? ? ? [] []. split; congruence. Qed.

(** What taking components of request [r] down leaves alone. *)
Record taking_down (r : Z) (m m' : manager) : Prop := {
  td_queue k id : in_queue (m_locks m') k id -> in_queue (m_locks m) k id;
  td_other r' : r' <> r -> m_requests m' !! r' = m_requests m !! r';
  td_request b : m_requests m !! r = Some b -> exists b', m_requests m' !! r = Some b' /\ marked b b';
  td_pending : m_pending m' = m_pending m;
  td_waiting : m_waiting m' = m_waiting m;
  td_frame : frame m m'
}.

#[export] Instance taking_down_preorder r : PreOrder (taking_down r).
Proof.
  split; [intros m; split; try done; intros b Hb; by exists b|].
  intros m1 m2 m3 [Q1 O1 R1 P1 W1 F1] [Q2 O2 R2 P2 W2 F2]. split.
  - auto.
  - intros r' Hr'. by rewrite O2, O1.
  - intros b Hb. destruct (R1 b Hb) as (b1 & Hb1 & M1). destruct (R2 b1 Hb1) as (b2 & Hb2 & M2).
    exists b2. split; [done|by etrans].
  - congruence.
  - congruence.
  - by etrans.
Qed.

Lemma in_queue_release m k k' id : in_queue (m_locks (release_lock m k)) k' id -> in_queue (m_locks m) k' id.
Proof.
  intros (e & He & Hid). exists e. split; [|done]. revert He. cbn. unfold Queue.release.
  destruct (m_locks m !! k) as [e0|]; [|done]. destruct (_ && _); [|done]. by intros [_ ?]%lookup_delete_Some.
Qed.

Lemma finish_entry_spec V W m r b i :
  inv (fun id => id.1 = r) V W m -> m_requests m !! r = Some b ->
  let m' := finish_entry r m i in
  inv (fun id => id.1 = r) V W m' /\ taking_down r m m' /\ (forall k, ~ in_queue (m_locks m') k (r, i)).
Proof.
  intros Hm Hr. cbn zeta. unfold finish_entry.
  destruct (deref (m_requests m) (r, i)) as [q|] eqn:Hq.
  2: { split_and!; [done..|]. intros k (e & He & Hin).
       destruct (iv_queue _ _ _ _ Hm k e _ He Hin) as (_ & q & ? & _). congruence. }
  set (k := ResourceKey (q_ref q)). destruct (m_locks m !! k) as [e|] eqn:He.
  2: { split_and!; [done..|]. intros k' (e & He' & Hin).
       destruct (iv_queue _ _ _ _ Hm k' e _ He' Hin) as (_ & q' & Hq' & HK & _).
       assert (q' = q) as -> by congruence. subst k. congruence. }
  set (owner := req_owner (m_requests m) (r, i)).
  destruct (dropClaim e r owner (q_ref q)) as [e1 dropped] eqn:Ed.
  assert (e1 = (dropClaim e r owner (q_ref q)).1) as -> by (by rewrite Ed). clear Ed.
  set (e1 := (dropClaim e r owner (q_ref q)).1). cbn zeta.
  assert (Hi : b_entries b !! i = Some q).
  { apply deref_Some in Hq as (b' & Hb' & Hi). cbn in *. congruence. }
  set (m0 := put_lock m k (remove e1 (r, i))).
  assert (inv (fun id => id.1 = r) V W m0) as Hm0.
  { apply (inv_weaken (fun id => id.1 = r \/ id = (r, i))); [by intros id [?| ->]|].
    apply (inv_drop _ _ _ _ _ e); [done|done|apply dropClaim_ref| |apply dropClaim_fewer|apply dropClaim_waiting].
    by apply dropClaim_indexed, (iv_index _ _ _ _ Hm k). }
  assert (forall k', ~ in_queue (m_locks m0) k' (r, i)) as Hno.
  { intros k' (e' & Hk' & Hin). cbn in Hk'. apply lookup_insert_Some in Hk' as [[<- <-]|[Hne Hk']].
    - apply remove_waiting in Hin as [_ ?]; [done|]. unfold e1. rewrite dropClaim_waiting.
      by apply (iv_nodup _ _ _ _ Hm k).
    - destruct (iv_queue _ _ _ _ Hm k' e' _ Hk' Hin) as (_ & q' & Hq' & HK & _).
      apply Hne. assert (q' = q) as -> by congruence. done. }
  set (m1 := m0 <| m_requests ::= fun h => on_entry h (r, i) dead_entry |>).
  assert (inv (fun id => id.1 = r) V W m1) as Hm1.
  { apply (inv_weaken (fun id => id.1 = r \/ id = (r, i))); [by intros id [?| ->]|]. by apply (inv_kill _ _ _ m0 r i b q). }
  assert (pruneEntryLocked (m_requests m1) (remove e1 (r, i)) = remove e1 (r, i)) as Hprune.
  { apply (prune_nothing (fun id => id.1 = r) V W m1 k); [exact Hm1|]. cbn. by rewrite lookup_insert_eq. }
  set (fin := fun x : manager => release_lock (put_lock x k (remove e1 (r, i))) k).
  assert (forall x, m_locks x = m_locks m -> m_requests x = m_requests m1 -> m_pending x = m_pending m ->
    m_waiting x = m_waiting m -> frame m x ->
    inv (fun id => id.1 = r) V W (fin x) /\ taking_down r m (fin x) /\
      (forall k', ~ in_queue (m_locks (fin x)) k' (r, i))) as Hfin.
  { intros x EL ER EP EW HF. split_and!.
    - apply inv_release_lock. apply (inv_frame _ _ _ m1); [| |done| |exact Hm1].
      + cbn. by rewrite EL.
      + done.
      + cbn. apply HF.
    - split; try done.
      + intros k' id Hin%in_queue_release. destruct Hin as (e' & Hk' & Hid). cbn in Hk'. rewrite EL in Hk'.
        apply lookup_insert_Some in Hk' as [[<- <-]|[_ ?]]; [|by exists e'].
        apply remove_waiting in Hid as [Hid _];
          unfold e1 in *; rewrite dropClaim_waiting in *; [by exists e|by apply (iv_nodup _ _ _ _ Hm k)].
      + intros r' Hr'. cbn. rewrite ER. cbn. by rewrite lookup_alter_ne.
      + intros b0 Hb0. cbn. rewrite ER. cbn. rewrite lookup_alter_eq, Hb0. cbn. eexists. split; [done|].
        split; try done. unfold components. cbn. apply list_eq. intros j. rewrite !list_lookup_fmap.
        destruct (decide (j = i)) as [->|Hne]; [rewrite list_lookup_alter_eq; by destruct (b_entries b0 !! i)|].
        by rewrite list_lookup_alter_ne.
      + destruct HF. by split.
    - intros k' Hin%in_queue_release. apply (Hno k'). destruct Hin as (e' & Hk' & Hid). exists e'.
      cbn in Hk' |- *. by rewrite EL in Hk'. }
  destruct (dropped && bool_decide (q_state q = entryHeld)).
  - cbn [m_requests field_update]. change (on_entry (m_requests m) (r, i) _) with (m_requests m1).
    rewrite Hprune. by apply Hfin.
  - cbn [m_requests field_update]. change (on_entry (m_requests m) (r, i) _) with (m_requests m1).
    rewrite Hprune. by apply Hfin.
Qed.

Lemma finish_fold_spec V W r l m b :
  inv (fun id => id.1 = r) V W m -> m_requests m !! r = Some b ->
  let m' := foldl (finish_entry r) m l in
  inv (fun id => id.1 = r) V W m' /\ taking_down r m m' /\
  (forall k i, i ∈ l -> ~ in_queue (m_locks m') k (r, i)).
Proof.
  cbn zeta. revert m b. induction l as [|i l IH]; intros m b Hm Hr; cbn [foldl].
  { split_and!; [done..|]. by intros k i []%not_elem_of_nil. }
  destruct (finish_entry_spec V W m r b i Hm Hr) as (Hm1 & Ht1 & Hn1).
  destruct (td_request _ _ _ Ht1 b Hr) as (b1 & Hr1 & _).
  destruct (IH _ b1 Hm1 Hr1) as (Hm2 & Ht2 & Hn2). split_and!; [done|by etrans|].
  intros k j [->|Hj]%elem_of_cons; [|by apply Hn2]. intros Hin. apply (Hn1 k). by apply (td_queue _ _ _ Ht2).
Qed.

Lemma untrack_same r b b' p : b_OwnerID b' = b_OwnerID b -> components b' = components b -> untrack r b' p = untrack r b p.
Proof.
  intros Ho Hc%(f_equal length). unfold components in Hc. rewrite !length_fmap in Hc.
  unfold untrack, entry_ids. by rewrite Ho, Hc.
Qed.

Lemma inv_no_exempt X V W m : (forall id, X id -> id.1 ∉ W) -> inv X V W m -> inv none_exempt V W m.
Proof.
  intros HX [Bu Id Rf Ix Cl Ex Qu Nd Wa En Tr Pe]. split; try done.
  intros id q HW _. apply En; [done|]. intros Hx. by apply (HX id).
Qed.

(** The request is taken down and decided, before anything else moves. *)
Definition take_down (m : manager) (r : Z) (b : requestBundle) (status : RequestStatus) : manager :=
  let m := foldl (finish_entry r) m (seq 0 (length (b_entries b))) in
  let m := m <| m_ledger ::= fun l => Ledger.Release l (b_reservation b) |> in
  let m := untrackPendingLocked m r b in
  let m := m <| m_waiting ::= fun s => s ∖ {[ r ]} |> in
  on_bundle m r (fun b => setStatus b status).

Lemma take_down_spec m r b status :
  minv m -> m_requests m !! r = Some b -> b_Status b = RequestPending ->
  Terminal status = true -> status <> RequestGranted ->
  quiet m (take_down m r b status) /\ m_waiting (take_down m r b status) = m_waiting m ∖ {[ r ]} /\
  exists b', m_requests (take_down m r b status) !! r = Some b' /\ b_Status b' = status.
Proof.
  intros Hm Hr Hst Ht Hng. unfold take_down. set (l := seq 0 _).
  destruct (finish_fold_spec (m_waiting m) (m_waiting m) r l m b) as (Hm1 & Ht1 & Hn1);
    [by apply (inv_weaken none_exempt)|done|].
  set (m1 := foldl (finish_entry r) m l) in *.
  destruct (td_request _ _ _ Ht1 b Hr) as (b1 & Hr1 & Hmk).
  pose proof (iv_bundle _ _ _ _ Hm1 _ _ Hr1) as Hb1.
  assert (b_Status b1 = RequestPending) as Hst1 by (by rewrite (mk_status _ _ Hmk)).
  set (b2 := setStatus b1 status). destruct (setStatus_identity b1 status) as (Ho2 & Hc2 & _).
  change (setStatus b1 status) with b2 in Ho2, Hc2.
  assert (b_Status b2 = status) as Hst2.
  { unfold b2, setStatus, record. rewrite (bo_decided _ Hb1), Hst1. cbn. by rewrite Ht. }
  set (m2 := on_bundle _ _ _).
  assert (m_requests m2 = <[r := b2]> (m_requests m1)) as Hreq.
  { unfold m2. cbn. apply map_eq. intros r'. destruct (decide (r' = r)) as [->|Hne].
    - by rewrite lookup_alter_eq, lookup_insert_eq, Hr1.
    - by rewrite lookup_alter_ne, lookup_insert_ne. }
  assert (forall k i, ~ in_queue (m_locks m1) k (r, i)) as Hno.
  { intros k i Hin. destruct (decide (i ∈ l)) as [Hi|Hi]; [by apply (Hn1 k i)|].
    destruct Hin as (e & He & Hin). destruct (iv_queue _ _ _ _ Hm1 k e _ He Hin) as (_ & q & Hd & _).
    apply deref_Some in Hd as (b' & Hb' & Hq). cbn in *. assert (b' = b1) as -> by congruence.
    apply Hi, elem_of_seq. apply lookup_lt_Some in Hq.
    pose proof (f_equal length (mk_components _ _ Hmk)) as E. unfold components in E. rewrite !length_fmap in E. lia. }
  assert (m_waiting m2 = m_waiting m ∖ {[ r ]}) as HW by (unfold m2; cbn; by rewrite (td_waiting _ _ _ Ht1)).
  split_and!; [|done|exists b2; by rewrite Hreq, lookup_insert_eq].
  split.
  - unfold minv. rewrite HW. apply (inv_no_exempt (fun id => id.1 = r)); [set_solver|].
    apply (inv_settle _ _ _ m1 r b1 b2); try done; [by apply setStatus_ok|].
    unfold m2. cbn. apply symmetry, untrack_same; apply Hmk.
  - rewrite Hreq. intros r' b0 Hb0. destruct (decide (r' = r)) as [->|Hne].
    + exists b2. rewrite lookup_insert_eq. split; [done|]. assert (b0 = b) as -> by congruence.
      destruct Hmk. split; [congruence|unfold b2, setStatus; destruct (record _ _); cbn; congruence|congruence|].
      by rewrite Hst.
    + exists b0. rewrite lookup_insert_ne by done. by rewrite (td_other _ _ _ Ht1).
  - set_solver.
  - pose proof (td_frame _ _ _ Ht1) as Hf. destruct Hf. by split.
  - intros r' Hr'. destruct (decide (r' = r)) as [->|Hne].
    + right. exists b2. by rewrite Hreq, lookup_insert_eq, Hst2.
    + left. rewrite HW. set_solver.
Qed.

Section Finish.
Context `{MapRange}.

Lemma finishRequest_eq m r b status :
  m_requests m !! r = Some b -> b_Status b = RequestPending ->
  finishRequestLocked m r status =
    (rebuildGraphLocked (foldl advance_key (take_down m r b status) (resourceKeys b)), status).
Proof. intros Hr Hst. unfold finishRequestLocked. by rewrite Hr, Hst. Qed.

Lemma finishRequest_spec m r b status :
  minv m -> m_requests m !! r = Some b -> Terminal status = true -> status <> RequestGranted ->
  quiet m (finishRequestLocked m r status).1 /\
  (b_Status b = RequestPending ->
     r ∉ m_waiting (finishRequestLocked m r status).1 /\
     exists b', m_requests (finishRequestLocked m r status).1 !! r = Some b' /\ b_Status b' = status).
Proof.
  intros Hm Hr Ht Hng. destruct (decide (b_Status b = RequestPending)) as [Hst|Hst].
  2: { unfold finishRequestLocked. rewrite Hr.
       assert (Terminal (b_Status b) = true) as -> by (by unfold Terminal; rewrite bool_decide_eq_false_2).
       split; [by apply quiet_refl|done]. }
  rewrite (finishRequest_eq m r b) by done. cbn [fst].
  destruct (take_down_spec m r b status Hm Hr Hst Ht Hng) as (Hq1 & HW1 & b1 & Hr1 & Hs1).
  set (m1 := take_down m r b status) in *.
  assert (quiet m1 (foldl advance_key m1 (resourceKeys b))) as Hq2
    by (apply quiet_fold; [apply advance_key_quiet|apply Hq1]).
  set (m2 := foldl advance_key m1 _) in *.
  assert (quiet m2 (rebuildGraphLocked m2)) as Hq3 by (by apply quiet_frame; [apply Hq2|..]).
  split; [by eapply quiet_trans; [|eapply quiet_trans]|]. intros _. split.
  - cbn. intros Hin%(qu_waiting _ _ Hq2). rewrite HW1 in Hin. set_solver.
  - destruct (qu_evolves _ _ Hq2 r b1 Hr1) as (b2 & Hr2 & E2). exists b2. split; [done|].
    destruct (ev_final _ _ E2) as [-> _]; [by rewrite Hs1|done].
Qed.

Lemma finishRequest_quiet m r status :
  minv m -> Terminal status = true -> status <> RequestGranted -> quiet m (finishRequestLocked m r status).1.
Proof.
  intros Hm Ht Hng. destruct (m_requests m !! r) as [b|] eqn:Hr; [by eapply finishRequest_spec|].
  unfold finishRequestLocked. rewrite Hr. by apply quiet_refl.
Qed.
End Finish.
