(* ===== verification/ManagerPaid.v ===== *)
(** * What the ledger knows of the manager's requests

    Every reservation a request carries is an object of the ledger, and the ledger's count of
    refusals never falls: so a request that has all its locks and still waits is one whose commit
    the ledger has refused. *)

From stdpp Require Import gmap list sorting strings fin_maps.
From S2P Require Import Prelude LockTypes Interval Resource Compat ScopeTree Ledger Queue Graph Manager.
From S2P Require Import ManagerInv ManagerPass.

(** ** The ledger's operations *)

(** Refusals are counted and objects stay. *)
Record ledger_on (l l' : Ledger) : Prop := {
  lo_refusals : l_rejections l <= l_rejections l';
  lo_objs t : is_Some (l_objs l !! t) -> is_Some (l_objs l' !! t)
}.

#[export] Instance ledger_on_preorder : PreOrder ledger_on.
Proof. split; [by split|]. intros l1 l2 l3 [R1 O1] [R2 O2]. split; [lia|auto]. Qed.

Lemma insert_is_Some {A} (m : gmap Z A) (i : Z) (x : A) (t : Z) : is_Some (m !! t) -> is_Some (<[i := x]> m !! t).
Proof. intros Ht. by apply lookup_insert_is_Some'; right. Qed.
#[local] Hint Resolve insert_is_Some : core.

Ltac ledger_cases := repeat case_match; simplify_eq; split; cbn; auto; lia.

Lemma ledger_on_commit l t : ledger_on l (Commit l t).1.
Proof. unfold Commit. ledger_cases. Qed.
Lemma ledger_on_reserve l o cs w : ledger_on l (Reserve l o cs w).1.
Proof. unfold Reserve. ledger_cases. Qed.
Lemma ledger_on_fixed l n o : ledger_on l (ChargeFixed l n o).1.
Proof. unfold ChargeFixed. ledger_cases. Qed.
Lemma ledger_on_release l t : ledger_on l (Ledger.Release l t).
Proof. unfold Ledger.Release. ledger_cases. Qed.
Lemma ledger_on_grant l o k : ledger_on l (ReleaseGrant l o k).
Proof. unfold ReleaseGrant. ledger_cases. Qed.
Lemma ledger_on_owner l o : ledger_on l (Ledger_ReleaseOwner l o).
Proof.
  split; [done|]. intros t [x Hx]. unfold Ledger_ReleaseOwner. cbn. rewrite map_lookup_imap, Hx. by eexists.
Qed.
Lemma ledger_on_all l : ledger_on l (ReleaseAll l).
Proof. by split. Qed.

#[local] Hint Resolve ledger_on_commit ledger_on_reserve ledger_on_fixed ledger_on_release
  ledger_on_grant ledger_on_owner ledger_on_all : core.

Lemma reserve_object l o cs w l' t : Reserve l o cs w = (l', Ok t) -> is_Some (l_objs l' !! t).
Proof.
  unfold Reserve. repeat case_match; intros E; simplify_eq; cbn; rewrite lookup_insert_eq; by eexists.
Qed.

(** A known reservation is refused with a count, or committed. *)
Lemma commit_refused l t l' e :
  is_Some (l_objs l !! t) -> Commit l t = (l', Err e) -> l_rejections l' = 1 + l_rejections l.
Proof. intros [x Hx]. unfold Commit. rewrite Hx. repeat case_match; intros E; by simplify_eq. Qed.

(** ** The manager's requests *)

Definition refusals (m : manager) : Z := l_rejections (m_ledger m).

(** Every reservation is an object of the ledger. *)
Record paid (m : manager) : Prop := {
  pd_refusals : 0 <= refusals m;
  pd_reserved r b : m_requests m !! r = Some b -> is_Some (l_objs (m_ledger m) !! b_reservation b)
}.

(** The requests of [h'] carry the reservations they have in [h]. *)
Definition res_kept (h h' : heap) : Prop :=
  forall r b', h' !! r = Some b' -> exists b, h !! r = Some b /\ b_reservation b' = b_reservation b.

#[export] Instance res_kept_preorder : PreOrder res_kept.
Proof.
  split; [by intros h r b; eauto|]. intros h1 h2 h3 H1 H2 r b3 Hb.
  destruct (H2 r b3 Hb) as (b2 & Hb2 & E2). destruct (H1 r b2 Hb2) as (b1 & Hb1 & E1). exists b1. split; [done|congruence].
Qed.

Lemma res_kept_alter h r f : (forall b, b_reservation (f b) = b_reservation b) -> res_kept h (alter f r h).
Proof.
  intros Hf r' b'. rewrite lookup_alter. case_decide; [subst|eauto].
  intros (b & -> & ->)%fmap_Some. eauto.
Qed.

Lemma res_kept_entry h id f : res_kept h (on_entry h id f).
Proof. by apply res_kept_alter. Qed.

Lemma res_kept_insert h r b b' : h !! r = Some b -> b_reservation b' = b_reservation b -> res_kept h (<[r := b']> h).
Proof. intros Hr E r' b0 [[<- <-]|[_ ?]]%lookup_insert_Some; eauto. Qed.

Lemma res_kept_benign h h' : heap_benign h h' -> res_kept h h'.
Proof.
  intros Hh r b' Hb. destruct (heap_benign_Some_inv _ _ _ _ Hh Hb) as (b & Hb0 & Hbb). exists b. split; [done|apply Hbb].
Qed.

Record accounts (m m' : manager) : Prop := {
  ac_ledger : ledger_on (m_ledger m) (m_ledger m');
  ac_requests r b' : m_requests m' !! r = Some b' ->
    is_Some (l_objs (m_ledger m') !! b_reservation b') \/
    exists b, m_requests m !! r = Some b /\ b_reservation b' = b_reservation b
}.

#[export] Instance accounts_preorder : PreOrder accounts.
Proof.
  split; [split; [reflexivity|eauto]|]. intros m1 m2 m3 [L1 R1] [L2 R2]. split; [by etrans|].
  intros r b3 Hb. destruct (R2 r b3 Hb) as [?|(b2 & Hb2 & E2)]; [by left|].
  destruct (R1 r b2 Hb2) as [Ho|(b1 & Hb1 & E1)]; [left; rewrite E2; by apply L2|right; exists b1; split; [done|congruence]].
Qed.

Lemma accounts_paid m m' : accounts m m' -> paid m -> paid m'.
Proof.
  intros [[L O] R] [P Q]. split; [unfold refusals in *; lia|]. intros r b' Hb.
  destruct (R r b' Hb) as [?|(b & Hb0 & ->)]; [done|]. by eapply O, Q.
Qed.

Lemma accounts_of m m' : ledger_on (m_ledger m) (m_ledger m') -> res_kept (m_requests m) (m_requests m') -> accounts m m'.
Proof. intros L R. split; [done|]. intros r b' Hb. right. by apply R. Qed.

Lemma accounts_same m m' : m_ledger m' = m_ledger m -> m_requests m' = m_requests m -> accounts m m'.
Proof. intros E1 E2. apply accounts_of; [by rewrite E1|by rewrite E2]. Qed.

Lemma accounts_ledger m m' : ledger_on (m_ledger m) (m_ledger m') -> m_requests m' = m_requests m -> accounts m m'.
Proof. intros L E. apply accounts_of; [done|by rewrite E]. Qed.

Lemma accounts_requests m m' : m_ledger m' = m_ledger m -> res_kept (m_requests m) (m_requests m') -> accounts m m'.
Proof. intros E R. apply accounts_of; [by rewrite E|done]. Qed.

Lemma accounts_fold {A B} (get : A -> manager) (f : A -> B -> A) l acc :
  (forall acc x, accounts (get acc) (get (f acc x))) -> accounts (get acc) (get (foldl f acc l)).
Proof.
  intros Hf. revert acc. induction l as [|x l IH]; intros acc; cbn [foldl]; [reflexivity|].
  transitivity (get (f acc x)); [apply Hf|apply IH].
Qed.

(** ** The fair pass *)

Lemma setStatus_reservation b st : b_reservation (setStatus b st) = b_reservation b.
Proof. unfold setStatus. by destruct (record _ _). Qed.

Lemma completeBundle_accounts m r : accounts m (completeBundleLocked m r).
Proof.
  unfold completeBundleLocked. destruct (m_requests m !! r) as [b|] eqn:Hr; [|reflexivity].
  destruct (_ || _); [reflexivity|]. pose proof (ledger_on_commit (m_ledger m) (b_reservation b)) as Hc.
  destruct (Commit _ _) as [l [u|e]]; [|by apply accounts_ledger]. cbn zeta.
  destruct (_ <? _); (apply accounts_of; [exact Hc|]); cbn; eapply res_kept_insert; try done; by rewrite setStatus_reservation.
Qed.

Lemma grant_entry_accounts r m i : accounts m (grant_entry r m i).
Proof.
  unfold grant_entry. destruct (deref _ _) as [q|]; [|reflexivity].
  destruct (m_locks m !! _) as [e|]; [|reflexivity].
  assert (forall e, accounts m (on_bundle ((put_lock m (ResourceKey (q_ref q)) e) <| m_requests ::= fun h =>
    on_entry h (r, i) (fun q => q <| q_state := entryHeld |>) |>) r (fun b => b <| b_held ::= Z.add 1 |>))) as Hheld.
  { intros e'. apply accounts_requests; [done|].
    transitivity (on_entry (m_requests m) (r, i) (fun q => q <| q_state := entryHeld |>));
      [apply res_kept_entry|by apply res_kept_alter]. }
  destruct (q_state q); [|reflexivity|apply Hheld]. by destruct (applyClaim _ _ _ _) as [e1 [|]]; apply Hheld.
Qed.

Lemma prune_key_accounts m k : accounts m (prune_key m k).
Proof. unfold prune_key. destruct (m_locks m !! k); by apply accounts_same. Qed.

Lemma grantLocked_accounts m r : accounts m (grantLocked m r).
Proof.
  unfold grantLocked. destruct (m_requests m !! r) as [b|]; [|reflexivity]. destruct (Terminal _); [reflexivity|].
  cbn zeta. etrans; [|apply completeBundle_accounts].
  etrans; [|apply (accounts_fold id prune_key); intros; apply prune_key_accounts].
  apply (accounts_fold id (grant_entry r)). intros. apply grant_entry_accounts.
Qed.

Lemma bundleReady_accounts m r : accounts m (bundleReadyLocked m r).1.
Proof.
  unfold bundleReadyLocked. destruct (m_requests m !! r) as [b|]; [|reflexivity].
  destruct (ready_entries_spec (m_locks m) r (seq 0 (length (b_entries b))) (m_requests m)) as [Hb _].
  destruct (ready_entries _ _ _ _). apply accounts_requests; [done|]. by apply res_kept_benign.
Qed.

Lemma retry_one_accounts acc r : accounts acc.1 (retry_one acc r).1.
Proof.
  destruct acc as [m p]. unfold retry_one. cbn [fst]. destruct (negb _); [reflexivity|].
  destruct (m_requests m !! r) as [b|]; [|reflexivity]. destruct (Terminal _); [by apply accounts_same|].
  destruct (complete b); [apply completeBundle_accounts|]. pose proof (bundleReady_accounts m r) as Hb.
  destruct (bundleReadyLocked m r) as [m1 ready]. cbn [fst] in Hb. destruct (negb ready); [done|].
  cbn [fst]. etrans; [exact Hb|apply grantLocked_accounts].
Qed.

(** A complete request whose reservation the ledger knows stays only where its commit is refused. *)
Lemma completeBundle_refused m r b :
  paid m -> m_requests m !! r = Some b -> b_Status b = RequestPending -> complete b = true ->
  r ∈ m_waiting (completeBundleLocked m r) -> 0 < refusals (completeBundleLocked m r).
Proof.
  intros [Hp Hr'] Hr Hs Hc. unfold completeBundleLocked. rewrite Hr, Hs, Hc. change (Terminal RequestPending || negb true) with false.
  cbn match. destruct (Commit _ _) as [l [u|e]] eqn:E.
  - destruct (_ <? _); cbn; intros Hw; set_solver.
  - intros _. unfold refusals in *. cbn. rewrite (commit_refused _ _ _ _ (Hr' r b Hr) E). lia.
Qed.

Section Accounts.
Context `{MapRange}.

Lemma retry_round_accounts m : accounts m (retry_round m).1.
Proof.
  unfold retry_round. etrans; [by apply (accounts_same m (next_tick m))|].
  apply (accounts_fold fst retry_one _ (next_tick m, false)), retry_one_accounts.
Qed.

Lemma retryWaiting_accounts m : accounts m (retryWaitingLocked m).
Proof.
  unfold retryWaitingLocked. etrans; [|by apply (accounts_same (retry_loop (retry_fuel m) m).1)].
  generalize (retry_fuel m). intros fuel. revert m. induction fuel as [|fuel IH]; intros m; cbn [retry_loop]; [reflexivity|].
  pose proof (retry_round_accounts m) as Hr. destruct (retry_round m) as [m1 [|]]; [etrans; [exact Hr|apply IH]|exact Hr].
Qed.

Lemma advance_accounts m k : accounts m (release_lock (advanceEntryLocked m) k).
Proof. etrans; [apply retryWaiting_accounts|]. by apply accounts_same. Qed.

Lemma advance_key_accounts m k : accounts m (advance_key m k).
Proof. unfold advance_key. destruct (m_locks m !! k); [|reflexivity]. apply advance_accounts. Qed.

(** ** Ending a request *)

Lemma finish_entry_accounts r m i : accounts m (finish_entry r m i).
Proof.
  unfold finish_entry. destruct (deref _ _) as [q|]; [|reflexivity].
  destruct (m_locks m !! _) as [e|]; [|reflexivity]. cbn zeta. destruct (dropClaim _ _ _ _) as [e1 d].
  destruct (d && _); (apply accounts_of; [cbn; auto; reflexivity|apply (res_kept_entry (m_requests m) (r, i))]).
Qed.

Lemma take_down_accounts m r b st : accounts m (take_down m r b st).
Proof.
  unfold take_down. etrans; [apply (accounts_fold id (finish_entry r)); intros; apply finish_entry_accounts|].
  apply accounts_of; cbn; [auto|]. apply res_kept_alter. intros b'. apply setStatus_reservation.
Qed.

Lemma finish_accounts m r st : accounts m (finishRequestLocked m r st).1.
Proof.
  unfold finishRequestLocked. destruct (m_requests m !! r) as [b|]; [|reflexivity].
  destruct (Terminal (b_Status b)); [reflexivity|]. change (accounts m (rebuildGraphLocked
    (foldl advance_key (take_down m r b st) (resourceKeys b)))).
  etrans; [apply take_down_accounts|]. etrans;
    [|by apply (accounts_same (foldl advance_key (take_down m r b st) (resourceKeys b)))].
  apply (accounts_fold id advance_key). intros. apply advance_key_accounts.
Qed.

Lemma cancel_accounts m f st : accounts m (cancelRequestsLocked m f st).1.
Proof.
  unfold cancelRequestsLocked. etrans; [by apply (accounts_same m (next_tick m))|].
  apply (accounts_fold fst (finish_counted st) _ (next_tick m, 0)). intros [x n] r. unfold finish_counted. cbn [fst].
  destruct (m_requests x !! r) as [b|]; [|reflexivity]. destruct (Terminal (b_Status b)); [reflexivity|]. apply finish_accounts.
Qed.
End Accounts.
