(* ===== verification/ManagerOps.v ===== *)
(** * Every operation keeps the manager's invariant

    Acquiring, cancelling, closing scopes, deadlock detection, deadlines, releasing, epoch resets
    and shutdown: each keeps the invariant of [ManagerInv] and lets requests only evolve. *)

From stdpp Require Import gmap list sorting strings fin_maps.
From S2P Require Import Prelude LockTypes Interval Resource Compat ScopeTree Ledger Queue.
From S2P Require Import Graph Manager ManagerInv ManagerPass ManagerPaid.

(** ** Cancelling *)

Lemma elem_of_pending_matching m f r :
  r ∈ pending_matching m f <->
  exists o (s : gset entryID) e, m_pending m !! o = Some s /\ e ∈ s /\ e.1 = r /\
    from_option f false (m_requests m !! r) = true.
Proof.
  unfold pending_matching.
  rewrite (map_fold_collects _ (fun _ (s : gset entryID) x => exists e, e ∈ s /\ e.1 = x /\
    from_option f false (m_requests m !! x) = true)).
  - split.
    + intros [?|(o & s & ? & e & ? & ? & ?)]; [set_solver|]. by exists o, s, e.
    + intros (o & s & e & ? & ? & ? & ?). right. exists o, s. split; [done|]. by exists e.
  - clear r. intros _ s acc x. rewrite (set_fold_collects _ (fun (e : entryID) x => e.1 = x /\
      from_option f false (m_requests m !! x) = true)); [tauto|].
    intros e acc' y. destruct (from_option f false (m_requests m !! e.1)) eqn:E.
    + rewrite elem_of_union, elem_of_singleton. split; [intros [->|?]; [by left|by right]|].
      intros [[<- _]|?]; [by left|by right].
    + split; [by right|]. intros [[<- ?]|?]; [congruence|done].
Qed.

Lemma pending_matching_waiting m f r b :
  minv m -> r ∈ m_waiting m -> m_requests m !! r = Some b -> f b = true -> r ∈ pending_matching m f.
Proof.
  intros Hm HW Hr Hf. apply elem_of_pending_matching.
  pose proof (bo_nonempty _ (iv_bundle _ _ _ _ Hm _ _ Hr)) as Hne.
  destruct (b_entries b) as [|q es] eqn:Ee; [done|].
  assert ((r, 0%nat) ∈ default ∅ (m_pending m !! b_OwnerID b)) as Hin.
  { apply (iv_tracked _ _ _ _ Hm). unfold req_owner, deref. cbn. rewrite Hr. cbn. rewrite Ee. done. }
  destruct (m_pending m !! b_OwnerID b) as [s|] eqn:Es; [|set_solver].
  exists (b_OwnerID b), s, (r, 0%nat). rewrite Hr. done.
Qed.

(** A tracked component belongs to a waiting request. *)
Lemma pending_waiting m o s e : minv m -> m_pending m !! o = Some s -> e ∈ s -> e.1 ∈ m_waiting m.
Proof.
  intros Hm Hs He. apply (iv_tracked _ _ _ _ Hm o e). by rewrite Hs.
Qed.

Section Ops.
Context `{MapRange}.

Lemma finish_counted_quiet status m n r :
  minv m -> Terminal status = true -> status <> RequestGranted ->
  quiet m (finish_counted status (m, n) r).1 /\ r ∉ m_waiting (finish_counted status (m, n) r).1.
Proof.
  intros Hm Ht Hng. unfold finish_counted. destruct (m_requests m !! r) as [b|] eqn:Hr.
  2: { split; [by apply quiet_refl|]. intros HW. destruct (iv_waiting _ _ _ _ Hm r HW) as (b & ? & _). congruence. }
  destruct (Terminal (b_Status b)) eqn:Et.
  - split; [by apply quiet_refl|]. intros HW. by rewrite (drop_decided m r b) in Et.
  - destruct (finishRequest_spec m r b status Hm Hr Ht Hng) as [Hq Hgone]. split; [done|].
    apply Hgone. by apply negb_false_iff, bool_decide_eq_true in Et.
Qed.

Lemma cancel_fold status l m n :
  minv m -> Terminal status = true -> status <> RequestGranted ->
  let m' := (foldl (finish_counted status) (m, n) l).1 in
  quiet m m' /\ (forall r, r ∈ l -> r ∉ m_waiting m').
Proof.
  cbn zeta. intros Hm Ht Hng. revert m n Hm. induction l as [|r l IH]; intros m n Hm; cbn [foldl].
  { split; [by apply quiet_refl|]. by intros r []%not_elem_of_nil. }
  destruct (finish_counted_quiet status m n r Hm Ht Hng) as [Hq Hr].
  destruct (finish_counted status (m, n) r) as [m1 n1]. cbn [fst] in *.
  destruct (IH m1 n1 (qu_inv _ _ Hq)) as [Hq2 Hall]. split; [by eapply quiet_trans|].
  intros r' [->|Hin]%elem_of_cons; [|by apply Hall]. intros HW. apply Hr. by apply (qu_waiting _ _ Hq2).
Qed.

Lemma cancelRequests_spec m f status :
  minv m -> Terminal status = true -> status <> RequestGranted ->
  let m' := (cancelRequestsLocked m f status).1 in
  quiet m m' /\
  (forall r b, r ∈ m_waiting m -> m_requests m !! r = Some b -> f b = true -> r ∉ m_waiting m').
Proof.
  intros Hm Ht Hng. unfold cancelRequestsLocked. cbn zeta.
  destruct (cancel_fold status (range_set (m_tick m) (pending_matching m f)) (next_tick m) 0
    (qu_inv _ _ (next_tick_quiet m Hm)) Ht Hng) as [Hq Hall].
  split; [eapply quiet_trans; [by apply next_tick_quiet|done]|].
  intros r b HW Hr Hf. apply Hall. apply elem_of_range_set. by apply (pending_matching_waiting m f r b).
Qed.

Lemma cancel_all_waiting m status :
  minv m -> Terminal status = true -> status <> RequestGranted ->
  m_waiting (cancelRequestsLocked m (fun _ => true) status).1 = ∅.
Proof.
  intros Hm Ht Hng. destruct (cancelRequests_spec m (fun _ => true) status Hm Ht Hng) as [Hq Hall].
  apply set_eq. intros r. split; [|set_solver]. intros HW.
  pose proof (qu_waiting _ _ Hq r HW) as HW0. destruct (iv_waiting _ _ _ _ Hm r HW0) as (b & Hb & _).
  by destruct (Hall r b HW0 Hb eq_refl).
Qed.
End Ops.

(** ** A new request *)

Lemma inv_new X V W m b :
  inv X V W m -> bundle_ok b -> 0 <= m_nextRequestID m -> V ⊆ W ->
  let r := 1 + m_nextRequestID m in
  inv X V W (m <| m_nextRequestID := r |> <| m_requests ::= <[r := b]> |>).
Proof.
  intros Hm Hb Hn HVW r. assert (m_requests m !! r = None) as Hfresh.
  { destruct (m_requests m !! r) as [b0|] eqn:E; [|done]. apply (iv_id _ _ _ _ Hm) in E. lia. }
  assert (r ∉ W) as HrW.
  { intros HW. destruct (iv_waiting _ _ _ _ Hm r HW) as (b0 & Hb0 & _). by rewrite Hfresh in Hb0. }
  destruct Hm as [Bu Id Rf Ix Cl Ex Qu Nd Wa En Tr Pe].
  assert (forall id, id.1 ∈ W -> deref (<[r := b]> (m_requests m)) id = deref (m_requests m) id) as Hde.
  { intros id HW. unfold deref. rewrite lookup_insert_ne; [done|]. intros E. by rewrite <- E in HW. }
  assert (forall id : entryID, id.1 ∈ V -> r <> id.1) as HVr by (intros id HV E; apply HrW; rewrite E; by apply HVW).
  split; cbn [m_requests m_locks m_pending m_nextRequestID field_update]; try done.
  - intros r' b' [[_ <-]|[_ ?]]%lookup_insert_Some; eauto.
  - intros r' b' [[<- _]|[_ ?]]%lookup_insert_Some; [lia|]. specialize (Id _ _ H). lia.
  - intros k e o c Hk Hc. destruct (Cl k e o c Hk Hc) as (? & ? & b0 & Hb0 & ? & ?).
    split_and!; [done..|]. exists b0. rewrite lookup_insert_ne; [done|].
    intros E. by rewrite <- E, Hfresh in Hb0.
  - intros k e id Hk Hid. destruct (Qu k e id Hk Hid) as (HW & q & Hd & ?). split; [done|]. exists q.
    by rewrite Hde.
  - intros r' HW. destruct (Wa r' HW) as (b0 & Hb0 & ?). exists b0. rewrite lookup_insert_ne; [done|].
    intros E. by rewrite <- E, Hfresh in Hb0.
  - intros id q HW HX. rewrite Hde by done. by apply En.
  - intros o id. rewrite Tr. split; intros (HV & Ho & Hd); (split; [done|]).
    + rewrite Hde by (by apply HVW). split; [|done]. unfold req_owner in *. by rewrite lookup_insert_ne by auto.
    + rewrite Hde in Hd by (by apply HVW). split; [|done]. unfold req_owner in *.
      by rewrite lookup_insert_ne in Ho by auto.
Qed.

(** Forgetting a request that nothing refers to. *)
Lemma inv_forget X V W m r :
  inv X V W m -> r ∉ V -> r ∉ W -> (forall k e o c, m_locks m !! k = Some e -> c ∈ claims_of e o -> cl_request c <> r) ->
  inv X V W (m <| m_requests ::= delete r |>).
Proof.
  intros [Bu Id Rf Ix Cl Ex Qu Nd Wa En Tr Pe] HV HW Hno.
  assert (forall id, id.1 <> r -> deref (delete r (m_requests m)) id = deref (m_requests m) id) as Hde.
  { intros id Hne. unfold deref. by rewrite lookup_delete_ne. }
  split; cbn [m_requests m_locks m_pending m_nextRequestID field_update]; try done.
  - intros r' b' [_ ?]%lookup_delete_Some; eauto.
  - intros r' b' [_ ?]%lookup_delete_Some; eauto.
  - intros k e o c Hk Hc. destruct (Cl k e o c Hk Hc) as (? & ? & b0 & Hb0 & ? & ?).
    split_and!; [done..|]. exists b0. rewrite lookup_delete_ne; [done|]. intros E. by apply (Hno k e o c).
  - intros k e id Hk Hid. destruct (Qu k e id Hk Hid) as (HWi & q & Hd & ?). split; [done|]. exists q.
    rewrite Hde; [done|]. intros <-. done.
  - intros r' HW'. destruct (Wa r' HW') as (b0 & ? & ?). exists b0. rewrite lookup_delete_ne; [done|]. by intros ->.
  - intros id q HWi HX. rewrite Hde by (by intros <-). by apply En.
  - intros o id. rewrite Tr. split; intros (HVi & Ho & Hd); (split; [done|]).
    + rewrite Hde by (by intros <-). split; [|done]. unfold req_owner in *. rewrite lookup_delete_ne; [done|by intros ->].
    + rewrite Hde in Hd by (by intros <-). split; [|done]. unfold req_owner in *.
      rewrite lookup_delete_ne in Ho; [done|by intros ->].
Qed.

(** ** Inspecting *)

(** The table only gained entries that nobody claims or waits for. *)
Definition table_grows (t t' : lockTable) : Prop :=
  forall k, match t !! k with
    | Some e => t' !! k = Some e
    | None => t' !! k = None \/ exists ref, t' !! k = Some (newLockEntry ref)
    end.

#[export] Instance table_grows_preorder : PreOrder table_grows.
Proof.
  split; [intros t k; destruct (t !! k); auto|]. intros t1 t2 t3 H1 H2 k. specialize (H1 k). specialize (H2 k).
  destruct (t1 !! k) as [e|].
  - by rewrite H1 in H2.
  - destruct H1 as [E|[ref E]]; rewrite E in H2; [done|]. right. by exists ref.
Qed.

Lemma entryFor_grows t ref : table_grows t (entryFor t ref).
Proof.
  intros k. unfold entryFor. destruct (t !! ResourceKey ref) as [e0|] eqn:E.
  { destruct (t !! k); auto. }
  destruct (decide (k = ResourceKey ref)) as [->|Hne].
  - rewrite E, lookup_insert_eq. right. by exists ref.
  - rewrite lookup_insert_ne by done. destruct (t !! k); auto.
Qed.

Lemma newLockEntry_claims ref o : claims_of (newLockEntry ref) o = [].
Proof. unfold claims_of. cbn. by rewrite lookup_empty. Qed.

Lemma grows_claims t t' k e o c :
  table_grows t t' -> t' !! k = Some e -> c ∈ claims_of e o -> t !! k = Some e.
Proof.
  intros Ht Hk Hc. specialize (Ht k). destruct (t !! k) as [e0|]; [congruence|].
  destruct Ht as [?|[ref E]]; [congruence|]. assert (e = newLockEntry ref) as -> by congruence.
  rewrite newLockEntry_claims in Hc. by apply not_elem_of_nil in Hc.
Qed.

Lemma grows_free t t' owner ref : table_grows t t' -> free_of t owner ref -> free_of t' owner ref.
Proof.
  intros Ht Hf e o c Hk Ho Hc Hp. pose proof (grows_claims _ _ _ _ _ _ Ht Hk Hc) as Hk0. by apply (Hf e o c).
Qed.

Lemma grows_Some t t' k : table_grows t t' -> is_Some (t !! k) -> is_Some (t' !! k).
Proof. intros Ht [e He]. specialize (Ht k). rewrite He in Ht. by exists e. Qed.

(** What inspecting a request changes. *)
Record inspecting (m m' : manager) : Prop := {
  in_grows : table_grows (m_locks m) (m_locks m');
  in_benign : heap_benign (m_requests m) (m_requests m');
  in_rest : m' = m <| m_locks := m_locks m' |> <| m_requests := m_requests m' |>
}.

Lemma benign_trans b1 b2 b3 : benign b1 b2 -> benign b2 b3 -> benign b1 b3.
Proof.
  intros H1 H2. destruct H1, H2. split; try congruence.
  eapply (Forall2_trans benign_entry benign_entry benign_entry); [|done|done].
  intros x y z (E1 & E2 & E3) (F1 & F2 & F3). split_and!; [congruence..|by rewrite F3].
Qed.

Lemma heap_benign_trans h1 h2 h3 : heap_benign h1 h2 -> heap_benign h2 h3 -> heap_benign h1 h3.
Proof.
  intros H1 H2 r. specialize (H1 r). specialize (H2 r).
  destruct (h1 !! r) as [b1|], (h2 !! r) as [b2|], (h3 !! r) as [b3|]; try done. by apply (benign_trans b1 b2).
Qed.

Lemma inspecting_refl m : inspecting m m.
Proof. split; [done|apply heap_benign_refl|by destruct m]. Qed.

Lemma inspecting_trans m1 m2 m3 : inspecting m1 m2 -> inspecting m2 m3 -> inspecting m1 m3.
Proof.
  intros [G1 B1 R1] [G2 B2 R2]. split; [by etrans|by eapply heap_benign_trans|].
  rewrite R2, R1. by destruct m1.
Qed.

Lemma inspecting_bundle m r f : (forall b, benign b (f b)) -> inspecting m (on_bundle m r f).
Proof. intros Hf. split; [done|by apply heap_benign_alter|by destruct m]. Qed.

Lemma immediate_of_holders e X V W m ref owner :
  inv X V W m -> m_locks m !! ResourceKey ref = Some e -> conflictingHolders e ref owner = [] ->
  free_of (m_locks m) owner ref.
Proof.
  intros Hm Hk Hno e' o c Hk' Ho Hc _. assert (e' = e) as -> by congruence.
  rewrite <- (claimComponent_ref _ _ _ _ _ _ o c ref Hm Hk Hc).
  by apply (proj1 (conflictingHolders_nil e ref owner) Hno o c).
Qed.

Lemma benign_append b (l : list bytes) : benign b (b <| b_blockers ::= fun k => k ++ l |>).
Proof. by apply benign_fields. Qed.

Lemma benign_older b : benign b (b <| b_blockedByOlderWaiter := true |>).
Proof. by apply benign_fields. Qed.

Lemma inspect_entry_spec X V W m r blocked seen i :
  inv X V W m ->
  let '(m', blocked', seen') := inspect_entry r (m, blocked, seen) i in
  inv X V W m' /\ inspecting m m' /\
  (blocked' = [] -> blocked = [] /\ forall q, deref (m_requests m) (r, i) = Some q ->
     is_Some (m_locks m' !! ResourceKey (q_ref q)) /\
     free_of (m_locks m') (req_owner (m_requests m) (r, i)) (q_ref q)).
Proof.
  intros Hm. unfold inspect_entry. destruct (deref (m_requests m) (r, i)) as [q|] eqn:Hq.
  2: { split_and!; [done|apply inspecting_refl|done]. }
  set (m1 := m <| m_locks ::= fun t => entryFor t (q_ref q) |>).
  assert (inv X V W m1) as Hm1 by (by apply inv_entryFor).
  assert (inspecting m m1) as Hi1 by (split; [apply entryFor_grows|apply heap_benign_refl|by destruct m]).
  destruct (entryFor_lookup (m_locks m) (q_ref q)) as [e He].
  change (m_locks m1) with (entryFor (m_locks m) (q_ref q)). rewrite He.
  set (owner := req_owner (m_requests m1) (r, i)).
  set (fresh := filter (fun holder => holder ∉ seen) _).
  set (m2 := on_bundle m1 r (fun b => b <| b_blockers ::= fun l => l ++ fresh |>)).
  assert (inv X V W m2) as Hm2 by (apply inv_on_bundle; [intros; apply benign_append|done]).
  assert (inspecting m m2) as Hi2.
  { eapply inspecting_trans; [done|]. apply inspecting_bundle. intros. apply benign_append. }
  set (waits := immediateConflict _ _ _ _).
  set (m3 := if waits && _ then _ else m2).
  assert (inv X V W m3) as Hm3.
  { unfold m3. destruct (_ && _); [|done]. apply inv_on_bundle; [apply benign_older|done]. }
  assert (inspecting m m3) as Hi3.
  { unfold m3. destruct (_ && _); [|done]. eapply inspecting_trans; [done|].
    apply inspecting_bundle, benign_older. }
  assert (m_locks m3 = m_locks m1) as EL by (unfold m3; by destruct (_ && _)).
  split_and!; [done|done|].
  destruct (negb (length (conflictingHolders e (q_ref q) owner) =? 0)%nat) eqn:Eh; cbn [orb].
  { by intros [_ ?]%app_nil. }
  apply negb_false_iff, Nat.eqb_eq, nil_length_inv in Eh.
  destruct waits; [by intros [_ ?]%app_nil|]. intros ->. split; [done|]. intros q' [= <-].
  rewrite EL. split; [by exists e|]. by apply (immediate_of_holders e X V W m1).
Qed.

Lemma inspect_fold_spec X V W l m r blocked seen :
  inv X V W m ->
  let '(m', blocked', _) := foldl (inspect_entry r) (m, blocked, seen) l in
  inv X V W m' /\ inspecting m m' /\
  (blocked' = [] -> blocked = [] /\ forall i q, i ∈ l -> deref (m_requests m) (r, i) = Some q ->
     is_Some (m_locks m' !! ResourceKey (q_ref q)) /\
     free_of (m_locks m') (req_owner (m_requests m) (r, i)) (q_ref q)).
Proof.
  revert m blocked seen. induction l as [|i l IH]; intros m blocked seen Hm; cbn [foldl].
  { split_and!; [done|apply inspecting_refl|]. intros ->. split; [done|]. by intros i q []%not_elem_of_nil. }
  pose proof (inspect_entry_spec X V W m r blocked seen i Hm) as H1.
  destruct (inspect_entry r (m, blocked, seen) i) as [[m1 blocked1] seen1]. destruct H1 as (Hm1 & Hi1 & Hb1).
  pose proof (IH m1 blocked1 seen1 Hm1) as H2.
  destruct (foldl _ _ l) as [[m2 blocked2] seen2]. destruct H2 as (Hm2 & Hi2 & Hb2).
  split_and!; [done|by eapply inspecting_trans|].
  intros E2. destruct (Hb2 E2) as [E1 Hl]. destruct (Hb1 E1) as [E0 Hi]. split; [done|].
  intros j q [->|Hj]%elem_of_cons Hq.
  - destruct (Hi q Hq) as [Hs Hf]. split.
    + apply (grows_Some _ _ _ (in_grows _ _ Hi2) Hs).
    + apply (grows_free _ _ _ _ (in_grows _ _ Hi2) Hf).
  - destruct (heap_benign_deref_fwd _ _ _ _ (in_benign _ _ Hi1) Hq) as (q' & Hq' & Er & _).
    rewrite <- Er, <- (heap_benign_owner _ _ _ (in_benign _ _ Hi1)). by apply Hl.
Qed.

Lemma inspectLocked_spec X V W m r b :
  inv X V W m -> m_requests m !! r = Some b ->
  let '(m', blocked) := inspectLocked m r in
  inv X V W m' /\ inspecting m m' /\
  (blocked = [] -> forall i q, b_entries b !! i = Some q ->
     is_Some (m_locks m' !! ResourceKey (q_ref q)) /\ free_of (m_locks m') (b_OwnerID b) (q_ref q)).
Proof.
  intros Hm Hr. unfold inspectLocked. rewrite Hr.
  pose proof (inspect_fold_spec X V W (seq 0 (length (b_entries b))) m r [] ∅ Hm) as H1.
  destruct (foldl _ _ _) as [[m1 blocked] seen]. destruct H1 as (Hm1 & Hi1 & Hb1). split_and!.
  - apply inv_on_bundle; [|done]. intros. by apply benign_fields.
  - eapply inspecting_trans; [done|]. apply inspecting_bundle. intros. by apply benign_fields.
  - intros E i q Hi. destruct (Hb1 E) as [_ Hl]. specialize (Hl i q).
    unfold req_owner, deref in Hl. cbn in Hl. rewrite Hr in Hl. apply Hl; [|done].
    apply elem_of_seq. apply lookup_lt_Some in Hi. lia.
Qed.

(** ** Queueing *)

(** A request of which nothing is held or dead yet. *)
Definition untouched (b : requestBundle) : Prop :=
  forall i q, b_entries b !! i = Some q -> q_state q <> entryHeld /\ q_dead q = false.

Lemma untouched_benign b b' : benign b b' -> untouched b -> untouched b'.
Proof.
  intros Hb Hu i q' Hq'. destruct (Forall2_lookup_r _ _ _ _ _ (bn_entries _ _ Hb) Hq') as (q & Hq & _ & Ed & Es).
  destruct (Hu i q Hq). by rewrite Es, Ed.
Qed.

Lemma markAdopted_benign m r b adopted :
  m_requests m !! r = Some b -> untouched b ->
  heap_benign (m_requests m) (m_requests (markAdoptedLocked m r adopted)).
Proof.
  intros Hr Hu r'. unfold markAdoptedLocked, on_bundle. cbn [m_requests field_update].
  destruct (decide (r' = r)) as [->|Hne]; [|rewrite lookup_alter_ne by done; apply heap_benign_refl].
  rewrite lookup_alter_eq, Hr. cbn. split; try done. cbn [b_entries field_update].
  apply Forall2_fmap_r, Forall2_same_length_lookup_2; [done|]. intros i x y Hx Hy.
  assert (y = x) as -> by congruence. destruct (Hu i x Hx) as [Hh _].
  unfold compose. case_bool_decide; [|done]. split_and!; [done..|]. cbn. by split.
Qed.

Lemma enqueue_indexed e id : indexed e -> indexed (enqueue e id).
Proof. by apply indexed_same. Qed.

(** The claim a waiting component leaves while it waits is not in force. *)
Lemma inv_enqueue (V W : gset Z) m k e r i b q ref :
  inv (fun id => id.1 = r) V W m -> m_locks m !! k = Some e -> m_requests m !! r = Some b ->
  b_entries b !! i = Some q -> q_ref q = ref -> ResourceKey ref = k -> q_state q <> entryHeld ->
  q_dead q = false -> r ∈ W -> (r, i) ∉ le_waiting e -> forall adopted : bool,
  inv (fun id => id.1 = r) V W (put_lock m k (enqueue
    (if negb adopted then addClaim e r (b_OwnerID b) ref true else e) (r, i))).
Proof.
  intros Hm Hk Hr Hi <- HK Hq Hd HW Hno adopted. set (e1 := if negb adopted then addClaim e r (b_OwnerID b) (q_ref q) true else e).
  assert (le_ref e1 = le_ref e /\ le_waiting e1 = le_waiting e /\ indexed e1 /\
    (forall o c, c ∈ claims_of e1 o -> c ∈ claims_of e o \/
       o = b_OwnerID b /\ c = mkClaim r (mode (q_ref q)) (q_ref q) true)) as (E1 & E2 & E3 & E4).
  { unfold e1. destruct (negb adopted).
    - split_and!; [done|done|by apply addClaim_indexed, (iv_index _ _ _ _ Hm k)|].
      intros o c. rewrite claims_of_addClaim. case_decide as Ho; [subst|by left].
      intros [?| ->%list_elem_of_singleton]%elem_of_app; [by left|by right].
    - split_and!; [done|done|by apply (iv_index _ _ _ _ Hm k)|by left]. }
  apply (inv_put_lock _ _ _ _ _ e); try done.
  - by apply enqueue_indexed.
  - intros o c Hc. destruct (E4 o c Hc) as [Hc0|[-> ->]]; [by apply (iv_claim _ _ _ _ Hm k e)|].
    split_and!; [done..|]. exists b. split_and!; [done..|]. apply list_elem_of_fmap. exists q.
    split; [done|]. by eapply list_elem_of_lookup_2.
  - intros o1 o2 c1 c2 Hne H1 H2 P1 P2.
    destruct (E4 _ _ H1) as [H1'|[_ ->]]; [|done]. destruct (E4 _ _ H2) as [H2'|[_ ->]]; [|done].
    by apply (iv_excl _ _ _ _ Hm k e Hk o1 o2).
  - cbn. rewrite E2. apply NoDup_app. split_and!; [by apply (iv_nodup _ _ _ _ Hm k)| |apply NoDup_singleton].
    intros x Hx ->%list_elem_of_singleton. done.
  - intros id Hid. cbn in Hid. rewrite E2 in Hid.
    apply elem_of_app in Hid as [Hid| ->%list_elem_of_singleton]; [by apply (iv_queue _ _ _ _ Hm k e)|].
    split; [done|]. exists q. split; [|done]. apply deref_Some. by exists b.
  - intros id Hid Hno'. destruct Hno'. cbn. rewrite E2. by apply elem_app_l.
Qed.

Lemma in_queue_entryFor t ref k id : in_queue t k id -> in_queue (entryFor t ref) k id.
Proof.
  intros (e & He & Hid). exists e. split; [|done]. pose proof (entryFor_grows t ref k) as Hg. by rewrite He in Hg.
Qed.

Lemma in_queue_put m k e e' k' id :
  m_locks m !! k = Some e -> le_waiting e ⊆ le_waiting e' ->
  in_queue (m_locks m) k' id -> in_queue (m_locks (put_lock m k e')) k' id.
Proof.
  intros Hk Hsub (e0 & He0 & Hid). unfold in_queue. cbn. destruct (decide (k' = k)) as [->|Hne].
  - exists e'. rewrite lookup_insert_eq. split; [done|]. apply Hsub. congruence.
  - exists e0. by rewrite lookup_insert_ne.
Qed.

Lemma enqueue_entry_spec V W m r b blocked i :
  inv (fun id => id.1 = r) V W m -> m_requests m !! r = Some b -> untouched b -> r ∈ W ->
  (forall k, ~ in_queue (m_locks m) k (r, i)) ->
  let m' := enqueue_entry r blocked m i in
  inv (fun id => id.1 = r) V W m' /\ heap_benign (m_requests m) (m_requests m') /\
  (forall k id, in_queue (m_locks m) k id -> in_queue (m_locks m') k id) /\
  (forall k id, in_queue (m_locks m') k id -> in_queue (m_locks m) k id \/ id = (r, i)) /\
  (forall q, deref (m_requests m) (r, i) = Some q -> in_queue (m_locks m') (ResourceKey (q_ref q)) (r, i)) /\
  m' = m <| m_locks := m_locks m' |> <| m_requests := m_requests m' |>.
Proof.
  intros Hm Hr Hu HW Hno. cbn zeta. unfold enqueue_entry.
  destruct (deref (m_requests m) (r, i)) as [q|] eqn:Hq.
  2: { split_and!; [done|apply heap_benign_refl|done|by left|done|by destruct m]. }
  assert (b_entries b !! i = Some q) as Hi.
  { apply deref_Some in Hq as (b' & Hb' & Hi). cbn in *. congruence. }
  destruct (Hu i q Hi) as [Hh Hd].
  set (mark := fun q : lockRequest => q <| q_blocked := bool_decide (i ∈ blocked) |>).
  assert (heap_benign (m_requests m) (on_entry (m_requests m) (r, i) mark)) as Hben
    by (by apply (heap_benign_on_entry _ _ q)).
  set (m1 := m <| m_requests ::= fun h => on_entry h (r, i) mark |>).
  assert (inv (fun id => id.1 = r) V W m1) as Hm1 by (by apply (inv_benign _ _ _ m)).
  set (m2 := m1 <| m_locks ::= fun t => entryFor t (q_ref q) |>).
  assert (inv (fun id => id.1 = r) V W m2) as Hm2 by (by apply inv_entryFor).
  destruct (entryFor_lookup (m_locks m) (q_ref q)) as [e He].
  change (m_locks m2) with (entryFor (m_locks m) (q_ref q)). rewrite He.
  destruct (heap_benign_Some _ _ _ _ Hben Hr) as (b1 & Hr1 & Hb1).
  destruct (Forall2_lookup_l _ _ _ _ _ (bn_entries _ _ Hb1) Hi) as (q1 & Hi1 & Er & Ed & Es).
  assert (req_owner (m_requests m2) (r, i) = b_OwnerID b1) as -> by (unfold req_owner; cbn in *; by rewrite Hr1).
  assert ((r, i) ∉ le_waiting e) as Hnw.
  { intros Hin. destruct (m_locks m !! ResourceKey (q_ref q)) as [e0|] eqn:E0.
    - pose proof (entryFor_grows (m_locks m) (q_ref q) (ResourceKey (q_ref q))) as Hg. rewrite E0 in Hg.
      apply (Hno (ResourceKey (q_ref q))). exists e0. split; [done|]. congruence.
    - unfold entryFor in He. rewrite E0, lookup_insert_eq in He. injection He as <-. by apply not_elem_of_nil in Hin. }
  set (e2 := if negb (bool_decide (q_state q = entryAdopted)) then addClaim e r (b_OwnerID b1) (q_ref q) true else e).
  set (m3 := put_lock m2 (ResourceKey (q_ref q)) (enqueue e2 (r, i))).
  assert (le_waiting e2 = le_waiting e) as EW by (unfold e2; by destruct (negb _)).
  split_and!; [|exact Hben| | | |by destruct m].
  - apply (inv_enqueue V W m2 _ e r i b1 q1 (q_ref q)); try done; [by rewrite Es|congruence].
  - intros k id Hin. apply (in_queue_put m2 _ e); [exact He|cbn; rewrite EW; set_solver|]. by apply in_queue_entryFor.
  - intros k id (e' & He' & Hid). unfold m3 in He'. cbn in He'. apply lookup_insert_Some in He' as [[<- <-]|[Hne He']].
    + cbn in Hid. rewrite EW in Hid. apply elem_of_app in Hid as [Hid| ->%list_elem_of_singleton]; [left|by right].
      exists e. split; [|done]. destruct (m_locks m !! ResourceKey (q_ref q)) as [e0|] eqn:E0.
      * pose proof (entryFor_grows (m_locks m) (q_ref q) (ResourceKey (q_ref q))) as Hg. rewrite E0 in Hg. congruence.
      * unfold entryFor in He. rewrite E0, lookup_insert_eq in He. injection He as <-. by apply not_elem_of_nil in Hid.
    + left. exists e'. split; [|done]. unfold entryFor in He'.
      destruct (m_locks m !! ResourceKey (q_ref q)); [done|]. by rewrite lookup_insert_ne in He'.
  - intros q' [= <-]. exists (enqueue e2 (r, i)). unfold m3. cbn. rewrite lookup_insert_eq. split; [done|].
    cbn. apply elem_snoc.
Qed.

Lemma enqueue_fold_spec V W l m r b blocked :
  inv (fun id => id.1 = r) V W m -> m_requests m !! r = Some b -> untouched b -> r ∈ W -> NoDup l ->
  (forall i k, i ∈ l -> ~ in_queue (m_locks m) k (r, i)) ->
  let m' := foldl (enqueue_entry r blocked) m l in
  inv (fun id => id.1 = r) V W m' /\ heap_benign (m_requests m) (m_requests m') /\
  (forall k id, in_queue (m_locks m) k id -> in_queue (m_locks m') k id) /\
  (forall i q, i ∈ l -> deref (m_requests m) (r, i) = Some q -> in_queue (m_locks m') (ResourceKey (q_ref q)) (r, i)) /\
  m' = m <| m_locks := m_locks m' |> <| m_requests := m_requests m' |>.
Proof.
  cbn zeta. revert m b. induction l as [|i l IH]; intros m b Hm Hr Hu HW Hnd Hno; cbn [foldl].
  { split_and!; [done|apply heap_benign_refl|done| |by destruct m]. by intros i q []%not_elem_of_nil. }
  apply NoDup_cons in Hnd as [Hil Hnd].
  destruct (enqueue_entry_spec V W m r b blocked i Hm Hr Hu HW) as (Hm1 & Hb1 & Hq1 & Hn1 & Hi1 & Hs1).
  { intros k. apply Hno. by left. }
  set (m1 := enqueue_entry r blocked m i) in *.
  destruct (heap_benign_Some _ _ _ _ Hb1 Hr) as (b1 & Hr1 & Hbb).
  destruct (IH m1 b1 Hm1 Hr1) as (Hm2 & Hb2 & Hq2 & Hi2 & Hs2); [by apply (untouched_benign b)|done|done|..].
  { intros j k Hj Hin. destruct (Hn1 _ _ Hin) as [Hin0|[= ->]]; [|done]. apply (Hno j k); [by right|done]. }
  split_and!; [done|by eapply heap_benign_trans|auto| |].
  - intros j q [->|Hj]%elem_of_cons Hq.
    + by apply Hq2, Hi1.
    + destruct (heap_benign_deref_fwd _ _ _ _ Hb1 Hq) as (q' & Hq' & <- & _). by apply Hi2.
  - rewrite Hs2, Hs1. by destruct m.
Qed.

(** A new request joins the waiting ones: exempt from the queue condition until it is queued. *)
Lemma inv_join V m r b :
  inv none_exempt V V m -> m_requests m !! r = Some b -> b_Status b = RequestPending ->
  inv (fun id => id.1 = r) V ({[ r ]} ∪ V) m.
Proof.
  intros [Bu Id Rf Ix Cl Ex Qu Nd Wa En Tr Pe] Hr Hst. split; try done.
  - intros k e id Hk Hid. destruct (Qu k e id Hk Hid) as [HW ?]. split; [set_solver|done].
  - intros r' [->%elem_of_singleton|HW]%elem_of_union; [by exists b|by apply Wa].
  - intros id q [HW%elem_of_singleton|HW]%elem_of_union HX; [done|]. apply En; [done|tauto].
Qed.

(** The pending index takes the components of a queued request in. *)
Lemma inv_track X V W m m' r b :
  inv X V W m -> m_requests m !! r = Some b -> r ∉ V -> b_entries b <> [] ->
  m_locks m' = m_locks m -> m_requests m' = m_requests m -> m_nextRequestID m' = m_nextRequestID m ->
  m_pending m' = <[b_OwnerID b := list_to_set (entry_ids r b) ∪ default ∅ (m_pending m !! b_OwnerID b)]> (m_pending m) ->
  inv X ({[ r ]} ∪ V) W m'.
Proof.
  intros [Bu Id Rf Ix Cl Ex Qu Nd Wa En Tr Pe] Hr HrV Hne E1 E2 E3 E4. split; rewrite ?E1, ?E2, ?E3; try done.
  - intros o id. rewrite E4, elem_of_union, elem_of_singleton.
    assert (id ∈ entry_ids r b <-> id.1 = r /\ req_owner (m_requests m) id = b_OwnerID b /\
      is_Some (deref (m_requests m) id)) as Hids.
    { rewrite elem_of_entry_ids. split.
      - intros [<- Hs]. split; [done|]. unfold req_owner, deref. by rewrite Hr.
      - intros (<- & _ & Hs). split; [done|]. unfold deref in Hs. by rewrite Hr in Hs. }
    destruct (decide (o = b_OwnerID b)) as [->|Ho].
    + rewrite lookup_insert_eq. cbn. rewrite elem_of_union, elem_of_list_to_set, Hids, Tr. tauto.
    + rewrite lookup_insert_ne, Tr by done. split; [tauto|]. intros ([Hid|?] & Ho' & ?); [|done].
      destruct Ho. rewrite <- Ho'. unfold req_owner. by rewrite Hid, Hr.
  - intros o. rewrite E4. intros [[_ Hs]|[_ ?]]%lookup_insert_Some; [|by eapply Pe].
    assert ((r, 0%nat) ∈ entry_ids r b) as Hin by (apply elem_of_entry_ids; split; [done|by destruct (b_entries b)]).
    assert ((r, 0%nat) ∈ (∅ : gset entryID)) as Hem
      by (rewrite <- Hs; apply elem_of_union_l, elem_of_list_to_set, Hin).
    set_solver.
Qed.

Lemma enqueueLocked_spec m r b blocked :
  minv m -> m_requests m !! r = Some b -> b_Status b = RequestPending -> untouched b -> r ∉ m_waiting m ->
  let m' := enqueueLocked m r blocked in
  minv m' /\ heap_benign (m_requests m) (m_requests m').
Proof.
  intros Hm Hr Hst Hu HW. cbn zeta. unfold enqueueLocked. rewrite Hr.
  assert (r ∈ {[ r ]} ∪ m_waiting m) as Hin by set_solver.
  destruct (enqueue_fold_spec _ _ (seq 0 (length (b_entries b))) m r b blocked
    (inv_join _ _ _ _ Hm Hr Hst) Hr Hu Hin) as (Hm1 & Hb1 & _ & Hq1 & Hs1); [apply NoDup_seq|..].
  { intros i k _ (e & He & Hid). by destruct (iv_queue _ _ _ _ Hm k e _ He Hid). }
  set (m1 := foldl _ m _) in *.
  assert (inv none_exempt (m_waiting m) ({[ r ]} ∪ m_waiting m) m1) as Hm1'.
  { destruct Hm1 as [Bu Id Rf Ix Cl Ex Qu Nd Wa En Tr Pe]. split; try done. intros id q HW' _ Hq.
    destruct (decide (id.1 = r)) as [Eid|Hne]; [|by apply En].
    destruct (heap_benign_deref _ _ _ _ Hb1 Hq) as (q0 & Hq0 & Er & Ed & Es).
    pose proof Hq0 as (b0 & Hb0 & Hi)%deref_Some. rewrite Eid in Hb0. assert (b0 = b) as -> by congruence.
    destruct (Hu _ _ Hi) as [_ Hdead]. split; [congruence|]. intros _. rewrite Er.
    destruct id as [r' i]. cbn in *. subst r'. apply Hq1; [|done].
    apply elem_of_seq. apply lookup_lt_Some in Hi. lia. }
  destruct (heap_benign_Some _ _ _ _ Hb1 Hr) as (b1 & Hr1 & Hbb).
  split.
  - unfold minv. set (m2 := m1 <| m_pending ::= _ |> <| m_waiting ::= union {[ r ]} |>).
    apply (inv_on_bundle _ _ _ m2); [intros; by apply benign_fields|].
    assert (m_waiting (on_bundle m2 r (fun b => b <| b_ReservationToken := b_reservation b |>)) =
      {[ r ]} ∪ m_waiting m) as -> by (unfold m2; cbn; by rewrite Hs1).
    apply (inv_track _ _ _ m1 m2 r b1); try done.
    + by apply (iv_bundle _ _ _ _ Hm1 r).
    + unfold m2. cbn. rewrite (bn_owner _ _ Hbb).
      assert (entry_ids r b1 = entry_ids r b) as -> by (unfold entry_ids; by rewrite <- (Forall2_length _ _ _ (bn_entries _ _ Hbb))).
      done.
  - eapply heap_benign_trans; [exact Hb1|]. apply heap_benign_alter. intros. by apply benign_fields.
Qed.

(** ** Acquiring *)

(** What the operations need of the manager besides [minv]. *)
Record good (m : manager) : Prop := {
  gd_inv : minv m;
  gd_next : 0 <= m_nextRequestID m
}.

(** An operation keeps the invariant and lets requests only evolve. *)
Record sound (m m' : manager) : Prop := {
  so_good : good m';
  so_evolves : evolves (m_requests m) (m_requests m');
  so_accounted : accounted m m'
}.

Lemma quiet_sound m m' : good m -> quiet m m' -> sound m m'.
Proof.
  intros [Hm Hn] [Hi He _ Hf Ha]. split; [|done|done]. split; [done|]. by rewrite (fr_nextRequestID _ _ Hf).
Qed.

Lemma sound_trans m1 m2 m3 : sound m1 m2 -> sound m2 m3 -> sound m1 m3.
Proof. intros [_ E1 A1] [G2 E2 A2]. split; [done|by etrans|by apply (accounted_trans m1 m2 m3)]. Qed.

Lemma sound_refl m : good m -> sound m m.
Proof. intros Hm. split; try done. by apply accounted_same. Qed.

(** Changes of fields that the invariant does not read. *)
Lemma good_same m m' :
  good m -> m_locks m' = m_locks m -> m_requests m' = m_requests m -> m_pending m' = m_pending m ->
  m_waiting m' = m_waiting m -> m_nextRequestID m' = m_nextRequestID m -> good m'.
Proof.
  intros [Hm Hn] E1 E2 E3 E4 E5. split; [|by rewrite E5]. unfold minv. rewrite E4. by apply (inv_frame _ _ _ m).
Qed.

Lemma sound_same m m' :
  good m -> m_locks m' = m_locks m -> m_requests m' = m_requests m -> m_pending m' = m_pending m ->
  m_waiting m' = m_waiting m -> m_nextRequestID m' = m_nextRequestID m -> sound m m'.
Proof. intros Hm E1 E2 E3 E4 E5. split; [by eapply good_same|by rewrite E2|by apply accounted_same]. Qed.

(** A request whose components are all still to be granted. *)
Definition all_pending (b : requestBundle) : Prop :=
  forall i q, b_entries b !! i = Some q -> q_state q = entryPending.

(** A bundle as [DedupeResourceRefs] returns it. *)
Definition bundle_refs (l : list ResourceRef) : Prop :=
  Forall wf_ref l /\ NoDup (ClaimKey <$> l) /\ l <> [].

Lemma new_bundle_ok (b : requestBundle) (refs : list ResourceRef) (adopted : gmap bytes Z) :
  bundle_refs refs -> b_entries b = (fun c => mkEntry c entryPending (adopted !! ClaimKey c) false false) <$> refs ->
  b_held b = 0 -> b_Status b = RequestPending -> b_decision b = newRequestState ->
  bundle_ok b /\ untouched b /\ all_pending b.
Proof.
  intros (Hwf & Hnd & Hne) Ee Eh Es Ed.
  assert (components b = refs) as Hc.
  { unfold components. rewrite Ee, <- list_fmap_compose. apply list_fmap_id. }
  assert (all_pending b /\ untouched b) as [Ha Hu].
  { split; intros i q; rewrite Ee, list_lookup_fmap; by intros (c & _ & ->)%fmap_Some. }
  split; [|done]. split; rewrite ?Es, ?Ed; try done.
  - rewrite Ee. apply Forall_fmap. eapply Forall_impl; [done|]. by intros.
  - by rewrite Hc.
  - rewrite Ee. intros E%fmap_nil_inv. done.
  - rewrite Eh, Ee. clear. unfold held_count. induction refs as [|c refs IH]; [done|]. cbn [fmap list_fmap].
    rewrite filter_cons_False; [exact IH|]. intros [].
Qed.

Section Acquire.
Context `{MapRange}.

(** A grant returned for a request: the request's components for its owner. *)
Definition grant_of (m : manager) (rootID : bytes) (wanted : list ResourceRef) (r : Z) (g : LockGrant) : Prop :=
  GrantOwnerID g = rootID /\ GrantComponents g = wanted /\
  exists b, m_requests m !! r = Some b /\ b_OwnerID b = rootID /\ components b = wanted /\ complete b = true.

Lemma grantOf_spec m r b :
  good m -> m_requests m !! r = Some b -> complete b = true ->
  grant_of m (b_OwnerID b) (components b) r (grantOfLocked m b).
Proof.
  intros [Hm _] Hr Hc. unfold grantOfLocked, recordedGrant, resolvedGrant.
  destruct (d_grant (b_decision b)) as [g|] eqn:Eg.
  - destruct (bo_grant _ (iv_bundle _ _ _ _ Hm _ _ Hr) g Eg) as (_ & ? & ?). split_and!; [done..|by exists b].
  - split_and!; [done..|by exists b].
Qed.

Lemma forget_sound m m1 m2 r :
  good m -> m_requests m !! r = None -> good m2 -> table_grows (m_locks m) (m_locks m1) ->
  (forall k e, m_locks m2 !! k = Some e -> m_locks m1 !! k = Some e) ->
  evolves (m_requests m) (m_requests m2) -> m_waiting m2 = m_waiting m ->
  sound m (m2 <| m_requests ::= delete r |>).
Proof.
  intros [Hm _] Hfresh [Hm2 Hn2] Hg Hsub Hev EW.
  assert (r ∉ m_waiting m) as HrW.
  { intros HW. destruct (iv_waiting _ _ _ _ Hm r HW) as (b & Hb & _). by rewrite Hfresh in Hb. }
  split.
  - split; [|done]. unfold minv. change (m_waiting (m2 <| m_requests ::= delete r |>)) with (m_waiting m2).
    apply (inv_forget _ _ _ m2); [exact Hm2|by rewrite EW|by rewrite EW|].
    intros k e o c Hk%Hsub Hc Ec. pose proof (grows_claims _ _ _ _ _ _ Hg Hk Hc) as Hk0.
    destruct (iv_claim _ _ _ _ Hm k e o c Hk0 Hc) as (_ & _ & b & Hb & _). by rewrite Ec, Hfresh in Hb.
  - intros r' b Hb. destruct (Hev r' b Hb) as (b' & Hb' & He). exists b'. split; [|done].
    cbn. rewrite lookup_delete_ne; [done|]. intros <-. by rewrite Hfresh in Hb.
  - by apply accounted_same.
Qed.

Lemma release_fold l m :
  good m ->
  good (foldl release_lock m l) /\ (forall k e, m_locks (foldl release_lock m l) !! k = Some e -> m_locks m !! k = Some e) /\
  m_requests (foldl release_lock m l) = m_requests m /\ m_waiting (foldl release_lock m l) = m_waiting m.
Proof.
  revert m. induction l as [|k l IH]; intros m Hm; cbn [foldl]; [done|].
  destruct (IH (release_lock m k)) as (H1 & H2 & H3 & H4).
  { destruct Hm as [Hm Hn]. split; [by apply inv_release_lock|done]. }
  split_and!; [done| |by rewrite H3|by rewrite H4]. intros k' e He%H2. revert He. cbn. unfold Queue.release.
  destruct (m_locks m !! k); [|done]. destruct (_ && _); [|done]. by intros [_ ?]%lookup_delete_Some.
Qed.

Lemma refuse_sound m m1 r token :
  good m -> m_requests m !! r = None -> good m1 -> table_grows (m_locks m) (m_locks m1) ->
  evolves (m_requests m) (m_requests m1) -> m_waiting m1 = m_waiting m ->
  sound m (refuse_request m1 r token).
Proof.
  intros Hm Hfresh Hm1 Hg Hev EW. unfold refuse_request. set (m2 := m1 <| m_ledger ::= _ |>). cbn zeta.
  destruct (release_fold (from_option (fun b => ResourceKey ∘ q_ref <$> b_entries b) [] (m_requests m2 !! r)) m2)
    as (H1 & H2 & H3 & H4); [by apply (good_same m1)|].
  apply (forget_sound m m1); try done.
  - by rewrite H3.
  - by rewrite H4.
Qed.

Lemma evolves_insert_fresh (h : heap) r b : h !! r = None -> evolves h (<[r := b]> h).
Proof.
  intros Hf r' b' Hb. exists b'. split; [|done]. rewrite lookup_insert_ne; [done|]. intros <-. by rewrite Hf in Hb.
Qed.

Lemma next_request_fresh m : good m -> m_requests m !! (1 + m_nextRequestID m) = None.
Proof.
  intros [Hm _]. destruct (m_requests m !! (1 + m_nextRequestID m)) as [b|] eqn:E; [|done].
  apply (iv_id _ _ _ _ Hm) in E. lia.
Qed.

(** The request [newRequestLocked] makes: new, of nothing held, with the components asked for. *)
Record created (m m' : manager) (rootID : bytes) (refs : list ResourceRef) (mayWait : option bool) (r : Z)
    (b : requestBundle) : Prop := {
  cr_good : good m';
  cr_fresh : m_requests m !! r = None;
  cr_request : m_requests m' = <[r := b]> (m_requests m);
  cr_locks : m_locks m' = m_locks m;
  cr_waiting : m_waiting m' = m_waiting m;
  cr_status : b_Status b = RequestPending;
  cr_untouched : untouched b;
  cr_entries : all_pending b;
  cr_wait : b_ShouldWait b = mayWait;
  cr_owner : b_OwnerID b = rootID;
  cr_components : components b = refs;
  cr_accounts : accounts m m'
}.

Lemma newRequest_spec m rootID scopeID refs token mayWait adopted :
  good m -> bundle_refs refs -> is_Some (l_objs (m_ledger m) !! token) ->
  let '(m', created_) := newRequestLocked m rootID scopeID refs token mayWait adopted in
  match created_ with
  | Err _ => m' = m
  | Ok r => exists b, created m m' rootID refs mayWait r b
  end.
Proof.
  intros Hm Hrefs Htoken. unfold newRequestLocked. destruct (_ || _); [done|].
  set (m1 := m <| m_nextRequestID ::= _ |> <| m_nextEnqueueOrdinal ::= _ |>). cbn zeta.
  set (b := mkBundle _ _ _ _ _ _ _ _ _ _ _ _ _ _ _ _ _ _ _ _).
  destruct (new_bundle_ok b refs adopted Hrefs) as (Hb & Hu & Ha); [done..|]. exists b.
  pose proof (next_request_fresh m Hm) as Hfresh.
  assert (components b = refs) as Hc.
  { unfold components, b. cbn. rewrite <- list_fmap_compose. apply list_fmap_id. }
  split; try done.
  2: { split; [done|]. cbn. intros r' b' [[<- <-]|[_ ?]]%lookup_insert_Some; [by left|right; eauto]. }
  destruct Hm as [Hm Hn]. split; [|cbn; lia].
  pose proof (inv_new _ _ _ m b Hm Hb Hn (reflexivity _)) as Hi. cbn zeta in Hi.
  unfold minv. by eapply inv_frame, Hi.
Qed.

(** What inspecting a request records is about waiting only. *)
Lemma inspect_same {A} (proj : requestBundle -> A) m r r' :
  (r' = r -> forall b f, proj (b <| b_blockers ::= f |>) = proj b) ->
  (r' = r -> forall b, proj (b <| b_blockedByOlderWaiter := true |>) = proj b) ->
  proj <$> m_requests (inspectLocked m r).1 !! r' = proj <$> m_requests m !! r'.
Proof.
  intros H1 H2.
  assert (forall x (f : requestBundle -> requestBundle), (r' = r -> forall b, proj (f b) = proj b) ->
    proj <$> m_requests (on_bundle x r f) !! r' = proj <$> m_requests x !! r') as Hon.
  { intros x f Hf. cbn. destruct (decide (r' = r)) as [E|Hne]; [|by rewrite lookup_alter_ne].
    rewrite E, lookup_alter_eq. destruct (m_requests x !! r); cbn; [by rewrite Hf|done]. }
  unfold inspectLocked. destruct (m_requests m !! r) as [b|]; [|done].
  assert (forall l x blocked seen, proj <$> m_requests (foldl (inspect_entry r) (x, blocked, seen) l).1.1 !! r' =
    proj <$> m_requests x !! r') as Hfold.
  { induction l as [|i l IH]; intros x blocked seen; cbn [foldl]; [done|].
    destruct (inspect_entry r (x, blocked, seen) i) as [[x1 blocked1] seen1] eqn:E. rewrite IH.
    revert E. unfold inspect_entry. destruct (deref (m_requests x) (r, i)) as [q|]; [|by intros [= <- _ _]].
    cbn zeta. destruct (m_locks _ !! _) as [e|]; [|by intros [= <- _ _]].
    intros [[<- _]%pair_equal_spec _]%pair_equal_spec.
    destruct (_ && _); rewrite ?(Hon _ _ H2); by rewrite (Hon _ _ (fun E b => H1 E b _)). }
  specialize (Hfold (seq 0 (length (b_entries b))) m [] ∅).
  destruct (foldl _ _ _) as [[m1 blocked] seen]. cbn [fst] in *. by rewrite (Hon _ _ (fun E b => H1 E b _)).
Qed.

(** A request that has arrived and been inspected, before it is granted, queued or refused. *)
Record arriving (m m2 : manager) (rootID : bytes) (refs : list ResourceRef) (mayWait : option bool) (r : Z)
    (b : requestBundle) : Prop := {
  ar_good : good m2;
  ar_fresh : m_requests m !! r = None;
  ar_grows : table_grows (m_locks m) (m_locks m2);
  ar_exact r' : r' <> r -> m_requests m2 !! r' = m_requests m !! r';
  ar_others : exists b0, heap_benign (<[r := b0]> (m_requests m)) (m_requests m2);
  ar_waiting : m_waiting m2 = m_waiting m;
  ar_request : m_requests m2 !! r = Some b;
  ar_status : b_Status b = RequestPending;
  ar_untouched : untouched b;
  ar_entries : all_pending b;
  ar_wait : b_ShouldWait b = mayWait;
  ar_owner : b_OwnerID b = rootID;
  ar_components : components b = refs;
  ar_accounts : accounts m m2
}.

Lemma arriving_evolves m m2 rootID refs mayWait r b :
  arriving m m2 rootID refs mayWait r b -> evolves (m_requests m) (m_requests m2).
Proof.
  intros Ha. destruct (ar_others _ _ _ _ _ _ _ Ha) as [b0 Hb]. transitivity (<[r := b0]> (m_requests m)).
  - apply evolves_insert_fresh, Ha.
  - by apply heap_benign_evolves.
Qed.

Lemma arriving_sound m m2 rootID refs mayWait r b : arriving m m2 rootID refs mayWait r b -> sound m m2.
Proof. intros Ha. split; [apply Ha|by eapply arriving_evolves|apply accounted_same, Ha]. Qed.

Lemma inspected_arrives m rootID refs mayWait r b m1 :
  good m -> created m m1 rootID refs mayWait r b ->
  let '(m2, blocked) := inspectLocked m1 r in
  exists b2, arriving m m2 rootID refs mayWait r b2 /\ (blocked = [] -> grant_ready m2 r b2).
Proof.
  intros Hm Hc. pose proof (cr_request _ _ _ _ _ _ _ Hc) as Ereq.
  assert (m_requests m1 !! r = Some b) as Hr1 by (by rewrite Ereq, lookup_insert_eq).
  pose proof (inspectLocked_spec _ _ _ m1 r b (gd_inv _ (cr_good _ _ _ _ _ _ _ Hc)) Hr1) as Hi.
  pose proof (inspect_same b_entries m1 r r (fun _ _ _ => eq_refl) (fun _ _ => eq_refl)) as Hent.
  pose proof (inspect_same b_ShouldWait m1 r r (fun _ _ _ => eq_refl) (fun _ _ => eq_refl)) as Hwait.
  assert (forall r', r' <> r -> id <$> m_requests (inspectLocked m1 r).1 !! r' = id <$> m_requests m1 !! r') as Hother
    by (intros r' Hne; by apply inspect_same).
  destruct (inspectLocked m1 r) as [m2 blocked]. cbn [fst] in *. destruct Hi as (Hm2 & [Hg Hb Hrest] & Hready).
  assert (m_waiting m2 = m_waiting m1) as EW by (by rewrite Hrest).
  destruct (heap_benign_Some _ _ _ _ Hb Hr1) as (b2 & Hr2 & Hbb). rewrite Hr2, Hr1 in Hent, Hwait.
  cbn in Hent, Hwait. injection Hent as Hent. injection Hwait as Hwait. exists b2. split.
  - split; try done.
    + split; [unfold minv; by rewrite EW|]. rewrite Hrest. cbn. apply Hc.
    + apply Hc.
    + by rewrite <- (cr_locks _ _ _ _ _ _ _ Hc).
    + intros r' Hne. pose proof (Hother r' Hne) as E. rewrite !option_fmap_id in E. rewrite E, Ereq.
      by rewrite lookup_insert_ne.
    + exists b. by rewrite <- Ereq.
    + by rewrite EW, (cr_waiting _ _ _ _ _ _ _ Hc).
    + by rewrite (bn_status _ _ Hbb), (cr_status _ _ _ _ _ _ _ Hc).
    + apply (untouched_benign _ _ Hbb), Hc.
    + unfold all_pending. rewrite Hent. apply Hc.
    + rewrite Hwait. apply Hc.
    + rewrite (bn_owner _ _ Hbb). apply Hc.
    + rewrite (benign_components _ _ Hbb). apply Hc.
    + etrans; [apply Hc|]. apply accounts_requests; [by rewrite Hrest|by apply res_kept_benign].
  - intros ->. split; [done| | |].
    + by rewrite (bn_status _ _ Hbb), (cr_status _ _ _ _ _ _ _ Hc).
    + intros i q2 Hi _. rewrite Hent in Hi. by apply (Hready eq_refl i).
    + intros i q2 Hi _. rewrite Hent in Hi. rewrite (bn_owner _ _ Hbb). by apply (Hready eq_refl i).
Qed.

Lemma evolution_benign_components b b' : evolution b b' -> b_OwnerID b' = b_OwnerID b /\ components b' = components b.
Proof. intros []. done. Qed.

(** The waiting request as it stands in the queues, before the fair pass that follows. *)
Definition queue_request (m : manager) (rootID : bytes) (r : Z) (blocked : list nat) : manager :=
  let wanted := from_option components [] (m_requests m !! r) in
  let m := markAdoptedLocked m r (adoptedClaims m rootID wanted) in
  let m := on_bundle m r (fun b => if b_BlockedAt b =? 0 then b <| b_BlockedAt := m_now m |> else b) in
  let m := enqueueLocked m r blocked in
  on_bundle m r (fun b => b <| b_BlockerIDs := b_blockers b |>).

Lemma wait_request_eq m rootID r blocked :
  wait_request m rootID r blocked =
  let m := advanceLocked (queue_request m rootID r blocked) in
  match m_requests m !! r with
  | None => (m, Err ErrOwnerUnknown)
  | Some b =>
      if complete b then (m, Ok (LockOpGranted (grantOfLocked m b)))
      else (m, Ok (LockOpWait (mkHandle r (b_EnqueueOrdinal b) true None)))
  end.
Proof. done. Qed.

Lemma queue_request_waiting m rootID r blocked : m_waiting m ⊆ m_waiting (queue_request m rootID r blocked).
Proof.
  unfold queue_request. cbn zeta. unfold enqueueLocked. destruct (m_requests _ !! r) as [b|]; [|done]. cbn.
  assert (forall l x, m_waiting (foldl (enqueue_entry r blocked) x l) = m_waiting x) as ->; [|cbn; set_solver].
  clear. induction l as [|i l IH]; intros x; cbn [foldl]; [done|]. rewrite IH. unfold enqueue_entry.
  destruct (deref _ _); [|done]. cbn zeta. by destruct (m_locks _ !! _).
Qed.

Lemma queue_request_good m rootID r b blocked :
  good m -> m_requests m !! r = Some b -> b_Status b = RequestPending -> untouched b -> r ∉ m_waiting m ->
  good (queue_request m rootID r blocked) /\
  heap_benign (m_requests m) (m_requests (queue_request m rootID r blocked)).
Proof.
  intros Hm Hr Hst Hu HW. unfold queue_request. cbn zeta.
  set (m1 := markAdoptedLocked m r _).
  assert (heap_benign (m_requests m) (m_requests m1)) as B1 by (by apply (markAdopted_benign _ _ b)).
  set (m2 := on_bundle m1 r _).
  assert (heap_benign (m_requests m) (m_requests m2)) as B2.
  { eapply heap_benign_trans; [exact B1|]. apply heap_benign_alter. intros b0.
    destruct (b_BlockedAt b0 =? 0); [by apply benign_fields|apply benign_refl]. }
  assert (minv m2) as Hm2.
  { destruct Hm as [Hm _]. pose proof (inv_benign _ _ _ m _ B2 Hm) as Hi. exact Hi. }
  destruct (heap_benign_Some _ _ _ _ B2 Hr) as (b2 & Hr2 & Hb2).
  destruct (enqueueLocked_spec m2 r b2 blocked Hm2 Hr2) as [Hm3 B3];
    [by rewrite (bn_status _ _ Hb2)|by apply (untouched_benign b)|done|].
  set (m3 := enqueueLocked m2 r blocked) in *.
  set (m4 := on_bundle m3 r (fun b => b <| b_BlockerIDs := b_blockers b |>)).
  assert (heap_benign (m_requests m) (m_requests m4)) as B4.
  { eapply heap_benign_trans; [|apply heap_benign_alter; intros; by apply benign_fields].
    by eapply heap_benign_trans. }
  assert (minv m4) as Hm4 by (by apply inv_on_bundle; [intros; apply benign_fields|]).
  assert (m_nextRequestID m4 = m_nextRequestID m) as EN.
  { unfold m4, m3, enqueueLocked. rewrite Hr2. cbn.
    assert (forall l x, m_nextRequestID (foldl (enqueue_entry r blocked) x l) = m_nextRequestID x) as ->; [|done].
    clear. induction l as [|i l IH]; intros x; cbn; [done|]. rewrite IH. unfold enqueue_entry.
    destruct (deref _ _); [|done]. by destruct (m_locks _ !! _). }
  split; [|done]. split; [done|rewrite EN; apply Hm].
Qed.

Lemma wait_request_sound m rootID refs r b blocked :
  good m -> m_requests m !! r = Some b -> b_Status b = RequestPending -> untouched b -> r ∉ m_waiting m ->
  b_OwnerID b = rootID -> components b = refs ->
  let '(m', res) := wait_request m rootID r blocked in
  sound m m' /\
  match res with
  | Ok (LockOpGranted g) => grant_of m' rootID refs r g
  | Ok (LockOpWait h) => h_RequestID h = r /\ h_origin h = true /\
      exists b', m_requests m' !! r = Some b' /\ evolution b b' /\ complete b' = false
  | _ => False
  end.
Proof.
  intros Hm Hr Hst Hu HW Ho Hc. rewrite wait_request_eq. cbn zeta.
  destruct (queue_request_good m rootID r b blocked Hm Hr Hst Hu HW) as [Hg4 B4].
  set (m4 := queue_request m rootID r blocked) in *. destruct Hg4 as [Hm4 Hn4] eqn:Eg. clear Eg.
  pose proof (retryWaiting_quiet m4 Hm4) as Hq.
  pose proof (quiet_sound _ _ (Build_good _ Hm4 Hn4) Hq) as Hs.
  unfold advanceLocked. set (m5 := retryWaitingLocked m4) in *.
  destruct (heap_benign_Some _ _ _ _ B4 Hr) as (b4 & Hr4 & Hb4).
  destruct (qu_evolves _ _ Hq r b4 Hr4) as (b5 & Hr5 & E5). rewrite Hr5.
  assert (evolution b b5) as E by (transitivity b4; [by apply benign_evolution|done]).
  assert (sound m m5) as Hs5.
  { split; [apply Hs|transitivity (m_requests m4); [by apply heap_benign_evolves|apply Hs]|].
    intros r' Hr'. apply (so_accounted _ _ Hs). by apply (queue_request_waiting m rootID r blocked). }
  destruct (complete b5) eqn:Ec; (split; [done|]).
  - rewrite <- Ho, <- Hc, <- (ev_owner _ _ E), <- (ev_components _ _ E). apply grantOf_spec; [apply Hs|done|done].
  - split_and!; [done..|]. by exists b5.
Qed.

Lemma grant_inline_sound m rootID refs r b token :
  good m -> grant_ready m r b -> b_OwnerID b = rootID -> components b = refs ->
  exists m' g, grant_inline m r token = (m', Ok (LockOpGranted g)) /\ sound m m' /\ grant_of m' rootID refs r g.
Proof.
  intros Hm Hready Ho Hc. unfold grant_inline.
  destruct (grantLocked_spec m r b (gd_inv _ Hm) Hready) as (Hq & _ & b' & E & Hc').
  set (m1 := grantLocked m r) in *. pose proof (quiet_sound _ _ Hm Hq) as Hs.
  assert (m_requests m1 !! r = Some b') as Hr1 by (by rewrite E, lookup_insert_eq).
  cbn zeta. rewrite Hr1, Hc'. cbn. exists m1, (grantOfLocked m1 b'). split_and!; [done..|].
  destruct (qu_evolves _ _ Hq r b (rd_request _ _ _ Hready)) as (b'' & Hr'' & Ev).
  assert (b'' = b') as -> by congruence.
  rewrite <- Ho, <- Hc, <- (ev_owner _ _ Ev), <- (ev_components _ _ Ev). apply grantOf_spec; [apply Hs|done|done].
Qed.

(** What a new acquisition answers. *)
Definition acquire_outcome (m m' : manager) (rootID : bytes) (refs : list ResourceRef)
    (res : result lock_error AcquireResult) : Prop :=
  match res with
  | Ok (LockOpGranted g) => exists r, m_requests m !! r = None /\ grant_of m' rootID refs r g
  | Ok (LockOpReentrant g) => GrantOwnerID g = rootID /\ GrantComponents g = refs
  | Ok (LockOpWait h) => exists b', m_requests m' !! h_RequestID h = Some b' /\ b_OwnerID b' = rootID /\
      (h_origin h = true -> components b' = refs /\ complete b' = false)
  | Err _ => m_waiting m' = m_waiting m /\ dom (m_requests m') = dom (m_requests m)
  end.

Lemma refuse_requests m r token : m_requests (refuse_request m r token) = delete r (m_requests m).
Proof.
  unfold refuse_request. cbn.
  assert (forall l x, m_requests (foldl release_lock x l) = m_requests x) as ->; [|done].
  induction l as [|k l IH]; intros x; cbn; [done|]. by rewrite IH.
Qed.

Lemma heap_benign_dom h h' : heap_benign h h' -> dom h' = dom h.
Proof.
  intros Hh. apply set_eq. intros r. rewrite !elem_of_dom. specialize (Hh r).
  destruct (h !! r), (h' !! r); try done; split; intros; by eexists.
Qed.

Lemma refuse_waiting m r token : m_waiting (refuse_request m r token) = m_waiting m.
Proof.
  unfold refuse_request. cbn.
  assert (forall l x, m_waiting (foldl release_lock x l) = m_waiting x) as ->; [|done].
  induction l as [|k l IH]; intros x; cbn; [done|]. by rewrite IH.
Qed.

Lemma good_ledger m l : good m -> good (m <| m_ledger := l |>).
Proof. intros Hm. by apply (good_same m). Qed.

Lemma arriving_not_waiting m m2 rootID refs mayWait r b :
  good m -> arriving m m2 rootID refs mayWait r b -> r ∉ m_waiting m2.
Proof.
  intros Hm Ha. rewrite (ar_waiting _ _ _ _ _ _ _ Ha). intros HW.
  destruct (iv_waiting _ _ _ _ (gd_inv _ Hm) r HW) as (b0 & Hb0 & _).
  pose proof (ar_fresh _ _ _ _ _ _ _ Ha) as Hf. congruence.
Qed.

(** What becomes of a new acquisition. *)
Inductive acquired (m : manager) (rootID : bytes) (refs : list ResourceRef) (mayWait : option bool)
    (res : manager * result lock_error AcquireResult) : Prop :=
  | acquired_refused l e : ledger_on (m_ledger m) l -> res = (m <| m_ledger := l |>, Err e) -> acquired m rootID refs mayWait res
  | acquired_conflict m2 r b token :
      arriving m m2 rootID refs mayWait r b -> mayWait = Some false ->
      res = (refuse_request m2 r token, Err ErrConflict) -> acquired m rootID refs mayWait res
  | acquired_waits m2 r b blocked :
      arriving m m2 rootID refs mayWait r b -> mayWait <> Some false ->
      res = wait_request m2 rootID r blocked -> acquired m rootID refs mayWait res
  | acquired_granted m2 r b token :
      arriving m m2 rootID refs mayWait r b -> grant_ready m2 r b ->
      res = grant_inline m2 r token -> acquired m rootID refs mayWait res.

Lemma acquire_new_cases m rootID scopeID refs mayWait :
  good m -> bundle_refs refs -> acquired m rootID refs mayWait (acquire_new m rootID scopeID refs mayWait).
Proof.
  intros Hm Hrefs. unfold acquire_new.
  pose proof (ledger_on_reserve (m_ledger m) rootID refs true) as Hl. pose proof (reserve_object (m_ledger m) rootID refs true) as Ho.
  destruct (Reserve (m_ledger m) rootID refs true) as [l [token|e]]; cbn [fst] in Hl; [|by eapply acquired_refused].
  set (m0 := m <| m_ledger := l |>). cbn zeta. assert (good m0) as Hm0 by (by apply good_ledger).
  pose proof (newRequest_spec m0 rootID scopeID refs token mayWait ∅ Hm0 Hrefs (Ho _ _ eq_refl)) as Hnew.
  destruct (newRequestLocked m0 rootID scopeID refs token mayWait ∅) as [m1 [r|e]];
    [|subst m1; eapply (acquired_refused _ _ _ _ _ (Ledger.Release l token)); [etrans; [exact Hl|apply ledger_on_release]|done]].
  destruct Hnew as [b Hcr]. pose proof (inspected_arrives m0 rootID refs mayWait r b m1 Hm0 Hcr) as Hin.
  destruct (inspectLocked m1 r) as [m2 blocked]. destruct Hin as (b2 & Ha & Hready).
  assert (arriving m m2 rootID refs mayWait r b2) as Ham
    by (destruct Ha; split; try done; etrans; [by apply (accounts_ledger m m0)|done]).
  rewrite (ar_request _ _ _ _ _ _ _ Ham). cbn [from_option].
  assert (MayWait b2 = from_option id true mayWait) as ->.
  { unfold MayWait. rewrite (ar_wait _ _ _ _ _ _ _ Ham). by destruct mayWait. }
  destruct (0 <? length blocked)%nat eqn:Eb.
  - destruct mayWait as [[|]|]; cbn [from_option negb id].
    + by eapply acquired_waits.
    + by eapply acquired_conflict.
    + by eapply acquired_waits.
  - apply Nat.ltb_ge in Eb. assert (blocked = []) as -> by (destruct blocked; [done|cbn in Eb; lia]).
    by eapply acquired_granted; [..|apply Hready|].
Qed.

Lemma refuse_dom m m2 rootID refs mayWait r b token :
  arriving m m2 rootID refs mayWait r b -> dom (m_requests (refuse_request m2 r token)) = dom (m_requests m).
Proof.
  intros Ha. destruct (ar_others _ _ _ _ _ _ _ Ha) as [b0 Hb].
  rewrite refuse_requests, dom_delete_L, (heap_benign_dom _ _ Hb), dom_insert_L.
  pose proof (ar_fresh _ _ _ _ _ _ _ Ha) as Hf. apply not_elem_of_dom in Hf. set_solver.
Qed.

Lemma acquire_new_sound m rootID scopeID refs mayWait :
  good m -> bundle_refs refs ->
  let '(m', res) := acquire_new m rootID scopeID refs mayWait in
  sound m m' /\ acquire_outcome m m' rootID refs res.
Proof.
  intros Hm Hrefs. destruct (acquire_new_cases m rootID scopeID refs mayWait Hm Hrefs)
    as [l e _ -> |m2 r b token Ha _ -> |m2 r b blocked Ha _ E|m2 r b token Ha Hready E].
  - by split; [apply (sound_same m)|].
  - split; [by apply (refuse_sound m m2); [|apply Ha|apply Ha|apply Ha|eapply arriving_evolves|apply Ha]|].
    split; [by rewrite refuse_waiting, (ar_waiting _ _ _ _ _ _ _ Ha)|by eapply refuse_dom].
  - rewrite E. pose proof (wait_request_sound m2 rootID refs r b blocked) as Hw.
    destruct (wait_request m2 rootID r blocked) as [m3 res].
    destruct Hw as [Hs3 Hres]; try apply Ha; [by eapply arriving_not_waiting|].
    split; [eapply sound_trans; [by eapply arriving_sound|done]|]. destruct res as [[g|g|h]|e]; try done.
    + exists r. split; [apply Ha|done].
    + destruct Hres as (Eh & _ & b3 & Hb3 & E3 & Hc3). unfold acquire_outcome. rewrite Eh. exists b3.
      rewrite (ev_owner _ _ E3), (ev_components _ _ E3). split_and!; [done|apply Ha|]. intros _. split; [apply Ha|done].
  - rewrite E. destruct (grant_inline_sound m2 rootID refs r b token) as (m3 & g & -> & Hs3 & Hg3); try apply Ha; [done|].
    split; [eapply sound_trans; [by eapply arriving_sound|done]|]. exists r. split; [apply Ha|done].
Qed.

Lemma joinable_spec m wanted l best r b :
  foldl (joinable_step m wanted) best l = Some (r, b) ->
  best = Some (r, b) \/ m_requests m !! r = Some b /\ Terminal (b_Status b) = false /\
    bundleCoversRequest b wanted = true /\ exists e, e ∈ l /\ e.1 = r.
Proof.
  revert best. induction l as [|e l IH]; intros best; cbn [foldl]; [by left|].
  intros [Hs|(? & ? & ? & e' & ? & ?)]%IH; [|right; split_and!; [done..|]; exists e'; by split; [right|]].
  unfold joinable_step in Hs. destruct (m_requests m !! e.1) as [b0|] eqn:Eb; [|by left].
  destruct (Terminal (b_Status b0)) eqn:Et; [by left|].
  destruct (match best with Some (_, best) => _ | None => _ end); [by left|].
  destruct (bundleCoversRequest b0 wanted) eqn:Ec; [|by left].
  right. injection Hs as <- <-. split_and!; [done..|]. exists e. by split; [left|].
Qed.

Lemma AcquireWith_sound m ctxDone rootID scopeID wanted mayWait :
  good m -> Forall sized wanted ->
  let '(m', res) := AcquireWith m ctxDone rootID scopeID wanted mayWait in
  sound m m' /\ acquire_outcome m m' rootID (DedupeResourceRefs wanted) res.
Proof.
  intros Hm Hsz. unfold AcquireWith. destruct ctxDone; [by split; [apply sound_refl|]|].
  destruct (m_owners m !! rootID) as [owner|]; [|by split; [apply sound_refl|]].
  destruct (negb _); [by split; [apply sound_refl|]|].
  destruct (verifyScope m rootID scopeID); [|by split; [apply sound_refl|]].
  destruct (ValidateBundle wanted _) as [[]|e] eqn:Ev; [|by split; [apply sound_refl|]].
  apply ValidateBundle_ok in Ev as (Hne & Hval & _). cbn zeta.
  assert (bundle_refs (DedupeResourceRefs wanted)) as Hrefs.
  { destruct (Dedupe_bundle wanted) as (? & ? & ?); [|by split_and!; auto].
    apply Forall_forall. intros c Hc. split; [by apply Hval|]. by apply (proj1 (Forall_forall _ _) Hsz). }
  destruct (forallb _ _); [by split; [apply sound_refl|]|].
  destruct (joinableRequestLocked m rootID (DedupeResourceRefs wanted)) as [[r b]|] eqn:Ej;
    [|by apply acquire_new_sound].
  destruct (bool_decide _); [by split; [apply sound_refl|]|].
  destruct (joinable_spec _ _ _ _ _ _ Ej) as [?|(Hr & _ & _ & [r' i] & He & Her)]; [done|]. cbn in Her. subst r'.
  apply elem_of_range_set in He. pose proof (iv_tracked _ _ _ _ (gd_inv _ Hm) rootID (r, i)) as Ht.
  destruct (joinFor b scopeID) as [b1 join] eqn:Ejf.
  assert (benign b b1) as Hb1.
  { unfold joinFor in Ejf. destruct (b_joins b !! scopeID); [injection Ejf as <- _; apply benign_refl|].
    apply pair_equal_spec in Ejf as [<- _]. by apply benign_fields. }
  assert (heap_benign (m_requests m) (<[r := b1]> (m_requests m))) as Hben.
  { intros r'. destruct (decide (r' = r)) as [->|Hne']; [rewrite lookup_insert_eq, Hr; done|].
    rewrite lookup_insert_ne by done. apply heap_benign_refl. }
  split.
  - split; [|by apply heap_benign_evolves|by apply accounted_same].
    destruct Hm as [Hm Hn]. split; [|done]. by apply (inv_benign _ _ _ m).
  - cbn. exists b1. rewrite lookup_insert_eq. split_and!; [done| |done].
    rewrite (bn_owner _ _ Hb1). destruct (proj1 Ht He) as (_ & Ho & _). unfold req_owner in Ho. cbn in Ho.
    by rewrite Hr in Ho.
Qed.

End Acquire.
