(* ===== verification/ManagerRuns.v ===== *)
(** * Runs of the lock manager

    The operations as one step function, the states reachable from a new manager, and the
    soundness of every step. *)

From stdpp Require Import gmap list sorting strings fin_maps.
From S2P Require Import Prelude LockTypes Interval Resource Compat ScopeTree Ledger Queue.
From S2P Require Import Graph Manager ManagerInv ManagerPass ManagerOps.

(** ** Owners and scopes *)

Lemma RegisterOwner_sound m o g t ts : good m -> sound m (RegisterOwner m o g t ts).1.
Proof.
  intros Hm. unfold RegisterOwner. repeat (case_match; try by apply sound_refl);
    by apply (sound_same m).
Qed.

Lemma RequestAbort_sound m o reason : good m -> sound m (RequestAbort m o reason).1.
Proof.
  intros Hm. unfold RequestAbort. repeat (case_match; try by apply sound_refl); by apply (sound_same m).
Qed.

Lemma MarkFinishing_sound m o : good m -> sound m (MarkFinishing m o).1.
Proof.
  intros Hm. unfold MarkFinishing. repeat (case_match; try by apply sound_refl); by apply (sound_same m).
Qed.

Lemma markAbort_same m o reason :
  m_locks (markAbortLocked m o reason) = m_locks m /\ m_requests (markAbortLocked m o reason) = m_requests m /\
  m_pending (markAbortLocked m o reason) = m_pending m /\ m_waiting (markAbortLocked m o reason) = m_waiting m /\
  m_nextRequestID (markAbortLocked m o reason) = m_nextRequestID m.
Proof. unfold markAbortLocked. by repeat case_match. Qed.

Lemma OpenScopeWithBudget_sound m o x p k d w : good m -> sound m (OpenScopeWithBudget m o x p k d w).1.
Proof.
  intros Hm. unfold OpenScopeWithBudget. destruct (m_owners m !! o); [|by apply sound_refl].
  destruct (bool_decide _); [by apply sound_refl|]. cbn zeta.
  destruct (OpenWithBudget _ _ _ _ _ _ _ _) as [tree [scope|e]]; [|by apply (sound_same m)].
  destruct (ChargeFixed _ _ _) as [ledger [u|err]]; by apply (sound_same m).
Qed.

Lemma close_bundle_joins_benign discarded b : benign b (close_bundle_joins discarded b).
Proof.
  unfold close_bundle_joins. cbn zeta. rewrite map_fold_foldr.
  induction (map_to_list _) as [|[k j] l IH]; cbn [foldr uncurry]; [apply benign_refl|].
  destruct IH. by split.
Qed.

Lemma closeJoins_benign m discarded : heap_benign (m_requests m) (m_requests (closeJoinsLocked m discarded)).
Proof.
  unfold closeJoinsLocked. destruct (_ || _); [apply heap_benign_refl|]. intros r. cbn.
  rewrite map_lookup_imap. destruct (m_requests m !! r) as [b|]; [|done]. cbn.
  destruct (bool_decide _); [apply close_bundle_joins_benign|apply benign_refl].
Qed.

Lemma closeJoins_sound m discarded : good m -> sound m (closeJoinsLocked m discarded).
Proof.
  intros [Hm Hn]. pose proof (closeJoins_benign m discarded) as Hb.
  assert (closeJoinsLocked m discarded = m <| m_requests := m_requests (closeJoinsLocked m discarded) |>) as ->.
  { unfold closeJoinsLocked. destruct (_ || _); [by destruct m|done]. }
  split; [|by apply heap_benign_evolves|by apply accounted_same]. split; [|done]. by apply (inv_benign _ _ _ m).
Qed.

Section Runs.
Context `{MapRange}.

Lemma BeginCloseScope_sound m o s : good m -> sound m (BeginCloseScope m o s).1.
Proof.
  intros Hm. unfold BeginCloseScope. destruct (m_scopes m !! o) as [t|]; [|by apply sound_refl].
  destruct (BeginClose t s) as [t1 [sc|e]]; [|by apply (sound_same m)].
  destruct (default _ _) as [t2 closed]. cbn. eapply sound_trans; [|apply closeJoins_sound];
    [by apply (sound_same m)|by apply (good_same m)].
Qed.

Lemma cancel_sound m f status :
  good m -> Terminal status = true -> status <> RequestGranted -> sound m (cancelRequestsLocked m f status).1.
Proof. intros Hm Ht Hng. apply quiet_sound; [done|]. by apply cancelRequests_spec; [apply Hm|..]. Qed.

Lemma CloseScope_sound m o s : good m -> sound m (CloseScope m o s).1.
Proof.
  intros Hm. unfold CloseScope. destruct (m_scopes m !! o) as [t|]; [|by apply sound_refl].
  destruct (Get t s); [|by apply sound_refl]. destruct (default _ _) as [t2 closed]. cbn zeta.
  set (m1 := put_tree m o t2). assert (sound m m1) as H1 by (by apply (sound_same m)).
  set (f := fun b => _). pose proof (cancel_sound m1 f RequestCanceled (so_good _ _ H1)) as Hc.
  destruct (cancelRequestsLocked m1 f RequestCanceled) as [m2 n]. cbn [fst] in *.
  assert (sound m1 m2) as H2 by (by apply Hc).
  eapply sound_trans; [exact H1|]. eapply sound_trans; [exact H2|]. apply closeJoins_sound, H2.
Qed.

(** ** Requests *)

Lemma finish_sound m r status :
  good m -> Terminal status = true -> status <> RequestGranted -> sound m (finishRequestLocked m r status).1.
Proof. intros Hm Ht Hng. apply quiet_sound; [done|]. by apply finishRequest_quiet; [apply Hm|..]. Qed.

Lemma Cancel_sound m o h : good m -> sound m (Cancel m o h).1.
Proof.
  intros Hm. unfold Cancel. destruct h as [h|]; [|by apply sound_refl]. destruct (negb _); [by apply sound_refl|].
  destruct (findPendingLocked _ _ _); [|by apply sound_refl]. by apply finish_sound.
Qed.

Lemma withdraw_sound m o h : good m -> sound m (withdrawOnContextEnd m o h).
Proof.
  intros Hm. unfold withdrawOnContextEnd. destruct (findPendingLocked _ _ _); [|by apply sound_refl].
  by apply finish_sound.
Qed.

Lemma timeOut_sound m o h : good m -> sound m (timeOutIfExpired m o h).1.
Proof.
  intros Hm. unfold timeOutIfExpired. destruct h as [h|]; [|by apply sound_refl].
  destruct (findPendingLocked _ _ _) as [r|]; [|by apply sound_refl].
  destruct (m_requests m !! r); [|by apply sound_refl]. destruct (_ || _); [by apply sound_refl|].
  cbn [fst]. eapply sound_trans; [|by apply finish_sound; [apply (good_same m)|..]]. by apply (sound_same m).
Qed.

Lemma checkDeadlines_sound m : good m -> sound m (checkDeadlinesLocked m).1.
Proof.
  intros Hm. unfold checkDeadlinesLocked. cbn zeta.
  assert (forall l m n, good m -> sound m (foldl time_out_one (m, n) l).1) as Hfold.
  { clear m Hm. induction l as [|r l IH]; intros m n Hm; cbn [foldl]; [by apply sound_refl|].
    assert (sound m (time_out_one (m, n) r).1) as H1.
    { unfold time_out_one. destruct (m_requests m !! r); [|by apply sound_refl].
      destruct (Terminal _); [by apply sound_refl|]. cbn [fst].
      eapply sound_trans; [|by apply finish_sound; [apply (good_same m)|..]]. by apply (sound_same m). }
    destruct (time_out_one (m, n) r) as [m1 n1]. eapply sound_trans; [exact H1|]. apply IH, H1. }
  eapply sound_trans; [by apply (sound_same m (next_tick m))|]. apply Hfold. by apply (good_same m).
Qed.

(** ** The graph *)

Lemma anonID_sound m k : good m -> sound m (anonIDLocked m k).1.
Proof.
  intros Hm. unfold anonIDLocked. destruct (m_locks m !! k) as [e|] eqn:He; [|by apply sound_refl].
  destruct (le_anonID e =? 0); [|by apply sound_refl]. cbn [fst].
  set (m1 := if _ <? _ then _ else m).
  assert (sound m m1) as H1 by (unfold m1; destruct (_ <? _); [by apply (sound_same m)|by apply sound_refl]).
  assert (m_locks m1 !! k = Some e) as He1 by (unfold m1; by destruct (_ <? _)).
  eapply sound_trans; [exact H1|]. destruct (so_good _ _ H1) as [Hi Hn]. split; [|done|by apply accounted_same]. split; [|done].
  apply (inv_fewer _ _ _ m1 k e); try done; [|by intros ? ?].
  apply (indexed_same e); [done..|]. by apply (iv_index _ _ _ _ Hi k).
Qed.

Lemma rebuild_entry_sound acc id : good acc.1.1 -> sound acc.1.1 (rebuild_entry acc id).1.1.
Proof.
  destruct acc as [[m byRoot] seen]. cbn [fst]. intros Hm. unfold rebuild_entry.
  destruct (deref _ _) as [q|]; [|by apply sound_refl]. cbn zeta.
  destruct (m_locks m !! _); [|by apply sound_refl].
  pose proof (anonID_sound m (ResourceKey (q_ref q)) Hm) as H1.
  destruct (anonIDLocked m (ResourceKey (q_ref q))) as [m1 anon]. cbn [fst] in H1.
  destruct (m_locks m1 !! _); [|done]. by destruct (entry_edges _ _ _ _ _).
Qed.

Lemma rebuildGraphNow_sound m : good m -> sound m (rebuildGraphNowLocked m).
Proof.
  intros Hm. unfold rebuildGraphNowLocked. cbn zeta.
  assert (forall l acc, good acc.1.1 -> sound acc.1.1 (foldl rebuild_entry acc l).1.1) as Hfold.
  { induction l as [|id l IH]; intros acc Hacc; cbn [foldl]; [by apply sound_refl|].
    pose proof (rebuild_entry_sound acc id Hacc) as H1. eapply sound_trans; [exact H1|]. apply IH, H1. }
  specialize (Hfold (mjoin ((fun kv : bytes * gset entryID => range_set (S (m_tick m)) kv.2) <$>
    range (m_tick m) (m_pending m))) (next_tick m, ∅, ∅)). cbn [fst] in Hfold.
  assert (good (next_tick m)) as Hn by (by apply (good_same m)). specialize (Hfold Hn).
  destruct (foldl rebuild_entry _ _) as [[m1 byRoot] seen]. cbn [fst] in Hfold.
  eapply sound_trans; [by apply (sound_same m (next_tick m))|]. eapply sound_trans; [exact Hfold|].
  by apply (sound_same m1); [apply Hfold|..].
Qed.

Lemma ensureGraph_sound m : good m -> sound m (ensureGraphLocked m).
Proof.
  intros Hm. unfold ensureGraphLocked. destruct (negb _); [by apply sound_refl|]. by apply rebuildGraphNow_sound.
Qed.

Lemma DetectDeadlock_sound m : good m -> sound m (DetectDeadlock m).1.
Proof.
  intros Hm. unfold DetectDeadlock. set (m0 := m <| m_detectRuns ::= succ64 |>). cbn zeta.
  assert (sound m (ensureGraphLocked m0)) as H1.
  { eapply sound_trans; [by apply (sound_same m m0)|]. apply ensureGraph_sound. by apply (good_same m). }
  set (m1 := ensureGraphLocked m0) in *.
  destruct (detectCycle _ _ _) as [[[cycle es] exh]|]; [|done]. destruct exh; [done|].
  destruct (bool_decide _); [done|]. destruct (existsb _ _); [done|].
  destruct (pickVictim _ _) as [[victim ord]|]; [|done]. destruct (bool_decide _); [done|].
  set (m2 := m1 <| m_deadlocks ::= _ |> <| m_deadlocked ::= _ |>).
  set (m3 := markAbortLocked m2 victim AbortDeadlock).
  destruct (markAbort_same m2 victim AbortDeadlock) as (E1 & E2 & E3 & E4 & E5).
  assert (sound m1 m3) as H3 by (by apply (sound_same m1); [apply H1|..]).
  set (f := fun b => _). pose proof (cancel_sound m3 f RequestDeadlockVictim (so_good _ _ H3)) as Hc.
  destruct (cancelRequestsLocked m3 f RequestDeadlockVictim) as [m4 n]. cbn [fst] in *.
  assert (sound m3 m4) as H4 by (by apply Hc).
  eapply sound_trans; [exact H1|]. eapply sound_trans; [exact H3|]. eapply sound_trans; [exact H4|].
  by apply (sound_same m4); [apply H4|..].
Qed.

(** ** Releasing *)

Lemma drop_sound m k e e1 :
  good m -> m_locks m !! k = Some e -> le_ref e1 = le_ref e -> indexed e1 -> fewer_claims e1 e ->
  le_waiting e1 = le_waiting e -> sound m (put_lock m k e1).
Proof. intros [Hm Hn] He ? ? ? ?. split; [|done|by apply accounted_same]. split; [|done]. by apply (inv_fewer _ _ _ m k e). Qed.

Lemma advance_release_sound m k : good m -> sound m (release_lock (advanceEntryLocked m) k).
Proof.
  intros Hm. apply quiet_sound; [done|]. destruct Hm as [Hm _].
  eapply quiet_trans; [by apply retryWaiting_quiet|]. apply release_lock_quiet, retryWaiting_quiet, Hm.
Qed.

Lemma release_owner_key_sound o rk m k : good m -> sound m (release_owner_key o rk m k).
Proof.
  intros Hm. unfold release_owner_key. destruct (m_locks m !! k) as [e|] eqn:He; [|by apply sound_refl].
  destruct (_ && _); [by apply sound_refl|].
  pose proof (dropAllClaims_fewer e o) as Hf. pose proof (dropAllClaims_ref e o) as Hr.
  pose proof (dropAllClaims_waiting e o) as Hw.
  pose proof (dropAllClaims_indexed e o (iv_index _ _ _ _ (gd_inv _ Hm) _ _ He)) as Hi.
  destruct (dropAllClaims e o) as [e1 [|]]; [|by apply sound_refl]. cbn [fst] in *.
  assert (sound m (put_lock m k e1)) as H1 by (by apply (drop_sound m k e)).
  eapply sound_trans; [exact H1|]. apply advance_release_sound, H1.
Qed.

Lemma sound_fold {A} (f : manager -> A -> manager) l m :
  (forall m x, good m -> sound m (f m x)) -> good m -> sound m (foldl f m l).
Proof.
  intros Hf. revert m. induction l as [|x l IH]; intros m Hm; cbn; [by apply sound_refl|].
  eapply sound_trans; [by apply Hf|]. apply IH. apply (Hf m x Hm).
Qed.

Lemma releaseGrants_sound m o rk : good m -> sound m (releaseGrantsLocked m o rk).
Proof.
  intros Hm. unfold releaseGrantsLocked. eapply sound_trans; [by apply (sound_same m (next_tick m))|].
  apply sound_fold; [apply release_owner_key_sound|by apply (good_same m)].
Qed.

Lemma Release_sound m o ref : good m -> sound m (Manager_Release m o ref).1.
Proof.
  intros Hm. unfold Manager_Release. destruct (m_owners m !! o); [|by apply sound_refl]. cbn zeta.
  destruct (m_locks m !! ResourceKey ref) as [e|] eqn:He; [|by apply sound_refl].
  pose proof (dropClaimForOwner_fewer e o ref) as Hf. pose proof (dropClaimForOwner_ref e o ref) as Hr.
  pose proof (dropClaimForOwner_waiting e o ref) as Hw.
  pose proof (dropClaimForOwner_indexed e o ref (iv_index _ _ _ _ (gd_inv _ Hm) _ _ He)) as Hi.
  destruct (dropClaimForOwner e o ref) as [e1 [|]]; [|by apply sound_refl]. cbn [fst] in *.
  assert (sound m (put_lock m (ResourceKey ref) e1)) as H1 by (by apply (drop_sound m _ e)).
  set (m1 := put_lock m _ e1) in *. eapply sound_trans; [exact H1|].
  eapply sound_trans; [by apply (sound_same m1 (m1 <| m_ledger ::= fun l => ReleaseGrant l o (ClaimKey ref) |>)); [apply H1|..]|].
  apply advance_release_sound. apply (good_same m1); [apply H1|done..].
Qed.

Lemma ReleaseOwner_sound m o : good m -> sound m (ReleaseOwnerLocked m o).
Proof.
  intros Hm. unfold ReleaseOwnerLocked. set (m0 := m <| m_owners ::= _ |> <| m_scopes ::= _ |> <| m_abortRequested ::= _ |> <| m_deadlocked ::= _ |>).
  cbn zeta. assert (sound m m0) as H0 by (by apply (sound_same m)).
  pose proof (releaseGrants_sound m0 o [] (so_good _ _ H0)) as H1. set (m1 := releaseGrantsLocked m0 o []) in *.
  set (f := fun b => _). pose proof (cancel_sound m1 f RequestCanceled (so_good _ _ H1)) as Hc.
  destruct (cancelRequestsLocked m1 f RequestCanceled) as [m2 n]. cbn [fst] in *.
  assert (sound m1 m2) as H2 by (by apply Hc).
  eapply sound_trans; [exact H0|]. eapply sound_trans; [exact H1|]. eapply sound_trans; [exact H2|].
  by apply (sound_same m2); [apply H2|..].
Qed.

Lemma refund_sound m o : good m -> sound m (refund m o).
Proof. intros Hm. by apply (sound_same m). Qed.

(** ** Epochs and shutdown *)

Lemma end_owner_fold l acc :
  good acc.1.1 -> sound acc.1.1 (foldl end_owner acc l).1.1.
Proof.
  revert acc. induction l as [|kv l IH]; intros acc Hm; cbn [foldl]; [by apply sound_refl|].
  assert (sound acc.1.1 (end_owner acc kv).1.1) as H1.
  { destruct acc as [[m ended] n]. unfold end_owner. cbn [fst] in *.
    destruct (bool_decide _); [by apply sound_refl|]. by apply (sound_same m). }
  eapply sound_trans; [exact H1|]. apply IH, H1.
Qed.

Lemma ResetEpoch_sound m g t : good m -> sound m (ResetEpochLocked m g t).1.1.
Proof.
  intros Hm. unfold ResetEpochLocked. set (m0 := m <| m_generation := g |> <| m_term := t |>). cbn zeta.
  assert (sound m (next_tick m0)) as H0 by (by apply (sound_same m)).
  pose proof (end_owner_fold (range (m_tick m0) (m_owners m0)) (next_tick m0, [], 0) (so_good _ _ H0)) as H1.
  destruct (foldl end_owner _ _) as [[m1 ended] n]. cbn [fst] in H1.
  pose proof (cancel_sound m1 (fun _ => true) RequestInvalidated (so_good _ _ H1)) as H2.
  destruct (cancelRequestsLocked m1 _ _) as [m2 n2]. cbn [fst] in *.
  assert (sound m1 m2) as H2' by (by apply H2).
  assert (sound m2 (foldl (fun m rootID => releaseGrantsLocked m rootID []) m2 ended)) as H3.
  { apply sound_fold; [|apply H2']. intros x o Hx. by apply releaseGrants_sound. }
  set (m3 := foldl _ m2 ended) in *.
  eapply sound_trans; [exact H0|]. eapply sound_trans; [exact H1|]. eapply sound_trans; [exact H2'|].
  eapply sound_trans; [exact H3|].
  set (m4 := m3 <| m_graph ::= clear |> <| m_deadlocked := ∅ |> <| m_invalidated ::= succ64 |>
               <| m_bindings ::= fun b => Bindings_Reset b g |>).
  assert (sound m3 m4) as H4 by (by apply (sound_same m3); [apply H3|..]).
  exact H4.
Qed.

Lemma inv_emptied m : minv m -> m_waiting m = ∅ -> minv (m <| m_locks := ∅ |> <| m_waiting := ∅ |>).
Proof.
  intros [Bu Id Rf Ix Cl Ex Qu Nd Wa En Tr Pe] HW. rewrite HW in *. unfold minv.
  split; cbn [m_waiting m_requests m_locks m_pending m_nextRequestID field_update] in *; try done.
Qed.

Lemma Close_sound m : good m -> sound m (Manager_Close m).
Proof.
  intros Hm. unfold Manager_Close. destruct (m_closed m); [by apply sound_refl|]. cbn zeta.
  set (m0 := m <| m_closed := true |> <| m_owners := ∅ |> <| m_scopes ::= _ |> <| m_abortRequested ::= _ |>).
  assert (sound m m0) as H0 by (by apply (sound_same m)).
  pose proof (cancel_sound m0 (fun _ => true) RequestCanceled (so_good _ _ H0)) as H1.
  pose proof (cancel_all_waiting m0 RequestCanceled (gd_inv _ (so_good _ _ H0))) as HW.
  destruct (cancelRequestsLocked m0 _ _) as [m1 n]. cbn [fst] in *.
  assert (sound m0 m1) as H1' by (by apply H1).
  eapply sound_trans; [exact H0|]. eapply sound_trans; [exact H1'|].
  set (m2 := m1 <| m_locks := ∅ |> <| m_waiting := ∅ |>).
  assert (sound m1 m2) as H2.
  { split; [|done|apply accounted_same; cbn; by rewrite HW]. split; [|apply H1']. apply inv_emptied; [apply H1'|by apply HW]. }
  eapply sound_trans; [exact H2|]. by apply (sound_same m2); [apply H2|..].
Qed.

Lemma Stats_sound m : good m -> sound m (Manager_Stats m).1.
Proof.
  intros Hm. unfold Manager_Stats. cbn [fst]. pose proof (ensureGraph_sound m Hm) as H1.
  eapply sound_trans; [exact H1|]. apply ensureGraph_sound, H1.
Qed.
End Runs.

Lemma newManager_good limits g now m : newManager limits g now = Ok m -> good m.
Proof.
  unfold newManager. destruct (NewLedger limits) as [l|]; [|done]. cbn. intros [= <-].
  split; [|done]. split; cbn; try done. intros o id. rewrite lookup_empty. cbn. split.
  - by intros ?%not_elem_of_empty.
  - by intros (?%not_elem_of_empty & _).
Qed.
