(* ===== verification/ManagerSteps.v ===== *)
(** * Runs of the lock manager

    One step function over the manager's methods, the states a run reaches from a new manager, and
    the properties that hold of every run: mutual exclusion, the exactness of the queues and of the
    pending index, and the finality of decisions.

    A step is what one call does under the manager's mutex, or the refund that [ReleaseOwner] and
    [ResetEpoch] make once they have dropped it; so an execution of any number of goroutines is a
    sequence of these steps.  A refund is allowed anywhere, which takes in every interleaving; a
    release of all owners is the releases of each, and a wait the steps of others between its own. *)

From stdpp Require Import gmap list sorting strings fin_maps.
From S2P Require Import Prelude LockTypes Interval Resource Compat ScopeTree Ledger Queue.
From S2P Require Import Graph Manager ManagerInv ManagerPass ManagerOps ManagerRuns.

(** ** Steps *)

Inductive mgr_op : Type :=
  | OpClock (now : Z)
  | OpBind (binding : NamespaceBinding)
  | OpUnbind (namespace : bytes)
  | OpRegister (rootID : bytes) (generation term readTS : Z)
  | OpAbort (rootID : bytes) (reason : AbortReason)
  | OpFinishing (rootID : bytes)
  | OpOpenScope (rootID originTxnID : bytes) (parent : Z) (kind : ScopeKind) (deadline budget : Z)
  | OpBeginClose (rootID : bytes) (scopeID : Z)
  | OpCloseScope (rootID : bytes) (scopeID : Z)
  | OpAcquire (ctxDone : bool) (rootID : bytes) (scopeID : Z) (wanted : list ResourceRef)
      (mayWait : option bool)
  | OpCancel (rootID : bytes) (handle : option LockHandle)
  | OpContextEnd (rootID : bytes) (handle : LockHandle)
  | OpDeadline (rootID : bytes) (handle : option LockHandle)
  | OpCheckTimeouts
  | OpDetect
  | OpEdges
  | OpStats
  | OpRelease (rootID : bytes) (resource : ResourceRef)
  | OpReleaseOwner (rootID : bytes)
  | OpRefund (rootID : bytes)
  | OpOwners
  | OpResetEpoch (generation term : Z)
  | OpClose.

Section Steps.
Context `{MapRange}.

Definition step (m : manager) (op : mgr_op) : manager :=
  match op with
  | OpClock now => m <| m_now := now |>
  | OpBind binding => m <| m_bindings ::= fun b => (Bind b binding).1 |>
  | OpUnbind ns => m <| m_bindings ::= fun b => Unbind b ns |>
  | OpRegister o g t ts => (RegisterOwner m o g t ts).1
  | OpAbort o reason => (RequestAbort m o reason).1
  | OpFinishing o => (MarkFinishing m o).1
  | OpOpenScope o x p k d w => (OpenScopeWithBudget m o x p k d w).1
  | OpBeginClose o s => (BeginCloseScope m o s).1
  | OpCloseScope o s => (CloseScope m o s).1
  | OpAcquire c o s wanted w => (AcquireWith m c o s wanted w).1
  | OpCancel o h => (Cancel m o h).1
  | OpContextEnd o h => withdrawOnContextEnd m o h
  | OpDeadline o h => (timeOutIfExpired m o h).1
  | OpCheckTimeouts => (CheckTimeouts m).1
  | OpDetect => (DetectDeadlock m).1
  | OpEdges => (Manager_Edges m).1
  | OpStats => (Manager_Stats m).1
  | OpRelease o ref => (Manager_Release m o ref).1
  | OpReleaseOwner o => ReleaseOwnerLocked m o
  | OpRefund o => refund m o
  | OpOwners => next_tick m
  | OpResetEpoch g t => (ResetEpochLocked m g t).1.1
  | OpClose => Manager_Close m
  end.

Definition run (m : manager) (ops : list mgr_op) : manager := foldl step m ops.

(** A component a Go program can pass: its fields are slices and words of the machine. *)
Definition op_sized (op : mgr_op) : Prop :=
  match op with OpAcquire _ _ _ wanted _ => Forall sized wanted | _ => True end.

Definition reachable (m : manager) : Prop :=
  exists limits generation now m0 ops,
    newManager limits generation now = Ok m0 /\ Forall op_sized ops /\ m = run m0 ops.

Lemma step_sound m op : good m -> op_sized op -> sound m (step m op).
Proof.
  intros Hm Hop. destruct op; cbn [step].
  - by apply (sound_same m).
  - by apply (sound_same m).
  - by apply (sound_same m).
  - by apply RegisterOwner_sound.
  - by apply RequestAbort_sound.
  - by apply MarkFinishing_sound.
  - by apply OpenScopeWithBudget_sound.
  - by apply BeginCloseScope_sound.
  - by apply CloseScope_sound.
  - pose proof (AcquireWith_sound m ctxDone rootID scopeID wanted mayWait Hm Hop) as H1.
    by destruct (AcquireWith _ _ _ _ _ _), H1.
  - by apply Cancel_sound.
  - by apply withdraw_sound.
  - by apply timeOut_sound.
  - by apply checkDeadlines_sound.
  - by apply DetectDeadlock_sound.
  - by apply ensureGraph_sound.
  - by apply Stats_sound.
  - by apply Release_sound.
  - by apply ReleaseOwner_sound.
  - by apply refund_sound.
  - by apply (sound_same m).
  - by apply ResetEpoch_sound.
  - by apply Close_sound.
Qed.

Lemma run_sound m ops : good m -> Forall op_sized ops -> sound m (run m ops).
Proof.
  intros Hm Hops. revert m Hm. unfold run. induction Hops as [|op ops Hop _ IH]; intros m Hm; cbn [foldl].
  - by apply sound_refl.
  - pose proof (step_sound m op Hm Hop) as H1. eapply sound_trans; [exact H1|]. apply IH, H1.
Qed.

Lemma reachable_good m : reachable m -> good m.
Proof.
  intros (l & g & now & m0 & ops & Hnew & Hops & ->).
  apply (run_sound m0 ops); [by apply (newManager_good l g now)|done].
Qed.

(** The calls that drop the mutex are runs too, whatever steps others make meanwhile. *)
Lemma run_app m ops1 ops2 : run m (ops1 ++ ops2) = run (run m ops1) ops2.
Proof. apply foldl_app. Qed.

Lemma run_fold (f : manager -> bytes -> manager) (g : bytes -> list mgr_op) l m :
  (forall m o, f m o = run m (g o)) -> foldl f m l = run m (mjoin (g <$> l)).
Proof.
  intros Hf. revert m. induction l as [|o l IH]; intros m; [done|]. change (foldl f (f m o) l = run m (g o ++ mjoin (g <$> l))).
  by rewrite run_app, IH, Hf.
Qed.

Lemma ReleaseOwner_run m during o :
  (Manager_ReleaseOwner m (fun m => run m during) o).1 = run m (OpReleaseOwner o :: during ++ [OpRefund o]).
Proof. change (OpReleaseOwner o :: during ++ [OpRefund o]) with ([OpReleaseOwner o] ++ during ++ [OpRefund o]). by rewrite !run_app. Qed.

Lemma ReleaseAll_run m before during :
  Manager_ReleaseAll m (fun o m => run m (before o)) (fun o m => run m (during o)) =
  run m (OpOwners :: mjoin ((fun o => before o ++ OpReleaseOwner o :: during o ++ [OpRefund o]) <$> (range (m_tick m) (m_owners m)).*1)).
Proof.
  unfold Manager_ReleaseAll. rewrite (run_fold _ (fun o => before o ++ OpReleaseOwner o :: during o ++ [OpRefund o])); [done|].
  intros x o. by rewrite ReleaseOwner_run, run_app.
Qed.

Lemma ResetEpoch_run m during g t :
  (ResetEpoch m (fun o m => run m (during o)) g t).1 =
  run m (OpResetEpoch g t :: mjoin ((fun o => during o ++ [OpRefund o]) <$> (ResetEpochLocked m g t).1.2)).
Proof.
  unfold ResetEpoch, run. cbn [foldl step]. destruct (ResetEpochLocked m g t) as [[m1 ended] n]. cbn [fst snd].
  rewrite (run_fold _ (fun o => during o ++ [OpRefund o])); [done|]. intros x o. by rewrite run_app.
Qed.

(** The claim is in force in the table, for the owner. *)
Definition in_force (m : manager) (o : bytes) (c : lockClaim) : Prop :=
  exists k e, m_locks m !! k = Some e /\ c ∈ claims_of e o /\ cl_pending c = false.

Lemma in_force_ok m o c :
  good m -> in_force m o c -> exists k e, m_locks m !! k = Some e /\ c ∈ claims_of e o /\
    ResourceKey (cl_ref c) = k /\ cl_pending c = false /\ wf_ref (cl_ref c).
Proof.
  intros [Hm _] (k & e & He & Hc & Hp). pose proof (iv_claim _ _ _ _ Hm k e o c He Hc) as Hok.
  pose proof (claim_ok_wf _ _ _ _ _ _ _ Hm Hok) as Hwf. destruct Hok as (Hk & _). eauto 10.
Qed.

Lemma in_force_exclusive m o1 o2 c1 c2 :
  good m -> o1 <> o2 -> in_force m o1 c1 -> in_force m o2 c2 ->
  ResourceKey (cl_ref c1) = ResourceKey (cl_ref c2) -> componentsConflict (cl_ref c1) (cl_ref c2) = false.
Proof.
  intros Hm Ho H1 H2 Hk.
  apply in_force_ok in H1 as (k1 & e1 & He1 & Hc1 & Hk1 & Hp1 & _); [|done].
  apply in_force_ok in H2 as (k2 & e2 & He2 & Hc2 & Hk2 & Hp2 & _); [|done].
  assert (k2 = k1) as -> by congruence. assert (e2 = e1) as -> by congruence.
  apply (iv_excl _ _ _ _ (gd_inv _ Hm) k1 e1 He1 o1 o2 c1 c2); done.
Qed.

(** ** Properties *)

(** C6: Mutual exclusion.  In every state a run of the lock manager reaches, claims in force of two
    different owners on one resource are never an excluding pair of the compatibility matrix: two
    exclusive row locks, an exclusive and a shared one, or a gap and an insertion it covers. *)
Theorem mutual_exclusion m o1 o2 c1 c2
    (Hm : reachable m) (Ho : o1 <> o2) (H1 : in_force m o1 c1) (H2 : in_force m o2 c2)
    (Hk : same_domain (cl_ref c1) (cl_ref c2)) :
  ~ excludes (cl_ref c1) (cl_ref c2) /\ componentsConflict (cl_ref c2) (cl_ref c1) = false.
Proof.
  apply reachable_good in Hm.
  destruct (in_force_ok m o1 c1 Hm H1) as (_ & _ & _ & _ & _ & _ & W1).
  destruct (in_force_ok m o2 c2 Hm H2) as (_ & _ & _ & _ & _ & _ & W2).
  apply ResourceKey_same_domain in Hk; [|done..].
  pose proof (in_force_exclusive m o1 o2 c1 c2 Hm Ho H1 H2 Hk) as Hno. split.
  - intros He. apply excludes_conflict in He; [congruence|by apply wf_mode_valid..].
  - by rewrite wf_conflict_sym.
Qed.

(** C7: The queues and the pending index are exact.  In every reachable state a waiting request is
    undecided and each of its components that it does not hold yet stands in the queue of its own
    resource; conversely a queue holds, once each, live components of waiting requests only; and
    an owner's pending set is exactly the components of its waiting requests. *)
Theorem queues_exact m (Hm : reachable m) :
  (forall r, r ∈ m_waiting m -> exists b, m_requests m !! r = Some b /\ b_Status b = RequestPending /\
     forall i q, b_entries b !! i = Some q -> q_dead q = false /\
       (q_state q <> entryHeld ->
          exists e, m_locks m !! ResourceKey (q_ref q) = Some e /\ (r, i) ∈ le_waiting e)) /\
  (forall k e, m_locks m !! k = Some e -> NoDup (le_waiting e) /\
     forall id, id ∈ le_waiting e -> id.1 ∈ m_waiting m /\ exists q, deref (m_requests m) id = Some q /\
       ResourceKey (q_ref q) = k /\ q_state q <> entryHeld /\ q_dead q = false) /\
  (forall o id, id ∈ default ∅ (m_pending m !! o) <->
     id.1 ∈ m_waiting m /\ req_owner (m_requests m) id = o /\ is_Some (deref (m_requests m) id)).
Proof.
  apply reachable_good in Hm as [Hm _]. split_and!.
  - intros r Hr. destruct (iv_waiting _ _ _ _ Hm r Hr) as (b & Hb & Hs). exists b. split_and!; [done..|].
    intros i q Hq. apply (iv_entry _ _ _ _ Hm (r, i) q Hr); [by intros []|]. apply deref_Some. eauto.
  - intros k e He. split; [by apply (iv_nodup _ _ _ _ Hm k)|].
    intros id Hid. exact (iv_queue _ _ _ _ Hm k e id He Hid).
  - apply (iv_tracked _ _ _ _ Hm).
Qed.

(** C8: A decision is final.  Once a request is decided, no further sequence of operations changes
    its status or its recorded grant, and a granted request has a grant for its owner of exactly
    the components it asked for. *)
Theorem decision_final m ops r b
    (Hm : reachable m) (Hops : Forall op_sized ops) (Hb : m_requests m !! r = Some b)
    (Ht : Terminal (b_Status b) = true) :
  (exists b', m_requests (run m ops) !! r = Some b' /\ b_Status b' = b_Status b /\
     recordedGrant b' = recordedGrant b /\ b_OwnerID b' = b_OwnerID b /\ components b' = components b) /\
  (b_Status b = RequestGranted -> complete b = true /\ exists g, recordedGrant b = Some g /\
     GrantOwnerID g = b_OwnerID b /\ GrantComponents g = components b).
Proof.
  apply reachable_good in Hm. split.
  - destruct (so_evolves _ _ (run_sound m ops Hm Hops) r b Hb) as (b' & Hb' & [Eo _ Ec Ef]).
    destruct (Ef Ht) as [Es Ed]. exists b'. unfold recordedGrant. by rewrite Ed.
  - intros Hg. pose proof (iv_bundle _ _ _ _ (gd_inv _ Hm) r b Hb) as Hok.
    destruct (bo_granted _ Hok Hg) as [Hc [g Eg]]. split; [done|]. exists g.
    by destruct (bo_grant _ Hok g Eg) as (_ & ? & ?).
Qed.

(** C9: The fair pass ends.  From every reachable state the rounds over the waiting requests reach
    one that grants nothing, within one round more than there are waiting requests; every
    request the pass decides is thereby granted, and nothing new starts to wait. *)
Theorem fair_pass_terminates m (Hm : reachable m) :
  (retry_loop (retry_fuel m) m).2 = true /\
  m_waiting (retryWaitingLocked m) ⊆ m_waiting m /\
  (forall fuel, (retry_fuel m <= fuel)%nat -> retry_loop fuel m = retry_loop (retry_fuel m) m).
Proof.
  apply reachable_good in Hm as [Hm _].
  destruct (retry_loop_spec (retry_fuel m) m Hm (retry_fuel_enough m)) as (Hq & Hd & _). split_and!.
  - done.
  - by apply (qu_waiting _ _ (retryWaiting_quiet m Hm)).
  - intros fuel Hle. by apply retry_loop_mono.
Qed.
End Steps.

(** ** A run

    Two owners share a row, a third one waits for it, and the readers leave in turn. *)

Definition owner_a : bytes := str "A".
Definition owner_b : bytes := str "B".
Definition owner_c : bytes := str "C".

(** A manager of generation 7 with the default limits. *)
Definition fresh_manager : result lock_error manager := newManager (mkLimits 0 0 0 0) 7 1000.

Definition from_fresh (ops : list mgr_op) : option manager :=
  match fresh_manager with Ok m => Some (run m ops) | Err _ => None end.

Lemma from_fresh_reachable ops m :
  from_fresh ops = Some m -> Forall op_sized ops -> reachable m.
Proof.
  unfold from_fresh. destruct fresh_manager as [m0|] eqn:E; [|done]. intros [= <-] Hops.
  by exists (mkLimits 0 0 0 0), 7, 1000, m0, ops.
Qed.

Definition share (o : bytes) (scopeID : Z) : mgr_op :=
  OpAcquire false o scopeID [intent_ref ModeIS; row_ref "a" ModeS] None.
Definition change (o : bytes) (scopeID : Z) : mgr_op :=
  OpAcquire false o scopeID [intent_ref ModeIX; row_ref "a" ModeX] None.

Definition demo_ops : list mgr_op :=
  [OpRegister owner_a 7 0 5; OpRegister owner_b 7 0 6; OpRegister owner_c 7 0 7;
   OpOpenScope owner_a [] 0 ScopeStatement 0 0; OpOpenScope owner_b [] 0 ScopeStatement 0 0;
   OpOpenScope owner_c [] 0 ScopeStatement 0 0; share owner_a 1; share owner_b 1; change owner_c 1].


Lemma demo_sized : Forall op_sized demo_ops.
Proof. repeat (apply Forall_cons; split; [|]); try exact I; repeat constructor; by vm_compute. Qed.

(** The first claim in force that an owner has at a key. *)
Definition first_claim (m : manager) (k o : bytes) : option lockClaim :=
  e ← m_locks m !! k; head (filter (fun c => negb (cl_pending c)) (claims_of e o)).

Lemma first_claim_in_force m k o c : first_claim m k o = Some c -> in_force m o c.
Proof.
  unfold first_claim. destruct (m_locks m !! k) as [e|] eqn:He; [|done]. cbn. intros Hh.
  exists k, e. apply head_Some_elem_of, list_elem_of_filter in Hh as [Hp Hc].
  split_and!; [done..|]. by destruct (cl_pending c).
Qed.

(** The state the run ends in, and what can be read off it. *)
Lemma demo_state : exists m, from_fresh demo_ops = Some m.
Proof. unfold from_fresh. destruct fresh_manager eqn:E; [by eexists|by vm_compute in E]. Qed.

Lemma from_fresh_eval {A} ops m (f : manager -> A) v :
  from_fresh ops = Some m -> f <$> from_fresh ops = Some v -> f m = v.
Proof. intros ->. by intros [= ->]. Qed.

Lemma mutual_exclusion_witness :
  exists m c1 c2, reachable m /\ in_force m owner_a c1 /\ in_force m owner_b c2 /\
    mode (cl_ref c1) = ModeS /\ ~ excludes (cl_ref c1) (cl_ref c2).
Proof.
  destruct demo_state as [m Em]. pose proof (from_fresh_reachable _ _ Em demo_sized) as Hm.
  set (k := ResourceKey (row_ref "a" ModeS)).
  pose (c1 := mkClaim 1 ModeS (row_ref "a" ModeS) false). pose (c2 := mkClaim 2 ModeS (row_ref "a" ModeS) false).
  assert (first_claim m k owner_a = Some c1) as H1
    by (apply (from_fresh_eval demo_ops m (fun m => first_claim m k owner_a)); [done|by vm_compute]).
  assert (first_claim m k owner_b = Some c2) as H2
    by (apply (from_fresh_eval demo_ops m (fun m => first_claim m k owner_b)); [done|by vm_compute]).
  apply first_claim_in_force in H1, H2. exists m, c1, c2.
  assert (owner_a <> owner_b) as Hne by (apply (bool_decide_eq_false _); by vm_compute).
  assert (same_domain (cl_ref c1) (cl_ref c2)) as Hd by (by repeat split).
  pose proof (proj1 (mutual_exclusion m owner_a owner_b c1 c2 Hm Hne H1 H2 Hd)) as Hx.
  split; [exact Hm|]. split; [exact H1|]. split; [exact H2|]. split; [reflexivity|exact Hx].
Defined.

Lemma queues_exact_witness :
  exists m b, reachable m /\ 3 ∈ m_waiting m /\ m_requests m !! 3 = Some b /\ b_Status b = RequestPending.
Proof.
  destruct demo_state as [m Em]. pose proof (from_fresh_reachable _ _ Em demo_sized) as Hm.
  assert (bool_decide (3 ∈ m_waiting m) = true) as Hw%bool_decide_eq_true
    by (apply (from_fresh_eval demo_ops m (fun m => bool_decide (3 ∈ m_waiting m))); [done|by vm_compute]).
  destruct (proj1 (queues_exact m Hm) 3 Hw) as (b & Hb & Hs & _).
  exact (ex_intro _ m (ex_intro _ b (conj Hm (conj Hw (conj Hb Hs))))).
Defined.

Lemma decision_final_witness :
  exists m b, reachable m /\ m_requests m !! 1 = Some b /\ b_Status b = RequestGranted /\
    exists b', m_requests (run m [OpReleaseOwner owner_a; OpDetect]) !! 1 = Some b' /\
      b_Status b' = RequestGranted.
Proof.
  destruct demo_state as [m Em]. pose proof (from_fresh_reachable _ _ Em demo_sized) as Hm.
  assert (b_Status <$> m_requests m !! 1 = Some RequestGranted) as (b & Hb & Hs)%fmap_Some
    by (apply (from_fresh_eval demo_ops m (fun m => b_Status <$> m_requests m !! 1)); [done|by vm_compute]).
  symmetry in Hs.
  exists m, b. split; [exact Hm|]. split; [exact Hb|]. split; [exact Hs|].
  destruct (decision_final m [OpReleaseOwner owner_a; OpDetect] 1 b Hm ltac:(by repeat constructor) Hb ltac:(by rewrite Hs))
    as ((b' & Hb' & Hs' & _) & _).
  exists b'. split; [exact Hb'|]. rewrite Hs'. exact Hs.
Defined.

Lemma fair_pass_terminates_witness : exists m, reachable m /\ (retry_loop (retry_fuel m) m).2 = true.
Proof.
  destruct demo_state as [m Em]. pose proof (from_fresh_reachable _ _ Em demo_sized) as Hm.
  exists m. split; [exact Hm|]. exact (proj1 (fair_pass_terminates m Hm)).
Defined.
