(* ===== verification/ManagerIdle.v ===== *)
(** * No lost wakeups

    A waiting request is one the fair pass must grant when every component it does not hold stands
    first in line, with nothing in force against it, and when the ledger has refused nothing if it
    holds them all.  No such request is left behind: the pass ends without
    one, and no operation leaves one, whichever operation it was. *)

From stdpp Require Import gmap list sorting strings fin_maps.
From S2P Require Import Prelude LockTypes Interval Resource Compat ScopeTree Ledger Queue.
From S2P Require Import Graph Manager ManagerInv ManagerPass ManagerOps ManagerRuns ManagerSteps ManagerPaid.

(** ** First in line *)

(** What stands ahead of a component and does not hold it back: its own request, and other
    owners' components that it does not conflict with. *)
Definition lets_pass (h : heap) (r : Z) (owner : bytes) (ref : ResourceRef) (id : entryID) : Prop :=
  id.1 = r \/
  req_owner h id <> owner /\ forall q, deref h id = Some q -> componentsConflict ref (q_ref q) = false.

Definition first_in_line (m : manager) (r : Z) (owner : bytes) (i : nat) (ref : ResourceRef) : Prop :=
  exists e ahead behind, m_locks m !! ResourceKey ref = Some e /\ le_waiting e = ahead ++ (r, i) :: behind /\
    (forall id, id ∈ ahead -> lets_pass (m_requests m) r owner ref id) /\
    free_of (m_locks m) owner ref.

(** The request waits, each component it does not hold is first in line, and if it holds them all
    the ledger has never refused a commit. *)
Record wakeable (m : manager) (r : Z) (b : requestBundle) : Prop := {
  wk_request : m_requests m !! r = Some b;
  wk_waiting : r ∈ m_waiting m;
  wk_open : complete b = true -> refusals m <= 0;
  wk_first i q : b_entries b !! i = Some q -> q_state q <> entryHeld -> first_in_line m r (b_OwnerID b) i (q_ref q)
}.

Definition idle (m : manager) : Prop := forall r b, ~ wakeable m r b.

(** ** What keeps a state idle *)

(** The entries in use keep their queues, and nothing in force goes away. *)
Definition entry_kept (e e' : lockEntry) : Prop :=
  le_waiting e = le_waiting e' /\
  forall o c, c ∈ claims_of e o -> cl_pending c = false ->
    exists c', c' ∈ claims_of e' o /\ cl_pending c' = false /\ cl_ref c' = cl_ref c.

Definition table_kept (t t' : lockTable) : Prop :=
  forall k e', t' !! k = Some e' -> le_waiting e' <> [] -> exists e, t !! k = Some e /\ entry_kept e e'.

Record tighter (m m' : manager) : Prop := {
  ti_waiting : m_waiting m' ⊆ m_waiting m;
  ti_request r b' : r ∈ m_waiting m' -> m_requests m' !! r = Some b' -> (complete b' = true -> refusals m' <= 0) ->
    exists b, m_requests m !! r = Some b /\ benign b b';
  ti_evolves : evolves (m_requests m) (m_requests m');
  ti_refusals : refusals m <= refusals m';
  ti_table : table_kept (m_locks m) (m_locks m')
}.

Lemma entry_kept_refl e : entry_kept e e.
Proof. split; [done|]. eauto. Qed.

Lemma entry_kept_trans e1 e2 e3 : entry_kept e1 e2 -> entry_kept e2 e3 -> entry_kept e1 e3.
Proof.
  intros [W1 C1] [W2 C2]. split; [congruence|]. intros o c Hc Hp.
  destruct (C1 o c Hc Hp) as (c2 & Hc2 & Hp2 & E2). destruct (C2 o c2 Hc2 Hp2) as (c3 & ? & ? & ?).
  exists c3. split_and!; [done..|congruence].
Qed.

Lemma table_kept_refl t : table_kept t t.
Proof. intros k e He _. exists e. split; [done|apply entry_kept_refl]. Qed.

Lemma table_kept_trans t1 t2 t3 : table_kept t1 t2 -> table_kept t2 t3 -> table_kept t1 t3.
Proof.
  intros H1 H2 k e3 H3 Hw. destruct (H2 k e3 H3 Hw) as (e2 & Hk2 & Hk). pose proof Hk as [Ew _].
  destruct (H1 k e2 Hk2) as (e1 & ? & ?); [congruence|]. exists e1. split; [done|]. by eapply entry_kept_trans.
Qed.

(** Owners and resources of the components never change. *)
Lemma evolves_deref h h' id q :
  evolves h h' -> deref h id = Some q ->
  req_owner h' id = req_owner h id /\ exists q', deref h' id = Some q' /\ q_ref q' = q_ref q.
Proof.
  intros He (b & Hb & Hq)%deref_Some. destruct (He _ _ Hb) as (b' & Hb' & [Eo _ Ec _]).
  unfold req_owner. rewrite Hb, Hb'. split; [done|].
  assert ((components b' !! id.2) = Some (q_ref q)) as Hc by (by rewrite Ec; unfold components; rewrite list_lookup_fmap, Hq).
  unfold components in Hc. rewrite list_lookup_fmap in Hc. apply fmap_Some in Hc as (q' & Hq' & Er).
  exists q'. split; [apply deref_Some; eauto|done].
Qed.

Lemma tighter_first m m' r owner i ref :
  minv m -> tighter m m' -> first_in_line m' r owner i ref -> first_in_line m r owner i ref.
Proof.
  intros Hm [_ _ Tq _ Tt] (e' & ahead & behind & He' & Hw & Hah & Hfree).
  destruct (Tt _ e' He') as (e & He & Ew & Hc); [rewrite Hw; by destruct ahead|].
  exists e, ahead, behind. split_and!; [done|by rewrite Ew| |].
  - intros id Hid. destruct (Hah id Hid) as [?|[Ho Hq]]; [by left|right].
    assert (id ∈ le_waiting e) as Hin by (rewrite Ew, Hw; apply elem_of_app; by left).
    destruct (iv_queue _ _ _ _ Hm _ e id He Hin) as (HW & q & Hd & _).
    destruct (evolves_deref _ _ id q Tq Hd) as (Eo & q' & Hd' & Er). split; [by rewrite <- Eo|].
    intros q0 Hq0. assert (q0 = q) as -> by congruence. rewrite <- Er. by apply Hq.
  - intros e0 o c He0 Ho Hin Hp. assert (e0 = e) as -> by congruence.
    destruct (Hc o c Hin Hp) as (c' & Hin' & Hp' & Er). rewrite <- Er. by apply (Hfree e' o c').
Qed.

Lemma tighter_wakeable m m' r b' :
  minv m -> tighter m m' -> wakeable m' r b' -> exists b, wakeable m r b.
Proof.
  intros Hm Ht [Hr Hw Hc Hf]. destruct (ti_request _ _ Ht r b' Hw Hr Hc) as (b & Hb & Hbb).
  exists b. split; [done|by apply (ti_waiting _ _ Ht)| |].
  { rewrite <- (benign_complete _ _ Hbb). intros E. specialize (Hc E). pose proof (ti_refusals _ _ Ht). lia. }
  intros i q Hi Hs. destruct (Forall2_lookup_l _ _ _ _ _ (bn_entries _ _ Hbb) Hi) as (q' & Hi' & Er & _ & Es).
  rewrite <- (bn_owner _ _ Hbb), <- Er. apply (tighter_first m m'); [done..|]. apply Hf; [done|]. by rewrite Es.
Qed.

Lemma tighter_idle m m' : minv m -> tighter m m' -> idle m -> idle m'.
Proof. intros Hm Ht Hi r b' Hw. destruct (tighter_wakeable m m' r b' Hm Ht Hw) as (b & Hb). by apply (Hi r b). Qed.

(** Requests change benignly and the table is kept. *)
Lemma tighter_benign m m' :
  m_waiting m' ⊆ m_waiting m -> heap_benign (m_requests m) (m_requests m') -> refusals m <= refusals m' ->
  table_kept (m_locks m) (m_locks m') -> tighter m m'.
Proof.
  intros HW Hh HF Ht. split; [done| |by apply heap_benign_evolves|done..].
  intros r b' _ Hr _. by apply (heap_benign_Some_inv (m_requests m) (m_requests m')).
Qed.

Lemma idle_same m m' :
  m_locks m' = m_locks m -> m_requests m' = m_requests m -> m_waiting m' = m_waiting m ->
  refusals m <= refusals m' -> idle m -> idle m'.
Proof.
  intros EL ER EW EF Hi r b [Hr Hw Hc Hf]. apply (Hi r b). rewrite ER in Hr. rewrite EW in Hw.
  split; [done|done|intros E; specialize (Hc E); lia|].
  intros i q Hq Hs. destruct (Hf i q Hq Hs) as (e & ahead & behind & He). exists e, ahead, behind.
  by rewrite EL, ER in He.
Qed.

Lemma tighter_refl m : tighter m m.
Proof. apply tighter_benign; [done|apply heap_benign_refl|done|apply table_kept_refl]. Qed.

Lemma tighter_trans m1 m2 m3 : tighter m1 m2 -> tighter m2 m3 -> tighter m1 m3.
Proof.
  intros [W1 R1 E1 F1 T1] [W2 R2 E2 F2 T2]. split.
  - by etrans.
  - intros r b3 Hw Hb3 Hc. destruct (R2 r b3 Hw Hb3 Hc) as (b2 & Hb2 & B2).
    destruct (R1 r b2) as (b1 & Hb1 & B1); [by apply W2|done| |].
    { rewrite <- (benign_complete _ _ B2). intros E. specialize (Hc E). lia. }
    exists b1. split; [done|by apply (benign_trans b1 b2)].
  - by etrans.
  - lia.
  - by eapply table_kept_trans.
Qed.

(** ** The fair pass *)

(** The earlier entries of its own request do not settle a component. *)
Lemma adoptable_none m e r i b q ahead behind k :
  minv m -> m_requests m !! r = Some b -> b_entries b !! i = Some q -> m_locks m !! k = Some e ->
  le_waiting e = ahead ++ (r, i) :: behind ->
  (forall id, id ∈ ahead -> lets_pass (m_requests m) r (b_OwnerID b) (q_ref q) id) ->
  adoptable_in (m_requests m) e (le_waiting e) (r, i) (q_ref q) = (false, None).
Proof.
  intros Hm Hr Hi He Hw Hah. pose proof (iv_nodup _ _ _ _ Hm k e He) as Hnd. rewrite Hw in *. clear Hw.
  assert (req_owner (m_requests m) (r, i) = b_OwnerID b) as Eo by (unfold req_owner; cbn; by rewrite Hr).
  assert ((r, i) ∉ ahead) as Hni by (apply NoDup_app in Hnd as (_ & Hd & _); intros Hx; apply (Hd _ Hx); by left).
  clear Hnd. induction ahead as [|id ahead IH]; cbn [app adoptable_in]; [by rewrite bool_decide_eq_true_2|].
  rewrite bool_decide_eq_false_2 by (intros ->; apply Hni; by left).
  assert (adoptable_in (m_requests m) e (ahead ++ (r, i) :: behind) (r, i) (q_ref q) = (false, None)) as IH'.
  { apply IH; [intros id' Hid'; apply Hah; by right|]. intros Hx. apply Hni. by right. }
  destruct (deref (m_requests m) id) as [q'|] eqn:Hq'; [|done]. destruct (q_dead q'); [done|]. rewrite Eo.
  destruct (Hah id) as [E|[Ho _]]; [by left| |by rewrite bool_decide_eq_false_2].
  case_bool_decide; [|done]. cbn [negb]. destruct (SameClaim (q_ref q') (q_ref q)) eqn:Es; [|done]. exfalso.
  apply deref_Some in Hq' as (b' & Hb' & Hi'). assert (b' = b) as -> by congruence.
  apply Hni, elem_of_cons. left. destruct id as [r' j]. cbn in *. subst r'. f_equal.
  pose proof (bo_keys _ (iv_bundle _ _ _ _ Hm _ _ Hr)) as Hnd. apply SameClaim_spec in Es.
  eapply (proj1 (NoDup_alt _) Hnd); rewrite list_lookup_fmap; unfold components; rewrite list_lookup_fmap;
    [by rewrite Hi|rewrite Hi'; cbn; by rewrite Es].
Qed.

Lemma ahead_in_passes m r i b ref ahead behind :
  m_requests m !! r = Some b -> (r, i) ∉ ahead ->
  (forall id, id ∈ ahead -> lets_pass (m_requests m) r (b_OwnerID b) ref id) ->
  ahead_in (m_requests m) (ahead ++ (r, i) :: behind) (r, i) ref = false.
Proof.
  intros Hr Hni Hah. induction ahead as [|id ahead IH]; cbn [app ahead_in]; [by rewrite bool_decide_eq_true_2|].
  rewrite bool_decide_eq_false_2 by (intros ->; apply Hni; by left).
  assert (ahead_in (m_requests m) (ahead ++ (r, i) :: behind) (r, i) ref = false) as IH'.
  { apply IH; [intros Hx; apply Hni; by right|]. intros id' Hid'. apply Hah. by right. }
  destruct (deref (m_requests m) id) as [q'|] eqn:Hq'; [|done]. destruct (q_dead q'); [done|].
  destruct (Hah id) as [E|[_ Hc]]; [by left|unfold sameBundleRequest; cbn; by rewrite E, Z.eqb_refl|].
  rewrite (Hc q' Hq'). by destruct (sameBundleRequest _ _).
Qed.

Lemma free_not_blocking m r i b q e :
  minv m -> m_locks m !! ResourceKey (q_ref q) = Some e -> free_of (m_locks m) (b_OwnerID b) (q_ref q) ->
  hasBlockingClaims e (b_OwnerID b) (r, i) (q_ref q) = false.
Proof.
  intros Hm He Hfree. apply not_true_is_false. intros Hb.
  apply hasBlockingClaims_spec in Hb; [|by apply (iv_index _ _ _ _ Hm _ _ He)].
  destruct Hb as (o & c & Ho & Hc & Hp & _ & Hcf).
  rewrite (claimComponent_ref _ _ _ _ _ _ _ _ _ Hm He Hc) in Hcf. by rewrite (Hfree e o c He Ho Hc Hp) in Hcf.
Qed.

Lemma first_grantable m r i b q :
  minv m -> m_requests m !! r = Some b -> b_entries b !! i = Some q ->
  first_in_line m r (b_OwnerID b) i (q_ref q) ->
  exists e, m_locks m !! ResourceKey (q_ref q) = Some e /\
    grantable (m_requests m) e (r, i) (q_ref q) = (m_requests m, true).
Proof.
  intros Hm Hr Hi (e & ahead & behind & He & Hw & Hah & Hfree). exists e. split; [done|].
  assert (req_owner (m_requests m) (r, i) = b_OwnerID b) as Eo by (unfold req_owner; cbn; by rewrite Hr).
  pose proof (iv_nodup _ _ _ _ Hm _ e He) as Hnd. rewrite Hw in Hnd.
  assert ((r, i) ∉ ahead) as Hni by (apply NoDup_app in Hnd as (_ & Hd & _); intros Hx; apply (Hd _ Hx); by left).
  unfold grantable. rewrite Eo, (free_not_blocking m r i b q e Hm He Hfree).
  unfold waitersAhead. rewrite Hw, (ahead_in_passes m r i b (q_ref q)) by done.
  unfold adoptableOwnClaim. by rewrite (adoptable_none m e r i b q ahead behind (ResourceKey (q_ref q))).
Qed.

Lemma wakeable_ready m r b :
  minv m -> wakeable m r b -> bundleReadyLocked m r = (m <| m_requests := m_requests m |>, true).
Proof.
  intros Hm [Hr Hw Hc Hf]. unfold bundleReadyLocked. rewrite Hr.
  assert (forall l, ready_entries (m_locks m) (m_requests m) r l = (m_requests m, true)) as ->; [|done].
  induction l as [|i l IH]; cbn [ready_entries]; [done|].
  destruct (deref (m_requests m) (r, i)) as [q|] eqn:Hq; [|done].
  destruct (q_dead q || settled q) eqn:Es; [done|]. apply orb_false_iff in Es as [_ Hs].
  apply negb_false_iff, bool_decide_eq_true in Hs. apply deref_Some in Hq as (b' & Hb' & Hi). cbn in *.
  assert (b' = b) as -> by congruence.
  destruct (first_grantable m r i b q Hm Hr Hi) as (e & -> & ->); [|done]. apply Hf; [done|congruence].
Qed.

(** A complete request is decided, or refused by the ledger. *)
Lemma completeBundle_idle m r b :
  minv m -> paid m -> r ∈ m_waiting m -> m_requests m !! r = Some b -> complete b = true ->
  tighter m (completeBundleLocked m r) /\ (forall b, ~ wakeable (completeBundleLocked m r) r b).
Proof.
  intros Hm Hpaid Hin Hr Hc. destruct (completeBundle_requests m r b Hr) as (b1 & E1 & Hev & Ee & Eh).
  assert (complete b1 = true) as Hc1 by (unfold complete in *; by rewrite Ee, Eh).
  assert (r ∈ m_waiting (completeBundleLocked m r) -> 0 < refusals (completeBundleLocked m r)) as Href.
  { destruct (iv_waiting _ _ _ _ Hm r Hin) as (b0 & Hb0 & Hst). assert (b0 = b) as -> by congruence.
    by apply (completeBundle_refused m r b). }
  split; [split|].
  - destruct (completeBundle_waiting m r) as [-> | ->]; set_solver.
  - intros r' b' Hw Hb' Hc'. rewrite E1 in Hb'. apply lookup_insert_Some in Hb' as [[<- <-]|[_ ?]].
    + specialize (Href Hw). specialize (Hc' Hc1). lia.
    + exists b'. split; [done|apply benign_refl].
  - rewrite E1. by apply (evolves_insert _ _ b).
  - apply completeBundle_accounts.
  - rewrite completeBundle_locks. apply table_kept_refl.
  - intros b' [Hb' Hw Hc' _]. rewrite E1, lookup_insert_eq in Hb'. injection Hb' as <-.
    specialize (Href Hw). specialize (Hc' Hc1). lia.
Qed.

(** A request visited without progress is not wakeable when the visit is over. *)
Lemma retry_one_idle m r :
  minv m -> paid m -> let '(m', p') := retry_one (m, false) r in
  p' = false -> tighter m m' /\ (forall b, ~ wakeable m' r b).
Proof.
  intros Hm Hpaid. unfold retry_one. destruct (bool_decide (r ∈ m_waiting m)) eqn:E; cbn [negb].
  2: { intros _. split; [apply tighter_refl|]. intros b [_ Hw _ _]. by apply bool_decide_eq_false in E. }
  apply bool_decide_eq_true in E. destruct (m_requests m !! r) as [b|] eqn:Hr.
  2: { intros _. split; [apply tighter_refl|]. intros b [Hb _ _ _]. congruence. }
  rewrite (drop_decided m r b) by done. destruct (complete b) eqn:Hc.
  { intros _. by apply (completeBundle_idle m r b). }
  destruct (ready_entries_spec (m_locks m) r (seq 0 (length (b_entries b))) (m_requests m)) as [Hb _].
  assert (tighter m (bundleReadyLocked m r).1) as Ht.
  { unfold bundleReadyLocked. rewrite Hr. destruct (ready_entries _ _ _ _) as [h ready].
    apply tighter_benign; [done|done|done|apply table_kept_refl]. }
  destruct (bundleReadyLocked m r) as [m1 ready] eqn:Eb. cbn [fst] in Ht. destruct ready; cbn [negb]; [done|].
  intros _. split; [done|]. intros b' Hw. destruct (tighter_wakeable m m1 r b' Hm Ht Hw) as (b0 & Hb0).
  rewrite (wakeable_ready m r b0 Hm Hb0) in Eb. congruence.
Qed.

Section Idle.
Context `{MapRange}.

Lemma retry_fold_idle l m :
  minv m -> paid m -> let '(m', p') := foldl retry_one (m, false) l in
  p' = false -> tighter m m' /\ (forall r b, r ∈ l -> ~ wakeable m' r b).
Proof.
  revert m. induction l as [|r l IH]; intros m Hm Hpaid; cbn [foldl].
  { intros _. split; [apply tighter_refl|]. by intros r b []%not_elem_of_nil. }
  pose proof (retry_one_idle m r Hm Hpaid) as H1. pose proof (retry_one_spec m false r Hm) as H2.
  pose proof (accounts_paid _ _ (retry_one_accounts (m, false) r) Hpaid) as Hpaid1.
  destruct (retry_one (m, false) r) as [m1 [|]].
  { assert (forall l m, (foldl retry_one (m, true) l).2 = true) as Hstay.
    { clear. induction l as [|r l IH]; intros m; cbn [foldl]; [done|].
      assert ((retry_one (m, true) r).2 = true) as E.
      { unfold retry_one. repeat (case_match; try done). }
      destruct (retry_one (m, true) r) as [m' p]. cbn in E. subst p. apply IH. }
    specialize (Hstay l m1). destruct (foldl retry_one (m1, true) l) as [m2 p2]. cbn in Hstay. by subst p2. }
  destruct (H1 eq_refl) as [Ht Hnw]. destruct H2 as (Hq & _). pose proof (qu_inv _ _ Hq) as Hm1.
  specialize (IH m1 Hm1 Hpaid1). destruct (foldl retry_one (m1, false) l) as [m2 p2]. intros Hp2.
  destruct (IH Hp2) as [Ht2 Hn2]. split; [by eapply tighter_trans|].
  intros r' b [->|Hin]%elem_of_cons; [|by apply Hn2]. intros Hw.
  destruct (tighter_wakeable m1 m2 r b Hm1 Ht2 Hw) as (b1 & Hb1). by apply (Hnw b1).
Qed.

Lemma retry_round_idle m m' : minv m -> paid m -> retry_round m = (m', false) -> idle m'.
Proof.
  intros Hm Hpaid E. unfold retry_round in E.
  assert (minv (next_tick m)) as Hm0 by (by apply (inv_frame _ _ _ m)).
  pose proof (retry_fold_idle (range_set (m_tick m) (m_waiting m)) (next_tick m) Hm0 ltac:(by destruct Hpaid)) as Hf.
  rewrite E in Hf. destruct (Hf eq_refl) as [Ht Hn]. intros r b Hw. apply (Hn r b); [|done].
  apply elem_of_range_set. apply (ti_waiting _ _ Ht), Hw.
Qed.

Lemma retry_loop_idle fuel m : minv m -> paid m -> (retry_loop fuel m).2 = true -> idle (retry_loop fuel m).1.
Proof.
  revert m. induction fuel as [|fuel IH]; intros m Hm Hpaid; cbn [retry_loop]; [done|].
  pose proof (accounts_paid _ _ (retry_round_accounts m) Hpaid) as Hpaid1.
  destruct (retry_round m) as [m1 [|]] eqn:E; [|intros _; by apply (retry_round_idle m)].
  apply IH; [|exact Hpaid1]. pose proof (retry_round_spec m Hm) as H1. rewrite E in H1. apply H1.
Qed.

(** The fair pass leaves no wakeable request, wherever it starts. *)
Lemma retryWaiting_idle m : minv m -> paid m -> idle (retryWaitingLocked m).
Proof.
  intros Hm Hpaid. unfold retryWaitingLocked.
  destruct (retry_loop_spec (retry_fuel m) m Hm (retry_fuel_enough m)) as (_ & Hd & _).
  apply (idle_same (retry_loop (retry_fuel m) m).1); [done..|]. by apply retry_loop_idle.
Qed.

Lemma release_lock_kept m k : table_kept (m_locks m) (m_locks (release_lock m k)).
Proof.
  intros k' e He _. exists e. split; [|apply entry_kept_refl]. cbn in He. unfold Queue.release in He.
  destruct (m_locks m !! k) as [e0|]; [|done]. destruct (_ && _); [|done].
  by apply lookup_delete_Some in He as [_ ?].
Qed.

Lemma release_lock_idle m k : minv m -> idle m -> idle (release_lock m k).
Proof.
  intros Hm. apply tighter_idle; [done|]. apply tighter_benign; [done|apply heap_benign_refl|done|apply release_lock_kept].
Qed.

Lemma advance_release_idle m k : minv m -> paid m -> idle (release_lock (advanceEntryLocked m) k).
Proof. intros Hm Hpaid. apply release_lock_idle; [by apply retryWaiting_quiet|by apply retryWaiting_idle]. Qed.

(** ** Ending a request *)

Definition avoids (m : manager) (r : Z) (k : bytes) : Prop :=
  forall i q, deref (m_requests m) (r, i) = Some q -> ResourceKey (q_ref q) <> k.

Lemma avoids_refs m m' r k :
  (forall i, q_ref <$> deref (m_requests m') (r, i) = q_ref <$> deref (m_requests m) (r, i)) ->
  avoids m r k -> avoids m' r k.
Proof.
  intros He Ha i q Hq. specialize (He i). rewrite Hq in He. cbn in He. symmetry in He.
  apply fmap_Some in He as (q0 & Hq0 & ->). by apply (Ha i).
Qed.

Lemma finish_entry_refs m r i j :
  q_ref <$> deref (m_requests (finish_entry r m i)) (r, j) = q_ref <$> deref (m_requests m) (r, j).
Proof.
  unfold finish_entry. destruct (deref (m_requests m) (r, i)) as [q|] eqn:Hq; [|done].
  destruct (m_locks m !! _) as [e|]; [|done]. destruct (dropClaim _ _ _ _) as [e1 d]. cbn zeta.
  assert (q_ref <$> deref (on_entry (m_requests m) (r, i) (fun q => q <| q_dead := true |>)) (r, j) =
    q_ref <$> deref (m_requests m) (r, j)) as E; [|by destruct (d && _)].
  unfold on_entry. rewrite deref_alter. cbn [fst snd]. rewrite decide_True by done. unfold deref. cbn [fst snd].
  destruct (m_requests m !! r) as [b|]; [|done]. cbn.
  destruct (decide (j = i)) as [->|Hne]; [rewrite list_lookup_alter_eq; by destruct (b_entries b !! i)|].
  by rewrite list_lookup_alter_ne.
Qed.

Lemma finish_entry_elsewhere m r i k : avoids m r k -> m_locks (finish_entry r m i) !! k = m_locks m !! k.
Proof.
  intros Ha. unfold finish_entry. destruct (deref (m_requests m) (r, i)) as [q|] eqn:Hq; [|done].
  destruct (m_locks m !! ResourceKey (q_ref q)) as [e|] eqn:He; [|done]. destruct (dropClaim _ _ _ _) as [e1 d].
  cbn zeta. pose proof (Ha i q Hq) as Hne. set (k0 := ResourceKey (q_ref q)) in *.
  assert (forall x e', m_locks x = m_locks m -> m_locks (release_lock (put_lock x k0 e') k0) !! k = m_locks m !! k) as Hx.
  { intros x e' Ex. cbn. rewrite Ex. unfold Queue.release. rewrite lookup_insert_eq.
    destruct (_ && _); [rewrite lookup_delete_ne by done|]; by rewrite lookup_insert_ne. }
  destruct (d && _); by apply Hx.
Qed.

Lemma finish_fold_elsewhere l m r k : avoids m r k -> m_locks (foldl (finish_entry r) m l) !! k = m_locks m !! k.
Proof.
  revert m. induction l as [|i l IH]; intros m Ha; cbn [foldl]; [done|]. rewrite IH.
  - by apply finish_entry_elsewhere.
  - apply (avoids_refs m); [intros j; apply finish_entry_refs|done].
Qed.

Lemma elem_of_resourceKeys b k : k ∈ resourceKeys b <-> exists ref, k = ResourceKey ref /\ ref ∈ components b.
Proof.
  unfold resourceKeys, components. rewrite sort_stable_perm, elem_of_remove_dups, list_fmap_compose.
  apply list_elem_of_fmap.
Qed.

Lemma take_down_idle m r b status :
  minv m -> m_requests m !! r = Some b -> b_Status b = RequestPending ->
  Terminal status = true -> status <> RequestGranted ->
  Forall (fun k => m_locks (take_down m r b status) !! k = None) (resourceKeys b) ->
  idle m -> idle (take_down m r b status).
Proof.
  intros Hm Hr Hst Ht Hng Hnone. apply tighter_idle; [done|].
  destruct (take_down_spec m r b status Hm Hr Hst Ht Hng) as (Hq & HW & _).
  destruct (finish_fold_spec (m_waiting m) (m_waiting m) r (seq 0 (length (b_entries b))) m b) as (_ & Htd & _);
    [by apply (inv_weaken none_exempt)|done|].
  split; [apply Hq| |apply Hq|apply take_down_accounts|].
  - intros r' b' Hw Hb' _. rewrite HW in Hw. assert (r' <> r) as Hne by set_solver. exists b'.
    split; [|apply benign_refl]. unfold take_down in Hb'. cbn in Hb'. rewrite lookup_alter_ne in Hb' by done.
    by rewrite (td_other _ _ _ Htd) in Hb'.
  - intros k e He _. exists e. split; [|apply entry_kept_refl].
    rewrite <- (finish_fold_elsewhere (seq 0 (length (b_entries b))) m r k); [exact He|].
    intros i q Hq' Ek. rewrite Forall_forall in Hnone. rewrite (Hnone k) in He; [done|].
    apply elem_of_resourceKeys. exists (q_ref q). split; [done|]. apply deref_Some in Hq' as (b0 & Hb0 & Hi).
    cbn in *. assert (b0 = b) as -> by congruence. by apply list_elem_of_fmap_2, (list_elem_of_lookup_2 _ i).
Qed.

Lemma advance_fold_idle l m :
  minv m -> paid m -> (idle m \/ Exists (fun k => is_Some (m_locks m !! k)) l) -> idle (foldl advance_key m l).
Proof.
  revert m. induction l as [|k l IH]; intros m Hm Hpaid Hor; cbn [foldl].
  { destruct Hor as [?|Hx]; [done|by apply Exists_nil in Hx]. }
  apply IH; [by apply advance_key_quiet|by apply (accounts_paid m), Hpaid;
    apply advance_key_accounts|]. unfold advance_key. destruct (m_locks m !! k) as [e|] eqn:He.
  - left. by apply advance_release_idle.
  - destruct Hor as [?|Hx]; [by left|]. apply Exists_cons in Hx as [[e He']|?]; [congruence|by right].
Qed.

Lemma finish_idle m r status :
  minv m -> paid m -> Terminal status = true -> status <> RequestGranted -> idle m -> idle (finishRequestLocked m r status).1.
Proof.
  intros Hm Hpaid Ht Hng Hi. destruct (m_requests m !! r) as [b|] eqn:Hr; [|by unfold finishRequestLocked; rewrite Hr].
  destruct (decide (b_Status b = RequestPending)) as [Hst|Hst].
  2: { unfold finishRequestLocked. rewrite Hr.
       by assert (Terminal (b_Status b) = true) as -> by (by unfold Terminal; rewrite bool_decide_eq_false_2). }
  rewrite (finishRequest_eq m r b) by done. cbn [fst].
  destruct (take_down_spec m r b status Hm Hr Hst Ht Hng) as (Hq & _).
  apply (idle_same (foldl advance_key (take_down m r b status) (resourceKeys b))); [done..|]. apply advance_fold_idle;
    [apply Hq|by apply (accounts_paid m), Hpaid; apply take_down_accounts|].
  destruct (decide (Exists (fun k => is_Some (m_locks (take_down m r b status) !! k)) (resourceKeys b))) as [?|Hno];
    [by right|left]. apply take_down_idle; try done.
  apply Forall_forall. intros k Hk. apply eq_None_not_Some. intros Hs. apply Hno, Exists_exists. eauto.
Qed.

(** ** Every operation *)

(** Sound, and idle where the state was, provided the ledger knows the reservations. *)
Record calm (m m' : manager) : Prop := {
  ca_sound : sound m m';
  ca_accounts : accounts m m';
  ca_idle : paid m -> idle m -> idle m'
}.

Lemma calm_refl m : good m -> calm m m.
Proof. split; [by apply sound_refl|reflexivity|done]. Qed.

Lemma calm_trans m1 m2 m3 : calm m1 m2 -> calm m2 m3 -> calm m1 m3.
Proof.
  intros [S1 A1 I1] [S2 A2 I2]. split; [by eapply sound_trans|by etrans|].
  intros Hp Hi. apply I2; [by apply (accounts_paid m1)|by apply I1].
Qed.

Lemma calm_good m m' : calm m m' -> good m'.
Proof. intros [Hs _ _]. apply Hs. Qed.

Lemma calm_same m m' :
  good m -> m_locks m' = m_locks m -> m_requests m' = m_requests m -> m_pending m' = m_pending m ->
  m_waiting m' = m_waiting m -> m_nextRequestID m' = m_nextRequestID m -> ledger_on (m_ledger m) (m_ledger m') -> calm m m'.
Proof. intros Hm EL ER EP EW EN HL. split; [by apply sound_same|by apply accounts_ledger|intros _; by apply idle_same;
  [..|apply HL]]. Qed.

Lemma calm_fold {A} (f : manager -> A -> manager) l m :
  (forall m x, good m -> calm m (f m x)) -> good m -> calm m (foldl f m l).
Proof.
  intros Hf. revert m. induction l as [|x l IH]; intros m Hm; cbn; [by apply calm_refl|].
  eapply calm_trans; [by apply Hf|]. apply IH. by apply (calm_good m), Hf.
Qed.

Lemma finish_calm m r status :
  good m -> Terminal status = true -> status <> RequestGranted -> calm m (finishRequestLocked m r status).1.
Proof. intros Hm Ht Hng. split; [by apply finish_sound|apply finish_accounts|]. intros Hp. by apply finish_idle;
  [apply Hm|..]. Qed.

Lemma cancel_calm m f status :
  good m -> Terminal status = true -> status <> RequestGranted -> calm m (cancelRequestsLocked m f status).1.
Proof.
  intros Hm Ht Hng. unfold cancelRequestsLocked.
  assert (forall l m n, good m -> calm m (foldl (finish_counted status) (m, n) l).1) as Hfold.
  { clear m Hm. induction l as [|r l IH]; intros m n Hm; cbn [foldl]; [by apply calm_refl|].
    assert (calm m (finish_counted status (m, n) r).1) as H1.
    { unfold finish_counted. destruct (m_requests m !! r); [|by apply calm_refl].
      destruct (Terminal (b_Status _)); [by apply calm_refl|]. by apply finish_calm. }
    destruct (finish_counted status (m, n) r) as [m1 n1]. eapply calm_trans; [exact H1|].
    apply IH. by apply (calm_good m). }
  eapply calm_trans; [by apply (calm_same m (next_tick m))|]. apply Hfold. by apply (good_same m).
Qed.

Lemma closeJoins_calm m discarded : good m -> calm m (closeJoinsLocked m discarded).
Proof.
  pose proof (closeJoins_benign m discarded) as Hb.
  assert (m_ledger (closeJoinsLocked m discarded) = m_ledger m) as EL by (unfold closeJoinsLocked; by destruct (_ || _)).
  intros Hm. split; [by apply closeJoins_sound|apply accounts_requests; [done|by apply res_kept_benign]|].
  intros _. apply tighter_idle; [apply Hm|]. apply tighter_benign; [|done|unfold refusals; by rewrite EL|];
    unfold closeJoinsLocked; destruct (_ || _); try done; apply table_kept_refl.
Qed.

Lemma BeginCloseScope_calm m o s : good m -> calm m (BeginCloseScope m o s).1.
Proof.
  intros Hm. unfold BeginCloseScope. destruct (m_scopes m !! o) as [t|]; [|by apply calm_refl].
  destruct (BeginClose t s) as [t1 [sc|e]]; [|by apply (calm_same m)].
  destruct (default _ _) as [t2 closed]. cbn. eapply calm_trans; [|apply closeJoins_calm];
    [by apply (calm_same m)|by apply (good_same m)].
Qed.

Lemma CloseScope_calm m o s : good m -> calm m (CloseScope m o s).1.
Proof.
  intros Hm. unfold CloseScope. destruct (m_scopes m !! o) as [t|]; [|by apply calm_refl].
  destruct (Get t s); [|by apply calm_refl]. destruct (default _ _) as [t2 closed]. cbn zeta.
  set (m1 := put_tree m o t2). assert (calm m m1) as H1 by (by apply (calm_same m)).
  set (f := fun b => _). pose proof (cancel_calm m1 f RequestCanceled (calm_good _ _ H1)) as Hc.
  destruct (cancelRequestsLocked m1 f RequestCanceled) as [m2 n]. cbn [fst] in *.
  assert (calm m1 m2) as H2 by (by apply Hc).
  eapply calm_trans; [exact H1|]. eapply calm_trans; [exact H2|]. by apply closeJoins_calm, (calm_good m1).
Qed.

Lemma expire_calm m r : good m -> calm m (finishRequestLocked (m <| m_timeouts ::= succ64 |>) r RequestTimedOut).1.
Proof.
  intros Hm. eapply calm_trans; [|by apply finish_calm; [apply (good_same m)|..]]. by apply (calm_same m).
Qed.

Lemma Cancel_calm m o h : good m -> calm m (Cancel m o h).1.
Proof.
  intros Hm. unfold Cancel. destruct h as [h|]; [|by apply calm_refl]. destruct (negb _); [by apply calm_refl|].
  destruct (findPendingLocked _ _ _); [|by apply calm_refl]. by apply finish_calm.
Qed.

Lemma withdraw_calm m o h : good m -> calm m (withdrawOnContextEnd m o h).
Proof.
  intros Hm. unfold withdrawOnContextEnd. destruct (findPendingLocked _ _ _); [|by apply calm_refl].
  by apply finish_calm.
Qed.

Lemma timeOut_calm m o h : good m -> calm m (timeOutIfExpired m o h).1.
Proof.
  intros Hm. unfold timeOutIfExpired. destruct h as [h|]; [|by apply calm_refl].
  destruct (findPendingLocked _ _ _) as [r|]; [|by apply calm_refl].
  destruct (m_requests m !! r); [|by apply calm_refl]. destruct (_ || _); [by apply calm_refl|]. by apply expire_calm.
Qed.

Lemma checkDeadlines_calm m : good m -> calm m (checkDeadlinesLocked m).1.
Proof.
  intros Hm. unfold checkDeadlinesLocked. cbn zeta.
  assert (forall l m n, good m -> calm m (foldl time_out_one (m, n) l).1) as Hfold.
  { clear m Hm. induction l as [|r l IH]; intros m n Hm; cbn [foldl]; [by apply calm_refl|].
    assert (calm m (time_out_one (m, n) r).1) as H1.
    { unfold time_out_one. destruct (m_requests m !! r); [|by apply calm_refl].
      destruct (Terminal (b_Status _)); [by apply calm_refl|]. by apply expire_calm. }
    destruct (time_out_one (m, n) r) as [m1 n1]. eapply calm_trans; [exact H1|]. apply IH. by apply (calm_good m). }
  eapply calm_trans; [by apply (calm_same m (next_tick m))|]. apply Hfold. by apply (good_same m).
Qed.
End Idle.
