(* ===== verification/ManagerGrant.v ===== *)
(** * Grants put claims in force

    A request granted as it arrives leaves a claim in force for each of its components, takes no
    claim in force from anybody and moves no queue. *)

From stdpp Require Import gmap list sorting strings fin_maps.
From S2P Require Import Prelude LockTypes Interval Resource Compat ScopeTree Ledger Queue.
From S2P Require Import Graph Manager ManagerInv ManagerPass ManagerOps ManagerRuns ManagerSteps ManagerIdle.

(** The same keys, each entry kept. *)
Definition kept_exactly (t t' : lockTable) : Prop :=
  forall k, option_relation entry_kept (fun _ => False) (fun _ => False) (t !! k) (t' !! k).

Lemma kept_exactly_refl t : kept_exactly t t.
Proof. intros k. destruct (t !! k); [apply entry_kept_refl|done]. Qed.

Lemma kept_exactly_trans t1 t2 t3 : kept_exactly t1 t2 -> kept_exactly t2 t3 -> kept_exactly t1 t3.
Proof.
  intros H1 H2 k. specialize (H1 k). specialize (H2 k). destruct (t1 !! k), (t2 !! k), (t3 !! k); try done.
  by eapply entry_kept_trans.
Qed.

Lemma kept_exactly_table t t' : kept_exactly t t' -> table_kept t t'.
Proof. intros Hk k e' He' _. specialize (Hk k). rewrite He' in Hk. destruct (t !! k); [eauto|done]. Qed.

Lemma kept_exactly_put (t : lockTable) k e e' : t !! k = Some e -> entry_kept e e' -> kept_exactly t (<[k := e']> t).
Proof.
  intros He Hk k'. destruct (decide (k' = k)) as [->|Hne]; [by rewrite He, lookup_insert_eq|].
  rewrite lookup_insert_ne by done. destruct (t !! k'); [apply entry_kept_refl|done].
Qed.

(** A claim in force for the component, taken by the request. *)
Definition holds (m : manager) (r : Z) (owner : bytes) (ref : ResourceRef) : Prop :=
  exists c, in_force m owner c /\ cl_ref c = ref /\ cl_request c = r.

(** Claims in force survive, with their request. *)
Definition force_kept (t t' : lockTable) : Prop :=
  forall k e o c, t !! k = Some e -> c ∈ claims_of e o -> cl_pending c = false ->
    exists e' c', t' !! k = Some e' /\ c' ∈ claims_of e' o /\ cl_pending c' = false /\
      cl_ref c' = cl_ref c /\ cl_request c' = cl_request c.

Lemma force_kept_refl t : force_kept t t.
Proof. intros k e o c ? ? ?. by exists e, c. Qed.

Lemma force_kept_trans t1 t2 t3 : force_kept t1 t2 -> force_kept t2 t3 -> force_kept t1 t3.
Proof.
  intros H1 H2 k e o c He Hc Hp. destruct (H1 k e o c He Hc Hp) as (e2 & c2 & He2 & Hc2 & Hp2 & E1 & E2).
  destruct (H2 k e2 o c2 He2 Hc2 Hp2) as (e3 & c3 & ? & ? & ? & ? & ?). exists e3, c3.
  split_and!; [done..|congruence|congruence].
Qed.

Lemma force_kept_holds m m' r owner ref :
  force_kept (m_locks m) (m_locks m') -> holds m r owner ref -> holds m' r owner ref.
Proof.
  intros Hk (c & (k & e & He & Hc & Hp) & Er & Eq). destruct (Hk k e owner c He Hc Hp) as (e' & c' & ? & ? & ? & ? & ?).
  exists c'. split; [by exists k, e'|]. split; congruence.
Qed.

(** What granting one pending component does to its entry. *)
Definition taken (e : lockEntry) (r : Z) (owner : bytes) (ref : ResourceRef) : lockEntry :=
  match applyClaim e r owner ref with
  | (e, true) => e
  | (e, false) => addClaim e r owner ref false
  end.

Record takes (e e' : lockEntry) (r : Z) (owner : bytes) (ref : ResourceRef) : Prop := {
  tk_waiting : le_waiting e' = le_waiting e;
  tk_force o c : c ∈ claims_of e o -> cl_pending c = false ->
    exists c', c' ∈ claims_of e' o /\ cl_pending c' = false /\ cl_ref c' = cl_ref c /\ cl_request c' = cl_request c;
  tk_own : exists c, c ∈ claims_of e' owner /\ cl_pending c = false /\ cl_ref c = ref /\ cl_request c = r
}.

Lemma taken_takes X V W m k e r b ref :
  inv X V W m -> m_locks m !! k = Some e -> m_requests m !! r = Some b -> ref ∈ components b ->
  takes e (taken e r (b_OwnerID b) ref) r (b_OwnerID b) ref.
Proof.
  intros Hm He Hr Hin. unfold taken. set (owner := b_OwnerID b).
  destruct (applyClaim e r owner ref) as [e1 [|]] eqn:Ea.
  - destruct (applyClaim_frame e r owner ref) as [_ Ew]. rewrite Ea in Ew. cbn in Ew.
    destruct (claims_of_applyClaim e r owner ref e1 Ea) as (i & c & Hi & Ec & Hsame & Hcl).
    pose proof (list_elem_of_lookup_2 _ _ _ Hi) as Hcin.
    assert (cl_ref c = ref) as Eref.
    { destruct (iv_claim _ _ _ _ Hm k e owner c He Hcin) as (_ & _ & b' & Hb' & _ & Hin').
      assert (b' = b) as -> by congruence.
      by apply (same_claim_same_ref b); [apply (iv_bundle _ _ _ _ Hm r)|..]. }
    assert (forall x, x ∈ claims_of e owner -> exists c', c' ∈ claims_of e1 owner /\
      (cl_pending x = false -> cl_pending c' = false) /\ cl_ref c' = cl_ref x /\ cl_request c' = cl_request x) as Hown.
    { intros x Hx. rewrite Hcl, decide_True by done. apply list_elem_of_lookup in Hx as [j Hj].
      destruct (decide (j = i)) as [->|Hne].
      - exists (c <| cl_pending := false |>). assert (x = c) as -> by congruence. split_and!; try done.
        apply (list_elem_of_lookup_2 _ i). apply list_lookup_insert_eq. by apply lookup_lt_Some in Hi.
      - exists x. split_and!; try done. apply (list_elem_of_lookup_2 _ j). by rewrite list_lookup_insert_ne. }
    split; [done| |].
    + intros o x Hx Hp. destruct (decide (o = owner)) as [->|Hne].
      * destruct (Hown x Hx) as (c' & ? & ? & ? & ?). exists c'. auto.
      * exists x. by rewrite Hcl, decide_False.
    + exists (c <| cl_pending := false |>). split_and!; try done. rewrite Hcl, decide_True by done.
      apply (list_elem_of_lookup_2 _ i). apply list_lookup_insert_eq. by apply lookup_lt_Some in Hi.
  - assert (e1 = e) as -> by (unfold applyClaim in Ea; destruct (find_index _ _); by injection Ea).
    split; [done| |].
    + intros o x Hx Hp. exists x. rewrite claims_of_addClaim. case_decide as Ho; [|done].
      subst. split_and!; try done. apply elem_of_app. by left.
    + exists (mkClaim r (mode ref) ref false). rewrite claims_of_addClaim, decide_True by done.
      split_and!; try done. apply elem_of_app. right. by apply list_elem_of_singleton.
Qed.

Lemma remove_absent e id : id ∉ le_waiting e -> remove e id = e.
Proof.
  intros Hni. unfold remove. destruct (find_index _ _) as [i|] eqn:E; [|done].
  apply find_index_Some in E as (x & Hx & Hp & _). apply bool_decide_eq_true in Hp as ->.
  destruct Hni. by eapply list_elem_of_lookup_2.
Qed.

Lemma grant_entry_takes V W m r b i q e :
  inv none_exempt V W m -> r ∉ W -> m_requests m !! r = Some b -> b_entries b !! i = Some q ->
  q_state q = entryPending -> m_locks m !! ResourceKey (q_ref q) = Some e ->
  let m' := grant_entry r m i in
  kept_exactly (m_locks m) (m_locks m') /\ force_kept (m_locks m) (m_locks m') /\ holds m' r (b_OwnerID b) (q_ref q).
Proof.
  intros Hm HW Hr Hi Hs He. cbn zeta. set (k := ResourceKey (q_ref q)) in *.
  assert (q_ref q ∈ components b) as Hin by (apply list_elem_of_fmap_2; by apply (list_elem_of_lookup_2 _ i)).
  pose proof (taken_takes _ _ _ m k e r b (q_ref q) Hm He Hr Hin) as [Tw Tf To].
  set (e1 := taken e r (b_OwnerID b) (q_ref q)) in *.
  assert (m_locks (grant_entry r m i) = <[k := e1]> (m_locks m)) as EL.
  { unfold grant_entry. assert (deref (m_requests m) (r, i) = Some q) as -> by (apply deref_Some; eauto).
    assert (req_owner (m_requests m) (r, i) = b_OwnerID b) as -> by (unfold req_owner; cbn; by rewrite Hr).
    fold k. rewrite He, Hs.
    assert (remove e1 (r, i) = e1) as Erm.
    { apply remove_absent. rewrite Tw. intros Hq. destruct (iv_queue _ _ _ _ Hm k e _ He Hq) as [? _]. done. }
    unfold e1, taken in Erm |- *.
    destruct (applyClaim e r (b_OwnerID b) (q_ref q)) as [e2 [|]]; cbn; by rewrite Erm. }
  assert (entry_kept e e1) as Hek.
  { split; [done|]. intros o c Hc Hp. destruct (Tf o c Hc Hp) as (c' & ? & ? & ? & _). eauto. }
  rewrite EL. split_and!.
  - by apply (kept_exactly_put _ _ e).
  - intros k' e' o c He' Hc Hp. destruct (decide (k' = k)) as [->|Hne].
    + assert (e' = e) as -> by congruence. destruct (Tf o c Hc Hp) as (c' & ? & ? & ? & ?).
      exists e1, c'. by rewrite lookup_insert_eq.
    + exists e', c. by rewrite lookup_insert_ne.
  - destruct To as (c & Hc & Hp & Er & Eq). exists c. split; [|done]. exists k, e1. rewrite EL.
    by rewrite lookup_insert_eq.
Qed.

Lemma held_fold_other (l : list nat) (es : list lockRequest) (i : nat) :
  i ∉ l -> foldl (fun es i => alter held_entry i es) es l !! i = es !! i.
Proof.
  revert es. induction l as [|j l IH]; intros es; cbn [foldl]; [done|]. intros [Hne Hni]%not_elem_of_cons.
  rewrite IH by done. by rewrite list_lookup_alter_ne.
Qed.

Lemma grant_fold_takes V W r l m b :
  inv none_exempt V W m -> r ∉ W -> m_requests m !! r = Some b -> b_Status b = RequestPending ->
  all_pending b ->
  (forall i q, b_entries b !! i = Some q -> is_Some (m_locks m !! ResourceKey (q_ref q))) ->
  (forall i q, b_entries b !! i = Some q -> free_of (m_locks m) (b_OwnerID b) (q_ref q)) -> NoDup l ->
  let m' := foldl (grant_entry r) m l in
  kept_exactly (m_locks m) (m_locks m') /\ force_kept (m_locks m) (m_locks m') /\
  (forall i q, i ∈ l -> b_entries b !! i = Some q -> holds m' r (b_OwnerID b) (q_ref q)).
Proof.
  intros Hm HW Hr Hst Hp Hsome Hfree. cbn zeta. induction l as [|i l IH] using rev_ind.
  { intros _. split_and!; [apply kept_exactly_refl|apply force_kept_refl|by intros i q []%not_elem_of_nil]. }
  intros (Hnd & Hni & _)%NoDup_app. destruct (IH Hnd) as (K1 & F1 & H1). rewrite foldl_snoc.
  destruct (grant_fold V W r l m b Hm Hr Hst) as (Hm1 & Hg1 & n & Hr1);
    [by intros j q _ Hj _; eapply Hsome|by intros j q Hj _; eapply Hfree|].
  set (m1 := foldl (grant_entry r) m l) in *.
  assert (i ∉ l) as Hil by (intros Hx; apply (Hni i Hx); by left).
  destruct (b_entries b !! i) as [q|] eqn:Hi.
  - destruct (Hsome i q Hi) as [e0 He0]. destruct (granting_Some _ _ _ _ _ _ Hg1 He0) as [e He].
    set (b1 := b <| b_entries ::= _ |> <| b_held := n |>) in Hr1.
    assert (b_entries b1 !! i = Some q) as Hi1 by (cbn; by rewrite held_fold_other).
    destruct (grant_entry_takes V W m1 r b1 i q e Hm1 HW Hr1 Hi1 (Hp i q Hi) He) as (K2 & F2 & H2).
    split_and!; [by eapply kept_exactly_trans|by eapply force_kept_trans|].
    intros j q' [Hj| ->%list_elem_of_singleton]%elem_of_app Hq'.
    + apply (force_kept_holds m1); [done|]. by apply (H1 j).
    + assert (q' = q) as -> by congruence. done.
  - assert (grant_entry r m1 i = m1) as ->.
    { unfold grant_entry, deref. cbn. rewrite Hr1. cbn. by rewrite held_fold_other, Hi. }
    split_and!; [done..|]. intros j q' [Hj| ->%list_elem_of_singleton]%elem_of_app Hq'; [by apply (H1 j)|congruence].
Qed.

Lemma release_force t k : force_kept t (Queue.release t k).
Proof.
  intros k' e o c He Hc Hp. exists e, c. split_and!; try done. unfold Queue.release.
  destruct (t !! k) as [e0|] eqn:E; [|done]. destruct (bool_decide (le_claims e0 = ∅) && _) eqn:Eb; [|done].
  apply andb_true_iff in Eb as [Hem%bool_decide_eq_true _]. rewrite lookup_delete_ne; [done|].
  intros ->. assert (e0 = e) as -> by congruence. unfold claims_of in Hc. rewrite Hem in Hc. by apply not_elem_of_nil in Hc.
Qed.

Lemma prune_fold_force X V W l m : inv X V W m -> force_kept (m_locks m) (m_locks (foldl prune_key m l)).
Proof.
  revert m. induction l as [|k l IH]; intros m Hm; cbn [foldl]; [apply force_kept_refl|].
  eapply force_kept_trans; [|apply IH; by apply prune_key_inv].
  rewrite (prune_key_release _ _ _ _ _ Hm). apply release_force.
Qed.

(** A request granted as it arrives: nothing moves, and all it asked for is in force. *)
Lemma grantLocked_inline m r b :
  minv m -> grant_ready m r b -> r ∉ m_waiting m -> all_pending b ->
  table_kept (m_locks m) (m_locks (grantLocked m r)) /\
  force_kept (m_locks m) (m_locks (grantLocked m r)) /\
  (forall ref, ref ∈ components b -> holds (grantLocked m r) r (b_OwnerID b) ref).
Proof.
  intros Hm [Hr Hst Hent Hfree] HW Hp. unfold grantLocked. rewrite Hr, Hst.
  change (Terminal RequestPending) with false. cbn match.
  assert (forall i q, b_entries b !! i = Some q -> q_state q <> entryHeld) as Hnh
    by (intros i q Hi E; specialize (Hp i q Hi); congruence).
  set (l := seq 0 (length (b_entries b))).
  destruct (grant_fold _ _ r l m b Hm Hr Hst) as (Hm1 & _);
    [by intros; eapply Hent|done|].
  destruct (grant_fold_takes _ _ r l m b Hm HW Hr Hst Hp) as (K1 & F1 & H1).
  { intros i q Hi. apply (Hent i q Hi). by apply (Hnh i). }
  { intros i q Hi. apply (Hfree i q Hi). by apply (Hp i). }
  { apply NoDup_seq. }
  set (m1 := foldl (grant_entry r) m l) in *.
  destruct (prune_fold _ _ _ (resourceKeys b) m1 Hm1) as (_ & _ & Hsub).
  pose proof (prune_fold_force _ _ _ (resourceKeys b) m1 Hm1) as F2.
  set (m2 := foldl prune_key m1 _) in *. rewrite completeBundle_locks. split_and!.
  - eapply table_kept_trans; [by apply kept_exactly_table|]. intros k e He _. exists e.
    split; [by apply Hsub|apply entry_kept_refl].
  - by eapply force_kept_trans.
  - intros ref (q & -> & [i Hi]%list_elem_of_lookup)%list_elem_of_fmap. apply (force_kept_holds m2).
    { rewrite completeBundle_locks. apply force_kept_refl. }
    apply (force_kept_holds m1); [done|]. apply (H1 i); [|done]. apply elem_of_seq. apply lookup_lt_Some in Hi. lia.
Qed.
