(* ===== verification/ManagerLive.v ===== *)
(** * Every operation leaves the manager idle

    The operations that [ManagerIdle] does not cover, the theorem of what a waiting request waits
    for, and what an acquisition that does not wait promises. *)

From stdpp Require Import gmap list sorting strings fin_maps.
From S2P Require Import Prelude LockTypes Interval Resource Compat ScopeTree Ledger Queue Graph Manager.
From S2P Require Import ManagerInv ManagerPass ManagerOps ManagerPaid ManagerRuns ManagerSteps ManagerIdle ManagerGrant.

Section Live.
Context `{MapRange}.

(** ** Acquiring *)

Lemma grows_kept t t' : table_grows t t' -> table_kept t t'.
Proof.
  intros Hg k e He Hw. specialize (Hg k). destruct (t !! k) as [e0|].
  - exists e0. split; [done|]. assert (e = e0) as -> by congruence. apply entry_kept_refl.
  - destruct Hg as [?|[ref E]]; [congruence|]. rewrite E in He. by injection He as <-.
Qed.

(** A request that has arrived moves nothing. *)
Lemma arriving_tighter m m2 rootID refs mayWait r b :
  good m -> arriving m m2 rootID refs mayWait r b -> tighter m m2.
Proof.
  intros Hm Ha. pose proof (arriving_not_waiting _ _ _ _ _ _ _ Hm Ha) as Hnw.
  destruct (ar_others _ _ _ _ _ _ _ Ha) as [b0 Hb]. split.
  - by rewrite (ar_waiting _ _ _ _ _ _ _ Ha).
  - intros r' b' Hw Hb' _. destruct (heap_benign_Some_inv _ _ _ _ Hb Hb') as (b1 & Hb1 & Hbb).
    apply lookup_insert_Some in Hb1 as [[<- _]|[_ ?]]; [done|eauto].
  - by eapply arriving_evolves.
  - apply (ar_accounts _ _ _ _ _ _ _ Ha).
  - apply grows_kept, Ha.
Qed.

Lemma refuse_locks m r token k e :
  good m -> m_locks (refuse_request m r token) !! k = Some e -> m_locks m !! k = Some e.
Proof.
  intros Hm He. pose (m1 := m <| m_ledger ::= fun l => Ledger.Release l token |>).
  assert (good m1) as Hm1 by (by apply good_ledger). unfold refuse_request in He.
  eapply (release_fold _ m1 Hm1). exact He.
Qed.

Lemma refuse_accounts m r token : accounts m (refuse_request m r token).
Proof.
  unfold refuse_request. cbn zeta. set (m1 := m <| m_ledger ::= fun l => Ledger.Release l token |>).
  assert (accounts m m1) as H1 by (apply accounts_ledger; [apply ledger_on_release|done]). etrans; [exact H1|].
  set (keys := from_option _ _ _). transitivity (foldl release_lock m1 keys).
  - apply (accounts_fold id release_lock). intros. by apply accounts_same.
  - apply accounts_requests; [done|]. intros r' b Hb.
    change (delete r (m_requests (foldl release_lock m1 keys)) !! r' = Some b) in Hb. apply lookup_delete_Some in Hb
      as [_ Hb]. eauto.
Qed.

Lemma enqueue_accounts m r blocked : accounts m (enqueueLocked m r blocked).
Proof.
  unfold enqueueLocked. destruct (m_requests m !! r) as [b|]; [|reflexivity]. cbn zeta.
  transitivity (foldl (enqueue_entry r blocked) m (seq 0 (length (b_entries b)))).
  - apply (accounts_fold id (enqueue_entry r blocked)). intros x i. unfold enqueue_entry.
    destruct (deref _ _) as [q|]; [|reflexivity]. cbn zeta.
    set (h := on_entry (m_requests x) (r, i) (fun q => q <| q_blocked := bool_decide (i ∈ blocked) |>)).
    assert (res_kept (m_requests x) h) as Hk by apply res_kept_entry.
    destruct (m_locks _ !! _); by apply accounts_requests.
  - apply accounts_requests; [done|]. by apply res_kept_alter.
Qed.

Lemma queue_accounts m rootID r blocked : accounts m (queue_request m rootID r blocked).
Proof.
  assert (forall x f, (forall b, b_reservation (f b) = b_reservation b) -> accounts x (on_bundle x r f)) as Hon
    by (intros; apply accounts_requests; [done|by apply res_kept_alter]).
  unfold queue_request. cbn zeta. etrans; [|by apply Hon]. etrans; [|apply enqueue_accounts].
  etrans; [|apply Hon; intros b; by destruct (_ =? 0)]. by apply Hon.
Qed.

Lemma wait_accounts m rootID r blocked : accounts m (wait_request m rootID r blocked).1.
Proof.
  rewrite wait_request_eq. cbn zeta. unfold advanceLocked.
  assert (accounts m (retryWaitingLocked (queue_request m rootID r blocked))) as Hw
    by (etrans; [apply queue_accounts|apply retryWaiting_accounts]).
  destruct (m_requests _ !! r) as [b|]; [|done]. by destruct (complete b).
Qed.

Lemma inline_accounts m r token : accounts m (grant_inline m r token).1.
Proof.
  unfold grant_inline. cbn zeta. etrans; [apply (grantLocked_accounts m r)|].
  destruct (m_requests (grantLocked m r) !! r) as [b|]; [|reflexivity]. destruct (negb _); [|reflexivity].
  apply accounts_ledger; [apply ledger_on_release|done].
Qed.

Lemma acquire_new_accounts m rootID scopeID refs mayWait :
  good m -> bundle_refs refs -> accounts m (acquire_new m rootID scopeID refs mayWait).1.
Proof.
  intros Hm Hrefs. destruct (acquire_new_cases m rootID scopeID refs mayWait Hm Hrefs)
    as [l e HL -> |m2 r b token Ha _ -> |m2 r b blocked Ha _ -> |m2 r b token Ha Hready ->].
  - by apply accounts_ledger.
  - etrans; [apply Ha|apply refuse_accounts].
  - etrans; [apply Ha|apply wait_accounts].
  - etrans; [apply Ha|apply inline_accounts].
Qed.

Lemma refuse_tighter m m2 rootID refs mayWait r b token :
  good m -> arriving m m2 rootID refs mayWait r b -> tighter m (refuse_request m2 r token).
Proof.
  intros Hm Ha. destruct (arriving_tighter _ _ _ _ _ _ _ Hm Ha) as [TW TR TE TF TT].
  pose proof (ac_ledger _ _ (refuse_accounts m2 r token)) as HL.
  assert (sound m (refuse_request m2 r token)) as Hs
    by (by apply (refuse_sound m m2); [|apply Ha|apply Ha|apply Ha|eapply arriving_evolves|apply Ha]).
  split.
  - by rewrite refuse_waiting.
  - intros r' b' Hw Hb' Hc. rewrite refuse_waiting in Hw. rewrite refuse_requests in Hb'.
    apply lookup_delete_Some in Hb' as [_ Hb']. apply TR;
      [done..|]. intros E. specialize (Hc E). apply lo_refusals in HL. unfold refusals in *. lia.
  - apply Hs.
  - apply lo_refusals in HL. unfold refusals in *. lia.
  - eapply table_kept_trans; [exact TT|]. intros k e He _. exists e. split; [|apply entry_kept_refl].
    apply (refuse_locks m2 r token k e); [apply Ha|exact He].
Qed.

Lemma grantLocked_waiting m r : r ∉ m_waiting m -> m_waiting (grantLocked m r) = m_waiting m.
Proof.
  intros Hr. unfold grantLocked. destruct (m_requests m !! r) as [b|]; [|done]. destruct (Terminal _); [done|].
  assert (forall l x, m_waiting (foldl (grant_entry r) x l) = m_waiting x) as Hg.
  { induction l as [|i l IH]; intros x; cbn [foldl]; [done|]. rewrite IH. unfold grant_entry.
    destruct (deref _ _) as [q|]; [|done]. destruct (m_locks x !! _) as [e|]; [|done].
    destruct (q_state q); try done. by destruct (applyClaim _ _ _ _) as [e1 [|]]. }
  assert (forall l x, m_waiting (foldl prune_key x l) = m_waiting x) as Hp.
  { induction l as [|k l IH]; intros x; cbn [foldl]; [done|]. rewrite IH. unfold prune_key. by destruct (m_locks x !! k). }
  cbn zeta. destruct (completeBundle_waiting (foldl prune_key (foldl (grant_entry r) m
    (seq 0 (length (b_entries b)))) (resourceKeys b)) r) as [-> | ->]; rewrite Hp, Hg; [done|set_solver].
Qed.

Lemma wait_idle m rootID r blocked :
  good (queue_request m rootID r blocked) -> paid m -> idle (wait_request m rootID r blocked).1.
Proof.
  intros Hm Hp. rewrite wait_request_eq. cbn zeta. unfold advanceLocked.
  pose proof (retryWaiting_idle _ (gd_inv _ Hm) (accounts_paid _ _ (queue_accounts m rootID r blocked) Hp))
    as Hi. destruct (m_requests _ !! r) as [b|]; [|done].
  by destruct (complete b).
Qed.

Lemma acquire_new_calm m rootID scopeID refs mayWait :
  good m -> bundle_refs refs -> calm m (acquire_new m rootID scopeID refs mayWait).1.
Proof.
  intros Hm Hrefs. split; [| |intros Hp].
  { pose proof (acquire_new_sound m rootID scopeID refs mayWait Hm Hrefs) as Hs. by destruct (acquire_new _ _ _ _ _), Hs. }
  { by apply acquire_new_accounts. }
  destruct (acquire_new_cases m rootID scopeID refs mayWait Hm Hrefs)
    as [l e HL -> |m2 r b token Ha _ -> |m2 r b blocked Ha _ -> |m2 r b token Ha Hready ->].
  - apply idle_same; [done..|]. apply HL.
  - apply tighter_idle; [apply Hm|by eapply refuse_tighter].
  - intros _. apply wait_idle; [|by apply (accounts_paid m); [apply Ha|]]. apply (queue_request_good m2 rootID r b);
    try apply Ha. by eapply arriving_not_waiting.
  - destruct (grant_inline_sound m2 rootID refs r b token) as (m3 & g & E & _); try apply Ha; [done|].
    assert (m3 = grantLocked m2 r) as Em.
    { unfold grant_inline in E. destruct (m_requests (grantLocked m2 r) !! r) as [b'|]; [|done].
      destruct (negb (complete b')); [done|by injection E]. }
    rewrite E. cbn [fst]. subst m3. intros Hi.
    apply (tighter_idle m2); [apply Ha| |by apply (tighter_idle m); [apply Hm|eapply arriving_tighter|]].
    destruct (grantLocked_spec m2 r b) as (Hq & _ & b' & Eb & Hc'); [apply Ha|done|].
    pose proof (arriving_not_waiting _ _ _ _ _ _ _ Hm Ha) as Hnw.
    destruct (grantLocked_inline m2 r b) as (Ht & _); [apply Ha|done|done|apply Ha|].
    split; [apply Hq| |apply Hq|apply grantLocked_accounts|done].
    intros r' b1 Hw Hb1 _. rewrite Eb in Hb1. apply lookup_insert_Some in Hb1 as [[<- _]|[_ ?]];
      [rewrite grantLocked_waiting in Hw; done|].
    exists b1. split; [done|apply benign_refl].
Qed.

(** The calls of [AcquireWith] that change nothing, join a queued request, or make a new one. *)
Inductive acquire_path (m : manager) (rootID : bytes) (scopeID : Z) (wanted : list ResourceRef)
    (mayWait : option bool) (res : manager * result lock_error AcquireResult) : Prop :=
  | path_error e : res = (m, Err e) -> acquire_path m rootID scopeID wanted mayWait res
  | path_reentrant g :
      forallb (claimSatisfiedByOwner m rootID) (DedupeResourceRefs wanted) = true ->
      res = (m, Ok (LockOpReentrant g)) -> acquire_path m rootID scopeID wanted mayWait res
  | path_join r b h :
      mayWait <> Some false -> m_requests m !! r = Some b ->
      res = (m <| m_requests ::= <[r := (joinFor b scopeID).1]> |>, Ok (LockOpWait h)) ->
      acquire_path m rootID scopeID wanted mayWait res
  | path_new :
      bundle_refs (DedupeResourceRefs wanted) ->
      res = acquire_new m rootID scopeID (DedupeResourceRefs wanted) mayWait ->
      acquire_path m rootID scopeID wanted mayWait res.

Lemma AcquireWith_path m ctxDone rootID scopeID wanted mayWait :
  Forall sized wanted ->
  acquire_path m rootID scopeID wanted mayWait (AcquireWith m ctxDone rootID scopeID wanted mayWait).
Proof.
  intros Hsz. unfold AcquireWith. destruct ctxDone; [by eapply path_error|].
  destruct (m_owners m !! rootID) as [owner|]; [|by eapply path_error].
  destruct (negb _); [by eapply path_error|].
  destruct (verifyScope m rootID scopeID); [|by eapply path_error].
  destruct (ValidateBundle wanted _) as [[]|e] eqn:Ev; [|by eapply path_error].
  apply ValidateBundle_ok in Ev as (Hne & Hval & _). cbn zeta.
  assert (bundle_refs (DedupeResourceRefs wanted)) as Hrefs.
  { destruct (Dedupe_bundle wanted) as (? & ? & ?); [|by split_and!; auto].
    apply Forall_forall. intros c Hc. split; [by apply Hval|]. by apply (proj1 (Forall_forall _ _) Hsz). }
  destruct (forallb _ _) eqn:Ef; [by eapply path_reentrant|].
  destruct (joinableRequestLocked m rootID (DedupeResourceRefs wanted)) as [[r b]|] eqn:Ej; [|by apply path_new].
  case_bool_decide as Hw; [by eapply path_error|].
  destruct (joinable_spec _ _ _ _ _ _ Ej) as [?|(Hr & _)]; [done|].
  apply (path_join _ _ _ _ _ _ r b (mkHandle r (b_EnqueueOrdinal (joinFor b scopeID).1) false (Some (joinFor b scopeID).2)));
    [done..|]. by destruct (joinFor b scopeID).
Qed.

Lemma joinFor_benign b scopeID : benign b (joinFor b scopeID).1.
Proof. unfold joinFor. destruct (b_joins b !! scopeID); [apply benign_refl|by apply benign_fields]. Qed.

Lemma AcquireWith_calm m ctxDone rootID scopeID wanted mayWait :
  good m -> Forall sized wanted -> calm m (AcquireWith m ctxDone rootID scopeID wanted mayWait).1.
Proof.
  intros Hm Hsz.
  assert (sound m (AcquireWith m ctxDone rootID scopeID wanted mayWait).1) as Hs0.
  { pose proof (AcquireWith_sound m ctxDone rootID scopeID wanted mayWait Hm Hsz) as Hs.
    by destruct (AcquireWith _ _ _ _ _ _), Hs. }
  destruct (AcquireWith_path m ctxDone rootID scopeID wanted mayWait Hsz)
    as [e E|g _ E|r b h _ Hr E|Hrefs E]; rewrite E in *; clear E.
  - by apply calm_refl.
  - by apply calm_refl.
  - cbn [fst] in *. assert (heap_benign (m_requests m) (<[r := (joinFor b scopeID).1]> (m_requests m))) as Hb.
    { intros r'. destruct (decide (r' = r)) as [->|Hne]; [rewrite lookup_insert_eq, Hr; apply joinFor_benign|].
      rewrite lookup_insert_ne by done. apply heap_benign_refl. }
    split; [done|apply accounts_requests; [done|by apply res_kept_benign]|]. intros _. apply tighter_idle; [apply Hm|].
    apply tighter_benign; [done|exact Hb|done|apply table_kept_refl].
  - by apply acquire_new_calm.
Qed.

(** ** The graph *)

Lemma anonID_accounts m k : accounts m (anonIDLocked m k).1.
Proof.
  unfold anonIDLocked. destruct (m_locks m !! k) as [e|]; [|reflexivity]. destruct (_ =? 0); [|reflexivity].
  cbn [fst]. destruct (_ <? _); by apply accounts_same.
Qed.

Lemma anonID_calm m k : good m -> calm m (anonIDLocked m k).1.
Proof.
  intros Hm. split; [by apply anonID_sound|apply anonID_accounts|]. intros _. unfold anonIDLocked.
  destruct (m_locks m !! k) as [e|] eqn:He; [|done]. destruct (le_anonID e =? 0); [|done]. cbn [fst].
  apply tighter_idle; [apply Hm|]. set (m1 := if _ <? _ then _ else m).
  assert (m_locks m1 = m_locks m /\ m_requests m1 = m_requests m /\ m_waiting m1 = m_waiting m) as (EL & ER & EW)
    by (unfold m1; by destruct (_ <? _)).
  apply tighter_benign; [cbn; by rewrite EW|cbn; rewrite ER; apply heap_benign_refl|unfold refusals, m1; by destruct (_ <? _)|].
  cbn. rewrite EL. apply kept_exactly_table, (kept_exactly_put _ _ e); [done|]. split; [done|]. eauto.
Qed.

Lemma rebuild_entry_calm acc id : good acc.1.1 -> calm acc.1.1 (rebuild_entry acc id).1.1.
Proof.
  destruct acc as [[m byRoot] seen]. cbn [fst]. intros Hm. unfold rebuild_entry.
  destruct (deref _ _) as [q|]; [|by apply calm_refl]. cbn zeta.
  destruct (m_locks m !! _); [|by apply calm_refl].
  pose proof (anonID_calm m (ResourceKey (q_ref q)) Hm) as H1.
  destruct (anonIDLocked m (ResourceKey (q_ref q))) as [m1 anon]. cbn [fst] in H1.
  destruct (m_locks m1 !! _); [|done]. by destruct (entry_edges _ _ _ _ _).
Qed.

Lemma ensureGraph_calm m : good m -> calm m (ensureGraphLocked m).
Proof.
  intros Hm. unfold ensureGraphLocked. destruct (negb _); [by apply calm_refl|].
  unfold rebuildGraphNowLocked. cbn zeta.
  assert (forall l acc, good acc.1.1 -> calm acc.1.1 (foldl rebuild_entry acc l).1.1) as Hfold.
  { induction l as [|id l IH]; intros acc Hacc; cbn [foldl]; [by apply calm_refl|].
    pose proof (rebuild_entry_calm acc id Hacc) as H1. eapply calm_trans; [exact H1|]. by apply IH, (calm_good acc.1.1). }
  specialize (Hfold (mjoin ((fun kv : bytes * gset entryID => range_set (S (m_tick m)) kv.2) <$>
    range (m_tick m) (m_pending m))) (next_tick m, ∅, ∅)). cbn [fst] in Hfold.
  assert (good (next_tick m)) as Hn by (by apply (good_same m)). specialize (Hfold Hn).
  destruct (foldl rebuild_entry _ _) as [[m1 byRoot] seen]. cbn [fst] in Hfold.
  eapply calm_trans; [by apply (calm_same m (next_tick m))|]. eapply calm_trans; [exact Hfold|].
  apply (calm_same m1); try done. by apply (calm_good (next_tick m)).
Qed.

Lemma DetectDeadlock_calm m : good m -> calm m (DetectDeadlock m).1.
Proof.
  intros Hm. unfold DetectDeadlock. set (m0 := m <| m_detectRuns ::= succ64 |>). cbn zeta.
  assert (calm m (ensureGraphLocked m0)) as H1.
  { eapply calm_trans; [by apply (calm_same m m0)|]. apply ensureGraph_calm. by apply (good_same m). }
  set (m1 := ensureGraphLocked m0) in *. pose proof (calm_good _ _ H1) as Hm1.
  destruct (detectCycle _ _ _) as [[[cycle es] exh]|]; [|done]. destruct exh; [done|].
  destruct (bool_decide _); [done|]. destruct (existsb _ _); [done|].
  destruct (pickVictim _ _) as [[victim ord]|]; [|done]. destruct (bool_decide _); [done|].
  set (m2 := m1 <| m_deadlocks ::= _ |> <| m_deadlocked ::= _ |>).
  set (m3 := markAbortLocked m2 victim AbortDeadlock).
  destruct (markAbort_same m2 victim AbortDeadlock) as (E1 & E2 & E3 & E4 & E5).
  assert (m_ledger m3 = m_ledger m1) as E6 by (unfold m3, markAbortLocked; by repeat case_match).
  assert (calm m1 m3) as H3 by (by apply (calm_same m1); rewrite ?E6).
  set (f := fun b => _). pose proof (cancel_calm m3 f RequestDeadlockVictim (calm_good _ _ H3)) as Hc.
  destruct (cancelRequestsLocked m3 f RequestDeadlockVictim) as [m4 n]. cbn [fst] in *.
  assert (calm m3 m4) as H4 by (by apply Hc).
  eapply calm_trans; [exact H1|]. eapply calm_trans; [exact H3|]. eapply calm_trans; [exact H4|].
  apply (calm_same m4); try done. by apply (calm_good m3).
Qed.

(** ** Releasing, epochs and shutdown *)

(** Claims leave one entry, the ledger is told, and the fair pass runs. *)
Lemma advance_calm m m1 k :
  sound m m1 -> accounts m m1 -> calm m (release_lock (advanceEntryLocked m1) k).
Proof.
  intros Hs Ha. split.
  - eapply sound_trans; [exact Hs|]. apply advance_release_sound, Hs.
  - etrans; [exact Ha|apply advance_accounts].
  - intros Hp _. apply advance_release_idle; [apply Hs|by apply (accounts_paid m)].
Qed.

Lemma release_owner_key_calm o rk m k : good m -> calm m (release_owner_key o rk m k).
Proof.
  intros Hm. unfold release_owner_key.
  destruct (m_locks m !! k) as [e|] eqn:He; [|by apply calm_refl]. destruct (_ && _); [by apply calm_refl|].
  pose proof (dropAllClaims_fewer e o) as Hf. pose proof (dropAllClaims_ref e o) as Hr.
  pose proof (dropAllClaims_waiting e o) as Hw.
  pose proof (dropAllClaims_indexed e o (iv_index _ _ _ _ (gd_inv _ Hm) _ _ He)) as Hi.
  destruct (dropAllClaims e o) as [e1 [|]]; [|by apply calm_refl]. cbn [fst] in *.
  apply advance_calm; [by apply (drop_sound m k e)|by apply accounts_same].
Qed.

Lemma releaseGrants_calm m o rk : good m -> calm m (releaseGrantsLocked m o rk).
Proof.
  intros Hm. unfold releaseGrantsLocked. eapply calm_trans; [by apply (calm_same m (next_tick m))|].
  apply calm_fold; [apply release_owner_key_calm|by apply (good_same m)].
Qed.

Lemma Release_calm m o ref : good m -> calm m (Manager_Release m o ref).1.
Proof.
  intros Hm. unfold Manager_Release. destruct (m_owners m !! o); [|by apply calm_refl]. cbn zeta.
  destruct (m_locks m !! ResourceKey ref) as [e|] eqn:He; [|by apply calm_refl].
  pose proof (dropClaimForOwner_fewer e o ref) as Hf. pose proof (dropClaimForOwner_ref e o ref) as Hr.
  pose proof (dropClaimForOwner_waiting e o ref) as Hw.
  pose proof (dropClaimForOwner_indexed e o ref (iv_index _ _ _ _ (gd_inv _ Hm) _ _ He)) as Hi.
  destruct (dropClaimForOwner e o ref) as [e1 [|]]; [|by apply calm_refl]. cbn [fst] in *.
  set (m1 := put_lock m _ e1). assert (sound m m1) as H1 by (by apply (drop_sound m _ e)). apply advance_calm.
  - eapply sound_trans; [exact H1|]. apply (sound_same m1); [apply H1|done..].
  - apply accounts_ledger; [apply ledger_on_grant|done].
Qed.

Lemma ReleaseOwner_calm m o : good m -> calm m (ReleaseOwnerLocked m o).
Proof.
  intros Hm. unfold ReleaseOwnerLocked.
  set (m0 := m <| m_owners ::= _ |> <| m_scopes ::= _ |> <| m_abortRequested ::= _ |> <| m_deadlocked ::= _ |>).
  cbn zeta. assert (calm m m0) as H0 by (by apply (calm_same m)).
  pose proof (releaseGrants_calm m0 o [] (calm_good _ _ H0)) as H1. set (m1 := releaseGrantsLocked m0 o []) in *.
  set (f := fun b => _). pose proof (cancel_calm m1 f RequestCanceled (calm_good _ _ H1)) as Hc.
  destruct (cancelRequestsLocked m1 f RequestCanceled) as [m2 n]. cbn [fst] in *.
  assert (calm m1 m2) as H2 by (by apply Hc).
  eapply calm_trans; [exact H0|]. eapply calm_trans; [exact H1|]. eapply calm_trans; [exact H2|].
  apply (calm_same m2); try done. by apply (calm_good m1).
Qed.

Lemma refund_calm m o : good m -> calm m (refund m o).
Proof. intros Hm. apply (calm_same m); try done. apply ledger_on_owner. Qed.

Lemma end_owner_calm l acc : good acc.1.1 -> calm acc.1.1 (foldl end_owner acc l).1.1.
Proof.
  revert acc. induction l as [|kv l IH]; intros acc Hm; cbn [foldl]; [by apply calm_refl|].
  assert (calm acc.1.1 (end_owner acc kv).1.1) as H1.
  { destruct acc as [[m ended] n]. unfold end_owner. cbn [fst] in *.
    destruct (bool_decide _); [by apply calm_refl|]. by apply (calm_same m). }
  eapply calm_trans; [exact H1|]. by apply IH, (calm_good acc.1.1).
Qed.

Lemma ResetEpoch_calm m g t : good m -> calm m (ResetEpochLocked m g t).1.1.
Proof.
  intros Hm. unfold ResetEpochLocked. set (m0 := m <| m_generation := g |> <| m_term := t |>). cbn zeta.
  assert (calm m (next_tick m0)) as H0 by (by apply (calm_same m)).
  pose proof (end_owner_calm (range (m_tick m0) (m_owners m0)) (next_tick m0, [], 0) (calm_good _ _ H0)) as H1.
  destruct (foldl end_owner _ _) as [[m1 ended] n]. cbn [fst] in H1.
  pose proof (cancel_calm m1 (fun _ => true) RequestInvalidated (calm_good _ _ H1)) as H2.
  destruct (cancelRequestsLocked m1 _ _) as [m2 n2]. cbn [fst] in *.
  assert (calm m1 m2) as H2' by (by apply H2).
  assert (calm m2 (foldl (fun m rootID => releaseGrantsLocked m rootID []) m2 ended)) as H3.
  { apply calm_fold; [|by apply (calm_good m1)]. intros x o Hx. by apply releaseGrants_calm. }
  set (m3 := foldl _ m2 ended) in *.
  eapply calm_trans; [exact H0|]. eapply calm_trans; [exact H1|]. eapply calm_trans; [exact H2'|].
  eapply calm_trans; [exact H3|].
  set (m4 := m3 <| m_graph ::= clear |> <| m_deadlocked := ∅ |> <| m_invalidated ::= succ64 |>
               <| m_bindings ::= fun b => Bindings_Reset b g |>).
  assert (calm m3 m4) as H4 by (apply (calm_same m3); try done; by apply (calm_good m2)).
  exact H4.
Qed.

Lemma Close_calm m : good m -> calm m (Manager_Close m).
Proof.
  intros Hm. pose proof (Close_sound m Hm) as Hs. unfold Manager_Close in *. destruct (m_closed m); [by apply calm_refl|].
  cbn zeta in *. match goal with |- context [cancelRequestsLocked ?x ?f ?st] => pose proof (cancel_accounts x f st) as Hc end.
  destruct (cancelRequestsLocked _ _ _) as [m1 n]. cbn [fst] in Hc. split; [exact Hs| |].
  - etrans; [|etrans; [exact Hc|]]; [by apply accounts_same|]. apply accounts_ledger; [apply ledger_on_all|done].
  - intros _ _ r b [_ Hw _ _]. cbn in Hw. by apply not_elem_of_empty in Hw.
Qed.

Lemma RegisterOwner_calm m o g t ts : good m -> calm m (RegisterOwner m o g t ts).1.
Proof.
  intros Hm. pose proof (RegisterOwner_sound m o g t ts Hm) as Hs.
  pose proof (ledger_on_fixed (m_ledger m) ownerFixedBytes o) as Hl. unfold RegisterOwner in *.
  repeat (case_match; try by apply calm_refl); by apply (calm_same m).
Qed.

Lemma OpenScope_calm m o x p k d w : good m -> calm m (OpenScopeWithBudget m o x p k d w).1.
Proof.
  intros Hm. pose proof (OpenScopeWithBudget_sound m o x p k d w Hm) as Hs.
  pose proof (ledger_on_fixed (m_ledger m) scopeFixedBytes o) as Hl. unfold OpenScopeWithBudget in *.
  destruct (m_owners m !! o); [|by apply calm_refl]. destruct (bool_decide _); [by apply calm_refl|]. cbn zeta in *.
  destruct (OpenWithBudget _ _ _ _ _ _ _ _) as [tree [scope|e]]; [|by apply (calm_same m)].
  change (m_ledger (put_tree m o tree)) with (m_ledger m) in *.
  destruct (ChargeFixed _ _ _) as [ledger [u|err]]; by apply (calm_same m).
Qed.

Lemma step_calm m op : good m -> op_sized op -> calm m (step m op).
Proof.
  intros Hm Hop. pose proof (step_sound m op Hm Hop) as Hs. destruct op; cbn [step] in *;
    try (by apply (calm_same m)).
  - by apply RegisterOwner_calm.
  - apply (calm_same m); try done; unfold RequestAbort; repeat (case_match; try done).
  - apply (calm_same m); try done; unfold MarkFinishing; repeat (case_match; try done).
  - by apply OpenScope_calm.
  - by apply BeginCloseScope_calm.
  - by apply CloseScope_calm.
  - by apply AcquireWith_calm.
  - by apply Cancel_calm.
  - by apply withdraw_calm.
  - by apply timeOut_calm.
  - by apply checkDeadlines_calm.
  - by apply DetectDeadlock_calm.
  - by apply ensureGraph_calm.
  - unfold Manager_Stats. cbn [fst]. eapply calm_trans; [by apply ensureGraph_calm|].
    apply ensureGraph_calm. by apply (calm_good m), ensureGraph_calm.
  - by apply Release_calm.
  - by apply ReleaseOwner_calm.
  - by apply refund_calm.
  - by apply ResetEpoch_calm.
  - by apply Close_calm.
Qed.

Lemma reachable_idle m : reachable m -> idle m.
Proof.
  intros (l & g & now & m0 & ops & Hnew & Hops & ->).
  assert (good m0 /\ paid m0 /\ idle m0) as (Hg & Hp & Hi).
  { split; [by apply (newManager_good l g now)|]. unfold newManager, NewLedger in Hnew.
    destruct (Resolve l); [|done]. injection Hnew as <-. split; [by split|]. intros r b [Hr _ _ _]. done. }
  clear Hnew. revert m0 Hg Hp Hi. unfold run. induction Hops as [|op ops Hop _ IH]; intros m0 Hg Hp Hi; cbn [foldl]; [done|].
  pose proof (step_calm m0 op Hg Hop) as Hc.
  apply IH; [by apply (calm_good m0)|by apply (accounts_paid m0), Hp; apply Hc|by apply Hc].
Qed.

(** ** Acquisitions that do not wait *)

(** Growing the table by empty entries and dropping empty ones changes nothing in force. *)
Lemma refuse_force m m2 rootID refs mayWait r b token o c :
  arriving m m2 rootID refs mayWait r b -> in_force (refuse_request m2 r token) o c <-> in_force m o c.
Proof.
  intros Ha. split.
  - intros (k & e & He & Hc & Hp). exists k, e. split_and!; [|done..].
    apply (refuse_locks m2 r token) in He; [|apply Ha]. by apply (grows_claims _ _ k e o c (ar_grows _ _ _ _ _ _ _ Ha)).
  - intros (k & e & He & Hc & Hp). exists k, e. split_and!; [|done..].
    pose proof (ar_grows _ _ _ _ _ _ _ Ha k) as Hg. rewrite He in Hg.
    assert (forall l m3, m_locks m3 !! k = Some e -> m_locks (foldl release_lock m3 l) !! k = Some e) as Hrel;
      [|by apply Hrel]. clear Hg He. intros l m3 H3. revert m3 H3. induction l as [|k0 l IH]; intros x Hx; cbn [foldl]; [done|].
    apply IH. cbn. unfold Queue.release. destruct (m_locks x !! k0) as [e0|] eqn:E0; [|done].
    destruct (bool_decide (le_claims e0 = ∅) && _) eqn:Eb; [|done].
    apply andb_true_iff in Eb as [Hem%bool_decide_eq_true _]. rewrite lookup_delete_ne; [done|].
    intros ->. assert (e0 = e) as -> by congruence. unfold claims_of in Hc. rewrite Hem in Hc. by apply not_elem_of_nil in Hc.
Qed.

Lemma refuse_exact m m2 rootID refs mayWait r b token :
  arriving m m2 rootID refs mayWait r b -> m_requests (refuse_request m2 r token) = m_requests m.
Proof.
  intros Ha. rewrite refuse_requests. apply map_eq. intros r'. destruct (decide (r' = r)) as [->|Hne].
  - by rewrite lookup_delete_eq, (ar_fresh _ _ _ _ _ _ _ Ha).
  - by rewrite lookup_delete_ne, (ar_exact _ _ _ _ _ _ _ Ha).
Qed.

Lemma satisfied_in_force m rootID refs ref :
  forallb (claimSatisfiedByOwner m rootID) refs = true -> ref ∈ refs ->
  exists c, in_force m rootID c /\ SameClaim (cl_ref c) ref = true /\ upgradeNeeded (mode ref) (cl_mode c) = false.
Proof.
  intros Hf Hin. rewrite forallb_forall in Hf. specialize (Hf ref (proj1 (list_elem_of_In _ _) Hin)).
  unfold claimSatisfiedByOwner in Hf. destruct (m_locks m !! ResourceKey ref) as [e|] eqn:He; [|done].
  apply existsb_exists in Hf as (c & Hc%list_elem_of_In & Hb). bool_prop. exists c. split_and!; try done.
  by exists (ResourceKey ref), e.
Qed.

(** The grant of a request that did not wait, and what it left. *)
Lemma inline_granted m m2 rootID refs mayWait r b token :
  good m -> arriving m m2 rootID refs mayWait r b -> grant_ready m2 r b ->
  exists m' g, grant_inline m2 r token = (m', Ok (LockOpGranted g)) /\ m_waiting m' = m_waiting m /\
    GrantOwnerID g = rootID /\ GrantComponents g = refs /\
    forall ref, ref ∈ refs -> exists c, in_force m' rootID c /\ cl_ref c = ref.
Proof.
  intros Hm Ha Hready. pose proof (arriving_not_waiting _ _ _ _ _ _ _ Hm Ha) as Hnw.
  destruct (grant_inline_sound m2 rootID refs r b token) as (m3 & g & E & _ & Hg); try apply Ha; [done|].
  assert (m3 = grantLocked m2 r) as ->.
  { unfold grant_inline in E. destruct (m_requests (grantLocked m2 r) !! r) as [b'|]; [|done].
    destruct (negb (complete b')); [done|by injection E]. }
  exists (grantLocked m2 r), g. destruct Hg as (Ho & Hc & _). split_and!; try done.
  - by rewrite grantLocked_waiting, (ar_waiting _ _ _ _ _ _ _ Ha).
  - destruct (grantLocked_inline m2 r b) as (_ & _ & Hh); [apply Ha|done..|apply Ha|].
    rewrite <- (ar_owner _ _ _ _ _ _ _ Ha), <- (ar_components _ _ _ _ _ _ _ Ha). intros ref Hin.
    destruct (Hh ref Hin) as (c & ? & ? & _). by exists c.
Qed.

(** ** Properties *)


(** An acquisition that may not wait is all or nothing.  [TryAcquire] never leaves a request
    waiting.  If it grants, every component asked for is in force for the owner; if it answers
    re-entrantly, every component was already satisfied by a claim in force and nothing changes; if
    it refuses, no queue, no claim in force and no request changes. *)
Theorem try_acquire_all_or_nothing m ctxDone rootID scopeID wanted
    (Hm : reachable m) (Hsz : Forall sized wanted) :
  let '(m', res) := TryAcquire m ctxDone rootID scopeID wanted in
  m_waiting m' = m_waiting m /\
  match res with
  | Ok (LockOpGranted g) => GrantOwnerID g = rootID /\ GrantComponents g = DedupeResourceRefs wanted /\
      forall ref, ref ∈ DedupeResourceRefs wanted -> exists c, in_force m' rootID c /\ cl_ref c = ref
  | Ok (LockOpReentrant g) => m' = m /\ forall ref, ref ∈ DedupeResourceRefs wanted ->
      exists c, in_force m rootID c /\ SameClaim (cl_ref c) ref = true /\ upgradeNeeded (mode ref) (cl_mode c) = false
  | Ok (LockOpWait h) => False
  | Err _ => (forall r b, m_requests m !! r = Some b <-> m_requests m' !! r = Some b) /\
      forall o c, in_force m' o c <-> in_force m o c
  end.
Proof.
  apply reachable_good in Hm. unfold TryAcquire, Acquire.
  destruct (AcquireWith_path m ctxDone rootID scopeID wanted (Some false) Hsz) as [e -> |g Hf -> |r b h Hw _ _|Hrefs ->].
  - by split_and!.
  - split_and!; [done..|]. intros ref. by apply satisfied_in_force.
  - done.
  - destruct (acquire_new_cases m rootID scopeID _ (Some false) Hm Hrefs)
      as [l e _ -> |m2 r b token Ha _ -> |m2 r b blocked Ha Hw _|m2 r b token Ha Hready ->].
    + by split_and!.
    + split; [by rewrite refuse_waiting, (ar_waiting _ _ _ _ _ _ _ Ha)|]. split.
      * by rewrite (refuse_exact _ _ _ _ _ _ _ _ Ha).
      * intros o c. by eapply refuse_force.
    + done.
    + by destruct (inline_granted _ _ _ _ _ _ _ token Hm Ha Hready) as (m' & g & -> & ? & ? & ? & ?).
Qed.
End Live.


Lemma try_acquire_all_or_nothing_witness :
  exists m, reachable m /\
    m_waiting (TryAcquire m false owner_c 1 [intent_ref ModeIX; row_ref "a" ModeX]).1 = m_waiting m /\
    m_waiting (TryAcquire m false owner_c 1 [intent_ref ModeIX; row_ref "b" ModeX]).1 = m_waiting m.
Proof.
  destruct demo_state as [m Em]. pose proof (from_fresh_reachable _ _ Em demo_sized) as Hm.
  exists m. split; [exact Hm|].
  assert (forall k, blen (str k) < 2 ^ 63 -> Forall sized [intent_ref ModeIX; row_ref k ModeX]) as Hsz
    by (intros k Hk; repeat constructor; done).
  split.
  - pose proof (try_acquire_all_or_nothing m false owner_c 1 _ Hm (Hsz "a" ltac:(done))) as Ht.
    destruct (TryAcquire _ _ _ _ _) as [m' res]. exact (proj1 Ht).
  - pose proof (try_acquire_all_or_nothing m false owner_c 1 _ Hm (Hsz "b" ltac:(done))) as Ht.
    destruct (TryAcquire _ _ _ _ _) as [m' res]. exact (proj1 Ht).
Defined.

