(* ===== verification/ManagerEnd.v ===== *)
(** * How requests end

    A waiting request ends by a decision and in no other way; cancelling, shutting down and waiting
    for the outcome deliver that decision. *)

From stdpp Require Import gmap list sorting strings fin_maps.
From S2P Require Import Prelude LockTypes Interval Resource Compat ScopeTree Ledger Queue Graph Manager.
From S2P Require Import ManagerInv ManagerPass ManagerOps ManagerRuns ManagerSteps.

Section Ends.
Context `{MapRange}.

Lemma release_owner_key_waiting o rk m k : good m -> m_waiting (release_owner_key o rk m k) ⊆ m_waiting m.
Proof.
  intros Hm. unfold release_owner_key. destruct (m_locks m !! k) as [e|] eqn:He; [|done].
  destruct (_ && _); [done|].
  pose proof (dropAllClaims_fewer e o) as Hf. pose proof (dropAllClaims_ref e o) as Hr.
  pose proof (dropAllClaims_waiting e o) as Hw.
  pose proof (dropAllClaims_indexed e o (iv_index _ _ _ _ (gd_inv _ Hm) _ _ He)) as Hi.
  destruct (dropAllClaims e o) as [e1 [|]]; [|done]. cbn [fst] in *.
  assert (sound m (put_lock m k e1)) as H1 by (by apply (drop_sound m k e)).
  change (m_waiting (retryWaitingLocked (put_lock m k e1)) ⊆ m_waiting (put_lock m k e1)).
  apply retryWaiting_quiet, H1.
Qed.

Lemma releaseGrants_waiting m o rk : good m -> m_waiting (releaseGrantsLocked m o rk) ⊆ m_waiting m.
Proof.
  intros Hm. unfold releaseGrantsLocked. change (m_waiting m) with (m_waiting (next_tick m)).
  assert (good (next_tick m)) as Hn by (by apply (good_same m)). revert Hn.
  generalize (range (m_tick m) (m_locks m)).*1, (next_tick m). clear m Hm.
  induction l as [|k l IH]; intros m Hm; cbn [foldl]; [done|].
  etrans; [apply IH, release_owner_key_sound, Hm|]. by apply release_owner_key_waiting.
Qed.

Lemma ResetEpoch_waiting m g t : good m -> m_waiting (ResetEpochLocked m g t).1.1 = ∅.
Proof.
  intros Hm. unfold ResetEpochLocked. set (m0 := m <| m_generation := g |> <| m_term := t |>). cbn zeta.
  assert (good (next_tick m0)) as H0 by (by apply (good_same m)).
  pose proof (end_owner_fold (range (m_tick m0) (m_owners m0)) (next_tick m0, [], 0) H0) as H1.
  destruct (foldl end_owner _ _) as [[m1 ended] n]. cbn [fst] in H1.
  pose proof (cancel_all_waiting m1 RequestInvalidated (gd_inv _ (so_good _ _ H1))) as HW.
  pose proof (cancel_sound m1 (fun _ => true) RequestInvalidated (so_good _ _ H1)) as H2.
  destruct (cancelRequestsLocked m1 _ _) as [m2 n2]. cbn [fst] in *.
  assert (good m2) as Hm2 by (by apply H2). assert (m_waiting m2 = ∅) as E2 by (by apply HW). clear HW H2 H1 H0.
  cbn. generalize ended. intros l. revert m2 Hm2 E2. induction l as [|o l IH]; intros m2 Hm2 E2; cbn [foldl]; [done|].
  apply IH; [by apply releaseGrants_sound|]. pose proof (releaseGrants_waiting m2 o [] Hm2). set_solver.
Qed.

Lemma Close_waiting m : m_closed m = false -> m_waiting (Manager_Close m) = ∅ /\ m_locks (Manager_Close m) = ∅.
Proof. intros Hc. unfold Manager_Close. rewrite Hc. cbn zeta. by destruct (cancelRequestsLocked _ _ _). Qed.

Lemma findPending_waiting m o r r' :
  good m -> findPendingLocked m o r = Some r' -> r' = r /\ r ∈ m_waiting m /\
    exists b, m_requests m !! r = Some b /\ b_OwnerID b = o /\ b_Status b = RequestPending.
Proof.
  intros [Hm _]. unfold findPendingLocked. destruct (existsb _ _) eqn:E; [|done]. intros [= <-].
  apply existsb_exists in E as ([r0 i] & Hin%list_elem_of_In%elem_of_elements & Hr%Z.eqb_eq). cbn in Hr. subst r0.
  apply (iv_tracked _ _ _ _ Hm) in Hin as (HW & Ho & _). cbn in HW. split_and!; try done.
  destruct (iv_waiting _ _ _ _ Hm r HW) as (b & Hb & Hs). exists b. split_and!; try done.
  unfold req_owner in Ho. cbn in Ho. by rewrite Hb in Ho.
Qed.

Lemma finish_status m r b status :
  good m -> m_requests m !! r = Some b -> b_Status b = RequestPending -> Terminal status = true -> status <> RequestGranted ->
  let m' := (finishRequestLocked m r status).1 in
  (finishRequestLocked m r status).2 = status /\ good m' /\ r ∉ m_waiting m' /\
  (exists b', m_requests m' !! r = Some b' /\ b_Status b' = status) /\
  (forall k e i, m_locks m' !! k = Some e -> (r, i) ∉ le_waiting e).
Proof.
  intros Hm Hr Hs Ht Hng. cbn zeta. destruct (finishRequest_spec m r b status (gd_inv _ Hm) Hr Ht Hng) as [Hq Hf].
  destruct (Hf Hs) as [Hw Hb]. split; [by rewrite (finishRequest_eq m r b)|].
  pose proof (quiet_sound _ _ Hm Hq) as Hgood. split_and!; [apply Hgood|done..|].
  intros k e i He Hin. destruct (iv_queue _ _ _ _ (qu_inv _ _ Hq) k e _ He Hin) as [? _]. done.
Qed.

Lemma status_of m r b : good m -> m_requests m !! r = Some b -> d_status (b_decision b) = b_Status b.
Proof. intros Hm Hb. apply bo_status. by apply (iv_bundle _ _ _ _ (gd_inv _ Hm) r). Qed.

(** ** Waiting for the outcome *)

Lemma handle_wait_state m h w : forall s e, handle_wait m h w = (s, e) -> s = Status m h \/ (s = RequestCanceled /\ is_Some e).
Proof.
  intros s e. unfold handle_wait. destruct (Terminal _); [intros [= <- <-]; by left|].
  destruct w; intros [= <- <-]; [by left|right; by split..].
Qed.

Lemma wait_woken_sound m during o h w w2 :
  good m -> (forall n m, good m -> sound m (during n m)) -> sound m (wait_woken m during o h w w2).1.
Proof.
  intros Hm Hd. unfold wait_woken. destruct w as [[| |]|].
  - by apply sound_refl.
  - destruct (Terminal _); by apply sound_refl.
  - destruct (Terminal _); [by apply sound_refl|]. destruct (negb _); [by apply sound_refl|]. cbn zeta.
    pose proof (Hd 2%nat m Hm) as H1. pose proof (withdraw_sound _ o h (so_good _ _ H1)) as H2.
    pose proof (Hd 3%nat _ (so_good _ _ H2)) as H3.
    destruct (Terminal _); (eapply sound_trans; [exact H1|]; eapply sound_trans; [exact H2|exact H3]).
  - pose proof (timeOut_sound m o (Some h) Hm) as H1.
    destruct (timeOutIfExpired m o (Some h)) as [m2 x]. cbn [fst] in H1. pose proof (Hd 2%nat m2 (so_good _ _ H1)) as H2.
    assert (sound m (during 2%nat m2)) as H12 by (by eapply sound_trans).
    destruct x; [exact H12|]. cbn zeta. destruct (Terminal _); [exact H12|].
    eapply sound_trans; [exact H12|]. apply Hd, H12.
Qed.

Lemma waitWithDeadline_sound m during o h w w2 :
  good m -> (forall n m, good m -> sound m (during n m)) -> sound m (waitWithDeadline m during o h w w2).1.
Proof.
  intros Hm Hd. unfold waitWithDeadline. pose proof (timeOut_sound m o (Some h) Hm) as H1.
  destruct (timeOutIfExpired m o (Some h)) as [m1 x]. cbn [fst] in H1. pose proof (Hd 0%nat m1 (so_good _ _ H1)) as H2.
  assert (sound m (during 0%nat m1)) as H12 by (by eapply sound_trans). destruct x; [exact H12|]. cbn zeta.
  pose proof (Hd 1%nat _ (so_good _ _ H12)) as H3.
  assert (sound m (during 1%nat (during 0%nat m1))) as H13 by (by eapply sound_trans).
  destruct (handleDeadline _ _ _); [|exact H13]. eapply sound_trans; [exact H13|]. by apply wait_woken_sound; [apply H13|].
Qed.

Lemma wait_result_granted m o h c status g :
  good m -> wait_result m o h c status = Ok (LockOpGranted g) ->
  status = RequestGranted /\
  exists b owner, m_requests m !! h_RequestID h = Some b /\ b_Status b = RequestGranted /\
    GrantOwnerID g = b_OwnerID b /\ GrantComponents g = components b /\ complete b = true /\
    m_owners m !! o = Some owner /\ GrantGeneration g = OwnerGeneration owner /\ GrantTerm g = OwnerTerm owner.
Proof.
  intros Hm. unfold wait_result, grantForHandle. destruct status; try done; [|by destruct c].
  destruct (m_owners m !! o) as [owner|]; [|done]. destruct (handle_grant m h) as [g0|] eqn:Eg; [|done].
  destruct (_ || _) eqn:Ee; [done|]. cbn. intros [= <-]. split; [done|].
  unfold handle_grant in Eg. destruct (m_requests m !! h_RequestID h) as [b|] eqn:Hb; [|done]. cbn in Eg.
  pose proof (iv_bundle _ _ _ _ (gd_inv _ Hm) _ b Hb) as Hok. destruct (bo_grant _ Hok g0 Eg) as (Hs & Ho & Hc).
  destruct (bo_granted _ Hok Hs) as [Hcomp _]. apply orb_false_iff in Ee as [E1%negb_false_iff E2%negb_false_iff].
  apply Z.eqb_eq in E1, E2. exists b, owner. by split_and!.
Qed.

Lemma wait_result_shape m o h c status a :
  wait_result m o h c status = Ok a -> match a with LockOpGranted _ => True | _ => False end.
Proof. unfold wait_result. destruct status; try done; [|by destruct c]. destruct (grantForHandle _ _ _);
  [|done]. by intros [= <-]. Qed.

Lemma wait_result_error m o h c status e :
  wait_result m o h c status = Err e ->
  match e with
  | ErrLockWaitTimeout => status = RequestTimedOut
  | ErrDeadlock => status = RequestDeadlockVictim
  | ErrLockResourceLimit => status = RequestResourceRejected
  | ErrLockInvalidated => status = RequestInvalidated \/ status = RequestGranted
  | _ => True
  end.
Proof.
  unfold wait_result. destruct status; try (by intros [= <-]; auto); [|by destruct c; intros [= <-]].
  unfold grantForHandle. destruct (m_owners m !! o); [|by intros [= <-]]. destruct (handle_grant m h); [|by intros [= <-]].
  destruct (_ || _); [intros [= <-]; by right|done].
Qed.

(** A wait ends with the recorded status, or with an error. *)
Lemma waitWithDeadline_status m during o h w w2 m' st err :
  waitWithDeadline m during o h w w2 = (m', (st, err)) ->
  match err with None => st = Status m' h | Some e => e = ErrScopeUnknown \/ e = ErrContext end.
Proof.
  assert (forall x s e, handle_wait x h w2 = (s, e) -> match e with None => s = Status x h | Some e =>
    e = ErrScopeUnknown \/ e = ErrContext end) as Hh.
  { intros x s e. unfold handle_wait. destruct (Terminal _); [by intros [= <- <-]|]. destruct w2; intros [= <- <-]; auto. }
  unfold waitWithDeadline. destruct (timeOutIfExpired m o (Some h)) as [m1 [|]]; [by intros [= <- <- <-]|]. cbn zeta.
  destruct (handleDeadline _ _ _); [|intros [= <- E]; by apply Hh]. unfold wait_woken.
  destruct w as [[| |]|]; cbn zeta.
  - by intros [= <- <- <-].
  - destruct (Terminal (Status _ h)); intros [= <- <- <-]; by auto.
  - destruct (Terminal (Status _ h)); [by intros [= <- <- <-]|]. destruct (negb _); [intros [= <- <- <-]; by auto|].
    destruct (Terminal (Status _ h)); intros [= <- <- <-]; by auto.
  - destruct (timeOutIfExpired _ o (Some h)) as [m2 [|]]; [by intros [= <- <- <-]|].
    destruct (Terminal (Status _ h)); [by intros [= <- <- <-]|intros [= <- E]; by apply Hh].
Qed.

(** A decision other than the absence of the request stays. *)
Lemma Status_kept m m' h st :
  good m -> sound m m' -> Status m h = st -> Terminal st = true -> st <> RequestCanceled -> Status m' h = st.
Proof.
  intros Hm Hs <- Ht Hne. unfold Status in *. destruct (m_requests m !! h_RequestID h) as [b|] eqn:Hb; [|done]. cbn in *.
  destruct (so_evolves _ _ Hs _ b Hb) as (b' & -> & [_ _ _ Hf]). cbn.
  rewrite (status_of _ _ _ Hm Hb) in Ht. by destruct (Hf Ht) as [_ ->].
Qed.

(** ** Properties *)

(** no request is forgotten.  A request that waits in a reachable state is, after any further
    operations, still waiting or decided; and ending the epoch or closing the manager decides every
    one that waits and leaves no queue at all. *)
Theorem waiting_until_decided m ops r
    (Hm : reachable m) (Hops : Forall op_sized ops) (Hr : r ∈ m_waiting m) :
  (r ∈ m_waiting (run m ops) \/ decided (run m ops) r) /\
  (forall g t, m_waiting (ResetEpochLocked m g t).1.1 = ∅ /\ decided (ResetEpochLocked m g t).1.1 r) /\
  (m_closed m = false -> m_waiting (Manager_Close m) = ∅ /\ m_locks (Manager_Close m) = ∅ /\ decided (Manager_Close m) r).
Proof.
  apply reachable_good in Hm. split_and!.
  - by apply (so_accounted _ _ (run_sound m ops Hm Hops)).
  - intros g t. pose proof (ResetEpoch_waiting m g t Hm) as HW. split; [done|].
    destruct (so_accounted _ _ (ResetEpoch_sound m g t Hm) r Hr) as [Hin|?]; [|done].
    rewrite HW in Hin. by apply not_elem_of_empty in Hin.
  - intros Hc. destruct (Close_waiting m Hc) as [HW HL]. split_and!; [done..|].
    destruct (so_accounted _ _ (Close_sound m Hm) r Hr) as [Hin|?]; [|done].
    rewrite HW in Hin. by apply not_elem_of_empty in Hin.
Qed.

(** C12: Withdrawing a waiting request ends it with the status of the call that withdrew it, cancelled
    by its origin or its context ended; it leaves every queue, and a handle that only joined the
    request cannot cancel it. *)
Theorem withdrawn_request_ends m o h r
    (Hm : reachable m) (Hf : findPendingLocked m o (h_RequestID h) = Some r) :
  (forall status m', (h_origin h = true /\ (m', status) = Cancel m o (Some h) /\ status = RequestCanceled) \/
     (m' = withdrawOnContextEnd m o h /\ status = RequestContextCanceled) ->
     Status m' h = status /\ r ∉ m_waiting m' /\
     (forall k e i, m_locks m' !! k = Some e -> (r, i) ∉ le_waiting e)) /\
  (h_origin h = true -> (Cancel m o (Some h)).2 = RequestCanceled) /\
  (h_origin h = false -> Cancel m o (Some h) = (m, RequestPending)).
Proof.
  apply reachable_good in Hm. destruct (findPending_waiting m o _ _ Hm Hf) as (-> & HW & b & Hb & Ho & Hs).
  assert (forall status, Terminal status = true -> status <> RequestGranted ->
    let m' := (finishRequestLocked m (h_RequestID h) status).1 in
    (finishRequestLocked m (h_RequestID h) status).2 = status /\ Status m' h = status /\ h_RequestID h ∉ m_waiting m' /\
    (forall k e i, m_locks m' !! k = Some e -> (h_RequestID h, i) ∉ le_waiting e)) as Hend.
  { intros status Ht Hng. cbn zeta.
    destruct (finish_status m _ b status Hm Hb Hs Ht Hng) as (E & Hg & Hnw & (b' & Hb' & Hs') & Hq).
    split_and!; try done. unfold Status. rewrite Hb'. cbn. by rewrite (status_of _ _ _ Hg Hb'). }
  split_and!.
  - intros status m' [(Hor & E & ->)|[-> ->]].
    + unfold Cancel in E. rewrite Hor, Hf in E. cbn [negb] in E.
      destruct (Hend RequestCanceled) as (_ & H1 & H2 & H3); [done..|].
      assert (m' = (finishRequestLocked m (h_RequestID h) RequestCanceled).1) as -> by (by rewrite <- E). done.
    + unfold withdrawOnContextEnd. rewrite Hf. by apply Hend.
  - intros Hor. unfold Cancel. rewrite Hor, Hf. by apply Hend.
  - intros Hor. unfold Cancel. rewrite Hor. cbn. unfold Status. rewrite Hb. cbn. by rewrite (status_of _ _ _ Hm Hb), Hs.
Qed.

End Ends.

(** ** Witnesses *)

Definition demo_handle : LockHandle := mkHandle 3 3 true None.

Lemma waiting_until_decided_witness :
  exists m, reachable m /\ 3 ∈ m_waiting m /\ decided (ResetEpochLocked m 8 1).1.1 3.
Proof.
  destruct demo_state as [m Em]. pose proof (from_fresh_reachable _ _ Em demo_sized) as Hm.
  assert (bool_decide (3 ∈ m_waiting m) = true) as Hw%bool_decide_eq_true
    by (apply (from_fresh_eval demo_ops m (fun m => bool_decide (3 ∈ m_waiting m))); [done|by vm_compute]).
  exists m. split; [exact Hm|]. split; [exact Hw|].
  exact (proj2 (proj1 (proj2 (waiting_until_decided m [] 3 Hm (Forall_nil_2 _) Hw)) 8 1)).
Defined.

Lemma withdrawn_request_ends_witness :
  exists m, reachable m /\ findPendingLocked m owner_c 3 = Some 3 /\
    (Cancel m owner_c (Some demo_handle)).2 = RequestCanceled /\
    Status (withdrawOnContextEnd m owner_c demo_handle) demo_handle = RequestContextCanceled.
Proof.
  destruct demo_state as [m Em]. pose proof (from_fresh_reachable _ _ Em demo_sized) as Hm.
  assert (findPendingLocked m owner_c 3 = Some 3) as Hf
    by (apply (from_fresh_eval demo_ops m (fun m => findPendingLocked m owner_c 3)); [done|by vm_compute]).
  destruct (withdrawn_request_ends m owner_c demo_handle 3 Hm Hf) as (H1 & H2 & _).
  exists m. split; [exact Hm|]. split; [exact Hf|]. split; [exact (H2 eq_refl)|].
  exact (proj1 (H1 RequestContextCanceled _ (or_intror (conj eq_refl eq_refl)))).
Defined.

(** The two readers leave while the third owner waits. *)
Definition readers_leave (n : nat) : list mgr_op :=
  match n with 1%nat => [OpReleaseOwner owner_a; OpReleaseOwner owner_b; OpRefund owner_b; OpRefund owner_a] | _ => [] end.

Definition demo_wait (m : manager) : manager * result lock_error AcquireResult :=
  WaitForGrantResult m (fun n m => run m (readers_leave n)) owner_c (Some demo_handle) false (Some WokeSettled) WokeSettled.


(** ** Runs that show where the lock manager parts from its documentation

    The run is evaluated; what it shows is a fact about the code as it is. *)

(** A manager of generation 7 with a memory limit. *)
Definition small_manager (memory : Z) : result lock_error manager := newManager (mkLimits memory 0 0 0) 7 1000.

Definition after (m0 : result lock_error manager) (ops : list mgr_op) : option manager :=
  match m0 with Ok m => Some (run m ops) | Err _ => None end.

Definition enter (o : bytes) : list mgr_op := [OpRegister o 7 0 5; OpOpenScope o [] 0 ScopeStatement 0 0].

Definition row_bundle : list ResourceRef := [intent_ref ModeIX; row_ref "a" ModeX].

Definition grant_id (res : result lock_error AcquireResult) : option Z :=
  match res with Ok (LockOpGranted g) => Some (GrantID g) | _ => None end.

(** An owner that has entered under a limit of 620 bytes. *)
Definition cramped : option manager := after (small_manager 620) (enter owner_a).

Definition answer (m : manager) : manager * result lock_error AcquireResult :=
  AcquireWith m false owner_a 1 row_bundle None.

Lemma cramped_answer :
  ((fun m => (grant_id (snd (answer m)), b_Status <$> (m_requests (fst (answer m)) !! 1))) <$> cramped)
  = Some (Some 0, Some RequestPending).
Proof. by vm_compute. Qed.

(** The inline grant of a bundle whose commit the ledger refuses: [AcquireWith] still answers a
    granted capability, whose identifier is 0, and the request stays pending with its claims
    recorded; the refusal the source writes after the grant is never reached, since the entries
    are all granted by then. *)
Lemma inline_grant_without_commit :
  exists m m' g, cramped = Some m /\ answer m = (m', Ok (LockOpGranted g)) /\
    GrantID g = 0 /\ b_Status <$> (m_requests m' !! 1) = Some RequestPending.
Proof.
  pose proof cramped_answer as H. destruct cramped as [m|]; [|discriminate H].
  cbn [fmap option_fmap option_map] in H. exists m.
  destruct (answer m) as [m' res]. cbn [fst snd] in H. exists m'.
  destruct res as [[g|h|g]|e]; cbn [grant_id] in H; try discriminate H.
  exists g. injection H as Hg Hs. auto.
Qed.

(** A run under a limit of 1150 bytes: two owners ask for one row, the second waits, and the first is
    released and then refunded. *)
Definition refund_late : option manager :=
  after (small_manager 1150) (enter owner_a ++ enter owner_b ++
    [OpAcquire false owner_a 1 row_bundle None; OpAcquire false owner_b 1 row_bundle None;
     OpReleaseOwner owner_a; OpRefund owner_a]).

Definition second_request (m : manager) : option (bool * RequestStatus * bool) :=
  (fun b => (bool_decide (2 ∈ m_waiting m), b_Status b, complete b)) <$> m_requests m !! 2.

(** A lost wakeup: the fair pass of the release gives the waiting request its locks and then finds the
    budget exhausted, since the holder is refunded only after the pass.  No pass follows the refund,
    so the request stays pending, holding every lock it asked for; another pass would grant it. *)
Lemma refund_after_pass_loses_wakeup :
  exists m, refund_late = Some m /\ second_request m = Some (true, RequestPending, true) /\
    second_request (retryWaitingLocked m) = Some (false, RequestGranted, true).
Proof.
  assert ((fun m => (second_request m, second_request (retryWaitingLocked m))) <$> refund_late =
    Some (Some (true, RequestPending, true), Some (false, RequestGranted, true))) as E by (by vm_compute).
  destruct refund_late as [m|]; [|discriminate E]. exists m. injection E as E1 E2. auto.
Qed.
