(* ===== verification/TxnState.v ===== *)
(** * Transaction lifecycle states: [mvcc/transaction_state.go]

    The state set and the transition table.  A [uint8] outside the declared constants is never
    produced by the package and has no constructor. *)

From stdpp Require Import gmap list sorting strings fin_maps.
From S2P Require Import Prelude.

(** ** Errors of the package [mvcc]

    Sentinels are compared with [errors.Is]; the text wrapped around them is not modelled. *)
Inductive mvcc_error : Type :=
  | ErrConflict
  | ErrClosed
  | ErrSequenceExhausted
  | ErrWriteSetLimit
  | ErrTransactionIDCollision
  | ErrUnknownTransaction
  | ErrIllegalTransactionMove
  | ErrInvalidRegistration
  | ErrViewCollision
  | ErrViewBudgetLimit
  | ErrViewClosed
  | ErrViewInvalidated
  | ErrCanceled
  | ErrDeadlock
  | ErrOther (what : string).

#[export] Instance mvcc_error_eq_dec : EqDecision mvcc_error.
Proof. solve_decision. Defined.

Inductive TransactionState : Type :=
  | TransactionUnset
  | TransactionActive
  | TransactionCommitting
  | TransactionCommitted
  | TransactionAborted
  | TransactionMerged.

#[export] Instance TransactionState_eq_dec : EqDecision TransactionState.
Proof. solve_decision. Defined.

Definition TransactionState_Terminal (s : TransactionState) : bool :=
  match s with
  | TransactionCommitted | TransactionAborted | TransactionMerged => true
  | _ => false
  end.

Definition TransactionState_String (s : TransactionState) : string :=
  match s with
  | TransactionActive => "ACTIVE"
  | TransactionCommitting => "COMMITTING"
  | TransactionCommitted => "COMMITTED"
  | TransactionAborted => "ABORTED"
  | TransactionMerged => "MERGED"
  | TransactionUnset => "UNSET"
  end.

Inductive transitionKind : Type :=
  | transitionIllegal
  | transitionAny
  | transitionRootOnly
  | transitionChildOnly.

#[export] Instance transitionKind_eq_dec : EqDecision transitionKind.
Proof. solve_decision. Defined.

Definition transactionTransitionKind (from to : TransactionState) : transitionKind :=
  if decide (from = to) then
    if TransactionState_Terminal from then transitionAny else transitionIllegal
  else match from, to with
  | TransactionActive, (TransactionCommitting | TransactionCommitted) => transitionRootOnly
  | TransactionActive, TransactionAborted => transitionAny
  | TransactionActive, TransactionMerged => transitionChildOnly
  | TransactionCommitting, TransactionCommitted => transitionRootOnly
  | TransactionCommitting, TransactionAborted => transitionAny
  | _, _ => transitionIllegal
  end.

Definition transactionTransitionAllowed (from to : TransactionState) : bool :=
  negb (bool_decide (transactionTransitionKind from to = transitionIllegal)).

(** ** The lifecycle a transaction of one kind may run through *)

(** An edge of the lifecycle graph, for a root or a child. *)
Inductive lifecycle (root : bool) : TransactionState -> TransactionState -> Prop :=
  | life_commit : root = true -> lifecycle root TransactionActive TransactionCommitting
  | life_empty : root = true -> lifecycle root TransactionActive TransactionCommitted
  | life_abort : lifecycle root TransactionActive TransactionAborted
  | life_merge : root = false -> lifecycle root TransactionActive TransactionMerged
  | life_publish : root = true -> lifecycle root TransactionCommitting TransactionCommitted
  | life_fail : lifecycle root TransactionCommitting TransactionAborted.

(** Whether the table lets a transaction of this kind move. *)
Definition kind_permits (root : bool) (kind : transitionKind) : bool :=
  match kind with
  | transitionIllegal => false
  | transitionAny => true
  | transitionRootOnly => root
  | transitionChildOnly => negb root
  end.

Lemma lifecycle_exact root from to :
  kind_permits root (transactionTransitionKind from to) = true <->
  lifecycle root from to \/ (from = to /\ TransactionState_Terminal from = true).
Proof.
  split.
  - intros H. destruct from, to, root; cbn in H; try discriminate H;
      first [by right; split | left; by constructor].
  - intros [H|[<- H]]; [destruct H; subst; done|]. by destruct from, root.
Qed.

Lemma lifecycle_leaves_running root from to :
  lifecycle root from to -> TransactionState_Terminal from = false.
Proof. by destruct 1. Qed.

Lemma lifecycle_never_active root from to : lifecycle root from to -> to <> TransactionActive.
Proof. by destruct 1. Qed.
