(* ===== verification/TxnManager.v ===== *)
(** * The transaction registry: [mvcc/transaction_manager.go]

    Which transactions and read views are registered, their lifecycle state, and the references
    that keep history alive for them.  Every method holds the manager's mutex for its whole body.
    The counter blocks, which a transaction shares with its entry, are objects named by their
    address ([tm_blocks]).  The time a transaction started is an opaque number. *)

From stdpp Require Import gmap list sorting strings fin_maps.
From S2P Require Import Prelude TxnState.

(** ** Machine words *)

(** [uint64] addition, and the increment of a counter. *)
Definition add64 (a b : Z) : Z := (a + b) mod 2 ^ 64.

(** [int64] wrap-around of an exact sum. *)
Definition wrap_i64 (z : Z) : Z := (z + 2 ^ 63) mod 2 ^ 64 - 2 ^ 63.

(** ** Data *)

Record RootRegistration : Type := mkRootRegistration {
  rr_ID : bytes;
  rr_ReadTS : Z;
  rr_Generation : Z;
  rr_StartedAt : Z;
  rr_Lazy : bool
}.

Record ChildRegistration : Type := mkChildRegistration {
  cr_ID : bytes;
  cr_ParentID : bytes;
  cr_Generation : Z;
  cr_StartedAt : Z
}.

Record ViewRegistration : Type := mkViewRegistration {
  vr_ID : bytes;
  vr_RootID : bytes;
  vr_Revision : Z;
  vr_Head : Z;
  vr_Generation : Z
}.

Record viewEntry : Type := mkViewEntry {
  ve_id : bytes;
  ve_rootID : bytes;
  ve_revision : Z;
  ve_generation : Z;
  ve_pinned : bool;
  ve_borrowers : Z
}.

#[export] Instance viewEntry_rebuild : Rebuild viewEntry := fun v =>
  mkViewEntry (ve_id v) (ve_rootID v) (ve_revision v) (ve_generation v) (ve_pinned v) (ve_borrowers v).

Record TransitionOptions : Type := mkTransitionOptions {
  to_CommitTS : Z;
  to_HasCommitTS : bool;
  to_Conflict : bool;
  to_Reason : bytes
}.

Record transactionCounters : Type := mkCounters {
  tc_pointReads : Z;
  tc_rangeReads : Z;
  tc_rowsObserved : Z;
  tc_bytesObserved : Z;
  tc_writes : Z;
  tc_writeBytes : Z;
  tc_pointDependencies : Z;
  tc_rangeDependencies : Z
}.

#[export] Instance transactionCounters_rebuild : Rebuild transactionCounters := fun c =>
  mkCounters (tc_pointReads c) (tc_rangeReads c) (tc_rowsObserved c) (tc_bytesObserved c)
    (tc_writes c) (tc_writeBytes c) (tc_pointDependencies c) (tc_rangeDependencies c).

Definition newTransactionCounters : transactionCounters := mkCounters 0 0 0 0 0 0 0 0.

Definition addObservations (c other : transactionCounters) : transactionCounters :=
  c <| tc_pointReads ::= add64 (tc_pointReads other) |>
    <| tc_rangeReads ::= add64 (tc_rangeReads other) |>
    <| tc_rowsObserved ::= add64 (tc_rowsObserved other) |>
    <| tc_bytesObserved ::= add64 (tc_bytesObserved other) |>.

Definition addDependencies (c other : transactionCounters) : transactionCounters :=
  c <| tc_pointDependencies ::= add64 (tc_pointDependencies other) |>
    <| tc_rangeDependencies ::= add64 (tc_rangeDependencies other) |>.

Definition addWriteSet (c other : transactionCounters) : transactionCounters :=
  c <| tc_writes ::= add64 (tc_writes other) |>
    <| tc_writeBytes ::= fun b => wrap_i64 (b + tc_writeBytes other) |>.

Record transactionEntry : Type := mkEntry {
  te_id : bytes;
  te_parentID : bytes;
  te_root : bool;
  te_startTS : Z;
  te_readTS : Z;
  te_commitTS : Z;
  te_hasCommitTS : bool;
  te_state : TransactionState;
  te_generation : Z;
  te_startedAt : Z;
  te_counters : Z;
  te_abortReason : bytes;
  te_pinned : bool
}.

#[export] Instance transactionEntry_rebuild : Rebuild transactionEntry := fun e =>
  mkEntry (te_id e) (te_parentID e) (te_root e) (te_startTS e) (te_readTS e) (te_commitTS e)
    (te_hasCommitTS e) (te_state e) (te_generation e) (te_startedAt e) (te_counters e)
    (te_abortReason e) (te_pinned e).

Record TransactionInfo : Type := mkInfo {
  ti_ID : bytes;
  ti_ParentID : bytes;
  ti_StartTS : Z;
  ti_ReadTS : Z;
  ti_CommitTS : Z;
  ti_HasCommitTS : bool;
  ti_State : TransactionState;
  ti_Generation : Z;
  ti_StartedAt : Z;
  ti_counters : transactionCounters;
  ti_AbortReason : bytes
}.

Record TransactionStats : Type := mkStats {
  ts_ActiveRoot : Z;
  ts_ActiveChildren : Z;
  ts_Committed : Z;
  ts_Aborted : Z;
  ts_Conflicts : Z;
  ts_OldestReadTS : Z;
  ts_HasOldestReadTS : bool
}.

Record TransactionManager : Type := mkTM {
  activeByID : gmap bytes transactionEntry;
  snapshotRefs : gmap Z Z;
  viewsByID : gmap bytes viewEntry;
  viewsByRoot : gmap bytes (gset bytes);
  compactedHorizon : Z;
  tm_committed : Z;
  tm_aborted : Z;
  tm_conflicts : Z;
  tm_blocks : gmap Z transactionCounters;
  tm_nextBlock : Z
}.

#[export] Instance TransactionManager_rebuild : Rebuild TransactionManager := fun m =>
  mkTM (activeByID m) (snapshotRefs m) (viewsByID m) (viewsByRoot m) (compactedHorizon m)
    (tm_committed m) (tm_aborted m) (tm_conflicts m) (tm_blocks m) (tm_nextBlock m).

Definition NewTransactionManager : TransactionManager := mkTM ∅ ∅ ∅ ∅ 0 0 0 0 ∅ 0.

(** ** Registration *)

(** A fresh counter block. *)
Definition new_block (m : TransactionManager) : TransactionManager * Z :=
  (m <| tm_blocks ::= <[tm_nextBlock m := newTransactionCounters]> |>
     <| tm_nextBlock ::= Z.add 1 |>, tm_nextBlock m).

(** [m.snapshotRefs[revision]++]. *)
Definition pin_revision (revision : Z) (m : TransactionManager) : TransactionManager :=
  m <| snapshotRefs ::= fun refs => <[revision := add64 (default 0 (refs !! revision)) 1]> refs |>.

Definition RegisterRoot (m : TransactionManager) (r : RootRegistration)
    : TransactionManager * result mvcc_error Z :=
  if bool_decide (rr_ID r = []) then (m, Err ErrInvalidRegistration)
  else if bool_decide (is_Some (activeByID m !! rr_ID r)) then (m, Err ErrTransactionIDCollision)
  else
    let '(m, counters) := new_block m in
    let entry := mkEntry (rr_ID r) [] true (rr_ReadTS r) (rr_ReadTS r) 0 false TransactionActive
                   (rr_Generation r) (rr_StartedAt r) counters [] (negb (rr_Lazy r)) in
    let m := m <| activeByID ::= <[rr_ID r := entry]> |> in
    (if rr_Lazy r then m else pin_revision (rr_ReadTS r) m, Ok counters).

Definition RegisterChild (m : TransactionManager) (r : ChildRegistration)
    : TransactionManager * result mvcc_error Z :=
  if bool_decide (cr_ID r = []) then (m, Err ErrInvalidRegistration)
  else if bool_decide (cr_ParentID r = []) then (m, Err ErrInvalidRegistration)
  else if bool_decide (is_Some (activeByID m !! cr_ID r)) then (m, Err ErrTransactionIDCollision)
  else match activeByID m !! cr_ParentID r with
  | None => (m, Err ErrUnknownTransaction)
  | Some parent =>
      if negb (bool_decide (te_state parent = TransactionActive)) then (m, Err ErrInvalidRegistration)
      else
        let '(m, counters) := new_block m in
        let entry := mkEntry (cr_ID r) (cr_ParentID r) false (te_readTS parent) (te_readTS parent) 0
                       false TransactionActive (cr_Generation r) (cr_StartedAt r) counters [] false in
        (m <| activeByID ::= <[cr_ID r := entry]> |>, Ok counters)
  end.

(** ** Releasing references *)

Definition releaseRevisionRefLocked (revision : Z) (m : TransactionManager) : TransactionManager :=
  match snapshotRefs m !! revision with
  | Some refs =>
      if 1 <? refs then m <| snapshotRefs ::= <[revision := refs - 1]> |>
      else m <| snapshotRefs ::= delete revision |>
  | None => m <| snapshotRefs ::= delete revision |>
  end.

(** The entry comes back with its [pinned] flag cleared. *)
Definition releaseRefLocked (m : TransactionManager) (e : transactionEntry)
    : TransactionManager * transactionEntry :=
  if negb (te_pinned e) then (m, e)
  else (releaseRevisionRefLocked (te_readTS e) m, e <| te_pinned := false |>).

(** One view of a root whose views end. *)
Definition release_root_view (m : TransactionManager) (viewID : bytes) : TransactionManager :=
  match viewsByID m !! viewID with
  | None => m
  | Some v =>
      if negb (ve_pinned v) then m
      else
        let m := m <| viewsByID ::= <[viewID := v <| ve_pinned := false |>]> |> in
        if ve_borrowers v <=? 0
        then (releaseRevisionRefLocked (ve_revision v) m) <| viewsByID ::= delete viewID |>
        else m
  end.

Definition releaseRootViewsLocked `{MapRange} (m : TransactionManager) (rootID : bytes)
    : TransactionManager :=
  let views := default ∅ (viewsByRoot m !! rootID) in
  (foldl release_root_view m (range_set 0 views)) <| viewsByRoot ::= delete rootID |>.

Definition removeLocked `{MapRange} (m : TransactionManager) (e : transactionEntry) : TransactionManager :=
  let m := m <| activeByID ::= delete (te_id e) |> in
  let '(m, _) := releaseRefLocked m e in
  releaseRootViewsLocked m (te_id e).

(** One entry the loop of [dropDescendantsLocked] visits. *)
Definition drop_one `{MapRange} (acc : TransactionManager * gset bytes * bool)
    (kv : bytes * transactionEntry) : TransactionManager * gset bytes * bool :=
  let '(m, removed, grew) := acc in
  if negb (bool_decide (te_parentID kv.2 ∈ removed)) then acc
  else (removeLocked m kv.2, {[ te_id kv.2 ]} ∪ removed, true).

(** The rounds of [dropDescendantsLocked]; the boolean tells that the last round found nothing. *)
Fixpoint drop_rounds `{MapRange} (fuel : nat) (m : TransactionManager) (removed : gset bytes)
    : TransactionManager * bool :=
  match fuel with
  | O => (m, false)
  | S fuel =>
      let '(m, removed, grew) := foldl drop_one (m, removed, false) (range fuel (activeByID m)) in
      if grew then drop_rounds fuel m removed else (m, true)
  end.

Definition dropDescendantsLocked `{MapRange} (m : TransactionManager) (rootID : bytes)
    : TransactionManager :=
  (drop_rounds (S (size (activeByID m))) m {[ rootID ]}).1.

Definition Unregister `{MapRange} (m : TransactionManager) (id : bytes) : TransactionManager :=
  match activeByID m !! id with
  | None => m
  | Some entry => dropDescendantsLocked (removeLocked m entry) id
  end.

(** ** Read views *)

Definition DefaultMaxActiveViews : Z := 16384.
Definition DefaultMaxViewsPerRoot : Z := 256.

(** The loop over [snapshotRefs]: the least revision seen so far. *)
Definition oldest_step (acc : option Z) (kv : Z * Z) : option Z :=
  let '(readTS, refs) := kv in
  if refs =? 0 then acc
  else match acc with
  | Some oldest => if readTS <? oldest then Some readTS else acc
  | None => Some readTS
  end.

Definition oldestReadTSLocked `{MapRange} (m : TransactionManager) : option Z :=
  foldl oldest_step None (range 0 (snapshotRefs m)).

Definition OldestReadTS `{MapRange} (m : TransactionManager) : option Z := oldestReadTSLocked m.

(** The checks of [RegisterView] on the owning root. *)
Definition view_root_check (m : TransactionManager) (r : ViewRegistration) : result mvcc_error unit :=
  if bool_decide (vr_RootID r = []) then Ok tt
  else match activeByID m !! vr_RootID r with
  | None => Err ErrUnknownTransaction
  | Some root =>
      if negb (bool_decide (te_state root = TransactionActive)) then Err ErrInvalidRegistration
      else if negb (te_generation root =? vr_Generation r) then Err ErrInvalidRegistration
      else if DefaultMaxViewsPerRoot <=? Z.of_nat (size (default ∅ (viewsByRoot m !! vr_RootID r)))
      then Err ErrViewBudgetLimit
      else Ok tt
  end.

(** The checks that the revision is still held. *)
Definition view_revision_check `{MapRange} (m : TransactionManager) (r : ViewRegistration)
    : result mvcc_error unit :=
  if vr_Revision r <? compactedHorizon m then Err ErrInvalidRegistration
  else if default 0 (snapshotRefs m !! vr_Revision r) =? 0 then
    if (0 <? vr_Head r) && (vr_Revision r <? vr_Head r) then Err ErrInvalidRegistration
    else match oldestReadTSLocked m with
    | Some oldest => if vr_Revision r <? oldest then Err ErrInvalidRegistration else Ok tt
    | None => Ok tt
    end
  else Ok tt.

Definition RegisterView `{MapRange} (m : TransactionManager) (r : ViewRegistration)
    : TransactionManager * result mvcc_error unit :=
  if bool_decide (vr_ID r = []) then (m, Err ErrInvalidRegistration)
  else if DefaultMaxActiveViews <=? Z.of_nat (size (viewsByID m)) then (m, Err ErrViewBudgetLimit)
  else if bool_decide (is_Some (viewsByID m !! vr_ID r)) then (m, Err ErrViewCollision)
  else match view_root_check m r with
  | Err e => (m, Err e)
  | Ok _ =>
      match view_revision_check m r with
      | Err e => (m, Err e)
      | Ok _ =>
          let v := mkViewEntry (vr_ID r) (vr_RootID r) (vr_Revision r) (vr_Generation r) true 0 in
          let m := m <| viewsByID ::= <[vr_ID r := v]> |> in
          let m :=
            if bool_decide (vr_RootID r = []) then m
            else m <| viewsByRoot ::= fun by_root =>
                   <[vr_RootID r := {[ vr_ID r ]} ∪ default ∅ (by_root !! vr_RootID r)]> by_root |> in
          (pin_revision (vr_Revision r) m, Ok tt)
      end
  end.

(** The view leaves its root's set, and the set goes when it is empty. *)
Definition forget_root_view (rootID viewID : bytes) (m : TransactionManager) : TransactionManager :=
  if bool_decide (rootID = []) then m
  else match viewsByRoot m !! rootID with
  | None => m
  | Some views =>
      let views := views ∖ {[ viewID ]} in
      if bool_decide (views = ∅) then m <| viewsByRoot ::= delete rootID |>
      else m <| viewsByRoot ::= <[rootID := views]> |>
  end.

Definition ReleaseView (m : TransactionManager) (viewID : bytes) : TransactionManager :=
  match viewsByID m !! viewID with
  | None => m
  | Some v =>
      if negb (ve_pinned v) then m
      else
        let m := m <| viewsByID ::= <[viewID := v <| ve_pinned := false |>]> |> in
        let m := forget_root_view (ve_rootID v) viewID m in
        if ve_borrowers v <=? 0
        then (releaseRevisionRefLocked (ve_revision v) m) <| viewsByID ::= delete viewID |>
        else m
  end.

Definition BorrowView (m : TransactionManager) (viewID : bytes)
    : TransactionManager * result mvcc_error unit :=
  match viewsByID m !! viewID with
  | None => (m, Err ErrViewClosed)
  | Some v =>
      if negb (ve_pinned v) then (m, Err ErrViewClosed)
      else (m <| viewsByID ::= <[viewID := v <| ve_borrowers ::= Z.add 1 |>]> |>, Ok tt)
  end.

Definition ReturnView (m : TransactionManager) (viewID : bytes) : TransactionManager :=
  match viewsByID m !! viewID with
  | None => m
  | Some v =>
      let v := if 0 <? ve_borrowers v then v <| ve_borrowers ::= fun n => n - 1 |> else v in
      let m := m <| viewsByID ::= <[viewID := v]> |> in
      if negb (ve_pinned v) && (ve_borrowers v <=? 0)
      then (releaseRevisionRefLocked (ve_revision v) m) <| viewsByID ::= delete viewID |>
      else m
  end.

Definition UpdateRootReadTS (m : TransactionManager) (rootID : bytes) (readTS : Z) : TransactionManager :=
  match activeByID m !! rootID with
  | Some e => if te_root e then m <| activeByID ::= <[rootID := e <| te_readTS := readTS |>]> |> else m
  | None => m
  end.

Definition ActiveViews `{MapRange} (m : TransactionManager) : list viewEntry :=
  filter (fun v => ve_pinned v || (0 <? ve_borrowers v)) (range 0 (viewsByID m)).*2.

(** ** Lifecycle moves *)

(** The guards of [Transition]. *)
Definition transition_check (e : transactionEntry) (to : TransactionState) (o : TransitionOptions)
    : result mvcc_error unit :=
  let kind := transactionTransitionKind (te_state e) to in
  if bool_decide (kind = transitionIllegal) then Err ErrIllegalTransactionMove
  else if bool_decide (kind = transitionRootOnly) && negb (te_root e) then Err ErrIllegalTransactionMove
  else if bool_decide (kind = transitionChildOnly) && te_root e then Err ErrIllegalTransactionMove
  else if to_HasCommitTS o && (negb (te_root e) || negb (bool_decide (to = TransactionCommitted)))
  then Err ErrIllegalTransactionMove
  else if to_Conflict o && negb (bool_decide (to = TransactionAborted)) then Err ErrIllegalTransactionMove
  else if negb (bool_decide (to_Reason o = [])) && negb (bool_decide (to = TransactionAborted))
  then Err ErrIllegalTransactionMove
  else Ok tt.

(** The outcome written into the entry. *)
Definition record_outcome (to : TransactionState) (o : TransitionOptions) (e : transactionEntry)
    : transactionEntry :=
  let e := e <| te_state := to |> in
  let e := if to_HasCommitTS o then e <| te_commitTS := to_CommitTS o |> <| te_hasCommitTS := true |> else e in
  if bool_decide (to = TransactionAborted) then e <| te_abortReason := to_Reason o |> else e.

(** The aggregate counters after an outcome. *)
Definition count_outcome (to : TransactionState) (o : TransitionOptions) (m : TransactionManager)
    : TransactionManager :=
  let m := if bool_decide (to = TransactionAborted) && to_Conflict o
           then m <| tm_conflicts ::= add64 1 |> else m in
  match to with
  | TransactionCommitted => m <| tm_committed ::= add64 1 |>
  | TransactionAborted => m <| tm_aborted ::= add64 1 |>
  | _ => m
  end.

Definition Transition `{MapRange} (m : TransactionManager) (id : bytes) (to : TransactionState)
    (o : TransitionOptions) : TransactionManager * result mvcc_error unit :=
  match activeByID m !! id with
  | None => (m, Err ErrUnknownTransaction)
  | Some e =>
      match transition_check e to o with
      | Err err => (m, Err err)
      | Ok _ =>
          if bool_decide (te_state e = to) then (m, Ok tt)
          else
            let m := count_outcome to o m in
            let e := record_outcome to o e in
            if TransactionState_Terminal to then
              let '(m, e) := releaseRefLocked m e in
              let m := m <| activeByID ::= <[id := e]> |> in
              (releaseRootViewsLocked m (te_id e), Ok tt)
            else (m <| activeByID ::= <[id := e]> |>, Ok tt)
      end
  end.

(** ** Compaction horizon, generation change, diagnostics *)

Definition RecordCompactedHorizon (m : TransactionManager) (horizon : Z) : TransactionManager :=
  if compactedHorizon m <? horizon then m <| compactedHorizon := horizon |> else m.

Definition CompactedHorizon (m : TransactionManager) : Z := compactedHorizon m.

Definition TransactionManager_Reset (m : TransactionManager) : TransactionManager :=
  m <| activeByID := ∅ |> <| snapshotRefs := ∅ |> <| viewsByID := ∅ |> <| viewsByRoot := ∅ |>
    <| compactedHorizon := 0 |>.

Definition transactionEntry_info (m : TransactionManager) (e : transactionEntry) : TransactionInfo :=
  mkInfo (te_id e) (te_parentID e) (te_startTS e) (te_readTS e) (te_commitTS e) (te_hasCommitTS e)
    (te_state e) (te_generation e) (te_startedAt e)
    (default newTransactionCounters (tm_blocks m !! te_counters e)) (te_abortReason e).

Definition ActiveTransactions `{MapRange} (m : TransactionManager) : list TransactionInfo :=
  transactionEntry_info m <$> (range 0 (activeByID m)).*2.

Definition TransactionManager_Info (m : TransactionManager) (id : bytes) : option TransactionInfo :=
  transactionEntry_info m <$> activeByID m !! id.

(** Registered transactions of one kind that have not ended. *)
Definition running_count (m : TransactionManager) (root : bool) : Z :=
  Z.of_nat (size (filter (fun kv => negb (TransactionState_Terminal (te_state kv.2)) && eqb (te_root kv.2) root)
                    (activeByID m))).

Definition TransactionManager_Stats `{MapRange} (m : TransactionManager) : TransactionStats :=
  let oldest := oldestReadTSLocked m in
  mkStats (running_count m true) (running_count m false) (tm_committed m) (tm_aborted m)
    (tm_conflicts m) (default 0 oldest) (bool_decide (is_Some oldest)).
