(* ===== verification/TxnPins.v ===== *)
(** * The registry's references are exact

    What keeps history alive is counted, never guessed: [snapshotRefs] holds, for each revision,
    the number of pinned roots that read it plus the number of registered views of it. *)

From stdpp Require Import gmap list sorting strings fin_maps.
From S2P Require Import Prelude TxnState TxnManager.

(** ** Counting references *)

Definition entry_pin (r : Z) (_ : bytes) (e : transactionEntry) : Z :=
  if te_pinned e && (te_readTS e =? r) then 1 else 0.

Definition view_pin (r : Z) (_ : bytes) (v : viewEntry) : Z :=
  if ve_revision v =? r then 1 else 0.

Definition pin_count (m : TransactionManager) (r : Z) : Z :=
  map_sum (entry_pin r) (activeByID m) + map_sum (view_pin r) (viewsByID m).

(** A reference map that holds exactly the positive counts. *)
Definition refs_exact (refs : gmap Z Z) (count : Z -> Z) : Prop :=
  forall r, refs !! r = if count r =? 0 then None else Some (count r).

Lemma refs_exact_ext refs c c' : refs_exact refs c -> (forall r, c r = c' r) -> refs_exact refs c'.
Proof. intros H E r. by rewrite <- E. Qed.

Lemma refs_exact_default refs c r : refs_exact refs c -> default 0 (refs !! r) = c r.
Proof. intros H. rewrite H. destruct (Z.eqb_spec (c r) 0); cbn; lia. Qed.

Lemma pin_exact refs c r :
  refs_exact refs c -> 0 <= c r < u64_max ->
  refs_exact (<[r := add64 (default 0 (refs !! r)) 1]> refs) (fun x => c x + if x =? r then 1 else 0).
Proof.
  intros H Hr x. rewrite (refs_exact_default _ _ _ H). unfold add64, u64_max in *.
  rewrite Z.mod_small by lia. destruct (Z.eqb_spec x r) as [->|Hx].
  - rewrite lookup_insert_eq. destruct (Z.eqb_spec (c r + 1) 0); [lia|done].
  - rewrite lookup_insert_ne by done. rewrite Z.add_0_r. apply H.
Qed.

Definition release_refs (r : Z) (refs : gmap Z Z) : gmap Z Z :=
  match refs !! r with
  | Some n => if 1 <? n then <[r := n - 1]> refs else delete r refs
  | None => delete r refs
  end.

Lemma release_exact refs c r :
  refs_exact refs c -> 0 < c r -> refs_exact (release_refs r refs) (fun x => c x - if x =? r then 1 else 0).
Proof.
  intros H Hr x. unfold release_refs. rewrite (H r). destruct (Z.eqb_spec (c r) 0) as [|Hn]; [lia|].
  destruct (Z.ltb_spec 1 (c r)), (Z.eqb_spec x r) as [->|Hx];
    rewrite ?lookup_insert_eq, ?lookup_delete_eq, ?lookup_insert_ne, ?lookup_delete_ne, ?Z.sub_0_r by done;
    try apply H; destruct (Z.eqb_spec (c r - 1) 0); try lia; done.
Qed.

(** What a release of one reference changes. *)
Lemma releaseRevisionRef_eq r m :
  releaseRevisionRefLocked r m = m <| snapshotRefs ::= release_refs r |>.
Proof.
  unfold releaseRevisionRefLocked, release_refs. destruct m as [a refs vs vr h c ab cf b n]; cbn.
  destruct (refs !! r) as [k|]; [destruct (1 <? k)|]; done.
Qed.

(** ** The invariant *)

Definition view_ok (k : bytes) (v : viewEntry) : Prop :=
  ve_id v = k /\ k <> [] /\ 0 <= ve_borrowers v /\ (ve_pinned v = true \/ 0 < ve_borrowers v).

Definition entry_ok (k : bytes) (e : transactionEntry) : Prop :=
  te_id e = k /\ k <> [] /\
  (te_pinned e = true -> te_root e = true /\ TransactionState_Terminal (te_state e) = false).

Record tm_core (m : TransactionManager) : Prop := {
  co_entries : forall k e, activeByID m !! k = Some e -> entry_ok k e;
  co_views : forall k v, viewsByID m !! k = Some v -> view_ok k v;
  co_refs : refs_exact (snapshotRefs m) (pin_count m)
}.

(** [viewsByRoot] is the index of the open views by the root that owns them. *)
Definition owned (m : TransactionManager) (root vid : bytes) : Prop :=
  root <> [] /\ exists v, viewsByID m !! vid = Some v /\ ve_rootID v = root /\ ve_pinned v = true.

Record tm_wf (m : TransactionManager) : Prop := {
  wf_core : tm_core m;
  wf_index : forall root vid, vid ∈ default ∅ (viewsByRoot m !! root) <-> owned m root vid;
  wf_nonempty : forall root, viewsByRoot m !! root <> Some ∅
}.

Lemma entry_pin_nonneg r k e : 0 <= entry_pin r k e <= 1.
Proof. unfold entry_pin. destruct (_ && _); lia. Qed.

Lemma view_pin_nonneg r k v : 0 <= view_pin r k v <= 1.
Proof. unfold view_pin. destruct (_ =? _); lia. Qed.

Lemma map_sum_at_most_size {K V} `{Countable K} (f : K -> V -> Z) (m : gmap K V) :
  (forall k v, f k v <= 1) -> map_sum f m <= Z.of_nat (size m).
Proof.
  intros Hf. induction m as [|k v m Hk IH] using map_ind; [by rewrite map_sum_empty|].
  rewrite map_sum_insert, map_size_insert_None by done. pose proof (Hf k v). lia.
Qed.

Lemma entry_sum_nonneg r m : 0 <= map_sum (entry_pin r) m.
Proof. apply map_sum_nonneg. intros. apply entry_pin_nonneg. Qed.

Lemma view_sum_nonneg r m : 0 <= map_sum (view_pin r) m.
Proof. apply map_sum_nonneg. intros. apply view_pin_nonneg. Qed.

Lemma pin_count_bounds m r :
  0 <= pin_count m r <= Z.of_nat (size (activeByID m)) + Z.of_nat (size (viewsByID m)).
Proof.
  unfold pin_count. pose proof (entry_sum_nonneg r (activeByID m)). pose proof (view_sum_nonneg r (viewsByID m)).
  pose proof (map_sum_at_most_size (entry_pin r) (activeByID m) (fun k e => proj2 (entry_pin_nonneg r k e))).
  pose proof (map_sum_at_most_size (view_pin r) (viewsByID m) (fun k e => proj2 (view_pin_nonneg r k e))). lia.
Qed.

(** A registered view holds one reference, and so does a pinned entry. *)
Lemma view_counts m k v : viewsByID m !! k = Some v -> 0 < pin_count m (ve_revision v).
Proof.
  intros Hv. unfold pin_count. rewrite (map_sum_delete _ (viewsByID m) k v Hv). unfold view_pin at 1.
  rewrite Z.eqb_refl. pose proof (entry_sum_nonneg (ve_revision v) (activeByID m)).
  pose proof (view_sum_nonneg (ve_revision v) (delete k (viewsByID m))). lia.
Qed.

Lemma entry_counts m k e :
  activeByID m !! k = Some e -> te_pinned e = true -> 0 < pin_count m (te_readTS e).
Proof.
  intros He Hp. unfold pin_count. rewrite (map_sum_delete _ (activeByID m) k e He). unfold entry_pin at 1.
  rewrite Hp, Z.eqb_refl. cbn [andb]. pose proof (entry_sum_nonneg (te_readTS e) (delete k (activeByID m))).
  pose proof (view_sum_nonneg (te_readTS e) (viewsByID m)). lia.
Qed.

(** ** Ending a view *)

(** What remains of a view whose root or owner lets go of it. *)
Definition let_go (v : viewEntry) : option viewEntry :=
  if negb (ve_pinned v) then Some v
  else if ve_borrowers v <=? 0 then None else Some (v <| ve_pinned := false |>).

(** Everything but the views and the references is the same. *)
Record views_only (m m' : TransactionManager) : Prop := {
  vo_active : activeByID m' = activeByID m;
  vo_roots : viewsByRoot m' = viewsByRoot m;
  vo_horizon : compactedHorizon m' = compactedHorizon m;
  vo_outcomes : (tm_committed m', tm_aborted m', tm_conflicts m') = (tm_committed m, tm_aborted m, tm_conflicts m);
  vo_blocks : (tm_blocks m', tm_nextBlock m') = (tm_blocks m, tm_nextBlock m)
}.

#[export] Instance views_only_preorder : PreOrder views_only.
Proof.
  split; [by intros m; constructor|]. intros m1 m2 m3 [] []. constructor; congruence.
Qed.

(** Deleting a view and its reference. *)
Lemma drop_view_core m k v :
  tm_core m -> viewsByID m !! k = Some v ->
  tm_core ((releaseRevisionRefLocked (ve_revision v) m) <| viewsByID ::= delete k |>).
Proof.
  intros Hm Hv. rewrite releaseRevisionRef_eq. constructor; cbn.
  - apply (co_entries _ Hm).
  - intros k' v' [_ H]%lookup_delete_Some. by apply (co_views _ Hm).
  - eapply refs_exact_ext.
    + apply release_exact; [apply (co_refs _ Hm)|by eapply view_counts].
    + intros r. unfold pin_count; cbn.
      rewrite map_sum_delete_any, Hv. cbn [from_option]. change (view_pin r k v) with (if ve_revision v =? r then 1 else 0).
      rewrite (Z.eqb_sym (ve_revision v)). lia.
Qed.

(** Changing flags of a view that keeps its revision. *)
Lemma change_view_core m k v v' :
  tm_core m -> viewsByID m !! k = Some v -> ve_revision v' = ve_revision v -> view_ok k v' ->
  tm_core (m <| viewsByID ::= <[k := v']> |>).
Proof.
  intros Hm Hv Hr Hok. constructor; cbn.
  - apply (co_entries _ Hm).
  - intros k' w [[<- <-]|[_ H]]%lookup_insert_Some; [done|by apply (co_views _ Hm)].
  - eapply refs_exact_ext; [apply (co_refs _ Hm)|]. intros r. unfold pin_count; cbn.
    rewrite map_sum_insert_any, Hv. cbn. unfold view_pin. rewrite Hr. lia.
Qed.

Lemma change_view_then_drop m k w r :
  (releaseRevisionRefLocked r (m <| viewsByID ::= <[k := w]> |>)) <| viewsByID ::= delete k |>
  = (releaseRevisionRefLocked r m) <| viewsByID ::= delete k |>.
Proof. rewrite !releaseRevisionRef_eq. cbn. by rewrite delete_insert_eq. Qed.

Lemma release_root_view_spec m vid :
  tm_core m ->
  tm_core (release_root_view m vid) /\ views_only m (release_root_view m vid) /\
  viewsByID (release_root_view m vid) = partial_alter (fun o => o ≫= let_go) vid (viewsByID m).
Proof.
  intros Hm. unfold release_root_view. destruct (viewsByID m !! vid) as [v|] eqn:Hv.
  2: { split_and!; [done..|]. apply map_eq. intros k. destruct (decide (k = vid)) as [->|];
       rewrite ?lookup_partial_alter_eq, ?lookup_partial_alter_ne by done; by rewrite ?Hv. }
  destruct (ve_pinned v) eqn:Hp; cbn [negb].
  2: { split_and!; [done..|]. apply map_eq. intros k. destruct (decide (k = vid)) as [->|];
       rewrite ?lookup_partial_alter_eq, ?lookup_partial_alter_ne by done; [|done].
       rewrite Hv. cbn. unfold let_go. by rewrite Hp. }
  pose proof (co_views _ Hm _ _ Hv) as (Hid & Hne & Hb & _).
  assert (forall m', viewsByID m' = partial_alter (fun o => o ≫= let_go) vid (viewsByID m) <->
    viewsByID m' = match let_go v with Some w => <[vid := w]> (viewsByID m) | None => delete vid (viewsByID m) end) as E.
  { intros m'. enough (partial_alter (fun o => o ≫= let_go) vid (viewsByID m) =
      match let_go v with Some w => <[vid := w]> (viewsByID m) | None => delete vid (viewsByID m) end) as -> by done.
    apply map_eq. intros k. destruct (decide (k = vid)) as [->|]; destruct (let_go v) eqn:El;
      rewrite ?lookup_partial_alter_eq, ?lookup_partial_alter_ne, ?lookup_insert_eq, ?lookup_insert_ne,
        ?lookup_delete_eq, ?lookup_delete_ne by done; rewrite ?Hv; cbn; done. }
  unfold let_go in E. rewrite Hp in E. cbn [negb] in E.
  destruct (Z.leb_spec (ve_borrowers v) 0).
  - rewrite change_view_then_drop. split_and!; [by apply drop_view_core|by rewrite releaseRevisionRef_eq|].
    apply E. by rewrite releaseRevisionRef_eq.
  - split_and!; [|done|by apply E]. apply (change_view_core m vid v); [done..|]. split_and!; cbn; try done. by right.
Qed.

Lemma release_views_fold l m :
  NoDup l -> tm_core m ->
  let m' := foldl release_root_view m l in
  tm_core m' /\ views_only m m' /\
  (forall k, viewsByID m' !! k = if decide (k ∈ l) then viewsByID m !! k ≫= let_go else viewsByID m !! k).
Proof.
  revert m. induction l as [|vid l IH]; intros m Hl Hm; cbn [foldl]; cbn zeta.
  { split_and!; [done..|]. intros k. case_decide as H; [by apply not_elem_of_nil in H|done]. }
  apply NoDup_cons in Hl as [Hv Hl].
  destruct (release_root_view_spec m vid Hm) as (H1 & H2 & H3).
  destruct (IH _ Hl H1) as (H4 & H5 & H6). split_and!; [done|by etrans|].
  intros k. rewrite H6, H3. destruct (decide (k = vid)) as [->|Hk].
  - rewrite lookup_partial_alter_eq, decide_False, decide_True by (done || by left). done.
  - rewrite lookup_partial_alter_ne by done. pose proof (elem_of_cons l k vid) as Hc.
    destruct (decide (k ∈ l)), (decide (k ∈ vid :: l)); try done; tauto.
Qed.

Lemma views_roots_core m f : tm_core m -> tm_core (m <| viewsByRoot ::= f |>).
Proof. intros Hm. constructor; apply Hm. Qed.

(** Everything but the views, their index and the references is the same. *)
Record views_same (m m' : TransactionManager) : Prop := {
  vs_active : activeByID m' = activeByID m;
  vs_horizon : compactedHorizon m' = compactedHorizon m;
  vs_outcomes : (tm_committed m', tm_aborted m', tm_conflicts m') = (tm_committed m, tm_aborted m, tm_conflicts m);
  vs_blocks : (tm_blocks m', tm_nextBlock m') = (tm_blocks m, tm_nextBlock m)
}.

Lemma let_go_pinned v w : let_go v = Some w -> ve_pinned w = false.
Proof. unfold let_go. repeat case_match; try done; intros [= <-]; [by bool_prop|done]. Qed.

Lemma let_go_keeps v w : let_go v = Some w -> ve_revision w = ve_revision v /\ ve_rootID w = ve_rootID v.
Proof. unfold let_go. repeat case_match; try done; by intros [= <-]. Qed.

Lemma releaseRootViews_spec `{MapRange} m rootID :
  tm_wf m ->
  let m' := releaseRootViewsLocked m rootID in
  tm_wf m' /\ views_same m m' /\
  (forall k v', viewsByID m' !! k = Some v' -> exists v, viewsByID m !! k = Some v /\
     ve_revision v' = ve_revision v /\ (ve_pinned v' = true -> v' = v)).
Proof.
  intros [Hc Hi Hn]. cbn zeta. unfold releaseRootViewsLocked.
  set (vs := default ∅ (viewsByRoot m !! rootID)).
  destruct (release_views_fold (range_set 0 vs) m (range_set_NoDup _ _) Hc) as (H1 & H2 & H3).
  set (m1 := foldl release_root_view m (range_set 0 vs)) in *.
  assert (forall k, viewsByID m1 !! k = if decide (k ∈ vs) then viewsByID m !! k ≫= let_go else viewsByID m !! k) as Hv.
  { intros k. rewrite H3. pose proof (elem_of_range_set 0 vs k). by repeat case_decide; try tauto. }
  split_and!.
  - constructor; [by apply views_roots_core| |].
    + intros root vid. cbn. rewrite (vo_roots _ _ H2). unfold owned. cbn. rewrite Hv.
      destruct (decide (root = rootID)) as [->|Hr].
      * rewrite lookup_delete_eq. cbn. split; [by intros ?%not_elem_of_empty|].
        intros (Hne & v & Hk & <- & Hp). exfalso. case_decide as Hin.
        -- destruct (viewsByID m !! vid) as [w|]; [|done]. cbn in Hk. apply let_go_pinned in Hk. congruence.
        -- apply Hin, Hi. split; [done|]. by exists v.
      * rewrite lookup_delete_ne, Hi by done. unfold owned.
        split; intros (Hne & v & Hk & Hroot & Hp); (split; [done|]).
        -- exists v. split; [|done]. rewrite decide_False; [done|]. intros Hin. apply Hi in Hin as (_ & w & Hw & Hwr & _).
           rewrite Hk in Hw. injection Hw as <-. congruence.
        -- case_decide as Hin; [|by exists v]. destruct (viewsByID m !! vid) as [w|]; [|done]. cbn in Hk.
           apply let_go_pinned in Hk. congruence.
    + intros root. cbn. rewrite (vo_roots _ _ H2). intros [_ ?]%lookup_delete_Some. by apply (Hn root).
  - destruct H2. constructor; done.
  - intros k v'. cbn. rewrite Hv. case_decide as Hin; [|intros; by exists v'].
    destruct (viewsByID m !! k) as [v|]; [|done]. cbn. intros Hg. exists v. split_and!; [done|by eapply let_go_keeps|].
    apply let_go_pinned in Hg. congruence.
Qed.

(** ** Ending a transaction *)

Lemma release_entry_refs m e k :
  tm_core m -> activeByID m !! k = Some e -> te_pinned e = true ->
  refs_exact (release_refs (te_readTS e) (snapshotRefs m))
    (fun r => map_sum (entry_pin r) (delete k (activeByID m)) + map_sum (view_pin r) (viewsByID m)).
Proof.
  intros Hm He Hp. eapply refs_exact_ext.
  - apply release_exact; [apply (co_refs _ Hm)|by eapply entry_counts].
  - intros r. unfold pin_count. rewrite map_sum_delete_any, He. cbn [from_option].
    unfold entry_pin at 3. rewrite Hp, (Z.eqb_sym (te_readTS e)). cbn [andb]. lia.
Qed.

(** Replacing an entry that holds no reference by one that holds none. *)
Lemma unpinned_refs m k (o : option transactionEntry) :
  tm_core m -> (forall e, activeByID m !! k = Some e -> te_pinned e = false) ->
  (forall e, o = Some e -> te_pinned e = false) ->
  refs_exact (snapshotRefs m)
    (fun r => map_sum (entry_pin r) (partial_alter (fun _ => o) k (activeByID m)) + map_sum (view_pin r) (viewsByID m)).
Proof.
  intros Hm He Ho. eapply refs_exact_ext; [apply (co_refs _ Hm)|]. intros r. unfold pin_count. f_equal.
  assert (from_option (entry_pin r k) 0 (activeByID m !! k) = 0) as Hz.
  { destruct (activeByID m !! k) as [e|] eqn:E; [|done]. cbn. unfold entry_pin. by rewrite (He e). }
  destruct o as [e|].
  - change (partial_alter _ k (activeByID m)) with (<[k := e]> (activeByID m)).
    rewrite map_sum_insert_any, Hz. unfold entry_pin at 3. rewrite (Ho e) by done. cbn. lia.
  - change (partial_alter _ k (activeByID m)) with (delete k (activeByID m)). rewrite map_sum_delete_any, Hz. lia.
Qed.

(** History above the compacted horizon: what is pinned is still there. *)
Definition horizon_ok (m : TransactionManager) : Prop :=
  (forall k e, activeByID m !! k = Some e -> te_pinned e = true -> compactedHorizon m <= te_readTS e) /\
  (forall k v, viewsByID m !! k = Some v -> compactedHorizon m <= ve_revision v).

Record tm_good (m : TransactionManager) : Prop := {
  tg_wf : tm_wf m;
  tg_horizon : horizon_ok m
}.

Lemma views_of_index m root vid v :
  tm_wf m -> viewsByID m !! vid = Some v -> ve_pinned v = false -> vid ∉ default ∅ (viewsByRoot m !! root).
Proof. intros Hm Hv Hp (_ & w & Hw & _ & Hq)%(wf_index _ Hm). congruence. Qed.

(** A step that leaves the views and their index alone keeps the index exact. *)
Lemma wf_active m m' :
  tm_wf m -> tm_core m' -> viewsByID m' = viewsByID m -> viewsByRoot m' = viewsByRoot m -> tm_wf m'.
Proof.
  intros Hm Hc Hv Hr. constructor; [done| |].
  - intros root vid. rewrite Hr, (wf_index _ Hm). unfold owned. by rewrite Hv.
  - intros root. rewrite Hr. apply (wf_nonempty _ Hm).
Qed.

Definition outcomes (m : TransactionManager) : Z * Z * Z := (tm_committed m, tm_aborted m, tm_conflicts m).

(** An entry that stops pinning: it is deleted, or replaced by [o]. *)
Lemma unpin_wf m k e (o : option transactionEntry) m0 :
  tm_wf m -> activeByID m !! k = Some e ->
  (forall e', o = Some e' -> te_pinned e' = false /\ te_id e' = k) ->
  activeByID m0 = partial_alter (fun _ => o) k (activeByID m) ->
  viewsByID m0 = viewsByID m -> viewsByRoot m0 = viewsByRoot m ->
  snapshotRefs m0 = (if te_pinned e then release_refs (te_readTS e) (snapshotRefs m) else snapshotRefs m) ->
  tm_wf m0.
Proof.
  intros Hm He Ho Ha Hv Hr Hs. pose proof (wf_core _ Hm) as Hc. apply (wf_active m); [done| |done..].
  constructor.
  - intros k' e'. rewrite Ha. destruct (decide (k' = k)) as [->|Hk].
    + rewrite lookup_partial_alter_eq. intros ->. destruct (Ho e' eq_refl) as [Hp Hi].
      split_and!; [done|apply (co_entries _ Hc _ _ He)|congruence].
    + rewrite lookup_partial_alter_ne by done. apply (co_entries _ Hc).
  - rewrite Hv. apply (co_views _ Hc).
  - unfold pin_count. rewrite Ha, Hv, Hs. destruct (te_pinned e) eqn:Hp.
    + eapply refs_exact_ext; [by apply release_entry_refs|]. intros r. cbn. f_equal.
      assert (forall o', partial_alter (fun _ => o') k (activeByID m) =
        match o' with Some e' => <[k := e']> (activeByID m) | None => delete k (activeByID m) end) as -> by by intros [].
      destruct o as [e'|]; [|done]. rewrite map_sum_insert_any, map_sum_delete_any.
      assert (entry_pin r k e' = 0) as -> by (unfold entry_pin; by rewrite (proj1 (Ho e' eq_refl))). lia.
    + apply unpinned_refs; [done| |by intros ? []%Ho]. intros e' He'. rewrite He in He'. by injection He' as <-.
Qed.

(** What ending a transaction leaves alone. *)
Record ends (k : bytes) (m m' : TransactionManager) : Prop := {
  en_wf : tm_wf m';
  en_others : forall x, x <> k -> activeByID m' !! x = activeByID m !! x;
  en_views : forall x v', viewsByID m' !! x = Some v' -> exists v, viewsByID m !! x = Some v /\ ve_revision v' = ve_revision v;
  en_horizon : compactedHorizon m' = compactedHorizon m
}.

Lemma release_ref_eq m e :
  releaseRefLocked m e =
  (if te_pinned e then m <| snapshotRefs ::= release_refs (te_readTS e) |> else m, e <| te_pinned := false |>).
Proof.
  unfold releaseRefLocked. destruct e as [? ? ? ? ? ? ? ? ? ? ? ? []]; cbn; [|done].
  by rewrite releaseRevisionRef_eq.
Qed.

Lemma removeLocked_spec `{MapRange} m e :
  tm_wf m -> activeByID m !! te_id e = Some e ->
  ends (te_id e) m (removeLocked m e) /\ activeByID (removeLocked m e) = delete (te_id e) (activeByID m) /\
  outcomes (removeLocked m e) = outcomes m.
Proof.
  intros Hm He. unfold removeLocked. rewrite release_ref_eq. cbn match.
  set (m0 := if te_pinned e then _ else _).
  assert (tm_wf m0) as H0.
  { apply (unpin_wf m (te_id e) e None); [done..| | | |]; subst m0; by destruct (te_pinned e). }
  assert (activeByID m0 = delete (te_id e) (activeByID m) /\ viewsByID m0 = viewsByID m /\
    compactedHorizon m0 = compactedHorizon m /\ outcomes m0 = outcomes m) as (Ha & Hv & Hh & Ho)
    by (subst m0; by destruct (te_pinned e)).
  destruct (releaseRootViews_spec m0 (te_id e) H0) as (H1 & [Ha1 Hh1 Ho1 _] & H2).
  split_and!; [|by rewrite Ha1|unfold outcomes in *; congruence]. constructor; [done|..].
  - intros x Hx. by rewrite Ha1, Ha, lookup_delete_ne.
  - intros x v' (v & Hx & Hr & _)%H2. rewrite Hv in Hx. by exists v.
  - congruence.
Qed.

(** ** Ending a family of transactions: [Unregister] and [dropDescendantsLocked]

    Removing a transaction removes exactly the transactions registered below it, and the search
    for them ends. *)

Definition child_of (m : TransactionManager) (parent child : bytes) : Prop :=
  exists e, activeByID m !! child = Some e /\ te_parentID e = parent.

(** [x] is [id] or is registered somewhere below it. *)
Definition descends (m : TransactionManager) : bytes -> bytes -> Prop := rtc (child_of m).

(** How far the removal below [id] has come: what is in [removed] is gone, the rest is as it was. *)
Record dropping (m0 : TransactionManager) (id : bytes) (m : TransactionManager) (removed : gset bytes) : Prop := {
  dr_wf : tm_wf m;
  dr_active : forall x, activeByID m !! x = if decide (x ∈ removed) then None else activeByID m0 !! x;
  dr_views : forall x v', viewsByID m !! x = Some v' -> exists v, viewsByID m0 !! x = Some v /\ ve_revision v' = ve_revision v;
  dr_horizon : compactedHorizon m = compactedHorizon m0;
  dr_outcomes : outcomes m = outcomes m0;
  dr_below : forall x, x ∈ removed -> descends m0 id x;
  dr_root : id ∈ removed
}.

Lemma dropping_one `{MapRange} m0 id m removed e :
  dropping m0 id m removed -> activeByID m !! te_id e = Some e -> te_parentID e ∈ removed ->
  dropping m0 id (removeLocked m e) ({[ te_id e ]} ∪ removed) /\
  (size (activeByID (removeLocked m e)) < size (activeByID m))%nat.
Proof.
  intros Hd He Hp. destruct (removeLocked_spec m e (dr_wf _ _ _ _ Hd) He) as ([Hw Ho Hv Hh] & Ha & Hc).
  split.
  - constructor; [done| | | | | |].
    + intros x. rewrite Ha. destruct (decide (x = te_id e)) as [->|Hx].
      * rewrite lookup_delete_eq, decide_True by set_solver. done.
      * rewrite lookup_delete_ne, (dr_active _ _ _ _ Hd) by done.
        destruct (decide (x ∈ removed)), (decide (x ∈ {[te_id e]} ∪ removed)); set_solver.
    + intros x v' (v & Hx & E)%Hv. destruct (dr_views _ _ _ _ Hd _ _ Hx) as (w & Hw' & E'). exists w. split; [done|congruence].
    + rewrite Hh. apply Hd.
    + rewrite Hc. apply Hd.
    + intros x [->%elem_of_singleton|Hx]%elem_of_union; [|by apply (dr_below _ _ _ _ Hd)].
      eapply rtc_r; [by apply (dr_below _ _ _ _ Hd)|]. exists e. split; [|done].
      rewrite (dr_active _ _ _ _ Hd) in He. by case_decide.
    + pose proof (dr_root _ _ _ _ Hd). set_solver.
  - rewrite Ha. rewrite map_size_delete_Some by done. assert (size (activeByID m) <> 0%nat); [|lia].
    intros E%map_size_empty_inv. rewrite E, lookup_empty in He. done.
Qed.

Lemma drop_grew `{MapRange} kvs m removed m' removed' grew' :
  foldl drop_one (m, removed, true) kvs = (m', removed', grew') -> grew' = true.
Proof.
  revert m removed. induction kvs as [|kv kvs IH]; intros m removed; cbn [foldl]; [by intros [= _ _ <-]|].
  unfold drop_one at 2. destruct (negb _); apply IH.
Qed.

(** One round: it leaves the state alone, or it removes something. *)
Lemma drop_round_spec `{MapRange} m0 id kvs m removed grew m' removed' grew' :
  NoDup kvs.*1 -> (forall kv, kv ∈ kvs -> activeByID m !! kv.1 = Some kv.2) ->
  dropping m0 id m removed ->
  foldl drop_one (m, removed, grew) kvs = (m', removed', grew') ->
  dropping m0 id m' removed' /\ (size (activeByID m') <= size (activeByID m))%nat /\
  (grew' = true -> grew = true \/ (size (activeByID m') < size (activeByID m))%nat) /\
  (grew' = false -> m' = m /\ removed' = removed /\ forall kv, kv ∈ kvs -> te_parentID kv.2 ∉ removed).
Proof.
  revert m removed grew. induction kvs as [|[k e] kvs IH]; intros m removed grew Hnd Hcur Hd; cbn [foldl].
  { intros [= <- <- <-]. split_and!; [done|done|by left|]. intros _. split_and!; [done..|]. by intros kv ?%not_elem_of_nil. }
  cbn in Hnd. apply NoDup_cons in Hnd as [Hk Hnd]. unfold drop_one at 2; cbn [snd].
  pose proof (Hcur (k, e) ltac:(by left)) as He; cbn in He.
  pose proof (co_entries _ (wf_core _ (dr_wf _ _ _ _ Hd)) _ _ He) as [Hid _].
  destruct (bool_decide (te_parentID e ∈ removed)) eqn:Hp; bool_prop; cbn [negb].
  - intros Hf. rewrite <- Hid in He. pose proof (drop_grew _ _ _ _ _ _ Hf) as ->. destruct (dropping_one m0 id m removed e Hd He Hp) as [Hd1 Hs].
    apply IH in Hf as (H1 & H2 & H3 & H4); [|done| |done].
    + split_and!; [done|lia|right; lia|done].
    + intros kv Hkv. destruct (removeLocked_spec m e (dr_wf _ _ _ _ Hd) He) as (_ & Ha & _).
      rewrite Ha, lookup_delete_ne; [by apply Hcur; right|]. intros E. apply Hk. rewrite <- Hid, E.
      apply list_elem_of_fmap. by exists kv.
  - intros Hf. apply IH in Hf as (H1 & H2 & H3 & H4); [|done|intros; apply Hcur; by right|done].
    split_and!; [done..|]. intros Hg. destruct (H4 Hg) as (-> & -> & H5). split_and!; [done..|].
    intros kv [->|Hkv]%elem_of_cons; [done|by apply H5].
Qed.

(** Nothing registered has a removed parent. *)
Definition no_orphans (m : TransactionManager) (removed : gset bytes) : Prop :=
  forall x e, activeByID m !! x = Some e -> te_parentID e ∉ removed.

Lemma drop_rounds_spec `{MapRange} fuel m0 id m removed :
  (size (activeByID m) < fuel)%nat -> dropping m0 id m removed ->
  exists m' removed', drop_rounds fuel m removed = (m', true) /\ dropping m0 id m' removed' /\ no_orphans m' removed'.
Proof.
  revert m removed. induction fuel as [|fuel IH]; intros m removed Hf Hd; [lia|]. cbn [drop_rounds].
  destruct (foldl drop_one (m, removed, false) (range fuel (activeByID m))) as [[m1 removed1] grew] eqn:E.
  apply (drop_round_spec m0 id) in E as (H1 & H2 & H3 & H4); [|apply range_NoDup| |done].
  2: { intros [k e] Hkv. by apply elem_of_range in Hkv. }
  destruct grew.
  - destruct (H3 eq_refl) as [|]; [done|]. apply IH; [lia|done].
  - destruct (H4 eq_refl) as (-> & -> & H5). exists m, removed. split_and!; [done..|].
    intros x e Hx. apply (H5 (x, e)). by apply elem_of_range.
Qed.

Lemma dropping_all m0 id m removed x :
  dropping m0 id m removed -> no_orphans m removed -> descends m0 id x -> x ∈ removed.
Proof.
  intros Hd Hno Hx. refine (rtc_ind_r (fun y => y ∈ removed) id _ _ x Hx); [apply Hd|].
  intros p c _ (e & Hc & Hpar) Hp. destruct (decide (c ∈ removed)) as [|Hn]; [done|]. exfalso.
  apply (Hno c e); [|by rewrite Hpar]. rewrite (dr_active _ _ _ _ Hd), decide_False; done.
Qed.

(** What removing a family leaves. *)
Lemma Unregister_spec `{MapRange} m id :
  tm_wf m -> is_Some (activeByID m !! id) ->
  (exists removed, dropping m id (Unregister m id) removed /\ (forall x, x ∈ removed <-> descends m id x)) /\
  forall e, activeByID m !! id = Some e ->
    (drop_rounds (S (size (activeByID (removeLocked m e)))) (removeLocked m e) {[ id ]}).2 = true.
Proof.
  intros Hm [e He]. unfold Unregister. rewrite He. unfold dropDescendantsLocked.
  pose proof (co_entries _ (wf_core _ Hm) _ _ He) as [Hid _]. rewrite <- Hid in He.
  destruct (removeLocked_spec m e Hm He) as ([Hw Ho Hv Hh] & Ha & Hc). rewrite Hid in *.
  assert (dropping m id (removeLocked m e) {[ id ]}) as Hd.
  { constructor; [done| |done..| |by apply elem_of_singleton].
    - intros x. rewrite Ha. case_decide as Hx; [apply elem_of_singleton in Hx as ->; apply lookup_delete_eq|].
      rewrite lookup_delete_ne; [done|]. intros <-. by apply Hx, elem_of_singleton.
    - intros x ->%elem_of_singleton. apply rtc_refl. }
  destruct (drop_rounds_spec (S (size (activeByID (removeLocked m e)))) m id (removeLocked m e) {[ id ]} ltac:(lia) Hd) as (m' & removed & E & Hd' & Hno).
  split; [|by intros ? [= <-]; rewrite E]. rewrite E. exists removed. split; [done|]. intros x. split; [apply (dr_below _ _ _ _ Hd')|by apply dropping_all with (m := m')].
Qed.
