(* ===== verification/TxnSteps.v ===== *)
(** * Runs of the transaction registry

    The methods as one step function, and what holds after every run. *)

From stdpp Require Import gmap list sorting strings fin_maps relations.
From S2P Require Import Prelude TxnState TxnManager TxnPins.

Inductive tm_op : Type :=
  | TxRegisterRoot (r : RootRegistration)
  | TxRegisterChild (r : ChildRegistration)
  | TxUnregister (id : bytes)
  | TxRegisterView (r : ViewRegistration)
  | TxReleaseView (id : bytes)
  | TxBorrowView (id : bytes)
  | TxReturnView (id : bytes)
  | TxUpdateRootReadTS (id : bytes) (readTS : Z)
  | TxTransition (id : bytes) (to : TransactionState) (o : TransitionOptions)
  | TxCompacted (horizon : Z)
  | TxReset.

Definition tm_step `{MapRange} (m : TransactionManager) (op : tm_op) : TransactionManager :=
  match op with
  | TxRegisterRoot r => (RegisterRoot m r).1
  | TxRegisterChild r => (RegisterChild m r).1
  | TxUnregister id => Unregister m id
  | TxRegisterView r => (RegisterView m r).1
  | TxReleaseView id => ReleaseView m id
  | TxBorrowView id => (BorrowView m id).1
  | TxReturnView id => ReturnView m id
  | TxUpdateRootReadTS id readTS => UpdateRootReadTS m id readTS
  | TxTransition id to o => (Transition m id to o).1
  | TxCompacted h => RecordCompactedHorizon m h
  | TxReset => TransactionManager_Reset m
  end.

(** What the store does before it calls: fewer references than a [uint64] counts; a root reads at
    the published head, which no compaction is ahead of; the read timestamp moves only while the
    root pins nothing (a lazily begun root); a compaction stays at or below every reference. *)
Definition tm_admissible `{MapRange} (m : TransactionManager) (op : tm_op) : bool :=
  let room := Z.of_nat (size (activeByID m)) + Z.of_nat (size (viewsByID m)) <? u64_max in
  match op with
  | TxRegisterRoot r => room && (compactedHorizon m <=? rr_ReadTS r)
  | TxRegisterView r => room
  | TxUpdateRootReadTS id _ => from_option (fun e => negb (te_pinned e)) true (activeByID m !! id)
  | TxCompacted h => from_option (fun oldest => h <=? oldest) true (OldestReadTS m)
  | _ => true
  end.

Fixpoint tm_run `{MapRange} (m : TransactionManager) (ops : list tm_op) : TransactionManager :=
  match ops with
  | [] => m
  | op :: ops => tm_run (tm_step m op) ops
  end.

Fixpoint tm_admitted `{MapRange} (m : TransactionManager) (ops : list tm_op) : bool :=
  match ops with
  | [] => true
  | op :: ops => tm_admissible m op && tm_admitted (tm_step m op) ops
  end.

(** ** The horizon is the least revision held *)

(** A positive sum has a positive summand. *)
Lemma map_sum_pos {K V} `{Countable K} (f : K -> V -> Z) (m : gmap K V) :
  (forall k v, 0 <= f k v) -> 0 < map_sum f m -> exists k v, m !! k = Some v /\ 0 < f k v.
Proof.
  intros Hf. induction m as [|k v m Hk IH] using map_ind; [by rewrite map_sum_empty|].
  rewrite map_sum_insert by done. intros Hs. destruct (decide (0 < f k v)) as [Hp|Hp].
  - exists k, v. by rewrite lookup_insert_eq.
  - destruct IH as (k' & v' & Hk' & Hp'); [specialize (Hf k v); lia|]. exists k', v'. split; [|done].
    rewrite lookup_insert_ne; [done|]. intros <-. congruence.
Qed.

Lemma oldest_fold_spec (l : list (Z * Z)) (acc : option Z) :
  (forall kv, kv ∈ l -> kv.2 <> 0) ->
  match foldl oldest_step acc l with
  | Some o => (acc = Some o \/ o ∈ l.*1) /\ (forall a, acc = Some a -> o <= a) /\ (forall r, r ∈ l.*1 -> o <= r)
  | None => acc = None /\ l = []
  end.
Proof.
  revert acc. induction l as [|[r n] l IH]; intros acc Hl; cbn [foldl].
  { destruct acc as [a|]; [|done]. split_and!; [by left|by intros ? [= ->]|by intros ? ?%not_elem_of_nil]. }
  assert (exists a, oldest_step acc (r, n) = Some a /\ (acc = Some a \/ a = r) /\ a <= r /\ (forall x, acc = Some x -> a <= x))
    as (a & Ea & Ha & Hr & Hle).
  { pose proof (Hl (r, n) ltac:(by left)) as Hn; cbn in Hn. cbn. destruct (Z.eqb_spec n 0); [done|].
    destruct acc as [a|]; [destruct (Z.ltb_spec r a)|]; eexists; (split_and!; [done|auto|lia|]);
      intros x [= <-] || intros x Hx; try lia; done. }
  rewrite Ea. pose proof (IH (Some a) ltac:(intros kv Hkv; apply Hl; by right)) as H.
  destruct (foldl oldest_step (Some a) l) as [o|]; [|by destruct H].
  destruct H as (H1 & H2 & H3). pose proof (H2 a eq_refl). cbn [fmap list_fmap fst]. split_and!.
  - destruct H1 as [[= ->]|H1]; [|right; by right]. destruct Ha as [->| ->]; [by left|right; by left].
  - intros x Hx%Hle. lia.
  - intros x [->|Hx]%elem_of_cons; [lia|by apply H3].
Qed.

Lemma oldest_spec `{MapRange} m :
  tm_core m ->
  match OldestReadTS m with
  | Some o => 0 < pin_count m o /\ forall r, 0 < pin_count m r -> o <= r
  | None => forall r, pin_count m r = 0
  end.
Proof.
  intros Hm. pose proof (co_refs _ Hm) as Hr. unfold OldestReadTS, oldestReadTSLocked.
  assert (forall r n, (r, n) ∈ range 0 (snapshotRefs m) -> n = pin_count m r /\ 0 < n) as Hin.
  { intros r n Hk%elem_of_range. rewrite Hr in Hk. pose proof (pin_count_bounds m r).
    destruct (Z.eqb_spec (pin_count m r) 0); [done|]. injection Hk as <-. lia. }
  assert (forall r, 0 < pin_count m r -> (r, pin_count m r) ∈ range 0 (snapshotRefs m)) as Hall.
  { intros r Hp. apply elem_of_range. rewrite Hr. destruct (Z.eqb_spec (pin_count m r) 0); [lia|done]. }
  assert (forall kv, kv ∈ range 0 (snapshotRefs m) -> kv.2 <> 0) as Hnz by (intros [r n] Hk%Hin; cbn; lia).
  pose proof (oldest_fold_spec (range 0 (snapshotRefs m)) None Hnz) as H1.
  destruct (foldl oldest_step None _) as [o|].
  - destruct H1 as ([?|([r n] & -> & Hrn)%list_elem_of_fmap] & _ & H3); [done|].
    cbn [fst]. split; [apply Hin in Hrn; lia|]. intros x Hx%Hall. apply H3.
    apply list_elem_of_fmap. by exists (x, pin_count m x).
  - destruct H1 as [_ E]. intros r. pose proof (pin_count_bounds m r).
    destruct (Z.eq_dec (pin_count m r) 0); [done|]. pose proof (Hall r ltac:(lia)) as Hk. rewrite E in Hk.
    by apply not_elem_of_nil in Hk.
Qed.

(** ** Each step keeps the invariant *)

Lemma empty_good m :
  activeByID m = ∅ -> viewsByID m = ∅ -> viewsByRoot m = ∅ -> snapshotRefs m = ∅ -> tm_good m.
Proof.
  intros Ha Hv Hr Hs. constructor; [constructor; [constructor| |]|split].
  - intros k e. by rewrite Ha, lookup_empty.
  - intros k v. by rewrite Hv, lookup_empty.
  - intros r. unfold pin_count. by rewrite Hs, Ha, Hv, lookup_empty.
  - intros root vid. unfold owned. rewrite Hr, Hv, lookup_empty. cbn. split; [by intros ?%not_elem_of_empty|].
    intros (_ & v & Hx & _). by rewrite lookup_empty in Hx.
  - intros root. by rewrite Hr, lookup_empty.
  - intros k e. by rewrite Ha, lookup_empty.
  - intros k v. by rewrite Hv, lookup_empty.
Qed.

Lemma good_new : tm_good NewTransactionManager.
Proof. by apply empty_good. Qed.

Lemma Reset_good m : tm_good (TransactionManager_Reset m).
Proof. by apply empty_good. Qed.

(** A step that ends the entry [k], if it leaves anything there, leaves it without a reference. *)
Lemma ends_good k m m' :
  tm_good m -> ends k m m' -> (forall e, activeByID m' !! k = Some e -> te_pinned e = false) -> tm_good m'.
Proof.
  intros Hm [Hw Ho Hv Hh] Hk. constructor; [done|]. split; rewrite Hh.
  - intros x e Hx Hp. destruct (decide (x = k)) as [->|Hn]; [rewrite (Hk e Hx) in Hp; done|].
    rewrite Ho in Hx by done. by apply (tg_horizon _ Hm) with (k := x).
  - intros x v' (v & Hx & ->)%Hv. by apply (tg_horizon _ Hm) with (k := x).
Qed.

Lemma Unregister_good `{MapRange} m id : tm_good m -> tm_good (Unregister m id).
Proof.
  intros Hm. destruct (activeByID m !! id) as [e|] eqn:He; [|by unfold Unregister; rewrite He].
  destruct (Unregister_spec m id (tg_wf _ Hm) ltac:(by rewrite He)) as [(removed & [Hw Ha Hv Hh _ _ _] & _) _].
  constructor; [done|]. split; rewrite Hh.
  - intros x e'. rewrite Ha. case_decide; [done|]. intros Hx. by apply (tg_horizon _ Hm) with (k := x).
  - intros x v' (v & Hx & ->)%Hv. by apply (tg_horizon _ Hm) with (k := x).
Qed.

(** A new entry, with the reference it takes. *)
Lemma add_entry_good m k e m' :
  tm_good m -> activeByID m !! k = None -> entry_ok k e ->
  (te_pinned e = true -> compactedHorizon m <= te_readTS e /\
     Z.of_nat (size (activeByID m)) + Z.of_nat (size (viewsByID m)) < u64_max) ->
  activeByID m' = <[k := e]> (activeByID m) -> viewsByID m' = viewsByID m -> viewsByRoot m' = viewsByRoot m ->
  compactedHorizon m' = compactedHorizon m ->
  snapshotRefs m' = (if te_pinned e
    then <[te_readTS e := add64 (default 0 (snapshotRefs m !! te_readTS e)) 1]> (snapshotRefs m) else snapshotRefs m) ->
  tm_good m'.
Proof.
  intros Hm Hk He Hp Ha Hv Hr Hh Hs. pose proof (wf_core _ (tg_wf _ Hm)) as Hc. constructor; [|split; rewrite Hh].
  - apply (wf_active m); [apply Hm| |done..]. constructor.
    + intros x e'. rewrite Ha. intros [[<- <-]|[_ Hx]]%lookup_insert_Some; [done|by apply (co_entries _ Hc)].
    + rewrite Hv. apply (co_views _ Hc).
    + rewrite Hs. eapply refs_exact_ext with (c := fun r => pin_count m r + entry_pin r k e).
      * unfold entry_pin. destruct (te_pinned e); cbn [andb].
        -- eapply refs_exact_ext; [apply pin_exact; [apply (co_refs _ Hc)|]|].
           ++ pose proof (pin_count_bounds m (te_readTS e)). destruct (Hp eq_refl). lia.
           ++ intros r; cbn. by rewrite (Z.eqb_sym (te_readTS e)).
        -- eapply refs_exact_ext; [apply (co_refs _ Hc)|]. intros. lia.
      * intros r. unfold pin_count. rewrite Ha, Hv, map_sum_insert by done. lia.
  - intros x e'. rewrite Ha. intros [[<- <-]|[_ Hx]]%lookup_insert_Some Hq; [by apply Hp|].
    by apply (tg_horizon _ Hm) with (k := x).
  - intros x v. rewrite Hv. apply (tg_horizon _ Hm).
Qed.

Lemma RegisterRoot_good `{MapRange} m r :
  tm_good m -> tm_admissible m (TxRegisterRoot r) = true -> tm_good (RegisterRoot m r).1.
Proof.
  intros Hm Ha. cbn in Ha. bool_prop. unfold RegisterRoot. case_bool_decide as Hne; [done|].
  case_bool_decide as Hfr; [done|]. apply eq_None_not_Some in Hfr. unfold new_block. cbn match. cbn [fst].
  destruct (rr_Lazy r); cbn [negb]; eapply (add_entry_good m (rr_ID r)); try done; by repeat split.
Qed.

Lemma RegisterChild_good m r : tm_good m -> tm_good (RegisterChild m r).1.
Proof.
  intros Hm. unfold RegisterChild. case_bool_decide as Hne; [done|]. case_bool_decide; [done|].
  case_bool_decide as Hfr; [done|]. apply eq_None_not_Some in Hfr. destruct (activeByID m !! cr_ParentID r) as [p|]; [|done].
  destruct (negb _); [done|]. unfold new_block. cbn match. cbn [fst].
  eapply (add_entry_good m (cr_ID r)); try done; by repeat split.
Qed.

(** ** Views *)

Lemma forget_root_view_spec m root0 k :
  (forall root, viewsByRoot m !! root <> Some ∅) -> default ∅ (viewsByRoot m !! []) = (∅ : gset bytes) ->
  (forall root vid, vid ∈ (default ∅ (viewsByRoot (forget_root_view root0 k m) !! root) : gset bytes) <->
     vid ∈ (default ∅ (viewsByRoot m !! root) : gset bytes) /\ (root = root0 -> vid <> k)) /\
  (forall root, viewsByRoot (forget_root_view root0 k m) !! root <> Some ∅).
Proof.
  intros Hn He. unfold forget_root_view. case_bool_decide as Hr.
  { split; [|done]. intros root vid. split; [|tauto]. intros Hin. split; [done|]. intros ->. rewrite Hr, He in Hin.
    by apply not_elem_of_empty in Hin. }
  destruct (viewsByRoot m !! root0) as [vs|] eqn:Hvs.
  2: { split; [|done]. intros root vid. split; [|tauto]. intros Hin. split; [done|]. intros ->. rewrite Hvs in Hin.
       by apply not_elem_of_empty in Hin. }
  case_bool_decide as Hem; cbn; (split; [intros root vid; destruct (decide (root = root0)) as [->|Hne]|intros root]);
    rewrite ?lookup_delete_eq, ?lookup_insert_eq, ?lookup_delete_ne, ?lookup_insert_ne by done; rewrite ?Hvs; cbn; try tauto.
  - set_solver.
  - intros [_ H]%lookup_delete_Some. by apply Hn in H.
  - set_solver.
  - intros [[_ H]|[_ H]]%lookup_insert_Some; [done|by apply Hn in H].
Qed.

(** A step on one view, which was open before: what happens to the index is decided by whether the
    view is still open. *)
Lemma view_step_wf m m' k v (o : option viewEntry) :
  tm_wf m -> viewsByID m !! k = Some v -> tm_core m' ->
  viewsByID m' = partial_alter (fun _ => o) k (viewsByID m) ->
  (forall w, o = Some w -> ve_rootID w = ve_rootID v) ->
  (if ve_pinned v && negb (from_option ve_pinned false o)
   then viewsByRoot m' = viewsByRoot (forget_root_view (ve_rootID v) k m)
   else viewsByRoot m' = viewsByRoot m /\ from_option ve_pinned false o = ve_pinned v) ->
  tm_wf m'.
Proof.
  intros Hm Hv Hc Hvs Ho Hi.
  assert (forall root vid, owned m' root vid <->
    (vid <> k /\ owned m root vid) \/ (vid = k /\ root <> [] /\ root = ve_rootID v /\ from_option ve_pinned false o = true)) as Hown.
  { intros root vid. unfold owned. rewrite Hvs. destruct (decide (vid = k)) as [->|Hn].
    - rewrite lookup_partial_alter_eq. split.
      + intros (Hne & w & -> & <- & Hp). right. split_and!; [done..|by apply Ho|done].
      + intros [[? _]|(_ & Hne & -> & Hp)]; [done|]. split; [done|]. destruct o as [w|]; [|done]. exists w.
        split_and!; [done|by apply Ho|done].
    - rewrite lookup_partial_alter_ne by done. split; [by left|]. by intros [[_ ?]|[? _]]. }
  destruct (ve_pinned v) eqn:Hp, (from_option ve_pinned false o) eqn:Hq; cbn in Hi; try (destruct Hi as [Hi ?]; done);
    [destruct Hi as [Hi _]| |destruct Hi as [Hi _]].
  - constructor; [done| |intros root; rewrite Hi; apply (wf_nonempty _ Hm)].
    intros root vid. rewrite Hi, Hown, (wf_index _ Hm). split.
    + destruct (decide (vid = k)) as [->|]; [|by left]. intros (? & w & Hw & ? & _). rewrite Hv in Hw.
      injection Hw as <-. by right.
    + intros [[_ ?]|(-> & ? & -> & _)]; [done|]. split; [done|]. by exists v.
  - assert (default ∅ (viewsByRoot m !! []) = (∅ : gset bytes)) as He0.
    { apply set_eq. intros x. rewrite (wf_index _ Hm). unfold owned. split; [by intros [? _]|by intros ?%not_elem_of_empty]. }
    destruct (forget_root_view_spec m (ve_rootID v) k (wf_nonempty _ Hm) He0) as [Hf1 Hf2].
    constructor; [done| |intros root; rewrite Hi; apply Hf2].
    + intros root vid. rewrite Hown, Hi, Hf1, (wf_index _ Hm). split.
      * intros [Hr Hk]. left. split; [|done]. intros ->. destruct Hr as (? & w & Hw & Hr & _). rewrite Hv in Hw.
        injection Hw as <-. by apply Hk.
      * intros [[? ?]|(_ & _ & _ & ?)]; done.
  - constructor; [done| |intros root; rewrite Hi; apply (wf_nonempty _ Hm)].
    intros root vid. rewrite Hi, Hown, (wf_index _ Hm). split.
    + intros Hr. left. split; [|done]. intros ->. destruct Hr as (? & w & Hw & ? & ?). congruence.
    + by intros [[_ ?]|(_ & _ & _ & ?)].
Qed.


(** A step on one view keeps what the horizon protects. *)
Lemma view_step_good m m' k v (o : option viewEntry) :
  tm_good m -> viewsByID m !! k = Some v -> tm_core m' ->
  viewsByID m' = partial_alter (fun _ => o) k (viewsByID m) ->
  (forall w, o = Some w -> ve_rootID w = ve_rootID v /\ ve_revision w = ve_revision v) ->
  activeByID m' = activeByID m -> compactedHorizon m' = compactedHorizon m ->
  (if ve_pinned v && negb (from_option ve_pinned false o)
   then viewsByRoot m' = viewsByRoot (forget_root_view (ve_rootID v) k m)
   else viewsByRoot m' = viewsByRoot m /\ from_option ve_pinned false o = ve_pinned v) ->
  tm_good m'.
Proof.
  intros Hm Hv Hc Hvs Ho Ha Hh Hi. constructor; [|split; rewrite Hh].
  - eapply (view_step_wf m m' k v o); [apply Hm|done..| |done]. intros w Hw. by apply Ho.
  - rewrite Ha. apply (tg_horizon _ Hm).
  - intros x w. rewrite Hvs. destruct (decide (x = k)) as [->|Hx].
    + rewrite lookup_partial_alter_eq. intros Hw%Ho. destruct Hw as [_ ->]. by apply (tg_horizon _ Hm) with (k := k).
    + rewrite lookup_partial_alter_ne by done. apply (tg_horizon _ Hm).
Qed.

Lemma forget_root_view_core m root k : tm_core m -> tm_core (forget_root_view root k m).
Proof. intros Hm. unfold forget_root_view. repeat case_match; try done; by apply views_roots_core. Qed.

(** [forget_root_view] only touches the index. *)
Lemma forget_root_view_same m root k :
  forget_root_view root k m = m <| viewsByRoot := viewsByRoot (forget_root_view root k m) |>.
Proof. unfold forget_root_view. destruct m. cbn. by repeat case_match. Qed.

Lemma forget_root_view_swap m root k f :
  forget_root_view root k (m <| viewsByID ::= f |>) = (forget_root_view root k m) <| viewsByID ::= f |>.
Proof. unfold forget_root_view. destruct m. cbn. by repeat case_match. Qed.

Lemma ReleaseView_good m k : tm_good m -> tm_good (ReleaseView m k).
Proof.
  intros Hm. unfold ReleaseView. destruct (viewsByID m !! k) as [v|] eqn:Hv; [|done].
  destruct (ve_pinned v) eqn:Hp; cbn [negb]; [|done]. pose proof (wf_core _ (tg_wf _ Hm)) as Hc.
  pose proof (co_views _ Hc _ _ Hv) as (Hid & Hne & Hb & _).
  rewrite forget_root_view_swap. set (m1 := forget_root_view (ve_rootID v) k m).
  assert (tm_core m1) as Hc1 by by apply forget_root_view_core.
  assert (viewsByID m1 = viewsByID m /\ activeByID m1 = activeByID m /\ compactedHorizon m1 = compactedHorizon m) as (E1 & E2 & E3)
    by (subst m1; by rewrite forget_root_view_same).
  destruct (Z.leb_spec (ve_borrowers v) 0).
  - rewrite change_view_then_drop. apply (view_step_good m _ k v None); try done; [by apply drop_view_core; rewrite ?E1|..].
    + rewrite releaseRevisionRef_eq. cbn. by rewrite E1.
    + by rewrite releaseRevisionRef_eq.
    + by rewrite releaseRevisionRef_eq.
    + rewrite Hp, releaseRevisionRef_eq. done.
  - apply (view_step_good m _ k v (Some (v <| ve_pinned := false |>))); try done.
    + apply (change_view_core m1 k v); [done|by rewrite E1|done|]. split_and!; cbn; try done. by right.
    + cbn. by rewrite E1.
    + by intros w [= <-].
    + rewrite Hp. done.
Qed.

Lemma BorrowView_good m k : tm_good m -> tm_good (BorrowView m k).1.
Proof.
  intros Hm. unfold BorrowView. destruct (viewsByID m !! k) as [v|] eqn:Hv; [|done].
  destruct (ve_pinned v) eqn:Hp; cbn [negb fst]; [|done]. pose proof (wf_core _ (tg_wf _ Hm)) as Hc.
  pose proof (co_views _ Hc _ _ Hv) as (Hid & Hne & Hb & _).
  apply (view_step_good m _ k v (Some (v <| ve_borrowers ::= Z.add 1 |>))); try done.
  - apply (change_view_core m k v); [done..|]. split_and!; cbn; try done; [lia|by left].
  - by intros w [= <-].
  - cbn. by rewrite Hp.
Qed.

Lemma ReturnView_good m k : tm_good m -> tm_good (ReturnView m k).
Proof.
  intros Hm. unfold ReturnView. destruct (viewsByID m !! k) as [v|] eqn:Hv; [|done].
  pose proof (wf_core _ (tg_wf _ Hm)) as Hc. pose proof (co_views _ Hc _ _ Hv) as (Hid & Hne & Hb & Hlive).
  set (w := if 0 <? ve_borrowers v then _ else v).
  assert (ve_revision w = ve_revision v /\ ve_rootID w = ve_rootID v /\ ve_pinned w = ve_pinned v /\ ve_id w = ve_id v /\
    0 <= ve_borrowers w) as (E1 & E2 & E3 & E4 & E5) by (subst w; destruct (Z.ltb_spec 0 (ve_borrowers v)); cbn; lia || split_and!; done || lia).
  destruct (negb (ve_pinned w) && (ve_borrowers w <=? 0)) eqn:Hz; bool_prop.
  - rewrite change_view_then_drop, E1. apply (view_step_good m _ k v None); try done; [by apply drop_view_core|..];
      rewrite releaseRevisionRef_eq; try done. rewrite <- E3, H. done.
  - apply (view_step_good m _ k v (Some w)); try done.
    + apply (change_view_core m k v); [done..|]. split_and!; [congruence|done..|by left].
    + by intros ? [= <-].
    + cbn. rewrite E3. by destruct (ve_pinned v).
  - apply (view_step_good m _ k v (Some w)); try done.
    + apply (change_view_core m k v); [done..|]. split_and!; [congruence|done..|by right].
    + by intros ? [= <-].
    + cbn. rewrite E3. by destruct (ve_pinned v).
Qed.

(** A view that is registered reads nothing a compaction has removed. *)
Lemma view_revision_check_ok `{MapRange} m r : view_revision_check m r = Ok tt -> compactedHorizon m <= vr_Revision r.
Proof. unfold view_revision_check. destruct (Z.ltb_spec (vr_Revision r) (compactedHorizon m)); [done|lia]. Qed.

Lemma RegisterView_good `{MapRange} m r :
  tm_good m -> tm_admissible m (TxRegisterView r) = true -> tm_good (RegisterView m r).1.
Proof.
  intros Hm Hroom. cbn in Hroom. bool_prop. unfold RegisterView.
  case_bool_decide as Hne; [done|]. destruct (_ <=? _); [done|]. case_bool_decide as Hfr; [done|]. apply eq_None_not_Some in Hfr.
  destruct (view_root_check m r) as [u|]; [|done]. destruct (view_revision_check m r) as [[]|] eqn:Hrev; [|done].
  apply view_revision_check_ok in Hrev. cbn [fst]. set (v := mkViewEntry _ _ _ _ _ _).
  pose proof (wf_core _ (tg_wf _ Hm)) as Hc. set (by_root := if bool_decide (vr_RootID r = []) then _ else _).
  assert (activeByID by_root = activeByID m /\ viewsByID by_root = <[vr_ID r := v]> (viewsByID m) /\
    snapshotRefs by_root = snapshotRefs m /\ compactedHorizon by_root = compactedHorizon m /\
    viewsByRoot by_root = (if bool_decide (vr_RootID r = []) then viewsByRoot m
      else <[vr_RootID r := {[ vr_ID r ]} ∪ default ∅ (viewsByRoot m !! vr_RootID r)]> (viewsByRoot m)))
    as (Ha & Hv & Hs & Hh & Hr) by (subst by_root; by case_bool_decide).
  clearbody by_root. constructor; [constructor; [constructor| |]|split]; cbn; rewrite ?Ha, ?Hv, ?Hh.
  - apply (co_entries _ Hc).
  - intros k w [[<- <-]|[_ Hk]]%lookup_insert_Some; [|by apply (co_views _ Hc)]. split_and!; try done. by left.
  - rewrite Hs. eapply refs_exact_ext.
    + apply pin_exact; [apply (co_refs _ Hc)|]. pose proof (pin_count_bounds m (vr_Revision r)). lia.
    + intros x. unfold pin_count; cbn. rewrite Ha, Hv, map_sum_insert by done. unfold view_pin at 2; cbn.
      rewrite (Z.eqb_sym (vr_Revision r)). lia.
  - intros root vid. unfold owned; cbn. rewrite Hr, Hv. pose proof (wf_index _ (tg_wf _ Hm) root vid) as Hi. unfold owned in Hi.
    assert (vid ∈ (default ∅ ((if bool_decide (vr_RootID r = []) then viewsByRoot m
      else <[vr_RootID r := {[ vr_ID r ]} ∪ default ∅ (viewsByRoot m !! vr_RootID r)]> (viewsByRoot m)) !! root) : gset bytes) <->
      vid ∈ (default ∅ (viewsByRoot m !! root) : gset bytes) \/ (vr_RootID r <> [] /\ root = vr_RootID r /\ vid = vr_ID r)) as ->.
    { case_bool_decide as Hz; [tauto|]. destruct (decide (root = vr_RootID r)) as [->|Hx].
      - rewrite lookup_insert_eq. cbn. set_solver.
      - rewrite lookup_insert_ne by done. tauto. }
    rewrite Hi. destruct (decide (vid = vr_ID r)) as [->|Hx].
    + rewrite lookup_insert_eq, Hfr. split.
      * intros [(? & w & ? & _)|(? & -> & _)]; [done|]. split; [done|]. by exists v.
      * intros (? & w & [= <-] & <- & _). by right.
    + rewrite lookup_insert_ne by done. split; [by intros [?|(? & ? & ?)]|by left].
  - intros root. rewrite Hr. case_bool_decide; [apply (wf_nonempty _ (tg_wf _ Hm))|].
    intros [[_ E]|[_ E]]%lookup_insert_Some; [set_solver|by apply (wf_nonempty _ (tg_wf _ Hm)) in E].
  - apply (tg_horizon _ Hm).
  - intros k w [[<- <-]|[_ Hk]]%lookup_insert_Some; [done|]. by apply (tg_horizon _ Hm) with (k := k).
Qed.

(** ** Lifecycle moves and the horizon *)

Lemma count_outcome_same to o m :
  activeByID (count_outcome to o m) = activeByID m /\ snapshotRefs (count_outcome to o m) = snapshotRefs m /\
  viewsByID (count_outcome to o m) = viewsByID m /\ viewsByRoot (count_outcome to o m) = viewsByRoot m /\
  compactedHorizon (count_outcome to o m) = compactedHorizon m.
Proof. unfold count_outcome. destruct (_ && _), to; done. Qed.

Lemma record_outcome_same to o e :
  te_id (record_outcome to o e) = te_id e /\ te_root (record_outcome to o e) = te_root e /\
  te_readTS (record_outcome to o e) = te_readTS e /\ te_pinned (record_outcome to o e) = te_pinned e /\
  te_state (record_outcome to o e) = to.
Proof. unfold record_outcome. destruct (to_HasCommitTS o), (bool_decide _); done. Qed.

(** An entry that keeps its reference. *)
Lemma replace_entry_good m k e e' m' :
  tm_good m -> activeByID m !! k = Some e -> entry_ok k e' -> te_readTS e' = te_readTS e -> te_pinned e' = te_pinned e ->
  activeByID m' = <[k := e']> (activeByID m) -> viewsByID m' = viewsByID m -> viewsByRoot m' = viewsByRoot m ->
  compactedHorizon m' = compactedHorizon m -> snapshotRefs m' = snapshotRefs m -> tm_good m'.
Proof.
  intros Hm Hk He Ht Hp Ha Hv Hr Hh Hs. pose proof (wf_core _ (tg_wf _ Hm)) as Hc. constructor; [|split; rewrite Hh].
  - apply (wf_active m); [apply Hm| |done..]. constructor.
    + intros x y. rewrite Ha. intros [[<- <-]|[_ Hx]]%lookup_insert_Some; [done|by apply (co_entries _ Hc)].
    + rewrite Hv. apply (co_views _ Hc).
    + rewrite Hs. eapply refs_exact_ext; [apply (co_refs _ Hc)|]. intros r. unfold pin_count.
      rewrite Ha, Hv, map_sum_insert_any, Hk. cbn. unfold entry_pin. rewrite Ht, Hp. lia.
  - intros x y. rewrite Ha. intros [[<- <-]|[_ Hx]]%lookup_insert_Some Hq.
    + rewrite Ht. rewrite Hp in Hq. by apply (tg_horizon _ Hm) with (k := k).
    + by apply (tg_horizon _ Hm) with (k := x).
  - intros x v. rewrite Hv. apply (tg_horizon _ Hm).
Qed.

Lemma transition_check_ok e to o :
  transition_check e to o = Ok tt ->
  (lifecycle (te_root e) (te_state e) to \/ (te_state e = to /\ TransactionState_Terminal to = true)) /\
  (to_HasCommitTS o = true -> te_root e = true /\ to = TransactionCommitted) /\
  (to_Conflict o = true \/ to_Reason o <> [] -> to = TransactionAborted).
Proof.
  unfold transition_check. destruct (bool_decide (to_Reason o = [])) eqn:Hr; bool_prop;
    destruct (te_state e), to, (te_root e), (to_HasCommitTS o), (to_Conflict o); cbn; intros H; try discriminate H;
    (split_and!; [first [left; constructor; done|by right]|done|by intros [?|?]]).
Qed.

(** An entry after a lifecycle move: the same transaction, in the state asked for. *)
Definition outcome_of (to : TransactionState) (o : TransitionOptions) (e e' : transactionEntry) : Prop :=
  e' = record_outcome to o e \/ e' = (record_outcome to o e) <| te_pinned := false |>.

Lemma Transition_spec `{MapRange} m id to o e :
  tm_good m -> activeByID m !! id = Some e -> transition_check e to o = Ok tt -> te_state e <> to ->
  let m' := (Transition m id to o).1 in
  tm_good m' /\ (Transition m id to o).2 = Ok tt /\
  (exists e', activeByID m' !! id = Some e' /\ outcome_of to o e e' /\
     (TransactionState_Terminal to = true -> te_pinned e' = false)) /\
  (forall x, x <> id -> activeByID m' !! x = activeByID m !! x) /\ outcomes m' = outcomes (count_outcome to o m).
Proof.
  intros Hm He Hok Hne. cbn zeta. unfold Transition. rewrite He, Hok, bool_decide_eq_false_2 by done.
  pose proof (co_entries _ (wf_core _ (tg_wf _ Hm)) _ _ He) as (Hid & Hz & Hpin).
  destruct (count_outcome_same to o m) as (Ea & Es & Ev & Er & Eh).
  destruct (record_outcome_same to o e) as (Fi & Fr & Ft & Fp & Fs).
  set (m1 := count_outcome to o m) in *. set (e1 := record_outcome to o e) in *.
  destruct (TransactionState_Terminal to) eqn:Ht.
  - rewrite release_ref_eq. cbn match. set (m2 := if te_pinned e1 then _ else m1).
    set (e2 := e1 <| te_pinned := false |>). set (m3 := m2 <| activeByID ::= <[id := e2]> |>).
    assert (activeByID m2 = activeByID m /\ viewsByID m2 = viewsByID m /\ viewsByRoot m2 = viewsByRoot m /\
      compactedHorizon m2 = compactedHorizon m /\ outcomes m2 = outcomes m1 /\
      snapshotRefs m2 = if te_pinned e then release_refs (te_readTS e) (snapshotRefs m) else snapshotRefs m)
      as (Ga & Gv & Gr & Gh & Go & Gs).
    { subst m2. rewrite <- Fp, <- Ft. destruct (te_pinned e1); cbn; rewrite ?Es; done. }
    assert (tm_wf m3) as Hw3.
    { apply (unpin_wf m id e (Some e2)); [apply Hm|done| | |done..|done]; cbn; [|by rewrite Ga].
      intros e' [= <-]. split; [done|]. change (te_id e2) with (te_id e1). congruence. }
    change (te_id e2) with (te_id e1). rewrite Fi, Hid.
    destruct (releaseRootViews_spec m3 id Hw3) as (Hw4 & [Ka Kh Ko _] & Kv). cbn [fst snd].
    fold (outcomes m3) in Ko. fold (outcomes (releaseRootViewsLocked m3 id)) in Ko.
    assert (activeByID m3 = <[id := e2]> (activeByID m)) as E3 by (cbn; by rewrite Ga).
    split_and!; [|done| | |].
    + apply (ends_good id m); [done|constructor; [done| | |]|].
      * intros x Hx. by rewrite Ka, E3, lookup_insert_ne.
      * intros x v' (v & Hx & Hr & _)%Kv. cbn in Hx. rewrite Gv in Hx. by exists v.
      * rewrite Kh. cbn. congruence.
      * intros e'. rewrite Ka, E3, lookup_insert_eq. by intros [= <-].
    + exists e2. rewrite Ka, E3, lookup_insert_eq. split_and!; [done|by right|done].
    + intros x Hx. by rewrite Ka, E3, lookup_insert_ne.
    + change (outcomes m3) with (outcomes m2) in Ko. exact (eq_trans Ko Go).
  - cbn [fst snd]. split_and!; [|done| | |done].
    + apply (replace_entry_good m id e e1); try done; cbn; [|by rewrite Ea]. split_and!; [congruence|done|].
      rewrite Fp, Fr, Fs. intros Hp%Hpin. split; [apply Hp|done].
    + exists e1. cbn. rewrite lookup_insert_eq. split_and!; [done|by left|done].
    + intros x Hx. cbn. by rewrite lookup_insert_ne, Ea.
Qed.

Lemma Transition_good `{MapRange} m id to o : tm_good m -> tm_good (Transition m id to o).1.
Proof.
  intros Hm. destruct (activeByID m !! id) as [e|] eqn:He; [|unfold Transition; by rewrite He].
  destruct (transition_check e to o) as [[]|] eqn:Hok; [|unfold Transition; by rewrite He, Hok].
  destruct (decide (te_state e = to)) as [Hs|Hs].
  - unfold Transition. by rewrite He, Hok, bool_decide_eq_true_2.
  - by destruct (Transition_spec m id to o e Hm He Hok Hs).
Qed.

Lemma UpdateRootReadTS_good `{MapRange} m id readTS :
  tm_good m -> tm_admissible m (TxUpdateRootReadTS id readTS) = true -> tm_good (UpdateRootReadTS m id readTS).
Proof.
  intros Hm Ha. unfold UpdateRootReadTS. cbn in Ha. destruct (activeByID m !! id) as [e|] eqn:He; [|done].
  cbn in Ha. bool_prop. destruct (te_root e) eqn:Hr; [|done].
  pose proof (co_entries _ (wf_core _ (tg_wf _ Hm)) _ _ He) as (Hid & Hz & _).
  set (e' := e <| te_readTS := readTS |>).
  assert (tm_wf (m <| activeByID ::= <[id := e']> |>)) as Hw.
  { apply (unpin_wf m id e (Some e')); [apply Hm|done| |done..|by rewrite Ha]. by intros ? [= <-]. }
  apply (ends_good id m); [done|constructor; [done| |..]|].
  - intros x Hx. cbn. by rewrite lookup_insert_ne.
  - intros x v'. by exists v'.
  - done.
  - intros e0. cbn. rewrite lookup_insert_eq. by intros [= <-].
Qed.

Lemma Compacted_good `{MapRange} m h :
  tm_good m -> tm_admissible m (TxCompacted h) = true -> tm_good (RecordCompactedHorizon m h).
Proof.
  intros Hm Ha. unfold RecordCompactedHorizon. destruct (compactedHorizon m <? h); [|done].
  pose proof (wf_core _ (tg_wf _ Hm)) as Hc. pose proof (oldest_spec m Hc) as Ho. cbn in Ha.
  constructor; [apply (wf_active m); [apply Hm|constructor; apply Hc|done..]|].
  assert (forall r, 0 < pin_count m r -> h <= r) as Hle.
  { intros r Hr. destruct (OldestReadTS m) as [o|]; [|rewrite Ho in Hr; lia]. cbn in Ha. bool_prop.
    apply Ho in Hr. lia. }
  split; cbn.
  - intros k e He Hp. apply Hle. by eapply entry_counts.
  - intros k v Hv. apply Hle. by eapply view_counts.
Qed.

Lemma tm_step_good `{MapRange} m op : tm_good m -> tm_admissible m op = true -> tm_good (tm_step m op).
Proof.
  intros Hm Ha. destruct op; cbn [tm_step].
  - by apply RegisterRoot_good.
  - by apply RegisterChild_good.
  - by apply Unregister_good.
  - by apply RegisterView_good.
  - by apply ReleaseView_good.
  - by apply BorrowView_good.
  - by apply ReturnView_good.
  - by apply UpdateRootReadTS_good.
  - by apply Transition_good.
  - by apply Compacted_good.
  - apply Reset_good.
Qed.

Lemma tm_run_good `{MapRange} ops m : tm_good m -> tm_admitted m ops = true -> tm_good (tm_run m ops).
Proof.
  revert m. induction ops as [|op ops IH]; intros m Hm Ha; [done|]. cbn in Ha. bool_prop.
  apply IH; [by apply tm_step_good|done].
Qed.

(** ** The lifecycle of an entry *)

Definition same_transaction (e e' : transactionEntry) : Prop :=
  te_id e' = te_id e /\ te_parentID e' = te_parentID e /\ te_root e' = te_root e /\
  te_startTS e' = te_startTS e /\ te_generation e' = te_generation e /\ te_counters e' = te_counters e.

Definition same_outcome (e e' : transactionEntry) : Prop :=
  te_state e' = te_state e /\ te_commitTS e' = te_commitTS e /\ te_hasCommitTS e' = te_hasCommitTS e /\
  te_abortReason e' = te_abortReason e.

(** What one method may do to the entry of a transaction. *)
Definition moved (e e' : transactionEntry) : Prop :=
  same_transaction e e' /\
  (same_outcome e e' \/
   lifecycle (te_root e) (te_state e) (te_state e') /\
   (te_hasCommitTS e' = true -> te_hasCommitTS e = true \/ (te_root e = true /\ te_state e' = TransactionCommitted))).

Definition entry_step (o o' : option transactionEntry) : Prop :=
  match o, o' with
  | Some e, Some e' => moved e e'
  | None, Some e' => te_state e' = TransactionActive /\ te_hasCommitTS e' = false
  | _, None => True
  end.

Lemma moved_refl e : moved e e.
Proof. split; [by repeat split|left; by repeat split]. Qed.

Lemma entry_step_refl o : entry_step o o.
Proof. destruct o; [apply moved_refl|done]. Qed.

Lemma outcome_moved e to o e' :
  transition_check e to o = Ok tt -> te_state e <> to -> outcome_of to o e e' -> moved e e'.
Proof.
  intros (Hl & Hc & _)%transition_check_ok Hne Ho. destruct Hl as [Hl|[? _]]; [|done].
  assert (te_state e' = to) as Hs by (destruct Ho as [->| ->]; unfold record_outcome; by destruct (to_HasCommitTS o), (bool_decide _)).
  split; [destruct Ho as [->| ->]; unfold record_outcome; destruct (to_HasCommitTS o), (bool_decide _); by repeat split|].
  right. rewrite Hs. split; [done|]. intros Hct. destruct (to_HasCommitTS o) eqn:E; [right; by apply Hc|left].
  destruct Ho as [->| ->]; unfold record_outcome in Hct; rewrite E in Hct; by destruct (bool_decide _).
Qed.

Lemma insert_entry_step (a a' : gmap bytes transactionEntry) k e x :
  a !! k = None -> te_state e = TransactionActive -> te_hasCommitTS e = false ->
  a' = <[k := e]> a -> entry_step (a !! x) (a' !! x).
Proof.
  intros Hk Hs Hc ->. destruct (decide (x = k)) as [->|Hx].
  - by rewrite Hk, lookup_insert_eq.
  - rewrite lookup_insert_ne by done. apply entry_step_refl.
Qed.

Lemma Register_entry_step `{MapRange} m op x :
  (exists r, op = TxRegisterRoot r) \/ (exists r, op = TxRegisterChild r) ->
  entry_step (activeByID m !! x) (activeByID (tm_step m op) !! x).
Proof.
  intros [[r ->]|[r ->]]; cbn [tm_step].
  - unfold RegisterRoot. case_bool_decide; [apply entry_step_refl|]. case_bool_decide as Hf; [apply entry_step_refl|].
    apply eq_None_not_Some in Hf. unfold new_block. cbn match. cbn [fst].
    destruct (rr_Lazy r); cbn [negb]; by refine (insert_entry_step _ _ _ _ _ Hf _ _ eq_refl).
  - unfold RegisterChild. case_bool_decide; [apply entry_step_refl|]. case_bool_decide; [apply entry_step_refl|].
    case_bool_decide as Hf; [apply entry_step_refl|]. apply eq_None_not_Some in Hf.
    destruct (activeByID m !! cr_ParentID r); [|apply entry_step_refl]. destruct (negb _); [apply entry_step_refl|].
    unfold new_block. cbn match. cbn [fst]. by refine (insert_entry_step _ _ _ _ _ Hf _ _ eq_refl).
Qed.

(** The view operations leave the entries alone. *)
Lemma views_keep_entries `{MapRange} m op :
  match op with TxRegisterView _ | TxReleaseView _ | TxBorrowView _ | TxReturnView _ | TxCompacted _ => True | _ => False end ->
  activeByID (tm_step m op) = activeByID m.
Proof.
  destruct op; intros []; cbn [tm_step].
  - unfold RegisterView. case_bool_decide; [done|]. destruct (_ <=? _); [done|]. case_bool_decide; [done|].
    destruct (view_root_check m r); [|done]. destruct (view_revision_check m r); [|done]. cbn. by case_bool_decide.
  - unfold ReleaseView. destruct (viewsByID m !! id) as [v|]; [|done]. destruct (negb _); [done|].
    rewrite releaseRevisionRef_eq, forget_root_view_same. by destruct (_ <=? _).
  - unfold BorrowView. by repeat case_match.
  - unfold ReturnView. destruct (viewsByID m !! id); [|done]. destruct (negb _ && _); [|done]. by rewrite releaseRevisionRef_eq.
  - unfold RecordCompactedHorizon. by case_match.
Qed.

Lemma step_entry `{MapRange} m op x :
  tm_good m -> entry_step (activeByID m !! x) (activeByID (tm_step m op) !! x).
Proof.
  intros Hm. destruct op; try (rewrite views_keep_entries by done; apply entry_step_refl); try (apply Register_entry_step; solve [eauto]);
    cbn [tm_step].
  - destruct (activeByID m !! id) as [e|] eqn:He; [|unfold Unregister; rewrite He; apply entry_step_refl].
    destruct (Unregister_spec m id (tg_wf _ Hm) ltac:(by rewrite He)) as [(removed & [_ Ha _ _ _ _ _] & _) _].
    rewrite Ha. case_decide; [by destruct (activeByID m !! x)|apply entry_step_refl].
  - unfold UpdateRootReadTS. destruct (activeByID m !! id) as [e|] eqn:He; [|apply entry_step_refl].
    destruct (te_root e); [|apply entry_step_refl]. cbn. destruct (decide (x = id)) as [->|Hx].
    + rewrite He, lookup_insert_eq. split; [by repeat split|left; by repeat split].
    + rewrite lookup_insert_ne by done. apply entry_step_refl.
  - destruct (activeByID m !! id) as [e|] eqn:He; [|unfold Transition; rewrite He; apply entry_step_refl].
    destruct (transition_check e to o) as [[]|] eqn:Hok; [|unfold Transition; rewrite He, Hok; apply entry_step_refl].
    destruct (decide (te_state e = to)) as [Hs|Hs].
    + unfold Transition. rewrite He, Hok, bool_decide_eq_true_2 by done. apply entry_step_refl.
    + destruct (Transition_spec m id to o e Hm He Hok Hs) as (_ & _ & (e' & He' & Ho & _) & Hx & _).
      destruct (decide (x = id)) as [->|Hn]; [|rewrite Hx by done; apply entry_step_refl].
      rewrite He, He'. by eapply outcome_moved.
  - cbn. rewrite lookup_empty. by destruct (activeByID m !! x).
Qed.

Lemma held_above_horizon m r : tm_good m -> 0 < pin_count m r -> compactedHorizon m <= r.
Proof.
  intros [_ [He Hv]] Hr. unfold pin_count in Hr.
  destruct (decide (map_sum (entry_pin r) (activeByID m) = 0)) as [E|E].
  - destruct (map_sum_pos (view_pin r) (viewsByID m)) as (k & v & Hk & Hp); [intros; apply view_pin_nonneg|lia|].
    unfold view_pin in Hp. destruct (Z.eqb_spec (ve_revision v) r) as [<-|]; [by apply Hv with (k := k)|lia].
  - destruct (map_sum_pos (entry_pin r) (activeByID m)) as (k & e & Hk & Hp); [intros; apply entry_pin_nonneg| |].
    { pose proof (entry_sum_nonneg r (activeByID m)). lia. }
    unfold entry_pin in Hp. destruct (te_pinned e) eqn:Hq; [|cbn in Hp; lia].
    destruct (Z.eqb_spec (te_readTS e) r) as [<-|]; [by apply He with (k := k)|cbn in Hp; lia].
Qed.

(** ** Properties of every run *)

(** C13: after any run of the registry whose calls keep the store's discipline, the reference count
    of a revision is exactly the number of pinned roots that read at it plus the number of
    registered views of it, and a revision nobody holds has no entry at all. *)
Theorem references_exact `{MapRange} (ops : list tm_op) (r : Z) :
  tm_admitted NewTransactionManager ops = true ->
  let m := tm_run NewTransactionManager ops in
  snapshotRefs m !! r = (if pin_count m r =? 0 then None else Some (pin_count m r)).
Proof. intros Ha. apply (co_refs _ (wf_core _ (tg_wf _ (tm_run_good ops _ good_new Ha)))). Qed.


(** C15: one method moves the entry of a registered transaction only along the edges of the
    lifecycle for its kind (a root commits, a child merges, either aborts), a commit sequence is
    recorded only by the move of a root to committed, and an ended transaction keeps its outcome as
    long as it is registered; a transaction that appears is active. *)
Theorem lifecycle_followed `{MapRange} (ops : list tm_op) (op : tm_op) (x : bytes) :
  tm_admitted NewTransactionManager ops = true ->
  let m := tm_run NewTransactionManager ops in
  entry_step (activeByID m !! x) (activeByID (tm_step m op) !! x) /\
  (forall e e', activeByID m !! x = Some e -> TransactionState_Terminal (te_state e) = true ->
     activeByID (tm_step m op) !! x = Some e' -> same_outcome e e' /\ te_pinned e = false).
Proof.
  intros Ha. pose proof (tm_run_good ops _ good_new Ha) as Hm. cbn zeta. set (m := tm_run _ _) in *.
  pose proof (step_entry m op x Hm) as Hs. split; [done|]. intros e e' He Ht He'. rewrite He, He' in Hs.
  destruct Hs as [_ [Hs|[Hl _]]]; [|by rewrite (lifecycle_leaves_running _ _ _ Hl) in Ht].
  split; [done|]. apply (co_entries _ (wf_core _ (tg_wf _ Hm))) in He as (_ & _ & Hp).
  destruct (te_pinned e); [|done]. destruct Hp as [_ Hp]; [done|]. congruence.
Qed.

(** removing a registered transaction removes exactly the transactions registered below it,
    directly or through others, and changes no other entry; the rounds of the search end, the last
    one having found nothing. *)
Theorem unregister_removes_family `{MapRange} (ops : list tm_op) (id x : bytes) (e : transactionEntry) :
  tm_admitted NewTransactionManager ops = true ->
  let m := tm_run NewTransactionManager ops in
  activeByID m !! id = Some e ->
  (descends m id x -> activeByID (Unregister m id) !! x = None) /\
  (~ descends m id x -> activeByID (Unregister m id) !! x = activeByID m !! x) /\
  (drop_rounds (S (size (activeByID (removeLocked m e)))) (removeLocked m e) {[ id ]}).2 = true.
Proof.
  intros Ha. pose proof (tm_run_good ops _ good_new Ha) as Hm. cbn zeta. set (m := tm_run _ _) in *. intros He.
  destruct (Unregister_spec m id (tg_wf _ Hm) ltac:(by rewrite He)) as [(removed & Hd & Hr) Hf].
  split_and!; [intros Hx%Hr|intros Hx|by apply Hf]; rewrite (dr_active _ _ _ _ Hd).
  - by rewrite decide_True.
  - rewrite decide_False; [done|]. by rewrite Hr.
Qed.

(** ** Concrete runs *)

Definition root_at (id : bytes) (ts : Z) : tm_op := TxRegisterRoot (mkRootRegistration id ts 1 0 false).
Definition child_at (id parent : bytes) : tm_op := TxRegisterChild (mkChildRegistration id parent 1 0).
Definition view_at (id root : bytes) (rev head : Z) : tm_op := TxRegisterView (mkViewRegistration id root rev head 1).
Definition no_options : TransitionOptions := mkTransitionOptions 0 false false [].
Definition published_at (ts : Z) : TransitionOptions := mkTransitionOptions ts true false [].

(** A root at 5 with a view, a child and a grandchild; a second root at 9; a compaction up to 5. *)
Definition family_ops : list tm_op :=
  [root_at (str "A") 5; view_at (str "v") (str "A") 5 5; TxBorrowView (str "v"); child_at (str "B") (str "A");
   child_at (str "C") (str "B"); root_at (str "D") 9; TxCompacted 5; TxTransition (str "C") TransactionMerged no_options].

Lemma family_admitted : tm_admitted NewTransactionManager family_ops = true.
Proof. vm_compute. reflexivity. Qed.

Lemma references_exact_witness : snapshotRefs (tm_run NewTransactionManager family_ops) !! 5 = Some 2.
Proof. rewrite (references_exact family_ops 5 family_admitted). vm_compute. reflexivity. Defined.


(** The child that merged cannot end in another way. *)
Lemma lifecycle_followed_witness :
  exists e e', activeByID (tm_run NewTransactionManager family_ops) !! str "C" = Some e /\
    activeByID (tm_step (tm_run NewTransactionManager family_ops)
      (TxTransition (str "C") TransactionAborted no_options)) !! str "C" = Some e' /\ same_outcome e e'.
Proof.
  pose proof (lifecycle_followed family_ops (TxTransition (str "C") TransactionAborted no_options) (str "C")
    family_admitted) as [_ H].
  set (o := activeByID (tm_run NewTransactionManager family_ops) !! str "C") in *.
  set (o' := activeByID (tm_step _ _) !! str "C") in *.
  assert (te_state <$> o = Some TransactionMerged) as Ho by (vm_compute; reflexivity).
  assert (is_Some o') as [e' He'] by (vm_compute; by eexists).
  destruct o as [e|]; [|discriminate Ho]. injection Ho as Ho. exists e, e'. split; [done|]. split; [done|].
  by apply (H e e' eq_refl ltac:(by rewrite Ho)).
Defined.

Lemma unregister_removes_family_witness :
  activeByID (Unregister (tm_run NewTransactionManager family_ops) (str "A")) !! str "C" = None.
Proof.
  set (m := tm_run NewTransactionManager family_ops).
  destruct (activeByID m !! str "A") as [e|] eqn:He; [|by vm_compute in He].
  apply (unregister_removes_family family_ops (str "A") (str "C") e family_admitted He).
  apply rtc_l with (str "B"); [|apply rtc_once].
  - destruct (activeByID m !! str "B") as [b|] eqn:Hb; [|by vm_compute in Hb]. exists b. split; [exact Hb|].
    assert (te_parentID <$> activeByID m !! str "B" = Some (str "A")) as Hp by (vm_compute; reflexivity).
    rewrite Hb in Hp. by injection Hp.
  - destruct (activeByID m !! str "C") as [b|] eqn:Hb; [|by vm_compute in Hb]. exists b. split; [exact Hb|].
    assert (te_parentID <$> activeByID m !! str "C" = Some (str "B")) as Hp by (vm_compute; reflexivity).
    rewrite Hb in Hp. by injection Hp.
Defined.

(** What the discipline on [UpdateRootReadTS] is for.  A root begun with a pinned snapshot at 5 gets
    a view of 7, and its read timestamp follows the view, as [ensureRootConsistentView] of the
    adapter does for any root: the reference of 5 then survives the root and everything it owned, so
    the horizon never moves past 5 again. *)
Definition moved_pin : TransactionManager :=
  tm_run NewTransactionManager
    [root_at (str "A") 5; view_at (str "v") (str "A") 7 7; TxUpdateRootReadTS (str "A") 7;
     TxTransition (str "A") TransactionCommitted no_options; TxUnregister (str "A")].

Lemma moved_read_timestamp_leaks :
  activeByID moved_pin = ∅ /\ viewsByID moved_pin = ∅ /\ OldestReadTS moved_pin = Some 5.
Proof. split_and!; vm_compute; reflexivity. Qed.
