(* ===== verification/Bolt.v ===== *)
(** * The interface to the key-value file: [go.etcd.io/bbolt]

    The storage library is not part of the repository, so it is a parameter: a [Bolt] gives the
    operations of a bucket and its cursors that the code calls, and [BoltLaws] states what their
    documentation promises about them, in terms of the entries of a bucket in key order.  A cursor is
    named by the key it stands on; the code moves one only inside one transaction.

    A sorted list implements the interface; the evaluated examples use it. *)

From stdpp Require Import gmap list sorting strings fin_maps.
From S2P Require Import Prelude.

(** ** Entries in key order *)

Section Entries.
Context {V : Type}.
Implicit Types (l : list (bytes * V)) (k : bytes) (e : bytes * V).

Definition key_order (a b : bytes * V) : Prop := blt a.1 b.1.

Definition ordered l : Prop := StronglySorted key_order l.

Fixpoint kv_get l k : option V :=
  match l with
  | [] => None
  | (k', v) :: l => if decide (k' = k) then Some v else kv_get l k
  end.

Fixpoint kv_put (k : bytes) (v : V) l : list (bytes * V) :=
  match l with
  | [] => [(k, v)]
  | (k', v') :: l' =>
      match bcompare k k' with
      | Lt => (k, v) :: l
      | Eq => (k, v) :: l'
      | Gt => (k', v') :: kv_put k v l'
      end
  end.

Definition kv_delete (k : bytes) l : list (bytes * V) := filter (fun e => e.1 <> k) l.

(** [Cursor.Seek]: the first entry at or after the key; [Cursor.Next], from the key the cursor is
    on: the first entry after it; [Cursor.Prev]: the last entry before it. *)
Definition kv_seek l k : option (bytes * V) := List.find (fun e => negb (bltb e.1 k)) l.
Definition kv_next l k : option (bytes * V) := List.find (fun e => bltb k e.1) l.
Definition kv_prev l k : option (bytes * V) := last (filter (fun e => bltb e.1 k) l).
End Entries.

(** ** The library *)

Class Bolt : Type := {
  bucket : Type -> Type;
  b_empty : forall {V}, bucket V;
  b_get : forall {V}, bucket V -> bytes -> option V;
  b_put : forall {V}, bytes -> V -> bucket V -> bucket V;
  b_delete : forall {V}, bytes -> bucket V -> bucket V;
  b_first : forall {V}, bucket V -> option (bytes * V);
  b_last : forall {V}, bucket V -> option (bytes * V);
  b_seek : forall {V}, bucket V -> bytes -> option (bytes * V);
  b_next : forall {V}, bucket V -> bytes -> option (bytes * V);
  b_prev : forall {V}, bucket V -> bytes -> option (bytes * V);
  b_entries : forall {V}, bucket V -> list (bytes * V)
}.

Class BoltLaws `{Bolt} : Prop := {
  entries_ordered : forall V (b : bucket V), ordered (b_entries b);
  entries_empty : forall V, b_entries (b_empty : bucket V) = [];
  get_entries : forall V (b : bucket V) k, b_get b k = kv_get (b_entries b) k;
  put_entries : forall V (b : bucket V) k v, b_entries (b_put k v b) = kv_put k v (b_entries b);
  delete_entries : forall V (b : bucket V) k, b_entries (b_delete k b) = kv_delete k (b_entries b);
  first_entries : forall V (b : bucket V), b_first b = head (b_entries b);
  last_entries : forall V (b : bucket V), b_last b = last (b_entries b);
  seek_entries : forall V (b : bucket V) k, b_seek b k = kv_seek (b_entries b) k;
  next_entries : forall V (b : bucket V) k, b_next b k = kv_next (b_entries b) k;
  prev_entries : forall V (b : bucket V) k, b_prev b k = kv_prev (b_entries b) k
}.

(** ** Facts about ordered entries *)

Section Facts.
Context {V : Type}.
Implicit Types (l : list (bytes * V)) (k : bytes) (e : bytes * V).

Lemma ordered_cons_inv e l : ordered (e :: l) -> ordered l /\ forall e', e' ∈ l -> blt e.1 e'.1.
Proof. intros H. apply StronglySorted_inv in H as [H1 H2]. split; [done|]. by apply Forall_forall. Qed.

Lemma ordered_cons e l : ordered l -> (forall e', e' ∈ l -> blt e.1 e'.1) -> ordered (e :: l).
Proof. intros. constructor; [done|]. by apply Forall_forall. Qed.

Lemma ordered_nil : ordered ([] : list (bytes * V)).
Proof. constructor. Qed.

Lemma kv_get_elem l k v : ordered l -> kv_get l k = Some v <-> (k, v) ∈ l.
Proof.
  induction l as [|[k' v'] l IH]; intros Hl; cbn.
  { split; [done|by intros ?%not_elem_of_nil]. }
  apply ordered_cons_inv in Hl as [Hl Hlt]. rewrite elem_of_cons. case_decide as Hk.
  - subst k'. split; [intros [= ->]; by left|]. intros [[= ->]|Hin]; [done|].
    apply Hlt in Hin. by apply blt_irrefl in Hin.
  - rewrite IH by done. split; [by right|]. by intros [[= -> ->]|?].
Qed.

Lemma kv_get_None l k : kv_get l k = None <-> k ∉ l.*1.
Proof.
  induction l as [|[k' v'] l IH]; cbn; [split; [by intros _ ?%not_elem_of_nil|done]|].
  rewrite elem_of_cons. case_decide as Hk; [subst; split; [done|tauto]|]. rewrite IH. naive_solver.
Qed.

Lemma kv_put_elem k v l e : ordered l -> e ∈ kv_put k v l <-> e = (k, v) \/ (e.1 <> k /\ e ∈ l).
Proof.
  induction l as [|[k' v'] l IH]; intros Hl; cbn.
  { rewrite list_elem_of_singleton. split; [by left|]. by intros [?|[_ ?%not_elem_of_nil]]. }
  apply ordered_cons_inv in Hl as [Hl Hlt]. cbn in Hlt. destruct (bcompare k k') eqn:E.
  - apply bcompare_eq in E as ->. rewrite !elem_of_cons. split; [|naive_solver].
    intros [->|Hin]; [by left|]. right. split; [|by right]. intros Hk. apply Hlt in Hin. rewrite Hk in Hin.
    by apply blt_irrefl in Hin.
  - rewrite !elem_of_cons. split; [|naive_solver]. intros [->|[->|Hin]]; [by left|right..].
    + split; [|by left]. cbn. intros ->. by apply blt_irrefl in E.
    + split; [|by right]. intros Hk. apply Hlt in Hin. rewrite Hk in Hin. by apply (blt_irrefl k), (blt_trans _ k').
  - rewrite !elem_of_cons, IH by done. apply bcompare_gt in E. split; [|naive_solver].
    intros [->|[->|[? ?]]]; [right|by left|right; split; [done|by right]]. split; [|by left]. cbn. intros ->.
    by apply blt_irrefl in E.
Qed.

Lemma kv_put_ordered k v l : ordered l -> ordered (kv_put k v l).
Proof.
  induction l as [|[k' v'] l IH]; intros Hl; cbn; [by repeat constructor|].
  pose proof Hl as Hl'. apply ordered_cons_inv in Hl as [Hl Hlt]. destruct (bcompare k k') eqn:E.
  - apply bcompare_eq in E as ->. by apply ordered_cons.
  - apply ordered_cons; [done|]. intros e [->|He]%elem_of_cons; [done|]. apply Hlt in He. by apply (blt_trans _ k').
  - apply ordered_cons; [by apply IH|]. intros e [->|[_ He]]%kv_put_elem; [by apply bcompare_gt|by apply Hlt|done].
Qed.

Lemma kv_delete_elem k l e : e ∈ kv_delete k l <-> e.1 <> k /\ e ∈ l.
Proof. unfold kv_delete. by rewrite list_elem_of_filter. Qed.

Lemma filter_ordered (P : bytes * V -> Prop) `{forall e, Decision (P e)} l : ordered l -> ordered (filter P l).
Proof.
  induction l as [|e l IH]; intros Hl; [done|]. apply ordered_cons_inv in Hl as [Hl Hlt]. rewrite filter_cons.
  case_decide; [|by apply IH]. apply ordered_cons; [by apply IH|]. intros e' [_ He]%list_elem_of_filter. by apply Hlt.
Qed.

Lemma kv_delete_ordered k l : ordered l -> ordered (kv_delete k l).
Proof. apply filter_ordered. Qed.

(** Two ordered lists with the same elements are the same list. *)
Lemma ordered_unique l l' : ordered l -> ordered l' -> (forall e, e ∈ l <-> e ∈ l') -> l = l'.
Proof.
  revert l'. induction l as [|e l IH]; intros [|e' l'] Hl Hl' H; [done|..].
  - exfalso. by apply (not_elem_of_nil e'), H, elem_of_cons; left.
  - exfalso. by apply (not_elem_of_nil e), H, elem_of_cons; left.
  - apply ordered_cons_inv in Hl as [Hl Hlt], Hl' as [Hl' Hlt'].
    assert (e = e') as ->.
    { pose proof (proj1 (H e) ltac:(by left)) as He. pose proof (proj2 (H e') ltac:(by left)) as He'.
      apply elem_of_cons in He as [?|He], He' as [?|He']; try done. apply Hlt' in He. apply Hlt in He'.
      exfalso. by apply (blt_irrefl e.1), (blt_trans _ e'.1). }
    f_equal. apply IH; [done..|]. intros x. specialize (H x). rewrite !elem_of_cons in H.
    split; intros Hx.
    + destruct (proj1 H (or_intror Hx)) as [->|]; [|done]. apply Hlt in Hx. by apply blt_irrefl in Hx.
    + destruct (proj2 H (or_intror Hx)) as [->|]; [|done]. apply Hlt' in Hx. by apply blt_irrefl in Hx.
Qed.

(** ** Looking up after an update *)

Lemma kv_get_put k v l k' : ordered l -> kv_get (kv_put k v l) k' = if decide (k' = k) then Some v else kv_get l k'.
Proof.
  intros Hl. apply option_eq. intros w. rewrite kv_get_elem, kv_put_elem by (done || by apply kv_put_ordered).
  case_decide as Hk.
  - subst k'. split; [by intros [[= ->]|[? _]]|]. intros [= ->]. by left.
  - rewrite kv_get_elem by done. split; [by intros [[= -> _]|[_ ?]]|]. by right.
Qed.

Lemma kv_get_delete k l k' : ordered l -> kv_get (kv_delete k l) k' = if decide (k' = k) then None else kv_get l k'.
Proof.
  intros Hl. apply option_eq. intros w. rewrite kv_get_elem, kv_delete_elem by by apply kv_delete_ordered. cbn.
  case_decide as Hk; [split; [by intros [? _]|done]|]. rewrite kv_get_elem by done. tauto.
Qed.
End Facts.

(** ** Cursor loops *)

Lemma find_filter {A} (f : A -> bool) (l : list A) : List.find f l = head (filter f l).
Proof. induction l as [|x l IH]; [done|]. cbn [List.find]. rewrite filter_cons. by destruct (f x). Qed.

Lemma filter_all {A} (f : A -> bool) (l : list A) : (forall e, e ∈ l -> f e = true) -> filter f l = l.
Proof.
  intros H. induction l as [|e l IH]; [done|]. rewrite filter_cons, decide_True by (apply Is_true_true, H; by left).
  f_equal. apply IH. intros. apply H. by right.
Qed.

Lemma filter_none {A} (f : A -> bool) (l : list A) : (forall e, e ∈ l -> f e = false) -> filter f l = [].
Proof.
  intros H. induction l as [|e l IH]; [done|]. rewrite filter_cons, decide_False; [apply IH|].
  - intros. apply H. by right.
  - rewrite (H e) by (by left). cbn. tauto.
Qed.

Section Cursors.
Context {V : Type}.
Implicit Types (l : list (bytes * V)) (k : bytes) (e : bytes * V).

Lemma ordered_app_inv l1 l2 : ordered (l1 ++ l2) ->
  ordered l1 /\ ordered l2 /\ forall e1 e2, e1 ∈ l1 -> e2 ∈ l2 -> blt e1.1 e2.1.
Proof.
  induction l1 as [|e l1 IH]; cbn; intros H.
  - split_and!; [constructor|done|by intros ? ? ?%not_elem_of_nil].
  - apply ordered_cons_inv in H as [H Hlt]. apply IH in H as (H1 & H2 & H3). split_and!; [|done|].
    + apply ordered_cons; [done|]. intros. apply Hlt, elem_of_app. by left.
    + intros e1 e2 [->|He]%elem_of_cons He2; [|by apply H3]. apply Hlt, elem_of_app. by right.
Qed.

Lemma kv_prev_split l1 l2 k :
  (forall e, e ∈ l1 -> blt e.1 k) -> (forall e, e ∈ l2 -> ~ blt e.1 k) -> kv_prev (l1 ++ l2) k = last l1.
Proof.
  intros H1 H2. unfold kv_prev. rewrite filter_app, (filter_all _ l1), (filter_none _ l2), app_nil_r; [done|..].
  - intros e He%H2. by rewrite bltb_false, <- not_blt.
  - intros e He%H1. by apply bltb_spec.
Qed.

Lemma kv_seek_split l1 l2 k :
  (forall e, e ∈ l1 -> blt e.1 k) -> (forall e, e ∈ l2 -> ~ blt e.1 k) -> kv_seek (l1 ++ l2) k = head l2.
Proof.
  intros H1 H2. unfold kv_seek. rewrite find_filter, filter_app, (filter_none _ l1), (filter_all _ l2); [done|..].
  - intros e He%H2. by rewrite negb_true_iff, bltb_false, <- not_blt.
  - intros e He%H1. rewrite negb_false_iff. by apply bltb_spec.
Qed.

Lemma kv_next_split l1 e l2 : ordered (l1 ++ e :: l2) -> kv_next (l1 ++ e :: l2) e.1 = head l2.
Proof.
  intros Ho. apply ordered_app_inv in Ho as (_ & Ho & Hlt). apply ordered_cons_inv in Ho as [_ Hgt].
  unfold kv_next. rewrite find_filter, filter_app, (filter_none _ l1), filter_cons, decide_False, (filter_all _ l2); [done|..].
  - intros e' He'%Hgt. by apply bltb_spec.
  - intros H%Is_true_true. apply bltb_spec in H. by apply blt_irrefl in H.
  - intros e' He'. rewrite bltb_false. apply blt_le, Hlt; [done|by left].
Qed.

Lemma kv_prev_at l1 e l2 : ordered (l1 ++ e :: l2) -> kv_prev (l1 ++ e :: l2) e.1 = last l1.
Proof.
  intros Ho. apply ordered_app_inv in Ho as (_ & Ho & Hlt). apply ordered_cons_inv in Ho as [_ Hgt].
  apply kv_prev_split; [intros e' He'; apply Hlt; [done|by left]|].
  intros e' [->|He']%elem_of_cons; [apply blt_irrefl|]. apply not_blt, blt_le, Hgt, He'.
Qed.

(** An ordered list splits into what is below a key and the rest. *)
Lemma ordered_split l k : ordered l ->
  exists l1 l2, l = l1 ++ l2 /\ (forall e, e ∈ l1 -> blt e.1 k) /\ (forall e, e ∈ l2 -> ~ blt e.1 k).
Proof.
  induction l as [|e l IH]; intros Ho.
  { exists [], []. split_and!; [done|by intros ? ?%not_elem_of_nil..]. }
  pose proof Ho as [Ho' Hlt]%ordered_cons_inv. destruct (decide (blt e.1 k)) as [Hk|Hk].
  - destruct (IH Ho') as (l1 & l2 & -> & H1 & H2). exists (e :: l1), l2. split_and!; [done| |done].
    by intros e' [->|He']%elem_of_cons; [|apply H1].
  - exists [], (e :: l). split_and!; [done|by intros ? ?%not_elem_of_nil|].
    intros e' [->|He'%Hlt]%elem_of_cons; [done|]. intros Hlt'. by apply Hk, (blt_trans _ e'.1).
Qed.
End Cursors.

(** [for ; k != nil; k, v = c.Prev()] whose body may return. *)
Fixpoint back_find `{Bolt} {V R} (b : bucket V) (f : bytes * V -> option R) (fuel : nat)
    (cur : option (bytes * V)) : option R :=
  match cur with
  | None => None
  | Some e =>
      match f e with
      | Some r => Some r
      | None =>
          match fuel with
          | O => None
          | S fuel => back_find b f fuel (b_prev b e.1)
          end
      end
  end.

(** The number of steps a loop over a bucket can make. *)
Definition b_size `{Bolt} {V} (b : bucket V) : nat := length (b_entries b).

Lemma back_find_spec `{BoltLaws} {V R} (b : bucket V) (f : bytes * V -> option R) fuel l1 l2 :
  b_entries b = l1 ++ l2 -> (length l1 <= fuel)%nat ->
  back_find b f fuel (last l1) = head (omap f (reverse l1)).
Proof.
  revert l1 l2. induction fuel as [|fuel IH]; intros l1 l2 Hb Hf.
  { destruct l1; [done|cbn in Hf; lia]. }
  destruct l1 as [|e l1] using rev_ind; [done|]. clear IHl1.
  rewrite last_snoc, reverse_snoc. cbn [back_find omap list_omap]. destruct (f e) as [r|]; [done|].
  rewrite prev_entries, Hb, <- app_assoc. cbn [app]. rewrite kv_prev_at.
  - apply (IH l1 (e :: l2)); [by rewrite Hb, <- app_assoc|]. rewrite length_app in Hf. cbn in Hf. lia.
  - rewrite app_assoc_reverse in Hb. cbn in Hb. rewrite <- Hb. apply entries_ordered.
Qed.

(** The search for the last entry at or before a key: [Seek], then [Last] or [Prev]. *)
Definition seek_back `{Bolt} {V} (b : bucket V) (k : bytes) : option (bytes * V) :=
  match b_seek b k with
  | None => b_last b
  | Some e => if bltb k e.1 then b_prev b e.1 else Some e
  end.

Lemma seek_back_spec `{BoltLaws} {V} (b : bucket V) k :
  exists l1 l2, b_entries b = l1 ++ l2 /\ seek_back b k = last l1 /\
    (forall e, e ∈ l1 -> ble e.1 k) /\ (forall e, e ∈ l2 -> blt k e.1).
Proof.
  pose proof (entries_ordered V b) as Ho.
  destruct (ordered_split (b_entries b) k Ho) as (l1 & l2 & Hb & H1 & H2).
  unfold seek_back. rewrite seek_entries, last_entries, Hb, kv_seek_split by done.
  destruct l2 as [|e l2]; cbn [head].
  { exists l1, []. rewrite app_nil_r. split_and!; [done..| |by intros ? ?%not_elem_of_nil]. intros e He. by apply blt_le, H1. }
  rewrite Hb in Ho. destruct (bltb k e.1) eqn:Hk.
  - apply bltb_spec in Hk. exists l1, (e :: l2). rewrite prev_entries, Hb, kv_prev_at by done.
    split_and!; [done..|intros x Hx; by apply blt_le, H1|].
    apply ordered_app_inv in Ho as (_ & Ho & _). apply ordered_cons_inv in Ho as [_ Hgt].
    intros x [->|Hx]%elem_of_cons; [done|]. apply (blt_trans _ e.1); [done|by apply Hgt].
  - apply bltb_false in Hk. assert (e.1 = k) as He.
    { apply ble_antisym; [done|]. apply not_blt, H2. by left. }
    exists (l1 ++ [e]), l2. rewrite last_snoc, <- app_assoc. split_and!; [done..| |].
    + intros x [Hx| ->%list_elem_of_singleton]%elem_of_app; [by apply blt_le, H1|]. by rewrite He.
    + apply ordered_app_inv in Ho as (_ & Ho & _). apply ordered_cons_inv in Ho as [_ Hgt]. rewrite <- He. apply Hgt.
Qed.

(** [for ; k != nil; k, v = c.Next()] whose body may break; [f] tells whether to go on. *)
Fixpoint fwd_loop `{Bolt} {V St} (b : bucket V) (f : St -> bytes * V -> St * bool) (fuel : nat) (st : St)
    (cur : option (bytes * V)) : St :=
  match cur with
  | None => st
  | Some e =>
      let '(st, go) := f st e in
      if go : bool then
        match fuel with
        | O => st
        | S fuel => fwd_loop b f fuel st (b_next b e.1)
        end
      else st
  end.

(** The same loop over a list. *)
Fixpoint while_fold {A St} (f : St -> A -> St * bool) (st : St) (l : list A) : St :=
  match l with
  | [] => st
  | x :: l => let '(st, go) := f st x in if go : bool then while_fold f st l else st
  end.

Lemma fwd_loop_spec `{BoltLaws} {V St} (b : bucket V) (f : St -> bytes * V -> St * bool) fuel st l1 l2 :
  b_entries b = l1 ++ l2 -> (length l2 <= fuel)%nat -> fwd_loop b f fuel st (head l2) = while_fold f st l2.
Proof.
  revert st l1 l2. induction fuel as [|fuel IH]; intros st l1 [|e l2] Hb Hf; try done; [cbn in Hf; lia|].
  cbn [head fwd_loop while_fold]. destruct (f st e) as [st' []]; [|done].
  rewrite next_entries, Hb, kv_next_split by (rewrite <- Hb; apply entries_ordered).
  apply (IH st' (l1 ++ [e]) l2); [by rewrite <- app_assoc|cbn in Hf; lia].
Qed.

(** [Seek] splits the entries. *)
Lemma seek_spec `{BoltLaws} {V} (b : bucket V) k :
  exists l1 l2, b_entries b = l1 ++ l2 /\ b_seek b k = head l2 /\
    (forall e, e ∈ l1 -> blt e.1 k) /\ (forall e, e ∈ l2 -> ble k e.1).
Proof.
  destruct (ordered_split (b_entries b) k (entries_ordered V b)) as (l1 & l2 & Hb & H1 & H2).
  exists l1, l2. rewrite seek_entries, Hb, kv_seek_split by done. split_and!; [done..|]. intros e He. by apply not_blt, H2.
Qed.

(** ** The interface implemented by sorted lists *)

Record sorted_entries (V : Type) : Type := mkSorted {
  sorted_list : list (bytes * V);
  sorted_ok : ordered sorted_list
}.
Arguments mkSorted {V}.
Arguments sorted_list {V}.
Arguments sorted_ok {V}.

#[export] Instance list_bolt : Bolt | 100 := {|
  bucket := sorted_entries;
  b_empty := fun V => mkSorted [] ordered_nil;
  b_get := fun V b k => kv_get (sorted_list b) k;
  b_put := fun V k v b => mkSorted (kv_put k v (sorted_list b)) (kv_put_ordered k v _ (sorted_ok b));
  b_delete := fun V k b => mkSorted (kv_delete k (sorted_list b)) (kv_delete_ordered k _ (sorted_ok b));
  b_first := fun V b => head (sorted_list b);
  b_last := fun V b => last (sorted_list b);
  b_seek := fun V b k => kv_seek (sorted_list b) k;
  b_next := fun V b k => kv_next (sorted_list b) k;
  b_prev := fun V b k => kv_prev (sorted_list b) k;
  b_entries := fun V => sorted_list
|}.

#[export] Instance list_bolt_laws : BoltLaws | 100.
Proof. split; try done. intros V b. apply sorted_ok. Qed.

(** ** Cursors that delete

    The library's documentation leaves open where a cursor stands after it has deleted its entry: it
    may have passed over entries.  [b_after_delete] is where [Cursor.Next] goes then, in the bucket as
    it is after the deletion; the laws say only that it moves forward over entries of the bucket. *)

Class DeletingCursor `{Bolt} : Type := {
  b_after_delete : forall {V}, bucket V -> bytes -> option (bytes * V)
}.

Class DeletingCursorLaws `{DeletingCursor} : Prop := {
  after_delete_entry : forall V (b : bucket V) k e, b_after_delete b k = Some e -> e ∈ b_entries b /\ blt k e.1
}.

(** Without passing over any. *)
#[export] Instance list_cursor : DeletingCursor | 100 := {| b_after_delete := fun V b k => b_next b k |}.

Lemma find_elem {A} (f : A -> bool) (l : list A) x : List.find f l = Some x -> x ∈ l /\ f x = true.
Proof.
  rewrite find_filter. intros Hx.
  assert (x ∈ filter f l) as [Hf Hin]%list_elem_of_filter by (destruct (filter f l); [done|injection Hx as ->; by left]).
  split; [done|]. by apply Is_true_true.
Qed.

#[export] Instance list_cursor_laws : DeletingCursorLaws | 100.
Proof. split. intros V b k e [Hin Hk]%find_elem. split; [done|]. by apply bltb_spec. Qed.

Section Facts.
Context `{BoltLaws} {V : Type}.

Lemma elem_delete (b : bucket V) k e : e ∈ b_entries (b_delete k b) <-> e.1 <> k /\ e ∈ b_entries b.
Proof. rewrite delete_entries. apply kv_delete_elem. Qed.

Lemma get_delete (b : bucket V) k k' : b_get (b_delete k b) k' = if decide (k' = k) then None else b_get b k'.
Proof. rewrite !get_entries, delete_entries. apply kv_get_delete, entries_ordered. Qed.

Lemma first_elem (b : bucket V) e : b_first b = Some e -> e ∈ b_entries b.
Proof. rewrite first_entries. destruct (b_entries b); [done|]. intros [= ->]. by left. Qed.

Lemma seek_elem (b : bucket V) k e : b_seek b k = Some e -> e ∈ b_entries b /\ ble k e.1.
Proof.
  rewrite seek_entries. intros [Hin Hk]%find_elem. split; [done|]. apply negb_true_iff in Hk.
  apply not_blt. by rewrite <- bltb_spec, Hk.
Qed.

Lemma next_elem (b : bucket V) k e : b_next b k = Some e -> e ∈ b_entries b /\ blt k e.1.
Proof. rewrite next_entries. intros [Hin Hk]%find_elem. split; [done|]. by apply bltb_spec. Qed.

(** The entry found is the first. *)
Lemma find_first (f : bytes * V -> bool) (l : list (bytes * V)) e :
  ordered l -> e ∈ l -> f e = true -> exists x, List.find f l = Some x /\ ble x.1 e.1.
Proof.
  induction l as [|y l IH]; intros Ho He Hf; [by apply not_elem_of_nil in He|]. apply ordered_cons_inv in Ho as [Ho Hlt].
  cbn. apply elem_of_cons in He as [<-|He].
  - rewrite Hf. exists e. split; [done|]. apply ble_lt_or_eq. by right.
  - destruct (f y); [|by apply IH]. exists y. split; [done|]. by apply blt_le, Hlt.
Qed.

Lemma first_first (b : bucket V) e : e ∈ b_entries b -> exists x, b_first b = Some x /\ ble x.1 e.1.
Proof.
  rewrite first_entries. intros He. destruct (find_first (fun _ => true) (b_entries b) e (entries_ordered _ _) He eq_refl) as (x & Hx & Hle).
  exists x. split; [|done]. by destruct (b_entries b).
Qed.

Lemma seek_first (b : bucket V) k e : e ∈ b_entries b -> ble k e.1 -> exists x, b_seek b k = Some x /\ ble x.1 e.1.
Proof.
  rewrite seek_entries. intros He Hk. apply find_first; [apply entries_ordered|done|]. apply negb_true_iff, bltb_false. done.
Qed.

Lemma next_first (b : bucket V) k e : e ∈ b_entries b -> blt k e.1 -> exists x, b_next b k = Some x /\ ble x.1 e.1.
Proof. rewrite next_entries. intros He Hk. apply find_first; [apply entries_ordered|done|]. by apply bltb_spec. Qed.

Lemma filter_shorter {A} (P : A -> Prop) `{forall x, Decision (P x)} (l : list A) x :
  x ∈ l -> ~ P x -> (length (filter P l) < length l)%nat.
Proof.
  intros Hx Hn. induction l as [|y l IH]; [by apply not_elem_of_nil in Hx|]. rewrite filter_cons.
  apply elem_of_cons in Hx as [<-|Hx].
  - rewrite decide_False by done. cbn. pose proof (length_filter P l). lia.
  - specialize (IH Hx). case_decide; cbn; lia.
Qed.

Lemma delete_smaller (b : bucket V) e : e ∈ b_entries b -> (b_size (b_delete e.1 b) < b_size b)%nat.
Proof. intros He. unfold b_size. rewrite delete_entries. apply (filter_shorter _ _ e); [done|]. by intros []. Qed.
End Facts.
