(* ===== verification/Keys.v ===== *)
(** * Keys and records of the versioned store

    Logical keys and commit sequences ([mvcc/store.go]), the flat version keys ([mvcc/layout.go],
    [mvcc/layout_export.go]) and the records of a private write set ([mvcc/stage_codec.go]).

    A [uint64] is a [Z] in range; [number] and [sequence] are its big-endian image. *)

From stdpp Require Import gmap list sorting strings fin_maps.
From Stdlib Require Import Strings.Byte.
From S2P Require Import Prelude TxnState.

(** ** Prefixes: [bytes.HasPrefix] *)

Definition has_prefix (p s : bytes) : bool := bool_decide (take (length p) s = p).
Definition trim_prefix (p s : bytes) : bytes := drop (length p) s.

Lemma has_prefix_spec p s : has_prefix p s = true <-> exists t, s = p ++ t.
Proof.
  unfold has_prefix. rewrite bool_decide_eq_true. split.
  - intros H. exists (drop (length p) s). by rewrite <- H at 1; rewrite take_drop.
  - intros [t ->]. by rewrite take_app_length.
Qed.

Lemma has_prefix_app p t : has_prefix p (p ++ t) = true.
Proof. apply has_prefix_spec. by exists t. Qed.

Lemma trim_prefix_app p t : trim_prefix p (p ++ t) = t.
Proof. unfold trim_prefix. by rewrite drop_app_length. Qed.

#[export] Hint Rewrite trim_prefix_app has_prefix_app : bytes.

(** Everything between two keys with a common prefix has that prefix. *)
Lemma prefix_between p a b x : ble (p ++ a) x -> ble x (p ++ b) -> exists t, x = p ++ t.
Proof.
  revert x. induction p as [|c p IH]; intros x Ha Hb; [by exists x|].
  destruct x as [|d x]; [by destruct Ha|]. unfold ble in *. cbn in Ha, Hb.
  destruct (Z.compare_spec (bval c) (bval d)) as [E|E|E]; [|rewrite (proj2 (Z.compare_gt_iff _ _)) in Hb by lia; done|done].
  apply bval_inj in E as ->. rewrite Z.compare_refl in Hb. destruct (IH x Ha Hb) as [t ->]. by exists t.
Qed.

(** ** Logical keys *)

Definition rangeGuardSpace : bytes := str "_mvcc_range_guard".
Definition rangeGuardPrefix : bytes := rangeGuardSpace ++ [x00].

Definition MaxValueBytes : Z := 49152.
Definition MaxChunkBytes : Z := 65536.

Definition validateKey (space rowKey : bytes) : result mvcc_error unit :=
  let keyLimit := if bool_decide (space = rangeGuardSpace) then 32700 else 8192 in
  if bool_decide (space = []) || bool_decide (x00 ∈ space) || (1024 <? blen space) || (keyLimit <? blen rowKey)
  then Err (ErrOther "invalid MVCC namespace/key") else Ok tt.

Definition key (space rowKey : bytes) : result mvcc_error bytes :=
  let* _ := validateKey space rowKey in Ok (space ++ [x00] ++ rowKey).

Lemma key_ok space rowKey k :
  key space rowKey = Ok k -> k = space ++ [x00] ++ rowKey /\ space <> [] /\ x00 ∉ space /\ blen space <= 1024.
Proof.
  unfold key, validateKey. destruct (_ || _) eqn:E; [done|]. intros [= <-]. bool_prop. done.
Qed.

(** The namespace of a logical key can be read back. *)
Lemma key_split space rowKey space' rowKey' :
  x00 ∉ space -> x00 ∉ space' -> space ++ x00 :: rowKey = space' ++ x00 :: rowKey' -> space = space' /\ rowKey = rowKey'.
Proof.
  revert space'. induction space as [|c s IH]; intros [|c' s'] H H'; cbn.
  - by intros [= ->].
  - intros [= <- _]. exfalso. apply H'. by left.
  - intros [= -> _]. exfalso. apply H. by left.
  - intros [= -> E]. apply IH in E as [-> ->]; [done|..]; intros Hin; [apply H|apply H']; by right.
Qed.

Lemma key_injective s k s' k' x : key s k = Ok x -> key s' k' = Ok x -> s = s' /\ k = k'.
Proof.
  intros (-> & _ & Hs & _)%key_ok (E & _ & Hs' & _)%key_ok. cbn in E. by apply key_split in E.
Qed.

(** ** Sequences *)

Definition number (value : bytes) : Z := if (length value =? 8)%nat then be_val value else 0.
Definition sequence (n : Z) : bytes := be64 n.

Lemma number_sequence n : is_u64 n -> number (sequence n) = n.
Proof. intros Hn. unfold number, sequence. rewrite length_be64. cbn. by apply be_val_be64. Qed.

Lemma sequence_number v : length v = 8%nat -> sequence (number v) = v.
Proof. intros Hv. unfold number, sequence. rewrite Hv. by apply be64_be_val. Qed.

Lemma number_range v : is_u64 (number v).
Proof.
  unfold number, is_u64. destruct (Nat.eqb_spec (length v) 8) as [E|]; [|lia].
  pose proof (be_val_range v) as H. rewrite E in H. exact H.
Qed.

Lemma length_sequence n : length (sequence n) = 8%nat.
Proof. apply length_be64. Qed.

Lemma sequence_le a b : is_u64 a -> is_u64 b -> ble (sequence a) (sequence b) <-> a <= b.
Proof.
  intros Ha Hb. unfold ble, sequence. rewrite bcompare_be64 by done. destruct (Z.compare_spec a b); split; try done; lia.
Qed.

Lemma sequence_lt a b : is_u64 a -> is_u64 b -> blt (sequence a) (sequence b) <-> a < b.
Proof. intros Ha Hb. unfold blt, sequence. rewrite bcompare_be64 by done. apply Z.compare_lt_iff. Qed.

Lemma sequence_inj a b : is_u64 a -> is_u64 b -> sequence a = sequence b -> a = b.
Proof. apply be64_inj. Qed.

Definition validateCommitSequence (index : Z) : result mvcc_error unit :=
  if index =? 0 then Err ErrSequenceExhausted else Ok tt.

(** ** Flat version keys

    The row key with every zero byte escaped, two zero bytes, then the version. *)

Definition escape_byte (b : byte) : bytes := if decide (b = x00) then [x00; xff] else [b].

Definition flat_escape (k : bytes) : bytes := concat (map escape_byte k).

Definition flatPrefix (k : bytes) : bytes := flat_escape k ++ [x00; x00].

(** [row] is what has been read so far. *)
Fixpoint split_flat (row k : bytes) : result mvcc_error (bytes * bytes) :=
  match k with
  | [] => Err (ErrOther "unterminated flat version key")
  | c :: k =>
      if negb (bool_decide (c = x00)) then split_flat (row ++ [c]) k
      else match k with
      | [] => Err (ErrOther "unterminated flat version key")
      | d :: k =>
          if bool_decide (d = xff) then split_flat (row ++ [x00]) k
          else if bool_decide (d = x00) then
            if (length k =? 8)%nat then Ok (row, k) else Err (ErrOther "invalid flat version suffix")
          else Err (ErrOther "invalid flat key escape")
      end
  end.

Definition splitFlatVersionKey (k : bytes) : result mvcc_error (bytes * bytes) := split_flat [] k.

Definition validateLayoutVersion (seq v : bytes) : result mvcc_error unit :=
  if negb (length seq =? 8)%nat || (number seq =? 0) || (length v =? 0)%nat ||
     (1 <? bval (hd x00 v)) || (MaxValueBytes + 1 <? blen v) ||
     (bool_decide (hd x00 v = x00) && negb (length v =? 1)%nat)
  then Err (ErrOther "invalid MVCC version record") else Ok tt.

Lemma flatPrefix_cons c k : flatPrefix (c :: k) = escape_byte c ++ flatPrefix k.
Proof. unfold flatPrefix, flat_escape. cbn. by rewrite app_assoc. Qed.

Lemma split_flat_prefix row k v :
  length v = 8%nat -> split_flat row (flatPrefix k ++ v) = Ok (row ++ k, v).
Proof.
  intros Hv. revert row. induction k as [|c k IH]; intros row.
  - cbn. rewrite Hv. cbn. by rewrite app_nil_r.
  - rewrite flatPrefix_cons, <- app_assoc. unfold escape_byte. case_decide as Hc.
    + subst c. cbn [app split_flat]. rewrite !bool_decide_eq_true_2 by done. cbn [negb]. by rewrite IH, <- app_assoc.
    + cbn [app split_flat]. rewrite bool_decide_eq_false_2 by done. cbn [negb]. by rewrite IH, <- app_assoc.
Qed.

Lemma split_flat_inv k row row' v :
  split_flat row k = Ok (row', v) -> exists r, row' = row ++ r /\ k = flatPrefix r ++ v /\ length v = 8%nat.
Proof.
  remember (length k) as n eqn:Hn. revert k Hn row. induction n as [n IH] using (well_founded_ind lt_wf).
  intros k -> row. destruct k as [|c k]; cbn [split_flat]; [done|]. case_bool_decide as Hc; cbn [negb].
  - subst c. destruct k as [|d k]; [done|]. case_bool_decide as Hd; [|case_bool_decide as Hz; [|done]].
    + intros H. apply IH with (y := length k) in H as (r & -> & -> & Hv); [|cbn; lia|done]. exists (x00 :: r).
      rewrite flatPrefix_cons. subst d. by rewrite <- !app_assoc.
    + destruct (Nat.eqb_spec (length k) 8); [|done]. intros [= -> ->]. exists []. subst d. by rewrite app_nil_r.
  - intros H. apply IH with (y := length k) in H as (r & -> & -> & Hv); [|cbn; lia|done]. exists (c :: r).
    rewrite flatPrefix_cons. unfold escape_byte. rewrite decide_False by done. by rewrite <- !app_assoc.
Qed.

Lemma splitFlat_exact k row v :
  splitFlatVersionKey k = Ok (row, v) <-> k = flatPrefix row ++ v /\ length v = 8%nat.
Proof.
  split.
  - intros (r & -> & -> & Hv)%split_flat_inv. done.
  - intros [-> Hv]. by apply split_flat_prefix.
Qed.

(** The escaped order is the order of rows, then of what follows. *)
Lemma flatPrefix_compare a b x y :
  bcompare (flatPrefix a ++ x) (flatPrefix b ++ y) = match bcompare a b with Eq => bcompare x y | c => c end.
Proof.
  revert b. induction a as [|c a IH]; intros [|d b]; rewrite ?flatPrefix_cons, <- ?app_assoc.
  - done.
  - unfold escape_byte. case_decide as Hd; [by subst d|].
    change (flatPrefix []) with [x00; x00]. cbn [app bcompare]. change (bval x00) with 0.
    destruct (Z.compare_spec 0 (bval d)) as [E|E|E]; [|done|pose proof (bval_range d); lia].
    exfalso. apply Hd, bval_inj. by rewrite <- E.
  - unfold escape_byte. case_decide as Hc; [by subst c|].
    change (flatPrefix []) with [x00; x00]. cbn [app bcompare]. change (bval x00) with 0.
    destruct (Z.compare_spec (bval c) 0) as [E|E|E]; [|pose proof (bval_range c); lia|done].
    exfalso. apply Hc, bval_inj. by rewrite E.
  - unfold escape_byte. cbn [bcompare]. repeat case_decide; subst; cbn [app bcompare]; rewrite ?Z.compare_refl; rewrite ?IH; try done.
    + change (bval x00) with 0. destruct (Z.compare_spec 0 (bval d)) as [E|E|E]; [|done|pose proof (bval_range d); lia].
      exfalso. by match goal with H : d <> x00 |- _ => apply H, bval_inj; rewrite <- E end.
    + change (bval x00) with 0. destruct (Z.compare_spec (bval c) 0) as [E|E|E]; [|pose proof (bval_range c); lia|done].
      exfalso. by match goal with H : c <> x00 |- _ => apply H, bval_inj; rewrite E end.
    + by destruct (bval c ?= bval d).
Qed.

Lemma flatPrefix_inj a b x y : flatPrefix a ++ x = flatPrefix b ++ y -> a = b /\ x = y.
Proof.
  intros E. apply bcompare_eq in E. rewrite flatPrefix_compare in E. destruct (bcompare a b) eqn:Eab; try done.
  apply bcompare_eq in Eab, E. done.
Qed.

(** ** Operations and their record in a private write set *)

Record Op : Type := mkOp {
  op_Space : bytes;
  op_Key : bytes;
  op_Value : bytes;
  op_Delete : bool;
  op_Check : bool
}.

#[export] Instance Op_eq_dec : EqDecision Op.
Proof. solve_decision. Defined.

Definition op_flags (op : Op) : Z := (if op_Delete op then 1 else 0) + (if op_Check op then 2 else 0).

Definition encodeStagedOp (op : Op) : bytes :=
  byte_of_Z 1 :: byte_of_Z (op_flags op) :: op_Value op.

(** The version and flag byte of a record; a missing byte is never read. *)
Definition byte_at (i : nat) (s : bytes) : Z := from_option bval 0 (s !! i).

Definition stagedOpHeader (k value : bytes) : result mvcc_error nat :=
  let bad := Err (ErrOther "invalid temporary MVCC write encoding") in
  let keyLimit :=
    if has_prefix rangeGuardPrefix k && (2 <=? blen value) && (byte_at 1 value =? 2) then 32700 else 8192 in
  match find_index (fun b => bool_decide (b = x00)) k with
  | None => bad
  | Some split =>
      if (Z.of_nat split <? 1) || (1024 <? Z.of_nat split) || (keyLimit <? blen k - Z.of_nat split - 1) ||
         (blen value <? 2) || negb (byte_at 0 value =? 1) || (3 <? byte_at 1 value) ||
         (MaxValueBytes <? blen value - 2)
      then bad else Ok split
  end.

Definition decodeStagedOp (k value : bytes) : result mvcc_error Op :=
  let* split := stagedOpHeader k value in
  Ok (mkOp (take split k) (drop (split + 1) k) (drop 2 value)
        (Z.testbit (byte_at 1 value) 0) (Z.testbit (byte_at 1 value) 1)).

(** A write set holds guards with long keys only in the reserved namespace, and never deletes there. *)
Definition stageable (op : Op) : bool :=
  is_ok (validateKey (op_Space op) (op_Key op)) && (blen (op_Value op) <=? MaxValueBytes) &&
  ((blen (op_Key op) <=? 8192) || (op_Check op && negb (op_Delete op))).

Lemma find_zero s t : x00 ∉ s -> find_index (fun b => bool_decide (b = x00)) (s ++ x00 :: t) = Some (length s).
Proof.
  induction s as [|c s IH]; intros H; cbn; [done|]. rewrite bool_decide_eq_false_2 by (intros ->; apply H; by left).
  rewrite IH; [done|]. intros ?. apply H. by right.
Qed.

Lemma find_zero_inv k i :
  find_index (fun b => bool_decide (b = x00)) k = Some i ->
  k = take i k ++ x00 :: drop (i + 1) k /\ x00 ∉ take i k /\ length (take i k) = i.
Proof.
  intros (x & Hx & Hp & Hbefore)%find_index_Some. bool_prop. subst x.
  pose proof (lookup_lt_Some _ _ _ Hx). split_and!.
  - rewrite Nat.add_1_r. by rewrite take_drop_middle.
  - intros (j & Hj)%list_elem_of_lookup. apply lookup_take_Some in Hj as [Hj Hlt].
    specialize (Hbefore j x00 Hlt Hj). by bool_prop.
  - rewrite length_take. lia.
Qed.

Lemma op_flags_cases op : 0 <= op_flags op <= 3 /\
  Z.testbit (op_flags op) 0 = op_Delete op /\ Z.testbit (op_flags op) 1 = op_Check op /\
  (op_flags op = 2 <-> op_Check op = true /\ op_Delete op = false).
Proof. unfold op_flags. destruct (op_Delete op), (op_Check op); cbn; split_and!; done || lia. Qed.

Lemma encoded_flags op : byte_at 1 (encodeStagedOp op) = op_flags op.
Proof. cbn. rewrite bval_of_Z. apply Z.mod_small. pose proof (op_flags_cases op). lia. Qed.

Lemma guard_space_ok : x00 ∉ rangeGuardSpace.
Proof. apply (bool_decide_eq_false (x00 ∈ rangeGuardSpace)). vm_compute. reflexivity. Qed.

Lemma guard_prefix_space space t :
  x00 ∉ space -> has_prefix rangeGuardPrefix (space ++ x00 :: t) = bool_decide (space = rangeGuardSpace).
Proof.
  intros Hs. apply eq_true_iff_eq. rewrite has_prefix_spec, bool_decide_eq_true. unfold rangeGuardPrefix. split.
  - intros [u E]. rewrite <- app_assoc in E. cbn [app] in E. apply key_split in E as [-> _]; [done|done|]. apply guard_space_ok.
  - intros ->. exists t. by rewrite <- app_assoc.
Qed.

Lemma stage_header op k :
  key (op_Space op) (op_Key op) = Ok k -> stageable op = true ->
  stagedOpHeader k (encodeStagedOp op) = Ok (length (op_Space op)).
Proof.
  intros Hk Hs. pose proof Hk as (-> & Hne & Hz & Hlen)%key_ok. cbn [app].
  unfold stagedOpHeader. rewrite find_zero by done. rewrite guard_prefix_space by done. rewrite encoded_flags.
  pose proof (op_flags_cases op) as (Hf & _ & _ & H2).
  assert (blen (encodeStagedOp op) = blen (op_Value op) + 2) as -> by (unfold blen; cbn; lia).
  assert (blen (op_Space op ++ x00 :: op_Key op) - Z.of_nat (length (op_Space op)) - 1 = blen (op_Key op)) as ->
    by (unfold blen; rewrite length_app; cbn; lia).
  assert (1 <= Z.of_nat (length (op_Space op)) <= 1024) as Hsp
    by (destruct (op_Space op); [done|unfold blen in Hlen; cbn in *; lia]).
  assert (0 <= blen (op_Value op)) by (unfold blen; lia).
  change (byte_at 0 (encodeStagedOp op)) with 1.
  assert ((if bool_decide (op_Space op = rangeGuardSpace) then 32700 else 8192) >= blen (op_Key op)) as Hkl.
  { unfold key, validateKey in Hk. match type of Hk with context [if ?c then _ else _] => destruct c eqn:E end; [done|].
    bool_prop. lia. }
  assert (blen (op_Value op) <= MaxValueBytes /\ (blen (op_Key op) <= 8192 \/ op_flags op = 2)) as [Hv Hs'].
  { unfold stageable in Hs. clear Hkl. bool_prop; (split; [done|]); [by left|right]. apply H2. by bool_prop. }
  match goal with |- (if ?c then _ else _) = _ => destruct c eqn:E end; [exfalso|done].
  destruct (bool_decide (op_Space op = rangeGuardSpace)); cbn [andb] in E; bool_prop; try lia; try done.
  destruct (Z.eqb_spec (op_flags op) 2), (Z.leb_spec 2 (blen (op_Value op) + 2)); cbn in E; lia.
Qed.

Lemma low_bits v : 0 <= v <= 3 -> (if Z.testbit v 0 then 1 else 0) + (if Z.testbit v 1 then 2 else 0) = v.
Proof. intros Hv. assert (v = 0 \/ v = 1 \/ v = 2 \/ v = 3) as [->|[->|[->| ->]]] by lia; done. Qed.

Lemma header_sound k value split :
  stagedOpHeader k value = Ok split ->
  k = take split k ++ [x00] ++ drop (split + 1) k /\ x00 ∉ take split k /\
  encodeStagedOp (mkOp (take split k) (drop (split + 1) k) (drop 2 value)
    (Z.testbit (byte_at 1 value) 0) (Z.testbit (byte_at 1 value) 1)) = value.
Proof.
  unfold stagedOpHeader. destruct (find_index _ k) as [i|] eqn:Hi; [|done]. apply find_zero_inv in Hi as (Hk & Hz & _).
  match goal with |- (if ?c then _ else _) = _ -> _ => destruct c eqn:E end; [done|]. intros [= <-].
  split_and!; [done|done|]. bool_prop.
  destruct value as [|b0 [|b1 v]]; [unfold blen in *; cbn in *; lia..|].
  change (byte_at 0 (b0 :: b1 :: v)) with (bval b0) in *. change (byte_at 1 (b0 :: b1 :: v)) with (bval b1) in *.
  unfold encodeStagedOp, op_flags. cbn [op_Delete op_Check op_Value drop]. rewrite low_bits by (pose proof (bval_range b1); lia).
  rewrite byte_of_bval. replace (byte_of_Z 1) with b0; [done|]. apply bval_inj. rewrite bval_of_Z. done.
Qed.

Lemma staged_decodes op k :
  key (op_Space op) (op_Key op) = Ok k -> stageable op = true -> decodeStagedOp k (encodeStagedOp op) = Ok op.
Proof.
  intros Hk Hs. unfold decodeStagedOp. rewrite (stage_header op k) by done. cbn [rbind].
  apply key_ok in Hk as (-> & _ & _ & _). rewrite encoded_flags. pose proof (op_flags_cases op) as (_ & -> & -> & _).
  rewrite take_app_length. rewrite Nat.add_1_r. rewrite drop_app_ge by lia.
  replace (S (length (op_Space op)) - length (op_Space op))%nat with 1%nat by lia. by destruct op.
Qed.

(** The record of an operation in a private write set reads back as the operation, and every
    record that is accepted is the record of what it reads as: staging loses nothing. *)
Theorem staged_op_roundtrip (op : Op) (k value : bytes) :
  (key (op_Space op) (op_Key op) = Ok k -> stageable op = true -> decodeStagedOp k (encodeStagedOp op) = Ok op) /\
  (decodeStagedOp k value = Ok op ->
     k = op_Space op ++ [x00] ++ op_Key op /\ x00 ∉ op_Space op /\ encodeStagedOp op = value).
Proof.
  split.
  - apply staged_decodes.
  - unfold decodeStagedOp. intros H. destruct (stagedOpHeader k value) as [split|] eqn:Hh; [|done].
    cbn [rbind] in H. injection H as <-. cbn. by apply header_sound in Hh.
Qed.

Lemma staged_op_roundtrip_witness :
  decodeStagedOp (str "t" ++ [x00] ++ str "k") (encodeStagedOp (mkOp (str "t") (str "k") (str "v") false true))
  = Ok (mkOp (str "t") (str "k") (str "v") false true).
Proof.
  apply (staged_op_roundtrip (mkOp (str "t") (str "k") (str "v") false true) (str "t" ++ [x00] ++ str "k") []);
    vm_compute; reflexivity.
Defined.

(** C16: a flat version key is exactly a row and a version: it reads back as what it was built from,
    nothing else is accepted, keys are ordered by row and then by version, and the prefix of one row
    is never a prefix of another row's key. *)
Theorem flat_version_key_exact (a b k v x y : bytes) :
  (splitFlatVersionKey k = Ok (a, v) <-> k = flatPrefix a ++ v /\ length v = 8%nat) /\
  bcompare (flatPrefix a ++ x) (flatPrefix b ++ y) = match bcompare a b with Eq => bcompare x y | c => c end /\
  (has_prefix (flatPrefix a) (flatPrefix b ++ y) = true -> a = b).
Proof.
  split_and!; [apply splitFlat_exact|apply flatPrefix_compare|].
  intros [t E]%has_prefix_spec. symmetry in E. by apply flatPrefix_inj in E as [-> _].
Qed.

Lemma flat_version_key_exact_witness :
  splitFlatVersionKey (flatPrefix [x00] ++ sequence 7) = Ok ([x00], sequence 7).
Proof.
  apply (flat_version_key_exact [x00] [] (flatPrefix [x00] ++ sequence 7) (sequence 7) [] []).
  split; [reflexivity|vm_compute; reflexivity].
Defined.

(** ** Key ranges and range guards

    [storageengine/range.go], the bounds of [mvcc/range.go], and the dependencies of
    [mvcc/range_guard.go].  A bounded guard stores its range as JSON: the JSON library's text for the
    [rangeDependency] structure is a parameter ([GuardCodec]), of which only the round trip is used.
    The scan statistics a range may carry are not modelled: nothing reads them back. *)

Record KeyRange : Type := mkRange {
  rg_Lower : option bytes;
  rg_Upper : option bytes;
  rg_LowerInclusive : bool;
  rg_UpperInclusive : bool;
  rg_Reverse : bool
}.

Definition below_lower (r : KeyRange) (k : bytes) : bool :=
  match rg_Lower r with
  | None => false
  | Some lower => match bcompare k lower with Lt => true | Eq => negb (rg_LowerInclusive r) | Gt => false end
  end.

Definition above_upper (r : KeyRange) (k : bytes) : bool :=
  match rg_Upper r with
  | None => false
  | Some upper => match bcompare k upper with Gt => true | Eq => negb (rg_UpperInclusive r) | Lt => false end
  end.

Definition Contains (r : KeyRange) (k : bytes) : bool :=
  if below_lower r k then false else if above_upper r k then false else true.

Definition CloneBounds (r : KeyRange) : KeyRange :=
  mkRange (rg_Lower r) (rg_Upper r) (rg_LowerInclusive r) (rg_UpperInclusive r) false.

(** [rangeContains] of a key of the bucket, which carries the namespace prefix. *)
Definition rangeContains (k prefix : bytes) (r : KeyRange) : bool :=
  has_prefix prefix k && Contains r (trim_prefix prefix k).

(** ** Guards *)

Record rangeDependency : Type := mkDependency {
  rd_Space : bytes;
  rd_Bounds : KeyRange
}.

Definition unbounded : KeyRange := mkRange None None false false false.

(** The JSON text of a dependency. *)
Class GuardCodec : Type := {
  marshalDependency : rangeDependency -> bytes;
  unmarshalDependency : bytes -> option rangeDependency
}.

(** The row key under the reserved namespace that [GuardRange] guards. *)
Definition guardRowKey `{GuardCodec} (space : bytes) (bounds : KeyRange) : result mvcc_error bytes :=
  if bool_decide (space = rangeGuardSpace) then Err (ErrOther "reserved guard namespace")
  else
    let* _ := validateKey space (raw (rg_Lower bounds)) in
    let* _ := validateKey space (raw (rg_Upper bounds)) in
    match rg_Lower bounds, rg_Upper bounds with
    | None, None => Ok space
    | _, _ => Ok (x00 :: byte_of_Z 1 :: marshalDependency (mkDependency space (CloneBounds bounds)))
    end.

Definition decodeRangeDependency `{GuardCodec} (k : bytes) : option rangeDependency :=
  match k with
  | c :: rest =>
      if negb (bool_decide (c = x00)) then Some (mkDependency k unbounded)
      else match rest with
      | d :: payload =>
          if negb (bool_decide (d = byte_of_Z 1)) then None
          else match unmarshalDependency payload with
          | Some dep => if bool_decide (rd_Space dep = []) then None else Some dep
          | None => None
          end
      | [] => None
      end
  | [] => None
  end.

(** A malformed dependency contains every key: it fails closed. *)
Definition rangeDependencyContains `{GuardCodec} (guardKey logical : bytes) : bool :=
  match decodeRangeDependency guardKey with
  | None => true
  | Some d =>
      let prefix := rd_Space d ++ [x00] in
      has_prefix prefix logical && Contains (rd_Bounds d) (trim_prefix prefix logical)
  end.

Lemma rangeContains_spec k prefix r :
  rangeContains k prefix r = true <-> exists t, k = prefix ++ t /\ Contains r t = true.
Proof.
  unfold rangeContains. rewrite andb_true_iff, has_prefix_spec. split.
  - intros [[t ->] H]. exists t. by rewrite trim_prefix_app in H.
  - intros (t & -> & H). rewrite trim_prefix_app. split; [by exists t|done].
Qed.
