(* ===== verification/Versions.v ===== *)
(** * The versioned records of a store file

    The buckets of [mvcc.db], both physical layouts of the version history ([mvcc/layout.go]), and
    reading a key at a snapshot ([mvcc/store.go]): [visible] with its cache, [flatVisible], and the
    version of a range guard ([mvcc/range_guard.go]).

    A value returned as [nil] is []; the flag beside it tells a missing value from an empty one. *)

From stdpp Require Import gmap list sorting strings fin_maps.
From Stdlib Require Import Strings.Byte.
From S2P Require Import Prelude TxnState Bolt Keys.

(** ** The file *)

(** An entry of the row directory: a plain value, or the bucket of the row's versions. *)
Inductive item `{Bolt} : Type :=
  | Val (v : bytes)
  | Sub (rows : bucket bytes).

(** The operations of a pending transaction are kept decoded, where the file holds their JSON text. *)
Record db `{Bolt} : Type := mkDB {
  d_data : bucket item;
  d_meta : bucket bytes;
  d_pending : bucket (bucket Op);
  d_commits : bucket bytes;
  d_counters : bucket bytes;
  d_flat : option (bucket bytes)
}.

#[export] Instance db_rebuild `{Bolt} : Rebuild db := fun d =>
  mkDB _ (d_data d) (d_meta d) (d_pending d) (d_commits d) (d_counters d) (d_flat d).

Definition layoutKey : bytes := str "version_layout".
Definition one_byte (n : Z) : bytes := [byte_of_Z n].

Definition flatLayout `{Bolt} (d : db) : bool := bool_decide (b_get (d_meta d) layoutKey = Some (one_byte 1)).

Definition validateVersionLayout `{Bolt} (d : db) : result mvcc_error unit :=
  match b_get (d_meta d) layoutKey with
  | None => Ok tt
  | Some v =>
      if bool_decide (v = []) then Ok tt
      else if negb (bool_decide (v = one_byte 1)) || negb (bool_decide (is_Some (d_flat d)))
      then Err (ErrOther "unsupported/incomplete MVCC version layout")
      else Ok tt
  end.

(** [tx.Bucket(flatVersionsBucket)] of a file whose layout was validated when it was opened. *)
Definition flat_versions `{Bolt} (d : db) : bucket bytes := default b_empty (d_flat d).

Definition incompatible {A} : result mvcc_error A := Err (ErrOther "incompatible value").

(** [root.Get(k)] is nil for a missing key and for a nested bucket; storing a value over a nested
    bucket, or opening a bucket over a value, is the library's incompatible-value error. *)
Definition putVersion `{Bolt} (d : db) (k version value : bytes) : result mvcc_error db :=
  if flatLayout d then
    let* data :=
      match b_get (d_data d) k with
      | Some (Val _) => Ok (d_data d)
      | Some (Sub _) => incompatible
      | None => Ok (b_put k (Val (one_byte 1)) (d_data d))
      end in
    Ok (d <| d_data := data |> <| d_flat := Some (b_put (flatPrefix k ++ version) value (flat_versions d)) |>)
  else
    match b_get (d_data d) k with
    | Some (Val _) => incompatible
    | Some (Sub rows) => Ok (d <| d_data ::= b_put k (Sub (b_put version value rows)) |>)
    | None => Ok (d <| d_data ::= b_put k (Sub (b_put version value b_empty)) |>)
    end.

(** ** Reading at a snapshot *)

(** Value, version, and whether the key is there. *)
Definition reading : Type := bytes * Z * bool.

Definition nothing : reading := ([], 0, false).

(** The first byte of a record tells a value from a deletion. *)
Definition payload_read (version : Z) (p : bytes) : reading :=
  match p with
  | [] => ([], version, false)
  | c :: value => if bool_decide (c = x00) then ([], version, false) else (value, version, true)
  end.

Definition committed_key `{Bolt} (d : db) (v : bytes) : bool := bool_decide (is_Some (b_get (d_commits d) v)).

(** The body of the loop of [flatVisible]; a key that is not a version of this row ends it. *)
Definition flat_test `{Bolt} (d : db) (prefix : bytes) (e : bytes * bytes) : option reading :=
  let '(v, p) := e in
  if (length v =? length prefix + 8)%nat && has_prefix prefix v then
    let n := number (trim_prefix prefix v) in
    if committed_key d (sequence n) then Some (payload_read n p) else None
  else Some nothing.

Definition flatVisible `{Bolt} (d : db) (k : bytes) (snapshot : Z) : reading :=
  let prefix := flatPrefix k in
  let versions := flat_versions d in
  default nothing
    (back_find versions (flat_test d prefix) (b_size versions)
       (seek_back versions (prefix ++ sequence snapshot))).

(** The version to start from: the last one not above the snapshot. *)
Definition seek_version `{Bolt} (rows : bucket bytes) (snapshot : Z) : option (bytes * bytes) :=
  match b_seek rows (sequence snapshot) with
  | None => b_last rows
  | Some e => if snapshot <? number e.1 then b_prev rows e.1 else Some e
  end.

Definition nested_test `{Bolt} (d : db) (e : bytes * bytes) : option reading :=
  if committed_key d e.1 then Some (payload_read (number e.1) e.2) else None.

Definition nestedVisible `{Bolt} (d : db) (k : bytes) (snapshot : Z) : reading :=
  match b_get (d_data d) k with
  | Some (Sub rows) => default nothing (back_find rows (nested_test d) (b_size rows) (seek_version rows snapshot))
  | _ => nothing
  end.

(** A key that is not a range guard. *)
Definition point_visible `{Bolt} (d : db) (k : bytes) (snapshot : Z) : reading :=
  if flatLayout d then flatVisible d k snapshot else nestedVisible d k snapshot.

(** ** The reader of one view, with its direct-mapped cache of publication markers *)

Record cacheEntry : Type := mkCache {
  ce_version : Z;
  ce_known : bool;
  ce_committed : bool
}.

Definition empty_cache : list cacheEntry := replicate 16 (mkCache 0 false false).

(** The lookup of one version through the cache: the cache after it and the answer. *)
Definition cached_committed `{Bolt} (d : db) (cache : list cacheEntry) (v : bytes) : list cacheEntry * bool :=
  let version := number v in
  let slot := Z.to_nat (version mod 16) in
  let entry := nth slot cache (mkCache 0 false false) in
  if negb (ce_known entry) || negb (ce_version entry =? version) then
    let c := committed_key d v in
    (<[slot := mkCache version true c]> cache, c)
  else (cache, ce_committed entry).

(** The loop of [visibilityReader.visible] over the versions of a nested row. *)
Fixpoint cached_back `{Bolt} (d : db) (rows : bucket bytes) (fuel : nat) (cache : list cacheEntry)
    (cur : option (bytes * bytes)) : list cacheEntry * option reading :=
  match cur with
  | None => (cache, None)
  | Some e =>
      let '(cache, c) := cached_committed d cache e.1 in
      if c : bool then (cache, Some (payload_read (number e.1) e.2))
      else match fuel with
      | O => (cache, None)
      | S fuel => cached_back d rows fuel cache (b_prev rows e.1)
      end
  end.

Definition reading_version (r : reading) : Z := r.1.2.

(** The body of the loop of [rangeVersion]: the cache and the latest version so far. *)
Definition range_step (read : list cacheEntry -> bytes -> list cacheEntry * reading) (dep : rangeDependency)
    (prefix : bytes) (st : list cacheEntry * Z) (k : bytes) : list cacheEntry * Z * bool :=
  let '(cache, latest) := st in
  if negb (has_prefix prefix k) then (st, false)
  else
    let rowKey := trim_prefix prefix k in
    if from_option (fun upper => bltb upper rowKey) false (rg_Upper (rd_Bounds dep)) then (st, false)
    else if negb (Contains (rd_Bounds dep) rowKey) then (st, true)
    else
      let '(cache, r) := read cache k in
      (cache, Z.max latest (reading_version r), true).

Definition rangeVersion `{Bolt} `{GuardCodec} (d : db)
    (read : list cacheEntry -> bytes -> list cacheEntry * reading) (cache : list cacheEntry) (k : bytes)
    : list cacheEntry * Z :=
  match decodeRangeDependency (trim_prefix rangeGuardPrefix k) with
  | None => (cache, u64_max)
  | Some dep =>
      let prefix := rd_Space dep ++ [x00] in
      fwd_loop (d_data d) (fun st e => range_step read dep prefix st e.1) (b_size (d_data d)) (cache, 0)
        (b_seek (d_data d) (prefix ++ raw (rg_Lower (rd_Bounds dep))))
  end.

(** [visibilityReader.visible].  A guard is resolved by reading the keys it covers.  Those are data
    keys, never guards: a guard is a check, and a check installs no version; the fuel is the depth of
    guards among them. *)
Fixpoint reader_visible_at `{Bolt} `{GuardCodec} (fuel : nat) (d : db) (snapshot : Z) (cache : list cacheEntry)
    (k : bytes) : list cacheEntry * reading :=
  if has_prefix rangeGuardPrefix k then
    match fuel with
    | O => (cache, nothing)
    | S fuel =>
        let '(cache, version) := rangeVersion d (reader_visible_at fuel d snapshot) cache k in
        (cache, ([], version, false))
    end
  else if flatLayout d then (cache, flatVisible d k snapshot)
  else match b_get (d_data d) k with
  | Some (Sub rows) =>
      let '(cache, r) := cached_back d rows (b_size rows) cache (seek_version rows snapshot) in
      (cache, default nothing r)
  | _ => (cache, nothing)
  end.

Definition reader_visible `{Bolt} `{GuardCodec} (d : db) (snapshot : Z) (cache : list cacheEntry) (k : bytes)
    : list cacheEntry * reading :=
  reader_visible_at (S (b_size (d_data d))) d snapshot cache k.

(** A point read, which allocates no cache; a guard gets a reader of its own. *)
Definition visible `{Bolt} `{GuardCodec} (d : db) (k : bytes) (snapshot : Z) : reading :=
  if has_prefix rangeGuardPrefix k then (reader_visible d snapshot empty_cache k).2
  else point_visible d k snapshot.
