(* ===== verification/Visibility.v ===== *)
(** * Snapshot reads are exact

    Both layouts hold the same thing, the history of each key: its versions in order.  Reading a key
    at a snapshot gives the newest committed version that is not above the snapshot, whichever the
    layout, with or without the cache; a range guard reads the newest version below it. *)

From stdpp Require Import gmap list sorting strings fin_maps.
From Stdlib Require Import Strings.Byte.
From S2P Require Import Prelude TxnState Bolt Keys Versions.

(** ** The specification *)

Section Histories.
Context `{BoltLaws}.

(** The versions of one key, oldest first, with their records. *)
Definition history (d : db) (k : bytes) : list (Z * bytes) :=
  if flatLayout d then
    omap (fun e : bytes * bytes => if has_prefix (flatPrefix k) e.1 then Some (number (trim_prefix (flatPrefix k) e.1), e.2) else None)
      (b_entries (flat_versions d))
  else match b_get (d_data d) k with
  | Some (Sub rows) => (fun e : bytes * bytes => (number e.1, e.2)) <$> b_entries rows
  | _ => []
  end.

Definition committed_at (d : db) (n : Z) : bool := committed_key d (sequence n).

(** The newest committed version not above the snapshot. *)
Definition newest_at (h : list (Z * bytes)) (committed : Z -> bool) (snapshot : Z) : option (Z * bytes) :=
  last (filter (fun np : Z * bytes => (np.1 <=? snapshot) && committed np.1) h).

Definition read_at (h : list (Z * bytes)) (committed : Z -> bool) (snapshot : Z) : reading :=
  match newest_at h committed snapshot with
  | Some (n, p) => payload_read n p
  | None => nothing
  end.

(** ** Well-formed files *)

Definition version_key (e : bytes * bytes) : Prop := length e.1 = 8%nat.

Definition flat_key (e : bytes * bytes) : Prop := exists row v, e.1 = flatPrefix row ++ v /\ length v = 8%nat.

Definition db_wf (d : db) : Prop :=
  if flatLayout d then forall e, e ∈ b_entries (flat_versions d) -> flat_key e
  else forall k rows, b_get (d_data d) k = Some (Sub rows) -> forall e, e ∈ b_entries rows -> version_key e.

(** ** Lists *)

Lemma head_omap_back {A R} (c : A -> bool) (r : A -> R) (l : list A) :
  head (omap (fun e => if c e then Some (r e) else None) (reverse l)) = r <$> last (filter c l).
Proof.
  induction l as [|x l IH] using rev_ind; [done|].
  rewrite reverse_snoc, filter_app. cbn [omap list_omap]. destruct (c x) eqn:Hx.
  - cbn. rewrite decide_True by by rewrite Hx. by rewrite last_snoc.
  - rewrite IH. cbn. rewrite decide_False by (rewrite Hx; cbn; tauto). by rewrite app_nil_r.
Qed.

Lemma filter_same {A} (c c' : A -> bool) (l : list A) :
  (forall x, x ∈ l -> c x = c' x) -> filter c l = filter c' l.
Proof.
  induction l as [|x l IH]; intros Hc; [done|]. rewrite !filter_cons, (Hc x) by (by left).
  destruct (c' x); cbn; rewrite IH; try done; intros; apply Hc; by right.
Qed.

Lemma omap_same {A B} (f g : A -> option B) (l : list A) : (forall x, x ∈ l -> f x = g x) -> omap f l = omap g l.
Proof.
  induction l as [|x l IH]; intros Hf; [done|]. cbn. rewrite (Hf x) by (by left).
  rewrite (IH (fun y Hy => Hf y (list_elem_of_further _ _ _ Hy))). done.
Qed.

Lemma filter_fmap_back {A B} (f : A -> B) (c : B -> bool) (c' : A -> bool) (l : list A) :
  (forall x, x ∈ l -> c (f x) = c' x) -> filter c (f <$> l) = f <$> filter c' l.
Proof.
  induction l as [|x l IH]; intros Hc; [done|]. cbn [fmap list_fmap]. rewrite !filter_cons.
  rewrite (Hc x) by (by left). destruct (c' x); cbn; rewrite IH; try done; intros; apply Hc; by right.
Qed.

(** ** The nested layout *)

Lemma version_of_key v : length v = 8%nat -> sequence (number v) = v /\ is_u64 (number v).
Proof. intros Hv. split; [by apply sequence_number|apply number_range]. Qed.

(** Comparing numbers, as the code does, is comparing keys. *)
Lemma version_above v s : length v = 8%nat -> is_u64 s -> (s <? number v) = bltb (sequence s) v.
Proof.
  intros Hv Hs. apply version_of_key in Hv as [Hv Hu]. apply eq_true_iff_eq. rewrite Z.ltb_lt, bltb_spec.
  rewrite <- (sequence_lt s (number v) Hs Hu). by rewrite Hv.
Qed.

Lemma version_at_most v s : length v = 8%nat -> is_u64 s -> (number v <=? s) = negb (bltb (sequence s) v).
Proof. intros Hv Hs. by rewrite <- version_above, Z.leb_antisym. Qed.

Lemma seek_version_back rows snapshot :
  is_u64 snapshot -> (forall e, e ∈ b_entries rows -> version_key e) ->
  seek_version rows snapshot = seek_back rows (sequence snapshot).
Proof.
  intros Hs Hw. unfold seek_version, seek_back.
  destruct (seek_spec rows (sequence snapshot)) as (l1 & l2 & Hb & -> & _). destruct l2 as [|e l2]; [done|]. cbn [head].
  rewrite version_above; [done| |done]. apply (Hw e). rewrite Hb. apply elem_of_app. right. by left.
Qed.

Lemma above_or_not (P : bytes) (l1 l2 : list (bytes * bytes)) (c : bytes * bytes -> bool) :
  (forall e, e ∈ l1 -> ble e.1 P) -> (forall e, e ∈ l2 -> blt P e.1) ->
  filter (fun e => negb (bltb P e.1) && c e) (l1 ++ l2) = filter c l1.
Proof.
  intros H1 H2. rewrite filter_app, (filter_none _ l2), app_nil_r.
  - apply filter_same. intros e He. apply H1 in He. apply bltb_false in He. by rewrite He.
  - intros e He%H2. apply bltb_spec in He. by rewrite He.
Qed.

Lemma nested_visible_spec d k snapshot :
  is_u64 snapshot -> flatLayout d = false -> db_wf d ->
  nestedVisible d k snapshot = read_at (history d k) (committed_at d) snapshot.
Proof.
  intros Hs Hl Hw. unfold db_wf in Hw. unfold nestedVisible, history. rewrite Hl in *.
  destruct (b_get (d_data d) k) as [[v|rows]|] eqn:Hk; [done| |done]. specialize (Hw k rows Hk).
  rewrite seek_version_back by done. destruct (seek_back_spec rows (sequence snapshot)) as (l1 & l2 & Hb & -> & H1 & H2).
  rewrite (back_find_spec _ _ _ _ l2 Hb) by (unfold b_size; rewrite Hb, length_app; lia).
  unfold read_at, newest_at. rewrite (filter_fmap_back _ _ (fun e => negb (bltb (sequence snapshot) e.1) && committed_key d e.1)).
  2: { intros e He. apply Hw in He. cbn. rewrite version_at_most by done. f_equal. unfold committed_at.
       by rewrite sequence_number. }
  rewrite Hb, above_or_not, fmap_last by done. unfold nested_test. rewrite head_omap_back.
  by destruct (last _) as [[v p]|].
Qed.

(** ** The flat layout *)

(** The version part of a flat key of the row, and that of any other row. *)
Lemma flat_key_row e k t : flat_key e -> e.1 = flatPrefix k ++ t -> length t = 8%nat.
Proof. intros (row & v & E & Hv) Ht. rewrite E in Ht. by apply flatPrefix_inj in Ht as [_ <-]. Qed.

Lemma flat_test_row d k e :
  flat_key e ->
  flat_test d (flatPrefix k) e =
    if has_prefix (flatPrefix k) e.1 then
      let n := number (trim_prefix (flatPrefix k) e.1) in
      if committed_at d n then Some (payload_read n e.2) else None
    else Some nothing.
Proof.
  intros He. destruct e as [v p]. unfold flat_test; cbn [fst snd]. destruct (has_prefix (flatPrefix k) v) eqn:Hp.
  - apply has_prefix_spec in Hp as [t ->]. pose proof (flat_key_row _ k t He eq_refl) as Ht.
    rewrite length_app, Ht, Nat.eqb_refl. done.
  - by rewrite andb_false_r.
Qed.

(** The entries of the row, among those up to the place the search starts from. *)
Lemma flat_split (l1 : list (bytes * bytes)) k s :
  ordered l1 -> (forall e, e ∈ l1 -> ble e.1 (flatPrefix k ++ s)) ->
  exists a b, l1 = a ++ b /\ (forall e, e ∈ a -> has_prefix (flatPrefix k) e.1 = false) /\
    (forall e, e ∈ b -> has_prefix (flatPrefix k) e.1 = true).
Proof.
  intros Ho Hle. destruct (ordered_split l1 (flatPrefix k) Ho) as (a & b & -> & Ha & Hb).
  exists a, b. split_and!; [done|..].
  - intros e He. apply not_true_iff_false. intros [t Ht]%has_prefix_spec. apply Ha in He. rewrite Ht in He.
    apply (blt_irrefl (flatPrefix k)). eapply ble_lt_trans; [apply ble_app|exact He].
  - intros e He. apply has_prefix_spec. apply (prefix_between _ [] s).
    + rewrite app_nil_r. by apply not_blt, Hb.
    + apply Hle, elem_of_app. by right.
Qed.

Definition row_version (k : bytes) (e : bytes * bytes) : Z := number (trim_prefix (flatPrefix k) e.1).

Lemma row_version_le k e s :
  flat_key e -> has_prefix (flatPrefix k) e.1 = true -> is_u64 s ->
  (row_version k e <=? s) = negb (bltb (flatPrefix k ++ sequence s) e.1).
Proof.
  intros He [t Ht]%has_prefix_spec Hs. pose proof (flat_key_row e k t He Ht) as Hl. unfold row_version.
  rewrite Ht, trim_prefix_app, version_at_most by done. unfold bltb. by rewrite bcompare_app.
Qed.

Lemma omap_filter {A B} (c : A -> bool) (f : A -> B) (l : list A) :
  omap (fun x => if c x then Some (f x) else None) l = f <$> filter c l.
Proof.
  induction l as [|x l IH]; [done|]. cbn [omap list_omap]. rewrite filter_cons. destruct (c x); cbn; by rewrite IH.
Qed.

Lemma flat_visible_spec d k snapshot :
  is_u64 snapshot -> flatLayout d = true -> db_wf d ->
  flatVisible d k snapshot = read_at (history d k) (committed_at d) snapshot.
Proof.
  intros Hs Hl Hw. unfold db_wf in Hw. unfold flatVisible, history. rewrite Hl in *.
  set (b := flat_versions d) in *. set (p := flatPrefix k).
  destruct (seek_back_spec b (p ++ sequence snapshot)) as (l1 & l2 & Hb & -> & H1 & H2).
  rewrite (back_find_spec _ _ _ _ l2 Hb) by (unfold b_size; rewrite Hb, length_app; lia).
  pose proof (entries_ordered _ b) as Ho. rewrite Hb in Ho. apply ordered_app_inv in Ho as (Ho & _ & _).
  destruct (flat_split l1 k (sequence snapshot) Ho H1) as (a & r & -> & Ha & Hr).
  assert (forall e, e ∈ a ++ r ++ l2 -> flat_key e) as Hw' by (intros e He; apply Hw; by rewrite Hb, <- app_assoc).
  rewrite reverse_app, omap_app. rewrite (omap_filter (fun e => has_prefix p e.1) (fun e => (row_version k e, e.2))).
  assert (omap (flat_test d p) (reverse r) =
    omap (fun e => if committed_at d (row_version k e) then Some (payload_read (row_version k e) e.2) else None) (reverse r)) as ->.
  { apply omap_same. intros e He. rewrite elem_of_reverse in He. subst p. rewrite flat_test_row, (Hr e He); [done|].
    apply Hw', elem_of_app. right. apply elem_of_app. by left. }
  unfold read_at, newest_at. rewrite Hb.
  assert (filter (fun np : Z * bytes => (np.1 <=? snapshot) && committed_at d np.1)
    ((fun e => (row_version k e, e.2)) <$> filter (fun e => has_prefix p e.1) ((a ++ r) ++ l2))
    = (fun e => (row_version k e, e.2)) <$> filter (fun e => committed_at d (row_version k e)) r) as ->.
  { subst p. rewrite (filter_fmap_back _ _ (fun e => (row_version k e <=? snapshot) && committed_at d (row_version k e))) by done.
    rewrite (filter_app _ (a ++ r)), filter_app, (filter_none _ (filter _ l2)), app_nil_r.
    2: { intros e [Hp He]%list_elem_of_filter. apply Is_true_true in Hp.
         rewrite (row_version_le k e snapshot), (proj2 (bltb_spec _ _) (H2 e He)); [done| |done|done].
         apply Hw'. rewrite !elem_of_app. tauto. }
    rewrite filter_app, (filter_none _ a), (filter_all _ r) by done. f_equal. apply filter_same. intros e He.
    rewrite (row_version_le k e snapshot); [|apply Hw'; rewrite !elem_of_app; tauto|by apply Hr|done].
    assert (ble e.1 (flatPrefix k ++ sequence snapshot)) as Hle%bltb_false by (apply H1, elem_of_app; by right).
    by rewrite Hle. }
  rewrite fmap_last, head_app, head_omap_back. destruct (last _) as [e|]; [done|]. cbn.
  destruct (reverse a) as [|e a'] eqn:Ea; [done|]. cbn.
  assert (e ∈ a) as He by (apply elem_of_reverse; rewrite Ea; by left). subst p.
  rewrite flat_test_row, (Ha e He); [done|]. apply Hw', elem_of_app. by left.
Qed.

(** A key is read as its history says, whichever the layout. *)
Lemma point_visible_spec d k snapshot :
  is_u64 snapshot -> db_wf d -> point_visible d k snapshot = read_at (history d k) (committed_at d) snapshot.
Proof.
  intros Hs Hw. unfold point_visible. destruct (flatLayout d) eqn:Hl; [by apply flat_visible_spec|by apply nested_visible_spec].
Qed.

(** ** The cache *)

Definition entry_valid (d : db) (e : cacheEntry) : Prop :=
  ce_known e = true -> ce_committed e = committed_at d (ce_version e).

Definition cache_ok (d : db) (cache : list cacheEntry) : Prop := Forall (entry_valid d) cache.

Lemma empty_cache_ok d : cache_ok d empty_cache.
Proof. apply Forall_replicate. by intros ?. Qed.

Lemma cached_committed_spec d cache v :
  cache_ok d cache -> length v = 8%nat ->
  cache_ok d (cached_committed d cache v).1 /\ (cached_committed d cache v).2 = committed_key d v.
Proof.
  intros Hc Hv. unfold cached_committed. set (slot := Z.to_nat _). set (e := nth slot cache _).
  assert (committed_at d (number v) = committed_key d v) as Hn by (unfold committed_at; by rewrite sequence_number).
  assert (entry_valid d e) as He.
  { subst e. destruct (nth_in_or_default slot cache (mkCache 0 false false)) as [Hin| ->]; [|by intros ?].
    apply list_elem_of_In in Hin. by apply (proj1 (Forall_forall _ _) Hc). }
  destruct (ce_known e) eqn:Hk; [destruct (Z.eqb_spec (ce_version e) (number v)) as [Hv'|]|]; cbn [negb orb fst snd].
  - split; [done|]. by rewrite (He Hk), Hv'.
  - split; [|done]. apply Forall_insert; [done|]. by intros _.
  - split; [|done]. apply Forall_insert; [done|]. by intros _.
Qed.

Lemma prev_elem {V} (b : bucket V) k e : b_prev b k = Some e -> e ∈ b_entries b.
Proof. rewrite prev_entries. unfold kv_prev. intros He%last_Some_elem_of. by apply list_elem_of_filter in He as [_ ?]. Qed.

Lemma cached_back_spec d rows fuel cache cur :
  (forall e, e ∈ b_entries rows -> version_key e) -> (forall e, cur = Some e -> e ∈ b_entries rows) -> cache_ok d cache ->
  cache_ok d (cached_back d rows fuel cache cur).1 /\
  (cached_back d rows fuel cache cur).2 = back_find rows (nested_test d) fuel cur.
Proof.
  intros Hw. revert cache cur. induction fuel as [|fuel IH]; intros cache [e|] Hcur Hc; try done;
    cbn [cached_back back_find]; unfold nested_test at 1;
    destruct (cached_committed_spec d cache e.1 Hc (Hw e (Hcur e eq_refl))) as [H1 H2];
    destruct (cached_committed d cache e.1) as [cache1 c]; cbn [fst snd] in H1, H2; rewrite <- H2; destruct c; try done.
  apply IH; [|done]. intros e' He'. by apply prev_elem in He'.
Qed.

Lemma seek_version_elem rows snapshot e : seek_version rows snapshot = Some e -> e ∈ b_entries rows.
Proof.
  unfold seek_version. destruct (seek_spec rows (sequence snapshot)) as (l1 & l2 & Hb & -> & _).
  destruct l2 as [|e' l2]; cbn [head].
  - rewrite last_entries. by intros He%last_Some_elem_of.
  - destruct (_ <? _); [apply prev_elem|]. intros [= <-]. rewrite Hb. apply elem_of_app. right. by left.
Qed.

(** The reader answers as the plain read does, and its cache stays true. *)
Lemma reader_point `{GuardCodec} d snapshot fuel cache k :
  db_wf d -> cache_ok d cache -> has_prefix rangeGuardPrefix k = false ->
  cache_ok d (reader_visible_at fuel d snapshot cache k).1 /\
  (reader_visible_at fuel d snapshot cache k).2 = point_visible d k snapshot.
Proof.
  intros Hw Hc Hk. unfold point_visible, nestedVisible. destruct fuel; cbn [reader_visible_at]; rewrite Hk;
    unfold db_wf in Hw; (destruct (flatLayout d); [done|]); (destruct (b_get (d_data d) k) as [[v|rows]|] eqn:Hr; [done| |done]);
    (destruct (cached_back_spec d rows (b_size rows) cache (seek_version rows snapshot)) as [H2 H3];
      [by apply (Hw k)|by intros e; apply seek_version_elem|done|]);
    destruct (cached_back _ _ _ _ _) as [c r]; cbn [fst snd] in *; by rewrite H3.
Qed.
(** ** Range guards *)

(** No guard is a row: checks install no version. *)
Definition data_plain (d : db) : Prop := forall e, e ∈ b_entries (d_data d) -> has_prefix rangeGuardPrefix e.1 = false.

Section Guards.
Context `{GuardCodec} (d : db) (snapshot : Z) (read : list cacheEntry -> bytes -> list cacheEntry * reading).
Context (read_ok : forall cache e, e ∈ b_entries (d_data d) -> cache_ok d cache ->
  cache_ok d (read cache e.1).1 /\ (read cache e.1).2 = point_visible d e.1 snapshot).

Definition version_read (k : bytes) : Z := reading_version (point_visible d k snapshot).

(** What the loop has to compute: the greatest version among covered keys, and at least [acc]. *)
Definition covers (dep : rangeDependency) (k : bytes) : bool :=
  rangeContains k (rd_Space dep ++ [x00]) (rd_Bounds dep).

Definition max_covered (dep : rangeDependency) (acc : Z) (l : list (bytes * item)) : Z :=
  foldl (fun acc (e : bytes * item) => Z.max acc (version_read e.1)) acc (filter (fun e : bytes * item => covers dep e.1) l).

Lemma max_covered_none dep acc (l : list (bytes * item)) :
  (forall e, e ∈ l -> covers dep e.1 = false) -> max_covered dep acc l = acc.
Proof. intros Hl. unfold max_covered. rewrite (filter_none (fun e => covers dep e.1)); done. Qed.

Lemma Contains_bounds r k :
  Contains r k = true -> ble (raw (rg_Lower r)) k /\ from_option (fun u => bltb u k) false (rg_Upper r) = false.
Proof.
  unfold Contains, below_lower, above_upper. intros Hc. split.
  - destruct (rg_Lower r) as [l|]; [|apply ble_nil]. cbn. apply not_blt. intros Hk. unfold blt in Hk. by rewrite Hk in Hc.
  - destruct (rg_Upper r) as [u|]; [|done]. cbn. apply bltb_false. unfold ble. intros Hk. rewrite Hk in Hc.
    by destruct (match rg_Lower r with Some _ => _ | None => _ end).
Qed.

Lemma covers_spec dep k : covers dep k = true <-> exists t, k = rd_Space dep ++ [x00] ++ t /\ Contains (rd_Bounds dep) t = true.
Proof. unfold covers. rewrite rangeContains_spec. by setoid_rewrite <- app_assoc. Qed.

(** A key the loop stops at has no covered key after it. *)
Lemma stop_at dep (e e' : bytes * item) :
  let prefix := rd_Space dep ++ [x00] in
  ble (prefix ++ raw (rg_Lower (rd_Bounds dep))) e.1 -> blt e.1 e'.1 ->
  (has_prefix prefix e.1 = false \/ from_option (fun u => bltb u (trim_prefix prefix e.1)) false (rg_Upper (rd_Bounds dep)) = true) ->
  covers dep e'.1 = false.
Proof.
  intros prefix Hge Hlt Hstop. apply not_true_iff_false. intros (t & Ht & Hc)%covers_spec. rewrite app_assoc in Ht.
  fold prefix in Ht. apply Contains_bounds in Hc as [_ Hu].
  destruct (prefix_between prefix (raw (rg_Lower (rd_Bounds dep))) t e.1 Hge) as [s Hs]; [rewrite <- Ht; by apply blt_le|].
  rewrite Hs, has_prefix_app, trim_prefix_app in Hstop. destruct Hstop as [|Hstop]; [done|].
  destruct (rg_Upper (rd_Bounds dep)) as [u|]; [|done]. cbn in Hu, Hstop. apply bltb_spec in Hstop. apply bltb_false in Hu.
  rewrite Hs, Ht in Hlt. unfold blt in Hlt. rewrite bcompare_app in Hlt. fold (blt s t) in Hlt.
  apply (blt_irrefl u). eapply blt_le_trans; [|exact Hu]. by apply (blt_trans _ s).
Qed.

Lemma range_loop_spec dep (l : list (bytes * item)) cache acc :
  let prefix := rd_Space dep ++ [x00] in
  ordered l -> (forall e, e ∈ l -> e ∈ b_entries (d_data d)) ->
  (forall e, e ∈ l -> ble (prefix ++ raw (rg_Lower (rd_Bounds dep))) e.1) -> cache_ok d cache ->
  exists cache', while_fold (fun st (e : bytes * item) => range_step read dep prefix st e.1) (cache, acc) l
    = (cache', max_covered dep acc l) /\ cache_ok d cache'.
Proof.
  intros prefix. revert cache acc. induction l as [|e l IH]; intros cache acc Ho Hin Hge Hc; [by exists cache|].
  pose proof (ordered_cons_inv _ _ Ho) as [Ho' Hlt]. cbn [while_fold]. unfold range_step at 1.
  assert (forall b, covers dep e.1 = b -> (b = false ->
      has_prefix prefix e.1 = false \/ from_option (fun u => bltb u (trim_prefix prefix e.1)) false (rg_Upper (rd_Bounds dep)) = true) ->
    b = false -> max_covered dep acc (e :: l) = acc) as Hend.
  { intros b Hb Hs ->. apply max_covered_none. intros e' [->|He']%elem_of_cons; [done|].
    apply (stop_at dep e); [apply Hge; by left|by apply Hlt|by apply Hs]. }
  destruct (has_prefix prefix e.1) eqn:Hp; cbn [negb].
  2: { exists cache. split; [|done]. f_equal. symmetry. apply (Hend false); [|by left|done]. unfold covers, rangeContains.
       fold prefix. by rewrite Hp. }
  destruct (from_option _ false (rg_Upper (rd_Bounds dep))) eqn:Hu.
  { exists cache. split; [|done]. f_equal. symmetry. apply (Hend false); [|by right|done]. apply not_true_iff_false.
    intros [t [Ht Hct]]%rangeContains_spec. fold prefix in Ht. rewrite Ht, trim_prefix_app in Hu.
    apply Contains_bounds in Hct as [_ ?]. congruence. }
  assert (covers dep e.1 = Contains (rd_Bounds dep) (trim_prefix prefix e.1)) as Hcov
    by (unfold covers, rangeContains; fold prefix; by rewrite Hp).
  assert (forall e, e ∈ l -> e ∈ b_entries (d_data d)) as Hin' by (intros; apply Hin; by right).
  assert (forall e, e ∈ l -> ble (prefix ++ raw (rg_Lower (rd_Bounds dep))) e.1) as Hge' by (intros; apply Hge; by right).
  unfold max_covered. rewrite filter_cons, Hcov. destruct (Contains _ _); cbn [negb].
  - destruct (read_ok cache e (Hin e ltac:(by left)) Hc) as [Hc1 Hr]. destruct (read cache e.1) as [cache1 r]. cbn in Hc1, Hr.
    rewrite decide_True by done. cbn [foldl]. rewrite Hr. by apply IH.
  - rewrite decide_False by tauto. by apply IH.
Qed.

Lemma max_covered_skip dep (l1 l2 : list (bytes * item)) acc :
  (forall e, e ∈ l1 -> blt e.1 ((rd_Space dep ++ [x00]) ++ raw (rg_Lower (rd_Bounds dep)))) ->
  max_covered dep acc (l1 ++ l2) = max_covered dep acc l2.
Proof.
  intros Hl. unfold max_covered. rewrite filter_app, (filter_none (fun e => covers dep e.1) l1); [done|].
  intros e He%Hl. apply not_true_iff_false. intros (t & Ht & Hc)%covers_spec. apply Contains_bounds in Hc as [Hc _].
  rewrite Ht, app_assoc in He. unfold blt in He. rewrite bcompare_app in He. by apply not_blt in Hc.
Qed.

Lemma rangeVersion_spec cache k :
  cache_ok d cache ->
  cache_ok d (rangeVersion d read cache k).1 /\
  (rangeVersion d read cache k).2 =
    match decodeRangeDependency (trim_prefix rangeGuardPrefix k) with
    | None => u64_max
    | Some dep => max_covered dep 0 (b_entries (d_data d))
    end.
Proof.
  intros Hc. unfold rangeVersion. destruct (decodeRangeDependency _) as [dep|]; [|done].
  set (prefix := rd_Space dep ++ [x00]).
  destruct (seek_spec (d_data d) (prefix ++ raw (rg_Lower (rd_Bounds dep)))) as (l1 & l2 & Hb & -> & Hlo & Hhi).
  rewrite (fwd_loop_spec _ _ _ _ l1 l2 Hb) by (unfold b_size; rewrite Hb, length_app; lia).
  pose proof (entries_ordered _ (d_data d)) as Ho. rewrite Hb in Ho. apply ordered_app_inv in Ho as (_ & Ho & _).
  destruct (range_loop_spec dep l2 cache 0 Ho) as (cache' & E & Hc'); [|done|done|].
  { intros e He. rewrite Hb. apply elem_of_app. by right. }
  fold prefix in E. rewrite E. cbn [fst snd]. split; [done|]. rewrite Hb. symmetry. by apply max_covered_skip.
Qed.
End Guards.
End Histories.

(** ** The readers of a store *)

Section Readers.
Context `{BoltLaws} `{GuardCodec}.

Lemma reader_guard d snapshot fuel cache k :
  db_wf d -> data_plain d -> cache_ok d cache -> has_prefix rangeGuardPrefix k = true ->
  cache_ok d (reader_visible_at (S fuel) d snapshot cache k).1 /\
  (reader_visible_at (S fuel) d snapshot cache k).2 =
    ([], match decodeRangeDependency (trim_prefix rangeGuardPrefix k) with
         | None => u64_max
         | Some dep => max_covered d snapshot dep 0 (b_entries (d_data d))
         end, false).
Proof.
  intros Hw Hp Hc Hk. cbn [reader_visible_at]. rewrite Hk.
  destruct (rangeVersion_spec d snapshot (reader_visible_at fuel d snapshot)) with (cache := cache) (k := k) as [H2 H3]; [|done|].
  { intros c e He Hc'. apply reader_point; [done..|]. by apply Hp. }
  destruct (rangeVersion d _ cache k) as [c v]. cbn [fst snd] in *. by rewrite H3.
Qed.

(** The cache never changes an answer. *)
Lemma reader_visible_spec d snapshot cache k :
  db_wf d -> data_plain d -> cache_ok d cache ->
  cache_ok d (reader_visible d snapshot cache k).1 /\
  (reader_visible d snapshot cache k).2 = visible d k snapshot.
Proof.
  intros Hw Hp Hc. unfold reader_visible, visible. destruct (has_prefix rangeGuardPrefix k) eqn:Hk.
  - destruct (reader_guard d snapshot (b_size (d_data d)) cache k) as [H2 H3]; [done..|]. split; [done|].
    destruct (reader_guard d snapshot (b_size (d_data d)) empty_cache k) as [_ H5]; [done|done|apply empty_cache_ok|done|].
    unfold reader_visible. by rewrite H3, H5.
  - by apply reader_point.
Qed.

(** A read of a guard. *)
Lemma visible_guard d snapshot k :
  db_wf d -> data_plain d -> has_prefix rangeGuardPrefix k = true ->
  visible d k snapshot =
    ([], match decodeRangeDependency (trim_prefix rangeGuardPrefix k) with
         | None => u64_max
         | Some dep => max_covered d snapshot dep 0 (b_entries (d_data d))
         end, false).
Proof.
  intros Hw Hp Hk. unfold visible. rewrite Hk. unfold reader_visible.
  apply (reader_guard d snapshot (b_size (d_data d)) empty_cache k); [done|done|apply empty_cache_ok|done].
Qed.

Lemma max_covered_bound d snapshot dep acc (l : list (bytes * item)) :
  acc <= max_covered d snapshot dep acc l /\
  (forall e, e ∈ l -> covers dep e.1 = true -> version_read d snapshot e.1 <= max_covered d snapshot dep acc l) /\
  (max_covered d snapshot dep acc l = acc \/
   exists e, e ∈ l /\ covers dep e.1 = true /\ max_covered d snapshot dep acc l = version_read d snapshot e.1).
Proof.
  unfold max_covered. revert acc. induction l as [|e l IH]; intros acc; cbn [filter].
  { cbn. split_and!; [lia|by intros ? ?%not_elem_of_nil|by left]. }
  rewrite filter_cons. destruct (covers dep e.1) eqn:Hc.
  - rewrite decide_True by done. cbn [foldl]. destruct (IH (acc `max` version_read d snapshot e.1)) as (H2 & H3 & H4).
    split_and!; [lia| |].
    + intros e' [->|He']%elem_of_cons Hc'; [lia|by apply H3].
    + destruct H4 as [H4|(e' & He' & Hc' & H4)]; [|right; exists e'; by rewrite elem_of_cons; auto].
      destruct (Z.max_spec acc (version_read d snapshot e.1)) as [[_ E]|[_ E]]; rewrite E in H4 at 2;
        [right; exists e|left; done]. rewrite elem_of_cons. auto.
  - rewrite decide_False by tauto. destruct (IH acc) as (H2 & H3 & H4). split_and!; [done| |].
    + intros e' [->|He']%elem_of_cons Hc'; [congruence|by apply H3].
    + destruct H4 as [H4|(e' & He' & Hc' & H4)]; [by left|right; exists e'; by rewrite elem_of_cons; auto].
Qed.
End Readers.

(** C17: reading a key at a snapshot gives the newest committed version of its history that is not
    above the snapshot, a value or a deletion, in either layout; reading a guard gives the greatest
    version visible under any key the guard covers, and the highest version when the guard is
    malformed; and the cached reader of a scan or a validation answers the same. *)
Theorem snapshot_read_exact `{BoltLaws} `{GuardCodec} (d : db) (k : bytes) (snapshot : Z) (cache : list cacheEntry) :
  is_u64 snapshot -> db_wf d -> data_plain d -> cache_ok d cache ->
  (reader_visible d snapshot cache k).2 = visible d k snapshot /\
  (has_prefix rangeGuardPrefix k = false ->
     visible d k snapshot = read_at (history d k) (committed_at d) snapshot) /\
  (has_prefix rangeGuardPrefix k = true -> exists n, visible d k snapshot = ([], n, false) /\
     match decodeRangeDependency (trim_prefix rangeGuardPrefix k) with
     | None => n = u64_max
     | Some dep =>
         (forall e, e ∈ b_entries (d_data d) -> covers dep e.1 = true -> version_read d snapshot e.1 <= n) /\
         (n = 0 \/ exists e, e ∈ b_entries (d_data d) /\ covers dep e.1 = true /\ n = version_read d snapshot e.1)
     end).
Proof.
  intros Hs Hw Hp Hc. split_and!; [by apply reader_visible_spec|..]; intros Hk.
  - unfold visible. rewrite Hk. by apply point_visible_spec.
  - rewrite visible_guard by done. eexists. split; [done|].
    destruct (decodeRangeDependency _) as [dep|]; [|done]. apply (max_covered_bound d snapshot dep 0).
Qed.

(** ** A file with one row: version 1 committed, version 2 not yet published *)

#[local] Instance prefix_codec : GuardCodec := {
  marshalDependency := rd_Space;
  unmarshalDependency := fun s => Some (mkDependency s unbounded)
}.

Definition sample_rows : bucket bytes :=
  b_put (sequence 2) (one_byte 0) (b_put (sequence 1) (byte_of_Z 1 :: str "v") b_empty).

Definition sample_file : db :=
  mkDB _ (b_put (str "t" ++ [x00]) (Sub sample_rows) b_empty) b_empty b_empty
    (b_put (sequence 1) (one_byte 1) b_empty) b_empty None.

Lemma sample_file_wf : db_wf sample_file /\ data_plain sample_file.
Proof.
  assert (forall e, e ∈ b_entries (d_data sample_file) -> e = (str "t" ++ [x00], Sub sample_rows)) as Hd
    by (intros e He; by apply list_elem_of_singleton in He).
  split.
  - change (forall k rows, b_get (d_data sample_file) k = Some (Sub rows) ->
      forall e, e ∈ b_entries rows -> version_key e). intros k rows Hk.
    rewrite get_entries, kv_get_elem in Hk by apply entries_ordered. apply Hd in Hk as [= _ ->].
    intros e He. change (e ∈ [(sequence 1, byte_of_Z 1 :: str "v"); (sequence 2, one_byte 0)]) in He.
    by apply elem_of_cons in He as [->| ->%list_elem_of_singleton].
  - intros e ->%Hd. by vm_compute.
Qed.

Lemma snapshot_read_exact_witness :
  (reader_visible sample_file 5 empty_cache (str "t" ++ [x00])).2 = visible sample_file (str "t" ++ [x00]) 5 /\
  visible sample_file (str "t" ++ [x00]) 5 = (str "v", 1, true).
Proof.
  destruct (snapshot_read_exact sample_file (str "t" ++ [x00]) 5 empty_cache) as [H _];
    [unfold is_u64; lia|apply sample_file_wf|apply sample_file_wf|apply empty_cache_ok|].
  split; [exact H|]. vm_compute. reflexivity.
Defined.
