(* ===== verification/Layouts.v ===== *)
(** * Installing a version, in either layout

    What [putVersion] does to the history of each key, and that the file stays well formed. *)

From stdpp Require Import gmap list sorting strings fin_maps.
From Stdlib Require Import Strings.Byte.
From S2P Require Import Prelude TxnState Bolt Keys Versions Visibility.

(** The history with the record of version [n] set. *)
Fixpoint hist_put (n : Z) (v : bytes) (h : list (Z * bytes)) : list (Z * bytes) :=
  match h with
  | [] => [(n, v)]
  | (m, w) :: h' =>
      match n ?= m with
      | Lt => (n, v) :: h
      | Eq => (n, v) :: h'
      | Gt => (m, w) :: hist_put n v h'
      end
  end.

Lemma hist_put_first n v h : (forall m w, (m, w) ∈ h -> n < m) -> hist_put n v h = (n, v) :: h.
Proof.
  destruct h as [|[m w] h]; intros Hh; [done|]. cbn. rewrite (proj2 (Z.compare_lt_iff n m)); [done|]. apply (Hh m w). by left.
Qed.

Lemma hist_put_elem n v h m w : (m, w) ∈ hist_put n v h -> (m, w) = (n, v) \/ (m, w) ∈ h.
Proof.
  induction h as [|[m' w'] h IH]; cbn; [rewrite list_elem_of_singleton; by left|].
  destruct (n ?= m'); rewrite !elem_of_cons; tauto.
Qed.

(** Reads of committed versions do not see a version that is not committed. *)
Lemma filter_hist_put_skip (c : Z * bytes -> bool) n v h :
  (forall w, c (n, w) = false) -> filter c (hist_put n v h) = filter c h.
Proof.
  intros Hn. assert (forall w l, filter c ((n, w) :: l) = filter c l) as Hs
    by (intros; rewrite filter_cons, decide_False; [done|rewrite Hn; cbn; tauto]).
  induction h as [|[m w] h IH]; cbn [hist_put]; [by rewrite Hs|].
  destruct (Z.compare_spec n m) as [->|?|?]; [by rewrite !Hs|by rewrite Hs|]. by rewrite !filter_cons, IH.
Qed.

(** Installing the same version twice keeps the second record. *)
Lemma hist_put_put n v w h : hist_put n w (hist_put n v h) = hist_put n w h.
Proof.
  induction h as [|[m x] h IH]; cbn [hist_put]; [by rewrite Z.compare_refl|].
  destruct (Z.compare_spec n m) as [->|?|?]; cbn [hist_put]; rewrite ?Z.compare_refl; try done.
  rewrite (proj2 (Z.compare_gt_iff n m)) by lia. by rewrite IH.
Qed.

Definition hist_ordered (h : list (Z * bytes)) : Prop := StronglySorted (fun a b : Z * bytes => a.1 < b.1) h.

Lemma hist_ordered_inv e h : hist_ordered (e :: h) -> hist_ordered h /\ forall e', e' ∈ h -> e.1 < e'.1.
Proof. intros Hh. apply StronglySorted_inv in Hh as [H1 H2]. split; [done|]. by apply Forall_forall. Qed.

Lemma last_filter_first (c : Z * bytes -> bool) e h :
  c e = true -> (forall e', e' ∈ h -> c e' = false) -> last (filter c (e :: h)) = Some e.
Proof. intros He Hh. rewrite filter_cons, decide_True by by rewrite He. by rewrite (filter_none c h). Qed.

(** The newest version a read may see, once it is installed. *)
Lemma last_hist_put (c : Z * bytes -> bool) n v h :
  hist_ordered h -> c (n, v) = true -> (forall e, e ∈ h -> c e = true -> e.1 <= n) ->
  last (filter c (hist_put n v h)) = Some (n, v).
Proof.
  intros Ho Hc. induction h as [|[m w] h IH]; cbn [hist_put]; intros Hh.
  { apply last_filter_first; [done|]. by intros ? ?%not_elem_of_nil. }
  pose proof Ho as [Ho' Hlt]%hist_ordered_inv. cbn in Hlt.
  assert (n <= m -> forall e, e ∈ h -> c e = false) as Hlater.
  { intros Hnm e He. apply not_true_iff_false. intros Hce. pose proof (Hlt e He).
    pose proof (Hh e ltac:(by right) Hce). lia. }
  destruct (Z.compare_spec n m) as [->|Hnm|Hnm].
  - apply last_filter_first; [done|]. apply Hlater. lia.
  - apply last_filter_first; [done|]. intros e [->|He]%elem_of_cons; [|apply Hlater; [lia|done]].
    apply not_true_iff_false. intros Hce. pose proof (Hh (m, w) ltac:(by left) Hce). cbn in *. lia.
  - rewrite filter_cons. assert (last (filter c (hist_put n v h)) = Some (n, v)) as IH'
      by (apply IH; [done|intros; apply Hh; [by right|done]]).
    case_decide; [|done]. rewrite last_cons, IH'. done.
Qed.

Section Install.
Context `{BoltLaws}.

Lemma nested_hist_put n v (l : list (bytes * bytes)) :
  is_u64 n -> (forall e, e ∈ l -> version_key e) ->
  (fun e : bytes * bytes => (number e.1, e.2)) <$> kv_put (sequence n) v l
  = hist_put n v ((fun e : bytes * bytes => (number e.1, e.2)) <$> l).
Proof.
  intros Hn. induction l as [|[k' w] l IH]; intros Hl; cbn [kv_put fmap list_fmap hist_put fst snd];
    [by rewrite number_sequence|].
  assert (length k' = 8%nat) as Hk by apply (Hl (k', w) ltac:(by left)).
  assert (bcompare (sequence n) k' = (n ?= number k')) as ->.
  { rewrite <- (sequence_number k') at 1 by done. apply bcompare_be64; [done|apply number_range]. }
  destruct (n ?= number k'); cbn [fmap list_fmap fst snd]; rewrite ?number_sequence by done; try done.
  f_equal. apply IH. intros. apply Hl. by right.
Qed.

(** The entries of one row of the flat layout. *)
Definition row_entry (k : bytes) (e : bytes * bytes) : option (Z * bytes) :=
  if has_prefix (flatPrefix k) e.1 then Some (number (trim_prefix (flatPrefix k) e.1), e.2) else None.

Lemma row_entry_own k n v : is_u64 n -> row_entry k (flatPrefix k ++ sequence n, v) = Some (n, v).
Proof. intros Hn. unfold row_entry; cbn [fst snd]. by rewrite has_prefix_app, trim_prefix_app, number_sequence. Qed.

Lemma row_entry_other k k' t v : k' <> k -> row_entry k' (flatPrefix k ++ t, v) = None.
Proof.
  intros Hk. unfold row_entry; cbn [fst snd]. destruct (has_prefix _ _) eqn:Hp; [|done].
  apply has_prefix_spec in Hp as [u E]. apply flatPrefix_inj in E as [-> _]. done.
Qed.

Lemma row_entry_inv k e m w :
  flat_key e -> row_entry k e = Some (m, w) -> e = (flatPrefix k ++ sequence m, w) /\ is_u64 m.
Proof.
  intros He. unfold row_entry. destruct (has_prefix _ _) eqn:Hp; [|done]. intros [= <- <-].
  apply has_prefix_spec in Hp as [t Ht]. pose proof (flat_key_row e k t He Ht) as Hl. destruct e as [k' w]. cbn [fst snd] in *.
  rewrite Ht, trim_prefix_app, sequence_number by done. split; [done|apply number_range].
Qed.

Lemma row_entry_elem k (l : list (bytes * bytes)) m w :
  (forall e, e ∈ l -> flat_key e) ->
  (m, w) ∈ omap (row_entry k) l -> (flatPrefix k ++ sequence m, w) ∈ l /\ is_u64 m.
Proof.
  intros Hl (e & He & Hr)%list_elem_of_omap. apply row_entry_inv in Hr as [-> Hm]; [done|by apply Hl].
Qed.

Lemma flat_hist_put k n v (l : list (bytes * bytes)) :
  is_u64 n -> ordered l -> (forall e, e ∈ l -> flat_key e) ->
  omap (row_entry k) (kv_put (flatPrefix k ++ sequence n) v l) = hist_put n v (omap (row_entry k) l).
Proof.
  intros Hn. induction l as [|[k' w] l IH]; intros Ho Hl.
  { cbn [kv_put]. cbn [omap list_omap]. by rewrite row_entry_own. }
  pose proof Ho as [Ho' Hlt]%ordered_cons_inv.
  assert (forall e, e ∈ l -> flat_key e) as Hl' by (intros; apply Hl; by right).
  cbn [kv_put]. destruct (bcompare (flatPrefix k ++ sequence n) k') eqn:E.
  - apply bcompare_eq in E as <-. cbn [omap list_omap]. rewrite !row_entry_own by done. cbn. by rewrite Z.compare_refl.
  - cbn [omap list_omap]. rewrite row_entry_own by done. symmetry. apply hist_put_first. intros m x Hin.
    assert (forall e, e ∈ (k', w) :: l -> blt (flatPrefix k ++ sequence n) e.1) as Hb.
    { intros e [->|He]%elem_of_cons; [done|]. apply (blt_trans _ k'); [done|by apply Hlt]. }
    apply (row_entry_elem k ((k', w) :: l)) in Hin as [Hin Hm]; [|done]. apply Hb in Hin. cbn in Hin.
    unfold blt in Hin. rewrite bcompare_app in Hin. by apply sequence_lt in Hin.
  - cbn [omap list_omap]. rewrite IH by done. destruct (row_entry k (k', w)) as [[m x]|] eqn:Hr; [|done].
    apply row_entry_inv in Hr as [Hr Hm]; [|apply Hl; by left]. injection Hr as -> ->.
    rewrite bcompare_app in E. apply bcompare_gt in E. apply sequence_lt in E; [|done..].
    cbn. by rewrite (proj2 (Z.compare_gt_iff n m)).
Qed.

Lemma flat_hist_other k k' t v (l : list (bytes * bytes)) :
  k' <> k -> omap (row_entry k') (kv_put (flatPrefix k ++ t) v l) = omap (row_entry k') l.
Proof.
  intros Hk. induction l as [|[k2 w] l IH]; cbn [kv_put].
  { cbn [omap list_omap]. by rewrite row_entry_other. }
  destruct (bcompare (flatPrefix k ++ t) k2) eqn:E; cbn [omap list_omap]; rewrite ?(row_entry_other k k') by done; [|done|by rewrite IH].
  apply bcompare_eq in E as <-. by rewrite row_entry_other.
Qed.
(** ** [putVersion] *)

(** The row directory holds what the layout puts there. *)
Definition directory_ok (d : db) : Prop :=
  forall k i, b_get (d_data d) k = Some i -> match i with Val v => flatLayout d = true /\ v = one_byte 1 | Sub _ => flatLayout d = false end.

Lemma history_flat d k : flatLayout d = true -> history d k = omap (row_entry k) (b_entries (flat_versions d)).
Proof. unfold history. by intros ->. Qed.

(** What an installed version leaves alone. *)
Record versions_only (d d' : db) : Prop := {
  vd_meta : d_meta d' = d_meta d;
  vd_pending : d_pending d' = d_pending d;
  vd_commits : d_commits d' = d_commits d;
  vd_counters : d_counters d' = d_counters d
}.

#[export] Instance versions_only_preorder : PreOrder versions_only.
Proof. split; [by intros d|]. intros d1 d2 d3 [] []. constructor; congruence. Qed.

Lemma versions_only_layout d d' : versions_only d d' -> flatLayout d' = flatLayout d.
Proof. intros [Hm _ _ _]. unfold flatLayout. by rewrite Hm. Qed.

Lemma versions_only_committed d d' n : versions_only d d' -> committed_at d' n = committed_at d n.
Proof. intros [_ _ Hc _]. unfold committed_at, committed_key. by rewrite Hc. Qed.

Lemma get_put {V} (b : bucket V) k v k' : b_get (b_put k v b) k' = if decide (k' = k) then Some v else b_get b k'.
Proof. rewrite !get_entries, put_entries. apply kv_get_put, entries_ordered. Qed.

Lemma elem_put {V} (b : bucket V) k v e : e ∈ b_entries (b_put k v b) <-> e = (k, v) \/ (e.1 <> k /\ e ∈ b_entries b).
Proof. rewrite put_entries. apply kv_put_elem, entries_ordered. Qed.

Definition put_effect (d d' : db) (k : bytes) (n : Z) (value : bytes) : Prop :=
  db_wf d' /\ directory_ok d' /\ versions_only d d' /\
  (forall k', history d' k' = if decide (k' = k) then hist_put n value (history d k) else history d k').

Lemma put_flat_spec d k n value :
  is_u64 n -> db_wf d -> directory_ok d -> flatLayout d = true ->
  exists d', putVersion d k (sequence n) value = Ok d' /\ put_effect d d' k n value.
Proof.
  intros Hn Hw Hd Hl. unfold putVersion. rewrite Hl.
  assert (exists data, match b_get (d_data d) k with
    | Some (Val _) => Ok (d_data d) | Some (Sub _) => incompatible | None => Ok (b_put k (Val (one_byte 1)) (d_data d)) end = Ok data /\
    forall k' i, b_get data k' = Some i -> i = Val (one_byte 1)) as (data & -> & Hdata).
  { destruct (b_get (d_data d) k) as [[v|rows]|] eqn:Hk.
    - exists (d_data d). split; [done|]. intros k' [v'|r] Hi%Hd; [by destruct Hi as [_ ->]|congruence].
    - apply Hd in Hk. congruence.
    - eexists. split; [done|]. intros k' i. rewrite get_put. case_decide; [by intros [= <-]|].
      destruct i as [v'|r]; intros Hi%Hd; [by destruct Hi as [_ ->]|congruence]. }
  cbn [rbind]. eexists. split; [done|]. unfold db_wf in Hw. rewrite Hl in Hw.
  set (d' := _ <| d_flat := _ |>). assert (versions_only d d') as Hv by done.
  pose proof (versions_only_layout d d' Hv) as Hl'. rewrite Hl in Hl'. split_and!; [| |done|].
  - unfold db_wf. rewrite Hl'. cbn. intros e [->|[_ He]]%elem_put; [|by apply Hw].
    exists k, (sequence n). split; [done|apply length_sequence].
  - intros k' i Hi. cbn in Hi. apply Hdata in Hi as ->. split; [exact Hl'|done].
  - intros k'. rewrite (history_flat d' k' Hl'). cbn. rewrite put_entries. case_decide as Hk.
    + subst k'. rewrite (history_flat d k Hl). apply flat_hist_put; [done|apply entries_ordered|done].
    + rewrite (history_flat d k' Hl). by apply flat_hist_other.
Qed.

Lemma put_nested_spec d k n value :
  is_u64 n -> db_wf d -> directory_ok d -> flatLayout d = false ->
  exists d', putVersion d k (sequence n) value = Ok d' /\ put_effect d d' k n value.
Proof.
  intros Hn Hw Hd Hl. unfold putVersion. rewrite Hl. unfold db_wf in Hw. rewrite Hl in Hw.
  set (rows := match b_get (d_data d) k with Some (Sub rows) => rows | _ => b_empty end).
  exists (d <| d_data ::= b_put k (Sub (b_put (sequence n) value rows)) |>).
  split; [subst rows; destruct (b_get (d_data d) k) as [[v|r]|] eqn:Hk; try done; apply Hd in Hk as [? _]; congruence|].
  assert (forall e, e ∈ b_entries rows -> version_key e) as Hr.
  { subst rows. destruct (b_get (d_data d) k) as [[v|r]|] eqn:Hk; [|by apply (Hw k)|];
      intros e; rewrite entries_empty; by intros ?%not_elem_of_nil. }
  set (d' := _ <| d_data ::= _ |>). assert (versions_only d d') as Hv by done.
  pose proof (versions_only_layout d d' Hv) as Hl'. rewrite Hl in Hl'.
  split_and!; [| |done|].
  - unfold db_wf. rewrite Hl'. intros k' rows'. cbn. rewrite get_put. case_decide; [|apply Hw].
    intros [= <-] e [->|[_ He]]%elem_put; [apply length_sequence|by apply Hr].
  - intros k' i. cbn. rewrite get_put. case_decide; [by intros [= <-]|]. intros Hi. pose proof (Hd k' i Hi) as Hx.
    destruct i; [destruct Hx; congruence|exact Hl'].
  - intros k'. unfold history. rewrite Hl', Hl.
    change (d_data d') with (b_put k (Sub (b_put (sequence n) value rows)) (d_data d)). rewrite get_put. case_decide as Hk; [|done]. subst k'.
    rewrite put_entries, nested_hist_put by done. f_equal. subst rows.
    destruct (b_get (d_data d) k) as [[v|r]|]; [|done|]; by rewrite entries_empty.
Qed.

(** Installing a version sets it in the history of its key and changes nothing else. *)
Lemma putVersion_spec d k n value :
  is_u64 n -> db_wf d -> directory_ok d ->
  exists d', putVersion d k (sequence n) value = Ok d' /\ put_effect d d' k n value.
Proof. intros. destruct (flatLayout d) eqn:?; [by apply put_flat_spec|by apply put_nested_spec]. Qed.

Lemma putVersion_plain d k n value d' :
  putVersion d k (sequence n) value = Ok d' -> data_plain d -> has_prefix rangeGuardPrefix k = false -> data_plain d'.
Proof.
  unfold putVersion, data_plain. intros Hp Hd Hk e He.
  assert (forall i (e : bytes * item), e ∈ b_entries (b_put k i (d_data d)) -> has_prefix rangeGuardPrefix e.1 = false) as Hput.
  { intros i e' [->|[_ ?]]%elem_put; [done|by apply Hd]. }
  destruct (flatLayout d), (b_get (d_data d) k) as [[v|r]|]; cbn in Hp; try discriminate Hp; injection Hp as <-; cbn in He;
    eauto.
Qed.

(** The row directory gains the key. *)
Lemma putVersion_lists d k n value d' k' :
  putVersion d k (sequence n) value = Ok d' ->
  is_Some (b_get (d_data d') k') <-> k' = k \/ is_Some (b_get (d_data d) k').
Proof.
  unfold putVersion. destruct (flatLayout d), (b_get (d_data d) k) as [[v|r]|] eqn:Hk; cbn; try done;
    intros [= <-]; cbn; rewrite ?get_put; repeat case_decide; subst; rewrite ?Hk; naive_solver.
Qed.

(** ** Histories are in order *)

Lemma history_ordered d k : db_wf d -> hist_ordered (history d k).
Proof.
  unfold db_wf, history. destruct (flatLayout d) eqn:Hl; intros Hw.
  - change (hist_ordered (omap (row_entry k) (b_entries (flat_versions d)))).
    pose proof (entries_ordered _ (flat_versions d)) as Ho. revert Ho Hw. generalize (b_entries (flat_versions d)).
    intros l. induction l as [|e l IH]; intros Ho Hw; [constructor|]. pose proof Ho as [Ho' Hlt]%ordered_cons_inv.
    assert (forall e, e ∈ l -> flat_key e) as Hw' by (intros; apply Hw; by right).
    cbn [omap list_omap]. destruct (row_entry k e) as [[m x]|] eqn:Hr; [|by apply IH]. constructor; [by apply IH|].
    apply Forall_forall. intros [m' x'] [Hin Hm']%row_entry_elem; [|done]. apply Hlt in Hin.
    apply row_entry_inv in Hr as [-> Hm]; [|apply Hw; by left]. cbn [fst snd] in *. unfold blt in Hin.
    rewrite bcompare_app in Hin. by apply sequence_lt in Hin.
  - destruct (b_get (d_data d) k) as [[v|rows]|] eqn:Hk; [constructor| |constructor]. specialize (Hw k rows Hk).
    pose proof (entries_ordered _ rows) as Ho. revert Ho Hw. generalize (b_entries rows). intros l.
    induction l as [|e l IH]; intros Ho Hw; [constructor|]. pose proof Ho as [Ho' Hlt]%ordered_cons_inv.
    cbn. constructor; [apply IH; [done|intros; apply Hw; by right]|]. apply Forall_forall.
    intros x (e' & -> & He')%list_elem_of_fmap. pose proof (Hlt e' He') as Hb.
    assert (length e.1 = 8%nat) as H1 by (apply Hw; by left). assert (length e'.1 = 8%nat) as H2 by (apply Hw; by right).
    cbn. rewrite <- (sequence_number e.1), <- (sequence_number e'.1) in Hb by done.
    by apply sequence_lt in Hb; [|apply number_range..].
Qed.
End Install.
