(* ===== verification/Conflict.v ===== *)
(** * The commit rule: [mvcc/conflict.go]

    A dependency may be committed when its newest committed change is not newer than what the
    transaction read.  A lookup may keep state of its own (the cache of a view's reader), so it is a
    function from that state. *)

From stdpp Require Import gmap list sorting strings fin_maps.
From Stdlib Require Import Strings.Byte.
From S2P Require Import Prelude TxnState Bolt Keys Versions Visibility.

(** [committedChangeLookup] of a view whose reader has the cache [St]. *)
Definition committedChangeLookup (St : Type) : Type := St -> bytes -> St * Z.

Definition newViewChangeLookup `{Bolt} `{GuardCodec} (d : db) : committedChangeLookup (list cacheEntry) :=
  fun cache logicalKey =>
    let '(cache, r) := reader_visible d u64_max cache logicalKey in
    (cache, reading_version r).

(** The changes accepted earlier in one commit group, over a base lookup. *)
Definition group_step `{GuardCodec} (guardKey : bytes) (latest : Z) (kv : bytes * Z) : Z :=
  let '(changed, index) := kv in
  if (latest <? index) && rangeDependencyContains guardKey changed then index else latest.

Definition newGroupChangeLookup `{MapRange} `{GuardCodec} {St} (base : committedChangeLookup St)
    (accepted : gmap bytes Z) : committedChangeLookup St :=
  fun st logicalKey =>
    let '(st, latest) := base st logicalKey in
    let latest := match accepted !! logicalKey with
                  | Some index => if latest <? index then index else latest
                  | None => latest
                  end in
    if negb (has_prefix rangeGuardPrefix logicalKey) then (st, latest)
    else (st, foldl (group_step (trim_prefix rangeGuardPrefix logicalKey)) latest (range 0 accepted)).

(** ** The validator *)

Record conflictValidator (St : Type) : Type := mkValidator {
  cv_readTS : Z;
  cv_latest : committedChangeLookup St;
  cv_baseline : option (bytes -> option Z)
}.
Arguments mkValidator {St}.
Arguments cv_readTS {St}.
Arguments cv_latest {St}.
Arguments cv_baseline {St}.

Definition newConflictValidator {St} (readTS : Z) (latest : committedChangeLookup St) : conflictValidator St :=
  mkValidator readTS latest None.

Definition withBaseline {St} (v : conflictValidator St) (baseline : option (bytes -> option Z)) : conflictValidator St :=
  mkValidator (cv_readTS v) (cv_latest v) baseline.

(** The version a write may build on. *)
Definition entitled (baseline : option (bytes -> option Z)) (readTS : Z) (k : bytes) : Z :=
  match baseline with
  | Some observed_at => default readTS (observed_at k)
  | None => readTS
  end.

Definition cv_validateKey {St} (v : conflictValidator St) (st : St) (logicalKey : bytes)
    : St * result mvcc_error unit :=
  let '(st, latest) := cv_latest v st logicalKey in
  match cv_baseline v with
  | Some baseline =>
      match baseline logicalKey with
      | Some observed => (st, if observed <? latest then Err ErrConflict else Ok tt)
      | None => (st, if cv_readTS v <? latest then Err ErrConflict else Ok tt)
      end
  | None => (st, if cv_readTS v <? latest then Err ErrConflict else Ok tt)
  end.

Fixpoint validateOps {St} (v : conflictValidator St) (st : St) (ops : list Op) : St * result mvcc_error unit :=
  match ops with
  | [] => (st, Ok tt)
  | op :: ops =>
      match key (op_Space op) (op_Key op) with
      | Err e => (st, Err e)
      | Ok logicalKey =>
          if op_Check op then
            let '(st, latest) := cv_latest v st logicalKey in
            if cv_readTS v <? latest then (st, Err ErrConflict) else validateOps v st ops
          else
            let '(st, verdict) := cv_validateKey v st logicalKey in
            match verdict with
            | Err e => (st, Err e)
            | Ok _ => validateOps v st ops
            end
      end
  end.

(** ** What the rule decides *)

(** The newest committed change of a key or of a guard. *)
Definition latest_change `{Bolt} `{GuardCodec} (d : db) (k : bytes) : Z := reading_version (visible d k u64_max).

Section Rule.
Context {St : Type} (ok : St -> Prop) (lookup : committedChangeLookup St) (latest : bytes -> Z).
Context (lookup_ok : forall st k, ok st -> ok (lookup st k).1 /\ (lookup st k).2 = latest k).
Context (readTS : Z) (baseline : option (bytes -> option Z)).

Let v : conflictValidator St := withBaseline (newConflictValidator readTS lookup) baseline.

(** One dependency is unchanged: a guard since the snapshot, a write since what it observed. *)
Definition unchanged (op : Op) : Prop :=
  exists k, key (op_Space op) (op_Key op) = Ok k /\
    latest k <= if op_Check op then readTS else entitled baseline readTS k.

Lemma validateKey_ok st k :
  ok st -> ok (cv_validateKey v st k).1 /\
  (cv_validateKey v st k).2 = (if entitled baseline readTS k <? latest k then Err ErrConflict else Ok tt).
Proof.
  intros Hst. destruct (lookup_ok st k Hst) as [H1 H2]. unfold cv_validateKey, v, withBaseline, newConflictValidator, entitled.
  cbn [cv_latest cv_baseline cv_readTS]. destruct (lookup st k) as [st' n]. cbn in H1, H2. subst n.
  destruct baseline as [b|]; [destruct (b k)|]; done.
Qed.

Lemma validateOps_ok ops st :
  ok st -> ok (validateOps v st ops).1 /\
  ((validateOps v st ops).2 = Ok tt <-> Forall unchanged ops).
Proof.
  revert st. induction ops as [|op ops IH]; intros st Hst; cbn [validateOps]; [by repeat split|].
  destruct (key (op_Space op) (op_Key op)) as [k|e] eqn:Hk.
  2: { split; [done|]. split; [done|]. intros [(k & Hk' & _) _]%Forall_cons. congruence. }
  assert (unchanged op <-> latest k <= if op_Check op then readTS else entitled baseline readTS k) as Hu.
  { split; [intros (k' & Hk' & Hle); by assert (k = k') as -> by congruence|intros Hle; by exists k]. }
  rewrite Forall_cons, Hu. destruct (op_Check op).
  - destruct (lookup_ok st k Hst) as [H1 H2]. change (cv_latest v) with lookup. change (cv_readTS v) with readTS.
    destruct (lookup st k) as [st' n]. cbn in H1, H2. subst n. destruct (Z.ltb_spec readTS (latest k)).
    + split; [done|]. split; [done|]. intros [? _]. lia.
    + destruct (IH st' H1) as [H3 ->]. split; [done|]. tauto.
  - destruct (validateKey_ok st k Hst) as [H1 H2]. destruct (cv_validateKey v st k) as [st' r]. cbn in H1, H2. subst r.
    destruct (Z.ltb_spec (entitled baseline readTS k) (latest k)).
    + split; [done|]. split; [done|]. intros [? _]. lia.
    + destruct (IH st' H1) as [H3 ->]. split; [done|]. tauto.
Qed.
End Rule.

Lemma view_lookup_ok `{BoltLaws} `{GuardCodec} d cache k :
  db_wf d -> data_plain d -> cache_ok d cache ->
  cache_ok d (newViewChangeLookup d cache k).1 /\ (newViewChangeLookup d cache k).2 = latest_change d k.
Proof.
  intros Hw Hp Hc. unfold newViewChangeLookup, latest_change.
  destruct (reader_visible_spec d u64_max cache k Hw Hp Hc) as [H2 H3].
  destruct (reader_visible d u64_max cache k) as [c r]. cbn [fst snd] in *. by subst r.
Qed.

(** The group lookup sees the greatest accepted change that touches the key. *)
Lemma group_fold_spec `{GuardCodec} guardKey (l : list (bytes * Z)) acc :
  let r := foldl (group_step guardKey) acc l in
  acc <= r /\ (forall k n, (k, n) ∈ l -> rangeDependencyContains guardKey k = true -> n <= r) /\
  (r = acc \/ exists k, (k, r) ∈ l /\ rangeDependencyContains guardKey k = true).
Proof.
  revert acc. induction l as [|[k n] l IH]; intros acc; cbn [foldl]; cbn zeta.
  { split_and!; [lia|by intros ? ? ?%not_elem_of_nil|by left]. }
  cbn [group_step]. destruct (rangeDependencyContains guardKey k) eqn:Hk.
  - rewrite andb_true_r. set (a := if acc <? n then n else acc).
    assert (acc <= a /\ n <= a /\ (a = acc \/ a = n)) as (Ha & Hn & Hc) by (subst a; destruct (Z.ltb_spec acc n); lia).
    destruct (IH a) as (H1 & H2 & H3). split_and!; [lia| |].
    + intros k' n' [[= -> ->]|Hin]%elem_of_cons Hk'; [lia|by apply (H2 k')].
    + destruct H3 as [H3|(k' & Hin & Hk')]; [|right; exists k'; rewrite elem_of_cons; auto].
      destruct Hc as [Hc|Hc]; [left; congruence|]. right. exists k. rewrite H3, Hc. split; [by left|done].
  - rewrite andb_false_r. destruct (IH acc) as (H1 & H2 & H3). split_and!; [done| |].
    + intros k' n' [[= -> ->]|Hin]%elem_of_cons Hk'; [congruence|by apply (H2 k')].
    + destruct H3 as [H3|(k' & Hin & Hk')]; [by left|right; exists k'; rewrite elem_of_cons; auto].
Qed.
