(* ===== verification/Store.v ===== *)
(** * The store and its physical transactions

    The fields of [Store] ([mvcc/store.go]) that commits read and write, the operations of
    [mvcc/store.go] and [mvcc/local_commit.go] every commit path shares, and the environment: what
    contexts answer and which writes fail.

    A database transaction ([db.Update]) is atomic: its closure works on the database of the last
    one, and either all it wrote reaches the disk or nothing does.  Go variables that a closure
    assigns keep their values when the transaction is rolled back, so a closure is a function of the
    whole store.  Reading ([db.View]) does not fail. *)

From stdpp Require Import gmap list sorting strings fin_maps.
From Stdlib Require Import Strings.Byte.
From S2P Require Import Prelude TxnState Bolt Keys Versions Conflict.

(** ** The environment *)

(** The answer to the n-th question whether a context has ended, and the failure of the n-th write;
    both count the same clock. *)
Class Env : Type := {
  ctx_err : nat -> option mvcc_error;
  io_err : nat -> option mvcc_error
}.

(** ** The store *)

(** What a crash leaves: the database file and the commit log beside it. *)
Definition disk `{Bolt} : Type := db * option bytes.

Record Store `{Bolt} : Type := mkStore {
  s_db : db;
  s_wal : option bytes;
  s_trace : list disk;  (** every state the disk has had, the latest first *)
  s_localSeq : Z;
  s_fatal : option mvcc_error;
  s_generation : Z;
  s_localWAL : bool;
  s_clock : nat
}.

#[export] Instance Store_rebuild `{Bolt} : Rebuild Store := fun s =>
  mkStore _ (s_db s) (s_wal s) (s_trace s) (s_localSeq s) (s_fatal s) (s_generation s) (s_localWAL s) (s_clock s).

(** ** Actions: functions that use the store and may return an error *)

Definition action `{Bolt} (A : Type) : Type := Store -> Store * result mvcc_error A.

Definition done `{Bolt} {A} (a : A) : action A := fun s => (s, Ok a).
Definition refused `{Bolt} {A} (e : mvcc_error) : action A := fun s => (s, Err e).
Definition returns `{Bolt} {A} (r : result mvcc_error A) : action A := fun s => (s, r).

Definition then_do `{Bolt} {A B} (m : action A) (k : A -> action B) : action B := fun s =>
  let '(s, r) := m s in
  match r with
  | Ok a => k a s
  | Err e => (s, Err e)
  end.

Declare Scope store_scope.
Delimit Scope store_scope with store.
Notation "'let!' x ':=' m 'in' k" := (then_do m (fun x => k))
  (at level 10, x pattern, m at level 100, k at level 200) : store_scope.
Open Scope store_scope.

Section Operations.
Context `{Bolt} `{Env}.

(** [ctx.Err()]. *)
Definition check_ctx : action unit := fun s =>
  (s <| s_clock ::= S |>, match ctx_err (s_clock s) with Some e => Err e | None => Ok tt end).

(** A write that can fail. *)
Definition check_io : action unit := fun s =>
  (s <| s_clock ::= S |>, match io_err (s_clock s) with Some e => Err e | None => Ok tt end).

Definition on_disk (s : Store) : Store := s <| s_trace ::= cons (s_db s, s_wal s) |>.

Definition set_db (d : db) : action unit := fun s => (on_disk (s <| s_db := d |>), Ok tt).
Definition set_wal (w : option bytes) : action unit := fun s => (on_disk (s <| s_wal := w |>), Ok tt).

(** [s.db.Update]. *)
Definition update {A} (f : db -> action (db * A)) : action A := fun s =>
  (let! da := f (s_db s) in
   let! _ := check_io in
   let! _ := set_db da.1 in
   done da.2) s.

Definition fail_store (e : mvcc_error) (s : Store) : Store := s <| s_fatal := Some e |>.

(** [AvailabilityError] *)
Definition AvailabilityError (s : Store) : option mvcc_error := s_fatal s.

Definition check_available : action unit := fun s =>
  (s, match AvailabilityError s with Some e => Err e | None => Ok tt end).

(** ** Sequences *)

Definition nextSequence : action Z := fun s =>
  if s_localSeq s =? u64_max then (s, Err ErrSequenceExhausted)
  else (s <| s_localSeq ::= Z.succ |>, Ok (s_localSeq s + 1)).

(** ** The meta bucket *)

Definition meta_head : bytes := str "head".
Definition meta_applied : bytes := str "applied".
Definition meta_allocated : bytes := str "allocated".
Definition meta_catalog_head : bytes := str "catalog_head".
Definition meta_identity : bytes := str "wal_identity".
Definition meta_horizon : bytes := str "compacted_horizon".

(** [number(b.Get(k))]: a missing value is 0. *)
Definition meta_number (k : bytes) (d : db) : Z := number (raw (b_get (d_meta d) k)).

Definition put_meta (k : bytes) (n : Z) (d : db) : db := d <| d_meta ::= b_put k (sequence n) |>.

Definition Head (d : db) : Z := meta_number meta_head d.
Definition Applied (d : db) : Z := meta_number meta_applied d.
Definition CatalogHead (d : db) : Z := meta_number meta_catalog_head d.

(** The sequence a store opens with. *)
Definition opening_sequence (d : db) : Z := Z.max (meta_number meta_applied d) (meta_number meta_allocated d).

(** ** Installing and publishing *)

(** The record of a version: a flag byte, then the value. *)
Definition version_value (op : Op) : bytes :=
  if op_Delete op then [x00] else byte_of_Z 1 :: op_Value op.

Definition catalog_space : bytes := str "catalog".

(** The loop that installs the writes of a transaction; [true] when one is in the catalog. *)
Fixpoint install_ops (index : Z) (ops : list Op) (d : db) (catalogChanged : bool) : result mvcc_error (db * bool) :=
  match ops with
  | [] => Ok (d, catalogChanged)
  | op :: ops =>
      if op_Check op then install_ops index ops d catalogChanged
      else
        let* k := key (op_Space op) (op_Key op) in
        let* d := putVersion d k (sequence index) (version_value op) in
        install_ops index ops d (catalogChanged || bool_decide (op_Space op = catalog_space))
  end.

(** The library refuses an empty key. *)
Definition put_commit (k v : bytes) (d : db) : result mvcc_error db :=
  if bool_decide (k = []) then Err (ErrOther "key required") else Ok (d <| d_commits ::= b_put k v |>).

Definition publishCommit (d : db) (id : bytes) (index : Z) (catalogChanged : bool) : result mvcc_error db :=
  let* d := put_commit (sequence index) (one_byte 1) d in
  let* d := put_commit id (sequence index) d in
  let d := if catalogChanged then put_meta meta_catalog_head index d else d in
  Ok (put_meta meta_applied index (put_meta meta_head index d)).

(** [committedLocked]: the sequence a transaction was published at. *)
Definition committedLocked (d : db) (id : bytes) : option Z := number <$> b_get (d_commits d) id.

Definition Committed (d : db) (id : bytes) : option Z :=
  if bool_decide (id = []) then None else committedLocked d id.

(** ** Commands *)

Record Command : Type := mkCommand {
  cmd_Kind : string;
  cmd_ID : bytes;
  cmd_Snapshot : Z;
  cmd_Ops : list Op;
  cmd_Counter : bytes;
  cmd_Floor : Z;
  cmd_Count : Z
}.

Record Result : Type := mkResult {
  res_Sequence : Z;
  res_Number : Z;
  res_Error : option mvcc_error
}.

Definition op_bytes (op : Op) : Z := blen (op_Space op) + blen (op_Key op) + blen (op_Value op) + 64.

Fixpoint validate_ops_size (ops : list Op) (size : Z) : result mvcc_error Z :=
  match ops with
  | [] => Ok size
  | op :: ops =>
      let* _ := validateKey (op_Space op) (op_Key op) in
      if MaxValueBytes <? blen (op_Value op) then Err (ErrOther "MVCC value exceeds its limit")
      else validate_ops_size ops (size + op_bytes op)
  end.

Definition validateCommand (c : Command) : result mvcc_error unit :=
  if 128 <? blen (cmd_ID c) then Err (ErrOther "transaction ID too long")
  else
    let* size := validate_ops_size (cmd_Ops c) 0 in
    if MaxChunkBytes <? size then Err (ErrOther "MVCC write chunk exceeds memory budget") else Ok tt.
End Operations.

(** ** Requests of the bounded local commit path ([mvcc/group_commit.go]) *)

Record localCommitRequest : Type := mkRequest {
  q_generation : Z;
  q_snapshot : Z;
  q_id : bytes;
  q_ops : list Op;
  q_bytes : Z;
  q_index : Z;
  q_err : option mvcc_error;
  q_baseline : option (bytes -> option Z)
}.

#[export] Instance localCommitRequest_rebuild : Rebuild localCommitRequest := fun r =>
  mkRequest (q_generation r) (q_snapshot r) (q_id r) (q_ops r) (q_bytes r) (q_index r) (q_err r) (q_baseline r).

(** A failed write ends every request that has no outcome yet. *)
Definition fail_rest (e : mvcc_error) (group : list localCommitRequest) : list localCommitRequest :=
  (fun r => if q_err r then r else r <| q_err := Some e |> <| q_index := 0 |>) <$> group.
