(* ===== verification/CommitLog.v ===== *)
(** * The log of commits a database stands for

    The abstract store is the list of its commits, oldest first: what a key reads as, and which
    changes a transaction may not overlook, are functions of that list.  [represents] says that a
    database holds exactly the commits of a log, as far as a read at or after the horizon can tell. *)

From stdpp Require Import gmap list sorting strings fin_maps.
From Stdlib Require Import Strings.Byte.
From S2P Require Import Prelude TxnState Bolt Keys Versions Visibility Layouts Conflict Store.

(** ** The abstract store *)

Record commit : Type := mkCommit {
  c_index : Z;
  c_id : bytes;
  c_ops : list Op
}.

Definition writes_key (k : bytes) (op : Op) : bool :=
  negb (op_Check op) && match key (op_Space op) (op_Key op) with Ok k' => bool_decide (k' = k) | Err _ => false end.

(** The record the last write of a key installs. *)
Definition written (k : bytes) (ops : list Op) : option bytes := version_value <$> last (filter (writes_key k) ops).

Definition abs_history (log : list commit) (k : bytes) : list (Z * bytes) :=
  omap (fun c => pair (c_index c) <$> written k (c_ops c)) log.

Definition abs_newest (log : list commit) (k : bytes) (snapshot : Z) : option (Z * bytes) :=
  newest_at (abs_history log k) (fun _ => true) snapshot.

Definition abs_read (log : list commit) (k : bytes) (snapshot : Z) : reading :=
  read_at (abs_history log k) (fun _ => true) snapshot.

(** The commit changes a key, or a key under a guard; a malformed guard is changed by anything. *)
Definition touches `{GuardCodec} (k : bytes) (c : commit) : Prop :=
  if has_prefix rangeGuardPrefix k then
    match decodeRangeDependency (trim_prefix rangeGuardPrefix k) with
    | None => True
    | Some dep => exists k', covers dep k' = true /\ is_Some (written k' (c_ops c))
    end
  else is_Some (written k (c_ops c)).

(** Whether a transaction that read at [ts] may depend on a key: nothing after [ts] touches it. *)
Definition admissible `{GuardCodec} (log : list commit) (ts : Z) (k : bytes) : Prop :=
  (has_prefix rangeGuardPrefix k = true ->
   decodeRangeDependency (trim_prefix rangeGuardPrefix k) = None -> u64_max <= ts) /\
  forall c, c ∈ log -> touches k c -> c_index c <= ts.

(** ** Facts about the abstract store *)

Lemma written_app k a b : written k (a ++ b) = match written k b with Some v => Some v | None => written k a end.
Proof. unfold written. rewrite filter_app, last_app. by destruct (last (filter (writes_key k) b)). Qed.

Lemma written_nil k : written k [] = None.
Proof. done. Qed.

Lemma abs_history_app l1 l2 k : abs_history (l1 ++ l2) k = abs_history l1 k ++ abs_history l2 k.
Proof. apply omap_app. Qed.

Lemma abs_history_elem log k n p :
  (n, p) ∈ abs_history log k <-> exists c, c ∈ log /\ c_index c = n /\ written k (c_ops c) = Some p.
Proof.
  unfold abs_history. rewrite list_elem_of_omap. split.
  - intros (c & Hc & E). exists c. destruct (written k (c_ops c)); cbn in E; [|done]. by simplify_eq.
  - intros (c & Hc & <- & E). exists c. by rewrite E.
Qed.

Lemma newest_elem h c s n p : newest_at h c s = Some (n, p) -> (n, p) ∈ h /\ n <= s /\ c n = true.
Proof.
  unfold newest_at. intros Hl.
  apply last_Some in Hl as [l Hl]. assert ((n, p) ∈ filter (fun np : Z * bytes => (np.1 <=? s) && c np.1) h) as Hin
    by (rewrite Hl; apply elem_of_app; right; by left).
  apply list_elem_of_filter in Hin as [Hc Hin]. split; [done|]. cbn in Hc. apply Is_true_true in Hc. by bool_prop.
Qed.

(** ** Installing the writes of a transaction *)

Section Refinement.
Context `{BoltLaws} `{GuardCodec}.

(** A database whose buckets hold what the layout says. *)
Record sound_db (d : db) : Prop := {
  sd_wf : db_wf d;
  sd_dir : directory_ok d;
  sd_plain : data_plain d
}.

(** What installing keeps: everything but the versions and the mark of allocated sequences. *)
Record rest_kept (d d' : db) : Prop := {
  rk_meta : forall k, k <> meta_allocated -> b_get (d_meta d') k = b_get (d_meta d) k;
  rk_commits : d_commits d' = d_commits d;
  rk_pending : d_pending d' = d_pending d;
  rk_counters : d_counters d' = d_counters d;
  rk_allocated : meta_number meta_allocated d <= meta_number meta_allocated d'
}.

#[export] Instance rest_kept_preorder : PreOrder rest_kept.
Proof.
  split; [by intros d|]. intros d1 d2 d3 [M1 ? ? ? ?] [M2 ? ? ? ?]. constructor; [|congruence..|lia].
  intros k Hk. by rewrite M2, M1.
Qed.

Lemma rest_kept_layout d d' : rest_kept d d' -> flatLayout d' = flatLayout d.
Proof. intros [Hm _ _ _ _]. unfold flatLayout. by rewrite Hm by done. Qed.

Lemma rest_kept_committed d d' n : rest_kept d d' -> committed_at d' n = committed_at d n.
Proof. intros [_ Hc _ _ _]. unfold committed_at, committed_key. by rewrite Hc. Qed.

Lemma rest_kept_opening d d' : rest_kept d d' -> opening_sequence d <= opening_sequence d'.
Proof.
  intros Hr. pose proof (rk_allocated _ _ Hr). unfold opening_sequence.
  assert (meta_number meta_applied d' = meta_number meta_applied d) as -> by
    (unfold meta_number; by rewrite (rk_meta _ _ Hr)). lia.
Qed.

Lemma rest_kept_head d d' : rest_kept d d' -> Head d' = Head d.
Proof. intros [Hm _ _ _ _]. unfold Head, meta_number. by rewrite Hm by done. Qed.

Lemma versions_only_rest d d' : versions_only d d' -> rest_kept d d'.
Proof. intros [Hm Hp Hc Hk]. constructor; try done; [intros; by rewrite Hm|unfold meta_number; rewrite Hm; lia]. Qed.

(** [d'] is [d] with the writes of [ops] installed at version [n]. *)
Record installed (n : Z) (ops : list Op) (d d' : db) : Prop := {
  in_sound : sound_db d';
  in_rest : rest_kept d d';
  in_listed : forall k, is_Some (b_get (d_data d') k) <-> is_Some (written k ops) \/ is_Some (b_get (d_data d) k);
  in_history : forall k, history d' k = match written k ops with Some v => hist_put n v (history d k) | None => history d k end
}.

Lemma installed_nil n d : sound_db d -> installed n [] d d.
Proof. intros Hd. constructor; [done|done| |done]. intros k. rewrite written_nil. split; [by right|by intros [[? ?]|?]]. Qed.

Lemma installed_app n a b d d1 d2 : installed n a d d1 -> installed n b d1 d2 -> installed n (a ++ b) d d2.
Proof.
  intros [_ R1 L1 E1] [S2 R2 L2 E2]. constructor; [done|by etransitivity| |].
  - intros k. rewrite L2, L1, written_app. destruct (written k b); [split; intros _; left; eauto|].
    split; [by intros [[? ?]|?]|by right].
  - intros k. rewrite E2, E1, written_app. destruct (written k b), (written k a); by rewrite ?hist_put_put.
Qed.

Lemma meta_number_put k k' m d :
  is_u64 m -> meta_number k (put_meta k' m d) = if decide (k = k') then m else meta_number k d.
Proof.
  intros Hm. unfold meta_number. change (d_meta (put_meta k' m d)) with (b_put k' (sequence m) (d_meta d)).
  rewrite get_put. case_decide; [|done].
  unfold raw. cbn [default from_option]. by apply number_sequence.
Qed.

Lemma put_meta_allocated n m d :
  is_u64 m -> meta_number meta_allocated d <= m -> sound_db d -> installed n [] d (put_meta meta_allocated m d).
Proof.
  intros Hm Hle [Hw Hd Hp]. assert (rest_kept d (put_meta meta_allocated m d)) as Hr.
  { constructor; try done; [|by rewrite meta_number_put, decide_True by done].
    intros k Hk. cbn. rewrite get_put. by rewrite decide_False. }
  pose proof (rest_kept_layout _ _ Hr) as Hl. constructor; [|done| |].
  - constructor; [| |done]; [unfold db_wf in *|unfold directory_ok in *]; by rewrite Hl.
  - intros k. rewrite written_nil. split; [by right|by intros [[? ?]|?]].
  - intros k. unfold history. by rewrite Hl.
Qed.

(** No data key lies in the reserved namespace. *)
Definition plain_op (op : Op) : Prop := op_Check op = false -> op_Space op <> rangeGuardSpace.

Lemma key_plain op k :
  op_Space op <> rangeGuardSpace -> key (op_Space op) (op_Key op) = Ok k -> has_prefix rangeGuardPrefix k = false.
Proof.
  intros Hs (-> & _ & Hz & _)%key_ok. cbn [app]. rewrite guard_prefix_space by done. by rewrite bool_decide_eq_false_2.
Qed.

Lemma written_one k op :
  written k [op] = if writes_key k op then Some (version_value op) else None.
Proof. unfold written. rewrite filter_cons. destruct (writes_key k op); done. Qed.

Lemma install_one n op k d :
  is_u64 n -> sound_db d -> op_Check op = false -> plain_op op -> key (op_Space op) (op_Key op) = Ok k ->
  exists d', putVersion d k (sequence n) (version_value op) = Ok d' /\ installed n [op] d d'.
Proof.
  intros Hn [Hw Hd Hp] Hc Hpl Hk.
  destruct (putVersion_spec d k n (version_value op)) as (d' & Hput & Hw' & Hd' & Hv & Hh); [done..|].
  assert (forall k', written k' [op] = if decide (k' = k) then Some (version_value op) else None) as Hwr.
  { intros k'. rewrite written_one. unfold writes_key. rewrite Hc, Hk. cbn.
    case_bool_decide; case_decide; congruence. }
  exists d'. split; [done|]. constructor.
  - constructor; [done..|]. apply (putVersion_plain d k n _ d' Hput Hp). by apply (key_plain op); [apply Hpl|].
  - by apply versions_only_rest.
  - intros k'. rewrite (putVersion_lists _ _ _ _ _ k' Hput), Hwr. case_decide; [|naive_solver].
    split; intros _; [left; eauto|by left].
  - intros k'. rewrite Hh, Hwr. case_decide; [by subst|done].
Qed.

Lemma installed_check n op d : op_Check op = true -> sound_db d -> installed n [op] d d.
Proof.
  intros Hc Hd. assert (forall k, written k [op] = None) as Hw.
  { intros k. rewrite written_one. unfold writes_key. by rewrite Hc. }
  constructor; [done|done|..]; intros k; rewrite Hw; [|done]. split; [by right|by intros [[? ?]|?]].
Qed.

Definition key_valid (op : Op) : Prop := is_ok (key (op_Space op) (op_Key op)) = true.

Lemma install_ops_spec n ops d c :
  is_u64 n -> sound_db d -> Forall plain_op ops -> Forall key_valid ops ->
  exists d' c', install_ops n ops d c = Ok (d', c') /\ installed n ops d d'.
Proof.
  intros Hn. revert d c. induction ops as [|op ops IH]; intros d c Hd Hp Hk; cbn [install_ops].
  { exists d, c. split; [done|]. by apply installed_nil. }
  apply Forall_cons in Hp as [Hp1 Hp], Hk as [Hk1 Hk]. destruct (op_Check op) eqn:Hc.
  - destruct (IH d c Hd Hp Hk) as (d' & c' & -> & Hi). exists d', c'. split; [done|].
    apply (installed_app n [op] ops d d); [by apply installed_check|done].
  - unfold key_valid in Hk1. destruct (key (op_Space op) (op_Key op)) as [k|] eqn:Ek; [|done]. cbn [rbind].
    destruct (install_one n op k d) as (d1 & -> & I1); [done..|]. cbn [rbind].
    destruct (IH d1 (c || bool_decide (op_Space op = catalog_space)) (in_sound _ _ _ _ I1) Hp Hk) as (d' & c' & -> & Hi).
    exists d', c'. split; [done|]. by apply (installed_app n [op] ops d d1).
Qed.

Definition plain_commit (c : commit) : Prop := Forall plain_op (c_ops c).

Lemma written_plain k c v : plain_commit c -> written k (c_ops c) = Some v -> has_prefix rangeGuardPrefix k = false.
Proof.
  unfold plain_commit, written. intros Hp Hw. destruct (last _) as [op|] eqn:E; [|done].
  apply last_Some in E as [l E]. assert (op ∈ filter (writes_key k) (c_ops c)) as Hin
    by (rewrite E; apply elem_of_app; right; by left).
  apply list_elem_of_filter in Hin as [Hk Hin]. rewrite Forall_forall in Hp. specialize (Hp op Hin).
  apply Is_true_true in Hk. unfold writes_key in Hk. destruct (op_Check op) eqn:Hc; [done|].
  destruct (key (op_Space op) (op_Key op)) as [k'|] eqn:Ek; [|done]. bool_prop. subst k'.
  by apply (key_plain op k); [apply Hp|].
Qed.

(** ** What a database stands for *)

(** [d] holds the commits of [log] and possibly versions no commit publishes; reads before the
    horizon [h] may have been compacted away; no sequence above [seq] was ever used. *)
Record represents (h : Z) (d : db) (log : list commit) (seq : Z) : Prop := {
  rp_sound : sound_db d;
  rp_seq : is_u64 seq;
  rp_listed : forall k, history d k <> [] -> is_Some (b_get (d_data d) k);
  rp_versions : forall k n p, (n, p) ∈ history d k -> n <= seq;
  rp_committed : forall n, is_u64 n -> committed_at d n = true <-> n ∈ c_index <$> log;
  rp_ids : forall id, length id <> 8%nat ->
    b_get (d_commits d) id = sequence <$> (c_index <$> last (filter (fun c => c_id c = id) log));
  rp_order : StronglySorted Z.lt (c_index <$> log);
  rp_indexes : Forall (fun c => 0 < c_index c <= seq) log;
  rp_reads : forall k s, h <= s -> is_u64 s -> newest_at (history d k) (committed_at d) s = abs_newest log k s;
  rp_head : Head d = default 0 (last (c_index <$> log))
}.

Lemma represents_seq h d log seq seq' : represents h d log seq -> seq <= seq' -> is_u64 seq' -> represents h d log seq'.
Proof.
  intros Hr Hs Hu. destruct Hr as [? ? ? Hv ? ? ? ? ? ?]. constructor; try done.
  - intros k n p Hin. specialize (Hv k n p Hin). lia.
  - eapply Forall_impl; [done|]. cbn. lia.
Qed.

Lemma newest_same (l : list (Z * bytes)) (c c' : Z -> bool) s :
  (forall n p, (n, p) ∈ l -> c n = c' n) -> newest_at l c s = newest_at l c' s.
Proof.
  intros Hc. unfold newest_at. f_equal. apply filter_same. intros [n p] Hin. cbn. by rewrite (Hc n p).
Qed.

Lemma history_range d k n p : db_wf d -> (n, p) ∈ history d k -> is_u64 n.
Proof.
  unfold db_wf, history. destruct (flatLayout d); intros Hw.
  - by intros [_ ?]%row_entry_elem.
  - destruct (b_get (d_data d) k) as [[v|rows]|]; try by intros ?%not_elem_of_nil.
    intros (e & [= -> ->] & _)%list_elem_of_fmap. apply number_range.
Qed.

Lemma represents_above h d log seq n : represents h d log seq -> seq < n -> is_u64 n -> committed_at d n = false.
Proof.
  intros Hr Hn Hu. apply not_true_iff_false. rewrite (rp_committed _ _ _ _ Hr) by done.
  intros (c & -> & Hc)%list_elem_of_fmap. pose proof (rp_indexes _ _ _ _ Hr) as Hi.
  rewrite Forall_forall in Hi. apply Hi in Hc. lia.
Qed.

(** Versions that are not published change nothing a read can see. *)
Lemma represents_installed h d log seq n ops d' :
  represents h d log seq -> installed n ops d d' -> seq < n -> is_u64 n -> represents h d' log n.
Proof.
  intros Hr [Hs Hk Hl Hh] Hn Hu. pose proof (represents_above _ _ _ _ n Hr Hn Hu) as Hc.
  assert (forall m, committed_at d' m = committed_at d m) as Hcm by (intros; by apply rest_kept_committed).
  constructor; [done|done|..].
  - intros k. rewrite Hh, Hl. destruct (written k ops); [intros _; left; eauto|]. right. by apply (rp_listed _ _ _ _ Hr).
  - intros k m p. rewrite Hh. destruct (written k ops) as [v|].
    + intros [[= -> _]|Hin]%hist_put_elem; [lia|]. apply (rp_versions _ _ _ _ Hr) in Hin. lia.
    + intros Hin%(rp_versions _ _ _ _ Hr). lia.
  - intros m Hm. rewrite Hcm. by apply (rp_committed _ _ _ _ Hr).
  - intros id Hid. rewrite (rk_commits _ _ Hk). by apply (rp_ids _ _ _ _ Hr).
  - apply Hr.
  - eapply Forall_impl; [apply Hr|]. cbn. lia.
  - intros k s Hhs Hsu. rewrite <- (rp_reads _ _ _ _ Hr k s) by done. rewrite Hh.
    rewrite (newest_same _ (committed_at d') (committed_at d)) by (intros; apply Hcm).
    destruct (written k ops) as [v|]; [|done]. unfold newest_at. f_equal. apply filter_hist_put_skip.
    intros w. cbn. rewrite Hc. apply andb_false_r.
  - rewrite (rest_kept_head d d') by done. apply Hr.
Qed.

(** ** Publishing *)

Record published (n : Z) (id : bytes) (d d' : db) : Prop := {
  pb_data : d_data d' = d_data d;
  pb_flat : d_flat d' = d_flat d;
  pb_pending : d_pending d' = d_pending d;
  pb_layout : flatLayout d' = flatLayout d;
  pb_identity : b_get (d_meta d') meta_identity = b_get (d_meta d) meta_identity;
  pb_head : Head d' = n;
  pb_applied : Applied d' = n;
  pb_commits : forall k, b_get (d_commits d') k =
    if decide (k = id) then Some (sequence n) else if decide (k = sequence n) then Some (one_byte 1) else b_get (d_commits d) k
}.

Lemma publishCommit_spec d id n cat :
  is_u64 n -> id <> [] -> exists d', publishCommit d id n cat = Ok d' /\ published n id d d'.
Proof.
  intros Hn Hid. unfold publishCommit, put_commit.
  rewrite bool_decide_eq_false_2 by (intros E; by apply (f_equal length) in E; rewrite length_sequence in E).
  cbn [rbind]. rewrite bool_decide_eq_false_2 by done. cbn [rbind]. eexists. split; [done|].
  assert (forall k (x : db), k <> meta_head -> k <> meta_applied -> k <> meta_catalog_head ->
    b_get (d_meta (put_meta meta_applied n (put_meta meta_head n (if cat then put_meta meta_catalog_head n x else x)))) k
    = b_get (d_meta x) k) as Hm.
  { intros k x ???. destruct cat; cbn; rewrite !get_put, !decide_False; done. }
  constructor; try by destruct cat.
  - unfold flatLayout. by rewrite Hm.
  - by rewrite Hm.
  - unfold Head, meta_number, put_meta. cbn. rewrite !get_put. rewrite decide_False, decide_True by done. cbn.
    by apply number_sequence.
  - unfold Applied, meta_number, put_meta. cbn. rewrite !get_put. rewrite decide_True by done. cbn.
    by apply number_sequence.
  - intros k. destruct cat; cbn; rewrite !get_put; repeat case_decide; done.
Qed.

Lemma published_committed n id d d' m :
  published n id d d' -> length id <> 8%nat -> is_u64 n -> is_u64 m -> committed_at d' m = bool_decide (m = n) || committed_at d m.
Proof.
  intros Hp Hid Hn Hm. unfold committed_at, committed_key. rewrite (pb_commits _ _ _ _ Hp).
  rewrite decide_False by (intros <-; by rewrite length_sequence in Hid).
  case_decide as E; [apply sequence_inj in E as ->; [|done..]; rewrite (bool_decide_eq_true_2 (n = n)) by done; apply bool_decide_eq_true_2; eauto|].
  by rewrite (bool_decide_eq_false_2 (m = n)) by congruence.
Qed.

Lemma published_history n id d d' k : published n id d d' -> history d' k = history d k.
Proof.
  intros Hp. unfold history, flat_versions.
  by rewrite (pb_layout _ _ _ _ Hp), (pb_data _ _ _ _ Hp), (pb_flat _ _ _ _ Hp).
Qed.

Lemma published_sound n id d d' : published n id d d' -> sound_db d -> sound_db d'.
Proof.
  intros [Hda Hfl _ Hl _ _ _ _] [Hw Hd Hp]. constructor.
  - unfold db_wf, flat_versions in *. by rewrite Hl, Hda, Hfl.
  - unfold directory_ok in *. by rewrite Hl, Hda.
  - unfold data_plain in *. by rewrite Hda.
Qed.

Lemma abs_newest_snoc log n id ops k s :
  abs_newest (log ++ [mkCommit n id ops]) k s =
    match written k ops with
    | Some v => if n <=? s then Some (n, v) else abs_newest log k s
    | None => abs_newest log k s
    end.
Proof.
  unfold abs_newest, newest_at. rewrite abs_history_app. unfold abs_history at 2. cbn [omap list_omap c_index c_ops].
  destruct (written k ops) as [v|]; cbn [fmap option_fmap option_map]; [|by rewrite app_nil_r].
  rewrite filter_app, filter_cons, filter_nil. cbn [fst]. rewrite andb_true_r.
  destruct (n <=? s); [by rewrite decide_True, last_snoc|].
  rewrite decide_False by (cbn; tauto). by rewrite app_nil_r.
Qed.

(** A read after the commit sees its write; every other read is as before. *)
Lemma publish_reads h d log seq n ops d1 id d2 k s :
  represents h d log seq -> seq < n -> is_u64 n -> length id <> 8%nat ->
  installed n ops d d1 -> published n id d1 d2 -> h <= s -> is_u64 s ->
  newest_at (history d2 k) (committed_at d2) s = abs_newest (log ++ [mkCommit n id ops]) k s.
Proof.
  intros Hr Hn Hu Hid Hi Hp Hs Hsu. pose proof (rp_sound _ _ _ _ Hr) as Hd. rewrite abs_newest_snoc.
  assert (forall m, is_u64 m -> committed_at d2 m = bool_decide (m = n) || committed_at d m) as Hc.
  { intros m Hm. rewrite (published_committed n id d1 d2) by done.
    by rewrite (rest_kept_committed d d1) by apply Hi. }
  assert (forall m p, (m, p) ∈ history d k -> committed_at d2 m = committed_at d m) as Hold.
  { intros m p Hin. pose proof (rp_versions _ _ _ _ Hr _ _ _ Hin). apply history_range in Hin; [|apply Hd].
    rewrite Hc by done. by rewrite bool_decide_eq_false_2 by lia. }
  rewrite (published_history n id d1 d2), (in_history _ _ _ _ Hi) by done.
  rewrite <- (rp_reads _ _ _ _ Hr) by done. destruct (written k ops) as [v|]; [|by apply newest_same].
  destruct (Z.leb_spec n s) as [Hns|Hns].
  - unfold newest_at. apply last_hist_put; [apply history_ordered, Hd| |].
    + cbn. rewrite Hc by done. rewrite bool_decide_eq_true_2 by done. rewrite andb_true_r. by apply Z.leb_le.
    + intros [m p] Hin _. apply (rp_versions _ _ _ _ Hr) in Hin. cbn. lia.
  - rewrite <- (newest_same (history d k) (committed_at d2)) by done.
    unfold newest_at. f_equal. apply filter_hist_put_skip. intros w. cbn.
    by rewrite (proj2 (Z.leb_gt n s)) by lia.
Qed.

Lemma order_snoc (l : list Z) n : StronglySorted Z.lt l -> Forall (fun m => m < n) l -> StronglySorted Z.lt (l ++ [n]).
Proof.
  induction l as [|m l IH]; intros Hl Hn; cbn; [by repeat constructor|].
  apply StronglySorted_inv in Hl as [Hl Hm]. apply Forall_cons in Hn as [Hn1 Hn]. constructor; [by apply IH|].
  apply Forall_app. split; [done|by repeat constructor].
Qed.

Lemma represents_published h d log seq n ops d1 id d2 :
  represents h d log seq -> seq < n -> is_u64 n -> length id <> 8%nat ->
  installed n ops d d1 -> published n id d1 d2 -> represents h d2 (log ++ [mkCommit n id ops]) n.
Proof.
  intros Hr Hn Hu Hid Hi Hp. pose proof (represents_installed _ _ _ _ _ _ _ Hr Hi Hn Hu) as Hr1.
  constructor.
  - apply (published_sound n id d1); [done|]. apply Hi.
  - done.
  - intros k. rewrite (published_history n id d1 d2), (pb_data _ _ _ _ Hp) by done. apply (rp_listed _ _ _ _ Hr1).
  - intros k m p. rewrite (published_history n id d1 d2) by done. apply (rp_versions _ _ _ _ Hr1).
  - intros m Hm. rewrite (published_committed n id d1 d2) by done. rewrite orb_true_iff, bool_decide_eq_true.
    rewrite (rp_committed _ _ _ _ Hr1) by done. rewrite fmap_app, elem_of_app. cbn.
    rewrite list_elem_of_singleton. tauto.
  - intros i Hi8. rewrite (pb_commits _ _ _ _ Hp). rewrite filter_app, filter_cons, filter_nil. cbn [c_id].
    destruct (decide (i = id)) as [->|Hne]; [rewrite decide_True, last_snoc; done|].
    rewrite (decide_False (P := id = i)) by done. rewrite app_nil_r.
    rewrite decide_False by (intros ->; by rewrite length_sequence in Hi8). by apply (rp_ids _ _ _ _ Hr1).
  - rewrite fmap_app. cbn. apply order_snoc; [apply Hr|]. apply Forall_fmap.
    eapply Forall_impl; [apply (rp_indexes _ _ _ _ Hr)|]. cbn. lia.
  - apply Forall_app. split; [apply Hr1|]. repeat constructor; cbn; [|lia].
    pose proof (rp_seq _ _ _ _ Hr) as [? _]. lia.
  - intros k s Hs Hsu. by apply (publish_reads h d log seq n ops d1 id d2).
  - rewrite (pb_head _ _ _ _ Hp), fmap_app, last_app. done.
Qed.

(** Installing some of the writes first changes nothing. *)
Lemma installed_cover n pre ops d d' :
  (forall k, is_Some (written k pre) -> is_Some (written k ops)) -> installed n (pre ++ ops) d d' -> installed n ops d d'.
Proof.
  intros Hc [Hs Hr Hl Hh].
  assert (forall k, written k (pre ++ ops) = written k ops) as Hw.
  { intros k. rewrite written_app. specialize (Hc k). destruct (written k ops); [done|].
    destruct (written k pre); [|done]. by destruct Hc. }
  constructor; [done|done|..]; intros k; [rewrite Hl|rewrite Hh]; by rewrite Hw.
Qed.

(** The database represents the log, and reopening it does not reuse a sequence it holds. *)
Definition durable (h : Z) (d : db) (log : list commit) : Prop :=
  exists seq, seq <= opening_sequence d /\ represents h d log seq.

(** Publishing marks the sequence as used. *)
Lemma published_durable h d log seq n ops d1 id d2 :
  represents h d log seq -> seq < n -> is_u64 n -> length id <> 8%nat ->
  installed n ops d d1 -> published n id d1 d2 -> durable h d2 (log ++ [mkCommit n id ops]).
Proof.
  intros. exists n. split; [|by eapply represents_published].
  unfold opening_sequence. change (meta_number meta_applied d2) with (Applied d2). erewrite pb_applied by done. lia.
Qed.

(** ** Conflicts *)

Lemma history_newest log k n p c :
  StronglySorted Z.lt (c_index <$> log) -> abs_newest log k u64_max = Some (n, p) ->
  c ∈ log -> is_Some (written k (c_ops c)) -> c_index c <= u64_max -> c_index c <= n.
Proof.
  induction log as [|c' log IH] using rev_ind; [by intros _ _ ?%not_elem_of_nil|].
  intros Ho. destruct c' as [m id ops]. rewrite abs_newest_snoc. rewrite fmap_app in Ho.
  apply StronglySorted_app in Ho as (Hlt & Ho & _).
  intros Hn [Hc| ->%list_elem_of_singleton]%elem_of_app Hw Hmax.
  - assert (c_index c < m) as Hcm by (apply Hlt; [by apply list_elem_of_fmap_2|by left]).
    destruct (written k ops) as [v|]; [|by apply IH].
    destruct (Z.leb_spec m u64_max); [injection Hn as -> ->; lia|by apply IH].
  - cbn [c_ops c_index] in *. destruct Hw as [v Hw]. rewrite Hw in Hn. rewrite (proj2 (Z.leb_le m u64_max)) in Hn by done.
    injection Hn as -> _. done.
Qed.

(** The last change of a data key is the newest commit that writes it. *)
Lemma point_change h d log seq k :
  represents h d log seq -> h <= u64_max -> has_prefix rangeGuardPrefix k = false ->
  reading_version (point_visible d k u64_max) = from_option fst 0 (abs_newest log k u64_max).
Proof.
  intros Hr Hh Hk. assert (is_u64 u64_max) as Hu by (unfold is_u64, u64_max; lia).
  rewrite point_visible_spec by (done || apply Hr). unfold read_at. rewrite (rp_reads _ _ _ _ Hr) by done.
  destruct (abs_newest log k u64_max) as [[n p]|]; [|done]. cbn. unfold payload_read.
  destruct p; [done|]. by case_bool_decide.
Qed.

Definition log_ordered (log : list commit) : Prop :=
  StronglySorted Z.lt (c_index <$> log) /\ Forall (fun c => 0 < c_index c <= u64_max) log.

Lemma log_newest_bound log k ts :
  log_ordered log -> 0 <= ts ->
  from_option fst 0 (abs_newest log k u64_max) <= ts <->
  forall c, c ∈ log -> is_Some (written k (c_ops c)) -> c_index c <= ts.
Proof.
  intros [Ho Hi] Hts. rewrite Forall_forall in Hi. split.
  - intros Hn c Hc Hw. pose proof (Hi c Hc) as [_ Hmax].
    destruct (abs_newest log k u64_max) as [[n p]|] eqn:E.
    + cbn in Hn. pose proof (history_newest log k n p c Ho E Hc Hw Hmax). lia.
    + destruct Hw as [v Hw]. assert ((c_index c, v) ∈ abs_history log k) as Hin by (apply abs_history_elem; eauto).
      unfold abs_newest, newest_at in E. apply last_None in E. exfalso. apply (not_elem_of_nil (c_index c, v)).
      rewrite <- E. apply list_elem_of_filter. split; [|done]. cbn. by rewrite (proj2 (Z.leb_le _ _) Hmax).
  - intros Hc. destruct (abs_newest log k u64_max) as [[n p]|] eqn:E; [|done]. cbn.
    apply newest_elem in E as (Hin & _). apply abs_history_elem in Hin as (c & Hc' & <- & Hw). apply Hc; eauto.
Qed.

Lemma represents_ordered h d log seq : represents h d log seq -> log_ordered log.
Proof.
  intros Hr. split; [apply Hr|]. pose proof (rp_seq _ _ _ _ Hr) as [_ Hs].
  eapply Forall_impl; [apply (rp_indexes _ _ _ _ Hr)|]. unfold u64_max. cbn. lia.
Qed.

Lemma newest_bound h d log seq k ts :
  represents h d log seq -> h <= u64_max -> 0 <= ts ->
  from_option fst 0 (abs_newest log k u64_max) <= ts <->
  forall c, c ∈ log -> is_Some (written k (c_ops c)) -> c_index c <= ts.
Proof. intros Hr _. by apply log_newest_bound, (represents_ordered h d log seq). Qed.

(** A key that was ever written is in the row directory. *)
Lemma written_listed h d log seq k c :
  represents h d log seq -> h <= u64_max -> c ∈ log -> is_Some (written k (c_ops c)) -> is_Some (b_get (d_data d) k).
Proof.
  intros Hr Hh Hc Hw. apply (rp_listed _ _ _ _ Hr). intros E.
  assert (is_u64 u64_max) as Hu by (unfold is_u64, u64_max; lia).
  pose proof (rp_reads _ _ _ _ Hr k u64_max Hh Hu) as Hn. rewrite E in Hn.
  pose proof (rp_indexes _ _ _ _ Hr) as Hi. rewrite Forall_forall in Hi. specialize (Hi c Hc).
  destruct (newest_bound h d log seq k 0 Hr Hh ltac:(lia)) as [Hb _]. rewrite <- Hn in Hb.
  specialize (Hb ltac:(done) c Hc Hw). lia.
Qed.

(** The commit rule decides what the log says: nothing newer touches the dependency. *)
Lemma latest_change_admissible h d log seq ts k :
  represents h d log seq -> h <= u64_max -> 0 <= ts -> latest_change d k <= ts <-> admissible log ts k.
Proof.
  intros Hr Hh Hts. pose proof (rp_sound _ _ _ _ Hr) as [Hw Hd Hp]. unfold latest_change, admissible, touches.
  destruct (has_prefix rangeGuardPrefix k) eqn:Hk.
  - rewrite visible_guard by done. destruct (decodeRangeDependency _) as [dep|]; cbn.
    + pose proof (max_covered_bound d u64_max dep 0 (b_entries (d_data d))) as (_ & Hb & Hm).
      split.
      * intros Hle. split; [done|]. intros c Hc (k' & Hcov & Hwr).
        destruct (written_listed _ _ _ _ k' c Hr Hh Hc Hwr) as [i Hi].
        rewrite get_entries, kv_get_elem in Hi by apply entries_ordered.
        specialize (Hb _ Hi Hcov). unfold version_read in Hb. cbn [fst] in Hb.
        rewrite (point_change h d log seq k') in Hb by (done || apply (Hp _ Hi)).
        apply (newest_bound h d log seq k' ts Hr Hh Hts); [cbn in *; lia|done..].
      * intros [_ Ht]. destruct Hm as [Hm|([k' i] & He & Hcov & Hm)]; rewrite Hm; [done|].
        unfold version_read. cbn [fst]. rewrite (point_change h d log seq k') by (done || apply (Hp _ He)).
        apply (newest_bound h d log seq k' ts Hr Hh Hts). intros c Hc Hwr. apply Ht; [done|]. by exists k'.
    + split; [|by intros [Hx _]; apply Hx]. intros Hle. split; [done|]. intros c Hc _.
      pose proof (rp_indexes _ _ _ _ Hr) as Hi. rewrite Forall_forall in Hi. apply Hi in Hc.
      pose proof (rp_seq _ _ _ _ Hr) as [_ Hseq]. unfold u64_max in *. lia.
  - unfold visible. rewrite Hk, (point_change h d log seq k) by done. rewrite (newest_bound h d log seq k ts) by done.
    split; [by intros; split|by intros [_ ?]].
Qed.

(** A data key reads as the log says. *)
Lemma visible_abs h d log seq k s :
  represents h d log seq -> h <= s -> is_u64 s -> has_prefix rangeGuardPrefix k = false ->
  visible d k s = abs_read log k s.
Proof.
  intros Hr Hs Hu Hk. unfold visible. rewrite Hk, point_visible_spec by (done || apply Hr).
  unfold read_at, abs_read. by rewrite (rp_reads _ _ _ _ Hr).
Qed.
End Refinement.

(** Later commits do not change what an older snapshot reads. *)
Lemma abs_read_stable log more k s :
  Forall (fun c => s < c_index c) more -> abs_read (log ++ more) k s = abs_read log k s.
Proof.
  intros Hm. unfold abs_read, read_at. enough (newest_at (abs_history (log ++ more) k) (fun _ => true) s
    = newest_at (abs_history log k) (fun _ => true) s) as -> by done.
  unfold newest_at. rewrite abs_history_app, filter_app, (filter_none _ (abs_history more k)), app_nil_r; [done|].
  intros [n p] (c & Hc & <- & _)%abs_history_elem. rewrite Forall_forall in Hm. specialize (Hm c Hc). cbn.
  by rewrite (proj2 (Z.leb_gt _ _) Hm).
Qed.

(** ** Requests *)

(** The commits a group made. *)
Definition request_commit (r : localCommitRequest) : commit := mkCommit (q_index r) (q_id r) (q_ops r).

Definition commits_of (group : list localCommitRequest) : list commit :=
  omap (fun r => if q_err r then None else Some (request_commit r)) group.

(** A request as the callers build it: a non-empty identifier that is no sequence, writes outside the
    reserved namespace, and observations that are sequences. *)
Record request_ok (r : localCommitRequest) : Prop := {
  ro_id : q_id r <> [];
  ro_id8 : length (q_id r) <> 8%nat;
  ro_plain : Forall plain_op (q_ops r);
  ro_snapshot : 0 <= q_snapshot r;
  ro_baseline : forall observed k n, q_baseline r = Some observed -> observed k = Some n -> 0 <= n
}.

(** First committer wins: the request depends on nothing that changed after it read it. *)
Definition may_commit `{GuardCodec} (log : list commit) (r : localCommitRequest) : Prop :=
  Forall (fun op => exists k, key (op_Space op) (op_Key op) = Ok k /\
    admissible log (if op_Check op then q_snapshot r else entitled (q_baseline r) (q_snapshot r) k) k) (q_ops r).

Lemma entitled_nonneg r k : request_ok r -> 0 <= entitled (q_baseline r) (q_snapshot r) k.
Proof.
  intros Hr. unfold entitled. destruct (q_baseline r) as [b|] eqn:Hb; [|apply Hr].
  destruct (b k) eqn:Hk; [|apply Hr]. by apply (ro_baseline _ Hr b k).
Qed.

Lemma may_commit_valid `{GuardCodec} log r : may_commit log r -> Forall key_valid (q_ops r).
Proof. intros Hm. eapply Forall_impl; [exact Hm|]. intros op (k & Hk & _). unfold key_valid. by rewrite Hk. Qed.

(** What validation over one view decides. *)
Lemma view_verdict `{BoltLaws} `{GuardCodec} h d log seq r :
  represents h d log seq -> h <= u64_max -> request_ok r ->
  (validateOps (withBaseline (newConflictValidator (q_snapshot r) (newViewChangeLookup d)) (q_baseline r))
     empty_cache (q_ops r)).2 = Ok tt <-> may_commit log r.
Proof.
  intros Hr Hh Hq. pose proof (rp_sound _ _ _ _ Hr) as [Hw _ Hp].
  destruct (validateOps_ok (cache_ok d) (newViewChangeLookup d) (latest_change d)
    ltac:(intros; by apply view_lookup_ok) (q_snapshot r) (q_baseline r) (q_ops r) empty_cache (empty_cache_ok d)) as [_ ->].
  unfold may_commit. apply Forall_iff. intros op. unfold unchanged. f_equiv. intros k. apply and_iff_compat_l.
  apply (latest_change_admissible h d log seq); [done..|]. destruct (op_Check op); [apply Hq|by apply entitled_nonneg].
Qed.

(** ** Actions that may fail at any write

    [safe D m s Q]: whatever write fails, every state the disk goes through while [m] runs satisfies
    [D], so does the one a failure leaves, and a success establishes [Q].  An error is always the
    failure of a write. *)

Definition disk_of `{Bolt} (s : Store) : disk := (s_db s, s_wal s).

(** What commits and recovery leave alone, and that sequences only grow. *)
Record advances `{Bolt} (s s' : Store) : Prop := {
  av_generation : s_generation s' = s_generation s;
  av_localWAL : s_localWAL s' = s_localWAL s;
  av_sequence : s_localSeq s <= s_localSeq s'
}.

#[export] Instance advances_preorder `{Bolt} : PreOrder advances.
Proof. split; [intros s; by constructor|]. intros s1 s2 s3 [] []. constructor; [congruence..|lia]. Qed.

(** Everything but the clock. *)
Definition only_clock `{Bolt} (s s' : Store) : Prop := exists n, s' = s <| s_clock := n |>.

Lemma only_clock_refl `{Bolt} s : only_clock s s.
Proof. exists (s_clock s). by destruct s. Qed.

Lemma only_clock_trans `{Bolt} s1 s2 s3 : only_clock s1 s2 -> only_clock s2 s3 -> only_clock s1 s3.
Proof. intros [n ->] [m ->]. by exists m. Qed.

Lemma check_ctx_clock `{Bolt} `{Env} s : only_clock s (check_ctx s).1.
Proof. by exists (S (s_clock s)). Qed.

Section Safe.
Context `{Bolt} `{Env} (D : disk -> Prop).

Definition safe {A} (m : action A) (s : Store) (Q : Store -> A -> Prop) : Prop :=
  let '(s', r) := m s in
  advances s s' /\ (exists more, s_trace s' = more ++ s_trace s /\ Forall D more) /\
  match r with
  | Ok a => Q s' a
  | Err e => D (disk_of s') /\ exists n, io_err n = Some e
  end.

Lemma safe_done {A} (a : A) s (Q : Store -> A -> Prop) : Q s a -> safe (done a) s Q.
Proof. intros HQ. split; [done|]. split; [by exists []|done]. Qed.

Lemma safe_bind {A B} (m : action A) (k : A -> action B) s (Q1 : Store -> A -> Prop) (Q : Store -> B -> Prop) :
  safe m s Q1 -> (forall s' a, Q1 s' a -> safe (k a) s' Q) -> safe (then_do m k) s Q.
Proof.
  unfold safe, then_do. destruct (m s) as [s1 [a|e]].
  - intros (Hs1 & (m1 & Ht1 & Hm1) & HQ1) Hk. specialize (Hk s1 a HQ1). destruct (k a s1) as [s2 r].
    destruct Hk as (Hs2 & (m2 & Ht2 & Hm2) & HQ). split; [by etransitivity|]. split; [|done].
    exists (m2 ++ m1). rewrite Ht2, Ht1, app_assoc. split; [done|]. by apply Forall_app.
  - intros (Hs1 & Ht & Hd & n & Hn) _. split; [done|]. split; [done|]. split; [done|by exists n].
Qed.

Lemma safe_mono {A} (m : action A) s (Q Q' : Store -> A -> Prop) :
  safe m s Q -> (forall s' a, Q s' a -> Q' s' a) -> safe m s Q'.
Proof. unfold safe. destruct (m s) as [s' [a|e]]; naive_solver. Qed.

Lemma safe_eq {A} (m m' : action A) s (Q : Store -> A -> Prop) : m s = m' s -> safe m' s Q -> safe m s Q.
Proof. unfold safe. by intros ->. Qed.

Lemma safe_check_io s (Q : Store -> unit -> Prop) :
  D (disk_of s) -> (forall s', only_clock s s' -> Q s' tt) -> safe check_io s Q.
Proof.
  intros Hd HQ. unfold safe, check_io. split; [by constructor|]. split; [by exists []|].
  destruct (io_err (s_clock s)) as [e|] eqn:E; [split; [done|by exists (s_clock s)]|]. apply HQ. by exists (S (s_clock s)).
Qed.

Lemma safe_set_db s d (Q : Store -> unit -> Prop) :
  D (d, s_wal s) -> Q (on_disk (s <| s_db := d |>)) tt -> safe (set_db d) s Q.
Proof. intros Hd HQ. split; [by constructor|]. split; [|done]. exists [(d, s_wal s)]. by split; [|constructor]. Qed.

Lemma safe_set_wal s w (Q : Store -> unit -> Prop) :
  D (s_db s, w) -> Q (on_disk (s <| s_wal := w |>)) tt -> safe (set_wal w) s Q.
Proof. intros Hd HQ. split; [by constructor|]. split; [|done]. exists [(s_db s, w)]. by split; [|constructor]. Qed.

(** The store after a database transaction: a new database, the rest as it was. *)
Definition with_db (d : db) (s s' : Store) : Prop := s_db s' = d /\ s_wal s' = s_wal s /\ s_localSeq s' = s_localSeq s.

(** A transaction whose closure succeeds and does not touch the store. *)
Lemma safe_update {A} (f : db -> action (db * A)) s d a (Q : Store -> A -> Prop) :
  f (s_db s) s = (s, Ok (d, a)) -> D (disk_of s) -> D (d, s_wal s) ->
  (forall s', with_db d s s' -> Q s' a) -> safe (update f) s Q.
Proof.
  intros Hf Hd Hd' HQ. unfold update. unfold safe at 1, then_do at 1. rewrite Hf.
  change (safe (then_do check_io (fun _ => then_do (set_db (d, a).1) (fun _ => done (d, a).2))) s Q).
  apply (safe_bind _ _ _ (fun s' _ => only_clock s s')); [by apply safe_check_io|].
  intros s1 _ (n & ->). apply (safe_bind _ _ _ (fun s' _ => with_db d s s')).
  - by apply safe_set_db.
  - intros s2 _ Hs2. apply safe_done. by apply HQ.
Qed.
End Safe.

Arguments safe {_ _} D {A} m s Q.
