(* ===== verification/Wal.v ===== *)
(** * The local commit log: [mvcc/local_wal.go]

    A group of commits is written to one file of checked frames, sealed by a digest and published by
    renaming; installing it afterwards, or at the next opening, puts its versions in the database and
    clears the file.  The checksum and the digest are those of Go's [hash/crc32] and
    [crypto/sha256]; the proofs use only that a checksum has four bytes and a digest 32.

    The file is a byte string; [None] means that it does not exist.  Buffered reading and writing is
    reading and writing of the whole string: a failure before the rename leaves the old file. *)

From stdpp Require Import gmap list sorting strings fin_maps.
From Stdlib Require Import Strings.Byte.
From S2P Require Import Prelude TxnState Bolt Keys Versions Visibility Conflict Store.

Class Digest : Type := {
  crc32 : bytes -> Z;
  sha256 : bytes -> bytes
}.

Class DigestLaws `{Digest} : Prop := {
  crc32_range : forall s, 0 <= crc32 s < 2 ^ 32;
  sha256_length : forall s, length (sha256 s) = 32%nat
}.

Definition localWALMagic : bytes := str "GBLWAL01".
Definition walBegin : byte := x01.
Definition walOp : byte := x02.
Definition walEnd : byte := x03.
Definition walSeal : byte := x04.
Definition maxWALFrame : Z := MaxValueBytes + 10240.
Definition localInstallBytes : Z := 262144.

Definition be32 (n : Z) : bytes := be_bytes 4 n.

(** ** Writing *)

(** What has been written, and the part of it the digest covers. *)
Record localWALWriter : Type := mkWriter {
  ww_out : bytes;
  ww_digest : bytes
}.

Definition frame_header `{Digest} (p : bytes) : bytes := be32 (blen p) ++ be32 (crc32 p).

Definition frame `{Digest} (w : localWALWriter) (p : bytes) : result mvcc_error localWALWriter :=
  let h := frame_header p in
  if maxWALFrame <? blen p then Err (ErrOther "WAL frame exceeds budget")
  else Ok (mkWriter (ww_out w ++ h ++ p)
             (if bool_decide (head p = Some walSeal) then ww_digest w else ww_digest w ++ h ++ p)).

Definition begin_frame (index : Z) (id : bytes) : bytes := walBegin :: sequence index ++ id.
Definition op_frame (k encoded : bytes) : bytes := walOp :: be32 (blen k) ++ k ++ encoded.

Definition wal_begin `{Digest} (w : localWALWriter) (index : Z) (id : bytes) : result mvcc_error localWALWriter :=
  if bool_decide (id = []) || (128 <? blen id) || (index =? 0) then Err (ErrOther "invalid WAL transaction")
  else frame w (begin_frame index id).

Definition wal_op `{Digest} (w : localWALWriter) (k encoded : bytes) : result mvcc_error localWALWriter :=
  let* _ := stagedOpHeader k encoded in
  frame w (op_frame k encoded).

Section Log.
Context `{Bolt} `{GuardCodec} `{Env} `{Digest}.

Definition wal_identity (d : db) : bytes := raw (b_get (d_meta d) meta_identity).

(** [failLocalWAL] *)
Definition failLocalWAL (r : result mvcc_error unit) (s : Store) : Store :=
  match r with Ok _ => s | Err e => fail_store e s end.

(** Marks the store failed with the error of [m]. *)
Definition failing {A} (m : action A) : action A := fun s =>
  match m s with
  | (s, Err e) => (fail_store e s, Err e)
  | res => res
  end.

Definition writeLocalWAL (ctx : action unit) (produce : localWALWriter -> action localWALWriter) : action unit := fun s =>
  let identity := wal_identity (s_db s) in
  if negb (length identity =? 32)%nat then (s, Err (ErrOther "missing WAL store identity"))
  else
    (let! _ := check_io in
     let! w := produce (mkWriter (localWALMagic ++ identity) []) in
     let! w := returns (frame w (walSeal :: sha256 (ww_digest w))) in
     let! _ := check_io in
     let! _ := ctx in
     let! _ := failing check_io in
     let! _ := set_wal (Some (ww_out w)) in
     failing check_io) s.

(** ** Reading *)

(** The reader between frames. *)
Record wal_reader : Type := mkReader {
  wr_active : bool;
  wr_previous : Z;
  wr_digest : bytes
}.

(** [io.ReadFull]: exactly [n] bytes, and what follows. *)
Definition read_full (n : nat) (data : bytes) : result mvcc_error (bytes * bytes) :=
  if (n <=? length data)%nat then Ok (take n data, drop n data) else Err (ErrOther "unsealed WAL").

(** One frame with a correct checksum: its header, its payload, the rest. *)
Definition read_frame (data : bytes) : result mvcc_error (bytes * bytes * bytes) :=
  let* hd := read_full 8 data in
  let n := be_val (take 4 hd.1) in
  if (n <? 1) || (maxWALFrame <? n) then Err (ErrOther "invalid WAL frame length")
  else
    let* pd := read_full (Z.to_nat n) hd.2 in
    if negb (crc32 pd.1 =? be_val (drop 4 hd.1)) then Err (ErrOther "WAL checksum mismatch")
    else Ok (hd.1, pd.1, pd.2).

(** The key and record of an operation frame. *)
Definition op_parts (p : bytes) : bytes * bytes :=
  let n := Z.to_nat (be_val (take 4 (drop 1 p))) in
  (take n (drop 5 p), drop n (drop 5 p)).

(** The check of one payload; [None] when it is the seal and nothing follows it. *)
Definition check_frame (r : wal_reader) (p rest : bytes) : result mvcc_error (option wal_reader) :=
  match p with
  | [] => Err (ErrOther "unknown WAL record")
  | c :: _ =>
      if bool_decide (c = walBegin) then
        let n := number (take 8 (drop 1 p)) in
        if wr_active r || (blen p <? 10) || (137 <? blen p) || (n <=? wr_previous r)
        then Err (ErrOther "invalid WAL begin")
        else Ok (Some (mkReader true n (wr_digest r)))
      else if bool_decide (c = walOp) then
        if negb (wr_active r) || (blen p <? 7) then Err (ErrOther "invalid WAL operation")
        else
          let n := be_val (take 4 (drop 1 p)) in
          if (n <? 1) || (blen p - 7 <? n) then Err (ErrOther "invalid WAL key length")
          else
            let* _ := stagedOpHeader (op_parts p).1 (op_parts p).2 in Ok (Some r)
      else if bool_decide (c = walEnd) then
        if negb (wr_active r) || negb (blen p =? 1) then Err (ErrOther "invalid WAL end")
        else Ok (Some (mkReader false (wr_previous r) (wr_digest r)))
      else if bool_decide (c = walSeal) then
        if wr_active r || negb (blen p =? 33) || negb (bool_decide (drop 1 p = sha256 (wr_digest r)))
        then Err (ErrOther "invalid WAL seal")
        else if negb (bool_decide (rest = [])) then Err (ErrOther "trailing WAL bytes")
        else Ok None
      else Err (ErrOther "unknown WAL record")
  end.

(** The loop over the frames; [visit] sees each payload but the seal. *)
Fixpoint walk_frames {St} (visit : St -> bytes -> action St) (fuel : nat) (r : wal_reader) (data : bytes) (st : St)
    : action St :=
  let! f := returns (read_frame data) in
  let '(h, p, rest) := f in
  let! next := returns (check_frame r p rest) in
  match next with
  | None => done st
  | Some r =>
      let r := mkReader (wr_active r) (wr_previous r) (wr_digest r ++ h ++ p) in
      let! st := visit st p in
      match fuel with
      | O => refused (ErrOther "unsealed WAL")
      | S fuel => walk_frames visit fuel r rest st
      end
  end.

Definition walkLocalWAL {St} (file : option bytes) (identity : bytes) (visit : St -> bytes -> action St) (st : St)
    : action St :=
  match file with
  | None => done st
  | Some data =>
      if bool_decide (data = []) then done st
      else if (length data <? 40)%nat || negb (bool_decide (take 8 data = localWALMagic)) ||
              negb (bool_decide (drop 8 (take 40 data) = identity))
      then refused (ErrOther "invalid WAL header/store identity")
      else walk_frames visit (length data) (mkReader false 0 []) (drop 40 data) st
  end.

Definition clearLocalWAL : action unit := fun s =>
  match s_wal s with
  | None => (s, Ok tt)
  | Some _ =>
      (let! _ := check_io in
       let! _ := set_wal (Some []) in
       check_io) s
  end.

(** ** Installing *)

Record wal_install : Type := mkInstall {
  wi_batch : list (bytes * bytes);
  wi_size : Z;
  wi_index : Z;
  wi_id : bytes;
  wi_skip : bool;
  wi_catalog : bool
}.

(** The record a staged operation installs; a dependency check installs none. *)
Definition staged_check (encoded : bytes) : bool := Z.testbit (byte_at 1 encoded) 1.
Definition staged_delete (encoded : bytes) : bool := Z.testbit (byte_at 1 encoded) 0.
Definition staged_value (encoded : bytes) : bytes :=
  if staged_delete encoded then [x00] else byte_of_Z 1 :: drop 2 encoded.

Fixpoint install_batch (index : Z) (batch : list (bytes * bytes)) (d : db) : result mvcc_error db :=
  match batch with
  | [] => Ok d
  | (k, v) :: batch =>
      if staged_check v then install_batch index batch d
      else let* d := putVersion d k (sequence index) (staged_value v) in install_batch index batch d
  end.

Definition flush_install (st : wal_install) : action wal_install :=
  if bool_decide (wi_batch st = []) then done st
  else
    let! _ := update (fun d =>
      let d := put_meta meta_allocated (Z.max (wi_index st) (meta_number meta_allocated d)) d in
      let! d := returns (install_batch (wi_index st) (wi_batch st) d) in
      done (d, tt)) in
    done (mkInstall [] 0 (wi_index st) (wi_id st) (wi_skip st) (wi_catalog st)).

Definition catalog_prefix : bytes := catalog_space ++ [x00].

Definition raise_sequence (index : Z) : action unit := fun s => (s <| s_localSeq ::= Z.max index |>, Ok tt).

Definition install_begin (st : wal_install) (p : bytes) : action wal_install := fun s =>
  let index := number (take 8 (drop 1 p)) in
  let id := drop 9 p in
  (let! _ := raise_sequence index in
   let existing := number (raw (b_get (d_commits (s_db s)) id)) in
   let st skip := mkInstall (wi_batch st) (wi_size st) index id skip false in
   if negb (existing =? 0) then
     if negb (existing =? index) then refused (ErrOther "WAL transaction identity mismatch") else done (st true)
   else if index <=? Head (s_db s) then refused (ErrOther "stale WAL transaction")
   else done (st false)) s.

Definition install_op (st : wal_install) (p : bytes) : action wal_install :=
  let! st := (if localInstallBytes <? wi_size st + blen p then flush_install st else done st) in
  done (mkInstall (wi_batch st ++ [op_parts p]) (wi_size st + blen p) (wi_index st) (wi_id st) (wi_skip st)
          (wi_catalog st || has_prefix catalog_prefix (op_parts p).1)).

Definition install_end (st : wal_install) : action wal_install :=
  let! st := flush_install st in
  let! _ := update (fun d =>
    let! d := returns (publishCommit d (wi_id st) (wi_index st) (wi_catalog st)) in done (d, tt)) in
  done st.

Definition install_visit (st : wal_install) (p : bytes) : action wal_install :=
  match p with
  | c :: _ =>
      if bool_decide (c = walBegin) then install_begin st p
      else if bool_decide (c = walOp) then if wi_skip st then done st else install_op st p
      else if bool_decide (c = walEnd) then if wi_skip st then done st else install_end st
      else done st
  | [] => done st
  end.

Definition recoverLocalWAL : action unit := fun s =>
  let identity := wal_identity (s_db s) in
  (let! _ := walkLocalWAL (s_wal s) identity (fun st _ => done st) tt in
   let! _ := walkLocalWAL (s_wal s) identity install_visit (mkInstall [] 0 0 [] false false) in
   clearLocalWAL) s.
End Log.

(** ** A group of commits through the log *)

Section Group.
Context `{Bolt} `{GuardCodec} `{MapRange} `{Env} `{Digest}.

(** The changes of an accepted request. *)
Fixpoint accept_ops (index : Z) (ops : list Op) (accepted : gmap bytes Z) : result mvcc_error (gmap bytes Z) :=
  match ops with
  | [] => Ok accepted
  | op :: ops =>
      if op_Check op then accept_ops index ops accepted
      else let* k := key (op_Space op) (op_Key op) in accept_ops index ops (<[k := index]> accepted)
  end.

(** One request against the view: the reader's cache, the request, and the changes accepted so far. *)
Definition wal_admit_one (cache : list cacheEntry) (accepted : gmap bytes Z) (r : localCommitRequest) (s : Store)
    : Store * list cacheEntry * localCommitRequest * result mvcc_error (gmap bytes Z) :=
  let failed s cache e := (s, cache, r <| q_err := Some e |>, Ok accepted) in
  match check_ctx s with
  | (s, Err e) => failed s cache e
  | (s, Ok _) =>
      let v := withBaseline (newConflictValidator (q_snapshot r)
                 (newGroupChangeLookup (newViewChangeLookup (s_db s)) accepted)) (q_baseline r) in
      let '(cache, verdict) := validateOps v cache (q_ops r) in
      match verdict with
      | Err e => failed s cache e
      | Ok _ =>
          match nextSequence s with
          | (s, Err e) => failed s cache e
          | (s, Ok index) => (s, cache, r <| q_index := index |>, accept_ops index (q_ops r) accepted)
          end
      end
  end.

Fixpoint wal_admit (cache : list cacheEntry) (accepted : gmap bytes Z) (todo : list localCommitRequest) (s : Store)
    : Store * list localCommitRequest * result mvcc_error unit :=
  match todo with
  | [] => (s, [], Ok tt)
  | r :: todo =>
      if q_err r then
        let '(s, rs, res) := wal_admit cache accepted todo s in (s, r :: rs, res)
      else
        let '(s, cache, r, verdict) := wal_admit_one cache accepted r s in
        match verdict with
        | Err e => (s, r :: todo, Err e)
        | Ok accepted => let '(s, rs, res) := wal_admit cache accepted todo s in (s, r :: rs, res)
        end
  end.

(** The frames of the accepted requests. *)
Fixpoint wal_write_ops (ops : list Op) (w : localWALWriter) : result mvcc_error localWALWriter :=
  match ops with
  | [] => Ok w
  | op :: ops =>
      let* k := key (op_Space op) (op_Key op) in
      let* w := wal_op w k (encodeStagedOp op) in
      wal_write_ops ops w
  end.

Fixpoint wal_write_group (group : list localCommitRequest) (w : localWALWriter) : result mvcc_error localWALWriter :=
  match group with
  | [] => Ok w
  | r :: group =>
      if q_err r then wal_write_group group w
      else
        let* w := wal_begin w (q_index r) (q_id r) in
        let* w := wal_write_ops (q_ops r) w in
        let* w := frame w [walEnd] in
        wal_write_group group w
  end.

Definition commitLocalWALGroup (group : list localCommitRequest) (s : Store) : Store * list localCommitRequest :=
  let '(s, group, admitted) := wal_admit empty_cache ∅ group s in
  let accepted := length (filter (fun r => q_err r = None) group) in
  let '(s, res) :=
    match admitted with
    | Err e => (s, Err e)
    | Ok _ =>
        if (0 <? accepted)%nat then
          (let! _ := writeLocalWAL (done tt) (fun w => returns (wal_write_group group w)) in recoverLocalWAL) s
        else (s, Ok tt)
    end in
  match res with
  | Ok _ => (s, group)
  | Err e => (fail_store e s, fail_rest e group)
  end.
End Group.
