(* ===== verification/Group.v ===== *)
(** * Bounded local commits: [mvcc/group_commit.go]

    The caller that finds no group running commits alone, on its own goroutine; those that arrive
    meanwhile wait in a queue and share the next physical transaction.  [commitLocalGroup] holds the
    [apply] lock for its whole body. *)

From stdpp Require Import gmap list sorting strings fin_maps.
From Stdlib Require Import Strings.Byte.
From S2P Require Import Prelude TxnState Bolt Keys Versions Visibility Conflict Store Wal.

Section Commit.
Context `{Bolt} `{GuardCodec} `{MapRange} `{Env} `{Digest}.

(** The first pass over the group: requests that may not run get their error. *)
Definition admit_one (fatal : option mvcc_error) (r : localCommitRequest) (s : Store) : Store * localCommitRequest :=
  match fatal with
  | Some e => (s, r <| q_err := Some e |>)
  | None =>
      match check_ctx s with
      | (s, Err e) => (s, r <| q_err := Some e |>)
      | (s, Ok _) =>
          (s, r <| q_err := if negb (q_generation r =? s_generation s) then Some ErrConflict else None |>)
      end
  end.

Fixpoint admit_group (fatal : option mvcc_error) (group : list localCommitRequest) (s : Store)
    : Store * list localCommitRequest :=
  match group with
  | [] => (s, [])
  | r :: group =>
      let '(s, r) := admit_one fatal r s in
      let '(s, rs) := admit_group fatal group s in (s, r :: rs)
  end.

(** One request inside the shared transaction. *)
Definition group_one (d : db) (r : localCommitRequest) (s : Store) : Store * localCommitRequest * result mvcc_error db :=
  match check_ctx s with
  | (s, Err e) => (s, r <| q_err := Some e |>, Ok d)
  | (s, Ok _) =>
      let v := withBaseline (newConflictValidator (q_snapshot r) (newViewChangeLookup d)) (q_baseline r) in
      match (validateOps v empty_cache (q_ops r)).2 with
      | Err e => (s, r <| q_err := Some e |>, Ok d)
      | Ok _ =>
          match nextSequence s with
          | (s, Err e) => (s, r <| q_err := Some e |>, Ok d)
          | (s, Ok index) =>
              (s, r <| q_index := index |>,
               let* dc := install_ops index (q_ops r) d false in publishCommit dc.1 (q_id r) index dc.2)
          end
      end
  end.

Fixpoint group_txn (d : db) (todo : list localCommitRequest) (s : Store)
    : Store * list localCommitRequest * result mvcc_error db :=
  match todo with
  | [] => (s, [], Ok d)
  | r :: todo =>
      if q_err r then
        let '(s, rs, res) := group_txn d todo s in (s, r :: rs, res)
      else
        let '(s, r, res) := group_one d r s in
        match res with
        | Err e => (s, r :: todo, Err e)
        | Ok d => let '(s, rs, res) := group_txn d todo s in (s, r :: rs, res)
        end
  end.

Definition commitLocalGroup (group : list localCommitRequest) (s : Store) : Store * list localCommitRequest :=
  let '(s, group) := admit_group (AvailabilityError s) group s in
  if bool_decide (Forall (fun r => is_Some (q_err r)) group) then (s, group)
  else if s_localWAL s then commitLocalWALGroup group s
  else
    let '(s, group, res) := group_txn (s_db s) group s in
    let '(s, res) := update (fun _ => let! d := returns res in done (d, tt)) s in
    match res with
    | Ok _ => (s, group)
    | Err e => (fail_store e s, fail_rest e group)
    end.

(** Groups one after the other, as [drainLocalGroups] commits them, and their requests with the
    outcomes. *)
Fixpoint commit_groups (groups : list (list localCommitRequest)) (s : Store) : Store * list localCommitRequest :=
  match groups with
  | [] => (s, [])
  | g :: groups =>
      let '(s, g) := commitLocalGroup g s in
      let '(s, rs) := commit_groups groups s in (s, g ++ rs)
  end.
End Commit.

(** ** The queue of waiting requests *)

Record group_queue : Type := mkQueue {
  groupRunning : bool;
  groupQueue : list localCommitRequest;
  groupBytes : Z
}.

#[export] Instance group_queue_rebuild : Rebuild group_queue := fun q =>
  mkQueue (groupRunning q) (groupQueue q) (groupBytes q).

Definition request_bytes (ops : list Op) : Z := foldl (fun n op => n + op_bytes op) 0 ops.

Definition newRequest (generation snapshot : Z) (id : bytes) (ops : list Op) (baseline : option (bytes -> option Z))
    : localCommitRequest :=
  mkRequest generation snapshot id ops (request_bytes ops) 0 None baseline.

(** What a caller of [commitLocalWith] does with its request. *)
Inductive dispatch : Type :=
  | RunsAlone    (** commits it, then hands the queue to a new goroutine *)
  | WaitsInQueue (** waits until a group that holds it ends *)
  | RunsBeside.  (** commits it at once, next to the running group *)

Definition enqueueLocal (q : group_queue) (r : localCommitRequest) : group_queue * dispatch :=
  if negb (groupRunning q) then (q <| groupRunning := true |>, RunsAlone)
  else if (length (groupQueue q) <? 32)%nat && (groupBytes q + q_bytes r <=? 2 * localInstallBytes) then
    (q <| groupQueue ::= (fun l => l ++ [r]) |> <| groupBytes ::= Z.add (q_bytes r) |>, WaitsInQueue)
  else (q, RunsBeside).

(** How many requests the next group takes, and their size. *)
Fixpoint group_extent (size : Z) (n : nat) (queue : list localCommitRequest) : nat * Z :=
  match queue with
  | [] => (n, size)
  | r :: queue =>
      if (n =? 0)%nat || (size + q_bytes r <=? localInstallBytes) then group_extent (size + q_bytes r) (S n) queue
      else (n, size)
  end.

Definition nextLocalGroup (q : group_queue) : group_queue * list localCommitRequest :=
  if bool_decide (groupQueue q = []) then (q <| groupRunning := false |>, [])
  else
    let '(n, size) := group_extent 0 0 (groupQueue q) in
    (q <| groupQueue ::= drop n |> <| groupBytes ::= (fun b => b - size) |>, take n (groupQueue q)).

(** [commitLocalWith]: the checks, the request, and what becomes of it. *)
Definition commitLocalWith (q : group_queue) (generation snapshot : Z) (id : bytes) (ops : list Op)
    (baseline : option (bytes -> option Z)) : result mvcc_error (group_queue * localCommitRequest * dispatch) :=
  let* _ := validateCommand (mkCommand "" id 0 ops [] 0 0) in
  let r := newRequest generation snapshot id ops baseline in
  Ok ((enqueueLocal q r).1, r, (enqueueLocal q r).2).
