(* ===== verification/GroupQueue.v ===== *)
(** * The queue of waiting commits: [mvcc/group_commit.go]

    Arrivals and hand-overs of the queue beside a running group, as a sequence of steps; each takes
    [groupMu] for its whole effect.  A hand-over is asked for only by the goroutine that runs the
    groups. *)

From stdpp Require Import gmap list sorting strings fin_maps.
From Stdlib Require Import Strings.Byte.
From S2P Require Import Prelude TxnState Bolt Keys Versions Visibility Conflict Store Wal Group.

(** [drainLocalGroups], after the group it is called with: the groups it goes on to run while nothing
    arrives. *)
Fixpoint drainLocalGroups (fuel : nat) (q : group_queue) : group_queue * list (list localCommitRequest) :=
  let '(q, group) := nextLocalGroup q in
  match group, fuel with
  | [], _ => (q, [])
  | _ :: _, O => (q, [group])
  | _ :: _, S fuel => let '(q, groups) := drainLocalGroups fuel q in (q, group :: groups)
  end.

Inductive queue_event : Type :=
  | Arrives (generation snapshot : Z) (id : bytes) (ops : list Op) (baseline : option (bytes -> option Z))
  | TakesNext.

(** The queue, with the requests that were told to wait and the groups handed out, in order. *)
Record queue_run : Type := mkRun {
  qr_queue : group_queue;
  qr_waited : list localCommitRequest;
  qr_handed : list (list localCommitRequest)
}.

Definition idle_queue : group_queue := mkQueue false [] 0.

Definition queue_step (x : queue_run) (e : queue_event) : queue_run :=
  match e with
  | Arrives generation snapshot id ops baseline =>
      match commitLocalWith (qr_queue x) generation snapshot id ops baseline with
      | Err _ => x
      | Ok (q, r, WaitsInQueue) => mkRun q (qr_waited x ++ [r]) (qr_handed x)
      | Ok (q, _, _) => mkRun q (qr_waited x) (qr_handed x)
      end
  | TakesNext =>
      if groupRunning (qr_queue x) then
        let '(q, group) := nextLocalGroup (qr_queue x) in
        mkRun q (qr_waited x) (if bool_decide (group = []) then qr_handed x else qr_handed x ++ [group])
      else x
  end.

Definition queue_after (events : list queue_event) : queue_run := foldl queue_step (mkRun idle_queue [] []) events.

(** ** Sizes *)

Definition queue_bytes (l : list localCommitRequest) : Z := foldr (fun r n => q_bytes r + n) 0 l.

Lemma queue_bytes_app a b : queue_bytes (a ++ b) = queue_bytes a + queue_bytes b.
Proof. induction a as [|r a IH]; [done|]. cbn. unfold queue_bytes in *. lia. Qed.

#[local] Arguments queue_bytes : simpl never.

(** A request that passed the checks. *)
Definition within_chunk (r : localCommitRequest) : Prop := 0 <= q_bytes r <= MaxChunkBytes.

Lemma validate_ops_size_sum ops n m :
  validate_ops_size ops n = Ok m -> m = foldl (fun n op => n + op_bytes op) n ops.
Proof.
  revert n. induction ops as [|op ops IH]; intros n; cbn; [by intros [= ->]|].
  destruct (validateKey _ _); [|done]. cbn. destruct (_ <? _); [done|]. apply IH.
Qed.

Lemma request_bytes_from ops n : n <= foldl (fun n op => n + op_bytes op) n ops.
Proof.
  revert n. induction ops as [|op ops IH]; intros n; cbn; [lia|]. specialize (IH (n + op_bytes op)).
  assert (0 <= op_bytes op) by (unfold op_bytes, blen; lia). lia.
Qed.

Lemma commitLocalWith_spec q generation snapshot id ops baseline q' r w :
  commitLocalWith q generation snapshot id ops baseline = Ok (q', r, w) ->
  r = newRequest generation snapshot id ops baseline /\ within_chunk r /\ (q', w) = enqueueLocal q r.
Proof.
  unfold commitLocalWith, validateCommand. cbn [cmd_ID cmd_Ops]. destruct (128 <? blen id); [done|].
  destruct (validate_ops_size ops 0) as [m|] eqn:Hm; [|done]. cbn [rbind].
  destruct (Z.ltb_spec MaxChunkBytes m) as [|Hle]; [done|]. cbn [rbind]. intros [= <- <- <-].
  apply validate_ops_size_sum in Hm. split_and!; [done| |symmetry; apply surjective_pairing].
  unfold within_chunk. cbn [newRequest q_bytes]. unfold request_bytes. rewrite <- Hm.
  pose proof (request_bytes_from ops 0). lia.
Qed.

(** ** Taking the next group *)

(** What [group_extent] counts: a prefix as long as the budget allows, and at least one request. *)
Lemma group_extent_spec queue : forall n size m total,
  0 <= size -> Forall within_chunk queue -> group_extent size n queue = (m, total) ->
  exists k, m = (n + k)%nat /\ (k <= length queue)%nat /\ total = size + queue_bytes (take k queue) /\
    (n = 0%nat -> queue <> [] -> (0 < k)%nat) /\
    ((0 < k)%nat -> (0 < n)%nat \/ (1 < k)%nat -> total <= localInstallBytes) /\
    (forall r, queue !! k = Some r -> localInstallBytes < total + q_bytes r).
Proof.
  induction queue as [|r queue IH]; intros n size m total Hs Hq E; cbn [group_extent] in E.
  { injection E as <- <-. exists 0%nat. unfold queue_bytes. cbn. split_and!; [lia|lia|lia|done|lia|done]. }
  apply Forall_cons in Hq as [Hr Hq]. unfold within_chunk in Hr.
  destruct (_ || _) eqn:Hc.
  - destruct (IH (S n) (size + q_bytes r) m total ltac:(lia) Hq E) as (k & -> & Hk & -> & _ & Hb & Hn).
    exists (S k). cbn [take]. unfold queue_bytes in *. cbn [foldr length lookup list_lookup]. split_and!; [lia|lia|lia|intros; lia| |].
    + intros _ Hx. destruct k as [|k]; [|apply Hb; lia]. change (take 0 queue) with (@nil localCommitRequest). cbn [foldr].
      destruct Hx as [Hx|Hx]; [|lia]. apply orb_true_iff in Hc as [Hc%Nat.eqb_eq|Hc%Z.leb_le]; lia.
    + intros r' Hr'. specialize (Hn r' Hr'). lia.
  - injection E as <- <-. exists 0%nat. unfold queue_bytes. cbn. apply orb_false_iff in Hc as [Hc1%Nat.eqb_neq Hc2%Z.leb_gt].
    split_and!; [lia|lia|lia|intros; lia|lia|]. intros r' [= <-]. lia.
Qed.

(** What holds between steps. *)
Record queue_ok (q : group_queue) : Prop := {
  qo_bytes : groupBytes q = queue_bytes (groupQueue q);
  qo_budget : groupBytes q <= 2 * localInstallBytes;
  qo_length : (length (groupQueue q) <= 32)%nat;
  qo_chunks : Forall within_chunk (groupQueue q);
  qo_idle : groupRunning q = false -> groupQueue q = []
}.

(** A group that is handed out: some requests, within the budget of one physical transaction. *)
Definition group_ok (group : list localCommitRequest) : Prop :=
  group <> [] /\ (length group <= 32)%nat /\ queue_bytes group <= localInstallBytes.

Lemma queue_bytes_nonneg l : Forall within_chunk l -> 0 <= queue_bytes l.
Proof. induction 1 as [|r l Hr _ IH]; [done|]. unfold within_chunk in Hr. unfold queue_bytes in *. cbn. lia. Qed.

Lemma enqueueLocal_ok q r :
  queue_ok q -> within_chunk r ->
  queue_ok (enqueueLocal q r).1 /\
  groupQueue (enqueueLocal q r).1 = groupQueue q ++ (if (enqueueLocal q r).2 is WaitsInQueue then [r] else []).
Proof.
  intros [Hb Hu Hl Hc Hi] Hr. unfold enqueueLocal. destruct (groupRunning q) eqn:Hrun; cbn [negb].
  2: { rewrite app_nil_r. split; [by constructor|done]. }
  destruct (_ && _) eqn:Hfit; [|cbn; rewrite app_nil_r; split; [constructor; done || (intros E; by rewrite Hrun in E)|done]].
  apply andb_true_iff in Hfit as [H1%Nat.ltb_lt H2%Z.leb_le]. split; [|done].
  constructor; cbn; rewrite ?queue_bytes_app, ?length_app; unfold queue_bytes in *; cbn; [lia|lia|lia| |congruence].
  apply Forall_app. split; [done|]. by apply Forall_singleton.
Qed.

Lemma nextLocalGroup_ok q q' group :
  queue_ok q -> nextLocalGroup q = (q', group) ->
  queue_ok q' /\ groupQueue q = group ++ groupQueue q' /\ (group = [] <-> groupQueue q = []) /\
  (group = [] -> groupRunning q' = false) /\ (group <> [] -> group_ok group /\ groupRunning q' = groupRunning q).
Proof.
  intros [Hb Hu Hl Hc Hi]. unfold nextLocalGroup. case_bool_decide as He.
  { intros [= <- <-]. cbn. rewrite He in *. split_and!; (done || by constructor). }
  destruct (group_extent 0 0 (groupQueue q)) as [n total] eqn:E. intros [= <- <-].
  apply group_extent_spec in E as (k & -> & Hk & -> & Hpos & Hfit & _); [|lia|done]. cbn [Nat.add].
  specialize (Hpos eq_refl He). pose proof (take_drop k (groupQueue q)) as Hs.
  assert (queue_bytes (groupQueue q) = queue_bytes (take k (groupQueue q)) + queue_bytes (drop k (groupQueue q))) as Hsum
    by (rewrite <- queue_bytes_app, Hs; done).
  assert (Forall within_chunk (take k (groupQueue q)) /\ Forall within_chunk (drop k (groupQueue q))) as [Ht Hd]
    by (apply Forall_app; by rewrite Hs).
  assert (take k (groupQueue q) <> []) as Hne by (destruct (groupQueue q), k; try done; lia).
  split_and!; [| |split; [done|by intros E]|done|intros _; split; [split_and!; [done| |]|done]].
  - pose proof (queue_bytes_nonneg _ Ht). constructor; cbn; [lia|lia|rewrite length_drop; lia|done|].
    intros Hr. by rewrite (Hi Hr) in He.
  - cbn. by rewrite Hs.
  - rewrite length_take. lia.
  - destruct k as [|[|k]]; [lia| |apply Hfit; lia]. destruct (groupQueue q) as [|r l]; [done|].
    apply Forall_cons in Hc as [Hr _]. unfold within_chunk, MaxChunkBytes in Hr. unfold queue_bytes, localInstallBytes. cbn. change (firstn 0 l) with (@nil localCommitRequest). cbn. lia.
Qed.

Record run_ok (x : queue_run) : Prop := {
  ro_queue : queue_ok (qr_queue x);
  ro_fifo : concat (qr_handed x) ++ groupQueue (qr_queue x) = qr_waited x;
  ro_groups : Forall group_ok (qr_handed x)
}.

Lemma queue_step_ok x e : run_ok x -> run_ok (queue_step x e).
Proof.
  intros [Hq Hf Hg]. destruct e as [generation snapshot id ops baseline|]; cbn.
  - destruct (commitLocalWith _ _ _ _ _ _) as [[[q r] w]|] eqn:E; [|done].
    apply commitLocalWith_spec in E as (_ & Hr & E). pose proof (enqueueLocal_ok _ r Hq Hr) as [Hok Happ].
    rewrite <- E in Hok, Happ. cbn in Hok, Happ.
    destruct w; (constructor; cbn; [done| |done]); by rewrite Happ, ?app_nil_r, ?app_assoc, ?Hf.
  - destruct (groupRunning (qr_queue x)); [|done]. destruct (nextLocalGroup (qr_queue x)) as [q group] eqn:E.
    apply nextLocalGroup_ok in E as (Hok & Hs & _ & _ & Hne); [|done].
    case_bool_decide as Hnil; constructor; cbn; try done.
    + subst group. by rewrite <- Hf, Hs.
    + by rewrite concat_app, <- Hf, Hs, <- !app_assoc; cbn; rewrite ?app_nil_r.
    + apply Forall_app. split; [done|]. apply Forall_singleton. by apply Hne.
Qed.

Lemma queue_after_ok events : run_ok (queue_after events).
Proof.
  unfold queue_after. assert (run_ok (mkRun idle_queue [] [])) as Hinit
    by (constructor; cbn; [constructor; cbn; try done; unfold localInstallBytes; lia|done|constructor]).
  revert Hinit. generalize (mkRun idle_queue [] []). induction events as [|e events IH]; intros x Hx; cbn; [done|].
  by apply IH, queue_step_ok.
Qed.

Lemma drain_spec fuel : forall q, (length (groupQueue q) <= fuel)%nat -> queue_ok q ->
  (drainLocalGroups fuel q).1 = mkQueue false [] 0 /\ concat (drainLocalGroups fuel q).2 = groupQueue q.
Proof.
  induction fuel as [|fuel IH]; intros q Hf Hq; cbn [drainLocalGroups];
    destruct (nextLocalGroup q) as [q1 group] eqn:E;
    apply nextLocalGroup_ok in E as (Hq1 & Hs & Hnil & Hend & Hne); try done;
    destruct group as [|r group].
  1, 3: rewrite (proj1 Hnil eq_refl) in *; cbn in Hs; cbn; split; [|done];
    destruct q1 as [run l n]; destruct Hq1; cbn in *; subst; by rewrite Hend.
  - rewrite Hs in Hf. cbn in Hf. lia.
  - destruct (IH q1) as [IH1 IH2]; [rewrite Hs in Hf; cbn in Hf; rewrite length_app in Hf; lia|done|].
    destruct (drainLocalGroups fuel q1) as [q2 groups]. cbn in *. split; [done|]. by rewrite Hs, IH2.
Qed.

(** C22: the queue of waiting commits stays within its bounds, and serves in order of arrival.  After
    any arrivals and hand-overs its byte count is the sum over what waits and at most twice the
    budget of a group, at most 32 requests wait, and none when nobody runs groups; every group handed
    out is non-empty and within the budget; the groups handed out and the queue are exactly the
    requests that were told to wait, in the order they came; and draining ends after at most as many
    groups as requests wait, with every one of them taken. *)
Theorem group_queue_bounded (events : list queue_event) :
  let x := queue_after events in
  let q := qr_queue x in
  groupBytes q = queue_bytes (groupQueue q) /\ 0 <= groupBytes q <= 2 * localInstallBytes /\
  (length (groupQueue q) <= 32)%nat /\ (groupRunning q = false -> groupQueue q = []) /\
  Forall group_ok (qr_handed x) /\ concat (qr_handed x) ++ groupQueue q = qr_waited x /\
  (drainLocalGroups (length (groupQueue q)) q).1 = mkQueue false [] 0 /\
  concat (drainLocalGroups (length (groupQueue q)) q).2 = groupQueue q.
Proof.
  pose proof (queue_after_ok events) as [Hq Hf Hg]. cbn zeta. destruct (drain_spec _ _ (le_n _) Hq) as [Hd1 Hd2].
  pose proof (queue_bytes_nonneg _ (qo_chunks _ Hq)). destruct Hq. split_and!; try done; lia.
Qed.
