(* ===== verification/GroupSteps.v ===== *)
(** * What a commit group does

    The abstract run of a group over the log of commits, and that [commitLocalGroup] refines it. *)

From stdpp Require Import gmap list sorting strings fin_maps.
From Stdlib Require Import Strings.Byte.
From S2P Require Import Prelude TxnState Bolt Keys Versions Visibility Layouts Conflict Store CommitLog Wal Group.

Section Outcome.
Context `{GuardCodec} `{Env}.

(** Why a request may be refused. *)
Definition refusal (log : list commit) (seq : Z) (r : localCommitRequest) (e : mvcc_error) : Prop :=
  (exists n, ctx_err n = Some e) \/ ~ may_commit log r \/ (seq = u64_max /\ e = ErrSequenceExhausted).

(** The abstract run: each request in turn is skipped, refused, or committed at the next sequence. *)
Inductive outcome : list commit -> Z -> list localCommitRequest -> list localCommitRequest -> list commit -> Z -> Prop :=
  | oc_end log seq : outcome log seq [] [] log seq
  | oc_skip log seq r rs rs' log' seq' :
      is_Some (q_err r) -> outcome log seq rs rs' log' seq' -> outcome log seq (r :: rs) (r :: rs') log' seq'
  | oc_refuse log seq r e rs rs' log' seq' :
      q_err r = None -> refusal log seq r e -> outcome log seq rs rs' log' seq' ->
      outcome log seq (r :: rs) (r <| q_err := Some e |> :: rs') log' seq'
  | oc_commit log seq r rs rs' log' seq' :
      q_err r = None -> may_commit log r -> seq < u64_max ->
      outcome (log ++ [mkCommit (seq + 1) (q_id r) (q_ops r)]) (seq + 1) rs rs' log' seq' ->
      outcome log seq (r :: rs) (r <| q_index := seq + 1 |> :: rs') log' seq'.

(** The log grows by the commits the requests report, at consecutive sequences. *)
Lemma outcome_log log seq rs rs' log' seq' :
  outcome log seq rs rs' log' seq' ->
  log' = log ++ commits_of rs' /\ c_index <$> commits_of rs' = Z.add (seq + 1) <$> (Z.of_nat <$> List.seq 0 (length (commits_of rs'))) /\
  seq' = seq + Z.of_nat (length (commits_of rs')).
Proof.
  induction 1 as [log seq|log seq r rs rs' log' seq' He _ IH|log seq r e rs rs' log' seq' He _ _ IH|log seq r rs rs' log' seq' He _ _ _ IH];
    unfold commits_of; cbn [omap list_omap].
  - rewrite app_nil_r. split_and!; [done|done|cbn; lia].
  - destruct (q_err r) as [e|]; [exact IH|by destruct He].
  - cbn. exact IH.
  - cbn. rewrite He. change (omap _ rs') with (commits_of rs'). destruct IH as (-> & Hi & ->). split_and!.
    + by rewrite <- app_assoc.
    + cbn. rewrite Hi. f_equal; [lia|]. rewrite <- seq_shift, <- list_fmap_compose. rewrite <- !list_fmap_compose.
      apply list_fmap_ext. intros _ n _. cbn. lia.
    + cbn. lia.
Qed.

Lemma outcome_sequence log seq rs rs' log' seq' : outcome log seq rs rs' log' seq' -> seq <= seq' /\ Forall (fun c => seq < c_index c) (commits_of rs').
Proof.
  intros Ho%outcome_log. destruct Ho as (_ & Hi & ->). split; [lia|]. apply (Forall_fmap c_index (Z.lt seq)). rewrite Hi.
  apply Forall_fmap, Forall_fmap, Forall_forall. intros n _. cbn. lia.
Qed.

(** No lost update: a commit that depends on what an earlier commit changed had read that change. *)
Lemma outcome_first_committer log seq rs rs' log' seq' before r after :
  outcome log seq rs rs' log' seq' -> rs' = before ++ r :: after -> q_err r = None ->
  may_commit (log ++ commits_of before) r.
Proof.
  intros Ho. revert before. induction Ho as [log seq|log seq r0 rs rs' log' seq' He _ IH|log seq r0 e rs rs' log' seq' He _ _ IH|log seq r0 rs rs' log' seq' He Hm _ _ IH];
    intros [|b before] E Hr; try done; cbn in E; injection E as Hb E; subst.
  - by rewrite Hr in He; destruct He.
  - unfold commits_of. cbn. destruct (q_err b); [|by destruct He]. by apply IH.
  - done.
  - unfold commits_of. cbn. by apply IH.
  - unfold commits_of. cbn. by rewrite app_nil_r.
  - specialize (IH before eq_refl Hr). unfold commits_of. cbn. rewrite He. rewrite <- app_assoc in IH. exact IH.
Qed.
End Outcome.

(** ** Refinement *)

Section Refinement.
Context `{BoltLaws} `{GuardCodec} `{MapRange} `{Env} `{Digest}.

(** A store that differs in its clock and its sequence only. *)
Record same_store (s s' : Store) : Prop := {
  ss_db : s_db s' = s_db s;
  ss_wal : s_wal s' = s_wal s;
  ss_trace : s_trace s' = s_trace s;
  ss_fatal : s_fatal s' = s_fatal s;
  ss_generation : s_generation s' = s_generation s;
  ss_localWAL : s_localWAL s' = s_localWAL s
}.

#[export] Instance same_store_preorder : PreOrder same_store.
Proof. split; [done|]. intros s1 s2 s3 [] []. constructor; congruence. Qed.

Lemma check_ctx_spec s :
  exists s', same_store s s' /\ s_localSeq s' = s_localSeq s /\
    (check_ctx s = (s', Ok tt) \/ exists e n, ctx_err n = Some e /\ check_ctx s = (s', Err e)).
Proof.
  exists (s <| s_clock ::= S |>). split_and!; [done|done|]. unfold check_ctx.
  destruct (ctx_err (s_clock s)) as [e|] eqn:E; [right|by left]. eauto.
Qed.

Lemma nextSequence_spec s :
  (s_localSeq s = u64_max /\ nextSequence s = (s, Err ErrSequenceExhausted)) \/
  (s_localSeq s <> u64_max /\ exists s', same_store s s' /\ s_localSeq s' = s_localSeq s + 1 /\
     nextSequence s = (s', Ok (s_localSeq s + 1))).
Proof.
  unfold nextSequence. destruct (Z.eqb_spec (s_localSeq s) u64_max); [by left|right].
  split; [done|]. by exists (s <| s_localSeq ::= Z.succ |>).
Qed.

(** Installing and publishing the writes of a request that may commit. *)
Lemma commit_ops h d log seq r index :
  represents h d log seq -> seq < index -> is_u64 index -> request_ok r -> may_commit log r ->
  exists d', (let* dc := install_ops index (q_ops r) d false in publishCommit dc.1 (q_id r) index dc.2) = Ok d' /\
    represents h d' (log ++ [mkCommit index (q_id r) (q_ops r)]) index /\
    durable h d' (log ++ [mkCommit index (q_id r) (q_ops r)]) /\ wal_identity d' = wal_identity d.
Proof.
  intros Hr Hi Hu Hq Hm.
  destruct (install_ops_spec index (q_ops r) d false) as (d1 & c & -> & Hin);
    [done|apply Hr|apply Hq|by eapply may_commit_valid|]. cbn [rbind fst snd].
  destruct (publishCommit_spec d1 (q_id r) index c) as (d2 & Hp & Hpub); [done|apply Hq|].
  exists d2. split; [done|]. split_and!.
  - apply (represents_published h d log seq index (q_ops r) d1); try done. apply Hq.
  - apply (published_durable h d log seq index (q_ops r) d1); try done. apply Hq.
  - unfold wal_identity. rewrite (pb_identity _ _ _ _ Hpub). by rewrite (rk_meta _ _ (in_rest _ _ _ _ Hin)).
Qed.

Lemma group_one_spec h d log r s :
  represents h d log (s_localSeq s) -> h <= u64_max -> request_ok r ->
  exists s', same_store s s' /\
  ((exists e, refusal log (s_localSeq s) r e /\ s_localSeq s' = s_localSeq s /\
      group_one d r s = (s', r <| q_err := Some e |>, Ok d)) \/
   (may_commit log r /\ s_localSeq s < u64_max /\ s_localSeq s' = s_localSeq s + 1 /\
    exists d', represents h d' (log ++ [mkCommit (s_localSeq s + 1) (q_id r) (q_ops r)]) (s_localSeq s + 1) /\
      durable h d' (log ++ [mkCommit (s_localSeq s + 1) (q_id r) (q_ops r)]) /\ wal_identity d' = wal_identity d /\
      group_one d r s = (s', r <| q_index := s_localSeq s + 1 |>, Ok d'))).
Proof.
  intros Hr Hh Hq. unfold group_one.
  destruct (check_ctx_spec s) as (s1 & Hs1 & Hq1 & [->|(e & n & He & ->)]).
  2: { exists s1. split; [done|]. left. exists e. split; [by left; exists n|done]. }
  pose proof (view_verdict h d log _ r Hr Hh Hq) as Hv.
  destruct (validateOps _ _ _) as [st [[]|e]]; cbn [snd] in *.
  2: { exists s1. split; [done|]. left. exists e. split; [|done]. right. left. intros Hm. by apply Hv in Hm. }
  destruct (nextSequence_spec s1) as [[Hmax ->]|(Hmax & s2 & Hs2 & Hq2 & ->)]; rewrite Hq1 in *.
  { exists s1. split; [done|]. left. exists ErrSequenceExhausted. split; [by right; right|done]. }
  assert (may_commit log r) as Hm by by apply Hv.
  pose proof (rp_seq _ _ _ _ Hr) as Hu. assert (is_u64 (s_localSeq s + 1)) as Hu1 by (unfold is_u64, u64_max in *; lia).
  destruct (commit_ops h d log (s_localSeq s) r (s_localSeq s + 1)) as (d' & -> & Hr' & Hdu & Hid); [done|lia|done..|].
  exists s2. split; [by etransitivity|]. right. split; [done|]. split; [unfold is_u64, u64_max in *; lia|]. split; [done|]. by exists d'.
Qed.

Lemma group_txn_spec h todo : forall d log s,
  represents h d log (s_localSeq s) -> durable h d log -> h <= u64_max -> Forall request_ok todo ->
  exists s' rs d' log', group_txn d todo s = (s', rs, Ok d') /\ same_store s s' /\
    outcome log (s_localSeq s) todo rs log' (s_localSeq s') /\ represents h d' log' (s_localSeq s') /\
    durable h d' log' /\ wal_identity d' = wal_identity d.
Proof.
  induction todo as [|r todo IH]; intros d log s Hr Hd Hh Hq; cbn [group_txn].
  { exists s, [], d, log. split_and!; [done|done|constructor|done..]. }
  apply Forall_cons in Hq as [Hq1 Hq]. destruct (q_err r) as [e|] eqn:He.
  { destruct (IH d log s Hr Hd Hh Hq) as (s' & rs & d' & log' & -> & Hs & Ho & Hr').
    exists s', (r :: rs), d', log'. split_and!; [done|done|apply oc_skip; [by rewrite He|done]|apply Hr'..]. }
  destruct (group_one_spec h d log r s Hr Hh Hq1)
    as (s1 & Hs1 & [(e & Href & Hseq & ->)|(Hm & Hlt & Hseq & d1 & Hr1 & Hd1 & Hid & ->)]).
  - rewrite <- Hseq in Hr. destruct (IH d log s1 Hr Hd Hh Hq) as (s' & rs & d' & log' & -> & Hs & Ho & Hr').
    rewrite Hseq in Ho. exists s', (r <| q_err := Some e |> :: rs), d', log'.
    split_and!; [done|by etransitivity|by apply oc_refuse|apply Hr'..].
  - rewrite <- Hseq in Hr1, Hd1. destruct (IH d1 _ s1 Hr1 Hd1 Hh Hq) as (s' & rs & d' & log' & -> & Hs & Ho & Hr' & Hd' & Hid').
    rewrite Hseq in Ho. exists s', (r <| q_index := s_localSeq s + 1 |> :: rs), d', log'.
    split_and!; [done|by etransitivity|by apply oc_commit|done|done|congruence].
Qed.

(** ** Admission *)

Definition admitted_as (fatal : option mvcc_error) (generation : Z) (r a : localCommitRequest) : Prop :=
  exists e, a = r <| q_err := e |> /\
    match e with
    | None => fatal = None /\ q_generation r = generation
    | Some e => fatal = Some e \/ (exists n, ctx_err n = Some e) \/ (q_generation r <> generation /\ e = ErrConflict)
    end.

Lemma admit_group_spec fatal group : forall s,
  exists s' admitted, admit_group fatal group s = (s', admitted) /\ same_store s s' /\ s_localSeq s' = s_localSeq s /\
    Forall2 (admitted_as fatal (s_generation s)) group admitted.
Proof.
  induction group as [|r group IH]; intros s; cbn [admit_group]; [by exists s, []|].
  assert (exists s1 a, admit_one fatal r s = (s1, a) /\ same_store s s1 /\ s_localSeq s1 = s_localSeq s /\
    admitted_as fatal (s_generation s) r a) as (s1 & a & -> & Hs1 & Hq1 & Ha).
  { unfold admit_one. destruct fatal as [e|].
    - exists s, (r <| q_err := Some e |>). split_and!; [done..|]. exists (Some e). split; [done|by left].
    - destruct (check_ctx_spec s) as (s1 & Hs1 & Hq1 & [->|(e & n & He & ->)]); eexists _, _; split_and!; try done.
      + eexists. split; [done|]. rewrite (ss_generation _ _ Hs1). destruct (Z.eqb_spec (q_generation r) (s_generation s)); cbn;
          [done|by right; right].
      + exists (Some e). split; [done|]. right. left. by exists n. }
  destruct (IH s1) as (s2 & rs & -> & Hs2 & Hq2 & Hrs). exists s2, (a :: rs).
  split_and!; [done|by etransitivity|congruence|]. constructor; [done|]. by rewrite (ss_generation _ _ Hs1) in Hrs.
Qed.

Lemma admitted_ok fatal g group admitted :
  Forall2 (admitted_as fatal g) group admitted -> Forall request_ok group -> Forall request_ok admitted.
Proof.
  induction 1 as [|r a group admitted (e & -> & _) _ IH]; [done|]. intros [[] Hg]%Forall_cons. constructor; [|by apply IH].
  by constructor.
Qed.

Lemma outcome_refused log seq rs : Forall (fun r => is_Some (q_err r)) rs -> outcome log seq rs rs log seq.
Proof. induction 1; by constructor. Qed.

(** The whole group failed: every request has an error. *)
Definition all_failed (group : list localCommitRequest) : Prop := Forall (fun r => is_Some (q_err r)) group.

Lemma fail_rest_all e group : all_failed (fail_rest e group).
Proof. apply Forall_fmap, Forall_forall. intros r _. cbn. destruct (q_err r) eqn:E; cbn; [rewrite E|]; eauto. Qed.

End Refinement.
