(* ===== verification/WalSteps.v ===== *)
(** * A commit group through the log

    What the local commit log holds, that reading it back gives what was written, and that a crash at
    any point leaves a disk that opens either with none of the group's commits or with all of them. *)

From stdpp Require Import gmap list sorting strings fin_maps.
From Stdlib Require Import Strings.Byte.
From S2P Require Import Prelude TxnState Bolt Keys Versions Visibility Layouts Conflict Store CommitLog Wal Group GroupSteps.

(** ** Admission over the changes of the group itself *)

Section Admission.
Context `{BoltLaws} `{GuardCodec} `{MapRange} `{Env} `{Digest}.

(** The map of accepted changes holds the newest commit of the group for each key. *)
Definition accepted_ok (accepted : gmap bytes Z) (new : list commit) : Prop :=
  forall k, accepted !! k = fst <$> abs_newest new k u64_max.

Lemma accept_ops_spec index ops accepted :
  Forall key_valid ops -> exists accepted', accept_ops index ops accepted = Ok accepted' /\
    forall k, accepted' !! k = if written k ops then Some index else accepted !! k.
Proof.
  revert accepted. induction ops as [|op ops IH]; intros accepted Hk; cbn [accept_ops].
  { exists accepted. by split. }
  apply Forall_cons in Hk as [Hk1 Hk].
  assert (forall k, written k (op :: ops) = match written k ops with Some v => Some v | None => written k [op] end) as Hw
    by (intros k; apply (written_app k [op] ops)).
  destruct (op_Check op) eqn:Hc.
  - destruct (IH accepted Hk) as (a & -> & Ha). exists a. split; [done|]. intros k. rewrite Ha, Hw, written_one.
    unfold writes_key. rewrite Hc. cbn. by destruct (written k ops).
  - unfold key_valid in Hk1. destruct (key (op_Space op) (op_Key op)) as [k0|] eqn:Ek; [|done]. cbn [rbind].
    destruct (IH (<[k0 := index]> accepted) Hk) as (a & -> & Ha). exists a. split; [done|].
    intros k. rewrite Ha, Hw, written_one. unfold writes_key. rewrite Hc, Ek. cbn.
    destruct (written k ops); [done|]. case_bool_decide as E; [subst; by rewrite lookup_insert_eq|].
    by rewrite lookup_insert_ne.
Qed.

Lemma accepted_snoc accepted new index id ops accepted' :
  accepted_ok accepted new -> index <= u64_max ->
  (forall k, accepted' !! k = if written k ops then Some index else accepted !! k) ->
  accepted_ok accepted' (new ++ [mkCommit index id ops]).
Proof.
  intros Ha Hi Hn k. rewrite Hn, abs_newest_snoc. destruct (written k ops) as [v|]; [|apply Ha].
  by rewrite (proj2 (Z.leb_le index u64_max) Hi).
Qed.

(** The lookup of the group, from any cache of the view's reader. *)
Definition group_latest (d : db) (accepted : gmap bytes Z) (k : bytes) : Z :=
  (newGroupChangeLookup (newViewChangeLookup d) accepted empty_cache k).2.

Lemma group_lookup_ok d accepted cache k :
  sound_db d -> cache_ok d cache ->
  cache_ok d (newGroupChangeLookup (newViewChangeLookup d) accepted cache k).1 /\
  (newGroupChangeLookup (newViewChangeLookup d) accepted cache k).2 = group_latest d accepted k.
Proof.
  intros [Hw _ Hp] Hc. unfold group_latest, newGroupChangeLookup.
  destruct (view_lookup_ok d cache k Hw Hp Hc) as [V2 V3].
  destruct (view_lookup_ok d empty_cache k Hw Hp (empty_cache_ok d)) as [V4 V5].
  destruct (newViewChangeLookup d cache k) as [c1 n1], (newViewChangeLookup d empty_cache k) as [c2 n2].
  cbn [fst snd] in *. subst n1 n2. by destruct (negb _).
Qed.

Lemma max_le_iff a b ts : (if a <? b then b else a) <= ts <-> a <= ts /\ b <= ts.
Proof. destruct (Z.ltb_spec a b); lia. Qed.

(** A changed key that a guard covers is a change of the guard. *)
Lemma guard_contains k changed :
  rangeDependencyContains (trim_prefix rangeGuardPrefix k) changed =
  match decodeRangeDependency (trim_prefix rangeGuardPrefix k) with None => true | Some dep => covers dep changed end.
Proof. unfold rangeDependencyContains, covers, rangeContains. by destruct (decodeRangeDependency _). Qed.

Lemma accepted_bound accepted new k ts :
  accepted_ok accepted new -> log_ordered new -> 0 <= ts ->
  (forall n, accepted !! k = Some n -> n <= ts) <->
  (forall c, c ∈ new -> is_Some (written k (c_ops c)) -> c_index c <= ts).
Proof.
  intros Ha Hn Hts. rewrite <- log_newest_bound by done. rewrite (Ha k).
  destruct (abs_newest new k u64_max) as [[n p]|]; cbn; [|by split]. split; [by intros Hx; apply Hx|by intros ? ? [= <-]].
Qed.

Lemma admissible_app log new ts k :
  admissible (log ++ new) ts k <-> admissible log ts k /\ forall c, c ∈ new -> touches k c -> c_index c <= ts.
Proof. unfold admissible. setoid_rewrite elem_of_app. naive_solver. Qed.

Lemma accepted_plain accepted new k :
  accepted_ok accepted new -> Forall plain_commit new -> is_Some (accepted !! k) -> has_prefix rangeGuardPrefix k = false.
Proof.
  intros Ha Hp [n Hn]. rewrite (Ha k) in Hn. destruct (abs_newest new k u64_max) as [[m p]|] eqn:E; [|done].
  apply newest_elem in E as (Hin & _). apply abs_history_elem in Hin as (c & Hc & _ & Hw).
  rewrite Forall_forall in Hp. by apply (written_plain k c p); [apply Hp|].
Qed.

Lemma group_fold_bound accepted k acc ts :
  foldl (group_step (trim_prefix rangeGuardPrefix k)) acc (range 0 accepted) <= ts <->
  acc <= ts /\ forall k' n, accepted !! k' = Some n ->
    rangeDependencyContains (trim_prefix rangeGuardPrefix k) k' = true -> n <= ts.
Proof.
  destruct (group_fold_spec (trim_prefix rangeGuardPrefix k) (range 0 accepted) acc) as (H1' & H2' & H3').
  split.
  - intros Hle. split; [lia|]. intros k' n Hn Hc. apply elem_of_range with (tick := 0%nat) in Hn. specialize (H2' k' n Hn Hc). lia.
  - intros [Ha Hk]. destruct H3' as [->|(k' & Hin & Hc)]; [done|]. apply elem_of_range in Hin. by apply (Hk k').
Qed.

(** Validation of a later request of the group sees the log and the group. *)
Lemma group_latest_admissible h d log seq accepted new ts k :
  represents h d log seq -> h <= u64_max -> 0 <= ts ->
  accepted_ok accepted new -> log_ordered new -> Forall plain_commit new ->
  group_latest d accepted k <= ts <-> admissible (log ++ new) ts k.
Proof.
  intros Hr Hh Hts Ha Hn Hp. pose proof (rp_sound _ _ _ _ Hr) as [Hw _ Hpl].
  rewrite admissible_app, <- (latest_change_admissible h d log seq) by done.
  unfold group_latest, newGroupChangeLookup.
  destruct (view_lookup_ok d empty_cache k Hw Hpl (empty_cache_ok d)) as [_ E].
  destruct (newViewChangeLookup d empty_cache k) as [c n]. cbn [snd] in E. subst n.
  pose proof (accepted_bound accepted new k ts Ha Hn Hts) as Hb. unfold touches.
  destruct (has_prefix rangeGuardPrefix k) eqn:Hk; cbn [negb snd].
  2: { rewrite <- Hb. destruct (accepted !! k) as [n|]; [|naive_solver]. rewrite max_le_iff.
       split; [intros [? ?]; split; [done|by intros ? [= <-]]|intros [? Hx]; split; [done|by apply Hx]]. }
  assert (accepted !! k = None) as ->.
  { destruct (accepted !! k) eqn:E; [|done]. pose proof (accepted_plain accepted new k Ha Hp ltac:(eauto)). congruence. }
  rewrite group_fold_bound. setoid_rewrite guard_contains.
  pose proof (proj2 Hn) as Hr'. rewrite Forall_forall in Hr'.
  destruct (decodeRangeDependency _) as [dep|] eqn:Hdec; [apply and_iff_compat_l|].
  - split.
    + intros Hc c' Hin (k' & Hcov & Hwr). apply (proj1 (accepted_bound accepted new k' ts Ha Hn Hts)); [|done..].
      intros n Hkn. by apply (Hc k').
    + intros Hc k' n Hkn Hcov. apply (proj2 (accepted_bound accepted new k' ts Ha Hn Hts)); [|done].
      intros c' Hin Hwr. apply Hc; [done|]. by exists k'.
  - unfold latest_change. rewrite visible_guard, Hdec by done. cbn. split.
    + intros [Hts' _]. split; [done|]. intros c' [_ Hc]%Hr' _. lia.
    + intros [Hts' _]. split; [done|]. intros k' n Hkn _.
      apply (proj2 (accepted_bound accepted new k' ts Ha Hn Hts)); [|done]. intros c' [_ Hc]%Hr' _. lia.
Qed.

Lemma group_verdict h d log seq accepted new cache r :
  represents h d log seq -> h <= u64_max -> request_ok r -> cache_ok d cache ->
  accepted_ok accepted new -> log_ordered new -> Forall plain_commit new ->
  let v := withBaseline (newConflictValidator (q_snapshot r)
             (newGroupChangeLookup (newViewChangeLookup d) accepted)) (q_baseline r) in
  cache_ok d (validateOps v cache (q_ops r)).1 /\
  ((validateOps v cache (q_ops r)).2 = Ok tt <-> may_commit (log ++ new) r).
Proof.
  intros Hr Hh Hq Hc Ha Hn Hp v. pose proof (rp_sound _ _ _ _ Hr) as Hd.
  destruct (validateOps_ok (cache_ok d) (newGroupChangeLookup (newViewChangeLookup d) accepted) (group_latest d accepted)
    ltac:(intros; by apply group_lookup_ok) (q_snapshot r) (q_baseline r) (q_ops r) cache Hc) as [Hc' Hv].
  split; [exact Hc'|]. etransitivity; [exact Hv|].
  unfold may_commit. apply Forall_iff. intros op. unfold unchanged. f_equiv. intros k. apply and_iff_compat_l.
  apply (group_latest_admissible h d log seq); try done. destruct (op_Check op); [apply Hq|by apply entitled_nonneg].
Qed.

(** What admission has accepted so far. *)
Record admitting (h : Z) (log new : list commit) (s : Store) (cache : list cacheEntry) (accepted : gmap bytes Z) : Prop := {
  ad_represents : represents h (s_db s) log (s_localSeq s);
  ad_cache : cache_ok (s_db s) cache;
  ad_accepted : accepted_ok accepted new;
  ad_order : StronglySorted Z.lt (c_index <$> new);
  ad_range : Forall (fun c => 0 < c_index c <= s_localSeq s) new;
  ad_plain : Forall plain_commit new
}.

Lemma admitting_ordered h log new s cache accepted : admitting h log new s cache accepted -> log_ordered new.
Proof.
  intros Hd. split; [apply Hd|]. pose proof (rp_seq _ _ _ _ (ad_represents _ _ _ _ _ _ Hd)) as [_ Hs].
  eapply Forall_impl; [apply (ad_range _ _ _ _ _ _ Hd)|]. unfold u64_max. cbn. lia.
Qed.

Lemma admitting_same h log new s s' cache cache' accepted :
  admitting h log new s cache accepted -> same_store s s' -> s_localSeq s' = s_localSeq s -> cache_ok (s_db s) cache' ->
  admitting h log new s' cache' accepted.
Proof. intros [] [E _ _ _ _ _] Hq Hc. constructor; rewrite ?E, ?Hq; done. Qed.

Lemma admitting_commit h log new s s' cache accepted accepted' r :
  admitting h log new s cache accepted -> same_store s s' -> s_localSeq s' = s_localSeq s + 1 -> s_localSeq s < u64_max ->
  request_ok r ->
  (forall k, accepted' !! k = if written k (q_ops r) then Some (s_localSeq s + 1) else accepted !! k) ->
  admitting h log (new ++ [mkCommit (s_localSeq s + 1) (q_id r) (q_ops r)]) s' cache accepted'.
Proof.
  intros [Hr Hc Ha Ho Hg Hp] [E _ _ _ _ _] Hq Hlt Hok Hacc. pose proof (rp_seq _ _ _ _ Hr) as Hu.
  constructor; rewrite ?E, ?Hq.
  - apply (represents_seq h _ log (s_localSeq s)); [done|lia|unfold is_u64, u64_max in *; lia].
  - done.
  - apply (accepted_snoc accepted); [done|lia|done].
  - rewrite fmap_app. apply order_snoc; [done|]. apply Forall_fmap. eapply Forall_impl; [exact Hg|]. cbn. lia.
  - apply Forall_app. split; [eapply Forall_impl; [exact Hg|]; cbn; lia|]. repeat constructor; cbn; [|lia].
    unfold is_u64 in Hu. lia.
  - apply Forall_app. split; [done|]. repeat constructor. apply Hok.
Qed.

Lemma wal_admit_one_spec h log new s cache accepted r :
  admitting h log new s cache accepted -> h <= u64_max -> request_ok r ->
  exists s' cache' r' accepted', wal_admit_one cache accepted r s = (s', cache', r', Ok accepted') /\ same_store s s' /\
  ((exists e, refusal (log ++ new) (s_localSeq s) r e /\ s_localSeq s' = s_localSeq s /\ r' = r <| q_err := Some e |> /\
      admitting h log new s' cache' accepted') \/
   (may_commit (log ++ new) r /\ s_localSeq s < u64_max /\ s_localSeq s' = s_localSeq s + 1 /\
    r' = r <| q_index := s_localSeq s + 1 |> /\
    admitting h log (new ++ [mkCommit (s_localSeq s + 1) (q_id r) (q_ops r)]) s' cache' accepted')).
Proof.
  intros Had Hh Hq. pose proof (admitting_ordered _ _ _ _ _ _ Had) as Hn. unfold wal_admit_one.
  destruct (check_ctx_spec s) as (s1 & Hs1 & Hq1 & [->|(e & n & He & ->)]).
  2: { eexists s1, cache, _, accepted. split_and!; [done|done|]. left. exists e. split_and!; [by left; exists n|done|done|].
       apply (admitting_same h log new s s1 cache); [done..|apply Had]. }
  rewrite (ss_db _ _ Hs1).
  destruct (group_verdict h (s_db s) log (s_localSeq s) accepted new cache r) as [Hc' Hv]; [apply Had|done|done|apply Had|apply Had|done|apply Had|].
  destruct (validateOps _ cache _) as [cache' [[]|e]]; cbn [fst snd] in *.
  2: { eexists s1, cache', _, accepted. split_and!; [done|done|]. left. exists e. split_and!; [|done|done|].
       - right. left. intros Hm. by apply Hv in Hm.
       - by apply (admitting_same h log new s s1 cache). }
  destruct (nextSequence_spec s1) as [[Hmax ->]|(Hmax & s2 & Hs2 & Hq2 & ->)]; rewrite Hq1 in *.
  { eexists s1, cache', _, accepted. split_and!; [done|done|]. left. exists ErrSequenceExhausted.
    split_and!; [by right; right|done|done|]. by apply (admitting_same h log new s s1 cache). }
  assert (may_commit (log ++ new) r) as Hm by by apply Hv.
  destruct (accept_ops_spec (s_localSeq s + 1) (q_ops r) accepted) as (acc & -> & Hacc); [by eapply may_commit_valid|].
  pose proof (rp_seq _ _ _ _ (ad_represents _ _ _ _ _ _ Had)) as Hu.
  assert (s_localSeq s < u64_max) as Hlt by (unfold is_u64, u64_max in *; lia).
  eexists s2, cache', _, acc. split_and!; [done|by etransitivity|]. right. split_and!; [done..|].
  apply (admitting_commit h log new s s2 cache' accepted); [|by etransitivity|done..].
  destruct Had. by constructor.
Qed.

Lemma wal_admit_spec h log todo : forall new cache accepted s,
  admitting h log new s cache accepted -> h <= u64_max -> Forall request_ok todo ->
  exists s' rs new', wal_admit cache accepted todo s = (s', rs, Ok tt) /\ same_store s s' /\
    outcome (log ++ new) (s_localSeq s) todo rs (log ++ new') (s_localSeq s') /\
    represents h (s_db s') log (s_localSeq s').
Proof.
  induction todo as [|r todo IH]; intros new cache accepted s Had Hh Hq; cbn [wal_admit].
  { exists s, [], new. split_and!; [done|done|constructor|apply Had]. }
  apply Forall_cons in Hq as [Hq1 Hq]. destruct (q_err r) as [e|] eqn:He.
  { destruct (IH new cache accepted s Had Hh Hq) as (s' & rs & new' & -> & Hs & Ho & Hr).
    exists s', (r :: rs), new'. split_and!; [done|done|apply oc_skip; [by rewrite He|done]|done]. }
  destruct (wal_admit_one_spec h log new s cache accepted r Had Hh Hq1)
    as (s1 & c1 & r1 & a1 & -> & Hs1 & [(e & Href & Hseq & -> & Had1)|(Hm & Hlt & Hseq & -> & Had1)]).
  - destruct (IH new c1 a1 s1 Had1 Hh Hq) as (s' & rs & new' & -> & Hs & Ho & Hr). rewrite Hseq in Ho.
    eexists s', (_ :: rs), new'. split_and!; [done|by etransitivity|by apply oc_refuse|done].
  - destruct (IH _ c1 a1 s1 Had1 Hh Hq) as (s' & rs & new' & -> & Hs & Ho & Hr). rewrite Hseq, app_assoc in Ho.
    eexists s', (_ :: rs), new'. split_and!; [done|by etransitivity|by apply oc_commit|done].
Qed.
End Admission.
