(* ===== verification/WalCodec.v ===== *)
(** * Writing and reading back the commit log

    The bytes a list of payloads is written as, and that [walkLocalWAL] accepts exactly such files:
    the whole file, with every checksum and the seal, and nothing after it. *)

From stdpp Require Import gmap list sorting strings fin_maps.
From Stdlib Require Import Strings.Byte.
From S2P Require Import Prelude TxnState Bolt Keys Versions Store Wal.

Section Codec.
Context `{DigestLaws}.

Definition encode_frame (p : bytes) : bytes := frame_header p ++ p.
Definition encode_frames (ps : list bytes) : bytes := concat (encode_frame <$> ps).

Definition seal_of (digest : bytes) : bytes := walSeal :: sha256 digest.

(** The file that holds the payloads. *)
Definition wal_file (identity : bytes) (ps : list bytes) : bytes :=
  localWALMagic ++ identity ++ encode_frames ps ++ encode_frame (seal_of (encode_frames ps)).

Lemma encode_frames_app a b : encode_frames (a ++ b) = encode_frames a ++ encode_frames b.
Proof. unfold encode_frames. by rewrite fmap_app, concat_app. Qed.

Lemma length_header p : length (frame_header p) = 8%nat.
Proof. unfold frame_header, be32. by rewrite length_app, !length_be_bytes. Qed.

Lemma be_val_be32 n : 0 <= n < 2 ^ 32 -> be_val (be32 n) = n.
Proof. intros Hn. unfold be32. rewrite be_val_bytes. by apply Z.mod_small. Qed.

Lemma header_parts p :
  take 4 (frame_header p) = be32 (blen p) /\ drop 4 (frame_header p) = be32 (crc32 p).
Proof.
  unfold frame_header. assert (length (be32 (blen p)) = 4%nat) as Hl by apply length_be_bytes.
  by rewrite take_app_length', drop_app_length'.
Qed.

(** A payload that fits a frame. *)
Definition frame_fits (p : bytes) : Prop := 1 <= blen p <= maxWALFrame.

Lemma read_full_app a b : read_full (length a) (a ++ b) = Ok (a, b).
Proof.
  unfold read_full. rewrite (proj2 (Nat.leb_le _ _)) by (rewrite length_app; lia).
  by rewrite take_app_length, drop_app_length.
Qed.

Lemma read_full_inv n data a b : read_full n data = Ok (a, b) -> data = a ++ b /\ length a = n.
Proof.
  unfold read_full. destruct (Nat.leb_spec n (length data)); [|done]. intros [= <- <-].
  rewrite take_drop. split; [done|]. rewrite length_take. lia.
Qed.

Lemma read_frame_encoded p rest :
  frame_fits p -> read_frame (encode_frame p ++ rest) = Ok (frame_header p, p, rest).
Proof.
  intros Hp. unfold read_frame, encode_frame. rewrite <- app_assoc.
  rewrite <- (length_header p). rewrite read_full_app. cbn [rbind fst snd].
  destruct (header_parts p) as [-> ->]. rewrite !be_val_be32;
    [|apply crc32_range|unfold frame_fits, maxWALFrame, MaxValueBytes in Hp; lia].
  unfold frame_fits in Hp. rewrite (proj2 (Z.ltb_ge (blen p) 1)), (proj2 (Z.ltb_ge maxWALFrame (blen p))) by lia. cbn [orb].
  unfold blen. rewrite Nat2Z.id, read_full_app. cbn [rbind fst snd]. by rewrite Z.eqb_refl.
Qed.

Lemma read_frame_inv data h p rest :
  read_frame data = Ok (h, p, rest) -> data = encode_frame p ++ rest /\ h = frame_header p /\ frame_fits p.
Proof.
  unfold read_frame. destruct (read_full 8 data) as [[h' d']|] eqn:E; cbn; [|done].
  apply read_full_inv in E as [-> Hh]. destruct (_ || _) eqn:Hn; [done|].
  destruct (read_full _ d') as [[p' r']|] eqn:E; cbn; [|done]. apply read_full_inv in E as [-> Hp].
  destruct (Z.eqb_spec (crc32 p') (be_val (drop 4 h'))) as [Hc|]; cbn; [|done]. intros [= <- <- <-].
  apply orb_false_iff in Hn as [Hn1%Z.ltb_ge Hn2%Z.ltb_ge].
  assert (blen p' = be_val (take 4 h')) as Hb by (unfold blen; lia).
  assert (h' = frame_header p') as ->.
  { unfold frame_header, be32. rewrite Hb, Hc. rewrite <- (take_drop 4 h') at 1. f_equal.
    - rewrite <- (be_bytes_val (take 4 h')) at 1. f_equal. rewrite length_take. lia.
    - rewrite <- (be_bytes_val (drop 4 h')) at 1. f_equal. rewrite length_drop. lia. }
  split_and!; [by rewrite app_assoc|done|]. unfold frame_fits. lia.
Qed.

(** ** The reader over payloads *)

Definition after_frame (r : wal_reader) (p : bytes) : wal_reader :=
  mkReader (wr_active r) (wr_previous r) (wr_digest r ++ encode_frame p).

(** One payload that is not the seal. *)
Definition reads (r : wal_reader) (p : bytes) (r' : wal_reader) : Prop :=
  frame_fits p /\ exists r0, check_frame r p [] = Ok (Some r0) /\ r' = after_frame r0 p.

Inductive reads_all : wal_reader -> list bytes -> wal_reader -> Prop :=
  | ra_nil r : reads_all r [] r
  | ra_cons r p r1 ps r2 : reads r p r1 -> reads_all r1 ps r2 -> reads_all r (p :: ps) r2.

Lemma reads_all_app r a r1 b r2 : reads_all r a r1 -> reads_all r1 b r2 -> reads_all r (a ++ b) r2.
Proof. induction 1; [done|]. intros Hb. econstructor; [done|by apply IHreads_all]. Qed.

(** Only the seal looks at what follows. *)
Lemma check_frame_rest r p rest r' : check_frame r p rest = Ok (Some r') <-> check_frame r p [] = Ok (Some r').
Proof.
  unfold check_frame. destruct p as [|c p]; [done|]. repeat (case_bool_decide; [done|]).
  case_bool_decide; [|done]. destruct (_ || _); [done|]. by repeat case_bool_decide.
Qed.

Lemma check_frame_digest r p rest r' : check_frame r p rest = Ok (Some r') -> wr_digest r' = wr_digest r.
Proof.
  unfold check_frame. destruct p as [|c p]; [done|].
  case_bool_decide; [destruct (_ || _); [done|by intros [= <-]]|].
  case_bool_decide; [destruct (_ || _); [done|]; destruct (_ || _); [done|]; destruct (stagedOpHeader _ _); [by intros [= <-]|done]|].
  case_bool_decide; [destruct (_ || _); [done|by intros [= <-]]|].
  case_bool_decide; [|done]. destruct (_ || _); [done|]. by case_bool_decide.
Qed.

Lemma reads_all_digest r ps r' : reads_all r ps r' -> wr_digest r' = wr_digest r ++ encode_frames ps.
Proof.
  induction 1 as [r|r p r1 ps r2 (_ & r0 & Hc & ->) _ IH]; [by rewrite app_nil_r|].
  rewrite IH. cbn. rewrite (check_frame_digest _ _ _ _ Hc). by rewrite <- app_assoc.
Qed.

Lemma seal_fits digest : frame_fits (seal_of digest).
Proof. unfold frame_fits, seal_of, blen. cbn [length]. rewrite sha256_length. unfold maxWALFrame, MaxValueBytes. lia. Qed.

Lemma check_seal r p rest :
  check_frame r p rest = Ok None <-> wr_active r = false /\ p = seal_of (wr_digest r) /\ rest = [].
Proof.
  unfold check_frame, seal_of. destruct p as [|c p]; [naive_solver|].
  case_bool_decide as H1; [subst c; destruct (_ || _); naive_solver|].
  case_bool_decide as H2; [subst c; destruct (_ || _); [naive_solver|]; destruct (_ || _); [naive_solver|];
    destruct (stagedOpHeader _ _); naive_solver|].
  case_bool_decide as H3; [subst c; destruct (_ || _); naive_solver|].
  case_bool_decide as H4; [subst c|naive_solver]. split.
  - destruct (wr_active r); [done|]. destruct (negb _) eqn:Hl; [done|]. cbn [orb].
    change (drop 1 (walSeal :: p)) with p. case_bool_decide; cbn [negb]; [|done]. case_bool_decide; cbn [negb]; [|done]. intros _. by subst.
  - intros (-> & [= ->] & ->). rewrite bool_decide_eq_true_2 by done.
    assert (blen (walSeal :: sha256 (wr_digest r)) = 33) as -> by (unfold blen; cbn [length]; rewrite sha256_length; lia).
    done.
Qed.

(** ** The loop over the frames *)

Context `{Bolt}.

Fixpoint visit_all {St} (visit : St -> bytes -> action St) (ps : list bytes) (st : St) : action St :=
  match ps with
  | [] => done st
  | p :: ps => let! st := visit st p in visit_all visit ps st
  end.

Lemma visit_all_app {St} (visit : St -> bytes -> action St) a b st s :
  visit_all visit (a ++ b) st s = then_do (visit_all visit a st) (visit_all visit b) s.
Proof.
  revert st s. induction a as [|p a IH]; intros st s; cbn [app visit_all]; [done|]. unfold then_do at 1 2 3.
  destruct (visit st p s) as [s' [st'|e]]; [apply IH|done].
Qed.

Lemma walk_frames_encoded {St} (visit : St -> bytes -> action St) ps : forall fuel r r' st s,
  reads_all r ps r' -> wr_active r' = false -> (length ps <= fuel)%nat ->
  walk_frames visit fuel r (encode_frames ps ++ encode_frame (seal_of (wr_digest r'))) st s = visit_all visit ps st s.
Proof.
  induction ps as [|p ps IH]; intros fuel r r' st s Hr Ha Hf; inversion Hr as [|? ? r1 ? ? (Hp & r0 & Hc & ->) Hrest]; subst.
  - rewrite <- (app_nil_r (encode_frame _)). cbn [encode_frames fmap list_fmap concat app].
    destruct fuel; cbn [walk_frames]; unfold then_do at 1, returns at 1;
      rewrite read_frame_encoded by apply seal_fits; unfold then_do at 1, returns at 1;
      rewrite (proj2 (check_seal r' _ [])) by done; done.
  - assert (encode_frames (p :: ps) = encode_frame p ++ encode_frames ps) as -> by done. rewrite <- app_assoc.
    destruct fuel as [|fuel]; [cbn in Hf; lia|]. cbn [walk_frames visit_all]. unfold then_do at 1, returns at 1.
    rewrite read_frame_encoded by done. unfold then_do at 1, returns at 1.
    rewrite (proj2 (check_frame_rest r p _ r0)) by done. unfold then_do.
    destruct (visit st p s) as [s1 [st1|e]]; [|done]. apply (IH fuel _ r'); [done|done|cbn in Hf; lia].
Qed.

Lemma walk_frames_inv {St} (visit : St -> bytes -> action St) fuel : forall r data st s s' st',
  walk_frames visit fuel r data st s = (s', Ok st') ->
  exists ps r', reads_all r ps r' /\ wr_active r' = false /\
    data = encode_frames ps ++ encode_frame (seal_of (wr_digest r')) /\ visit_all visit ps st s = (s', Ok st').
Proof.
  induction fuel as [|fuel IH]; intros r data st s s' st'; cbn [walk_frames]; unfold then_do, returns;
    destruct (read_frame data) as [[[h p] rest]|] eqn:Ef; try done;
    apply read_frame_inv in Ef as (-> & -> & Hfit);
    destruct (check_frame r p rest) as [[r0|]|] eqn:Ec; try done.
  1: by destruct (visit st p s) as [s1 [st1|e]] eqn:Ev.
  - apply check_seal in Ec as (Ha & -> & ->). intros [= <- <-]. exists [], r. rewrite app_nil_r.
    split_and!; [constructor|done..].
  - destruct (visit st p s) as [s1 [st1|e]] eqn:Ev; [|done]. intros Hw. apply IH in Hw as (ps & r' & Hr & Ha & -> & Hv).
    exists (p :: ps), r'. split_and!; [|done| |].
    + econstructor; [|exact Hr]. split; [done|]. exists r0. split; [by apply check_frame_rest in Ec|done].
    + by rewrite app_assoc.
    + cbn [visit_all]. unfold then_do. by rewrite Ev.
  - apply check_seal in Ec as (Ha & -> & ->). intros [= <- <-]. exists [], r. rewrite app_nil_r.
    split_and!; [constructor|done..].
Qed.

(** ** The whole file *)

Definition fresh_reader : wal_reader := mkReader false 0 [].

(** Payloads that form complete transactions. *)
Definition well_formed (ps : list bytes) : Prop := exists r', reads_all fresh_reader ps r' /\ wr_active r' = false.

Lemma wal_header identity rest :
  length identity = 32%nat ->
  take 8 (localWALMagic ++ identity ++ rest) = localWALMagic /\
  take 40 (localWALMagic ++ identity ++ rest) = localWALMagic ++ identity /\
  drop 40 (localWALMagic ++ identity ++ rest) = rest.
Proof.
  intros Hi. assert (length (localWALMagic ++ identity) = 40%nat) as Hl by (rewrite length_app, Hi; done).
  split_and!; [done|..]; rewrite app_assoc; [by rewrite take_app_length'|by rewrite drop_app_length'].
Qed.

Lemma encode_frames_length ps : (length ps <= length (encode_frames ps))%nat.
Proof.
  induction ps as [|p ps IH]; [done|]. assert (encode_frames (p :: ps) = encode_frame p ++ encode_frames ps) as -> by done.
  unfold encode_frame. rewrite !length_app, length_header. cbn. lia.
Qed.

Lemma walk_written {St} (visit : St -> bytes -> action St) identity ps st s :
  length identity = 32%nat -> well_formed ps ->
  walkLocalWAL (Some (wal_file identity ps)) identity visit st s = visit_all visit ps st s.
Proof.
  intros Hi (r' & Hr & Ha). unfold walkLocalWAL, wal_file.
  set (rest := encode_frames ps ++ _). destruct (wal_header identity rest Hi) as (E1 & E2 & E3).
  rewrite bool_decide_eq_false_2 by done. rewrite E1, E2, E3.
  assert (40 <= length (localWALMagic ++ identity ++ rest))%nat as Hlen by (rewrite !length_app, Hi; cbn; lia).
  rewrite (proj2 (Nat.ltb_ge _ _)) by done. rewrite bool_decide_eq_true_2 by done.
  rewrite bool_decide_eq_true_2 by done. cbn [orb negb]. subst rest.
  pose proof (reads_all_digest _ _ _ Hr) as Hd. cbn in Hd. pose proof (encode_frames_length ps).
  assert (seal_of (encode_frames ps) = seal_of (wr_digest r')) as -> by by rewrite Hd.
  apply walk_frames_encoded; [done|done|]. rewrite !length_app. lia.
Qed.

Lemma walk_accepted {St} (visit : St -> bytes -> action St) identity data st s s' st' :
  data <> [] -> walkLocalWAL (Some data) identity visit st s = (s', Ok st') ->
  exists ps, well_formed ps /\ data = wal_file identity ps /\ visit_all visit ps st s = (s', Ok st').
Proof.
  intros Hd. unfold walkLocalWAL. rewrite bool_decide_eq_false_2 by done. destruct (_ || _) eqn:E; [done|].
  apply orb_false_iff in E as [[Hl%Nat.ltb_ge Hm]%orb_false_iff Hid]. apply negb_false_iff in Hm, Hid. bool_prop.
  intros Hw. apply walk_frames_inv in Hw as (ps & r' & Hr & Ha & Hrest & Hv). exists ps. split_and!; [by exists r'| |done].
  pose proof (reads_all_digest _ _ _ Hr) as Hdg. cbn in Hdg. rewrite Hdg in Hrest. unfold wal_file. rewrite <- Hrest, app_assoc.
  rewrite <- (take_drop 40 data) at 1. f_equal. rewrite <- (take_drop 8 (take 40 data)).
  rewrite take_take, Hid. rewrite Nat.min_l by lia. by rewrite Hm.
Qed.
End Codec.
