(* ===== verification/WalFile.v ===== *)
(** * The log of a group of commits

    The payloads of a list of commits, and that the file [commitLocalWALGroup] writes holds them. *)

From stdpp Require Import gmap list sorting strings fin_maps.
From Stdlib Require Import Strings.Byte.
From S2P Require Import Prelude TxnState Bolt Keys Versions Visibility Layouts Conflict Store CommitLog Wal WalCodec.

Definition raw_key (op : Op) : bytes := op_Space op ++ [x00] ++ op_Key op.

Definition op_payload (op : Op) : bytes := op_frame (raw_key op) (encodeStagedOp op).

Definition commit_payloads (c : commit) : list bytes :=
  begin_frame (c_index c) (c_id c) :: (op_payload <$> c_ops c) ++ [[walEnd]].

Definition payloads (cs : list commit) : list bytes := mjoin (commit_payloads <$> cs).

(** A commit that fits the log. *)
Definition op_encodable (op : Op) : Prop :=
  key (op_Space op) (op_Key op) = Ok (raw_key op) /\
  is_ok (stagedOpHeader (raw_key op) (encodeStagedOp op)) = true /\ blen (op_payload op) <= maxWALFrame.

Record encodable (c : commit) : Prop := {
  ec_id : c_id c <> [] /\ blen (c_id c) <= 128;
  ec_index : is_u64 (c_index c) /\ c_index c <> 0;
  ec_ops : Forall op_encodable (c_ops c)
}.

Lemma key_raw op k : key (op_Space op) (op_Key op) = Ok k -> k = raw_key op.
Proof. by intros (-> & _)%key_ok. Qed.

Lemma encodable_valid c : encodable c -> Forall key_valid (c_ops c).
Proof. intros [_ _ Ho]. eapply Forall_impl; [exact Ho|]. intros op (Hk & _). unfold key_valid. by rewrite Hk. Qed.

Section File.
Context `{DigestLaws}.

(** ** Writing *)

(** The writer after more payloads. *)
Definition wrote (w : localWALWriter) (ps : list bytes) : localWALWriter :=
  mkWriter (ww_out w ++ encode_frames ps) (ww_digest w ++ encode_frames ps).

Lemma wrote_nil w : wrote w [] = w.
Proof. destruct w. unfold wrote. cbn. by rewrite !app_nil_r. Qed.

Lemma wrote_app w a b : wrote (wrote w a) b = wrote w (a ++ b).
Proof. unfold wrote. cbn. by rewrite !encode_frames_app, !app_assoc. Qed.

Lemma frame_wrote w p w' :
  head p <> Some walSeal -> frame w p = Ok w' <-> blen p <= maxWALFrame /\ w' = wrote w [p].
Proof.
  intros Hh. unfold frame, wrote. rewrite bool_decide_eq_false_2 by done.
  assert (encode_frames [p] = frame_header p ++ p) as -> by (unfold encode_frames, encode_frame; cbn; by rewrite app_nil_r).
  destruct (Z.ltb_spec maxWALFrame (blen p)); split; [done|lia|by intros [= <-]|by intros [_ ->]].
Qed.

Lemma wal_op_wrote w op w' :
  (let* k := key (op_Space op) (op_Key op) in wal_op w k (encodeStagedOp op)) = Ok w' <->
  op_encodable op /\ w' = wrote w [op_payload op].
Proof.
  unfold op_encodable, wal_op. destruct (key (op_Space op) (op_Key op)) as [k|] eqn:Hk; cbn [rbind]; [|naive_solver].
  pose proof (key_raw op k Hk) as ->. destruct (stagedOpHeader _ _) as [n|]; cbn [rbind is_ok]; [|naive_solver].
  rewrite frame_wrote by done. fold (op_payload op). naive_solver.
Qed.

Lemma wal_write_ops_wrote ops : forall w w',
  wal_write_ops ops w = Ok w' <-> Forall op_encodable ops /\ w' = wrote w (op_payload <$> ops).
Proof.
  induction ops as [|op ops IH]; intros w w'; cbn [wal_write_ops].
  { rewrite wrote_nil. split; [by intros [= <-]|by intros [_ ->]]. }
  rewrite Forall_cons. cbn [fmap list_fmap]. pose proof (wal_op_wrote w op) as Ho.
  destruct (key (op_Space op) (op_Key op)) as [k|]; cbn [rbind] in *.
  2: { split; [done|]. intros [[Hop _] _]. discriminate (proj2 (Ho (wrote w [op_payload op])) (conj Hop eq_refl)). }
  destruct (wal_op w k (encodeStagedOp op)) as [w1|] eqn:E; cbn [rbind].
  - destruct (proj1 (Ho w1) eq_refl) as [Hop ->]. rewrite IH, wrote_app. naive_solver.
  - split; [done|]. intros [[Hop _] _]. discriminate (proj2 (Ho (wrote w [op_payload op])) (conj Hop eq_refl)).
Qed.

Lemma wal_begin_wrote w index id w' :
  is_u64 index -> wal_begin w index id = Ok w' <->
  (id <> [] /\ blen id <= 128 /\ index <> 0) /\ w' = wrote w [begin_frame index id].
Proof.
  intros Hi. unfold wal_begin. destruct (_ || _) eqn:E.
  - split; [done|]. intros [(? & ? & ?) _]. exfalso. bool_prop; naive_solver lia.
  - rewrite frame_wrote by done. bool_prop. split; [naive_solver|]. intros [_ ->]. split; [|done].
    unfold begin_frame, blen in *. cbn [length]. rewrite length_app, length_sequence. unfold maxWALFrame, MaxValueBytes. lia.
Qed.

Lemma wal_write_commit_wrote c w w' :
  is_u64 (c_index c) ->
  (let* w := wal_begin w (c_index c) (c_id c) in
   let* w := wal_write_ops (c_ops c) w in frame w [walEnd]) = Ok w' <->
  encodable c /\ w' = wrote w (commit_payloads c).
Proof.
  intros Hi. unfold commit_payloads.
  assert (forall p ps, wrote w (p :: ps) = wrote (wrote w [p]) ps) as Hcons by (intros; by rewrite wrote_app).
  rewrite Hcons, <- wrote_app. pose proof (wal_begin_wrote w (c_index c) (c_id c)) as Hb.
  destruct (wal_begin w (c_index c) (c_id c)) as [w1|]; cbn [rbind].
  - destruct (proj1 (Hb w1 Hi) eq_refl) as [(H1 & H2 & H3) ->].
    pose proof (wal_write_ops_wrote (c_ops c) (wrote w [begin_frame (c_index c) (c_id c)])) as Ho.
    destruct (wal_write_ops _ _) as [w2|]; cbn [rbind].
    + destruct (proj1 (Ho w2) eq_refl) as [Hop ->]. rewrite frame_wrote by done. split.
      * intros [_ ->]. split; [by constructor|done].
      * intros [_ ->]. split; [|done]. unfold maxWALFrame, MaxValueBytes, blen. cbn. lia.
    + split; [done|]. intros [[_ _ He] _]. discriminate (proj2 (Ho (wrote (wrote w [begin_frame (c_index c) (c_id c)]) (op_payload <$> c_ops c))) (conj He eq_refl)).
  - split; [done|]. intros [[[? ?] [_ ?] _] _].
    by discriminate (proj2 (Hb (wrote w [begin_frame (c_index c) (c_id c)]) Hi)).
Qed.

Lemma wal_write_group_wrote group : forall w w',
  Forall (fun c => is_u64 (c_index c)) (commits_of group) ->
  wal_write_group group w = Ok w' <->
  Forall encodable (commits_of group) /\ w' = wrote w (payloads (commits_of group)).
Proof.
  induction group as [|r group IH]; intros w w'; cbn [wal_write_group].
  { intros _. rewrite wrote_nil. split; [by intros [= <-]|by intros [_ ->]]. }
  unfold commits_of. cbn [omap list_omap]. destruct (q_err r) as [e|]; [apply IH|].
  intros [Hi Hg]%Forall_cons. specialize (IH ltac:(exact w) w' Hg) as IH0.
  pose proof (fun w' => wal_write_commit_wrote (request_commit r) w w' Hi) as Hc.
  assert (forall x, (let* w := wal_begin w (q_index r) (q_id r) in
    let* w := wal_write_ops (q_ops r) w in let* w := frame w [walEnd] in wal_write_group group w) = Ok x <->
    exists w1, (let* w := wal_begin w (q_index r) (q_id r) in
      let* w := wal_write_ops (q_ops r) w in frame w [walEnd]) = Ok w1 /\ wal_write_group group w1 = Ok x) as Hx.
  { intros x. destruct (wal_begin _ _ _) as [w1|]; cbn [rbind]; [|naive_solver].
    destruct (wal_write_ops _ _) as [w2|]; cbn [rbind]; [|naive_solver].
    destruct (frame _ _); cbn [rbind]; naive_solver. }
  rewrite Hx. rewrite Forall_cons. unfold payloads. cbn [fmap list_fmap mjoin list_join].
  change (mjoin (commit_payloads <$> _)) with (payloads (commits_of group)). rewrite <- wrote_app. split.
  - intros (w1 & H1 & H2). apply Hc in H1 as [He ->]. apply IH in H2 as [Hes ->]; [|done]. done.
  - intros [[He Hes] ->]. exists (wrote w (commit_payloads (request_commit r))). split; [by apply Hc|]. by apply IH.
Qed.

(** ** The payloads form complete transactions *)

Lemma op_parts_payload k v : blen k < 2 ^ 32 -> op_parts (op_frame k v) = (k, v).
Proof.
  intros Hk. unfold op_parts, op_frame. assert (length (be32 (blen k)) = 4%nat) as Hl by apply length_be_bytes.
  change (drop 1 (walOp :: ?x)) with x. change (drop 5 (walOp :: ?x)) with (drop 4 x).
  rewrite take_app_length', drop_app_length' by done. rewrite be_val_be32 by (unfold blen in *; lia).
  unfold blen. by rewrite Nat2Z.id, take_app_length, drop_app_length.
Qed.

Lemma encoded_length op : 2 <= blen (encodeStagedOp op).
Proof. unfold blen, encodeStagedOp. cbn [length]. lia. Qed.

Lemma op_payload_length op : blen (op_payload op) = 5 + blen (raw_key op) + blen (encodeStagedOp op).
Proof.
  unfold op_payload, op_frame, blen. cbn [length]. rewrite !length_app. unfold be32. rewrite length_be_bytes. lia.
Qed.

Lemma raw_key_length op : 1 <= blen (raw_key op).
Proof. unfold raw_key, blen. rewrite !length_app. cbn [length]. lia. Qed.

Lemma op_parts_encodable op : op_encodable op -> op_parts (op_payload op) = (raw_key op, encodeStagedOp op).
Proof.
  intros (_ & _ & Hf). rewrite op_payload_length in Hf. pose proof (encoded_length op).
  apply op_parts_payload. unfold maxWALFrame, MaxValueBytes in Hf. lia.
Qed.

Lemma reads_op r op : wr_active r = true -> op_encodable op -> reads r (op_payload op) (after_frame r (op_payload op)).
Proof.
  intros Ha Hop. pose proof (op_parts_encodable op Hop) as Hp. pose proof Hop as (_ & Hs & Hf).
  pose proof (op_payload_length op) as Hlen. pose proof (encoded_length op). pose proof (raw_key_length op).
  split; [unfold frame_fits; lia|]. exists r. split; [|done].
  assert (be_val (take 4 (drop 1 (op_payload op))) = blen (raw_key op)) as Hn.
  { unfold op_payload, op_frame. change (drop 1 (walOp :: ?x)) with x.
    rewrite take_app_length' by (symmetry; apply length_be_bytes). apply be_val_be32.
    unfold maxWALFrame, MaxValueBytes, blen in *. lia. }
  unfold check_frame. change (op_payload op) with (walOp :: tail (op_payload op)) at 1. cbv iota.
  rewrite bool_decide_eq_false_2 by done. rewrite bool_decide_eq_true_2 by done. rewrite Ha, Hp, Hn. cbn [negb orb fst snd].
  rewrite (proj2 (Z.ltb_ge (blen (op_payload op)) 7)) by lia.
  rewrite (proj2 (Z.ltb_ge (blen (raw_key op)) 1)), (proj2 (Z.ltb_ge (blen (op_payload op) - 7) _)) by lia. cbn [orb].
  by destruct (stagedOpHeader _ _).
Qed.

Lemma reads_ops r ops : wr_active r = true -> Forall op_encodable ops ->
  exists r', reads_all r (op_payload <$> ops) r' /\ wr_active r' = true /\ wr_previous r' = wr_previous r.
Proof.
  intros Ha Ho. revert r Ha. induction Ho as [|op ops Hop Ho IH]; intros r Ha; cbn [fmap list_fmap].
  { exists r. by split; [constructor|]. }
  destruct (IH (after_frame r (op_payload op)) Ha) as (r' & Hr & Ha' & Hp). exists r'.
  split; [|done]. econstructor; [by apply reads_op|done].
Qed.

Lemma begin_index index id : is_u64 index -> number (take 8 (drop 1 (begin_frame index id))) = index /\ drop 9 (begin_frame index id) = id.
Proof.
  intros Hi. unfold begin_frame. change (drop 1 (walBegin :: ?x)) with x. change (drop 9 (walBegin :: ?x)) with (drop 8 x).
  rewrite take_app_length', drop_app_length' by (by rewrite length_sequence). by rewrite number_sequence.
Qed.

Lemma reads_commit r c :
  wr_active r = false -> wr_previous r < c_index c -> encodable c ->
  exists r', reads_all r (commit_payloads c) r' /\ wr_active r' = false /\ wr_previous r' = c_index c.
Proof.
  intros Ha Hp [[Hid Hlen] [Hu _] Ho]. unfold commit_payloads. destruct (begin_index (c_index c) (c_id c) Hu) as [Hn _].
  assert (blen (begin_frame (c_index c) (c_id c)) = 9 + blen (c_id c)) as Hb.
  { unfold begin_frame, blen. cbn [length]. rewrite length_app, length_sequence. lia. }
  assert (1 <= blen (c_id c)) as Hid1 by (destruct (c_id c); [done|unfold blen; cbn; lia]).
  set (r1 := mkReader true (c_index c) (wr_digest r)).
  destruct (reads_ops (after_frame r1 (begin_frame (c_index c) (c_id c))) (c_ops c)) as (r2 & Hr2 & Ha2 & Hp2); [done|done|].
  cbn in Hp2. exists (after_frame (mkReader false (wr_previous r2) (wr_digest r2)) [walEnd]).
  split_and!; [|done|done]. econstructor.
  - split; [unfold frame_fits, maxWALFrame, MaxValueBytes; lia|]. exists r1. split; [|done]. unfold check_frame.
    change (begin_frame (c_index c) (c_id c)) with (walBegin :: tail (begin_frame (c_index c) (c_id c))) at 1. cbv iota.
    rewrite bool_decide_eq_true_2 by done. rewrite Ha, Hn. cbn [orb].
    rewrite (proj2 (Z.ltb_ge _ 10)), (proj2 (Z.ltb_ge 137 _)), (proj2 (Z.leb_gt _ _)) by lia. done.
  - eapply reads_all_app; [exact Hr2|]. econstructor; [|constructor]. split; [done|].
    exists (mkReader false (wr_previous r2) (wr_digest r2)). split; [|done]. unfold check_frame. by rewrite Ha2.
Qed.

Lemma payloads_complete cs :
  StronglySorted Z.lt (c_index <$> cs) -> Forall (fun c => 0 < c_index c) cs -> Forall encodable cs -> well_formed (payloads cs).
Proof.
  intros Ho Hp He. unfold well_formed.
  assert (forall r, wr_active r = false -> Forall (fun c => wr_previous r < c_index c) cs ->
    exists r', reads_all r (payloads cs) r' /\ wr_active r' = false) as Hgen; [|by apply Hgen].
  clear Hp. induction cs as [|c cs IH]; intros r Ha Hlt; [by exists r; split; [constructor|]|].
  cbn in Ho. apply StronglySorted_inv in Ho as [Ho Hc]. apply Forall_cons in He as [He1 He], Hlt as [Hlt1 _].
  destruct (reads_commit r c Ha Hlt1 He1) as (r1 & Hr1 & Ha1 & Hp1).
  destruct (IH Ho He r1 Ha1) as (r' & Hr' & Ha'); [rewrite Hp1; by apply (Forall_fmap c_index (Z.lt (c_index c)))|].
  exists r'. split; [|done]. by apply (reads_all_app r (commit_payloads c) r1).
Qed.

(** ** The property *)

(** A visitor that collects the payloads. *)
Definition collect `{Bolt} (acc : list bytes) (p : bytes) : action (list bytes) := done (acc ++ [p]).

Lemma visit_collect `{Bolt} ps acc s : visit_all collect ps acc s = (s, Ok (acc ++ ps)).
Proof.
  revert acc. induction ps as [|p ps IH]; intros acc; cbn [visit_all]; [by rewrite app_nil_r|].
  unfold then_do, collect, done. fold (@done _ (list bytes)). rewrite IH. by rewrite <- app_assoc.
Qed.

(** C18: the log file of a group holds exactly the frames of its accepted commits under the seal of
    the store that wrote it; reading it back visits those frames, in order; and a file is accepted
    only if it is the whole, sealed file of complete transactions: a truncated, extended or foreign
    file is refused. *)
Theorem wal_file_exact `{Bolt} (identity : bytes) (group : list localCommitRequest) (w : localWALWriter) (s : Store) :
  length identity = 32%nat ->
  StronglySorted Z.lt (c_index <$> commits_of group) -> Forall (fun c => is_u64 (c_index c)) (commits_of group) ->
  wal_write_group group (mkWriter (localWALMagic ++ identity) []) = Ok w ->
  (let* w := frame w (seal_of (ww_digest w)) in Ok (ww_out w)) = Ok (wal_file identity (payloads (commits_of group))) /\
  walkLocalWAL (Some (wal_file identity (payloads (commits_of group)))) identity collect [] s
    = (s, Ok (payloads (commits_of group))) /\
  forall data ps, data <> [] ->
    walkLocalWAL (Some data) identity collect [] s = (s, Ok ps) <-> well_formed ps /\ data = wal_file identity ps.
Proof.
  intros Hid Ho Hu Hw. apply wal_write_group_wrote in Hw as [He ->]; [|done].
  assert (Forall (fun c => 0 < c_index c) (commits_of group)) as Hpos.
  { eapply Forall_impl; [apply Forall_and; split; [exact Hu|exact He]|]. intros c [[? ?] [_ [_ ?] _]]. lia. }
  split_and!.
  - unfold wrote, frame. cbn [ww_digest ww_out app]. rewrite (proj2 (Z.ltb_ge _ _)) by apply seal_fits.
    cbn [rbind ww_out]. unfold wal_file, encode_frame. by rewrite <- !app_assoc.
  - rewrite walk_written by (done || by apply payloads_complete). by rewrite visit_collect.
  - intros data ps Hd. split.
    + intros (ps' & Hc & -> & Hv)%walk_accepted; [|done]. rewrite visit_collect in Hv. cbn in Hv. by injection Hv as ->.
    + intros [Hc ->]. rewrite walk_written by done. by rewrite visit_collect.
Qed.
End File.

(** ** A log of one commit *)

#[local] Instance sample_digest : Digest := {
  crc32 := fun s => foldl Z.add 0 (bval <$> s) mod 2 ^ 32;
  sha256 := fun s => be_bytes 32 (be_val s)
}.

#[local] Instance sample_digest_laws : DigestLaws.
Proof.
  split; [intros s; apply Z.mod_pos_bound; lia|]. intros s. apply length_be_bytes.
Qed.

Definition sample_op : Op := mkOp (str "t") (str "row") (str "value") false false.

Definition sample_group : list localCommitRequest :=
  [mkRequest 0 4 (str "aborted") [] 0 0 (Some ErrConflict) None; mkRequest 0 4 (str "transaction") [sample_op] 0 5 None None].

Definition sample_store : Store := mkStore _ (mkDB _ b_empty b_empty b_empty b_empty b_empty None) None [] 5 None 0 true 0.

Lemma wal_file_exact_witness :
  walkLocalWAL (Some (wal_file (str "0123456789abcdef0123456789abcdef") (payloads (commits_of sample_group))))
    (str "0123456789abcdef0123456789abcdef") collect [] sample_store
  = (sample_store, Ok (payloads (commits_of sample_group))).
Proof.
  destruct (wal_write_group sample_group (mkWriter (localWALMagic ++ str "0123456789abcdef0123456789abcdef") [])) as [w|e] eqn:E;
    [|by vm_compute in E].
  destruct (wal_file_exact (str "0123456789abcdef0123456789abcdef") sample_group w sample_store) as (_ & Hr & _);
    [done|repeat constructor|repeat constructor; cbn; lia|exact E|exact Hr].
Defined.
