(* ===== verification/WalRecover.v ===== *)
(** * Installing the log, and recovering after a crash *)

From stdpp Require Import gmap list sorting strings fin_maps.
From Stdlib Require Import Strings.Byte.
From S2P Require Import Prelude TxnState Bolt Keys Versions Visibility Layouts Conflict Store CommitLog Wal WalCodec WalFile.

Lemma commit_eta c : mkCommit (c_index c) (c_id c) (c_ops c) = c.
Proof. by destruct c. Qed.

Lemma payloads_cons c cs : payloads (c :: cs) = commit_payloads c ++ payloads cs.
Proof. done. Qed.

Lemma payloads_app a b : payloads (a ++ b) = payloads a ++ payloads b.
Proof. induction a as [|c a IH]; [done|]. cbn [app]. by rewrite !payloads_cons, IH, app_assoc. Qed.

Section Recover.
Context `{BoltLaws} `{GuardCodec} `{Env} `{Digest} `{!DigestLaws}.

(** ** Batches of staged operations *)

Definition staged (op : Op) : bytes * bytes := (raw_key op, encodeStagedOp op).

Lemma staged_flags op : staged_check (encodeStagedOp op) = op_Check op /\ staged_value (encodeStagedOp op) = version_value op.
Proof.
  unfold staged_check, staged_value, staged_delete, version_value. rewrite encoded_flags.
  destruct (op_flags_cases op) as (_ & -> & -> & _). by destruct (op_Delete op).
Qed.

Definition keyed (op : Op) : Prop := key (op_Space op) (op_Key op) = Ok (raw_key op).

Lemma encodable_keyed ops : Forall op_encodable ops -> Forall keyed ops.
Proof. intros Ho. eapply Forall_impl; [exact Ho|]. by intros op [? _]. Qed.

Lemma install_batch_spec n ops : forall d,
  is_u64 n -> sound_db d -> Forall plain_op ops -> Forall keyed ops ->
  exists d', install_batch n (staged <$> ops) d = Ok d' /\ installed n ops d d'.
Proof.
  induction ops as [|op ops IH]; intros d Hn Hd Hp He; cbn [fmap list_fmap install_batch staged].
  { exists d. split; [done|by apply installed_nil]. }
  apply Forall_cons in Hp as [Hp1 Hp], He as [Hk He].
  destruct (staged_flags op) as [-> ->]. destruct (op_Check op) eqn:Hc.
  - destruct (IH d Hn Hd Hp He) as (d' & -> & Hi). exists d'. split; [done|].
    apply (installed_app n [op] ops d d); [by apply installed_check|done].
  - destruct (install_one n op (raw_key op) d) as (d1 & -> & I1); [done..|]. cbn [rbind].
    destruct (IH d1 Hn (in_sound _ _ _ _ I1) Hp He) as (d' & -> & Hi).
    exists d'. split; [done|]. by apply (installed_app n [op] ops d d1).
Qed.

(** ** What the disk may hold while a log is installed *)

(** The writes [done] of the next commit are installed, over any that an earlier attempt left. *)
Definition partly (h : Z) (d : db) (log : list commit) (c : commit) (done : list Op) : Prop :=
  durable h d log /\
  exists d0 seq pre, represents h d0 log seq /\ seq < c_index c /\ installed (c_index c) (pre ++ done) d0 d /\
    forall k, is_Some (written k pre) -> is_Some (written k (c_ops c)).

(** The next commit of the log is not published, perhaps partly installed. *)
Definition stands (h : Z) (d : db) (log : list commit) (c : commit) : Prop := partly h d log c [].

(** A commit the log may hold. *)
Record good_commit (c : commit) : Prop := {
  gc_encodable : encodable c;
  gc_plain : plain_commit c;
  gc_id : length (c_id c) <> 8%nat
}.

Lemma partly_stands h d log c done rest : partly h d log c done -> c_ops c = done ++ rest -> stands h d log c.
Proof.
  intros [Hd (d0 & seq & pre & Hr & Hs & Hi & Hc)] E. split; [done|]. exists d0, seq, (pre ++ done).
  rewrite app_nil_r. split_and!; [done..|]. intros k. rewrite written_app, E, written_app.
  specialize (Hc k). rewrite E, written_app in Hc. destruct (written k rest); [eauto|].
  destruct (written k done); [eauto|]. exact Hc.
Qed.

Lemma represents_stands h d log seq c : durable h d log -> represents h d log seq -> seq < c_index c -> stands h d log c.
Proof.
  intros Hd Hr Hs. split; [done|]. exists d, seq, []. split_and!; [done|done| |by intros k [? ?]].
  apply installed_nil, Hr.
Qed.

Lemma durable_kept h d d0 log seq n ops :
  represents h d0 log seq -> seq < n -> is_u64 n -> installed n ops d0 d -> n <= opening_sequence d -> durable h d log.
Proof. intros Hr Hs Hu Hi Ho. exists n. split; [done|]. by apply (represents_installed h d0 log seq n ops). Qed.

(** ** One transaction of the log *)

Section OneCommit.
Context (h : Z) (log : list commit) (c : commit) (identity : bytes) (W : option bytes) (D : disk -> Prop).
Context (Hgood : good_commit c) (Hfresh : c_id c ∉ (c_id <$> log)).

(** After publication. *)
Definition committed_db (d : db) : Prop :=
  represents h d (log ++ [c]) (c_index c) /\ c_index c <= opening_sequence d.

Context (D_stands : forall d, stands h d log c -> wal_identity d = identity -> D (d, W)).
Context (D_committed : forall d, committed_db d -> wal_identity d = identity -> D (d, W)).

Let n : Z := c_index c.

Lemma index_u64 : is_u64 n /\ n <> 0.
Proof. apply Hgood. Qed.

(** Between the frames of the transaction: [flushed] is installed, [batched] waits. *)
Record between (flushed batched rest : list Op) (s : Store) (st : wal_install) : Prop := {
  bt_ops : c_ops c = flushed ++ batched ++ rest;
  bt_batch : wi_batch st = staged <$> batched;
  bt_state : wi_index st = n /\ wi_id st = c_id c /\ wi_skip st = false;
  bt_partly : partly h (s_db s) log c flushed;
  bt_identity : wal_identity (s_db s) = identity;
  bt_wal : s_wal s = W;
  bt_sequence : n <= s_localSeq s /\ is_u64 (s_localSeq s)
}.

Lemma between_disk flushed batched rest s st : between flushed batched rest s st -> D (disk_of s).
Proof.
  intros [Ho _ _ Hp Hi Hw _]. unfold disk_of. rewrite Hw. apply D_stands; [|done].
  by apply (partly_stands h _ log c flushed (batched ++ rest)).
Qed.

Lemma opening_allocated d m : is_u64 m -> m <= opening_sequence (put_meta meta_allocated m d).
Proof. intros Hm. unfold opening_sequence. rewrite !meta_number_put by done. rewrite (decide_True (P := meta_allocated = _)) by done. lia. Qed.

Lemma identity_kept d d' : rest_kept d d' -> wal_identity d' = wal_identity d.
Proof. intros Hr. unfold wal_identity. by rewrite (rk_meta _ _ Hr). Qed.

(** The batch reaches the database in one transaction. *)
Lemma flush_db flushed batched rest s st :
  between flushed batched rest s st ->
  exists d, install_batch n (wi_batch st)
      (put_meta meta_allocated (Z.max n (meta_number meta_allocated (s_db s))) (s_db s)) = Ok d /\
    partly h d log c (flushed ++ batched) /\ wal_identity d = identity.
Proof.
  intros [Ho Hb _ [Hd (d0 & seq & pre & Hr & Hs & Hi & Hc)] Hid _ _]. rewrite Hb.
  set (m := Z.max n (meta_number meta_allocated (s_db s))). destruct index_u64 as [Hu _].
  pose proof (number_range (raw (b_get (d_meta (s_db s)) meta_allocated))) as Hal. fold (meta_number meta_allocated (s_db s)) in Hal.
  assert (n <= m <= u64_max) as Hm by (unfold is_u64, u64_max in *; lia).
  assert (is_u64 m) as Hmu by (unfold is_u64, u64_max in *; lia).
  pose proof (put_meta_allocated n m (s_db s) Hmu ltac:(lia) (in_sound _ _ _ _ Hi)) as I1.
  destruct (install_batch_spec n batched (put_meta meta_allocated m (s_db s))) as (d & -> & I2); [done|apply I1|..].
  { pose proof (gc_plain _ Hgood) as Hp. unfold plain_commit in Hp. rewrite Ho, !Forall_app in Hp. tauto. }
  { pose proof (ec_ops _ (gc_encodable _ Hgood)) as Hp. rewrite Ho, !Forall_app in Hp. apply encodable_keyed, Hp. }
  exists d. split; [done|].
  pose proof (installed_app n _ [] d0 _ _ Hi I1) as I3. rewrite app_nil_r in I3.
  pose proof (installed_app n _ _ d0 _ _ I3 I2) as I4. rewrite <- app_assoc in I4.
  assert (n <= opening_sequence d) as Hop.
  { pose proof (opening_allocated (s_db s) m Hmu). pose proof (rest_kept_opening _ _ (in_rest _ _ _ _ I2)). lia. }
  split; [|by rewrite (identity_kept _ _ (in_rest _ _ _ _ I2)), (identity_kept _ _ (in_rest _ _ _ _ I1))].
  split; [by apply (durable_kept h d d0 log seq n (pre ++ flushed ++ batched))|]. by exists d0, seq, pre.
Qed.

Lemma flush_safe flushed batched rest s st :
  between flushed batched rest s st ->
  safe D (flush_install st) s (between (flushed ++ batched) [] rest).
Proof.
  intros Hb. pose proof (between_disk _ _ _ _ _ Hb) as Hd. unfold flush_install. case_bool_decide as He.
  { apply safe_done. destruct Hb as [Ho Hba Hst Hp Hi Hw Hs]. rewrite He in Hba. symmetry in Hba. apply fmap_nil_inv in Hba.
    subst batched. rewrite app_nil_r. by constructor. }
  destruct (flush_db _ _ _ _ _ Hb) as (d & Hib & Hp & Hid). destruct Hb as [Ho Hba (Hn & Hc & Hsk) _ _ Hw Hs].
  apply (safe_bind D _ _ _ (fun s' _ => with_db d s s')).
  - apply (safe_update D _ s d tt); [|done| |done].
    + rewrite Hn. unfold then_do, returns, done. by rewrite Hib.
    + rewrite Hw. apply D_stands; [|done]. apply (partly_stands h d log c (flushed ++ batched) rest); [done|].
      by rewrite Ho, app_assoc.
  - intros s' [] (Hdb & Hw' & Hs'). apply safe_done. constructor; try done; rewrite ?Hdb, ?Hw', ?Hs'; try done.
    by rewrite Ho, app_assoc.
Qed.

Lemma begin_safe s st :
  stands h (s_db s) log c -> wal_identity (s_db s) = identity -> s_wal s = W -> wi_batch st = [] -> is_u64 (s_localSeq s) ->
  safe D (install_visit st (begin_frame (c_index c) (c_id c))) s (between [] [] (c_ops c)).
Proof.
  intros Hst Hid Hw Hb Hsu. destruct index_u64 as [Hu Hn0]. unfold install_visit.
  change (begin_frame (c_index c) (c_id c)) with (walBegin :: tail (begin_frame (c_index c) (c_id c))) at 1. cbv iota.
  rewrite bool_decide_eq_true_2 by done. unfold install_begin.
  cbv zeta. destruct (begin_index (c_index c) (c_id c) Hu) as [-> ->]. unfold safe at 1. cbv beta.
  assert (number (raw (b_get (d_commits (s_db s)) (c_id c))) = 0 /\ Head (s_db s) < n) as [-> Hh].
  { destruct Hst as [_ (d0 & seq & pre & Hr & Hs & Hi & _)].
    rewrite (rk_commits _ _ (in_rest _ _ _ _ Hi)), (rest_kept_head _ _ (in_rest _ _ _ _ Hi)), (rp_head _ _ _ _ Hr).
    rewrite (rp_ids _ _ _ _ Hr) by apply Hgood. split.
    - assert (filter (fun c' => c_id c' = c_id c) log = []) as ->; [|done].
      destruct (filter _ log) as [|c' l] eqn:E; [done|].
      assert (c' ∈ filter (fun c' => c_id c' = c_id c) log) as [Hc Hin]%list_elem_of_filter by (rewrite E; by left).
      exfalso. apply Hfresh. rewrite <- Hc. by apply list_elem_of_fmap_2.
    - pose proof (rp_indexes _ _ _ _ Hr) as Hx. unfold n. destruct (last (c_index <$> log)) as [m|] eqn:E; cbn.
      + apply last_Some in E as [l E]. assert (m ∈ c_index <$> log) as Hin by (rewrite E; apply elem_of_app; right; by left).
        apply list_elem_of_fmap in Hin as (c' & -> & Hin). rewrite Forall_forall in Hx. apply Hx in Hin. lia.
      + unfold is_u64, n in *. lia. }
  cbn [Z.eqb negb]. change (c_index c) with n. rewrite (proj2 (Z.leb_gt n (Head (s_db s)))) by done.
  unfold then_do, raise_sequence, done. split; [constructor; cbn; [done|done|lia]|]. split; [by exists []|].
  constructor; cbn; try done. unfold is_u64, n in *. lia.
Qed.

Lemma op_safe flushed batched op rest s st :
  between flushed batched (op :: rest) s st ->
  safe D (install_visit st (op_payload op)) s (fun s' st' => exists flushed' batched', between flushed' batched' rest s' st').
Proof.
  intros Hb. unfold install_visit. change (op_payload op) with (walOp :: tail (op_payload op)) at 1. cbv iota.
  rewrite bool_decide_eq_false_2 by done. rewrite bool_decide_eq_true_2 by done.
  destruct (bt_state _ _ _ _ _ Hb) as (_ & _ & ->).
  assert (op_encodable op) as He.
  { pose proof (ec_ops _ (gc_encodable _ Hgood)) as Hp. rewrite (bt_ops _ _ _ _ _ Hb), !Forall_app, Forall_cons in Hp. tauto. }
  unfold install_op. rewrite (op_parts_encodable op He).
  apply (safe_bind D _ _ _ (fun s' st' => exists flushed' batched', between flushed' batched' (op :: rest) s' st')).
  - destruct (_ <? _); [|apply safe_done; eauto].
    eapply safe_mono; [by apply (flush_safe flushed batched (op :: rest))|]. cbn. eauto.
  - intros s' st' (f & b & [Ho Hba Hst Hp Hi Hw Hs]). apply safe_done. exists f, (b ++ [op]).
    constructor; try done; [by rewrite Ho, <- app_assoc|]. cbn. by rewrite Hba, fmap_app.
Qed.

Lemma ops_safe rest : forall flushed batched s st,
  between flushed batched rest s st ->
  safe D (visit_all install_visit (op_payload <$> rest) st) s (fun s' st' => exists flushed' batched', between flushed' batched' [] s' st').
Proof.
  induction rest as [|op rest IH]; intros flushed batched s st Hb; cbn [fmap list_fmap visit_all].
  { apply safe_done. eauto. }
  eapply safe_bind; [by apply (op_safe flushed batched)|]. intros s' st' (f & b & Hb'). by apply (IH f b).
Qed.

(** After the transaction. *)
Definition installed_c (s : Store) (st : wal_install) : Prop :=
  committed_db (s_db s) /\ wal_identity (s_db s) = identity /\ s_wal s = W /\ (n <= s_localSeq s /\ is_u64 (s_localSeq s)) /\ wi_batch st = [].

Lemma end_safe flushed batched s st :
  between flushed batched [] s st -> safe D (install_visit st [walEnd]) s installed_c.
Proof.
  intros Hb. unfold install_visit. rewrite !bool_decide_eq_false_2 by done. rewrite bool_decide_eq_true_2 by done.
  destruct (bt_state _ _ _ _ _ Hb) as (_ & _ & ->). unfold install_end.
  eapply safe_bind; [by apply (flush_safe flushed batched [])|]. intros s1 st1 Hb1.
  pose proof (between_disk _ _ _ _ _ Hb1) as Hd1. destruct Hb1 as [Ho Hba (Hn & Hc & Hsk) [Hdu (d0 & seq & pre & Hr & Hs & Hi & Hcov)] Hid Hw Hseq].
  destruct index_u64 as [Hu _]. rewrite app_nil_r in Ho.
  destruct (publishCommit_spec (s_db s1) (c_id c) n (wi_catalog st1)) as (d & Hpub & Hp); [done|apply (ec_id _ (gc_encodable _ Hgood))|].
  assert (committed_db d) as Hcd.
  { rewrite <- Ho in Hi. apply installed_cover in Hi; [|done]. split.
    - pose proof (represents_published h d0 log seq n (c_ops c) (s_db s1) (c_id c) d Hr Hs Hu (gc_id _ Hgood) Hi Hp) as Hx.
      unfold n in Hx. by rewrite commit_eta in Hx.
    - unfold opening_sequence. change (meta_number meta_applied d) with (Applied d). rewrite (pb_applied _ _ _ _ Hp). unfold n. lia. }
  assert (wal_identity d = identity) as Hid' by (unfold wal_identity; by rewrite (pb_identity _ _ _ _ Hp)).
  apply (safe_bind D _ _ _ (fun s' _ => with_db d s1 s')).
  - apply (safe_update D _ s1 d tt); [|done| |done].
    + rewrite Hn, Hc. unfold then_do, returns, done. by rewrite Hpub.
    + rewrite Hw. by apply D_committed.
  - intros s' [] (Hdb & Hw' & Hs'). apply safe_done. unfold installed_c. rewrite Hdb, Hw', Hs', Hba. done.
Qed.

Lemma commit_safe s st :
  stands h (s_db s) log c -> wal_identity (s_db s) = identity -> s_wal s = W -> wi_batch st = [] -> is_u64 (s_localSeq s) ->
  safe D (visit_all install_visit (commit_payloads c) st) s installed_c.
Proof.
  intros Hst Hid Hw Hb Hsu. unfold commit_payloads. cbn [visit_all].
  eapply safe_bind; [by apply begin_safe|]. intros s1 st1 Hb1.
  eapply safe_eq; [apply visit_all_app|]. eapply safe_bind; [by apply (ops_safe (c_ops c) [] [])|]. intros s2 st2 (f & b & Hb2). cbn [visit_all].
  eapply safe_bind; [by apply (end_safe f b)|]. intros s3 st3 Hs3. by apply safe_done.
Qed.
End OneCommit.

(** ** Transactions that are published already *)

Lemma skip_ops ops : forall s st,
  wi_skip st = true -> visit_all install_visit ((op_payload <$> ops) ++ [[walEnd]]) st s = (s, Ok st).
Proof.
  induction ops as [|op ops IH]; intros s st Hs; cbn [fmap list_fmap app visit_all]; unfold then_do, install_visit.
  - rewrite !bool_decide_eq_false_2 by done. rewrite bool_decide_eq_true_2 by done. by rewrite Hs.
  - change (op_payload op) with (walOp :: tail (op_payload op)). cbv iota.
    rewrite bool_decide_eq_false_2 by done. rewrite bool_decide_eq_true_2 by done. rewrite Hs. by apply IH.
Qed.

Definition raised (index : Z) (s : Store) : Store := s <| s_localSeq ::= Z.max index |>.

Lemma skip_commit c s st :
  is_u64 (c_index c) -> c_index c <> 0 -> b_get (d_commits (s_db s)) (c_id c) = Some (sequence (c_index c)) -> wi_batch st = [] ->
  exists st', visit_all install_visit (commit_payloads c) st s = (raised (c_index c) s, Ok st') /\ wi_batch st' = [].
Proof.
  intros Hu Hn Hc Hb. unfold commit_payloads. cbn [visit_all].
  eexists. split; [|shelve]. unfold then_do at 1. unfold install_visit at 1.
  change (begin_frame (c_index c) (c_id c)) with (walBegin :: tail (begin_frame (c_index c) (c_id c))) at 1. cbv iota.
  rewrite bool_decide_eq_true_2 by done. unfold install_begin. cbv zeta.
  destruct (begin_index (c_index c) (c_id c) Hu) as [-> ->]. rewrite Hc. change (raw (Some (sequence (c_index c)))) with (sequence (c_index c)).
  rewrite number_sequence by done. rewrite (proj2 (Z.eqb_neq _ _)) by done. rewrite Z.eqb_refl. cbn [negb].
  unfold then_do at 1, raise_sequence. unfold done at 1. by apply skip_ops.
  Unshelve. done.
Qed.

(** The commits of the log, increasing and fresh. *)
Record loggable (log cs : list commit) : Prop := {
  lg_good : Forall good_commit cs;
  lg_order : StronglySorted Z.lt (c_index <$> cs);
  lg_ids : NoDup (c_id <$> cs);
  lg_fresh : forall c, c ∈ cs -> c_id c ∉ c_id <$> log
}.

Lemma loggable_tail log c cs : loggable log (c :: cs) -> loggable (log ++ [c]) cs.
Proof.
  intros [[_ Hg]%Forall_cons Ho Hi Hf]. cbn in Ho, Hi. apply NoDup_cons in Hi as [Hi1 Hi].
  apply StronglySorted_inv in Ho as [Ho _]. constructor; [done..|]. intros c' Hc'. rewrite fmap_app, elem_of_app. cbn.
  rewrite list_elem_of_singleton. intros [Hin|E]; [by apply (Hf c'); [right|]|]. apply Hi1. rewrite <- E.
  by apply list_elem_of_fmap_2.
Qed.

Lemma committed_found h d log ds seq c rest :
  represents h d (log ++ ds) seq -> loggable log (ds ++ rest) -> c ∈ ds ->
  b_get (d_commits d) (c_id c) = Some (sequence (c_index c)).
Proof.
  intros Hr Hl Hc. pose proof (lg_good _ _ Hl) as Hg. rewrite Forall_app, !Forall_forall in Hg. destruct Hg as [Hg _].
  rewrite (rp_ids _ _ _ _ Hr) by (by apply Hg). apply list_elem_of_split in Hc as (l1 & l2 & ->).
  pose proof (lg_ids _ _ Hl) as Hnd. rewrite !fmap_app in Hnd. cbn in Hnd.
  apply NoDup_app in Hnd as (Hnd & _ & _). apply NoDup_app in Hnd as (_ & _ & Hnd). apply NoDup_cons in Hnd as [Hnd _].
  rewrite app_assoc, filter_app, filter_cons, decide_True by done.
  assert (filter (fun c' => c_id c' = c_id c) l2 = []) as ->; [|by rewrite last_snoc].
  destruct (filter _ l2) as [|c' l] eqn:E; [done|].
  assert (c' ∈ filter (fun c' => c_id c' = c_id c) l2) as [Hid Hin]%list_elem_of_filter by (rewrite E; by left).
  exfalso. apply Hnd. rewrite <- Hid. by apply list_elem_of_fmap_2.
Qed.

Lemma skip_all ds : forall s st,
  Forall good_commit ds -> (forall c, c ∈ ds -> b_get (d_commits (s_db s)) (c_id c) = Some (sequence (c_index c))) ->
  wi_batch st = [] ->
  exists n st', visit_all install_visit (payloads ds) st s = (s <| s_localSeq := n |>, Ok st') /\
    s_localSeq s <= n /\ (is_u64 (s_localSeq s) -> is_u64 n) /\ wi_batch st' = [].
Proof.
  induction ds as [|c ds IH]; intros s st Hg Hc Hb.
  { exists (s_localSeq s), st. split_and!; [by destruct s|lia|done|done]. }
  apply Forall_cons in Hg as [[[_ [Hu Hn] _] _ _] Hg].
  destruct (skip_commit c s st) as (st1 & E1 & Hb1); [done|done|apply Hc; by left|done|].
  destruct (IH (raised (c_index c) s) st1) as (n & st' & E2 & Hle & Hun & Hb'); [done|intros; apply Hc; by right|done|].
  exists n, st'. rewrite payloads_cons, visit_all_app. unfold then_do. rewrite E1, E2. cbn in Hle, Hun. split_and!; [done|lia| |done].
  intros Hs. apply Hun. unfold is_u64 in *. lia.
Qed.

(** ** The whole log *)

(** The database is ready for the commits [rest]. *)
Definition ready (h : Z) (d : db) (log rest : list commit) : Prop :=
  match rest with
  | [] => durable h d log
  | c :: _ => stands h d log c
  end.

Definition clean (w : option bytes) : Prop := w = None \/ w = Some [].

(** What a disk stands for: the log of its database, or the log and the file of commits beside it,
    the first of which ([ds]) the database may hold already. *)
Definition disk_stands (h : Z) (L : list commit) (x : disk) : Prop :=
  length (wal_identity x.1) = 32%nat /\
  (clean x.2 /\ durable h x.1 L \/
   exists log ds rest, L = log ++ ds ++ rest /\ x.2 = Some (wal_file (wal_identity x.1) (payloads (ds ++ rest))) /\
     loggable log (ds ++ rest) /\ ready h x.1 (log ++ ds) rest).

Lemma published_ready h d log c cs : committed_db h log c d -> StronglySorted Z.lt (c_index <$> c :: cs) -> ready h d (log ++ [c]) cs.
Proof.
  intros [Hr Ho] Hs. assert (durable h d (log ++ [c])) as Hd by (by exists (c_index c)).
  destruct cs as [|c' cs]; [done|]. cbn in Hs. apply StronglySorted_inv in Hs as [_ [Hlt _]%Forall_cons].
  by apply (represents_stands h d (log ++ [c]) (c_index c)).
Qed.

Lemma rest_safe h identity W D rest : forall log s st,
  (forall d ds rest', rest = ds ++ rest' -> ready h d (log ++ ds) rest' -> wal_identity d = identity -> D (d, W)) ->
  loggable log rest -> ready h (s_db s) log rest -> (rest = [] -> represents h (s_db s) log (s_localSeq s)) ->
  is_u64 (s_localSeq s) ->
  wal_identity (s_db s) = identity -> s_wal s = W -> wi_batch st = [] ->
  safe D (visit_all install_visit (payloads rest) st) s (fun s' _ =>
    durable h (s_db s') (log ++ rest) /\ represents h (s_db s') (log ++ rest) (s_localSeq s') /\
    wal_identity (s_db s') = identity /\ s_wal s' = W).
Proof.
  induction rest as [|c rest IH]; intros log s st HD Hl Hr Hseq Hu Hid Hw Hb.
  { rewrite app_nil_r. apply safe_done. split_and!; [done|by apply Hseq|done|done]. }
  pose proof (lg_good _ _ Hl) as [Hg _]%Forall_cons. rewrite payloads_cons.
  eapply safe_eq; [apply visit_all_app|].
  eapply safe_bind; [apply (commit_safe h log c identity W D)|].
  - done.
  - apply (lg_fresh _ _ Hl). by left.
  - intros d Hst Hd. apply (HD d [] (c :: rest)); [done|by rewrite app_nil_r|done].
  - intros d Hc Hd. apply (HD d [c] rest); [done|apply published_ready; [done|apply Hl]|done].
  - exact Hr.
  - done.
  - done.
  - done.
  - done.
  - intros s1 st1 (Hc & Hid1 & Hw1 & [Hn Hu1] & Hb1).
    replace (log ++ c :: rest) with ((log ++ [c]) ++ rest) by by rewrite <- app_assoc.
    apply IH; [|by apply loggable_tail|by apply published_ready, Hl| |done..].
    + intros d ds rest' E Hrd Hd. apply (HD d (c :: ds) rest'); [by rewrite E|by rewrite <- app_assoc in Hrd|done].
    + intros _. apply (represents_seq h _ _ (c_index c)); [apply Hc|done|done].
Qed.

Lemma ready_durable h d log rest : ready h d log rest -> durable h d log.
Proof. destruct rest; [done|by intros [? _]]. Qed.

Lemma loggable_app log ds rest : loggable log (ds ++ rest) -> loggable (log ++ ds) rest.
Proof.
  revert log. induction ds as [|c ds IH]; intros log Hl; [by rewrite app_nil_r|].
  replace (log ++ c :: ds) with ((log ++ [c]) ++ ds) by by rewrite <- app_assoc. by apply IH, loggable_tail.
Qed.

(** After recovery: nothing left to install. *)
Definition recovered (h : Z) (L : list commit) (s : Store) : Prop :=
  clean (s_wal s) /\ durable h (s_db s) L /\ represents h (s_db s) L (s_localSeq s) /\ length (wal_identity (s_db s)) = 32%nat.

Lemma recovered_disk h L s : recovered h L s -> disk_stands h L (disk_of s).
Proof. intros (Hc & Hd & _ & Hi). split; [done|]. by left. Qed.

Lemma visit_nothing ps (s : Store) : visit_all (fun (st : unit) _ => done st) ps tt s = (s, Ok tt).
Proof. induction ps as [|p ps IH]; [done|]. exact IH. Qed.

Lemma clear_safe h L s :
  durable h (s_db s) L -> represents h (s_db s) L (s_localSeq s) -> length (wal_identity (s_db s)) = 32%nat ->
  disk_stands h L (disk_of s) -> safe (disk_stands h L) clearLocalWAL s (fun s' _ => recovered h L s').
Proof.
  intros Hd Hr Hi Hs. destruct (s_wal s) as [w|] eqn:E.
  2: { apply (safe_eq _ _ (done tt)); [by unfold clearLocalWAL; rewrite E|]. apply safe_done. by split; [left|]. }
  assert (disk_stands h L (s_db s, Some [])) as Hs' by (split; [done|]; left; by split; [right|]).
  apply (safe_eq _ _ (then_do check_io (fun _ => then_do (set_wal (Some [])) (fun _ => check_io)))); [by unfold clearLocalWAL; rewrite E|].
  apply (safe_bind _ _ _ _ (fun s' _ => only_clock s s')); [by apply safe_check_io|]. intros s1 _ (n & ->).
  apply (safe_bind _ _ _ _ (fun s' _ => recovered h L s')); [apply safe_set_wal; [done|by split; [right|]]|].
  intros s2 _ Hr2. apply safe_check_io; [by apply recovered_disk|]. intros s3 (m & ->). exact Hr2.
Qed.

Lemma recover_file_safe h log ds rest s :
  s_wal s = Some (wal_file (wal_identity (s_db s)) (payloads (ds ++ rest))) -> length (wal_identity (s_db s)) = 32%nat ->
  loggable log (ds ++ rest) -> ready h (s_db s) (log ++ ds) rest ->
  (rest = [] -> represents h (s_db s) (log ++ ds) (s_localSeq s)) -> is_u64 (s_localSeq s) ->
  safe (disk_stands h (log ++ ds ++ rest)) recoverLocalWAL s (fun s' _ => recovered h (log ++ ds ++ rest) s').
Proof.
  intros Hw Hid Hl Hr Hseq Hu. unfold recoverLocalWAL. unfold safe at 1. cbv beta zeta. rewrite Hw.
  assert (well_formed (payloads (ds ++ rest))) as Hcomp.
  { pose proof (lg_good _ _ Hl) as Hg. apply payloads_complete; [apply Hl|..]; (eapply Forall_impl; [exact Hg|]); intros c Hc.
    - destruct (ec_index _ (gc_encodable _ Hc)) as [[? ?] ?]. lia.
    - apply Hc. }
  match goal with |- let '(_, _) := ?m s in _ => change (safe (disk_stands h (log ++ ds ++ rest)) m s (fun s' _ => recovered h (log ++ ds ++ rest) s')) end.
  apply (safe_bind _ _ _ _ (fun s' _ => s' = s)).
  { apply (safe_eq _ _ (done tt)); [by rewrite walk_written by done; apply visit_nothing|]. by apply safe_done. }
  intros s' _ ->. eapply safe_bind.
  { eapply safe_eq; [by rewrite walk_written by done; rewrite payloads_app; apply visit_all_app|].
    pose proof (lg_good _ _ Hl) as [Hg _]%Forall_app. destruct (ready_durable _ _ _ _ Hr) as (seq & _ & Hrep).
    destruct (skip_all ds s (mkInstall [] 0 0 [] false false)) as (n & st & E & Hle & Hun & Hb); [done|by intros c Hc; eapply committed_found|done|].
    apply (safe_bind _ _ _ _ (fun s' st' => s' = s <| s_localSeq := n |> /\ wi_batch st' = [])).
    { unfold safe. rewrite E. split; [by constructor|]. split; [by exists []|done]. }
    intros s1 st1 [-> Hb1]. apply (rest_safe h (wal_identity (s_db s)) (s_wal s) _ rest (log ++ ds)).
    - intros d ds' rest' -> Hrd Hd. unfold disk_stands. cbn [fst snd]. rewrite Hd, Hw. split; [done|]. right.
      exists log, (ds ++ ds'), rest'. rewrite <- !app_assoc. rewrite <- app_assoc in Hrd. done.
    - by apply loggable_app.
    - done.
    - intros ->. apply (represents_seq h _ _ (s_localSeq s)); [by apply Hseq|done|by apply Hun].
    - by apply Hun.
    - done.
    - done.
    - done. }
  cbn beta. intros s2 _ (Hd2 & Hr2 & Hid2 & Hw2). rewrite <- app_assoc in Hd2, Hr2.
  apply clear_safe; [done|done|by rewrite Hid2|]. unfold disk_stands, disk_of. cbn [fst snd]. rewrite Hw2, Hw, Hid2.
  split; [done|]. right. exists log, (ds ++ rest), []. by rewrite !app_nil_r.
Qed.

Lemma recover_clean_safe h L s :
  recovered h L s -> safe (disk_stands h L) recoverLocalWAL s (fun s' _ => recovered h L s').
Proof.
  intros Hr. pose proof Hr as ([Hw|Hw] & Hd & Hrep & Hi); unfold recoverLocalWAL, safe; cbv beta zeta; rewrite Hw;
    apply clear_safe; try done; by apply recovered_disk.
Qed.
End Recover.
