(* ===== verification/WalGroup.v ===== *)
(** * Commit groups through the log: what a crash or a failed write leaves *)

From stdpp Require Import gmap list sorting strings fin_maps.
From Stdlib Require Import Strings.Byte.
From S2P Require Import Prelude TxnState Bolt Keys Versions Visibility Layouts Conflict Store CommitLog Wal Group GroupSteps WalSteps WalCodec WalFile WalRecover.

(** ** The commits of a group *)

Lemma commits_of_elem c group : c ∈ commits_of group <-> exists r, r ∈ group /\ q_err r = None /\ c = request_commit r.
Proof.
  unfold commits_of. rewrite list_elem_of_omap. split; intros (r & Hr & E); exists r.
  - destruct (q_err r); [done|]. by injection E as ->.
  - destruct E as [-> ->]. done.
Qed.

Lemma commits_ids_sublist group : (c_id <$> commits_of group) `sublist_of` (q_id <$> group).
Proof.
  induction group as [|r group IH]; [constructor|]. unfold commits_of. cbn [omap list_omap fmap list_fmap].
  destruct (q_err r); cbn; by constructor.
Qed.

Section WalGroup.
Context `{BoltLaws} `{GuardCodec} `{MapRange} `{Env} `{Digest} `{!DigestLaws}.

Lemma outcome_requests log seq rs rs' log' seq' :
  outcome log seq rs rs' log' seq' -> q_id <$> rs' = q_id <$> rs /\ (Forall request_ok rs -> Forall request_ok rs').
Proof.
  induction 1 as [| | |] ; cbn; rewrite ?Forall_cons; [done|..].
  - destruct IHoutcome as [-> ?]. naive_solver.
  - destruct IHoutcome as [-> ?]. split; [done|]. intros [[] ?]. split; [by constructor|auto].
  - destruct IHoutcome as [-> ?]. split; [done|]. intros [[] ?]. split; [by constructor|auto].
Qed.

Lemma admitted_ids fatal g group admitted :
  Forall2 (admitted_as fatal g) group admitted -> q_id <$> admitted = q_id <$> group.
Proof. induction 1 as [|r a group admitted (e & -> & _) _ IH]; cbn; [done|]. by rewrite IH. Qed.

(** Identifiers are never reused. *)
Definition fresh_requests (log : list commit) (group : list localCommitRequest) : Prop :=
  NoDup (q_id <$> group) /\ forall r, r ∈ group -> q_id r ∉ c_id <$> log.

Lemma sorted_add (l : list nat) base : StronglySorted lt l -> StronglySorted Z.lt (Z.add base <$> (Z.of_nat <$> l)).
Proof.
  induction 1 as [|n l Hl IH Hn]; cbn; [constructor|]. constructor; [done|].
  apply Forall_fmap, Forall_fmap. eapply Forall_impl; [exact Hn|]. cbn. lia.
Qed.

Lemma sorted_seq start len : StronglySorted lt (List.seq start len).
Proof.
  revert start. induction len as [|len IH]; intros start; cbn; [constructor|]. constructor; [apply IH|].
  apply Forall_forall. intros m Hm. apply elem_of_seq in Hm. lia.
Qed.

Lemma outcome_sorted log seq rs rs' log' seq' : outcome log seq rs rs' log' seq' -> StronglySorted Z.lt (c_index <$> commits_of rs').
Proof. intros (_ & -> & _)%outcome_log. apply sorted_add, sorted_seq. Qed.

Lemma outcome_indexes log seq rs rs' log' seq' :
  is_u64 seq' -> outcome log seq rs rs' log' seq' -> 0 <= seq -> Forall (fun c => is_u64 (c_index c) /\ 0 < c_index c) (commits_of rs').
Proof.
  intros Hu Ho Hs. pose proof (outcome_log _ _ _ _ _ _ Ho) as (_ & Hi & ->).
  apply (Forall_fmap c_index (fun i => is_u64 i /\ 0 < i)). rewrite Hi. apply Forall_fmap, Forall_fmap, Forall_forall.
  intros n Hn. apply elem_of_seq in Hn. cbn. unfold is_u64 in *. lia.
Qed.

(** What is written to the log can be read back and installed. *)
Lemma outcome_loggable log seq rs rs' log' seq' :
  outcome log seq rs rs' log' seq' -> Forall request_ok rs -> fresh_requests log rs -> Forall encodable (commits_of rs') ->
  loggable log (commits_of rs').
Proof.
  intros Ho Hq [Hnd Hf] He. destruct (outcome_requests _ _ _ _ _ _ Ho) as [Hids Hq']. specialize (Hq' Hq).
  constructor.
  - pose proof (proj1 (Forall_forall _ _) Hq') as Hq1. pose proof (proj1 (Forall_forall _ _) He) as He1.
    apply Forall_forall. intros c Hc. pose proof Hc as (r & Hr & _ & ->)%commits_of_elem.
    constructor; [by apply He1|apply (Hq1 r Hr)..].
  - by eapply outcome_sorted.
  - eapply sublist_NoDup; [|apply commits_ids_sublist]. by rewrite Hids.
  - intros c (r & Hr & _ & ->)%commits_of_elem. assert (q_id r ∈ q_id <$> rs) as (r0 & E & Hr0)%list_elem_of_fmap
      by (rewrite <- Hids; by apply list_elem_of_fmap_2). cbn. rewrite E. by apply Hf.
Qed.

(** ** Writing the file *)

(** Nothing reached the disk. *)
Definition same_disk (s s' : Store) : Prop :=
  s_db s' = s_db s /\ s_wal s' = s_wal s /\ s_trace s' = s_trace s /\ s_localSeq s' = s_localSeq s.

#[local] Instance same_disk_preorder : PreOrder same_disk.
Proof. split; [by intros s|]. intros s1 s2 s3 (? & ? & ? & ?) (? & ? & ? & ?). repeat split; congruence. Qed.

Lemma clock_same_disk s s' : only_clock s s' -> same_disk s s'.
Proof. by intros [n ->]. Qed.

Lemma check_io_spec s : exists s', only_clock s s' /\
  (check_io s = (s', Ok tt) \/ exists e n, io_err n = Some e /\ check_io s = (s', Err e)).
Proof.
  exists (s <| s_clock ::= S |>). split; [by eexists|]. unfold check_io.
  destruct (io_err (s_clock s)) as [e|] eqn:E; [right|by left]. eauto.
Qed.

(** Writes the frames of [cs] to the writer, when it succeeds, and nothing else. *)
Definition produces (cs : list commit) (produce : localWALWriter -> action localWALWriter) : Prop :=
  forall w s, only_clock s (produce w s).1 /\
    forall w', (produce w s).2 = Ok w' -> Forall encodable cs /\ w' = wrote w (payloads cs).

(** The file of the commits is on disk. *)
Definition file_written (cs : list commit) (s s' : Store) : Prop :=
  length (wal_identity (s_db s)) = 32%nat /\ Forall encodable cs /\ s_db s' = s_db s /\ s_localSeq s' = s_localSeq s /\
  s_wal s' = Some (wal_file (wal_identity (s_db s)) (payloads cs)) /\ s_trace s' = disk_of s' :: s_trace s.

(** The seal closes the file. *)
Lemma sealed_file identity ps :
  let w := wrote (mkWriter (localWALMagic ++ identity) []) ps in
  exists w', frame w (walSeal :: sha256 (ww_digest w)) = Ok w' /\ ww_out w' = wal_file identity ps.
Proof.
  cbn zeta. unfold frame, wrote. cbn [ww_out ww_digest app]. rewrite (proj2 (Z.ltb_ge _ _)) by apply (seal_fits (encode_frames _)).
  eexists. split; [done|]. unfold wal_file, encode_frame, seal_of. cbn [ww_out]. by rewrite <- !app_assoc.
Qed.

(** Either nothing was published, or the file was, and syncing its directory may have failed
    afterwards. *)
Lemma writeLocalWAL_spec cs ctx produce s :
  (forall s, only_clock s (ctx s).1) -> produces cs produce ->
  exists s' r, writeLocalWAL ctx produce s = (s', r) /\
  ((exists e, r = Err e /\ same_disk s s') \/ file_written cs s s' /\ (r = Ok tt \/ exists e, r = Err e /\ s_fatal s' = Some e)).
Proof.
  intros Hctx Hp. unfold writeLocalWAL. destruct (Nat.eqb_spec (length (wal_identity (s_db s))) 32) as [Hid|]; cbn [negb].
  2: { eexists s, _. split; [done|]. left. by eexists. }
  unfold then_do at 1. destruct (check_io_spec s) as (s1 & E1%clock_same_disk & [->|(e & n & _ & ->)]).
  2: { eexists s1, _. split; [done|]. left. by eexists. }
  unfold then_do at 1. destruct (Hp (mkWriter (localWALMagic ++ wal_identity (s_db s)) []) s1) as [E2%clock_same_disk Hw].
  destruct (produce _ s1) as [s2 [w|e]]; cbn [fst snd] in E2, Hw.
  2: { eexists s2, _. split; [done|]. left. eexists. split; [done|]. by etransitivity. }
  destruct (Hw w eq_refl) as [He ->]. clear Hw.
  destruct (sealed_file (wal_identity (s_db s)) (payloads cs)) as (w & -> & Hout).
  unfold then_do at 1, returns at 1. unfold then_do at 1. destruct (check_io_spec s2) as (s3 & E3%clock_same_disk & [->|(e & n & _ & ->)]).
  2: { eexists s3, _. split; [done|]. left. eexists. split; [done|]. do 2 (etransitivity; [done|]). done. }
  unfold then_do at 1. pose proof (clock_same_disk _ _ (Hctx s3)) as E4. destruct (ctx s3) as [s4 [a|e]]; cbn [fst] in E4.
  2: { eexists s4, _. split; [done|]. left. eexists. split; [done|]. do 3 (etransitivity; [done|]). done. }
  unfold then_do at 1, failing at 1. destruct (check_io_spec s4) as (s5 & E5%clock_same_disk & [->|(e & n & _ & ->)]).
  2: { eexists _, _. split; [done|]. left. eexists. split; [done|]. do 4 (etransitivity; [done|]). exact E5. }
  assert (same_disk s s5) as (D1 & D2 & D3 & D4) by (do 4 (etransitivity; [done|]); done).
  unfold then_do at 1, set_wal at 1, failing. rewrite Hout. set (s6 := on_disk _).
  assert (file_written cs s s6) as Hf by (unfold file_written, disk_of; cbn -[wal_file]; rewrite D3; split_and!; first [done|congruence]).
  destruct (check_io_spec s6) as (s7 & [m ->] & [->|(e & n & _ & ->)]); eexists _, _; (split; [done|]); right; (split; [exact Hf|]); [by left|right; eauto].
Qed.

(** The frames of a group. *)
Lemma group_produces group : Forall (fun c => is_u64 (c_index c)) (commits_of group) ->
  produces (commits_of group) (fun w => returns (wal_write_group group w)).
Proof. intros Hu w s. split; [by apply only_clock_refl|]. intros w' E. by apply wal_write_group_wrote. Qed.

(** ** The group *)

(** What the disk holds while the group runs, and after it. *)
Definition crash_states (h : Z) (log new : list commit) (s s' : Store) : Prop :=
  exists more, s_trace s' = more ++ s_trace s /\
    forall x, x ∈ disk_of s' :: more -> disk_stands h log x \/ disk_stands h (log ++ new) x.

(** The outcome of a group: the requests ran as the abstract group does, or a write failed and every
    request that had none got an error. *)
Definition group_ran (h : Z) (log : list commit) (s : Store) (admitted : list localCommitRequest)
    (s' : Store) (group' : list localCommitRequest) : Prop :=
  exists ran seq', outcome log (s_localSeq s) admitted ran (log ++ commits_of ran) seq' /\
    (group' = ran /\ recovered h (log ++ commits_of ran) s' /\ seq' <= s_localSeq s' \/
     exists e, group' = fail_rest e ran /\ s_fatal s' = Some e) /\
    crash_states h log (commits_of ran) s s'.

Lemma crash_states_none h log new s s' :
  recovered h log s -> disk_of s' = disk_of s -> s_trace s' = s_trace s -> crash_states h log new s s'.
Proof.
  intros Hr Hd Ht. exists []. split; [done|]. intros x ->%list_elem_of_singleton. left. rewrite Hd. by apply recovered_disk.
Qed.

Lemma recovered_same h log s s' :
  recovered h log s -> same_store s s' -> s_localSeq s <= s_localSeq s' -> is_u64 (s_localSeq s') -> recovered h log s'.
Proof.
  intros (Hc & Hd & Hr & Hi) [E1 E2 _ _ _ _] Hle Hu. unfold recovered. rewrite E1, E2.
  split_and!; [done|done|by apply (represents_seq h _ _ (s_localSeq s))|done].
Qed.

(** Without the log: one database transaction. *)
Lemma direct_ran h log s admitted :
  recovered h log s -> h <= u64_max -> Forall request_ok admitted ->
  exists s' group',
    (let '(s, group, res) := group_txn (s_db s) admitted s in
     let '(s, res) := update (fun _ => let! d := returns res in done (d, tt)) s in
     match res with Ok _ => (s, group) | Err e => (fail_store e s, fail_rest e group) end) = (s', group') /\
    group_ran h log s admitted s' group'.
Proof.
  intros Hrec Hh Hq. pose proof Hrec as (Hcl & Hd & Hr & Hi).
  destruct (group_txn_spec h admitted _ log s Hr Hd Hh Hq) as (s2 & rs & d & log' & -> & Hs2 & Ho & Hr2 & Hd2 & Hi2).
  destruct (outcome_log _ _ _ _ _ _ Ho) as (-> & _). destruct Hs2 as [E1 E2 E3 E4 E5 E6].
  unfold update, then_do, returns, done, check_io. destruct (io_err _) as [e|].
  - eexists _, _. split; [done|]. exists rs, (s_localSeq s2). split_and!; [done|right; by exists e|].
    apply crash_states_none; [done|unfold disk_of; cbn; congruence|done].
  - eexists _, _. split; [done|]. exists rs, (s_localSeq s2).
    assert (recovered h (log ++ commits_of rs) (on_disk (s2 <| s_clock ::= S |> <| s_db := d |>))) as Hrec'.
    { split_and!; cbn; [by rewrite E2|done|done|by rewrite Hi2]. }
    split_and!; [done|left; split_and!; [done|done|cbn; lia]|]. eexists [_]. split; [cbn; rewrite E3; done|].
    intros x Hx. right. apply elem_of_cons in Hx as [->|Hx]; [by apply recovered_disk|].
    apply list_elem_of_singleton in Hx as ->. by apply (recovered_disk h _ _ Hrec').
Qed.

Lemma filter_accepted ran : length (filter (fun r => q_err r = None) ran) = length (commits_of ran).
Proof.
  induction ran as [|r ran IH]; [done|]. rewrite filter_cons. unfold commits_of in *. cbn [omap list_omap].
  destruct (q_err r) eqn:E; [by rewrite decide_False|]. rewrite decide_True by done. cbn. by rewrite IH.
Qed.

(** The file on disk stands for the longer log, and installing it gives a store that represents it. *)
Lemma recover_written h log cs s s1 s2 :
  recovered h log s -> s_db s1 = s_db s -> s_trace s1 = s_trace s -> file_written cs s1 s2 -> cs <> [] -> loggable log cs ->
  ready h (s_db s) log cs -> is_u64 (s_localSeq s2) ->
  crash_states h log cs s s2 /\
  let '(s3, r) := recoverLocalWAL s2 in
  crash_states h log cs s s3 /\ s_localSeq s2 <= s_localSeq s3 /\ (r = Ok tt -> recovered h (log ++ cs) s3).
Proof.
  intros (Hcl & Hd & Hr & Hi) E1 Et (Hid & He & E2 & E3 & E4 & E5) Hne Hl Hrd Hu. rewrite E1 in *. rewrite <- E2 in E4, Hrd.
  assert (disk_stands h (log ++ cs) (disk_of s2)) as Hdisk.
  { unfold disk_stands, disk_of. cbn [fst snd]. split; [by rewrite E2|]. right. exists log, [], cs. by rewrite app_nil_r. }
  split.
  { exists [disk_of s2]. split; [cbn; by rewrite E5, Et|]. intros x [->|Hx]%elem_of_cons; right; [done|].
    by apply list_elem_of_singleton in Hx as ->. }
  pose proof (recover_file_safe h log [] cs s2 E4) as Hsafe. rewrite app_nil_r in Hsafe. unfold safe in Hsafe. cbn [app] in Hsafe.
  destruct (recoverLocalWAL s2) as [s3 r]. destruct Hsafe as ([_ _ Hadv] & (more & Em & Hm) & Hres); [by rewrite E2|done|done|done|done|].
  split_and!; [|done|intros ->; exact Hres]. exists (more ++ [disk_of s2]).
  split; [rewrite Em, E5, Et; by rewrite <- app_assoc|]. intros x Hx. right. rewrite elem_of_cons, elem_of_app, list_elem_of_singleton in Hx.
  rewrite Forall_forall in Hm. destruct Hx as [->|[Hx| ->]]; [|by apply Hm|done]. destruct r as [[]|e]; [by apply recovered_disk|apply Hres].
Qed.

(** The commits of a group can be logged, and the database is ready for them. *)
Lemma group_ready h log s ran seq' admitted :
  recovered h log s -> outcome log (s_localSeq s) admitted ran (log ++ commits_of ran) seq' ->
  Forall request_ok admitted -> fresh_requests log admitted -> Forall encodable (commits_of ran) ->
  loggable log (commits_of ran) /\ ready h (s_db s) log (commits_of ran).
Proof.
  intros (Hcl & Hd & Hr & Hi) Ho Hq Hf He. split; [by eapply outcome_loggable|].
  pose proof (outcome_sequence _ _ _ _ _ _ Ho) as [_ Hlt]. destruct (commits_of ran) as [|c new]; [done|].
  apply Forall_cons in Hlt as [Hlt _]. by apply (represents_stands h _ _ (s_localSeq s)).
Qed.

Lemma wal_ran h log s admitted :
  recovered h log s -> h <= u64_max -> Forall request_ok admitted -> fresh_requests log admitted ->
  exists s' group', commitLocalWALGroup admitted s = (s', group') /\ group_ran h log s admitted s' group'.
Proof.
  intros Hrec Hh Hq Hf. pose proof Hrec as (Hcl & Hd & Hr & Hi). unfold commitLocalWALGroup.
  destruct (wal_admit_spec h log admitted [] empty_cache ∅ s) as (s1 & ran & new & -> & Hs1 & Ho & Hr1); [|done|done|].
  { constructor; [done|apply empty_cache_ok|by intros k; rewrite lookup_empty|constructor..]. }
  rewrite app_nil_r in Ho. destruct (outcome_log _ _ _ _ _ _ Ho) as (E%app_inv_head & _). subst new.
  pose proof (outcome_sequence _ _ _ _ _ _ Ho) as [Hle _]. rewrite filter_accepted.
  assert (recovered h log s1) as Hrec1 by (apply (recovered_same h log s); [done..|apply Hr1]).
  destruct (Nat.ltb_spec 0 (length (commits_of ran))) as [Hpos|Hz].
  2: { assert (commits_of ran = []) as E by (destruct (commits_of ran); [done|cbn in Hz; lia]).
       exists s1, ran. split; [done|]. exists ran, (s_localSeq s1). split_and!; [done|left; rewrite E, app_nil_r; split_and!; [done|done|lia]|].
       apply crash_states_none; [done|unfold disk_of; by rewrite (ss_db _ _ Hs1), (ss_wal _ _ Hs1)|apply Hs1]. }
  assert (commits_of ran <> []) as Hne by (intros E; rewrite E in Hpos; cbn in Hpos; lia).
  assert (Forall (fun c => is_u64 (c_index c)) (commits_of ran)) as Hu.
  { pose proof (rp_seq _ _ _ _ Hr) as [? _]. eapply Forall_impl; [eapply outcome_indexes; [apply Hr1|done|done]|]. by intros c [? _]. }
  unfold then_do. destruct (writeLocalWAL_spec (commits_of ran) (done tt) (fun w => returns (wal_write_group ran w)) s1
    only_clock_refl (group_produces ran Hu)) as (s2 & r & -> & [(e & -> & E1 & E2 & E3 & E4)|[Hw _]]).
  { eexists _, _. split; [done|]. exists ran, (s_localSeq s1). split_and!; [done|right; by exists e|].
    apply crash_states_none; [done|unfold disk_of; cbn|cbn; rewrite E3; apply Hs1].
    by rewrite E1, E2, (ss_db _ _ Hs1), (ss_wal _ _ Hs1). }
  assert (s_localSeq s2 = s_localSeq s1) as Eq by apply Hw.
  destruct (group_ready h log s ran (s_localSeq s1) admitted Hrec Ho Hq Hf) as [Hl Hrd]; [apply Hw|].
  destruct (recover_written h log (commits_of ran) s s1 s2 Hrec) as [Hcs Hcs'];
    [apply Hs1|apply Hs1|done|done|done|done|rewrite Eq; apply Hr1|]. destruct r as [[]|e].
  - destruct (recoverLocalWAL s2) as [s3 r]. destruct Hcs' as (Hcs' & Hle3 & Hres).
    destruct r as [[]|e]; (eexists _, _; split; [done|]); exists ran, (s_localSeq s1); (split_and!; [done| |done]).
    + left. split_and!; [done|by apply Hres|lia].
    + right. by exists e.
  - eexists _, _. split; [done|]. exists ran, (s_localSeq s1). split_and!; [done|right; by exists e|exact Hcs].
Qed.

Lemma group_spec h log s group :
  recovered h log s -> h <= u64_max -> Forall request_ok group -> fresh_requests log group ->
  exists admitted s' group', Forall2 (admitted_as (s_fatal s) (s_generation s)) group admitted /\
    commitLocalGroup group s = (s', group') /\ group_ran h log s admitted s' group'.
Proof.
  intros Hrec Hh Hq [Hnd Hf]. pose proof Hrec as (_ & _ & Hr & _). unfold commitLocalGroup, AvailabilityError.
  destruct (admit_group_spec (s_fatal s) group s) as (s1 & admitted & -> & Hs1 & Hq1 & Ha).
  exists admitted. pose proof (admitted_ok _ _ _ _ Ha Hq) as Hq'.
  assert (fresh_requests log admitted) as Hf'.
  { pose proof (admitted_ids _ _ _ _ Ha) as Hids. split; [by rewrite Hids|]. intros r Hr'.
    assert (q_id r ∈ q_id <$> group) as (r0 & -> & Hr0)%list_elem_of_fmap by (rewrite <- Hids; by apply list_elem_of_fmap_2).
    by apply Hf. }
  assert (recovered h log s1) as Hrec1 by (apply (recovered_same h log s); [done|done|lia|rewrite Hq1; apply Hr]).
  assert (forall s' group', group_ran h log s1 admitted s' group' -> group_ran h log s admitted s' group') as Hback.
  { intros s' group' (ran & seq' & Ho & Hres & more & Ht & Hx). exists ran, seq'. rewrite <- Hq1. split_and!; [done..|].
    exists more. by rewrite <- (ss_trace _ _ Hs1). }
  case_bool_decide as Hall.
  { exists s1, admitted. split_and!; [done|done|]. apply Hback. exists admitted, (s_localSeq s1).
    assert (commits_of admitted = []) as E.
    { pose proof (outcome_refused log (s_localSeq s) admitted Hall) as Hor. apply outcome_log in Hor as (E & _).
      rewrite <- (app_nil_r log) in E at 1. by apply app_inv_head in E. }
    rewrite E, app_nil_r. split_and!; [by apply outcome_refused|left; by split_and!|by apply crash_states_none]. }
  rewrite (ss_localWAL _ _ Hs1). destruct (s_localWAL s).
  - destruct (wal_ran h log s1 admitted Hrec1 Hh Hq' Hf') as (s' & g' & -> & Hg). exists s', g'. split_and!; [done|done|by apply Hback].
  - destruct (direct_ran h log s1 admitted Hrec1 Hh Hq') as (s' & g' & E & Hg). exists s', g'. split_and!; [done|exact E|by apply Hback].
Qed.

(** ** Runs of groups *)

(** A failed store runs nothing. *)
Lemma failed_group e group s : s_fatal s = Some e -> exists s' g', commitLocalGroup group s = (s', g') /\ s_fatal s' = Some e.
Proof.
  intros He. unfold commitLocalGroup, AvailabilityError. rewrite He.
  destruct (admit_group_spec (Some e) group s) as (s1 & admitted & -> & Hs1 & _ & Ha).
  rewrite bool_decide_eq_true_2; [exists s1, admitted; split; [done|by rewrite (ss_fatal _ _ Hs1)]|].
  induction Ha as [|r a g ad (o & -> & Ho) _ IH]; constructor; [|done]. destruct o; [cbn; eauto|by destruct Ho].
Qed.

Lemma failed_groups e groups : forall s, s_fatal s = Some e -> s_fatal (commit_groups groups s).1 = Some e.
Proof.
  induction groups as [|g groups IH]; intros s He; cbn [commit_groups]; [done|].
  destruct (failed_group e g s He) as (s1 & g1 & -> & He1). specialize (IH s1 He1).
  by destruct (commit_groups groups s1).
Qed.

Lemma commits_of_app a b : commits_of (a ++ b) = commits_of a ++ commits_of b.
Proof. apply omap_app. Qed.

(** What a run without failures did. *)
Record ran_well (h : Z) (log : list commit) (s s' : Store) (results : list localCommitRequest) : Prop := {
  rw_recovered : recovered h (log ++ commits_of results) s';
  rw_later : Forall (fun c => s_localSeq s < c_index c) (commits_of results);
  rw_first : forall before r after, results = before ++ r :: after -> q_err r = None ->
    may_commit (log ++ commits_of before) r
}.

Lemma results_ids h log s admitted s' group' :
  group_ran h log s admitted s' group' -> q_id <$> group' = q_id <$> admitted.
Proof.
  intros (ran & seq' & Ho & [[-> _]|(e & -> & _)] & _); apply outcome_requests in Ho as [Hids _]; [done|].
  rewrite <- Hids. unfold fail_rest. rewrite <- list_fmap_compose. apply list_fmap_ext. intros _ r _. cbn. by destruct (q_err r).
Qed.

Lemma groups_run h groups : forall log s s' results,
  recovered h log s -> h <= u64_max -> Forall (Forall request_ok) groups -> fresh_requests log (mjoin groups) ->
  commit_groups groups s = (s', results) -> s_fatal s' = None -> ran_well h log s s' results.
Proof.
  induction groups as [|g groups IH]; intros log s s' results Hrec Hh Hq Hf E Hfatal; cbn [commit_groups] in E.
  { injection E as <- <-. constructor; [by rewrite app_nil_r|constructor|by intros [|]]. }
  apply Forall_cons in Hq as [Hq1 Hq]. destruct Hf as [Hnd Hf]. cbn [mjoin list_join] in Hnd, Hf.
  rewrite fmap_app in Hnd. apply NoDup_app in Hnd as (Hnd1 & Hsep & Hnd2).
  destruct (group_spec h log s g Hrec Hh Hq1) as (admitted & s1 & g1 & Ha & Eg & Hran).
  { split; [done|]. intros r Hr. apply Hf, elem_of_app. by left. }
  pose proof (results_ids _ _ _ _ _ _ Hran) as Hids. rewrite (admitted_ids _ _ _ _ Ha) in Hids.
  rewrite Eg in E. destruct (commit_groups groups s1) as [s2 rs] eqn:Er. injection E as <- <-.
  destruct Hran as (ran & seq' & Ho & [(-> & Hrec1 & Hle)|(e & _ & He)] & _).
  2: { pose proof (failed_groups e groups s1 He) as Hx. rewrite Er in Hx. cbn in Hx. congruence. }
  pose proof (outcome_sequence _ _ _ _ _ _ Ho) as [Hle0 Hlt0].
  destruct (IH (log ++ commits_of ran) s1 s2 rs Hrec1 Hh Hq) as [Hr2 Hl2 Hf2]; [|done|done|].
  { split; [done|]. intros r Hr. rewrite fmap_app, elem_of_app. intros [Hin|Hin].
    - apply (Hf r); [apply elem_of_app; by right|done].
    - apply (Hsep (q_id r)); [|by apply list_elem_of_fmap_2]. rewrite <- Hids.
      eapply elem_of_sublist; [exact Hin|apply commits_ids_sublist]. }
  rewrite <- app_assoc in Hr2. constructor.
  - by rewrite commits_of_app.
  - rewrite commits_of_app. apply Forall_app. split; [done|]. eapply Forall_impl; [exact Hl2|]. cbn. lia.
  - intros before r after E Hr. apply app_eq_inv in E as [(l & -> & E)|(l & -> & E)].
    + destruct l as [|x l]; cbn in E.
      * simplify_eq. pose proof (Hf2 [] r after eq_refl Hr) as Hx. by rewrite !app_nil_r in Hx.
      * injection E as <- E. by apply (outcome_first_committer _ _ _ _ _ _ before r l Ho).
    + rewrite commits_of_app, app_assoc. by apply (Hf2 l r after).
Qed.
End WalGroup.
