(* ===== verification/GroupFacts.v ===== *)
(** * The properties of group commit and recovery *)

From stdpp Require Import gmap list sorting strings fin_maps.
From Stdlib Require Import Strings.Byte.
From S2P Require Import Prelude TxnState Bolt Keys Versions Visibility Layouts Conflict Store CommitLog Wal Group GroupSteps WalSteps WalCodec WalFile WalRecover WalGroup.

Section Properties.
Context `{BoltLaws} `{GuardCodec} `{MapRange} `{Env} `{Digest} `{!DigestLaws}.

(** C19: a commit group refines the abstract log, with the local log file or without: its requests run
    in order, each refused for a cause or appended to the log at the next sequence; the store then
    represents the longer log; and when a write fails every undecided request reports an error.
    Whatever happens, every state the disk goes through, hence every crash, leaves either none of the
    group's commits or all of them.  ([recovered] asks for the 32-byte identity that opening a store with
    the log file gives it.) *)
Theorem group_commit_atomic (h : Z) (log : list commit) (s s' : Store) (group group' : list localCommitRequest) :
  recovered h log s -> h <= u64_max -> Forall request_ok group -> fresh_requests log group ->
  commitLocalGroup group s = (s', group') ->
  exists admitted ran seq',
    Forall2 (admitted_as (s_fatal s) (s_generation s)) group admitted /\
    outcome log (s_localSeq s) admitted ran (log ++ commits_of ran) seq' /\
    (group' = ran /\ recovered h (log ++ commits_of ran) s' \/
     exists e, group' = fail_rest e ran /\ s_fatal s' = Some e) /\
    exists more, s_trace s' = more ++ s_trace s /\
      forall x, x ∈ disk_of s' :: more -> disk_stands h log x \/ disk_stands h (log ++ commits_of ran) x.
Proof.
  intros Hrec Hh Hq Hf E. destruct (group_spec h log s group Hrec Hh Hq Hf) as (admitted & s1 & g1 & Ha & E' & Hran).
  rewrite E in E'. injection E' as <- <-. destruct Hran as (ran & seq' & Ho & Hres & Hc). exists admitted, ran, seq'.
  split_and!; [done|done| |exact Hc]. destruct Hres as [(-> & Hr & _)|Hr]; [by left|by right].
Qed.

(** C20: opening a store on any disk a crash can leave gives back the log the disk stands for; a
    failure while recovering leaves a disk that stands for the same log, so recovery can be repeated;
    and it fails only when a write does.  (The disk holds the 32-byte identity that opening a store with
    the log file gives it.) *)
Theorem recovery_exact (h : Z) (L : list commit) (s s' : Store) (r : result mvcc_error unit) :
  disk_stands h L (disk_of s) -> s_localSeq s = opening_sequence (s_db s) -> is_u64 (s_localSeq s) ->
  recoverLocalWAL s = (s', r) ->
  (r = Ok tt -> recovered h L s') /\
  (forall e, r = Err e -> exists n, io_err n = Some e) /\
  exists more, s_trace s' = more ++ s_trace s /\ forall x, x ∈ disk_of s' :: more -> disk_stands h L x.
Proof.
  intros [Hid Hs] Hseq Hu E.
  assert (forall log, durable h (s_db s) log -> represents h (s_db s) log (s_localSeq s)) as Hopen.
  { intros log (seq & Hle & Hr). apply (represents_seq h _ _ seq); [done|by rewrite Hseq|done]. }
  assert (safe (disk_stands h L) recoverLocalWAL s (fun s' _ => recovered h L s')) as Hsafe.
  { destruct Hs as [[Hc Hd]|(log & ds & rest & -> & Hw & Hl & Hr)].
    - apply recover_clean_safe. split_and!; [done|done|by apply Hopen|done].
    - apply recover_file_safe; try done. intros ->. by apply Hopen. }
  unfold safe in Hsafe. rewrite E in Hsafe. destruct Hsafe as (_ & (more & Ht & Hm) & Hres).
  assert (disk_stands h L (disk_of s')) as Hlast by (destruct r as [[]|e]; [by apply recovered_disk|apply Hres]).
  split_and!.
  - by intros ->.
  - intros e ->. apply Hres.
  - exists more. split; [done|]. intros x [->|Hx]%elem_of_cons; [done|]. rewrite Forall_forall in Hm. by apply Hm.
Qed.

(** C21: snapshot isolation over any run of groups in which no write fails.  The commits are those the
    requests report, in sequence order; none depends on something an earlier commit changed after it
    read it; a key reads, at every snapshot, what the newest commit not above the snapshot wrote; and
    a snapshot taken before the run reads after it what it read before.  (The store has the 32-byte
    identity that opening it with the log file gives.) *)
Theorem snapshot_isolation (h : Z) (log : list commit) (s s' : Store) (groups : list (list localCommitRequest))
    (results : list localCommitRequest) :
  recovered h log s -> h <= u64_max -> Forall (Forall request_ok) groups -> fresh_requests log (mjoin groups) ->
  commit_groups groups s = (s', results) -> s_fatal s' = None ->
  recovered h (log ++ commits_of results) s' /\
  StronglySorted Z.lt (c_index <$> log ++ commits_of results) /\
  (forall before r after, results = before ++ r :: after -> q_err r = None -> may_commit (log ++ commits_of before) r) /\
  (forall k snapshot, has_prefix rangeGuardPrefix k = false -> h <= snapshot -> is_u64 snapshot ->
     visible (s_db s') k snapshot = abs_read (log ++ commits_of results) k snapshot /\
     (snapshot <= s_localSeq s -> visible (s_db s') k snapshot = visible (s_db s) k snapshot)).
Proof.
  intros Hrec Hh Hq Hf E Hfatal. destruct (groups_run h groups log s s' results Hrec Hh Hq Hf E Hfatal) as [Hr Hl Hm].
  pose proof Hrec as (_ & _ & Hrep & _). pose proof Hr as (_ & _ & Hrep' & _).
  split_and!; [done|apply Hrep'|done|]. intros k snapshot Hk Hs Hu.
  pose proof (visible_abs h _ _ _ k snapshot Hrep' Hs Hu Hk) as Hv. split; [done|]. intros Hle.
  rewrite Hv, (visible_abs h _ _ _ k snapshot Hrep Hs Hu Hk). apply abs_read_stable.
  eapply Forall_impl; [exact Hl|]. cbn. lia.
Qed.
End Properties.

(** ** A fresh store and two conflicting requests *)

#[local] Instance calm : Env := { ctx_err := fun _ => None; io_err := fun _ => None }.

#[local] Instance prefix_codec : GuardCodec := {
  marshalDependency := rd_Space;
  unmarshalDependency := fun s => Some (mkDependency s unbounded)
}.

#[local] Instance sum_digest : Digest := {
  crc32 := fun s => foldl Z.add 0 (bval <$> s) mod 2 ^ 32;
  sha256 := fun s => be_bytes 32 (be_val s)
}.

#[local] Instance sum_digest_laws : DigestLaws.
Proof. split; [intros s; apply Z.mod_pos_bound; lia|]. intros s. apply length_be_bytes. Qed.

Definition store_identity : bytes := str "0123456789abcdef0123456789abcdef".

Definition empty_db : db := mkDB _ b_empty (b_put meta_identity store_identity b_empty) b_empty b_empty b_empty None.

Definition new_store (wal : bool) : Store := mkStore _ empty_db None [] 0 None 0 wal 0.

Lemma empty_represents : represents 0 empty_db [] 0.
Proof.
  assert (forall k, history empty_db k = []) as Hh by done.
  constructor.
  - constructor; [|intros k i Hk; done|intros e He; by apply not_elem_of_nil in He].
    intros k rows Hk. done.
  - unfold is_u64. lia.
  - intros k. by rewrite Hh.
  - intros k n p. rewrite Hh. by intros ?%not_elem_of_nil.
  - intros n Hn. cbn. split; [done|by intros ?%not_elem_of_nil].
  - done.
  - constructor.
  - constructor.
  - done.
  - done.
Qed.

Lemma new_store_recovered wal : recovered 0 [] (new_store wal).
Proof.
  split_and!; [by left|exists 0; split; [done|apply empty_represents]|apply empty_represents|done].
Qed.

Definition write_row (id : bytes) (snapshot : Z) (value : bytes) : localCommitRequest :=
  newRequest 0 snapshot id [mkOp (str "t") (str "row") value false false] None.

Lemma write_row_ok id snapshot value : id <> [] -> length id <> 8%nat -> 0 <= snapshot -> request_ok (write_row id snapshot value).
Proof. intros. constructor; try done. repeat constructor. by intros _. Qed.

(** Both read the empty store; the first wins. *)
Definition two_writers : list localCommitRequest := [write_row (str "first") 0 (str "a"); write_row (str "second") 0 (str "b")].

Lemma two_writers_ok : Forall request_ok two_writers /\ fresh_requests [] two_writers.
Proof.
  split.
  - unfold two_writers. repeat constructor; try (vm_compute; congruence); intros _; reflexivity.
  - split; [apply (bool_decide_unpack _); vm_compute; exact I|by intros r _ ?%not_elem_of_nil].
Qed.

Lemma group_commit_atomic_witness :
  (q_err <$> (commitLocalGroup two_writers (new_store true)).2 = [None; Some ErrConflict]) /\
  exists admitted ran seq', outcome [] 0 admitted ran (commits_of ran) seq'.
Proof.
  split; [vm_compute; reflexivity|]. destruct (commitLocalGroup two_writers (new_store true)) as [s' g'] eqn:E.
  destruct (group_commit_atomic 0 [] (new_store true) s' two_writers g') as (admitted & ran & seq' & _ & Ho & _);
    [apply new_store_recovered|unfold u64_max; lia|apply two_writers_ok|apply two_writers_ok|exact E|].
  by exists admitted, ran, seq'.
Defined.

Lemma recovery_exact_witness : exists s', recoverLocalWAL (new_store true) = (s', Ok tt) /\ recovered 0 [] s'.
Proof.
  destruct (recoverLocalWAL (new_store true)) as [s' r] eqn:E. assert (r = Ok tt) as -> by (vm_compute in E; congruence).
  exists s'. split; [reflexivity|].
  apply (recovery_exact 0 [] (new_store true) s' (Ok tt)); [apply recovered_disk, new_store_recovered|done|unfold is_u64; cbn; lia|exact E|done].
Defined.

Definition three_groups : list (list localCommitRequest) := [two_writers; [write_row (str "third") 1 (str "c")]].

Definition row_after (p : Store * list localCommitRequest) (snapshot : Z) : reading :=
  visible (s_db p.1) (str "t" ++ [x00] ++ str "row") snapshot.

Lemma snapshot_isolation_witness :
  exists s' results, commit_groups three_groups (new_store true) = (s', results) /\
    row_after (s', results) 1 = (str "a", 1, true) /\ row_after (s', results) 2 = (str "c", 2, true) /\
    recovered 0 ([] ++ commits_of results) s'.
Proof.
  assert (forall s' results, commit_groups three_groups (new_store true) = (s', results) -> s_fatal s' = None ->
    recovered 0 ([] ++ commits_of results) s') as Hall.
  { intros s' results E Hf. pose proof two_writers_ok as [Hok Hfresh].
    destruct (snapshot_isolation 0 [] (new_store true) s' three_groups results) as [Hr _].
    - apply new_store_recovered.
    - unfold u64_max. lia.
    - unfold three_groups. rewrite !Forall_cons. split_and!; [exact Hok|by apply write_row_ok|constructor|constructor].
    - split; [|by intros r _ ?%not_elem_of_nil]. apply (bool_decide_unpack _). vm_compute. exact I.
    - exact E.
    - exact Hf.
    - exact Hr. }
  assert (forall p, p = commit_groups three_groups (new_store true) ->
    row_after p 1 = (str "a", 1, true) /\ row_after p 2 = (str "c", 2, true) /\ s_fatal p.1 = None) as Hp
    by (intros p ->; repeat split; vm_compute; reflexivity).
  destruct (commit_groups three_groups (new_store true)) as [s' results] eqn:E.
  destruct (Hp _ eq_refl) as (Hx1 & Hx2 & Hf). exists s', results.
  split; [reflexivity|]. split; [exact Hx1|]. split; [exact Hx2|]. apply (Hall s' results); [reflexivity|exact Hf].
Defined.
