(* ===== verification/Compact.v ===== *)
(** * Compaction of the history: [mvcc/maintenance.go]

    [CompactHistory] walks the row directory in bounded transactions.  In each row it removes the
    versions below the one a read at the horizon sees.  The horizon is the oldest timestamp anyone
    still reads at, and at most the published head. *)

From stdpp Require Import gmap list sorting strings fin_maps.
From Stdlib Require Import Strings.Byte.
From S2P Require Import Prelude TxnState TxnManager TxnSteps Bolt Keys Versions Visibility Layouts Conflict Store CommitLog Wal WalRecover.

Section Operations.
Context `{DeletingCursor} `{GuardCodec} `{MapRange} `{Env}.

(** The bucket that holds the versions of a row: the one of its layout. *)
Definition versions_of (d : db) (k : bytes) : option (bucket bytes) :=
  if flatLayout d then Some (flat_versions d)
  else match b_get (d_data d) k with Some (Sub rows) => Some rows | _ => None end.

Definition set_versions (d : db) (k : bytes) (b : bucket bytes) : db :=
  if flatLayout d then d <| d_flat := Some b |> else d <| d_data ::= b_put k (Sub b) |>.

(** The first version of the row. *)
Definition first_version (prefix : option bytes) (b : bucket bytes) : option (bytes * bytes) :=
  match prefix with
  | Some prefix => b_seek b prefix
  | None => b_first b
  end.

(** The version a key of the bucket names, unless it belongs to another row. *)
Definition version_part (prefix : option bytes) (v : bytes) : option bytes :=
  match prefix with
  | Some prefix => if has_prefix prefix v then Some (trim_prefix prefix v) else None
  | None => Some v
  end.

(** The loop over the versions of a row: the bucket, the work done, and whether the work of one
    transaction is used up. *)
Fixpoint compact_row (prefix : option bytes) (anchor : Z) (fuel : nat) (b : bucket bytes)
    (cur : option (bytes * bytes)) (work : Z) : action (bucket bytes * Z * bool) :=
  match cur with
  | None => done (b, work, false)
  | Some (v, p) =>
      match version_part prefix v with
      | None => done (b, work, false)
      | Some version =>
          if anchor <=? number version then done (b, work, false)
          else
            let! _ := check_ctx in
            let work := work + blen v + blen p in
            let b := b_delete v b in
            if MaxChunkBytes <=? work then done (b, work, true)
            else match fuel with
            | O => done (b, work, false)
            | S fuel => compact_row prefix anchor fuel b (b_after_delete b v) work
            end
      end
  end.

(** Where the next transaction goes on. *)
Record compaction : Type := mkCompaction {
  co_after : option bytes;
  co_repeat : bool
}.

(** The loop over the row directory; [true] when it reached the end. *)
Fixpoint compact_keys (horizon : Z) (fuel : nat) (d : db) (at_ : compaction) (cur : option (bytes * item)) (work : Z)
    : action (db * (compaction * bool)) :=
  match cur with
  | None => done (put_meta meta_horizon horizon d, (at_, true))
  | Some (k, _) =>
      let! _ := check_ctx in
      let at_ := mkCompaction (Some k) false in
      let anchor := reading_version (visible d k horizon) in
      let prefix := if flatLayout d then Some (flatPrefix k) else None in
      match versions_of d k with
      | None => refused (ErrOther "nil bucket")
      | Some b =>
          let! r := compact_row prefix anchor (b_size b) b (first_version prefix b) work in
          let '(b, work, full) := r in
          let d := set_versions d k b in
          if full : bool then done (d, (mkCompaction (Some k) true, false))
          else
            let work := work + blen k in
            if MaxChunkBytes <=? work then done (d, (at_, false))
            else match fuel with
            | O => done (d, (at_, false))
            | S fuel => compact_keys horizon fuel d at_ (b_next (d_data d) k) work
            end
      end
  end.

(** The row the transaction starts at. *)
Definition compact_from (d : db) (at_ : compaction) : option (bytes * item) :=
  match co_after at_ with
  | None => b_first (d_data d)
  | Some after =>
      match b_seek (d_data d) after with
      | Some (k, i) => if bool_decide (k = after) && negb (co_repeat at_) then b_next (d_data d) k else Some (k, i)
      | None => None
      end
  end.

Definition compaction_horizon (m : TransactionManager) (d : db) : Z :=
  match OldestReadTS m with
  | Some oldest => if oldest <? Head d then oldest else Head d
  | None => Head d
  end.

(** One bounded transaction, under the locks of commits and of views. *)
Definition compact_batch (generation : Z) (at_ : compaction) (m : TransactionManager) (s : Store)
    : Store * TransactionManager * result mvcc_error (compaction * bool) :=
  if negb (generation =? s_generation s) then (s, m, Err ErrConflict)
  else match AvailabilityError s with
  | Some e => (s, m, Err e)
  | None =>
      let horizon := compaction_horizon m (s_db s) in
      let '(s, r) := update (fun d => compact_keys horizon (b_size (d_data d)) d at_ (compact_from d at_) 0) s in
      (s, if is_ok r then RecordCompactedHorizon m horizon else m, r)
  end.

(** The whole pass, while nothing else runs; [None] when [fuel] transactions are not enough. *)
Fixpoint compact_loop (fuel : nat) (generation : Z) (at_ : compaction) (m : TransactionManager) (s : Store)
    : Store * TransactionManager * option (result mvcc_error unit) :=
  match fuel with
  | O => (s, m, None)
  | S fuel =>
      match check_ctx s with
      | (s, Err e) => (s, m, Some (Err e))
      | (s, Ok _) =>
          match compact_batch generation at_ m s with
          | (s, m, Err e) => (s, m, Some (Err e))
          | (s, m, Ok (at_, finished)) =>
              if finished : bool then (s, m, Some (Ok tt)) else compact_loop fuel generation at_ m s
          end
      end
  end.

Definition CompactHistory (fuel : nat) (m : TransactionManager) (s : Store)
    : Store * TransactionManager * option (result mvcc_error unit) :=
  compact_loop fuel (s_generation s) (mkCompaction None false) m s.
End Operations.
