(* ===== verification/CompactSteps.v ===== *)
(** * What compaction does to the histories *)

From stdpp Require Import gmap list sorting strings fin_maps.
From Stdlib Require Import Strings.Byte.
From S2P Require Import Prelude TxnState TxnManager TxnPins TxnSteps Bolt Keys Versions Visibility Layouts Conflict Store CommitLog Wal WalRecover Compact.

Section Steps.
Context `{BoltLaws} `{!DeletingCursor} `{!DeletingCursorLaws} `{GuardCodec} `{MapRange} `{Env}.

(** ** The loop over one row *)

(** The bucket lost some entries, all of whose keys satisfy [P]. *)
Definition thinned (P : bytes -> Prop) (b b' : bucket bytes) : Prop :=
  exists del : list bytes, Forall P del /\ b_entries b' = filter (fun e : bytes * bytes => e.1 ∉ del) (b_entries b).

Lemma filter_every {A} (P : A -> Prop) `{forall x, Decision (P x)} (l : list A) : (forall x, x ∈ l -> P x) -> filter P l = l.
Proof.
  intros Hp. induction l as [|x l IH]; [done|]. rewrite filter_cons, decide_True by (apply Hp; by left).
  f_equal. apply IH. intros. apply Hp. by right.
Qed.

Lemma list_filter_iff' {A} (P Q : A -> Prop) `{forall x, Decision (P x)} `{forall x, Decision (Q x)} (l : list A) :
  (forall x, x ∈ l -> P x <-> Q x) -> filter P l = filter Q l.
Proof.
  induction l as [|x l IH]; intros Hpq; [done|]. rewrite !filter_cons.
  rewrite IH by (intros; apply Hpq; by right). pose proof (Hpq x ltac:(by left)). do 2 case_decide; tauto.
Qed.

Lemma thinned_refl P b : thinned P b b.
Proof.
  exists []. split; [constructor|]. symmetry. apply filter_every. by intros e _ ?%not_elem_of_nil.
Qed.

Lemma thinned_delete (P : bytes -> Prop) b v b' : P v -> thinned P (b_delete v b) b' -> thinned P b b'.
Proof.
  intros Hv (del & Hd & E). exists (v :: del). split; [by constructor|]. rewrite E, delete_entries. unfold kv_delete.
  rewrite list_filter_filter. apply list_filter_iff. intros e. rewrite not_elem_of_cons. tauto.
Qed.

(** A version of the row below the one that is kept. *)
Definition doomed (prefix : option bytes) (anchor : Z) (v : bytes) : Prop :=
  exists version, version_part prefix v = Some version /\ number version < anchor.

Lemma compact_row_spec prefix anchor fuel : forall b cur work s,
  let '(s', r) := compact_row prefix anchor fuel b cur work s in
  only_clock s s' /\ match r with Ok (b', _, _) => thinned (doomed prefix anchor) b b' | Err _ => True end.
Proof.
  induction fuel as [|fuel IH]; intros b [[v p]|] work s; cbn [compact_row];
    try (split; [apply only_clock_refl|apply thinned_refl]);
    (destruct (version_part prefix v) as [version|] eqn:Ev; [|split; [apply only_clock_refl|apply thinned_refl]]);
    (destruct (Z.leb_spec anchor (number version)); [split; [apply only_clock_refl|apply thinned_refl]|]);
    assert (doomed prefix anchor v) as Hv by (by exists version);
    pose proof (check_ctx_clock s) as Hc; unfold then_do;
    destruct (check_ctx s) as [s1 [[]|e]]; cbn [fst] in Hc; try (by split);
    destruct (MaxChunkBytes <=? _); try (split; [done|]; apply (thinned_delete _ _ v); [done|apply thinned_refl]).
  specialize (IH (b_delete v b) (b_after_delete (b_delete v b) v) (work + blen v + blen p) s1).
  destruct (compact_row _ _ _ _ _ _ s1) as [s2 r]. destruct IH as [Hc2 Hr]. split; [by eapply only_clock_trans|].
  destruct r as [[[b' w] f]|]; [|done]. by apply (thinned_delete _ _ v).
Qed.

(** One entry is deleted each time, so the size of the bucket is fuel enough. *)
Lemma compact_row_fuel prefix anchor fuel fuel' : forall b cur work s,
  (b_size b <= fuel)%nat -> (b_size b <= fuel')%nat -> (forall e, cur = Some e -> e ∈ b_entries b) ->
  compact_row prefix anchor fuel b cur work s = compact_row prefix anchor fuel' b cur work s.
Proof.
  revert fuel'. induction fuel as [|fuel IH]; intros [|fuel'] b [[v p]|] work s Hf Hf' Hcur; try done;
    try (pose proof (delete_smaller b (v, p) (Hcur _ eq_refl)); lia).
  cbn [compact_row]. pose proof (delete_smaller b (v, p) (Hcur _ eq_refl)) as Hs. cbn in Hs.
  destruct (version_part prefix v) as [version|]; [|done]. destruct (anchor <=? number version); [done|]. unfold then_do.
  destruct (check_ctx s) as [s1 [[]|e]]; [|done]. destruct (MaxChunkBytes <=? _); [done|].
  apply IH; [lia|lia|]. intros e He. by apply after_delete_entry in He as [? _].
Qed.

(** ** A thinned row *)

(** What is the same in both: all but versions and the mark of compaction. *)
Record only_versions (d d' : db) : Prop := {
  ov_meta : forall k, k <> meta_horizon -> b_get (d_meta d') k = b_get (d_meta d) k;
  ov_commits : d_commits d' = d_commits d;
  ov_pending : d_pending d' = d_pending d;
  ov_counters : d_counters d' = d_counters d;
  ov_listed : forall k, is_Some (b_get (d_data d') k) <-> is_Some (b_get (d_data d) k)
}.

#[export] Instance only_versions_preorder : PreOrder only_versions.
Proof.
  split; [by intros d; constructor|]. intros d1 d2 d3 [M1 ? ? ? L1] [M2 ? ? ? L2].
  constructor; [intros k Hk; by rewrite M2, M1|congruence..|]. intros k. by rewrite L2.
Qed.

Lemma only_versions_layout d d' : only_versions d d' -> flatLayout d' = flatLayout d.
Proof. intros [Hm _ _ _ _]. unfold flatLayout. by rewrite Hm by done. Qed.

Lemma only_versions_committed d d' n : only_versions d d' -> committed_at d' n = committed_at d n.
Proof. intros [_ Hc _ _ _]. unfold committed_at, committed_key. by rewrite Hc. Qed.

Lemma omap_filter_keep {A B} (P : A -> Prop) `{forall x, Decision (P x)} (Q : B -> Prop) `{forall x, Decision (Q x)}
    (f : A -> option B) (l : list A) :
  (forall x y, x ∈ l -> f x = Some y -> (P x <-> Q y)) -> omap f (filter P l) = filter Q (omap f l).
Proof.
  induction l as [|x l IH]; intros Hf; [done|]. rewrite filter_cons. cbn [omap list_omap].
  assert (omap f (filter P l) = filter Q (omap f l)) as IH' by (apply IH; intros; apply Hf; [by right|done]).
  destruct (f x) as [y|] eqn:E.
  - rewrite filter_cons. pose proof (Hf x y ltac:(by left) E) as Hxy. do 2 case_decide; try tauto; cbn [omap list_omap].
    rewrite E. by f_equal.
  - case_decide; [|done]. cbn [omap list_omap]. by rewrite E.
Qed.

Lemma filter_fmap_keep {A B} (P : A -> Prop) `{forall x, Decision (P x)} (Q : B -> Prop) `{forall x, Decision (Q x)}
    (f : A -> B) (l : list A) :
  (forall x, x ∈ l -> (P x <-> Q (f x))) -> f <$> filter P l = filter Q (f <$> l).
Proof.
  induction l as [|x l IH]; intros Hf; [done|]. cbn [fmap list_fmap]. rewrite !filter_cons.
  assert (f <$> filter P l = filter Q (f <$> l)) as IH' by (apply IH; intros; apply Hf; by right).
  pose proof (Hf x ltac:(by left)). do 2 case_decide; try tauto. cbn. by f_equal.
Qed.

(** A history that lost versions, none of them at or above [a]. *)
Definition cut_below (a : Z) (l l' : list (Z * bytes)) : Prop :=
  exists keep : Z -> bool, l' = filter (fun np : Z * bytes => keep np.1) l /\ forall n p, (n, p) ∈ l -> keep n = false -> n < a.

Lemma cut_below_refl a l : cut_below a l l.
Proof.
  exists (fun _ => true). split; [|done]. symmetry. apply (filter_all (fun _ => true)). done.
Qed.

Lemma filter_keep (keep : Z -> bool) (l : list (Z * bytes)) n p :
  (n, p) ∈ filter (fun np : Z * bytes => keep np.1) l <-> keep n = true /\ (n, p) ∈ l.
Proof. rewrite list_elem_of_filter. cbn. by rewrite Is_true_true. Qed.

Lemma cut_below_trans a l1 l2 l3 : cut_below a l1 l2 -> cut_below a l2 l3 -> cut_below a l1 l3.
Proof.
  intros (k1 & -> & Hk1) (k2 & -> & Hk2). exists (fun n => k1 n && k2 n). split.
  - rewrite list_filter_filter. apply list_filter_iff. intros [n p]. cbn. rewrite !Is_true_true, andb_true_iff. tauto.
  - intros n p Hin Hk. destruct (k1 n) eqn:E1; [|by apply (Hk1 n p)]. apply (Hk2 n p); [|done]. by apply filter_keep.
Qed.

Lemma hist_ordered_filter (f : Z * bytes -> bool) l : hist_ordered l -> hist_ordered (filter f l).
Proof.
  induction l as [|e l IH]; intros Ho; [done|]. apply hist_ordered_inv in Ho as [Ho Hlt]. rewrite filter_cons.
  case_decide; [|by apply IH]. constructor; [by apply IH|]. apply Forall_forall. by intros e' [_ He']%list_elem_of_filter; apply Hlt.
Qed.

(** Reads from the newest kept version on see the same. *)
Lemma newest_cut (c : Z -> bool) l l' h s a p :
  hist_ordered l -> newest_at l c h = Some (a, p) -> h <= s -> cut_below a l l' -> newest_at l' c s = newest_at l c s.
Proof.
  intros Ho Ha Hs (keep & -> & Hk). apply newest_elem in Ha as (Hin & Hle & Hc). unfold newest_at.
  set (f := fun np : Z * bytes => (np.1 <=? s) && c np.1).
  change (last (filter f (filter (fun np : Z * bytes => keep np.1) l)) = last (filter f l)).
  replace (filter f (filter (fun np : Z * bytes => keep np.1) l)) with (filter (fun np : Z * bytes => keep np.1) (filter f l))
    by (rewrite !list_filter_filter; apply list_filter_iff; tauto).
  assert ((a, p) ∈ filter f l) as Hin'.
  { apply list_elem_of_filter. split; [|done]. unfold f. cbn. rewrite Hc. rewrite (proj2 (Z.leb_le a s)) by lia. done. }
  pose proof (hist_ordered_filter f l Ho) as Ho'.
  assert (forall n q, (n, q) ∈ filter f l -> keep n = false -> n < a) as Hk' by
    (intros n q [_ Hn]%list_elem_of_filter; by apply (Hk n q)).
  clear Hin Hk. generalize dependent (filter f l). intros g Hin' Ho' Hk'.
  destruct g as [|x g _] using rev_ind; [by apply not_elem_of_nil in Hin'|].
  destruct x as [m q]. assert (a <= m) as Ham.
  { apply StronglySorted_app in Ho' as (Hlt & _ & _).
    apply elem_of_app in Hin' as [Hin'|[= -> _]%list_elem_of_singleton]; [|done].
    specialize (Hlt _ (m, q) Hin' ltac:(by left)). cbn in Hlt. lia. }
  rewrite filter_app, (filter_cons _ (m, q)), decide_True, filter_nil, !last_snoc; [done|].
  cbn. destruct (keep m) eqn:E; [done|]. specialize (Hk' m q ltac:(apply elem_of_app; right; by left) E). lia.
Qed.

Lemma newest_cut_none (c : Z -> bool) l l' h s : newest_at l c h = None -> cut_below 0 l l' ->
  (forall n p, (n, p) ∈ l -> 0 <= n) -> newest_at l' c s = newest_at l c s.
Proof.
  intros _ (keep & -> & Hk) Hn. rewrite filter_every; [done|]. intros [n p] Hin. cbn.
  destruct (keep n) eqn:E; [done|]. exfalso. pose proof (Hk n p Hin E). pose proof (Hn n p Hin). lia.
Qed.

(** ** Putting the thinned bucket back *)

Definition row_prefix (d : db) (k : bytes) : option bytes := if flatLayout d then Some (flatPrefix k) else None.

(** The versions of one row were thinned below [a]. *)
Record row_thinned (k : bytes) (a : Z) (d d' : db) : Prop := {
  rt_only : only_versions d d';
  rt_sound : sound_db d';
  rt_row : cut_below a (history d k) (history d' k);
  rt_rest : forall k', k' <> k -> history d' k' = history d k'
}.

Lemma flat_doomed k a v e n p :
  flat_key e -> row_entry k e = Some (n, p) -> doomed (Some (flatPrefix k)) a v -> e.1 = v -> n < a.
Proof.
  intros He Hr (version & Hp & Hlt) <-. cbn in Hp. apply row_entry_inv in Hr as [-> Hn]; [|done]. cbn [fst] in Hp.
  rewrite has_prefix_app, trim_prefix_app in Hp. assert (version = sequence n) as -> by congruence. by rewrite number_sequence in Hlt.
Qed.

Lemma thin_flat k a d b' :
  flatLayout d = true -> sound_db d -> thinned (doomed (row_prefix d k) a) (flat_versions d) b' ->
  row_thinned k a d (d <| d_flat := Some b' |>).
Proof.
  intros Hl [Hw Hd Hp] (del & Hdel & E). unfold row_prefix in Hdel. rewrite Hl in Hdel.
  set (d' := d <| d_flat := Some b' |>). assert (only_versions d d') as Ho by done.
  pose proof (only_versions_layout d d' Ho) as Hl'. rewrite Hl in Hl'.
  unfold db_wf in Hw. rewrite Hl in Hw. change (flat_versions d') with b' in *. constructor; [done|constructor| |].
  - unfold db_wf. rewrite Hl'. change (flat_versions d') with b'. rewrite E. intros e [_ He]%list_elem_of_filter. by apply Hw.
  - unfold directory_ok in *. by rewrite Hl'; rewrite Hl in Hd.
  - exact Hp.
  - rewrite !history_flat by done. change (flat_versions d') with b'. rewrite E.
    exists (fun n => bool_decide (flatPrefix k ++ sequence n ∉ del)). split.
    + apply omap_filter_keep. intros e [n p] He Hr. cbn. rewrite bool_decide_spec.
      apply row_entry_inv in Hr as [-> _]; [done|by apply Hw].
    + intros n p Hin Hk. apply bool_decide_eq_false in Hk. apply dec_stable in Hk.
      rewrite Forall_forall in Hdel. apply Hdel in Hk. apply list_elem_of_omap in Hin as (e & He & Hr).
      apply (flat_doomed k a _ e n p (Hw e He) Hr Hk). by apply row_entry_inv in Hr as [-> _]; [|apply Hw].
  - intros k' Hk'. rewrite !history_flat by done. change (flat_versions d') with b'. rewrite E.
    rewrite (omap_filter_keep _ (fun _ => True)); [by apply filter_every|].
    intros e [n p] He Hr. split; [done|]. intros _ Hin. rewrite Forall_forall in Hdel.
    apply Hdel in Hin as (version & Hv & _). cbn in Hv. destruct (has_prefix (flatPrefix k) e.1) eqn:Hpre; [|done].
    apply has_prefix_spec in Hpre as [t Ht]. apply row_entry_inv in Hr as [-> _]; [|by apply Hw]. cbn in Ht.
    apply flatPrefix_inj in Ht as [-> _]. done.
Qed.

Lemma thin_nested k a d b b' :
  flatLayout d = false -> sound_db d -> b_get (d_data d) k = Some (Sub b) -> thinned (doomed (row_prefix d k) a) b b' ->
  row_thinned k a d (d <| d_data ::= b_put k (Sub b') |>).
Proof.
  intros Hl [Hw Hd Hp] Hb (del & Hdel & E). unfold row_prefix in Hdel. rewrite Hl in Hdel.
  set (d' := d <| d_data ::= b_put k (Sub b') |>).
  assert (forall k', b_get (d_data d') k' = if decide (k' = k) then Some (Sub b') else b_get (d_data d) k') as Hget
    by (intros; unfold d'; cbn; apply get_put).
  assert (only_versions d d') as Ho.
  { constructor; try done. intros k'. rewrite Hget. case_decide; [subst; by rewrite Hb|done]. }
  pose proof (only_versions_layout d d' Ho) as Hl'. rewrite Hl in Hl'.
  unfold db_wf in Hw. rewrite Hl in Hw. constructor; [done|constructor| |].
  - unfold db_wf. rewrite Hl'. intros k' rows. rewrite Hget. case_decide; [|apply Hw].
    intros [= <-]. rewrite E. intros e [_ He]%list_elem_of_filter. by apply (Hw k b).
  - intros k' i. rewrite Hget. case_decide; [by intros [= <-]|]. intros Hi. apply Hd in Hi.
    destruct i; [|done]. destruct Hi. congruence.
  - unfold data_plain in *. intros e. unfold d'. cbn. intros [->|[_ He]]%elem_put; [|by apply Hp].
    apply (Hp (k, Sub b)). by apply kv_get_elem; [apply entries_ordered|rewrite <- get_entries].
  - unfold history. rewrite Hl', Hl, Hget, decide_True, Hb, E by done.
    exists (fun n => bool_decide (sequence n ∉ del)). split.
    + apply filter_fmap_keep. intros e He. cbn [fst]. rewrite bool_decide_spec. by rewrite sequence_number by by apply (Hw k b).
    + intros n p (e & [= -> ->] & He)%list_elem_of_fmap Hk. apply bool_decide_eq_false in Hk. apply dec_stable in Hk.
      rewrite sequence_number in Hk by by apply (Hw k b). rewrite Forall_forall in Hdel.
      apply Hdel in Hk as (version & [= <-] & Hlt). done.
  - intros k' Hk'. unfold history. by rewrite Hl', Hl, Hget, decide_False.
Qed.

(** ** The registry's horizon is a sequence *)

Lemma release_root_views_horizon m rootID : compactedHorizon (releaseRootViewsLocked m rootID) = compactedHorizon m.
Proof.
  unfold releaseRootViewsLocked. cbn. generalize (range_set 0 (default ∅ (viewsByRoot m !! rootID))). intros l. revert m.
  induction l as [|v l IH]; intros m; [done|]. cbn. rewrite IH. unfold release_root_view.
  destruct (viewsByID m !! v); [|done]. destruct (negb _); [done|]. destruct (_ <=? _); [|done]. by rewrite releaseRevisionRef_eq.
Qed.

Lemma step_horizon m op :
  tm_good m -> compactedHorizon (tm_step m op) = compactedHorizon m \/ 0 <= compactedHorizon (tm_step m op) \/ compactedHorizon m < 0.
Proof.
  intros Hm. destruct op; cbn [tm_step].
  - left. unfold RegisterRoot. do 2 (case_bool_decide; [done|]). by destruct (rr_Lazy r).
  - left. unfold RegisterChild. do 3 (case_bool_decide; [done|]). destruct (activeByID m !! cr_ParentID r); [|done].
    by destruct (negb _).
  - left. destruct (activeByID m !! id) as [e|] eqn:He; [|unfold Unregister; by rewrite He].
    by destruct (Unregister_spec m id (tg_wf _ Hm) ltac:(by rewrite He)) as [(removed & [_ _ _ Hh _ _ _] & _) _].
  - left. unfold RegisterView. case_bool_decide; [done|]. destruct (_ <=? _); [done|]. case_bool_decide; [done|].
    destruct (view_root_check m r); [|done]. destruct (view_revision_check m r); [|done]. cbn. by case_bool_decide.
  - left. unfold ReleaseView. destruct (viewsByID m !! id) as [v|]; [|done]. destruct (negb _); [done|].
    rewrite releaseRevisionRef_eq, forget_root_view_same. by destruct (_ <=? _).
  - left. unfold BorrowView. by repeat case_match.
  - left. unfold ReturnView. destruct (viewsByID m !! id); [|done]. destruct (negb _ && _); [|done]. by rewrite releaseRevisionRef_eq.
  - left. unfold UpdateRootReadTS. destruct (activeByID m !! id) as [e|]; [|done]. by destruct (te_root e).
  - left. unfold Transition. destruct (activeByID m !! id) as [e|]; [|done]. destruct (transition_check e to o); [|done].
    case_bool_decide; [done|]. destruct (count_outcome_same to o m) as (_ & _ & _ & _ & Eh).
    destruct (TransactionState_Terminal to); [|exact Eh]. rewrite release_ref_eq. cbn match. cbn [fst].
    rewrite release_root_views_horizon. cbn. by destruct (te_pinned _).
  - unfold RecordCompactedHorizon. destruct (Z.ltb_spec (compactedHorizon m) horizon); [cbn; lia|by left].
  - right. left. done.
Qed.

Lemma run_horizon ops : forall m, tm_good m -> tm_admitted m ops = true -> 0 <= compactedHorizon m -> 0 <= compactedHorizon (tm_run m ops).
Proof.
  induction ops as [|op ops IH]; intros m Hm Ha Hh; [done|]. cbn in *. apply andb_true_iff in Ha as [Ha1 Ha].
  apply IH; [by apply tm_step_good|done|]. destruct (step_horizon m op Hm) as [-> |[?|?]]; lia.
Qed.

(** ** The loop over the directory *)

Definition anchor_at (d : db) (k : bytes) (h : Z) : Z := from_option fst 0 (newest_at (history d k) (committed_at d) h).

(** Compacted at [h]. *)
Record compacted (h : Z) (d d' : db) : Prop := {
  cp_only : only_versions d d';
  cp_sound : sound_db d';
  cp_rows : forall k, cut_below (anchor_at d k h) (history d k) (history d' k)
}.

Lemma compacted_newest h d d' k s :
  sound_db d -> compacted h d d' -> h <= s -> newest_at (history d' k) (committed_at d') s = newest_at (history d k) (committed_at d) s.
Proof.
  intros Hd [Ho _ Hr] Hs.
  rewrite (newest_same _ (committed_at d') (committed_at d)) by (intros; by apply only_versions_committed).
  specialize (Hr k). unfold anchor_at in Hr. destruct (newest_at (history d k) (committed_at d) h) as [[a p]|] eqn:E.
  - by apply (newest_cut (committed_at d) _ _ h s a p); [apply history_ordered, Hd|..].
  - apply (newest_cut_none (committed_at d) _ _ h s); [done..|]. intros n p Hin%history_range; [apply Hin|apply Hd].
Qed.

Lemma compacted_trans h d1 d2 d3 : sound_db d1 -> compacted h d1 d2 -> compacted h d2 d3 -> compacted h d1 d3.
Proof.
  intros Hd Hc [O2 S2 R2]. pose proof Hc as [O1 _ R1]. constructor; [by etransitivity|done|].
  intros k. specialize (R2 k). unfold anchor_at in R2. rewrite (compacted_newest h d1 d2) in R2 by done.
  by apply (cut_below_trans _ _ _ _ (R1 k)).
Qed.

Lemma put_horizon_compacted h n d : sound_db d -> compacted h d (put_meta meta_horizon n d).
Proof.
  intros [Hw Hd Hp]. set (d' := put_meta meta_horizon n d). assert (only_versions d d') as Ho.
  { constructor; try done. intros k Hk. unfold d'. cbn. rewrite get_put. by rewrite decide_False. }
  pose proof (only_versions_layout _ _ Ho) as Hl. constructor; [done| |].
  - constructor; [| |done]; [unfold db_wf in *|unfold directory_ok in *]; by rewrite Hl.
  - intros k. unfold history. rewrite Hl. apply cut_below_refl.
Qed.

Lemma row_compacted h k d d' : row_thinned k (anchor_at d k h) d d' -> compacted h d d'.
Proof.
  intros [Ho Hs Hr Hx]. constructor; [done..|]. intros k'. destruct (decide (k' = k)) as [->|Hk]; [done|].
  rewrite Hx by done. apply cut_below_refl.
Qed.

Lemma set_versions_thinned d k b b' a :
  sound_db d -> versions_of d k = Some b -> thinned (doomed (row_prefix d k) a) b b' -> row_thinned k a d (set_versions d k b').
Proof.
  intros Hd Hb Ht. unfold versions_of in Hb. unfold set_versions. destruct (flatLayout d) eqn:Hl.
  - injection Hb as <-. by apply thin_flat.
  - destruct (b_get (d_data d) k) as [[v|rows]|] eqn:Hk; try done. injection Hb as ->. by apply (thin_nested k a d b b').
Qed.

Lemma anchor_read d k h :
  is_u64 h -> sound_db d -> has_prefix rangeGuardPrefix k = false -> reading_version (visible d k h) = anchor_at d k h.
Proof.
  intros Hu Hd Hk. unfold visible. rewrite Hk. rewrite point_visible_spec by (done || apply Hd). unfold read_at, anchor_at.
  destruct (newest_at _ _ _) as [[n p]|]; [|done]. cbn. unfold payload_read. destruct p; [done|]. by case_bool_decide.
Qed.

Lemma compact_keys_spec h fuel : forall d at_ cur work s,
  is_u64 h -> sound_db d -> (forall e, cur = Some e -> e ∈ b_entries (d_data d)) ->
  let '(s', r) := compact_keys h fuel d at_ cur work s in
  only_clock s s' /\ match r with Ok (d', _) => compacted h d d' | Err _ => True end.
Proof.
  induction fuel as [|fuel IH]; intros d at_ [[k i]|] work s Hu Hd Hcur; cbn [compact_keys];
    try (split; [apply only_clock_refl|by apply put_horizon_compacted]);
    (assert (reading_version (visible d k h) = anchor_at d k h) as ->
      by (apply anchor_read; [done|done|]; by apply (sd_plain _ Hd (k, i)), Hcur));
    pose proof (check_ctx_clock s) as Hc; unfold then_do at 1;
    destruct (check_ctx s) as [s1 [[]|e]]; cbn [fst] in Hc; try (by split);
    (destruct (versions_of d k) as [b|] eqn:Hb; [|by split]); unfold then_do;
    change (if flatLayout d then Some (flatPrefix k) else None) with (row_prefix d k);
    pose proof (compact_row_spec (row_prefix d k) (anchor_at d k h) (b_size b) b (first_version (row_prefix d k) b) work s1) as Hrow;
    destruct (compact_row _ _ _ b _ work s1) as [s2 [[[b' w] full]|e]]; destruct Hrow as [Hc2 Ht];
    assert (only_clock s s2) as Hc3 by (by eapply only_clock_trans); try (by split);
    pose proof (row_compacted h k d _ (set_versions_thinned d k b b' _ Hd Hb Ht)) as Hrc;
    (destruct full; [by split|]); (destruct (MaxChunkBytes <=? _); [by split|]); [by split|].
  specialize (IH (set_versions d k b') (mkCompaction (Some k) false) (b_next (d_data (set_versions d k b')) k) (w + blen k) s2
    Hu (cp_sound _ _ _ Hrc) ltac:(intros e He; by apply next_elem in He as [? _])).
  destruct (compact_keys _ _ _ _ _ _ s2) as [s3 r]. destruct IH as [Hc4 Hr]. split; [by eapply only_clock_trans|].
  destruct r as [[d' x]|]; [|done]. by eapply compacted_trans.
Qed.

Lemma compact_from_elem d at_ e : compact_from d at_ = Some e -> e ∈ b_entries (d_data d).
Proof.
  unfold compact_from. destruct (co_after at_) as [after|]; [|apply first_elem].
  destruct (b_seek (d_data d) after) as [[k i]|] eqn:E; [|done].
  destruct (_ && _); [by intros [? _]%next_elem|]. intros [= <-]. by apply seek_elem in E as [? _].
Qed.

(** ** What the store still represents *)

Lemma represents_weaken h h' d log seq : represents h d log seq -> h <= h' -> represents h' d log seq.
Proof. intros [] Hh. constructor; try done. intros k s Hs. apply rp_reads; lia. Qed.

Lemma represents_compacted h h' d d' log seq :
  represents h d log seq -> compacted h' d d' -> represents (Z.max h h') d' log seq.
Proof.
  intros Hr Hc. pose proof Hc as [Ho Hs Hrows]. pose proof (rp_sound _ _ _ _ Hr) as Hd.
  assert (forall k n p, (n, p) ∈ history d' k -> (n, p) ∈ history d k) as Hsub.
  { intros k n p. destruct (Hrows k) as (keep & -> & _). by intros [_ ?]%filter_keep. }
  constructor.
  - done.
  - apply Hr.
  - intros k Hk. apply (ov_listed _ _ Ho), (rp_listed _ _ _ _ Hr). intros E.
    destruct (history d' k) as [|[n p] l] eqn:E'; [done|]. specialize (Hsub k n p). rewrite E', E in Hsub.
    by apply (not_elem_of_nil (n, p)), Hsub; left.
  - intros k n p Hin%Hsub. by apply (rp_versions _ _ _ _ Hr) in Hin.
  - intros n Hn. rewrite (only_versions_committed d d') by done. by apply (rp_committed _ _ _ _ Hr).
  - intros id Hid. rewrite (ov_commits _ _ Ho). by apply (rp_ids _ _ _ _ Hr).
  - apply Hr.
  - apply Hr.
  - intros k s Hle Hu. rewrite (compacted_newest h' d d') by (done || lia). apply (rp_reads _ _ _ _ Hr); [lia|done].
  - transitivity (Head d); [|apply Hr]. unfold Head, meta_number. by rewrite (ov_meta _ _ Ho).
Qed.

Lemma compacted_opening h d d' : compacted h d d' -> opening_sequence d' = opening_sequence d.
Proof. intros [Ho _ _]. unfold opening_sequence, meta_number. by rewrite !(ov_meta _ _ Ho) by done. Qed.

Lemma durable_compacted h h' d d' log : durable h d log -> compacted h' d d' -> durable (Z.max h h') d' log.
Proof.
  intros (seq & Hle & Hr) Hc. exists seq. split; [by rewrite (compacted_opening h' d)|by apply (represents_compacted h h' d)].
Qed.

Lemma durable_weaken h h' d log : durable h d log -> h <= h' -> durable h' d log.
Proof. intros (seq & Hle & Hr) Hh. exists seq. split; [done|by apply (represents_weaken h)]. Qed.

(** Reads at or after the horizon. *)
Lemma compacted_visible h d d' k ts :
  sound_db d -> compacted h d d' -> h <= ts -> is_u64 ts -> has_prefix rangeGuardPrefix k = false ->
  visible d' k ts = visible d k ts.
Proof.
  intros Hd Hc Hs Hu Hk. unfold visible. rewrite Hk. rewrite !point_visible_spec by (done || apply Hd || apply Hc).
  unfold read_at. by rewrite (compacted_newest h d d') by done.
Qed.

(** A transaction whose closure uses nothing of the store but its clock. *)
Lemma update_outcome {A} (f : db -> action (db * A)) s s' r :
  only_clock s (f (s_db s) s).1 -> update f s = (s', r) ->
  (exists d a, (f (s_db s) s).2 = Ok (d, a) /\ r = Ok a /\ s_db s' = d /\ s_trace s' = (d, s_wal s) :: s_trace s /\
     s_wal s' = s_wal s /\ s_localSeq s' = s_localSeq s) \/
  (exists e, r = Err e /\ only_clock s s').
Proof.
  unfold update, then_do. destruct (f (s_db s) s) as [s1 [[d a]|e]]; cbn [fst snd]; intros (n & ->).
  - unfold check_io. cbn. destruct (io_err n) as [e|]; intros [= <- <-].
    + right. exists e. split; [done|]. by exists (S n).
    + left. exists d, a. done.
  - intros [= <- <-]. right. exists e. split; [done|]. by exists n.
Qed.
End Steps.

(** ** Compaction reaches the end, and what it leaves then *)

Section End_.
Context `{BoltLaws} `{!DeletingCursor} `{!DeletingCursorLaws} `{GuardCodec} `{MapRange} `{Env}.

(** ** One row *)

(** A transaction that used up its work removed something. *)
Lemma compact_row_work prefix anchor fuel : forall b cur work s s' b' w,
  (forall e, cur = Some e -> e ∈ b_entries b) -> compact_row prefix anchor fuel b cur work s = (s', Ok (b', w, true)) ->
  exists e, e ∈ b_entries b /\ doomed prefix anchor e.1 /\ forall x, x ∈ b_entries b' -> x.1 <> e.1.
Proof.
  induction fuel as [|fuel IH]; intros b [[v p]|] work s s' b' w Hcur; cbn [compact_row]; try done;
    (destruct (version_part prefix v) as [version|] eqn:Ev; [|done]);
    (destruct (Z.leb_spec anchor (number version)); [done|]);
    assert (doomed prefix anchor v) as Hv by (by exists version);
    pose proof (Hcur _ eq_refl) as Hin; unfold then_do; destruct (check_ctx s) as [s1 [[]|e]]; try done;
    destruct (MaxChunkBytes <=? _).
  1, 3: intros [= _ <- _]; exists (v, p); split_and!; [done|done|]; by intros x [? _]%elem_delete.
  - done.
  - intros E. pose proof (compact_row_spec prefix anchor fuel (b_delete v b) (b_after_delete (b_delete v b) v) (work + blen v + blen p) s1) as Hs.
    rewrite E in Hs. destruct Hs as [_ (del & _ & Hb)]. exists (v, p). split_and!; [done|done|].
    intros x. rewrite Hb. by intros [_ [? _]%elem_delete]%list_elem_of_filter.
Qed.

(** Wherever the cursor stands after a deletion: the row had nothing to lose, or it lost a version. *)
Lemma compact_row_progress prefix anchor low fuel b cur work s s' b' w :
  (forall x e, x ∈ b_entries b -> e ∈ b_entries b -> ble low x.1 -> blt x.1 e.1 -> doomed prefix anchor e.1 -> doomed prefix anchor x.1) ->
  (forall e, e ∈ b_entries b -> doomed prefix anchor e.1 -> exists x, cur = Some x /\ ble x.1 e.1) ->
  (forall x, cur = Some x -> x ∈ b_entries b /\ ble low x.1) ->
  compact_row prefix anchor fuel b cur work s = (s', Ok (b', w, false)) ->
  (forall e, e ∈ b_entries b' -> ~ doomed prefix anchor e.1) \/
  exists e, e ∈ b_entries b /\ doomed prefix anchor e.1 /\ forall x, x ∈ b_entries b' -> x.1 <> e.1.
Proof.
  destruct cur as [[v p]|]; intros Hdown Hall Hcur E.
  2: { left. destruct fuel; injection E as _ <- _; intros e He Hd; by destruct (Hall e He Hd) as (x & ? & _). }
  destruct (Hcur _ eq_refl) as [Hin Hlow].
  assert (~ doomed prefix anchor v -> forall e, e ∈ b_entries b -> ~ doomed prefix anchor e.1) as Hstop.
  { intros Hn e He Hd. destruct (Hall e He Hd) as (x & [= <-] & Hle). apply ble_lt_or_eq in Hle as [Hlt|Ev].
    - by apply Hn, (Hdown (v, p) e).
    - cbn in Ev. by rewrite <- Ev in Hd. }
  assert (version_part prefix v = None \/ (exists version, version_part prefix v = Some version /\ anchor <= number version) \/
    doomed prefix anchor v) as [Ev|[(version & Ev & Hle)|Hv]].
  { destruct (version_part prefix v) as [version|] eqn:Ev; [right|by left].
    destruct (Z.leb_spec anchor (number version)); [left; by exists version|right; by exists version]. }
  - left. destruct fuel; cbn [compact_row] in E; rewrite Ev in E; injection E as _ <- _; apply Hstop; intros (x & Hx & _); congruence.
  - left. destruct fuel; cbn [compact_row] in E; rewrite Ev in E; destruct (Z.leb_spec anchor (number version)); try lia;
      injection E as _ <- _; apply Hstop; intros (x & Hx & ?); assert (x = version) as -> by congruence; lia.
  - right. exists (v, p). split_and!; [done|done|]. destruct Hv as (version & Ev & Hlt).
    destruct fuel as [|fuel]; cbn [compact_row] in E; rewrite Ev in E; (destruct (Z.leb_spec anchor (number version)); [lia|]);
      unfold then_do in E; (destruct (check_ctx s) as [s1 [[]|e]]; [|done]); (destruct (MaxChunkBytes <=? _); [done|]).
    + injection E as _ <- _. by intros x [? _]%elem_delete.
    + pose proof (compact_row_spec prefix anchor fuel (b_delete v b) (b_after_delete (b_delete v b) v) (work + blen v + blen p) s1) as Hs.
      rewrite E in Hs. destruct Hs as [_ (del & _ & Hb)]. intros x. rewrite Hb. by intros [_ [? _]%elem_delete]%list_elem_of_filter.
Qed.

(** ** The rows of a store *)

Lemma number_lt u v : length u = 8%nat -> length v = 8%nat -> blt u v -> number u < number v.
Proof.
  intros Hu Hv Hlt. rewrite <- (sequence_number u), <- (sequence_number v) in Hlt by done.
  by apply sequence_lt in Hlt; [|apply number_range..].
Qed.

Definition row_low (d : db) (k : bytes) : bytes := default [] (row_prefix d k).

(** In a row the versions below the anchor come first. *)
Lemma row_down d k b a x e :
  sound_db d -> versions_of d k = Some b -> x ∈ b_entries b -> e ∈ b_entries b -> ble (row_low d k) x.1 -> blt x.1 e.1 ->
  doomed (row_prefix d k) a e.1 -> doomed (row_prefix d k) a x.1.
Proof.
  intros [Hw _ _] Hb Hx He Hlow Hlt (v & Hv & Ha). unfold versions_of, db_wf, row_low, row_prefix in *. destruct (flatLayout d).
  - injection Hb as <-. cbn in Hv, Hlow. destruct (has_prefix (flatPrefix k) e.1) eqn:Hp; [|done]. injection Hv as <-.
    apply has_prefix_spec in Hp as [t Ht]. rewrite Ht, trim_prefix_app in Ha.
    destruct (prefix_between (flatPrefix k) [] t x.1) as [u Eu]; [by rewrite app_nil_r|rewrite <- Ht; by apply blt_le|].
    exists u. cbn. rewrite Eu, has_prefix_app, trim_prefix_app. split; [done|].
    pose proof (flat_key_row _ _ _ (Hw x Hx) Eu) as Lu. pose proof (flat_key_row _ _ _ (Hw e He) Ht) as Lt.
    rewrite Eu, Ht in Hlt. unfold blt in Hlt. rewrite bcompare_app in Hlt. fold (blt u t) in Hlt.
    pose proof (number_lt u t Lu Lt Hlt). lia.
  - destruct (b_get (d_data d) k) as [[w|rows]|] eqn:Hk; try done. injection Hb as ->. injection Hv as <-.
    exists x.1. split; [done|]. pose proof (number_lt x.1 e.1 (Hw k b Hk x Hx) (Hw k b Hk e He) Hlt). lia.
Qed.

Lemma row_entry_doomed d k b e a :
  sound_db d -> versions_of d k = Some b -> e ∈ b_entries b -> doomed (row_prefix d k) a e.1 ->
  exists n, (n, e.2) ∈ history d k /\ n < a /\
    forall b' p, (forall x, x ∈ b_entries b' -> x ∈ b_entries b) -> (n, p) ∈ history (set_versions d k b') k -> exists x, x ∈ b_entries b' /\ x.1 = e.1.
Proof.
  intros [Hw Hdir _] Hb He (v & Hv & Ha). unfold versions_of, set_versions, db_wf, row_prefix in *. destruct (flatLayout d) eqn:Hl.
  - injection Hb as <-. cbn in Hv. destruct (has_prefix (flatPrefix k) e.1) eqn:Hp; [|done]. injection Hv as <-.
    exists (number (trim_prefix (flatPrefix k) e.1)). split_and!; [|done|].
    + rewrite history_flat by done. apply list_elem_of_omap. exists e. split; [done|]. unfold row_entry. by rewrite Hp.
    + intros b' p Hsub Hin. rewrite history_flat in Hin by done. change (flat_versions _) with b' in Hin.
      apply row_entry_elem in Hin as [Hin _]; [|intros x Hx; by apply Hw, Hsub].
      eexists. split; [exact Hin|]. cbn [fst]. apply has_prefix_spec in Hp as [t Ht]. rewrite Ht, trim_prefix_app.
      by rewrite sequence_number by by apply (flat_key_row e k t (Hw e He)).
  - destruct (b_get (d_data d) k) as [[w|rows]|] eqn:Hk; try done. injection Hb as ->. injection Hv as <-.
    exists (number e.1). split_and!; [|done|].
    + unfold history. rewrite Hl, Hk. apply list_elem_of_fmap. by exists e.
    + intros b' p Hsub Hin. unfold history in Hin. change (flatLayout _) with (flatLayout d) in Hin. rewrite Hl in Hin.
      change (d_data (d <| d_data ::= b_put k (Sub b') |>)) with (b_put k (Sub b') (d_data d)) in Hin.
      rewrite get_put, decide_True in Hin by done. apply list_elem_of_fmap in Hin as (x & E & Hx).
      exists x. split; [done|]. injection E as En _.
      assert (length x.1 = 8%nat) as Lx by (apply (Hw k b Hk x); by apply Hsub).
      pose proof (Hw k b Hk e He) as Le. rewrite <- (sequence_number x.1), <- (sequence_number e.1) by done. by f_equal.
Qed.

Lemma history_doomed d k b b' n p a :
  sound_db d -> versions_of d k = Some b -> (forall x, x ∈ b_entries b' -> x ∈ b_entries b) ->
  (n, p) ∈ history (set_versions d k b') k -> n < a -> exists e, e ∈ b_entries b' /\ doomed (row_prefix d k) a e.1.
Proof.
  intros [Hw _ _] Hb Hsub Hin Ha. unfold versions_of, set_versions, db_wf, row_prefix in *. destruct (flatLayout d) eqn:Hl.
  - injection Hb as <-. rewrite history_flat in Hin by done. change (flat_versions _) with b' in Hin.
    apply row_entry_elem in Hin as [Hin Hu]; [|intros x Hx; by apply Hw, Hsub]. eexists. split; [exact Hin|].
    exists (sequence n). cbn [fst]. unfold version_part. rewrite has_prefix_app, trim_prefix_app. by rewrite number_sequence.
  - destruct (b_get (d_data d) k) as [[w|rows]|] eqn:Hk; try done. injection Hb as ->. unfold history in Hin.
    change (flatLayout _) with (flatLayout d) in Hin. rewrite Hl in Hin.
    change (d_data (d <| d_data ::= b_put k (Sub b') |>)) with (b_put k (Sub b') (d_data d)) in Hin.
    rewrite get_put, decide_True in Hin by done. apply list_elem_of_fmap in Hin as (x & E & Hx). injection E as -> ->.
    exists x. split; [done|]. by exists x.1.
Qed.

(** The row holds nothing a read at the horizon or later could not see. *)
Definition clean_row (h : Z) (d : db) (k : bytes) : Prop := forall n p, (n, p) ∈ history d k -> anchor_at d k h <= n.

Lemma compacted_anchor h d d' k : sound_db d -> compacted h d d' -> anchor_at d' k h = anchor_at d k h.
Proof. intros Hd Hc. unfold anchor_at. by rewrite (compacted_newest h d d'). Qed.

Lemma compacted_history h d d' k n p : compacted h d d' -> (n, p) ∈ history d' k -> (n, p) ∈ history d k.
Proof. intros [_ _ Hr]. destruct (Hr k) as (keep & -> & _). by intros [_ ?]%filter_keep. Qed.

Lemma clean_kept h d d' k : sound_db d -> compacted h d d' -> clean_row h d k -> clean_row h d' k.
Proof. intros Hd Hc Hk n p Hin. rewrite (compacted_anchor h d d') by done. by apply (Hk n p), (compacted_history h d d'). Qed.

(** ** Progress *)

Definition keys (d : db) : gset bytes := list_to_set (b_entries (d_data d)).*1.

Lemma keys_elem d k : k ∈ keys d <-> is_Some (b_get (d_data d) k).
Proof.
  unfold keys. rewrite elem_of_list_to_set, get_entries. destruct (kv_get (b_entries (d_data d)) k) as [i|] eqn:E.
  - split; [by intros _|]. intros _. apply kv_get_elem in E; [|apply entries_ordered]. by apply (list_elem_of_fmap_2 fst _ (k, i)).
  - apply kv_get_None in E. split; [done|by intros []].
Qed.

Lemma kv_listed d k : is_Some (b_get (d_data d) k) -> exists i, (k, i) ∈ b_entries (d_data d).
Proof. intros [i Hi]. exists i. rewrite get_entries in Hi. by apply kv_get_elem in Hi; [|apply entries_ordered]. Qed.

Lemma keys_same d d' : only_versions d d' -> keys d' = keys d.
Proof. intros Ho. apply set_eq. intros k. rewrite !keys_elem. apply Ho. Qed.

(** How many versions the store holds. *)
Definition version_count (d : db) : nat := sum_list ((fun k => length (history d k)) <$> elements (keys d)).

Lemma sum_list_le {A} (f g : A -> nat) (l : list A) :
  (forall x, (f x <= g x)%nat) -> (sum_list (f <$> l) <= sum_list (g <$> l))%nat /\
  forall x, x ∈ l -> (f x < g x)%nat -> (sum_list (f <$> l) < sum_list (g <$> l))%nat.
Proof.
  intros Hf. induction l as [|y l [IH1 IH2]]; cbn; [split; [lia|by intros x ?%not_elem_of_nil]|].
  pose proof (Hf y). split; [lia|]. intros x [->|Hx]%elem_of_cons Hlt; [lia|]. specialize (IH2 x Hx Hlt). lia.
Qed.

Lemma compacted_count h d d' :
  compacted h d d' -> (version_count d' <= version_count d)%nat /\
  forall k, k ∈ keys d -> (length (history d' k) < length (history d k))%nat -> (version_count d' < version_count d)%nat.
Proof.
  intros Hc. unfold version_count. rewrite (keys_same d d') by apply Hc.
  destruct (sum_list_le (fun k => length (history d' k)) (fun k => length (history d k)) (elements (keys d))) as [Hle Hlt].
  - intros k. destruct Hc as [_ _ Hr]. destruct (Hr k) as (keep & -> & _). apply length_filter.
  - split; [done|]. intros k Hk. apply Hlt. by apply elem_of_elements.
Qed.

Lemma row_shorter h k b b' d :
  sound_db d -> versions_of d k = Some b -> compacted h d (set_versions d k b') ->
  (forall x, x ∈ b_entries b' -> x ∈ b_entries b) ->
  (exists e, e ∈ b_entries b /\ doomed (row_prefix d k) (anchor_at d k h) e.1 /\ forall x, x ∈ b_entries b' -> x.1 <> e.1) ->
  (length (history (set_versions d k b') k) < length (history d k))%nat.
Proof.
  intros Hd Hb Hc Hsub (e & He & Hdoom & Hgone).
  destruct (row_entry_doomed d k b e _ Hd Hb He Hdoom) as (n & Hin & Hn & Hback).
  specialize (Hback b'). destruct Hc as [_ _ Hr]. destruct (Hr k) as (keep & E & _). rewrite E in *.
  apply (filter_shorter _ _ (n, e.2)); [done|]. cbn. intros Hk.
  destruct (Hback e.2 Hsub) as (x & Hx & Hxe); [apply filter_keep; split; [by apply Is_true_true|done]|]. by apply (Hgone x).
Qed.
End End_.
