(* ===== verification/CompactPass.v ===== *)
(** * A whole pass of compaction *)

From stdpp Require Import gmap list sorting strings fin_maps.
From Stdlib Require Import Strings.Byte.
From S2P Require Import Prelude TxnState TxnManager TxnPins TxnSteps Bolt Keys Versions Visibility Layouts Conflict Store CommitLog Wal WalRecover Compact CompactSteps.

Section Pass.
Context `{BoltLaws} `{!DeletingCursor} `{!DeletingCursorLaws} `{GuardCodec} `{MapRange} `{Env}.

Definition listed (d : db) (k : bytes) : Prop := is_Some (b_get (d_data d) k).

(** A row that has nothing to lose, in a store that has that or fewer than [c] versions. *)
Definition settled (c : nat) (h : Z) (d : db) (k : bytes) : Prop := clean_row h d k \/ (version_count d < c)%nat.

Lemma settled_more c c' h d k : (c <= c')%nat -> settled c h d k -> settled c' h d k.
Proof. intros Hc [Hk|Hk]; [by left|right; lia]. Qed.

Lemma settled_kept c h d d' k : sound_db d -> compacted h d d' -> settled c h d k -> settled c h d' k.
Proof.
  intros Hd Hc [Hk|Hk]; [left; by apply (clean_kept h d)|right]. destruct (compacted_count h d d' Hc). lia.
Qed.

(** The rows a pass that stands at [at_] is done with. *)
Definition passed (at_ : compaction) (k : bytes) : Prop :=
  match co_after at_ with
  | None => False
  | Some a => if co_repeat at_ then blt k a else ble k a
  end.

(** Where one transaction that began at row [k0] of [d] stopped. *)
Record stopped (h : Z) (k0 : bytes) (d d' : db) (at' : compaction) : Prop := {
  st_after : exists a, co_after at' = Some a /\ listed d a /\ ble k0 a;
  st_removed : co_repeat at' = true -> (version_count d' < version_count d)%nat;
  st_swept c : (version_count d <= c)%nat -> (forall k, listed d k -> blt k k0 -> settled c h d k) ->
    forall k, listed d k -> passed at' k -> settled c h d' k
}.

(** One row of the loop. *)
Lemma row_done h d k b work s s' b' w full :
  is_u64 h -> sound_db d -> versions_of d k = Some b -> listed d k ->
  compact_row (row_prefix d k) (anchor_at d k h) (b_size b) b (first_version (row_prefix d k) b) work s = (s', Ok (b', w, full)) ->
  let d' := set_versions d k b' in
  compacted h d d' /\ (full = true -> (version_count d' < version_count d)%nat) /\ (full = false -> settled (version_count d) h d' k).
Proof.
  intros Hu Hd Hb Hk E d'.
  pose proof (compact_row_spec (row_prefix d k) (anchor_at d k h) (b_size b) b (first_version (row_prefix d k) b) work s) as Hs.
  rewrite E in Hs. destruct Hs as [_ Ht].
  assert (forall x, x ∈ b_entries b' -> x ∈ b_entries b) as Hsub
    by (destruct Ht as (del & _ & Eb); rewrite Eb; by intros x [_ ?]%list_elem_of_filter).
  assert (compacted h d d') as Hc by (apply (row_compacted h k), (set_versions_thinned d k b b'); done).
  assert (forall x, first_version (row_prefix d k) b = Some x -> x ∈ b_entries b /\ ble (row_low d k) x.1) as Hfirst.
  { intros x. unfold row_low, row_prefix. destruct (flatLayout d); cbn; [apply seek_elem|]. intros Hx%first_elem.
    split; [done|apply ble_nil]. }
  split_and!; [done| |].
  - intros ->. apply (compacted_count h d d' Hc) with (k := k); [by apply keys_elem|].
    apply (row_shorter h k b b'); [done..|]. eapply compact_row_work; [|exact E]. intros x Hx. by apply Hfirst.
  - intros ->. destruct (compact_row_progress (row_prefix d k) (anchor_at d k h) (row_low d k) (b_size b) b
      (first_version (row_prefix d k) b) work s s' b' w) as [Hclean|Hlost]; [intros x e'; by apply row_down| |exact Hfirst|exact E| |].
    + intros e' He' Hd'. unfold row_prefix in *. destruct (flatLayout d); cbn; [|by apply first_first].
      apply seek_first; [done|]. destruct Hd' as (v & Hv & _). cbn in Hv.
      destruct (has_prefix (flatPrefix k) e'.1) eqn:Hp; [|done]. apply has_prefix_spec in Hp as [t ->]. apply ble_app.
    + left. intros n p Hin. rewrite (compacted_anchor h d d') by done. apply Z.nlt_ge. intros Hlt.
      destruct (history_doomed d k b b' n p _ Hd Hb Hsub Hin Hlt) as (e & He & Hdoom). by apply (Hclean e).
    + right. apply (compacted_count h d d' Hc) with (k := k); [by apply keys_elem|]. by apply (row_shorter h k b b').
Qed.

Lemma stopped_later h k0 k1 d d1 d2 at' :
  sound_db d -> compacted h d d1 -> ble k0 k1 ->
  (forall c, (version_count d <= c)%nat -> (forall k, listed d k -> blt k k0 -> settled c h d k) ->
    forall k, listed d1 k -> blt k k1 -> settled c h d1 k) ->
  compacted h d1 d2 -> stopped h k1 d1 d2 at' -> stopped h k0 d d2 at'.
Proof.
  intros Hd Hc Hle Hclean Hc2 [(a & Ha & Hl & Hk) Hrem Hsw]. pose proof (cp_only _ _ _ Hc) as Ho.
  assert (forall k, listed d1 k <-> listed d k) as Hlist by (intros; apply Ho). constructor.
  - exists a. split_and!; [done|by apply Hlist|]. apply ble_lt_or_eq in Hle as [Hlt| ->]; [|done].
    apply blt_le. by apply (blt_le_trans _ k1).
  - intros Hr. specialize (Hrem Hr). destruct (compacted_count h d d1 Hc). lia.
  - intros c Hle' Hbefore k Hk1 Hp. destruct (compacted_count h d d1 Hc). apply Hsw; [lia| |by apply Hlist|done]. by apply Hclean.
Qed.

Lemma compact_keys_end h fuel : forall d at_ cur work s s' d' at' fin,
  is_u64 h -> sound_db d -> (forall e, cur = Some e -> e ∈ b_entries (d_data d)) ->
  compact_keys h fuel d at_ cur work s = (s', Ok (d', (at', fin))) ->
  compacted h d d' /\ (fin = false -> exists e, cur = Some e /\ stopped h e.1 d d' at') /\
  (fin = true -> forall c, (version_count d <= c)%nat ->
    (forall k, listed d k -> (forall e, cur = Some e -> blt k e.1) -> settled c h d k) ->
    forall k, listed d k -> settled c h d' k).
Proof.
  induction fuel as [|fuel IH]; intros d at_ [[k i]|] work s s' d' at' fin Hu Hd Hcur E; cbn [compact_keys] in E;
    try (injection E as _ <- <- <-; split_and!; [by apply put_horizon_compacted|done|intros _ c _ Hall k Hk;
           apply (settled_kept c h d); [done|by apply put_horizon_compacted|by apply Hall]]);
    rewrite (anchor_read d k h) in E by (done || by apply (sd_plain _ Hd (k, i)), Hcur);
    (assert (listed d k) as Hk by (apply keys_elem; unfold keys; rewrite elem_of_list_to_set; apply (list_elem_of_fmap_2 fst _ (k, i)), Hcur; done));
    unfold then_do in E; (destruct (check_ctx s) as [s1 [[]|e]]; [|done]);
    (destruct (versions_of d k) as [b|] eqn:Hb; [|done]);
    change (if flatLayout d then Some (flatPrefix k) else None) with (row_prefix d k) in E;
    (destruct (compact_row _ _ _ b _ work s1) as [s2 [[[b' w] full]|e]] eqn:Er; [|done]);
    destruct (row_done h d k b work s1 s2 b' w full Hu Hd Hb Hk Er) as (Hc & Hfull & Hclean);
    set (d1 := set_versions d k b') in *;
    assert (forall at1, at1 = mkCompaction (Some k) full -> stopped h k d d1 at1) as Hstop by (
      intros at1 ->; constructor; [exists k; split_and!; [done|done|apply ble_lt_or_eq; by right]|exact Hfull|];
      intros c Hle Hbefore k' Hk' Hp; cbn in Hp; destruct full;
      [apply (settled_kept c h d d1); [done..|by apply Hbefore]|];
      apply ble_lt_or_eq in Hp as [Hp| ->]; [apply (settled_kept c h d d1); [done..|by apply Hbefore]|by apply (settled_more (version_count d)), Hclean]);
    (destruct full; [injection E as _ <- <- <-; split_and!; [done|intros _; exists (k, i); split; [done|by apply Hstop]|done]|]);
    (destruct (MaxChunkBytes <=? _); [injection E as _ <- <- <-; split_and!; [done|intros _; exists (k, i); split; [done|by apply Hstop]|done]|]).
  { injection E as _ <- <- <-. split_and!; [done|intros _; exists (k, i); split; [done|by apply Hstop]|done]. }
  pose proof (cp_sound _ _ _ Hc) as Hd1.
  destruct (IH d1 (mkCompaction (Some k) false) (b_next (d_data d1) k) (w + blen k) s2 s' d' at' fin Hu Hd1
    ltac:(intros e He; by apply next_elem in He as [? _]) E) as (Hc2 & Hno & Hyes).
  assert (forall k', listed d1 k' <-> listed d k') as Hlist by (intros; apply (cp_only _ _ _ Hc)).
  assert (forall c, (version_count d <= c)%nat -> (forall k', listed d k' -> blt k' k -> settled c h d k') ->
    forall k', listed d1 k' -> ble k' k -> settled c h d1 k') as Hsw.
  { intros c Hle Hbefore k' Hk' [Hlt| ->]%ble_lt_or_eq; [|by apply (settled_more (version_count d)), Hclean].
    apply (settled_kept c h d d1); [done..|]. apply Hbefore; [by apply Hlist|done]. }
  destruct (compacted_count h d d1 Hc) as [Hcnt _].
  assert (forall k', listed d1 k' -> (forall e, b_next (d_data d1) k = Some e -> blt k' e.1) -> ble k' k) as Hnext.
  { intros k' [i' Hk']%kv_listed Hlt. apply not_blt. intros Hb'.
    destruct (next_first (d_data d1) k (k', i') Hk' Hb') as (x & Hx & Hle). specialize (Hlt x Hx). cbn in Hle.
    apply (blt_irrefl k'). by apply (blt_le_trans _ x.1). }
  split_and!; [by apply (compacted_trans h d d1)| |].
  - intros Hf. destruct (Hno Hf) as (e & He & Hs). exists (k, i). split; [done|]. cbn.
    apply (stopped_later h k e.1 d d1); [done|done|apply blt_le; by apply next_elem in He as [_ ?]| |done|done].
    intros c Hle Hbefore k' Hk' Hlt. apply (Hsw c); [done|done|done|]. apply Hnext; [done|]. intros x Hx. congruence.
  - intros Hf c Hle Hbefore k' Hk'. apply Hyes; [done|lia| |by apply Hlist].
    intros k2 Hk2 Hlt. apply (Hsw c); [done| |done|by apply Hnext]. intros k3 Hk3 Hlt3. apply Hbefore; [done|]. by intros e [= <-].
Qed.

(** ** From one transaction to the next *)

Definition later (at_ : compaction) (k : bytes) : Prop := match co_after at_ with None => True | Some a => blt a k end.

#[local] Instance later_dec at_ k : Decision (later at_ k).
Proof. unfold later. destruct (co_after at_); apply _. Defined.

Definition ahead (d : db) (at_ : compaction) : nat := size (filter (later at_) (keys d)).

Lemma ahead_bound d at_ : (ahead d at_ <= size (keys d))%nat.
Proof. apply subseteq_size. by intros k [_ ?]%elem_of_filter. Qed.

(** What is left to do. *)
Definition work_left (d : db) (at_ : compaction) : nat :=
  (2 * version_count d + ahead d at_ + (if co_repeat at_ then 1 else 0))%nat.

Definition swept (c : nat) (h : Z) (d : db) (at_ : compaction) : Prop := forall k, listed d k -> passed at_ k -> settled c h d k.

Lemma seek_before d a k e : b_seek (d_data d) a = Some e -> listed d k -> blt k e.1 -> blt k a.
Proof.
  intros Hs [i Hi]%kv_listed Hlt. apply dec_stable. intros Hn. apply not_blt in Hn.
  destruct (seek_first (d_data d) a (k, i) Hi Hn) as (x & Hx & Hle). rewrite Hs in Hx. injection Hx as <-.
  apply (blt_irrefl k). by apply (blt_le_trans _ e.1).
Qed.

Lemma compact_from_start d at_ e :
  compact_from d at_ = Some e ->
  (forall k, listed d k -> blt k e.1 -> passed at_ k) /\
  (forall a, co_after at_ = Some a -> ble a e.1 /\ (co_repeat at_ = false -> blt a e.1)).
Proof.
  unfold compact_from, passed. destruct (co_after at_) as [a|].
  2: { intros He. split; [|done]. intros k [i Hi]%kv_listed Hlt. destruct (first_first (d_data d) (k, i) Hi) as (x & Hx & Hle).
       rewrite He in Hx. injection Hx as <-. apply (blt_irrefl k). by apply (blt_le_trans _ e.1). }
  destruct (b_seek (d_data d) a) as [[k0 i0]|] eqn:Es; [|done]. pose proof (seek_elem _ _ _ Es) as [_ Ha]. cbn in Ha.
  case_bool_decide as Hk0; cbn [andb].
  - destruct (co_repeat at_) eqn:Er; cbn [negb]; intros He.
    + injection He as <-. split; [|by intros ? [= <-]]. intros k Hk Hlt. by apply (seek_before d a k (k0, i0)).
    + subst k0. pose proof (next_elem _ _ _ He) as [_ Hn]. split; [|intros ? [= <-]; split; [by apply blt_le|done]].
      intros k [i Hi]%kv_listed Hlt. apply not_blt. intros Hak. destruct (next_first (d_data d) a (k, i) Hi Hak) as (x & Hx & Hle).
      rewrite He in Hx. injection Hx as <-. apply (blt_irrefl k). by apply (blt_le_trans _ e.1).
  - intros [= <-]. apply ble_lt_or_eq in Ha as [Ha|]; [|done]. cbn.
    split; [|intros ? [= <-]; split; [by apply blt_le|done]].
    intros k Hk Hlt. pose proof (seek_before d a k (k0, i0) Es Hk Hlt). destruct (co_repeat at_); [done|by apply blt_le].
Qed.

Lemma compact_from_end d at_ k : compact_from d at_ = None -> listed d k -> passed at_ k.
Proof.
  unfold compact_from, passed. intros Hn [i Hi]%kv_listed. destruct (co_after at_) as [a|].
  2: { destruct (first_first (d_data d) (k, i) Hi) as (x & Hx & _). congruence. }
  destruct (b_seek (d_data d) a) as [[k0 i0]|] eqn:Es.
  - case_bool_decide as Hk0; [|done]. destruct (co_repeat at_); [done|]. cbn in Hn. subst k0. apply not_blt. intros Hlt.
    destruct (next_first (d_data d) a (k, i) Hi Hlt) as (x & Hx & _). congruence.
  - assert (blt k a) as Hlt; [|destruct (co_repeat at_); [done|by apply blt_le]]. apply dec_stable. intros Hb. apply not_blt in Hb.
    destruct (seek_first (d_data d) a (k, i) Hi Hb) as (x & Hx & _). congruence.
Qed.

Lemma ahead_le d d' at_ at' e :
  keys d' = keys d -> (forall a, co_after at_ = Some a -> ble a e) -> (exists a, co_after at' = Some a /\ listed d a /\ ble e a) ->
  (ahead d' at' <= ahead d at_)%nat /\
  ((forall a, co_after at_ = Some a -> blt a e) -> (ahead d' at' < ahead d at_)%nat).
Proof.
  intros Hk Hle (a' & Ha' & Hl & He). unfold ahead. rewrite Hk.
  assert (filter (later at') (keys d) ⊆ filter (later at_) (keys d)) as Hsub.
  { intros k [Hlater Hin]%elem_of_filter. apply elem_of_filter. split; [|done]. unfold later in *. rewrite Ha' in Hlater.
    destruct (co_after at_) as [a|]; [|done]. apply (ble_lt_trans _ e); [by apply Hle|]. by apply (ble_lt_trans _ a'). }
  split; [by apply subseteq_size|]. intros Hlt. apply subset_size. split; [done|]. intros Hback.
  assert (a' ∈ filter (later at_) (keys d)) as Hin.
  { apply elem_of_filter. split; [|by apply keys_elem]. unfold later. destruct (co_after at_) as [a|]; [|done].
    apply (blt_le_trans _ e); [by apply Hlt|done]. }
  apply Hback, elem_of_filter in Hin as [Hbad _]. unfold later in Hbad. rewrite Ha' in Hbad. by apply blt_irrefl in Hbad.
Qed.

Lemma stopped_progress h d d' at_ at' e :
  compact_from d at_ = Some e -> compacted h d d' -> stopped h e.1 d d' at' -> (work_left d' at' < work_left d at_)%nat.
Proof.
  intros He Hc [Hafter Hrem _]. destruct (compact_from_start _ _ _ He) as [_ Hstart].
  pose proof (keys_same _ _ (cp_only _ _ _ Hc)) as Hk. destruct (compacted_count h d d' Hc) as [Hcount _].
  destruct (ahead_le d d' at_ at' e.1 Hk) as [Hle Hlt]; [intros a Ha; by apply Hstart|done|].
  unfold work_left. destruct (co_repeat at').
  - specialize (Hrem eq_refl). destruct (co_repeat at_); lia.
  - destruct (co_repeat at_); [lia|]. assert (ahead d' at' < ahead d at_)%nat by (apply Hlt; intros a Ha; by apply Hstart). lia.
Qed.

Lemma compacted_id h d : sound_db d -> compacted h d d.
Proof. intros Hd. constructor; [done|done|]. intros k. apply cut_below_refl. Qed.

(** ** The loop *)

Lemma horizon_recorded m d d' h : only_versions d d' -> compaction_horizon (RecordCompactedHorizon m h) d' = compaction_horizon m d.
Proof.
  intros Ho. unfold compaction_horizon, Head, meta_number. rewrite (ov_meta _ _ Ho) by done.
  unfold RecordCompactedHorizon. by destruct (_ <? _).
Qed.

(** What a transaction that did not fail did. *)
Lemma compact_batch_done generation at_ m s s' m' at' fin :
  is_u64 (compaction_horizon m (s_db s)) -> sound_db (s_db s) ->
  compact_batch generation at_ m s = (s', m', Ok (at', fin)) ->
  let h := compaction_horizon m (s_db s) in
  compacted h (s_db s) (s_db s') /\ compaction_horizon m' (s_db s') = h /\
  (fin = false -> (work_left (s_db s') at' < work_left (s_db s) at_)%nat /\
     (forall c, (version_count (s_db s) <= c)%nat -> swept c h (s_db s) at_ -> swept c h (s_db s') at')) /\
  (fin = true -> forall c, (version_count (s_db s) <= c)%nat -> swept c h (s_db s) at_ ->
     forall k, listed (s_db s) k -> settled c h (s_db s') k).
Proof.
  intros Hu Hd E h. unfold compact_batch in E. destruct (negb _); [done|]. destruct (AvailabilityError s); [done|].
  fold h in E. destruct (update _ s) as [s1 r] eqn:Eu. injection E as <- <- ->.
  pose proof (compact_keys_spec h (b_size (d_data (s_db s))) (s_db s) at_ (compact_from (s_db s) at_) 0 s
    Hu Hd ltac:(intros; by eapply compact_from_elem)) as Hspec.
  apply update_outcome in Eu; [|destruct (compact_keys _ _ _ _ _ _ _); apply Hspec]. clear Hspec.
  destruct Eu as [(d & a & Ef & [= <-] & <- & _)|(e & [=] & _)]. cbn [is_ok].
  destruct (compact_keys _ _ _ _ _ _ _) as [s2 r2] eqn:Ek. cbn in Ef. subst r2.
  apply compact_keys_end in Ek as (Hc & Hno & Hyes); [|done|done|intros; by eapply compact_from_elem].
  split_and!; [done|apply (horizon_recorded m (s_db s)), Hc| |].
  - intros ->. destruct (Hno eq_refl) as (e & He & Hs). split; [by apply (stopped_progress h _ _ _ _ e)|].
    intros c Hle Hsw k Hk Hp. destruct Hs as [_ _ Hs]. apply Hs; [done| |by apply (cp_only _ _ _ Hc)|done].
    intros k' Hk' Hlt. apply Hsw; [done|]. by apply (compact_from_start _ _ _ He).
  - intros -> c Hle Hsw. apply Hyes; [done|done|]. intros k Hk Hbefore. apply Hsw; [done|].
    destruct (compact_from (s_db s) at_) as [e|] eqn:Ef; [|by apply (compact_from_end (s_db s))].
    apply (compact_from_start _ _ _ Ef); [done|by apply Hbefore].
Qed.

Lemma compact_loop_ends d0 h fuel : forall generation at_ m s,
  is_u64 h -> sound_db d0 -> compacted h d0 (s_db s) -> compaction_horizon m (s_db s) = h ->
  (work_left (s_db s) at_ < fuel)%nat ->
  exists s' m' r, compact_loop fuel generation at_ m s = (s', m', Some r) /\
    (r = Ok tt -> compacted h d0 (s_db s') /\ compaction_horizon m' (s_db s') = h /\
       forall c, (version_count (s_db s) <= c)%nat -> swept c h (s_db s) at_ -> forall k, listed d0 k -> settled c h (s_db s') k).
Proof.
  induction fuel as [|fuel IH]; intros generation at_ m s Hu Hd0 Hc0 Hh Hf; [lia|]. cbn [compact_loop].
  destruct (check_ctx s) as [s1 [[]|e]] eqn:Ec; [|by eexists _, _, _].
  assert (s_db s1 = s_db s) as Es by (by injection Ec as <- _).
  destruct (compact_batch generation at_ m s1) as [[s2 m2] [[at' fin]|e]] eqn:Eb; [|by eexists _, _, _].
  apply compact_batch_done in Eb as (Hc & Hh2 & Hno & Hyes); rewrite Es in *; [|by rewrite Hh|apply Hc0]. rewrite Hh in *.
  assert (compacted h d0 (s_db s2)) as Hc2 by (by apply (compacted_trans h d0 (s_db s))). destruct fin.
  - eexists _, _, _. split; [done|]. intros _. split_and!; [done|done|]. intros c Hle Hsw k Hk. apply Hyes; [done..|]. by apply (cp_only _ _ _ Hc0).
  - destruct (Hno eq_refl) as [Hw Hs]. destruct (IH generation at' m2 s2) as (s3 & m3 & r & -> & Hr); [done|done|done|done|lia|].
    exists s3, m3, r. split; [done|]. intros Hok. destruct (Hr Hok) as (Hc3 & Hh3 & Hsw3). split_and!; [done|done|].
    intros c Hle Hsw. destruct (compacted_count h _ _ Hc). apply Hsw3; [lia|]. by apply Hs.
Qed.

(** A clean row is the history from the version a read at the horizon sees. *)
Lemma clean_history h d d' k :
  sound_db d -> compacted h d d' -> clean_row h d' k ->
  history d' k = filter (fun np : Z * bytes => anchor_at d k h <= np.1) (history d k).
Proof.
  intros Hd Hc Hclean. unfold clean_row in Hclean. rewrite (compacted_anchor h d d') in Hclean by done.
  destruct Hc as [_ _ Hr]. destruct (Hr k) as (keep & E & Hk). rewrite E in *. apply list_filter_iff'.
  intros [n p] Hin. cbn. rewrite Is_true_true. split.
  - intros Hn. apply (Hclean n p), filter_keep. done.
  - intros Hle. destruct (keep n) eqn:En; [done|]. specialize (Hk n p Hin En). lia.
Qed.

(** ** Passes one after another *)

Fixpoint compact_passes (passes fuel : nat) (m : TransactionManager) (s : Store)
    : Store * TransactionManager * option (result mvcc_error unit) :=
  match passes with
  | O => (s, m, Some (Ok tt))
  | S passes =>
      match CompactHistory fuel m s with
      | (s, m, Some (Ok _)) => compact_passes passes fuel m s
      | other => other
      end
  end.

Lemma compact_passes_end h fuel passes : forall m s,
  is_u64 h -> sound_db (s_db s) -> compaction_horizon m (s_db s) = h ->
  (2 * version_count (s_db s) + size (keys (s_db s)) < fuel)%nat ->
  exists s' m' r, compact_passes passes fuel m s = (s', m', Some r) /\
    (r = Ok tt -> compacted h (s_db s) (s_db s') /\
       ((forall k, listed (s_db s) k -> clean_row h (s_db s') k) \/ (version_count (s_db s') + passes <= version_count (s_db s))%nat)).
Proof.
  induction passes as [|passes IH]; intros m s Hu Hd Hh Hf; cbn [compact_passes].
  { exists s, m, (Ok tt). split; [done|]. intros _. split; [by apply compacted_id|right; lia]. }
  destruct (compact_loop_ends (s_db s) h fuel (s_generation s) (mkCompaction None false) m s Hu Hd
    (compacted_id h _ Hd) Hh) as (s1 & m1 & r1 & E & Hr1).
  { pose proof (ahead_bound (s_db s) (mkCompaction None false)). unfold work_left. cbn [co_repeat]. lia. }
  unfold CompactHistory. rewrite E. destruct r1 as [[]|e]; [|by exists s1, m1, (Err e)].
  destruct (Hr1 eq_refl) as (Hc1 & Hh1 & Hsw). destruct (compacted_count h _ _ Hc1) as [Hle _].
  pose proof (keys_same _ _ (cp_only _ _ _ Hc1)) as Hk.
  destruct (IH m1 s1 Hu (cp_sound _ _ _ Hc1) Hh1) as (s2 & m2 & r2 & E2 & Hr2); [rewrite Hk; lia|].
  exists s2, m2, r2. split; [done|]. intros Hok. destruct (Hr2 Hok) as [Hc2 Hend].
  split; [by apply (compacted_trans h _ (s_db s1))|].
  assert (forall k, listed (s_db s1) k <-> listed (s_db s) k) as Hlist by (intros; apply (cp_only _ _ _ Hc1)).
  destruct Hend as [Hclean|Hcount]; [left; intros k Hl; by apply Hclean, Hlist|].
  destruct (decide (version_count (s_db s1) < version_count (s_db s))%nat); [right; lia|left].
  intros k Hl. apply (clean_kept h (s_db s1)); [apply Hc1|done|].
  by destruct (Hsw (version_count (s_db s)) ltac:(lia) ltac:(by intros k') k Hl).
Qed.
End Pass.
