(* ===== verification/CompactFacts.v ===== *)
(** * The property of compaction *)

From stdpp Require Import gmap list sorting strings fin_maps.
From Stdlib Require Import Strings.Byte.
From S2P Require Import Prelude TxnState TxnManager TxnPins TxnSteps Bolt Keys Versions Visibility Layouts Conflict Store CommitLog Wal Group WalRecover WalGroup GroupFacts Compact CompactSteps CompactPass.

Section Properties.
Context `{BoltLaws} `{!DeletingCursor} `{!DeletingCursorLaws} `{GuardCodec} `{MapRange} `{Env} `{Digest}.

Lemma horizon_bounds m d : tm_good m -> 0 <= compactedHorizon m ->
  is_u64 (compaction_horizon m d) /\ compaction_horizon m d <= Head d /\ forall r, 0 < pin_count m r -> compaction_horizon m d <= r.
Proof.
  intros Hm Hh. pose proof (oldest_spec m (wf_core _ (tg_wf _ Hm))) as Ho. unfold compaction_horizon.
  pose proof (number_range (raw (b_get (d_meta d) meta_head))) as Hu.
  change (number (raw (b_get (d_meta d) meta_head))) with (Head d) in Hu. unfold is_u64 in *.
  destruct (OldestReadTS m) as [o|].
  - destruct Ho as [Ho Hmin]. pose proof (held_above_horizon m o Hm Ho).
    destruct (Z.ltb_spec o (Head d)); (split_and!; [lia|lia|lia|]); intros r Hr; specialize (Hmin r Hr); lia.
  - split_and!; [lia|lia|lia|]. intros r Hr. rewrite Ho in Hr. lia.
Qed.

Lemma horizon_admissible m d : tm_good m -> 0 <= compactedHorizon m -> tm_admissible m (TxCompacted (compaction_horizon m d)) = true.
Proof.
  intros Hm Hh. cbn. pose proof (oldest_spec m (wf_core _ (tg_wf _ Hm))) as Ho.
  destruct (horizon_bounds m d Hm Hh) as (_ & _ & Hle).
  destruct (OldestReadTS m) as [o|]; [|done]. cbn. apply Z.leb_le, Hle, Ho.
Qed.

Lemma opening_sound h log s : recovered h log s -> sound_db (s_db s) /\ forall k, history (s_db s) k <> [] -> listed (s_db s) k.
Proof. intros (_ & _ & Hr & _). split; apply Hr. Qed.

Lemma tm_admitted_snoc m ops op : tm_admitted m ops = true -> tm_admissible (tm_run m ops) op = true -> tm_admitted m (ops ++ [op]) = true.
Proof.
  revert m. induction ops as [|o ops IH]; intros m; cbn; [by intros _ ->|].
  intros [Ho Ha]%andb_true_iff Hop. apply andb_true_iff. split; [done|]. by apply IH.
Qed.

Lemma tm_run_snoc m ops op : tm_run m (ops ++ [op]) = tm_step (tm_run m ops) op.
Proof. revert m. induction ops as [|o ops IH]; intros m; [done|]. cbn. apply IH. Qed.

(** C23: compaction takes nothing that is pinned.  In any admitted run of the registry, a transaction of the
    pass, whichever layout the store has, wherever the pass stands and whichever write fails, leaves the
    abstract log as it was, also on every disk a crash can leave.  Every key reads as before at every pinned
    timestamp, which are those of the registered views and of the running roots not begun lazily, and at
    every snapshot from the published head on; and the registry is told a horizon that its own
    promise allows, so what is pinned later is as safe.  A root begun lazily has pinned nothing before its first
    consistent read, and is promised nothing until then. *)
Theorem compaction_takes_nothing (ops : list tm_op) (h : Z) (log : list commit) (s s' : Store) (generation : Z)
    (at_ : compaction) (m' : TransactionManager) (r : result mvcc_error (compaction * bool)) :
  tm_admitted NewTransactionManager ops = true ->
  let m := tm_run NewTransactionManager ops in
  recovered h log s -> compact_batch generation at_ m s = (s', m', r) ->
  let horizon := compaction_horizon m (s_db s) in
  recovered (Z.max h horizon) log s' /\
  (exists more, s_trace s' = more ++ s_trace s /\ forall x, x ∈ more -> disk_stands (Z.max h horizon) log x) /\
  (forall k ts, has_prefix rangeGuardPrefix k = false -> is_u64 ts -> 0 < pin_count m ts \/ Head (s_db s) <= ts ->
     visible (s_db s') k ts = visible (s_db s) k ts) /\
  (exists more, tm_admitted NewTransactionManager (ops ++ more) = true /\ m' = tm_run NewTransactionManager (ops ++ more)).
Proof.
  intros Ha m Hrec E horizon. pose proof (tm_run_good ops _ good_new Ha) as Hm. fold m in Hm.
  assert (0 <= compactedHorizon m) as Hh by (by apply (run_horizon ops _ good_new Ha)).
  destruct (horizon_bounds m (s_db s) Hm Hh) as (Hu & Hhead & Hpin). fold horizon in Hu, Hhead, Hpin.
  pose proof Hrec as (Hw & Hd & Hr & Hi).
  assert (forall s1, s_db s1 = s_db s -> s_wal s1 = s_wal s -> s_localSeq s1 = s_localSeq s -> recovered (Z.max h horizon) log s1) as Hsame.
  { intros s1 E1 E2 E3. unfold recovered. rewrite E1, E2, E3. split_and!; [done| | |done].
    - apply (durable_weaken h); [done|lia].
    - apply (represents_weaken h); [done|lia]. }
  assert (exists more, tm_admitted NewTransactionManager (ops ++ more) = true /\ m = tm_run NewTransactionManager (ops ++ more)) as Hm0
    by (exists []; by rewrite app_nil_r).
  unfold compact_batch in E. destruct (negb _); [injection E as <- <- <-; split_and!; [by apply Hsame|by exists []; split; [|intros x ?%not_elem_of_nil]|done|done]|].
  destruct (AvailabilityError s) as [e|]; [injection E as <- <- <-; split_and!; [by apply Hsame|by exists []; split; [|intros x ?%not_elem_of_nil]|done|done]|].
  fold horizon in E. pose proof (compact_keys_spec horizon (b_size (d_data (s_db s))) (s_db s) at_ (compact_from (s_db s) at_) 0 s
    Hu (rp_sound _ _ _ _ Hr) ltac:(intros; by eapply compact_from_elem)) as Hspec.
  destruct (update _ s) as [s1 res] eqn:Eu. injection E as <- <- <-.
  apply update_outcome in Eu; [|destruct (compact_keys _ _ _ _ _ _ _); apply Hspec].
  destruct Eu as [(d & a & Ef & -> & Edb & Etr & Ewal & Eseq)|(e & -> & n & ->)].
  2: { split_and!; [by apply Hsame|by exists []; split; [|intros x ?%not_elem_of_nil]|done|exact Hm0]. }
  destruct (compact_keys _ _ _ _ _ _ _) as [s2 r2]. cbn in Ef. rewrite Ef in Hspec. destruct Hspec as [_ Hc].
  assert (recovered (Z.max h horizon) log s1) as Hrec1.
  { unfold recovered. rewrite Edb, Ewal, Eseq. split_and!; [done|by apply (durable_compacted h horizon (s_db s))|
      by apply (represents_compacted h horizon (s_db s))|]. unfold wal_identity. by rewrite (ov_meta _ _ (cp_only _ _ _ Hc)). }
  split_and!; [done| | |].
  - exists [(d, s_wal s)]. split; [done|]. intros x ->%list_elem_of_singleton. rewrite <- Edb, <- Ewal. by apply recovered_disk.
  - intros k ts Hk Hts Hor. rewrite Edb. apply (compacted_visible horizon); [apply Hr|done| |done|done].
    destruct Hor as [Hp|]; [by apply Hpin|lia].
  - exists [TxCompacted horizon]. rewrite tm_run_snoc. split; [|done].
    apply tm_admitted_snoc; [done|]. by apply horizon_admissible.
Qed.

(** C24: compaction that runs alone ends and gets on, wherever the cursor stands after a deletion, which the
    library leaves open.  A pass ends after at most as many transactions as twice the versions and once
    the rows the store holds, and one more.  Passes that end without an error have removed from the
    history of a key only versions below the one that a read at the horizon sees; and after any number of
    them either no such version is left anywhere, or at least as many versions as there were passes are
    gone, so that more passes than there are versions leave exactly the history from that version on. *)
Theorem compaction_ends (ops : list tm_op) (h : Z) (log : list commit) (s : Store) (passes fuel : nat) :
  tm_admitted NewTransactionManager ops = true ->
  let m := tm_run NewTransactionManager ops in
  recovered h log s -> (2 * version_count (s_db s) + size (keys (s_db s)) < fuel)%nat ->
  let horizon := compaction_horizon m (s_db s) in
  let wanted k := filter (fun np : Z * bytes => anchor_at (s_db s) k horizon <= np.1) (history (s_db s) k) in
  exists s' m' r, compact_passes passes fuel m s = (s', m', Some r) /\
    (r = Ok tt -> (forall k, cut_below (anchor_at (s_db s) k horizon) (history (s_db s) k) (history (s_db s') k)) /\
       ((forall k, history (s_db s') k = wanted k) \/ (version_count (s_db s') + passes <= version_count (s_db s))%nat)).
Proof.
  intros Ha m Hrec Hf horizon wanted. pose proof (tm_run_good ops _ good_new Ha) as Hm. fold m in Hm.
  assert (0 <= compactedHorizon m) as Hh by (by apply (run_horizon ops _ good_new Ha)).
  destruct (horizon_bounds m (s_db s) Hm Hh) as (Hu & _ & _). fold horizon in Hu.
  destruct (opening_sound h log s Hrec) as [Hd Hlisted].
  destruct (compact_passes_end horizon fuel passes m s Hu Hd eq_refl Hf) as (s' & m' & r & E & Hr).
  exists s', m', r. split; [done|]. intros Hok. destruct (Hr Hok) as [Hc Hend].
  split; [apply (cp_rows _ _ _ Hc)|]. destruct Hend as [Hclean|]; [left|by right]. intros k. unfold wanted.
  destruct (history (s_db s) k) as [|x l] eqn:El.
  - destruct (cp_rows _ _ _ Hc k) as (keep & -> & _). by rewrite El.
  - rewrite <- El. apply (clean_history horizon); [done|done|]. apply Hclean, Hlisted. by rewrite El.
Qed.
End Properties.

(** ** The store of two commits to one row, with nobody reading *)

#[local] Existing Instance calm.
#[local] Existing Instance prefix_codec.
#[local] Existing Instance sum_digest.
#[local] Existing Instance sum_digest_laws.

Definition grown_store : Store := (commit_groups three_groups (new_store true)).1.

Definition grown_log : list commit := commits_of (commit_groups three_groups (new_store true)).2.

Lemma grown_represented : recovered 0 grown_log grown_store.
Proof.
  pose proof two_writers_ok as [Hok _].
  assert (commit_groups three_groups (new_store true) = (grown_store, (commit_groups three_groups (new_store true)).2)) as E
    by apply surjective_pairing.
  assert (s_fatal grown_store = None) as Hf by (vm_compute; reflexivity).
  apply (rw_recovered _ _ _ _ _ (groups_run 0 three_groups [] (new_store true) _ _ (new_store_recovered true)
    ltac:(unfold u64_max; lia) ltac:(unfold three_groups; rewrite !Forall_cons; split_and!; [exact Hok|by apply write_row_ok|constructor|constructor])
    ltac:(split; [apply (bool_decide_unpack _); vm_compute; exact I|by intros r _ ?%not_elem_of_nil]) E Hf)).
Qed.

Lemma grown_recovered : exists log, recovered 0 log grown_store.
Proof. exists grown_log. exact grown_represented. Qed.

Definition row_key : bytes := str "t" ++ [x00] ++ str "row".

Lemma compaction_takes_nothing_witness :
  exists s' m' r, compact_batch 0 (mkCompaction None false) NewTransactionManager grown_store = (s', m', r) /\
    s_db s' <> s_db grown_store /\ visible (s_db s') row_key 2 = visible (s_db grown_store) row_key 2.
Proof.
  destruct grown_recovered as [log Hrec].
  destruct (compact_batch 0 (mkCompaction None false) NewTransactionManager grown_store) as [[s' m'] r] eqn:E.
  exists s', m', r. split; [reflexivity|]. split.
  - intros Ed. pose proof (f_equal (fun d => length (history d row_key)) Ed) as Hl. cbv beta in Hl.
    change s' with (s', m', r).1.1 in Hl. rewrite <- E in Hl. vm_compute in Hl. discriminate Hl.
  - apply (compaction_takes_nothing [] 0 log grown_store s' 0 (mkCompaction None false) m' r); [reflexivity|exact Hrec|exact E|reflexivity|unfold is_u64; lia|].
    right. vm_compute. discriminate.
Defined.

Lemma compaction_ends_witness :
  exists s' m' r, compact_passes 4 8 NewTransactionManager grown_store = (s', m', Some r) /\
    length (history (s_db grown_store) row_key) = 2%nat /\ length (history (s_db s') row_key) = 1%nat.
Proof.
  destruct grown_recovered as [log Hrec].
  destruct (compaction_ends [] 0 log grown_store 4 8) as (s' & m' & r & E & Hr); [reflexivity|exact Hrec|vm_compute; lia|].
  change (tm_run NewTransactionManager []) with NewTransactionManager in E.
  exists s', m', r. split; [exact E|]. split; [vm_compute; reflexivity|].
  destruct Hr as [_ [Hr|Hr]]; [| |exfalso].
  - assert (Some r = (compact_passes 4 8 NewTransactionManager grown_store).2) as Hres by (rewrite E; reflexivity).
    vm_compute in Hres. by injection Hres.
  - rewrite Hr. vm_compute. reflexivity.
  - assert ((4 <= version_count (s_db grown_store))%nat) as Hv by (etransitivity; [|exact Hr]; lia). vm_compute in Hv. lia.
Defined.
