(* ===== verification/Scan.v ===== *)
(** * Range scans of the store: [mvcc/range.go], [mvcc/flat_scan.go]

    A scan reads bounded pages, each in a transaction of its own, and hands the entries of a page to
    its consumer before it reads the next.  Between pages other goroutines run.  In the flat layout a
    forward page walks the version bucket beside the row directory, and falls back to seeking when a
    history is long or has versions above the snapshot. *)

From stdpp Require Import gmap list sorting strings fin_maps.
From Stdlib Require Import Strings.Byte.
From S2P Require Import Prelude TxnState Bolt Keys Versions Visibility Layouts Store.

(** ** The reader of a forward page in the flat layout *)

Record flatScanReader : Type := mkFlatScan {
  fs_seekOnly : bool;
  fs_current : option (bytes * bytes);
  fs_started : bool
}.

Definition new_flat_scan : flatScanReader := mkFlatScan false None false.

(** The walk over the versions of one row, [budget] of which may still be examined: the cache, where the
    cursor stands, whether only seeks are used from now on, and what the row reads as. *)
Fixpoint flat_walk `{Bolt} (d : db) (snapshot : Z) (k prefix : bytes) (budget : nat) (cache : list cacheEntry)
    (cur : option (bytes * bytes)) (found : reading) : list cacheEntry * option (bytes * bytes) * bool * reading :=
  match cur with
  | None => (cache, cur, false, found)
  | Some (v, p) =>
      if (length v =? length prefix + 8)%nat && has_prefix prefix v then
        let version := trim_prefix prefix v in
        let n := number version in
        if snapshot <? n then (cache, cur, true, found)
        else match budget with
        | O => (cache, cur, true, flatVisible d k snapshot)
        | S budget =>
            let '(cache, c) := cached_committed d cache version in
            flat_walk d snapshot k prefix budget cache (b_next (flat_versions d) v) (if c : bool then payload_read n p else found)
        end
      else (cache, cur, false, found)
  end.

(** [flatScanReader.visible] *)
Definition flat_scan_visible `{Bolt} (d : db) (snapshot : Z) (cache : list cacheEntry) (f : flatScanReader) (k : bytes)
    : list cacheEntry * flatScanReader * reading :=
  if fs_seekOnly f then (cache, f, flatVisible d k snapshot)
  else
    let prefix := flatPrefix k in
    let current :=
      if negb (fs_started f) || from_option (fun e : bytes * bytes => bltb e.1 prefix) false (fs_current f)
      then b_seek (flat_versions d) prefix else fs_current f in
    let '(cache, current, seekOnly, r) := flat_walk d snapshot k prefix 4 cache current nothing in
    (cache, mkFlatScan seekOnly current true, r).

(** ** Pages *)

Record rangeEntry : Type := mkEntry {
  re_key : bytes;
  re_value : bytes;
  re_deleted : bool;
  re_check : bool
}.

Record rangePage : Type := mkPage {
  pg_entries : list rangeEntry;
  pg_after : option bytes;
  pg_done : bool
}.

(** The last byte, incremented. *)
Fixpoint bump_last (s : bytes) : bytes :=
  match s with
  | [] => []
  | [c] => [byte_of_Z (bval c + 1)]
  | c :: s => c :: bump_last s
  end.

(** [rangeCursor]: the key a page starts at. *)
Definition rangeCursor `{Bolt} {V} (b : bucket V) (prefix : bytes) (r : KeyRange) (after : option bytes) : option bytes :=
  if negb (rg_Reverse r) then
    let start := default (prefix ++ raw (rg_Lower r)) after in
    match b_seek b start with
    | None => None
    | Some (k, _) =>
        if bool_decide (k = start) &&
           (bool_decide (is_Some after) || bool_decide (is_Some (rg_Lower r)) && negb (rg_LowerInclusive r))
        then fst <$> b_next b k else Some k
    end
  else
    let end_ := default (match rg_Upper r with Some upper => prefix ++ upper | None => bump_last prefix end) after in
    match b_seek b end_ with
    | None => fst <$> b_last b
    | Some (k, _) =>
        if bltb end_ k || bool_decide (is_Some after) || bool_decide (rg_Upper r = None) || negb (rg_UpperInclusive r)
        then fst <$> b_prev b k else Some k
    end.

Definition nextRangeKey `{Bolt} {V} (b : bucket V) (reverse : bool) (k : bytes) : option bytes :=
  fst <$> (if reverse then b_prev b k else b_next b k).

Section Pages.
Context `{Bolt} `{GuardCodec} `{Env}.

(** The reader of a page: its cache, and the walking reader when the page has one. *)
Definition page_visible (d : db) (snapshot : Z) (cache : list cacheEntry) (flat : option flatScanReader) (k : bytes)
    : list cacheEntry * option flatScanReader * reading :=
  match flat with
  | Some f =>
      if has_prefix rangeGuardPrefix k then
        let '(cache, r) := reader_visible d snapshot cache k in (cache, flat, r)
      else let '(cache, f, r) := flat_scan_visible d snapshot cache f k in (cache, Some f, r)
  | None => let '(cache, r) := reader_visible d snapshot cache k in (cache, None, r)
  end.

(** The loop of [rangePage]: what has been collected, its size and the keys examined. *)
Fixpoint page_loop (d : db) (snapshot : Z) (prefix : bytes) (r : KeyRange) (fuel : nat) (cache : list cacheEntry)
    (flat : option flatScanReader) (cur : option bytes) (entries : list rangeEntry) (size examined : Z) : action rangePage :=
  match cur with
  | None => done (mkPage entries None true)
  | Some k =>
      if negb (rangeContains k prefix r) then done (mkPage entries None true)
      else
        let! _ := check_ctx in
        let examined := examined + 1 in
        let '(cache, flat, (v, _, ok)) := page_visible d snapshot cache flat k in
        let entries := if ok : bool then entries ++ [mkEntry (trim_prefix prefix k) v false false] else entries in
        let size := if ok then size + blen k + blen v else size in
        if (MaxChunkBytes <=? size) || (256 <=? examined) then done (mkPage entries (Some k) false)
        else match fuel with
        | O => done (mkPage entries (Some k) false)
        | S fuel => page_loop d snapshot prefix r fuel cache flat (nextRangeKey (d_data d) (rg_Reverse r) k) entries size examined
        end
  end.

Definition range_page (snapshot : Z) (prefix : bytes) (r : KeyRange) (after : option bytes) : action rangePage := fun s =>
  let d := s_db s in
  let flat := if flatLayout d && negb (rg_Reverse r) then Some new_flat_scan else None in
  page_loop d snapshot prefix r 256 empty_cache flat (rangeCursor (d_data d) prefix r after) [] 0 0 s.

(** Handing the entries of a page to the consumer. *)
Fixpoint yield_page {St} (yield : St -> bytes -> bytes -> action St) (entries : list rangeEntry) (st : St) : action St :=
  match entries with
  | [] => done st
  | e :: entries =>
      let! _ := check_ctx in
      let! st := yield st (re_key e) (re_value e) in
      yield_page yield entries st
  end.

(** [Store.ScanRange].  [others] is what other goroutines do before a page is read; [None] when
    [fuel] pages are not enough. *)
Fixpoint scan_pages {St} (others : Store -> Store) (yield : St -> bytes -> bytes -> action St) (snapshot : Z)
    (prefix : bytes) (r : KeyRange) (fuel : nat) (after : option bytes) (st : St) (s : Store)
    : Store * option (result mvcc_error St) :=
  match fuel with
  | O => (s, None)
  | S fuel =>
      match (let! _ := check_ctx in
             let! p := (fun s => range_page snapshot prefix r after (others s)) in
             let! st := yield_page yield (pg_entries p) st in
             done (p, st)) s with
      | (s, Err e) => (s, Some (Err e))
      | (s, Ok (p, st)) =>
          if pg_done p then (s, Some (Ok st)) else scan_pages others yield snapshot prefix r fuel (pg_after p) st s
      end
  end.

Definition ScanRange {St} (others : Store -> Store) (yield : St -> bytes -> bytes -> action St) (snapshot : Z)
    (space : bytes) (r : KeyRange) (fuel : nat) (st : St) (s : Store) : Store * option (result mvcc_error St) :=
  match (let* prefix := key space [] in
         let* _ := key space (raw (rg_Lower r)) in
         let* _ := key space (raw (rg_Upper r)) in Ok prefix) with
  | Err e => (s, Some (Err e))
  | Ok prefix => scan_pages others yield snapshot prefix r fuel None st s
  end.
End Pages.

(** ** The walking reader reads what the seeking one does *)

Section Flat.
Context `{BoltLaws} (d : db) (snapshot : Z).
Hypothesis Hs : is_u64 snapshot.
Hypothesis Hl : flatLayout d = true.
Hypothesis Hw : db_wf d.

Let entry_flat e : e ∈ b_entries (flat_versions d) -> flat_key e.
Proof. unfold db_wf in Hw. rewrite Hl in Hw. apply Hw. Qed.

Lemma omap_nothing {A B} (f : A -> option B) (l : list A) : (forall x, x ∈ l -> f x = None) -> omap f l = [].
Proof.
  induction l as [|x l IH]; intros Hf; [done|]. cbn. rewrite (Hf x) by (by left). apply IH. intros. apply Hf. by right.
Qed.

Lemma head_next (l1 l2 : list (bytes * bytes)) e :
  b_entries (flat_versions d) = l1 ++ e :: l2 -> b_next (flat_versions d) e.1 = head l2.
Proof.
  intros Hb. rewrite next_entries, Hb. apply kv_next_split. rewrite <- Hb. apply entries_ordered.
Qed.

(** A row is contiguous. *)
Lemma row_ends k (l1 l2 : list (bytes * bytes)) e :
  b_entries (flat_versions d) = l1 ++ e :: l2 -> ble (flatPrefix k) e.1 -> has_prefix (flatPrefix k) e.1 = false ->
  omap (row_entry k) (e :: l2) = [].
Proof.
  intros Hb Hge Hp. pose proof (entries_ordered _ (flat_versions d)) as Ho. rewrite Hb in Ho.
  apply ordered_app_inv in Ho as (_ & Ho & _). apply ordered_cons_inv in Ho as [_ Hlt].
  apply omap_nothing. intros x [->|Hx]%elem_of_cons; unfold row_entry; [by rewrite Hp|].
  destruct (has_prefix (flatPrefix k) x.1) eqn:Hpx; [|done]. apply has_prefix_spec in Hpx as [t Ht].
  destruct (prefix_between (flatPrefix k) [] t e.1) as [u Hu]; [by rewrite app_nil_r|rewrite <- Ht; by apply blt_le, Hlt|].
  by rewrite Hu, has_prefix_app in Hp.
Qed.

Lemma read_snoc l n p :
  n <= snapshot ->
  read_at (l ++ [(n, p)]) (committed_at d) snapshot =
    if committed_at d n then payload_read n p else read_at l (committed_at d) snapshot.
Proof.
  intros Hn. unfold read_at, newest_at. rewrite filter_app, filter_cons, filter_nil. cbn [fst].
  rewrite (proj2 (Z.leb_le n snapshot) Hn). cbn [andb]. destruct (committed_at d n).
  - by rewrite decide_True, last_snoc.
  - rewrite decide_False by (cbn; tauto). by rewrite app_nil_r.
Qed.

Lemma read_later l1 l2 :
  (forall n p, (n, p) ∈ l2 -> snapshot < n) -> read_at (l1 ++ l2) (committed_at d) snapshot = read_at l1 (committed_at d) snapshot.
Proof.
  intros Hlater. unfold read_at, newest_at. rewrite filter_app.
  rewrite (filter_none (fun np : Z * bytes => (np.1 <=? snapshot) && committed_at d np.1) l2), app_nil_r; [done|].
  intros [n p] Hin%Hlater. cbn. by rewrite (proj2 (Z.leb_gt n snapshot)).
Qed.

Definition walked (k : bytes) (l2 : list (bytes * bytes)) (res : list cacheEntry * option (bytes * bytes) * bool * reading) : Prop :=
  let '(cache, cur, _, r) := res in
  cache_ok d cache /\ r = read_at (history d k) (committed_at d) snapshot /\
  exists m l2', l2 = m ++ l2' /\ cur = head l2' /\ forall e, e ∈ m -> has_prefix (flatPrefix k) e.1 = true.

Lemma walked_here k l2 cache cur seekOnly r :
  cur = head l2 -> cache_ok d cache -> r = read_at (history d k) (committed_at d) snapshot -> walked k l2 (cache, cur, seekOnly, r).
Proof. intros -> Hc Hr. split_and!; [done|done|]. exists [], l2. split_and!; [done|done|by intros e ?%not_elem_of_nil]. Qed.

Lemma history_split k (l1 l2 : list (bytes * bytes)) :
  b_entries (flat_versions d) = l1 ++ l2 -> history d k = omap (row_entry k) l1 ++ omap (row_entry k) l2.
Proof. intros Hb. by rewrite history_flat, Hb, omap_app. Qed.

Lemma flat_walk_spec k budget : forall l1 l2 cache,
  b_entries (flat_versions d) = l1 ++ l2 -> (forall e, e ∈ l2 -> ble (flatPrefix k) e.1) -> cache_ok d cache ->
  walked k l2 (flat_walk d snapshot k (flatPrefix k) budget cache (head l2) (read_at (omap (row_entry k) l1) (committed_at d) snapshot)).
Proof.
  induction budget as [|budget IH]; intros l1 [|[v p] l2] cache Hb Hge Hc; cbn [head flat_walk];
    try (apply walked_here; [done..|]; rewrite (history_split k l1 []) by done; by rewrite app_nil_r);
    (destruct (has_prefix (flatPrefix k) v) eqn:Hp;
      [|rewrite andb_false_r; apply walked_here; [done..|]; rewrite (history_split k l1 ((v, p) :: l2)) by done;
        rewrite (row_ends k l1 l2 (v, p)); [by rewrite app_nil_r|done|apply (Hge (v, p)); by left|done]]);
    (assert (flat_key (v, p)) as Hf by (apply entry_flat; rewrite Hb, elem_of_app; right; by left));
    pose proof Hp as [t Ht]%has_prefix_spec; pose proof (flat_key_row (v, p) k t Hf Ht) as Lt; cbn in Ht; subst v;
    rewrite length_app, Lt, Nat.eqb_refl, trim_prefix_app; cbn [andb];
    assert (row_entry k (flatPrefix k ++ t, p) = Some (number t, p)) as Hrow
      by (unfold row_entry; cbn [fst snd]; by rewrite has_prefix_app, trim_prefix_app);
    (destruct (Z.ltb_spec snapshot (number t)) as [Hbig|Hsmall];
      [apply walked_here; [done..|]; rewrite (history_split k l1 ((flatPrefix k ++ t, p) :: l2)) by done; symmetry; apply read_later|]).
  1, 3: intros n q; intros Hin;
    assert (hist_ordered (omap (row_entry k) l1 ++ omap (row_entry k) ((flatPrefix k ++ t, p) :: l2))) as Ho
      by (rewrite <- (history_split k l1) by done; by apply history_ordered);
    apply StronglySorted_app in Ho as (_ & _ & Ho); cbn [omap list_omap] in Ho, Hin; rewrite Hrow in Ho, Hin;
    apply hist_ordered_inv in Ho as [_ Ho]; apply elem_of_cons in Hin as [[= -> ->]|Hin]; [done|];
    apply Ho in Hin; cbn in Hin; lia.
  - apply walked_here; [done..|]. rewrite flat_visible_spec by done. done.
  - destruct (cached_committed_spec d cache t Hc Lt) as [Hc1 Hcc]. destruct (cached_committed d cache t) as [cache1 c].
    cbn [fst snd] in Hc1, Hcc. pose proof (head_next l1 l2 (flatPrefix k ++ t, p) Hb) as Hn. cbn [fst] in Hn. rewrite Hn.
    replace (if c then payload_read (number t) p else read_at (omap (row_entry k) l1) (committed_at d) snapshot)
      with (read_at (omap (row_entry k) (l1 ++ [(flatPrefix k ++ t, p)])) (committed_at d) snapshot).
    + specialize (IH (l1 ++ [(flatPrefix k ++ t, p)]) l2 cache1). rewrite <- app_assoc in IH.
      specialize (IH Hb ltac:(intros e He; apply Hge; by right) Hc1).
      destruct (flat_walk _ _ _ _ _ _ _ _) as [[[cache2 cur2] so] r]. destruct IH as (Hc2 & Hr & m & l2' & -> & -> & Hm).
      split_and!; [done|done|]. exists ((flatPrefix k ++ t, p) :: m), l2'. split_and!; [done|done|].
      intros e [->|He]%elem_of_cons; [apply has_prefix_app|by apply Hm].
    + rewrite omap_app. cbn [omap list_omap]. rewrite Hrow, read_snoc by done.
      replace (committed_at d (number t)) with c; [done|]. rewrite Hcc. unfold committed_at. by rewrite sequence_number.
Qed.

(** The cursor has not passed any version of [k] or of a later row. *)
Definition behind (f : flatScanReader) (k : bytes) : Prop :=
  fs_seekOnly f = false -> fs_started f = true ->
  exists l1 l2, b_entries (flat_versions d) = l1 ++ l2 /\ fs_current f = head l2 /\ forall e, e ∈ l1 -> blt e.1 (flatPrefix k).

Lemma row_before k k' t : blt k k' -> blt (flatPrefix k ++ t) (flatPrefix k').
Proof.
  intros Hk. rewrite <- (app_nil_r (flatPrefix k')). unfold blt in *. by rewrite flatPrefix_compare, Hk.
Qed.

Lemma flat_scan_visible_spec cache f k :
  behind f k -> cache_ok d cache ->
  let '(cache', f', r) := flat_scan_visible d snapshot cache f k in
  cache_ok d cache' /\ r = point_visible d k snapshot /\ forall k', blt k k' -> behind f' k'.
Proof.
  intros Hf Hc. unfold flat_scan_visible, point_visible. rewrite Hl. destruct (fs_seekOnly f) eqn:Hso.
  { split_and!; [done|done|]. intros k' _ Hx. congruence. }
  set (cur := if _ || _ then _ else _).
  assert (exists l1 l2, b_entries (flat_versions d) = l1 ++ l2 /\ cur = head l2 /\ (forall e, e ∈ l1 -> blt e.1 (flatPrefix k)) /\
    (forall e, e ∈ l2 -> ble (flatPrefix k) e.1)) as (l1 & l2 & Hb & -> & Hlt & Hge).
  { subst cur. destruct (negb (fs_started f) || _) eqn:Hseek; [apply seek_spec|].
    apply orb_false_iff in Hseek as [Hst%negb_false_iff Hcur]. destruct (Hf Hso Hst) as (l1 & l2 & Hb & E & Hlt).
    exists l1, l2. split_and!; [done|done|done|]. rewrite E in Hcur. destruct l2 as [|e l2]; [by intros ? ?%not_elem_of_nil|].
    cbn in Hcur. apply bltb_false in Hcur. pose proof (entries_ordered _ (flat_versions d)) as Ho. rewrite Hb in Ho.
    apply ordered_app_inv in Ho as (_ & Ho & _). apply ordered_cons_inv in Ho as [_ Ho].
    intros x [->|Hx]%elem_of_cons; [done|]. apply blt_le. by apply (ble_lt_trans _ e.1); [|apply Ho]. }
  pose proof (flat_walk_spec k 4 l1 l2 cache Hb Hge Hc) as Hwalk.
  replace (read_at (omap (row_entry k) l1) (committed_at d) snapshot) with nothing in Hwalk.
  2: { rewrite omap_nothing; [done|]. intros e He. unfold row_entry.
       destruct (has_prefix (flatPrefix k) e.1) eqn:Hp; [|done]. apply has_prefix_spec in Hp as [t Ht].
       specialize (Hlt e He). rewrite Ht in Hlt. exfalso. apply (blt_irrefl (flatPrefix k)).
       apply (ble_lt_trans _ (flatPrefix k ++ t)); [apply ble_app|done]. }
  destruct (flat_walk _ _ _ _ _ _ _ _) as [[[cache' cur'] so] r]. destruct Hwalk as (Hc' & -> & m & l2' & -> & -> & Hm).
  split_and!; [done|by rewrite flat_visible_spec|]. intros k' Hk' _ _. exists (l1 ++ m), l2'. split_and!.
  - by rewrite Hb, app_assoc.
  - done.
  - intros e [He|He]%elem_of_app.
    + apply (blt_trans _ (flatPrefix k)); [by apply Hlt|]. rewrite <- (app_nil_r (flatPrefix k)). by apply row_before.
    + apply Hm, has_prefix_spec in He as [t ->]. by apply row_before.
Qed.
End Flat.
