(* ===== verification/ScanCursor.v ===== *)
(** * Where a page starts, and what lies in its range *)

From stdpp Require Import gmap list sorting strings fin_maps.
From Stdlib Require Import Strings.Byte.
From S2P Require Import Prelude TxnState Bolt Keys Versions Visibility Store Scan.

Lemma ble_trans a b c : ble a b -> ble b c -> ble a c.
Proof. intros [Hab| ->]%ble_lt_or_eq Hbc; [|done]. by apply blt_le, (blt_le_trans _ b). Qed.

Lemma in_reverse {A} (x : A) l : x ∈ reverse l -> x ∈ l.
Proof. by rewrite elem_of_reverse. Qed.

(** ** Ranges are convex *)

Lemma below_lower_le r s t : below_lower r s = false -> ble s t -> below_lower r t = false.
Proof.
  unfold below_lower. destruct (rg_Lower r) as [l|]; [|done]. intros Hs [Hlt| ->]%ble_lt_or_eq; [|done].
  destruct (bcompare s l) eqn:E; [| |].
  - apply bcompare_eq in E as ->. assert (bcompare t l = Gt) as ->; [by apply bcompare_gt|done].
  - done.
  - apply bcompare_gt in E. assert (bcompare t l = Gt) as ->; [apply bcompare_gt; by apply (blt_trans _ s)|done].
Qed.

Lemma above_upper_le r s t : above_upper r t = false -> ble s t -> above_upper r s = false.
Proof.
  unfold above_upper. destruct (rg_Upper r) as [u|]; [|done]. intros Ht [Hlt| ->]%ble_lt_or_eq; [|done].
  destruct (bcompare t u) eqn:E; [| |done].
  - apply bcompare_eq in E as ->. assert (bcompare s u = Lt) as -> by exact Hlt. done.
  - assert (bcompare s u = Lt) as ->; [by apply (blt_trans _ t)|done].
Qed.

Lemma Contains_split r t : Contains r t = true <-> below_lower r t = false /\ above_upper r t = false.
Proof. unfold Contains. destruct (below_lower r t), (above_upper r t); naive_solver. Qed.

Section Range.
Context (space : bytes) (r : KeyRange).
Notation prefix := (space ++ [x00]).

Definition in_range (k : bytes) : Prop := rangeContains k prefix r = true.

Lemma in_range_spec k : in_range k <-> exists t, k = prefix ++ t /\ below_lower r t = false /\ above_upper r t = false.
Proof. unfold in_range. rewrite rangeContains_spec. split; intros (t & -> & Ht); exists t; (split; [done|]); by apply Contains_split. Qed.

Lemma ble_app_cancel a b : ble (prefix ++ a) (prefix ++ b) <-> ble a b.
Proof. unfold ble. by rewrite bcompare_app. Qed.

Lemma blt_app_cancel a b : blt (prefix ++ a) (prefix ++ b) <-> blt a b.
Proof. unfold blt. by rewrite bcompare_app. Qed.

Lemma in_range_between a k b : in_range a -> in_range b -> ble a k -> ble k b -> in_range k.
Proof.
  rewrite !in_range_spec. intros (ta & -> & Ha & _) (tb & -> & _ & Hb) Hak Hkb.
  destruct (prefix_between prefix ta tb k Hak Hkb) as [t ->]. pose proof (proj1 (ble_app_cancel ta t) Hak) as Hat. pose proof (proj1 (ble_app_cancel t tb) Hkb) as Htb.
  exists t. split_and!; [done|by apply (below_lower_le r ta)|by apply (above_upper_le r t tb)].
Qed.

(** ** Orders of a walk *)

Definition goes (a b : bytes) : Prop := if rg_Reverse r then blt b a else blt a b.

Definition beyond (after : option bytes) (k : bytes) : Prop := match after with None => True | Some a => goes a k end.

#[export] Instance goes_dec a b : Decision (goes a b).
Proof. unfold goes. destruct (rg_Reverse r); apply _. Defined.

#[export] Instance beyond_dec after k : Decision (beyond after k).
Proof. unfold beyond. destruct after; apply _. Defined.

Lemma goes_irrefl a : ~ goes a a.
Proof. unfold goes. destruct (rg_Reverse r); apply blt_irrefl. Qed.

Lemma goes_trans a b c : goes a b -> goes b c -> goes a c.
Proof. unfold goes. destruct (rg_Reverse r); intros; by eapply blt_trans. Qed.

Lemma beyond_trans after k k' : beyond after k -> goes k k' -> beyond after k'.
Proof. destruct after as [a|]; [|done]. apply goes_trans. Qed.

Context `{BoltLaws}.

(** The keys of a bucket in the order of the scan. *)
Definition walk {V} (b : bucket V) : list bytes := if rg_Reverse r then reverse (b_entries b).*1 else (b_entries b).*1.

Lemma keys_sorted {V} (b : bucket V) : StronglySorted blt (b_entries b).*1.
Proof.
  pose proof (entries_ordered V b) as Ho. induction (b_entries b) as [|e l IH]; cbn; constructor.
  - apply IH. by apply ordered_cons_inv in Ho as [? _].
  - apply ordered_cons_inv in Ho as [_ Hlt]. apply Forall_forall. by intros k (x & -> & ?%Hlt)%list_elem_of_fmap.
Qed.

Lemma sorted_reverse (l : list bytes) : StronglySorted blt l -> StronglySorted (fun a b => blt b a) (reverse l).
Proof.
  induction 1 as [|k l Hl IH Hk]; [constructor|]. rewrite reverse_cons. apply StronglySorted_app. split_and!.
  - intros a b Ha ->%list_elem_of_singleton. rewrite elem_of_reverse in Ha. rewrite Forall_forall in Hk. by apply Hk.
  - done.
  - repeat constructor.
Qed.

Lemma walk_sorted {V} (b : bucket V) : StronglySorted goes (walk b).
Proof.
  unfold goes, walk. destruct (rg_Reverse r); [apply sorted_reverse|]; apply keys_sorted.
Qed.

Lemma walk_elem {V} (b : bucket V) k : k ∈ walk b <-> is_Some (b_get b k).
Proof.
  assert (k ∈ walk b <-> k ∈ (b_entries b).*1) as -> by (unfold walk; destruct (rg_Reverse r); by rewrite ?elem_of_reverse).
  rewrite get_entries. destruct (kv_get (b_entries b) k) as [i|] eqn:E.
  - split; [by intros _|]. intros _. apply kv_get_elem in E; [|apply entries_ordered]. by apply (list_elem_of_fmap_2 fst _ (k, i)).
  - apply kv_get_None in E. split; [done|by intros []].
Qed.

Lemma next_in_walk {V} (b : bucket V) w1 k w2 : walk b = w1 ++ k :: w2 -> nextRangeKey b (rg_Reverse r) k = head w2.
Proof.
  unfold walk, nextRangeKey. destruct (rg_Reverse r); intros E.
  - assert ((b_entries b).*1 = reverse w2 ++ k :: reverse w1) as E'.
    { rewrite <- (reverse_involutive (b_entries b).*1), E, reverse_app, reverse_cons. by rewrite <- app_assoc. }
    apply fmap_app_inv in E' as (e1 & e2 & E1 & E2 & Eb). destruct e2 as [|e e2]; [done|]. cbn in E2. injection E2 as Ek _. subst k.
    rewrite prev_entries, Eb. rewrite kv_prev_at by (rewrite <- Eb; apply entries_ordered).
    rewrite <- fmap_last, <- E1. by rewrite last_reverse.
  - apply fmap_app_inv in E as (e1 & e2 & -> & E2 & Eb). destruct e2 as [|e e2]; [done|]. cbn in E2. injection E2 as -> ->.
    rewrite next_entries, Eb. rewrite kv_next_split by (rewrite <- Eb; apply entries_ordered). by destruct e2.
Qed.

(** ** The start of a page *)

(** What a page may rely on: it starts at the first key of [w2], all of which lie beyond the last
    page, having left out nothing of the range; and a key outside the range has none of it after. *)
Record starts (after : option bytes) (w1 w2 : list bytes) : Prop := {
  sw_before : forall k, k ∈ w1 -> in_range k -> ~ beyond after k;
  sw_beyond : forall k, k ∈ w2 -> beyond after k;
  sw_convex : forall k k', k ∈ w2 -> k' ∈ w2 -> goes k k' -> in_range k' -> in_range k
}.

Lemma bump_prefix : bump_last prefix = space ++ [x01].
Proof. induction space as [|c s IH]; [done|]. cbn [app bump_last]. rewrite <- IH. destruct s; done. Qed.

Lemma below_bump t k : ble (prefix ++ t) k -> blt k (space ++ [x01]) -> exists u, k = prefix ++ u.
Proof.
  intros Hle Hlt. rewrite <- app_assoc in Hle. destruct (prefix_between space ([x00] ++ t) [x01] k Hle (blt_le _ _ Hlt)) as [u ->].
  unfold ble, blt in Hle, Hlt. rewrite bcompare_app in Hle, Hlt. destruct u as [|c u]; [done|].
  cbn in Hle, Hlt. change (bval x00) with 0 in Hle. change (bval x01) with 1 in Hlt.
  assert (bval c = 0) as Hc.
  { destruct (Z.compare_spec (bval c) 1) as [E|E|E]; [by destruct u| |done]. pose proof (bval_range c). lia. }
  assert (c = x00) as -> by (by apply bval_inj). exists u. by rewrite <- app_assoc.
Qed.

(** In the order of keys, whatever the direction. *)
Lemma starts_after a w1 w2 :
  in_range a -> (forall k, k ∈ w1 -> ~ goes a k) -> (forall k, k ∈ w2 -> goes a k) -> starts (Some a) w1 w2.
Proof.
  intros Ha H1 H2. constructor; [by intros k Hk _; apply H1|done|]. intros k k' Hk Hk' Hgo Hin. specialize (H2 k Hk).
  unfold goes in *. destruct (rg_Reverse r).
  - apply (in_range_between k' k a); [done|done|by apply blt_le..].
  - apply (in_range_between a k k'); [done|done|by apply blt_le..].
Qed.

(** The range seen from below and from above. *)
Definition lower_ok (k : bytes) : Prop := ble prefix k /\ forall t, k = prefix ++ t -> below_lower r t = false.

Definition upper_ok (k : bytes) : Prop :=
  (forall t, ble (prefix ++ t) k -> exists u, k = prefix ++ u) /\ forall t, k = prefix ++ t -> above_upper r t = false.

Lemma starts_first w1 w2 :
  (forall k, k ∈ w1 -> ~ in_range k) -> (forall k, k ∈ w2 -> if rg_Reverse r then upper_ok k else lower_ok k) -> starts None w1 w2.
Proof.
  intros H1 H2. constructor; [by intros k Hk Hin; apply H1 in Hk|done|]. intros k k' Hk Hk' Hgo (t' & -> & Hl & Hu)%in_range_spec.
  specialize (H2 k Hk). unfold goes in Hgo. destruct (rg_Reverse r).
  - destruct H2 as [Hp Hup]. destruct (Hp t' (blt_le _ _ Hgo)) as [t ->]. apply in_range_spec. exists t.
    pose proof (proj1 (blt_app_cancel t' t) Hgo) as Ht. split_and!; [done|by apply (below_lower_le r t'); [|apply blt_le]|by apply Hup].
  - destruct H2 as [Hp Hlo]. rewrite <- (app_nil_r prefix) in Hp.
    destruct (prefix_between prefix [] t' k Hp (blt_le _ _ Hgo)) as [t ->]. apply in_range_spec. exists t.
    pose proof (proj1 (blt_app_cancel t t') Hgo) as Ht. split_and!; [done|by apply Hlo|by apply (above_upper_le r t t'); [|apply blt_le]].
Qed.

Definition low_start : bytes := prefix ++ raw (rg_Lower r).

Lemma before_low k : blt k low_start -> ~ in_range k.
Proof.
  unfold low_start. intros Hlt (t & -> & Hb & _)%in_range_spec. apply (proj1 (blt_app_cancel _ _)) in Hlt. unfold below_lower in Hb.
  destruct (rg_Lower r) as [l|]; cbn in Hlt; [by rewrite Hlt in Hb|by destruct t].
Qed.

Lemma at_low : is_Some (rg_Lower r) -> rg_LowerInclusive r = false -> ~ in_range low_start.
Proof.
  unfold low_start. intros [l Hl] Hi (t & E & Hb & _)%in_range_spec. apply app_inv_head in E. subst t. unfold below_lower in Hb.
  rewrite Hl, Hi in Hb. cbn in Hb. by rewrite (proj2 (bcompare_eq l l) eq_refl) in Hb.
Qed.

Lemma from_low k : ble low_start k -> (k = low_start -> is_Some (rg_Lower r) -> rg_LowerInclusive r = true) -> lower_ok k.
Proof.
  unfold low_start. intros Hle Hat. split.
  - eapply ble_trans; [apply ble_app|exact Hle].
  - intros t ->. apply (proj1 (ble_app_cancel _ _)) in Hle. unfold below_lower in *. destruct (rg_Lower r) as [l|]; [|done]. cbn in *.
    apply ble_lt_or_eq in Hle as [Hlt| <-].
    + by rewrite (proj2 (bcompare_gt t l) Hlt).
    + rewrite (proj2 (bcompare_eq l l) eq_refl), Hat by done. done.
Qed.

Definition high_start : bytes := match rg_Upper r with Some upper => prefix ++ upper | None => bump_last prefix end.

Lemma above_high k : blt high_start k -> ~ in_range k.
Proof.
  unfold high_start. intros Hlt (t & -> & _ & Hu)%in_range_spec. unfold above_upper in Hu. destruct (rg_Upper r) as [u|].
  - apply (proj1 (blt_app_cancel _ _)) in Hlt. by rewrite (proj2 (bcompare_gt t u) Hlt) in Hu.
  - rewrite bump_prefix, <- app_assoc in Hlt. unfold blt in Hlt. by rewrite bcompare_app in Hlt.
Qed.

Lemma at_high : rg_Upper r = None \/ rg_UpperInclusive r = false -> ~ in_range high_start.
Proof.
  unfold high_start. intros Hor (t & E & _ & Hu)%in_range_spec. unfold above_upper in Hu. destruct (rg_Upper r) as [u|].
  - apply app_inv_head in E. subst t. rewrite (proj2 (bcompare_eq u u) eq_refl) in Hu. destruct Hor as [|Hi]; [done|by rewrite Hi in Hu].
  - rewrite bump_prefix, <- app_assoc in E. apply app_inv_head in E. done.
Qed.

Lemma to_high k : ble k high_start -> (k = high_start -> is_Some (rg_Upper r) /\ rg_UpperInclusive r = true) -> upper_ok k.
Proof.
  unfold high_start. intros Hle Hat. unfold upper_ok, above_upper. destruct (rg_Upper r) as [u|].
  - split; [intros t Ht; by apply (prefix_between prefix t u)|]. intros t ->. apply (proj1 (ble_app_cancel _ _)) in Hle.
    apply ble_lt_or_eq in Hle as [Hlt| ->]; [by rewrite Hlt|]. rewrite (proj2 (bcompare_eq u u) eq_refl).
    by destruct (Hat eq_refl) as [_ ->].
  - split; [|done]. intros t Ht. rewrite bump_prefix in *. apply (below_bump t); [done|].
    apply ble_lt_or_eq in Hle as [|Hk]; [done|]. destruct (Hat Hk) as [[? ?] _]. done.
Qed.

(** The split of the keys at the place that was sought. *)
Lemma seek_split {V} (b : bucket V) start :
  exists k1 k2, (b_entries b).*1 = k1 ++ k2 /\ fst <$> b_seek b start = head k2 /\ fst <$> b_last b = last (k1 ++ k2) /\
    (forall k, k ∈ k1 -> blt k start) /\ (forall k, k ∈ k2 -> ble start k) /\
    (forall k k2', k2 = k :: k2' -> fst <$> b_next b k = head k2' /\ fst <$> b_prev b k = last k1 /\ forall x, x ∈ k2' -> blt k x).
Proof.
  destruct (seek_spec b start) as (l1 & l2 & Hb & -> & Hlt & Hge). exists l1.*1, l2.*1. split_and!.
  - by rewrite Hb, fmap_app.
  - by destruct l2.
  - by rewrite last_entries, Hb, <- fmap_last, fmap_app.
  - intros k (e & -> & He)%list_elem_of_fmap. by apply Hlt.
  - intros k (e & -> & He)%list_elem_of_fmap. by apply Hge.
  - intros k k2' E. destruct l2 as [|e l2]; [done|]. cbn in E. injection E as <- <-. pose proof (entries_ordered _ b) as Ho. rewrite Hb in Ho.
    rewrite next_entries, prev_entries, Hb, kv_next_split, kv_prev_at by done. split_and!; [by destruct l2|by rewrite fmap_last|].
    apply ordered_app_inv in Ho as (_ & Ho & _). apply ordered_cons_inv in Ho as [_ Ho].
    intros x (e' & -> & He')%list_elem_of_fmap. by apply Ho.
Qed.

Lemma seek_key {V} (b : bucket V) k start : fst <$> b_seek b start = Some k -> exists i, b_seek b start = Some (k, i).
Proof. destruct (b_seek b start) as [[k' i]|]; [|done]. intros [= ->]. by exists i. Qed.

Lemma goes_not a k : (if rg_Reverse r then ble a k else ble k a) -> ~ goes a k.
Proof. unfold goes. destruct (rg_Reverse r); intros Hle Hlt; eapply blt_irrefl, ble_lt_trans; eauto. Qed.

Definition start_ok (after : option bytes) : Prop := forall a, after = Some a -> in_range a.

Definition page_start {V} (b : bucket V) (after : option bytes) : Prop :=
  exists w1 w2, walk b = w1 ++ w2 /\ rangeCursor b prefix r after = head w2 /\ starts after w1 w2.

Lemma forward_start {V} (b : bucket V) after : rg_Reverse r = false -> start_ok after -> page_start b after.
Proof.
  intros Hrev Ha. unfold page_start, walk, rangeCursor. rewrite Hrev. cbn [negb]. set (start := default _ after).
  destruct (seek_split b start) as (k1 & k2 & -> & Hseek & _ & Hlt & Hge & Hk).
  assert (forall w1 w2, (forall k, k ∈ w1 -> ble k start) -> (forall k, k ∈ w2 -> ble start k) ->
    (start ∈ w1 -> is_Some after \/ is_Some (rg_Lower r) /\ rg_LowerInclusive r = false) ->
    (start ∈ w2 -> after = None /\ (is_Some (rg_Lower r) -> rg_LowerInclusive r = true)) -> starts after w1 w2) as Hst.
  { intros w1 w2 H1 H2 He1 He2. destruct after as [a|]; cbn [default] in start; subst start.
    - apply starts_after; [by apply Ha|intros k Hk1; apply goes_not; rewrite Hrev; by apply H1|].
      intros k Hk2. unfold goes. rewrite Hrev. destruct (proj1 (ble_lt_or_eq _ _) (H2 k Hk2)) as [|E]; [done|].
      subst k. by destruct (He2 Hk2).
    - fold low_start in *. apply starts_first; [|rewrite Hrev].
      + intros k Hk1. destruct (proj1 (ble_lt_or_eq _ _) (H1 k Hk1)) as [| ->]; [by apply before_low|].
        destruct (He1 Hk1) as [[? ?]|[Hl Hi]]; [done|by apply at_low].
      + intros k Hk2. apply from_low; [by apply H2|]. intros ->. by apply He2. }
  destruct k2 as [|k k2].
  { exists k1, []. cbn in Hseek. destruct (b_seek b start) as [[k i]|]; [done|]. split_and!; [done|done|].
    apply Hst; [intros k Hk1; by apply blt_le, Hlt|by intros k ?%not_elem_of_nil| |by intros ?%not_elem_of_nil].
    intros Hin%Hlt. by apply blt_irrefl in Hin. }
  destruct (seek_key b k start Hseek) as [i ->]. destruct (Hk k k2 eq_refl) as (Hnext & _ & Hafter).
  assert (start ∈ k1 -> False) as Hno by (intros Hin%Hlt; by apply blt_irrefl in Hin).
  case_bool_decide as Es; cbn [andb].
  - subst k. destruct (_ || _) eqn:Hskip.
    + exists (k1 ++ [start]), k2. rewrite <- app_assoc. split_and!; [done|done|]. apply Hst.
      * intros x [Hx%Hlt| ->%list_elem_of_singleton]%elem_of_app; [by apply blt_le|apply ble_lt_or_eq; by right].
      * intros x Hx. apply blt_le. by apply Hafter.
      * intros _. apply orb_true_iff in Hskip as [Hs|[Hs Hi]%andb_true_iff]; bool_prop; [by left|right; by split].
      * intros Hx%Hafter. by apply blt_irrefl in Hx.
    + exists k1, (start :: k2). split_and!; [done|done|]. apply Hst; [intros x Hx; by apply blt_le, Hlt|done|done|].
      intros _. apply orb_false_iff in Hskip as [Hs%bool_decide_eq_false Hi]. split; [by destruct after; [destruct Hs; eauto|]|].
      intros Hl. rewrite bool_decide_eq_true_2 in Hi by done. by destruct (rg_LowerInclusive r).
  - exists k1, (k :: k2). split_and!; [done|done|]. apply Hst; [intros x Hx; by apply blt_le, Hlt|done|done|].
    intros [E|Hx%Hafter]%elem_of_cons; [by rewrite E in Es|]. exfalso. apply (blt_irrefl start).
    apply (ble_lt_trans _ k); [apply Hge; by left|done].
Qed.

Lemma reverse_start {V} (b : bucket V) after : rg_Reverse r = true -> start_ok after -> page_start b after.
Proof.
  intros Hrev Ha. unfold page_start, walk, rangeCursor. rewrite Hrev. cbn [negb]. set (end_ := default _ after).
  destruct (seek_split b end_) as (k1 & k2 & -> & Hseek & Hlast & Hlt & Hge & Hk).
  assert (forall w1 w2, (forall k, k ∈ w1 -> ble end_ k) -> (forall k, k ∈ w2 -> ble k end_) ->
    (end_ ∈ w1 -> is_Some after \/ rg_Upper r = None \/ rg_UpperInclusive r = false) ->
    (end_ ∈ w2 -> after = None /\ is_Some (rg_Upper r) /\ rg_UpperInclusive r = true) -> starts after w1 w2) as Hst.
  { intros w1 w2 H1 H2 He1 He2. destruct after as [a|]; cbn [default] in end_; subst end_.
    - apply starts_after; [by apply Ha|intros k Hk1; apply goes_not; rewrite Hrev; by apply H1|].
      intros k Hk2. unfold goes. rewrite Hrev. destruct (proj1 (ble_lt_or_eq _ _) (H2 k Hk2)) as [|E]; [done|].
      subst k. by destruct (He2 Hk2).
    - fold high_start in *. apply starts_first; [|rewrite Hrev].
      + intros k Hk1. destruct (proj1 (ble_lt_or_eq _ _) (H1 k Hk1)) as [|E]; [by apply above_high|]. rewrite <- E in *.
        destruct (He1 Hk1) as [[? ?]|Hor]; [done|by apply at_high].
      + intros k Hk2. apply to_high; [by apply H2|]. intros ->. by apply He2. }
  assert (end_ ∈ k1 -> False) as Hno by (intros Hin%Hlt; by apply blt_irrefl in Hin).
  assert (forall x, x ∈ reverse k1 -> ble x end_) as Hk1 by (intros x Hx%in_reverse; by apply blt_le, Hlt).
  rewrite reverse_app. destruct k2 as [|k k2].
  { exists [], (reverse k1). cbn in Hseek. destruct (b_seek b end_) as [[k i]|]; [done|]. rewrite Hlast, app_nil_r.
    split_and!; [done|by rewrite head_reverse|]. apply Hst; [by intros k ?%not_elem_of_nil|done|by intros ?%not_elem_of_nil|].
    by intros Hx%in_reverse. }
  destruct (seek_key b k end_ Hseek) as [i ->]. destruct (Hk k k2 eq_refl) as (_ & Hprev & Hafter).
  assert (forall x, x ∈ reverse (k :: k2) -> ble end_ x) as Hk2 by (intros x Hx%in_reverse; by apply Hge).
  destruct (_ || _ || _ || _) eqn:Hskip.
  - exists (reverse (k :: k2)), (reverse k1). split_and!; [done|by rewrite head_reverse, Hprev|]. apply Hst; [done|done| |by intros Hx%in_reverse].
    intros Hin%in_reverse. rewrite !orb_true_iff in Hskip. destruct Hskip as [[[Hs|Hs]|Hs]|Hs]; bool_prop; [|by left|by right; left|by right; right].
    exfalso. apply bltb_spec in Hs. apply elem_of_cons in Hin as [E|Hx%Hafter]; [rewrite <- E in Hs; by apply blt_irrefl in Hs|].
    apply (blt_irrefl end_). by apply (blt_trans _ k).
  - rewrite !orb_false_iff in Hskip. destruct Hskip as [[[Hs Hs2] Hs3] Hs4]. bool_prop. apply bltb_false in Hs.
    assert (k = end_) as -> by (apply ble_antisym; [done|apply Hge; by left]).
    exists (reverse k2), (end_ :: reverse k1). rewrite reverse_cons, <- app_assoc. split_and!; [done|done|]. apply Hst.
    + intros x Hx. apply Hk2. rewrite reverse_cons. apply elem_of_app. by left.
    + intros x [->|Hx]%elem_of_cons; [apply ble_lt_or_eq; by right|by apply Hk1].
    + intros Hx%in_reverse%Hafter. by apply blt_irrefl in Hx.
    + intros _. split_and!; [by destruct after; [destruct Hs2; eauto|]|by destruct (rg_Upper r); [eauto|]|by destruct (rg_UpperInclusive r)].
Qed.

(** A page starts where it should, in either direction. *)
Lemma rangeCursor_spec {V} (b : bucket V) after : start_ok after -> page_start b after.
Proof. destruct (rg_Reverse r) eqn:Hrev; [by apply reverse_start|by apply forward_start]. Qed.
End Range.
