(* ===== verification/ScanRuns.v ===== *)
(** * Scans while the store changes

    The pages of a scan are read at different moments.  As long as what happens in between only adds
    commits above the snapshot, and compacts nothing above it, the pages together are the rows of the
    snapshot. *)

From stdpp Require Import gmap list sorting strings fin_maps.
From Stdlib Require Import Strings.Byte.
From S2P Require Import Prelude TxnState Bolt Keys Versions Visibility Layouts Conflict Store CommitLog CompactSteps Scan ScanCursor.

(** ** What a page returns, and what a scan returns *)

(** ** Pages of any sorted list of keys

    What a page must return is the same for every source of rows: the rows of its keys from where it
    starts, and where the next page has to go on. *)

Lemma filter_holds {A} (P : A -> Prop) `{!forall x, Decision (P x)} (l : list A) : Forall P l -> filter P l = l.
Proof. induction 1 as [|x l Hx Hl IH]; [done|]. rewrite filter_cons, decide_True by done. by f_equal. Qed.

(** The caller's context has ended. *)
Definition canceled `{Env} (e : mvcc_error) : Prop := exists n, ctx_err n = Some e.

Lemma check_ctx_cases `{Bolt} `{Env} s :
  check_ctx s = (s <| s_clock ::= S |>, Ok tt) \/ exists e, check_ctx s = (s <| s_clock ::= S |>, Err e) /\ canceled e.
Proof.
  unfold check_ctx. destruct (ctx_err (s_clock s)) as [e|] eqn:E; [right|by left]. exists e. split; [done|]. by exists (s_clock s).
Qed.

Section Pages.
Context (space : bytes) (r : KeyRange) (row : bytes -> option rangeEntry).
Notation prefix := (space ++ [x00]).

(** The row of a key carries the key, and the key is in the range. *)
Definition row_sound : Prop := forall k e, row k = Some e -> in_range space r k /\ prefix ++ re_key e = k.

Context (Hrow : row_sound).

Lemma row_out k : ~ in_range space r k -> row k = None.
Proof. destruct (row k) as [e|] eqn:Ee; [|done]. apply Hrow in Ee as [? _]. done. Qed.

(** Outside the range there is nothing more to find. *)
Lemma row_none k w :
  ~ in_range space r k -> Forall (goes r k) w ->
  (forall k1 k2, k1 ∈ k :: w -> k2 ∈ k :: w -> goes r k1 k2 -> in_range space r k2 -> in_range space r k1) ->
  omap row (k :: w) = [].
Proof.
  intros Hout Hlater Hconv. apply omap_nothing. intros k' Hk'. apply row_out. intros Hin. destruct Hout.
  apply elem_of_cons in Hk' as [->|Hk']; [done|]. rewrite Forall_forall in Hlater.
  apply (Hconv k k'); [by left|by right|by apply Hlater|done].
Qed.

(** What a page loop that began at [w] with [entries] collected returns. *)
Definition page_of (w : list bytes) (entries : list rangeEntry) (p : rangePage) : Prop :=
  if pg_done p then pg_entries p = entries ++ omap row w
  else exists m k w', w = m ++ k :: w' /\ pg_after p = Some k /\ in_range space r k /\
    pg_entries p = entries ++ omap row (m ++ [k]).

Lemma page_of_more k w entries p e :
  row k = e -> page_of w (entries ++ option_list e) p -> page_of (k :: w) entries p.
Proof.
  intros He. unfold page_of. destruct (pg_done p).
  - intros ->. cbn [omap list_omap]. rewrite He, <- app_assoc. by destruct e.
  - intros (m & k' & w' & -> & ? & ? & ->). exists (k :: m), k', w'. split_and!; [done..|].
    cbn [app omap list_omap]. rewrite He, <- app_assoc. by destruct e.
Qed.

Lemma page_of_here k w entries e :
  in_range space r k -> row k = e -> page_of (k :: w) entries (mkPage (entries ++ option_list e) (Some k) false).
Proof. intros Hin He. exists [], k, w. split_and!; [done|done|done|]. cbn. rewrite He. by destruct e. Qed.

Lemma page_of_end k w entries :
  ~ in_range space r k -> Forall (goes r k) w ->
  (forall k1 k2, k1 ∈ k :: w -> k2 ∈ k :: w -> goes r k1 k2 -> in_range space r k2 -> in_range space r k1) ->
  page_of (k :: w) entries (mkPage entries None true).
Proof. intros. unfold page_of. cbn [pg_done pg_entries]. by rewrite row_none, app_nil_r. Qed.

(** ** In terms of all the keys *)

Context (keys : list bytes).

(** The rows beyond a key, and how many keys there are. *)
Definition remaining (after : option bytes) : list rangeEntry := omap row (filter (beyond r after) keys).

Definition left_keys (after : option bytes) : nat := length (filter (beyond r after) keys).

Definition page_right (after : option bytes) (p : rangePage) : Prop :=
  if pg_done p then pg_entries p = remaining after
  else exists k, pg_after p = Some k /\ k ∈ keys /\ in_range space r k /\ beyond r after k /\
    remaining after = pg_entries p ++ remaining (Some k).

Lemma filter_beyond_page after w1 w2 :
  starts space r after w1 w2 -> omap row (filter (beyond r after) (w1 ++ w2)) = omap row w2.
Proof.
  intros [Hb Hw _]. rewrite filter_app, omap_app. rewrite omap_nothing.
  - cbn [app]. f_equal. apply filter_holds. apply Forall_forall. exact Hw.
  - intros k [Hk1 Hk2]%list_elem_of_filter. apply row_out. intros Hin. by destruct (Hb k Hk2 Hin).
Qed.

Lemma filter_beyond_after m k w : StronglySorted (goes r) (m ++ k :: w) -> filter (beyond r (Some k)) (m ++ k :: w) = w.
Proof.
  intros Hs. apply StronglySorted_app in Hs as (Hmk & _ & Hs). apply StronglySorted_inv in Hs as [_ Hw].
  rewrite filter_app, filter_cons, decide_False by apply goes_irrefl.
  rewrite (filter_holds _ w) by done. destruct (filter _ m) as [|x l] eqn:E; [done|].
  assert (x ∈ filter (beyond r (Some k)) m) as [Hx Hm]%list_elem_of_filter by (rewrite E; by left).
  exfalso. apply (goes_irrefl r k). apply (goes_trans r k x k); [done|]. apply Hmk; [done|by left].
Qed.

Lemma filter_beyond_twice after k (l : list bytes) :
  beyond r after k -> filter (beyond r (Some k)) l = filter (beyond r (Some k)) (filter (beyond r after) l).
Proof.
  intros Hb. induction l as [|x l IH]; [done|]. rewrite !filter_cons. destruct (decide (beyond r (Some k) x)) as [Hx|Hx].
  - rewrite decide_True by (by apply (beyond_trans r after k)). rewrite filter_cons, decide_True by done. by f_equal.
  - destruct (decide (beyond r after x)); [rewrite filter_cons, decide_False by done|]; done.
Qed.

Lemma left_keys_less after k : k ∈ keys -> beyond r after k -> (left_keys (Some k) < left_keys after)%nat.
Proof.
  intros Hk Hb. unfold left_keys. assert (k ∈ filter (beyond r after) keys) as (l1 & l2 & E)%list_elem_of_split by (by apply list_elem_of_filter).
  rewrite (filter_beyond_twice after k) by done.
  rewrite E, filter_app, filter_cons, decide_False by apply goes_irrefl. rewrite !length_app. cbn [length].
  pose proof (length_filter (beyond r (Some k)) l1). pose proof (length_filter (beyond r (Some k)) l2). lia.
Qed.
End Pages.

Lemma walk_later `{BoltLaws} {V} r (b : bucket V) w1 k w2 : walk r b = w1 ++ k :: w2 -> Forall (goes r k) w2.
Proof.
  intros Hw. pose proof (walk_sorted r b) as Ho. rewrite Hw in Ho.
  apply StronglySorted_app in Ho as (_ & _ & Ho). by apply StronglySorted_inv in Ho as [_ Hlater].
Qed.

(** A page of a bucket, with the keys of the bucket. *)
Lemma page_of_right `{BoltLaws} {V} space r row (b : bucket V) after w1 w2 p :
  row_sound space r row -> walk r b = w1 ++ w2 -> starts space r after w1 w2 -> page_of space r row w2 [] p ->
  page_right space r row (walk r b) after p.
Proof.
  intros Hrow Hw Hs. unfold page_of, page_right, remaining. rewrite Hw, (filter_beyond_page space r row Hrow) by done.
  destruct (pg_done p); [done|]. intros (m & k & w' & -> & Ek & Hin & He). exists k.
  assert (k ∈ m ++ k :: w') as Hk by (apply elem_of_app; right; by left). split_and!; [done| |done| |].
  - apply elem_of_app. by right.
  - by apply (sw_beyond _ _ _ _ _ Hs).
  - rewrite app_assoc, filter_beyond_after by (rewrite <- app_assoc, <- Hw; by apply walk_sorted).
    by rewrite He, cons_middle, app_assoc, omap_app.
Qed.

Section Steps.
Context `{BoltLaws} `{GuardCodec} `{Env} (space : bytes) (r : KeyRange) (snapshot : Z).
Hypothesis Hu : is_u64 snapshot.
Notation prefix := (space ++ [x00]).

(** ** The entries a scan has to return *)

Definition emit (d : db) (k : bytes) : option rangeEntry :=
  if rangeContains k prefix r then
    match visible d k snapshot with
    | (v, _, true) => Some (mkEntry (trim_prefix prefix k) v false false)
    | _ => None
    end
  else None.

Lemma emit_sound d : row_sound space r (emit d).
Proof.
  intros k e. unfold emit, in_range. destruct (rangeContains k prefix r) eqn:Hk; [|done]. destruct (visible d k snapshot) as [[v n] []]; [|done].
  intros [= <-]. split; [done|]. cbn. apply rangeContains_spec in Hk as (t & -> & _). by rewrite trim_prefix_app.
Qed.

(** ** The loop of a page *)

Definition flat_ready (d : db) (flat : option flatScanReader) (w : list bytes) : Prop :=
  match flat with
  | None => True
  | Some f => flatLayout d = true /\ rg_Reverse r = false /\ forall k, k ∈ w -> behind d f k
  end.

Lemma page_visible_spec d cache flat k w :
  sound_db d -> cache_ok d cache -> is_Some (b_get (d_data d) k) -> flat_ready d flat (k :: w) -> Forall (goes r k) w ->
  let '(cache', flat', res) := page_visible d snapshot cache flat k in
  cache_ok d cache' /\ flat_ready d flat' w /\ res = visible d k snapshot.
Proof.
  intros [Hw Hd Hp] Hc Hk Hf Hlater. unfold page_visible. destruct flat as [f|].
  - assert (has_prefix rangeGuardPrefix k = false) as Hg.
    { destruct Hk as [i Hi]. apply (Hp (k, i)). apply kv_get_elem; [apply entries_ordered|by rewrite <- get_entries]. }
    rewrite Hg. destruct Hf as (Hl & Hr & Hb).
    pose proof (flat_scan_visible_spec d snapshot Hu Hl Hw cache f k (Hb k ltac:(by left)) Hc) as Hs.
    destruct (flat_scan_visible _ _ _ _ _) as [[cache' f'] res]. destruct Hs as (Hc' & -> & Hb'). split_and!; [done| |].
    + split_and!; [done|done|]. intros k' Hk'. apply Hb'. rewrite Forall_forall in Hlater. specialize (Hlater k' Hk').
      unfold goes in Hlater. by rewrite Hr in Hlater.
    + unfold visible. by rewrite Hg.
  - destruct (reader_visible_spec d snapshot cache k Hw Hp Hc) as [Hc' Hv].
    destruct (reader_visible d snapshot cache k) as [cache' res]. by cbn in *.
Qed.

Lemma page_loop_spec d fuel : forall w1 w2 cache flat entries size examined s,
  sound_db d -> walk r (d_data d) = w1 ++ w2 -> cache_ok d cache -> flat_ready d flat w2 ->
  (forall k k', k ∈ w2 -> k' ∈ w2 -> goes r k k' -> in_range space r k' -> in_range space r k) ->
  let '(s', res) := page_loop d snapshot prefix r fuel cache flat (head w2) entries size examined s in
  only_clock s s' /\ match res with Ok p => page_of space r (emit d) w2 entries p | Err e => canceled e end.
Proof.
  induction fuel as [|fuel IH]; intros w1 w2 cache flat entries size examined s Hd Hw Hc Hf Hconv;
    (destruct w2 as [|k w2]; cbn [head page_loop]; [by split; [exists (s_clock s); destruct s|cbn; rewrite app_nil_r]|]);
    pose proof (walk_later r (d_data d) w1 k w2 Hw) as Hlater;
    (destruct (rangeContains k prefix r) eqn:Hin; cbn [negb];
      [|split; [by exists (s_clock s); destruct s|]; apply (page_of_end space r (emit d) (emit_sound d));
        [unfold in_range; congruence|done|done]]);
    unfold then_do; (destruct (check_ctx_cases s) as [->|(e & -> & He)]; [|by split; [exists (S (s_clock s))|]]);
    (assert (is_Some (b_get (d_data d) k)) as Hk by (apply (walk_elem r); rewrite Hw; apply elem_of_app; right; by left));
    pose proof (page_visible_spec d cache flat k w2 Hd Hc Hk Hf Hlater) as Hv;
    destruct (page_visible d snapshot cache flat k) as [[cache1 flat1] [[v n] ok]]; destruct Hv as (Hc1 & Hf1 & Hv);
    assert (emit d k = if ok then Some (mkEntry (trim_prefix prefix k) v false false) else None) as He
      by (unfold emit; by rewrite Hin, <- Hv);
    (replace (if ok then entries ++ [mkEntry (trim_prefix prefix k) v false false] else entries)
      with (entries ++ option_list (if ok then Some (mkEntry (trim_prefix prefix k) v false false) else None))
      by (destruct ok; cbn; by rewrite ?app_nil_r));
    set (e := if ok then Some _ else None) in *;
    assert (page_of space r (emit d) (k :: w2) entries (mkPage (entries ++ option_list e) (Some k) false)) as Hstop
      by (by apply page_of_here);
    (destruct (_ || _); [by split; [exists (S (s_clock s))|]|]).
  - by split; [exists (S (s_clock s))|].
  - rewrite (next_in_walk r (d_data d) w1 k w2) by done.
    specialize (IH (w1 ++ [k]) w2 cache1 flat1 (entries ++ option_list e) (if ok then size + blen k + blen v else size) (examined + 1)
      (s <| s_clock ::= S |>) Hd ltac:(by rewrite <- app_assoc) Hc1 Hf1 ltac:(intros; apply (Hconv k0 k'); [by right|by right|done|done])).
    destruct (page_loop _ _ _ _ _ _ _ _ _ _ _ _) as [s2 res]. destruct IH as [(n2 & ->) Hres]. split; [by exists n2|].
    destruct res as [p|]; [|done]. by apply (page_of_more space r (emit d) k w2 entries p e).
Qed.

Lemma range_page_spec after s :
  sound_db (s_db s) -> start_ok space r after ->
  let '(s', res) := range_page snapshot prefix r after s in
  only_clock s s' /\ match res with
  | Ok p => page_right space r (emit (s_db s)) (walk r (d_data (s_db s))) after p
  | Err e => canceled e
  end.
Proof.
  intros Hd Ha. unfold range_page. destruct (rangeCursor_spec space r (d_data (s_db s)) after Ha) as (w1 & w2 & Hw & -> & Hs).
  pose proof (page_loop_spec (s_db s) 256 w1 w2 empty_cache
    (if flatLayout (s_db s) && negb (rg_Reverse r) then Some new_flat_scan else None) [] 0 0 s Hd Hw (empty_cache_ok _)) as Hl.
  destruct (page_loop _ _ _ _ _ _ _ _ _ _ _ _) as [s' res]. destruct Hl as [Hc Hres].
  - destruct (flatLayout (s_db s)) eqn:El; [|done]. destruct (rg_Reverse r) eqn:Er; [done|].
    split_and!; [done|done|]. intros k Hk Hso. discriminate.
  - apply Hs.
  - split; [done|]. destruct res as [p|e]; [|done]. by apply (page_of_right space r _ _ after w1 w2); [apply emit_sound|..].
Qed.
End Steps.

(** ** Sorted lists *)

Lemma omap_some_filter {A B} (P Q : A -> Prop) `{!forall x, Decision (P x)} `{!forall x, Decision (Q x)} (f g : A -> option B) (l : list A) :
  (forall x, x ∈ l -> P x -> f x = g x) -> (forall x, x ∈ l -> ~ P x -> g x = None) ->
  omap f (filter Q (filter P l)) = omap g (filter Q l).
Proof.
  induction l as [|x l IH]; intros Hp Hn; [done|].
  specialize (IH (fun y Hy => Hp y (list_elem_of_further _ _ _ Hy)) (fun y Hy => Hn y (list_elem_of_further _ _ _ Hy))).
  rewrite !filter_cons. destruct (decide (P x)) as [Hx|Hx]; [rewrite filter_cons|]; destruct (decide (Q x)); cbn [omap list_omap]; rewrite ?IH; try done.
  - by rewrite (Hp x ltac:(by left) Hx).
  - by rewrite (Hn x ltac:(by left) Hx).
Qed.

Lemma sorted_sublist {A} (R : A -> A -> Prop) (P : A -> Prop) `{!forall x, Decision (P x)} (l l' : list A) :
  (forall a, ~ R a a) -> (forall a b c, R a b -> R b c -> R a c) ->
  StronglySorted R l -> StronglySorted R l' -> (forall x, x ∈ l <-> x ∈ l' /\ P x) -> l = filter P l'.
Proof.
  intros Hirr Htrans Hl. revert l'. induction Hl as [|x l Hl IH Hx]; intros l' Hl' Hin.
  - destruct (filter P l') as [|y m] eqn:E; [done|]. assert (y ∈ filter P l') as [Py Hy]%list_elem_of_filter by (rewrite E; by left).
    exfalso. by apply (not_elem_of_nil y), Hin.
  - rewrite Forall_forall in Hx. induction Hl' as [|y l' Hl' IH' Hy]; [exfalso; apply (not_elem_of_nil x), (Hin x); by left|].
    rewrite Forall_forall in Hy. rewrite filter_cons. case_decide as Py.
    + assert (x = y) as <-.
      { assert (y ∈ x :: l) as [->|Hyl]%elem_of_cons by (apply Hin; split; [by left|done]); [done|].
        assert (x ∈ y :: l') as [->|Hxl]%elem_of_cons by (apply (Hin x); by left); [done|].
        exfalso. apply (Hirr x). by apply (Htrans x y x); [apply Hx|apply Hy]. }
      f_equal. apply IH; [done|]. intros z. specialize (Hin z). rewrite !elem_of_cons in Hin. split.
      * intros Hz. destruct (proj1 Hin ltac:(by right)) as [[->|?] ?]; [|done]. exfalso. by eapply Hirr, Hx.
      * intros [Hz Pz]. destruct (proj2 Hin ltac:(by split; [right|])) as [->|?]; [|done]. exfalso. by eapply Hirr, Hy.
    + apply IH'. intros z. rewrite (Hin z), elem_of_cons. split; [intros [[->|?] ?]; [done|by split]|intros [? ?]; split; [by right|done]].
Qed.

Section Runs.
Context `{BoltLaws} `{GuardCodec} `{Env} (space : bytes) (r : KeyRange) (snapshot : Z) (log : list commit) (keys : list bytes).
Hypothesis Hu : is_u64 snapshot.
Hypothesis Hkeys : StronglySorted (goes r) keys.
Notation prefix := (space ++ [x00]).

(** A moment at which the snapshot is still that of [log]: there may be newer commits, the history
    below a horizon not above the snapshot may be gone, and no key outside [keys] has come. *)
Definition steady (s : Store) : Prop :=
  exists h new seq, h <= snapshot /\ represents h (s_db s) (log ++ new) seq /\
    Forall (fun c => snapshot < c_index c) new /\ forall k, is_Some (b_get (d_data (s_db s)) k) -> k ∈ keys.

Lemma steady_clock s s' : only_clock s s' -> steady s -> steady s'.
Proof. intros [n ->]. done. Qed.

(** What the log says of a key. *)
Definition row_at (k : bytes) : option rangeEntry :=
  if rangeContains k prefix r then
    match abs_read log k snapshot with
    | (v, _, true) => Some (mkEntry (trim_prefix prefix k) v false false)
    | _ => None
    end
  else None.

Notation still := (remaining r row_at keys).

Lemma steady_listed s k : steady s -> is_Some (b_get (d_data (s_db s)) k) -> emit space r snapshot (s_db s) k = row_at k.
Proof.
  intros (h & new & seq & Hh & Hrep & Hnew & _) [i Hi]. unfold emit, row_at. destruct (rangeContains k prefix r); [|done].
  assert (has_prefix rangeGuardPrefix k = false) as Hp.
  { apply (sd_plain _ (rp_sound _ _ _ _ Hrep) (k, i)). apply kv_get_elem; [apply entries_ordered|by rewrite <- get_entries]. }
  by rewrite (visible_abs h _ (log ++ new) seq), abs_read_stable.
Qed.

Lemma steady_unlisted s k : steady s -> ~ is_Some (b_get (d_data (s_db s)) k) -> row_at k = None.
Proof.
  intros (h & new & seq & Hh & Hrep & Hnew & _) Hn. unfold row_at. destruct (rangeContains k prefix r); [|done].
  assert (history (s_db s) k = []) as Hempty.
  { destruct (history (s_db s) k) as [|e l] eqn:Eh; [done|]. destruct Hn. apply (rp_listed _ _ _ _ Hrep). by rewrite Eh. }
  rewrite <- (abs_read_stable log new k snapshot Hnew). unfold abs_read, read_at.
  change (newest_at (abs_history (log ++ new) k) _ snapshot) with (abs_newest (log ++ new) k snapshot).
  rewrite <- (rp_reads _ _ _ _ Hrep) by done. by rewrite Hempty.
Qed.

Lemma steady_rows s after :
  steady s -> omap (emit space r snapshot (s_db s)) (filter (beyond r after) (walk r (d_data (s_db s)))) = still after.
Proof.
  intros Hs. assert (walk r (d_data (s_db s)) = filter (fun k => is_Some (b_get (d_data (s_db s)) k)) keys) as ->.
  { apply (sorted_sublist (goes r)); [apply goes_irrefl|apply goes_trans|by apply walk_sorted|done|].
    intros k. rewrite (walk_elem r). split; [|by intros [_ Hk]]. intros Hk. split; [|done].
    destruct Hs as (? & ? & ? & _ & _ & _ & Hall). by apply Hall. }
  apply omap_some_filter; intros k _ Hk; [by apply steady_listed|by apply (steady_unlisted s)].
Qed.

(** ** A page *)

Lemma range_page_right after s :
  steady s -> start_ok space r after ->
  let '(s', res) := range_page snapshot prefix r after s in
  steady s' /\ match res with Ok p => page_right space r row_at keys after p | Err e => canceled e end.
Proof.
  intros Hs Ha. assert (sound_db (s_db s)) as Hd by (destruct Hs as (? & ? & ? & _ & Hr & _); apply Hr).
  pose proof (range_page_spec space r snapshot Hu after s Hd Ha) as Hp.
  destruct (range_page _ _ _ _ _) as [s' res]. destruct Hp as [Hc Hp]. split; [by apply (steady_clock s)|].
  destruct res as [p|]; [|done]. unfold page_right in *. unfold remaining at 1 in Hp. rewrite (steady_rows s after Hs) in Hp.
  destruct (pg_done p); [done|]. destruct Hp as (k & Ek & Hk & Hin & Hb & E). exists k. split_and!; [done| |done|done|].
  - destruct Hs as (? & ? & ? & _ & _ & _ & Hall). by apply Hall, (proj1 (walk_elem r _ k)).
  - unfold remaining in E. by rewrite !(steady_rows s _ Hs) in E.
Qed.

(** ** The whole scan *)

(** The consumer that collects what it is given. *)
Definition collect (st : list (bytes * bytes)) (k v : bytes) : action (list (bytes * bytes)) := done (st ++ [(k, v)]).

Definition row_of (e : rangeEntry) : bytes * bytes := (re_key e, re_value e).

Lemma yield_collect entries : forall st s,
  let '(s', res) := yield_page collect entries st s in
  only_clock s s' /\ match res with Ok st' => st' = st ++ (row_of <$> entries) | Err e => canceled e end.
Proof.
  induction entries as [|e entries IH]; intros st s; cbn [yield_page].
  { split; [apply only_clock_refl|by rewrite app_nil_r]. }
  unfold then_do. destruct (check_ctx_cases s) as [->|(x & -> & Hx)]; [|by split; [exists (S (s_clock s))|]].
  cbn [collect done]. specialize (IH (st ++ [(re_key e, re_value e)]) (s <| s_clock ::= S |>)).
  destruct (yield_page _ _ _ _) as [s' res]. destruct IH as [[n ->] Hres]. split; [by exists n|].
  destruct res; [|done]. by rewrite Hres, <- app_assoc.
Qed.

Context (others : Store -> Store) (Hothers : forall s, steady s -> steady (others s)).

Notation left_keys := (left_keys r keys).

Lemma scan_pages_right fuel : forall after st s,
  steady s -> start_ok space r after -> (left_keys after < fuel)%nat ->
  exists s' res, scan_pages others collect snapshot prefix r fuel after st s = (s', Some res) /\ steady s' /\
    match res with Ok st' => st' = st ++ (row_of <$> still after) | Err e => canceled e end.
Proof.
  induction fuel as [|fuel IH]; intros after st s Hs Ha Hf; [lia|]. cbn [scan_pages]. unfold then_do.
  destruct (check_ctx_cases s) as [->|(x & -> & Hx)]; [|by eexists _, _; split_and!; [reflexivity|exact Hs|]].
  pose proof (range_page_right after (others (s <| s_clock ::= S |>))) as Hp.
  destruct (range_page _ _ _ _ _) as [s1 [p|e]]; destruct Hp as [Hs1 Hp]; try done;
    try (apply Hothers; exact Hs); [|by eexists _, _; split_and!; [reflexivity|done|]].
  pose proof (yield_collect (pg_entries p) st s1) as Hy. destruct (yield_page _ _ _ _) as [s2 [st'|e]]; destruct Hy as [Hc Hy];
    [|by eexists _, _; split_and!; [reflexivity|by apply (steady_clock s1)|]].
  unfold page_right in Hp. cbn [done]. destruct (pg_done p).
  - eexists _, _. split_and!; [reflexivity|by apply (steady_clock s1)|]. cbn. by rewrite Hy, Hp.
  - destruct Hp as (k & -> & Hk & Hin & Hb & E).
    destruct (IH (Some k) st' s2) as (s' & res & -> & Hs' & Hres); [by apply (steady_clock s1)|by intros a [= <-]|
      pose proof (left_keys_less r keys after k Hk Hb); lia|].
    eexists _, _. split_and!; [reflexivity|done|]. destruct res; [|done]. by rewrite Hres, Hy, E, fmap_app, app_assoc.
Qed.
End Runs.
