(* ===== verification/ScanFacts.v ===== *)
(** * What a range scan returns *)

From stdpp Require Import gmap list sorting strings fin_maps.
From Stdlib Require Import Strings.Byte.
From S2P Require Import Prelude TxnState Bolt Keys Versions Visibility Layouts Conflict Store CommitLog Wal Group GroupSteps WalRecover WalGroup GroupFacts CompactFacts Scan ScanCursor ScanRuns.

Section Properties.
Context `{BoltLaws} `{GuardCodec} `{Env} (space : bytes) (r : KeyRange) (snapshot : Z) (log : list commit) (keys : list bytes).
Notation prefix := (space ++ [x00]).

Lemma row_at_spec k e :
  row_at space r snapshot log k = Some e <->
  k = prefix ++ re_key e /\ Contains r (re_key e) = true /\ re_deleted e = false /\ re_check e = false /\
  exists n, abs_read log k snapshot = (re_value e, n, true).
Proof.
  unfold row_at. destruct (rangeContains k prefix r) eqn:Hk.
  - apply rangeContains_spec in Hk as (t & -> & Ht). rewrite trim_prefix_app.
    destruct (abs_read log (prefix ++ t) snapshot) as [[v n] []]; split.
    + intros [= <-]. cbn. split_and!; [done..|]. by exists n.
    + intros (E & _ & Hd & Hc & n' & [= Ev ->]). apply app_inv_head in E. destruct e as [k' v' d' c']. cbn in *. by subst.
    + done.
    + by intros (_ & _ & _ & _ & n' & [=]).
  - split; [done|]. intros (-> & Ht & _). assert (rangeContains (prefix ++ re_key e) prefix r = true) as Hc; [|congruence].
    apply rangeContains_spec. by exists (re_key e).
Qed.

Lemma goes_prefix a b : goes r (prefix ++ a) (prefix ++ b) -> goes r a b.
Proof. unfold goes, blt. by rewrite !bcompare_app. Qed.

Lemma rows_sorted l : StronglySorted (goes r) l -> StronglySorted (goes r) (row_of <$> omap (row_at space r snapshot log) l).*1.
Proof.
  induction 1 as [|k l Hl IH Hk]; [constructor|]. cbn [omap list_omap]. destruct (row_at space r snapshot log k) as [e|] eqn:Ee; [|exact IH].
  cbn. constructor; [exact IH|]. apply Forall_forall. intros t (p & -> & (x & -> & (k' & Hk' & Ex)%list_elem_of_omap)%list_elem_of_fmap)%list_elem_of_fmap.
  apply row_at_spec in Ee as [-> _]. apply row_at_spec in Ex as [-> _]. rewrite Forall_forall in Hk. by apply goes_prefix, Hk.
Qed.

(** C25: a range scan in either direction and either layout, over any number of pages, with other
    goroutines running before each.  If these only commit above the snapshot, and let the compaction
    take nothing above it, then enough pages end the scan; and unless the caller's context ends or the
    namespace is refused, the consumer has been given exactly the rows of the range as they were at the
    snapshot, each once, in the order asked for. *)
Theorem range_scan_exact (others : Store -> Store) (s : Store) (fuel : nat) :
  is_u64 snapshot -> StronglySorted (goes r) keys -> steady snapshot log keys s ->
  (forall s, steady snapshot log keys s -> steady snapshot log keys (others s)) -> (length keys < fuel)%nat ->
  exists s' res, ScanRange others collect snapshot space r fuel [] s = (s', Some res) /\ steady snapshot log keys s' /\
    match res with
    | Ok rows =>
        StronglySorted (goes r) rows.*1 /\
        forall t v, (t, v) ∈ rows <-> Contains r t = true /\ exists n, abs_read log (prefix ++ t) snapshot = (v, n, true)
    | Err e =>
        canceled e \/ key space [] = Err e \/ key space (raw (rg_Lower r)) = Err e \/ key space (raw (rg_Upper r)) = Err e
    end.
Proof.
  intros Hu Hk Hs Ho Hf. unfold ScanRange.
  destruct (key space []) as [p|e] eqn:Ep; cbn; [|eexists _, _; split_and!; [done|done|by right; left]].
  destruct (key space (raw (rg_Lower r))) as [?|e] eqn:El; cbn; [|eexists _, _; split_and!; [done|done|by right; right; left]].
  destruct (key space (raw (rg_Upper r))) as [?|e] eqn:Eu; cbn; [|eexists _, _; split_and!; [done|done|by right; right; right]].
  apply key_ok in Ep as [-> _]. change ([x00] ++ []) with [x00].
  destruct (scan_pages_right space r snapshot log keys Hu Hk others Ho fuel None [] s Hs (fun _ E => ltac:(discriminate E))
    (Nat.le_lt_trans _ _ _ (length_filter _ _) Hf)) as (s' & res & -> & Hs' & Hres).
  exists s', res. split_and!; [done|done|]. destruct res as [rows|e]; [|by left]. subst rows. unfold remaining.
  rewrite filter_holds by (by apply Forall_forall). split; [by apply rows_sorted|]. intros t v. cbn [app]. rewrite list_elem_of_fmap.
  split.
  - intros ([k' v' d c] & [= -> ->] & (k & _ & (-> & Hc & _ & _ & Hr)%row_at_spec)%list_elem_of_omap). by split.
  - intros [Hc Hr]. exists (mkEntry t v false false). split; [done|]. apply list_elem_of_omap. exists (prefix ++ t).
    assert (row_at space r snapshot log (prefix ++ t) = Some (mkEntry t v false false)) as Hrow by (by apply row_at_spec).
    split; [|done]. destruct (decide (is_Some (b_get (d_data (s_db s)) (prefix ++ t)))) as [Hl|Hl].
    + destruct Hs as (? & ? & ? & _ & _ & _ & Hall). by apply Hall.
    + rewrite (steady_unlisted space r snapshot log keys Hu s _ Hs Hl) in Hrow. done.
Qed.
End Properties.

(** ** A scan during which a commit arrives *)

#[local] Existing Instance calm.
#[local] Existing Instance prefix_codec.
#[local] Existing Instance sum_digest.
#[local] Existing Instance sum_digest_laws.

(** Every row, the last first. *)
Definition all_rows : KeyRange := mkRange None None false false true.

Lemma keys_among (d : db) keys : (b_entries (d_data d)).*1 = keys -> forall k, is_Some (b_get (d_data d) k) -> k ∈ keys.
Proof.
  intros <- k [i Hi]. rewrite get_entries in Hi. apply kv_get_elem in Hi; [|apply entries_ordered].
  by apply (list_elem_of_fmap_2 fst _ (k, i)).
Qed.

(** While a page waits, the third commit is written. *)
Definition meanwhile (s : Store) : Store := s <| s_db := s_db grown_store |>.

Definition first_commit : list commit := take 1 grown_log.

Lemma meanwhile_steady (s : Store) : steady 1 first_commit [row_key] (meanwhile s).
Proof.
  destruct grown_represented as (_ & _ & Hrep & _).
  assert (grown_log = first_commit ++ drop 1 grown_log) as E by (symmetry; apply take_drop).
  rewrite E in Hrep. exists 0, (drop 1 grown_log), (s_localSeq grown_store). split_and!; [lia|exact Hrep| |].
  - apply (bool_decide_unpack _). vm_compute. exact I.
  - apply keys_among. vm_compute. reflexivity.
Qed.

Definition young_store : Store := (commit_groups [two_writers] (new_store true)).1.

Lemma young_steady : steady 1 first_commit [row_key] young_store.
Proof.
  pose proof two_writers_ok as [Hok Hfresh].
  assert (commit_groups [two_writers] (new_store true) = (young_store, (commit_groups [two_writers] (new_store true)).2)) as E
    by apply surjective_pairing.
  assert (s_fatal young_store = None) as Hf by (vm_compute; reflexivity).
  pose proof (rw_recovered _ _ _ _ _ (groups_run 0 [two_writers] [] (new_store true) _ _ (new_store_recovered true)
    ltac:(unfold u64_max; lia) ltac:(apply Forall_singleton; exact Hok)
    ltac:(split; [apply (bool_decide_unpack _); vm_compute; exact I|by intros r _ ?%not_elem_of_nil]) E Hf)) as (_ & _ & Hrep & _).
  assert ([] ++ commits_of (commit_groups [two_writers] (new_store true)).2 = first_commit ++ []) as El by (vm_compute; reflexivity).
  rewrite El in Hrep. exists 0, [], (s_localSeq young_store). split_and!; [lia|exact Hrep|constructor|].
  apply keys_among. vm_compute. reflexivity.
Qed.

Lemma range_scan_exact_witness :
  exists s', ScanRange meanwhile collect 1 (str "t") all_rows 2 [] young_store = (s', Some (Ok [(str "row", str "a")])) /\
    (exists n, abs_read first_commit row_key 1 = (str "a", n, true)) /\ (visible (s_db s') row_key 2).1.1 = str "c".
Proof.
  destruct (range_scan_exact (str "t") all_rows 1 first_commit [row_key] meanwhile young_store 2)
    as (s' & res & E & _ & Hres); [unfold is_u64; lia|constructor; constructor|exact young_steady|intros s _; exact (meanwhile_steady s)|cbn; lia|].
  assert (forall p, p = ScanRange meanwhile collect 1 (str "t") all_rows 2 [] young_store ->
    p.2 = Some (Ok [(str "row", str "a")]) /\ (visible (s_db p.1) row_key 2).1.1 = str "c") as Hp
    by (intros p ->; split; vm_compute; reflexivity).
  destruct (Hp (s', Some res) (eq_sym E)) as [Hr Hv]. cbn [fst snd] in Hr, Hv. assert (res = Ok [(str "row", str "a")]) as -> by congruence.
  exists s'. split; [exact E|]. split; [|exact Hv]. apply Hres. apply list_elem_of_singleton. reflexivity.
Defined.
