(* ===== verification/WriteSet.v ===== *)
(** * The private write set of a transaction: [mvcc/write_buffer.go], [mvcc/transaction.go], [mvcc/merge.go]

    A transaction keeps its writes in a bounded buffer and, once that is full, in a temporary database
    of its own (the stage).  A child transaction is a layer over its parent: it reads through its own
    writes, then the parent's, then the store, and its commit merges its writes into the parent's. *)

From stdpp Require Import gmap list sorting strings fin_maps.
From Stdlib Require Import Strings.Byte.
From S2P Require Import Prelude TxnState TxnManager Bolt Keys Versions Conflict Store.

(** ** The transaction *)

Record Tx `{Bolt} : Type := mkTx {
  t_generation : Z;
  t_Snapshot : Z;
  t_ID : bytes;
  t_stage : option (bucket bytes);
  t_closed : bool;
  t_stagedBytes : Z;
  t_buffered : gmap bytes bytes;
  t_bufferBytes : Z;
  t_state : TransactionState;
  t_commitTS : Z;
  t_hasCommitTS : bool;
  t_abortReason : bytes;
  t_counters : transactionCounters;
  t_guardedKeys : gset bytes;
  t_writeBaseline : gmap bytes Z;
  t_baselineRejections : Z
}.

#[export] Instance Tx_rebuild `{Bolt} : Rebuild Tx := fun t =>
  mkTx _ (t_generation t) (t_Snapshot t) (t_ID t) (t_stage t) (t_closed t) (t_stagedBytes t) (t_buffered t)
    (t_bufferBytes t) (t_state t) (t_commitTS t) (t_hasCommitTS t) (t_abortReason t) (t_counters t) (t_guardedKeys t)
    (t_writeBaseline t) (t_baselineRejections t).

(** What the lock domain answers: why an abort of a root was asked for, how the acquisition of the lock
    of a write, waiting included, ends. *)
Class Locking : Type := {
  abort_request : nat -> bytes -> bytes;
  lock_answer : nat -> bytes -> Op -> option mvcc_error
}.

(** The budget the store was opened with; 0 when there is none. *)
Class StoreOptions : Type := { writeSetLimit : Z }.

Definition writeBufferBytes : Z := 131072.
Definition maxGuardedKeys : Z := 16384.
Definition max_int64 : Z := 2 ^ 63 - 1.

(** ** Actions on a transaction and the store *)

Definition tx_action `{Bolt} (A : Type) : Type := Tx -> Store -> Tx * Store * result mvcc_error A.

Definition tx_done `{Bolt} {A} (a : A) : tx_action A := fun t s => (t, s, Ok a).
Definition tx_returns `{Bolt} {A} (r : result mvcc_error A) : tx_action A := fun t s => (t, s, r).
Definition tx_modify `{Bolt} (f : Tx -> Tx) : tx_action unit := fun t s => (f t, s, Ok tt).
Definition on_store `{Bolt} {A} (m : action A) : tx_action A := fun t s => let '(s, r) := m s in (t, s, r).

Definition tx_then `{Bolt} {A B} (m : tx_action A) (k : A -> tx_action B) : tx_action B := fun t s =>
  match m t s with
  | (t, s, Ok a) => k a t s
  | (t, s, Err e) => (t, s, Err e)
  end.

Notation "'let@' x ':=' m 'in' k" := (tx_then m (fun x => k))
  (at level 10, x pattern, m at level 100, k at level 200) : store_scope.

(** ** Counters ([mvcc/observation.go]) *)

Inductive stagedOpKind : Type :=
  | stagedOpNone
  | stagedOpWrite
  | stagedOpPointDependency
  | stagedOpRangeDependency.

#[export] Instance stagedOpKind_eq_dec : EqDecision stagedOpKind.
Proof. solve_decision. Defined.

Definition stagedOpKindOf (k : bytes) (encoded : option bytes) : stagedOpKind :=
  match encoded with
  | None => stagedOpNone
  | Some v =>
      if blen v <? 2 then stagedOpNone
      else if negb (Z.testbit (byte_at 1 v) 1) then stagedOpWrite
      else if has_prefix rangeGuardPrefix k then stagedOpRangeDependency
      else stagedOpPointDependency
  end.

Definition stagedOpByteCost (k encoded : bytes) : Z := blen k + blen encoded.

Definition writeByteCost (k : bytes) (kind : stagedOpKind) (encoded : option bytes) : Z :=
  if decide (kind = stagedOpWrite) then stagedOpByteCost k (raw encoded) else 0.

Definition counterDecrement : Z := u64_max.

Definition moveCounter (before after : bool) (c : Z) : Z :=
  if after && negb before then add64 1 c else if before && negb after then add64 counterDecrement c else c.

Definition trackStagedOp (k : bytes) (previous : option bytes) (current : bytes) (c : transactionCounters) : transactionCounters :=
  let previousKind := stagedOpKindOf k previous in
  let currentKind := stagedOpKindOf k (Some current) in
  let move kind := moveCounter (bool_decide (previousKind = kind)) (bool_decide (currentKind = kind)) in
  c <| tc_writes ::= move stagedOpWrite |>
    <| tc_pointDependencies ::= move stagedOpPointDependency |>
    <| tc_rangeDependencies ::= move stagedOpRangeDependency |>
    <| tc_writeBytes ::= fun b => wrap_i64 (b + (writeByteCost k currentKind (Some current) - writeByteCost k previousKind previous)) |>.

(** ** The buffer and the stage ([mvcc/write_buffer.go]) *)

Section Buffer.
Context `{Bolt} `{Env} `{Locking} `{StoreOptions} `{MapRange}.

Definition ensureStage : tx_action unit := fun t s =>
  match t_stage t with
  | Some _ => (t, s, Ok tt)
  | None => (let@ _ := on_store check_io in tx_modify (fun t => t <| t_stage := Some b_empty |>)) t s
  end.

(** [t.stage.Update]. *)
Definition stage_update (f : bucket bytes -> bucket bytes) : tx_action unit :=
  let@ _ := on_store check_io in tx_modify (fun t => t <| t_stage ::= fmap f |>).

(** The buffered entries, by key. *)
Definition buffered_entries (t : Tx) : list (bytes * bytes) :=
  omap (fun k => pair k <$> t_buffered t !! k) (sort_stable bltb (range 0 (t_buffered t)).*1).

Definition put_all (l : list (bytes * bytes)) (b : bucket bytes) : bucket bytes :=
  foldl (fun b e => b_put e.1 e.2 b) b l.

Definition flushWrites : tx_action unit := fun t s =>
  if bool_decide (t_buffered t = ∅) then (t, s, Ok tt)
  else
    (let@ _ := ensureStage in
     let@ _ := stage_update (put_all (buffered_entries t)) in
     tx_modify (fun t => t <| t_buffered := ∅ |> <| t_bufferBytes := 0 |>)) t s.

Definition stagedValue (t : Tx) (k : bytes) : result mvcc_error (option bytes) :=
  match t_buffered t !! k with
  | Some v => Ok (Some v)
  | None => if t_closed t then Err ErrClosed else Ok (t_stage t ≫= fun b => b_get b k)
  end.

(** A guard leaves a write of the same key in place. *)
Definition keeps_write (op : Op) (k : bytes) (previous : option bytes) : result mvcc_error bool :=
  match previous with
  | Some v => if op_Check op then let* old := decodeStagedOp k v in Ok (negb (op_Check old)) else Ok false
  | None => Ok false
  end.

Definition entry_bytes (k v : bytes) : Z := blen k + blen v.

Definition write_delta (k value : bytes) (previous : option bytes) : Z :=
  entry_bytes k value - from_option (entry_bytes k) 0 previous.

Definition check_budget (t : Tx) (delta : Z) : result mvcc_error unit :=
  if (0 <? delta) && (max_int64 - delta <? t_stagedBytes t) then Err ErrWriteSetLimit
  else if (0 <? writeSetLimit) && (writeSetLimit <? t_stagedBytes t + delta) then Err ErrWriteSetLimit
  else Ok tt.

Definition buffer_cost (k v : bytes) : Z := blen k + blen v + 64.

(** Into the buffer, which is flushed first when it would grow too large; an operation that is too
    large by itself goes to the stage. *)
Definition buffer_put (k value : bytes) : tx_action unit := fun t s =>
  let cost := buffer_cost k value in
  let oldCost := from_option (buffer_cost k) 0 (t_buffered t !! k) in
  (let@ oldCost := (if writeBufferBytes <? t_bufferBytes t - oldCost + cost
                    then let@ _ := flushWrites in tx_done 0 else tx_done oldCost) in
   if writeBufferBytes <? cost then let@ _ := ensureStage in stage_update (b_put k value)
   else tx_modify (fun t => t <| t_buffered ::= <[k := value]> |> <| t_bufferBytes ::= Z.add (cost - oldCost) |>)) t s.

Definition bufferWrite (op : Op) (k value : bytes) : tx_action unit := fun t s =>
  (let@ previous := tx_returns (stagedValue t k) in
   let@ kept := tx_returns (keeps_write op k previous) in
   if kept : bool then tx_done tt
   else
     let delta := write_delta k value previous in
     let@ _ := tx_returns (check_budget t delta) in
     let@ _ := buffer_put k value in
     tx_modify (fun t => t <| t_counters ::= trackStagedOp k previous value |> <| t_stagedBytes ::= Z.add delta |>)) t s.

(** ** Writing ([mvcc/transaction.go]) *)

Definition stale (t : Tx) (s : Store) : bool := negb (t_generation t =? s_generation s).

Definition AcquireRawWriteLock (op : Op) : tx_action unit := fun t s =>
  if op_Check op then (t, s, Ok tt)
  else (t, s <| s_clock ::= S |>, match lock_answer (s_clock s) (t_ID t) op with Some e => Err e | None => Ok tt end).

Definition one_op (op : Op) : Command := mkCommand "" [] 0 [op] [] 0 0.

Definition write (op : Op) : tx_action unit := fun t s =>
  if t_closed t || stale t s then (t, s, Err ErrClosed)
  else
    (let@ _ := tx_returns (validateCommand (one_op op)) in
     let@ _ := AcquireRawWriteLock op in
     let k := match key (op_Space op) (op_Key op) with Ok k => k | Err _ => [] end in
     bufferWrite op k (encodeStagedOp op)) t s.

Definition Put (space rowKey value : bytes) : tx_action unit := write (mkOp space rowKey value false false).
Definition Delete (space rowKey : bytes) : tx_action unit := write (mkOp space rowKey [] true false).

Definition Guard (space rowKey : bytes) : tx_action unit := fun t s =>
  match key space rowKey with
  | Err e => (t, s, Err e)
  | Ok k =>
      if t_closed t then (t, s, Err ErrClosed)
      else
        let isNew := bool_decide (k ∉ t_guardedKeys t) in
        if isNew && (maxGuardedKeys <=? Z.of_nat (size (t_guardedKeys t))) then (t, s, Err ErrWriteSetLimit)
        else
          match write (mkOp space rowKey [] false true) (t <| t_guardedKeys ::= union {[ k ]} |>) s with
          | (t, s, Err e) => ((if isNew then t <| t_guardedKeys ::= fun g => g ∖ {[ k ]} |> else t), s, Err e)
          | r => r
          end
  end.

(** ** Reading through the layers *)

Definition deadlock_reason : bytes := str "DEADLOCK".
Definition epoch_reason : bytes := str "EPOCH".

Definition AbortRequestReason (t : Tx) (s : Store) : bytes := abort_request (s_clock s) (t_ID t).

Definition deadlockAborted (t : Tx) (s : Store) : bool :=
  bool_decide (t_abortReason t = deadlock_reason) || bool_decide (t_abortReason t = str "deadlock") ||
  bool_decide (AbortRequestReason t s = deadlock_reason).

Definition checkOpen (t : Tx) (s : Store) : result mvcc_error unit :=
  if stale t s then Err ErrClosed
  else if t_closed t then Err (if deadlockAborted t s then ErrDeadlock else ErrClosed)
  else Ok tt.

Definition readOp (t : Tx) (space rowKey : bytes) : result mvcc_error (option Op) :=
  let* k := key space rowKey in
  if bool_decide (t_stage t = None) && bool_decide (t_buffered t = ∅) then Ok None
  else
    let* v := stagedValue t k in
    match v with
    | None => Ok None
    | Some v => let* op := decodeStagedOp k v in Ok (Some op)
    end.

(** [Store.Get] *)
Definition Store_Get `{GuardCodec} (s : Store) (snapshot : Z) (space rowKey : bytes) : result mvcc_error reading :=
  let* k := key space rowKey in Ok (visible (s_db s) k snapshot).

(** [Tx.read], with the snapshot of the root, and [Tx.readAt]: a transaction and its ancestors, the
    innermost first. *)
Fixpoint read_layers `{GuardCodec} (revision : Tx -> Z) (layers : list Tx) (s : Store) (space rowKey : bytes)
    : result mvcc_error (bytes * bool) :=
  match layers with
  | [] => Err ErrClosed
  | t :: parents =>
      let below :=
        match parents with
        | [] =>
            if stale t s then Err ErrConflict
            else let* r := Store_Get s (revision t) space rowKey in Ok (r.1.1, r.2)
        | _ => read_layers revision parents s space rowKey
        end in
      let* _ := checkOpen t s in
      let* op := readOp t space rowKey in
      match op with
      | Some op => if op_Check op then below else Ok (op_Value op, negb (op_Delete op))
      | None => below
      end
  end.

Definition Tx_read `{GuardCodec} := read_layers t_Snapshot.
Definition ReadAt `{GuardCodec} (revision : Z) := read_layers (fun _ => revision).

(** One observation, of the rows and bytes a read returned. *)
Definition observe (reads : transactionCounters -> transactionCounters) (rows bytes : Z) (c : transactionCounters) : transactionCounters :=
  let c := reads c in
  if rows =? 0 then c else c <| tc_rowsObserved ::= add64 rows |> <| tc_bytesObserved ::= add64 bytes |>.

Definition observePointRead : Z -> Z -> transactionCounters -> transactionCounters :=
  observe (fun c => c <| tc_pointReads ::= add64 1 |>).

(** [Tx.Get] of the innermost of the layers. *)
Definition Tx_Get `{GuardCodec} (t : Tx) (parents : list Tx) (s : Store) (space rowKey : bytes) : Tx * result mvcc_error (bytes * bool) :=
  match checkOpen t s with
  | Err e => (t, Err e)
  | Ok _ =>
      let r := Tx_read (t :: parents) s space rowKey in
      let '(rows, n) := match r with Ok (v, true) => (1, blen rowKey + blen v) | _ => (0, 0) end in
      (t <| t_counters ::= observePointRead rows n |>, r)
  end.

(** ** Ending ([mvcc/transaction.go]) *)

(** The transaction's own copy of the outcome; the registry's is [Transition] of [TxnManager]. *)
Definition applyTransition (state : TransactionState) (o : TransitionOptions) (t : Tx) : Tx :=
  let t := t <| t_state := state |> in
  let t := if to_HasCommitTS o then t <| t_commitTS := to_CommitTS o |> <| t_hasCommitTS := true |> else t in
  if decide (state = TransactionAborted) then t <| t_abortReason := to_Reason o |> else t.

(** The buffer and the stage are given up; an error in removing the stage is ignored by every caller here. *)
Definition cleanup (t : Tx) : Tx :=
  if t_closed t then t
  else t <| t_closed := true |> <| t_buffered := ∅ |> <| t_bufferBytes := 0 |> <| t_stage := None |>.

Definition because (reason : bytes) : TransitionOptions := mkTransitionOptions 0 false false reason.

Definition finish (state : TransactionState) (o : TransitionOptions) (t : Tx) (s : Store) : Tx :=
  if t_closed t then t
  else
    let o := if bool_decide (state = TransactionAborted) && bool_decide (to_Reason o = [])
             then mkTransitionOptions (to_CommitTS o) (to_HasCommitTS o) (to_Conflict o) (AbortRequestReason t s) else o in
    cleanup (applyTransition state o t).

Definition Rollback (t : Tx) (s : Store) : Tx := if t_closed t then t else finish TransactionAborted (because []) t s.

(** ** Walking the write set *)

(** [yield] acts on something of the caller's beside the store. *)
Fixpoint walk_entries {St} (yield : Op -> St -> Store -> St * Store * result mvcc_error unit) (l : list (bytes * bytes))
    (st : St) (s : Store) : St * Store * result mvcc_error unit :=
  match l with
  | [] => (st, s, Ok tt)
  | (k, v) :: l =>
      match check_ctx s with
      | (s, Err e) => (st, s, Err e)
      | (s, Ok _) =>
          match decodeStagedOp k v with
          | Err e => (st, s, Err e)
          | Ok op =>
              match yield op st s with
              | (st, s, Err e) => (st, s, Err e)
              | (st, s, Ok _) => walk_entries yield l st s
              end
          end
      end
  end.

Definition WalkWrites {St} (yield : Op -> St -> Store -> St * Store * result mvcc_error unit) (t : Tx) (st : St) (s : Store)
    : Tx * St * Store * result mvcc_error unit :=
  match check_ctx s with
  | (s, Err e) => (t, st, s, Err e)
  | (s, Ok _) =>
      match t_stage t with
      | None => let '(st, s, r) := walk_entries yield (buffered_entries t) st s in (t, st, s, r)
      | Some _ =>
          match flushWrites t s with
          | (t, s, Err e) => (t, st, s, Err e)
          | (t, s, Ok _) =>
              let '(st, s, r) := walk_entries yield (from_option b_entries [] (t_stage t)) st s in (t, st, s, r)
          end
      end
  end.

(** ** The commit of a child ([mvcc/merge.go]) *)

Definition mergeGuardedKeys (p child : Tx) : result mvcc_error Tx :=
  if bool_decide (t_guardedKeys child = ∅) then Ok p
  else
    let newKeys := size (t_guardedKeys child ∖ t_guardedKeys p) in
    if maxGuardedKeys <? Z.of_nat (size (t_guardedKeys p)) + Z.of_nat newKeys then Err ErrWriteSetLimit
    else Ok (p <| t_guardedKeys ::= union (t_guardedKeys child) |>).

(** The guards of the child are added to the parent, which is rolled back when there are too many. *)
Definition fold_guards (t p : Tx) (s : Store) : Tx * Tx * Store * result mvcc_error unit :=
  match mergeGuardedKeys p t with
  | Err e => (t, Rollback p s, s, Err e)
  | Ok p => (t, p, s, Ok tt)
  end.

Definition empty_write_set (p : Tx) : bool :=
  bool_decide (t_stage p = None) && bool_decide (t_buffered p = ∅) && (t_stagedBytes p =? 0).

(** The write set of [t], handed over to a parent that has none. *)
Definition take_over (t p : Tx) : Tx * Tx :=
  (t <| t_stage := None |> <| t_buffered := ∅ |> <| t_stagedBytes := 0 |> <| t_bufferBytes := 0 |>,
   p <| t_stage := t_stage t |> <| t_buffered := t_buffered t |> <| t_stagedBytes := t_stagedBytes t |> <| t_bufferBytes := t_bufferBytes t |>
     <| t_counters ::= fun c => addObservations (addDependencies (addWriteSet c (t_counters t)) (t_counters t)) (t_counters t) |>).

Definition mergeParent (t p : Tx) (s : Store) : Tx * Tx * Store * result mvcc_error unit :=
  if t_closed p || stale p s then (t, p, s, Err ErrClosed)
  else
    match check_ctx s with
    | (s, Err e) => (t, p, s, Err e)
    | (s, Ok _) =>
        if empty_write_set p then let '(t, p) := take_over t p in fold_guards t p s
        else
          match WalkWrites (fun op p s => write op p s) t p s with
          | (t, p, s, Err e) => (t, Rollback p s, s, Err e)
          | (t, p, s, Ok _) => fold_guards t (p <| t_counters ::= fun c => addObservations c (t_counters t) |>) s
          end
    end.

Definition canStillCommit (t : Tx) (s : Store) : result mvcc_error unit :=
  let reason := AbortRequestReason t s in
  if bool_decide (reason = deadlock_reason) then Err ErrDeadlock
  else if bool_decide (reason = epoch_reason) then Err ErrConflict
  else Ok tt.

(** The category of a terminal error. *)
Definition abortReason (e : mvcc_error) : bytes :=
  match e with
  | ErrConflict => str "conflict"
  | ErrSequenceExhausted => str "sequence exhausted"
  | ErrWriteSetLimit => str "write set limit"
  | ErrCanceled => str "canceled"
  | ErrClosed => str "closed"
  | _ => str "commit failed"
  end.

Definition commitChild (t p : Tx) (s : Store) : Tx * Tx * Store * result mvcc_error Z :=
  match canStillCommit t s with
  | Err e => (finish TransactionAborted (because (abortReason e)) t s, p, s, Err e)
  | Ok _ =>
      match mergeParent t p s with
      | (t, p, s, Err e) => (finish TransactionAborted (because (str "merge failed")) t s, p, s, Err e)
      | (t, p, s, Ok _) => (finish TransactionMerged (because []) t s, p, s, Ok (t_Snapshot t))
      end
  end.
End Buffer.
