(* ===== verification/WriteSetInv.v ===== *)
(** * A write set as a map, and its accounting *)

From stdpp Require Import gmap list sorting strings fin_maps.
From Stdlib Require Import Strings.Byte.
From S2P Require Import Prelude TxnState TxnManager Bolt Keys Versions Visibility Layouts Conflict Store CommitLog CompactSteps WriteSet.

Lemma ordered_NoDup {V} (l : list (bytes * V)) : ordered l -> NoDup l.*1.
Proof.
  induction l as [|e l IH]; [constructor|]. intros [Hl Hlt]%ordered_cons_inv. cbn. constructor; [|by apply IH].
  intros (x & E & Hx)%list_elem_of_fmap. specialize (Hlt x Hx). rewrite <- E in Hlt. by apply blt_irrefl in Hlt.
Qed.

Section Invariant.
Context `{BoltLaws} `{Env} `{Locking} `{StoreOptions} `{MapRange}.

(** ** The map *)

Definition bucket_map (b : bucket bytes) : gmap bytes bytes := list_to_map (b_entries b).

Definition stage_map (t : Tx) : gmap bytes bytes := from_option bucket_map ∅ (t_stage t).

(** What has been written, whether it is in the buffer or in the stage. *)
Definition ws (t : Tx) : gmap bytes bytes := t_buffered t ∪ stage_map t.

Lemma bucket_map_lookup (b : bucket bytes) k : bucket_map b !! k = b_get b k.
Proof.
  unfold bucket_map. rewrite get_entries. apply option_eq. intros v. rewrite kv_get_elem by apply entries_ordered.
  symmetry. apply elem_of_list_to_map. apply ordered_NoDup, entries_ordered.
Qed.

Lemma ws_lookup t k : ws t !! k = match t_buffered t !! k with Some v => Some v | None => t_stage t ≫= fun b => b_get b k end.
Proof.
  assert (stage_map t !! k = t_stage t ≫= fun b => b_get b k) as Hs
    by (unfold stage_map; destruct (t_stage t) as [b|]; cbn; [apply bucket_map_lookup|apply lookup_empty]).
  unfold ws. rewrite <- Hs. destruct (t_buffered t !! k) as [v|] eqn:Eb; [by apply lookup_union_Some_l|by apply lookup_union_r].
Qed.

Lemma stagedValue_spec t k : t_closed t = false -> stagedValue t k = Ok (ws t !! k).
Proof. intros Hc. unfold stagedValue. rewrite ws_lookup, Hc. by destruct (t_buffered t !! k). Qed.

(** ** The entries of the buffer, in order *)

Lemma buffered_keys_elem t k : k ∈ sort_stable bltb (range 0 (t_buffered t)).*1 <-> is_Some (t_buffered t !! k).
Proof.
  rewrite sort_stable_perm, list_elem_of_fmap. split.
  - intros ([k' v] & -> & Hv%elem_of_range). by eexists.
  - intros [v Hv]. exists (k, v). split; [done|]. by apply elem_of_range.
Qed.

Lemma omap_pairs_fst (m : gmap bytes bytes) l :
  (forall k, k ∈ l -> is_Some (m !! k)) -> (omap (fun k => pair k <$> m !! k) l).*1 = l.
Proof.
  induction l as [|k l IH]; intros Hm; [done|]. cbn [omap list_omap]. destruct (Hm k ltac:(by left)) as [v Hv]. rewrite Hv. cbn.
  f_equal. apply IH. intros. apply Hm. by right.
Qed.

Lemma buffered_entries_keys t : (buffered_entries t).*1 = sort_stable bltb (range 0 (t_buffered t)).*1.
Proof. apply omap_pairs_fst. intros k Hk. by apply buffered_keys_elem. Qed.

Lemma buffered_entries_NoDup t : NoDup (buffered_entries t).*1.
Proof. rewrite buffered_entries_keys, sort_stable_perm. apply range_NoDup. Qed.

Lemma buffered_entries_elem t k v : (k, v) ∈ buffered_entries t <-> t_buffered t !! k = Some v.
Proof.
  unfold buffered_entries. rewrite list_elem_of_omap. split.
  - intros (k' & _ & E). destruct (t_buffered t !! k') eqn:Ek; cbn in E; [|done]. by injection E as -> ->.
  - intros Hv. exists k. split; [apply buffered_keys_elem; by eexists|]. by rewrite Hv.
Qed.

Lemma buffered_entries_map t : list_to_map (buffered_entries t) = t_buffered t.
Proof.
  apply map_eq. intros k. apply option_eq. intros v. rewrite <- elem_of_list_to_map by apply buffered_entries_NoDup.
  apply buffered_entries_elem.
Qed.

Lemma put_all_get (l : list (bytes * bytes)) : forall (b : bucket bytes) k,
  NoDup l.*1 -> b_get (put_all l b) k = match (list_to_map l : gmap bytes bytes) !! k with Some v => Some v | None => b_get b k end.
Proof.
  induction l as [|[k' v'] l IH]; intros b k Hnd; [done|]. cbn [fmap list_fmap fst] in Hnd. apply NoDup_cons in Hnd as [Hk' Hnd].
  change (put_all ((k', v') :: l) b) with (put_all l (b_put k' v' b)). rewrite IH, get_put by done. cbn [list_to_map foldr fst snd].
  change (foldr (fun p => <[p.1:=p.2]>) ∅ l) with (list_to_map l : gmap bytes bytes). destruct (decide (k = k')) as [->|Hk].
  - rewrite lookup_insert_eq. by rewrite (not_elem_of_list_to_map_1 l k').
  - by rewrite lookup_insert_ne by done.
Qed.

(** ** The invariant *)

(** Guards of any key, and writes outside the reserved namespace of guards. *)
Definition client_op (op : Op) : Prop :=
  if op_Check op then op_Delete op = false else op_Space op <> rangeGuardSpace.

(** The record of an operation under its key. *)
Definition entry_good (k v : bytes) : Prop :=
  exists op, key (op_Space op) (op_Key op) = Ok k /\ stageable op = true /\ client_op op /\ v = encodeStagedOp op.

Definition kind_count (kind : stagedOpKind) (k v : bytes) : Z := if decide (stagedOpKindOf k (Some v) = kind) then 1 else 0.

Definition write_bytes (k v : bytes) : Z := writeByteCost k (stagedOpKindOf k (Some v)) (Some v).

(** The counters describe a write set. *)
Record counted (m : gmap bytes bytes) (c : transactionCounters) : Prop := {
  ct_writes : tc_writes c = map_sum (kind_count stagedOpWrite) m;
  ct_points : tc_pointDependencies c = map_sum (kind_count stagedOpPointDependency) m;
  ct_ranges : tc_rangeDependencies c = map_sum (kind_count stagedOpRangeDependency) m;
  ct_bytes : tc_writeBytes c = map_sum write_bytes m
}.

Definition within_budget (n : Z) : Prop := n <= max_int64 /\ (0 < writeSetLimit -> n <= writeSetLimit).

Record tx_ok (t : Tx) : Prop := {
  ok_entries : map_Forall entry_good (ws t);
  ok_bytes : t_stagedBytes t = map_sum entry_bytes (ws t);
  ok_budget : within_budget (t_stagedBytes t);
  ok_buffer : t_bufferBytes t = map_sum buffer_cost (t_buffered t) /\ t_bufferBytes t <= writeBufferBytes;
  ok_counters : counted (ws t) (t_counters t)
}.

(** What the operations on the write set leave alone. *)
Record kept (t t' : Tx) : Prop := {
  kp_generation : t_generation t' = t_generation t;
  kp_Snapshot : t_Snapshot t' = t_Snapshot t;
  kp_ID : t_ID t' = t_ID t;
  kp_closed : t_closed t' = t_closed t;
  kp_state : t_state t' = t_state t;
  kp_abortReason : t_abortReason t' = t_abortReason t;
  kp_guardedKeys : t_guardedKeys t' = t_guardedKeys t;
  kp_writeBaseline : t_writeBaseline t' = t_writeBaseline t
}.

#[export] Instance kept_preorder : PreOrder kept.
Proof. split; [by intros t|]. intros t1 t2 t3 [] []. constructor; congruence. Qed.

(** Only where the entries are has changed. *)
Record moved (t t' : Tx) : Prop := {
  mv_kept : kept t t';
  mv_ws : ws t' = ws t;
  mv_bytes : t_stagedBytes t' = t_stagedBytes t;
  mv_counters : t_counters t' = t_counters t
}.

#[export] Instance moved_preorder : PreOrder moved.
Proof. split; [by intros t|]. intros t1 t2 t3 [] []. constructor; [by etransitivity|congruence..]. Qed.

Lemma moved_ok t t' : moved t t' -> tx_ok t ->
  t_bufferBytes t' = map_sum buffer_cost (t_buffered t') /\ t_bufferBytes t' <= writeBufferBytes -> tx_ok t'.
Proof. intros [_ Hws Hb Hc] [] ?. constructor; by rewrite ?Hws, ?Hb, ?Hc. Qed.

(** ** Flushing *)

Lemma only_clock_tick (s : Store) : only_clock s (s <| s_clock ::= S |>).
Proof. by exists (S (s_clock s)). Qed.

Lemma check_io_cases s :
  check_io s = (s <| s_clock ::= S |>, Ok tt) \/ exists e, check_io s = (s <| s_clock ::= S |>, Err e) /\ io_err (s_clock s) = Some e.
Proof. unfold check_io. destruct (io_err (s_clock s)) as [e|] eqn:E; [right|by left]. by exists e. Qed.

Lemma ensureStage_spec t s :
  let '(t', s', r) := ensureStage t s in
  only_clock s s' /\ moved t t' /\ t_buffered t' = t_buffered t /\ t_bufferBytes t' = t_bufferBytes t /\
  (r = Ok tt -> is_Some (t_stage t')).
Proof.
  unfold ensureStage. destruct (t_stage t) as [b|] eqn:Eb.
  { split_and!; [apply only_clock_refl|done|done|done|intros _; by exists b]. }
  unfold tx_then, on_store. destruct (check_io_cases s) as [->|(e & -> & _)]; cbn [tx_modify].
  - split_and!; [apply only_clock_tick| |done|done|by eexists]. constructor; [done| |done|done]. apply map_eq. intros k.
    rewrite !ws_lookup. cbn. rewrite Eb. destruct (t_buffered t !! k); [done|]. cbn. rewrite get_entries, entries_empty. done.
  - split_and!; [apply only_clock_tick|done|done|done|done].
Qed.

Lemma stage_update_spec t s f :
  let '(t', s', r) := stage_update f t s in
  only_clock s s' /\ t' = match r with Ok _ => t <| t_stage ::= fmap f |> | Err _ => t end.
Proof.
  unfold stage_update, tx_then, on_store. destruct (check_io_cases s) as [->|(e & -> & _)]; (split; [apply only_clock_tick|done]).
Qed.

Lemma flush_all_ws t b :
  t_stage t = Some b -> ws (t <| t_stage ::= fmap (put_all (buffered_entries t)) |> <| t_buffered := ∅ |> <| t_bufferBytes := 0 |>) = ws t.
Proof.
  intros Hb. apply map_eq. intros k. rewrite !ws_lookup. cbn. rewrite Hb. cbn.
  rewrite put_all_get by apply buffered_entries_NoDup. by rewrite buffered_entries_map.
Qed.

Lemma flushWrites_spec t s :
  tx_ok t ->
  let '(t', s', r) := flushWrites t s in
  only_clock s s' /\ moved t t' /\ tx_ok t' /\ (r = Ok tt -> t_buffered t' = ∅ /\ t_bufferBytes t' = 0).
Proof.
  intros Ht. unfold flushWrites. case_bool_decide as Hempty.
  { split_and!; [apply only_clock_refl|done|done|]. intros _. split; [done|].
    destruct (ok_buffer t Ht) as [-> _]. by rewrite Hempty, map_sum_empty. }
  unfold tx_then at 1. pose proof (ensureStage_spec t s) as He. destruct (ensureStage t s) as [[t1 s1] [[]|e]].
  2: { destruct He as (Hc & Hm & Hb & Hn & _). split_and!; [done|done| |done]. apply (moved_ok t); [done|done|].
       rewrite Hb, Hn. apply Ht. }
  destruct He as (Hc & Hm & Hb & Hn & Hs). destruct (Hs eq_refl) as [b Hstage]. unfold tx_then.
  assert (buffered_entries t1 = buffered_entries t) as <- by (unfold buffered_entries; by rewrite Hb).
  pose proof (stage_update_spec t1 s1 (put_all (buffered_entries t1))) as Hu. destruct (stage_update _ t1 s1) as [[t2 s2] [a|e]].
  - destruct Hu as [Hc2 ->]. cbn [tx_modify].
    set (t' := _ <| t_bufferBytes := 0 |>). assert (moved t t') as Hm'.
    { destruct Hm as [Hk Hw Hby Hct]. constructor; [by etransitivity; [exact Hk|]| |done|done].
      unfold t'. by rewrite (flush_all_ws t1 b). }
    split_and!; [by eapply only_clock_trans|done| |done]. apply (moved_ok t); [done|done|]. cbn. by rewrite map_sum_empty.
  - destruct Hu as [Hc2 ->]. split_and!; [by eapply only_clock_trans|done| |done]. apply (moved_ok t); [done|done|].
    rewrite Hb, Hn. apply Ht.
Qed.

(** ** Buffering one entry *)

(** The entry has been put, whatever else moved. *)
Record entered (k v : bytes) (t t' : Tx) : Prop := {
  en_kept : kept t t';
  en_ws : ws t' = <[k := v]> (ws t);
  en_bytes : t_stagedBytes t' = t_stagedBytes t;
  en_counters : t_counters t' = t_counters t;
  en_buffer : t_bufferBytes t' = map_sum buffer_cost (t_buffered t') /\ t_bufferBytes t' <= writeBufferBytes
}.

Lemma moved_entered k v t t1 t2 : moved t t1 -> entered k v t1 t2 -> entered k v t t2.
Proof. intros [K1 W1 B1 C1] [K2 W2 B2 C2 ?]. constructor; [by etransitivity|by rewrite W2, W1|congruence|congruence|done]. Qed.

Lemma buffered_put t k v :
  let cost := buffer_cost k v in
  let oldCost := from_option (buffer_cost k) 0 (t_buffered t !! k) in
  t_bufferBytes t = map_sum buffer_cost (t_buffered t) -> t_bufferBytes t - oldCost + cost <= writeBufferBytes ->
  entered k v t (t <| t_buffered ::= <[k := v]> |> <| t_bufferBytes ::= Z.add (cost - oldCost) |>).
Proof.
  cbn zeta. intros Hb Hle. constructor; [done| |done|done|].
  - unfold ws. cbn. change (stage_map (t <| t_buffered ::= <[k:=v]> |> <| t_bufferBytes ::= _ |>)) with (stage_map t).
    by rewrite insert_union_l.
  - cbn. rewrite map_sum_insert_any, <- Hb. lia.
Qed.

Lemma staged_put t k v b :
  t_stage t = Some b -> t_buffered t = ∅ -> t_bufferBytes t = 0 -> entered k v t (t <| t_stage ::= fmap (b_put k v) |>).
Proof.
  intros Hb He Hn. constructor; [done| |done|done|].
  - apply map_eq. intros k'. rewrite ws_lookup. cbn. rewrite He, lookup_empty, Hb. cbn. rewrite get_put.
    case_decide as Hk; [subst; by rewrite lookup_insert_eq|]. rewrite lookup_insert_ne, ws_lookup, He, lookup_empty, Hb by done. done.
  - cbn. rewrite He, Hn, map_sum_empty. done.
Qed.

Lemma buffer_put_spec t s k v :
  tx_ok t ->
  let '(t', s', r) := buffer_put k v t s in
  only_clock s s' /\ match r with Ok _ => entered k v t t' | Err _ => moved t t' /\ tx_ok t' end.
Proof.
  intros Ht. destruct (ok_buffer t Ht) as [Hb Hle]. unfold buffer_put. unfold tx_then at 1.
  destruct (Z.ltb_spec writeBufferBytes (t_bufferBytes t - from_option (buffer_cost k) 0 (t_buffered t !! k) + buffer_cost k v)) as [Hbig|Hsmall].
  - unfold tx_then at 1. pose proof (flushWrites_spec t s Ht) as Hf. destruct (flushWrites t s) as [[t1 s1] [[]|e]];
      destruct Hf as (Hc & Hm & Ht1 & Hf); [|by cbn]. destruct (Hf eq_refl) as [He Hn]. cbn [tx_done].
    destruct (Z.ltb_spec writeBufferBytes (buffer_cost k v)) as [Hlarge|Hfits].
    + unfold tx_then. pose proof (ensureStage_spec t1 s1) as Hs. destruct (ensureStage t1 s1) as [[t2 s2] [[]|e]];
        destruct Hs as (Hc2 & Hm2 & Hb2 & Hn2 & Hs).
      * destruct (Hs eq_refl) as [b Hstage]. pose proof (stage_update_spec t2 s2 (b_put k v)) as Hu.
        destruct (stage_update _ t2 s2) as [[t3 s3] [a|e]]; destruct Hu as [Hc3 ->].
        -- split; [by do 2 (eapply only_clock_trans; [done|])|]. apply (moved_entered k v t t1); [done|]. apply (moved_entered k v t1 t2); [done|].
           apply (staged_put t2 k v b); congruence.
        -- split; [by do 2 (eapply only_clock_trans; [done|])|]. assert (moved t t2) as Hm' by (by etransitivity).
           split; [done|]. apply (moved_ok t); [done|done|]. rewrite Hb2, Hn2. apply Ht1.
      * split; [by eapply only_clock_trans|]. assert (moved t t2) as Hm' by (by etransitivity).
        split; [done|]. apply (moved_ok t); [done|done|]. rewrite Hb2, Hn2. apply Ht1.
    + cbn [tx_modify]. split; [done|]. apply (moved_entered k v t t1); [done|].
      pose proof (buffered_put t1 k v) as Hp. cbn zeta in Hp. rewrite He, lookup_empty, Hn in Hp. cbn [from_option] in Hp.
      apply Hp; [by rewrite map_sum_empty|lia].
  - cbn [tx_done]. rewrite (proj2 (Z.ltb_ge writeBufferBytes (buffer_cost k v))).
    + cbn [tx_modify]. split; [apply only_clock_refl|]. by apply buffered_put.
    + enough (from_option (buffer_cost k) 0 (t_buffered t !! k) <= t_bufferBytes t) by lia.
      rewrite Hb. destruct (t_buffered t !! k) as [v0|] eqn:E; cbn.
      * rewrite (map_sum_delete buffer_cost (t_buffered t) k v0 E).
        pose proof (map_sum_nonneg buffer_cost (delete k (t_buffered t)) ltac:(intros; unfold buffer_cost, blen; lia)). lia.
      * apply map_sum_nonneg. intros. unfold buffer_cost, blen. lia.
Qed.
End Invariant.
