(* ===== verification/WriteSetSteps.v ===== *)
(** * Writing to a write set: what each operation does to the map and to the accounting *)

From stdpp Require Import gmap list sorting strings fin_maps.
From Stdlib Require Import Strings.Byte.
From S2P Require Import Prelude TxnState TxnManager Bolt Keys Versions Visibility Layouts Conflict Store CommitLog CompactSteps WriteSet WriteSetInv.

(** ** The counters *)

Lemma map_sum_le {K V} `{Countable K} (f g : K -> V -> Z) (m : gmap K V) :
  (forall k v, m !! k = Some v -> f k v <= g k v) -> map_sum f m <= map_sum g m.
Proof.
  induction m as [|k v m Hk IH] using map_ind; intros Hfg; [by rewrite !map_sum_empty|].
  rewrite !map_sum_insert by done. assert (f k v <= g k v) by (apply Hfg; by simplify_map_eq).
  enough (map_sum f m <= map_sum g m) by lia. apply IH. intros. apply Hfg. by simplify_map_eq.
Qed.

Lemma moveCounter_spec before after c :
  0 <= c - Z.b2z before + Z.b2z after -> 0 <= c <= max_int64 -> moveCounter before after c = c - Z.b2z before + Z.b2z after.
Proof.
  unfold moveCounter, add64, counterDecrement, u64_max, max_int64. destruct before, after; cbn; intros Hn Hc; try lia.
  - rewrite <- (Z.mod_add _ (-1)) by lia. rewrite Z.mod_small by lia. lia.
  - rewrite Z.mod_small by lia. lia.
Qed.

Lemma wrap_i64_small z : - 2 ^ 63 <= z <= max_int64 -> wrap_i64 z = z.
Proof. unfold wrap_i64, max_int64. intros Hz. rewrite Z.mod_small by lia. lia. Qed.

Section Steps.
Context `{BoltLaws} `{Env} `{Locking} `{StoreOptions} `{MapRange}.

Lemma entry_bytes_pos k v : entry_good k v -> 2 <= entry_bytes k v.
Proof. intros (op & _ & _ & _ & ->). unfold entry_bytes, encodeStagedOp, blen. cbn. lia. Qed.

Lemma kind_none k v (kind : stagedOpKind) : kind <> stagedOpNone -> from_option (kind_count kind k) 0 v = Z.b2z (bool_decide (stagedOpKindOf k v = kind)).
Proof.
  intros Hk. destruct v as [v|]; cbn [from_option].
  - unfold kind_count. case_decide as E; [by rewrite bool_decide_eq_true_2|by rewrite bool_decide_eq_false_2].
  - rewrite bool_decide_eq_false_2; [done|]. cbn. by intros <-.
Qed.

Lemma kind_sum_bounds (kind : stagedOpKind) (m : gmap bytes bytes) :
  map_Forall entry_good m -> 0 <= map_sum (kind_count kind) m <= map_sum entry_bytes m.
Proof.
  intros Hm. split; [apply map_sum_nonneg|apply map_sum_le]; intros k v Hv; unfold kind_count; [by case_decide|].
  pose proof (entry_bytes_pos k v (Hm k v Hv)). case_decide; lia.
Qed.

Lemma move_kind (kind : stagedOpKind) (k v : bytes) (m : gmap bytes bytes) :
  kind <> stagedOpNone -> map_Forall entry_good m -> entry_good k v ->
  map_sum entry_bytes m <= max_int64 ->
  moveCounter (bool_decide (stagedOpKindOf k (m !! k) = kind)) (bool_decide (stagedOpKindOf k (Some v) = kind)) (map_sum (kind_count kind) m)
  = map_sum (kind_count kind) (<[k := v]> m).
Proof.
  intros Hk Hm Hv Hle. pose proof (kind_sum_bounds kind m Hm) as Hb.
  assert (map_Forall entry_good (<[k:=v]> m)) as Hm' by (by apply map_Forall_insert_2).
  pose proof (kind_sum_bounds kind _ Hm') as Hb'. rewrite map_sum_insert_any, kind_none in Hb' |- * by done.
  pose proof (kind_none k (Some v) kind Hk) as Ek. cbn [from_option] in Ek.
  rewrite Ek in Hb' |- *. rewrite moveCounter_spec; [done| |]; lia.
Qed.

Lemma write_cost_option k v : from_option (write_bytes k) 0 v = writeByteCost k (stagedOpKindOf k v) v.
Proof. by destruct v. Qed.

Lemma write_bytes_bounds k v : entry_good k v -> 0 <= write_bytes k v <= entry_bytes k v.
Proof.
  intros Hg%entry_bytes_pos. unfold write_bytes, writeByteCost, stagedOpByteCost. cbn [raw default from_option].
  unfold entry_bytes, blen, id in *. case_decide; lia.
Qed.

Lemma track_counted (m : gmap bytes bytes) (c : transactionCounters) (k v : bytes) :
  map_Forall entry_good m -> entry_good k v -> map_sum entry_bytes m <= max_int64 -> map_sum entry_bytes (<[k := v]> m) <= max_int64 ->
  counted m c -> counted (<[k := v]> m) (trackStagedOp k (m !! k) v c).
Proof.
  intros Hm Hv Hle Hle' [E1 E2 E3 E4].
  constructor; [cbn; by rewrite E1; apply move_kind|cbn; by rewrite E2; apply move_kind|cbn; by rewrite E3; apply move_kind|].
  change (tc_writeBytes (trackStagedOp k (m !! k) v c))
    with (wrap_i64 (tc_writeBytes c + (write_bytes k v - writeByteCost k (stagedOpKindOf k (m !! k)) (m !! k)))).
  rewrite E4. assert (map_Forall entry_good (<[k:=v]> m)) as Hm' by (by apply map_Forall_insert_2).
  assert (0 <= map_sum write_bytes (<[k:=v]> m) <= map_sum entry_bytes (<[k:=v]> m)) as Hb.
  { split; [apply map_sum_nonneg|apply map_sum_le]; intros k' v' Hk'; by apply write_bytes_bounds, Hm'. }
  rewrite map_sum_insert_any, write_cost_option in Hb |- *. rewrite wrap_i64_small; unfold max_int64 in *; lia.
Qed.

(** ** One write *)

Definition is_write (v : bytes) : bool := negb (Z.testbit (byte_at 1 v) 1).

(** What an acknowledged operation makes of a write set. *)
Definition ws_put (op : Op) (k : bytes) (m : gmap bytes bytes) : gmap bytes bytes :=
  if op_Check op && from_option is_write false (m !! k) then m else <[k := encodeStagedOp op]> m.

Lemma is_write_encoded op : is_write (encodeStagedOp op) = negb (op_Check op).
Proof. unfold is_write. rewrite encoded_flags. by destruct (op_flags_cases op) as (_ & _ & -> & _). Qed.

Lemma keeps_write_spec (op : Op) (k : bytes) (m : gmap bytes bytes) :
  map_Forall entry_good m -> keeps_write op k (m !! k) = Ok (op_Check op && from_option is_write false (m !! k)).
Proof.
  intros Hm. unfold keeps_write. destruct (m !! k) as [v|] eqn:Ev; cbn [from_option]; [|by rewrite andb_false_r].
  destruct (Hm k v Ev) as (old & Hk & Hs & _ & ->). rewrite is_write_encoded. destruct (op_Check op); [|done].
  by rewrite (staged_decodes old k) by done.
Qed.

Lemma check_budget_spec t delta :
  within_budget (t_stagedBytes t) -> check_budget t delta = Ok tt -> within_budget (t_stagedBytes t + delta).
Proof.
  intros [Hm Hl]. unfold check_budget, within_budget. destruct ((0 <? delta) && _) eqn:E1; [done|]. destruct ((0 <? writeSetLimit) && _) eqn:E2; [done|].
  intros _. apply andb_false_iff in E1, E2. rewrite !Z.ltb_ge in E1, E2. split; [lia|]. intros. destruct E2; lia.
Qed.

Lemma bufferWrite_spec t s op k :
  tx_ok t -> t_closed t = false -> key (op_Space op) (op_Key op) = Ok k -> stageable op = true -> client_op op ->
  let '(t', s', r) := bufferWrite op k (encodeStagedOp op) t s in
  only_clock s s' /\ kept t t' /\ tx_ok t' /\ match r with Ok _ => ws t' = ws_put op k (ws t) | Err _ => moved t t' end.
Proof.
  intros Ht Hc Hk Hs Hop. unfold bufferWrite. unfold tx_then at 1, tx_returns at 1. rewrite stagedValue_spec by done.
  unfold tx_then at 1, tx_returns at 1. rewrite keeps_write_spec by apply Ht. unfold ws_put.
  destruct (op_Check op && _); [by split_and!; [apply only_clock_refl| | |]|].
  unfold tx_then at 1, tx_returns at 1. set (v := encodeStagedOp op). assert (entry_good k v) as Hv by (by exists op).
  destruct (check_budget t _) as [[]|e] eqn:Eb; [|by split_and!; [apply only_clock_refl| | |]].
  apply check_budget_spec in Eb; [|apply Ht]. unfold tx_then. pose proof (buffer_put_spec t s k v Ht) as Hp.
  destruct (buffer_put k v t s) as [[t1 s1] [a|e]]; destruct Hp as [Hclock Hp]; [|by destruct Hp as [Hm ?]; split_and!; [|apply Hm| |]].
  destruct Hp as [Hkept Hws Hb Hct Hbuf]. cbn [tx_modify].
  set (t' := t1 <| t_counters ::= _ |> <| t_stagedBytes ::= _ |>). assert (ws t' = <[k:=v]> (ws t)) as Hws' by exact Hws.
  assert (t_stagedBytes t' = map_sum entry_bytes (<[k:=v]> (ws t))) as Hsum.
  { cbn. rewrite Hb, (ok_bytes t Ht), map_sum_insert_any. unfold write_delta. lia. }
  assert (within_budget (t_stagedBytes t')) as Hbudget by (cbn; rewrite Hb, Z.add_comm; exact Eb).
  split_and!; [done|by destruct Hkept| |done]. constructor; rewrite ?Hws'; [by apply map_Forall_insert_2; [|apply Ht]|done|done|done|].
  cbn. rewrite Hct. apply track_counted; [apply Ht|done| |rewrite <- Hsum; apply Hbudget|apply Ht].
  rewrite <- (ok_bytes t Ht). apply (ok_budget t Ht).
Qed.

Lemma validated_stageable op : client_op op -> validateCommand (one_op op) = Ok tt ->
  (exists k, key (op_Space op) (op_Key op) = Ok k) /\ stageable op = true.
Proof.
  unfold client_op, validateCommand, one_op, validate_ops_size, stageable, key. intros Hop. cbn [cmd_ID cmd_Ops].
  destruct (128 <? _); [done|]. destruct (validateKey (op_Space op) (op_Key op)) as [[]|e] eqn:Ek; cbn [rbind]; [|done].
  destruct (Z.ltb_spec MaxValueBytes (blen (op_Value op))); [done|]. intros _. split; [by eexists|]. cbn [is_ok andb].
  rewrite (proj2 (Z.leb_le _ _)) by lia. cbn [andb]. destruct (op_Check op); cbn [andb]; [by rewrite Hop, orb_true_r|].
  rewrite orb_false_r. apply Z.leb_le. unfold validateKey in Ek. rewrite (bool_decide_eq_false_2 (op_Space op = rangeGuardSpace)) in Ek by done.
  destruct (_ || _) eqn:E; [done|]. bool_prop. lia.
Qed.

Lemma write_spec t s op :
  tx_ok t -> client_op op ->
  let '(t', s', r) := write op t s in
  only_clock s s' /\ kept t t' /\ tx_ok t' /\
  match r with
  | Ok _ => exists k, key (op_Space op) (op_Key op) = Ok k /\ ws t' = ws_put op k (ws t)
  | Err _ => moved t t'
  end.
Proof.
  intros Ht Hop. unfold write. destruct (t_closed t) eqn:Hc; cbn [orb]; [by split_and!; [apply only_clock_refl| | |]|].
  destruct (stale t s); [by split_and!; [apply only_clock_refl| | |]|]. unfold tx_then at 1, tx_returns at 1.
  destruct (validateCommand (one_op op)) as [[]|e] eqn:Ev; [|by split_and!; [apply only_clock_refl| | |]].
  apply validated_stageable in Ev as [[k Hk] Hs]; [|done]. unfold tx_then.
  assert (exists s1 r, AcquireRawWriteLock op t s = (t, s1, r) /\ only_clock s s1) as (s1 & r & -> & Hc1).
  { unfold AcquireRawWriteLock. destruct (op_Check op); eexists _, _; (split; [done|]); [apply only_clock_refl|apply only_clock_tick]. }
  destruct r as [a|e]; [|by split_and!]. rewrite Hk. pose proof (bufferWrite_spec t s1 op k Ht Hc Hk Hs Hop) as Hb.
  destruct (bufferWrite _ _ _ _ _) as [[t2 s2] [b|e]]; destruct Hb as (Hc2 & Hkept & Ht2 & Hws);
    (split_and!; [by eapply only_clock_trans|done|done|]); [|done]. by exists k.
Qed.

(** ** Guards *)

Definition with_guard (k : bytes) (t : Tx) : Tx := t <| t_guardedKeys ::= union {[ k ]} |>.

Lemma with_guard_ok k t : tx_ok t -> tx_ok (with_guard k t).
Proof. intros []. by constructor. Qed.

Definition guards_bounded (t : Tx) : Prop := Z.of_nat (size (t_guardedKeys t)) <= maxGuardedKeys.

Lemma guard_bounded (g : gset bytes) (k : bytes) :
  Z.of_nat (size g) <= maxGuardedKeys -> bool_decide (k ∉ g) && (maxGuardedKeys <=? Z.of_nat (size g)) = false ->
  Z.of_nat (size ({[ k ]} ∪ g)) <= maxGuardedKeys.
Proof.
  intros Hg. case_bool_decide as Hk; cbn [andb].
  - intros Hlt%Z.leb_gt. rewrite size_union by set_solver. rewrite size_singleton. lia.
  - intros _. by replace ({[ k ]} ∪ g) with g by set_solver.
Qed.

(** Everything else of the transaction is kept. *)
Definition same_tx (t t' : Tx) : Prop := kept t (t' <| t_guardedKeys := t_guardedKeys t |>).

#[export] Instance same_tx_preorder : PreOrder same_tx.
Proof.
  split; [intros t; by constructor|]. intros t1 t2 t3 [] []. constructor; cbn in *; congruence.
Qed.

Lemma kept_same t t' : kept t t' -> same_tx t t'.
Proof. intros []. by constructor. Qed.

Lemma guarded_same k t t' : kept (with_guard k t) t' -> same_tx t t'.
Proof. intros []. by constructor. Qed.

Lemma Guard_spec t s space rowKey :
  tx_ok t -> guards_bounded t ->
  let op := mkOp space rowKey [] false true in
  let '(t', s', r) := Guard space rowKey t s in
  only_clock s s' /\ tx_ok t' /\ guards_bounded t' /\ same_tx t t' /\
  match r with
  | Ok _ => exists k, key space rowKey = Ok k /\ ws t' = ws_put op k (ws t) /\ t_guardedKeys t' = {[ k ]} ∪ t_guardedKeys t
  | Err _ => ws t' = ws t /\ t_guardedKeys t' = t_guardedKeys t
  end.
Proof.
  intros Ht Hg op. unfold Guard. destruct (key space rowKey) as [k|e] eqn:Hk; [|by split_and!; [apply only_clock_refl|..]].
  destruct (t_closed t) eqn:Hc; [by split_and!; [apply only_clock_refl|..]|].
  destruct (bool_decide (k ∉ t_guardedKeys t) && _) eqn:Hfull; [by split_and!; [apply only_clock_refl|..]|].
  pose proof (guard_bounded _ k Hg Hfull) as Hb. pose proof (write_spec (with_guard k t) s op (with_guard_ok k t Ht) eq_refl) as Hw.
  fold op. change (t <| t_guardedKeys ::= union {[k]} |>) with (with_guard k t). destruct (write op (with_guard k t) s) as [[t1 s1] [a|e]];
    destruct Hw as (Hclock & Hkept & Ht1 & Hw); pose proof (kp_guardedKeys _ _ Hkept) as Eg; pose proof (guarded_same _ _ _ Hkept) as Es; cbn in Eg.
  - split_and!; [done|done|by unfold guards_bounded; rewrite Eg|done|]. destruct Hw as (k' & Hk' & Hws). exists k. split_and!; [done| |done].
    assert (k' = k) as -> by (cbn in Hk'; congruence). exact Hws.
  - pose proof (mv_ws _ _ Hw) as Ews. change (ws (with_guard k t)) with (ws t) in Ews. case_bool_decide as Hnew.
    + split_and!; [done|by destruct Ht1| |by destruct Es|done|cbn; rewrite Eg; set_solver].
      unfold guards_bounded. cbn. rewrite Eg. by replace (_ ∖ _) with (t_guardedKeys t) by set_solver.
    + split_and!; [done|done|by unfold guards_bounded; rewrite Eg|done|done|rewrite Eg; set_solver].
Qed.
End Steps.

(** ** Runs of writes, and the commit of a child *)

Section Runs.
Context `{BoltLaws} `{Env} `{Locking} `{StoreOptions} `{MapRange}.

(** ** What a client may do to an open transaction *)

Inductive client_call : Type :=
  | CallPut (space rowKey value : bytes)
  | CallDelete (space rowKey : bytes)
  | CallGuard (space rowKey : bytes)
  | CallFlush.

Definition call_op (c : client_call) : option Op :=
  match c with
  | CallPut space k v => Some (mkOp space k v false false)
  | CallDelete space k => Some (mkOp space k [] true false)
  | CallGuard space k => Some (mkOp space k [] false true)
  | CallFlush => None
  end.

(** The reserved namespace is for guards. *)
Definition call_allowed (c : client_call) : Prop :=
  match c with
  | CallPut space _ _ | CallDelete space _ => space <> rangeGuardSpace
  | _ => True
  end.

Definition call (c : client_call) : tx_action unit :=
  match c with
  | CallPut space k v => Put space k v
  | CallDelete space k => Delete space k
  | CallGuard space k => Guard space k
  | CallFlush => flushWrites
  end.

(** The calls that were acknowledged are listed. *)
Fixpoint run_calls (cs : list client_call) (t : Tx) (s : Store) : Tx * Store * list client_call :=
  match cs with
  | [] => (t, s, [])
  | c :: cs =>
      let '(t, s, r) := call c t s in
      let '(t, s, done) := run_calls cs t s in
      (t, s, if is_ok r then c :: done else done)
  end.

(** ** The map a list of operations describes *)

Definition op_put (m : gmap bytes bytes) (op : Op) : gmap bytes bytes :=
  match key (op_Space op) (op_Key op) with Ok k => ws_put op k m | Err _ => m end.

Definition replay (ops : list Op) (m : gmap bytes bytes) : gmap bytes bytes := foldl op_put m ops.

Definition guard_keys (cs : list client_call) (g : gset bytes) : gset bytes :=
  foldl (fun g c => match c with
                    | CallGuard space k => match key space k with Ok k => {[ k ]} ∪ g | Err _ => g end
                    | _ => g
                    end) g cs.

Definition new_tx (generation snapshot : Z) (id : bytes) : Tx :=
  mkTx _ generation snapshot id None false 0 ∅ 0 TransactionActive 0 false [] newTransactionCounters ∅ ∅ 0.

Lemma new_tx_ok generation snapshot id : tx_ok (new_tx generation snapshot id).
Proof.
  assert (ws (new_tx generation snapshot id) = ∅) as Hw
    by (apply map_eq; intros k; rewrite ws_lookup; cbn; by rewrite !lookup_empty).
  constructor; rewrite ?Hw; cbn; [apply map_Forall_empty|by rewrite map_sum_empty| |by rewrite map_sum_empty|by constructor; rewrite map_sum_empty].
  unfold within_budget, max_int64. lia.
Qed.

Lemma call_spec c t s :
  tx_ok t -> guards_bounded t -> call_allowed c ->
  let '(t', s', r) := call c t s in
  only_clock s s' /\ tx_ok t' /\ guards_bounded t' /\ same_tx t t' /\
  let done := if is_ok r then [c] else [] in
  ws t' = replay (omap call_op done) (ws t) /\ t_guardedKeys t' = guard_keys done (t_guardedKeys t).
Proof.
  intros Ht Hg Hc. assert (forall op, client_op op -> let '(t', s', r) := write op t s in only_clock s s' /\ tx_ok t' /\ guards_bounded t' /\
    same_tx t t' /\ ws t' = (if is_ok r then op_put (ws t) op else ws t) /\ t_guardedKeys t' = t_guardedKeys t) as Hwrite.
  { intros op Hop. pose proof (write_spec t s op Ht Hop) as Hw. destruct (write op t s) as [[t1 s1] r]. destruct Hw as (? & Hk & ? & Hw).
    split_and!; [done|done|unfold guards_bounded; by rewrite (kp_guardedKeys _ _ Hk)|by apply kept_same| |apply Hk]. unfold op_put.
    destruct r; [by destruct Hw as (k & -> & ->)|apply Hw]. }
  destruct c as [space k v|space k|space k|]; cbn [call].
  - specialize (Hwrite (mkOp space k v false false) Hc). unfold Put. destruct (write _ t s) as [[t1 s1] []]; cbn in *; naive_solver.
  - specialize (Hwrite (mkOp space k [] true false) Hc). unfold Delete. destruct (write _ t s) as [[t1 s1] []]; cbn in *; naive_solver.
  - pose proof (Guard_spec t s space k Ht Hg) as Hgs. cbn zeta in Hgs. destruct (Guard space k t s) as [[t1 s1] [a|e]];
      destruct Hgs as (? & ? & ? & ? & Hr); [|by destruct Hr]. destruct Hr as (k' & Hk' & Hws & Hgk).
    split_and!; [done..| |]; cbn; unfold op_put; cbn [op_Space op_Key]; by rewrite Hk'.
  - pose proof (flushWrites_spec t s Ht) as Hf. destruct (flushWrites t s) as [[t1 s1] r]. destruct Hf as (? & [Hk Hw _ _] & ? & _).
    split_and!; [done|done|unfold guards_bounded; by rewrite (kp_guardedKeys _ _ Hk)|by apply kept_same| |]; destruct r; cbn; by rewrite ?Hw, ?(kp_guardedKeys _ _ Hk).
Qed.

Lemma run_calls_spec cs : forall t s,
  tx_ok t -> guards_bounded t -> Forall call_allowed cs ->
  let '(t', s', done) := run_calls cs t s in
  only_clock s s' /\ tx_ok t' /\ guards_bounded t' /\ same_tx t t' /\
  ws t' = replay (omap call_op done) (ws t) /\ t_guardedKeys t' = guard_keys done (t_guardedKeys t).
Proof.
  induction cs as [|c cs IH]; intros t s Ht Hg Hcs; cbn [run_calls]; [by split_and!; [apply only_clock_refl|..]|].
  apply Forall_cons in Hcs as [Hc Hcs]. pose proof (call_spec c t s Ht Hg Hc) as Hs. destruct (call c t s) as [[t1 s1] r].
  destruct Hs as (Hc1 & Ht1 & Hg1 & Hcl1 & Hws1 & Hgk1). specialize (IH t1 s1 Ht1 Hg1 Hcs).
  destruct (run_calls cs t1 s1) as [[t2 s2] done]. destruct IH as (Hc2 & Ht2 & Hg2 & Hcl2 & Hws2 & Hgk2).
  split_and!; [by eapply only_clock_trans|done|done|by etransitivity|rewrite Hws2, Hws1|rewrite Hgk2, Hgk1]; destruct r as [a|e]; cbn [is_ok]; try done.
  - cbn [omap list_omap]. destruct (call_op c); done.
Qed.
End Runs.
