(* ===== verification/WriteSetMerge.v ===== *)
(** * The commit of a child, and reads through the layers *)

From stdpp Require Import gmap list sorting strings fin_maps.
From Stdlib Require Import Strings.Byte.
From S2P Require Import Prelude TxnState TxnManager Bolt Keys Versions Visibility Layouts Conflict Store CommitLog CompactSteps WriteSet WriteSetInv WriteSetSteps.

Section Merge.
Context `{BoltLaws} `{GuardCodec} `{Env} `{Locking} `{StoreOptions} `{MapRange}.

(** ** The write a map holds for a key *)

Definition write_of (m : gmap bytes bytes) (k : bytes) : option Op :=
  match m !! k with
  | Some v => if is_write v then match decodeStagedOp k v with Ok op => Some op | Err _ => None end else None
  | None => None
  end.

Lemma write_of_good (op : Op) (k : bytes) (m : gmap bytes bytes) :
  key (op_Space op) (op_Key op) = Ok k -> stageable op = true -> m !! k = Some (encodeStagedOp op) ->
  write_of m k = if op_Check op then None else Some op.
Proof.
  intros Hk Hs Hm. unfold write_of. rewrite Hm, is_write_encoded, (staged_decodes op k) by done. by destruct (op_Check op).
Qed.

Lemma write_of_put (op : Op) (k k' : bytes) (m : gmap bytes bytes) :
  key (op_Space op) (op_Key op) = Ok k -> stageable op = true ->
  write_of (ws_put op k m) k' = if decide (k' = k) then (if op_Check op then write_of m k else Some op) else write_of m k'.
Proof.
  intros Hk Hs. unfold ws_put. destruct (op_Check op && _) eqn:Hkeep.
  { apply andb_true_iff in Hkeep as [-> _]. case_decide; by subst. }
  case_decide as E; [subst k'|].
  - rewrite (write_of_good op k) by (done || apply lookup_insert_eq). destruct (op_Check op); [|done]. cbn [andb] in Hkeep.
    unfold write_of. destruct (m !! k) as [v|]; [|done]. cbn in Hkeep. by rewrite Hkeep.
  - unfold write_of. by rewrite lookup_insert_ne.
Qed.

Lemma ws_put_dom (op : Op) (k : bytes) (m : gmap bytes bytes) : dom (ws_put op k m) = {[ k ]} ∪ dom m.
Proof.
  unfold ws_put. destruct (op_Check op && _) eqn:E; [|by rewrite dom_insert_L].
  apply andb_true_iff in E as [_ E]. destruct (m !! k) as [v|] eqn:Ek; [|done]. apply elem_of_dom_2 in Ek. set_solver.
Qed.

(** ** Folding one write set into another *)

Definition entry_put (m : gmap bytes bytes) (e : bytes * bytes) : gmap bytes bytes :=
  match decodeStagedOp e.1 e.2 with Ok op => ws_put op e.1 m | Err _ => m end.

Definition merged (l : list (bytes * bytes)) (m : gmap bytes bytes) : gmap bytes bytes := foldl entry_put m l.

Definition entries_good (l : list (bytes * bytes)) : Prop := NoDup l.*1 /\ Forall (fun e => entry_good e.1 e.2) l.

Lemma entries_good_cons e l : entries_good (e :: l) -> entry_good e.1 e.2 /\ e.1 ∉ l.*1 /\ entries_good l.
Proof. intros [[Hn Hnd]%NoDup_cons [He Hl]%Forall_cons]. by split_and!; [| |split]. Qed.

Lemma merged_write_of (l : list (bytes * bytes)) : forall (m : gmap bytes bytes) (k : bytes),
  entries_good l ->
  write_of (merged l m) k = match write_of (list_to_map l) k with Some op => Some op | None => write_of m k end.
Proof.
  induction l as [|[k0 v0] l IH]; intros m k Hl; [done|]. apply entries_good_cons in Hl as ((op & Hk & Hs & _ & Ev) & Hn & Hl).
  cbn [fst snd] in *. subst v0. change (merged ((k0, encodeStagedOp op) :: l) m) with (merged l (entry_put m (k0, encodeStagedOp op))).
  unfold entry_put. cbn [fst snd]. rewrite (staged_decodes op k0), IH, write_of_put by done. cbn [list_to_map foldr fst snd].
  change (foldr (fun p => <[p.1:=p.2]>) ∅ l) with (list_to_map l : gmap bytes bytes).
  assert ((list_to_map l : gmap bytes bytes) !! k0 = None) as Hnone by (by apply not_elem_of_list_to_map_1).
  case_decide as E; [subst k|].
  - rewrite (write_of_good op k0 (<[k0:=_]> _)) by (done || apply lookup_insert_eq). unfold write_of at 1. rewrite Hnone.
    by destruct (op_Check op).
  - unfold write_of at 1 3. by rewrite lookup_insert_ne by done.
Qed.

Lemma merged_dom (l : list (bytes * bytes)) : forall m, entries_good l -> dom (merged l m) = dom (list_to_map l : gmap bytes bytes) ∪ dom m.
Proof.
  induction l as [|[k0 v0] l IH]; intros m Hl; [cbn; set_solver|]. apply entries_good_cons in Hl as ((op & Hk & Hs & _ & Ev) & Hn & Hl).
  cbn [fst snd] in *. subst v0. change (merged ((k0, encodeStagedOp op) :: l) m) with (merged l (entry_put m (k0, encodeStagedOp op))).
  unfold entry_put. cbn [fst snd]. rewrite (staged_decodes op k0), IH, ws_put_dom by done. cbn [list_to_map foldr fst snd].
  rewrite dom_insert_L. set_solver.
Qed.

(** ** Walking *)

Lemma good_entries (m : gmap bytes bytes) (l : list (bytes * bytes)) :
  map_Forall entry_good m -> NoDup l.*1 -> list_to_map l = m -> entries_good l.
Proof.
  intros Hm Hnd <-. split; [done|]. apply Forall_forall. intros [k v] He. apply Hm. by apply elem_of_list_to_map_1.
Qed.

Lemma walk_merge (l : list (bytes * bytes)) : forall p s,
  tx_ok p -> entries_good l ->
  let '(p', s', r) := walk_entries (fun op p s => write op p s) l p s in
  only_clock s s' /\ kept p p' /\ tx_ok p' /\ (r = Ok tt -> ws p' = merged l (ws p)).
Proof.
  induction l as [|[k v] l IH]; intros p s Hp Hl; cbn [walk_entries]; [by split_and!; [apply only_clock_refl|..]|].
  apply entries_good_cons in Hl as ((op & Hk & Hs & Hop & Ev) & _ & Hl). cbn [fst snd] in *. subst v.
  assert (only_clock s (check_ctx s).1) as Hc by apply check_ctx_clock. destruct (check_ctx s) as [s1 [a|e]]; cbn [fst] in Hc; [|by split_and!].
  rewrite (staged_decodes op k) by done. pose proof (write_spec p s1 op Hp Hop) as Hw.
  destruct (write op p s1) as [[p1 s2] [b|e]]; destruct Hw as (Hc2 & Hkept & Hp1 & Hw);
    [|by split_and!; [eapply only_clock_trans| | |]].
  specialize (IH p1 s2 Hp1 Hl). destruct (walk_entries _ l p1 s2) as [[p2 s3] r]. destruct IH as (Hc3 & Hkept2 & Hp2 & Hr).
  split_and!; [by do 2 (eapply only_clock_trans; [done|])|by etransitivity|done|]. intros E. rewrite (Hr E).
  change (merged ((k, encodeStagedOp op) :: l) (ws p)) with (merged l (entry_put (ws p) (k, encodeStagedOp op))).
  unfold entry_put. cbn [fst snd]. rewrite (staged_decodes op k) by done. destruct Hw as (k' & Hk' & ->).
  by assert (k' = k) as -> by congruence.
Qed.

(** The walk is over the entries of the write set, wherever they are. *)
Lemma WalkWrites_entries {St} (yield : Op -> St -> Store -> St * Store * result mvcc_error unit) t st s :
  tx_ok t ->
  let '(t', st', s', r) := WalkWrites yield t st s in
  moved t t' /\ tx_ok t' /\
  exists l s1, entries_good l /\ list_to_map l = ws t /\ only_clock s s1 /\
    match r with
    | Ok _ => walk_entries yield l st s1 = (st', s', Ok tt)
    | Err e => walk_entries yield l st s1 = (st', s', Err e) \/ (st' = st /\ s' = s1)
    end.
Proof.
  intros Ht. unfold WalkWrites. assert (only_clock s (check_ctx s).1) as Hc by apply check_ctx_clock.
  assert (forall l, NoDup l.*1 -> list_to_map l = ws t -> entries_good l) as Hgood by (intros; eapply good_entries; [apply Ht|done|done]).
  assert (exists l : list (bytes * bytes), entries_good l /\ list_to_map l = ws t) as (l0 & Hl0 & Hm0).
  { exists (map_to_list (ws t)). assert (list_to_map (map_to_list (ws t)) = ws t) as Hm by apply list_to_map_to_list.
    split; [|done]. apply Hgood; [apply NoDup_fst_map_to_list|done]. }
  destruct (check_ctx s) as [s1 [[]|e]]; cbn [fst] in Hc.
  2: { split_and!; [done|done|]. exists l0, s1. split_and!; [done..|]. by right. }
  destruct (t_stage t) as [b|] eqn:Eb.
  - pose proof (flushWrites_spec t s1 Ht) as Hf. destruct (flushWrites t s1) as [[t1 s2] [[]|e]]; destruct Hf as (Hc2 & Hm & Ht1 & Hf).
    + destruct (Hf eq_refl) as [He _]. set (l := from_option b_entries [] (t_stage t1)).
      assert (NoDup l.*1) as Hnd by (unfold l; destruct (t_stage t1); cbn; [apply ordered_NoDup, entries_ordered|constructor]).
      assert (list_to_map l = ws t) as Hl.
      { rewrite <- (mv_ws _ _ Hm). unfold ws. rewrite He, (left_id_L ∅ (∪)). unfold stage_map, l. by destruct (t_stage t1). }
      destruct (walk_entries yield l st s2) as [[st' s'] r] eqn:Ew. split_and!; [done|done|]. exists l, s2.
      split_and!; [by apply Hgood|done|by eapply only_clock_trans|]. destruct r as [[]|e]; [done|by left].
    + split_and!; [done|done|]. exists l0, s2. split_and!; [done|done|by eapply only_clock_trans|]. by right.
  - set (l := buffered_entries t). assert (list_to_map l = ws t) as Hl.
    { unfold l. rewrite buffered_entries_map. unfold ws, stage_map. rewrite Eb. cbn. by rewrite (right_id_L ∅ (∪)). }
    destruct (walk_entries yield l st s1) as [[st' s'] r] eqn:Ew. split_and!; [done|done|]. exists l, s1.
    split_and!; [apply Hgood; [apply buffered_entries_NoDup|done]|done|done|]. destruct r as [[]|e]; [done|by left].
Qed.
End Merge.
