(* ===== verification/WriteSetReads.v ===== *)
(** * Reads through the layers, and what the commit of a child does to them *)

From stdpp Require Import gmap list sorting strings fin_maps.
From Stdlib Require Import Strings.Byte.
From S2P Require Import Prelude TxnState TxnManager Bolt Keys Versions Visibility Layouts Conflict Store CommitLog CompactSteps WriteSet WriteSetInv WriteSetSteps WriteSetMerge.

Section Reads.
Context `{BoltLaws} `{GuardCodec} `{Env} `{Locking} `{StoreOptions} `{MapRange}.

(** ** Reading *)

Definition tx_open (t : Tx) (s : Store) : Prop := t_closed t = false /\ stale t s = false.

Lemma open_clock t s s' : only_clock s s' -> tx_open t s -> tx_open t s'.
Proof. intros [n ->]. done. Qed.

Lemma open_kept t t' s : kept t t' -> tx_open t s -> tx_open t' s.
Proof. intros Hk [Hc Hs]. split; [by rewrite (kp_closed _ _ Hk)|]. unfold stale in *. by rewrite (kp_generation _ _ Hk). Qed.

Lemma checkOpen_open t s : tx_open t s -> checkOpen t s = Ok tt.
Proof. intros [Hc Hs]. unfold checkOpen. by rewrite Hs, Hc. Qed.

Lemma readOp_spec t s space rowKey :
  tx_ok t -> tx_open t s ->
  readOp t space rowKey =
    let* k := key space rowKey in
    match ws t !! k with Some v => let* op := decodeStagedOp k v in Ok (Some op) | None => Ok None end.
Proof.
  intros Ht [Hc _]. unfold readOp. destruct (key space rowKey) as [k|e]; cbn [rbind]; [|done].
  rewrite stagedValue_spec by done. cbn [rbind]. destruct (bool_decide (t_stage t = None) && _) eqn:E; [|done].
  apply andb_true_iff in E as [Es%bool_decide_eq_true Eb%bool_decide_eq_true]. rewrite ws_lookup, Es, Eb, lookup_empty. done.
Qed.

(** What is under a layer. *)
Definition below (revision : Tx -> Z) (t : Tx) (parents : list Tx) (s : Store) (space rowKey : bytes) : result mvcc_error (bytes * bool) :=
  match parents with
  | [] =>
      if stale t s then Err ErrConflict
      else let* r := Store_Get s (revision t) space rowKey in Ok (r.1.1, r.2)
  | _ => read_layers revision parents s space rowKey
  end.

Lemma read_top revision t parents s space rowKey :
  tx_ok t -> tx_open t s ->
  read_layers revision (t :: parents) s space rowKey =
    let* k := key space rowKey in
    match write_of (ws t) k with Some op => Ok (op_Value op, negb (op_Delete op)) | None => below revision t parents s space rowKey end.
Proof.
  intros Ht Ho. cbn [read_layers]. fold (below revision t parents s space rowKey). rewrite checkOpen_open, (readOp_spec t s) by done. cbn [rbind].
  destruct (key space rowKey) as [k|e] eqn:Ek; cbn [rbind]; [|done]. unfold write_of. destruct (ws t !! k) as [v|] eqn:Ev; cbn [rbind]; [|done].
  destruct (ok_entries t Ht k v Ev) as (op & Hk & Hs & _ & ->). rewrite (staged_decodes op k), is_write_encoded by done. cbn [rbind].
  by destruct (op_Check op).
Qed.

Lemma below_same revision t t' parents s space rowKey :
  revision t' = revision t -> t_generation t' = t_generation t -> below revision t' parents s space rowKey = below revision t parents s space rowKey.
Proof. intros Hr Hg. unfold below, stale. by rewrite Hr, Hg. Qed.

(** Two layers read as one. *)
Lemma read_merged revision t p p' parents s space rowKey :
  tx_ok t -> tx_open t s -> tx_ok p -> tx_open p s -> tx_ok p' -> tx_open p' s -> t_generation p' = t_generation p -> revision p' = revision p ->
  (forall k, write_of (ws p') k = match write_of (ws t) k with Some op => Some op | None => write_of (ws p) k end) ->
  read_layers revision (p' :: parents) s space rowKey = read_layers revision (t :: p :: parents) s space rowKey.
Proof.
  intros Ht Hot Hp Hop Hp' Hop' Hg Hr Hw.
  rewrite (read_top revision p'), (read_top revision t) by done. destruct (key space rowKey) as [k|e] eqn:Ek; cbn [rbind]; [|done].
  rewrite Hw. destruct (write_of (ws t) k); [done|]. cbn [below]. rewrite (read_top revision p), Ek by done. cbn [rbind].
  destruct (write_of (ws p) k); [done|]. by apply below_same.
Qed.

(** ** Merging *)

Lemma add64_zero c : 0 <= c <= max_int64 -> add64 c 0 = c.
Proof. unfold add64, max_int64. intros. rewrite Z.mod_small; lia. Qed.

Lemma empty_write_set_spec p : empty_write_set p = true -> t_stage p = None /\ t_buffered p = ∅ /\ t_stagedBytes p = 0 /\ ws p = ∅.
Proof.
  unfold empty_write_set. rewrite !andb_true_iff, Z.eqb_eq. intros [[Es%bool_decide_eq_true Eb%bool_decide_eq_true] En].
  split_and!; [done..|]. apply map_eq. intros k. by rewrite ws_lookup, Es, Eb, lookup_empty.
Qed.

Lemma take_over_ok t p : tx_ok t -> tx_ok p -> empty_write_set p = true ->
  let p' := (take_over t p).2 in tx_ok p' /\ kept p p' /\ ws p' = ws t.
Proof.
  intros Ht Hp (_ & _ & _ & Hw)%empty_write_set_spec. cbn zeta. set (p' := (take_over t p).2).
  assert (ws p' = ws t) as Ews by done. split_and!; [|done|done]. destruct (ok_counters p Hp) as [P1 P2 P3 P4]. destruct (ok_counters t Ht) as [T1 T2 T3 T4].
  rewrite Hw, map_sum_empty in P1, P2, P3, P4. pose proof (ok_budget t Ht) as [Hb _]. rewrite (ok_bytes t Ht) in Hb.
  assert (forall kind, 0 <= map_sum (kind_count kind) (ws t) <= max_int64) as Hkind
    by (intros kind; pose proof (kind_sum_bounds kind (ws t) (ok_entries t Ht)); lia).
  constructor; rewrite ?Ews; [apply Ht|apply Ht|apply Ht|apply Ht|]. constructor; cbn; rewrite ?P1, ?P2, ?P3, ?P4, ?T1, ?T2, ?T3, ?T4; [by apply add64_zero..|].
  assert (0 <= map_sum write_bytes (ws t) <= map_sum entry_bytes (ws t)).
  { split; [apply map_sum_nonneg|apply map_sum_le]; intros k v Hv; by apply write_bytes_bounds, (ok_entries t Ht). }
  cbn. rewrite wrap_i64_small; unfold max_int64 in *; lia.
Qed.

Definition aborted (p : Tx) : Prop := t_closed p = true /\ t_state p = TransactionAborted.

Lemma finish_closed state o t s : t_closed t = false -> t_closed (finish state o t s) = true /\ t_state (finish state o t s) = state.
Proof.
  intros Hc. unfold finish, applyTransition, cleanup. rewrite Hc. set (o' := if _ && _ then _ else o).
  destruct (to_HasCommitTS o'), (decide (state = TransactionAborted)); cbn; by rewrite Hc.
Qed.

Lemma rollback_aborted p s : t_closed p = false -> aborted (Rollback p s).
Proof. intros Hc. unfold Rollback. rewrite Hc. by apply finish_closed. Qed.


(** The parent after a merge. *)
Record merge_of (t p p' : Tx) : Prop := {
  mo_ok : tx_ok p';
  mo_same : t_generation p' = t_generation p /\ t_Snapshot p' = t_Snapshot p /\ t_ID p' = t_ID p /\ t_closed p' = t_closed p /\ t_state p' = t_state p;
  mo_writes : forall k, write_of (ws p') k = match write_of (ws t) k with Some op => Some op | None => write_of (ws p) k end;
  mo_keys : dom (ws p') = dom (ws t) ∪ dom (ws p);
  mo_guards : t_guardedKeys p' = t_guardedKeys t ∪ t_guardedKeys p /\ guards_bounded p'
}.

Lemma mergeGuardedKeys_spec p t :
  guards_bounded p ->
  match mergeGuardedKeys p t with
  | Ok p' => p' = p <| t_guardedKeys := t_guardedKeys p' |> /\ t_guardedKeys p' = t_guardedKeys t ∪ t_guardedKeys p /\ guards_bounded p'
  | Err e => e = ErrWriteSetLimit
  end.
Proof.
  intros Hg. unfold mergeGuardedKeys. case_bool_decide as He.
  { rewrite He, (left_id_L ∅ (∪)). split_and!; [by destruct p|done|done]. }
  destruct (Z.ltb_spec maxGuardedKeys (Z.of_nat (size (t_guardedKeys p)) + Z.of_nat (size (t_guardedKeys t ∖ t_guardedKeys p)))); [done|].
  split_and!; [done|done|]. unfold guards_bounded. cbn.
  replace (t_guardedKeys t ∪ t_guardedKeys p) with (t_guardedKeys p ∪ (t_guardedKeys t ∖ t_guardedKeys p)).
  - rewrite size_union by set_solver. lia.
  - apply set_eq. intros k. destruct (decide (k ∈ t_guardedKeys p)); set_solver.
Qed.

Lemma fold_guards_spec t t0 p p1 s :
  guards_bounded p1 -> t_closed p1 = false -> t_guardedKeys t0 = t_guardedKeys t -> t_guardedKeys p1 = t_guardedKeys p -> tx_ok p1 ->
  t_generation p1 = t_generation p /\ t_Snapshot p1 = t_Snapshot p /\ t_ID p1 = t_ID p /\ t_closed p1 = t_closed p /\ t_state p1 = t_state p ->
  (forall k, write_of (ws p1) k = match write_of (ws t) k with Some op => Some op | None => write_of (ws p) k end) ->
  dom (ws p1) = dom (ws t) ∪ dom (ws p) ->
  let '(t', p', s', r) := fold_guards t0 p1 s in
  s' = s /\ t' = t0 /\ match r with Ok _ => merge_of t p p' | Err _ => aborted p' end.
Proof.
  intros Hg Hc Eg Ep Hp1 Hsame Hw Hd. unfold fold_guards. pose proof (mergeGuardedKeys_spec p1 t0 Hg) as Hm.
  destruct (mergeGuardedKeys p1 t0) as [p'|e]; [|split_and!; [done|done|by apply rollback_aborted]].
  destruct Hm as (Ep' & Egk & Hb). split_and!; [done|done|]. assert (ws p' = ws p1) as Ews by (by rewrite Ep').
  constructor; rewrite ?Ews; [|by rewrite Ep'|done|done|by rewrite Egk, Eg, Ep].
  destruct Hp1. rewrite Ep'. by constructor.
Qed.

Lemma mergeParent_spec t p s :
  tx_ok t -> tx_ok p -> guards_bounded p -> t_closed t = false ->
  let '(t', p', s', r) := mergeParent t p s in
  only_clock s s' /\ t_closed t' = false /\ t_Snapshot t' = t_Snapshot t /\
  match r with Ok _ => tx_open p s /\ merge_of t p p' | Err _ => p' = p \/ aborted p' end.
Proof.
  intros Ht Hp Hg Hct. unfold mergeParent. destruct (t_closed p) eqn:Hcp; cbn [orb]; [by split_and!; [apply only_clock_refl|..|left]|].
  destruct (stale p s) eqn:Hst; [by split_and!; [apply only_clock_refl|..|left]|].
  assert (only_clock s (check_ctx s).1) as Hc by apply check_ctx_clock. destruct (check_ctx s) as [s1 [[]|e]]; cbn [fst] in Hc;
    [|by split_and!; [..|left]]. destruct (empty_write_set p) eqn:He.
  - pose proof (take_over_ok t p Ht Hp He) as (Hp1 & Hk & Hws). apply empty_write_set_spec in He as (_ & _ & _ & Hwp).
    destruct (take_over t p) as [t1 p1] eqn:Eto. cbn [snd] in *. assert (t_guardedKeys t1 = t_guardedKeys t /\ t_closed t1 = false /\ t_Snapshot t1 = t_Snapshot t)
      as (Eg & Ec & Es) by (unfold take_over in Eto; by injection Eto as <- _).
    pose proof (fold_guards_spec t t1 p p1 s1) as Hf. destruct (fold_guards t1 p1 s1) as [[[t' p'] s'] r]. destruct Hf as (-> & -> & Hf).
    + unfold guards_bounded. by rewrite (kp_guardedKeys _ _ Hk).
    + by rewrite (kp_closed _ _ Hk).
    + done.
    + apply Hk.
    + done.
    + split_and!; apply Hk.
    + intros k. rewrite Hws, Hwp. by destruct (write_of (ws t) k).
    + rewrite Hws, Hwp. set_solver.
    + split_and!; [done|done|done|]. destruct r; [done|by right].
  - pose proof (WalkWrites_entries (fun op p s => write op p s) t p s1 Ht) as Hw.
    destruct (WalkWrites _ t p s1) as [[[t1 p1] s2] [a|e]]; destruct Hw as ([Hk Hwt _ _] & _ & l & s0 & Hl & Hm & Hc0 & Hw);
      pose proof (walk_merge l p s0 Hp Hl) as Hmerge.
    + rewrite Hw in Hmerge. destruct Hmerge as (Hc1 & Hkp & Hp1 & Hws). specialize (Hws eq_refl).
      set (p2 := p1 <| t_counters ::= _ |>). assert (ws p2 = ws p1) as E2 by done. assert (tx_ok p2) as Hp2
        by (destruct Hp1 as [? ? ? ? []]; constructor; [done|done|done|done|by constructor]).
      pose proof (fold_guards_spec t t1 p p2 s2) as Hf. destruct (fold_guards t1 p2 s2) as [[[t' p'] s'] r]. destruct Hf as (-> & -> & Hf).
      * unfold guards_bounded. cbn. by rewrite (kp_guardedKeys _ _ Hkp).
      * cbn. by rewrite (kp_closed _ _ Hkp).
      * apply Hk.
      * apply Hkp.
      * done.
      * cbn. split_and!; apply Hkp.
      * intros k. rewrite E2, Hws, merged_write_of by done. by rewrite Hm.
      * rewrite E2, Hws, merged_dom by done. by rewrite Hm.
      * split_and!; [by do 2 (eapply only_clock_trans; [done|])|by rewrite (kp_closed _ _ Hk)|apply Hk|]. destruct r; [done|by right].
    + assert (only_clock s0 s2 /\ t_closed p1 = false) as [Hc1 Hcp1].
      { destruct Hw as [Hw|[-> ->]]; [rewrite Hw in Hmerge; destruct Hmerge as (? & Hkp & _); by rewrite (kp_closed _ _ Hkp)|]. split; [apply only_clock_refl|done]. }
      split_and!; [by do 2 (eapply only_clock_trans; [done|])|by rewrite (kp_closed _ _ Hk)|apply Hk|]. right. by apply rollback_aborted.
Qed.
End Reads.
