(* ===== verification/WriteSetFacts.v ===== *)
(** * The properties of write sets *)

From stdpp Require Import gmap list sorting strings fin_maps.
From Stdlib Require Import Strings.Byte.
From S2P Require Import Prelude TxnState TxnManager Bolt Keys Versions Visibility Layouts Conflict Store CommitLog CompactSteps GroupFacts WriteSet WriteSetInv WriteSetSteps WriteSetMerge WriteSetReads.

Section Properties.
Context `{BoltLaws} `{GuardCodec} `{Env} `{Locking} `{StoreOptions} `{MapRange}.

(** C26: after any calls on a new transaction, whichever of them were refused or failed to reach the
    disk, the write set is what the acknowledged calls describe, in order, wherever its entries lie;
    the bytes counted are those of its entries, within the budget and without overflow; the buffer is
    within its 128 KiB and its size is exact; the counters are the number of writes, of point and of
    range dependencies and the bytes of the writes; and the guarded keys are those of the
    acknowledged guards, 16384 at most. *)
Theorem write_set_exact (generation snapshot : Z) (id : bytes) (cs done : list client_call) (t : Tx) (s s' : Store) :
  Forall call_allowed cs -> run_calls cs (new_tx generation snapshot id) s = (t, s', done) ->
  let m := replay (omap call_op done) ∅ in
  (forall k, stagedValue t k = Ok (m !! k)) /\
  t_stagedBytes t = map_sum entry_bytes m /\ within_budget (t_stagedBytes t) /\
  (t_bufferBytes t = map_sum buffer_cost (t_buffered t) /\ t_bufferBytes t <= writeBufferBytes) /\
  counted m (t_counters t) /\
  t_guardedKeys t = guard_keys done ∅ /\ Z.of_nat (size (t_guardedKeys t)) <= maxGuardedKeys.
Proof.
  intros Hcs E. pose proof (run_calls_spec cs (new_tx generation snapshot id) s (new_tx_ok _ _ _)) as Hr. rewrite E in Hr.
  assert (ws (new_tx generation snapshot id) = ∅) as Hw by (apply map_eq; intros k; rewrite ws_lookup; cbn; by rewrite !lookup_empty).
  destruct Hr as (_ & Ht & Hg & Hsame & Hws & Hgk); [by unfold guards_bounded|done|]. rewrite Hw in Hws. cbn zeta. rewrite <- Hws.
  split; [intros k; apply stagedValue_spec; apply (kp_closed _ _ Hsame)|]. destruct Ht. by repeat (split; [done|]).
Qed.

(** C30: the commit of a child that succeeds is invisible to readers: through the parent, and every
    layer under it, every key reads at every snapshot as it did through the child, with the parent's own
    accounting exact again; every key of either write set, guards included, is in that of the parent,
    so no dependency is lost; the child has ended.  If it fails the child is aborted, and the
    parent is as it was or aborted too: never with part of the child's writes. *)
Theorem child_commit_transparent (t p t' p' : Tx) (s s' : Store) (r : result mvcc_error Z) :
  tx_ok t -> tx_open t s -> tx_ok p -> tx_open p s -> guards_bounded p -> commitChild t p s = (t', p', s', r) ->
  t_closed t' = true /\
  match r with
  | Ok n =>
      n = t_Snapshot t /\ t_state t' = TransactionMerged /\ tx_ok p' /\ guards_bounded p' /\ tx_open p' s' /\
      (forall parents space rowKey, Tx_read (p' :: parents) s' space rowKey = Tx_read (t :: p :: parents) s' space rowKey) /\
      (forall revision parents space rowKey,
         ReadAt revision (p' :: parents) s' space rowKey = ReadAt revision (t :: p :: parents) s' space rowKey) /\
      dom (ws p') = dom (ws t) ∪ dom (ws p) /\ t_guardedKeys p' = t_guardedKeys t ∪ t_guardedKeys p
  | Err _ => t_state t' = TransactionAborted /\ (p' = p \/ aborted p')
  end.
Proof.
  intros Ht Hot Hp Hop Hg. unfold commitChild. destruct (canStillCommit t s) as [[]|e].
  2: { intros [= <- <- <- <-]. destruct (finish_closed TransactionAborted (because (abortReason e)) t s (proj1 Hot)) as [-> ->]. split_and!; [done|done|by left]. }
  pose proof (mergeParent_spec t p s Ht Hp Hg (proj1 Hot)) as Hm. destruct (mergeParent t p s) as [[[t1 p1] s1] [a|e]];
    destruct Hm as (Hclock & Hc1 & Hs1 & Hm); intros [= <- <- <- <-].
  - destruct (finish_closed TransactionMerged (because []) t1 s1 Hc1) as [-> ->]. destruct Hm as [_ [Hok (Eg & Es & Ei & Ec & Est) Hw Hd [Hgk Hgb]]].
    assert (tx_open p1 s1) as Hop1. { apply (open_clock _ s); [done|]. destruct Hop. split; [by rewrite Ec|]. unfold stale in *. by rewrite Eg. }
    pose proof (open_clock _ _ _ Hclock Hot). pose proof (open_clock _ _ _ Hclock Hop).
    split; [done|]. do 5 (split; [done|]).
    split; [intros; by apply (read_merged t_Snapshot)|]. split; [intros n *; by apply (read_merged (fun _ => n))|]. done.
  - destruct (finish_closed TransactionAborted (because (str "merge failed")) t1 s1 Hc1) as [-> ->]. by split_and!.
Qed.
End Properties.

(** ** A parent with a guard and a child that writes over it *)

#[local] Existing Instance calm.
#[local] Existing Instance prefix_codec.

#[local] Instance free_locks : Locking := { abort_request := fun _ _ => []; lock_answer := fun _ _ _ => None }.
#[local] Instance small_budget : StoreOptions := { writeSetLimit := 64 }.

Definition parent_calls : list client_call :=
  [CallPut (str "t") (str "a") (str "1"); CallGuard (str "t") (str "b"); CallFlush; CallPut (str "t") (str "a") (str "22")].

Definition child_calls : list client_call :=
  [CallDelete (str "t") (str "a"); CallPut (str "t") (str "b") (str "3"); CallPut (str "t") (str "long") (str "a value the budget has no room for, whatever else is staged");
   CallGuard (str "t") (str "a")].

Definition parent_tx : Tx := (run_calls parent_calls (new_tx 0 0 (str "x")) (new_store true)).1.1.
Definition child_tx : Tx := (run_calls child_calls (new_tx 0 0 (str "x")) (new_store true)).1.1.

Lemma calls_allowed : Forall call_allowed parent_calls /\ Forall call_allowed child_calls.
Proof. split; repeat (constructor; [done|]); constructor. Qed.

Lemma write_set_exact_witness :
  exists t s', run_calls child_calls (new_tx 0 0 (str "c")) (new_store true) =
    (t, s', [CallDelete (str "t") (str "a"); CallPut (str "t") (str "b") (str "3"); CallGuard (str "t") (str "a")]) /\
    t_stagedBytes t = 11 /\ tc_writes (t_counters t) = 2.
Proof.
  destruct (run_calls child_calls (new_tx 0 0 (str "c")) (new_store true)) as [[t s'] done] eqn:E.
  destruct (write_set_exact 0 0 (str "c") child_calls done t (new_store true) s' (proj2 calls_allowed) E) as (_ & Hb & _ & _ & [Hw _ _ _] & _).
  assert (done = [CallDelete (str "t") (str "a"); CallPut (str "t") (str "b") (str "3"); CallGuard (str "t") (str "a")]) as ->.
  { change done with (t, s', done).2. rewrite <- E. vm_compute. reflexivity. }
  exists t, s'. split; [reflexivity|]. rewrite Hb, Hw. split; vm_compute; reflexivity.
Defined.

Lemma made_ok cs t : Forall call_allowed cs -> t = (run_calls cs (new_tx 0 0 (str "x")) (new_store true)).1.1 -> tx_ok t /\ guards_bounded t.
Proof.
  intros Hcs ->. pose proof (run_calls_spec cs (new_tx 0 0 (str "x")) (new_store true) (new_tx_ok _ _ _) ltac:(done) Hcs) as Hp.
  destruct (run_calls cs _ _) as [[t s] done]. by destruct Hp as (_ & ? & ? & _).
Qed.

Lemma family_ok : tx_ok child_tx /\ tx_ok parent_tx /\ guards_bounded parent_tx.
Proof.
  destruct calls_allowed as [Hpa Hca]. split; [by apply (made_ok child_calls)|by apply (made_ok parent_calls)].
Qed.

Lemma child_commit_transparent_witness :
  exists t' p' s', commitChild child_tx parent_tx (new_store true) = (t', p', s', Ok 0) /\
    Tx_read [p'] s' (str "t") (str "b") = Ok (str "3", true) /\ Tx_read [p'] s' (str "t") (str "a") = Ok ([], false).
Proof.
  destruct (commitChild child_tx parent_tx (new_store true)) as [[[t' p'] s'] r] eqn:E. destruct family_ok as (Hc & Hp & Hpg).
  destruct (child_commit_transparent child_tx parent_tx t' p' (new_store true) s' r Hc) as (_ & Hr);
    [split; vm_compute; reflexivity|exact Hp|split; vm_compute; reflexivity|exact Hpg|exact E|].
  assert (r = Ok 0) as ->. { change r with (t', p', s', r).2. rewrite <- E. vm_compute. reflexivity. }
  destruct Hr as (_ & _ & _ & _ & _ & Hread & _). exists t', p', s'. split; [reflexivity|]. rewrite !Hread.
  change s' with (t', p', s', @Ok mvcc_error Z 0).1.2. rewrite <- E. split; vm_compute; reflexivity.
Defined.
