(* ===== verification/LayerScan.v ===== *)
(** * Range scans of a transaction: the merge of its layers ([mvcc/range.go])

    A scan of a transaction merges the pages of its own stage, of the stages of its ancestors and of
    the store.  The write of the innermost layer wins; a deletion hides the row; a guard is passed
    over.  The stage of a layer is the one it has when the scan is opened, which is that of every page
    unless the transaction writes during its own scan.  The record of the observed range and the
    counters of [ScanStats] are left out. *)

From stdpp Require Import gmap list sorting strings fin_maps.
From Stdlib Require Import Strings.Byte.
From S2P Require Import Prelude TxnState TxnManager Bolt Keys Versions Store Scan WriteSet.

Section Layers.
Context `{Bolt} `{GuardCodec} `{Env} `{Locking} `{StoreOptions} `{MapRange}.

(** ** The pages of a stage *)

(** The loop of [stageRangePage]. *)
Fixpoint stage_loop (b : bucket bytes) (prefix : bytes) (r : KeyRange) (fuel : nat) (cur : option bytes)
    (entries : list rangeEntry) (size count : Z) : action rangePage :=
  match cur with
  | None => done (mkPage entries None true)
  | Some k =>
      if negb (rangeContains k prefix r) then done (mkPage entries None true)
      else
        let! _ := check_ctx in
        let! op := returns (decodeStagedOp k (raw (b_get b k))) in
        let entries := entries ++ [mkEntry (trim_prefix prefix k) (op_Value op) (op_Delete op) (op_Check op)] in
        let size := size + blen k + blen (op_Value op) in
        let count := count + 1 in
        if (MaxChunkBytes <=? size) || (256 <=? count) then done (mkPage entries (Some k) false)
        else match fuel with
        | O => done (mkPage entries (Some k) false)
        | S fuel => stage_loop b prefix r fuel (nextRangeKey b (rg_Reverse r) k) entries size count
        end
  end.

Definition stageRangePage (t : Tx) (prefix : bytes) (r : KeyRange) (after : option bytes) : action rangePage :=
  if t_closed t then refused ErrClosed
  else match t_stage t with
  | None => done (mkPage [] None true)
  | Some b => stage_loop b prefix r 256 (rangeCursor b prefix r after) [] 0 0
  end.

(** ** Iterators *)

Definition page_reader : Type := option bytes -> action rangePage.

Record rangeIterator : Type := mkIterator {
  it_page : rangePage;
  it_position : nat;
  it_loaded : bool
}.

Definition new_iterator : rangeIterator := mkIterator (mkPage [] None false) 0 false.

(** [rangeIterator.peek]; [None] when [fuel] pages are not enough. *)
Fixpoint peek (read : page_reader) (fuel : nat) (it : rangeIterator) (s : Store)
    : Store * option (result mvcc_error (rangeIterator * option rangeEntry)) :=
  if negb (it_loaded it) || (it_position it =? length (pg_entries (it_page it)))%nat then
    if it_loaded it && pg_done (it_page it) then (s, Some (Ok (it, None)))
    else match fuel with
    | O => (s, None)
    | S fuel =>
        match read (pg_after (it_page it)) s with
        | (s, Err e) => (s, Some (Err e))
        | (s, Ok p) => peek read fuel (mkIterator p 0 true) s
        end
    end
  else (s, Some (Ok (it, pg_entries (it_page it) !! it_position it))).

Definition iterators : Type := list (page_reader * rangeIterator).

Fixpoint peek_all (fuel : nat) (its : iterators) (s : Store)
    : Store * option (result mvcc_error (iterators * list (option rangeEntry))) :=
  match its with
  | [] => (s, Some (Ok ([], [])))
  | (read, it) :: its =>
      match peek read fuel it s with
      | (s, None) => (s, None)
      | (s, Some (Err e)) => (s, Some (Err e))
      | (s, Some (Ok (it, h))) =>
          match peek_all fuel its s with
          | (s, Some (Ok (its, hs))) => (s, Some (Ok ((read, it) :: its, h :: hs)))
          | r => r
          end
      end
  end.

(** ** The merge *)

(** The key that comes first among the heads. *)
Definition closer (r : KeyRange) (selected : option bytes) (head : option rangeEntry) : option bytes :=
  match head, selected with
  | None, _ => selected
  | Some e, None => Some (re_key e)
  | Some e, Some k =>
      if negb (rg_Reverse r) && bltb (re_key e) k || rg_Reverse r && bltb k (re_key e) then Some (re_key e) else selected
  end.

Definition select_key (r : KeyRange) (heads : list (option rangeEntry)) : option bytes := foldl (closer r) None heads.

Definition at_key (k : bytes) (head : option rangeEntry) : bool :=
  match head with Some e => bool_decide (re_key e = k) | None => false end.

(** The first of the heads at the key that is not a guard. *)
Definition winner (k : bytes) (heads : list (option rangeEntry)) : option rangeEntry :=
  foldl (fun w h => match w, h with
                    | None, Some e => if at_key k h && negb (re_check e) then Some e else None
                    | _, _ => w
                    end) None heads.

Definition advance (k : bytes) (its : iterators) (heads : list (option rangeEntry)) : iterators :=
  zip_with (fun ri h => if at_key k h then (ri.1, mkIterator (it_page ri.2) (S (it_position ri.2)) (it_loaded ri.2)) else ri) its heads.

(** The loop of [scanRangeAt]: [pages] bounds the pages one peek reads, [fuel] the keys. *)
Fixpoint merge_loop {St} (yield : St -> bytes -> bytes -> action St) (r : KeyRange) (pages fuel : nat) (its : iterators) (st : St) (s : Store)
    : Store * option (result mvcc_error St) :=
  match fuel with
  | O => (s, None)
  | S fuel =>
      match check_ctx s with
      | (s, Err e) => (s, Some (Err e))
      | (s, Ok _) =>
          match peek_all pages its s with
          | (s, None) => (s, None)
          | (s, Some (Err e)) => (s, Some (Err e))
          | (s, Some (Ok (its, heads))) =>
              match select_key r heads with
              | None => (s, Some (Ok st))
              | Some k =>
                  let its := advance k its heads in
                  match winner k heads with
                  | Some e =>
                      if re_deleted e then merge_loop yield r pages fuel its st s
                      else match yield st (re_key e) (re_value e) s with
                      | (s, Err e) => (s, Some (Err e))
                      | (s, Ok st) => merge_loop yield r pages fuel its st s
                      end
                  | None => merge_loop yield r pages fuel its st s
                  end
              end
          end
      end
  end.

(** The layers, flushed, and the readers of those that have a stage. *)
Fixpoint open_layers (prefix : bytes) (r : KeyRange) (layers : list Tx) (s : Store)
    : list Tx * Store * result mvcc_error (list page_reader) :=
  match layers with
  | [] => ([], s, Ok [])
  | t :: layers =>
      if t_closed t then (t :: layers, s, Err ErrClosed)
      else match flushWrites t s with
      | (t, s, Err e) => (t :: layers, s, Err e)
      | (t, s, Ok _) =>
          let '(layers, s, rs) := open_layers prefix r layers s in
          (t :: layers, s,
           let* rs := rs in
           Ok (if bool_decide (t_stage t = None) then rs else stageRangePage t prefix r :: rs))
      end
  end.

Definition new_iterators (readers : list page_reader) : iterators := (fun read => (read, new_iterator)) <$> readers.

(** [Tx.scanRangeAt] for the innermost of the layers, without the recording of the observation.
    [others] is what other goroutines do before a page of the store is read. *)
Definition scan_layers {St} (others : Store -> Store) (yield : St -> bytes -> bytes -> action St) (layers : list Tx) (space : bytes)
    (r : KeyRange) (storeSnapshot : Z) (fuel : nat) (st : St) (s : Store) : list Tx * Store * option (result mvcc_error St) :=
  match (let* prefix := key space [] in
         let* _ := key space (raw (rg_Lower r)) in
         let* _ := key space (raw (rg_Upper r)) in Ok prefix) with
  | Err e => (layers, s, Some (Err e))
  | Ok prefix =>
      match open_layers prefix r layers s with
      | (layers, s, Err e) => (layers, s, Some (Err e))
      | (layers, s, Ok readers) =>
          let from_store : page_reader := fun after s => range_page storeSnapshot prefix r after (others s) in
          let '(s, res) := merge_loop yield r fuel fuel (new_iterators (readers ++ [from_store])) st s in
          (layers, s, res)
      end
  end.

(** [scanRangeAt] refuses a transaction that has ended, and its result is a conflict when the store was
    restored meanwhile. *)
Definition scanRangeAt {St} (others : Store -> Store) (yield : St -> bytes -> bytes -> action St) (t : Tx) (parents : list Tx)
    (space : bytes) (r : KeyRange) (storeSnapshot : Z) (fuel : nat) (st : St) (s : Store)
    : list Tx * Store * option (result mvcc_error St) :=
  let '(layers, s, res) :=
    if t_closed t || stale t s then (t :: parents, s, Some (Err ErrClosed))
    else scan_layers others yield (t :: parents) space r storeSnapshot fuel st s in
  (layers, s, if stale t s then (fun _ => Err ErrConflict) <$> res else res).
End Layers.
