(* ===== verification/LayerMerge.v ===== *)
(** * The merge of sorted streams *)

From stdpp Require Import gmap list sorting strings fin_maps.
From Stdlib Require Import Strings.Byte.
From S2P Require Import Prelude TxnState Bolt Keys Versions Store Scan ScanCursor ScanRuns WriteSet LayerScan.

Section Merge.
Context (r : KeyRange).

Notation streams := (list (list rangeEntry)).

(** The streams without their entry at a key that comes first. *)
Definition pop (k : bytes) (l : list rangeEntry) : list rangeEntry :=
  match l with e :: l' => if bool_decide (re_key e = k) then l' else l | [] => [] end.

Definition step (k : bytes) (ss : streams) : streams := pop k <$> ss.

Definition shown (w : option rangeEntry) : list rangeEntry :=
  match w with Some e => if re_deleted e then [] else [e] | None => [] end.

Fixpoint merge_rows (fuel : nat) (ss : streams) : list rangeEntry :=
  match fuel with
  | O => []
  | S fuel =>
      match select_key r (head <$> ss) with
      | None => []
      | Some k => shown (winner k (head <$> ss)) ++ merge_rows fuel (step k ss)
      end
  end.

(** ** What it computes *)

Definition real (k : bytes) (e : rangeEntry) : bool := bool_decide (re_key e = k) && negb (re_check e).

(** The entry of the first stream that has one for the key, guards apart. *)
Fixpoint resolve (ss : streams) (k : bytes) : option rangeEntry :=
  match ss with
  | [] => None
  | l :: ss => match List.find (real k) l with Some e => Some e | None => resolve ss k end
  end.

Lemma resolve_app ss1 ss2 k : resolve (ss1 ++ ss2) k = match resolve ss1 k with Some e => Some e | None => resolve ss2 k end.
Proof. induction ss1 as [|l ss1 IH]; [done|]. cbn. by destruct (List.find (real k) l). Qed.

Definition keys_sorted_in (l : list rangeEntry) : Prop := StronglySorted (goes r) (re_key <$> l).

Definition total (ss : streams) : nat := sum_list (length <$> ss).

Lemma goes_trichotomy a b : goes r a b \/ a = b \/ goes r b a.
Proof.
  unfold goes. destruct (bcompare a b) eqn:E.
  - apply bcompare_eq in E. tauto.
  - destruct (rg_Reverse r); tauto.
  - apply bcompare_gt in E. destruct (rg_Reverse r); tauto.
Qed.

Lemma closer_goes (k : bytes) e :
  closer r (Some k) (Some e) = if decide (goes r (re_key e) k) then Some (re_key e) else Some k.
Proof.
  destruct (decide (goes r (re_key e) k)) as [Hd|Hd]; unfold closer, goes in *; destruct (rg_Reverse r); cbn [negb andb orb]; rewrite ?orb_false_r.
  - by rewrite (proj2 (bltb_spec _ _) Hd).
  - by rewrite (proj2 (bltb_spec _ _) Hd).
  - destruct (bltb k (re_key e)) eqn:E; [by apply bltb_spec in E|done].
  - destruct (bltb (re_key e) k) eqn:E; [by apply bltb_spec in E|done].
Qed.

(** The key that is selected is at or before every other. *)
Definition first_of (k k' : bytes) : Prop := k' = k \/ goes r k k'.

Lemma first_of_trans a b c : first_of a b -> first_of b c -> first_of a c.
Proof. unfold first_of. intros [->|Hab] [->|Hbc]; [tauto..|]. right. by eapply goes_trans. Qed.

Lemma select_fold hs : forall sel,
  match foldl (closer r) sel hs with
  | Some k =>
      (sel = Some k \/ exists e, Some e ∈ hs /\ re_key e = k) /\
      (forall k0, sel = Some k0 -> first_of k k0) /\ forall e, Some e ∈ hs -> first_of k (re_key e)
  | None => sel = None /\ forall e, Some e ∉ hs
  end.
Proof.
  induction hs as [|h hs IH]; intros sel; cbn [foldl].
  - destruct sel as [k|]; [|by split; [|intros e ?%not_elem_of_nil]]. split_and!; [by left|by intros k0 [= ->]; left|by intros e ?%not_elem_of_nil].
  - specialize (IH (closer r sel h)). destruct (foldl (closer r) (closer r sel h) hs) as [k|].
    + destruct IH as (Hk & Hsel & Hhs). assert (forall k1, closer r sel h = Some k1 -> (sel = Some k1 \/ exists e, h = Some e /\ re_key e = k1) /\
        (forall k0, sel = Some k0 -> first_of k1 k0) /\ forall e, h = Some e -> first_of k1 (re_key e)) as Hc.
      { intros k1. destruct h as [e|], sel as [k0|]; [rewrite closer_goes; case_decide as Hg|..]; intros [= <-].
        - split_and!; [right; by exists e|by intros ? [= <-]; right|by intros ? [= <-]; left].
        - split_and!; [by left|by intros ? [= <-]; left|]. intros ? [= <-]. destruct (goes_trichotomy k0 (re_key e)) as [|[|]]; [by right|by left|done].
        - split_and!; [right; by exists e|done|by intros ? [= <-]; left].
        - split_and!; [by left|by intros ? [= <-]; left|done]. }
      destruct (closer r sel h) as [k1|] eqn:E1.
      * destruct (Hc k1 eq_refl) as (Hc1 & Hc2 & Hc3). specialize (Hsel k1 eq_refl). split_and!.
        -- destruct Hk as [[= <-]|(e & He & Hke)]; [|right; exists e; split; [by right|done]].
           destruct Hc1 as [->|(e & -> & He)]; [by left|]. right. exists e. split; [by left|done].
        -- intros k0 E0. eapply first_of_trans; [exact Hsel|]. by apply Hc2.
        -- intros e [E|He]%elem_of_cons; [|by apply Hhs]. eapply first_of_trans; [exact Hsel|]. by apply Hc3.
      * assert (sel = None /\ h = None) as [-> ->] by (destruct h as [e|], sel as [k0|]; cbn in E1; try done; by destruct (_ || _)).
        destruct Hk as [|(e & He & Hke)]; [done|]. split_and!; [right; exists e; split; [by right|done]|done|].
        intros e' [?|He']%elem_of_cons; [done|by apply Hhs].
    + destruct IH as [E1 Hno]. assert (sel = None /\ h = None) as [-> ->]
        by (destruct h as [e|], sel as [k0|]; cbn in E1; try done; by destruct (_ || _)).
      split; [done|]. intros e [?|He]%elem_of_cons; [done|by apply (Hno e)].
Qed.

Lemma head_elem (ss : streams) e : Some e ∈ (head <$> ss) <-> exists l, e :: l ∈ ss.
Proof.
  rewrite list_elem_of_fmap. split.
  - intros ([|e' l] & E & Hl); [done|]. injection E as <-. by exists l.
  - intros [l Hl]. by exists (e :: l).
Qed.

Lemma stream_first e l x : keys_sorted_in (e :: l) -> x ∈ e :: l -> first_of (re_key e) (re_key x).
Proof.
  unfold keys_sorted_in. cbn. intros [_ Hs]%StronglySorted_inv [->|Hx]%elem_of_cons; [by left|]. right.
  rewrite Forall_forall in Hs. apply Hs. by apply list_elem_of_fmap_2.
Qed.

Lemma select_spec ss k :
  Forall keys_sorted_in ss -> select_key r (head <$> ss) = Some k ->
  (exists e l, e :: l ∈ ss /\ re_key e = k) /\ forall l e, l ∈ ss -> e ∈ l -> first_of k (re_key e).
Proof.
  intros Hs E. pose proof (select_fold (head <$> ss) None) as Hf. unfold select_key in E. rewrite E in Hf.
  destruct Hf as ([|(e & [l Hl]%head_elem & He)] & _ & Hfirst); [done|]. split; [by exists e, l|].
  intros [|e0 l0] x Hl0 Hx; [by apply not_elem_of_nil in Hx|]. eapply first_of_trans; [apply Hfirst, head_elem; by exists l0|].
  apply (stream_first e0 l0); [|done]. rewrite Forall_forall in Hs. by apply Hs.
Qed.

Lemma select_none ss : select_key r (head <$> ss) = None -> forall l, l ∈ ss -> l = [].
Proof.
  intros E. pose proof (select_fold (head <$> ss) None) as Hf. unfold select_key in E. rewrite E in Hf. destruct Hf as [_ Hno].
  intros [|e l] Hl; [done|]. exfalso. apply (Hno e), head_elem. by exists l.
Qed.

(** ** One step *)

Lemma find_only k l :
  (forall e, e ∈ l -> re_key e <> k) -> List.find (real k) l = None.
Proof.
  induction l as [|e l IH]; intros Hl; [done|]. cbn. unfold real at 1. rewrite bool_decide_eq_false_2 by (apply Hl; by left).
  cbn. apply IH. intros x Hx. apply Hl. by right.
Qed.

Lemma sorted_once e l : keys_sorted_in (e :: l) -> forall x, x ∈ l -> re_key x <> re_key e.
Proof.
  unfold keys_sorted_in. cbn. intros [_ Hs]%StronglySorted_inv x Hx E. rewrite Forall_forall in Hs.
  specialize (Hs (re_key x) ltac:(by apply list_elem_of_fmap_2)). rewrite E in Hs. by apply goes_irrefl in Hs.
Qed.

(** A key that comes first is at the head of its stream. *)
Lemma find_head k l :
  keys_sorted_in l -> (forall e, e ∈ l -> first_of k (re_key e)) ->
  List.find (real k) l = match head l with Some e => if real k e then Some e else None | None => None end.
Proof.
  destruct l as [|e l]; [done|]. intros Hs Hf. cbn [head List.find]. destruct (real k e) eqn:Er; [done|]. apply find_only.
  intros x Hx E. destruct (Hf e ltac:(by left)) as [Ek|Hgo].
  - apply (sorted_once e l Hs x Hx). congruence.
  - destruct (stream_first e l x Hs ltac:(by right)) as [Ex|Hx2]; rewrite E in *.
    + rewrite Ex in Hgo. by apply goes_irrefl in Hgo.
    + apply (goes_irrefl r k). by eapply goes_trans.
Qed.

Lemma winner_fold k hs : forall w,
  foldl (fun w h => match w, h with
                    | None, Some e => if at_key k h && negb (re_check e) then Some e else None
                    | _, _ => w
                    end) w hs =
  match w with Some e => Some e | None => head (omap (fun h => match h with Some e => if real k e then Some e else None | None => None end) hs) end.
Proof.
  induction hs as [|h hs IH]; intros w; cbn [foldl]; [by destruct w|]. rewrite IH. destruct w as [w|]; [by destruct h|].
  cbn [omap list_omap]. destruct h as [e|]; [|done]. cbn [at_key]. unfold real at 2. by destruct (_ && _).
Qed.

Lemma winner_resolve ss k :
  Forall keys_sorted_in ss -> (forall l e, l ∈ ss -> e ∈ l -> first_of k (re_key e)) -> winner k (head <$> ss) = resolve ss k.
Proof.
  intros Hs Hf. unfold winner. rewrite winner_fold. induction ss as [|l ss IH]; [done|]. apply Forall_cons in Hs as [Hl Hs].
  cbn [fmap list_fmap omap list_omap resolve]. rewrite (find_head k l) by (done || intros; by apply (Hf l); [left|]).
  specialize (IH Hs ltac:(intros l' e Hl'; apply Hf; by right)). destruct (head l) as [e|]; [|done]. by destruct (real k e).
Qed.

Lemma pop_sorted k l : keys_sorted_in l -> keys_sorted_in (pop k l).
Proof. destruct l as [|e l]; [done|]. cbn. case_bool_decide; [|done]. unfold keys_sorted_in. cbn. by intros [? _]%StronglySorted_inv. Qed.

Lemma pop_elem k l : keys_sorted_in l -> (forall e, e ∈ l -> first_of k (re_key e)) -> forall e, e ∈ pop k l <-> e ∈ l /\ re_key e <> k.
Proof.
  intros Hs Hf e. destruct l as [|e0 l]; cbn [pop]; [split; [by intros ?%not_elem_of_nil|by intros [?%not_elem_of_nil _]]|].
  case_bool_decide as Ek.
  - pose proof (sorted_once e0 l Hs) as Honce. rewrite Ek in Honce. rewrite elem_of_cons. naive_solver.
  - split; [|by intros [? _]]. intros He. split; [done|]. intros E. destruct (Hf e0 ltac:(by left)) as [|Hgo]; [done|].
    destruct (stream_first e0 l e Hs He) as [Ex|Hx]; rewrite E in *; [by rewrite Ex in Hgo; apply goes_irrefl in Hgo|].
    apply (goes_irrefl r k). by eapply goes_trans.
Qed.

Lemma find_pop k k' l : k' <> k -> List.find (real k') (pop k l) = List.find (real k') l.
Proof.
  intros Hk. destruct l as [|e l]; [done|]. cbn [pop]. case_bool_decide as Ek; [|done]. cbn [List.find].
  unfold real at 2. rewrite bool_decide_eq_false_2 by congruence. done.
Qed.

Lemma resolve_step ss k k' : k' <> k -> resolve (step k ss) k' = resolve ss k'.
Proof.
  intros Hk. induction ss as [|l ss IH]; [done|]. change (step k (l :: ss)) with (pop k l :: step k ss). cbn [resolve].
  by rewrite find_pop, IH.
Qed.

Lemma total_pop k l : (length (pop k l) <= length l)%nat.
Proof. destruct l as [|e l]; [done|]. cbn. case_bool_decide; cbn; lia. Qed.

Lemma total_step ss k e l : e :: l ∈ ss -> re_key e = k -> (total (step k ss) < total ss)%nat.
Proof.
  intros Hin Hk. unfold total, step. assert (forall ss, (sum_list (length <$> (pop k <$> ss)) <= sum_list (length <$> ss))%nat) as Hle.
  { intros ss'. induction ss' as [|l' ss' IH]; [done|]. cbn. pose proof (total_pop k l'). lia. }
  induction ss as [|l' ss IH]; [by apply not_elem_of_nil in Hin|]. cbn. apply elem_of_cons in Hin as [<-|Hin].
  - cbn [pop]. rewrite bool_decide_eq_true_2 by done. cbn. specialize (Hle ss). lia.
  - specialize (IH Hin). pose proof (total_pop k l'). lia.
Qed.

Lemma resolve_elem ss k e : resolve ss k = Some e -> re_key e = k /\ exists l, l ∈ ss /\ e ∈ l.
Proof.
  induction ss as [|l ss IH]; [done|]. cbn. destruct (List.find (real k) l) as [x|] eqn:Ef.
  - intros [= ->]. apply find_some in Ef as [Hin Hr]. unfold real in Hr. bool_prop. split; [tauto|]. exists l. split; [by left|by apply list_elem_of_In].
  - intros (? & l' & Hl' & He)%IH. split; [done|]. exists l'. split; [by right|done].
Qed.

(** ** The whole merge *)

Lemma merge_rows_spec fuel : forall ss,
  Forall keys_sorted_in ss -> (total ss < fuel)%nat ->
  keys_sorted_in (merge_rows fuel ss) /\
  forall e, e ∈ merge_rows fuel ss <-> re_deleted e = false /\ resolve ss (re_key e) = Some e.
Proof.
  induction fuel as [|fuel IH]; intros ss Hs Hfuel; [lia|]. cbn [merge_rows]. destruct (select_key r (head <$> ss)) as [k|] eqn:Esel.
  2: { split; [constructor|]. intros e. split; [by intros ?%not_elem_of_nil|]. intros [_ (_ & l & Hl & He)%resolve_elem].
       apply (select_none ss Esel) in Hl. subst l. by apply not_elem_of_nil in He. }
  destruct (select_spec ss k Hs Esel) as [(e0 & l0 & Hin0 & Hk0) Hf]. rewrite (winner_resolve ss k Hs Hf).
  assert (Forall keys_sorted_in (step k ss)) as Hs' by (apply Forall_fmap; eapply Forall_impl; [exact Hs|]; intros; by apply pop_sorted).
  destruct (IH (step k ss) Hs') as [Hsorted Hmem]; [pose proof (total_step ss k e0 l0 Hin0 Hk0); lia|].
  assert (forall e, e ∈ merge_rows fuel (step k ss) -> re_key e <> k /\ goes r k (re_key e)) as Hlater.
  { intros e [_ (_ & l & (l1 & -> & Hl1)%list_elem_of_fmap & He)%resolve_elem]%Hmem.
    rewrite Forall_forall in Hs. apply (pop_elem k l1) in He as [He Hne]; [|by apply Hs|intros; by apply (Hf l1)].
    split; [done|]. by destruct (Hf l1 e Hl1 He) as [|]. }
  split.
  - unfold shown. destruct (resolve ss k) as [w|] eqn:Ew; [|exact Hsorted]. destruct (re_deleted w); [exact Hsorted|].
    apply resolve_elem in Ew as [Ew _]. unfold keys_sorted_in. cbn. constructor; [exact Hsorted|]. apply Forall_forall.
    intros x (e & -> & He)%list_elem_of_fmap. rewrite Ew. by apply Hlater.
  - intros e. rewrite elem_of_app, Hmem. unfold shown. destruct (decide (re_key e = k)) as [Ek|Hne].
    + rewrite Ek. split.
      * intros [He|[? Hr]]; [|exfalso; destruct (Hlater e) as [? _]; [apply Hmem; by rewrite Ek|done]].
        destruct (resolve ss k) as [w|]; [|by apply not_elem_of_nil in He]. destruct (re_deleted w) eqn:Ed; [by apply not_elem_of_nil in He|].
        apply list_elem_of_singleton in He as ->. done.
      * intros [Hd ->]. left. rewrite Hd. by left.
    + rewrite resolve_step by done. split; [|by right]. intros [He|?]; [|done]. destruct (resolve ss k) as [w|] eqn:Ew; [|by apply not_elem_of_nil in He].
      apply resolve_elem in Ew as [Ew _]. destruct (re_deleted w); [by apply not_elem_of_nil in He|]. apply list_elem_of_singleton in He as ->. done.
Qed.
End Merge.
