(* ===== verification/LayerSteps.v ===== *)
(** * Iterators over pages, and the merge loop *)

From stdpp Require Import gmap list sorting strings fin_maps.
From Stdlib Require Import Strings.Byte.
From S2P Require Import Prelude TxnState TxnManager Bolt Keys Versions Visibility Conflict Store CommitLog CompactSteps Scan ScanCursor ScanRuns WriteSet WriteSetInv LayerScan LayerMerge.

Section Steps.
Context `{BoltLaws} `{GuardCodec} `{Env} (space : bytes) (r : KeyRange) (inv : Store -> Prop).
Notation prefix := (space ++ [x00]).

(** ** What a reader promises *)

(** A reader returns the pages of a sorted list of rows, at any moment at which [inv] holds. *)
Record source : Type := mkSource { src_keys : list bytes; src_row : bytes -> option rangeEntry }.

Record reads_source (read : page_reader) (src : source) : Prop := {
  rs_sorted : StronglySorted (goes r) (src_keys src);
  rs_sound : row_sound space r (src_row src);
  rs_complete : forall k, is_Some (src_row src k) -> k ∈ src_keys src;
  rs_page : forall after s, inv s -> start_ok space r after ->
    let '(s', res) := read after s in
    inv s' /\ match res with Ok p => page_right space r (src_row src) (src_keys src) after p | Err e => canceled e end
}.

Definition src_rows (src : source) : list rangeEntry := omap (src_row src) (src_keys src).

Notation remaining_of src := (remaining r (src_row src) (src_keys src)).

(** What an iterator has still to give. *)
Definition rest (src : source) (it : rangeIterator) : list rangeEntry :=
  drop (it_position it) (pg_entries (it_page it)) ++ (if pg_done (it_page it) then [] else remaining_of src (pg_after (it_page it))).

Record iterator_ok (it : rangeIterator) : Prop := {
  io_position : (it_position it <= length (pg_entries (it_page it)))%nat;
  io_new : it_loaded it = false -> it = new_iterator;
  io_after : pg_done (it_page it) = false -> start_ok space r (pg_after (it_page it))
}.

Lemma new_iterator_ok : iterator_ok new_iterator.
Proof. constructor; [done|done|]. by intros _ a. Qed.

Lemma rest_new src : rest src new_iterator = src_rows src.
Proof. unfold rest, remaining, src_rows. cbn. f_equal. apply filter_holds. by apply Forall_forall. Qed.

(** ** Peeking *)

(** What a peek shows. *)
Record peeked (src : source) (it it' : rangeIterator) (h : option rangeEntry) : Prop := {
  pk_ok : iterator_ok it';
  pk_rest : rest src it' = rest src it;
  pk_head : h = head (rest src it);
  pk_some : is_Some h -> (it_position it' < length (pg_entries (it_page it')))%nat /\ it_loaded it' = true
}.

Lemma peek_here src it :
  iterator_ok it -> it_loaded it = true -> it_position it <> length (pg_entries (it_page it)) ->
  peeked src it it (pg_entries (it_page it) !! it_position it).
Proof.
  intros Hit Hl Hne. pose proof (io_position it Hit) as Hp. constructor; [done|done| |intros _; split; [lia|done]].
  unfold rest. destruct (lookup_lt_is_Some_2 (pg_entries (it_page it)) (it_position it) ltac:(lia)) as [e He].
  by rewrite He, (drop_S _ e).
Qed.

Lemma peek_spec read src fuel : forall it s,
  reads_source read src -> inv s -> iterator_ok it -> (left_keys r (src_keys src) (pg_after (it_page it)) < fuel)%nat ->
  exists s' res, peek read fuel it s = (s', Some res) /\ inv s' /\
    match res with Ok (it', h) => peeked src it it' h | Err e => canceled e end.
Proof.
  induction fuel as [|fuel IH]; intros it s Hr Hs Hit Hf; [lia|]. cbn [peek]. destruct (negb (it_loaded it) || _) eqn:Hload.
  2: { apply orb_false_iff in Hload as [Hl%negb_false_iff Hn%Nat.eqb_neq]. eexists _, _. split_and!; [done|done|]. by apply peek_here. }
  assert (drop (it_position it) (pg_entries (it_page it)) = []) as Hdrop.
  { apply orb_true_iff in Hload as [Hl%negb_true_iff|Hn%Nat.eqb_eq]; [by rewrite (io_new it Hit Hl)|]. rewrite Hn. by rewrite drop_all. }
  destruct (it_loaded it && pg_done (it_page it)) eqn:Hdone.
  { apply andb_true_iff in Hdone as [Hl Hd]. eexists _, _. split_and!; [done|done|]. constructor; [done|done| |by intros []].
    unfold rest. by rewrite Hdrop, Hd. }
  assert (pg_done (it_page it) = false) as Hd.
  { apply andb_false_iff in Hdone as [Hl|Hd]; [by rewrite (io_new it Hit Hl)|done]. }
  pose proof (rs_page read src Hr (pg_after (it_page it)) s Hs (io_after it Hit Hd)) as Hpage.
  destruct (read (pg_after (it_page it)) s) as [s1 [p|e]]; destruct Hpage as [Hs1 Hp]; [|by eexists _, _].
  assert (forall rows, rows = rest src it -> rest src (mkIterator p 0 true) = rows -> iterator_ok (mkIterator p 0 true) ->
    (pg_done p = true \/ (left_keys r (src_keys src) (pg_after p) < fuel)%nat) ->
    exists s' res, peek read fuel (mkIterator p 0 true) s1 = (s', Some res) /\ inv s' /\
      match res with Ok (it', h) => peeked src it it' h | Err e => canceled e end) as Hgo.
  { intros rows Er Erest Hok Hfuel. assert (forall it' h, peeked src (mkIterator p 0 true) it' h -> peeked src it it' h) as Hmono.
    { intros it' h [? E1 E2 ?]. constructor; [done|congruence|congruence|done]. }
    destruct Hfuel as [Hpd|Hfuel].
    - destruct (pg_entries p) as [|e l] eqn:Ee.
      + destruct fuel; cbn [peek it_page it_position it_loaded]; rewrite Ee; cbn; rewrite Hpd; eexists _, _; (split_and!; [done|done|]); apply Hmono;
          (constructor; [done|done| |by intros []]); unfold rest; cbn; by rewrite Ee, Hpd.
      + destruct fuel; cbn [peek it_page it_position it_loaded]; rewrite Ee; cbn; eexists _, _; (split_and!; [done|done|]); apply Hmono;
          pose proof (peek_here src (mkIterator p 0 true) Hok eq_refl) as Hh; cbn in Hh; rewrite Ee in Hh; apply Hh; done.
    - destruct (IH (mkIterator p 0 true) s1 Hr Hs1 Hok Hfuel) as (s' & res & -> & Hs' & Hres). eexists _, _. split_and!; [done|done|].
      destruct res as [[it' h]|e]; [|done]. by apply Hmono. }
  unfold page_right in Hp. destruct (pg_done p) eqn:Hpd.
  - apply (Hgo (rest src it)); [done| |constructor; cbn; [lia|done|by rewrite Hpd]|by left].
    unfold rest. cbn. by rewrite Hdrop, Hd, Hpd, Hp, app_nil_r.
  - destruct Hp as (k & Ek & Hk & Hin & Hb & E). apply (Hgo (rest src it)); [done| |constructor; cbn; [lia|done|]|].
    + unfold rest. cbn. by rewrite Hdrop, Hd, Hpd, Ek.
    + intros _. rewrite Ek. by intros a [= <-].
    + right. rewrite Ek. pose proof (left_keys_less r (src_keys src) (pg_after (it_page it)) k Hk Hb). lia.
Qed.

(** ** All the iterators *)

Definition reading_of (ri : page_reader * rangeIterator) (src : source) : Prop := reads_source ri.1 src /\ iterator_ok ri.2.

Definition rests (its : iterators) (srcs : list source) : list (list rangeEntry) := zip_with (fun src ri => rest src ri.2) srcs its.

(** A head stands where its iterator is. *)
Definition in_place (ri : page_reader * rangeIterator) (h : option rangeEntry) : Prop :=
  is_Some h -> (it_position ri.2 < length (pg_entries (it_page ri.2)))%nat /\ it_loaded ri.2 = true.

Lemma peek_all_spec pages its : forall srcs s,
  Forall2 reading_of its srcs -> inv s -> Forall (fun src => (length (src_keys src) < pages)%nat) srcs ->
  exists s' res, peek_all pages its s = (s', Some res) /\ inv s' /\
    match res with
    | Ok (its', hs) => Forall2 reading_of its' srcs /\ rests its' srcs = rests its srcs /\ hs = head <$> rests its srcs /\ Forall2 in_place its' hs
    | Err e => canceled e
    end.
Proof.
  induction its as [|[read it] its IH]; intros srcs s Hr Hs Hf; inversion Hr as [|? src ? srcs' [Hsrc Hit] Hr' E1 E2]; subst; cbn [peek_all].
  { eexists _, _. by split_and!. }
  apply Forall_cons in Hf as [Hf1 Hf]. cbn [fst snd] in *. destruct (peek_spec read src pages it s Hsrc Hs Hit) as (s1 & res & -> & Hs1 & Hres).
  { unfold left_keys. pose proof (length_filter (beyond r (pg_after (it_page it))) (src_keys src)). lia. }
  destruct res as [[it' h]|e]; [|by eexists _, _]. destruct Hres as [Hok Hrest Hhead Hsome].
  destruct (IH srcs' s1 Hr' Hs1 Hf) as (s2 & res & -> & Hs2 & Hres). destruct res as [[its' hs]|e]; [|by eexists _, _].
  destruct Hres as (Hr2 & Erests & Eheads & Hplace). eexists _, _. split_and!; [done|done|].
  unfold rests in *. cbn [zip_with fmap list_fmap]. split_and!.
  - by constructor.
  - cbn [snd]. by rewrite Hrest, Erests.
  - cbn [snd]. by rewrite Hhead, Eheads.
  - by constructor.
Qed.

Lemma advance_spec k its : forall srcs hs,
  Forall2 reading_of its srcs -> Forall2 in_place its hs -> hs = head <$> rests its srcs ->
  Forall2 reading_of (advance k its hs) srcs /\ rests (advance k its hs) srcs = step k (rests its srcs).
Proof.
  induction its as [|[read it] its IH]; intros srcs hs Hr Hp; inversion Hr as [|? src ? srcs' [Hsrc Hit] Hr' E1 E2]; subst;
    inversion Hp as [|? h ? hs' Hh Hp' E3 E4]; subst; intros E; [by split|].
  change (rests ((read, it) :: its) (src :: srcs')) with (rest src it :: rests its srcs') in *. cbn [fmap list_fmap] in *. injection E as -> ->.
  destruct (IH srcs' _ Hr' Hp' eq_refl) as [Hr2 Erests].
  change (step k (rest src it :: rests its srcs')) with (pop k (rest src it) :: step k (rests its srcs')). rewrite <- Erests.
  set (hs := head <$> rests its srcs') in *. set (h := head (rest src it)) in *.
  set (ri := if at_key k h then (read, mkIterator (it_page it) (S (it_position it)) (it_loaded it)) else (read, it)).
  change (advance k ((read, it) :: its) (h :: hs)) with (ri :: advance k its hs).
  change (rests (ri :: advance k its hs) (src :: srcs')) with (rest src ri.2 :: rests (advance k its hs) srcs').
  enough (reading_of ri src /\ rest src ri.2 = pop k (rest src it)) as [Hri ->] by (split; [by constructor|done]).
  subst ri h. destruct (rest src it) as [|e l] eqn:Erest; cbn [head at_key pop] in *; [by split|].
  case_bool_decide as Ek; [|by split]. destruct (Hh ltac:(by eexists)) as [Hpos Hload]. cbn [snd fst] in *.
  split.
  - split; [done|]. destruct Hit as [? Hnew ?]. constructor; cbn; [lia|by rewrite Hload|done].
  - unfold rest in Erest |- *. cbn. destruct (lookup_lt_is_Some_2 _ _ Hpos) as [e' He']. rewrite (drop_S _ e') in Erest by done.
    by injection Erest.
Qed.

(** ** The loop *)

Lemma collect_rows e st s : (collect st (re_key e) (re_value e) : action _) s = (s, Ok (st ++ [row_of e])).
Proof. done. Qed.

Hypothesis inv_clock : forall s s', only_clock s s' -> inv s -> inv s'.

Lemma merge_loop_spec pages srcs fuel : forall its st s,
  Forall2 reading_of its srcs -> inv s -> Forall (fun src => (length (src_keys src) < pages)%nat) srcs ->
  Forall (keys_sorted_in r) (rests its srcs) -> (total (rests its srcs) < fuel)%nat ->
  exists s' res, merge_loop collect r pages fuel its st s = (s', Some res) /\ inv s' /\
    match res with Ok st' => st' = st ++ (row_of <$> merge_rows r fuel (rests its srcs)) | Err e => canceled e end.
Proof.
  induction fuel as [|fuel IH]; intros its st s Hr Hs Hp Hsorted Hf; [lia|]. cbn [merge_loop merge_rows].
  destruct (check_ctx_cases s) as [->|(e & -> & He)]; [|eexists _, _; split_and!; [done|by apply (inv_clock s); [apply only_clock_tick|]|done]].
  destruct (peek_all_spec pages its srcs (s <| s_clock ::= S |>) Hr) as (s1 & res & -> & Hs1 & Hres);
    [by apply (inv_clock s); [apply only_clock_tick|]|done|]. destruct res as [[its1 hs]|e]; [|by eexists _, _].
  destruct Hres as (Hr1 & Erests & -> & Hplace). destruct (select_key r (head <$> rests its srcs)) as [k|] eqn:Esel.
  2: { eexists _, _. split_and!; [done|done|]. cbn. by rewrite app_nil_r. }
  destruct (advance_spec k its1 srcs (head <$> rests its srcs) Hr1 Hplace) as [Hr2 Erests2]; [by rewrite Erests|]. rewrite Erests in Erests2.
  destruct (select_spec r _ k Hsorted Esel) as [(e0 & l0 & Hin0 & Hk0) _]. pose proof (total_step (rests its srcs) k e0 l0 Hin0 Hk0) as Htotal.
  assert (Forall (keys_sorted_in r) (rests (advance k its1 (head <$> rests its srcs)) srcs)) as Hsorted2.
  { rewrite Erests2. apply Forall_fmap. eapply Forall_impl; [exact Hsorted|]. intros. by apply pop_sorted. }
  assert (forall st1 s2, inv s2 -> exists s' res,
    merge_loop collect r pages fuel (advance k its1 (head <$> rests its srcs)) st1 s2 = (s', Some res) /\ inv s' /\
    match res with Ok st' => st' = st1 ++ (row_of <$> merge_rows r fuel (step k (rests its srcs))) | Err e => canceled e end) as Hgo.
  { intros st1 s2 Hs2. rewrite <- Erests2. apply IH; [done|done|done|done|]. rewrite Erests2. lia. }
  destruct (winner k (head <$> rests its srcs)) as [w|]; cbn [shown]; [|by apply Hgo]. destruct (re_deleted w); [by apply Hgo|].
  rewrite collect_rows. destruct (Hgo (st ++ [row_of w]) s1 Hs1) as (s' & res & -> & Hs' & Hres). eexists _, _. split_and!; [done|done|].
  destruct res; [|done]. rewrite Hres. cbn. by rewrite <- app_assoc.
Qed.
End Steps.
