(* ===== verification/LayerReads.v ===== *)
(** * The readers of a transaction's layers *)

From stdpp Require Import gmap list sorting strings fin_maps.
From Stdlib Require Import Strings.Byte.
From S2P Require Import Prelude TxnState TxnManager Bolt Keys Versions Visibility Layouts Conflict Store CommitLog CompactSteps Scan ScanCursor ScanRuns ScanFacts WriteSet WriteSetInv WriteSetSteps WriteSetMerge WriteSetReads LayerScan LayerMerge LayerSteps.

Section Reads.
Context `{BoltLaws} `{GuardCodec} `{Env} `{Locking} `{StoreOptions} `{MapRange} (space : bytes) (r : KeyRange).
Notation prefix := (space ++ [x00]).

(** ** The rows of a stage *)

Definition op_entry (k : bytes) (op : Op) : rangeEntry := mkEntry (trim_prefix prefix k) (op_Value op) (op_Delete op) (op_Check op).

Definition stage_row (b : bucket bytes) (k : bytes) : option rangeEntry :=
  if rangeContains k prefix r then
    match b_get b k with
    | Some v => match decodeStagedOp k v with Ok op => Some (op_entry k op) | Err _ => None end
    | None => None
    end
  else None.

Definition stage_source (b : bucket bytes) : source := mkSource (walk r b) (stage_row b).

Lemma stage_sound b : row_sound space r (stage_row b).
Proof.
  intros k e. unfold stage_row, in_range. destruct (rangeContains k prefix r) eqn:Hk; [|done]. destruct (b_get b k) as [v|]; [|done].
  destruct (decodeStagedOp k v) as [op|]; [|done]. intros [= <-]. split; [done|]. cbn. apply rangeContains_spec in Hk as (t & -> & _).
  by rewrite trim_prefix_app.
Qed.

Definition good_bucket (b : bucket bytes) : Prop := forall k v, b_get b k = Some v -> entry_good k v.

Lemma stage_loop_spec b fuel : forall w1 w2 entries size count s,
  good_bucket b -> walk r b = w1 ++ w2 ->
  (forall k k', k ∈ w2 -> k' ∈ w2 -> goes r k k' -> in_range space r k' -> in_range space r k) ->
  let '(s', res) := stage_loop b prefix r fuel (head w2) entries size count s in
  only_clock s s' /\ match res with Ok p => page_of space r (stage_row b) w2 entries p | Err e => canceled e end.
Proof.
  induction fuel as [|fuel IH]; intros w1 w2 entries size count s Hb Hw Hconv;
    (destruct w2 as [|k w2]; cbn [head stage_loop]; [by split; [apply only_clock_refl|cbn; rewrite app_nil_r]|]);
    pose proof (walk_later r b w1 k w2 Hw) as Hlater;
    (destruct (rangeContains k prefix r) eqn:Hin; cbn [negb];
      [|split; [apply only_clock_refl|]; apply (page_of_end space r (stage_row b) (stage_sound b));
        [unfold in_range; congruence|done|done]]);
    unfold then_do at 1; (destruct (check_ctx_cases s) as [->|(e & -> & He)]; [|by split; [apply only_clock_tick|]]);
    (assert (is_Some (b_get b k)) as [v Hv] by (apply (walk_elem r); rewrite Hw; apply elem_of_app; right; by left));
    destruct (Hb k v Hv) as (op & Hk & Hs & _ & ->);
    unfold then_do at 1, returns at 1; rewrite Hv; change (raw (Some (encodeStagedOp op))) with (encodeStagedOp op); rewrite (staged_decodes op k) by done;
    (assert (stage_row b k = Some (op_entry k op)) as He by (unfold stage_row; by rewrite Hin, Hv, (staged_decodes op k)));
    fold (op_entry k op); change [op_entry k op] with (option_list (Some (op_entry k op)));
    pose proof (page_of_here space r (stage_row b) k w2 entries _ Hin He) as Hstop;
    (destruct (_ || _); [by split; [apply only_clock_tick|]|]).
  - by split; [apply only_clock_tick|].
  - rewrite (next_in_walk r b w1 k w2) by done.
    specialize (IH (w1 ++ [k]) w2 (entries ++ option_list (Some (op_entry k op))) (size + blen k + blen (op_Value op)) (count + 1)
      (s <| s_clock ::= S |>) Hb ltac:(by rewrite <- app_assoc) ltac:(intros; apply (Hconv k0 k'); [by right|by right|done|done])).
    destruct (stage_loop _ _ _ _ _ _ _ _ _) as [s2 res]. destruct IH as [Hc Hres]. split; [by eapply only_clock_trans; [apply only_clock_tick|]|].
    destruct res as [p|]; [|done]. by apply (page_of_more space r (stage_row b) k w2 entries p _ He).
Qed.

Context (inv : Store -> Prop) (inv_clock : forall s s', only_clock s s' -> inv s -> inv s').

Lemma stage_reads t b :
  t_closed t = false -> t_stage t = Some b -> good_bucket b -> reads_source space r inv (stageRangePage t prefix r) (stage_source b).
Proof.
  intros Hc Hs Hb. constructor; cbn; [by apply walk_sorted|apply stage_sound| |].
  - intros k [e He]. apply (walk_elem r). unfold stage_row in He. destruct (rangeContains k prefix r); [|done]. by destruct (b_get b k).
  - intros after s Hi Ha. unfold stageRangePage. rewrite Hc, Hs.
    destruct (rangeCursor_spec space r b after Ha) as (w1 & w2 & Hw & -> & Hst).
    pose proof (stage_loop_spec b 256 w1 w2 [] 0 0 s Hb Hw (sw_convex _ _ _ _ _ Hst)) as Hl.
    destruct (stage_loop _ _ _ _ _ _ _ _ _) as [s' res]. destruct Hl as [Hclock Hres]. split; [by apply (inv_clock s)|].
    destruct res as [p|]; [|done]. by apply (page_of_right space r _ _ after w1 w2); [apply stage_sound|..].
Qed.

(** ** What a stream has for a key *)

Lemma find_row read src t :
  reads_source space r inv read src ->
  List.find (real t) (src_rows src) =
    match src_row src (prefix ++ t) with Some e => if re_check e then None else Some e | None => None end.
Proof.
  intros Hr. assert (forall e, List.find (real t) (src_rows src) = Some e -> src_row src (prefix ++ t) = Some e /\ re_check e = false) as Hfind.
  { intros e [He Hreal]%find_some. apply andb_true_iff in Hreal as [Ht%bool_decide_eq_true Hc%negb_true_iff].
    apply list_elem_of_In, list_elem_of_omap in He as (k & _ & Hk).
    destruct (rs_sound _ _ _ _ _ Hr k e Hk) as [_ <-]. by subst t. }
  destruct (List.find (real t) (src_rows src)) as [e|] eqn:Ef.
  - destruct (Hfind e eq_refl) as [-> ->]. done.
  - destruct (src_row src (prefix ++ t)) as [e|] eqn:Er; [|done]. destruct (re_check e) eqn:Ec; [done|]. exfalso.
    destruct (rs_sound _ _ _ _ _ Hr _ _ Er) as [_ Ek]. apply app_inv_head in Ek.
    assert (e ∈ src_rows src) as Hin. { apply list_elem_of_omap. exists (prefix ++ t). split; [|done]. apply (rs_complete _ _ _ _ _ Hr). by eexists. }
    pose proof (find_none _ _ Ef e (proj1 (list_elem_of_In _ _) Hin)) as Hn. unfold real in Hn. by rewrite bool_decide_eq_true_2, Ec in Hn.
Qed.

Definition write_entry (t : bytes) (op : Op) : rangeEntry := mkEntry t (op_Value op) (op_Delete op) false.

Lemma stage_finds b t :
  good_bucket b ->
  match stage_row b (prefix ++ t) with Some e => if re_check e then None else Some e | None => None end =
    if Contains r t then write_entry t <$> write_of (bucket_map b) (prefix ++ t) else None.
Proof.
  intros Hb. unfold stage_row, write_of. destruct (Contains r t) eqn:Hc.
  - rewrite (proj2 (rangeContains_spec _ _ _)) by (by exists t). rewrite bucket_map_lookup. destruct (b_get b (prefix ++ t)) as [v|] eqn:Ev; [|done].
    destruct (Hb _ _ Ev) as (op & Hk & Hs & _ & ->). rewrite (staged_decodes op), is_write_encoded by done. cbn [op_entry re_check].
    destruct (op_Check op) eqn:Ek; [done|]. cbn. unfold op_entry, write_entry. by rewrite trim_prefix_app, Ek.
  - destruct (rangeContains (prefix ++ t) prefix r) eqn:E; [|done]. apply rangeContains_spec in E as (t' & E & Hc').
    apply app_inv_head in E. subst. congruence.
Qed.

(** ** The layers, opened *)

(** The write the innermost layer that has one holds for a key. *)
Fixpoint layered_write (layers : list Tx) (k : bytes) : option Op :=
  match layers with
  | [] => None
  | t :: layers => match write_of (ws t) k with Some op => Some op | None => layered_write layers k end
  end.

(** A write failed. *)
Definition failed (e : mvcc_error) : Prop := exists n, io_err n = Some e.

Lemma flushWrites_err t s t' s' e : flushWrites t s = (t', s', Err e) -> failed e.
Proof.
  assert (forall s e s', check_io s = (s', Err e) -> failed e) as Hio.
  { intros s0 e0 s0'. unfold check_io. destruct (io_err (s_clock s0)) as [x|] eqn:E; [|done]. intros [= _ ->]. by exists (s_clock s0). }
  unfold flushWrites. case_bool_decide; [done|]. unfold tx_then, ensureStage, stage_update, tx_then, on_store.
  destruct (t_stage t); repeat (match goal with |- context [check_io ?x] => destruct (check_io x) as [? [?|?]] eqn:? end; cbn -[check_io]); try done;
    intros E; simplify_eq; by eapply Hio.
Qed.

Definition total_keys (srcs : list source) : nat := sum_list ((fun src => length (src_keys src)) <$> srcs).

Lemma total_keys_snoc srcs src : total_keys (srcs ++ [src]) = (total_keys srcs + length (src_keys src))%nat.
Proof. unfold total_keys. induction srcs as [|x srcs IH]; cbn in *; lia. Qed.

Definition total_writes (layers : list Tx) : nat := sum_list ((fun t => size (ws t)) <$> layers).

(** Readers, merged from their beginning. *)
Lemma source_sorted read src : reads_source space r inv read src -> keys_sorted_in r (src_rows src).
Proof.
  intros [Hs Hr _ _]. unfold src_rows, keys_sorted_in. induction Hs as [|k l Hl IH Hk]; [constructor|]. cbn [omap list_omap].
  destruct (src_row src k) as [e|] eqn:Ee; [|exact IH]. cbn. constructor; [exact IH|]. apply Forall_forall.
  intros x (e' & -> & (k' & Hk' & Ee')%list_elem_of_omap)%list_elem_of_fmap. destruct (Hr k e Ee) as [_ <-]. destruct (Hr k' e' Ee') as [_ <-].
  rewrite Forall_forall in Hk. by apply (goes_prefix space r), Hk.
Qed.

Lemma length_src_rows src : (length (src_rows src) <= length (src_keys src))%nat.
Proof.
  unfold src_rows. induction (src_keys src) as [|k l IH]; [done|]. cbn. destruct (src_row src k); cbn; lia.
Qed.

Lemma scan_iterators readers srcs fuel s :
  Forall2 (reads_source space r inv) readers srcs -> inv s -> (total_keys srcs < fuel)%nat ->
  exists s' res, merge_loop collect r fuel fuel (new_iterators readers) [] s = (s', Some res) /\ inv s' /\
    match res with
    | Ok rows => StronglySorted (goes r) rows.*1 /\
        forall k v, (k, v) ∈ rows <-> exists e, re_deleted e = false /\ re_value e = v /\ resolve (src_rows <$> srcs) k = Some e
    | Err e => canceled e
    end.
Proof.
  intros Hr Hs Hf. assert (Forall2 (reading_of space r inv) (new_iterators readers) srcs) as Hnew.
  { unfold new_iterators. apply Forall2_fmap_l. eapply Forall2_impl; [exact Hr|]. intros read src Hsrc. split; [done|]. apply new_iterator_ok. }
  assert (rests r (new_iterators readers) srcs = src_rows <$> srcs) as Erests.
  { clear Hf Hnew. induction Hr as [|read src readers srcs Hsrc Hr IH]; [done|]. unfold rests, new_iterators in *. cbn. f_equal; [apply rest_new|done]. }
  assert (forall srcs, (total (src_rows <$> srcs) <= total_keys srcs)%nat) as Hle.
  { intros l. unfold total, total_keys. induction l as [|src l IH]; [done|]. cbn. pose proof (length_src_rows src). lia. }
  assert (Forall (keys_sorted_in r) (src_rows <$> srcs)) as Hsorted.
  { apply Forall_fmap. clear -Hr. induction Hr; constructor; [by eapply source_sorted|done]. }
  assert (Forall (fun src => (length (src_keys src) < fuel)%nat) srcs) as Hpages.
  { clear -Hf. unfold total_keys in Hf. revert Hf. induction srcs as [|src l IH]; [constructor|]. cbn. intros. constructor; [lia|]. apply IH. lia. }
  assert (total (src_rows <$> srcs) < fuel)%nat as Htotal by (specialize (Hle srcs); lia).
  destruct (merge_loop_spec space r inv inv_clock fuel srcs fuel (new_iterators readers) [] s Hnew Hs Hpages) as (s' & res & -> & Hs' & Hres);
    [by rewrite Erests|by rewrite Erests|]. eexists _, _. split_and!; [done|done|]. destruct res as [rows|e]; [|done]. rewrite Erests in Hres. subst rows.
  destruct (merge_rows_spec r fuel (src_rows <$> srcs) Hsorted Htotal) as [Hms Hmem]. cbn [app]. split.
  - unfold keys_sorted_in in Hms. rewrite <- list_fmap_compose. exact Hms.
  - intros k v. rewrite list_elem_of_fmap. split.
    + intros (e & [= -> ->] & [Hd He]%Hmem). by exists e.
    + intros (e & Hd & <- & He). exists e. pose proof (resolve_elem _ _ _ He) as [<- _]. split; [done|]. by apply Hmem.
Qed.

Lemma stage_size b : length (walk r b) = size (bucket_map b).
Proof.
  assert (length (walk r b) = length (b_entries b).*1) as -> by (unfold walk; destruct (rg_Reverse r); by rewrite ?length_reverse).
  unfold bucket_map. rewrite length_fmap. pose proof (ordered_NoDup _ (entries_ordered _ b)) as Hn.
  symmetry. by apply map_size_list_to_map.
Qed.

Lemma open_layers_spec layers : forall s,
  Forall tx_ok layers -> Forall (fun t => tx_open t s) layers ->
  let '(layers', s', res) := open_layers prefix r layers s in
  only_clock s s' /\ Forall2 moved layers layers' /\
  match res with
  | Ok readers => exists srcs, Forall2 (reads_source space r inv) readers srcs /\ (total_keys srcs <= total_writes layers)%nat /\
      forall t, resolve (src_rows <$> srcs) t = if Contains r t then write_entry t <$> layered_write layers (prefix ++ t) else None
  | Err e => failed e
  end.
Proof.
  induction layers as [|t layers IH]; intros s Hok Hopen; cbn [open_layers].
  { split_and!; [apply only_clock_refl|done|]. exists []. split_and!; [constructor|done|]. intros t. by destruct (Contains r t). }
  apply Forall_cons in Hok as [Ht Hok], Hopen as [[Hc Hst] Hopen]. rewrite Hc. pose proof (flushWrites_spec t s Ht) as Hf.
  destruct (flushWrites t s) as [[t1 s1] [[]|e]] eqn:Efl; destruct Hf as (Hclock & Hm & Ht1 & Hf).
  2: { split_and!; [done|constructor; [done|by apply Forall_Forall2_diag, Forall_true]|by eapply flushWrites_err]. }
  destruct (Hf eq_refl) as [He _]. assert (Forall (fun t => tx_open t s1) layers) as Hopen1
    by (eapply Forall_impl; [exact Hopen|]; intros; by apply (open_clock _ s)).
  specialize (IH s1 Hok Hopen1). destruct (open_layers prefix r layers s1) as [[layers' s2] res]. destruct IH as (Hc2 & Hm2 & Hres).
  split_and!; [by eapply only_clock_trans|by constructor|]. destruct res as [readers|e]; cbn [rbind]; [|done].
  destruct Hres as (srcs & Hr & Hlen & Hw). assert (ws t = stage_map t1) as Ews
    by (rewrite <- (mv_ws _ _ Hm); unfold ws; by rewrite He, (left_id_L ∅ (∪))).
  case_bool_decide as Hstage.
  - exists srcs. assert (ws t = ∅) as Ewe by (rewrite Ews; unfold stage_map; by rewrite Hstage). split_and!; [done| |].
    + unfold total_writes in *. cbn. lia.
    + intros k. rewrite Hw. cbn [layered_write]. unfold write_of. by rewrite Ewe, lookup_empty.
  - destruct (t_stage t1) as [b|] eqn:Eb; [|done]. assert (ws t = bucket_map b) as Ewb by (rewrite Ews; unfold stage_map; by rewrite Eb).
    assert (good_bucket b) as Hb by (intros k v Hv; apply (ok_entries t Ht); by rewrite Ewb, bucket_map_lookup).
    assert (t_closed t1 = false) as Hc1 by (by rewrite (kp_closed _ _ (mv_kept _ _ Hm))).
    pose proof (stage_reads t1 b Hc1 Eb Hb) as Hread. exists (stage_source b :: srcs). split_and!; [by constructor| |].
    + unfold total_keys, total_writes in *. cbn. rewrite Ewb, <- stage_size. lia.
    + intros k. cbn [fmap list_fmap resolve layered_write]. rewrite (find_row _ (stage_source b) k Hread). cbn [src_row stage_source].
      rewrite stage_finds, Hw, <- Ewb by done. destruct (Contains r k); [|done]. by destruct (write_of (ws t) (prefix ++ k)).
Qed.
End Reads.
