(* ===== verification/LayerFacts.v ===== *)
(** * What a range scan of a transaction returns *)

From stdpp Require Import gmap list sorting strings fin_maps.
From Stdlib Require Import Strings.Byte.
From S2P Require Import Prelude TxnState TxnManager Bolt Keys Versions Visibility Layouts Conflict Store CommitLog CompactSteps GroupFacts CompactFacts Scan ScanCursor ScanRuns ScanFacts WriteSet WriteSetInv WriteSetSteps WriteSetMerge WriteSetReads WriteSetFacts LayerScan LayerMerge LayerSteps LayerReads.

Section Properties.
Context `{BoltLaws} `{GuardCodec} `{Env} `{Locking} `{StoreOptions} `{MapRange} (space : bytes) (r : KeyRange).
Context (revision : Z) (log : list commit) (keys : list bytes).
Notation prefix := (space ++ [x00]).
Hypothesis Hu : is_u64 revision.
Hypothesis Hkeys : StronglySorted (goes r) keys.
Hypothesis Hspace : space <> rangeGuardSpace.

Notation inv := (steady revision log keys).

(** ** The store as a source *)

Lemma row_at_sound : row_sound space r (row_at space r revision log).
Proof.
  intros k e (-> & Hc & _)%row_at_spec. split; [|done]. unfold in_range. apply rangeContains_spec. by exists (re_key e).
Qed.

Lemma store_reads (others : Store -> Store) s0 :
  (forall s, inv s -> inv (others s)) -> inv s0 ->
  reads_source space r inv (fun after s => range_page revision prefix r after (others s)) (mkSource keys (row_at space r revision log)).
Proof.
  intros Ho Hs0. constructor; cbn [src_keys src_row]; [done|apply row_at_sound| |].
  - intros k [e He]. destruct (decide (is_Some (b_get (d_data (s_db s0)) k))) as [Hl|Hl].
    + destruct Hs0 as (? & ? & ? & _ & _ & _ & Hall). by apply Hall.
    + by rewrite (steady_unlisted space r revision log keys Hu s0 k Hs0 Hl) in He.
  - intros after s Hs Ha. apply (range_page_right space r revision log keys Hu Hkeys after (others s)); [by apply Ho|done].
Qed.

(** ** Point reads *)

Lemma space_key k t op :
  x00 ∉ space -> key (op_Space op) (op_Key op) = Ok k -> k = prefix ++ t -> key space t = Ok k.
Proof.
  intros Hz Hk ->. pose proof (key_ok _ _ _ Hk) as (E & _ & Hz' & _). rewrite <- app_assoc in E. apply key_split in E as [-> ->]; [|done|done].
  by rewrite Hk, <- app_assoc.
Qed.

Lemma ReadAt_layers layers s t :
  Forall tx_ok layers -> Forall (fun t => tx_open t s) layers -> layers <> [] ->
  ReadAt revision layers s space t =
    let* k := key space t in
    match layered_write layers k with
    | Some op => Ok (op_Value op, negb (op_Delete op))
    | None => let x := visible (s_db s) k revision in Ok (x.1.1, x.2)
    end.
Proof.
  unfold ReadAt. induction layers as [|x layers IH]; intros Hok Ho Hne; [done|]. apply Forall_cons in Hok as [Hx Hok], Ho as [Hox Ho].
  rewrite (read_top (fun _ => revision)) by done. destruct (key space t) as [k|e] eqn:Ek; cbn [rbind]; [|done].
  cbn [layered_write]. destruct (write_of (ws x) k); [done|]. destruct layers as [|y layers].
  - cbn [below layered_write]. destruct Hox as [_ ->]. unfold Store_Get. by rewrite Ek.
  - cbn [below]. rewrite IH, ?Ek by done. done.
Qed.

Lemma layered_key layers k op : Forall tx_ok layers -> layered_write layers k = Some op -> key (op_Space op) (op_Key op) = Ok k.
Proof.
  induction layers as [|x layers IH]; intros Hok; [done|]. apply Forall_cons in Hok as [Hx Hok]. cbn.
  destruct (write_of (ws x) k) as [op'|] eqn:Ew; [|by apply IH]. intros [= <-]. unfold write_of in Ew.
  destruct (ws x !! k) as [v|] eqn:Ev; [|done]. destruct (ok_entries x Hx k v Ev) as (o & Hk & Hs & _ & ->).
  rewrite (staged_decodes o k) in Ew by done. destruct (is_write _); [|done]. by injection Ew as <-.
Qed.

Lemma logged_key k v n : abs_read log k revision = (v, n, true) -> exists op, key (op_Space op) (op_Key op) = Ok k.
Proof.
  unfold abs_read, read_at. destruct (newest_at (abs_history log k) (fun _ => true) revision) as [[m p]|] eqn:E; [|done]. intros _.
  apply newest_elem in E as (Hin & _ & _). apply abs_history_elem in Hin as (c & _ & _ & Hw). unfold written in Hw.
  destruct (last (filter (writes_key k) (c_ops c))) as [op|] eqn:El; [|done]. apply last_Some in El as [l El].
  assert (op ∈ filter (writes_key k) (c_ops c)) as [Hop _]%list_elem_of_filter by (rewrite El; apply elem_of_app; right; by left).
  exists op. unfold writes_key in Hop. apply Is_true_true, andb_true_iff in Hop as [_ Hop].
  destruct (key (op_Space op) (op_Key op)); [|done]. by apply bool_decide_eq_true in Hop as ->.
Qed.

Lemma space_plain t : x00 ∉ space -> has_prefix rangeGuardPrefix (prefix ++ t) = false.
Proof. intros Hz. rewrite <- app_assoc. cbn [app]. rewrite guard_prefix_space by done. by apply bool_decide_eq_false. Qed.

(** A scan shows what a point read does. *)
Lemma resolved layers s t v :
  Forall tx_ok layers -> Forall (fun t => tx_open t s) layers -> layers <> [] -> inv s -> x00 ∉ space ->
  (exists e, re_deleted e = false /\ re_value e = v /\
     match (if Contains r t then write_entry t <$> layered_write layers (prefix ++ t) else None) with
     | Some w => Some w
     | None => row_at space r revision log (prefix ++ t)
     end = Some e) <->
  Contains r t = true /\ ReadAt revision layers s space t = Ok (v, true).
Proof.
  intros Hok Ho Hne Hs Hz. rewrite ReadAt_layers by done.
  assert (visible (s_db s) (prefix ++ t) revision = abs_read log (prefix ++ t) revision) as Hv.
  { destruct Hs as (h & new & seq & Hh & Hrep & Hnew & _). rewrite (visible_abs h _ (log ++ new) seq), abs_read_stable by (done || by apply space_plain). done. }
  destruct (Contains r t) eqn:Hc.
  - destruct (layered_write layers (prefix ++ t)) as [op|] eqn:Ew; cbn [fmap option_fmap option_map].
    + pose proof (space_key (prefix ++ t) t op Hz (layered_key _ _ _ Hok Ew) eq_refl) as Hk. rewrite Hk. cbn [rbind]. rewrite Ew. split.
      * intros (e & Hd & <- & [= <-]). split; [done|]. cbn in *. by rewrite Hd.
      * intros [_ [= <- Hd%negb_true_iff]]. by exists (write_entry t op).
    + split.
      * intros (e & _ & <- & He). apply row_at_spec in He as (Ek & _ & _ & _ & n & Hr). split; [done|].
        destruct (logged_key _ _ _ Hr) as [op Hop]. rewrite (space_key _ t op Hz Hop eq_refl). cbn [rbind]. by rewrite Ew, Hv, Hr.
      * intros [_ Hr]. destruct (key space t) as [k|] eqn:Hk; cbn [rbind] in Hr; [|done]. apply key_ok in Hk as [-> _].
        rewrite app_assoc, Ew, Hv in Hr. destruct (abs_read log (prefix ++ t) revision) as [[v' n] []] eqn:Er; [|done]. cbn in Hr. injection Hr as ->.
        exists (mkEntry t v false false). split_and!; [done|done|]. apply row_at_spec. cbn. split_and!; [done..|]. by exists n.
  - split; [|by intros [? _]]. intros (e & _ & _ & He). apply row_at_spec in He as (Ek & Hc' & _). apply app_inv_head in Ek. subst. congruence.
Qed.

(** C27: the range scan of a transaction agrees with its point reads.  It merges the pages of its own
    stage, of those of its ancestors and of the store, in either direction, while other goroutines
    commit and compact; with enough pages it ends, and what it yields is exactly the keys of the range
    that [ReadAt] finds at that revision, with the values it finds, each once and in the order asked for:
    the innermost write wins, deletions hide, guards are passed over. *)
Theorem layered_scan_exact (others : Store -> Store) (t : Tx) (parents : list Tx) (s : Store) (fuel : nat) :
  Forall tx_ok (t :: parents) -> Forall (fun t => tx_open t s) (t :: parents) -> inv s -> (forall s, inv s -> inv (others s)) ->
  (length keys + total_writes (t :: parents) < fuel)%nat ->
  exists layers' s' res, scanRangeAt others collect t parents space r revision fuel [] s = (layers', s', Some res) /\
    Forall2 moved (t :: parents) layers' /\ inv s' /\
    match res with
    | Ok rows =>
        StronglySorted (goes r) rows.*1 /\
        forall k v, (k, v) ∈ rows <-> Contains r k = true /\ ReadAt revision (t :: parents) s space k = Ok (v, true)
    | Err e =>
        canceled e \/ failed e \/ (e = ErrConflict /\ stale t s' = true) \/
        key space [] = Err e \/ key space (raw (rg_Lower r)) = Err e \/ key space (raw (rg_Upper r)) = Err e
    end.
Proof.
  intros Hok Ho Hs Hothers Hf. pose proof Ho as [[Hc Hst] _]%Forall_cons. unfold scanRangeAt. rewrite Hc, Hst. cbn [orb].
  assert (Forall2 moved (t :: parents) (t :: parents)) as Hrefl by (by apply Forall_Forall2_diag, Forall_true).
  unfold scan_layers. destruct (key space []) as [p|e] eqn:Ep; cbn [rbind]; [|rewrite Hst; eexists _, _, _; split_and!; [done|done|done|by do 3 right; left]].
  destruct (key space (raw (rg_Lower r))) as [?|e] eqn:El; cbn [rbind]; [|rewrite Hst; eexists _, _, _; split_and!; [done|done|done|by do 4 right; left]].
  destruct (key space (raw (rg_Upper r))) as [?|e] eqn:Eu; cbn [rbind]; [|rewrite Hst; eexists _, _, _; split_and!; [done|done|done|by do 5 right]].
  apply key_ok in Ep as (-> & _ & Hz & _). change ([x00] ++ []) with [x00].
  pose proof (open_layers_spec space r inv (steady_clock revision log keys) (t :: parents) s Hok Ho) as Hopen.
  destruct (open_layers prefix r (t :: parents) s) as [[layers s1] [readers|e]]; destruct Hopen as (Hclock & Hm & Hopen);
    pose proof (steady_clock _ _ _ _ _ Hclock Hs) as Hs1; [|rewrite (proj2 (open_clock t s s1 Hclock (conj Hc Hst))); eexists _, _, _; split_and!; [done|done|done|by right; left]].
  destruct Hopen as (srcs & Hread & Hlen & Hres). pose (store_source := mkSource keys (row_at space r revision log)).
  cbv zeta. set (reader := (fun after s => range_page revision prefix r after (others s)) : page_reader).
  pose proof (store_reads others s1 Hothers Hs1) as Hstore. fold reader store_source in Hstore.
  assert (Forall2 (reads_source space r inv) (readers ++ [reader]) (srcs ++ [store_source])) as Hread'
    by (apply Forall2_app; [done|by constructor]).
  assert (total_keys (srcs ++ [store_source]) < fuel)%nat as Hfuel.
  { rewrite total_keys_snoc. cbn [src_keys store_source]. lia. }
  destruct (scan_iterators space r inv (steady_clock revision log keys) _ _ fuel s1 Hread' Hs1 Hfuel) as (s2 & res & -> & Hs2 & Hrows).
  destruct (stale t s2) eqn:Hst2; (eexists _, _, _; split_and!; [done|done|done|]); [by right; right; left|]. destruct res as [rows|e]; [|by left].
  destruct Hrows as [Hsorted Hmem]. split; [done|]. intros k v. rewrite Hmem, <- (resolved (t :: parents) s k v) by done.
  assert (resolve (src_rows <$> (srcs ++ [store_source])) k =
    match (if Contains r k then write_entry k <$> layered_write (t :: parents) (prefix ++ k) else None) with
    | Some w => Some w
    | None => row_at space r revision log (prefix ++ k)
    end) as Hresolve; [|by rewrite Hresolve].
  rewrite fmap_app, resolve_app, Hres. destruct (if Contains r k then _ else _); [done|]. cbn [fmap list_fmap resolve].
  rewrite (find_row space r inv reader store_source k Hstore). cbn [src_row store_source].
  destruct (row_at space r revision log (prefix ++ k)) as [e|] eqn:Er; [|done]. by apply row_at_spec in Er as (_ & _ & _ & -> & _).
Qed.
End Properties.

(** ** A child over its parent over a store in which a commit arrives *)

#[local] Existing Instance calm.
#[local] Existing Instance prefix_codec.
#[local] Existing Instance free_locks.
#[local] Existing Instance small_budget.

Lemma layered_scan_exact_witness :
  exists layers s', scanRangeAt meanwhile collect child_tx [parent_tx] (str "t") all_rows 1 8 [] young_store =
      (layers, s', Some (Ok [(str "row", str "a"); (str "b", str "3")])) /\
    ReadAt 1 [child_tx; parent_tx] young_store (str "t") (str "row") = Ok (str "a", true).
Proof.
  destruct family_ok as (Hc & Hp & _).
  destruct (layered_scan_exact (str "t") all_rows 1 first_commit [row_key] ltac:(unfold is_u64; lia) ltac:(constructor; constructor) ltac:(discriminate)
    meanwhile child_tx [parent_tx] young_store 8) as (layers & s' & res & E & _ & _ & Hres).
  - rewrite !Forall_cons. split_and!; [exact Hc|exact Hp|constructor].
  - rewrite !Forall_cons. split_and!; [split; vm_compute; reflexivity|split; vm_compute; reflexivity|constructor].
  - exact young_steady.
  - intros s _. exact (meanwhile_steady s).
  - vm_compute. lia.
  - assert (forall p, p = scanRangeAt meanwhile collect child_tx [parent_tx] (str "t") all_rows 1 8 [] young_store ->
      p.2 = Some (Ok [(str "row", str "a"); (str "b", str "3")])) as Hcomp by (intros p ->; vm_compute; reflexivity).
    specialize (Hcomp (layers, s', Some res) (eq_sym E)). cbn [snd] in Hcomp. assert (res = Ok [(str "row", str "a"); (str "b", str "3")]) as -> by congruence.
    exists layers, s'. split; [exact E|]. apply Hres. left.
Defined.
