(* ===== verification/CurrentRead.v ===== *)
(** * Locked current reads and the baselines they leave: [mvcc/current_read.go]

    A locked read sees the newest published version of a key, under the writes of the transaction and
    its ancestors, and records the version it saw: a later write of the key is validated against that
    version instead of the snapshot. *)

From stdpp Require Import gmap list sorting strings fin_maps.
From Stdlib Require Import Strings.Byte.
From S2P Require Import Prelude LockTypes Interval Resource Compat Queue Manager TxnState TxnManager Bolt Keys Versions Conflict Store WriteSet.

Inductive CurrentObservationSource : Type :=
  | CurrentAbsent
  | CurrentCommitted
  | CurrentOwnOverlay.

Record CurrentObservation : Type := mkObservation {
  ob_Value : bytes;
  ob_Exists : bool;
  ob_Tombstone : bool;
  ob_ChangeTS : Z;
  ob_HasChange : bool;
  ob_Source : CurrentObservationSource
}.

Definition maxObservationBaselines : Z := 16384.

(** ** The grant ([verifyGrantForRead]) *)

(** What the lock registry of the store is at each moment; other roots change it all the time. [None]
    when the store has no lock manager. *)
Class Registry : Type := { lock_registry : nat -> option manager }.

Definition readCoveringMode (m : Mode) : bool := bool_decide (m = ModeS) || bool_decide (m = ModeX).

Definition covers_read (space rowKey : bytes) (component : ResourceRef) : bool :=
  bool_decide (Kind component = KindRecord) && readCoveringMode (mode component) &&
  bool_decide (Space component = space) && bool_decide (raw (Key component) = rowKey).

Definition readCoveringComponent (grant : LockGrant) (space rowKey : bytes) : option ResourceRef :=
  head (filter (covers_read space rowKey) (GrantComponents grant)).

Definition verify_grant (registry : option manager) (ownerID : bytes) (grant : LockGrant) (space rowKey : bytes) : result mvcc_error unit :=
  match registry with
  | None => Err ErrClosed
  | Some m =>
      if bool_decide (ownerID = []) || negb (bool_decide (GrantOwnerID grant = ownerID)) then Err ErrConflict
      else
        match Manager.Owner m ownerID with
        | None => Err ErrConflict
        | Some owner =>
            if negb (GrantGeneration grant =? OwnerGeneration owner) || negb (GrantTerm grant =? OwnerTerm owner) then Err ErrConflict
            else
              match readCoveringComponent grant space rowKey with
              | None => Err ErrConflict
              | Some component =>
                  match HeldMode m ownerID component with
                  | Some held => if readCoveringMode held then Ok tt else Err ErrConflict
                  | None => Err ErrConflict
                  end
              end
        end
  end.

Section Current.
Context `{Bolt} `{GuardCodec} `{Env} `{Locking} `{Registry} `{MapRange}.

(** Grants belong to the root. *)
Definition LockOwnerID (t : Tx) (parents : list Tx) : bytes := t_ID (default t (last parents)).

Definition overlayObservation (op : Op) : CurrentObservation :=
  if op_Check op then mkObservation [] false false 0 false CurrentAbsent
  else mkObservation (op_Value op) (negb (op_Delete op)) (op_Delete op) 0 false CurrentOwnOverlay.

(** [Store.latestPublished] *)
Definition latestPublished (s : Store) (space rowKey : bytes) : result mvcc_error reading := Store_Get s u64_max space rowKey.

Definition publishedObservation (r : reading) : CurrentObservation :=
  let '(value, version, exists_) := r in
  mkObservation value exists_ (negb exists_ && negb (version =? 0)) version (negb (version =? 0)) CurrentCommitted.

(** [Tx.readCurrent] of the innermost of the layers. *)
Fixpoint readCurrent (layers : list Tx) (s : Store) (space rowKey : bytes) : result mvcc_error CurrentObservation :=
  match layers with
  | [] => Err ErrClosed
  | t :: parents =>
      let below :=
        match parents with
        | [] => let* r := latestPublished s space rowKey in Ok (publishedObservation r)
        | _ => readCurrent parents s space rowKey
        end in
      let* op := readOp t space rowKey in
      match op with
      | Some op => if op_Check op then below else Ok (overlayObservation op)
      | None => below
      end
  end.

(** [RecordObservationBaseline], and [recordWriteBaseline] with the version of an observation. *)
Definition RecordObservationBaseline (space rowKey : bytes) (version : Z) (t : Tx) : Tx :=
  match key space rowKey with
  | Err _ => t
  | Ok k =>
      if t_closed t then t
      else match t_writeBaseline t !! k with
      | Some current => if version <? current then t else t <| t_writeBaseline ::= <[k := version]> |>
      | None =>
          if maxObservationBaselines <=? Z.of_nat (size (t_writeBaseline t)) then t <| t_baselineRejections ::= add64 1 |>
          else t <| t_writeBaseline ::= <[k := version]> |>
      end
  end.

Definition recordWriteBaseline (space rowKey : bytes) (o : CurrentObservation) : Tx -> Tx :=
  RecordObservationBaseline space rowKey (ob_ChangeTS o).

Definition verifyGrantForRead (ownerID space rowKey : bytes) (grant : LockGrant) : action unit := fun s =>
  (s <| s_clock ::= S |>, verify_grant (lock_registry (s_clock s)) ownerID grant space rowKey).

Definition ReadCurrentLocked (t : Tx) (parents : list Tx) (space rowKey : bytes) (grant : LockGrant) (s : Store)
    : Tx * Store * result mvcc_error CurrentObservation :=
  let verify := verifyGrantForRead (LockOwnerID t parents) space rowKey grant in
  let '(s, r) :=
    (let! _ := returns (checkOpen t s) in
     let! _ := check_ctx in
     let! _ := verify in
     let! o := (fun s => returns (readCurrent (t :: parents) s space rowKey) s) in
     let! _ := verify in
     done o) s in
  match r with
  | Err e => (t, s, Err e)
  | Ok o => (recordWriteBaseline space rowKey o t, s, Ok o)
  end.

Definition ReadCurrentUnlocked (t : Tx) (parents : list Tx) (space rowKey : bytes) : action CurrentObservation := fun s =>
  (let! _ := returns (checkOpen t s) in
   let! _ := check_ctx in
   (fun s => returns (readCurrent (t :: parents) s space rowKey) s)) s.

(** ** The baselines at the commit *)

Definition writeBaselineFor (t : Tx) (logicalKey : bytes) : option Z :=
  if bool_decide (logicalKey ∈ t_guardedKeys t) then None else t_writeBaseline t !! logicalKey.

Definition baselineLookup (t : Tx) : option (bytes -> option Z) :=
  if bool_decide (t_writeBaseline t = ∅) then None else Some (writeBaselineFor t).

Definition HasWriteBaseline (t : Tx) : bool :=
  existsb (fun kv : bytes * Z => bool_decide (kv.1 ∉ t_guardedKeys t)) (range 0 (t_writeBaseline t)).
End Current.
