(* ===== verification/RootCommit.v ===== *)
(** * The commit of a root: [mvcc/local_commit.go], [mvcc/local_stream.go], [mvcc/transaction.go]

    A root whose writes fit one chunk commits them as a request of the bounded path; a larger one
    streams its frozen stage: every version is installed before the marker that publishes them.  When
    the proposer is not the store itself, the writes are staged through it in chunks instead. *)

From stdpp Require Import gmap list sorting strings fin_maps.
From Stdlib Require Import Strings.Byte.
From S2P Require Import Prelude TxnState TxnManager Bolt Keys Versions Conflict Store Wal Group WriteSet CurrentRead.

Definition errLocalBatchFull : mvcc_error := ErrOther "local atomic batch full".
Definition errBaselineNeedsLocalValidation : mvcc_error :=
  ErrOther "a locked current read with a recorded observation must be validated locally".

(** ** Streaming ([commitLocalStream]) *)

Section Stream.
Context `{Bolt} `{GuardCodec} `{Env} `{Digest} `{Locking} `{StoreOptions} `{MapRange}.

(** Validates every dependency of the frozen stage. *)
Fixpoint validate_entries (v : conflictValidator (list cacheEntry)) (cache : list cacheEntry) (l : list (bytes * bytes)) : action unit :=
  match l with
  | [] => done tt
  | (k, encoded) :: l =>
      let! _ := check_ctx in
      let! _ := returns (stagedOpHeader k encoded) in
      let '(cache, verdict) := cv_validateKey v cache k in
      let! _ := returns verdict in
      validate_entries v cache l
  end.

(** The frames of the stage. *)
Fixpoint stream_wal_ops (l : list (bytes * bytes)) (w : localWALWriter) : action localWALWriter :=
  match l with
  | [] => done w
  | (k, v) :: l =>
      let! _ := check_ctx in
      let! w := returns (wal_op w k v) in
      stream_wal_ops l w
  end.

Definition stream_wal (index : Z) (id : bytes) (l : list (bytes * bytes)) (w : localWALWriter) : action localWALWriter :=
  let! w := returns (wal_begin w index id) in
  let! w := stream_wal_ops l w in
  returns (frame w [walEnd]).

(** The versions waiting for the next database transaction. *)
Record stream_batch : Type := mkBatch {
  sb_batch : list (bytes * bytes);
  sb_size : Z;
  sb_catalog : bool
}.

Definition batch_catalog (batch : list (bytes * bytes)) : bool :=
  existsb (fun e : bytes * bytes => negb (staged_check e.2) && has_prefix catalog_prefix e.1) batch.

Definition stream_flush (index : Z) (st : stream_batch) : action stream_batch :=
  if bool_decide (sb_batch st = []) then done st
  else
    let! _ := check_ctx in
    let! _ := update (fun d =>
      let d := if meta_number meta_allocated d <? index then put_meta meta_allocated index d else d in
      let! d := returns (install_batch index (sb_batch st) d) in
      done (d, tt)) in
    done (mkBatch [] 0 (sb_catalog st || batch_catalog (sb_batch st))).

Definition stream_cost (k v : bytes) : Z := blen k - 1 + blen v - 2 + 64.

Fixpoint stream_entries (index : Z) (l : list (bytes * bytes)) (st : stream_batch) : action stream_batch :=
  match l with
  | [] => stream_flush index st
  | (k, v) :: l =>
      let! _ := check_ctx in
      let! st := (if localInstallBytes <? sb_size st + stream_cost k v then stream_flush index st else done st) in
      stream_entries index l (mkBatch (sb_batch st ++ [(k, v)]) (sb_size st + stream_cost k v) (sb_catalog st))
  end.

(** Without the log: the versions in bounded transactions, then the marker. *)
Definition stream_direct (index : Z) (id : bytes) (l : list (bytes * bytes)) : action Z :=
  let! st := stream_entries index l (mkBatch [] 0 false) in
  let! _ := check_ctx in
  let! _ := update (fun d => let! d := returns (publishCommit d id index (sb_catalog st)) in done (d, tt)) in
  done index.

Definition stream_logged (index : Z) (id : bytes) (l : list (bytes * bytes)) : action Z :=
  let! _ := writeLocalWAL check_ctx (stream_wal index id l) in
  let! _ := (fun s => let '(s, r) := recoverLocalWAL s in (failLocalWAL r s, r)) in
  done index.

Definition stream_validator (t : Tx) (d : db) : conflictValidator (list cacheEntry) :=
  withBaseline (newConflictValidator (t_Snapshot t) (newViewChangeLookup d)) (baselineLookup t).

(** The stage exists: what is streamed was too large for the buffer alone. *)
Definition stream_frozen (t : Tx) : action Z :=
  let l := from_option b_entries [] (t_stage t) in
  let! _ := (fun s => validate_entries (stream_validator t (s_db s)) empty_cache l s) in
  let! index := nextSequence in
  (fun s => (if s_localWAL s then stream_logged index (t_ID t) l else stream_direct index (t_ID t) l) s).

(** The errors that do not fail the store. *)
Definition harmless (e : mvcc_error) : bool :=
  match e with
  | ErrConflict | ErrCanceled | ErrSequenceExhausted => true
  | _ => false
  end.

Definition commitLocalStream : tx_action Z := fun t s =>
  (let@ _ := on_store check_ctx in
   let@ _ := (fun t s => (t, s, if stale t s then Err ErrConflict else Ok tt)) in
   let@ _ := on_store check_available in
   let@ _ := flushWrites in
   (fun t s =>
      let '(s, r) := stream_frozen t s in
      (t, match r with Err e => if harmless e then s else fail_store e s | Ok _ => s end, r))) t s.
End Stream.

(** ** The bounded path *)

(** Whose requests the same goroutine commits before ours, and those that share our group: none when
    the caller commits alone. *)
Record company : Type := mkCompany {
  co_earlier : list (list localCommitRequest);
  co_ahead : list localCommitRequest;
  co_behind : list localCommitRequest
}.

Definition alone : company := mkCompany [] [] [].

Section Commit.
Context `{Bolt} `{GuardCodec} `{Env} `{Digest} `{Locking} `{StoreOptions} `{MapRange}.

Definition answer (r : localCommitRequest) : result mvcc_error Z :=
  match q_err r with Some e => Err e | None => Ok (q_index r) end.

Definition tx_request (t : Tx) (ops : list Op) : localCommitRequest :=
  newRequest (t_generation t) (t_Snapshot t) (t_ID t) ops (baselineLookup t).

Definition commitLocalFromTx (w : company) (t : Tx) (ops : list Op) : action Z := fun s =>
  match validateCommand (mkCommand "" (t_ID t) 0 ops [] 0 0) with
  | Err e => (s, Err e)
  | Ok _ =>
      let r := tx_request t ops in
      let '(s, answers) := commit_groups (co_earlier w ++ [co_ahead w ++ r :: co_behind w]) s in
      (s, answer (nth (length (mjoin (co_earlier w)) + length (co_ahead w)) answers r))
  end.

Definition collect_op (op : Op) (acc : list Op * Z) (s : Store) : (list Op * Z) * Store * result mvcc_error unit :=
  if MaxChunkBytes <? acc.2 + op_bytes op then (acc, s, Err errLocalBatchFull)
  else ((acc.1 ++ [op], acc.2 + op_bytes op), s, Ok tt).

(** [None]: not handled here, the proposer is not the store. *)
Definition tryLocalCommit (w : company) (local : bool) : tx_action (option Z) := fun t s =>
  if negb local then
    (t, s, if HasWriteBaseline t then Err errBaselineNeedsLocalValidation else Ok None)
  else
    match WalkWrites collect_op t ([], 0) s with
    | (t, _, s, Err e) =>
        if decide (e = errLocalBatchFull) then let '(t, s, r) := commitLocalStream t s in (t, s, let* n := r in Ok (Some n))
        else (t, s, Err e)
    | (t, (ops, _), s, Ok _) =>
        if bool_decide (ops = []) then (t, s, Ok (Some (t_Snapshot t)))
        else let '(s, r) := commitLocalFromTx w t ops s in (t, s, let* n := r in Ok (Some n))
    end.

(** ** The staged path *)

(** What the proposer does to the store; [None] is the store itself. *)
Definition proposer : Type := option (Command -> action Result).

Definition proposed (m : action Result) : action Z :=
  let! r := m in
  returns (match res_Error r with Some e => Err e | None => Ok (res_Sequence r) end).

(** The chunk, its size, and how many operations were walked. *)
Definition stage_flush (propose : Command -> action Result) (t : Tx) (batch : list Op) : action unit :=
  if bool_decide (batch = []) then done tt
  else let! _ := proposed (propose (mkCommand "stage" (t_ID t) (t_Snapshot t) batch [] 0 0)) in done tt.

Definition stage_op (propose : Command -> action Result) (t : Tx) (op : Op) (acc : list Op * Z * Z) (s : Store)
    : (list Op * Z * Z) * Store * result mvcc_error unit :=
  let '(batch, size, count) := acc in
  if MaxChunkBytes <? size + op_bytes op then
    match stage_flush propose t batch s with
    | (s, Err e) => (([], 0, count), s, Err e)
    | (s, Ok _) => (([op], op_bytes op, count + 1), s, Ok tt)
    end
  else ((batch ++ [op], size + op_bytes op, count + 1), s, Ok tt).

Definition staged_writes (propose : Command -> action Result) : tx_action (Z * bool) := fun t s =>
  match WalkWrites (stage_op propose t) t ([], 0, 0) s with
  | (t, _, s, Err e) => (t, s, Err e)
  | (t, (batch, _, count), s, Ok _) =>
      (let@ _ := on_store (stage_flush propose t batch) in
       if count =? 0 then tx_done (t_Snapshot t, false)
       else
         let@ n := on_store (proposed (propose (mkCommand "commit" (t_ID t) (t_Snapshot t) [] [] 0 0))) in
         tx_done (n, true)) t s
  end.

(** An attempt that failed withdraws what it staged, whatever becomes of that. *)
Definition publish_staged (propose : Command -> action Result) : tx_action (Z * bool) := fun t s =>
  match staged_writes propose t s with
  | (t, s, Err e) => (t, (propose (mkCommand "abort" (t_ID t) 0 [] [] 0 0) s).1, Err e)
  | r => r
  end.

(** The sequence, and whether a marker publishes it. *)
Definition publish (w : company) (p : proposer) : tx_action (Z * bool) :=
  let@ n := tryLocalCommit w (if p then false else true) in
  match n, p with
  | None, Some propose => publish_staged propose
  | None, None => tx_done (0, false)
  | Some n, _ => tx_done (n, true)
  end.

(** ** Ending a root *)

Definition hasWriteSet (t : Tx) : bool :=
  negb (bool_decide (t_stage t = None)) || negb (bool_decide (t_buffered t = ∅)) || negb (t_stagedBytes t =? 0).

Definition committed_with (n : Z) : TransitionOptions := mkTransitionOptions n true false [].

Definition conflicting (e : mvcc_error) : TransitionOptions :=
  mkTransitionOptions 0 false (bool_decide (e = ErrConflict)) (abortReason e).

Definition commitRoot (w : company) (p : proposer) : tx_action Z := fun t s =>
  match canStillCommit t s with
  | Err e => (finish TransactionAborted (because (abortReason e)) t s, s, Err e)
  | Ok _ =>
      if negb (hasWriteSet t) then (finish TransactionCommitted (because []) t s, s, Ok (t_Snapshot t))
      else
        match publish w p (applyTransition TransactionCommitting (because []) t) s with
        | (t, s, Ok (n, true)) => (finish TransactionCommitted (committed_with n) t s, s, Ok n)
        | (t, s, Ok (n, false)) => (finish TransactionCommitted (because []) t s, s, Ok n)
        | (t, s, Err e) => (finish TransactionAborted (conflicting e) t s, s, Err e)
        end
  end.

(** [Tx.Commit] of a transaction and of the parent it has, if any. *)
Definition Commit (w : company) (p : proposer) (t : Tx) (parent : option Tx) (s : Store) : Tx * option Tx * Store * result mvcc_error Z :=
  if stale t s then (finish TransactionAborted (because (str "generation change")) t s, parent, s, Err ErrConflict)
  else if t_closed t then (t, parent, s, Err (if deadlockAborted t s then ErrDeadlock else ErrClosed))
  else
    match parent with
    | Some parent => let '(t, parent, s, r) := commitChild t parent s in (t, Some parent, s, r)
    | None => let '(t, s, r) := commitRoot w p t s in (t, None, s, r)
    end.
End Commit.
