(* ===== verification/StreamSteps.v ===== *)
(** * Streaming a large commit: what a crash or a failure leaves *)

From stdpp Require Import gmap list sorting strings fin_maps.
From Stdlib Require Import Strings.Byte.
From S2P Require Import Prelude TxnState TxnManager Bolt Keys Versions Visibility Layouts Conflict Store CommitLog Wal Group GroupSteps WalCodec WalFile WalRecover WalGroup WriteSet WriteSetInv WriteSetSteps WriteSetMerge CurrentRead RootCommit.

Section Stream.
Context `{BoltLaws} `{GuardCodec} `{Env} `{Digest} `{!DigestLaws} `{Locking} `{StoreOptions} `{MapRange}.

(** ** The operations of a stage *)

Definition staged_op (op : Op) : Prop := keyed op /\ stageable op = true /\ client_op op.

Lemma entries_ops l : entries_good l -> exists ops, l = staged <$> ops /\ Forall staged_op ops /\ NoDup (raw_key <$> ops).
Proof.
  intros [Hnd Hl]. induction l as [|[k v] l IH]; [by exists []|]. apply Forall_cons in Hl as [(op & Hk & Hs & Hc & Ev) Hl].
  cbn [fmap list_fmap fst snd] in *. subst v. apply NoDup_cons in Hnd as [Hn Hnd]. destruct (IH Hnd Hl) as (ops & -> & Ho & Hnd').
  pose proof (key_raw op k Hk) as ->. exists (op :: ops). split; [done|]. split; [by constructor|]. constructor; [|done].
  intros Hin. apply Hn. by rewrite <- list_fmap_compose.
Qed.

Lemma staged_op_plain ops : Forall staged_op ops -> Forall plain_op ops /\ Forall keyed ops.
Proof.
  intros Ho. split; (eapply Forall_impl; [exact Ho|]); intros op (Hk & _ & Hc); [|done]. unfold plain_op, client_op in *.
  intros E. by rewrite E in Hc.
Qed.

(** They write what the map of the entries says. *)
Lemma written_entries ops k :
  Forall staged_op ops -> NoDup (raw_key <$> ops) ->
  written k ops = version_value <$> write_of (list_to_map (staged <$> ops)) k.
Proof.
  intros Ho Hnd. induction ops as [|op ops IH]; [done|]. apply Forall_cons in Ho as [(Hk & Hs & _) Ho].
  cbn [fmap list_fmap] in Hnd. apply NoDup_cons in Hnd as [Hn Hnd]. specialize (IH Ho Hnd).
  rewrite (written_app k [op] ops : written k (op :: ops) = _), IH, written_one. unfold writes_key. rewrite Hk.
  cbn [fmap list_fmap list_to_map foldr staged fst snd].
  change (foldr (fun p => <[p.1:=p.2]>) ∅ (staged <$> ops)) with (list_to_map (staged <$> ops) : gmap bytes bytes).
  destruct (decide (raw_key op = k)) as [<-|Hne].
  - rewrite bool_decide_eq_true_2, andb_true_r by done.
    rewrite (write_of_good op (raw_key op) (<[_ := _]> _)) by (done || apply lookup_insert_eq).
    assert (write_of (list_to_map (staged <$> ops)) (raw_key op) = None) as ->.
    { unfold write_of. rewrite not_elem_of_list_to_map_1; [done|]. by rewrite <- list_fmap_compose. }
    cbn. by destruct (op_Check op).
  - rewrite bool_decide_eq_false_2, andb_false_r by done.
    assert (write_of (<[raw_key op := encodeStagedOp op]> (list_to_map (staged <$> ops))) k = write_of (list_to_map (staged <$> ops)) k) as ->
      by (unfold write_of; by rewrite lookup_insert_ne).
    by destruct (write_of _ k).
Qed.

(** ** Validation *)

Lemma validate_entries_spec t d ops : forall cache s,
  db_wf d -> data_plain d -> cache_ok d cache -> Forall staged_op ops ->
  let '(s', r) := validate_entries (stream_validator t d) cache (staged <$> ops) s in
  only_clock s s' /\
  (r = Ok tt -> Forall (fun op => latest_change d (raw_key op) <= entitled (baselineLookup t) (t_Snapshot t) (raw_key op)) ops).
Proof.
  intros cache s Hw Hp Hc Ho. revert cache s Hc. induction ops as [|op ops IH]; intros cache s Hc; cbn [fmap list_fmap validate_entries staged].
  { split; [apply only_clock_refl|done]. }
  apply Forall_cons in Ho as [(Hk & Hs & _) Ho]. unfold then_do at 1. pose proof (check_ctx_clock s) as Hc1.
  destruct (check_ctx s) as [s1 [a|e]]; cbn [fst] in Hc1; [|done].
  rewrite (stage_header op (raw_key op)) by done. unfold then_do at 1, returns at 1.
  destruct (validateKey_ok (cache_ok d) (newViewChangeLookup d) (latest_change d) ltac:(intros; by apply view_lookup_ok)
    (t_Snapshot t) (baselineLookup t) cache (raw_key op) Hc) as [Hc2 Hv].
  change (withBaseline _ _) with (stream_validator t d) in Hc2, Hv.
  destruct (cv_validateKey (stream_validator t d) cache (raw_key op)) as [cache' v]. cbn [fst snd] in Hc2, Hv. subst v.
  unfold then_do at 1, returns at 1. destruct (Z.ltb_spec (entitled (baselineLookup t) (t_Snapshot t) (raw_key op)) (latest_change d (raw_key op))) as [|Hle]; [done|].
  specialize (IH Ho cache' s1 Hc2). destruct (validate_entries _ cache' _ s1) as [s2 r]. destruct IH as [Hc3 Hr].
  split; [by eapply only_clock_trans|]. intros E. constructor; [done|by apply Hr].
Qed.

(** ** The frames of the stage *)

Lemma stream_wal_ops_spec ops : forall w s,
  Forall staged_op ops ->
  only_clock s (stream_wal_ops (staged <$> ops) w s).1 /\
  forall w', (stream_wal_ops (staged <$> ops) w s).2 = Ok w' -> wal_write_ops ops w = Ok w'.
Proof.
  induction ops as [|op ops IH]; intros w s Ho; cbn [fmap list_fmap stream_wal_ops staged wal_write_ops]; [by split; [apply only_clock_refl|]|].
  apply Forall_cons in Ho as [(Hk & _ & _) Ho]. rewrite Hk. cbn [rbind]. unfold then_do at 1 3. pose proof (check_ctx_clock s) as Hc1.
  destruct (check_ctx s) as [s1 [a|e]]; cbn [fst] in Hc1; [|done]. unfold then_do, returns.
  destruct (wal_op w (raw_key op) (encodeStagedOp op)) as [w1|e]; cbn [rbind]; [|done].
  destruct (IH w1 s1 Ho) as [Hc2 Hw]. split; [by eapply only_clock_trans|done].
Qed.

Lemma stream_wal_produces index id ops :
  is_u64 index -> Forall staged_op ops -> produces [mkCommit index id ops] (stream_wal index id (staged <$> ops)).
Proof.
  intros Hi Ho w s. pose proof (wal_write_commit_wrote (mkCommit index id ops) w) as Hw. cbn [c_index c_id c_ops] in Hw.
  unfold stream_wal, then_do, returns. destruct (wal_begin w index id) as [w1|e]; cbn [fst snd rbind] in *; [|by split; [apply only_clock_refl|]].
  destruct (stream_wal_ops_spec ops w1 s Ho) as [Hc Hops]. destruct (stream_wal_ops _ w1 s) as [s1 [w2|e]]; cbn [fst snd] in *; [|done].
  split; [done|]. intros w' Ef. specialize (Hw w' Hi). rewrite (Hops w2 eq_refl) in Hw. cbn [rbind] in Hw. apply Hw in Ef as [He ->].
  split; [by constructor|]. unfold payloads. cbn [fmap list_fmap mjoin list_join]. by rewrite app_nil_r.
Qed.
End Stream.

(** ** Installing a stream, and the commit it ends in *)

(** ** Actions that leave the log as it is when they fail *)

Section Keeps.
Context `{BoltLaws} `{GuardCodec} `{Env} `{Digest} (h : Z) (log : list commit).

(** Every state the disk goes through stands for the log; so does the store a failure leaves. *)
Definition keeps {A} (m : action A) (s : Store) (Q : Store -> A -> Prop) : Prop :=
  let '(s', r) := m s in
  (exists more, s_trace s' = more ++ s_trace s /\ Forall (disk_stands h log) more) /\
  match r with Ok a => Q s' a | Err _ => recovered h log s' end.

Lemma keeps_done {A} (a : A) s (Q : Store -> A -> Prop) : Q s a -> keeps (done a) s Q.
Proof. intros HQ. split; [by exists []|done]. Qed.

Lemma keeps_bind {A B} (m : action A) (k : A -> action B) s (Q1 : Store -> A -> Prop) (Q : Store -> B -> Prop) :
  keeps m s Q1 -> (forall s' a, Q1 s' a -> keeps (k a) s' Q) -> keeps (then_do m k) s Q.
Proof.
  unfold keeps, then_do. destruct (m s) as [s1 [a|e]]; [|done]. intros ((m1 & Ht1 & Hm1) & HQ1) Hk. specialize (Hk s1 a HQ1).
  destruct (k a s1) as [s2 r]. destruct Hk as ((m2 & Ht2 & Hm2) & HQ). split; [|done].
  exists (m2 ++ m1). rewrite Ht2, Ht1, app_assoc. split; [done|]. by apply Forall_app.
Qed.

Lemma keeps_mono {A} (m : action A) s (Q Q' : Store -> A -> Prop) : keeps m s Q -> (forall s' a, Q s' a -> Q' s' a) -> keeps m s Q'.
Proof. unfold keeps. destruct (m s) as [s' [a|e]]; naive_solver. Qed.

Lemma recovered_clock s s' : only_clock s s' -> recovered h log s -> recovered h log s'.
Proof. by intros [n ->]. Qed.

Lemma keeps_quiet {A} (m : action A) s (Q : Store -> A -> Prop) :
  recovered h log s -> only_clock s (m s).1 -> (forall s' a, m s = (s', Ok a) -> only_clock s s' -> Q s' a) -> keeps m s Q.
Proof.
  intros Hr Hc HQ. unfold keeps. destruct (m s) as [s' r]. cbn [fst] in Hc. split.
  - exists []. split; [by destruct Hc as [n ->]|constructor].
  - destruct r as [a|e]; [by apply HQ|by apply (recovered_clock s)].
Qed.

Lemma keeps_ctx s (Q : Store -> unit -> Prop) :
  recovered h log s -> (forall s', only_clock s s' -> Q s' tt) -> keeps check_ctx s Q.
Proof. intros Hr HQ. apply keeps_quiet; [done|apply check_ctx_clock|]. intros s' [] _ Hc. by apply HQ. Qed.

(** One database transaction, of a closure that succeeds and does not touch the store. *)
Lemma keeps_update {A} (f : db -> action (db * A)) s d a (Q : Store -> A -> Prop) :
  f (s_db s) s = (s, Ok (d, a)) -> recovered h log s -> disk_stands h log (d, s_wal s) ->
  (forall s', with_db d s s' -> Q s' a) -> keeps (update f) s Q.
Proof.
  intros Hf Hr Hd HQ. unfold keeps, update, then_do, check_io, set_db, done. rewrite Hf. cbn [fst snd].
  destruct (io_err (s_clock s)) as [e|].
  - split; [by exists []|]. apply (recovered_clock s); [by eexists|done].
  - split; [|by apply HQ]. exists [(d, s_wal s)]. split; [done|by constructor].
Qed.
End Keeps.

(** ** Without the log *)

Section Direct.
Context `{BoltLaws} `{GuardCodec} `{Env} `{Digest} `{!DigestLaws} `{Locking} `{StoreOptions} `{MapRange}.
Context (h : Z) (log : list commit) (d0 : db) (seq n : Z) (id : bytes) (ops : list Op).
Context (Hrep : represents h d0 log seq) (Hseq : seq < n) (Hu : is_u64 n) (Hid : id <> []) (Hid8 : length id <> 8%nat).
Context (Hops : Forall staged_op ops).

(** The versions of [flushed] are installed, none is published. *)
Record streaming (flushed : list Op) (s : Store) : Prop := {
  sg_durable : durable h (s_db s) log;
  sg_installed : installed n flushed d0 (s_db s);
  sg_clean : clean (s_wal s);
  sg_identity : length (wal_identity (s_db s)) = 32%nat;
  sg_sequence : s_localSeq s = n
}.

Lemma streaming_recovered flushed s : streaming flushed s -> recovered h log s.
Proof.
  intros [Hd Hi Hc Hl E]. unfold recovered. rewrite E. split_and!; [done|done| |done]. by apply (represents_installed h d0 log seq n flushed).
Qed.

Lemma streaming_clock flushed s s' : only_clock s s' -> streaming flushed s -> streaming flushed s'.
Proof. intros [m ->] []. by constructor. Qed.

Lemma streaming_disk flushed s : streaming flushed s -> disk_stands h log (disk_of s).
Proof. intros Hs. by eapply recovered_disk, streaming_recovered. Qed.

Definition mark_allocated (d : db) : db := if meta_number meta_allocated d <? n then put_meta meta_allocated n d else d.

Lemma mark_allocated_spec d : sound_db d -> installed n [] d (mark_allocated d) /\ n <= opening_sequence (mark_allocated d).
Proof.
  intros Hd. unfold mark_allocated. destruct (Z.ltb_spec (meta_number meta_allocated d) n).
  - split; [by apply put_meta_allocated; [|lia|]|by apply opening_allocated].
  - split; [by apply installed_nil|]. unfold opening_sequence. lia.
Qed.

(** A flush installs the batch in one transaction. *)
Lemma flush_keeps flushed batched rest s st :
  ops = flushed ++ batched ++ rest -> sb_batch st = staged <$> batched -> streaming flushed s ->
  keeps h log (stream_flush n st) s (fun s' st' => streaming (flushed ++ batched) s' /\ sb_batch st' = []).
Proof.
  intros Ho Hb Hs. unfold stream_flush. case_bool_decide as Hn.
  { apply keeps_done. split; [|done]. rewrite Hb in Hn. apply fmap_nil_inv in Hn. subst batched. by rewrite app_nil_r. }
  apply (keeps_bind h log _ _ _ (fun s' _ => streaming flushed s')).
  { apply keeps_ctx; [by eapply streaming_recovered|]. intros s' Hc. by apply (streaming_clock _ s). }
  clear s Hs. intros s _ Hs. rewrite Hb. destruct (mark_allocated_spec (s_db s)) as [I1 Hop]; [apply (sg_installed _ _ Hs)|].
  pose proof Hops as Hops'. rewrite Ho, !Forall_app in Hops'. destruct (staged_op_plain batched) as [Hp Hk]; [tauto|].
  destruct (install_batch_spec n batched (mark_allocated (s_db s))) as (d & Hib & I2); [done|apply I1|done|done|].
  assert (installed n (flushed ++ batched) d0 d) as I3.
  { pose proof (installed_app n _ _ _ _ _ (sg_installed _ _ Hs) I1) as I3. rewrite app_nil_r in I3. by eapply installed_app. }
  assert (n <= opening_sequence d) as Hop2 by (pose proof (rest_kept_opening _ _ (in_rest _ _ _ _ I2)); lia).
  assert (durable h d log) as Hdu by (by apply (durable_kept h d d0 log seq n (flushed ++ batched))).
  assert (length (wal_identity d) = 32%nat) as Hl.
  { rewrite (identity_kept _ _ (in_rest _ _ _ _ I2)), (identity_kept _ _ (in_rest _ _ _ _ I1)). apply Hs. }
  apply (keeps_bind h log _ _ _ (fun s' _ => with_db d s s')).
  - apply (keeps_update h log _ s d tt); [| |by split; [|left; split; [apply Hs|]]|done].
    + fold (mark_allocated (s_db s)). unfold then_do, returns, done. by rewrite Hib.
    + by eapply streaming_recovered.
  - intros s' [] (Hdb & Hw' & Hs'). apply keeps_done. split; [|done]. destruct Hs. constructor; rewrite ?Hdb, ?Hw', ?Hs'; done.
Qed.

Lemma entries_keeps rest : forall flushed batched s st,
  ops = flushed ++ batched ++ rest -> sb_batch st = staged <$> batched -> streaming flushed s ->
  keeps h log (stream_entries n (staged <$> rest) st) s (fun s' _ => streaming ops s').
Proof.
  induction rest as [|op rest IH]; intros flushed batched s st Ho Hb Hs; cbn [fmap list_fmap stream_entries staged].
  { eapply keeps_mono; [by apply (flush_keeps flushed batched [])|]. rewrite app_nil_r in Ho. rewrite <- Ho. by intros s' st' [? _]. }
  apply (keeps_bind h log _ _ _ (fun s' _ => streaming flushed s')).
  { apply keeps_ctx; [by eapply streaming_recovered|]. intros s' Hc. by apply (streaming_clock _ s). }
  clear s Hs. intros s _ Hs.
  apply (keeps_bind h log _ _ _ (fun s' st' => exists f b, ops = f ++ b ++ op :: rest /\ sb_batch st' = staged <$> b /\ streaming f s')).
  - destruct (_ <? _); [|apply keeps_done; by exists flushed, batched].
    eapply keeps_mono; [by apply (flush_keeps flushed batched (op :: rest))|]. intros s' st' [Hs' Hb']. exists (flushed ++ batched), [].
    split_and!; [by rewrite <- app_assoc|done|done].
  - intros s' st' (f & b & Ho' & Hb' & Hs'). apply (IH f (b ++ [op])); [by rewrite <- app_assoc| |done]. cbn. by rewrite Hb', fmap_app.
Qed.

(** What the attempt did. *)
Definition attempted (s s' : Store) (r : result mvcc_error Z) : Prop :=
  crash_states h log [mkCommit n id ops] s s' /\
  match r with
  | Ok m => m = n /\ recovered h (log ++ [mkCommit n id ops]) s'
  | Err _ => recovered h log s' \/ exists e, s_fatal s' = Some e
  end.

Lemma attempted_none s s' r e :
  recovered h log s' -> (exists more, s_trace s' = more ++ s_trace s /\ Forall (disk_stands h log) more) -> r = Err e ->
  attempted s s' r.
Proof.
  intros Hr (more & Ht & Hm) ->. split; [|by left]. exists more. split; [done|]. rewrite Forall_forall in Hm.
  intros x [->|Hx]%elem_of_cons; left; [by apply recovered_disk|by apply Hm].
Qed.

Lemma direct_attempted s :
  streaming [] s -> let '(s', r) := stream_direct n id (staged <$> ops) s in attempted s s' r.
Proof.
  intros Hs. unfold stream_direct. unfold then_do at 1.
  pose proof (entries_keeps ops [] [] s (mkBatch [] 0 false) eq_refl eq_refl Hs) as Hk. unfold keeps in Hk.
  destruct (stream_entries n (staged <$> ops) (mkBatch [] 0 false) s) as [s1 [st|e]]; destruct Hk as [(m1 & Ht1 & Hm1) Hk];
    [|by eapply attempted_none; [|by exists m1|]].
  unfold then_do at 1. pose proof (check_ctx_clock s1) as Hc. destruct (check_ctx s1) as [s2 r]. cbn [fst] in Hc.
  assert (s_trace s2 = s_trace s1) as Ht2 by by destruct Hc as [m ->]. pose proof (streaming_clock _ _ _ Hc Hk) as Hs2.
  destruct r as [[]|e]; [|by eapply attempted_none; [by eapply streaming_recovered|exists m1; split; [congruence|]|]].
  destruct (publishCommit_spec (s_db s2) id n (sb_catalog st)) as (d & Hpub & Hp); [done..|].
  unfold then_do at 1, update. unfold then_do at 1. unfold then_do at 1, returns at 1. rewrite Hpub. unfold done at 1.
  unfold then_do at 1, check_io. destruct (io_err (s_clock s2)) as [e|].
  { eapply attempted_none; [apply (recovered_clock h log s2); [by eexists|by eapply streaming_recovered]|exists m1; split; [cbn; congruence|done]|done]. }
  unfold then_do, set_db, done. cbn [fst snd]. set (s3 := on_disk _).
  assert (recovered h (log ++ [mkCommit n id ops]) s3) as Hrec.
  { pose proof (sg_installed _ _ Hs2) as Hi. split_and!; cbn.
    - apply Hs2.
    - by apply (published_durable h d0 log seq n ops (s_db s2) id d).
    - rewrite (sg_sequence _ _ Hs2). by apply (represents_published h d0 log seq n ops (s_db s2) id d).
    - unfold wal_identity. rewrite (pb_identity _ _ _ _ Hp). apply Hs2. }
  split; [|done]. exists (disk_of s3 :: m1). split; [cbn; by rewrite Ht2, Ht1|]. rewrite Forall_forall in Hm1.
  intros x Hx. rewrite !elem_of_cons in Hx. destruct Hx as [->|[->|Hx]]; [right; by apply recovered_disk..|left; by apply Hm1].
Qed.
End Direct.

(** ** A streamed commit is all or nothing *)

Section Stream.
Context `{BoltLaws} `{GuardCodec} `{Env} `{Digest} `{!DigestLaws} `{Locking} `{StoreOptions} `{MapRange}.

Lemma recovered_disk_same h log s s' : same_disk s s' -> recovered h log s -> recovered h log s'.
Proof. intros (E1 & E2 & _ & E4). unfold recovered. by rewrite E1, E2, E4. Qed.

(** ** Through the log *)

Lemma logged_attempted h log seq n id ops s :
  represents h (s_db s) log seq -> seq < n -> is_u64 n -> length id <> 8%nat -> id ∉ c_id <$> log -> Forall staged_op ops ->
  recovered h log s -> s_localSeq s = n ->
  let '(s', r) := stream_logged n id (staged <$> ops) s in attempted h log n id ops s s' r.
Proof.
  intros Hrep Hseq Hu Hid8 Hf Ho Hrec Hn. set (c := mkCommit n id ops). unfold stream_logged. unfold then_do at 1.
  destruct (writeLocalWAL_spec [c] check_ctx (stream_wal n id (staged <$> ops)) s check_ctx_clock (stream_wal_produces n id ops Hu Ho))
    as (s2 & r & -> & [(e & -> & Hs2)|[Hw Hres]]).
  { eapply attempted_none; [by eapply recovered_disk_same| |done]. exists []. split; [apply Hs2|constructor]. }
  assert (loggable log [c]) as Hl.
  { pose proof (staged_op_plain ops Ho) as [Hp _]. destruct Hw as (_ & [He _]%Forall_cons & _). constructor.
    - apply Forall_singleton. by constructor.
    - by repeat constructor.
    - apply NoDup_singleton.
    - by intros c' ->%list_elem_of_singleton. }
  assert (ready h (s_db s) log [c]) as Hrd by (apply (represents_stands h _ log seq); [apply Hrec|done|done]).
  assert (is_u64 (s_localSeq s2)) as Hu2 by (destruct Hw as (_ & _ & _ & -> & _); by rewrite Hn).
  destruct (recover_written h log [c] s s s2 Hrec eq_refl eq_refl Hw ltac:(done) Hl Hrd Hu2) as [Hcs Hcs'].
  destruct r as [[]|e]; [|destruct Hres as [|(e' & [= <-] & Hfatal)]; [done|split; [exact Hcs|right; by exists e]]].
  unfold then_do. destruct (recoverLocalWAL s2) as [s3 [[]|e]]; destruct Hcs' as (Hcs' & _ & Hok); cbn [failLocalWAL].
  - split; [exact Hcs'|]. split; [done|by apply Hok].
  - split; [exact Hcs'|]. right. by exists e.
Qed.

(** ** The frozen stage *)

(** What the caller of a commit relies on: an identifier no commit has, that is no sequence, a
    snapshot and observations that are sequences. *)
Record commit_ready (log : list commit) (t : Tx) : Prop := {
  cr_id : t_ID t <> [];
  cr_id8 : length (t_ID t) <> 8%nat;
  cr_fresh : t_ID t ∉ c_id <$> log;
  cr_snapshot : 0 <= t_Snapshot t;
  cr_baseline : map_Forall (fun (_ : bytes) (n : Z) => 0 <= n) (t_writeBaseline t)
}.

(** The version a key of the transaction may build on. *)
Definition tx_entitled (t : Tx) (k : bytes) : Z := entitled (baselineLookup t) (t_Snapshot t) k.

Lemma lookup_nonneg t k n observed : map_Forall (fun (_ : bytes) (n : Z) => 0 <= n) (t_writeBaseline t) ->
  baselineLookup t = Some observed -> observed k = Some n -> 0 <= n.
Proof.
  intros Hb. unfold baselineLookup. case_bool_decide; [done|]. intros [= <-]. unfold writeBaselineFor. case_bool_decide; [done|]. apply Hb.
Qed.

Lemma tx_entitled_nonneg log t k : commit_ready log t -> 0 <= tx_entitled t k.
Proof.
  intros Hc. unfold tx_entitled, entitled. destruct (baselineLookup t) as [o|] eqn:Eb; [|apply Hc].
  destruct (o k) as [n|] eqn:Ek; [|apply Hc]. by apply (lookup_nonneg t k n o (cr_baseline _ _ Hc)).
Qed.

Lemma nextSequence_cases s :
  (s_localSeq s = u64_max /\ nextSequence s = (s, Err ErrSequenceExhausted)) \/
  (s_localSeq s <> u64_max /\ nextSequence s = (s <| s_localSeq ::= Z.succ |>, Ok (s_localSeq s + 1))).
Proof. unfold nextSequence. destruct (Z.eqb_spec (s_localSeq s) u64_max); [by left|by right]. Qed.

(** What a streamed commit does to the store. *)
Definition streamed (h : Z) (log : list commit) (t : Tx) (ops : list Op) (s s' : Store) (r : result mvcc_error Z) : Prop :=
  let c := mkCommit (s_localSeq s + 1) (t_ID t) ops in
  crash_states h log [c] s s' /\
  match r with
  | Ok n => n = c_index c /\ recovered h (log ++ [c]) s' /\ Forall (fun op => admissible log (tx_entitled t (raw_key op)) (raw_key op)) ops
  | Err _ => recovered h log s' \/ exists e, s_fatal s' = Some e
  end.

Lemma streamed_none h log t ops s s' r e : recovered h log s' -> s_trace s' = s_trace s -> r = Err e -> streamed h log t ops s s' r.
Proof.
  intros Hr Ht ->. split; [|by left]. exists []. split; [done|]. intros x ->%list_elem_of_singleton. left. by apply recovered_disk.
Qed.

Lemma frozen_streamed h log t ops s :
  recovered h log s -> h <= u64_max -> commit_ready log t -> from_option b_entries [] (t_stage t) = staged <$> ops -> Forall staged_op ops ->
  let '(s', r) := stream_frozen t s in streamed h log t ops s s' r.
Proof.
  intros Hrec Hh Hcr Hl Ho. pose proof Hrec as (Hcl & Hd & Hr & Hi). unfold stream_frozen. rewrite Hl. unfold then_do at 1.
  pose proof (rp_sound _ _ _ _ Hr) as [Hw _ Hp].
  pose proof (validate_entries_spec t (s_db s) ops empty_cache s Hw Hp (empty_cache_ok _) Ho) as Hv.
  destruct (validate_entries _ _ _ s) as [s1 r]. destruct Hv as [Hc Hv].
  pose proof (recovered_clock h log s s1 Hc Hrec) as Hrec1. assert (s_trace s1 = s_trace s) as Ht by by destruct Hc as [m ->].
  destruct r as [[]|e]; [|by eapply streamed_none]. specialize (Hv eq_refl). unfold then_do at 1.
  assert (s_localSeq s1 = s_localSeq s /\ s_db s1 = s_db s) as [Eq Ed] by by destruct Hc as [m ->].
  destruct (nextSequence_cases s1) as [[_ ->]|[Hne ->]]; [by eapply streamed_none|]. rewrite Eq in *.
  set (s2 := s1 <| s_localSeq ::= Z.succ |>). pose proof (rp_seq _ _ _ _ Hr) as Hu.
  assert (is_u64 (s_localSeq s + 1)) as Hu1 by (unfold is_u64, u64_max in *; lia).
  assert (s_localSeq s2 = s_localSeq s + 1) as Eq2 by (cbn; rewrite Eq; lia).
  assert (s_db s2 = s_db s) as Ed2 by exact Ed.
  assert (recovered h log s2) as Hrec2.
  { destruct Hrec1 as (? & ? & ? & ?). split_and!; [done|done| |done]. apply (represents_seq h _ _ (s_localSeq s1)); [done| |by rewrite Eq2]. rewrite Eq, Eq2. lia. }
  assert (forall s' r, attempted h log (s_localSeq s + 1) (t_ID t) ops s2 s' r -> streamed h log t ops s s' r) as Hdone.
  { intros s' r [(more & Et & Hx) Hres]. split; [exists more; split; [by rewrite Et; cbn; rewrite Ht|done]|].
    destruct r as [m|e]; [|done]. destruct Hres as [-> Hres]. split_and!; [done|done|]. eapply Forall_impl; [exact Hv|]. intros op Hle.
    apply (latest_change_admissible h (s_db s) log (s_localSeq s)); [done|done|by eapply tx_entitled_nonneg|exact Hle]. }
  destruct (s_localWAL s2).
  - pose proof (logged_attempted h log (s_localSeq s) (s_localSeq s + 1) (t_ID t) ops s2) as Ha.
    destruct (stream_logged _ _ _ s2) as [s3 r]. apply Hdone, Ha; [by rewrite Ed2|lia|done|apply Hcr|apply Hcr|done|done|done].
  - pose proof (direct_attempted h log (s_db s) (s_localSeq s) (s_localSeq s + 1) (t_ID t) ops) as Ha.
    specialize (Ha Hr ltac:(lia) Hu1 (cr_id _ _ Hcr) (cr_id8 _ _ Hcr) Ho s2).
    destruct (stream_direct _ _ _ s2) as [s3 r]. apply Hdone, Ha. destruct Hrec2 as (? & ? & ? & ?).
    constructor; try done. rewrite Ed2. apply installed_nil, Hr.
Qed.

(** ** The whole attempt *)

Lemma fail_streamed h log t ops s s' e : streamed h log t ops s s' (Err e) -> streamed h log t ops s (fail_store e s') (Err e).
Proof. intros [Hc _]. split; [exact Hc|]. right. by exists e. Qed.

(** Only where the entries are has changed, and the walk, the stage and the streaming agree on them. *)
Lemma stream_spec h log t s :
  tx_ok t -> t_closed t = false -> recovered h log s -> h <= u64_max -> commit_ready log t ->
  let '(t', s', r) := commitLocalStream t s in
  moved t t' /\ t_closed t' = false /\
  exists ops, Forall staged_op ops /\ NoDup (raw_key <$> ops) /\ list_to_map (staged <$> ops) = ws t /\ streamed h log t ops s s' r.
Proof.
  intros Ht Hcl Hrec Hh Hcr. unfold commitLocalStream. unfold tx_then at 1, on_store at 1.
  destruct (entries_ops (map_to_list (ws t))) as (ops0 & E0 & Ho0 & Hnd0).
  { eapply good_entries; [apply Ht|apply NoDup_fst_map_to_list|done || apply list_to_map_to_list]. }
  assert (list_to_map (staged <$> ops0) = ws t) as Hm0 by (rewrite <- E0; apply list_to_map_to_list).
  assert (forall t' s' r e, moved t t' -> recovered h log s' -> s_trace s' = s_trace s -> r = Err e ->
    moved t t' /\ t_closed t' = false /\ exists ops, Forall staged_op ops /\ NoDup (raw_key <$> ops) /\ list_to_map (staged <$> ops) = ws t /\ streamed h log t ops s s' r) as Hearly.
  { intros t' s' r e Hm Hr Htr Hre. split_and!; [done|by rewrite (kp_closed _ _ (mv_kept _ _ Hm))|]. exists ops0. split_and!; [done..|]. by eapply streamed_none. }
  pose proof (check_ctx_clock s) as Hc. destruct (check_ctx s) as [s1 r]. cbn [fst] in Hc.
  pose proof (recovered_clock h log s s1 Hc Hrec) as Hrec1. assert (s_trace s1 = s_trace s /\ s_localSeq s1 = s_localSeq s) as [Etr Eq] by by destruct Hc as [m ->].
  destruct r as [[]|e]; [|by eapply Hearly]. unfold tx_then at 1. destruct (stale t s1); [by eapply Hearly|].
  unfold tx_then at 1, on_store at 1, check_available. destruct (AvailabilityError s1) as [e|]; [by eapply Hearly|].
  unfold tx_then at 1. pose proof (flushWrites_spec t s1 Ht) as Hf. destruct (flushWrites t s1) as [[t1 s2] r]. destruct Hf as (Hc2 & Hm & Ht1 & Hf).
  pose proof (recovered_clock h log s1 s2 Hc2 Hrec1) as Hrec2. assert (s_trace s2 = s_trace s1 /\ s_localSeq s2 = s_localSeq s1) as [Etr2 Eq2] by by destruct Hc2 as [m ->].
  destruct r as [[]|e]; [|by eapply Hearly; [| |congruence|]]. destruct (Hf eq_refl) as [Hb _].
  set (l := from_option b_entries [] (t_stage t1)). assert (list_to_map l = ws t) as Hl.
  { rewrite <- (mv_ws _ _ Hm). unfold ws. rewrite Hb, (left_id_L ∅ (∪)). unfold stage_map, l. by destruct (t_stage t1). }
  destruct (entries_ops l) as (ops & El & Ho & Hnd).
  { eapply good_entries; [apply Ht| |exact Hl]. unfold l. destruct (t_stage t1); cbn; [apply ordered_NoDup, entries_ordered|constructor]. }
  pose proof (mv_kept _ _ Hm) as Hk.
  assert (commit_ready log t1) as Hcr1 by (destruct Hcr; constructor; by rewrite ?(kp_ID _ _ Hk), ?(kp_Snapshot _ _ Hk), ?(kp_writeBaseline _ _ Hk)).
  pose proof (frozen_streamed h log t1 ops s2 Hrec2 Hh Hcr1 El Ho) as Hs. destruct (stream_frozen t1 s2) as [s3 r].
  assert (streamed h log t ops s s3 r) as Hs'.
  { unfold streamed, crash_states in *. rewrite Eq2, Eq, (kp_ID _ _ Hk), Etr2, Etr in Hs. destruct Hs as [Hx Hres]. split; [exact Hx|]. destruct r; [|done].
    destruct Hres as (-> & Hr3 & Had). split_and!; [done|done|]. unfold tx_entitled, baselineLookup, writeBaselineFor in *.
    by rewrite (kp_writeBaseline _ _ Hk), (kp_guardedKeys _ _ Hk), (kp_Snapshot _ _ Hk) in Had. }
  split_and!; [done|by rewrite (kp_closed _ _ Hk)|]. exists ops. split_and!; [done|done|by rewrite <- El|].
  destruct r as [n|e]; [done|]. destruct (harmless e); [done|by apply fail_streamed].
Qed.
End Stream.
