(* ===== verification/RootSteps.v ===== *)
(** * One request among others, and the walk that collects it *)

From stdpp Require Import gmap list sorting strings fin_maps.
From Stdlib Require Import Strings.Byte.
From S2P Require Import Prelude TxnState TxnManager Bolt Keys Versions Visibility Layouts Conflict Store CommitLog Wal Group GroupSteps WalCodec WalFile WalRecover WalGroup WriteSet WriteSetInv WriteSetSteps WriteSetMerge CurrentRead RootCommit StreamSteps.

(** ** Collecting the write set *)

Section Collect.
Context `{BoltLaws} `{GuardCodec} `{Env} `{Digest} `{Locking} `{StoreOptions} `{MapRange}.

Lemma collect_walk ops : forall acc s,
  Forall staged_op ops ->
  let '(acc', s', r) := walk_entries collect_op (staged <$> ops) acc s in
  only_clock s s' /\ (r = Ok tt -> acc'.1 = acc.1 ++ ops).
Proof.
  induction ops as [|op ops IH]; intros acc s Ho; cbn [fmap list_fmap walk_entries staged]; [by split; [apply only_clock_refl|rewrite app_nil_r]|].
  apply Forall_cons in Ho as [(Hk & Hs & _) Ho]. pose proof (check_ctx_clock s) as Hc. destruct (check_ctx s) as [s1 [[]|e]]; cbn [fst] in Hc; [|done].
  rewrite (staged_decodes op) by done. unfold collect_op at 1. destruct (_ <? _); [done|].
  specialize (IH (acc.1 ++ [op], acc.2 + op_bytes op) s1 Ho). destruct (walk_entries _ _ _ s1) as [[acc' s2] r]. destruct IH as [Hc2 Hr].
  split; [by eapply only_clock_trans|]. intros E. rewrite (Hr E). cbn. by rewrite <- app_assoc.
Qed.
End Collect.

(** ** The answer to one request *)

Section Request.
Context `{BoltLaws} `{GuardCodec} `{MapRange} `{Env} `{Digest} `{!DigestLaws}.

(** Only the outcome differs. *)
Definition same_request (r r' : localCommitRequest) : Prop := r' = r <| q_err := q_err r' |> <| q_index := q_index r' |>.

Lemma outcome_same log seq rs rs' log' seq' : outcome log seq rs rs' log' seq' -> Forall2 same_request rs rs'.
Proof. induction 1; constructor; try done. by destruct r. Qed.

Lemma admitted_same fatal g group admitted : Forall2 (admitted_as fatal g) group admitted -> Forall2 same_request group admitted.
Proof. intros Ha. eapply Forall2_impl; [exact Ha|]. intros r a (e & -> & _). by destruct r. Qed.

Lemma same_request_trans r1 r2 r3 : same_request r1 r2 -> same_request r2 r3 -> same_request r1 r3.
Proof. unfold same_request. intros -> ->. by destruct r1, r3. Qed.

Lemma same_may_commit log r r' : same_request r r' -> may_commit log r' -> may_commit log r.
Proof. unfold same_request. intros ->. by destruct r. Qed.

Lemma same_commit r r' : same_request r r' -> request_commit r' = mkCommit (q_index r') (q_id r) (q_ops r) /\ q_id r' = q_id r.
Proof. unfold same_request. intros ->. by destruct r. Qed.

Lemma same_ids l l' : Forall2 same_request l l' -> q_id <$> l' = q_id <$> l.
Proof. induction 1 as [|x y l l' Hx _ IH]; [done|]. cbn. rewrite IH. f_equal. by apply same_commit. Qed.

(** A failed store answers with errors. *)
Lemma failed_group_answers e group s : s_fatal s = Some e ->
  exists s' g', commitLocalGroup group s = (s', g') /\ s_fatal s' = Some e /\ all_failed g' /\ length g' = length group.
Proof.
  intros He. unfold commitLocalGroup, AvailabilityError. rewrite He.
  destruct (admit_group_spec (Some e) group s) as (s1 & admitted & -> & Hs1 & _ & Ha).
  assert (Forall (fun r => is_Some (q_err r)) admitted) as Hall.
  { clear -Ha. induction Ha as [|r a g ad (o & -> & Ho) _ IH]; constructor; [|done]. destruct o; [cbn; eauto|by destruct Ho]. }
  rewrite bool_decide_eq_true_2 by done. exists s1, admitted. split_and!; [done|by rewrite (ss_fatal _ _ Hs1)|done|].
  symmetry. by eapply Forall2_length.
Qed.

Lemma failed_groups_answers e groups : forall s, s_fatal s = Some e ->
  s_fatal (commit_groups groups s).1 = Some e /\ all_failed (commit_groups groups s).2 /\
  length (commit_groups groups s).2 = length (mjoin groups).
Proof.
  induction groups as [|g groups IH]; intros s He; cbn [commit_groups]; [by repeat split; [|constructor]|].
  destruct (failed_group_answers e g s He) as (s1 & g1 & -> & He1 & Hf & Hl). destruct (IH s1 He1) as (? & ? & Hl2).
  destruct (commit_groups groups s1) as [s2 rs]. cbn [fst snd mjoin list_join] in *. split_and!; [done|by apply Forall_app|].
  by rewrite !length_app, Hl, Hl2.
Qed.

Lemma nth_failed n answers (r : localCommitRequest) : all_failed answers -> (n < length answers)%nat -> exists e, answer (nth n answers r) = Err e.
Proof.
  intros Hf Hn. unfold all_failed in Hf. rewrite Forall_forall in Hf. destruct (Hf (nth n answers r)) as [e He].
  { apply list_elem_of_In. by apply nth_In. }
  exists e. unfold answer. by rewrite He.
Qed.

(** What the answer to [r] says of the store. *)
Definition answered (h : Z) (log : list commit) (r : localCommitRequest) (s s' : Store) (a : result mvcc_error Z) : Prop :=
  match a with
  | Ok n => exists pre post, recovered h (log ++ pre ++ mkCommit n (q_id r) (q_ops r) :: post) s' /\ s_localSeq s < n /\ may_commit (log ++ pre) r
  | Err _ => (exists more, recovered h (log ++ more) s' /\ q_id r ∉ c_id <$> more) \/ exists e, s_fatal s' = Some e
  end.

Lemma answered_failed h log r s s' a e : s_fatal s' = Some e -> (exists e', a = Err e') -> answered h log r s s' a.
Proof. intros He (e' & ->). right. by exists e. Qed.

(** In its own group. *)
Lemma group_answered h log s ahead r behind :
  recovered h log s -> h <= u64_max -> Forall request_ok (ahead ++ r :: behind) -> fresh_requests log (ahead ++ r :: behind) ->
  let '(s', answers) := commitLocalGroup (ahead ++ r :: behind) s in
  answered h log r s s' (answer (nth (length ahead) answers r)).
Proof.
  intros Hrec Hh Hq Hf. destruct (group_spec h log s _ Hrec Hh Hq Hf) as (admitted & s' & g' & Ha & -> & ran & seq' & Ho & Hres & _).
  assert (Forall2 same_request (ahead ++ r :: behind) ran) as Hsame.
  { assert (Transitive same_request) by (intros ? ? ?; apply same_request_trans). etransitivity; [by eapply admitted_same|by eapply outcome_same]. }
  apply Forall2_app_inv_l in Hsame as (a' & rb' & Ha' & Hrb & ->). apply Forall2_cons_inv_l in Hrb as (r' & b' & Hr' & Hb' & ->).
  pose proof (Forall2_length _ _ _ Ha') as Hla. destruct Hres as [(-> & Hrec' & _)|(e & -> & He)].
  2: { apply (answered_failed _ _ _ _ _ _ e He), nth_failed; [apply fail_rest_all|]. unfold fail_rest. rewrite length_fmap, length_app. cbn. lia. }
  rewrite app_nth2 by lia. rewrite Hla, Nat.sub_diag. cbn [nth]. destruct (same_commit r r' Hr') as [Hc Hid].
  unfold commits_of in Hrec'. rewrite omap_app in Hrec'. cbn [omap list_omap] in Hrec'. unfold answer, answered.
  destruct (q_err r') as [e|] eqn:Er; cbn in Hrec'.
  - left. eexists. split; [exact Hrec'|]. destruct Hf as [Hnd _]. rewrite fmap_app in Hnd. cbn in Hnd. rewrite fmap_app, elem_of_app.
    assert (forall l l', Forall2 same_request l l' -> q_id r ∉ q_id <$> l -> q_id r ∉ c_id <$> commits_of l') as Hids.
    { intros l l' Hl Hn Hin. apply Hn. rewrite <- (same_ids l l' Hl). eapply elem_of_sublist; [exact Hin|apply commits_ids_sublist]. }
    apply NoDup_app in Hnd as (_ & Hsep & [Hn2 _]%NoDup_cons).
    intros [Hin|Hin]; [apply (Hids _ _ Ha')|apply (Hids _ _ Hb')]; try done. intros Hx. apply (Hsep _ Hx). by left.
  - exists (commits_of a'), (commits_of b'). rewrite Hc in Hrec'. split_and!; [exact Hrec'| |].
    + pose proof (outcome_sequence _ _ _ _ _ _ Ho) as [_ Hlt]. unfold commits_of in Hlt. rewrite omap_app in Hlt. cbn in Hlt. rewrite Er in Hlt.
      apply Forall_app in Hlt as [_ [Hlt _]%Forall_cons]. exact Hlt.
    + apply (same_may_commit _ r r' Hr'). by eapply outcome_first_committer.
Qed.
(** Behind other groups. *)
Lemma request_answered h ahead r behind earlier : forall log s,
  recovered h log s -> h <= u64_max -> Forall (Forall request_ok) (earlier ++ [ahead ++ r :: behind]) ->
  fresh_requests log (mjoin (earlier ++ [ahead ++ r :: behind])) ->
  let '(s', answers) := commit_groups (earlier ++ [ahead ++ r :: behind]) s in
  answered h log r s s' (answer (nth (length (mjoin earlier) + length ahead) answers r)).
Proof.
  induction earlier as [|g earlier IH]; intros log s Hrec Hh Hq Hf; cbn [app commit_groups mjoin list_join length] in *.
  { apply Forall_cons in Hq as [Hq _]. rewrite app_nil_r in Hf. pose proof (group_answered h log s ahead r behind Hrec Hh Hq Hf) as Ha.
    destruct (commitLocalGroup _ s) as [s' answers]. by rewrite app_nil_r. }
  apply Forall_cons in Hq as [Hq1 Hq]. destruct Hf as [Hnd Hf]. rewrite fmap_app in Hnd. apply NoDup_app in Hnd as (Hnd1 & Hsep & Hnd2).
  destruct (group_spec h log s g Hrec Hh Hq1) as (admitted & s1 & g1 & Ha & -> & Hran).
  { split; [done|]. intros x Hx. apply Hf, elem_of_app. by left. }
  pose proof (results_ids _ _ _ _ _ _ Hran) as Hids. rewrite (admitted_ids _ _ _ _ Ha) in Hids.
  assert (length g1 = length g) as Hlen by (rewrite <- (length_fmap q_id g1), Hids; apply length_fmap).
  assert (r ∈ mjoin (earlier ++ [ahead ++ r :: behind])) as Hin.
  { apply list_elem_of_join. exists (ahead ++ r :: behind). split; [apply elem_of_app; right; by left|apply elem_of_app; right; by left]. }
  destruct Hran as (ran & seq' & Ho & [(-> & Hrec1 & Hle)|(e & -> & He)] & _).
  2: { destruct (failed_groups_answers e (earlier ++ [ahead ++ r :: behind]) s1 He) as (He' & Hall & Hl).
       destruct (commit_groups _ s1) as [s2 rs]. cbn [fst snd] in *. apply (answered_failed _ _ _ _ _ _ e He'), nth_failed.
       - apply Forall_app. split; [apply fail_rest_all|done].
       - assert (length (mjoin (earlier ++ [ahead ++ r :: behind])) = length (mjoin earlier) + (length ahead + S (length behind)))%nat as El
           by (rewrite join_app, length_app; cbn [mjoin list_join]; by rewrite app_nil_r, length_app).
         rewrite !length_app, Hlen, Hl, El. rewrite <- Nat.add_assoc. do 2 apply (proj1 (Nat.add_lt_mono_l _ _ _)). lia. }
  pose proof (outcome_sequence _ _ _ _ _ _ Ho) as [Hseq _].
  assert (q_id r ∉ c_id <$> commits_of ran) as Hmine.
  { intros Hx. apply (Hsep (q_id r)); [|by apply list_elem_of_fmap_2]. rewrite <- Hids. eapply elem_of_sublist; [exact Hx|apply commits_ids_sublist]. }
  specialize (IH (log ++ commits_of ran) s1 Hrec1 Hh Hq). destruct (commit_groups _ s1) as [s2 rs].
  rewrite app_nth2, length_app, Hlen by (rewrite length_app; lia).
  rewrite <- Nat.add_assoc, (Nat.add_comm (length g)), Nat.add_sub.
  assert (fresh_requests (log ++ commits_of ran) (mjoin (earlier ++ [ahead ++ r :: behind]))) as Hf'.
  { split; [done|]. intros x Hx. rewrite fmap_app, elem_of_app. intros [Hi|Hi].
    - apply (Hf x); [apply elem_of_app; by right|done].
    - apply (Hsep (q_id x)); [|by apply list_elem_of_fmap_2]. rewrite <- Hids. eapply elem_of_sublist; [exact Hi|apply commits_ids_sublist]. }
  specialize (IH Hf'). unfold answered in *. destruct (answer _) as [n|e].
  - destruct IH as (pre & post & Hr & Hlt' & Hm). exists (commits_of ran ++ pre), post. rewrite <- !app_assoc in *. split_and!; [done|lia|done].
  - destruct IH as [(more & Hr & Hn)|He]; [left|by right]. exists (commits_of ran ++ more). rewrite <- app_assoc in Hr. split; [done|].
    rewrite fmap_app, elem_of_app. tauto.
Qed.
End Request.
