(* ===== verification/Session.v ===== *)
(** * A root transaction's own session: writes, guards and locked reads *)

From stdpp Require Import gmap list sorting strings fin_maps.
From Stdlib Require Import Strings.Byte.
From S2P Require Import Prelude LockTypes Queue Manager TxnState TxnManager Bolt Keys Versions Visibility Layouts Conflict Store CommitLog WriteSet WriteSetInv WriteSetSteps WriteSetMerge WriteSetReads CurrentRead.

Section Session.
Context `{BoltLaws} `{GuardCodec} `{Env} `{Locking} `{Registry} `{StoreOptions} `{MapRange}.

(** ** Locked reads *)

(** Only the baselines have changed. *)
Record observed (t t' : Tx) : Prop := {
  ob_same : t' <| t_writeBaseline := t_writeBaseline t |> <| t_baselineRejections := t_baselineRejections t |> = t;
  ob_baseline : forall k n, t_writeBaseline t' !! k = Some n -> t_writeBaseline t !! k = Some n \/ 0 <= n
}.

Lemma observed_ok t t' : observed t t' -> tx_ok t -> tx_ok t'.
Proof.
  intros [E _] Ht. rewrite <- E in Ht. destruct Ht as [H1' H2' H3' H4' H5']. constructor; assumption.
Qed.

Lemma record_observed space rowKey n t : 0 <= n -> observed t (RecordObservationBaseline space rowKey n t).
Proof.
  intros Hn. assert (forall k, observed t (t <| t_writeBaseline ::= <[k := n]> |>)) as Hput.
  { intros k. constructor; [by destruct t|]. intros k' m. cbn. destruct (decide (k = k')) as [->|].
    - rewrite lookup_insert_eq. intros [= <-]. by right.
    - rewrite lookup_insert_ne by done. by left. }
  assert (observed t t) as Hsame by (constructor; [by destruct t|by left]).
  unfold RecordObservationBaseline. destruct (key space rowKey) as [k|e]; [|done]. destruct (t_closed t); [done|].
  destruct (t_writeBaseline t !! k) as [current|]; [by destruct (_ <? _)|]. destruct (_ <=? _); [|done].
  constructor; [by destruct t|by left].
Qed.

(** Versions are never negative. *)
Lemma visible_version d k snapshot : has_prefix rangeGuardPrefix k = false -> db_wf d -> is_u64 snapshot -> 0 <= reading_version (visible d k snapshot).
Proof.
  intros Hk Hw Hs. unfold visible. rewrite Hk, point_visible_spec by done. unfold read_at.
  destruct (newest_at _ _ _) as [[n p]|] eqn:E; [|done]. apply newest_elem in E as (Hin & _). apply history_range in Hin; [|done].
  unfold is_u64 in Hin. unfold payload_read, reading_version. destruct p; [|case_bool_decide]; cbn; lia.
Qed.

Definition plain_space (space : bytes) : Prop := space <> rangeGuardSpace.

Lemma plain_key space rowKey k : plain_space space -> key space rowKey = Ok k -> has_prefix rangeGuardPrefix k = false.
Proof. intros Hs Hk. by apply (key_plain (mkOp space rowKey [] false false)). Qed.

Lemma readCurrent_version layers s space rowKey o :
  db_wf (s_db s) -> plain_space space -> readCurrent layers s space rowKey = Ok o -> 0 <= ob_ChangeTS o.
Proof.
  intros Hw Hs. induction layers as [|t parents IH]; [done|]. cbn [readCurrent].
  set (below := match parents with [] => _ | _ => _ end). assert (below = Ok o -> 0 <= ob_ChangeTS o) as Hb.
  { unfold below. destruct parents; [|exact IH]. unfold latestPublished, Store_Get. destruct (key space rowKey) as [k|e] eqn:Ek; [|done].
    cbn [rbind]. pose proof (visible_version (s_db s) k u64_max (plain_key _ _ _ Hs Ek) Hw ltac:(unfold is_u64, u64_max; lia)) as Hv.
    destruct (visible (s_db s) k u64_max) as [[v n] e]. intros [= <-]. exact Hv. }
  destruct (readOp t space rowKey) as [[op|]|e]; cbn [rbind]; [|exact Hb|done]. destruct (op_Check op) eqn:Ec; [exact Hb|].
  intros [= <-]. unfold overlayObservation. by rewrite Ec.
Qed.

Lemma readCurrent_db layers s s' space rowKey : s_db s' = s_db s -> readCurrent layers s' space rowKey = readCurrent layers s space rowKey.
Proof.
  intros E. induction layers as [|t parents IH]; [done|]. cbn [readCurrent]. rewrite IH. unfold latestPublished, Store_Get. by rewrite E.
Qed.

Lemma verify_ok owner space rowKey grant (s s' : Store) a :
  verifyGrantForRead owner space rowKey grant s = (s', Ok a) ->
  verify_grant (lock_registry (s_clock s)) owner grant space rowKey = Ok tt /\ s_clock s' = S (s_clock s).
Proof. unfold verifyGrantForRead. destruct (verify_grant _ _ _ _ _) as [[]|e]; [|done]. by intros [= <-]. Qed.

Lemma ReadCurrentLocked_spec t parents space rowKey grant s :
  db_wf (s_db s) -> plain_space space ->
  let '(t', s', r) := ReadCurrentLocked t parents space rowKey grant s in
  only_clock s s' /\ observed t t' /\
  match r with
  | Ok o =>
      readCurrent (t :: parents) s space rowKey = Ok o /\ t' = recordWriteBaseline space rowKey o t /\
      forall n, n = S (s_clock s) \/ n = S (S (s_clock s)) -> verify_grant (lock_registry n) (LockOwnerID t parents) grant space rowKey = Ok tt
  | Err _ => t' = t
  end.
Proof.
  intros Hw Hs. unfold ReadCurrentLocked. unfold then_do at 1, returns at 1. destruct (checkOpen t s) as [[]|e].
  2: { split_and!; [apply only_clock_refl| |done]. constructor; [by destruct t|by left]. }
  assert (observed t t) as Hsame by (constructor; [by destruct t|by left]).
  unfold then_do at 1. pose proof (check_ctx_clock s) as Hc. assert (s_clock (check_ctx s).1 = S (s_clock s)) as Ec by done.
  destruct (check_ctx s) as [s1 [a|e]]; cbn [fst] in Hc, Ec; [|done].
  set (verify := verifyGrantForRead _ _ _ _). assert (forall s : Store, only_clock s (verify s).1) as Hv by (intros x; by eexists).
  unfold then_do at 1. pose proof (Hv s1) as Hc1. destruct (verify s1) as [s2 [b|e]] eqn:V1; cbn [fst] in Hc1;
    [|by split_and!; [eapply only_clock_trans|..]].
  pose proof (only_clock_trans _ _ _ Hc Hc1) as Hc2. unfold then_do at 1, returns at 1.
  rewrite (readCurrent_db _ s s2) by (by destruct Hc2 as [n ->]). destruct (readCurrent (t :: parents) s space rowKey) as [o|e] eqn:Eo; [|done].
  unfold then_do at 1. pose proof (Hv s2) as Hc3. destruct (verify s2) as [s3 [c|e]] eqn:V2; cbn [fst] in Hc3; cbn;
    pose proof (only_clock_trans _ _ _ Hc2 Hc3); [|done].
  apply verify_ok in V1 as [V1 E1], V2 as [V2 E2]. rewrite Ec in V1, E1. rewrite E1 in V2.
  split_and!; [done| |done|done|by intros n [->| ->]]. apply record_observed. by eapply readCurrent_version.
Qed.

(** What the layers hold of a key: the innermost write. *)
Definition own_write (layers : list Tx) (k : bytes) : option Op := head (omap (fun t => write_of (ws t) k) layers).

Lemma own_write_cons t parents k : own_write (t :: parents) k = match write_of (ws t) k with Some op => Some op | None => own_write parents k end.
Proof. unfold own_write. cbn [omap list_omap]. by destruct (write_of (ws t) k). Qed.

Lemma write_of_check t k op : tx_ok t -> write_of (ws t) k = Some op -> op_Check op = false.
Proof.
  intros Ht. unfold write_of. destruct (ws t !! k) as [v|] eqn:Ev; [|done]. destruct (ok_entries t Ht k v Ev) as (op' & Hk & Hs & _ & ->).
  rewrite is_write_encoded, (staged_decodes op') by done. destruct (op_Check op') eqn:Ec; [done|]. by intros [= <-].
Qed.

Lemma own_write_check layers k op : Forall tx_ok layers -> own_write layers k = Some op -> op_Check op = false.
Proof.
  induction 1 as [|t parents Ht _ IH]; [done|]. rewrite own_write_cons. destruct (write_of (ws t) k) eqn:Ew; [|done].
  intros [= ->]. by eapply write_of_check.
Qed.

Lemma readCurrent_spec layers s space rowKey k :
  layers <> [] -> Forall (fun t => tx_ok t /\ tx_open t s) layers -> key space rowKey = Ok k ->
  readCurrent layers s space rowKey =
    Ok (match own_write layers k with
        | Some op => overlayObservation op
        | None => publishedObservation (visible (s_db s) k u64_max)
        end).
Proof.
  intros Hne Hl Hk. induction Hl as [|t parents [Ht Ho] Hl IH]; [done|]. rewrite own_write_cons. cbn [readCurrent]. rewrite (readOp_spec t s), Hk by done. cbn [rbind].
  assert (match parents with [] => let* r := latestPublished s space rowKey in Ok (publishedObservation r) | _ => readCurrent parents s space rowKey end =
    Ok (match own_write parents k with Some op => overlayObservation op | None => publishedObservation (visible (s_db s) k u64_max) end)) as ->.
  { destruct parents; [|by apply IH]. unfold latestPublished, Store_Get. by rewrite Hk. }
  destruct (write_of (ws t) k) as [op|] eqn:Ew; unfold write_of in Ew; destruct (ws t !! k) as [v|] eqn:Ev; try done; cbn [rbind].
  - destruct (ok_entries t Ht k v Ev) as (op' & Hk' & Hs & _ & ->). rewrite is_write_encoded in Ew. rewrite (staged_decodes op') in * by done. cbn [rbind].
    destruct (op_Check op'); cbn [negb] in Ew; congruence.
  - destruct (ok_entries t Ht k v Ev) as (op' & Hk' & Hs & _ & ->). rewrite is_write_encoded in Ew. rewrite (staged_decodes op') in * by done. cbn [rbind].
    by destruct (op_Check op').
Qed.

(** The baseline of a key is the newest version seen, while there is room. *)
Lemma record_baseline space rowKey k n t :
  key space rowKey = Ok k -> t_closed t = false ->
  let t' := RecordObservationBaseline space rowKey n t in
  (forall k', k' <> k -> t_writeBaseline t' !! k' = t_writeBaseline t !! k') /\
  t_writeBaseline t' !! k =
    match t_writeBaseline t !! k with
    | Some m => Some (Z.max n m)
    | None => if Z.of_nat (size (t_writeBaseline t)) <? maxObservationBaselines then Some n else None
    end.
Proof.
  intros Hk Hc. unfold RecordObservationBaseline. rewrite Hk, Hc. destruct (t_writeBaseline t !! k) as [m|] eqn:Em; cbn zeta.
  - destruct (Z.ltb_spec n m).
    + split; [done|]. rewrite Em. f_equal. lia.
    + cbn. split; [intros k' Hk'; by rewrite lookup_insert_ne|]. rewrite lookup_insert_eq. f_equal. lia.
  - destruct (Z.leb_spec maxObservationBaselines (Z.of_nat (size (t_writeBaseline t)))).
    + rewrite (proj2 (Z.ltb_ge _ _)) by done. by cbn.
    + rewrite (proj2 (Z.ltb_lt _ _)) by done. cbn. split; [intros k' Hk'; by rewrite lookup_insert_ne|]. by rewrite lookup_insert_eq.
Qed.

Lemma recorded_entitled t k n :
  k ∉ t_guardedKeys t -> t_writeBaseline t !! k = Some n -> entitled (baselineLookup t) (t_Snapshot t) k = n.
Proof.
  intros Hg Hn. unfold entitled, baselineLookup. rewrite bool_decide_eq_false_2 by (intros E; by rewrite E, lookup_empty in Hn).
  unfold writeBaselineFor. rewrite bool_decide_eq_false_2 by done. by rewrite Hn.
Qed.

(** ** Runs *)

Inductive session_call : Type :=
  | SessionCall (c : client_call)
  | SessionRead (space rowKey : bytes) (grant : LockGrant).

Definition session_allowed (c : session_call) : Prop :=
  match c with
  | SessionCall c => call_allowed c
  | SessionRead space _ _ => plain_space space
  end.

(** The store is the one at the time of the call: other transactions change it in between. *)
Fixpoint run_session (cs : list (session_call * Store)) (t : Tx) : Tx :=
  match cs with
  | [] => t
  | (SessionCall c, s) :: cs => run_session cs (call c t s).1.1
  | (SessionRead space rowKey grant, s) :: cs => run_session cs (ReadCurrentLocked t [] space rowKey grant s).1.1
  end.

Definition session_steps_ok (cs : list (session_call * Store)) : Prop :=
  Forall (fun c => session_allowed c.1 /\ db_wf (s_db c.2)) cs.

(** What holds of the transaction all along: every dependency that is not a write is guarded. *)
Record session_ok (t0 t : Tx) : Prop := {
  se_ok : tx_ok t;
  se_bounded : guards_bounded t;
  se_same : t_generation t = t_generation t0 /\ t_Snapshot t = t_Snapshot t0 /\ t_ID t = t_ID t0 /\ t_closed t = t_closed t0;
  se_guarded : forall (k v : bytes), ws t !! k = Some v -> is_write v = false -> k ∈ t_guardedKeys t;
  se_baseline : map_Forall (fun (_ : bytes) (n : Z) => 0 <= n) (t_writeBaseline t)
}.

Lemma ws_put_guarded (op : Op) (k : bytes) (m : gmap bytes bytes) (g : gset bytes) :
  (forall (k v : bytes), m !! k = Some v -> is_write v = false -> k ∈ g) -> (op_Check op = true -> k ∈ g) ->
  forall (k' v : bytes), ws_put op k m !! k' = Some v -> is_write v = false -> k' ∈ g.
Proof.
  intros Hm Hop k' v. unfold ws_put. destruct (op_Check op && _); [apply Hm|]. destruct (decide (k = k')) as [->|].
  - rewrite lookup_insert_eq. intros [= <-]. rewrite is_write_encoded. intros E%negb_false_iff. by apply Hop.
  - rewrite lookup_insert_ne by done. apply Hm.
Qed.

Lemma call_session t0 t c s : call_allowed c -> session_ok t0 t -> session_ok t0 (call c t s).1.1.
Proof.
  intros Hc [Ht Hb (E1 & E2 & E3 & E4) Hg Hbl]. pose proof (call_spec c t s Ht Hb Hc) as Hs. destruct (call c t s) as [[t' s'] r].
  destruct Hs as (_ & Ht' & Hb' & Hsame & Hws & Hgk). cbn [fst]. destruct Hsame as [K1 K2 K3 K4 _ _ _ K8]. cbn in K1, K2, K3, K4, K8.
  constructor; [done|done|by rewrite K1, K2, K3, K4| |by rewrite K8].
  rewrite Hws, Hgk. destruct (is_ok r); [|exact Hg].
  assert (forall op, op_Check op = false -> forall (k v : bytes), op_put (ws t) op !! k = Some v -> is_write v = false -> k ∈ t_guardedKeys t) as Hwrite.
  { intros op Hop. unfold op_put. destruct (key (op_Space op) (op_Key op)) as [k|e]; [|exact Hg]. apply ws_put_guarded; [exact Hg|by rewrite Hop]. }
  destruct c as [space k v|space k|space k|]; cbn; [by apply Hwrite..| |exact Hg]. unfold op_put. cbn [op_Space op_Key].
  destruct (key space k) as [k'|e]; [|exact Hg]. apply ws_put_guarded; [|set_solver]. intros k0 v Hv Hw. apply elem_of_union_r. by apply (Hg k0 v).
Qed.

Lemma read_session t0 t space rowKey grant s :
  plain_space space -> db_wf (s_db s) -> session_ok t0 t -> session_ok t0 (ReadCurrentLocked t [] space rowKey grant s).1.1.
Proof.
  intros Hp Hw [Ht Hb (E1 & E2 & E3 & E4) Hg Hbl]. pose proof (ReadCurrentLocked_spec t [] space rowKey grant s Hw Hp) as Hs.
  destruct (ReadCurrentLocked t [] space rowKey grant s) as [[t' s'] r]. destruct Hs as (_ & Ho & _). cbn [fst]. pose proof (observed_ok t t' Ho Ht) as Ht'.
  destruct Ho as [E Hn]. assert (t_generation t' = t_generation t /\ t_Snapshot t' = t_Snapshot t /\ t_ID t' = t_ID t /\ t_closed t' = t_closed t /\
    t_guardedKeys t' = t_guardedKeys t /\ ws t' = ws t) as (K1 & K2 & K3 & K4 & K5 & K6) by (rewrite <- E; done).
  constructor; [done|unfold guards_bounded; by rewrite K5|by rewrite K1, K2, K3, K4|by rewrite K5, K6|].
  intros k n Hk. destruct (Hn k n Hk) as [Hk'|]; [by apply (Hbl k)|done].
Qed.

Lemma run_session_ok cs : forall t0 t, session_steps_ok cs -> session_ok t0 t -> session_ok t0 (run_session cs t).
Proof.
  induction cs as [|[c s] cs IH]; intros t0 t Hcs Ht; [done|]. apply Forall_cons in Hcs as [[Hc Hw] Hcs]. cbn [fst snd] in *.
  destruct c as [c|space rowKey grant]; cbn [run_session]; (apply IH; [done|]); [by apply call_session|by apply read_session].
Qed.

Lemma new_session_ok generation snapshot id : session_ok (new_tx generation snapshot id) (new_tx generation snapshot id).
Proof.
  constructor; [apply new_tx_ok|done|done| |done]. intros k v. rewrite ws_lookup. cbn. by rewrite lookup_empty.
Qed.

(** A guarded key is validated against the snapshot. *)
Lemma guarded_entitled t k : k ∈ t_guardedKeys t -> entitled (baselineLookup t) (t_Snapshot t) k = t_Snapshot t.
Proof.
  intros Hk. unfold entitled, baselineLookup. case_bool_decide; [done|]. unfold writeBaselineFor. by rewrite bool_decide_eq_true_2.
Qed.
End Session.
