(* ===== verification/RootEnd.v ===== *)
(** * What the commit of a root publishes *)

From stdpp Require Import gmap list sorting strings fin_maps.
From Stdlib Require Import Strings.Byte.
From S2P Require Import Prelude TxnState TxnManager Bolt Keys Versions Visibility Layouts Conflict Store CommitLog Wal Group GroupSteps WalCodec WalFile WalRecover WalGroup WriteSet WriteSetInv WriteSetSteps WriteSetMerge WriteSetReads CurrentRead RootCommit StreamSteps RootSteps Session.

Section Root.
Context `{BoltLaws} `{GuardCodec} `{Env} `{Digest} `{!DigestLaws} `{Locking} `{StoreOptions} `{MapRange}.

(** The requests of the others, and ours among them. *)
Definition co_requests (w : company) : list localCommitRequest := mjoin (co_earlier w) ++ co_ahead w ++ co_behind w.

Record company_ok (log : list commit) (id : bytes) (w : company) : Prop := {
  cp_ok : Forall request_ok (co_requests w);
  cp_ids : NoDup (id :: (q_id <$> co_requests w));
  cp_fresh : forall r, r ∈ co_requests w -> q_id r ∉ c_id <$> log
}.

(** The write set is published at [n], first committer wins. *)
Definition published_as (h : Z) (log : list commit) (t : Tx) (s s' : Store) (n : Z) : Prop :=
  exists pre ops post,
    recovered h (log ++ pre ++ mkCommit n (t_ID t) ops :: post) s' /\ s_localSeq s < n /\
    (forall k, written k ops = version_value <$> write_of (ws t) k) /\
    (forall (k v : bytes), ws t !! k = Some v -> admissible (log ++ pre) (if is_write v then tx_entitled t k else t_Snapshot t) k).

(** Nothing of it is, unless the store has failed. *)
Definition not_published (h : Z) (log : list commit) (t : Tx) (s' : Store) : Prop :=
  (exists more, recovered h (log ++ more) s' /\ t_ID t ∉ c_id <$> more) \/ exists e, s_fatal s' = Some e.

Lemma not_published_yet h log t s : recovered h log s -> not_published h log t s.
Proof. intros Hr. left. exists []. rewrite app_nil_r. split; [done|by apply not_elem_of_nil]. Qed.

(** ** The request among the others *)

Lemma company_requests log w r :
  company_ok log (q_id r) w -> request_ok r -> q_id r ∉ c_id <$> log ->
  Forall (Forall request_ok) (co_earlier w ++ [co_ahead w ++ r :: co_behind w]) /\
  fresh_requests log (mjoin (co_earlier w ++ [co_ahead w ++ r :: co_behind w])).
Proof.
  intros [Hq Hnd Hf] Hr Hfr. unfold co_requests in *. rewrite !Forall_app in Hq. destruct Hq as (Hq1 & Hq2 & Hq3).
  assert (mjoin (co_earlier w ++ [co_ahead w ++ r :: co_behind w]) ≡ₚ r :: (mjoin (co_earlier w) ++ co_ahead w ++ co_behind w)) as Hp.
  { rewrite join_app. cbn [mjoin list_join]. rewrite app_nil_r. by rewrite <- Permutation_middle, <- Permutation_middle. }
  split; [|split].
  - apply Forall_app. split; [|apply Forall_singleton, Forall_app; split; [done|by constructor]].
    apply Forall_forall. intros g Hg. apply Forall_forall. intros x Hx. rewrite Forall_forall in Hq1. apply Hq1.
    apply list_elem_of_join. by exists g.
  - by rewrite Hp.
  - intros x. rewrite Hp, elem_of_cons. intros [->|Hx]; [done|by apply Hf].
Qed.

Lemma tx_request_ok log t ops : commit_ready log t -> Forall staged_op ops -> request_ok (tx_request t ops).
Proof.
  intros Hc Ho. constructor; try apply Hc; [by apply staged_op_plain|]. intros observed k n Hb Hn.
  by apply (lookup_nonneg t k n observed (cr_baseline _ _ Hc)).
Qed.

Lemma staged_entry ops t (k v : bytes) :
  list_to_map (staged <$> ops) = ws t -> ws t !! k = Some v -> exists op, op ∈ ops /\ k = raw_key op /\ v = encodeStagedOp op.
Proof.
  intros <- Hv. apply elem_of_list_to_map_2 in Hv. apply list_elem_of_fmap in Hv as (op & [= -> ->] & Hop). by exists op.
Qed.

Lemma bounded_published h log t s w ops :
  recovered h log s -> h <= u64_max -> commit_ready log t -> company_ok log (t_ID t) w ->
  Forall staged_op ops -> NoDup (raw_key <$> ops) -> list_to_map (staged <$> ops) = ws t ->
  let '(s', r) := commitLocalFromTx w t ops s in
  match r with Ok n => published_as h log t s s' n | Err _ => not_published h log t s' end.
Proof.
  intros Hrec Hh Hcr Hw Ho Hnd Hm. unfold commitLocalFromTx. destruct (validateCommand _) as [[]|e]; [|by apply not_published_yet].
  destruct (company_requests log w (tx_request t ops)) as [Hq Hf]; [exact Hw|by eapply tx_request_ok|apply Hcr|].
  pose proof (request_answered h (co_ahead w) (tx_request t ops) (co_behind w) (co_earlier w) log s Hrec Hh Hq Hf) as Ha.
  destruct (commit_groups _ s) as [s' answers]. unfold answered in Ha. destruct (answer _) as [n|e]; [|exact Ha].
  destruct Ha as (pre & post & Hr & Hlt & Hmay). exists pre, ops, post. split_and!; [exact Hr|done|by intros k; rewrite <- Hm; apply written_entries|].
  intros k v Hv. destruct (staged_entry ops t k v Hm Hv) as (op & Hop & -> & ->). unfold may_commit in Hmay. rewrite Forall_forall in Hmay.
  destruct (Hmay op Hop) as (k & Hk & Had). pose proof (key_raw op k Hk) as ->. rewrite is_write_encoded. by destruct (op_Check op).
Qed.

(** ** The local attempt *)

Lemma stream_published h log t ops s s' r :
  Forall staged_op ops -> NoDup (raw_key <$> ops) -> list_to_map (staged <$> ops) = ws t ->
  (forall (k v : bytes), ws t !! k = Some v -> is_write v = false -> k ∈ t_guardedKeys t) ->
  streamed h log t ops s s' r ->
  match r with Ok n => published_as h log t s s' n | Err _ => not_published h log t s' end.
Proof.
  intros Ho Hnd Hm Hg [_ Hres]. destruct r as [n|e].
  - destruct Hres as (-> & Hr & Had). exists [], ops, []. split_and!; [exact Hr|cbn; lia|by intros k; rewrite <- Hm; apply written_entries|].
    intros k v Hv. rewrite app_nil_r. destruct (staged_entry ops t k v Hm Hv) as (op & Hop & -> & ->).
    rewrite Forall_forall in Had. specialize (Had op Hop). destruct (is_write _) eqn:Ew; [exact Had|].
    unfold tx_entitled in Had. rewrite guarded_entitled in Had; [exact Had|]. by apply (Hg _ _ Hv).
  - destruct Hres as [Hr|He]; [by apply not_published_yet|by right].
Qed.

Lemma published_kept h log t t' s s' n :
  kept t t' -> ws t' = ws t -> published_as h log t' s s' n -> published_as h log t s s' n.
Proof.
  intros Hk Hws. unfold published_as, tx_entitled, baselineLookup, writeBaselineFor.
  by rewrite (kp_ID _ _ Hk), (kp_Snapshot _ _ Hk), (kp_writeBaseline _ _ Hk), (kp_guardedKeys _ _ Hk), Hws.
Qed.

Lemma kept_ready log t t' : kept t t' -> commit_ready log t -> commit_ready log t'.
Proof. intros Hk []. constructor; by rewrite ?(kp_ID _ _ Hk), ?(kp_Snapshot _ _ Hk), ?(kp_writeBaseline _ _ Hk). Qed.

Lemma try_published h log t s w :
  tx_ok t -> t_closed t = false -> (forall (k v : bytes), ws t !! k = Some v -> is_write v = false -> k ∈ t_guardedKeys t) ->
  recovered h log s -> h <= u64_max -> commit_ready log t -> company_ok log (t_ID t) w ->
  let '(t', s', r) := tryLocalCommit w true t s in
  moved t t' /\
  match r with
  | Ok (Some n) => (ws t = ∅ /\ n = t_Snapshot t /\ recovered h log s') \/ published_as h log t s s' n
  | Ok None => False
  | Err _ => not_published h log t s'
  end.
Proof.
  intros Ht Hcl Hg Hrec Hh Hcr Hw. unfold tryLocalCommit. cbn [negb].
  pose proof (WalkWrites_entries collect_op t ([], 0) s Ht) as Hwk.
  destruct (WalkWrites collect_op t ([], 0) s) as [[[t1 [ops size]] s1] r]. destruct Hwk as (Hm & Ht1 & l & s0 & Hl & Hlm & Hc0 & Hwk).
  destruct (entries_ops l Hl) as (ops' & -> & Ho & Hnd). pose proof (collect_walk ops' ([], 0) s0 Ho) as Hcol.
  pose proof (mv_kept _ _ Hm) as Hk. pose proof (mv_ws _ _ Hm) as Hws.
  assert (only_clock s s1 /\ (r = Ok tt -> ops = ops')) as [Hc1 Hops].
  { destruct r as [[]|e].
    - rewrite Hwk in Hcol. destruct Hcol as [Hc1 Hops]. split; [by eapply only_clock_trans|]. intros _. by apply Hops.
    - split; [|done]. destruct Hwk as [Hwk|[_ ->]]; [|done]. rewrite Hwk in Hcol. destruct Hcol as [Hc1 _]. by eapply only_clock_trans. }
  pose proof (recovered_clock h log s s1 Hc1 Hrec) as Hrec1. assert (s_localSeq s1 = s_localSeq s) as Eq by by destruct Hc1 as [n ->].
  destruct r as [[]|e].
  - specialize (Hops eq_refl) as ->. case_bool_decide as He.
    { split; [done|]. left. subst ops'. rewrite <- Hlm. split_and!; [done|apply Hk|done]. }
    pose proof (bounded_published h log t1 s1 w ops' Hrec1 Hh (kept_ready _ _ _ Hk Hcr)) as Hb. rewrite (kp_ID _ _ Hk), Hws in Hb.
    specialize (Hb Hw Ho Hnd Hlm). destruct (commitLocalFromTx w t1 ops' s1) as [s2 [n|e]]; cbn [rbind]; (split; [done|]).
    + right. apply (published_kept h log t t1); [done|done|]. unfold published_as in *. by rewrite <- Eq.
    + unfold not_published in *. by rewrite <- (kp_ID _ _ Hk).
  - case_decide as Efull; [|split; [done|]; by apply not_published_yet].
    assert (t_closed t1 = false) as Hcl1 by by rewrite (kp_closed _ _ Hk).
    pose proof (stream_spec h log t1 s1 Ht1 Hcl1 Hrec1 Hh (kept_ready _ _ _ Hk Hcr)) as Hs.
    destruct (commitLocalStream t1 s1) as [[t2 s2] r]. destruct Hs as (Hm2 & _ & ops2 & Ho2 & Hnd2 & Hlm2 & Hs).
    apply (stream_published h log t1 ops2 s1 s2 r) in Hs; [|done|done|done|by rewrite Hws, (kp_guardedKeys _ _ Hk)].
    destruct r as [n|e']; cbn [rbind]; (split; [by etransitivity|]).
    + right. apply (published_kept h log t t1); [done|done|]. unfold published_as in *. by rewrite <- Eq.
    + unfold not_published in *. by rewrite <- (kp_ID _ _ Hk).
Qed.

(** ** Reading what was published *)

Lemma recovered_wf h log s : recovered h log s -> db_wf (s_db s).
Proof. intros (_ & _ & Hr & _). apply Hr. Qed.

Lemma published_read h log c post s k op :
  recovered h (log ++ c :: post) s -> h <= c_index c -> has_prefix rangeGuardPrefix k = false -> written k (c_ops c) = Some (version_value op) ->
  visible (s_db s) k (c_index c) = if op_Delete op then ([], c_index c, false) else (op_Value op, c_index c, true).
Proof.
  intros (_ & _ & Hr & _) Hh Hk Hw. pose proof (represents_ordered _ _ _ _ Hr) as [Hord Hidx]. rewrite Forall_app, Forall_cons in Hidx.
  destruct Hidx as (_ & Hidx & _). assert (is_u64 (c_index c)) as Hu by (unfold is_u64, u64_max in *; lia).
  rewrite (visible_abs h (s_db s) _ _ k (c_index c) Hr Hh Hu Hk).
  assert (Forall (fun c' => c_index c < c_index c') post) as Hpost.
  { rewrite fmap_app in Hord. apply StronglySorted_app in Hord as (_ & _ & Hord). cbn in Hord. apply StronglySorted_inv in Hord as [_ Hord].
    by apply (Forall_fmap c_index (Z.lt (c_index c))). }
  replace (log ++ c :: post) with ((log ++ [c]) ++ post) by by rewrite <- app_assoc. rewrite abs_read_stable by done.
  unfold abs_read, read_at. change (newest_at (abs_history (log ++ [c]) k) (fun _ => true) (c_index c)) with (abs_newest (log ++ [c]) k (c_index c)).
  destruct c as [n id ops]. rewrite abs_newest_snoc. cbn [c_ops c_index] in *. rewrite Hw, Z.leb_refl. unfold payload_read, version_value.
  by destruct (op_Delete op).
Qed.

Lemma write_of_plain t k op : tx_ok t -> write_of (ws t) k = Some op -> has_prefix rangeGuardPrefix k = false.
Proof.
  intros Ht. unfold write_of. destruct (ws t !! k) as [v|] eqn:Ev; [|done]. destruct (ok_entries t Ht k v Ev) as (op' & Hk & Hs & Hc & ->).
  rewrite is_write_encoded, (staged_decodes op') by done. unfold client_op in Hc. destruct (op_Check op') eqn:Ec; [done|]. intros _.
  by apply (key_plain op').
Qed.
(** ** Ending *)

Lemma finish_committed n t s : t_closed t = false ->
  t_hasCommitTS (finish TransactionCommitted (committed_with n) t s) = true /\ t_commitTS (finish TransactionCommitted (committed_with n) t s) = n.
Proof. intros Hc. unfold finish, applyTransition, cleanup. rewrite Hc. cbn. by rewrite Hc. Qed.

Lemma no_write_set t : hasWriteSet t = false -> ws t = ∅.
Proof.
  unfold hasWriteSet. rewrite !orb_false_iff, !negb_false_iff. intros [[Hs%bool_decide_eq_true Hb%bool_decide_eq_true] _].
  unfold ws, stage_map. rewrite Hs, Hb. cbn. by rewrite (left_id_L ∅ (∪)).
Qed.

Lemma root_published h log t s w :
  tx_ok t -> t_closed t = false -> (forall (k v : bytes), ws t !! k = Some v -> is_write v = false -> k ∈ t_guardedKeys t) ->
  recovered h log s -> h <= u64_max -> commit_ready log t -> company_ok log (t_ID t) w ->
  let '(t', s', r) := commitRoot w None t s in
  t_closed t' = true /\
  match r with
  | Ok n =>
      t_state t' = TransactionCommitted /\
      ((ws t = ∅ /\ n = t_Snapshot t /\ recovered h log s') \/
       (t_hasCommitTS t' = true /\ t_commitTS t' = n /\ published_as h log t s s' n))
  | Err _ => t_state t' = TransactionAborted /\ not_published h log t s'
  end.
Proof.
  intros Ht Hcl Hg Hrec Hh Hcr Hw. unfold commitRoot. destruct (canStillCommit t s) as [[]|e].
  2: { destruct (finish_closed TransactionAborted (because (abortReason e)) t s Hcl) as [-> ->]. split_and!; [done|done|by apply not_published_yet]. }
  destruct (hasWriteSet t) eqn:Ehas; cbn [negb].
  2: { destruct (finish_closed TransactionCommitted (because []) t s Hcl) as [-> ->]. split_and!; [done|done|]. left.
       split_and!; [by apply no_write_set|done|done]. }
  set (t0 := applyTransition TransactionCommitting (because []) t).
  assert (tx_ok t0) as Ht0 by (by destruct Ht). assert (commit_ready log t0) as Hcr0 by (by destruct Hcr).
  pose proof (try_published h log t0 s w Ht0 Hcl Hg Hrec Hh Hcr0 Hw) as Hp. unfold publish, tx_then.
  destruct (tryLocalCommit w true t0 s) as [[t1 s1] [[n|]|e]]; destruct Hp as [Hm Hp]; [|done|];
    assert (t_closed t1 = false) as Hcl1 by by rewrite (kp_closed _ _ (mv_kept _ _ Hm)).
  - unfold tx_done. destruct (finish_closed TransactionCommitted (committed_with n) t1 s1 Hcl1) as [-> ->].
    destruct (finish_committed n t1 s1 Hcl1) as [-> ->]. split_and!; [done|done|]. destruct Hp as [Hp|Hp]; [by left|by right].
  - destruct (finish_closed TransactionAborted (conflicting e) t1 s1 Hcl1) as [-> ->]. by split_and!.
Qed.
End Root.
