(* ===== verification/RootFacts.v ===== *)
(** * The properties of locked reads and of the commit of a root *)

From stdpp Require Import gmap list sorting strings fin_maps.
From Stdlib Require Import Strings.Byte.
From S2P Require Import Prelude LockTypes Interval Resource Compat Queue Manager ManagerInv ManagerSteps TxnState TxnManager Bolt Keys Versions Visibility Layouts Conflict Store CommitLog Wal Group GroupSteps WalCodec WalFile WalRecover WalGroup GroupFacts CompactFacts ScanFacts WriteSet WriteSetInv WriteSetSteps WriteSetMerge WriteSetReads CurrentRead RootCommit StreamSteps RootSteps Session RootEnd.

(** ** What a verified grant says of the lock registry *)

(** The component of the grant the read relies on is in force for the owner: a shared or exclusive claim
    on exactly the row, and no other owner holds a claim on the row that excludes it. *)
Definition read_covered (m : manager) (owner space rowKey : bytes) (grant : LockGrant) : Prop :=
  exists ref c, ref ∈ GrantComponents grant /\ Kind ref = KindRecord /\ Space ref = space /\ raw (Key ref) = rowKey /\
    in_force m owner c /\ SameClaim (cl_ref c) ref = true /\ (cl_mode c = ModeS \/ cl_mode c = ModeX) /\
    (reachable m -> forall other c', other <> owner -> in_force m other c' -> same_domain (cl_ref c) (cl_ref c') -> cl_mode c' <> ModeX).

Lemma readCoveringMode_spec m : readCoveringMode m = true <-> m = ModeS \/ m = ModeX.
Proof. unfold readCoveringMode. by rewrite orb_true_iff, !bool_decide_eq_true. Qed.

Lemma effectiveMode_elem modes : effectiveMode modes = no_mode \/ effectiveMode modes ∈ modes.
Proof.
  unfold effectiveMode. assert (forall acc, foldl (fun strongest m => if modeStrength strongest <? modeStrength m then m else strongest) acc modes = acc \/
    foldl (fun strongest m => if modeStrength strongest <? modeStrength m then m else strongest) acc modes ∈ modes) as Hg; [|apply Hg].
  induction modes as [|m modes IH]; intros acc; [by left|]. cbn [foldl]. rewrite elem_of_cons.
  destruct (IH (if modeStrength acc <? modeStrength m then m else acc)) as [->|Hin]; [|by do 2 right].
  destruct (modeStrength acc <? modeStrength m); [right; by left|by left].
Qed.

(** The mode a root holds on a resource is that of a claim in force. *)
Lemma HeldMode_claim m owner ref held :
  HeldMode m owner ref = Some held -> held <> no_mode -> exists c, in_force m owner c /\ SameClaim (cl_ref c) ref = true /\ cl_mode c = held.
Proof.
  unfold HeldMode. destruct (m_locks m !! ResourceKey ref) as [e|] eqn:Ee; [|done]. cbn [mbind option_bind].
  unfold heldModeOf, effectiveClaimOf. set (claims := filter _ (claims_of e owner)). unfold strongest.
  destruct (cl_mode <$> claims) as [|x l] eqn:El; [done|]. rewrite <- El. intros [= <-] Hne.
  destruct (effectiveMode_elem (cl_mode <$> claims)) as [|Hin]; [done|]. apply list_elem_of_fmap in Hin as (c & Hm & Hc).
  apply list_elem_of_filter in Hc as [Hp Hc]. apply Is_true_true, andb_true_iff in Hp as [Hp Hs]. exists c. split_and!; [|done|done].
  exists (ResourceKey ref), e. split_and!; [done|done|]. unfold Queue.counted in Hp. by destruct (cl_pending c).
Qed.

Lemma claim_mode m owner c : reachable m -> in_force m owner c -> cl_mode c = mode (cl_ref c) /\ wf_ref (cl_ref c).
Proof.
  intros Hm Hc. apply reachable_good in Hm. pose proof Hm as [Hi _]. destruct (in_force_ok m owner c Hm Hc) as (k & e & He & Hin & _ & _ & Hw).
  split; [|done]. by destruct (iv_claim _ _ _ _ Hi k e owner c He Hin) as (_ & ? & _).
Qed.

Lemma verify_covers registry owner grant space rowKey :
  verify_grant registry owner grant space rowKey = Ok tt ->
  GrantOwnerID grant = owner /\ exists m, registry = Some m /\ read_covered m owner space rowKey grant.
Proof.
  unfold verify_grant. destruct registry as [m|]; [|done]. destruct (_ || _) eqn:Eo; [done|].
  apply orb_false_iff in Eo as [_ Eo%negb_false_iff%bool_decide_eq_true]. destruct (Manager.Owner m owner) as [o|]; [|done].
  destruct (_ || _); [done|]. destruct (readCoveringComponent grant space rowKey) as [ref|] eqn:Er; [|done].
  destruct (HeldMode m owner ref) as [held|] eqn:Eh; [|done]. destruct (readCoveringMode held) eqn:Em; [|done]. intros _.
  apply readCoveringMode_spec in Em. split; [done|]. exists m. split; [done|].
  apply head_Some_elem_of, list_elem_of_filter in Er as [Hcov Hin]. apply Is_true_true in Hcov. unfold covers_read in Hcov.
  rewrite !andb_true_iff, !bool_decide_eq_true in Hcov. destruct Hcov as [[[Hk _] Hs] Hr].
  destruct (HeldMode_claim m owner ref held Eh) as (c & Hc & Hsame & Hmode); [by destruct Em as [-> | ->]|].
  exists ref, c. split_and!; [done..|by rewrite Hmode|]. intros Hm other c' Hne Hc' Hd Hx.
  destruct (claim_mode m owner c Hm Hc) as [E1 W1], (claim_mode m other c' Hm Hc') as [E2 W2].
  pose proof (proj2 (ResourceKey_same_domain _ _ W1 W2) Hd) as Hkey.
  pose proof (in_force_exclusive m owner other c c' (reachable_good _ Hm) ltac:(congruence) Hc Hc' Hkey) as Hno.
  rewrite (excludes_conflict (cl_ref c) (cl_ref c')) in Hno; [done| |by apply wf_mode_valid..].
  rewrite E2 in Hx. rewrite <- Hmode, E1 in Em. destruct Em as [Em|Em]; [apply ex_sym; by apply ex_write_read|by apply ex_write_write].
Qed.

Section Properties.
Context `{BoltLaws} `{GuardCodec} `{Env} `{Digest} `{!DigestLaws} `{Locking} `{Registry} `{StoreOptions} `{MapRange}.

(** C28: the commit of a root, after any session of writes, guards and locked reads, alone or among other
    requests, within one chunk or streamed, with the log file or without: when it succeeds, either
    the transaction wrote nothing, or one new commit of the log publishes exactly its last write of
    each key, at the sequence the transaction reports, nothing between having changed what it depends
    on since the version it is entitled to build on, and reading at that sequence gives its writes;
    when it fails the transaction is aborted and none of its writes is in the log, unless the store
    has failed. *)
Theorem root_commit_exact (h : Z) (log : list commit) (generation snapshot : Z) (id : bytes) (calls : list (session_call * Store))
    (w : company) (t t' : Tx) (s s' : Store) (r : result mvcc_error Z) :
  recovered h log s -> h <= u64_max -> session_steps_ok calls -> t = run_session calls (new_tx generation snapshot id) ->
  id <> [] -> length id <> 8%nat -> id ∉ c_id <$> log -> 0 <= snapshot -> company_ok log id w ->
  commitRoot w None t s = (t', s', r) ->
  t_closed t' = true /\
  match r with
  | Ok n =>
      t_state t' = TransactionCommitted /\
      (ws t = ∅ /\ n = snapshot /\ recovered h log s' \/
       t_hasCommitTS t' = true /\ t_commitTS t' = n /\
       exists pre ops post,
         recovered h (log ++ pre ++ mkCommit n id ops :: post) s' /\ s_localSeq s < n /\
         (forall k, written k ops = version_value <$> write_of (ws t) k) /\
         (forall k v, ws t !! k = Some v -> admissible (log ++ pre) (if is_write v then tx_entitled t k else snapshot) k) /\
         (forall k op, write_of (ws t) k = Some op -> h <= n ->
            visible (s_db s') k n = if op_Delete op then ([], n, false) else (op_Value op, n, true)))
  | Err _ =>
      t_state t' = TransactionAborted /\
      ((exists more, recovered h (log ++ more) s' /\ id ∉ c_id <$> more) \/ exists e, s_fatal s' = Some e)
  end.
Proof.
  intros Hrec Hh Hcalls -> Hid Hid8 Hf Hs Hw E.
  pose proof (run_session_ok calls _ _ Hcalls (new_session_ok generation snapshot id)) as [Ht _ (_ & E2 & E3 & E4) Hg Hb].
  set (t := run_session calls _) in *. cbn in E2, E3, E4.
  pose proof (root_published h log t s w Ht E4 Hg Hrec Hh) as Hp. rewrite E, E3 in Hp. destruct Hp as [Hc Hr].
  { constructor; by rewrite ?E2, ?E3. }
  { done. }
  split; [done|]. destruct r as [n|e]; destruct Hr as [Hst Hr]; (split; [done|]); unfold not_published, published_as in Hr; rewrite ?E2, ?E3 in Hr; [|done].
  destruct Hr as [Hr|(Hhas & Hts & pre & ops & post & Hr & Hlt & Hwr & Had)]; [by left|right]. split_and!; [done|done|]. exists pre, ops, post.
  split_and!; [done..|]. intros k op Hk Hhn. rewrite app_assoc in Hr.
  apply (published_read h (log ++ pre) (mkCommit n id ops) post s' k op Hr); [done|by eapply write_of_plain|]. cbn [c_ops]. by rewrite Hwr, Hk.
Qed.

(** C29: a locked read answers the innermost write of the transaction and its ancestors, as their own
    and without a commit sequence, and else what the newest commit that touched the key left, whatever
    the snapshot: no commit of the log changed the key after the version it reports.  Before and after it
    reads, the lock registry holds a shared or exclusive claim of the root on that row, and no other
    root an exclusive one.  It leaves the write set, the snapshot, the baselines of other keys and the
    store as they are.  A read that finds a published row makes its version the baseline of the key,
    unless a newer one is recorded or 16384 other keys have one; no read moves a baseline back; and
    unless the key is guarded the baseline is what a write of it is validated against. *)
Theorem current_read_exact (h : Z) (log : list commit) (t t' : Tx) (parents : list Tx) (s s' : Store) (space rowKey k : bytes)
    (grant : LockGrant) (r : result mvcc_error CurrentObservation) :
  recovered h log s -> h <= u64_max -> Forall (fun t => tx_ok t /\ tx_open t s) (t :: parents) ->
  space <> rangeGuardSpace -> key space rowKey = Ok k -> ReadCurrentLocked t parents space rowKey grant s = (t', s', r) ->
  (exists n, s' = s <| s_clock := n |>) /\
  match r with
  | Err _ => t' = t
  | Ok o =>
      match own_write (t :: parents) k with
      | Some op =>
          ob_Value o = op_Value op /\ ob_Exists o = negb (op_Delete op) /\ ob_Tombstone o = op_Delete op /\
          ob_ChangeTS o = 0 /\ ob_Source o = CurrentOwnOverlay
      | None =>
          (ob_Value o, ob_ChangeTS o, ob_Exists o) = abs_read log k u64_max /\
          ob_HasChange o = negb (ob_ChangeTS o =? 0) /\ ob_Tombstone o = ob_HasChange o && negb (ob_Exists o) /\
          (ob_HasChange o = true -> ob_Source o = CurrentCommitted) /\
          (forall c, c ∈ log -> is_Some (written k (c_ops c)) -> c_index c <= ob_ChangeTS o) /\
          (ob_Exists o = true ->
           t_writeBaseline t' !! k =
             match t_writeBaseline t !! k with
             | Some m => Some (Z.max (ob_ChangeTS o) m)
             | None => if Z.of_nat (size (t_writeBaseline t)) <? 16384 then Some (ob_ChangeTS o) else None
             end)
      end /\
      ws t' = ws t /\ t_Snapshot t' = t_Snapshot t /\ t_guardedKeys t' = t_guardedKeys t /\
      (forall k', k' <> k -> t_writeBaseline t' !! k' = t_writeBaseline t !! k') /\
      (forall m, t_writeBaseline t !! k = Some m -> exists n, t_writeBaseline t' !! k = Some n /\ m <= n) /\
      (k ∉ t_guardedKeys t' -> forall n, t_writeBaseline t' !! k = Some n -> tx_entitled t' k = n) /\
      GrantOwnerID grant = LockOwnerID t parents /\
      (forall n, n = S (s_clock s) \/ n = S (S (s_clock s)) ->
         exists m, lock_registry n = Some m /\ read_covered m (LockOwnerID t parents) space rowKey grant)
  end.
Proof.
  intros (_ & _ & Hrep & _) Hh Hl Hs Hk E. assert (is_u64 u64_max) as Hu by (unfold is_u64, u64_max; lia).
  pose proof (rp_sound _ _ _ _ Hrep) as [Hw _ _]. pose proof (plain_key space rowKey k Hs Hk) as Hpl.
  pose proof (ReadCurrentLocked_spec t parents space rowKey grant s Hw Hs) as Hr. rewrite E in Hr. destruct Hr as (Hc & Ho & Hr).
  split; [exact Hc|]. destruct r as [o|e]; [|done]. destruct Hr as (Hread & -> & Hgr).
  rewrite (readCurrent_spec (t :: parents) s space rowKey k) in Hread by done. injection Hread as Hread.
  pose proof (visible_abs h (s_db s) log _ k u64_max Hrep Hh Hu Hpl) as Hv.
  apply Forall_cons in Hl as [[Ht [Hcl _]] Hps].
  assert (o = match own_write (t :: parents) k with
          | Some op => mkObservation (op_Value op) (negb (op_Delete op)) (op_Delete op) 0 false CurrentOwnOverlay
          | None => publishedObservation (visible (s_db s) k u64_max) end) as Eo.
  { rewrite <- Hread. destruct (own_write (t :: parents) k) as [op|] eqn:Ew; [|done]. unfold overlayObservation.
    rewrite (own_write_check (t :: parents) k op); [done|constructor; [exact Ht|]|done]. eapply Forall_impl; [exact Hps|]. by intros x [? _]. }
  destruct (record_baseline space rowKey k (ob_ChangeTS o) t Hk Hcl) as [Hother Hmine].
  unfold recordWriteBaseline in *. set (t' := RecordObservationBaseline space rowKey (ob_ChangeTS o) t) in *.
  assert (ws t' = ws t /\ t_Snapshot t' = t_Snapshot t /\ t_guardedKeys t' = t_guardedKeys t) as (K1 & K2 & K3).
  { destruct Ho as [Es _]. split_and!; [exact (f_equal ws Es)|exact (f_equal t_Snapshot Es)|exact (f_equal t_guardedKeys Es)]. }
  split_and!; [|done|done|done|done| | |by apply (verify_covers _ _ _ _ _ (Hgr _ (or_introl eq_refl)))|intros n Hn; by apply (verify_covers _ _ _ _ _ (Hgr n Hn))].
  - destruct (own_write (t :: parents) k) as [op|] eqn:Hn; [by rewrite Eo|].
    split_and!; [by rewrite Eo, Hv; destruct (abs_read log k u64_max) as [[]]|rewrite Eo; by destruct (visible _ k u64_max) as [[]]
      |rewrite Eo; destruct (visible _ k u64_max) as [[? ?] []]; cbn; by rewrite ?andb_true_r, ?andb_false_r
      |rewrite Eo; by destruct (visible _ k u64_max) as [[]]|intros c Hin Hwr|intros _; exact Hmine].
    assert (ob_ChangeTS o = latest_change (s_db s) k) as -> by (rewrite Eo; unfold latest_change; by destruct (visible _ k u64_max) as [[]]).
    destruct (proj1 (latest_change_admissible h (s_db s) log (s_localSeq s) (latest_change (s_db s) k) k Hrep Hh (visible_version _ _ _ Hpl Hw Hu)) (Z.le_refl _)) as [_ Had].
    apply Had; [done|]. unfold touches. by rewrite Hpl.
  - intros m Hm. rewrite Hm in Hmine. eexists. split; [exact Hmine|lia].
  - intros Hg n Hn. by apply recorded_entitled.
Qed.
End Properties.

(** ** Two roots on a store with one committed row *)

#[local] Existing Instance calm.
#[local] Existing Instance prefix_codec.
#[local] Existing Instance sum_digest.
#[local] Existing Instance sum_digest_laws.

#[local] Instance free_locks : Locking := { abort_request := fun _ _ => []; lock_answer := fun _ _ _ => None }.
#[local] Instance no_budget : StoreOptions := { writeSetLimit := 0 }.

(** The root holds the exclusive lock of two rows. *)
Definition table_lock : ResourceRef := mkIdentity 7 (str "t") (str "t") [] KindTableIntent None None None false false ModeIX.

Definition row_lock (k : bytes) : ResourceRef := mkIdentity 7 (str "t") (str "t") (str "pk") KindRecord (Some k) None None false false ModeX.

Definition lock_ops : list mgr_op :=
  [OpRegister (str "mine") 7 0 0; OpOpenScope (str "mine") [] 0 ScopeStatement 0 0;
   OpAcquire false (str "mine") 1 [table_lock; row_lock (str "row"); row_lock (str "none")] None].

#[local] Instance one_owner : Registry := { lock_registry := fun _ => from_fresh lock_ops }.

Definition row_grant : LockGrant := mkGrant 1 (str "mine") 1 7 0 [row_lock (str "row"); row_lock (str "none")] 0.

Definition read_row : session_call := SessionRead (str "t") (str "row") row_grant.

Definition put_row (value : bytes) : session_call := SessionCall (CallPut (str "t") (str "row") value).

(** A root that began before the row was committed, read it under its lock, and then wrote it. *)
Definition late_root : Tx :=
  run_session [(read_row, young_store); (put_row (str "d"), young_store)] (new_tx 0 0 (str "mine")).

Definition own_root (calls : list session_call) : Tx := run_session ((fun c => (c, young_store)) <$> calls) (new_tx 0 1 (str "mine")).

(** Another root, whose request commits first in the same group. *)
Definition neighbour : company :=
  mkCompany [] [newRequest 0 1 (str "neighbour") [mkOp (str "t") (str "else") (str "n") false false] None] [].

Lemma young_recovered : recovered 0 first_commit young_store.
Proof.
  pose proof two_writers_ok as [Hok Hfresh].
  assert (commit_groups [two_writers] (new_store true) = (young_store, (commit_groups [two_writers] (new_store true)).2)) as E
    by apply surjective_pairing.
  assert (s_fatal young_store = None) as Hf by (vm_compute; reflexivity).
  pose proof (rw_recovered _ _ _ _ _ (groups_run 0 [two_writers] [] (new_store true) _ _ (new_store_recovered true)
    ltac:(unfold u64_max; lia) ltac:(apply Forall_singleton; exact Hok)
    ltac:(split; [apply (bool_decide_unpack _); vm_compute; exact I|by intros r _ ?%not_elem_of_nil]) E Hf)) as Hr.
  assert ([] ++ commits_of (commit_groups [two_writers] (new_store true)).2 = first_commit) as El by (vm_compute; reflexivity).
  by rewrite El in Hr.
Qed.

Lemma late_calls_ok : session_steps_ok [(read_row, young_store); (put_row (str "d"), young_store)].
Proof.
  pose proof (recovered_wf _ _ _ young_recovered) as Hw.
  constructor; [split; [discriminate|exact Hw]|]. constructor; [split; [discriminate|exact Hw]|constructor].
Qed.

Lemma neighbour_ok : company_ok first_commit (str "mine") neighbour.
Proof.
  constructor.
  - apply Forall_singleton. constructor; try done. apply Forall_singleton. by intros _.
  - apply (bool_decide_unpack _). vm_compute. exact I.
  - intros r ->%list_elem_of_singleton. apply (bool_decide_unpack _). vm_compute. exact I.
Qed.

Lemma mine_fresh : str "mine" ∉ c_id <$> first_commit.
Proof. apply (bool_decide_unpack _). vm_compute. exact I. Qed.

(** The row was committed after the snapshot, and before the locked read. *)
Lemma root_commit_exact_witness :
  exists t' s' pre ops post, commitRoot neighbour None late_root young_store = (t', s', Ok 3) /\
    recovered 0 (first_commit ++ pre ++ mkCommit 3 (str "mine") ops :: post) s' /\
    visible (s_db s') row_key 3 = (str "d", 3, true).
Proof.
  destruct (commitRoot neighbour None late_root young_store) as [[t' s'] r] eqn:E.
  destruct (root_commit_exact 0 first_commit 0 0 (str "mine") [(read_row, young_store); (put_row (str "d"), young_store)]
    neighbour late_root t' young_store s' r young_recovered) as [_ Hr];
    [unfold u64_max; lia|exact late_calls_ok|reflexivity|discriminate|discriminate|exact mine_fresh|lia|exact neighbour_ok|exact E|].
  assert (r = Ok 3) as -> by (change r with (t', s', r).2; rewrite <- E; vm_compute; reflexivity).
  destruct Hr as [_ [(Hw & _)|(_ & _ & pre & ops & post & Hr & _ & _ & _ & Hread)]].
  - exfalso. assert (ws late_root !! row_key = None) as Hn by (rewrite Hw; reflexivity). vm_compute in Hn. discriminate Hn.
  - exists t', s', pre, ops, post. split; [reflexivity|]. split; [exact Hr|].
    apply (Hread row_key (mkOp (str "t") (str "row") (str "d") false false)); [vm_compute; reflexivity|lia].
Defined.

Lemma current_read_exact_witness :
  exists t' s', ReadCurrentLocked (new_tx 0 0 (str "mine")) [] (str "t") (str "row") row_grant young_store =
    (t', s', Ok (mkObservation (str "a") true false 1 true CurrentCommitted)) /\ tx_entitled t' row_key = 1.
Proof.
  destruct (ReadCurrentLocked (new_tx 0 0 (str "mine")) [] (str "t") (str "row") row_grant young_store) as [[t' s'] r] eqn:E.
  destruct (current_read_exact 0 first_commit (new_tx 0 0 (str "mine")) t' [] young_store s' (str "t") (str "row") row_key row_grant r young_recovered) as [_ Hr];
    [unfold u64_max; lia|apply Forall_singleton; split; [apply new_tx_ok|split; vm_compute; reflexivity]|discriminate|reflexivity|exact E|].
  assert (r = Ok (mkObservation (str "a") true false 1 true CurrentCommitted)) as ->
    by (change r with (t', s', r).2; rewrite <- E; vm_compute; reflexivity).
  destruct Hr as (Ho & _ & _ & Hg & _ & _ & He & _). exists t', s'. split; [reflexivity|].
  assert (own_write [new_tx 0 0 (str "mine")] row_key = None) as En by (vm_compute; reflexivity). rewrite En in Ho.
  destruct Ho as (_ & _ & _ & _ & _ & Hb). apply He; [rewrite Hg; apply not_elem_of_empty|].
  rewrite (Hb eq_refl). vm_compute. reflexivity.
Defined.

(** A root that reads its own write under the lock of the row observes version 0, so that its commit
    is refused although nothing changed since it began; without the read it commits. *)
Lemma own_read_conflicts :
  (commitRoot alone None (own_root [put_row (str "d")]) young_store).2 = Ok 2 /\
  (commitRoot alone None (own_root [put_row (str "d"); read_row]) young_store).2 = Err ErrConflict.
Proof. split; vm_compute; reflexivity. Qed.

(** A root whose stage is there but empty commits nothing, and reports its snapshot as the sequence
    that published it. *)
Lemma empty_stage_reports_snapshot :
  let t := (new_tx 0 1 (str "mine")) <| t_stage := Some b_empty |> in
  let '(t', s', r) := commitRoot alone None t young_store in
  r = Ok 1 /\ t_hasCommitTS t' = true /\ t_commitTS t' = 1 /\ committedLocked (s_db s') (str "mine") = None.
Proof. vm_compute. repeat split. Qed.

(** A deleted row read under its lock leaves the version of the deletion as the baseline. *)
Lemma tombstone_baseline :
  let d := (commitRoot alone None (own_root [SessionCall (CallDelete (str "t") (str "row"))]) young_store).1.2 in
  let '(t', _, r) := ReadCurrentLocked (new_tx 0 2 (str "mine")) [] (str "t") (str "row") row_grant d in
  (ob_Tombstone <$> match r with Ok o => Some o | Err _ => None end) = Some true /\ t_writeBaseline t' !! row_key = Some 2.
Proof. vm_compute. split; reflexivity. Qed.

(** A key that was never written is reported as committed. *)
Lemma absent_is_committed :
  match (ReadCurrentLocked (new_tx 0 1 (str "mine")) [] (str "t") (str "none") row_grant young_store).2 with
  | Ok o => ob_Exists o = false /\ ob_HasChange o = false /\ ob_Source o = CurrentCommitted
  | Err _ => False
  end.
Proof. vm_compute. repeat split. Qed.

(** More than a chunk is streamed. *)
Definition large_root : Tx :=
  run_session [(SessionCall (CallPut (str "t") (str "a") (replicate 40000 x01)), new_store false);
               (SessionCall (CallPut (str "t") (str "b") (replicate 40000 x02)), new_store false)] (new_tx 0 0 (str "large")).

Lemma large_root_streams :
  let '(t', s', r) := commitRoot alone None large_root (new_store false) in
  r = Ok 1 /\ t_commitTS t' = 1 /\ length (s_trace s') = 2%nat /\
  blen (visible (s_db s') (str "t" ++ [x00] ++ str "b") 1).1.1 = 40000.
Proof. vm_compute. repeat split. Qed.
