(* ===== verification/TopK.v ===== *)
(** * The bounded sort of [ORDER BY ... LIMIT]: [executor/topk.go]

    [boundedRows] keeps the first [limit] rows of the order in a heap whose root is the worst row
    kept, so that a row is refused by one comparison.  The ordinals of the rows break ties the way a
    stable sort does.  Slices are lists, and the loops that move a row through the heap carry the length
    of the heap as fuel: every round goes to a parent or a child. *)

From stdpp Require Import list sorting.
From S2P Require Import Prelude.

Record rankedValue (T : Type) : Type := mkRanked { rv_value : T; rv_ordinal : Z }.
Arguments mkRanked {T}.
Arguments rv_value {T}.
Arguments rv_ordinal {T}.

Record boundedRows (T : Type) : Type := mkBounded {
  br_rows : list (rankedValue T);
  br_limit : Z;
  br_next : Z
}.
Arguments mkBounded {T}.
Arguments br_rows {T}.
Arguments br_limit {T}.
Arguments br_next {T}.

(** [boundedRows{limit: k, compare: compare}] *)
Definition bounded_rows {T} (limit : Z) : boundedRows T := mkBounded [] limit 0.

Section TopK.
Context {T : Type} (compare : T -> T -> Z) (own : T -> T).

Definition less (a c : rankedValue T) : bool :=
  let cmp := compare (rv_value a) (rv_value c) in
  (cmp <? 0) || (cmp =? 0) && (rv_ordinal a <? rv_ordinal c).

(** [rows[i], rows[j] = rows[j], rows[i]] *)
Definition swap (rows : list (rankedValue T)) (i j : nat) : list (rankedValue T) :=
  match rows !! i, rows !! j with
  | Some a, Some b => <[j := a]> (<[i := b]> rows)
  | _, _ => rows
  end.

Definition less_at (rows : list (rankedValue T)) (i j : nat) : bool :=
  match rows !! i, rows !! j with
  | Some a, Some b => less a b
  | _, _ => false
  end.

Definition parent (child : nat) : nat := Nat.div (child - 1) 2.

(** The loop that moves the last row up. *)
Fixpoint move_up (fuel : nat) (rows : list (rankedValue T)) (child : nat) : list (rankedValue T) :=
  match fuel with
  | O => rows
  | S fuel =>
      if (0 <? child)%nat then
        if negb (less_at rows (parent child) child) then rows
        else move_up fuel (swap rows (parent child) child) (parent child)
      else rows
  end.

Definition worse_child (rows : list (rankedValue T)) (at_ : nat) : nat :=
  let child := (2 * at_ + 1)%nat in
  if (child + 1 <? length rows)%nat && less_at rows child (child + 1) then (child + 1)%nat else child.

(** The loop that moves the root down. *)
Fixpoint move_down (fuel : nat) (rows : list (rankedValue T)) (at_ : nat) : list (rankedValue T) :=
  match fuel with
  | O => rows
  | S fuel =>
      if (length rows <=? 2 * at_ + 1)%nat then rows
      else
        let child := worse_child rows at_ in
        if negb (less_at rows at_ child) then rows
        else move_down fuel (swap rows at_ child) child
  end.

Definition offer (b : boundedRows T) (value : T) : boundedRows T :=
  let candidate := mkRanked value (br_next b) in
  let owned := mkRanked (own value) (br_next b) in
  let next := (br_next b + 1) mod 2 ^ 64 in
  if br_limit b <=? 0 then mkBounded (br_rows b) (br_limit b) next
  else if Z.of_nat (length (br_rows b)) <? br_limit b then
    let rows := br_rows b ++ [owned] in
    mkBounded (move_up (length rows) rows (length rows - 1)) (br_limit b) next
  else
    match br_rows b with
    | root :: rest =>
        if negb (less candidate root) then mkBounded (br_rows b) (br_limit b) next
        else mkBounded (move_down (length (br_rows b)) (owned :: rest) 0) (br_limit b) next
    | [] => mkBounded [] (br_limit b) next
    end.

Definition sorted (b : boundedRows T) : list T := rv_value <$> sort_stable less (br_rows b).
End TopK.

Definition int_max : Z := 2 ^ 63 - 1.

(** [None]: the bound is not used. *)
Definition boundedSortLimit (offset limit rows : Z) : Z * bool :=
  if (offset <? 0) || (limit <? 0) || (int_max - limit <? offset) then (0, false)
  else let k := offset + limit in (k, (k <=? 65536) && (k <? rows ÷ 2)).

(** The page of a result ([rows[start:end]] of [executor.go]). *)
Definition page {A} (offset limit : Z) (rows : list A) : list A :=
  let start := Z.min offset (Z.of_nat (length rows)) in
  let stop := if limit <? Z.of_nat (length rows) - start then start + limit else Z.of_nat (length rows) in
  take (Z.to_nat (stop - start)) (drop (Z.to_nat start) rows).

(** The rows of a query, bounded or sorted in full, and its page ([executeSelect] and the expression path). *)
Definition ordered_page {T} (compare : T -> T -> Z) (own : T -> T) (offset : Z) (limit : option Z) (count : Z) (rows : list T) : list T :=
  let '(k, bounded) := boundedSortLimit offset (default 0 limit) count in
  let rows :=
    if bool_decide (is_Some limit) && bounded then sorted compare (foldl (offer compare own) (bounded_rows k) rows)
    else sort_stable (fun a b => compare a b <? 0) rows in
  page offset (default (Z.of_nat (length rows)) limit) rows.

(** ** The order of ranked rows *)

Section Order.
Context {T : Type} (compare : T -> T -> Z).
Context (compare_sym : forall x y, Z.sgn (compare y x) = - Z.sgn (compare x y)).
Context (compare_trans : forall x y z, compare x y <= 0 -> compare y z <= 0 -> compare x z <= 0).
Notation less := (less compare).
Implicit Types (a b : rankedValue T) (rows : list (rankedValue T)).

Lemma less_spec a b :
  less a b = true <-> compare (rv_value a) (rv_value b) < 0 \/ compare (rv_value a) (rv_value b) = 0 /\ rv_ordinal a < rv_ordinal b.
Proof. unfold less. bool_goal. lia. Qed.

Lemma less_false a b :
  less a b = false <-> 0 < compare (rv_value a) (rv_value b) \/ compare (rv_value a) (rv_value b) = 0 /\ rv_ordinal b <= rv_ordinal a.
Proof. rewrite <- not_true_iff_false, less_spec. lia. Qed.

Lemma less_asym a b : less a b = true -> less b a = false.
Proof. rewrite less_spec, less_false. pose proof (compare_sym (rv_value a) (rv_value b)). lia. Qed.

Lemma ge_trans a b (c : rankedValue T) : less a b = false -> less b c = false -> less a c = false.
Proof.
  rewrite !less_false. pose proof (compare_sym (rv_value a) (rv_value b)). pose proof (compare_sym (rv_value b) (rv_value c)).
  pose proof (compare_sym (rv_value a) (rv_value c)). pose proof (compare_trans (rv_value c) (rv_value b) (rv_value a)).
  pose proof (compare_trans (rv_value a) (rv_value c) (rv_value b)). pose proof (compare_trans (rv_value b) (rv_value a) (rv_value c)). lia.
Qed.

Lemma ge_antisym a b : less a b = false -> less b a = false -> rv_ordinal a = rv_ordinal b.
Proof. rewrite !less_false. pose proof (compare_sym (rv_value a) (rv_value b)). lia. Qed.

Lemma ranked_sorted rows : StronglySorted (not_after less) (sort_stable less rows).
Proof. apply sort_stable_sorted; [apply less_asym|]. intros x y z ??. by apply (ge_trans z y x). Qed.

(** The smaller part of a list of distinct ordinals sorts to the front of it. *)
Lemma sorted_part rows dropped seen :
  rows ++ dropped ≡ₚ seen -> NoDup (rv_ordinal <$> seen) -> (forall a b, a ∈ rows -> b ∈ dropped -> less b a = false) ->
  sort_stable less rows = take (length rows) (sort_stable less seen).
Proof.
  intros Hp Hn Hd.
  assert (sort_stable less rows ++ sort_stable less dropped = sort_stable less seen) as <-.
  - apply (StronglySorted_unique_strong (not_after less)).
    + intros x y Hx Hy Hxy Hyx. rewrite sort_stable_perm in Hy. rewrite !sort_stable_perm, Hp in Hx.
      pose proof (ge_antisym x y Hyx Hxy) as Ho. apply list_elem_of_lookup in Hx as [i Hi], Hy as [j Hj].
      assert (i = j) as ->; [|congruence]. apply (NoDup_lookup _ i j (rv_ordinal x) Hn); rewrite list_lookup_fmap, ?Hi, ?Hj; cbn; congruence.
    + apply StronglySorted_app. split_and!; [|apply ranked_sorted..]. intros x y Hx Hy. rewrite sort_stable_perm in Hx, Hy. by apply Hd.
    + apply ranked_sorted.
    + by rewrite !sort_stable_perm.
  - by rewrite take_app_length' by (by rewrite sort_stable_perm).
Qed.

(** ** The heap *)

(** No row is worse than the row at [i] stands above. *)
Definition above rows (i j : nat) : Prop := forall a b, rows !! i = Some a -> rows !! j = Some b -> less a b = false.

Definition heap rows : Prop := forall i, (0 < i < length rows)%nat -> above rows (parent i) i.

Lemma less_at_above rows i j : less_at compare rows i j = false <-> above rows i j.
Proof.
  unfold less_at, above. destruct (rows !! i), (rows !! j); (split; [intros E a b Ha Hb|intros Ha]); try congruence. by apply Ha.
Qed.

Lemma above_trans rows i j k : is_Some (rows !! j) -> above rows i j -> above rows j k -> above rows i k.
Proof. intros [b Hb] H1 H2 a c Ha Hc. apply (ge_trans a b c); eauto. Qed.

Lemma parent_spec i p : (0 < i)%nat -> parent i = p <-> (i = 2 * p + 1 \/ i = 2 * p + 2)%nat.
Proof.
  intros Hi. unfold parent. split.
  - intros <-. pose proof (Nat.div_mod_eq (i - 1) 2). pose proof (Nat.mod_upper_bound (i - 1) 2 ltac:(lia)). lia.
  - intros [->| ->].
    + symmetry. by apply (Nat.div_unique _ 2 p 0); lia.
    + symmetry. by apply (Nat.div_unique _ 2 p 1); lia.
Qed.

Lemma parent_lt i : (0 < i)%nat -> (parent i < i)%nat.
Proof. intros Hi. pose proof (proj1 (parent_spec i _ Hi) eq_refl). lia. Qed.

Lemma heap_root rows i : heap rows -> (i < length rows)%nat -> above rows 0 i.
Proof.
  intros Hh. induction (lt_wf i) as [i _ IH]. intros Hi. destruct (decide (i = 0)%nat) as [->|Hne].
  { intros a b Ha Hb. rewrite Ha in Hb. injection Hb as ->. rewrite less_false. pose proof (compare_sym (rv_value b) (rv_value b)). lia. }
  pose proof (parent_lt i ltac:(lia)). apply (above_trans rows 0 (parent i) i).
  - apply lookup_lt_is_Some. lia.
  - apply IH; lia.
  - apply Hh. lia.
Qed.

(** ** Moving a row *)

Lemma length_swap rows i j : length (swap rows i j) = length rows.
Proof. unfold swap. destruct (rows !! i), (rows !! j); by rewrite ?length_insert. Qed.

Lemma lookup_swap rows i j k :
  (i < length rows)%nat -> (j < length rows)%nat ->
  swap rows i j !! k = if decide (k = j) then rows !! i else if decide (k = i) then rows !! j else rows !! k.
Proof.
  intros [a Ha]%lookup_lt_is_Some [b Hb]%lookup_lt_is_Some. unfold swap. rewrite Ha, Hb.
  pose proof (lookup_lt_Some _ _ _ Ha). pose proof (lookup_lt_Some _ _ _ Hb).
  case_decide as Ej; [subst; by rewrite list_lookup_insert_eq by (by rewrite length_insert)|].
  rewrite list_lookup_insert_ne by done. case_decide as Ei; [subst; by rewrite list_lookup_insert_eq|by rewrite list_lookup_insert_ne].
Qed.

Lemma swap_perm rows i j : (i < length rows)%nat -> (j < length rows)%nat -> swap rows i j ≡ₚ rows.
Proof.
  intros Hi Hj. apply Permutation_inj. split; [apply length_swap|].
  exists (fun k => if decide (k = j) then i else if decide (k = i) then j else k). split.
  - intros x y. repeat case_decide; congruence.
  - intros k. rewrite lookup_swap by done. by repeat case_decide.
Qed.

(** The heap holds but for the row at [c], which may be worse than its parents. *)
Record rising rows (c : nat) : Prop := {
  ri_other : forall i, (0 < i < length rows)%nat -> i <> c -> above rows (parent i) i;
  ri_below : forall i, (0 < i < length rows)%nat -> parent i = c -> (0 < c)%nat -> above rows (parent c) i
}.

(** ... which may be better than its children. *)
Record sinking rows (c : nat) : Prop := {
  si_other : forall i, (0 < i < length rows)%nat -> parent i <> c -> above rows (parent i) i;
  si_below : forall i, (0 < i < length rows)%nat -> parent i = c -> (0 < c)%nat -> above rows (parent c) i
}.

(** One comparison of two rows of a heap after a swap. *)
Lemma above_swap rows i j k l :
  (i < length rows)%nat -> (j < length rows)%nat ->
  above (swap rows i j) k l <->
  above rows (if decide (k = j) then i else if decide (k = i) then j else k) (if decide (l = j) then i else if decide (l = i) then j else l).
Proof. intros Hi Hj. unfold above. rewrite !lookup_swap by done. by repeat case_decide. Qed.

Lemma above_flip rows i j : less_at compare rows i j = true -> above rows j i.
Proof.
  unfold less_at, above. destruct (rows !! i), (rows !! j); intros Hl a b [= ->] [= ->] || done. by apply less_asym.
Qed.

Ltac place := rewrite above_swap by lia; repeat case_decide; subst; try lia.

Lemma rising_swap rows c :
  rising rows c -> (0 < c < length rows)%nat -> less_at compare rows (parent c) c = true -> rising (swap rows (parent c) c) (parent c).
Proof.
  intros [Ho Hb] Hc Hl. pose proof (parent_lt c ltac:(lia)) as Hp. apply above_flip in Hl as Hf.
  pose proof (fun j => proj2 (lookup_lt_is_Some rows j)) as Hin. split; rewrite length_swap; intros i Hi.
  - intros Hne. destruct (decide (i = c)) as [->|Hic]; [place; exact Hf|].
    destruct (decide (parent i = parent c)) as [Ep|Hnp].
    { rewrite Ep. place. apply (above_trans rows c (parent c) i); [apply Hin; lia|done|]. rewrite <- Ep. by apply Ho. }
    destruct (decide (parent i = c)) as [Ec|Hnc]; [rewrite Ec; place; apply Hb; lia|]. place. by apply Ho.
  - intros Ep Hp0. pose proof (parent_lt (parent c) Hp0) as Hpp. destruct (decide (i = c)) as [->|Hic].
    { place. apply Ho; lia. }
    pose proof (parent_lt i ltac:(lia)). place. apply (above_trans rows _ (parent c) i); [apply Hin; lia|apply Ho; lia|]. rewrite <- Ep. by apply Ho.
Qed.

Lemma move_up_heap fuel rows c :
  rising rows c -> (c < length rows)%nat -> (c < fuel)%nat -> heap (move_up compare fuel rows c) /\ move_up compare fuel rows c ≡ₚ rows.
Proof.
  revert rows c. induction fuel as [|fuel IH]; intros rows c Hr Hc Hf; [lia|]. cbn [move_up].
  destruct (Nat.ltb_spec 0 c) as [H0|H0].
  - destruct (less_at compare rows (parent c) c) eqn:El; cbn [negb].
    + pose proof (parent_lt c H0). destruct (IH (swap rows (parent c) c) (parent c)) as [Hh Hp].
      { by apply rising_swap. } { rewrite length_swap. lia. } { lia. }
      split; [done|]. by rewrite Hp, swap_perm by lia.
    + split; [|done]. intros i Hi. destruct (decide (i = c)) as [->|]; [by apply less_at_above|by apply Hr].
  - split; [|done]. intros i Hi. apply Hr; lia.
Qed.

Lemma worse_child_spec rows c :
  (2 * c + 1 < length rows)%nat -> let w := worse_child compare rows c in
  (w < length rows)%nat /\ (0 < w)%nat /\ parent w = c /\ forall i, (0 < i < length rows)%nat -> parent i = c -> above rows w i.
Proof.
  intros Hc. unfold worse_child. cbv zeta.
  assert (forall i, above rows i i) as Hrefl.
  { intros i a b Ha Hb. rewrite Ha in Hb. injection Hb as ->. rewrite less_false. pose proof (compare_sym (rv_value b) (rv_value b)). lia. }
  destruct ((2 * c + 1 + 1 <? length rows)%nat && less_at compare rows (2 * c + 1) (2 * c + 1 + 1)) eqn:E.
  - apply andb_true_iff in E as [E%Nat.ltb_lt El]. split_and!; [lia..|apply parent_spec; lia|].
    intros i Hi [->| ->]%parent_spec; [by apply above_flip| |lia]. replace (2 * c + 1 + 1)%nat with (2 * c + 2)%nat by lia. apply Hrefl.
  - split_and!; [lia..|apply parent_spec; lia|]. intros i Hi [->| ->]%parent_spec; [apply Hrefl| |lia].
    apply andb_false_iff in E as [E%Nat.ltb_ge|E]; [lia|]. apply less_at_above. by replace (2 * c + 2)%nat with (2 * c + 1 + 1)%nat by lia.
Qed.

Lemma sinking_swap rows c w :
  sinking rows c -> (c < length rows)%nat -> (0 < w < length rows)%nat -> parent w = c -> less_at compare rows c w = true ->
  (forall i, (0 < i < length rows)%nat -> parent i = c -> above rows w i) -> sinking (swap rows c w) w.
Proof.
  intros [Ho Hb] Hc Hw Hpw Hl Hmax. apply above_flip in Hl as Hf. pose proof (parent_lt w ltac:(lia)) as Hlt.
  split; rewrite length_swap; intros i Hi; pose proof (parent_lt i ltac:(lia)) as Hpi.
  - intros Hne. destruct (decide (parent i = c)) as [Ec|Hnc].
    + rewrite Ec. destruct (decide (i = w)) as [->|Hiw]; [by place|]. place. by apply Hmax.
    + destruct (decide (i = c)) as [->|Hic]; [place; apply Hb; lia|]. place. by apply Ho.
  - intros Ep Hw0. rewrite Hpw. rewrite <- Ep. place; apply Ho; lia.
Qed.

Lemma move_down_heap fuel rows c :
  sinking rows c -> (c < length rows)%nat -> (length rows <= c + fuel)%nat -> heap (move_down compare fuel rows c) /\ move_down compare fuel rows c ≡ₚ rows.
Proof.
  revert rows c. induction fuel as [|fuel IH]; intros rows c Hr Hc Hf; [lia|]. cbn [move_down].
  destruct (Nat.leb_spec (length rows) (2 * c + 1)) as [H0|H0].
  { split; [|done]. intros i Hi. apply Hr; [done|]. intros Ep. apply parent_spec in Ep; lia. }
  destruct (worse_child_spec rows c H0) as (Hw & Hw0 & Hpw & Hmax). set (w := worse_child compare rows c) in *.
  destruct (less_at compare rows c w) eqn:El; cbn [negb].
  - pose proof (parent_lt w Hw0). destruct (IH (swap rows c w) w) as [Hh Hp].
    { by apply sinking_swap. } { by rewrite length_swap. } { rewrite length_swap. lia. }
    split; [done|]. by rewrite Hp, swap_perm by lia.
  - split; [|done]. intros i Hi. destruct (decide (parent i = c)) as [Ep|]; [|by apply Hr].
    rewrite Ep. apply (above_trans rows c w i); [by apply lookup_lt_is_Some|by apply less_at_above|by apply Hmax].
Qed.
End Order.

(** ** What is kept *)

Section Kept.
Context {T : Type} (compare : T -> T -> Z) (own : T -> T).
Context (compare_sym : forall x y, Z.sgn (compare y x) = - Z.sgn (compare x y)).
Context (compare_trans : forall x y z, compare x y <= 0 -> compare y z <= 0 -> compare x z <= 0).
Context (own_compare : forall x y, compare (own x) y = compare x y /\ compare x (own y) = compare x y).
Notation less := (less compare).

(** The order of the query, and a row with the place it came in. *)
Definition in_order (x y : T) : bool := compare x y <? 0.

Definition ranked (values : list T) : list (rankedValue T) := imap (fun i v => mkRanked (own v) (Z.of_nat i)) values.

Lemma ranked_snoc values v : ranked (values ++ [v]) = ranked values ++ [mkRanked (own v) (Z.of_nat (length values))].
Proof. unfold ranked. rewrite imap_app. cbn. by rewrite Nat.add_0_r. Qed.

Lemma length_ranked values : length (ranked values) = length values.
Proof. apply length_imap. Qed.

Lemma ranked_ordinals values : rv_ordinal <$> ranked values = Z.of_nat <$> seq 0 (length values).
Proof.
  apply list_eq. intros i. unfold ranked. rewrite !list_lookup_fmap, list_lookup_imap.
  destruct (values !! i) eqn:E; cbn.
  - by rewrite lookup_seq_lt by (by apply lookup_lt_Some in E).
  - by rewrite lookup_seq_ge by (by apply lookup_ge_None in E).
Qed.

Lemma ranked_NoDup values : NoDup (rv_ordinal <$> ranked values).
Proof. rewrite ranked_ordinals. apply NoDup_fmap_2; [intros x y; lia|apply NoDup_seq]. Qed.

Lemma ranked_bound values a : a ∈ ranked values -> rv_ordinal a < Z.of_nat (length values).
Proof.
  intros Ha. assert (rv_ordinal a ∈ rv_ordinal <$> ranked values) as Hin by (by apply list_elem_of_fmap_2).
  rewrite ranked_ordinals in Hin. apply list_elem_of_fmap in Hin as (i & -> & Hi%elem_of_seq). lia.
Qed.

(** Ordinals make the sort stable. *)
Lemma insert_ranked x n rows :
  Forall (fun a => rv_ordinal a < n) rows -> rv_value <$> insert_sorted less (mkRanked x n) rows = insert_sorted in_order x (rv_value <$> rows).
Proof.
  induction 1 as [|a rows Ha _ IH]; [done|]. cbn [insert_sorted fmap list_fmap].
  assert (less (mkRanked x n) a = in_order x (rv_value a)) as ->; [|destruct (in_order x (rv_value a)); [done|cbn; by rewrite <- IH]].
  unfold TopK.less, in_order. cbn [rv_value rv_ordinal]. destruct (Z.ltb_spec n (rv_ordinal a)); [lia|]. by rewrite andb_false_r, orb_false_r.
Qed.

Lemma insert_owned x l : own <$> insert_sorted in_order x l = insert_sorted in_order (own x) (own <$> l).
Proof.
  induction l as [|y l IH]; [done|]. cbn [insert_sorted fmap list_fmap].
  assert (in_order (own x) (own y) = in_order x y) as ->; [|destruct (in_order x y); [done|cbn; by rewrite <- IH]].
  unfold in_order. destruct (own_compare x (own y)) as [-> _], (own_compare x y) as [_ ->]. done.
Qed.

Lemma sort_ranked values : rv_value <$> sort_stable less (ranked values) = own <$> sort_stable in_order values.
Proof.
  induction values as [|v values IH] using rev_ind; [done|]. rewrite ranked_snoc. unfold sort_stable in *. rewrite !reverse_snoc. cbn [foldr].
  rewrite insert_ranked, IH, insert_owned; [done|]. rewrite foldr_insert_perm, reverse_Permutation. apply Forall_forall. intros a. apply ranked_bound.
Qed.

(** The rows kept of those seen: none of those left out is better. *)
Definition kept (b : boundedRows T) (seen : list T) : Prop :=
  br_next b = Z.of_nat (length seen) /\ heap compare (br_rows b) /\
  exists dropped, br_rows b ++ dropped ≡ₚ ranked seen /\ (forall x y, x ∈ br_rows b -> y ∈ dropped -> less y x = false) /\
    (Z.of_nat (length (br_rows b)) = Z.max 0 (br_limit b) \/ dropped = [] /\ Z.of_nat (length (br_rows b)) < br_limit b).

Lemma kept_empty limit : kept (bounded_rows limit) [].
Proof.
  split_and!; [done|intros i Hi; cbn in Hi; lia|]. exists []. split_and!; [done|by intros x y ?%not_elem_of_nil|].
  cbn [br_rows br_limit bounded_rows length]. destruct (Z.leb_spec limit 0); [left; lia|right; split; [done|lia]].
Qed.

Lemma offer_append b seen v :
  kept b seen -> 0 < br_limit b -> Z.of_nat (length (br_rows b)) < br_limit b ->
  let rows := br_rows b ++ [mkRanked (own v) (br_next b)] in
  kept (mkBounded (move_up compare (length rows) rows (length rows - 1)) (br_limit b) (Z.of_nat (S (length seen)))) (seen ++ [v]).
Proof.
  intros (Hn & Hh & dropped & Hp & Hd & Hl) Hk Hlt rows. assert (dropped = []) as -> by (destruct Hl as [|[]]; [lia|done]).
  rewrite app_nil_r in Hp. assert (length rows = S (length (br_rows b))) as El by (unfold rows; rewrite length_app; cbn; lia).
  destruct (move_up_heap compare compare_sym compare_trans (length rows) rows (length rows - 1)) as [Hh' Hp']; [|lia..|].
  - rewrite El. split; intros i Hi; cbn [Nat.sub]; rewrite El in Hi; [|intros Ep; apply parent_spec in Ep; lia].
    intros Hne x y Hx Hy. rewrite Nat.sub_0_r in Hne. pose proof (parent_lt i ltac:(lia)).
    unfold rows in Hx, Hy. rewrite lookup_app_l in Hx, Hy by lia. eapply Hh; [|exact Hx|exact Hy]. lia.
  - split_and!; [cbn; rewrite length_app; cbn; lia|done|]. exists []. cbn [br_rows br_limit]. split_and!.
    + rewrite app_nil_r, Hp', ranked_snoc, <- Hp, <- Hn. done.
    + by intros x y _ ?%not_elem_of_nil.
    + rewrite Hp', El. destruct (Z.eqb_spec (Z.of_nat (S (length (br_rows b)))) (br_limit b)); [left; lia|right; split; [done|lia]].
Qed.

Lemma offer_refuse b seen v root rest :
  kept b seen -> br_rows b = root :: rest -> Z.of_nat (length (br_rows b)) = Z.max 0 (br_limit b) -> less (mkRanked (own v) (br_next b)) root = false ->
  kept (mkBounded (br_rows b) (br_limit b) (Z.of_nat (S (length seen)))) (seen ++ [v]).
Proof.
  intros (Hn & Hh & dropped & Hp & Hd & _) Er El Hless. split_and!; [cbn; rewrite length_app; cbn; lia|done|].
  exists (dropped ++ [mkRanked (own v) (br_next b)]). cbn [br_rows br_limit]. split_and!; [|intros x y Hx|by left].
  - rewrite app_assoc, Hp, ranked_snoc, Hn. done.
  - intros [Hy| ->%list_elem_of_singleton]%elem_of_app; [by apply Hd|]. apply (ge_trans compare compare_sym compare_trans _ root); [done|].
    apply list_elem_of_lookup in Hx as [i Hi]. eapply (heap_root compare compare_sym compare_trans _ i Hh); [by apply lookup_lt_Some in Hi|by rewrite Er|done].
Qed.

Lemma offer_replace b seen v root rest :
  kept b seen -> br_rows b = root :: rest -> Z.of_nat (length (br_rows b)) = Z.max 0 (br_limit b) -> less (mkRanked (own v) (br_next b)) root = true ->
  kept (mkBounded (move_down compare (length (br_rows b)) (mkRanked (own v) (br_next b) :: rest) 0) (br_limit b) (Z.of_nat (S (length seen)))) (seen ++ [v]).
Proof.
  intros (Hn & Hh & dropped & Hp & Hd & _) Er El Hless. set (c := mkRanked (own v) (br_next b)) in *.
  destruct (move_down_heap compare compare_sym compare_trans (length (br_rows b)) (c :: rest) 0) as [Hh' Hp'].
  { split; intros i Hi; [|lia]. intros Hne x y Hx Hy. destruct i as [|i]; [lia|]. cbn in Hi. destruct (parent (S i)) as [|p] eqn:Ep; [lia|].
    pose proof (Hh (S i)) as Ha. rewrite Er, Ep in Ha. apply Ha; [cbn; lia|done..]. }
  { cbn; lia. } { rewrite Er. cbn; lia. }
  split_and!; [cbn; rewrite length_app; cbn; lia|done|]. exists (root :: dropped). cbn [br_rows br_limit]. split_and!.
  - rewrite Hp', ranked_snoc, <- Hp, Er, <- Hn. fold c. cbn. rewrite <- Permutation_middle, Permutation_app_comm. cbn.
    rewrite <- (Permutation_cons_append _ c). by constructor.
  - assert (forall x, x ∈ c :: rest -> less root x = false) as Hroot.
    { intros x [-> |Hx]%elem_of_cons; [by apply less_asym|]. apply list_elem_of_lookup in Hx as [i Hi].
      eapply (heap_root compare compare_sym compare_trans _ (S i) Hh); rewrite Er; [cbn; apply lookup_lt_Some in Hi; lia|done|done]. }
    intros x y Hx. rewrite Hp' in Hx. intros [-> |Hy]%elem_of_cons; [by apply Hroot|].
    apply (ge_trans compare compare_sym compare_trans _ root); [|by apply Hroot]. apply Hd; [rewrite Er; by left|done].
  - left. rewrite Hp'. rewrite Er in El. exact El.
Qed.

Lemma offer_nothing b seen v :
  kept b seen -> br_rows b = [] -> br_limit b <= 0 -> kept (mkBounded (br_rows b) (br_limit b) (Z.of_nat (S (length seen)))) (seen ++ [v]).
Proof.
  intros (Hn & Hh & dropped & Hp & _ & _) Er Hk. split_and!; [cbn; rewrite length_app; cbn; lia|done|].
  exists (dropped ++ [mkRanked (own v) (br_next b)]). cbn [br_rows br_limit]. split_and!.
  - by rewrite app_assoc, Hp, ranked_snoc, Hn.
  - intros x y Hx. rewrite Er in Hx. by apply not_elem_of_nil in Hx.
  - left. rewrite Er. cbn [length]. lia.
Qed.

Lemma offer_limit b v : br_limit (offer compare own b v) = br_limit b.
Proof. unfold offer. repeat (case_match; try done). Qed.

Lemma offer_kept b seen v :
  kept b seen -> Z.of_nat (S (length seen)) < 2 ^ 64 -> kept (offer compare own b v) (seen ++ [v]).
Proof.
  intros Hk Hlt. pose proof Hk as (Hn & _ & dropped & Hp & _ & Hl). unfold offer.
  assert ((br_next b + 1) mod 2 ^ 64 = Z.of_nat (S (length seen))) as -> by (rewrite Z.mod_small; lia).
  assert (forall root, less (mkRanked v (br_next b)) root = less (mkRanked (own v) (br_next b)) root) as Hown.
  { intros root. unfold TopK.less. cbn. by rewrite (proj1 (own_compare v (rv_value root))). }
  destruct (Z.leb_spec (br_limit b) 0) as [H0|H0].
  { apply offer_nothing; [done| |done]. apply length_zero_iff_nil. lia. }
  destruct (Z.ltb_spec (Z.of_nat (length (br_rows b))) (br_limit b)) as [H1|H1]; [by apply offer_append|].
  assert (Z.of_nat (length (br_rows b)) = Z.max 0 (br_limit b)) as El by (destruct Hl as [|[]]; lia).
  destruct (br_rows b) as [|root rest] eqn:Er; [cbn in El; lia|]. rewrite Hown, <- Er. rewrite <- Er in El.
  destruct (less (mkRanked (own v) (br_next b)) root) eqn:E; cbn [negb]; [by apply (offer_replace b seen v root rest)|by apply (offer_refuse b seen v root rest)].
Qed.

Lemma foldl_kept values b seen :
  kept b seen -> Z.of_nat (length seen + length values) < 2 ^ 64 ->
  kept (foldl (offer compare own) b values) (seen ++ values) /\ br_limit (foldl (offer compare own) b values) = br_limit b.
Proof.
  revert b seen. induction values as [|v values IH]; intros b seen Hk Hlt; cbn [foldl]; [by rewrite app_nil_r|].
  cbn [length] in Hlt. rewrite cons_middle, app_assoc, <- (offer_limit b v). apply IH; [apply offer_kept; [done|lia]|].
  rewrite length_app. cbn. lia.
Qed.

Lemma sorted_kept b seen :
  kept b seen -> sorted compare b = own <$> take (Z.to_nat (br_limit b)) (sort_stable in_order seen).
Proof.
  intros (_ & _ & dropped & Hp & Hd & Hl). unfold sorted.
  rewrite (sorted_part compare compare_sym compare_trans _ dropped (ranked seen)) by (done || apply ranked_NoDup).
  rewrite !fmap_take, sort_ranked.
  destruct Hl as [Hl|[-> Hl]]; [f_equal; f_equal; lia|]. rewrite app_nil_r in Hp.
  assert (length (br_rows b) = length seen) as El by (by rewrite Hp, length_ranked).
  rewrite !take_ge; [done|rewrite length_fmap, sort_stable_perm; lia..].
Qed.
End Kept.

(** ** Pages *)

Lemma page_spec {A} (offset limit : Z) (rows : list A) :
  0 <= offset -> 0 <= limit -> page offset limit rows = take (Z.to_nat limit) (drop (Z.to_nat offset) rows).
Proof.
  intros Ho Hl. unfold page. destruct (Z.le_gt_cases (Z.of_nat (length rows)) offset) as [H|H].
  - rewrite Z.min_r by done. rewrite !drop_ge, !take_nil by lia. done.
  - rewrite Z.min_l by lia. destruct (Z.ltb_spec limit (Z.of_nat (length rows) - offset)); [f_equal; lia|].
    rewrite !take_ge; [done|rewrite length_drop; lia..].
Qed.

Lemma page_take {A} (offset limit k : Z) (rows : list A) :
  0 <= offset -> 0 <= limit -> k = offset + limit -> page offset limit (take (Z.to_nat k) rows) = page offset limit rows.
Proof.
  intros Ho Hl ->. rewrite !page_spec, Z2Nat.inj_add, take_drop_commute by done.
  by rewrite (take_drop_commute rows), take_take, Nat.min_id.
Qed.

(** ** Properties *)

(** C34: the rows kept in the heap, of fewer than 2^64 rows offered in any order, are exactly the first
    [limit] rows of the stable sort of all of them, so that the page of a query is the page of its
    full stable sort whether or not the bounded sort is used. *)
Theorem bounded_sort_exact {T} (compare : T -> T -> Z) (own : T -> T) (offset : Z) (limit : option Z) (count k : Z) (rows : list T) :
  (forall x y, Z.sgn (compare y x) = - Z.sgn (compare x y)) ->
  (forall x y z, compare x y <= 0 -> compare y z <= 0 -> compare x z <= 0) ->
  (forall x, own x = x) -> 0 <= offset -> (forall n, limit = Some n -> 0 <= n) -> Z.of_nat (length rows) < 2 ^ 64 ->
  sorted compare (foldl (offer compare own) (bounded_rows k) rows) = take (Z.to_nat k) (sort_stable (fun x y => compare x y <? 0) rows) /\
  ordered_page compare own offset limit count rows =
    let all := sort_stable (fun x y => compare x y <? 0) rows in
    match limit with Some n => take (Z.to_nat n) (drop (Z.to_nat offset) all) | None => drop (Z.to_nat offset) all end.
Proof.
  intros Hsym Htrans Hown Ho Hl Hlt.
  assert (forall x y, compare (own x) y = compare x y /\ compare x (own y) = compare x y) as Hc by (intros; by rewrite !Hown).
  assert (forall k, sorted compare (foldl (offer compare own) (bounded_rows k) rows) = take (Z.to_nat k) (sort_stable (fun x y => compare x y <? 0) rows)) as Hs.
  { intros k'. destruct (foldl_kept compare own Hsym Htrans Hc rows (bounded_rows k') []) as [Hk El]; [apply kept_empty|done|].
    rewrite (sorted_kept compare own Hsym Htrans Hc _ _ Hk), El. cbn [br_limit bounded_rows app]. unfold in_order.
    rewrite (list_fmap_ext own id) by (intros; apply Hown). by rewrite list_fmap_id. }
  split; [apply Hs|]. unfold ordered_page. destruct (boundedSortLimit offset (default 0 limit) count) as [k' bounded] eqn:Ek.
  destruct limit as [n|]; cbn [default]; [|cbn [bool_decide]].
  - specialize (Hl n eq_refl). destruct bounded; rewrite ?andb_false_r; [|by rewrite page_spec].
    cbn. rewrite Hs. unfold boundedSortLimit in Ek. cbn [default] in Ek. destruct (_ || _) eqn:E; [done|]. injection Ek as <- _.
    by rewrite page_take, page_spec.
  - rewrite bool_decide_eq_false_2 by (by intros [? [=]]). cbn [andb]. rewrite page_spec by lia.
    rewrite take_ge; [done|rewrite length_drop; lia].
Qed.

Lemma bounded_sort_exact_witness :
  ordered_page (fun x y => x.1 - y.1) (fun x => x) 1 (Some 2) 100 [(5, 0); (3, 1); (9, 2); (3, 3); (1, 4); (7, 5)] = [(3, 1); (3, 3)].
Proof.
  destruct (bounded_sort_exact (T:=Z * Z) (fun x y => x.1 - y.1) (fun x => x) 1 (Some 2) 100 3 [(5, 0); (3, 1); (9, 2); (3, 3); (1, 4); (7, 5)]) as [_ ->];
    [intros; lia|intros; lia|done|lia|intros n [= <-]; lia|vm_compute; reflexivity|vm_compute; reflexivity].
Defined.
