(* ===== verification/SortRow.v ===== *)
(** * The rows of a sort run: [writeSortRow] and [readSortRow] of [executor/external_sort.go]

    A row that does not fit in memory is written to a run file, one tagged cell after another, and
    read back by the merge.  [sortCellBytes] is the width the sorter admits rows by, and
    [queryRowBytes] of [query_budget.go] the memory it charges for one. *)

From stdpp Require Import list sorting strings.
From Stdlib Require Import Strings.Byte.
From S2P Require Import Prelude.

Inductive sort_error : Type :=
  | ErrQueryTimeout
  | ErrQueryCanceled
  | ErrQueryResourceLimit
  | ErrSorterClosed
  | ErrSortIO
  | ErrSortEOF
  | ErrSortUnexpectedEOF
  | ErrSortRun (what : string)
  | ErrUnsupportedValue
  | ErrConsumer (code : Z).

#[export] Instance sort_error_eq_dec : EqDecision sort_error.
Proof. solve_decision. Defined.

(** ** Times: what [time.Time] keeps in its binary form

    Seconds since the year 1, nanoseconds, and the offset of its zone in seconds; [None] is UTC. *)

Record Time : Type := mkTime { tm_sec : Z; tm_nsec : Z; tm_zone : option Z }.

(** A two's complement integer of [bits] bits. *)
Definition signed (bits z : Z) : Z := let z := z mod 2 ^ bits in if z <? 2 ^ (bits - 1) then z else z - 2 ^ bits.

(** [Time.MarshalBinary]; Go's division rounds to zero. *)
Definition MarshalBinary (t : Time) : option bytes :=
  let head version := byte_of_Z version :: be_bytes 8 (tm_sec t mod 2 ^ 64) ++ be_bytes 4 (tm_nsec t) in
  match tm_zone t with
  | None => Some (head 1 ++ be_bytes 2 (2 ^ 16 - 1))
  | Some offset =>
      let minutes := offset ÷ 60 in
      if (minutes <? -32768) || (minutes =? -1) || (32767 <? minutes) then None
      else if Z.rem offset 60 =? 0 then Some (head 1 ++ be_bytes 2 (minutes mod 2 ^ 16))
      else Some (head 2 ++ be_bytes 2 (minutes mod 2 ^ 16) ++ [byte_of_Z (Z.rem offset 60)])
  end.

(** [Time.UnmarshalBinary]; the seconds of a zone are added as an unsigned byte. *)
Definition UnmarshalBinary (data : bytes) : option Time :=
  match data with
  | [] => None
  | version :: body =>
      if negb ((bval version =? 1) || (bval version =? 2)) then None
      else if negb (length data =? (if (bval version =? 2)%Z then 16 else 15))%nat then None
      else
        let sec := signed 64 (be_val (take 8 body)) in
        let nsec := signed 32 (be_val (take 4 (drop 8 body))) in
        let minutes := signed 16 (be_val (take 2 (drop 12 body))) in
        let offset := minutes * 60 + (if bval version =? 2 then be_val (take 1 (drop 14 body)) else 0) in
        Some (mkTime sec nsec (if offset =? -60 then None else Some offset))
  end.

(** ** Cells *)

(** The Go types of a value: the small integers are [int8] to [int32] and their unsigned kin and [uint];
    a [float32] is kept by the bits of its [float64] value; [VStringer] is any other type with a
    [String] method. *)
Inductive cell : Type :=
  | VNil
  | VString (s : bytes)
  | VJson (s : bytes)
  | VCollated (text collation : bytes)
  | VDecimal (s : bytes)
  | VBytes (s : bytes)
  | VInt (n : Z)
  | VInt64 (n : Z)
  | VUint64 (n : Z)
  | VFloat64 (bits : Z)
  | VBool (b : bool)
  | VTime (t : Time)
  | VSmallInt (n : Z)
  | VSmallUint (n : Z)
  | VFloat32 (bits : Z)
  | VStringer (s : bytes)
  | VOther.

Record externalSortRow : Type := mkSortRow { sr_values : list cell; sr_ordinal : Z }.

Definition le64 (z : Z) : bytes := reverse (be_bytes 8 (z mod 2 ^ 64)).

(** [writeSortUint], [writeSortText]: what they write. *)
Definition sort_uint (n : Z) : list bytes := [le64 n].
Definition sort_text (s : bytes) : list bytes := [le64 (blen s); s].

(** The writes of one cell. *)
Definition cell_writes (value : cell) : result sort_error (list bytes) :=
  let tagged tag rest := Ok ([[byte_of_Z tag]] ++ rest) in
  match value with
  | VNil => Ok [[byte_of_Z 0]]
  | VString s => tagged 1 (sort_text s)
  | VJson s => tagged 2 (sort_text s)
  | VCollated text collation => tagged 11 (sort_text text ++ sort_text collation)
  | VDecimal s => tagged 10 (sort_text s)
  | VBytes s => tagged 3 (sort_text s)
  | VInt n => tagged 4 (sort_uint n)
  | VInt64 n | VSmallInt n => tagged 5 (sort_uint n)
  | VUint64 n | VSmallUint n => tagged 6 (sort_uint n)
  | VFloat64 bits | VFloat32 bits => tagged 7 (sort_uint bits)
  | VBool b => tagged 8 (sort_uint (if b then 1 else 0))
  | VTime t => match MarshalBinary t with Some data => tagged 9 (sort_text data) | None => Err ErrUnsupportedValue end
  | VStringer s => tagged 1 (sort_text s)
  | VOther => Err ErrUnsupportedValue
  end.

(** The writes of a row, and the error that ends them. *)
Fixpoint cells_writes (values : list cell) : list bytes * option sort_error :=
  match values with
  | [] => ([], None)
  | value :: values =>
      match cell_writes value with
      | Err e => ([], Some e)
      | Ok writes => let '(rest, e) := cells_writes values in (writes ++ rest, e)
      end
  end.

Definition writeSortRow (row : externalSortRow) : list bytes * option sort_error :=
  let '(writes, e) := cells_writes (sr_values row) in
  (sort_uint (sr_ordinal row) ++ sort_uint (Z.of_nat (length (sr_values row))) ++ writes, e).

(** ** Widths *)

Definition sortOrdinalAndCountBytes : Z := 16.
Definition sortTagAndLengthBytes : Z := 9.

Definition sortCellBytes (value : cell) : Z :=
  match value with
  | VNil => 1
  | VString s | VJson s | VBytes s | VDecimal s => 9 + blen s
  | VCollated text collation => 1 + 8 + blen text + 8 + blen collation
  | VTime _ => 22
  | _ => 9
  end.

Definition serializedRowBytes (row : list cell) : Z := foldl (fun size value => size + sortCellBytes value) sortOrdinalAndCountBytes row.

Definition cell_memory (value : cell) : Z :=
  match value with
  | VString s | VJson s | VBytes s | VDecimal s | VStringer s => blen s
  | VCollated text collation => blen text + blen collation
  | VTime _ => 32
  | _ => 0
  end.

Definition queryRowBytes (row : list cell) : Z := foldl (fun n value => n + cell_memory value) (48 + 24 * Z.of_nat (length row)) row.

(** ** Reading *)

Definition le_val (s : bytes) : Z := be_val (reverse s).

(** [io.ReadFull] of [n] bytes. *)
Definition ReadFull (n : nat) (r : bytes) : result sort_error (bytes * bytes) :=
  if (n <=? length r)%nat then Ok (take n r, drop n r)
  else Err (if bool_decide (r = []) then ErrSortEOF else ErrSortUnexpectedEOF).

Definition readSortUint (r : bytes) : result sort_error (Z * bytes) :=
  let* (b, r) := ReadFull 8 r in Ok (le_val b, r).

(** A length, checked against what is left of the row limit, and that many bytes. *)
Definition read_sort_text (what : string) (maximum used : Z) (r : bytes) : result sort_error (bytes * Z * bytes) :=
  let* (size, r) := readSortUint r in
  guard (size <=? maximum - used) else (ErrSortRun what) in
  let* (data, r) := ReadFull (Z.to_nat size) r in
  Ok (data, used + size, r).

Definition read_cell (maximum used : Z) (r : bytes) : result sort_error (cell * Z * bytes) :=
  let* (t, r) := ReadFull 1 r in
  let tag := be_val t in
  if tag =? 0 then Ok (VNil, used, r)
  else if tag =? 11 then
    let* (text, used, r) := read_sort_text "invalid collated sort value length" maximum used r in
    let* (collation, used, r) := read_sort_text "invalid collated sort value length" maximum used r in
    Ok (VCollated text collation, used, r)
  else if (tag =? 1) || (tag =? 2) || (tag =? 3) || (tag =? 9) || (tag =? 10) then
    let* (data, used, r) := read_sort_text "invalid sort run value length" maximum used r in
    if tag =? 1 then Ok (VString data, used, r)
    else if tag =? 2 then Ok (VJson data, used, r)
    else if tag =? 3 then Ok (VBytes data, used, r)
    else if tag =? 10 then Ok (VDecimal data, used, r)
    else match UnmarshalBinary data with Some t => Ok (VTime t, used, r) | None => Err (ErrSortRun "time") end
  else
    let* (number, r) := readSortUint r in
    if tag =? 4 then Ok (VInt (signed 64 number), used, r)
    else if tag =? 5 then Ok (VInt64 (signed 64 number), used, r)
    else if tag =? 6 then Ok (VUint64 number, used, r)
    else if tag =? 7 then Ok (VFloat64 number, used, r)
    else if tag =? 8 then Ok (VBool (negb (number =? 0)), used, r)
    else Err (ErrSortRun "invalid sort run value tag").

Fixpoint read_cells (count : nat) (maximum used : Z) (r : bytes) : result sort_error (list cell * bytes) :=
  match count with
  | O => Ok ([], r)
  | S count =>
      let* (value, used, r) := read_cell maximum used r in
      let* (values, r) := read_cells count maximum used r in
      Ok (value :: values, r)
  end.

Definition readSortRow (maximum : Z) (r : bytes) : result sort_error (externalSortRow * bytes) :=
  let* (ordinal, r) := readSortUint r in
  let* (count, r) := readSortUint r in
  guard (negb ((maximum <? 48) || ((maximum - 48) ÷ 24 <? count))) else (ErrSortRun "invalid sort run row width") in
  let* (values, r) := read_cells (Z.to_nat count) maximum (48 + count * 24) r in
  Ok (mkSortRow values ordinal, r).

(** ** What is read back *)

Definition is_i64 (z : Z) : Prop := - 2 ^ 63 <= z < 2 ^ 63.

(** The zone of a time comes back as it was: it has whole minutes, or lies east of Greenwich. *)
Definition wf_zone (zone : option Z) : Prop := match zone with Some offset => 0 <= Z.rem offset 60 | None => True end.

Definition wf_time (t : Time) : Prop := is_i64 (tm_sec t) /\ 0 <= tm_nsec t < 10 ^ 9 /\ wf_zone (tm_zone t).

Definition wf_cell (value : cell) : Prop :=
  match value with
  | VInt n | VInt64 n | VSmallInt n => is_i64 n
  | VUint64 n | VSmallUint n | VFloat64 n | VFloat32 n => is_u64 n
  | VTime t => wf_time t
  | _ => True
  end.

(** The type a cell comes back with. *)
Definition normal (value : cell) : cell :=
  match value with
  | VSmallInt n => VInt64 n
  | VSmallUint n => VUint64 n
  | VFloat32 bits => VFloat64 bits
  | VStringer s => VString s
  | value => value
  end.

(** What the reader charges a cell beyond its 24 bytes. *)
Definition payload (value : cell) : Z :=
  match value with
  | VString s | VJson s | VBytes s | VDecimal s | VStringer s => blen s
  | VCollated text collation => blen text + blen collation
  | VTime t => match MarshalBinary t with Some data => blen data | None => 0 end
  | _ => 0
  end.

Definition payloads (values : list cell) : Z := foldr (fun value n => payload value + n) 0 values.

Definition read_width (values : list cell) : Z := 48 + 24 * Z.of_nat (length values) + payloads values.

Lemma signed_mod bits z : 0 < bits -> - 2 ^ (bits - 1) <= z < 2 ^ (bits - 1) -> signed bits (z mod 2 ^ bits) = z.
Proof.
  intros Hb Hz. unfold signed. rewrite Z.mod_mod by lia. assert (2 ^ bits = 2 * 2 ^ (bits - 1)) as E.
  { rewrite <- Z.pow_succ_r by lia. f_equal. lia. }
  destruct (Z.le_gt_cases 0 z) as [H|H].
  - rewrite Z.mod_small by lia. destruct (Z.ltb_spec z (2 ^ (bits - 1))); lia.
  - replace (z mod 2 ^ bits) with (z + 2 ^ bits) by (apply (Z.mod_unique_pos _ _ (-1)); lia).
    destruct (Z.ltb_spec (z + 2 ^ bits) (2 ^ (bits - 1))); lia.
Qed.

Lemma signed_small bits z : 0 < bits -> 0 <= z < 2 ^ (bits - 1) -> signed bits z = z.
Proof.
  intros Hb Hz. assert (2 ^ bits = 2 * 2 ^ (bits - 1)) as E.
  { rewrite <- Z.pow_succ_r by lia. f_equal. lia. }
  rewrite <- (Z.mod_small z (2 ^ bits)) at 1 by lia. apply signed_mod; lia.
Qed.

Lemma be_val_low n z : 0 <= z < 256 ^ Z.of_nat n -> be_val (be_bytes n z) = z.
Proof. intros. rewrite be_val_bytes. by apply Z.mod_small. Qed.

Lemma bval_byte z : 0 <= z < 256 -> bval (byte_of_Z z) = z.
Proof. intros. rewrite bval_of_Z. by apply Z.mod_small. Qed.

Lemma minutes_seconds offset : offset ÷ 60 * 60 + Z.rem offset 60 = offset.
Proof. pose proof (Z.quot_rem' offset 60). lia. Qed.

(** The binary form of a time, whatever its zone. *)
Lemma UnmarshalBinary_form version sec nsec minutes tail :
  (version = 1 /\ tail = [] \/ version = 2 /\ length tail = 1%nat) -> is_i64 sec -> 0 <= nsec < 10 ^ 9 -> 0 <= minutes < 2 ^ 16 ->
  UnmarshalBinary ((byte_of_Z version :: be_bytes 8 (sec mod 2 ^ 64) ++ be_bytes 4 nsec) ++ be_bytes 2 minutes ++ tail) =
    Some (mkTime sec nsec
      (let offset := signed 16 minutes * 60 + (if version =? 2 then be_val tail else 0) in if offset =? -60 then None else Some offset)).
Proof.
  intros Hv Hs Hn Hm. cbn [app UnmarshalBinary]. rewrite <- !app_assoc.
  assert (bval (byte_of_Z version) = version) as -> by (apply bval_byte; lia).
  assert ((version =? 1) || (version =? 2) = true) as -> by (bool_goal; lia). cbn [negb].
  rewrite take_app_length', drop_app_length' by (by rewrite length_be_bytes).
  rewrite take_app_length' by (by rewrite length_be_bytes).
  rewrite (app_assoc (be_bytes 8 _)), (drop_app_length' _ _ 12) by (by rewrite length_app, !length_be_bytes).
  rewrite take_app_length' by (by rewrite length_be_bytes).
  rewrite (app_assoc _ _ tail), (drop_app_length' _ tail 14) by (by rewrite !length_app, !length_be_bytes).
  cbn [length]. rewrite !length_app, !length_be_bytes.
  assert (0 <= sec mod 2 ^ 64 < 2 ^ 64) by (apply Z.mod_pos_bound; lia).
  rewrite !be_val_low by lia. rewrite (signed_mod 64 sec), (signed_small 32 nsec) by (unfold is_i64 in Hs; lia).
  destruct Hv as [[-> ->]|[-> Hl]]; cbn [Z.eqb Pos.eqb length Nat.add]; [done|].
  rewrite Hl. cbn [Nat.eqb Nat.add negb]. by rewrite take_ge by lia.
Qed.

Lemma time_roundtrip t data : wf_time t -> MarshalBinary t = Some data -> UnmarshalBinary data = Some t.
Proof.
  destruct t as [sec nsec [offset|]]; intros (Hs & Hn & Hz); unfold MarshalBinary; cbn [tm_sec tm_nsec tm_zone wf_zone] in *.
  - destruct (_ || _) eqn:E; [done|]. bool_prop. pose proof (minutes_seconds offset) as Eo.
    pose proof (Z.rem_bound_abs offset 60 ltac:(lia)) as Hr. assert (0 <= (offset ÷ 60) mod 2 ^ 16 < 2 ^ 16) by (apply Z.mod_pos_bound; lia).
    destruct (Z.eqb_spec (Z.rem offset 60) 0) as [E0|E0]; intros <-%(inj Some).
    + rewrite <- (app_nil_r (be_bytes 2 _)), UnmarshalBinary_form by (done || lia || by left).
      cbn [Z.eqb]. rewrite signed_mod, Z.add_0_r by lia. destruct (Z.eqb_spec (offset ÷ 60 * 60) (-60)); [lia|]. repeat f_equal. lia.
    + rewrite UnmarshalBinary_form by (done || lia || by right). cbn [Z.eqb be_val length].
      rewrite signed_mod by lia. rewrite bval_byte, Z.mul_1_r, Z.add_0_r by lia. cbn [Pos.eqb]. rewrite Eo. destruct (Z.eqb_spec offset (-60)) as [->|]; [|done]. cbn in E0. lia.
  - intros <-%(inj Some). rewrite <- (app_nil_r (be_bytes 2 _)), UnmarshalBinary_form by (done || lia || by left). done.
Qed.

Lemma time_length t data : MarshalBinary t = Some data -> length data = 15%nat \/ length data = 16%nat.
Proof.
  unfold MarshalBinary. destruct (tm_zone t); [|intros <-%(inj Some); by left].
  destruct (_ || _); [done|]. destruct (_ =? 0); intros <-%(inj Some); [by left|by right].
Qed.

(** ** Reading what was written *)

Lemma length_le64 z : length (le64 z) = 8%nat.
Proof. unfold le64. by rewrite length_reverse, length_be_bytes. Qed.

Lemma le_val_le64 z : le_val (le64 z) = z mod 2 ^ 64.
Proof.
  unfold le_val, le64. rewrite reverse_involutive. apply be_val_low.
  pose proof (Z.mod_pos_bound z (2 ^ 64) ltac:(lia)). lia.
Qed.

Lemma ReadFull_app a r : ReadFull (length a) (a ++ r) = Ok (a, r).
Proof.
  unfold ReadFull. rewrite length_app. destruct (Nat.leb_spec (length a) (length a + length r)); [|lia].
  by rewrite take_app_length, drop_app_length.
Qed.

Lemma readSortUint_app n r : readSortUint (le64 n ++ r) = Ok (n mod 2 ^ 64, r).
Proof.
  unfold readSortUint. rewrite <- (length_le64 n), ReadFull_app. cbn [rbind]. by rewrite le_val_le64.
Qed.

(** A read within a limit gives the result, and beyond it an error of the run. *)
Definition within {A} (c : bool) (a : A) (res : result sort_error A) : Prop :=
  if c then res = Ok a else exists what, res = Err (ErrSortRun what).

Lemma read_sort_text_app what maximum used s r :
  0 <= used <= maximum -> maximum < 2 ^ 63 -> blen s < 2 ^ 64 ->
  within (used + blen s <=? maximum) (s, used + blen s, r) (read_sort_text what maximum used (mjoin (sort_text s) ++ r)).
Proof.
  intros Hu Hm Hs. unfold read_sort_text, sort_text, within. cbn [mjoin list_join app]. rewrite app_nil_r, <- app_assoc, readSortUint_app. cbn [rbind].
  rewrite (Z.mod_small (blen s)) by (unfold blen in *; lia).
  destruct (Z.leb_spec (used + blen s) maximum), (Z.leb_spec (blen s) (maximum - used)); try lia; [|by eexists].
  unfold blen. rewrite Nat2Z.id, ReadFull_app. done.
Qed.

(** The tag decides how a cell is read. *)
Lemma read_tag maximum used tag r :
  0 <= tag < 256 -> read_cell maximum used ([byte_of_Z tag] ++ r) = 
    (if tag =? 0 then Ok (VNil, used, r)
     else if tag =? 11 then
       let* (text, used, r) := read_sort_text "invalid collated sort value length" maximum used r in
       let* (collation, used, r) := read_sort_text "invalid collated sort value length" maximum used r in
       Ok (VCollated text collation, used, r)
     else if (tag =? 1) || (tag =? 2) || (tag =? 3) || (tag =? 9) || (tag =? 10) then
       let* (data, used, r) := read_sort_text "invalid sort run value length" maximum used r in
       if tag =? 1 then Ok (VString data, used, r)
       else if tag =? 2 then Ok (VJson data, used, r)
       else if tag =? 3 then Ok (VBytes data, used, r)
       else if tag =? 10 then Ok (VDecimal data, used, r)
       else match UnmarshalBinary data with Some t => Ok (VTime t, used, r) | None => Err (ErrSortRun "time") end
     else
       let* (number, r) := readSortUint r in
       if tag =? 4 then Ok (VInt (signed 64 number), used, r)
       else if tag =? 5 then Ok (VInt64 (signed 64 number), used, r)
       else if tag =? 6 then Ok (VUint64 number, used, r)
       else if tag =? 7 then Ok (VFloat64 number, used, r)
       else if tag =? 8 then Ok (VBool (negb (number =? 0)), used, r)
       else Err (ErrSortRun "invalid sort run value tag")).
Proof.
  intros Ht. unfold read_cell. rewrite (ReadFull_app [byte_of_Z tag] r : ReadFull 1 _ = _). cbn [rbind].
  assert (be_val [byte_of_Z tag] = tag) as ->; [|done]. cbn [be_val length]. rewrite bval_byte by done. lia.
Qed.

Lemma read_text_cell maximum used tag s (value : cell) r :
  0 <= used <= maximum -> maximum < 2 ^ 63 -> blen s < 2 ^ 64 ->
  ((tag = 1 /\ value = VString s) \/ (tag = 2 /\ value = VJson s) \/ (tag = 3 /\ value = VBytes s) \/ (tag = 10 /\ value = VDecimal s) \/
   (tag = 9 /\ exists t, UnmarshalBinary s = Some t /\ value = VTime t)) ->
  within (used + blen s <=? maximum) (value, used + blen s, r) (read_cell maximum used (([byte_of_Z tag] ++ mjoin (sort_text s)) ++ r)).
Proof.
  intros Hu Hm Hs Ht. rewrite <- app_assoc, read_tag by lia.
  pose proof (read_sort_text_app "invalid sort run value length" maximum used s r Hu Hm Hs) as Hr. unfold within in *.
  destruct Ht as [[-> ->]|[[-> ->]|[[-> ->]|[[-> ->]|[-> (t & E & ->)]]]]]; cbn [Z.eqb Pos.eqb orb];
    destruct (_ <=? _); try (rewrite Hr; cbn [rbind]; rewrite ?E; done); destruct Hr as [what ->]; by exists what.
Qed.

Lemma read_number_cell maximum used tag n (value : cell) r :
  ((tag = 4 /\ value = VInt (signed 64 (n mod 2 ^ 64))) \/ (tag = 5 /\ value = VInt64 (signed 64 (n mod 2 ^ 64))) \/
   (tag = 6 /\ value = VUint64 (n mod 2 ^ 64)) \/ (tag = 7 /\ value = VFloat64 (n mod 2 ^ 64)) \/ (tag = 8 /\ value = VBool (negb (n mod 2 ^ 64 =? 0)))) ->
  read_cell maximum used (([byte_of_Z tag] ++ mjoin (sort_uint n)) ++ r) = Ok (value, used, r).
Proof.
  intros Ht. rewrite <- app_assoc, read_tag by lia. unfold sort_uint. cbn [mjoin list_join]. rewrite app_nil_r.
  destruct Ht as [[-> ->]|[[-> ->]|[[-> ->]|[[-> ->]|[-> ->]]]]]; cbn [Z.eqb Pos.eqb orb]; by rewrite readSortUint_app.
Qed.

Lemma read_collated maximum used text collation r :
  0 <= used <= maximum -> maximum < 2 ^ 63 -> blen text < 2 ^ 64 -> blen collation < 2 ^ 64 ->
  within (used + (blen text + blen collation) <=? maximum) (VCollated text collation, used + (blen text + blen collation), r)
    (read_cell maximum used (([byte_of_Z 11] ++ mjoin (sort_text text ++ sort_text collation)) ++ r)).
Proof.
  intros Hu Hm Ht Hc. rewrite <- app_assoc, read_tag by lia. cbn [Z.eqb Pos.eqb orb]. rewrite join_app, <- app_assoc.
  pose proof (read_sort_text_app "invalid collated sort value length" maximum used text (mjoin (sort_text collation) ++ r) Hu Hm Ht) as H1. unfold within in H1.
  destruct (Z.leb_spec (used + blen text) maximum) as [L1|L1].
  - rewrite H1. cbn [rbind]. pose proof (read_sort_text_app "invalid collated sort value length" maximum (used + blen text) collation r) as H2.
    rewrite <- Z.add_assoc in *. unfold within in *. destruct (Z.leb_spec (used + (blen text + blen collation)) maximum) as [L2|L2].
    + rewrite H2; [done|unfold blen in *; lia..].
    + destruct H2 as [what ->]; [unfold blen in *; lia..|]. by exists what.
  - destruct H1 as [what ->]. unfold within. destruct (Z.leb_spec (used + (blen text + blen collation)) maximum); [unfold blen in *; lia|]. by exists what.
Qed.

(** Every text of a cell is shorter than 2^64 bytes. *)
Definition addressable (value : cell) : Prop :=
  match value with
  | VString s | VJson s | VBytes s | VDecimal s | VStringer s => blen s < 2 ^ 64
  | VCollated text collation => blen text < 2 ^ 64 /\ blen collation < 2 ^ 64
  | _ => True
  end.

#[local] Instance Ok_inj {E A} : Inj eq eq (@Ok E A).
Proof. by intros x y [= ->]. Qed.

Lemma read_cell_app value writes maximum used r :
  cell_writes value = Ok writes -> wf_cell value -> addressable value -> 0 <= used <= maximum -> maximum < 2 ^ 63 ->
  within (used + payload value <=? maximum) (normal value, used + payload value, r) (read_cell maximum used (mjoin writes ++ r)).
Proof.
  intros Hw Hwf Ha Hu Hm. assert (used + 0 <=? maximum = true) as E0 by (apply Z.leb_le; lia).
  assert (forall tag ws, mjoin ([[byte_of_Z tag]] ++ ws) = [byte_of_Z tag] ++ mjoin ws) as Etag by done.
  destruct value; unfold cell_writes, wf_cell, addressable in *; try (apply (inj Ok) in Hw as <-); try discriminate Hw; cbn [normal payload];
    rewrite ?Etag, ?E0, ?Z.add_0_r; cbn [within].
  - by apply (read_tag maximum used 0 r).
  - apply read_text_cell; tauto.
  - apply read_text_cell; tauto.
  - destruct Ha. by apply read_collated.
  - apply read_text_cell; tauto.
  - apply read_text_cell; tauto.
  - rewrite (read_number_cell _ _ _ _ (VInt n)); [done|]. left. rewrite signed_mod by (unfold is_i64 in Hwf; lia). done.
  - rewrite (read_number_cell _ _ _ _ (VInt64 n)); [done|]. right; left. rewrite signed_mod by (unfold is_i64 in Hwf; lia). done.
  - rewrite (read_number_cell _ _ _ _ (VUint64 n)); [done|]. do 2 right; left. by rewrite Z.mod_small by done.
  - rewrite (read_number_cell _ _ _ _ (VFloat64 bits)); [done|]. do 3 right; left. by rewrite Z.mod_small by done.
  - rewrite (read_number_cell _ _ _ _ (VBool b)); [done|]. do 4 right. by destruct b.
  - destruct (MarshalBinary t) as [data|] eqn:E; [|done]. apply (inj Ok) in Hw as <-. rewrite Etag.
    pose proof (time_length t data E) as Hl. apply read_text_cell; [done..|unfold blen; lia|].
    do 4 right. split; [done|]. exists t. split; [by apply time_roundtrip|done].
  - rewrite (read_number_cell _ _ _ _ (VInt64 n)); [done|]. right; left. rewrite signed_mod by (unfold is_i64 in Hwf; lia). done.
  - rewrite (read_number_cell _ _ _ _ (VUint64 n)); [done|]. do 2 right; left. by rewrite Z.mod_small by done.
  - rewrite (read_number_cell _ _ _ _ (VFloat64 bits)); [done|]. do 3 right; left. by rewrite Z.mod_small by done.
  - apply read_text_cell; tauto.
Qed.

Lemma payload_nonneg value : 0 <= payload value.
Proof. destruct value; cbn [payload]; try (unfold blen; lia). destruct (MarshalBinary t); unfold blen; lia. Qed.

Lemma payloads_nonneg values : 0 <= payloads values.
Proof. induction values as [|v values IH]; [done|]. change (0 <= payload v + payloads values). pose proof (payload_nonneg v). lia. Qed.

Lemma read_cells_app values writes maximum used r :
  cells_writes values = (writes, None) -> Forall wf_cell values -> Forall addressable values -> 0 <= used <= maximum -> maximum < 2 ^ 63 ->
  within (used + payloads values <=? maximum) (normal <$> values, r) (read_cells (length values) maximum used (mjoin writes ++ r)).
Proof.
  revert writes used. induction values as [|value values IH]; intros writes used Hw Hwf Ha Hu Hm.
  { injection Hw as <-. cbn. rewrite Z.add_0_r. by destruct (Z.leb_spec used maximum); [|lia]. }
  cbn [cells_writes] in Hw. destruct (cell_writes value) as [ws|] eqn:Ew; [|done]. destruct (cells_writes values) as [rest e] eqn:Er.
  injection Hw as <- ->. apply Forall_cons in Hwf as [Hwf1 Hwf], Ha as [Ha1 Ha]. cbn [read_cells length payloads foldr fmap list_fmap].
  rewrite join_app, <- app_assoc. pose proof (read_cell_app value ws maximum used (mjoin rest ++ r) Ew Hwf1 Ha1 Hu Hm) as H1.
  fold (payloads values). pose proof (payload_nonneg value). pose proof (payloads_nonneg values). unfold within in *.
  destruct (Z.leb_spec (used + payload value) maximum) as [L1|L1].
  - rewrite H1. cbn [rbind]. specialize (IH rest (used + payload value) eq_refl Hwf Ha ltac:(lia) Hm). rewrite <- Z.add_assoc in IH.
    destruct (used + _ <=? maximum); [by rewrite IH|]. destruct IH as [what ->]. by exists what.
  - destruct H1 as [what ->]. destruct (Z.leb_spec (used + (payload value + payloads values)) maximum); [lia|]. by exists what.
Qed.

(** ** Properties *)

Definition wf_row (row : externalSortRow) : Prop :=
  is_u64 (sr_ordinal row) /\ Forall wf_cell (sr_values row) /\ Forall addressable (sr_values row) /\ Z.of_nat (length (sr_values row)) < 2 ^ 64.

Lemma readSortRow_app row writes maximum r :
  wf_row row -> writeSortRow row = (writes, None) -> maximum < 2 ^ 63 ->
  within (read_width (sr_values row) <=? maximum) (mkSortRow (normal <$> sr_values row) (sr_ordinal row), r) (readSortRow maximum (mjoin writes ++ r)).
Proof.
  intros (Ho & Hwf & Ha & Hl) Hw Hm. unfold writeSortRow in Hw. destruct (cells_writes (sr_values row)) as [ws e] eqn:E. injection Hw as <- ->.
  unfold readSortRow, sort_uint.
  assert (forall a b : bytes, mjoin (a :: b :: ws) = a ++ b ++ mjoin ws) as -> by done. rewrite <- !app_assoc, readSortUint_app. cbn [rbind]. rewrite readSortUint_app. cbn [rbind].
  rewrite !Z.mod_small by (done || lia). pose proof (payloads_nonneg (sr_values row)). unfold read_width in *.
  destruct (Z.ltb_spec maximum 48) as [L|L]; cbn [orb negb].
  { unfold within. destruct (Z.leb_spec (48 + 24 * Z.of_nat (length (sr_values row)) + payloads (sr_values row)) maximum); [lia|]. by eexists. }
  pose proof (Z.quot_rem' (maximum - 48) 24). pose proof (Z.rem_bound_pos (maximum - 48) 24 ltac:(lia) ltac:(lia)).
  destruct (Z.ltb_spec ((maximum - 48) ÷ 24) (Z.of_nat (length (sr_values row)))) as [L2|L2]; cbn [orb negb].
  { unfold within. destruct (Z.leb_spec (48 + 24 * Z.of_nat (length (sr_values row)) + payloads (sr_values row)) maximum); [lia|]. by eexists. }
  rewrite Nat2Z.id, (Z.mul_comm (Z.of_nat _) 24).
  pose proof (read_cells_app _ ws maximum (48 + 24 * Z.of_nat (length (sr_values row))) r E Hwf Ha ltac:(lia) Hm) as Hr. unfold within in *.
  destruct (_ <=? maximum); [by rewrite Hr|]. destruct Hr as [what ->]. by exists what.
Qed.

(** What [sortCellBytes] leaves out of the width of a cell. *)
Definition uncounted (value : cell) : Z :=
  match value with
  | VTime _ => payload value - 13
  | VStringer s => blen s
  | _ => 0
  end.

Definition uncounted_bytes (values : list cell) : Z := foldr (fun value n => uncounted value + n) 0 values.

Lemma cell_width value writes : cell_writes value = Ok writes -> blen (mjoin writes) = sortCellBytes value + uncounted value.
Proof.
  assert (forall tag n, blen (mjoin ([[byte_of_Z tag]] ++ sort_uint n)) = 9 + 0) as Hn.
  { intros. change (blen ([byte_of_Z tag] ++ le64 n ++ []) = 9). rewrite !blen_app. unfold blen. by rewrite length_le64. }
  assert (forall s, blen (mjoin (sort_text s)) = 8 + blen s) as Ht.
  { intros. change (blen (le64 (blen s) ++ s ++ []) = 8 + blen s). rewrite app_nil_r, blen_app. unfold blen at 1. rewrite length_le64. lia. }
  assert (forall tag ws, blen (mjoin ([[byte_of_Z tag]] ++ ws)) = 1 + blen (mjoin ws)) as Htag.
  { intros. change (blen ([byte_of_Z tag] ++ mjoin ws) = 1 + blen (mjoin ws)). by rewrite blen_app. }
  destruct value; unfold cell_writes; intros Hw; try (apply (inj Ok) in Hw as <-); try discriminate Hw;
    cbn [sortCellBytes uncounted payload].
  2, 3, 5, 6, 16: rewrite Htag, Ht; lia.
  3-7, 9-11: apply Hn.
  - done.
  - rewrite Htag, join_app, blen_app, !Ht. lia.
  - destruct (MarshalBinary t) as [data|] eqn:E; [|done]. apply (inj Ok) in Hw as <-. rewrite Htag, Ht. lia.
Qed.

Lemma serializedRowBytes_cons value values :
  serializedRowBytes (value :: values) = sortCellBytes value + serializedRowBytes values.
Proof.
  unfold serializedRowBytes. cbn [foldl]. generalize sortOrdinalAndCountBytes. induction values as [|v values IH]; intros n; cbn [foldl]; [lia|].
  by rewrite <- IH, <- Z.add_assoc, (Z.add_comm (sortCellBytes value)), Z.add_assoc.
Qed.

Lemma row_width values writes :
  cells_writes values = (writes, None) -> 16 + blen (mjoin writes) = serializedRowBytes values + uncounted_bytes values.
Proof.
  revert writes. induction values as [|value values IH]; intros writes Hw; [by injection Hw as <-|].
  cbn [cells_writes] in Hw. destruct (cell_writes value) as [ws|] eqn:Ew; [|done]. destruct (cells_writes values) as [rest e]. injection Hw as <- ->.
  specialize (IH rest eq_refl). rewrite join_app, blen_app, (cell_width value ws Ew), serializedRowBytes_cons.
  change (uncounted_bytes (value :: values)) with (uncounted value + uncounted_bytes values). lia.
Qed.

(** The cells whose width [sortCellBytes] counts in full. *)
Definition counted (value : cell) : Prop := match value with VTime _ | VStringer _ => False | _ => True end.

Lemma counted_exact values : Forall counted values -> uncounted_bytes values = 0.
Proof.
  induction 1 as [|value values Hc _ IH]; [done|]. change (uncounted value + uncounted_bytes values = 0).
  rewrite IH. by destruct value.
Qed.


(** A row of every kind of cell, and one that is as wide as it may be for the sorter. *)
Definition mixed_row : externalSortRow :=
  mkSortRow [VString (str "ab"); VNil; VSmallInt (-3); VTime (mkTime 63000000000 5 (Some (-12600))); VCollated (str "x") (str "nocase"); VBool true; VUint64 7] 9.

Lemma mixed_row_wf : wf_row mixed_row.
Proof.
  split; [done|]. split; [|split; [|done]].
  - repeat (constructor; [first [done|split_and!; done]|]). constructor.
  - repeat (constructor; [first [done|split; done]|]). constructor.
Qed.


(** A time takes 24 bytes of a run; the sorter counts 22. *)
Lemma time_width :
  let row := [VTime (mkTime 63000000000 0 None)] in
  serializedRowBytes row = 38 /\ blen (mjoin (writeSortRow (mkSortRow row 0)).1) = 40.
Proof. by vm_compute. Qed.

(** A zone west of Greenwich that is no whole number of minutes comes back 256 seconds off. *)
Lemma west_zone_shifts :
  let t := mkTime 63000000000 0 (Some (-12601)) in
  (MarshalBinary t ≫= UnmarshalBinary) = Some (mkTime 63000000000 0 (Some (-12345))).
Proof. vm_compute. reflexivity. Qed.
