(* ===== verification/ExternalSort.v ===== *)
(** * The external sorter: [executor/external_sort.go], with the budgets of [candidate_sorter.go] and [query_budget.go]

    Rows are kept in a batch; a batch that is full is sorted and written to a run file, runs are merged
    eight at a time, and the last merge hands the rows on.  The memory a statement's sorters keep is
    charged to one pool, the bytes of its run files to one temporary budget.

    An operation acts on a [world]: the sorter, the pool and the temporary budget it shares, the run
    files, a log of the rows handed on, and a clock that numbers what is asked of the environment. *)

From stdpp Require Import gmap list sorting strings fin_maps.
From Stdlib Require Import Strings.Byte.
From S2P Require Import Prelude SortRow.

(** ** The state *)

Record sorterBudget : Type := mkPool { total : Z; used : Z }.

Record externalSortRun : Type := mkRun { run_path : Z; run_bytes : Z }.

(** [es_budgeted]: the sorter has a pool ([budget != nil]). *)
Record externalRowSorter : Type := mkSorter {
  es_budgeted : bool;
  es_memory : Z;
  es_held : Z;
  es_released : bool;
  es_batchBytes : Z;
  es_next : Z;
  es_batch : list externalSortRow;
  es_runs : list externalSortRun;
  es_files : gmap Z Z;
  es_tempBytes : Z;
  es_closed : bool
}.

Record world : Type := mkWorld {
  w_sorter : externalRowSorter;
  w_pool : sorterBudget;
  w_temp : Z;
  w_disk : gmap Z bytes;
  w_out : list (list cell);
  w_clock : nat
}.

#[export] Instance rebuild_sorter : Rebuild externalRowSorter :=
  fun s => mkSorter (es_budgeted s) (es_memory s) (es_held s) (es_released s) (es_batchBytes s) (es_next s) (es_batch s)
    (es_runs s) (es_files s) (es_tempBytes s) (es_closed s).
#[export] Instance rebuild_world : Rebuild world :=
  fun w => mkWorld (w_sorter w) (w_pool w) (w_temp w) (w_disk w) (w_out w) (w_clock w).

(** What the environment answers: whether the query has ended, whether a file operation fails, how much
    of a failing write reaches the file, the name of a temporary file, and the order an interrupted
    sort leaves a batch in. *)
Class SortEnv : Type := {
  query_check : nat -> option sort_error;
  io_error : nat -> bool;
  io_short : nat -> option nat;
  temp_name : nat -> gset Z -> Z;
  temp_name_fresh : forall n X, temp_name n X ∉ X;
  part_sorted : nat -> list externalSortRow -> list externalSortRow;
  part_sorted_perm : forall n l, part_sorted n l ≡ₚ l
}.

(** [QueryOptions]. *)
Class SortOptions : Type := { MaxTempBytes : Z }.

(** ** Actions *)

Definition sorting (A : Type) : Type := world -> world * result sort_error A.

Definition sdone {A} (a : A) : sorting A := fun w => (w, Ok a).
Definition sfail {A} (e : sort_error) : sorting A := fun w => (w, Err e).
Definition sbind {A B} (m : sorting A) (f : A -> sorting B) : sorting B := fun w =>
  match m w with
  | (w, Ok a) => f a w
  | (w, Err e) => (w, Err e)
  end.

Declare Scope sorting_scope.
Delimit Scope sorting_scope with sorting.
Notation "'do' x '<-' m 'in' k" := (sbind m (fun x => k)) (at level 10, x name, m at level 100, k at level 200) : sorting_scope.
Notation "m ';;' k" := (sbind m (fun _ => k)) (at level 100, k at level 200, right associativity) : sorting_scope.
#[local] Open Scope sorting_scope.

Definition the_sorter : sorting externalRowSorter := fun w => (w, Ok (w_sorter w)).
Definition set_sorter (f : externalRowSorter -> externalRowSorter) : sorting unit := fun w => (w <| w_sorter ::= f |>, Ok tt).
Definition tick (w : world) : world := w <| w_clock ::= S |>.

(** ** The pool *)

Definition defaultSortMemoryBytes : Z := 4 * 2 ^ 20.

Definition newSorterBudget (n : Z) : sorterBudget := mkPool (if n <=? 0 then defaultSortMemoryBytes else n) 0.

Definition pool_rowLimit (b : sorterBudget) : Z := total b ÷ 16.

Definition reserve (requested : Z) (b : sorterBudget) : sorterBudget * option Z :=
  let available := total b - used b in
  let requested := if available <? requested then available else requested in
  if requested <? 1 then (b, None) else (mkPool (total b) (used b + requested), Some requested).

Definition release (size : Z) (b : sorterBudget) : sorterBudget :=
  mkPool (total b) (if used b - size <? 0 then 0 else used b - size).

(** ** The sorter *)

Definition externalSortFanIn : nat := 8.
Definition externalSortMaxRuns : nat := 64.

(** [SortMemoryBytes] of the options and the total of the pool, if any. *)
Definition newExternalRowSorter (sort_memory : Z) (budget : option Z) : result sort_error externalRowSorter :=
  let memory := if 0 <? sort_memory then sort_memory else 4 * 2 ^ 20 in
  let memory := default memory budget in
  if memory <? 65536 then Err ErrQueryResourceLimit
  else Ok (mkSorter (if budget then true else false) memory 0 false 0 0 [] [] ∅ 0 false).

Definition rowLimit (w : world) : Z :=
  let limit := es_memory (w_sorter w) ÷ 16 in
  let limit := if es_budgeted (w_sorter w) && (pool_rowLimit (w_pool w) <? limit) then pool_rowLimit (w_pool w) else limit in
  if limit <? 1 then 1 else limit.

Definition checkRowWidth (width : Z) : sorting Z := fun w =>
  if rowLimit w <? width then (w, Err ErrQueryResourceLimit) else (w, Ok width).

Definition preflightWidth (width : Z) : sorting unit := checkRowWidth width ;; sdone tt.

(** The release of the bytes a sorter holds, where it has a pool. *)
Definition release_held (w : world) : world :=
  if es_budgeted (w_sorter w) && (0 <? es_held (w_sorter w)) then w <| w_pool ::= release (es_held (w_sorter w)) |> else w.

Definition releaseSorter (w : world) : world :=
  if es_released (w_sorter w) then w
  else (release_held w) <| w_sorter ::= fun s => s <| es_released := true |> <| es_held := 0 |> |>.

Definition releaseBatch (w : world) : world :=
  (release_held w) <| w_sorter ::= fun s => s <| es_held := 0 |> <| es_batch := [] |> <| es_batchBytes := 0 |> |>.

Section Sorter.
Context `{SortEnv} `{SortOptions} `{MapRange} (compare : list cell -> list cell -> Z).

Definition check : sorting unit := fun w =>
  (tick w, match query_check (w_clock w) with Some e => Err e | None => Ok tt end).

Definition io : sorting unit := fun w => (tick w, if io_error (w_clock w) then Err ErrSortIO else Ok tt).

Definition reserveTemporary (size : Z) : sorting unit := fun w =>
  if (0 <? MaxTempBytes) && (MaxTempBytes - w_temp w <? size) then (w, Err ErrQueryResourceLimit)
  else (w <| w_temp ::= Z.add size |>, Ok tt).

Definition releaseTemporary (size : Z) (w : world) : world := w <| w_temp ::= fun n => n - size |>.

Definition row_less (a b : externalSortRow) : bool :=
  let cmp := compare (sr_values a) (sr_values b) in
  (cmp <? 0) || (cmp =? 0) && (sr_ordinal a <? sr_ordinal b).

(** The check inside the comparison may stop the sort half way. *)
Definition sortBatch : sorting unit :=
  (fun w => match query_check (w_clock w) with
            | Some e => ((tick w) <| w_sorter ::= fun s => s <| es_batch ::= part_sorted (w_clock w) |> |>, Err e)
            | None => ((tick w) <| w_sorter ::= fun s => s <| es_batch ::= sort_stable row_less |> |>, Ok tt)
            end) ;;
  check.

Definition createRun : sorting Z :=
  io ;;
  (fun w =>
     let path := temp_name (w_clock w) (dom (w_disk w)) in
     (w <| w_disk ::= <[path := []]> |> <| w_sorter ::= fun s => s <| es_files ::= <[path := 0]> |> |>, Ok path)).

(** [n] bytes of [p] reach the file, and the rest is given back to the budget. *)
Definition write_chunk (path : Z) (p : bytes) (n : nat) (w : world) : world :=
  let w := releaseTemporary (blen p - Z.of_nat n) w in
  w <| w_disk ::= <[path := default [] (w_disk w !! path) ++ take n p]> |>
    <| w_sorter ::= fun s => s <| es_tempBytes ::= Z.add (Z.of_nat n) |> <| es_files ::= <[path := default 0 (es_files s !! path) + Z.of_nat n]> |> |>.

(** [sortRunWriter.Write] *)
Definition run_write (path : Z) (p : bytes) : sorting unit :=
  check ;;
  reserveTemporary (blen p) ;;
  (fun w =>
     let n := match io_short (w_clock w) with Some n => Nat.min n (length p) | None => length p end in
     (write_chunk path p n (tick w), if (n <? length p)%nat then Err ErrSortIO else Ok tt)).

(** [bufio.Writer] of 4096 bytes: what does not fit is written as the buffer fills. *)
Definition buffer_size : nat := 4096.

Fixpoint buffer_loop (fuel : nat) (path : Z) (p buf : bytes) : sorting bytes :=
  match fuel with
  | O => sfail ErrSortIO
  | S fuel =>
      if (buffer_size - length buf <? length p)%nat then
        let n := (buffer_size - length buf)%nat in
        run_write path (buf ++ take n p) ;;
        buffer_loop fuel path (drop n p) []
      else sdone (buf ++ p)
  end.

Definition buffer_write (path : Z) (p buf : bytes) : sorting bytes := buffer_loop (S (S (length p))) path p buf.

Definition buffer_flush (path : Z) (buf : bytes) : sorting unit :=
  if bool_decide (buf = []) then sdone tt else run_write path buf.

Fixpoint buffer_writes (path : Z) (ps : list bytes) (buf : bytes) : sorting bytes :=
  match ps with
  | [] => sdone buf
  | p :: ps => do buf <- buffer_write path p buf in buffer_writes path ps buf
  end.

Definition write_row (path : Z) (row : externalSortRow) (buf : bytes) : sorting bytes :=
  let '(writes, e) := writeSortRow row in
  do buf <- buffer_writes path writes buf in
  match e with Some e => sfail e | None => sdone buf end.

Fixpoint write_rows (path : Z) (rows : list externalSortRow) (buf : bytes) : sorting bytes :=
  match rows with
  | [] => sdone buf
  | row :: rows => do buf <- write_row path row buf in write_rows path rows buf
  end.

(** What [file.Close] reports counts only when nothing failed before. *)
Definition close_file {A} (m : sorting A) : sorting A := fun w =>
  let '(w, r) := m w in
  let '(w, c) := io w in
  (w, match r, c with Ok a, Ok _ => Ok a | Ok _, Err e => Err e | Err e, _ => Err e end).

(** The file of a run is written by [fill], flushed and closed; the run is what the books say of it. *)
Definition write_run (fill : Z -> sorting bytes) : sorting externalSortRun :=
  do path <- createRun in
  close_file (do buf <- fill path in buffer_flush path buf) ;;
  fun w => (w, Ok (mkRun path (default 0 (es_files (w_sorter w) !! path)))).

Definition removeRun (path : Z) : sorting unit :=
  io ;;
  (fun w =>
     let size := default 0 (es_files (w_sorter w) !! path) in
     (releaseTemporary size w <| w_disk ::= delete path |>
        <| w_sorter ::= fun s => s <| es_tempBytes ::= (fun n => n - size) |> <| es_files ::= delete path |> |>, Ok tt)).

(** ** Merging *)

Definition head_limit (w : world) : Z :=
  let headLimit := es_memory (w_sorter w) ÷ 8 in
  if rowLimit w <? headLimit then rowLimit w else headLimit.

(** [None] at the end of the run. *)
Definition read_row (maximum : Z) (reader : bytes) : sorting (option (externalSortRow * bytes)) :=
  io ;;
  match readSortRow maximum reader with
  | Ok (row, reader) => sdone (Some (row, reader))
  | Err e => if decide (e = ErrSortEOF) then sdone None else sfail e
  end.

Definition open_run (run : externalSortRun) : sorting bytes :=
  io ;; fun w => (w, match w_disk w !! run_path run with Some content => Ok content | None => Err ErrSortIO end).

Definition head_row : Type := externalSortRow * nat.

Fixpoint open_runs (maximum : Z) (runs : list externalSortRun) (readers : list bytes) (heads : list head_row) : sorting (list bytes * list head_row) :=
  match runs with
  | [] => sdone (readers, heads)
  | run :: runs =>
      do reader <- open_run run in
      do row <- read_row maximum reader in
      match row with
      | None => open_runs maximum runs (readers ++ [reader]) heads
      | Some (row, reader) => open_runs maximum runs (readers ++ [reader]) ((row, length readers) :: heads)
      end
  end.

(** [heap.Pop] with the order of the heads: a least head, and the others. *)
Fixpoint pop_head (heads : list head_row) : option (head_row * list head_row) :=
  match heads with
  | [] => None
  | h :: heads =>
      match pop_head heads with
      | None => Some (h, [])
      | Some (m, rest) => if row_less m.1 h.1 then Some (m, h :: rest) else Some (h, heads)
      end
  end.

Fixpoint merge_heads {Y} (fuel : nat) (maximum : Z) (yield : Y -> externalSortRow -> sorting Y) (readers : list bytes) (heads : list head_row) (y : Y) : sorting Y :=
  match pop_head heads, fuel with
  | None, _ => sdone y
  | Some _, O => sfail (ErrSortRun "fuel")
  | Some (head, heads), S fuel =>
      check ;;
      do y <- yield y head.1 in
      do row <- read_row maximum (nth head.2 readers []) in
      match row with
      | None => merge_heads fuel maximum yield readers heads y
      | Some (row, reader) => merge_heads fuel maximum yield (<[head.2 := reader]> readers) ((row, head.2) :: heads) y
      end
  end.

(** Every round reads on in one of the runs: their bytes bound the rounds. *)
Definition merge {Y} (runs : list externalSortRun) (yield : Y -> externalSortRow -> sorting Y) (y : Y) : sorting Y := fun w =>
  let maximum := head_limit w in
  (do opened <- open_runs maximum runs [] [] in
   merge_heads (length opened.2 + length (mjoin opened.1)) maximum yield opened.1 opened.2 y) w.

Fixpoint remove_runs (runs : list externalSortRun) : sorting unit :=
  match runs with
  | [] => sdone tt
  | run :: runs => removeRun (run_path run) ;; remove_runs runs
  end.

(** Groups of eight; a group of one run is kept. *)
Fixpoint compact_groups (fuel : nat) (previous next : list externalSortRun) : sorting (list externalSortRun) :=
  match previous, fuel with
  | [], _ => sdone next
  | _, O => sfail (ErrSortRun "fuel")
  | _, S fuel =>
      let group := take externalSortFanIn previous in
      let previous := drop externalSortFanIn previous in
      match group with
      | [run] => compact_groups fuel previous (next ++ [run])
      | _ =>
          do run <- write_run (fun path => merge group (fun buf row => write_row path row buf) []) in
          remove_runs group ;;
          compact_groups fuel previous (next ++ [run])
      end
  end.

Definition compact : sorting unit :=
  do s <- the_sorter in
  do next <- compact_groups (length (es_runs s)) (es_runs s) [] in
  set_sorter (fun s => s <| es_runs := next |>).

Definition flush : sorting unit :=
  do s <- the_sorter in
  if bool_decide (es_batch s = []) then sdone tt
  else
    sortBatch ;;
    do s <- the_sorter in
    do run <- write_run (fun path => write_rows path (es_batch s) []) in
    set_sorter (fun s => s <| es_runs ::= fun runs => runs ++ [run] |>) ;;
    (fun w => (releaseBatch w, Ok tt)) ;;
    do s <- the_sorter in
    if (externalSortMaxRuns <=? length (es_runs s))%nat then compact else sdone tt.

(** ** The operations *)

Definition charge (size : Z) : sorting Z := fun w =>
  if es_budgeted (w_sorter w) then
    match reserve size (w_pool w) with
    | (_, None) => (w, Err ErrQueryResourceLimit)
    | (pool, Some granted) => (w <| w_pool := pool |> <| w_sorter ::= fun s => s <| es_held ::= Z.add granted |> |>, Ok granted)
    end
  else (w, Ok size).

Definition Add (values : list cell) : sorting unit :=
  do s <- the_sorter in
  if es_closed s then sfail ErrSorterClosed
  else
    check ;;
    checkRowWidth (serializedRowBytes values) ;;
    let size := queryRowBytes values + 32 in
    (if (es_memory s ÷ 2 <? es_batchBytes s + size) && negb (bool_decide (es_batch s = [])) then flush else sdone tt) ;;
    do granted <- charge size in
    set_sorter (fun s => s <| es_batch ::= (fun l => l ++ [mkSortRow values (es_next s)]) |> <| es_next ::= (fun n => (n + 1) mod 2 ^ 64) |>
                           <| es_batchBytes ::= Z.add granted |>).

(** The first error; every file is tried. *)
Fixpoint remove_files (paths : list Z) (first : option sort_error) (w : world) : world * option sort_error :=
  match paths with
  | [] => (w, first)
  | path :: paths =>
      let '(w, r) := removeRun path w in
      remove_files paths (match first, r with None, Err e => Some e | _, _ => first end) w
  end.

Definition Close : sorting unit := fun w =>
  if es_closed (w_sorter w) then (w, Ok tt)
  else
    let '(w, first) := remove_files (range (w_clock w) (es_files (w_sorter w))).*1 None w in
    let w := releaseSorter (releaseBatch w) in
    (w <| w_sorter ::= fun s => s <| es_runs := [] |> <| es_closed := if first then false else true |> |>,
     match first with Some e => Err e | None => Ok tt end).

Definition closing {A} (m : sorting A) : sorting A := fun w =>
  let '(w, r) := m w in
  let '(w, c) := Close w in
  (w, match r, c with Ok a, Err e => Err e | r, _ => r end).

Fixpoint yield_rows (yield : list cell -> sorting unit) (rows : list externalSortRow) : sorting unit :=
  match rows with
  | [] => sdone tt
  | row :: rows => check ;; yield (sr_values row) ;; yield_rows yield rows
  end.

Fixpoint compact_until (fuel : nat) (most : nat) : sorting unit :=
  match fuel with
  | O => sfail (ErrSortRun "fuel")
  | S fuel =>
      do s <- the_sorter in
      if (most <? length (es_runs s))%nat then compact ;; compact_until fuel most else sdone tt
  end.

Definition Finish (yield : list cell -> sorting unit) : sorting unit :=
  do s <- the_sorter in
  if es_closed s then sfail ErrSorterClosed
  else closing
    (if bool_decide (es_runs s = []) then
       sortBatch ;;
       do s <- the_sorter in
       yield_rows yield (es_batch s)
     else
       flush ;;
       do s <- the_sorter in
       compact_until (S (length (es_runs s))) externalSortFanIn ;;
       do s <- the_sorter in
       merge (es_runs s) (fun _ row => yield (sr_values row)) tt).

Definition mergeToSingleRun : sorting unit :=
  do s <- the_sorter in
  if es_closed s then sfail ErrSorterClosed
  else
    flush ;;
    do s <- the_sorter in
    compact_until (S (length (es_runs s))) 1.

Fixpoint read_run (fuel : nat) (maximum : Z) (yield : list cell -> sorting unit) (reader : bytes) : sorting unit :=
  match fuel with
  | O => sfail (ErrSortRun "fuel")
  | S fuel =>
      check ;;
      do row <- read_row maximum reader in
      match row with
      | None => sdone tt
      | Some (row, reader) => yield (sr_values row) ;; read_run fuel maximum yield reader
      end
  end.

Definition readSingleRun (yield : list cell -> sorting unit) : sorting unit :=
  do s <- the_sorter in
  match es_runs s with
  | [] => sdone tt
  | [run] =>
      do reader <- open_run run in
      fun w => read_run (S (length reader)) (head_limit w) yield reader w
  | _ => sfail (ErrSortRun "external sorter has more than one run to read")
  end.
End Sorter.

(** ** An environment in which nothing fails, for evaluation *)

Definition next_name (X : gset Z) : Z := 1 + foldr Z.max 0 (elements X).

Lemma next_name_fresh X : next_name X ∉ X.
Proof.
  rewrite <- elem_of_elements. unfold next_name. assert (forall p, p ∈ elements X -> p <= foldr Z.max 0 (elements X)) as Hmax.
  { intros p. induction (elements X) as [|x l IH]; [by intros ?%not_elem_of_nil|]. cbn. intros [->|Hin]%elem_of_cons; [lia|]. specialize (IH Hin). lia. }
  intros Hin. specialize (Hmax _ Hin). lia.
Qed.

#[program] Definition calm_env : SortEnv :=
  {| query_check := fun _ => None; io_error := fun _ => false; io_short := fun _ => None;
     temp_name := fun _ X => next_name X; part_sorted := fun _ l => l |}.
Next Obligation. intros n X. apply next_name_fresh. Qed.
Next Obligation. done. Qed.

Definition no_limit : SortOptions := {| MaxTempBytes := 0 |}.

(** Rows compared by their first column. *)
Definition first_number (values : list cell) : Z :=
  match values with
  | VInt n :: _ => n
  | _ => 0
  end.

Definition by_first (x y : list cell) : Z := first_number x - first_number y.

(** The world of a new sorter with a pool of its own. *)
Definition new_world (memory : Z) : world :=
  mkWorld (mkSorter true memory 0 false 0 0 [] [] ∅ 0 false) (newSorterBudget memory) 0 ∅ [] 0.
