(* ===== verification/SorterBooks.v ===== *)
(** * The books of the external sorter

    Whatever fails: the pool is charged with exactly what the sorter holds, the temporary budget with
    exactly the bytes of its files, and a file of the directory that the sorter did not make is left alone. *)

From stdpp Require Import gmap list sorting strings fin_maps.
From Stdlib Require Import Strings.Byte.
From S2P Require Import Prelude SortRow ExternalSort.
#[local] Open Scope sorting_scope.

(** ** Invariants of actions *)

Definition keeps {A} (P : world -> Prop) (m : sorting A) : Prop := forall w, P w -> P (m w).1.

Section Keeps.
Context (P : world -> Prop).

Lemma keeps_sdone {A} (a : A) : keeps P (sdone a).
Proof. by intros w. Qed.

Lemma keeps_fail {A} e : keeps P (@sfail A e).
Proof. by intros w. Qed.

Lemma keeps_sbind {A B} (m : sorting A) (f : A -> sorting B) : keeps P m -> (forall a, keeps P (f a)) -> keeps P (sbind m f).
Proof. intros Hm Hf w Hw. unfold sbind. specialize (Hm w Hw). destruct (m w) as [w' [a|e]]; [by apply Hf|done]. Qed.

Lemma keeps_sorter : keeps P the_sorter.
Proof. by intros w. Qed.

Lemma keeps_view {A} (f : world -> result sort_error A) : keeps P (fun w => (w, f w)).
Proof. by intros w. Qed.
End Keeps.

#[export] Hint Resolve keeps_sdone keeps_fail keeps_sorter keeps_view keeps_sbind : books.

(** What the pool, the temporary budget and the directory were without the sorter. *)
Record outside : Type := mkOutside { o_used : Z; o_temp : Z; o_disk : gmap Z bytes }.

Definition files_size (files : gmap Z Z) : Z := map_sum (fun _ n => n) files.

Record books (o : outside) (w : world) : Prop := {
  bk_used : used (w_pool w) = o_used o + es_held (w_sorter w);
  bk_floor : 0 <= o_used o /\ 0 <= es_held (w_sorter w);
  bk_held : es_held (w_sorter w) = if es_budgeted (w_sorter w) then es_batchBytes (w_sorter w) else 0;
  bk_temp : w_temp w = o_temp o + files_size (es_files (w_sorter w));
  bk_temp_own : es_tempBytes (w_sorter w) = files_size (es_files (w_sorter w));
  bk_file : forall p n, es_files (w_sorter w) !! p = Some n -> o_disk o !! p = None /\ exists c, w_disk w !! p = Some c /\ blen c = n;
  bk_other : forall p, es_files (w_sorter w) !! p = None -> w_disk w !! p = o_disk o !! p;
  bk_runs : Forall (fun run => o_disk o !! run_path run = None) (es_runs (w_sorter w))
}.

Section Books.
Context `{SortEnv} `{SortOptions} `{MapRange} (compare : list cell -> list cell -> Z) (o : outside) (closed : bool).
Notation P := (fun w => books o w /\ es_closed (w_sorter w) = closed).

(** ** The steps *)

Lemma keeps_same (f : world -> world) w :
  P w -> w_pool (f w) = w_pool w -> w_temp (f w) = w_temp w -> w_disk (f w) = w_disk w ->
  es_held (w_sorter (f w)) = es_held (w_sorter w) -> es_budgeted (w_sorter (f w)) = es_budgeted (w_sorter w) ->
  es_batchBytes (w_sorter (f w)) = es_batchBytes (w_sorter w) -> es_files (w_sorter (f w)) = es_files (w_sorter w) ->
  es_tempBytes (w_sorter (f w)) = es_tempBytes (w_sorter w) -> es_closed (w_sorter (f w)) = es_closed (w_sorter w) -> es_runs (w_sorter (f w)) = es_runs (w_sorter w) -> P (f w).
Proof. intros [[] Hc] E1 E2 E3 E4 E5 E6 E7 E8 E9 E10. split; [|by rewrite E9].
  by split; rewrite ?E1, ?E2, ?E3, ?E4, ?E5, ?E6, ?E7, ?E8, ?E10. Qed.

Lemma keeps_check : keeps P check.
Proof. intros w Hw. by apply (keeps_same tick). Qed.

Lemma keeps_io : keeps P io.
Proof. intros w Hw. by apply (keeps_same tick). Qed.

Lemma keeps_width width : keeps P (checkRowWidth width).
Proof. intros w Hw. unfold checkRowWidth. by case_match. Qed.

Lemma keeps_sortBatch : keeps P (sortBatch compare).
Proof.
  apply keeps_sbind; [|intros; apply keeps_check]. intros w Hw.
  destruct (query_check (w_clock w)); [apply (keeps_same (fun w => (tick w) <| w_sorter ::= fun s => s <| es_batch ::= part_sorted (w_clock w) |> |>) w)|
    apply (keeps_same (fun w => (tick w) <| w_sorter ::= fun s => s <| es_batch ::= sort_stable (row_less compare) |> |>) w)]; done.
Qed.

Lemma keeps_createRun : keeps P createRun.
Proof.
  apply keeps_sbind; [apply keeps_io|]. intros _ w [[] Hc]. cbn.
  set (path := temp_name (w_clock w) (dom (w_disk w))).
  assert (w_disk w !! path = None) as Hp by (apply not_elem_of_dom, temp_name_fresh).
  assert (es_files (w_sorter w) !! path = None) as Hf.
  { destruct (es_files (w_sorter w) !! path) as [n|] eqn:E; [|done]. apply bk_file0 in E as (_ & c & E & _). congruence. }
  assert (files_size (<[path := 0]> (es_files (w_sorter w))) = files_size (es_files (w_sorter w))) as Es.
  { unfold files_size. rewrite map_sum_insert by done. lia. }
  split; [|done]. split; cbn; rewrite ?Es; try done.
  - intros p n. destruct (decide (p = path)) as [->|Hne].
    + rewrite !lookup_insert_eq. intros [= <-]. split; [by rewrite <- bk_other0|]. by exists [].
    + rewrite !lookup_insert_ne by done. apply bk_file0.
  - intros p. destruct (decide (p = path)) as [->|Hne]; [by rewrite lookup_insert_eq|]. rewrite !lookup_insert_ne by done. apply bk_other0.
Qed.

(** A path the sorter writes to is one of its files. *)
Definition owned (path : Z) (w : world) : Prop := is_Some (es_files (w_sorter w) !! path).

Lemma keeps_run_write path p : keeps (fun w => P w /\ owned path w) (run_write path p).
Proof.
  apply keeps_sbind; [intros w [Hw Ho]; split; [by apply keeps_check|done]|]. intros _. intros w [[Hb Hc] [n Hn]]. unfold sbind, reserveTemporary.
  destruct ((0 <? MaxTempBytes) && (MaxTempBytes - w_temp w <? blen p)); unfold write_chunk; cbn; [split; [done|by exists n]|].
  destruct Hb. pose proof (bk_file0 _ _ Hn) as (Hnone & c & Hc' & Hlen). rewrite Hc', Hn. cbn [default].
  set (k := match io_short (w_clock w) with Some n => Nat.min n (length p) | None => length p end).
  assert (k <= length p)%nat as Hk by (unfold k; destruct (io_short (w_clock w)); lia).
  assert (files_size (<[path := n + Z.of_nat k]> (es_files (w_sorter w))) = files_size (es_files (w_sorter w)) + Z.of_nat k) as Es.
  { unfold files_size. rewrite map_sum_insert_any, Hn. cbn. lia. }
  split; [|unfold owned; cbn; rewrite lookup_insert_eq; by eexists]. split; [|done]. split; cbn; rewrite ?Es; try done; try lia.
  - intros q m. destruct (decide (q = path)) as [->|Hne].
    + rewrite !lookup_insert_eq. intros [= <-]. split; [done|]. eexists. split; [done|]. unfold blen in *. rewrite length_app, length_take. lia.
    + rewrite !lookup_insert_ne by done. apply bk_file0.
  - intros q. destruct (decide (q = path)) as [->|Hne]; [by rewrite lookup_insert_eq|]. rewrite !lookup_insert_ne by done. apply bk_other0.
Qed.

Lemma keeps_removeRun path : o_disk o !! path = None -> keeps P (removeRun path).
Proof.
  intros Hn. apply keeps_sbind; [apply keeps_io|]. intros _ w [[] Hc]. cbn. split; [|done].
  assert (files_size (delete path (es_files (w_sorter w))) = files_size (es_files (w_sorter w)) - default 0 (es_files (w_sorter w) !! path)) as Es.
  { unfold files_size. rewrite map_sum_delete_any. by destruct (es_files (w_sorter w) !! path). }
  split; cbn; rewrite ?Es; try done; try lia.
  - intros q m. destruct (decide (q = path)) as [->|Hne]; [by rewrite lookup_delete_eq|]. rewrite !lookup_delete_ne by done. apply bk_file0.
  - intros q. destruct (decide (q = path)) as [->|Hne]; [by rewrite !lookup_delete_eq|]. rewrite !lookup_delete_ne by done. apply bk_other0.
Qed.

(** ** Merging and writing *)

Lemma keeps_read_row Q maximum reader : keeps Q io -> keeps Q (read_row maximum reader).
Proof. intros Hio. apply keeps_sbind; [done|]. intros _ w Hw. by destruct (readSortRow maximum reader) as [[]|e]; [|destruct (decide _)]. Qed.

Lemma keeps_open_runs Q maximum runs readers heads : keeps Q io -> keeps Q (open_runs maximum runs readers heads).
Proof.
  intros Hio. revert readers heads. induction runs as [|run runs IH]; intros readers heads; [apply keeps_sdone|].
  apply keeps_sbind; [apply keeps_sbind; [done|intros _; apply keeps_view]|]. intros reader. apply keeps_sbind; [by apply keeps_read_row|]. by intros [[]|].
Qed.

Lemma keeps_merge_heads {Y} Q fuel maximum (yield : Y -> externalSortRow -> sorting Y) readers heads y :
  keeps Q io -> keeps Q check -> (forall y row, keeps Q (yield y row)) -> keeps Q (merge_heads compare fuel maximum yield readers heads y).
Proof.
  intros Hio Hcheck Hy. revert readers heads y. induction fuel as [|fuel IH]; intros readers heads y; cbn [merge_heads];
    destruct (pop_head compare heads) as [[head rest]|]; try apply keeps_sdone; [apply keeps_fail|].
  apply keeps_sbind; [done|]. intros _. apply keeps_sbind; [done|]. intros y'. apply keeps_sbind; [by apply keeps_read_row|]. by intros [[]|].
Qed.

Lemma keeps_merge {Y} Q runs (yield : Y -> externalSortRow -> sorting Y) y :
  keeps Q io -> keeps Q check -> (forall y row, keeps Q (yield y row)) -> keeps Q (merge compare runs yield y).
Proof.
  intros Hio Hcheck Hy w Hw. apply (keeps_sbind Q); [by apply keeps_open_runs|intros; by apply keeps_merge_heads|done].
Qed.

Lemma keeps_buffer_write path p buf : keeps (fun w => P w /\ owned path w) (buffer_write path p buf).
Proof.
  unfold buffer_write. generalize (S (S (length p))). intros fuel. revert p buf. induction fuel as [|fuel IH]; intros p buf; [apply keeps_fail|].
  cbn [buffer_loop]. case_match; [|apply keeps_sdone]. apply keeps_sbind; [apply keeps_run_write|done].
Qed.

Lemma keeps_write_row path row buf : keeps (fun w => P w /\ owned path w) (write_row path row buf).
Proof.
  unfold write_row. destruct (writeSortRow row) as [writes e]. apply keeps_sbind; [|intros; case_match; [apply keeps_fail|apply keeps_sdone]].
  revert buf. induction writes as [|p writes IH]; intros buf; [apply keeps_sdone|]. apply keeps_sbind; [apply keeps_buffer_write|done].
Qed.

Lemma keeps_write_rows path rows buf : keeps (fun w => P w /\ owned path w) (write_rows path rows buf).
Proof. revert buf. induction rows as [|row rows IH]; intros buf; [apply keeps_sdone|]. apply keeps_sbind; [apply keeps_write_row|done]. Qed.

(** An action that keeps the books, and what its result satisfies. *)
Definition ensures {A} (Q : world -> Prop) (m : sorting A) (R : A -> Prop) : Prop :=
  forall w, Q w -> Q (m w).1 /\ forall a, (m w).2 = Ok a -> R a.

Lemma ensures_keeps {A} Q (m : sorting A) R : ensures Q m R -> keeps Q m.
Proof. intros Hm w Hw. by apply Hm. Qed.

Lemma ensures_bind {A B} Q (m : sorting A) (f : A -> sorting B) R S :
  ensures Q m R -> (forall a, R a -> ensures Q (f a) S) -> ensures Q (sbind m f) S.
Proof.
  intros Hm Hf w Hw. unfold sbind. destruct (Hm w Hw) as [Hk1 Hk2]. destruct (m w) as [w' [a|e]]; [|done]. apply Hf; [by apply Hk2|done].
Qed.

Lemma keeps_ensures {A B} Q (m : sorting A) (f : A -> sorting B) S :
  keeps Q m -> (forall a, ensures Q (f a) S) -> ensures Q (sbind m f) S.
Proof. intros Hm Hf. apply (ensures_bind Q m f (fun _ => True)); [intros w Hw; split; [by apply Hm|done]|by intros a _]. Qed.

Definition fresh_run (run : externalSortRun) : Prop := o_disk o !! run_path run = None.

Lemma ensures_create {B} (f : Z -> sorting B) S :
  (forall path, ensures (fun w => P w /\ owned path w) (f path) S) -> ensures P (sbind createRun f) S.
Proof.
  intros Hf w Hw. pose proof (keeps_createRun w Hw) as Hp.
  assert (forall path, (createRun w).2 = Ok path -> owned path (createRun w).1) as Hown.
  { unfold createRun, io, sbind. destruct (io_error (w_clock w)); [done|]. cbn. intros path [= <-]. unfold owned. cbn. rewrite lookup_insert_eq. by eexists. }
  unfold sbind. destruct (createRun w) as [w1 [path|e]]; [|split; [exact Hp|by intros ? [=]]].
  destruct (Hf path w1) as [[Hk1 _] Hk2]; [split; [exact Hp|by apply Hown]|]. by split.
Qed.

Lemma keeps_close_file {A} Q (m : sorting A) : keeps Q io -> keeps Q m -> keeps Q (close_file m).
Proof.
  intros Hio Hm w Hw. unfold close_file. specialize (Hm w Hw). destruct (m w) as [w' r]. specialize (Hio w' Hm). by destruct (io w').
Qed.

Lemma keeps_owned {A} path (m : sorting A) : keeps P m -> (forall w, es_files (w_sorter (m w).1) = es_files (w_sorter w)) -> keeps (fun w => P w /\ owned path w) m.
Proof. intros Hm He w [Hw Ho]. split; [by apply Hm|]. unfold owned. by rewrite He. Qed.

Lemma ensures_write_run fill : (forall path, keeps (fun w => P w /\ owned path w) (fill path)) -> ensures P (write_run fill) fresh_run.
Proof.
  intros Hfill. apply ensures_create. intros path. apply keeps_ensures.
  - apply keeps_close_file; [by apply keeps_owned; [apply keeps_io|]|]. apply keeps_sbind; [done|]. intros buf. unfold buffer_flush.
    case_bool_decide; [apply keeps_sdone|apply keeps_run_write].
  - intros _ w [[Hb Hc] [n Hn]]. split; [split; [by split|by exists n]|]. intros run [= <-]. unfold fresh_run. cbn. by destruct (bk_file _ _ Hb path n Hn).
Qed.

Lemma keeps_remove_runs runs : Forall fresh_run runs -> keeps P (remove_runs runs).
Proof. induction 1 as [|run runs Hr _ IH]; [apply keeps_sdone|]. apply keeps_sbind; [by apply keeps_removeRun|done]. Qed.

Lemma ensures_compact_groups fuel previous next :
  Forall fresh_run previous -> Forall fresh_run next -> ensures P (compact_groups compare fuel previous next) (Forall fresh_run).
Proof.
  revert previous next. induction fuel as [|fuel IH]; intros previous next Hp Hn; [destruct previous; cbn; intros w Hw; (split; [done|]); by intros a [= <-]|].
  destruct previous as [|run0 previous0]; [intros w Hw; split; [done|by intros a [= <-]]|]. set (previous := run0 :: previous0) in *.
  assert (ensures P
    (do run <- write_run (fun path => merge compare (take externalSortFanIn previous) (fun buf row => write_row path row buf) []) in
     remove_runs (take externalSortFanIn previous) ;; compact_groups compare fuel (drop externalSortFanIn previous) (next ++ [run])) (Forall fresh_run)) as Hm.
  { apply (ensures_bind P _ _ fresh_run).
    - apply ensures_write_run. intros path. apply keeps_merge; [| |intros; apply keeps_write_row].
      + by apply keeps_owned; [apply keeps_io|].
      + by apply keeps_owned; [apply keeps_check|].
    - intros run Hr. apply keeps_ensures; [by apply keeps_remove_runs, Forall_take|]. intros _.
      apply IH; [by apply Forall_drop|]. apply Forall_app. split; [done|by apply Forall_singleton]. }
  unfold previous in Hm. cbn [compact_groups]. fold previous in Hm |- *. destruct (take externalSortFanIn previous) as [|r [|r2 rest]] eqn:E; [exact Hm| |exact Hm].
  apply IH; [by apply Forall_drop|]. apply Forall_app. split; [done|]. rewrite <- E. by apply Forall_take.
Qed.

Lemma keeps_the_sorter {B} Q (f : externalRowSorter -> sorting B) :
  (forall w, Q w -> Q (f (w_sorter w) w).1) -> keeps Q (sbind the_sorter f).
Proof. intros Hf w Hw. by apply Hf. Qed.

Lemma keeps_ensured {A B} Q (m : sorting A) (f : A -> sorting B) R w :
  ensures Q m R -> (forall a, R a -> keeps Q (f a)) -> Q w -> Q (sbind m f w).1.
Proof.
  intros Hm Hf Hw. refine (proj1 (ensures_bind Q m f R (fun _ => True) Hm _ w Hw)).
  intros a Ha w' Hw'. split; [by apply Hf|done].
Qed.

Lemma books_runs w : P w -> Forall fresh_run (es_runs (w_sorter w)).
Proof. by intros [[] _]. Qed.

Lemma keeps_compact : keeps P (compact compare).
Proof.
  apply keeps_the_sorter. intros w Hw. apply (keeps_ensured P _ _ (Forall fresh_run)); [|intros next Hn w' [[] Hc]; by split; [split|]|done].
  apply ensures_compact_groups; [by apply books_runs|constructor].
Qed.

(** ** The operations *)

Lemma release_held_books w : P w -> used (w_pool (release_held w)) = o_used o /\ w_sorter (release_held w) = w_sorter w /\
  w_temp (release_held w) = w_temp w /\ w_disk (release_held w) = w_disk w.
Proof.
  intros [[] _]. unfold release_held. destruct (es_budgeted (w_sorter w)) eqn:Eb; cbn [andb].
  - destruct (Z.ltb_spec 0 (es_held (w_sorter w))); cbn; split_and!; try done; [|lia].
    destruct (Z.ltb_spec (used (w_pool w) - es_held (w_sorter w)) 0); lia.
  - split_and!; try done. lia.
Qed.

Lemma releaseBatch_books w : P w -> P (releaseBatch w).
Proof.
  intros Hw. destruct (release_held_books w Hw) as (E1 & E2 & E3 & E4). destruct Hw as [[] Hc]. unfold releaseBatch.
  split; [|cbn; by rewrite E2]. split; cbn; rewrite ?E1, ?E2, ?E3, ?E4; try done; try lia. by destruct (es_budgeted _).
Qed.

Lemma keeps_flush : keeps P (flush compare).
Proof.
  apply keeps_sbind; [apply keeps_sorter|]. intros s. case_bool_decide; [apply keeps_sdone|].
  apply keeps_sbind; [apply keeps_sortBatch|]. intros _. apply keeps_sbind; [apply keeps_sorter|]. clear. intros s w Hw.
  apply (keeps_ensured P _ _ fresh_run); [apply ensures_write_run; intros; apply keeps_write_rows| |done].
  intros run Hr. apply keeps_sbind.
  { intros w' [[] Hc]. split; [|done]. split; cbn; try done. apply Forall_app. split; [done|by apply Forall_singleton]. }
  intros _. apply keeps_sbind; [intros w'; apply releaseBatch_books|]. intros _. apply keeps_sbind; [apply keeps_sorter|]. intros s'.
  case_match; [apply keeps_compact|apply keeps_sdone].
Qed.

Lemma keeps_charge_add values size :
  0 <= size -> keeps P (do granted <- charge size in
    set_sorter (fun s => s <| es_batch ::= (fun l => l ++ [mkSortRow values (es_next s)]) |> <| es_next ::= (fun n => (n + 1) mod 2 ^ 64) |>
                           <| es_batchBytes ::= Z.add granted |>)).
Proof.
  intros Hs w Hw. pose proof Hw as [[] Hc]. unfold sbind, charge, reserve. destruct (es_budgeted (w_sorter w)) eqn:Eb.
  - destruct (Z.ltb_spec (total (w_pool w) - used (w_pool w)) size) as [L|L]; cbn [fst].
    + destruct (Z.ltb_spec (total (w_pool w) - used (w_pool w)) 1); [exact Hw|]. cbn. split; [|done]. split; cbn; rewrite ?Eb; try done; try lia.
    + destruct (Z.ltb_spec size 1); [exact Hw|]. cbn. split; [|done]. split; cbn; rewrite ?Eb; try done; try lia.
  - cbn. split; [|done]. split; cbn; rewrite ?Eb; done.
Qed.

Lemma queryRowBytes_nonneg values : 0 <= queryRowBytes values.
Proof.
  unfold queryRowBytes. assert (0 <= 48 + 24 * Z.of_nat (length values)) as Hn by lia. revert Hn. generalize (48 + 24 * Z.of_nat (length values)).
  induction values as [|v values IH]; intros n Hn; [done|]. cbn [foldl]. apply IH. destruct v; cbn [cell_memory]; unfold blen; lia.
Qed.

Lemma keeps_Add values : keeps P (Add compare values).
Proof.
  apply keeps_sbind; [apply keeps_sorter|]. intros s. case_match; [apply keeps_fail|].
  apply keeps_sbind; [apply keeps_check|]. intros _. apply keeps_sbind; [apply keeps_width|]. intros _.
  apply keeps_sbind; [case_match; [apply keeps_flush|apply keeps_sdone]|]. intros _.
  apply keeps_charge_add. pose proof (queryRowBytes_nonneg values). lia.
Qed.

Lemma keeps_compact_until fuel most : keeps P (compact_until compare fuel most).
Proof.
  induction fuel as [|fuel IH]; [apply keeps_fail|]. apply keeps_sbind; [apply keeps_sorter|]. intros s.
  case_match; [apply keeps_sbind; [apply keeps_compact|done]|apply keeps_sdone].
Qed.

Lemma keeps_mergeToSingleRun : keeps P (mergeToSingleRun compare).
Proof.
  apply keeps_sbind; [apply keeps_sorter|]. intros s. case_match; [apply keeps_fail|]. apply keeps_sbind; [apply keeps_flush|]. intros _.
  apply keeps_sbind; [apply keeps_sorter|]. intros s'. apply keeps_compact_until.
Qed.

Lemma keeps_readSingleRun yield : (forall values, keeps P (yield values)) -> keeps P (readSingleRun yield).
Proof.
  intros Hy. apply keeps_sbind; [apply keeps_sorter|]. intros s. destruct (es_runs s) as [|run [|]]; [apply keeps_sdone| |apply keeps_fail].
  apply keeps_sbind; [apply keeps_sbind; [apply keeps_io|intros _; apply keeps_view]|]. intros reader w Hw.
  generalize (S (length reader)), (head_limit w). intros fuel maximum. revert reader w Hw. change (forall reader, keeps P (read_run fuel maximum yield reader)).
  induction fuel as [|fuel IH]; intros reader; [apply keeps_fail|]. apply keeps_sbind; [apply keeps_check|]. intros _.
  apply keeps_sbind; [apply keeps_read_row, keeps_io|]. intros [[row reader']|]; [|apply keeps_sdone]. by apply keeps_sbind.
Qed.

Definition finish_rows (yield : list cell -> sorting unit) (s : externalRowSorter) : sorting unit :=
  if bool_decide (es_runs s = []) then sortBatch compare ;; do s <- the_sorter in yield_rows yield (es_batch s)
  else flush compare ;; do s <- the_sorter in compact_until compare (S (length (es_runs s))) externalSortFanIn ;;
       do s <- the_sorter in merge compare (es_runs s) (fun _ row => yield (sr_values row)) tt.

Lemma Finish_open yield w : es_closed (w_sorter w) = false -> Finish compare yield w = closing (finish_rows yield (w_sorter w)) w.
Proof. intros Hc. unfold Finish, sbind at 1. cbn [the_sorter]. by rewrite Hc. Qed.

Lemma keeps_finish_rows yield s : (forall values, keeps P (yield values)) -> keeps P (finish_rows yield s).
Proof.
  intros Hy. unfold finish_rows. case_bool_decide.
  - apply keeps_sbind; [apply keeps_sortBatch|]. intros _. apply keeps_sbind; [apply keeps_sorter|]. intros s'.
    induction (es_batch s') as [|row rows IH]; [apply keeps_sdone|]. apply keeps_sbind; [apply keeps_check|]. intros _. by apply keeps_sbind.
  - apply keeps_sbind; [apply keeps_flush|]. intros _. apply keeps_sbind; [apply keeps_sorter|]. intros s'.
    apply keeps_sbind; [apply keeps_compact_until|]. intros _. apply keeps_sbind; [apply keeps_sorter|]. intros s''.
    apply keeps_merge; [apply keeps_io|apply keeps_check|done].
Qed.

Lemma remove_files_spec paths first w :
  P w -> Forall (fun p => o_disk o !! p = None) paths ->
  let '(w', first') := remove_files paths first w in
  P w' /\ (forall p, es_files (w_sorter w) !! p = None -> es_files (w_sorter w') !! p = None) /\
  (first' = None -> first = None /\ forall p, p ∈ paths -> es_files (w_sorter w') !! p = None).
Proof.
  intros Hw Hp. revert first w Hw. induction Hp as [|path paths Hpath _ IH]; intros first w Hw; cbn [remove_files].
  { split; [exact Hw|]. split; [done|]. intros ->. split; [done|]. by intros p ?%not_elem_of_nil. }
  pose proof (keeps_removeRun path Hpath w Hw) as Hk.
  assert (forall p, es_files (w_sorter w) !! p = None -> es_files (w_sorter (removeRun path w).1) !! p = None) as Hmono.
  { unfold removeRun, io, sbind. intros p E. destruct (io_error (w_clock w)); cbn; [done|]. by apply lookup_delete_None; right. }
  assert ((removeRun path w).2 = Ok tt -> es_files (w_sorter (removeRun path w).1) !! path = None) as Hgone.
  { unfold removeRun, io, sbind. destruct (io_error (w_clock w)); cbn; [done|]. intros _. apply lookup_delete_eq. }
  destruct (removeRun path w) as [w1 r]. cbn [fst snd] in *.
  specialize (IH (match first, r with None, Err e => Some e | _, _ => first end) w1 Hk). destruct (remove_files paths _ w1) as [w' first'].
  destruct IH as (Hk' & Hmono' & Hall). split; [exact Hk'|]. split; [auto|]. intros E. destruct (Hall E) as [Ef Hin].
  destruct first as [e|], r as [[]|e']; try done. split; [done|]. intros p [->|Hin']%elem_of_cons; [by apply Hmono', Hgone|by apply Hin].
Qed.
End Books.

(** ** Runs of a sorter *)

Definition nothing_left (w : world) : Prop :=
  es_files (w_sorter w) = ∅ /\ es_runs (w_sorter w) = [] /\ es_batch (w_sorter w) = [] /\ es_held (w_sorter w) = 0.

Definition sound (o : outside) (w : world) : Prop := books o w /\ (es_closed (w_sorter w) = true -> nothing_left w).

Inductive sorter_op : Type :=
  | OpAdd (values : list cell)
  | OpFinish
  | OpMerge
  | OpRead
  | OpClose.

Section Runs.
Context `{SortEnv} `{SortOptions} `{MapRange} (compare : list cell -> list cell -> Z).

Definition sorter_step (yield : list cell -> sorting unit) (w : world) (op : sorter_op) : world :=
  match op with
  | OpAdd values => (Add compare values w).1
  | OpFinish => (Finish compare yield w).1
  | OpMerge => (mergeToSingleRun compare w).1
  | OpRead => (readSingleRun yield w).1
  | OpClose => (Close w).1
  end.

(** A consumer that only notes the rows. *)
Definition quiet (yield : list cell -> sorting unit) : Prop :=
  forall values w, exists out n, (yield values w).1 = w <| w_out := out |> <| w_clock := n |>.

Lemma quiet_keeps o closed yield : quiet yield -> forall values, keeps (fun w => books o w /\ es_closed (w_sorter w) = closed) (yield values).
Proof.
  intros Hq values w Hw. destruct (Hq values w) as (out & n & ->).
  by apply (keeps_same o closed (fun w => w <| w_out := out |> <| w_clock := n |>)).
Qed.

Lemma Close_books o w : books o w -> es_closed (w_sorter w) = false -> sound o (Close w).1 /\ ((Close w).2 = Ok tt -> es_closed (w_sorter (Close w).1) = true).
Proof.
  intros Hb Hc. unfold Close. rewrite Hc.
  assert (Forall (fun p => o_disk o !! p = None) (range (w_clock w) (es_files (w_sorter w))).*1) as Hp.
  { apply Forall_fmap, Forall_forall. intros [p n] Hin%elem_of_range. by destruct (bk_file _ _ Hb p n Hin). }
  pose proof (remove_files_spec o false _ None w (conj Hb Hc) Hp) as Hr. destruct (remove_files _ None w) as [w1 first].
  destruct Hr as (Hk & Hmono & Hall). pose proof (releaseBatch_books o false w1 Hk) as [[] Hc2].
  assert (first = None -> es_files (w_sorter w1) = ∅) as Hempty.
  { intros E. destruct (Hall E) as [_ Hin]. apply map_empty. intros p. destruct (es_files (w_sorter w) !! p) as [n|] eqn:En; [|by apply Hmono].
    apply Hin. apply list_elem_of_fmap. exists (p, n). split; [done|by apply elem_of_range]. }
  assert (es_held (w_sorter (releaseBatch w1)) = 0) as Eh by done.
  assert (es_files (w_sorter (releaseBatch w1)) = es_files (w_sorter w1)) as Ef by (cbn; by destruct (release_held_books o false w1 Hk) as (_ & -> & _)).
  assert (releaseSorter (releaseBatch w1) = (releaseBatch w1) <| w_sorter ::= fun s => s <| es_released := true |> <| es_held := 0 |> |> \/ releaseSorter (releaseBatch w1) = releaseBatch w1) as Er.
  { unfold releaseSorter. destruct (es_released _); [by right|left]. unfold release_held. rewrite Eh. by rewrite andb_false_r. }
  cbn [fst snd]. split.
  - split; [|destruct first as [e|]; [done|intros _]].
    + destruct Er as [-> | ->]; split; cbn in *; try done; constructor.
    + destruct Er as [-> | ->]; (split; [exact (eq_trans Ef (Hempty eq_refl))|done]).
  - by destruct first.
Qed.

Lemma closing_sound {A} o (m : sorting A) w :
  keeps (fun w => books o w /\ es_closed (w_sorter w) = false) m -> books o w -> es_closed (w_sorter w) = false -> sound o (closing m w).1.
Proof.
  intros Hm Hb Hc. unfold closing. specialize (Hm w (conj Hb Hc)). destruct (m w) as [w1 r]. destruct Hm as [Hb1 Hc1].
  destruct (Close_books o w1 Hb1 Hc1) as [Hs _]. destruct (Close w1). exact Hs.
Qed.

Lemma sorter_step_sound o yield w op : quiet yield -> sound o w -> sound o (sorter_step yield w op).
Proof.
  intros Hq Hsound. pose proof Hsound as [Hb Hc]. assert (forall closed values, keeps (fun w => books o w /\ es_closed (w_sorter w) = closed) (yield values)) as Hy by (intros; by apply quiet_keeps).
  destruct (es_closed (w_sorter w)) eqn:E.
  - destruct (Hc eq_refl) as (Hf & Hr & _). destruct op; cbn [sorter_step]; unfold Add, Finish, mergeToSingleRun, readSingleRun, Close, sbind; cbn [the_sorter];
      rewrite ?E, ?Hr; exact Hsound.
  - assert (forall A (m : sorting A), keeps (fun w => books o w /\ es_closed (w_sorter w) = false) m -> sound o (m w).1) as Hk.
    { intros A m Hm. destruct (Hm w (conj Hb E)) as [? E']. split; [done|]. rewrite E'. done. }
    destruct op; cbn [sorter_step].
    + apply Hk, keeps_Add.
    + rewrite Finish_open by done. apply closing_sound; [by apply keeps_finish_rows|done..].
    + apply Hk, keeps_mergeToSingleRun.
    + apply Hk. by apply keeps_readSingleRun.
    + by apply Close_books.
Qed.

(** C32: whatever rows a sorter is given, whatever its operations and whatever fails in them: the pool of
    the statement is charged with exactly the bytes its batch was granted, the temporary budget with
    exactly the bytes of its run files, each of which is on disk at the length the books say, and no
    other file is touched; and once the sorter is closed the pool, the temporary budget and the
    directory are what they were before it was made. *)
Theorem sorter_books_exact (w : world) (s : externalRowSorter) (sort_memory : Z) (budget : option Z) (yield : list cell -> sorting unit) (ops : list sorter_op) :
  newExternalRowSorter sort_memory budget = Ok s -> w_sorter w = s -> 0 <= used (w_pool w) -> quiet yield ->
  let w' := foldl (sorter_step yield) w ops in
  let s' := w_sorter w' in
  used (w_pool w') = used (w_pool w) + es_held s' /\
  es_held s' = (if es_budgeted s' then es_batchBytes s' else 0) /\
  w_temp w' = w_temp w + files_size (es_files s') /\
  (forall p n, es_files s' !! p = Some n -> w_disk w !! p = None /\ exists c, w_disk w' !! p = Some c /\ blen c = n) /\
  (forall p, es_files s' !! p = None -> w_disk w' !! p = w_disk w !! p) /\
  (es_closed s' = true -> used (w_pool w') = used (w_pool w) /\ w_temp w' = w_temp w /\ w_disk w' = w_disk w /\ es_batch s' = [] /\ es_runs s' = []).
Proof.
  intros Hs <- Hu Hq. set (o := mkOutside (used (w_pool w)) (w_temp w) (w_disk w)). assert (sound o w) as Hstart.
  { unfold newExternalRowSorter in Hs. case_match; [done|]. injection Hs as Hs. split; [|by rewrite <- Hs].
    split; rewrite <- ?Hs; cbn; try done; try lia; [by destruct budget|]. unfold files_size. rewrite map_sum_empty. lia. }
  assert (sound o (foldl (sorter_step yield) w ops)) as [[] Hclosed].
  { clear Hs. revert Hstart. generalize w. induction ops as [|op ops IH]; intros w1 Hw1; [done|]. apply IH. by apply sorter_step_sound. }
  cbv zeta. split_and!; try done. intros Hc. destruct (Hclosed Hc) as (Hf & Hr & Hb & Hh). rewrite Hf in *. split_and!; try done.
  - rewrite bk_used0, Hh. cbn. lia.
  - rewrite bk_temp0. unfold files_size. rewrite map_sum_empty. cbn. lia.
  - apply map_eq. intros p. by apply bk_other0.
Qed.
End Runs.

(** A sorter is given rows that fill two batches, is finished, and has nothing left. *)
Lemma sorter_books_exact_witness :
  let rows := (fun k => [VInt k; VString (replicate 3900 x61)]) <$> [5; 3; 9; 1; 7; 2; 8; 4; 6; 0; 5] in
  let w := new_world 65536 in
  let yield : list cell -> sorting unit := fun values w => (w <| w_out ::= (fun out => out ++ [values]) |> <| w_clock ::= S |>, Ok tt) in
  let w' := foldl (@sorter_step calm_env no_limit canonical_range by_first yield) w ((OpAdd <$> rows) ++ [OpFinish]) in
  let s' := w_sorter w' in
  used (w_pool w') = used (w_pool w) + es_held s' /\
  es_held s' = (if es_budgeted s' then es_batchBytes s' else 0) /\
  w_temp w' = w_temp w + files_size (es_files s') /\
  (forall p n, es_files s' !! p = Some n -> w_disk w !! p = None /\ exists c, w_disk w' !! p = Some c /\ blen c = n) /\
  (forall p, es_files s' !! p = None -> w_disk w' !! p = w_disk w !! p) /\
  (es_closed s' = true -> used (w_pool w') = used (w_pool w) /\ w_temp w' = w_temp w /\ w_disk w' = w_disk w /\ es_batch s' = [] /\ es_runs s' = []).
Proof.
  intros rows w yield. apply (@sorter_books_exact calm_env no_limit canonical_range by_first w (w_sorter w) 0 (Some 65536) yield).
  - by vm_compute.
  - done.
  - done.
  - intros values w1. exists (w_out w1 ++ [values]), (S (w_clock w1)). done.
Defined.
