(* ===== verification/SorterOrder.v ===== *)
(** * What the external sorter hands on

    Runs hold sorted rows, a merge of runs is sorted, and the rows in the runs and in the batch are the rows
    that were added. *)

From stdpp Require Import gmap list sorting strings fin_maps.
From Stdlib Require Import Strings.Byte.
From S2P Require Import Prelude TopK SortRow ExternalSort.
#[local] Open Scope sorting_scope.

(** ** Rows as they come back *)

Definition normal_row (row : externalSortRow) : externalSortRow := mkSortRow (normal <$> sr_values row) (sr_ordinal row).

Definition row_bytes (row : externalSortRow) : bytes := mjoin (writeSortRow row).1.

Definition encodable (row : externalSortRow) : Prop := (writeSortRow row).2 = None.

Lemma normal_normal value : normal (normal value) = normal value.
Proof. by destruct value. Qed.

Lemma normal_writes value : cell_writes (normal value) = cell_writes value.
Proof. by destruct value. Qed.

Lemma normal_row_writes row : writeSortRow (normal_row row) = writeSortRow row.
Proof.
  unfold writeSortRow, normal_row. cbn [sr_values sr_ordinal]. rewrite length_fmap.
  assert (cells_writes (normal <$> sr_values row) = cells_writes (sr_values row)) as ->; [|done].
  induction (sr_values row) as [|v l IH]; [done|]. cbn [fmap list_fmap cells_writes]. rewrite normal_writes, <- IH. done.
Qed.

Lemma normal_row_row row : normal_row (normal_row row) = normal_row row.
Proof.
  unfold normal_row. cbn. f_equal. rewrite <- list_fmap_compose. apply list_fmap_ext. intros ? v _. apply normal_normal.
Qed.

Lemma normal_row_width row : read_width (sr_values (normal_row row)) = read_width (sr_values row).
Proof.
  unfold read_width, normal_row. cbn [sr_values]. rewrite length_fmap. f_equal.
  induction (sr_values row) as [|v l IH]; [done|]. cbn [fmap list_fmap]. unfold payloads in *. cbn [foldr]. rewrite IH. f_equal. by destruct v.
Qed.

Lemma normal_row_wf row : wf_row row -> wf_row (normal_row row).
Proof.
  intros (Ho & Hw & Ha & Hl). split; [done|]. unfold normal_row. cbn [sr_values]. rewrite length_fmap. split_and!; [| |done].
  - apply Forall_fmap. eapply Forall_impl; [exact Hw|]. by intros [].
  - apply Forall_fmap. eapply Forall_impl; [exact Ha|]. by intros [].
Qed.

Lemma read_row_bytes row maximum r :
  wf_row row -> encodable row -> maximum < 2 ^ 63 ->
  within (read_width (sr_values row) <=? maximum) (normal_row row, r) (readSortRow maximum (row_bytes row ++ r)).
Proof.
  intros Hw He Hm. unfold row_bytes, encodable in *. destruct (writeSortRow row) as [writes e] eqn:E. cbn in He. subst e.
  by apply readSortRow_app.
Qed.

(** ** The order of rows *)

Section Order.
Context (compare : list cell -> list cell -> Z).
Context (compare_sym : forall x y, Z.sgn (compare y x) = - Z.sgn (compare x y)).
Context (compare_trans : forall x y z, compare x y <= 0 -> compare y z <= 0 -> compare x z <= 0).
Context (compare_normal : forall x y, compare (normal <$> x) y = compare x y /\ compare x (normal <$> y) = compare x y).
Notation less := (row_less compare).

Definition to_ranked (row : externalSortRow) : rankedValue (list cell) := mkRanked (sr_values row) (sr_ordinal row).

Lemma less_ranked a b : less a b = TopK.less compare (to_ranked a) (to_ranked b).
Proof. done. Qed.

Lemma row_asym a b : less a b = true -> less b a = false.
Proof. rewrite !less_ranked. by apply less_asym. Qed.

Lemma row_trans a b c : less a b = false -> less b c = false -> less a c = false.
Proof. rewrite !less_ranked. by apply ge_trans. Qed.

Lemma row_antisym a b : less a b = false -> less b a = false -> sr_ordinal a = sr_ordinal b.
Proof. rewrite !less_ranked. by apply ge_antisym. Qed.

Lemma row_normal a b : less (normal_row a) (normal_row b) = less a b.
Proof.
  unfold row_less, normal_row. cbn [sr_values sr_ordinal].
  destruct (compare_normal (sr_values a) (normal <$> sr_values b)) as [-> _], (compare_normal (sr_values a) (sr_values b)) as [_ ->]. done.
Qed.

Definition row_sorted (rows : list externalSortRow) : Prop := StronglySorted (not_after less) rows.

Lemma sort_rows_sorted rows : row_sorted (sort_stable less rows).
Proof. apply sort_stable_sorted; [apply row_asym|]. intros x y z ??. by apply (row_trans z y x). Qed.

Lemma row_sorted_unique rows rows' :
  row_sorted rows -> row_sorted rows' -> NoDup (sr_ordinal <$> rows) -> rows ≡ₚ rows' -> rows = rows'.
Proof.
  intros Hs Hs' Hn Hp. apply (StronglySorted_unique_strong (not_after less)); [|done..].
  intros x y Hx Hy Hxy Hyx. rewrite <- Hp in Hy. pose proof (row_antisym x y Hyx Hxy) as Ho.
  apply list_elem_of_lookup in Hx as [i Hi], Hy as [j Hj].
  assert (i = j) as ->; [|congruence]. apply (NoDup_lookup _ i j (sr_ordinal x) Hn); rewrite list_lookup_fmap, ?Hi, ?Hj; cbn; congruence.
Qed.

(** The first of a sorted list. *)
Lemma sort_least row rows :
  NoDup (sr_ordinal <$> row :: rows) -> (forall x, x ∈ rows -> less x row = false) -> sort_stable less (row :: rows) = row :: sort_stable less rows.
Proof.
  intros Hn Hleast. apply row_sorted_unique; [apply sort_rows_sorted| | |by rewrite !sort_stable_perm].
  - constructor; [apply sort_rows_sorted|]. apply Forall_forall. intros x Hx. rewrite sort_stable_perm in Hx. by apply Hleast.
  - by rewrite sort_stable_perm.
Qed.

Lemma row_sorted_normal rows : row_sorted rows -> row_sorted (normal_row <$> rows).
Proof.
  unfold row_sorted. induction 1 as [|row rows Hs IH Hr]; [constructor|]. cbn. constructor; [done|].
  apply Forall_fmap. eapply Forall_impl; [exact Hr|]. intros x. unfold not_after. cbn. by rewrite row_normal.
Qed.

(** A least head. *)
Lemma pop_head_spec (heads : list head_row) :
  match pop_head compare heads with
  | None => heads = []
  | Some (m, rest) => m :: rest ≡ₚ heads /\ Forall (fun h => less h.1 m.1 = false) rest
  end.
Proof.
  induction heads as [|h heads IH]; [done|]. cbn [pop_head]. destruct (pop_head compare heads) as [[m rest]|]; [|by subst].
  destruct IH as [Hp Hf]. destruct (less m.1 h.1) eqn:E.
  - split; [rewrite <- Hp; constructor|]. constructor; [by apply row_asym|done].
  - split; [done|]. rewrite <- Hp. constructor; [done|]. eapply Forall_impl; [exact Hf|]. intros x Hx. by apply (row_trans _ m.1).
Qed.
End Order.

(** ** Outcomes

    [wp m w Q E]: [m] ends in [Q] when it succeeds and in [E] when it fails. *)

Definition wp {A} (m : sorting A) (w : world) (Q : A -> world -> Prop) (E : world -> Prop) : Prop :=
  match m w with
  | (w', Ok a) => Q a w'
  | (w', Err _) => E w'
  end.

Lemma wp_bind {A B} (m : sorting A) (f : A -> sorting B) w Q E : wp m w (fun a w' => wp (f a) w' Q E) E -> wp (sbind m f) w Q E.
Proof. unfold wp, sbind. by destruct (m w) as [w' [a|e]]. Qed.

Lemma wp_mono {A} (m : sorting A) w (Q Q' : A -> world -> Prop) (E E' : world -> Prop) :
  wp m w Q E -> (forall a w', Q a w' -> Q' a w') -> (forall w', E w' -> E' w') -> wp m w Q' E'.
Proof. unfold wp. destruct (m w) as [w' [a|e]]; auto. Qed.

Section Steps.
Context `{SortEnv} `{SortOptions} `{MapRange} (compare : list cell -> list cell -> Z) (fails : Prop).
Context (check_fails : forall n e, query_check n = Some e -> fails) (io_fails : forall n, io_error n = true -> fails).

(** A step that hands nothing on: when it fails, so may the run, and no row was handed on. *)
Definition step {A} (m : sorting A) (w : world) (Q : A -> world -> Prop) : Prop :=
  wp m w Q (fun w' => fails /\ w_out w' = w_out w).

Lemma step_bind {A B} (m : sorting A) (f : A -> sorting B) w Q :
  step m w (fun a w' => w_out w' = w_out w /\ step (f a) w' Q) -> step (sbind m f) w Q.
Proof.
  intros Hm. apply wp_bind. eapply wp_mono; [exact Hm| |done]. intros a w' [Ho Hf]. eapply wp_mono; [exact Hf|done|].
  intros w'' [Hfl Ho']. split; [done|congruence].
Qed.

Lemma step_mono {A} (m : sorting A) w (Q Q' : A -> world -> Prop) : step m w Q -> (forall a w', Q a w' -> Q' a w') -> step m w Q'.
Proof. intros Hm Hq. by eapply wp_mono. Qed.

Lemma step_check w : step check w (fun _ w' => w' = tick w).
Proof. unfold step, wp, check. destruct (query_check (w_clock w)) eqn:E; [split; [by eapply check_fails|done]|done]. Qed.

Lemma step_io w : step io w (fun _ w' => w' = tick w).
Proof. unfold step, wp, io. destruct (io_error (w_clock w)) eqn:E; [split; [by eapply io_fails|done]|done]. Qed.

(** ** Reading rows *)

Definition rows_bytes (rows : list externalSortRow) : bytes := mjoin (row_bytes <$> rows).

(** A row the sorter can take up again, or it may fail. *)
Definition good (maximum : Z) (row : externalSortRow) : Prop :=
  wf_row row /\ encodable row /\ (maximum < read_width (sr_values row) -> fails).

Lemma row_bytes_length row : encodable row -> (0 < length (row_bytes row))%nat.
Proof.
  unfold encodable, row_bytes, writeSortRow. destruct (cells_writes (sr_values row)) as [writes e]. intros _. cbn [fst].
  change (0 < length (le64 (sr_ordinal row) ++ mjoin (sort_uint (Z.of_nat (length (sr_values row))) ++ writes)))%nat. rewrite length_app, length_le64. lia.
Qed.

Lemma wp_io w Q E : (fails -> E (tick w)) -> Q tt (tick w) -> wp io w Q E.
Proof. intros He Hq. unfold wp, io. destruct (io_error (w_clock w)) eqn:Ei; [|done]. by eapply He, io_fails. Qed.

Lemma wp_check w Q E : (fails -> E (tick w)) -> Q tt (tick w) -> wp check w Q E.
Proof. intros He Hq. unfold wp, check. destruct (query_check (w_clock w)) eqn:Ei; [|done]. by eapply He, check_fails. Qed.

Lemma wp_read_row maximum rows w Q E :
  maximum < 2 ^ 63 -> Forall (good maximum) rows -> (fails -> E (tick w)) ->
  Q (match rows with [] => None | row :: rows => Some (normal_row row, rows_bytes rows) end) (tick w) -> wp (read_row maximum (rows_bytes rows)) w Q E.
Proof.
  intros Hm Hg He Hq. apply wp_bind, wp_io; [done|].
  destruct rows as [|row rows]; [done|]. apply Forall_cons in Hg as [(Hw & Henc & Hwide) _].
  pose proof (read_row_bytes row maximum (rows_bytes rows) Hw Henc Hm) as Hr. unfold within in Hr.
  change (rows_bytes (row :: rows)) with (row_bytes row ++ rows_bytes rows).
  destruct (Z.leb_spec (read_width (sr_values row)) maximum); [by rewrite Hr|]. destruct Hr as [what ->].
  rewrite decide_False by done. by apply He, Hwide.
Qed.

(** ** Merging *)

Section Merge.
Context (compare_sym : forall x y, Z.sgn (compare y x) = - Z.sgn (compare x y)).
Context (compare_trans : forall x y z, compare x y <= 0 -> compare y z <= 0 -> compare x z <= 0).
Context {Y : Type} (yield : Y -> externalSortRow -> sorting Y) (maximum : Z) (expected : list externalSortRow).
Context (I : list externalSortRow -> Y -> world -> Prop) (E : world -> Prop).
Context (I_tick : forall given y w, I given y w -> I given y (tick w)).
Context (I_fail : forall given y w, given `prefix_of` expected -> I given y w -> fails -> E w).
Context (I_yield : forall given row y w, given ++ [row] `prefix_of` expected -> I given y w -> wp (yield y row) w (I (given ++ [row])) E).
Notation less := (row_less compare).

(** What is still to come: the heads, and the rows behind them. *)
Record streams_ok (heads : list head_row) (streams : list (list externalSortRow)) : Prop := {
  st_good : Forall (Forall (good maximum)) streams;
  st_sorted : Forall (fun rows => row_sorted compare (normal_row <$> rows)) streams;
  st_head : forall h i rows, (h, i) ∈ heads -> streams !! i = Some rows -> Forall (fun x => less (normal_row x) h = false) rows;
  st_covered : forall i rows, streams !! i = Some rows -> rows <> [] -> exists h, (h, i) ∈ heads;
  st_bound : forall h i, (h, i) ∈ heads -> (i < length streams)%nat
}.

Definition to_come (heads : list head_row) (streams : list (list externalSortRow)) : list externalSortRow :=
  heads.*1 ++ (normal_row <$> mjoin streams).

Lemma to_come_least m rest heads streams x :
  m :: rest ≡ₚ heads -> Forall (fun h => less h.1 m.1 = false) rest -> streams_ok heads streams -> x ∈ to_come rest streams -> less x m.1 = false.
Proof.
  intros Hp Hf Hs [Hx|Hx]%elem_of_app.
  - apply list_elem_of_fmap in Hx as (h & -> & Hh). rewrite Forall_forall in Hf. by apply Hf.
  - apply list_elem_of_fmap in Hx as (y & -> & Hy). apply list_elem_of_join in Hy as (rows & Hy & Hr). apply list_elem_of_lookup in Hr as [i Hi].
    destruct (st_covered _ _ Hs i rows Hi) as [h Hh]; [by intros ->; apply not_elem_of_nil in Hy|].
    pose proof (st_head _ _ Hs h i rows Hh Hi) as Hl. rewrite Forall_forall in Hl. specialize (Hl y Hy).
    rewrite <- Hp in Hh. apply elem_of_cons in Hh as [<-|Hh]; [done|]. rewrite Forall_forall in Hf. specialize (Hf _ Hh).
    by apply (row_trans compare compare_sym compare_trans _ h).
Qed.

Lemma streams_ok_done m rest heads streams :
  m :: rest ≡ₚ heads -> streams_ok heads streams -> (forall rows, streams !! m.2 = Some rows -> rows = []) -> streams_ok rest streams.
Proof.
  intros Hp [Hg Hs Hh Hc Hb] Hn. split; [done..| | |intros h i Hin; apply (Hb h); rewrite <- Hp; by right].
  - intros h i rows Hin. apply Hh. rewrite <- Hp. by right.
  - intros i rows Hi Hne. destruct (Hc i rows Hi Hne) as [h Hin]. rewrite <- Hp in Hin. apply elem_of_cons in Hin as [<-|Hin]; [|by exists h].
    by destruct Hne; apply Hn.
Qed.

Lemma streams_ok_next m rest heads streams row rows :
  m :: rest ≡ₚ heads -> streams_ok heads streams -> streams !! m.2 = Some (row :: rows) -> streams_ok ((normal_row row, m.2) :: rest) (<[m.2 := rows]> streams).
Proof.
  intros Hp [Hg Hs Hh Hc Hb] Hm. pose proof (lookup_lt_Some _ _ _ Hm) as Hlt.
  pose proof (proj1 (Forall_lookup _ _) Hs _ _ Hm) as Hrs. apply StronglySorted_inv in Hrs as [Hrs1 Hrs2]. split.
  5: { intros h i Hin. rewrite length_insert. apply elem_of_cons in Hin as [[= -> ->]|Hin]; [done|]. apply (Hb h). rewrite <- Hp. by right. }
  - apply Forall_insert; [done|]. pose proof (proj1 (Forall_lookup _ _) Hg _ _ Hm) as Hg'. by apply Forall_cons in Hg' as [_ Hg'].
  - by apply Forall_insert.
  - intros h i rows' Hin Hi. destruct (decide (i = m.2)) as [->|Hne].
    + rewrite list_lookup_insert_eq in Hi by done. injection Hi as <-. apply elem_of_cons in Hin as [[= ->]|Hin].
      * change (Forall (not_after less (normal_row row)) (normal_row <$> rows)) in Hrs2. rewrite Forall_fmap in Hrs2. exact Hrs2.
      * assert (Forall (fun x => less (normal_row x) h = false) (row :: rows)) as Hall by (eapply Hh; [|exact Hm]; rewrite <- Hp; by right).
        by apply Forall_cons in Hall as [_ ?].
    + rewrite list_lookup_insert_ne in Hi by done. apply elem_of_cons in Hin as [[= -> ->]|Hin]; [done|]. eapply Hh; [|exact Hi]. rewrite <- Hp. by right.
  - intros i rows' Hi Hne. destruct (decide (i = m.2)) as [->|Hni]; [exists (normal_row row); by left|].
    rewrite list_lookup_insert_ne in Hi by done. destruct (Hc i rows' Hi Hne) as [h Hin]. rewrite <- Hp in Hin.
    apply elem_of_cons in Hin as [Heq|Hin]; [|exists h; by right]. rewrite <- Heq in Hni. done.
Qed.

Lemma join_insert {A} (l : list (list A)) i x rows : l !! i = Some (x :: rows) -> x :: mjoin (<[i := rows]> l) ≡ₚ mjoin l.
Proof.
  intros Hi. rewrite insert_take_drop by (by apply lookup_lt_Some in Hi). rewrite <- (take_drop_middle l i _ Hi) at 3.
  rewrite !join_app. cbn. rewrite Permutation_middle. done.
Qed.

Lemma to_come_next (m : head_row) rest streams row rows :
  streams !! m.2 = Some (row :: rows) -> to_come ((normal_row row, m.2) :: rest) (<[m.2 := rows]> streams) ≡ₚ to_come rest streams.
Proof. intros Hm. unfold to_come. rewrite <- (join_insert streams _ _ _ Hm). cbn. by rewrite Permutation_middle. Qed.

Lemma to_come_none streams : streams_ok [] streams -> to_come [] streams = [].
Proof.
  intros Hs. unfold to_come. destruct (mjoin streams) as [|x l] eqn:Em; [done|]. assert (x ∈ mjoin streams) as Hx by (rewrite Em; by left).
  apply list_elem_of_join in Hx as (rows & Hx & Hr). apply list_elem_of_lookup in Hr as [i Hr].
  destruct (st_covered _ _ Hs i rows Hr) as [h Hh]; [by intros ->; apply not_elem_of_nil in Hx|]. by apply not_elem_of_nil in Hh.
Qed.

Lemma sort_to_come m rest heads streams :
  m :: rest ≡ₚ heads -> Forall (fun h => less h.1 m.1 = false) rest -> streams_ok heads streams -> NoDup (sr_ordinal <$> to_come heads streams) ->
  sort_stable less (to_come heads streams) = m.1 :: sort_stable less (to_come rest streams) /\ NoDup (sr_ordinal <$> m.1 :: to_come rest streams).
Proof.
  intros Hp Hf Hs Hn. assert (to_come heads streams ≡ₚ m.1 :: to_come rest streams) as Hc by (unfold to_come; by rewrite <- Hp).
  assert (NoDup (sr_ordinal <$> m.1 :: to_come rest streams)) as Hn' by (by rewrite <- Hc). split; [|done].
  rewrite <- (sort_least compare compare_sym compare_trans) by (done || intros x; by apply (to_come_least m rest heads streams)).
  apply (row_sorted_unique compare compare_sym); [by apply sort_rows_sorted..|by rewrite sort_stable_perm|by rewrite !sort_stable_perm].
Qed.

(** The bytes left go down with every row read. *)
Lemma join_shorter (l : list bytes) i a b :
  l !! i = Some (a ++ b) -> (0 < length a)%nat -> (length (mjoin (<[i := b]> l)) < length (mjoin l))%nat.
Proof.
  intros Hl Ha. rewrite insert_take_drop by (by apply lookup_lt_Some in Hl). rewrite <- (take_drop_middle l i _ Hl) at 3.
  rewrite !join_app. assert (forall (x : bytes) k, mjoin (x :: k) = x ++ mjoin k) as Hc by done. rewrite !Hc, !length_app. lia.
Qed.

Lemma bytes_next streams i row rows :
  streams !! i = Some (row :: rows) -> encodable row -> (length (mjoin (rows_bytes <$> <[i := rows]> streams)) < length (mjoin (rows_bytes <$> streams)))%nat.
Proof.
  intros Hi He. rewrite list_fmap_insert. apply (join_shorter _ _ (row_bytes row)); [|by apply row_bytes_length].
  by rewrite list_lookup_fmap, Hi.
Qed.

Lemma merge_heads_spec fuel heads streams given y w :
  maximum < 2 ^ 63 -> streams_ok heads streams -> (length heads + length (mjoin (rows_bytes <$> streams)) <= fuel)%nat ->
  given ++ sort_stable less (to_come heads streams) = expected -> NoDup (sr_ordinal <$> to_come heads streams) -> I given y w ->
  wp (merge_heads compare fuel maximum yield (rows_bytes <$> streams) heads y) w (I expected) E.
Proof.
  intros Hmax. revert heads streams given y w. induction fuel as [|fuel IH]; intros heads streams given y w Hs Hfuel Hexp Hn Hi; cbn [merge_heads];
    pose proof (pop_head_spec compare compare_sym compare_trans heads) as Hp; destruct (pop_head compare heads) as [[m rest]|];
    try (subst heads; rewrite to_come_none, app_nil_r in Hexp by done; by subst).
  { destruct Hp as [Hp%Permutation_length _]. cbn in Hp. lia. }
  destruct Hp as [Hp Hf]. destruct (sort_to_come m rest heads streams Hp Hf Hs Hn) as [Es Hn']. rewrite Es in Hexp.
  assert (given `prefix_of` expected) as Hpre by (rewrite <- Hexp; by apply prefix_app_r).
  assert (given ++ [m.1] `prefix_of` expected) as Hpre' by (rewrite <- Hexp; by apply prefix_app, (prefix_cons m.1), prefix_nil).
  apply wp_bind, wp_check; [by apply (I_fail given y); [|apply I_tick]|]. apply wp_bind.
  eapply wp_mono; [apply (I_yield given); [done|by apply I_tick]| |done]. intros y' w' Hi'.
  assert (nth m.2 (rows_bytes <$> streams) [] = rows_bytes (default [] (streams !! m.2))) as ->.
  { rewrite nth_lookup, list_lookup_fmap. by destruct (streams !! m.2). }
  apply wp_bind. apply wp_read_row; [done| |by apply (I_fail (given ++ [m.1]) y'); [|apply I_tick]|].
  { destruct (streams !! m.2) as [rows|] eqn:Em; [|constructor]. by apply (proj1 (Forall_lookup _ _) (st_good _ _ Hs) _ _ Em). }
  pose proof (Permutation_length Hp) as Hl. cbn in Hl. apply NoDup_cons in Hn' as [_ Hn'].
  destruct (streams !! m.2) as [[|row rows]|] eqn:Em; cbn [default].
  - apply IH with (given := given ++ [m.1]); [|lia|by rewrite <- app_assoc|done|by apply I_tick].
    apply (streams_ok_done m rest heads); [done..|]. intros rows Hr. congruence.
  - pose proof (proj1 (Forall_lookup _ _) (st_good _ _ Hs) _ _ Em) as Hg. apply Forall_cons in Hg as [(_ & He & _) _].
    change (wp (merge_heads compare fuel maximum yield (<[m.2 := rows_bytes rows]> (rows_bytes <$> streams)) ((normal_row row, m.2) :: rest) y') (tick w') (I expected) E).
    rewrite <- list_fmap_insert. pose proof (to_come_next m rest streams row rows Em) as Hc.
    apply IH with (given := given ++ [m.1]).
    + by apply (streams_ok_next m rest heads).
    + pose proof (bytes_next streams m.2 row rows Em He). cbn [length]. lia.
    + rewrite <- app_assoc, <- Hexp. cbn [app]. f_equal. f_equal.
      apply (row_sorted_unique compare compare_sym); [by apply sort_rows_sorted..|by rewrite sort_stable_perm, Hc|by rewrite !sort_stable_perm].
    + by rewrite Hc.
    + by apply I_tick.
  - apply IH with (given := given ++ [m.1]); [|lia|by rewrite <- app_assoc|done|by apply I_tick].
    apply (streams_ok_done m rest heads); [done..|]. intros rows Hr. congruence.
Qed.

Lemma streams_ok_append heads streams rows :
  streams_ok heads streams -> Forall (good maximum) rows -> row_sorted compare (normal_row <$> rows) ->
  match rows with
  | [] => streams_ok heads (streams ++ [[]])
  | row :: rows => streams_ok ((normal_row row, length streams) :: heads) (streams ++ [rows])
  end.
Proof.
  intros [Hg Hs Hh Hc Hb] Hrg Hrs.
  assert (forall i rows rows', (streams ++ [rows]) !! i = Some rows' -> streams !! i = Some rows' \/ i = length streams /\ rows' = rows) as Hlook.
  { intros i r r' Hi. apply lookup_app_Some in Hi as [Hi|[Hi1 Hi2]]; [by left|right]. apply list_lookup_singleton_Some in Hi2 as [? ->]. split; [lia|done]. }
  destruct rows as [|row rows].
  - split.
    + by apply Forall_app_2; [|constructor].
    + apply Forall_app_2; [done|]. by constructor.
    + intros h i r Hin [Hi|[-> ->]]%Hlook; [by apply (Hh h i)|constructor].
    + intros i r [Hi|[-> ->]]%Hlook Hne; [by apply (Hc i r)|done].
    + intros h i Hin. rewrite length_app. specialize (Hb h i Hin). lia.
  - apply Forall_cons in Hrg as [_ Hrg]. apply StronglySorted_inv in Hrs as [Hrs1 Hrs2].
    change (Forall (not_after less (normal_row row)) (normal_row <$> rows)) in Hrs2. rewrite Forall_fmap in Hrs2. split.
    + apply Forall_app_2; [done|]. by constructor.
    + apply Forall_app_2; [done|]. by constructor.
    + intros h i r Hin [Hi|[-> ->]]%Hlook; apply elem_of_cons in Hin as [Heq|Hin].
      * apply (f_equal snd) in Heq. cbn in Heq. apply lookup_lt_Some in Hi. lia.
      * by apply (Hh h i).
      * apply (f_equal fst) in Heq. cbn in Heq. subst h. exact Hrs2.
      * specialize (Hb h _ Hin). lia.
    + intros i r [Hi|[-> ->]]%Hlook Hne; [|exists (normal_row row); by left]. destruct (Hc i r Hi Hne) as [h Hin]. exists h. by right.
    + intros h i [[= -> ->]|Hin]%elem_of_cons; rewrite length_app; cbn; [lia|]. specialize (Hb h i Hin). lia.
Qed.

Lemma open_runs_spec runs lists streams heads w (J : world -> Prop) Q :
  maximum < 2 ^ 63 -> (forall w, J w -> J (tick w)) -> (forall w, J w -> fails -> E w) ->
  Forall2 (fun run rows => w_disk w !! run_path run = Some (rows_bytes rows)) runs lists ->
  Forall (Forall (good maximum)) lists -> Forall (fun rows => row_sorted compare (normal_row <$> rows)) lists ->
  streams_ok heads streams -> J w ->
  (forall heads' streams' w', streams_ok heads' streams' -> to_come heads' streams' ≡ₚ to_come heads streams ++ (normal_row <$> mjoin lists) -> J w' ->
     Q (rows_bytes <$> streams', heads') w') ->
  wp (open_runs maximum runs (rows_bytes <$> streams) heads) w Q E.
Proof.
  intros Hm Jt Jf Hr. revert streams heads w Hr. revert lists. induction runs as [|run runs IH]; intros lists streams heads w Hr Hg Hs Hok Hj HQ.
  { apply Forall2_nil_inv_l in Hr as ->. apply HQ; [done| |done]. cbn. by rewrite app_nil_r. }
  apply Forall2_cons_inv_l in Hr as (rows & lists' & Hd & Hr & ->). apply Forall_cons in Hg as [Hg1 Hg], Hs as [Hs1 Hs].
  apply wp_bind, wp_bind, wp_io; [by apply Jf, Jt|]. unfold wp at 1. cbn [w_disk tick]. cbn. rewrite Hd.
  apply wp_bind. apply wp_read_row; [done|done|by apply Jf, Jt, Jt|].
  pose proof (streams_ok_append heads streams rows Hok Hg1 Hs1) as Hok'.
  destruct rows as [|row rows].
  - assert ((rows_bytes <$> streams) ++ [rows_bytes []] = rows_bytes <$> (streams ++ [[]])) as -> by by rewrite fmap_app.
    apply (IH lists'); [done..|by apply Jt, Jt|]. intros heads' streams' w' Hok2 Hc2 Hj2. apply HQ; [done| |done].
    rewrite Hc2. unfold to_come. rewrite join_app. cbn. by rewrite app_nil_r.
  - assert ((rows_bytes <$> streams) ++ [rows_bytes rows] = rows_bytes <$> (streams ++ [rows])) as -> by by rewrite fmap_app.
    rewrite length_fmap. apply (IH lists'); [done..|by apply Jt, Jt|]. intros heads' streams' w' Hok2 Hc2 Hj2. apply HQ; [done| |done].
    rewrite Hc2. unfold to_come. rewrite join_app. cbn. rewrite app_nil_r, !fmap_app. cbn.
    rewrite <- !Permutation_middle, <- !app_assoc. constructor. done.
Qed.

Lemma merge_spec runs lists y w :
  head_limit w = maximum -> maximum < 2 ^ 63 ->
  Forall2 (fun run rows => w_disk w !! run_path run = Some (rows_bytes rows)) runs lists ->
  Forall (Forall (good maximum)) lists -> Forall (fun rows => row_sorted compare (normal_row <$> rows)) lists ->
  sort_stable less (normal_row <$> mjoin lists) = expected -> NoDup (sr_ordinal <$> mjoin lists) -> I [] y w ->
  wp (merge compare runs yield y) w (I expected) E.
Proof.
  intros Hl Hm Hr Hg Hs Hexp Hn Hi. unfold wp, merge. rewrite Hl. change (wp (sbind (open_runs maximum runs [] []) (fun opened =>
    merge_heads compare (length opened.2 + length (mjoin opened.1)) maximum yield opened.1 opened.2 y)) w (I expected) E). apply wp_bind.
  apply (open_runs_spec runs lists [] [] w (I [] y)); [done|by intros; apply I_tick| |done..| |done|].
  - intros w' Hi' Hf. apply (I_fail [] y); [by apply prefix_nil|done..].
  - split; [constructor..| | |]; [by intros h i r ?%not_elem_of_nil|by intros i r Hi'|by intros h i ?%not_elem_of_nil].
  - intros heads' streams' w' Hok Hc Hi'. change (to_come heads' streams' ≡ₚ normal_row <$> mjoin lists) in Hc. cbn [fst snd].
    assert (sr_ordinal <$> (normal_row <$> mjoin lists) = sr_ordinal <$> mjoin lists) as Eo by (by rewrite <- list_fmap_compose).
    apply (merge_heads_spec _ heads' streams' [] y w'); [done..| | |done].
    + rewrite <- Hexp. cbn [app]. apply (row_sorted_unique compare compare_sym); [by apply sort_rows_sorted..|by rewrite sort_stable_perm, Hc, Eo|by rewrite !sort_stable_perm].
    + by rewrite Hc, Eo.
Qed.
End Merge.
End Steps.
