(* ===== verification/SorterFacts.v ===== *)
(** * The properties of the external sorter *)

From stdpp Require Import gmap list sorting strings fin_maps.
From Stdlib Require Import Strings.Byte.
From S2P Require Import Prelude TopK SortRow ExternalSort SorterBooks SorterOrder.
#[local] Open Scope sorting_scope.

(** ** What a step leaves as it is *)

Definition core (s : externalRowSorter) : externalRowSorter := s <| es_tempBytes := 0 |> <| es_files := ∅ |>.

Record framed (X : gset Z) (w w' : world) : Prop := {
  fr_pool : w_pool w' = w_pool w;
  fr_out : w_out w' = w_out w;
  fr_core : core (w_sorter w') = core (w_sorter w);
  fr_disk : forall p, p ∉ X -> w_disk w' !! p = w_disk w !! p
}.

Lemma framed_refl X w : framed X w w.
Proof. by split. Qed.

Lemma framed_trans X w1 w2 w3 : framed X w1 w2 -> framed X w2 w3 -> framed X w1 w3.
Proof. intros [] []. split; [congruence..|]. intros p Hp. rewrite fr_disk1, fr_disk0; done. Qed.

Lemma framed_mono X Y w w' : framed X w w' -> X ⊆ Y -> framed Y w w'.
Proof. intros [] Hs. split; [done..|]. intros p Hp. apply fr_disk0. set_solver. Qed.

Lemma framed_tick X w : framed X w (tick w).
Proof. by split. Qed.

(** The fields that matter outside. *)
Lemma core_fields s s' : core s' = core s ->
  es_runs s' = es_runs s /\ es_batch s' = es_batch s /\ es_next s' = es_next s /\ es_closed s' = es_closed s /\
  es_memory s' = es_memory s /\ es_budgeted s' = es_budgeted s.
Proof. destruct s, s'. by intros [=]. Qed.

Lemma framed_head_limit X w w' : framed X w w' -> head_limit w' = head_limit w.
Proof.
  intros [Ep _ Ec _]. apply core_fields in Ec as (_ & _ & _ & _ & Em & Eb). unfold head_limit, rowLimit. by rewrite Em, Eb, Ep.
Qed.

#[export] Hint Resolve framed_refl framed_tick : books.

(** What an operation of a sorter leaves as it is. *)
Record settled (w w' : world) : Prop := {
  se_out : w_out w' = w_out w;
  se_total : total (w_pool w') = total (w_pool w);
  se_memory : es_memory (w_sorter w') = es_memory (w_sorter w);
  se_budgeted : es_budgeted (w_sorter w') = es_budgeted (w_sorter w);
  se_closed : es_closed (w_sorter w') = es_closed (w_sorter w)
}.

Lemma settled_refl w : settled w w.
Proof. by split. Qed.

Lemma settled_trans w1 w2 w3 : settled w1 w2 -> settled w2 w3 -> settled w1 w3.
Proof. intros [] []. split; congruence. Qed.

Lemma framed_settled X w w' : framed X w w' -> settled w w'.
Proof. intros [Ep Eo Ec _]. apply core_fields in Ec as (_ & _ & _ & ? & ? & ?). split; congruence. Qed.

Lemma settled_head_limit w w' : settled w w' -> head_limit w' = head_limit w.
Proof. intros []. unfold head_limit, rowLimit, pool_rowLimit. by rewrite se_memory0, se_budgeted0, se_total0. Qed.

#[export] Hint Resolve settled_refl : books.

Section Writing.
Context `{SortEnv} `{SortOptions} `{MapRange} (compare : list cell -> list cell -> Z) (fails : Prop).
Context (check_fails : forall n e, query_check n = Some e -> fails) (io_fails : forall n, io_error n = true -> fails).
Context (short_fails : forall n k, io_short n = Some k -> fails) (temp_fails : 0 < MaxTempBytes -> fails).
Context (out : list (list cell)) (E : world -> Prop) (E_fails : fails -> forall w, w_out w = out -> E w) (E_tick : forall w, E w -> E (tick w)).

(** ** Writing *)

Lemma write_chunk_all path p w :
  framed {[path]} w (write_chunk path p (length p) w) /\ w_disk (write_chunk path p (length p) w) !! path = Some (default [] (w_disk w !! path) ++ p).
Proof.
  split.
  - split; [done..|]. intros q Hq. cbn. rewrite lookup_insert_ne by set_solver. done.
  - cbn. rewrite lookup_insert_eq. cbn. by rewrite take_ge by lia.
Qed.

Lemma wp_run_write path p c w Q :
  w_out w = out -> w_disk w !! path = Some c ->
  (forall w', framed {[path]} w w' -> w_disk w' !! path = Some (c ++ p) -> Q tt w') -> wp (run_write path p) w Q E.
Proof.
  intros Ho Hd HQ. apply wp_bind, (wp_check fails check_fails); [by intros; apply E_fails|]. apply wp_bind. unfold wp at 1, reserveTemporary.
  destruct ((0 <? MaxTempBytes) && (MaxTempBytes - w_temp (tick w) <? blen p)) eqn:Et.
  { apply andb_true_iff in Et as [L%Z.ltb_lt _]. apply E_fails; [by apply temp_fails|done]. }
  unfold wp. set (w1 := (tick w) <| w_temp ::= Z.add (blen p) |>).
  assert (framed {[path]} w (tick w1)) as Hw1 by done. assert (w_disk (tick w1) !! path = Some c) as Hd1 by done.
  destruct (write_chunk_all path p (tick w1)) as [Hf Hc]. rewrite Hd1 in Hc. clearbody w1.
  assert (Q tt (write_chunk path p (length p) (tick w1))) as HQ' by (apply HQ; [by eapply framed_trans|done]).
  destruct (io_short (w_clock w1)) as [k|] eqn:Ek; [|by rewrite Nat.ltb_irrefl].
  destruct (Nat.ltb_spec (Nat.min k (length p)) (length p)) as [L|L]; [|by replace (Nat.min k (length p)) with (length p) by lia].
  apply E_fails; [by eapply short_fails|]. change (w_out (tick w1) = out). by rewrite (fr_out _ _ _ Hw1).
Qed.

(** What the file and the buffer hold together. *)
Definition file_is (path : Z) (content buf : bytes) (w : world) : Prop :=
  exists c, w_disk w !! path = Some c /\ c ++ buf = content /\ (length buf <= buffer_size)%nat.

Lemma wp_buffer_write path p buf content w Q :
  w_out w = out -> file_is path content buf w ->
  (forall buf' w', framed {[path]} w w' -> file_is path (content ++ p) buf' w' -> Q buf' w') -> wp (buffer_write path p buf) w Q E.
Proof.
  unfold buffer_write. assert (length p + (if decide (length buf = buffer_size) then 1 else 0) < S (S (length p)))%nat as Hf by (case_decide; lia).
  revert Hf. generalize (S (S (length p))) as fuel. intros fuel. revert p buf content w.
  induction fuel as [|fuel IH]; intros p buf content w Hf Ho (c & Hd & Hc & Hl) HQ; [lia|]. cbn [buffer_loop].
  destruct (Nat.ltb_spec (buffer_size - length buf) (length p)) as [L|L].
  - apply wp_bind. apply (wp_run_write path _ c); [done..|]. intros w' Hw' Hd'.
    assert (w_out w' = out) as Ho' by (by rewrite (fr_out _ _ _ Hw')).
    apply (IH _ _ (content ++ take (buffer_size - length buf) p)); [|done| |].
    + rewrite length_drop. rewrite decide_False by (cbn; unfold buffer_size; lia). case_decide; lia.
    + eexists. split; [exact Hd'|]. split; [by rewrite <- Hc, app_nil_r, app_assoc|cbn; lia].
    + intros buf' w'' Hw'' Hfile. apply HQ; [by eapply framed_trans|]. by rewrite <- app_assoc, take_drop in Hfile.
  - apply HQ; [apply framed_refl|]. exists c. split; [done|]. rewrite length_app. split; [by rewrite app_assoc, Hc|lia].
Qed.

Lemma wp_buffer_writes path ps buf content w Q :
  w_out w = out -> file_is path content buf w ->
  (forall buf' w', framed {[path]} w w' -> file_is path (content ++ mjoin ps) buf' w' -> Q buf' w') -> wp (buffer_writes path ps buf) w Q E.
Proof.
  revert buf content w Q. induction ps as [|p ps IH]; intros buf content w Q Ho Hfile HQ.
  { apply HQ; [apply framed_refl|]. by rewrite app_nil_r. }
  apply wp_bind. apply (wp_buffer_write path p buf content); [done..|]. intros buf' w' Hw' Hfile'.
  apply (IH _ _ _ _ ltac:(by rewrite (fr_out _ _ _ Hw')) Hfile'). intros buf'' w'' Hw'' Hfile''.
  apply HQ; [by eapply framed_trans|]. by rewrite <- app_assoc in Hfile''.
Qed.

Lemma wp_write_row path row buf content w Q :
  w_out w = out -> file_is path content buf w -> (encodable row \/ fails) ->
  (forall buf' w', encodable row -> framed {[path]} w w' -> file_is path (content ++ row_bytes row) buf' w' -> Q buf' w') -> wp (write_row path row buf) w Q E.
Proof.
  intros Ho Hfile Hen HQ. unfold write_row, encodable, row_bytes in *. destruct (writeSortRow row) as [writes e]. apply wp_bind.
  apply (wp_buffer_writes path writes buf content); [done..|]. intros buf' w' Hw' Hfile'. destruct e as [e|]; [|by apply HQ].
  apply E_fails; [by destruct Hen|by rewrite (fr_out _ _ _ Hw')].
Qed.

Lemma wp_write_rows path rows buf content w Q :
  w_out w = out -> file_is path content buf w -> Forall (fun row => encodable row \/ fails) rows ->
  (forall buf' w', Forall encodable rows -> framed {[path]} w w' -> file_is path (content ++ rows_bytes rows) buf' w' -> Q buf' w') ->
  wp (write_rows path rows buf) w Q E.
Proof.
  revert buf content w Q. induction rows as [|row rows IH]; intros buf content w Q Ho Hfile Hen HQ.
  { apply HQ; [constructor|apply framed_refl|]. by rewrite app_nil_r. }
  apply Forall_cons in Hen as [Hen1 Hen]. apply wp_bind. apply (wp_write_row path row buf content); [done..|]. intros buf' w' He Hw' Hfile'.
  apply (IH _ _ _ _ ltac:(by rewrite (fr_out _ _ _ Hw')) Hfile' Hen). intros buf'' w'' Hes Hw'' Hfile''.
  apply HQ; [by constructor|by eapply framed_trans|]. by rewrite <- app_assoc in Hfile''.
Qed.

Lemma wp_write_run fill content (also : Prop) w Q :
  w_out w = out ->
  (forall path w1, w_disk w !! path = None -> framed {[path]} w w1 -> w_disk w1 !! path = Some [] ->
     wp (fill path) w1 (fun buf w2 => framed {[path]} w1 w2 /\ file_is path content buf w2 /\ also) E) ->
  (forall run w', also -> w_disk w !! run_path run = None -> framed {[run_path run]} w w' -> w_disk w' !! run_path run = Some content -> Q run w') ->
  wp (write_run fill) w Q E.
Proof.
  intros Ho Hfill HQ. unfold write_run. apply wp_bind. unfold createRun. apply wp_bind, (wp_io fails io_fails); [by intros; apply E_fails|].
  unfold wp at 1. set (path := temp_name (w_clock (tick w)) (dom (w_disk (tick w)))).
  assert (w_disk w !! path = None) as Hp by (apply not_elem_of_dom, (temp_name_fresh _ (dom (w_disk (tick w))))).
  match goal with |- wp _ ?x _ _ => set (w1 := x) end.
  assert (framed {[path]} w w1) as Hw1 by (split; [done..|]; intros q Hq; cbn; rewrite lookup_insert_ne by set_solver; done).
  assert (w_disk w1 !! path = Some []) as Hd1 by (cbn; apply lookup_insert_eq).
  specialize (Hfill path w1 Hp Hw1 Hd1). apply wp_bind. unfold wp at 1, close_file.
  assert (wp (do buf <- fill path in buffer_flush path buf) w1 (fun _ w2 => framed {[path]} w1 w2 /\ w_disk w2 !! path = Some content /\ also) E) as Hbody.
  { apply wp_bind. eapply wp_mono; [exact Hfill| |done]. intros buf w2 (Hw2 & (c & Hc & Hcb & _) & Hal). unfold buffer_flush. case_bool_decide as Eb.
    - subst buf. rewrite app_nil_r in Hcb. subst c. by split_and!.
    - apply (wp_run_write path buf c); [by rewrite (fr_out _ _ _ Hw2), (fr_out _ _ _ Hw1)|done|]. intros w3 Hw3 Hd3.
      split; [by eapply framed_trans|]. split; [by rewrite Hd3, Hcb|done]. }
  unfold wp in Hbody. destruct ((do buf <- fill path in buffer_flush path buf) w1) as [w2 [u|e]].
  - destruct Hbody as (Hw2 & Hd2 & Hal). unfold io. destruct (io_error (w_clock w2)) eqn:Ei.
    + apply E_tick, E_fails; [by eapply io_fails|by rewrite (fr_out _ _ _ Hw2), (fr_out _ _ _ Hw1)].
    + apply HQ; [done|done| |done]. apply (framed_trans _ _ w1); [done|]. apply (framed_trans _ _ w2); [done|apply framed_tick].
  - unfold io. by apply E_tick.
Qed.

(** ** Compacting *)

Context (compare_sym : forall x y, Z.sgn (compare y x) = - Z.sgn (compare x y)).
Context (compare_trans : forall x y z, compare x y <= 0 -> compare y z <= 0 -> compare x z <= 0).
Context (compare_normal : forall x y, compare (normal <$> x) y = compare x y /\ compare x (normal <$> y) = compare x y).
Context (maximum : Z) (maximum_bound : maximum < 2 ^ 63).
Notation less := (row_less compare).

(** The rows of the runs, as they are on disk. *)
Record stored (w : world) (runs : list externalSortRun) (lists : list (list externalSortRow)) : Prop := {
  sd_disk : Forall2 (fun run rows => w_disk w !! run_path run = Some (rows_bytes rows)) runs lists;
  sd_paths : NoDup (run_path <$> runs);
  sd_sorted : Forall (row_sorted compare) lists;
  sd_normal : Forall (fun row => normal_row row = row /\ encodable row) (mjoin lists)
}.

(** Rows that can be read back, or the run may fail. *)
Definition readable (row : externalSortRow) : Prop := wf_row row /\ (maximum < read_width (sr_values row) -> fails).

Definition kept (w w' : world) : Prop := w_pool w' = w_pool w /\ w_out w' = w_out w /\ core (w_sorter w') = core (w_sorter w).

Lemma framed_kept X w w' : framed X w w' -> kept w w'.
Proof. by intros []. Qed.

Lemma kept_trans w1 w2 w3 : kept w1 w2 -> kept w2 w3 -> kept w1 w3.
Proof. intros (? & ? & ?) (? & ? & ?). split_and!; congruence. Qed.

Lemma kept_head_limit w w' : kept w w' -> head_limit w' = head_limit w.
Proof. intros (Ep & _ & Ec). apply core_fields in Ec as (_ & _ & _ & _ & Em & Eb). unfold head_limit, rowLimit. by rewrite Em, Eb, Ep. Qed.

Lemma normal_rows rows : Forall (fun row => normal_row row = row /\ encodable row) rows -> normal_row <$> rows = rows.
Proof. induction 1 as [|row rows [Hr _] _ IH]; [done|]. cbn. by rewrite Hr, IH. Qed.

Lemma rows_bytes_app rows rows' : rows_bytes (rows ++ rows') = rows_bytes rows ++ rows_bytes rows'.
Proof. unfold rows_bytes. by rewrite fmap_app, join_app. Qed.

Lemma rows_bytes_normal rows : rows_bytes (normal_row <$> rows) = rows_bytes rows.
Proof.
  induction rows as [|row rows IH]; [done|]. change (row_bytes (normal_row row) ++ rows_bytes (normal_row <$> rows) = row_bytes row ++ rows_bytes rows).
  rewrite IH. unfold row_bytes. by rewrite normal_row_writes.
Qed.

Lemma Forall_join {A} (P : A -> Prop) lists : Forall P (mjoin lists) <-> Forall (Forall P) lists.
Proof.
  induction lists as [|l lists IH]; [done|]. change (mjoin (l :: lists)) with (l ++ mjoin lists). by rewrite Forall_app, Forall_cons, IH.
Qed.

(** Merging a group into a file. *)
Lemma wp_fill group lists path w :
  w_out w = out -> head_limit w = maximum -> stored w group lists -> w_disk w !! path = Some [] -> path ∉ run_path <$> group ->
  Forall readable (mjoin lists) -> NoDup (sr_ordinal <$> mjoin lists) ->
  wp (merge compare group (fun buf row => write_row path row buf) []) w
    (fun buf w' => framed {[path]} w w' /\ file_is path (rows_bytes (sort_stable less (mjoin lists))) buf w') E.
Proof.
  intros Ho Hl [Hd Hp Hs Hn] Hpath Hfresh Hr Hnd.
  assert (Forall (good fails maximum) (mjoin lists)) as Hg.
  { rewrite Forall_forall in *. intros row Hrow. destruct (Hr row Hrow), (Hn row Hrow). by split_and!. }
  assert (forall row, row ∈ sort_stable less (mjoin lists) -> encodable row) as Hen.
  { intros row Hrow. rewrite sort_stable_perm in Hrow. rewrite Forall_forall in Hn. by apply Hn. }
  apply (merge_spec compare fails check_fails io_fails compare_sym compare_trans _ maximum (sort_stable less (mjoin lists))
    (fun given buf w' => framed {[path]} w w' /\ file_is path (rows_bytes given) buf w') E) with (lists := lists); [| | |done|done|done| | | |done|].
  - intros given buf w' [Hw' Hf]. split; [by eapply framed_trans; [|apply framed_tick]|done].
  - intros given buf w' _ [Hw' _] Hfl. apply E_fails; [done|by rewrite (fr_out _ _ _ Hw')].
  - intros given row buf w' [rest Hpre] [Hw' Hf]. apply (wp_write_row path row buf (rows_bytes given)); [by rewrite (fr_out _ _ _ Hw')|done| |].
    + left. apply Hen. rewrite Hpre, <- app_assoc. apply elem_app_r. by left.
    + intros buf' w'' _ Hw'' Hf''. split; [by eapply framed_trans|]. rewrite rows_bytes_app. cbn. by rewrite app_nil_r.
  - by apply Forall_join.
  - apply Forall_join in Hn. eapply Forall_impl; [apply Forall_and; exact (conj Hs Hn)|]. intros rows [Hrs Hrn]. by rewrite normal_rows.
  - by rewrite normal_rows.
  - split; [apply framed_refl|]. exists []. split_and!; [done..|cbn; lia].
Qed.

Lemma wp_remove_runs group w Q :
  w_out w = out -> (forall w', framed (list_to_set (run_path <$> group)) w w' -> Q tt w') -> wp (remove_runs group) w Q E.
Proof.
  revert w Q. induction group as [|run group IH]; intros w Q Ho HQ; [apply HQ, framed_refl|].
  apply wp_bind. unfold removeRun. apply wp_bind, (wp_io fails io_fails); [by intros; apply E_fails|]. unfold wp at 1.
  match goal with |- wp _ ?x _ _ => set (w1 := x) end. assert (framed {[run_path run]} w w1) as Hw1.
  { split; [done..|]. intros q Hq. cbn. by rewrite lookup_delete_ne by set_solver. }
  apply IH; [done|]. intros w' Hw'. apply HQ. eapply framed_trans; [eapply framed_mono; [exact Hw1|]|eapply framed_mono; [exact Hw'|]]; set_solver.
Qed.

Lemma stored_frame X w w' runs lists :
  framed X w w' -> (forall run, run ∈ runs -> run_path run ∉ X) -> stored w runs lists -> stored w' runs lists.
Proof.
  intros Hf Hx [Hd Hp Hs Hn]. split; [|done..]. clear Hp Hs Hn. induction Hd as [|run rows runs lists Hr Hd IH]; [constructor|].
  constructor; [rewrite (fr_disk _ _ _ Hf); [done|apply Hx; by left]|]. apply IH. intros r Hin. apply Hx. by right.
Qed.

Lemma stored_rotate w g lg rest lrest :
  length lg = length g -> stored w (g ++ rest) (lg ++ lrest) -> stored w (rest ++ g) (lrest ++ lg).
Proof.
  intros Hl [Hd Hp Hs Hn]. apply Forall2_app_inv in Hd as [Hd1 Hd2]; [|done]. split.
  - by apply Forall2_app.
  - rewrite fmap_app in *. by rewrite Permutation_app_comm.
  - rewrite Forall_app in *. tauto.
  - rewrite join_app, Forall_app in *. tauto.
Qed.

Lemma stored_left w g lg rest lrest : length lg = length g -> stored w (g ++ rest) (lg ++ lrest) -> stored w g lg.
Proof.
  intros Hl [Hd Hp Hs Hn]. apply Forall2_app_inv in Hd as [Hd1 Hd2]; [|done]. split; [done| | |].
  - rewrite fmap_app in Hp. by apply NoDup_app in Hp as [? _].
  - by apply Forall_app in Hs as [? _].
  - rewrite join_app in Hn. by apply Forall_app in Hn as [? _].
Qed.

Lemma stored_right w g lg rest lrest : length lg = length g -> stored w (g ++ rest) (lg ++ lrest) -> stored w rest lrest.
Proof.
  intros Hl Hs. pose proof (stored_rotate w g lg rest lrest Hl Hs) as Hr. apply (stored_left w rest lrest g lg); [|done].
  destruct Hs as [Hd _ _ _]. apply Forall2_length in Hd. rewrite !length_app in Hd. lia.
Qed.

Lemma stored_present w runs lists run : stored w runs lists -> run ∈ runs -> is_Some (w_disk w !! run_path run).
Proof.
  intros [Hd _ _ _] [i Hi]%list_elem_of_lookup. destruct (Forall2_lookup_l _ _ _ _ _ Hd Hi) as (rows & _ & E1). by rewrite E1.
Qed.

(** A new run beside the others. *)
Lemma stored_snoc w runs lists run rows :
  stored w runs lists -> w_disk w !! run_path run = Some (rows_bytes rows) -> run_path run ∉ run_path <$> runs ->
  row_sorted compare rows -> Forall (fun row => normal_row row = row /\ encodable row) rows -> stored w (runs ++ [run]) (lists ++ [rows]).
Proof.
  intros [Hd Hp Hs Hn] Hr Hf Hrs Hrn. split.
  - apply Forall2_app; [done|]. by constructor.
  - rewrite fmap_app. apply NoDup_app. split_and!; [done| |apply NoDup_singleton]. intros p Hp1 ->%list_elem_of_singleton. done.
  - apply Forall_app_2; [done|]. by constructor.
  - rewrite join_app. apply Forall_app_2; [done|]. cbn. by rewrite app_nil_r.
Qed.

Lemma sort_rows_normal rows :
  Forall (fun row => normal_row row = row /\ encodable row) rows -> Forall (fun row => normal_row row = row /\ encodable row) (sort_stable less rows).
Proof. by rewrite sort_stable_perm. Qed.

(** One group of several runs becomes one run. *)
Lemma wp_compact_group {A} group lg rest lrest w (Q : externalSortRun -> sorting A) R :
  length lg = length group -> w_out w = out -> head_limit w = maximum -> stored w (group ++ rest) (lg ++ lrest) ->
  Forall readable (mjoin (lg ++ lrest)) -> NoDup (sr_ordinal <$> mjoin (lg ++ lrest)) ->
  (forall run w', stored w' (rest ++ [run]) (lrest ++ [sort_stable less (mjoin lg)]) -> kept w w' -> wp (Q run) w' R E) ->
  wp (do run <- write_run (fun path => merge compare group (fun buf row => write_row path row buf) []) in remove_runs group ;; Q run) w R E.
Proof.
  intros Hl Ho Hlim Hst Hread Hnd HR. pose proof (stored_left _ _ _ _ _ Hl Hst) as Hg. pose proof (stored_right _ _ _ _ _ Hl Hst) as Hrest.
  rewrite join_app in Hread, Hnd. apply Forall_app in Hread as [Hread _]. rewrite fmap_app in Hnd. apply NoDup_app in Hnd as (Hnd & _ & _).
  assert (forall run p, run ∈ group ++ rest -> w_disk w !! p = None -> run_path run <> p) as Hne.
  { intros run p Hin Hp <-. destruct (stored_present w _ _ run Hst Hin) as [c Hc]. congruence. }
  apply wp_bind. apply (wp_write_run _ (rows_bytes (sort_stable less (mjoin lg))) True); [done| |].
  { intros path w1 Hp Hw1 Hd1. eapply wp_mono; [apply (wp_fill group lg)|intros buf w2 [Hw2 Hb2]; by split_and!|done]; [by rewrite (fr_out _ _ _ Hw1)|by rewrite (framed_head_limit _ _ _ Hw1)| |done| |done|done].
    - apply (stored_frame {[path]} w); [done| |done]. intros run Hin. apply not_elem_of_singleton, Hne; [by apply elem_app_l|done].
    - intros (run & -> & Hin)%list_elem_of_fmap. apply (Hne run (run_path run)); [by apply elem_app_l|done..]. }
  intros run w1 _ Hp Hw1 Hd1. apply wp_bind, wp_remove_runs; [by rewrite (fr_out _ _ _ Hw1)|]. intros w2 Hw2.
  apply HR; [|by eapply kept_trans; eapply framed_kept].
  assert (forall r, r ∈ rest -> run_path r ∉ run_path <$> group) as Hapart.
  { intros r Hin Hin'. pose proof (sd_paths _ _ _ Hst) as Hpaths. rewrite fmap_app in Hpaths. apply NoDup_app in Hpaths as (_ & Hd & _).
    apply (Hd (run_path r)); [done|]. by apply list_elem_of_fmap_2. }
  apply stored_snoc.
  - apply (stored_frame (list_to_set (run_path <$> group)) w1); [done| |].
    + intros r Hin. rewrite elem_of_list_to_set. by apply Hapart.
    + apply (stored_frame {[run_path run]} w); [done| |done]. intros r Hin. apply not_elem_of_singleton, Hne; [by apply elem_app_r|done].
  - rewrite (fr_disk _ _ _ Hw2); [done|]. rewrite elem_of_list_to_set. intros (r & Er & Hin)%list_elem_of_fmap.
    apply (Hne r (run_path run)); [by apply elem_app_l|done|done].
  - intros (r & Er & Hin)%list_elem_of_fmap. apply (Hne r (run_path run)); [by apply elem_app_r|done|done].
  - by apply sort_rows_sorted.
  - apply sort_rows_normal, (sd_normal _ _ _ Hg).
Qed.

Lemma stored_perm_facts ls ls' :
  mjoin ls' ≡ₚ mjoin ls -> Forall readable (mjoin ls) -> NoDup (sr_ordinal <$> mjoin ls) -> Forall readable (mjoin ls') /\ NoDup (sr_ordinal <$> mjoin ls').
Proof. intros Hp. by rewrite Hp. Qed.

Definition compacted (previous next next' : list externalSortRun) : Prop :=
  (8 * length next' <= 8 * length next + length previous + (if previous then 0 else 7))%nat.

Lemma wp_compact_groups fuel previous next lp ln w Q :
  (length previous <= fuel)%nat -> length lp = length previous -> w_out w = out -> head_limit w = maximum -> stored w (previous ++ next) (lp ++ ln) ->
  Forall readable (mjoin (lp ++ ln)) -> NoDup (sr_ordinal <$> mjoin (lp ++ ln)) ->
  (forall next' ls' w', stored w' next' ls' -> mjoin ls' ≡ₚ mjoin (lp ++ ln) -> kept w w' -> compacted previous next next' -> Q next' w') ->
  wp (compact_groups compare fuel previous next) w Q E.
Proof.
  revert previous next lp ln w Q. induction fuel as [|fuel IH]; intros previous next lp ln w Q Hf Hl Ho Hlim Hst Hr Hnd HQ.
  { destruct previous; [|cbn in Hf; lia]. destruct lp; [|done]. apply (HQ next ln w); [done..|unfold compacted; cbn; lia]. }
  destruct previous as [|first previous'] eqn:Ep.
  { destruct lp; [|done]. apply (HQ next ln w); [done..|unfold compacted; cbn; lia]. }
  rewrite <- Ep in *. assert (0 < length previous)%nat as Hpos by (rewrite Ep; cbn; lia).
  assert (previous <> []) as Hne by (rewrite Ep; done). clear Ep first previous'.
  set (group := take externalSortFanIn previous). set (rest := drop externalSortFanIn previous).
  set (lg := take externalSortFanIn lp). set (lrest := drop externalSortFanIn lp).
  assert (length lg = length group) as Hlg by (unfold lg, group; rewrite !length_take; lia).
  assert (length lrest = length rest) as Hlr by (unfold lrest, rest; rewrite !length_drop; lia).
  assert (length rest = length previous - 8)%nat as Hrest by (unfold rest; by rewrite length_drop).
  assert (length group = Nat.min 8 (length previous)) as Hgroup by (unfold group; by rewrite length_take).
  assert (previous ++ next = group ++ (rest ++ next)) as Eprev by (unfold group, rest; by rewrite app_assoc, take_drop).
  assert (lp ++ ln = lg ++ (lrest ++ ln)) as Elp by (unfold lg, lrest; by rewrite app_assoc, take_drop).
  rewrite Eprev, Elp in *.
  assert (forall run next', compacted rest (next ++ [run]) next' -> compacted previous next next') as Hcomp.
  { intros run next'. unfold compacted. rewrite length_app. cbn [length]. destruct previous; [done|]. destruct rest; cbn [length] in *; lia. }
  assert (forall run rows w', stored w' ((rest ++ next) ++ [run]) ((lrest ++ ln) ++ [rows]) -> rows ≡ₚ mjoin lg -> kept w w' ->
    wp (compact_groups compare fuel rest (next ++ [run])) w' Q E) as Hgo.
  { intros run rows w' Hst' Hp Hk. assert (mjoin (lrest ++ ln ++ [rows]) ≡ₚ mjoin (lg ++ lrest ++ ln)) as Hperm.
    { rewrite !join_app. cbn. rewrite app_nil_r, Hp. solve_Permutation. }
    destruct (stored_perm_facts _ _ Hperm Hr Hnd) as [Hr' Hnd']. rewrite <- !app_assoc in Hst'.
    apply (IH rest (next ++ [run]) lrest (ln ++ [rows])); [lia|done|destruct Hk as (_ & -> & _); done|by rewrite (kept_head_limit w)|done..|].
    intros next' ls' w'' Hst'' Hp'' Hk'' Hc. apply (HQ next' ls'); [done|by rewrite Hp''|by eapply kept_trans|by eapply Hcomp]. }
  assert (compact_groups compare (S fuel) previous next = match group with
    | [run] => compact_groups compare fuel rest (next ++ [run])
    | _ => do run <- write_run (fun path => merge compare group (fun buf row => write_row path row buf) []) in remove_runs group ;; compact_groups compare fuel rest (next ++ [run])
    end) as -> by (by destruct previous).
  assert (wp (do run <- write_run (fun path => merge compare group (fun buf row => write_row path row buf) []) in remove_runs group ;;
    compact_groups compare fuel rest (next ++ [run])) w Q E) as Hseveral.
  { apply (wp_compact_group group lg (rest ++ next) (lrest ++ ln)); [done..|]. intros run w' Hst' Hk. eapply Hgo; [done|by rewrite sort_stable_perm|done]. }
  destruct group as [|run [|run2 group']] eqn:Eg; [done| |done].
  destruct lg as [|rows [|]] eqn:El; [done| |done]. apply (Hgo run rows).
  - by apply (stored_rotate w [run] [rows]).
  - cbn. by rewrite app_nil_r.
  - by split_and!.
Qed.

(** ** The rows of a sorter *)

Definition sortable (row : externalSortRow) : Prop := readable row /\ (encodable row \/ fails).

Lemma readable_normal row : readable row -> readable (normal_row row).
Proof. intros [Hw Hr]. split; [by apply normal_row_wf|]. by rewrite normal_row_width. Qed.

Lemma normal_row_ordinals (rows : list externalSortRow) : sr_ordinal <$> (normal_row <$> rows) = sr_ordinal <$> rows.
Proof. by rewrite <- list_fmap_compose. Qed.

Definition batch (w : world) : list externalSortRow := es_batch (w_sorter w).

(** The runs and the batch together hold [all]. *)
Definition contents (w : world) (all : list externalSortRow) : Prop :=
  exists lists, stored w (es_runs (w_sorter w)) lists /\ mjoin lists ++ (normal_row <$> batch w) ≡ₚ normal_row <$> all /\ Forall sortable (batch w).

Lemma stored_disk w w' runs lists : w_disk w' = w_disk w -> stored w runs lists -> stored w' runs lists.
Proof. intros E1 []. split; [by rewrite E1|done..]. Qed.

Lemma contents_rows w all lists :
  Forall sortable all -> NoDup (sr_ordinal <$> all) -> mjoin lists ++ (normal_row <$> batch w) ≡ₚ normal_row <$> all ->
  Forall readable (mjoin lists) /\ NoDup (sr_ordinal <$> mjoin lists) /\ NoDup (sr_ordinal <$> batch w).
Proof.
  intros Hs Hn Hp. assert (Forall readable (normal_row <$> all)) as Hr.
  { apply Forall_fmap. eapply Forall_impl; [exact Hs|]. intros row [Hr _]. by apply readable_normal. }
  rewrite <- normal_row_ordinals, <- Hp, fmap_app, normal_row_ordinals in Hn. rewrite <- Hp in Hr.
  apply NoDup_app in Hn as (? & _ & ?). by apply Forall_app in Hr as [? _].
Qed.

Lemma wp_compact w all Q :
  w_out w = out -> head_limit w = maximum -> contents w all -> Forall sortable all -> NoDup (sr_ordinal <$> all) ->
  (forall w', contents w' all -> batch w' = batch w -> settled w w' -> es_next (w_sorter w') = es_next (w_sorter w) ->
     compacted (es_runs (w_sorter w)) [] (es_runs (w_sorter w')) -> Q tt w') -> wp (compact compare) w Q E.
Proof.
  intros Ho Hlim (lists & Hst & Hp & Hb) Hs Hnd HQ. destruct (contents_rows w all lists Hs Hnd Hp) as (Hr & Hn & _).
  apply wp_bind. unfold wp at 1, the_sorter. apply wp_bind.
  apply (wp_compact_groups _ (es_runs (w_sorter w)) [] lists []); rewrite ?app_nil_r; [done|by symmetry; eapply Forall2_length, sd_disk|done..|].
  intros next ls' w1 Hst' Hp' Hk Hc. unfold wp, set_sorter.
  destruct Hk as (Ep & Eo & Ec). apply core_fields in Ec as (_ & Eb & En & Ecl & Em & Ebu).
  apply HQ; [|done|by split; [done|rewrite <- Ep|..]|done|done].
  exists ls'. split_and!; [by apply (stored_disk w1)|unfold batch; cbn; rewrite Hp', Eb; done|unfold batch; cbn; by rewrite Eb].
Qed.

Lemma wp_sortBatch w Q :
  w_out w = out -> (forall w', w_disk w' = w_disk w -> settled w w' -> es_runs (w_sorter w') = es_runs (w_sorter w) ->
    es_next (w_sorter w') = es_next (w_sorter w) -> batch w' = sort_stable less (batch w) -> Q tt w') -> wp (sortBatch compare) w Q E.
Proof.
  intros Ho HQ. apply wp_bind. unfold wp at 1. destruct (query_check (w_clock w)) eqn:Eq.
  - by apply E_fails; [by eapply check_fails|].
  - apply (wp_check fails check_fails); [by intros; apply E_fails|]. by apply HQ.
Qed.

Lemma release_held_settled w : settled w (release_held w) /\ w_disk (release_held w) = w_disk w /\ w_sorter (release_held w) = w_sorter w.
Proof. unfold release_held. destruct (es_budgeted _ && _); [|by split]. split; [by split|done]. Qed.

Lemma wp_write_batch w Q :
  w_out w = out -> Forall sortable (batch w) ->
  (forall run w', Forall encodable (batch w) -> w_disk w !! run_path run = None -> framed {[run_path run]} w w' -> w_disk w' !! run_path run = Some (rows_bytes (batch w)) -> Q run w') ->
  wp (write_run (fun path => write_rows path (batch w) [])) w Q E.
Proof.
  intros Ho Hs HQ. apply (wp_write_run _ (rows_bytes (batch w)) (Forall encodable (batch w))); [done| |by intros; apply HQ].
  intros path w1 Hp Hw1 Hd1. apply (wp_write_rows path (batch w) [] []); [by rewrite (fr_out _ _ _ Hw1)| | |].
  - exists []. split_and!; [done..|cbn; lia].
  - eapply Forall_impl; [exact Hs|]. by intros row [_ ?].
  - intros buf w2 He Hw2 Hf. by split_and!.
Qed.

(** The batch becomes a run. *)
Lemma contents_flushed w w1 w2 run all :
  contents w all -> Forall sortable all -> NoDup (sr_ordinal <$> all) ->
  w_disk w1 = w_disk w -> es_runs (w_sorter w1) = es_runs (w_sorter w) -> batch w1 = sort_stable less (batch w) -> Forall encodable (batch w1) ->
  w_disk w1 !! run_path run = None -> framed {[run_path run]} w1 w2 -> w_disk w2 !! run_path run = Some (rows_bytes (batch w1)) ->
  exists lists, stored w2 (es_runs (w_sorter w2) ++ [run]) lists /\ mjoin lists ≡ₚ normal_row <$> all.
Proof.
  intros (lists & Hst & Hp & Hb) Hs Hnd Ed Er Eb He Hfresh Hw2 Hd2. exists (lists ++ [normal_row <$> batch w1]).
  assert (es_runs (w_sorter w2) = es_runs (w_sorter w)) as ->.
  { rewrite <- Er. destruct Hw2 as [_ _ Ec _]. by apply core_fields in Ec as (? & _). }
  assert (forall r, r ∈ es_runs (w_sorter w) -> run_path r <> run_path run) as Hne.
  { intros r Hin Heq. destruct (stored_present w _ _ r Hst Hin) as [c Hc]. rewrite Ed, <- Heq in Hfresh. congruence. }
  split.
  - apply stored_snoc; [|by rewrite rows_bytes_normal| | |].
    + apply (stored_frame {[run_path run]} w1); [done| |by apply (stored_disk w)]. intros r Hin. apply not_elem_of_singleton. by apply Hne.
    + intros (r & E1 & Hin)%list_elem_of_fmap. by apply (Hne r Hin).
    + apply row_sorted_normal; [done|]. rewrite Eb. by apply sort_rows_sorted.
    + apply Forall_fmap. eapply Forall_impl; [exact He|]. intros row Hrow. unfold compose, encodable. by rewrite normal_row_row, normal_row_writes.
  - rewrite join_app. cbn. rewrite app_nil_r, Eb, sort_stable_perm. done.
Qed.

Lemma wp_flush w all Q :
  w_out w = out -> head_limit w = maximum -> contents w all -> Forall sortable all -> NoDup (sr_ordinal <$> all) ->
  (forall w', contents w' all -> batch w' = [] -> settled w w' -> es_next (w_sorter w') = es_next (w_sorter w) -> Q tt w') -> wp (flush compare) w Q E.
Proof.
  intros Ho Hlim Hc Hs Hnd HQ. apply wp_bind. unfold wp at 1, the_sorter. case_bool_decide as Eb; [by apply HQ; auto with books|].
  apply wp_bind, wp_sortBatch; [done|]. intros w1 Ed1 Hset1 Er1 En1 Eb1. apply wp_bind. unfold wp at 1. change (es_batch (w_sorter w1)) with (batch w1).
  apply wp_bind, wp_write_batch; [by rewrite (se_out _ _ Hset1)| |].
  { rewrite Eb1. destruct Hc as (_ & _ & _ & Hb). by rewrite sort_stable_perm. }
  intros run w2 He Hfresh Hw2 Hd2.
  destruct (contents_flushed w w1 w2 run all Hc Hs Hnd Ed1 Er1 Eb1 He Hfresh Hw2 Hd2) as (lists & Hst & Hp).
  apply wp_bind. unfold wp at 1, set_sorter. apply wp_bind. unfold wp at 1.
  match goal with |- wp _ ?x _ _ => set (w3 := x) end.
  assert (settled w w3 /\ es_next (w_sorter w3) = es_next (w_sorter w) /\ w_disk w3 = w_disk w2 /\ es_runs (w_sorter w3) = es_runs (w_sorter w2) ++ [run] /\ batch w3 = [])
    as (Hset & En & Ed & Er & Eb3).
  { pose proof (framed_settled _ _ _ Hw2) as Hset2. destruct Hw2 as [_ _ Ec _]. apply core_fields in Ec as (_ & _ & En2 & _).
    set (w2' := w2 <| w_sorter ::= fun s => s <| es_runs ::= fun runs => runs ++ [run] |> |>) in *. assert (settled w2 w2') as Hs2' by done.
    destruct (release_held_settled w2') as (Hs3 & Ed3 & Ers3). unfold w3, releaseBatch. split_and!.
    - apply (settled_trans _ w1); [done|]. apply (settled_trans _ w2); [done|]. apply (settled_trans _ w2'); [done|]. by destruct Hs3; split.
    - cbn. by rewrite Ers3, <- En1, <- En2.
    - exact Ed3.
    - cbn. by rewrite Ers3.
    - done. }
  assert (contents w3 all) as Hc3.
  { exists lists. rewrite Er, Eb3. split_and!; [by apply (stored_disk w2)|by rewrite app_nil_r|constructor]. }
  clearbody w3. apply wp_bind. unfold wp at 1. destruct (externalSortMaxRuns <=? _)%nat; [|by apply HQ].
  apply (wp_compact w3 all); [by rewrite (se_out _ _ Hset)|by rewrite (settled_head_limit w)|done..|].
  intros w4 Hc4 Eb4 Hset4 En4 _. apply HQ; [done|by rewrite Eb4|by eapply settled_trans|by rewrite En4].
Qed.

Lemma wp_compact_until fuel most w all Q :
  w_out w = out -> head_limit w = maximum -> contents w all -> Forall sortable all -> NoDup (sr_ordinal <$> all) ->
  (1 <= most)%nat -> (length (es_runs (w_sorter w)) < fuel)%nat ->
  (forall w', contents w' all -> batch w' = batch w -> settled w w' -> (length (es_runs (w_sorter w')) <= most)%nat -> Q tt w') ->
  wp (compact_until compare fuel most) w Q E.
Proof.
  intros Ho Hlim Hc Hs Hnd Hm. revert w Ho Hlim Hc. induction fuel as [|fuel IH]; intros w Ho Hlim Hc Hf HQ; [lia|]. cbn [compact_until].
  apply wp_bind. unfold wp at 1, the_sorter. destruct (Nat.ltb_spec most (length (es_runs (w_sorter w)))) as [L|L]; [|by apply HQ; auto with books].
  apply wp_bind, (wp_compact w all); [done..|]. intros w1 Hc1 Eb1 Hset1 _ Hcomp. unfold compacted in Hcomp. cbn [length] in Hcomp.
  apply IH; [by rewrite (se_out _ _ Hset1)|by rewrite (settled_head_limit w)|done|destruct (es_runs (w_sorter w)); lia|].
  intros w2 Hc2 Eb2 Hset2 Hlen. apply HQ; [done|by rewrite Eb2|by eapply settled_trans|done].
Qed.

Lemma wp_charge size w Q :
  E (w) -> (forall w' granted, w_disk w' = w_disk w -> settled w w' -> es_runs (w_sorter w') = es_runs (w_sorter w) -> batch w' = batch w ->
    es_next (w_sorter w') = es_next (w_sorter w) -> Q granted w') -> wp (charge size) w Q E.
Proof.
  intros HE HQ. unfold wp, charge. destruct (es_budgeted (w_sorter w)); [|by apply HQ].
  unfold reserve. destruct (Z.ltb _ 1); [done|]. by apply HQ.
Qed.

Lemma wp_Add w all values Q :
  (forall w', E w') -> w_out w = out -> head_limit w = maximum -> contents w all -> Forall sortable all -> NoDup (sr_ordinal <$> all) ->
  es_next (w_sorter w) = Z.of_nat (length all) -> Z.of_nat (S (length all)) < 2 ^ 64 -> sortable (mkSortRow values (Z.of_nat (length all))) ->
  (forall w', contents w' (all ++ [mkSortRow values (Z.of_nat (length all))]) -> settled w w' -> es_next (w_sorter w') = Z.of_nat (S (length all)) -> Q tt w') ->
  wp (Add compare values) w Q E.
Proof.
  intros HE Ho Hlim Hc Hs Hnd Hn Hb Hv HQ. apply wp_bind. unfold wp at 1, the_sorter. destruct (es_closed (w_sorter w)); [apply HE|].
  apply wp_bind, (wp_check fails check_fails); [by intros; apply HE|]. apply wp_bind. unfold wp at 1, checkRowWidth.
  destruct (rowLimit (tick w) <? serializedRowBytes values); [apply HE|]. apply wp_bind.
  assert (forall w1, contents w1 all -> settled (tick w) w1 -> es_next (w_sorter w1) = es_next (w_sorter w) ->
    wp (do granted <- charge (queryRowBytes values + 32) in
        set_sorter (fun s => s <| es_batch ::= (fun l => l ++ [mkSortRow values (es_next s)]) |> <| es_next ::= (fun n => (n + 1) mod 2 ^ 64) |>
                               <| es_batchBytes ::= Z.add granted |>)) w1 Q E) as Hgo.
  { intros w1 (lists & Hst & Hp & Hbatch) Hset1 En1. apply wp_bind, wp_charge; [apply HE|]. intros w2 granted Ed2 Hset2 Er2 Eb2 En2.
    unfold wp, set_sorter. assert (es_next (w_sorter w2) = Z.of_nat (length all)) as En by congruence.
    match goal with |- Q tt ?x => assert (batch x = batch w1 ++ [mkSortRow values (Z.of_nat (length all))]) as Eb3 by (rewrite <- Eb2, <- En; done) end.
    apply HQ.
    - exists lists. rewrite Eb3. split_and!; [apply (stored_disk w1); [done|]; by rewrite <- Er2 in Hst| |by apply Forall_app_2; [|constructor]].
      by rewrite !fmap_app, app_assoc, Hp.
    - apply (settled_trans _ w1); [by destruct Hset1; split|]. by destruct Hset2; split.
    - cbn. rewrite En. rewrite Z.mod_small; lia. }
  assert (contents (tick w) all) as Hct by (destruct Hc as (lists & Hst & Hc); exists lists; split; [by apply (stored_disk w)|exact Hc]).
  destruct ((es_memory (w_sorter w) ÷ 2 <? _) && _).
  - apply (wp_flush (tick w) all); [exact Ho|exact Hlim|exact Hct|exact Hs|exact Hnd|]. intros w1 Hc1 _ Hset1 En1. by apply Hgo.
  - by apply Hgo.
Qed.
End Writing.
