(* ===== verification/SorterRuns.v ===== *)
(** * The rows an external sorter hands on

    After rows have been added, finishing the sorter hands on the rows in their stable order, whether
    they stayed in memory or went through run files, and stops early only if something failed. *)

From stdpp Require Import gmap list sorting strings fin_maps.
From Stdlib Require Import Strings.Byte.
From S2P Require Import Prelude TopK SortRow ExternalSort SorterBooks SorterOrder SorterFacts.
#[local] Open Scope sorting_scope.

(** The rows with their ordinals. *)
Definition numbered (rows : list (list cell)) : list externalSortRow := imap (fun i values => mkSortRow values (Z.of_nat i)) rows.

Lemma numbered_snoc rows values : numbered (rows ++ [values]) = numbered rows ++ [mkSortRow values (Z.of_nat (length rows))].
Proof. unfold numbered. rewrite imap_app. cbn. by rewrite Nat.add_0_r. Qed.

Lemma numbered_ranked rows : to_ranked <$> numbered rows = ranked id rows.
Proof. unfold numbered, ranked. by rewrite fmap_imap. Qed.

Lemma length_numbered rows : length (numbered rows) = length rows.
Proof. apply length_imap. Qed.

Lemma numbered_NoDup rows : NoDup (sr_ordinal <$> numbered rows).
Proof.
  pose proof (ranked_NoDup id rows) as Hn. rewrite <- numbered_ranked, <- list_fmap_compose in Hn. exact Hn.
Qed.

Lemma numbered_Forall (P : externalSortRow -> Prop) rows :
  (forall i values, rows !! i = Some values -> P (mkSortRow values (Z.of_nat i))) -> Forall P (numbered rows).
Proof.
  intros HP. apply Forall_lookup. intros i row Hi. unfold numbered in Hi. rewrite list_lookup_imap in Hi.
  destruct (rows !! i) eqn:E; [|done]. injection Hi as <-. by apply HP.
Qed.

(** A row as a run file gives it back. *)
Definition normal_values (values : list cell) : list cell := normal <$> values.

Section Run.
Context `{SortEnv} `{SortOptions} `{MapRange} (compare : list cell -> list cell -> Z).
Context (compare_sym : forall x y, Z.sgn (compare y x) = - Z.sgn (compare x y)).
Context (compare_trans : forall x y z, compare x y <= 0 -> compare y z <= 0 -> compare x z <= 0).
Context (compare_normal : forall x y, compare (normal <$> x) y = compare x y /\ compare x (normal <$> y) = compare x y).
Context (refuse : nat -> option sort_error).
Notation less := (row_less compare).

Lemma sort_numbered rows : sr_values <$> sort_stable less (numbered rows) = sort_stable (in_order compare) rows.
Proof.
  pose proof (sort_ranked compare id (fun x y => conj eq_refl eq_refl) rows) as Hs. rewrite list_fmap_id in Hs. rewrite <- Hs, <- numbered_ranked.
  rewrite <- (sort_stable_fmap to_ranked less) by done. by rewrite <- list_fmap_compose.
Qed.

(** [Add] for every row of a result. *)
Fixpoint add_all (rows : list (list cell)) : sorting unit :=
  match rows with
  | [] => sdone tt
  | values :: rows => Add compare values ;; add_all rows
  end.

(** A consumer that notes the row, or refuses it. *)
Definition noting (values : list cell) : sorting unit := fun w =>
  match refuse (w_clock w) with
  | Some e => (tick w, Err e)
  | None => ((tick w) <| w_out ::= (fun out => out ++ [values]) |>, Ok tt)
  end.

(** Nothing fails, and every row can be written and read back. *)
Record calm (limit : Z) (rows : list (list cell)) : Prop := {
  calm_check : forall n, query_check n = None;
  calm_io : forall n, io_error n = false;
  calm_short : forall n, io_short n = None;
  calm_temp : MaxTempBytes <= 0;
  calm_refuse : forall n, refuse n = None;
  calm_writes : Forall (fun values => (cells_writes values).2 = None) rows;
  calm_width : Forall (fun values => read_width values <= limit) rows
}.

Definition wf_values (values : list cell) : Prop :=
  Forall wf_cell values /\ Forall addressable values /\ Z.of_nat (length values) < 2 ^ 64.

Section Outcome.
Context (maximum : Z) (maximum_bound : maximum < 2 ^ 63) (rows : list (list cell)) (rows_wf : Forall wf_values rows).
Context (rows_bound : Z.of_nat (length rows) < 2 ^ 64) (out : list (list cell)).
Notation fails := (~ calm maximum rows).

Lemma fails_check n e : query_check n = Some e -> fails.
Proof. intros Hn Hc. by rewrite (calm_check _ _ Hc) in Hn. Qed.

Lemma fails_io n : io_error n = true -> fails.
Proof. intros Hn Hc. by rewrite (calm_io _ _ Hc) in Hn. Qed.

Lemma fails_short n k : io_short n = Some k -> fails.
Proof. intros Hn Hc. by rewrite (calm_short _ _ Hc) in Hn. Qed.

Lemma fails_temp : 0 < MaxTempBytes -> fails.
Proof. intros Hn Hc. pose proof (calm_temp _ _ Hc). lia. Qed.

Lemma sortable_at i values : rows !! i = Some values -> sortable fails maximum (mkSortRow values (Z.of_nat i)).
Proof.
  intros Hi. pose proof (lookup_lt_Some _ _ _ Hi). destruct (proj1 (Forall_lookup _ _) rows_wf _ _ Hi) as (Hw & Ha & Hl). split; [split|].
  - split; [|by split_and!]. cbn. unfold is_u64. lia.
  - intros Hwide Hc. pose proof (proj1 (Forall_lookup _ _) (calm_width _ _ Hc) _ _ Hi) as Hr. cbn in Hwide, Hr. lia.
  - destruct (decide ((cells_writes values).2 = None)) as [He|He]; [left|right].
    + unfold encodable, writeSortRow. cbn. by destruct (cells_writes values).
    + intros Hc. by apply He, (proj1 (Forall_lookup _ _) (calm_writes _ _ Hc) _ _ Hi).
Qed.

Lemma wp_add_all seen rest w :
  rows = seen ++ rest -> w_out w = out -> head_limit w = maximum -> contents compare fails maximum w (numbered seen) -> es_next (w_sorter w) = Z.of_nat (length seen) ->
  wp (add_all rest) w (fun _ w' => contents compare fails maximum w' (numbered rows) /\ settled w w') (fun _ => True).
Proof.
  revert seen w. induction rest as [|values rest IH]; intros seen w Er Ho Hl Hc Hn.
  { rewrite app_nil_r in Er. subst seen. by split; [|apply settled_refl]. }
  assert (rows !! length seen = Some values) as Hi by (by rewrite Er, list_lookup_middle).
  apply wp_bind. apply (wp_Add compare fails fails_check fails_io fails_short fails_temp out (fun _ => True) ltac:(done) ltac:(done)
    compare_sym compare_trans compare_normal maximum maximum_bound w (numbered seen)); [done..| | | |rewrite length_numbered| |].
  - apply numbered_Forall. intros i v Hv. apply sortable_at. rewrite Er. by apply lookup_app_l_Some.
  - apply numbered_NoDup.
  - by rewrite length_numbered.
  - rewrite Er, length_app in rows_bound. cbn in rows_bound. lia.
  - rewrite length_numbered. by apply sortable_at.
  - rewrite length_numbered. intros w' Hc' Hset Hn'. rewrite <- numbered_snoc in Hc'.
    eapply wp_mono; [apply (IH (seen ++ [values])); [by rewrite <- app_assoc|by rewrite (se_out _ _ Hset)|by rewrite (settled_head_limit w)|done|]| |done].
    + rewrite length_app. cbn. lia.
    + intros _ w'' [Hc'' Hset']. split; [done|by eapply settled_trans].
Qed.

(** The rows handed on so far. *)
Definition handing (given : list externalSortRow) (w : world) : Prop := w_out w = out ++ (sr_values <$> given).

Definition expected : list externalSortRow := normal_row <$> sort_stable less (numbered rows).

Definition stopped (w : world) : Prop := fails /\ exists given, (normal_row <$> given) `prefix_of` expected /\ handing given w.
Definition finished (w : world) : Prop := exists given, normal_row <$> given = expected /\ handing given w.

Lemma stopped_start : fails -> forall w, w_out w = out -> stopped w.
Proof. intros Hf w Ho. split; [done|]. exists []. split; [apply prefix_nil|]. unfold handing. by rewrite app_nil_r. Qed.

Lemma stopped_tick w : stopped w -> stopped (tick w).
Proof. done. Qed.

Lemma wp_noting given row w :
  (normal_row <$> given) `prefix_of` expected -> handing given w -> wp (noting (sr_values row)) w (fun _ => handing (given ++ [row])) stopped.
Proof.
  intros Hp Hg. unfold wp, noting. destruct (refuse (w_clock w)) eqn:Er.
  - split; [|by exists given]. intros Hc. by rewrite (calm_refuse _ _ Hc) in Er.
  - unfold handing in *. cbn. rewrite Hg, fmap_app. by rewrite app_assoc.
Qed.

Lemma wp_yield_rows given rest w :
  normal_row <$> (given ++ rest) = expected -> handing given w -> wp (yield_rows noting rest) w (fun _ => finished) stopped.
Proof.
  revert given w. induction rest as [|row rest IH]; intros given w He Hg.
  { rewrite app_nil_r in He. by exists given. }
  assert ((normal_row <$> given) `prefix_of` expected) as Hp by (rewrite <- He, fmap_app; by apply prefix_app_r).
  apply wp_bind, (wp_check fails fails_check); [by split; [|exists given]|]. apply wp_bind.
  eapply wp_mono; [by apply (wp_noting given)| |done]. intros ? w' Hg'. apply (IH (given ++ [row])); [|done]. by rewrite <- app_assoc.
Qed.

Lemma expected_unique l : row_sorted compare l -> l ≡ₚ normal_row <$> numbered rows -> l = expected.
Proof.
  intros Hs Hp. apply (row_sorted_unique compare compare_sym); [done| | |].
  - apply row_sorted_normal; [done|]. by apply sort_rows_sorted.
  - rewrite Hp, normal_row_ordinals. apply numbered_NoDup.
  - rewrite Hp. unfold expected. by rewrite sort_stable_perm.
Qed.

Lemma all_sortable : Forall (sortable fails maximum) (numbered rows).
Proof. apply numbered_Forall. intros i v Hv. by apply sortable_at. Qed.

Lemma stored_good w runs lists :
  stored compare w runs lists -> mjoin lists ≡ₚ normal_row <$> numbered rows -> Forall (good fails maximum) (mjoin lists).
Proof.
  intros Hst Hp. pose proof (sd_normal _ _ _ _ Hst) as Hn. apply Forall_forall. intros row Hrow. rewrite Forall_forall in Hn.
  destruct (Hn row Hrow) as [_ He]. rewrite Hp in Hrow. apply list_elem_of_fmap in Hrow as (row' & -> & Hrow).
  pose proof all_sortable as Hs. rewrite Forall_forall in Hs. destruct (Hs row' Hrow) as [Hr _].
  destruct (readable_normal fails maximum row' Hr). by split_and!.
Qed.

(** Handing on from the runs. *)
Lemma wp_merge_out w lists :
  w_out w = out -> head_limit w = maximum -> stored compare w (es_runs (w_sorter w)) lists -> mjoin lists ≡ₚ normal_row <$> numbered rows ->
  wp (merge compare (es_runs (w_sorter w)) (fun _ row => noting (sr_values row)) tt) w (fun _ => finished) stopped.
Proof.
  intros Ho Hl Hst Hp. pose proof (stored_good w _ _ Hst Hp) as Hg. destruct Hst as [Hd _ Hs Hn].
  assert (normal_row <$> mjoin lists = mjoin lists) as En by (by apply normal_rows).
  assert (sort_stable less (mjoin lists) = expected) as Ee by (apply expected_unique; [by apply sort_rows_sorted|by rewrite sort_stable_perm]).
  assert (forall given, given `prefix_of` expected -> normal_row <$> given = given) as Hgiven.
  { intros given [rest Hr]. assert (normal_row <$> expected = expected) as E1.
    { unfold expected. rewrite <- list_fmap_compose. apply list_fmap_ext. intros ? row _. apply normal_row_row. }
    rewrite Hr, fmap_app in E1. by apply app_inj_1 in E1 as [? _]; [|by rewrite length_fmap]. }
  eapply wp_mono; [apply (merge_spec compare fails fails_check fails_io compare_sym compare_trans _ maximum expected (fun given _ => handing given) stopped) with (lists := lists)| |done];
    [done| | |done..| | | | | |].
  - intros given ? w' Hpre Hh Hf. split; [done|]. exists given. by rewrite Hgiven.
  - intros given row ? w' Hpre Hh. assert (given `prefix_of` expected) as Hpre' by (etrans; [by apply prefix_app_r|done]).
    apply wp_noting; [by rewrite Hgiven|done].
  - by apply Forall_join.
  - apply Forall_join in Hn. eapply Forall_impl; [apply Forall_and; exact (conj Hs Hn)|]. intros l [Hls Hln]. by rewrite normal_rows.
  - by rewrite En.
  - rewrite Hp, normal_row_ordinals. apply numbered_NoDup.
  - unfold handing. by rewrite app_nil_r.
  - intros ? w' Hh. exists expected. split; [by apply Hgiven|done].
Qed.

Lemma wp_finish_rows w :
  w_out w = out -> head_limit w = maximum -> contents compare fails maximum w (numbered rows) ->
  wp (finish_rows compare noting (w_sorter w)) w (fun _ => finished) stopped.
Proof.
  intros Ho Hl Hc. unfold finish_rows. case_bool_decide as Er.
  - apply wp_bind, (wp_sortBatch compare fails fails_check out stopped stopped_start); [done|]. intros w1 _ Hset _ _ Eb.
    apply wp_bind. unfold wp at 1, the_sorter. change (es_batch (w_sorter w1)) with (batch w1).
    apply (wp_yield_rows []); [|unfold handing; by rewrite app_nil_r, (se_out _ _ Hset)]. cbn [app]. rewrite Eb.
    destruct Hc as (lists & Hst & Hp & _). rewrite Er in Hst. pose proof (sd_disk _ _ _ _ Hst) as Hd. apply Forall2_nil_inv_l in Hd as ->. cbn in Hp.
    apply expected_unique; [apply row_sorted_normal; [done|]; by apply sort_rows_sorted|by rewrite sort_stable_perm].
  - apply wp_bind. apply (wp_flush compare fails fails_check fails_io fails_short fails_temp out stopped stopped_start stopped_tick
      compare_sym compare_trans compare_normal maximum maximum_bound w (numbered rows)); [done..|apply all_sortable|apply numbered_NoDup|].
    intros w1 Hc1 Eb1 Hset1 _. apply wp_bind. unfold wp at 1, the_sorter. apply wp_bind.
    apply (wp_compact_until compare fails fails_check fails_io fails_short fails_temp out stopped stopped_start stopped_tick
      compare_sym compare_trans compare_normal maximum maximum_bound _ _ w1 (numbered rows));
      [by rewrite (se_out _ _ Hset1)|by rewrite (settled_head_limit w)|done|apply all_sortable|apply numbered_NoDup|unfold externalSortFanIn; lia|lia|].
    intros w2 (lists & Hst & Hp & _) Eb2 Hset2 _. apply wp_bind. unfold wp at 1. rewrite Eb2, Eb1, app_nil_r in Hp.
    apply (wp_merge_out w2 lists); [by rewrite (se_out _ _ Hset2), (se_out _ _ Hset1)|by rewrite (settled_head_limit w1), (settled_head_limit w)|done..].
Qed.
End Outcome.

(** ** Closing *)

Lemma removeRun_out path w : w_out (removeRun path w).1 = w_out w /\ (forall e, (removeRun path w).2 = Err e -> exists n, io_error n = true).
Proof. unfold removeRun, sbind, io. destruct (io_error (w_clock w)) eqn:E; [split; [done|by eexists]|done]. Qed.

Lemma remove_files_out paths first w :
  w_out (remove_files paths first w).1 = w_out w /\ ((remove_files paths first w).2 = None \/ first <> None \/ exists n, io_error n = true).
Proof.
  revert first w. induction paths as [|path paths IH]; intros first w; cbn [remove_files]; [split; [done|]; destruct first; auto|].
  destruct (removeRun_out path w) as [Ho He]. destruct (removeRun path w) as [w1 r]. cbn [fst snd] in *.
  destruct (IH (match first, r with None, Err e => Some e | _, _ => first end) w1) as [Ho' Hd]. split; [congruence|].
  destruct Hd as [Hd|[Hd|Hd]]; [by left| |by right; right]. destruct first as [e|]; [by right; left|]. destruct r as [u|e]; [done|].
  right; right. by eapply He.
Qed.

Lemma Close_out w : w_out (Close w).1 = w_out w /\ (forall e, (Close w).2 = Err e -> exists n, io_error n = true).
Proof.
  unfold Close. destruct (es_closed (w_sorter w)); [done|].
  destruct (remove_files_out (range (w_clock w) (es_files (w_sorter w))).*1 None w) as [Ho Hd]. destruct (remove_files _ None w) as [w1 first]. cbn [fst snd] in *.
  assert (w_out (releaseSorter (releaseBatch w1)) = w_out w1) as Er.
  { assert (forall w, w_out (release_held w) = w_out w) as Hr by (intros w0; unfold release_held; by destruct (_ && _)).
    unfold releaseSorter. destruct (es_released _); [|cbn; rewrite Hr]; unfold releaseBatch; cbn; apply Hr. }
  split; [cbn; congruence|]. intros e. destruct first; [|done]. intros _. by destruct Hd as [|[|]].
Qed.

Lemma head_limit_bound w : es_memory (w_sorter w) < 2 ^ 63 -> head_limit w < 2 ^ 63.
Proof.
  intros Hm. assert (es_memory (w_sorter w) ÷ 8 < 2 ^ 63); [|unfold head_limit; destruct (Z.ltb_spec (rowLimit w) (es_memory (w_sorter w) ÷ 8)); lia].
  destruct (Z.le_gt_cases 0 (es_memory (w_sorter w))) as [L|L]; [apply Z.quot_lt_upper_bound; lia|].
  pose proof (Z.quot_opp_l (- es_memory (w_sorter w)) 8 ltac:(lia)) as Eo. rewrite Z.opp_involutive in Eo.
  pose proof (Z.quot_pos (- es_memory (w_sorter w)) 8 ltac:(lia) ltac:(lia)). lia.
Qed.

Lemma expected_values rows : sr_values <$> expected rows = normal_values <$> sort_stable (in_order compare) rows.
Proof. unfold expected. rewrite <- sort_numbered, <- !list_fmap_compose. done. Qed.

Lemma handed_values rows given : normal_row <$> given = expected rows -> normal_values <$> (sr_values <$> given) = normal_values <$> sort_stable (in_order compare) rows.
Proof. intros Hg. rewrite <- expected_values, <- Hg, <- !list_fmap_compose. done. Qed.

End Run.

(** ** Evaluated runs *)

Section Evaluated.
#[local] Existing Instances calm_env no_limit.

Lemma result_of {A} (p : world * result sort_error A) a : p.2 = Ok a -> p = (p.1, Ok a).
Proof. destruct p. by intros [= ->]. Qed.

(** A text of [n] bytes after a number. *)
Definition wide_row (n : nat) (k : Z) : list cell := [VInt k; VString (replicate n x61)].

(** Eleven rows of the widest kind, of which eight fill the batch. *)
Definition wide_rows : list (list cell) := wide_row 3900 <$> [5; 3; 9; 1; 7; 2; 8; 4; 6; 0; 5].

Definition filled : world := (add_all by_first wide_rows (new_world 65536)).1.

Lemma filled_ok : add_all by_first wide_rows (new_world 65536) = (filled, Ok tt).
Proof. unfold filled. apply result_of. by vm_compute. Qed.


(** Rows of 169 NULL columns are taken up, as 185 serialised bytes each, and cannot be read back, as the
    reader counts 4104 bytes against a limit of 4096. *)
Lemma accepted_row_unreadable :
  let rows := replicate 20 (replicate 169 VNil) in
  let '(w, r) := add_all by_first rows (new_world 65536) in
  r = Ok tt /\ serializedRowBytes (replicate 169 VNil) = 185 /\ rowLimit w = 4096 /\ read_width (replicate 169 VNil) = 4104 /\
  (Finish by_first (noting (fun _ => None)) w).2 = Err (ErrSortRun "invalid sort run row width").
Proof. by vm_compute. Qed.

(** A pool that is spent grants nothing, not even a byte, and the sorter does not spill its batch to make room. *)
Lemma spent_pool_grants_nothing :
  (reserve 1 (mkPool 65536 65536)).2 = None /\
  let w := (new_world 65536) <| w_pool := mkPool 65536 65536 |> in
  (Add by_first [VInt 1] w).2 = Err ErrQueryResourceLimit.
Proof. by vm_compute. Qed.
End Evaluated.
