(* ===== verification/Physical.v ===== *)
(** * Relational operators: [physical/operator.go]

    An operator hands its rows to a callback, one after the other, and stops at the first error.  It is a
    function of the callback and of the state the callback works on, whatever that state is, so that an
    operator can only use a callback by calling it.  A closure's own variables are a part of the state
    its callback runs on.

    A clock numbers what is asked of the context and the values [errors.New] makes. *)

From stdpp Require Import list sorting sets fin_sets.
From S2P Require Import Prelude TopK.

(** ** Errors *)

(** [Stop id] is the value [errors.New] made at the time [id]; a joined error has at least one part. *)
Inductive error (fault : Type) : Type :=
  | Fault (f : fault)
  | Stop (id : nat)
  | Joined (first : error fault) (others : list (error fault)).
Arguments Fault {fault} f.
Arguments Stop {fault} id.
Arguments Joined {fault} first others.

(** [errors.Join] *)
Definition Join {fault} (errs : list (option (error fault))) : option (error fault) :=
  match omap id errs with
  | [] => None
  | e :: es => Some (Joined e es)
  end.

Fixpoint removeStop {fault} (stop : nat) (err : error fault) : option (error fault) :=
  match err with
  | Stop id => if (id =? stop)%nat then None else Some err
  | Fault _ => Some err
  | Joined e es => Join (removeStop stop e :: map (removeStop stop) es)
  end.

(** ** Runs *)

Section Operators.
Context {fault : Type} (ctx_err : nat -> option fault).
Notation error := (error fault).

Definition run (S : Type) : Type := nat -> S -> nat * S * option error.

Definition Yield (T S : Type) : Type := T -> run S.

Definition Operator (T : Type) : Type := forall S, Yield T S -> run S.

(** [if err := m; err != nil { return err }; k] *)
Definition andThen {S} (m k : run S) : run S := fun c s =>
  let '(c, s, e) := m c s in
  match e with
  | Some e => (c, s, Some e)
  | None => k c s
  end.

Definition nothing {S} : run S := fun c s => (c, s, None).
Definition raise {S} (f : fault) : run S := fun c s => (c, s, Some (Fault f)).

(** [ctx.Err()] *)
Definition context_err {S} : run S := fun c s => (c + 1, s, Fault <$> ctx_err c)%nat.

Definition checked {T S} (y : Yield T S) : Yield T S := fun row => andThen context_err (y row).

(** A result that may be an error, and what is done with its value. *)
Definition with_result {A S} (r : result fault A) (k : A -> run S) : run S :=
  match r with
  | Ok a => k a
  | Err f => raise f
  end.

(** A callback, run with a variable of the closure beside its state. *)
Definition lift {S X} (m : run S) : run (S * X) := fun c '(s, x) =>
  let '(c, s, e) := m c s in (c, (s, x), e).

Definition with_local {S X} (m : run (S * X)) (x : X) (k : X -> option error -> run S) : run S := fun c s =>
  let '(c, (s, x), e) := m c (s, x) in k x e c s.

Definition return_err {S} (e : option error) : run S := fun c s => (c, s, e).

(** ** Operators without state of their own *)

(** [Source]: [f] hands its rows to the callback, which checks the context first. *)
Definition Source {T} (f : Operator T) : Operator T := fun S y => andThen context_err (f S (checked y)).

Definition Filter {T} (input : Operator T) (predicate : T -> result fault bool) : Operator T := fun S y =>
  input S (fun r => with_result (predicate r) (fun ok => if ok then y r else nothing)).

Definition Projection {A B} (input : Operator A) (project : A -> result fault B) : Operator B := fun S y =>
  input S (fun a => with_result (project a) (fun b => y b)).

Fixpoint union_runs {T} (inputs : list (Operator T)) {S} (y : Yield T S) : run S :=
  match inputs with
  | [] => context_err
  | input :: inputs => andThen (input S y) (union_runs inputs y)
  end.

Definition Union {T} (inputs : list (Operator T)) : Operator T := fun S y => union_runs inputs y.

(** What is done with a row of the right side; the variable [matched] is beside the state. *)
Definition join_right {L R O S} (combine : L -> R -> O) (predicate : option (O -> result fault bool)) (y : Yield O S) (l : L) : Yield R (S * bool) := fun r =>
  let row := combine l r in
  with_result (match predicate with Some p => p row | None => Ok true end) (fun ok =>
    if ok then (fun c '(s, matched) => lift (y row) c (s, true)) else nothing).

Definition join_left {L R O S} (right : L -> result fault (Operator R)) (combine : L -> R -> O) (predicate : option (O -> result fault bool))
    (null_right : option (L -> O)) (y : Yield O S) : Yield L S := fun l =>
  with_result (right l) (fun right =>
    with_local (right (S * bool)%type (join_right combine predicate y l)) false (fun matched e =>
      match e, null_right with
      | Some e, _ => return_err (Some e)
      | None, Some null => if negb matched then y (null l) else nothing
      | None, None => nothing
      end)).

Definition Join3 {L R O} (left : Operator L) (right : L -> result fault (Operator R)) (combine : L -> R -> O)
    (predicate : option (O -> result fault bool)) (null_right : option (L -> O)) : Operator O := fun S y =>
  left S (join_left right combine predicate null_right y).

(** ** Operators that keep rows *)

(** What [New] makes: [Add], [Finish] and [Close] over a state of its own. *)
Record Sorter (A B : Type) : Type := mkAccumulator {
  so_state : Type;
  so_New : nat -> nat * (so_state + fault);
  so_Add : A -> run so_state;
  so_Finish : forall S, Yield B S -> run (S * so_state);
  so_Close : run so_state
}.
Arguments so_state {A B}.
Arguments so_New {A B}.
Arguments so_Add {A B}.
Arguments so_Finish {A B}.
Arguments so_Close {A B}.

(** The run of a sorter that was made: rows in, rows out, and the deferred [Close]. *)
Definition sort_run {A B} (so : Sorter A B) (input : Operator A) (t : so_state so) {S} (y : Yield B S) : run S := fun c s =>
  let '(c, t, e) := input (so_state so) (so_Add so) c t in
  let '(c, (s, t), e) := match e with Some e => (c, (s, t), Some e) | None => so_Finish so S (checked y) c (s, t) end in
  let '(c, _, e') := so_Close so c t in
  (c, s, Join [e; e']).

(** [None]: nothing failed, and nothing is joined. *)
Definition Sort {T} (input : Operator T) (so : Sorter T T) : Operator T := fun S y c s =>
  match so_New so c with
  | (c, inr f) => (c, s, Some (Fault f))
  | (c, inl t) => sort_run so input t y c s
  end.

Definition Aggregate {A B} (input : Operator A) (so : Sorter A B) : Operator B := fun S y =>
  andThen context_err (fun c s =>
    match so_New so c with
    | (c, inr f) => (c, s, Some (Fault f))
    | (c, inl t) => sort_run so input t y c s
    end).

(** The variables [seen] and [n] are beside the state. *)
Definition limit_row {T S} (drain : bool) (offset count : Z) (stop : nat) (y : Yield T S) : Yield T (S * (Z * Z)) := fun r c '(s, (seen, n)) =>
  if (0 <=? count) && (count <=? n) then (c, (s, (seen, n)), None)
  else if seen <? offset then (c, (s, (seen + 1, n)), None)
  else
    let '(c, s, e) := y r c s in
    match e with
    | Some e => (c, (s, (seen, n)), Some e)
    | None =>
        if (0 <=? count) && (count <=? n + 1) && negb drain then (c, (s, (seen, n + 1)), Some (Stop stop))
        else (c, (s, (seen, n + 1)), None)
    end.

Definition Limit {T} (drain : bool) (input : Operator T) (offset count : Z) : Operator T := fun S y =>
  andThen context_err (fun c s =>
    if (count =? 0) && negb drain then (c, s, None)
    else
      let stop := c in
      let '(c, (s, _), e) := input (S * (Z * Z))%type (limit_row drain offset count stop y) (c + 1)%nat (s, (0, 0)) in
      (c, s, match e with Some e => removeStop stop e | None => None end)).

Definition TopN {T} (input : Operator T) (so : Sorter T T) (offset count : Z) : Operator T := Limit false (Sort input so) offset count.

Fixpoint yield_all {T S} (rows : list T) (y : Yield T S) : run S :=
  match rows with
  | [] => nothing
  | r :: rows => andThen (checked y r) (yield_all rows y)
  end.

(** Rows that are there already ([materialized.go]). *)
Definition Materialized {T} (rows : list T) : Operator T := fun S y => andThen context_err (yield_all rows y).

(** [charge] draws on an account beside the rows. *)
Definition Materialize {T Q} (input : Operator T) (clone : T -> T) (charge : T -> Q -> Q * option fault) (account : Q) : Operator T := fun S y c s =>
  let '(c, (_, rows), e) := input (Q * list T)%type (fun r c '(q, rows) =>
    match charge r q with
    | (q, Some f) => (c, (q, rows), Some (Fault f))
    | (q, None) => (c, (q, rows ++ [clone r]), None)
    end) c (account, []) in
  match e with
  | Some e => (c, s, Some e)
  | None => yield_all rows y c s
  end.

(** A callback that collects the rows. *)
Definition collect {T} : Yield T (list T) := fun r c rows => (c, rows ++ [r], None).
End Operators.

Arguments so_state {fault A B}.
Arguments so_New {fault A B}.
Arguments so_Add {fault A B}.
Arguments so_Finish {fault A B}.
Arguments so_Close {fault A B}.
