(* ===== verification/PhysicalFacts.v ===== *)
(** * What the relational operators do

    Every operator of [Physical] gives its callback the rows its inputs and parameters determine, in
    order, and ends early only with an error of the callback or because something failed. *)

From stdpp Require Import list sorting sets fin_sets.
From S2P Require Import Prelude Physical.

(** ** What an operator does

    [feeds op rows]: the callback gets [rows], in order; the operator ends early only with an error of the
    callback, with the parts of that error, or because something else failed ([fails]).  [I given] is
    what the callback has made of the rows given to it, and [E] what an error of the callback says. *)

Section Feeding.
Context {fault : Type} (fails : Prop).
Notation error := (error fault).
Notation run := (@run fault).
Notation Yield := (@Yield fault).
Notation Operator := (@Operator fault).

Fixpoint leaves (e : error) : list error :=
  match e with
  | Joined e es => leaves e ++ mjoin (map leaves es)
  | e => [e]
  end.

Definition nostop (L : list error) : Prop := forall id, Stop id ∉ L.

(** Stops made before [c]. *)
Definition old (c : nat) (L : list error) : Prop := forall id, Stop id ∈ L -> (id < c)%nat.

(** More errors beside those of [L]. *)
Definition grown (L L' : list error) : Prop := L' = L \/ fails /\ L ⊆ L' /\ forall id, Stop id ∈ L' -> Stop id ∈ L.

Definition outcome {S} (c0 : nat) (Q : S -> Prop) (F : list error -> S -> Prop) (res : nat * S * option error) : Prop :=
  let '(c, s, e) := res in
  (c0 <= c)%nat /\ match e with None => Q s | Some e => F (leaves e) s end.

Definition failed {T S} (rows : list T) (I : list T -> S -> Prop) (E : list error -> S -> Prop) (L : list error) (s : S) : Prop :=
  fails /\ nostop L /\ (exists given, given `prefix_of` rows /\ I given s) \/ exists L', E L' s /\ grown L' L.

Definition yields {T S} (c0 : nat) (rows : list T) (y : Yield T S) (I : list T -> S -> Prop) (E : list error -> S -> Prop) : Prop :=
  forall given r c s, (c0 <= c)%nat -> given ++ [r] `prefix_of` rows -> I given s -> outcome c (I (given ++ [r])) E (y r c s).

Definition feeds {T} (op : Operator T) (rows : list T) : Prop :=
  forall S (y : Yield T S) (I : list T -> S -> Prop) (E : list error -> S -> Prop) c0 s,
    I [] s -> (forall L s, E L s -> old c0 L) -> yields c0 rows y I E -> outcome c0 (I rows) (failed rows I E) (op S y c0 s).

(** *** Errors *)

Lemma error_ind_parts (P : error -> Prop) :
  (forall f, P (Fault f)) -> (forall id, P (Stop id)) -> (forall e es, P e -> Forall P es -> P (Joined e es)) -> forall e, P e.
Proof.
  intros Hf Hs Hj. fix IH 1. intros [f|id|e es]; [apply Hf|apply Hs|]. apply Hj; [apply IH|].
  induction es as [|e' es IHes]; constructor; [apply IH|exact IHes].
Qed.

Lemma leaves_not_nil e : leaves e <> [].
Proof. induction e as [| |e es IH _] using error_ind_parts; [done..|]. cbn. by destruct (leaves e). Qed.

Definition leaves_opt (e : option error) : list error := match e with Some e => leaves e | None => [] end.

Lemma leaves_Join (es : list (option error)) : leaves_opt (Join es) = mjoin (leaves_opt <$> es).
Proof.
  unfold Join. assert (mjoin (leaves_opt <$> es) = mjoin (leaves <$> omap id es)) as ->.
  { induction es as [|[e|] es IH]; [done| |exact IH].
    change (leaves e ++ mjoin (leaves_opt <$> es) = leaves e ++ mjoin (leaves <$> omap id es)). by rewrite IH. }
  by destruct (omap id es).
Qed.

Lemma Join_none (es : list (option error)) : Join es = None <-> Forall (fun e => e = None) es.
Proof.
  unfold Join. induction es as [|[e|] es IH]; [by split; [constructor|]| |].
  - split; [done|]. intros Hf. by apply Forall_cons in Hf as [? _].
  - cbn. rewrite Forall_cons. rewrite <- IH. tauto.
Qed.

Definition keeps_leaf (stop : nat) (e : error) : Prop := e <> Stop stop.

#[export] Instance keeps_leaf_dec stop e : Decision (keeps_leaf stop e).
Proof.
  unfold keeps_leaf. destruct e as [f|id|]; [by left|destruct (decide (id = stop)) as [->|Hne]; [right; by intros []|left; congruence]|by left].
Defined.

#[local] Instance stop_dec stop (e : error) : Decision (e = Stop stop).
Proof. destruct e as [f|id|]; [by right|destruct (decide (id = stop)) as [->|Hne]; [by left|right; congruence]|by right]. Defined.

Lemma removeStop_leaves stop e : leaves_opt (removeStop stop e) = filter (keeps_leaf stop) (leaves e).
Proof.
  induction e as [f|id|e es IHe IHes] using error_ind_parts; cbn [removeStop leaves].
  - by rewrite filter_cons_True by done.
  - destruct (Nat.eqb_spec id stop) as [->|Hne]; [by rewrite filter_cons_False by (intros []; done)|by rewrite filter_cons_True by (unfold keeps_leaf; congruence)].
  - rewrite leaves_Join. cbn [fmap list_fmap]. rewrite filter_app. change (mjoin (?a :: ?l)) with (a ++ mjoin l). rewrite <- IHe. f_equal.
    clear IHe. induction IHes as [|e' es He _ IH]; [done|]. cbn [map fmap list_fmap]. change (mjoin (?a :: ?l)) with (a ++ mjoin l).
    by rewrite filter_app, <- IH, He.
Qed.

Lemma removeStop_none stop e : removeStop stop e = None <-> forall x, x ∈ leaves e -> x = Stop stop.
Proof.
  pose proof (removeStop_leaves stop e) as Hl. split.
  - intros E x Hx. rewrite E in Hl. cbn in Hl. destruct (decide (keeps_leaf stop x)) as [Hk|Hk].
    + assert (x ∈ filter (keeps_leaf stop) (leaves e)) as Hin by (by apply list_elem_of_filter). rewrite <- Hl in Hin. by apply not_elem_of_nil in Hin.
    + by apply dec_stable.
  - intros Hall. destruct (removeStop stop e) as [e'|]; [|done]. cbn in Hl. destruct (leaves e') as [|x l] eqn:Ee; [by destruct (leaves_not_nil e')|].
    assert (x ∈ filter (keeps_leaf stop) (leaves e)) as [Hk Hx]%list_elem_of_filter by (rewrite <- Hl; by left). by destruct Hk; apply Hall.
Qed.

Lemma removeStop_other stop e : Stop stop ∉ leaves e -> exists e', removeStop stop e = Some e' /\ leaves e' = leaves e.
Proof.
  intros Hn. pose proof (removeStop_leaves stop e) as Hl.
  assert (filter (keeps_leaf stop) (leaves e) = leaves e) as Ef.
  { clear Hl. induction (leaves e) as [|x l IH]; [done|]. rewrite filter_cons_True by (intros ->; apply Hn; by left). f_equal. apply IH. intros Hin. apply Hn. by right. }
  rewrite Ef in Hl. destruct (removeStop stop e) as [e'|]; [by exists e'|]. by destruct (leaves_not_nil e).
Qed.

(** *** Growing *)

Lemma grown_refl L : grown L L.
Proof. by left. Qed.

Lemma grown_trans L1 L2 L3 : grown L1 L2 -> grown L2 L3 -> grown L1 L3.
Proof. intros [->|(Hf & H12 & Hs)] [->|(Hf' & H23 & Hs')]; [by left|by right|by right|right; split_and!; [done|set_solver|auto]]. Qed.

Lemma grown_nostop L L' : grown L L' -> nostop L -> nostop L'.
Proof. intros [->|(_ & _ & Hs)] Hn; [done|]. intros id Hin. by apply (Hn id), Hs. Qed.

Lemma grown_more L L' : fails -> nostop L' -> grown L (L ++ L').
Proof. intros Hf Hn. right. split_and!; [done|set_solver|]. intros id [?|Hin]%elem_of_app; [done|]. by destruct (Hn id). Qed.

Section Failed.
Context {T S : Type} (rows : list T) (I : list T -> S -> Prop) (E : list error -> S -> Prop).

Lemma failed_grown L L' s : failed rows I E L s -> grown L L' -> failed rows I E L' s.
Proof.
  intros [(Hf & Hn & Hg)|(L0 & HE & Hg)] HL; [left; split_and!; [done|by eapply grown_nostop|done]|right]. exists L0. split; [done|by eapply grown_trans].
Qed.

Lemma failed_yield L s : E L s -> failed rows I E L s.
Proof. intros HE. right. exists L. split; [done|apply grown_refl]. Qed.

Lemma failed_mono (E' : list error -> S -> Prop) L s : (forall L s, E L s -> E' L s) -> failed rows I E L s -> failed rows I E' L s.
Proof. intros HE [?|(L' & HL & Hg)]; [by left|right]. exists L'. auto. Qed.

Lemma failed_own given L s : fails -> nostop L -> given `prefix_of` rows -> I given s -> failed rows I E L s.
Proof. intros Hf Hn Hp Hi. left. split_and!; [done..|by exists given]. Qed.

Lemma failed_old c L s : (forall L s, E L s -> old c L) -> failed rows I E L s -> old c L.
Proof.
  intros Ho [(_ & Hn & _)|(L' & HE & Hg)]; intros id Hin; [by destruct (Hn id)|]. destruct Hg as [->|(_ & _ & Hs)]; [by eapply Ho|eapply Ho; [done|by apply Hs]].
Qed.
End Failed.

Lemma nostop_fault f : nostop [Fault f].
Proof. intros id Hin. apply list_elem_of_singleton in Hin. done. Qed.

Lemma old_mono c c' L : (c <= c')%nat -> old c L -> old c' L.
Proof. intros Hc Ho id Hin. specialize (Ho id Hin). lia. Qed.

(** An operator over another one's rows and over more state. *)
Lemma failed_via {T T' S S'} (rows : list T) (rows' : list T') (J : list T -> S' -> Prop) (I : list T' -> S -> Prop) E (proj : S' -> S) L s :
  (forall given, given `prefix_of` rows -> J given s -> exists given', given' `prefix_of` rows' /\ I given' (proj s)) ->
  failed rows J (fun L s => failed rows' I E L (proj s)) L s -> failed rows' I E L (proj s).
Proof.
  intros Hg [(Hf & Hn & given & Hp & Hj)|(L' & Hl & HL)].
  - left. split_and!; [done..|by eapply Hg].
  - by eapply failed_grown.
Qed.

(** *** Outcomes *)

Context (ctx_err : nat -> option fault) (ctx_fails : forall n f, ctx_err n = Some f -> fails).

Lemma outcome_mono {S} c0 (Q Q' : S -> Prop) (F F' : list error -> S -> Prop) res :
  outcome c0 Q F res -> (forall s, Q s -> Q' s) -> (forall L s, F L s -> F' L s) -> outcome c0 Q' F' res.
Proof. destruct res as [[c s] [e|]]; intros [Hc H1] HQ HF; (split; [done|]); auto. Qed.

Lemma outcome_later {S} c0 c1 (Q : S -> Prop) (F : list error -> S -> Prop) res : (c0 <= c1)%nat -> outcome c1 Q F res -> outcome c0 Q F res.
Proof. destruct res as [[c s] e]. intros Hc [Hc' He]. split; [lia|done]. Qed.

Lemma outcome_andThen {S} c0 (m k : run S) c s (Q : S -> Prop) (F : list error -> S -> Prop) :
  outcome c0 (fun s => forall c, (c0 <= c)%nat -> outcome c0 Q F (k c s)) F (m c s) -> outcome c0 Q F (andThen m k c s).
Proof. unfold andThen. destruct (m c s) as [[c' s'] [e|]]; intros [Hc Hm]; [by split|by apply Hm]. Qed.

Lemma outcome_context {S} c (s : S) (Q : S -> Prop) (F : list error -> S -> Prop) :
  Q s -> (fails -> forall f, F [Fault f] s) -> outcome c Q F (context_err ctx_err c s).
Proof.
  intros HQ HF. split; [lia|]. destruct (ctx_err c) as [f|] eqn:Ec; cbn; [|done]. apply HF. by eapply ctx_fails.
Qed.

Lemma outcome_raise {S} c f (s : S) (Q : S -> Prop) (F : list error -> S -> Prop) : F [Fault f] s -> outcome c Q F (raise f c s).
Proof. by split. Qed.

(** *** Operators *)

(** One operator within another. *)
Lemma feeds_via {T T' S S'} (op : Operator T) rows (rows' : list T') (y : Yield T S') (J : list T -> S' -> Prop) (I : list T' -> S -> Prop) E (proj : S' -> S) c0 s0 :
  feeds op rows -> J [] s0 -> (forall L s, E L s -> old c0 L) ->
  (forall given s, given `prefix_of` rows -> J given s -> exists given', given' `prefix_of` rows' /\ I given' (proj s)) ->
  yields c0 rows y J (fun L s => failed rows' I E L (proj s)) ->
  outcome c0 (J rows) (fun L s => failed rows' I E L (proj s)) (op S' y c0 s0).
Proof.
  intros Hop Hj Ho Hg Hy. eapply outcome_mono; [apply (Hop S' y J (fun L s => failed rows' I E L (proj s)) c0 s0 Hj)|done|].
  - intros L s. by apply failed_old.
  - exact Hy.
  - intros L s. apply failed_via. intros given. by apply Hg.
Qed.

Lemma prefix_snoc {T} (given : list T) r rows : given ++ [r] `prefix_of` rows -> given `prefix_of` rows.
Proof. intros Hp. etrans; [|exact Hp]. by apply prefix_app_r. Qed.

Lemma prefix_elem {T} (given : list T) r rows : given ++ [r] `prefix_of` rows -> r ∈ rows.
Proof. intros [rest ->]. rewrite <- app_assoc. apply elem_app_r. by left. Qed.

Lemma feeds_outcome_context {T S} c (rows : list T) (I : list T -> S -> Prop) E given s (Q : S -> Prop) :
  given `prefix_of` rows -> I given s -> Q s -> outcome c Q (failed rows I E) (context_err ctx_err c s).
Proof. intros Hp Hi Hq. apply outcome_context; [done|]. intros Hf f. eapply failed_own; [done|apply nostop_fault|done..]. Qed.

Lemma yields_checked {T S} c0 (rows : list T) (y : Yield T S) I E :
  yields c0 rows y I E -> yields c0 rows (checked ctx_err y) I (failed rows I E).
Proof.
  intros Hy given r c s Hc Hp Hi. apply outcome_andThen. eapply (feeds_outcome_context c rows I E given); [by eapply prefix_snoc|done|].
  intros c' Hc'. apply (outcome_later c c'); [done|]. eapply outcome_mono; [apply Hy; [lia|done..]|done|]. intros L s'. apply failed_yield.
Qed.

Lemma yields_later {T S} c0 c1 (rows : list T) (y : Yield T S) I E : (c0 <= c1)%nat -> yields c0 rows y I E -> yields c1 rows y I E.
Proof. intros Hc Hy given r c s Hc'. apply Hy. lia. Qed.

Lemma feeds_Source {T} (f : Operator T) rows : feeds f rows -> feeds (Source ctx_err f) rows.
Proof.
  intros Hf S y I E c0 s Hi Ho Hy. apply outcome_andThen. eapply (feeds_outcome_context c0 rows I E []); [apply prefix_nil|done|].
  intros c Hc. apply (outcome_later c0 c); [done|]. apply (feeds_via f rows rows (checked ctx_err y) I I E id c s); [done..| | |].
  - intros L s'. intros He. apply (old_mono c0); [done|by eapply Ho].
  - intros given s' Hp Hi'. by exists given.
  - by apply yields_checked, (yields_later c0).
Qed.

Lemma outcome_result {A S} (r : result fault A) (k : A -> run S) c s (Q : S -> Prop) F :
  (forall a, r = Ok a -> outcome c Q F (k a c s)) -> (forall f, r = Err f -> F [Fault f] s) -> outcome c Q F (with_result r k c s).
Proof. destruct r as [a|f]; intros Ha Hf; [by apply Ha|]. by apply outcome_raise, Hf. Qed.

(** The rows of a result that succeeds. *)
Definition ok_rows {A B} (f : A -> result fault B) (rows : list A) : list B :=
  omap (fun a => match f a with Ok b => Some b | Err _ => None end) rows.

Lemma ok_rows_app {A B} (f : A -> result fault B) l k : ok_rows f (l ++ k) = ok_rows f l ++ ok_rows f k.
Proof. apply omap_app. Qed.

Lemma prefix_hom {A B} (h : list A -> list B) l k : (forall l k, h (l ++ k) = h l ++ h k) -> l `prefix_of` k -> h l `prefix_of` h k.
Proof. intros Hh [m ->]. rewrite Hh. by apply prefix_app_r. Qed.

Lemma feeds_Projection {A B} (input : Operator A) (project : A -> result fault B) rows :
  feeds input rows -> (forall a f, a ∈ rows -> project a = Err f -> fails) -> feeds (Projection input project) (ok_rows project rows).
Proof.
  intros Hin Hp S y I E c0 s Hi Ho Hy.
  apply (feeds_via input rows (ok_rows project rows) _ (fun given s => I (ok_rows project given) s) I E id c0 s); [done..| |].
  - intros given s' Hg Hi'. exists (ok_rows project given). split; [|done]. apply prefix_hom; [apply ok_rows_app|done].
  - intros given a c s' Hc Hg Hi'. assert (ok_rows project (given ++ [a]) `prefix_of` ok_rows project rows) as Hpre by (apply prefix_hom; [apply ok_rows_app|done]).
    apply outcome_result.
    + intros b Eb. assert (ok_rows project (given ++ [a]) = ok_rows project given ++ [b]) as Er by (rewrite ok_rows_app; unfold ok_rows at 2; cbn; by rewrite Eb).
      rewrite Er in *. eapply outcome_mono; [by apply Hy|done|]. intros L s''. apply failed_yield.
    + intros f Ef. apply (failed_own _ _ _ (ok_rows project given)); [|apply nostop_fault| |done].
      * eapply Hp; [by eapply prefix_elem|done].
      * etrans; [|exact Hpre]. rewrite ok_rows_app. by apply prefix_app_r.
Qed.

Definition says_true (r : result fault bool) : bool := match r with Ok ok => ok | Err _ => false end.

Definition ok_filter {T} (p : T -> result fault bool) (rows : list T) : list T := filter (fun r => says_true (p r)) rows.

Lemma feeds_Filter {T} (input : Operator T) (predicate : T -> result fault bool) rows :
  feeds input rows -> (forall r f, r ∈ rows -> predicate r = Err f -> fails) -> feeds (Filter input predicate) (ok_filter predicate rows).
Proof.
  intros Hin Hp S y I E c0 s Hi Ho Hy. set (h := ok_filter predicate).
  assert (forall l k, h (l ++ k) = h l ++ h k) as Happ by (intros; apply filter_app).
  apply (feeds_via input rows (h rows) _ (fun given s => I (h given) s) I E id c0 s); [done..| |].
  - intros given s' Hg Hi'. exists (h given). split; [by apply prefix_hom|done].
  - intros given r c s' Hc Hg Hi'. assert (h (given ++ [r]) `prefix_of` h rows) as Hpre by (by apply prefix_hom).
    apply outcome_result.
    + intros ok Eok. assert (h [r] = if ok then [r] else []) as Er by (unfold h, ok_filter, filter; cbn; rewrite Eok; by destruct ok).
      rewrite Happ, Er in *. destruct ok; [|split; [done|by rewrite app_nil_r]].
      eapply outcome_mono; [by apply Hy|done|]. intros L s''. apply failed_yield.
    + intros f Ef. apply (failed_own _ _ _ (h given)); [eapply Hp; [by eapply prefix_elem|done]|apply nostop_fault| |done].
      etrans; [|exact Hpre]. rewrite Happ. by apply prefix_app_r.
Qed.

(** An operator among others: the rows before and after it are given too. *)
Lemma feeds_part {T S} (op : Operator T) before rows after (y : Yield T S) I E c0 c s :
  feeds op rows -> (c0 <= c)%nat -> I before s -> (forall L s, E L s -> old c0 L) -> yields c0 (before ++ rows ++ after) y I E ->
  outcome c (I (before ++ rows)) (failed (before ++ rows ++ after) I E) (op S y c s).
Proof.
  intros Hop Hc Hi Ho Hy.
  apply (feeds_via op rows (before ++ rows ++ after) y (fun given s => I (before ++ given) s) I E id c s); [done|by rewrite app_nil_r| | |].
  - intros L s' He. apply (old_mono c0); [done|by eapply Ho].
  - intros given s' [rest ->] Hi'. exists (before ++ given). split; [|done]. apply prefix_app. rewrite <- app_assoc. by apply prefix_app_r.
  - intros given r c' s' Hc' [rest ->] Hi'. rewrite app_assoc. eapply outcome_mono; [apply Hy; [lia| |done]|done|intros L s''; apply failed_yield].
    rewrite <- !app_assoc. apply prefix_app, prefix_app. by apply prefix_app_r.
Qed.

Lemma feeds_Union {T} (inputs : list (Operator T)) (rowss : list (list T)) :
  Forall2 feeds inputs rowss -> feeds (Union ctx_err inputs) (mjoin rowss).
Proof.
  intros Hf S y I E c0 s Hi Ho Hy. unfold Union.
  assert (forall before c s, (c0 <= c)%nat -> I before s -> yields c0 (before ++ mjoin rowss) y I E ->
    outcome c (I (before ++ mjoin rowss)) (failed (before ++ mjoin rowss) I E) (union_runs ctx_err inputs y c s)) as Hgo.
  { clear Hy Hi. induction Hf as [|op rows inputs rowss Hop Hf IH]; intros before c s' Hc Hi Hy; cbn [union_runs].
    - change (mjoin []) with (@nil T) in *. rewrite app_nil_r. by eapply (feeds_outcome_context c before I E before).
    - change (mjoin (rows :: rowss)) with (rows ++ mjoin rowss) in *. apply outcome_andThen. eapply outcome_mono; [by apply (feeds_part op before rows (mjoin rowss) y I E c0)| |done].
      intros s'' Hi' c' Hc'. apply (outcome_later c c'); [done|]. rewrite app_assoc in *. apply IH; [lia|done..]. }
  apply (Hgo []); done.
Qed.


(** *** Sorters *)

(** What a sorter promises: rows it accepts come out in [order]. *)
Record sorter_ok {A B} (so : @Sorter fault A B) (accepts : A -> Prop) (order : list A -> list B) (holds : list A -> so_state so -> Prop) : Prop := {
  so_ok_New : forall c, match so_New so c with (c', inl t) => (c <= c')%nat /\ holds [] t | (c', inr _) => (c <= c')%nat /\ fails end;
  so_ok_Add : forall l a c t, accepts a -> holds l t -> outcome c (holds (l ++ [a])) (fun L _ => fails /\ nostop L) (so_Add so a c t);
  so_ok_Finish : forall l S (y : Yield B S) I E c0 s t, holds l t -> I [] s -> (forall L s, E L s -> old c0 L) -> yields c0 (order l) y I E ->
    outcome c0 (fun st => I (order l) st.1) (fun L st => failed (order l) I E L st.1) (so_Finish so S y c0 (s, t));
  so_ok_Close : forall c t, outcome c (fun _ => True) (fun L _ => fails /\ nostop L) (so_Close so c t)
}.

Lemma outcome_close {A S T} (so_close : run A) c0 c (t : A) (s : S) (e : option error) (rows : list T) (I : list T -> S -> Prop) E :
  (c0 <= c)%nat -> outcome c (fun _ => True) (fun L _ => fails /\ nostop L) (so_close c t) ->
  match e with None => I rows s | Some e => failed rows I E (leaves e) s end ->
  outcome c0 (I rows) (failed rows I E) (let '(c, _, e') := so_close c t in (c, s, Join [e; e'])).
Proof.
  intros Hc Hclose He. destruct (so_close c t) as [[c' t'] e']. destruct Hclose as [Hc' Hclose]. split; [lia|].
  destruct (Join [e; e']) as [j|] eqn:Ej.
  - assert (leaves j = leaves_opt e ++ leaves_opt e') as ->.
    { change (leaves_opt (Some j) = leaves_opt e ++ leaves_opt e'). rewrite <- Ej, leaves_Join. cbn. by rewrite app_nil_r. }
    destruct e as [e|], e' as [e'|]; cbn [leaves_opt]; [| | |done].
    + destruct Hclose. eapply failed_grown; [done|]. by apply grown_more.
    + by rewrite app_nil_r.
    + destruct Hclose. by eapply (failed_own _ _ _ rows).
  - apply Join_none in Ej. apply Forall_cons in Ej as [-> _]. done.
Qed.

Lemma feeds_sort_run {A B} (so : @Sorter fault A B) accepts order holds (input : Operator A) rows t {S} (y : Yield B S) I E c0 c s :
  sorter_ok so accepts order holds -> feeds input rows -> Forall accepts rows -> holds [] t -> (c0 <= c)%nat ->
  I [] s -> (forall L s, E L s -> old c0 L) -> yields c0 (order rows) y I E ->
  outcome c0 (I (order rows)) (failed (order rows) I E) (sort_run ctx_err so input t y c s).
Proof.
  intros Hso Hin Hacc Ht Hc Hi Ho Hy. unfold sort_run.
  assert (outcome c (holds rows) (failed rows holds (fun L _ => fails /\ nostop L)) (input (so_state so) (so_Add so) c t)) as Hadd.
  { apply (Hin (so_state so) (so_Add so) holds _ c t); [done| |].
    - intros L _ [_ Hn] id Hid. by destruct (Hn id).
    - intros given a c' t' _ Hp Ht'. apply (so_ok_Add _ _ _ _ Hso); [|done]. rewrite Forall_forall in Hacc. apply Hacc. by eapply prefix_elem. }
  destruct (input (so_state so) (so_Add so) c t) as [[c1 t1] e1]. destruct Hadd as [Hc1 Hadd]. destruct e1 as [e1|].
  - apply outcome_close; [lia|apply (so_ok_Close _ _ _ _ Hso)|].
    assert (fails /\ nostop (leaves e1)) as [Hf Hn] by (destruct Hadd as [(?&?&_)|(L' & [Hf Hn] & Hg)]; [done|split; [done|by eapply grown_nostop]]).
    by apply (failed_own _ _ _ []); [| |apply prefix_nil|].
  - pose proof (so_ok_Finish _ _ _ _ Hso rows S (checked ctx_err y) I (failed (order rows) I E) c1 s t1 Hadd Hi) as Hfin.
    destruct (so_Finish so S (checked ctx_err y) c1 (s, t1)) as [[c2 [s2 t2]] e2]. destruct Hfin as [Hc2 Hfin].
    + intros L s'. apply failed_old. intros L' s'' He. apply (old_mono c0); [lia|by eapply Ho].
    + apply yields_checked, (yields_later c0); [lia|done].
    + cbn [fst snd] in Hfin. apply outcome_close; [lia|apply (so_ok_Close _ _ _ _ Hso)|]. destruct e2 as [e2|]; [|done].
      change s2 with (id s2). apply (failed_via (order rows) (order rows) I I E id); [|done]. intros given Hp Hi'. by exists given.
Qed.

Lemma feeds_Sort {T} (so : @Sorter fault T T) accepts order holds (input : Operator T) rows :
  sorter_ok so accepts order holds -> feeds input rows -> Forall accepts rows -> feeds (Sort ctx_err input so) (order rows).
Proof.
  intros Hso Hin Hacc S y I E c0 s Hi Ho Hy. unfold Sort. pose proof (so_ok_New _ _ _ _ Hso c0) as Hn. destruct (so_New so c0) as [c [t|f]]; destruct Hn as [Hc Hn].
  - by eapply feeds_sort_run.
  - split; [done|]. apply (failed_own _ _ _ []); [done|apply nostop_fault|apply prefix_nil|done].
Qed.

Lemma feeds_Aggregate {A B} (so : @Sorter fault A B) accepts order holds (input : Operator A) rows :
  sorter_ok so accepts order holds -> feeds input rows -> Forall accepts rows -> feeds (Aggregate ctx_err input so) (order rows).
Proof.
  intros Hso Hin Hacc S y I E c0 s Hi Ho Hy. apply outcome_andThen. eapply (feeds_outcome_context c0 (order rows) I E []); [apply prefix_nil|done|].
  intros c1 Hc1. pose proof (so_ok_New _ _ _ _ Hso c1) as Hn. destruct (so_New so c1) as [c [t|f]]; destruct Hn as [Hc Hn].
  - eapply feeds_sort_run; try done. lia.
  - split; [lia|]. apply (failed_own _ _ _ []); [done|apply nostop_fault|apply prefix_nil|done].
Qed.

(** *** Limits *)

Definition limit_rows {T} (offset count : Z) (rows : list T) : list T :=
  let rest := drop (Z.to_nat offset) rows in
  if 0 <=? count then take (Z.to_nat count) rest else rest.

(** The page of [rows] is full: it does not change with more rows. *)
Definition page_full {T} (offset count : Z) (rows : list T) : bool :=
  (0 <=? count) && (count <=? Z.of_nat (length (limit_rows offset count rows))).

Lemma limit_rows_snoc {T} offset count (rows : list T) r :
  limit_rows offset count (rows ++ [r]) =
    if page_full offset count rows then limit_rows offset count rows
    else if Z.of_nat (length rows) <? offset then limit_rows offset count rows
    else limit_rows offset count rows ++ [r].
Proof.
  unfold page_full, limit_rows. destruct (Z.ltb_spec (Z.of_nat (length rows)) offset) as [L|L].
  - rewrite !drop_ge by (rewrite ?length_app; cbn; lia). by destruct (_ && _).
  - rewrite drop_app_le by lia. destruct (Z.leb_spec 0 count) as [Lc|Lc]; cbn [andb]; [|done].
    rewrite length_take, length_drop. destruct (Z.leb_spec count (Z.of_nat (Nat.min (Z.to_nat count) (length rows - Z.to_nat offset)))) as [Lp|Lp].
    + by rewrite take_app_le by (rewrite length_drop; lia).
    + rewrite !take_ge; [done|rewrite length_drop; lia|rewrite length_app, length_drop; cbn; lia].
Qed.

Lemma page_full_prefix {T} offset count (given rows : list T) :
  given `prefix_of` rows -> page_full offset count given = true -> limit_rows offset count rows = limit_rows offset count given.
Proof.
  intros [rest ->] Hf. induction rest as [|r rest IH] using rev_ind; [by rewrite app_nil_r|].
  rewrite app_assoc, limit_rows_snoc. assert (page_full offset count (given ++ rest) = true) as ->; [|done]. unfold page_full in *. by rewrite IH.
Qed.

Lemma limit_rows_prefix {T} offset count (given rows : list T) : given `prefix_of` rows -> limit_rows offset count given `prefix_of` limit_rows offset count rows.
Proof.
  intros [rest ->]. induction rest as [|r rest IH] using rev_ind; [by rewrite app_nil_r|]. rewrite app_assoc, limit_rows_snoc.
  destruct (page_full _ _ _); [done|]. destruct (_ <? _); [done|]. etrans; [exact IH|]. by apply prefix_app_r.
Qed.

Section Limited.
Context {T S : Type} (drain : bool) (offset count : Z) (rows : list T) (y : Yield T S) (I : list T -> S -> Prop) (E : list error -> S -> Prop).
Notation page := (limit_rows offset count).

(** The variables of the closure. *)
Definition counted (given : list T) (st : S * (Z * Z)) : Prop :=
  I (page given) st.1 /\ st.2.2 = Z.of_nat (length (page given)) /\ (st.2.1 = Z.min (Z.of_nat (length given)) (Z.max 0 offset) \/ page_full offset count given = true).

Definition stopped (stop : nat) (L : list error) (st : S * (Z * Z)) : Prop :=
  L = [Stop stop] /\ I (page rows) st.1 \/ failed (page rows) I E L st.1.

Lemma yields_limit c0 stop :
  yields c0 (page rows) y I E -> yields c0 rows (limit_row drain offset count stop y) counted (stopped stop).
Proof.
  intros Hy given r c [s [seen n]] Hc Hp (Hi & Hn & Hs). cbn [fst snd] in *. unfold limit_row.
  pose proof (limit_rows_snoc offset count given r) as Hsnoc. assert ((0 <=? count) && (count <=? n) = page_full offset count given) as -> by (by subst n).
  assert (page (given ++ [r]) `prefix_of` page rows) as Hpre by (by apply limit_rows_prefix).
  destruct (page_full offset count given) eqn:Ef.
  { split; [done|]. unfold counted. rewrite Hsnoc. split_and!; [done..|right]. unfold page_full in *. by rewrite Hsnoc. }
  destruct Hs as [->|]; [|done].
  assert (forall b : bool, Z.of_nat (length (given ++ [r])) = Z.of_nat (length given) + 1) as Hlen by (intros _; rewrite length_app; cbn; lia).
  destruct (Z.ltb_spec (Z.min (Z.of_nat (length given)) (Z.max 0 offset)) offset) as [L|L].
  { destruct (Z.ltb_spec (Z.of_nat (length given)) offset); [|lia]. split; [done|]. unfold counted. rewrite Hsnoc. split_and!; [done..|left; cbn; rewrite (Hlen true); lia]. }
  destruct (Z.ltb_spec (Z.of_nat (length given)) offset); [lia|].
  rewrite Hsnoc in Hpre. pose proof (Hy (page given) r c s Hc Hpre Hi) as Ho. destruct (y r c s) as [[c' s'] [e|]]; destruct Ho as [Hc' Ho].
  { split; [done|]. right. by apply failed_yield. }
  assert (counted (given ++ [r]) (s', (Z.min (Z.of_nat (length given)) (Z.max 0 offset), n + 1))) as Hcount.
  { unfold counted. rewrite Hsnoc. cbn [fst snd]. rewrite length_app. cbn. split_and!; [done|lia|left; rewrite (Hlen true); lia]. }
  assert ((0 <=? count) && (count <=? n + 1) = page_full offset count (given ++ [r])) as -> by (destruct Hcount as (_ & Hn' & _); cbn [fst snd] in Hn'; by rewrite Hn').
  destruct (page_full offset count (given ++ [r]) && negb drain) eqn:Ed; split; try done.
  left. split; [done|]. apply andb_prop in Ed as [Ed _]. cbn [fst]. rewrite (page_full_prefix offset count (given ++ [r]) rows), Hsnoc by done. exact Ho.
Qed.

Lemma stopped_removed c0 stop e st :
  (c0 <= stop)%nat -> (forall L s, E L s -> old c0 L) -> failed rows counted (stopped stop) (leaves e) st ->
  match removeStop stop e with None => I (page rows) st.1 | Some e => failed (page rows) I E (leaves e) st.1 end.
Proof.
  intros Hc Ho Hf. assert (forall L, failed (page rows) I E L st.1 -> Stop stop ∉ L) as Hother.
  { intros L HL Hin. pose proof (failed_old (page rows) I E c0 L st.1 Ho HL stop Hin). lia. }
  assert (failed (page rows) I E (leaves e) st.1 -> match removeStop stop e with None => I (page rows) st.1 | Some e => failed (page rows) I E (leaves e) st.1 end) as Hkeep.
  { intros HL. destruct (removeStop_other stop e (Hother _ HL)) as (e' & -> & ->). exact HL. }
  destruct Hf as [(Hf & Hn & given & Hp & Hi & _)|(L' & [[-> Hi]|HL] & Hg)].
  - apply Hkeep. apply (failed_own _ _ _ (page given)); [done..|by apply limit_rows_prefix|done].
  - destruct (removeStop stop e) as [e'|] eqn:Er; [|done].
    assert (leaves e' = filter (keeps_leaf stop) (leaves e)) as Hl by (by rewrite <- removeStop_leaves, Er).
    destruct Hg as [Hg|(Hf & _ & Hs)].
    + destruct (leaves_not_nil e'). rewrite Hl, Hg, filter_cons_False by (intros []; done). done.
    + apply (failed_own _ _ _ (page rows)); [done| |done|done]. intros id Hin. rewrite Hl in Hin. apply list_elem_of_filter in Hin as [Hk Hin].
      apply Hs, list_elem_of_singleton in Hin. by destruct Hk.
  - apply Hkeep. by eapply failed_grown.
Qed.
End Limited.

Lemma feeds_Limit {T} drain (input : Operator T) offset count rows :
  feeds input rows -> feeds (Limit ctx_err drain input offset count) (limit_rows offset count rows).
Proof.
  intros Hin S y I E c0 s Hi Ho Hy. apply outcome_andThen. eapply (feeds_outcome_context c0 _ I E []); [apply prefix_nil|done|].
  intros c Hc. destruct ((count =? 0) && negb drain) eqn:E0.
  { apply andb_prop in E0 as [->%Z.eqb_eq _]. by split. }
  cbv zeta.
  assert (limit_rows offset count [] = @nil T) as Enil by (unfold limit_rows; rewrite drop_nil, take_nil; by destruct (0 <=? count)).
  pose proof (Hin (S * (Z * Z))%type (limit_row drain offset count c y) (counted offset count I) (stopped offset count rows I E c) (c + 1)%nat (s, (0, 0))) as Hr.
  destruct (input (S * (Z * Z))%type _ (c + 1)%nat (s, (0, 0))) as [[c' [s' x]] e]. destruct Hr as [Hc' Hr].
  - split_and!; [by rewrite Enil|by rewrite Enil|left; cbn; lia].
  - intros L st [[-> _]|HL]; [intros id [= ->]%list_elem_of_singleton; lia|]. apply (old_mono c0); [lia|]. by eapply failed_old.
  - apply yields_limit, (yields_later c0); [lia|done].
  - split; [lia|]. destruct e as [e|]; [|by destruct Hr]. by apply (stopped_removed offset count rows I E c0 c e (s', x)).
Qed.

Lemma feeds_TopN {T} (so : @Sorter fault T T) accepts order holds (input : Operator T) offset count rows :
  sorter_ok so accepts order holds -> feeds input rows -> Forall accepts rows -> feeds (TopN ctx_err input so offset count) (limit_rows offset count (order rows)).
Proof. intros Hso Hin Hacc. apply feeds_Limit. by eapply feeds_Sort. Qed.

(** *** Joins *)

Section Joining.
Context {L R O : Type} (left : Operator L) (right : L -> result fault (Operator R)) (combine : L -> R -> O).
Context (predicate : option (O -> result fault bool)) (null_right : option (L -> O)).
Context (lefts : list L) (rights : L -> list R).
Context (right_feeds : forall l op, l ∈ lefts -> right l = Ok op -> feeds op (rights l)) (right_fails : forall l f, l ∈ lefts -> right l = Err f -> fails).
Context (predicate_fails : forall p row f, predicate = Some p -> p row = Err f -> fails).

Definition matches (l : L) (rs : list R) : list O :=
  match predicate with Some p => ok_filter p (combine l <$> rs) | None => combine l <$> rs end.

Definition joined (l : L) : list O :=
  match matches l (rights l), null_right with
  | [], Some null => [null l]
  | ms, _ => ms
  end.

Lemma matches_snoc l rs r :
  matches l (rs ++ [r]) = matches l rs ++ (if says_true (match predicate with Some p => p (combine l r) | None => Ok true end) then [combine l r] else []).
Proof.
  unfold matches. destruct predicate as [p|]; [|by rewrite fmap_app].
  unfold ok_filter. rewrite fmap_app, filter_app. f_equal. unfold filter. cbn. by destruct (says_true (p (combine l r))).
Qed.

Lemma matches_prefix l rs rs' : rs `prefix_of` rs' -> matches l rs `prefix_of` matches l rs'.
Proof.
  intros [rest ->]. induction rest as [|r rest IH] using rev_ind; [by rewrite app_nil_r|]. rewrite app_assoc, matches_snoc.
  etrans; [exact IH|]. by apply prefix_app_r.
Qed.

Lemma matches_joined l : matches l (rights l) `prefix_of` joined l.
Proof. unfold joined. destruct (matches l (rights l)), null_right; try done. apply prefix_nil. Qed.

Context {S : Type} (y : Yield O S) (I : list O -> S -> Prop) (E : list error -> S -> Prop) (c0 : nat).
Notation all := (mjoin (joined <$> lefts)).
Context (E_old : forall L s, E L s -> old c0 L) (y_yields : yields c0 all y I E).

(** The rows given while the right side of [l] runs, and the variable [matched]. *)
Definition matching (before : list O) (l : L) (rs : list R) (st : S * bool) : Prop :=
  I (before ++ matches l rs) st.1 /\ st.2 = negb (bool_decide (matches l rs = [])).

Lemma yields_right before after l c :
  (c0 <= c)%nat -> all = before ++ joined l ++ after ->
  yields c (rights l) (join_right combine predicate y l)
    (matching before l) (fun L st => failed all I E L st.1).
Proof.
  intros Hc Eall given r c' [s matched] Hc' Hp [Hi Hm]. cbn [fst snd] in *. pose proof (matches_snoc l given r) as Hsnoc.
  assert (before ++ matches l (given ++ [r]) `prefix_of` all) as Hpre.
  { rewrite Eall. apply prefix_app. etrans; [by apply matches_prefix|]. etrans; [apply matches_joined|]. by apply prefix_app_r. }
  apply outcome_result.
  - intros ok Eok. unfold matching. rewrite Hsnoc, Eok in *. cbn [says_true] in *. destruct ok.
    + rewrite app_assoc in Hpre. pose proof (y_yields (before ++ matches l given) (combine l r) c' s ltac:(lia) Hpre Hi) as Hy.
      unfold lift. destruct (y (combine l r) c' s) as [[c2 s2] [e|]]; destruct Hy as [Hc2 Hy]; (split; [done|]); cbn [fst snd].
      * by apply failed_yield.
      * rewrite app_assoc. split; [done|]. rewrite bool_decide_eq_false_2; [done|]. by destruct (matches l given).
    + rewrite app_nil_r in *. by split.
  - intros f Ef. destruct predicate as [p|] eqn:Ep; [|done]. apply (failed_own _ _ _ (before ++ matches l given)); [by eapply predicate_fails|apply nostop_fault| |done].
    etrans; [|exact Hpre]. rewrite Hsnoc. apply prefix_app. by apply prefix_app_r.
Qed.

Lemma yields_left :
  yields c0 lefts (join_left right combine predicate null_right y)
    (fun given s => I (mjoin (joined <$> given)) s) (failed all I E).
Proof.
  intros given l c s Hc Hp Hi. pose proof (prefix_elem given l lefts Hp) as Hl.
  assert (forall l k, mjoin (joined <$> (l ++ k)) = mjoin (joined <$> l) ++ mjoin (joined <$> k)) as Happ by (intros; by rewrite fmap_app, join_app).
  set (before := mjoin (joined <$> given)) in *. assert (exists after, all = before ++ joined l ++ after) as [after Eall].
  { destruct Hp as [rest Er]. exists (mjoin (joined <$> rest)). rewrite Er, !Happ. cbn. by rewrite app_nil_r, <- app_assoc. }
  assert (mjoin (joined <$> (given ++ [l])) = before ++ joined l) as -> by (rewrite Happ; cbn; by rewrite app_nil_r).
  apply outcome_result; [intros op Eop|intros f Ef; apply (failed_own _ _ _ before); [by eapply right_fails|apply nostop_fault|rewrite Eall; by apply prefix_app_r|done]].
  unfold with_local. assert (matches l [] = []) as Enil by (unfold matches, ok_filter; by destruct predicate).
  pose proof (feeds_via op (rights l) all (join_right combine predicate y l) (matching before l) I E fst c (s, false) (right_feeds l op Hl Eop)) as Hr.
  destruct (op (S * bool)%type _ c (s, false)) as [[c1 [s1 matched]] e]. destruct Hr as [Hc1 Hr].
  { unfold matching. rewrite Enil, app_nil_r. by split. }
  { intros L' s' He. apply (old_mono c0); [done|by eapply E_old]. }
  { intros g [s' m] Hg [Hi' _]. exists (before ++ matches l g). split; [|done]. rewrite Eall. apply prefix_app.
    etrans; [by apply matches_prefix|]. etrans; [apply matches_joined|]. by apply prefix_app_r. }
  { by eapply yields_right. }
  destruct e as [e|]; [by split|]. destruct Hr as [Hi1 Hm]. cbn [fst snd] in *.
  assert (joined l = matches l (rights l) \/ matches l (rights l) = [] /\ exists null, null_right = Some null /\ joined l = [null l]) as Hj.
  { unfold joined. destruct (matches l (rights l)), null_right as [null|]; try by left. right. split; [done|]. by exists null. }
  assert (joined l = matches l (rights l) -> outcome c (I (before ++ joined l)) (failed all I E) (c1, s1, None)) as Hsame by (intros ->; by split).
  destruct null_right as [null|] eqn:En; [|apply Hsame; destruct Hj as [|(_ & ? & ? & _)]; done].
  destruct matched; cbn [negb].
  - apply Hsame. destruct Hj as [|(Hm' & _)]; [done|]. by rewrite Hm' in Hm.
  - assert (matches l (rights l) = []) as Em by (by destruct (matches l (rights l))). rewrite Em, app_nil_r in Hi1.
    assert (joined l = [null l]) as Ej by (unfold joined; by rewrite Em, En). rewrite Ej. apply (outcome_later c c1); [done|].
    eapply outcome_mono; [apply y_yields; [lia| |done]|done|intros ? ?; apply failed_yield].
    rewrite Eall, Ej, app_assoc. by apply prefix_app_r.
Qed.
End Joining.

Lemma feeds_Join3 {L R O} (left : Operator L) (right : L -> result fault (Operator R)) (combine : L -> R -> O) predicate null_right lefts rights :
  feeds left lefts -> (forall l op, l ∈ lefts -> right l = Ok op -> feeds op (rights l)) -> (forall l f, l ∈ lefts -> right l = Err f -> fails) ->
  (forall p row f, predicate = Some p -> p row = Err f -> fails) ->
  feeds (Join3 left right combine predicate null_right) (mjoin (joined combine predicate null_right rights <$> lefts)).
Proof.
  intros Hl Hr Hrf Hpf S y I E c0 s Hi Ho Hy.
  apply (feeds_via left lefts (mjoin (joined combine predicate null_right rights <$> lefts)) _ (fun given s => I (mjoin (joined combine predicate null_right rights <$> given)) s) I E id c0 s); [done..| |].
  - intros given s' [rest ->] Hi'. eexists. split; [|exact Hi']. rewrite fmap_app, join_app. by apply prefix_app_r.
  - by apply yields_left.
Qed.

(** *** Rows at hand *)

Lemma yield_all_feeds {T S} c0 given rest (rows : list T) (y : Yield T S) I E c s :
  rows = given ++ rest -> (c0 <= c)%nat -> I given s -> yields c0 rows y I E ->
  outcome c (I rows) (failed rows I E) (yield_all ctx_err rest y c s).
Proof.
  intros Er Hc Hi Hy. revert given c s Er Hc Hi. induction rest as [|r rest IH]; intros given c s Er Hc Hi.
  { rewrite app_nil_r in Er. subst given. by split. }
  apply outcome_andThen. eapply outcome_mono; [apply (yields_checked c0 rows y I E Hy given)| |done]; [done| |done|].
  { rewrite Er. apply prefix_app. exists rest. done. }
  intros s' Hi' c' Hc'. apply (outcome_later c c'); [done|]. apply (IH (given ++ [r])); [by rewrite <- app_assoc|lia|done].
Qed.

Lemma feeds_Materialized {T} (rows : list T) : feeds (Materialized ctx_err rows) rows.
Proof.
  intros S y I E c0 s Hi Ho Hy. apply outcome_andThen. eapply (feeds_outcome_context c0 rows I E []); [apply prefix_nil|done|].
  intros c Hc. apply (outcome_later c0 c); [done|]. by apply (yield_all_feeds c0 []).
Qed.

Lemma feeds_Materialize {T Q} (input : Operator T) (clone : T -> T) (charge : T -> Q -> Q * option fault) account rows :
  feeds input rows -> (forall r q f, (charge r q).2 = Some f -> fails) -> feeds (Materialize ctx_err input clone charge account) (clone <$> rows).
Proof.
  intros Hin Hch S y I E c0 s Hi Ho Hy. unfold Materialize.
  match goal with |- context [input (Q * list T)%type ?f c0 (account, [])] =>
    pose proof (Hin (Q * list T)%type f (fun (given : list T) (st : Q * list T) => st.2 = @fmap list list_fmap T T clone given) (fun L _ => fails /\ nostop L) c0 (account, []) eq_refl) as Hr;
    destruct (input (Q * list T)%type f c0 (account, [])) as [[c [q kept]] e]; destruct Hr as [Hc Hr] end.
  - intros L _ [_ Hn] id Hid. by destruct (Hn id).
  - intros given r c' [q' kept'] Hc Hp Hk. cbn in Hk. pose proof (Hch r q') as Hf. destruct (charge r q') as [q'' [f|]]; (split; [done|]).
    + split; [by eapply Hf|apply nostop_fault].
    + cbn. rewrite Hk, fmap_app. done.
  - destruct e as [e|].
    + split; [done|]. assert (fails /\ nostop (leaves e)) as [Hf Hn] by (destruct Hr as [(?&?&_)|(L' & [Hf Hn] & Hg)]; [done|split; [done|by eapply grown_nostop]]).
      by apply (failed_own _ _ _ []); [| |apply prefix_nil|].
    + cbn in Hr. subst kept. apply (outcome_later c0 c); [done|]. by apply (yield_all_feeds c0 []).
Qed.

(** *** Collecting *)

Lemma feeds_collects {T} (op : Operator T) rows c :
  feeds op rows -> let '(_, given, e) := op (list T) collect c [] in given `prefix_of` rows /\ (e = None -> given = rows) /\ (e <> None -> fails).
Proof.
  intros Hop. pose proof (Hop (list T) collect (fun given st => st = given) (fun _ _ => False) c [] eq_refl) as Hr.
  destruct (op (list T) collect c []) as [[c' given] e]. destruct Hr as [_ Hr]; [done| |].
  { intros g r c1 s _ _ ->. by split. }
  destruct e as [e|]; [|by subst]. destruct Hr as [(Hf & _ & g & Hp & ->)|(L' & [] & _)]. by split_and!.
Qed.

(** *** A plan *)

(** C35: the plan of an ordered query over a join, with its condition and its page, hands on exactly the page of
    the ordered rows that satisfy the condition, where the rows are those of the nested-loop join in the
    order of its inputs and an unmatched left row of an outer join gives its one extended row; it asks no input for more
    once the page is full, and ends early only with an error of the consumer, with the parts of that
    error, or because something failed. *)
Theorem select_plan_exact {L R O} (left : Operator L) (right : L -> result fault (Operator R)) (combine : L -> R -> O)
    (on : option (O -> result fault bool)) (null_right : option (L -> O)) (where_ : O -> result fault bool)
    (so : @Sorter fault O O) (accepts : O -> Prop) (order : list O -> list O) (holds : list O -> so_state so -> Prop) (offset count : Z)
    (lefts : list L) (rights : L -> list R) :
  feeds left lefts -> (forall l op, l ∈ lefts -> right l = Ok op -> feeds op (rights l)) -> (forall l f, l ∈ lefts -> right l = Err f -> fails) ->
  (forall p row f, on = Some p -> p row = Err f -> fails) -> (forall row f, where_ row = Err f -> fails) ->
  sorter_ok so accepts order holds -> (forall row, accepts row) ->
  let plan := TopN ctx_err (Filter (Join3 (Source ctx_err left) right combine on null_right) where_) so offset count in
  let expected := limit_rows offset count (order (ok_filter where_ (mjoin (joined combine on null_right rights <$> lefts)))) in
  feeds plan expected /\
  forall c, let '(_, given, e) := plan (list O) collect c [] in given `prefix_of` expected /\ (e = None -> given = expected) /\ (e <> None -> fails).
Proof.
  intros Hl Hr Hrf Hon Hw Hso Hacc plan expected. assert (feeds plan expected) as Hp.
  { eapply feeds_TopN; [done| |by apply Forall_forall]. apply feeds_Filter; [|by eauto]. by apply feeds_Join3; [apply feeds_Source|..]. }
  split; [done|]. intros c. by apply feeds_collects.
Qed.
End Feeding.

(** ** A sorter in memory, for evaluation *)

Definition list_sorter {fault T} (less : T -> T -> bool) : @Sorter fault T T :=
  mkAccumulator T T (list T) (fun c => (c, inl [])) (fun r c l => (c, l ++ [r], None))
    (fun S y c '(s, l) => let '(c, s, e) := yield_all (fun _ => None) (sort_stable less l) y c s in (c, (s, []), e)) (fun c _ => (c, [], None)).

Lemma list_sorter_ok {fault T} (fails : Prop) (less : T -> T -> bool) :
  sorter_ok fails (@list_sorter fault T less) (fun _ => True) (sort_stable less) (fun l t => t = l).
Proof.
  split.
  - by intros c.
  - intros l a c t _ ->. by split.
  - intros l S y I E c0 s t -> Hi Ho Hy. cbn.
    assert (outcome c0 (I (sort_stable less l)) (failed fails (sort_stable less l) I E) (yield_all (fun _ => None) (sort_stable less l) y c0 s)) as Hr.
    { by eapply yield_all_feeds with (given := []) (c0 := c0). }
    by destruct (yield_all _ (sort_stable less l) y c0 s) as [[c s'] e].
  - by intros c t.
Qed.

(** Two left rows, one of which joins to two rows, and one that joins to none. *)
Lemma select_plan_exact_witness :
  let left : Operator Z := Materialized (fault := unit) (fun _ => None) [3; 1; 2] in
  let right : Z -> result unit (Operator Z) := fun l => Ok (Materialized (fun _ => None) (if l =? 2 then [] else [10 * l; 10 * l + 1])) in
  let plan := TopN (fun _ => None) (Filter (Join3 (Source (fun _ => None) left) right (fun l r => (l, Some r)) None (Some (fun l => (l, None)))) (fun row => Ok (negb (bool_decide (row.2 = Some 30)))))
    (list_sorter (fun a b => a.1 <? b.1)) 1 2 in
  (plan (list (Z * option Z)) collect 0%nat []).1.2 = [(1, Some 11); (2, None)] /\
  let expected := limit_rows 1 2 (sort_stable (fun a b => a.1 <? b.1) (ok_filter (fault := unit) (fun row => Ok (negb (bool_decide (row.2 = Some 30))))
    (mjoin (joined (fault := unit) (fun l r => (l, Some r)) None (Some (fun l => (l, None))) (fun l => if l =? 2 then [] else [10 * l; 10 * l + 1]) <$> [3; 1; 2])))) in
  feeds False plan expected /\
  forall c, let '(_, given, e) := plan (list (Z * option Z)) collect c [] in given `prefix_of` expected /\ (e = None -> given = expected) /\ (e <> None -> False).
Proof.
  intros left right plan. split; [by vm_compute|].
  apply (select_plan_exact False (fun _ => None)) with (accepts := fun _ => True) (holds := fun l t => t = l); try done.
  - by apply feeds_Materialized.
  - intros l op _ [= <-]. by apply feeds_Materialized.
  - apply list_sorter_ok.
Defined.
