(* ===== verification/Dedup.v ===== *)
(** * Deduplication: [physical/stable_dedup.go], [distinct.go], [target_dedup.go], [row_identity.go]

    Two bounded sorts find the first row of every key: the first brings the rows of a key together, the
    earliest of them first, and the second restores the order of the input. *)

From stdpp Require Import list sorting sets fin_sets.
From Stdlib Require Import Strings.Byte.
From S2P Require Import Prelude Physical PhysicalFacts.

(** ** Rows and identities *)

Record SortRow (T : Type) : Type := mkSortEntry { sk_Key : bytes; sk_Ordinal : Z; sk_Row : T }.
Arguments mkSortEntry {T}.
Arguments sk_Key {T}.
Arguments sk_Ordinal {T}.
Arguments sk_Row {T}.

(** A key that is [nil] and an empty key are told apart by nothing that is modelled. *)
Record RowIdentity : Type := mkIdentity { ri_TableID : bytes; ri_Key : bytes; ri_Valid : bool }.

Definition NewRowIdentity (tableID key : bytes) : RowIdentity := mkIdentity tableID key true.

Definition IsTarget (r : RowIdentity) : bool := ri_Valid r && (0 <? blen (ri_Key r)).

Definition StorageKey (r : RowIdentity) : option bytes :=
  if IsTarget r then Some (be_bytes 4 (blen (ri_TableID r) mod 2 ^ 32) ++ ri_TableID r ++ ri_Key r) else None.

Record keyedCandidate (T : Type) : Type := mkCandidate { kc_key : bytes; kc_row : option T }.
Arguments mkCandidate {T}.
Arguments kc_key {T}.
Arguments kc_row {T}.

Section Dedup.
Context {fault : Type} (ctx_err : nat -> option fault).
Notation error := (error fault).
Notation run := (@run fault).
Notation Yield := (@Yield fault).
Notation Operator := (@Operator fault).
Notation Sorter := (@Sorter fault).

(** ** The kernel *)

Section Kernel.
Context {T : Type} (input : Operator T) (include : option (T -> result fault bool)) (identity : T -> result fault bytes).
Context (newSort : bool -> Sorter (SortRow T) (SortRow T)).
Notation first_sorter := (newSort true).
Notation second_sorter := (newSort false).

(** The two sorters, whether they are open, and how often [Close] was called on each. *)
Record passes : Type := mkPasses {
  ps_first : so_state first_sorter;
  ps_second : so_state second_sorter;
  firstOpen : bool;
  secondOpen : bool;
  first_closes : nat;
  second_closes : nat
}.

Definition closeFirst : run passes := fun c p =>
  if firstOpen p then
    let '(c, t, e) := so_Close first_sorter c (ps_first p) in
    (c, mkPasses t (ps_second p) false (secondOpen p) (S (first_closes p)) (second_closes p), e)
  else (c, p, None).

Definition closeSecond : run passes := fun c p =>
  if secondOpen p then
    let '(c, t, e) := so_Close second_sorter c (ps_second p) in
    (c, mkPasses (ps_first p) t (firstOpen p) false (first_closes p) (S (second_closes p)), e)
  else (c, p, None).

(** [errors.Join(err, closeFirst(), closeSecond())] *)
Definition abandon (err : option error) : run passes := fun c p =>
  let '(c, p, e1) := closeFirst c p in
  let '(c, p, e2) := closeSecond c p in
  (c, p, Join [err; e1; e2]).

(** A row of the input, for the first pass; the variable [ordinal] is beside the sorter. *)
Definition first_row : Yield T (so_state first_sorter * Z) := fun row =>
  andThen (context_err ctx_err)
    (with_result (match include with Some f => f row | None => Ok true end) (fun keep =>
       if negb keep then nothing
       else
         with_result (identity row) (fun key c '(t, ordinal) =>
           let '(c, t, e) := so_Add first_sorter (mkSortEntry key ordinal row) c t in
           (c, (t, (ordinal + 1) mod 2 ^ 64), e)))).

(** A row of the first pass, for the second; the variables [previous] and [seen] are beside the sorter. *)
Definition leader_row : Yield (SortRow T) (so_state second_sorter * option bytes) := fun row =>
  andThen (context_err ctx_err) (fun c '(t, previous) =>
    if bool_decide (previous = Some (sk_Key row)) then (c, (t, previous), None)
    else
      let '(c, t, e) := so_Add second_sorter row c t in
      (c, (t, Some (sk_Key row)), e)).

(** The body, from the point where both sorters are open. *)
Definition dedup_body {S} (y : Yield (SortRow T) S) : run (S * passes) := fun c '(s, p) =>
  let '(c, (t, _), e) := input _ first_row c (ps_first p, 0) in
  let p := mkPasses t (ps_second p) (firstOpen p) (secondOpen p) (first_closes p) (second_closes p) in
  match e with
  | Some e => let '(c, p, e) := abandon (Some e) c p in (c, (s, p), e)
  | None =>
      let '(c, ((t2, _), t1), e) := so_Finish first_sorter _ leader_row c ((ps_second p, None), ps_first p) in
      let p := mkPasses t1 t2 (firstOpen p) (secondOpen p) (first_closes p) (second_closes p) in
      match e with
      | Some e => let '(c, p, e) := abandon (Some e) c p in (c, (s, p), e)
      | None =>
          let '(c, p, e) := closeFirst c p in
          match e with
          | Some e => let '(c, p, e') := closeSecond c p in (c, (s, p), Join [Some e; e'])
          | None =>
              let '(c, (s, t2), e) := so_Finish second_sorter _ (checked ctx_err y) c (s, ps_second p) in
              let p := mkPasses (ps_first p) t2 (firstOpen p) (secondOpen p) (first_closes p) (second_closes p) in
              match e with
              | Some e => let '(c, p, e') := closeSecond c p in (c, (s, p), Join [Some e; e'])
              | None => let '(c, p, e') := closeSecond c p in (c, (s, p), e')
              end
          end
      end
  end.

(** The deferred function, whose errors are dropped. *)
Definition deferred : run passes := fun c p =>
  let '(c, p) := if firstOpen p then let '(c, t, _) := so_Close first_sorter c (ps_first p) in
                   (c, mkPasses t (ps_second p) (firstOpen p) (secondOpen p) (S (first_closes p)) (second_closes p)) else (c, p) in
  let '(c, p) := if secondOpen p then let '(c, t, _) := so_Close second_sorter c (ps_second p) in
                   (c, mkPasses (ps_first p) t (firstOpen p) (secondOpen p) (first_closes p) (S (second_closes p))) else (c, p) in
  (c, p, None).

(** How the run ended, and how often each sorter that was made was closed ([None]: it was not made). *)
Definition dedup_closes {S} (y : Yield (SortRow T) S) (c : nat) (s : S) : nat * S * option error * (option nat * option nat) :=
  let '(c, s, e) := context_err ctx_err c s in
  match e with
  | Some e => (c, s, Some e, (None, None))
  | None =>
      match so_New first_sorter c with
      | (c, inr f) => (c, s, Some (Fault f), (None, None))
      | (c, inl t1) =>
          match so_New second_sorter c with
          | (c, inr f) =>
              let '(c, _, e) := so_Close first_sorter c t1 in
              (c, s, Join [Some (Fault f); e], (Some 1%nat, None))
          | (c, inl t2) =>
              let '(c, (s, p), e) := dedup_body y c (s, mkPasses t1 t2 true true 0 0) in
              let '(c, p, _) := deferred c p in
              (c, s, e, (Some (first_closes p), Some (second_closes p)))
          end
      end
  end.

Definition dedup : Operator (SortRow T) := fun S y c s => (dedup_closes y c s).1.
End Kernel.

(** ** The operators *)

(** [distinctSorter] hands the kernel's rows on as they are. *)
Definition Distinct {T} (input : Operator T) (key : T -> result fault bytes) (newSort : bool -> Sorter (SortRow T) (SortRow T)) : Operator T :=
  fun S y => dedup input None key newSort S (fun survivor => y (sk_Row survivor)).

(** [resolved.StorageKey()] of a candidate; [None]: the candidate is no target. *)
Definition target_key {T} (identity : T -> option RowIdentity) (row : T) : option bytes :=
  match identity row with Some resolved => StorageKey resolved | None => None end.

Definition keyed {T} (identity : T -> option RowIdentity) (row : T) : keyedCandidate T :=
  match target_key identity row with
  | Some key => mkCandidate key (Some row)
  | None => mkCandidate [] None
  end.

(** [candidateSorter]: the sorter holds the row itself. *)
Definition candidate_sorter {T} (so : Sorter (SortRow T) (SortRow T)) (zero : T) : Sorter (SortRow (keyedCandidate T)) (SortRow (keyedCandidate T)) :=
  mkAccumulator _ _ (so_state so) (so_New so)
    (fun row => so_Add so (mkSortEntry (sk_Key row) (sk_Ordinal row) (default zero (kc_row (sk_Row row)))))
    (fun S y => so_Finish so S (fun row => y (mkSortEntry (sk_Key row) (sk_Ordinal row) (mkCandidate (sk_Key row) (Some (sk_Row row))))))
    (so_Close so).

(** [zero] is the zero value of the row type. *)
Definition TargetRowDedup {T} (zero : T) (input : Operator T) (identity : T -> option RowIdentity) (newSort : bool -> Sorter (SortRow T) (SortRow T)) : Operator T :=
  fun S y =>
    dedup (Projection input (fun row => Ok (keyed identity row)))
      (Some (fun candidate => Ok (negb (bool_decide (kc_key candidate = []))))) (fun candidate => Ok (kc_key candidate))
      (fun byKey => candidate_sorter (newSort byKey) zero) S
      (fun survivor => y (default zero (kc_row (sk_Row survivor)))).
End Dedup.

(** ** Both sorters are closed once *)

Section Closing.
Context {fault : Type} (ctx_err : nat -> option fault) {T : Type} (input : @Operator fault T) (include : option (T -> result fault bool)).
Context (identity : T -> result fault bytes) (newSort : bool -> @Sorter fault (SortRow T) (SortRow T)).

(** A sorter is closed when it is no longer open. *)
Definition counted_closes (p : passes newSort) : Prop :=
  first_closes _ p = (if firstOpen _ p then 0 else 1)%nat /\ second_closes _ p = (if secondOpen _ p then 0 else 1)%nat.

Lemma closeFirst_counted c p : counted_closes p -> counted_closes (closeFirst newSort c p).1.2.
Proof.
  intros [H1 H2]. unfold closeFirst. destruct (firstOpen _ p) eqn:E; [|by split; cbn; rewrite ?E].
  destruct (so_Close _ c (ps_first _ p)) as [[c' t] e]. split; cbn; [lia|done].
Qed.

Lemma closeSecond_counted c p : counted_closes p -> counted_closes (closeSecond newSort c p).1.2.
Proof.
  intros [H1 H2]. unfold closeSecond. destruct (secondOpen _ p) eqn:E; [|by split; cbn; rewrite ?E].
  destruct (so_Close _ c (ps_second _ p)) as [[c' t] e]. split; cbn; [done|lia].
Qed.

Lemma abandon_counted e c p : counted_closes p -> counted_closes (abandon newSort e c p).1.2.
Proof.
  intros Hp. unfold abandon. pose proof (closeFirst_counted c p Hp) as H1. destruct (closeFirst newSort c p) as [[c1 p1] e1].
  pose proof (closeSecond_counted c1 p1 H1) as H2. by destruct (closeSecond newSort c1 p1) as [[c2 p2] e2].
Qed.

Lemma dedup_body_counted {S} (y : @Yield fault (SortRow T) S) c s p : counted_closes p -> counted_closes (dedup_body ctx_err input include identity newSort y c (s, p)).1.2.2.
Proof.
  intros Hp. unfold dedup_body. destruct (input _ _ c _) as [[c1 [t o]] [e|]].
  { match goal with |- context [abandon _ (Some e) c1 ?q] => pose proof (abandon_counted (Some e) c1 q Hp) as Ha; by destruct (abandon _ (Some e) c1 q) as [[? ?] ?] end. }
  destruct (so_Finish _ _ _ c1 _) as [[c2 [[t2 prev] t1]] [e|]].
  { match goal with |- context [abandon _ (Some e) c2 ?q] => pose proof (abandon_counted (Some e) c2 q Hp) as Ha; by destruct (abandon _ (Some e) c2 q) as [[? ?] ?] end. }
  match goal with |- context [closeFirst _ c2 ?q] => pose proof (closeFirst_counted c2 q Hp) as Ha; destruct (closeFirst _ c2 q) as [[c3 p3] [e|]] end; cbn [fst snd] in Ha.
  { pose proof (closeSecond_counted c3 p3 Ha) as Hb. by destruct (closeSecond newSort c3 p3) as [[? ?] ?]. }
  destruct (so_Finish _ _ _ c3 _) as [[c4 [s4 t4]] e4].
  assert (forall q, counted_closes q -> counted_closes (closeSecond newSort c4 q).1.2) as Hclose by (intros; by apply closeSecond_counted).
  match goal with |- context [closeSecond _ c4 ?q] => specialize (Hclose q Ha); destruct (closeSecond _ c4 q) as [[c5 p5] e5] end. by destruct e4.
Qed.

(** The sorters that are made: the second only after the first, and none once the context has ended. *)
Definition made (c : nat) : option nat * option nat :=
  match ctx_err c, so_New (newSort true) (c + 1) with
  | None, (c, inl _) => (Some 1%nat, match so_New (newSort false) c with (_, inl _) => Some 1%nat | _ => None end)
  | _, _ => (None, None)
  end.

(** whatever the input, the sorters and the callback do, and wherever the run ends, every sorter the
    deduplication has made is closed exactly once. *)
Theorem dedup_closes_once {S : Type} (y : @Yield fault (SortRow T) S) (c : nat) (s : S) :
  (dedup_closes ctx_err input include identity newSort y c s).2 = made c.
Proof.
  unfold dedup_closes, made, context_err. destruct (ctx_err c) as [f|]; [done|]. cbn [fmap option_fmap option_map].
  destruct (so_New (newSort true) (c + 1)) as [c1 [t1|f]]; [|done]. destruct (so_New (newSort false) c1) as [c2 [t2|f]]; [|by destruct (so_Close _ c2 t1) as [[? ?] ?]].
  pose proof (dedup_body_counted y c2 s (mkPasses newSort t1 t2 true true 0 0) (conj eq_refl eq_refl)) as Hp.
  destruct (dedup_body _ _ _ _ _ y c2 _) as [[c3 [s3 p3]] e3]. destruct Hp as [H1 H2]. cbn [fst snd] in *. unfold deferred.
  destruct (firstOpen _ p3), (secondOpen _ p3); cbn [ps_second ps_first];
    repeat match goal with |- context [so_Close ?a ?b ?d] => destruct (so_Close a b d) as [[? ?] ?] end; cbn; by rewrite H1, H2.
Qed.
End Closing.

(** ** First occurrences *)

Section Firsts.
Context {T : Type}.
Notation entry := (SortRow T).
Implicit Types (a b x : entry) (l es : list entry).

(** The rows of [l] whose key does not come before them. *)
Fixpoint first_entries (seen : list bytes) l : list entry :=
  match l with
  | [] => []
  | a :: l => if decide (sk_Key a ∈ seen) then first_entries seen l else a :: first_entries (sk_Key a :: seen) l
  end.

(** The first of every group of neighbours with one key. *)
Fixpoint leaders (previous : option bytes) l : list entry :=
  match l with
  | [] => []
  | a :: l => if bool_decide (previous = Some (sk_Key a)) then leaders previous l else a :: leaders (Some (sk_Key a)) l
  end.

(** The order of the sorter for a pass. *)
Definition entry_less (byKey : bool) a b : bool :=
  byKey && bltb (sk_Key a) (sk_Key b) || (negb byKey || bool_decide (sk_Key a = sk_Key b)) && (sk_Ordinal a <? sk_Ordinal b).

Definition order (byKey : bool) l : list entry := sort_stable (entry_less byKey) l.

Definition last_key (previous : option bytes) l : option bytes :=
  match last l with Some a => Some (sk_Key a) | None => previous end.

Lemma leaders_snoc previous l a :
  leaders previous (l ++ [a]) = leaders previous l ++ (if bool_decide (last_key previous l = Some (sk_Key a)) then [] else [a]).
Proof.
  revert previous. induction l as [|b l IH]; intros previous; [cbn; by destruct (bool_decide _)|].
  assert (forall p, last_key p (b :: l) = last_key (Some (sk_Key b)) l) as Hlast by (intros; unfold last_key; by rewrite last_cons; destruct (last l)).
  cbn [leaders app]. rewrite Hlast. case_bool_decide as E; [by rewrite E, IH|]. cbn [app]. by rewrite IH.
Qed.

Lemma last_key_snoc previous l a : last_key previous (l ++ [a]) = Some (sk_Key a).
Proof. unfold last_key. by rewrite last_snoc. Qed.

Lemma leaders_prefix previous l k : l `prefix_of` k -> leaders previous l `prefix_of` leaders previous k.
Proof.
  intros [rest ->]. induction rest as [|a rest IH] using rev_ind; [by rewrite app_nil_r|]. rewrite app_assoc, leaders_snoc. etrans; [exact IH|]. by apply prefix_app_r.
Qed.

Lemma leaders_sublist previous l : leaders previous l `sublist_of` l.
Proof. revert previous. induction l as [|a l IH]; intros previous; cbn; [constructor|]. case_bool_decide; by constructor. Qed.

Lemma first_entries_sublist seen l : first_entries seen l `sublist_of` l.
Proof. revert seen. induction l as [|a l IH]; intros seen; cbn; [constructor|]. case_decide; by constructor. Qed.

(** The earliest row of its key. *)
Definition earliest l a : Prop := forall b, b ∈ l -> sk_Key b = sk_Key a -> sk_Ordinal a <= sk_Ordinal b.

Definition in_sequence l : Prop := StronglySorted (fun a b => sk_Ordinal a < sk_Ordinal b) l.

Lemma first_entries_exact seen l x : in_sequence l -> x ∈ first_entries seen l <-> x ∈ l /\ sk_Key x ∉ seen /\ earliest l x.
Proof.
  intros Hs. revert seen. induction Hs as [|a l Hs IH Ha]; intros seen; cbn [first_entries].
  { split; [by intros ?%not_elem_of_nil|by intros (?%not_elem_of_nil & _)]. }
  rewrite Forall_forall in Ha. unfold earliest in *. case_decide as Hseen.
  - rewrite IH. split.
    + intros (Hx & Hk & He). split_and!; [by right|done|]. intros b [->|Hb]%elem_of_cons Heq; [congruence|by apply He].
    + intros ([->|Hx]%elem_of_cons & Hk & He); [done|]. split_and!; [done..|]. intros b Hb. apply He. by right.
  - rewrite elem_of_cons, IH. split.
    + intros [->|(Hx & Hk & He)].
      * split_and!; [by left|done|]. intros b [->|Hb]%elem_of_cons _; [lia|]. specialize (Ha b Hb). lia.
      * apply not_elem_of_cons in Hk as [Hk1 Hk2]. split_and!; [by right|done|]. intros b [->|Hb]%elem_of_cons Heq; [congruence|by apply He].
    + intros ([->|Hx]%elem_of_cons & Hk & He); [by left|right]. split_and!; [done| |].
      * apply not_elem_of_cons. split; [|done]. intros Heq. pose proof (He a ltac:(by left) (eq_sym Heq)). specialize (Ha x Hx). lia.
      * intros b Hb. apply He. by right.
Qed.

Definition grouped a b : Prop := blt (sk_Key a) (sk_Key b) \/ sk_Key a = sk_Key b /\ sk_Ordinal a < sk_Ordinal b.

Lemma leaders_exact previous l x :
  StronglySorted grouped l -> (forall k b, previous = Some k -> b ∈ l -> ble k (sk_Key b)) ->
  x ∈ leaders previous l <-> x ∈ l /\ previous <> Some (sk_Key x) /\ earliest l x.
Proof.
  intros Hs. revert previous. induction Hs as [|a l Hs IH Ha]; intros previous Hp; cbn [leaders].
  { split; [by intros ?%not_elem_of_nil|by intros (?%not_elem_of_nil & _)]. }
  rewrite Forall_forall in Ha. unfold earliest in *.
  assert (forall b, b ∈ l -> sk_Key a = sk_Key b -> sk_Ordinal a < sk_Ordinal b) as Hlt.
  { intros b Hb Heq. destruct (Ha b Hb) as [Hk|[_ ?]]; [|done]. rewrite Heq in Hk. by apply blt_irrefl in Hk. }
  assert (forall b, b ∈ l -> ble (sk_Key a) (sk_Key b)) as Hle.
  { intros b Hb. apply ble_lt_or_eq. destruct (Ha b Hb) as [?|[? _]]; auto. }
  case_bool_decide as E.
  - rewrite IH by (intros k b Hk Hb; apply Hp; [done|by right]). split.
    + intros (Hx & Hk & He). split_and!; [by right|done|]. intros b [->|Hb]%elem_of_cons Heq; [congruence|by apply He].
    + intros ([->|Hx]%elem_of_cons & Hk & He); [done|]. split_and!; [done..|]. intros b Hb. apply He. by right.
  - rewrite elem_of_cons, IH by (intros k b [= <-] Hb; by apply Hle). split.
    + intros [->|(Hx & Hk & He)].
      * split_and!; [by left|done|]. intros b [->|Hb]%elem_of_cons Heq; [lia|]. pose proof (Hlt b Hb (eq_sym Heq)). lia.
      * split_and!; [by right| |].
        -- intros ->. assert (sk_Key a = sk_Key x); [|congruence]. apply ble_antisym; [by apply Hle|]. apply (Hp _ a eq_refl). by left.
        -- intros b [->|Hb]%elem_of_cons Heq; [congruence|by apply He].
    + intros ([->|Hx]%elem_of_cons & Hk & He); [by left|right]. split_and!; [done| |].
      * intros [= Heq]. pose proof (He a ltac:(by left) Heq). pose proof (Hlt x Hx Heq). lia.
      * intros b Hb. apply He. by right.
Qed.

Lemma entry_less_spec byKey a b :
  entry_less byKey a b = true <-> if byKey then grouped a b else sk_Ordinal a < sk_Ordinal b.
Proof.
  unfold entry_less, grouped. destruct byKey; cbn; rewrite ?orb_true_iff, ?andb_true_iff, ?bltb_spec, ?bool_decide_eq_true, ?Z.ltb_lt; tauto.
Qed.

Lemma entry_less_asym byKey a b : entry_less byKey a b = true -> entry_less byKey b a = false.
Proof.
  rewrite <- not_true_iff_false, !entry_less_spec. destruct byKey; [|lia]. unfold grouped.
  intros [H1|[H1 H2]] [H3|[H3 H4]]; [exact (blt_irrefl _ (blt_trans _ _ _ H1 H3))|rewrite H3 in H1; by apply blt_irrefl in H1|rewrite H1 in H3; by apply blt_irrefl in H3|lia].
Qed.

Lemma entry_less_false byKey a b :
  entry_less byKey b a = false <-> if byKey then blt (sk_Key a) (sk_Key b) \/ sk_Key a = sk_Key b /\ sk_Ordinal a <= sk_Ordinal b else sk_Ordinal a <= sk_Ordinal b.
Proof.
  rewrite <- not_true_iff_false, entry_less_spec. destruct byKey; [|lia]. unfold grouped. pose proof (blt_irrefl (sk_Key a)) as Hi.
  destruct (blt_total (sk_Key a) (sk_Key b)) as [Hlt|[Heq|Hlt]].
  - split; [tauto|]. intros _ [H1|[H1 _]]; [by apply (blt_irrefl (sk_Key a)), (blt_trans _ (sk_Key b))|congruence].
  - split; [intros H1; right; split; [done|]|].
    + destruct (Z.le_gt_cases (sk_Ordinal a) (sk_Ordinal b)); [done|]. destruct H1. by right.
    + intros [H1|[_ H1]] [H2|[_ H2]]; [by rewrite Heq in Hi; rewrite Heq in H1; apply blt_irrefl in H1..|by rewrite Heq in H2; apply blt_irrefl in H2|lia].
  - split; [intros H1; destruct H1; by left|]. intros [H1|[H1 _]] _; [by apply (blt_irrefl (sk_Key a)), (blt_trans _ (sk_Key b))|congruence].
Qed.

Lemma order_sorted byKey l : StronglySorted (not_after (entry_less byKey)) (order byKey l).
Proof.
  apply sort_stable_sorted; [apply entry_less_asym|]. intros x y z. rewrite !entry_less_false. destruct byKey; [|lia].
  intros [H1|[H1 H2]] [H3|[H3 H4]]; [left; by apply (blt_trans _ (sk_Key y))|left; by rewrite <- H3|left; by rewrite H1|right; split; [congruence|lia]].
Qed.

Lemma order_perm byKey l : order byKey l ≡ₚ l.
Proof. apply sort_stable_perm. Qed.

Lemma in_sequence_NoDup l : in_sequence l -> NoDup (sk_Ordinal <$> l).
Proof.
  induction 1 as [|a l Hs IH Ha]; [constructor|]. cbn. constructor; [|done]. intros (b & Heq & Hb)%list_elem_of_fmap.
  rewrite Forall_forall in Ha. specialize (Ha b Hb). lia.
Qed.

Lemma ordinals_inj l a b : NoDup (sk_Ordinal <$> l) -> a ∈ l -> b ∈ l -> sk_Ordinal a = sk_Ordinal b -> a = b.
Proof.
  intros Hn [i Hi]%list_elem_of_lookup [j Hj]%list_elem_of_lookup Ho. assert (i = j) as ->; [|congruence].
  apply (NoDup_lookup _ i j (sk_Ordinal a) Hn); rewrite list_lookup_fmap, ?Hi, ?Hj; cbn; congruence.
Qed.

Lemma order_grouped l : NoDup (sk_Ordinal <$> l) -> StronglySorted grouped (order true l).
Proof.
  intros Hn. rewrite <- (order_perm true l) in Hn. pose proof (order_sorted true l) as Hs.
  induction Hs as [|a k Hs IH Ha]; [constructor|]. cbn in Hn. apply NoDup_cons in Hn as [Ha' Hn]. constructor; [by apply IH|].
  rewrite Forall_forall in *. intros b Hb. specialize (Ha b Hb). unfold not_after in Ha. apply entry_less_false in Ha as [?|[Hk Ho]]; [by left|right].
  split; [done|]. assert (sk_Ordinal a <> sk_Ordinal b); [|lia]. intros Heq. apply Ha'. rewrite Heq. by apply list_elem_of_fmap_2.
Qed.

Lemma sorted_impl (R R' : entry -> entry -> Prop) l : (forall a b, R a b -> R' a b) -> StronglySorted R l -> StronglySorted R' l.
Proof. intros HR. induction 1 as [|a l _ IH Ha]; constructor; [done|]. eapply Forall_impl; [exact Ha|]. auto. Qed.

Lemma entries_sublist_sorted (R : entry -> entry -> Prop) l k : l `sublist_of` k -> StronglySorted R k -> StronglySorted R l.
Proof.
  induction 1 as [|a l k Hl IH|a l k Hl IH]; intros Hs; [done| |]; apply StronglySorted_inv in Hs as [Hs Ha]; [|by apply IH].
  constructor; [by apply IH|]. rewrite Forall_forall in *. intros b Hb. apply Ha. by eapply elem_of_sublist.
Qed.

(** The two sorts of the kernel find the first rows. *)
Lemma two_sorts es : in_sequence es -> order false (leaders None (order true es)) = first_entries [] es.
Proof.
  intros Hs. pose proof (in_sequence_NoDup es Hs) as Hn. assert (NoDup es) as Hnd by (by eapply NoDup_fmap_1).
  assert (leaders None (order true es) ≡ₚ first_entries [] es) as Hp.
  { apply NoDup_Permutation.
    - eapply sublist_NoDup; [|apply leaders_sublist]. by rewrite order_perm.
    - by eapply sublist_NoDup; [|apply first_entries_sublist].
    - intros x. rewrite (leaders_exact None) by (done || by apply order_grouped). rewrite (first_entries_exact [] es x Hs).
      unfold earliest. setoid_rewrite order_perm. split; intros (H1 & H2 & H3); split_and!; try done. by intros ?%not_elem_of_nil. }
  apply (StronglySorted_unique_strong (fun a b => sk_Ordinal a <= sk_Ordinal b)).
  - intros a b Ha Hb H1 H2. rewrite order_perm, Hp in Ha. apply (ordinals_inj es); [done| | |lia]; (eapply elem_of_sublist; [|apply (first_entries_sublist [])]; done).
  - pose proof (order_sorted false (leaders None (order true es))) as Ho. eapply sorted_impl; [|exact Ho]. intros a b Hab. by apply entry_less_false in Hab.
  - pose proof (first_entries_sublist [] es) as Hsub. clear Hp Hn Hnd.
    assert (StronglySorted (fun a b => sk_Ordinal a <= sk_Ordinal b) es) as Hs' by (eapply sorted_impl; [|exact Hs]; intros a b; cbn; lia).
    by eapply entries_sublist_sorted.
  - by rewrite order_perm.
Qed.
End Firsts.

(** ** The rows the kernel hands on *)

Section Kernel_rows.
Context {fault : Type} (ctx_err : nat -> option fault) (fails : Prop) (ctx_fails : forall n f, ctx_err n = Some f -> fails).
Context {T : Type} (input : @Operator fault T) (include : option (T -> result fault bool)).
Context (identity : T -> result fault bytes) (newSort : bool -> @Sorter fault (SortRow T) (SortRow T)).
Context (accepts : SortRow T -> Prop) (holds : forall byKey, list (SortRow T) -> so_state (newSort byKey) -> Prop).
Context (sorters : forall byKey, sorter_ok fails (newSort byKey) accepts (order byKey) (holds byKey)).
Context (rows : list T) (input_feeds : feeds fails input rows) (rows_bound : Z.of_nat (length rows) < 2 ^ 64).
Context (include_fails : forall p r f, include = Some p -> r ∈ rows -> p r = Err f -> fails).
Context (identity_fails : forall r f, r ∈ rows -> identity r = Err f -> fails).

Definition key_of (r : T) : bytes := match identity r with Ok key => key | Err _ => [] end.

Definition included (l : list T) : list T := match include with Some p => ok_filter p l | None => l end.

Definition entries (l : list T) : list (SortRow T) := imap (fun i r => mkSortEntry (key_of r) (Z.of_nat i) r) l.

Context (entries_accepted : Forall accepts (entries (included rows))).

Lemma included_snoc l r : included (l ++ [r]) = included l ++ (if says_true (match include with Some f => f r | None => Ok true end) then [r] else []).
Proof.
  unfold included. destruct include as [p|]; [|done]. unfold ok_filter. rewrite filter_app. f_equal. unfold filter. cbn. by destruct (says_true (p r)).
Qed.

Lemma included_prefix l k : l `prefix_of` k -> included l `prefix_of` included k.
Proof.
  intros [rest ->]. induction rest as [|r rest IH] using rev_ind; [by rewrite app_nil_r|]. rewrite app_assoc, included_snoc. etrans; [exact IH|]. by apply prefix_app_r.
Qed.

Lemma included_length l : (length (included l) <= length l)%nat.
Proof. unfold included, ok_filter. destruct include; [apply length_filter|done]. Qed.

Lemma entries_snoc l r : entries (l ++ [r]) = entries l ++ [mkSortEntry (key_of r) (Z.of_nat (length l)) r].
Proof. unfold entries. rewrite imap_app. cbn. by rewrite Nat.add_0_r. Qed.

Lemma entries_prefix l k : l `prefix_of` k -> entries l `prefix_of` entries k.
Proof. intros [rest ->]. unfold entries. rewrite imap_app. by apply prefix_app_r. Qed.

Lemma entries_in_sequence l : in_sequence (entries l).
Proof.
  induction l as [|r l IH] using rev_ind; [constructor|]. rewrite entries_snoc. apply StronglySorted_app. split_and!; [|done|by repeat constructor].
  intros a b Ha ->%list_elem_of_singleton. unfold entries in Ha. apply list_elem_of_lookup in Ha as [i Hi]. rewrite list_lookup_imap in Hi.
  destruct (l !! i) eqn:E; [|done]. injection Hi as <-. cbn. apply lookup_lt_Some in E. lia.
Qed.

(** An error of the kernel's own. *)
Definition own {S} (L : list (error fault)) (_ : S) : Prop := fails /\ nostop L.

Lemma own_old {S} c L (s : S) : own L s -> old c L.
Proof. intros [_ Hn] id Hid. by destruct (Hn id). Qed.

Lemma failed_is_own {A S} (l : list A) (I : list A -> S -> Prop) L s : failed fails l I own L s -> own L s.
Proof. intros [(Hf & Hn & _)|(L' & [Hf Hn] & Hg)]; [done|]. split; [done|by eapply grown_nostop]. Qed.

(** *** The first pass *)

Definition first_holds (given : list T) (st : so_state (newSort true) * Z) : Prop :=
  holds true (entries (included given)) st.1 /\ st.2 = Z.of_nat (length (included given)).

Lemma first_yields c : yields c rows (first_row ctx_err include identity newSort) first_holds own.
Proof.
  intros given r c1 [t ordinal] Hc Hp [Ht Ho]. cbn [fst snd] in Ht, Ho. pose proof (prefix_elem given r rows Hp) as Hr.
  apply outcome_andThen, (outcome_context fails ctx_err ctx_fails); [|intros Hf f; split; [done|apply nostop_fault]].
  intros c2 Hc2. apply (outcome_later c1 c2); [done|]. unfold first_holds. rewrite included_snoc.
  apply outcome_result; [intros keep Ek; rewrite Ek|intros f Ef; split; [|apply nostop_fault]].
  2: { destruct include as [p|]; [|done]. by eapply include_fails. }
  destruct keep; cbn [negb says_true]; [|rewrite app_nil_r; by split].
  apply outcome_result; [intros key Ekey|intros f Ef; split; [by eapply identity_fails|apply nostop_fault]].
  assert (mkSortEntry key ordinal r = mkSortEntry (key_of r) (Z.of_nat (length (included given))) r) as -> by (unfold key_of; by rewrite Ekey, Ho).
  assert (accepts (mkSortEntry (key_of r) (Z.of_nat (length (included given))) r)) as Hacc.
  { rewrite Forall_forall in entries_accepted. apply entries_accepted. apply (prefix_elem (entries (included given))). rewrite <- entries_snoc.
    apply entries_prefix. pose proof (included_prefix _ _ Hp) as Hpre. rewrite included_snoc, Ek in Hpre. exact Hpre. }
  pose proof (so_ok_Add _ _ _ _ _ (sorters true) (entries (included given)) _ c2 t Hacc Ht) as Ha.
  destruct (so_Add (newSort true) _ c2 t) as [[c3 t3] [e|]]; destruct Ha as [Hc3 Ha]; (split; [done|]); [done|]. cbn [fst snd].
  split; [by rewrite entries_snoc|]. rewrite length_app, Ho. cbn.
  assert (Z.of_nat (length (included given)) < Z.of_nat (length rows)).
  { pose proof (included_length given). apply prefix_length in Hp. rewrite length_app in Hp. cbn in Hp. lia. }
  rewrite Z.mod_small; lia.
Qed.

(** *** The second pass *)

Notation es := (entries (included rows)).

Definition leader_holds (given : list (SortRow T)) (st : so_state (newSort false) * option bytes) : Prop :=
  holds false (leaders None given) st.1 /\ st.2 = last_key None given.

Lemma leader_yields c : yields c (order true es) (leader_row ctx_err newSort) leader_holds own.
Proof.
  intros given r c1 [t previous] Hc Hp [Ht Hprev]. cbn [fst snd] in Ht, Hprev.
  apply outcome_andThen, (outcome_context fails ctx_err ctx_fails); [|intros Hf f; split; [done|apply nostop_fault]].
  intros c2 Hc2. apply (outcome_later c1 c2); [done|]. unfold leader_holds. rewrite leaders_snoc, last_key_snoc, Hprev.
  case_bool_decide as E; [split; [done|]; rewrite app_nil_r; by split|].
  assert (accepts r) as Hacc.
  { rewrite Forall_forall in entries_accepted. apply entries_accepted. pose proof (prefix_elem given r _ Hp) as Hr. by rewrite order_perm in Hr. }
  pose proof (so_ok_Add _ _ _ _ _ (sorters false) (leaders None given) r c2 t Hacc Ht) as Ha.
  destruct (so_Add (newSort false) r c2 t) as [[c3 t3] [e|]]; destruct Ha as [Hc3 Ha]; by split.
Qed.

(** *** Closing *)

Lemma closeFirst_own c p : outcome c (fun p' => ps_second _ p' = ps_second _ p) own (closeFirst newSort c p).
Proof.
  unfold closeFirst. destruct (firstOpen _ p); [|by split]. pose proof (so_ok_Close _ _ _ _ _ (sorters true) c (ps_first _ p)) as Hc.
  destruct (so_Close _ c (ps_first _ p)) as [[c' t] [e|]]; destruct Hc as [Hc He]; by split.
Qed.

Lemma closeSecond_own c p : outcome c (fun _ => True) own (closeSecond newSort c p).
Proof.
  unfold closeSecond. destruct (secondOpen _ p); [|by split]. pose proof (so_ok_Close _ _ _ _ _ (sorters false) c (ps_second _ p)) as Hc.
  destruct (so_Close _ c (ps_second _ p)) as [[c' t] [e|]]; destruct Hc as [Hc He]; by split.
Qed.

Lemma own_Join {S} (errs : list (option (error fault))) (s : S) :
  fails -> Forall (fun e => nostop (leaves_opt e)) errs -> match Join errs with Some j => own (leaves j) s | None => Forall (fun e => e = None) errs end.
Proof.
  intros Hf Hn. pose proof (leaves_Join errs) as Hl. destruct (Join errs) as [j|] eqn:Ej; [|by apply Join_none]. cbn in Hl. split; [done|]. rewrite Hl.
  clear Ej Hl. intros id Hid. apply list_elem_of_join in Hid as (L & Hid & HL). apply list_elem_of_fmap in HL as (e & -> & He).
  rewrite Forall_forall in Hn. by apply (Hn e He id).
Qed.

Lemma nostop_nil : nostop (@nil (error fault)).
Proof. by intros id ?%not_elem_of_nil. Qed.

Lemma deferred_later c p : (c <= (deferred newSort c p).1.1)%nat.
Proof.
  unfold deferred. pose proof (so_ok_Close _ _ _ _ _ (sorters true) c (ps_first _ p)) as H1.
  destruct (firstOpen _ p); [destruct (so_Close _ c (ps_first _ p)) as [[c1 t1] e1]; destruct H1 as [H1 _]|];
    cbn [secondOpen ps_second]; (destruct (secondOpen _ p); [|cbn; lia]).
  - pose proof (so_ok_Close _ _ _ _ _ (sorters false) c1 (ps_second _ p)) as H2. destruct (so_Close _ c1 (ps_second _ p)) as [[c2 t2] e2]. destruct H2 as [H2 _]. cbn. lia.
  - pose proof (so_ok_Close _ _ _ _ _ (sorters false) c (ps_second _ p)) as H2. destruct (so_Close _ c (ps_second _ p)) as [[c2 t2] e2]. destruct H2 as [H2 _]. cbn. lia.
Qed.

Lemma abandon_own {S} e c p (s : S) : own (leaves e) s -> let '(c', p', e') := abandon newSort (Some e) c p in (c <= c')%nat /\ match e' with Some e' => own (leaves e') s | None => False end.
Proof.
  intros [Hf Hn]. unfold abandon. pose proof (closeFirst_own c p) as H1. destruct (closeFirst newSort c p) as [[c1 p1] e1]. destruct H1 as [Hc1 H1].
  pose proof (closeSecond_own c1 p1) as H2. destruct (closeSecond newSort c1 p1) as [[c2 p2] e2]. destruct H2 as [Hc2 H2]. split; [lia|].
  pose proof (own_Join [Some e; e1; e2] s Hf) as Hj. destruct (Join [Some e; e1; e2]) as [j|] eqn:Ej.
  - apply Hj. rewrite !Forall_cons. split_and!; [exact Hn|destruct e1; [by destruct H1|exact nostop_nil]|destruct e2; [by destruct H2|exact nostop_nil]|constructor].
  - by apply Join_none, Forall_cons in Ej as [? _].
Qed.

(** A failed step, whose rows were not handed on. *)
Lemma own_failed {A S} (l : list A) (I : list A -> S -> Prop) E L (s : S) : I [] s -> own L s -> failed fails l I E L s.
Proof. intros Hi [Hf Hn]. apply (failed_own _ _ _ _ []); [done..|apply prefix_nil|done]. Qed.

(** *** The whole *)

Lemma close_after {S} (p : passes newSort) c (s : S) (l : list (SortRow T)) (I : list (SortRow T) -> S -> Prop) E (e : option (error fault)) :
  match e with None => I l s | Some e => failed fails l I E (leaves e) s end ->
  let '(c', p', e') := closeSecond newSort c p in
  (c <= c')%nat /\ match match e with Some e => Join [Some e; e'] | None => e' end with None => I l s | Some j => failed fails l I E (leaves j) s end.
Proof.
  intros He. pose proof (closeSecond_own c p) as Hc. destruct (closeSecond newSort c p) as [[c' p'] e']. destruct Hc as [Hc Hc']. split; [done|].
  destruct e as [e|].
  - destruct (Join [Some e; e']) as [j|] eqn:Ej; [|by apply Join_none, Forall_cons in Ej as [? _]].
    assert (leaves j = leaves e ++ leaves_opt e') as ->.
    { change (leaves_opt (Some j) = leaves e ++ leaves_opt e'). rewrite <- Ej, leaves_Join. cbn. by rewrite app_nil_r. }
    destruct e' as [e'|]; cbn [leaves_opt]; [|by rewrite app_nil_r]. destruct Hc'. apply (failed_grown fails l I E (leaves e)); [done|]. by apply grown_more.
  - destruct e' as [e'|]; [|done]. destruct Hc'. by apply (failed_own _ _ _ _ l).
Qed.

Lemma dedup_body_feeds {S} (y : @Yield fault (SortRow T) S) I E c0 c s t1 t2 :
  (c0 <= c)%nat -> I [] s -> (forall L s, E L s -> old c0 L) -> yields c0 (first_entries [] es) y I E -> holds true [] t1 -> holds false [] t2 ->
  outcome c (fun st => I (first_entries [] es) st.1) (fun L st => failed fails (first_entries [] es) I E L st.1)
    (dedup_body ctx_err input include identity newSort y c (s, mkPasses newSort t1 t2 true true 0 0)).
Proof.
  intros Hc0 Hi Ho Hy Ht1 Ht2. unfold dedup_body.
  pose proof (input_feeds _ (first_row ctx_err include identity newSort) first_holds own c (t1, 0)) as H1. cbn [ps_first].
  destruct (input _ _ c (t1, 0)) as [[c1 [t o]] e]. destruct H1 as [Hc1 H1].
  { unfold first_holds. replace (included []) with (@nil T) by (unfold included; by destruct include). by split. }
  { intros L st. apply own_old. }
  { apply first_yields. }
  destruct e as [e|].
  { apply failed_is_own in H1. match goal with |- context [abandon _ (Some e) c1 ?q] => pose proof (abandon_own e c1 q s H1) as Ha; destruct (abandon _ (Some e) c1 q) as [[c2 p2] e2] end.
    destruct Ha as [Hc2 Ha]. split; [lia|]. destruct e2 as [e2|]; [|done]. by apply own_failed. }
  destruct H1 as [H1 _]. cbn [fst] in H1.
  pose proof (so_ok_Finish _ _ _ _ _ (sorters true) es _ (leader_row ctx_err newSort) leader_holds own c1 (t2, None) t H1) as H2. cbn [ps_second].
  destruct (so_Finish (newSort true) _ _ c1 (t2, None, t)) as [[c2 [[t2' prev] t1']] e]. destruct H2 as [Hc2 H2].
  { by split. }
  { intros L st. apply own_old. }
  { apply leader_yields. }
  cbn [fst] in H2. destruct e as [e|].
  { apply failed_is_own in H2. match goal with |- context [abandon _ (Some e) c2 ?q] => pose proof (abandon_own e c2 q s H2) as Ha; destruct (abandon _ (Some e) c2 q) as [[c3 p3] e3] end.
    destruct Ha as [Hc3 Ha]. split; [lia|]. destruct e3 as [e3|]; [|done]. by apply own_failed. }
  destruct H2 as [H2 _]. cbn [fst firstOpen secondOpen first_closes second_closes] in *.
  match goal with |- context [closeFirst _ c2 ?q] => pose proof (closeFirst_own c2 q) as H3; destruct (closeFirst _ c2 q) as [[c3 p3] e3] end. destruct H3 as [Hc3 H3].
  destruct e3 as [e3|].
  { pose proof (close_after p3 c3 s (first_entries [] es) I E (Some e3)) as H4. destruct (closeSecond newSort c3 p3) as [[c4 p4] e4].
    destruct H4 as [Hc4 H4]; [by apply own_failed|]. split; [lia|exact H4]. }
  cbn [ps_second] in H3. rewrite H3.
  pose proof (so_ok_Finish _ _ _ _ _ (sorters false) (leaders None (order true es)) S (checked ctx_err y) I (failed fails (first_entries [] es) I E) c3 s t2' H2 Hi) as H4.
  rewrite (two_sorts es (entries_in_sequence _)) in H4.
  destruct (so_Finish (newSort false) S _ c3 (s, t2')) as [[c4 [s4 t4]] e]. destruct H4 as [Hc4 H4].
  { intros L st. apply failed_old. intros L' st' HE. apply (old_mono c0); [lia|by eapply Ho]. }
  { apply (yields_checked fails ctx_err ctx_fails). apply (yields_later c0); [lia|done]. }
  cbn [fst] in H4. match goal with |- context [closeSecond _ c4 ?q] => pose proof (close_after q c4 s4 (first_entries [] es) I E e) as H5; destruct (closeSecond _ c4 q) as [[c5 p5] e5] end.
  assert (match e with None => I (first_entries [] es) s4 | Some e => failed fails (first_entries [] es) I E (leaves e) s4 end) as H6.
  { destruct e as [e|]; [|done]. apply (failed_via fails _ (first_entries [] es) I I E id) in H4; [done|]. intros given Hp HI. by exists given. }
  destruct (H5 H6) as [Hc5 H7]. destruct e as [e|]; (split; [lia|exact H7]).
Qed.

Lemma feeds_dedup : feeds fails (dedup ctx_err input include identity newSort) (first_entries [] es).
Proof.
  intros S y I E c0 s Hi Ho Hy. unfold dedup, dedup_closes, context_err.
  destruct (ctx_err c0) as [f|] eqn:Ec; cbn [fmap option_fmap option_map].
  { split; [lia|]. apply own_failed; [done|]. split; [by eapply ctx_fails|apply nostop_fault]. }
  pose proof (so_ok_New _ _ _ _ _ (sorters true) (c0 + 1)%nat) as H1. destruct (so_New (newSort true) (c0 + 1)) as [c1 [t1|f]]; destruct H1 as [Hc1 H1].
  2: { split; [lia|]. apply own_failed; [done|]. split; [done|apply nostop_fault]. }
  pose proof (so_ok_New _ _ _ _ _ (sorters false) c1) as H2. destruct (so_New (newSort false) c1) as [c2 [t2|f]]; destruct H2 as [Hc2 H2].
  2: { pose proof (so_ok_Close _ _ _ _ _ (sorters true) c1 t1) as H3.
       pose proof (so_ok_Close _ _ _ _ _ (sorters true) c2 t1) as H4. destruct (so_Close _ c2 t1) as [[c3 t3] e]. destruct H4 as [Hc3 H4]. split; [lia|].
       pose proof (own_Join [Some (Fault f); e] s H2) as Hj. destruct (Join [Some (Fault f); e]) as [j|] eqn:Ej; [|by apply Join_none, Forall_cons in Ej as [? _]].
       apply own_failed; [done|]. apply Hj. rewrite !Forall_cons. split_and!; [apply nostop_fault|destruct e; [by destruct H4|exact nostop_nil]|constructor]. }
  pose proof (dedup_body_feeds y I E c0 c2 s t1 t2 ltac:(lia) Hi Ho Hy H1 H2) as H3.
  destruct (dedup_body _ _ _ _ _ y c2 _) as [[c3 [s3 p3]] e3]. destruct H3 as [Hc3 H3].
  destruct (deferred newSort c3 p3) as [[c4 p4] e4] eqn:Ed. cbn [fst].
  pose proof (deferred_later c3 p3) as Hc4. rewrite Ed in Hc4. cbn in Hc4. split; [lia|exact H3].
Qed.
End Kernel_rows.

(** ** The operators *)

(** The rows of [l] whose key does not come before them. *)
Fixpoint firsts {T K} `{EqDecision K} (key : T -> K) (seen : list K) (l : list T) : list T :=
  match l with
  | [] => []
  | r :: l => if decide (key r ∈ seen) then firsts key seen l else r :: firsts key (key r :: seen) l
  end.

Lemma firsts_entries {T} (key : T -> bytes) seen (l : list (SortRow T)) :
  (forall a, a ∈ l -> sk_Key a = key (sk_Row a)) -> sk_Row <$> first_entries seen l = firsts key seen (sk_Row <$> l).
Proof.
  revert seen. induction l as [|a l IH]; intros seen Hk; [done|]. cbn [first_entries firsts fmap list_fmap].
  rewrite <- (Hk a ltac:(by left)). case_decide; [|cbn [fmap list_fmap]; f_equal]; apply IH; intros b Hb; apply Hk; by right.
Qed.

(** Two keys that tell the same rows apart. *)
Lemma firsts_same {T K K'} `{EqDecision K} `{EqDecision K'} (key : T -> K) (key' : T -> K') (before l : list T) :
  (forall a b, a ∈ before ++ l -> b ∈ before ++ l -> key a = key b <-> key' a = key' b) -> firsts key (key <$> before) l = firsts key' (key' <$> before) l.
Proof.
  revert before. induction l as [|r l IH]; intros before Hk; [done|]. cbn [firsts].
  assert (key r ∈ key <$> before <-> key' r ∈ key' <$> before) as Hin.
  { rewrite !list_elem_of_fmap. split; intros (a & Heq & Ha); exists a; (split; [|done]); (apply (Hk r a); [set_solver|set_solver|done]). }
  destruct (decide (key r ∈ key <$> before)) as [H1|H1], (decide (key' r ∈ key' <$> before)) as [H2|H2]; [|tauto..|].
  - apply IH. intros a b Ha Hb. apply Hk; set_solver.
  - f_equal. apply (IH (r :: before)). intros a b Ha Hb. apply Hk; set_solver.
Qed.

Lemma feeds_map {fault T B} (fails : Prop) (op : @Operator fault T) (f : T -> B) rows :
  feeds fails op rows -> feeds fails (fun S y => op S (fun r => y (f r))) (f <$> rows).
Proof.
  intros Hop S y I E c0 s Hi Ho Hy.
  apply (feeds_via fails op rows (f <$> rows) _ (fun given s => I (f <$> given) s) I E id c0 s); [done..| |].
  - intros given s' [rest ->] Hi'. exists (f <$> given). split; [|done]. rewrite fmap_app. by apply prefix_app_r.
  - intros given r c s' Hc [rest ->] Hi'. eapply outcome_mono; [apply (Hy (f <$> given)); [done| |done]| |].
    + exists (f <$> rest). by rewrite !fmap_app.
    + intros s''. by rewrite fmap_app.
    + intros L s''. apply failed_yield.
Qed.

Lemma entries_rows {fault T} (identity : T -> result fault bytes) l : sk_Row <$> entries identity l = l.
Proof. unfold entries. rewrite fmap_imap. apply list_eq. intros i. rewrite list_lookup_imap. cbn. by destruct (l !! i). Qed.

Lemma entries_key {fault T} (identity : T -> result fault bytes) l a : a ∈ entries identity l -> sk_Key a = key_of identity (sk_Row a).
Proof.
  intros [i Hi]%list_elem_of_lookup. unfold entries in Hi. rewrite list_lookup_imap in Hi. destruct (l !! i); [|done]. by injection Hi as <-.
Qed.

(** *** The identity of a row *)

Definition target (r : RowIdentity) : option (bytes * bytes) := if IsTarget r then Some (ri_TableID r, ri_Key r) else None.

Lemma StorageKey_exact r r' :
  blen (ri_TableID r) < 2 ^ 32 -> blen (ri_TableID r') < 2 ^ 32 -> StorageKey r = StorageKey r' <-> target r = target r'.
Proof.
  intros Hr Hr'. unfold StorageKey, target. destruct (IsTarget r), (IsTarget r'); [|done..].
  split; [intros Heq%(inj Some)|by intros [= -> ->]]. unfold blen in *.
  apply app_inj_1 in Heq as [Hlen Heq]; [|by rewrite !length_be_bytes].
  apply (f_equal be_val) in Hlen. rewrite !be_val_bytes in Hlen. change (256 ^ Z.of_nat 4) with (2 ^ 32) in Hlen. rewrite !Z.mod_mod, !Z.mod_small in Hlen by lia.
  apply app_inj_1 in Heq as [-> ->]; [done|]. lia.
Qed.

Section Targets.
Context {fault : Type} (ctx_err : nat -> option fault) (fails : Prop) (ctx_fails : forall n f, ctx_err n = Some f -> fails) {T : Type} (zero : T).

(** *** The sorter of candidates *)

Definition strip (e : SortRow (keyedCandidate T)) : SortRow T := mkSortEntry (sk_Key e) (sk_Ordinal e) (default zero (kc_row (sk_Row e))).

Definition wrap (e : SortRow T) : SortRow (keyedCandidate T) := mkSortEntry (sk_Key e) (sk_Ordinal e) (mkCandidate (sk_Key e) (Some (sk_Row e))).

Lemma order_wrap byKey l : order byKey (wrap <$> l) = wrap <$> order byKey l.
Proof. symmetry. by apply sort_stable_fmap. Qed.

Lemma candidate_sorter_ok (so : @Sorter fault (SortRow T) (SortRow T)) accepts byKey holds :
  sorter_ok fails so accepts (order byKey) holds ->
  sorter_ok fails (candidate_sorter so zero) (fun e => accepts (strip e) /\ wrap (strip e) = e) (order byKey)
    (fun l t => holds (strip <$> l) t /\ wrap <$> (strip <$> l) = l).
Proof.
  intros [Hnew Hadd Hfin Hclose]. split.
  - intros c. specialize (Hnew c). cbn. destruct (so_New so c) as [c' [t|f]]; [|done]. destruct Hnew. by split_and!.
  - intros l a c t [Ha Hw] [Ht Hl]. pose proof (Hadd (strip <$> l) (strip a) c t Ha Ht) as H1. cbn. destruct (so_Add so _ c t) as [[c' t'] [e|]]; destruct H1 as [Hc H1]; (split; [done|]); [done|].
    rewrite !fmap_app. split; [done|]. cbn. rewrite Hl, Hw. done.
  - intros l S y I E c0 s t [Ht Hl] Hi Ho Hy. rewrite <- Hl, order_wrap in *.
    eapply outcome_mono; [apply (Hfin (strip <$> l) S (fun row => y (wrap row)) (fun given s => I (wrap <$> given) s) E c0 s t); [by rewrite <- Hl|done..|]| |].
    + intros given r c s' Hc [rest Hr] Hi'. rewrite fmap_app. apply Hy; [done| |done]. exists (wrap <$> rest). by rewrite Hr, !fmap_app.
    + intros st. by rewrite <- Hl.
    + intros L [s' t'] H1. cbn [fst] in *. change s' with (id s').
      eapply (failed_via fails (order byKey (strip <$> l)) _ (fun given s => I (wrap <$> given) s)); [|by eapply failed_mono; [|exact H1]; intros ? ?; apply failed_yield].
      intros given [rest Hr] Hi'. exists (wrap <$> given). split; [|done]. exists (wrap <$> rest). by rewrite Hr, fmap_app.
  - exact Hclose.
Qed.

(** *** Rows that are targets *)

Context (identity : T -> option RowIdentity).

Definition row_target (r : T) : option (bytes * bytes) := match identity r with Some id => target id | None => None end.

Definition is_target (r : T) : bool := match row_target r with Some _ => true | None => false end.

Definition targets (rows : list T) : list T := filter (fun r => is_target r) rows.

Lemma elem_of_targets rows r : r ∈ targets rows <-> is_target r = true /\ r ∈ rows.
Proof. unfold targets. rewrite list_elem_of_filter. destruct (is_target r); cbn; split; intros [? ?]; done. Qed.

Definition candidate (r : T) : keyedCandidate T := keyed identity r.

Lemma keyed_target r : is_target r = true -> exists key, target_key identity r = Some key /\ key <> [] /\ candidate r = mkCandidate key (Some r).
Proof.
  unfold is_target, row_target, candidate, keyed, target_key, target, StorageKey. destruct (identity r) as [id|]; [|done].
  destruct (IsTarget id); [|done]. intros _. eexists. split; [done|]. split; [|done]. intros Heq. apply (f_equal length) in Heq. rewrite length_app, length_be_bytes in Heq. done.
Qed.

Lemma keyed_other r : is_target r = false -> candidate r = mkCandidate [] None.
Proof.
  unfold is_target, row_target, candidate, keyed, target_key, target, StorageKey. destruct (identity r) as [id|]; [|done]. by destruct (IsTarget id).
Qed.

Definition keyed_rows (c : keyedCandidate T) : result fault bool := Ok (negb (bool_decide (kc_key c = []))).

Lemma keyed_rows_target r : says_true (keyed_rows (candidate r)) = is_target r.
Proof.
  unfold keyed_rows. cbn [says_true]. destruct (is_target r) eqn:Er.
  - destruct (keyed_target r Er) as (key & _ & Hne & ->). cbn [kc_key]. by rewrite bool_decide_eq_false_2.
  - by rewrite keyed_other.
Qed.

Lemma included_targets rows : included (Some keyed_rows) (candidate <$> rows) = candidate <$> targets rows.
Proof.
  unfold included, ok_filter, targets. induction rows as [|r rows IH]; [done|]. change (candidate <$> r :: rows) with (candidate r :: (candidate <$> rows)).
  rewrite !filter_cons, keyed_rows_target, IH. by case_decide.
Qed.

Lemma firsts_candidates seen rows : Forall (fun r => is_target r = true) rows ->
  (fun c => default zero (kc_row c)) <$> firsts kc_key seen (candidate <$> rows) = firsts (fun r => kc_key (candidate r)) seen rows.
Proof.
  intros Ht. revert seen. induction Ht as [|r rows Hr Ht IH]; intros seen; [done|]. cbn [fmap list_fmap firsts].
  destruct (decide (kc_key (candidate r) ∈ seen)); [apply IH|]. cbn [fmap list_fmap]. f_equal; [|apply IH].
  by destruct (keyed_target r Hr) as (key & _ & _ & ->).
Qed.

(** C40: deduplicating mutation candidates hands on, in the order of the input and as they came, exactly the
    first candidate of every physical row (a table and a key in it); candidates that denote no physical row are
    dropped, and take no row's place.  The run ends early only with an error of the consumer, or because
    something else failed. *)
Theorem target_dedup_exact (newSort : bool -> @Sorter fault (SortRow T) (SortRow T)) (accepts : SortRow T -> Prop)
    (holds : forall byKey, list (SortRow T) -> so_state (newSort byKey) -> Prop) (input : @Operator fault T) (rows : list T) :
  (forall byKey, sorter_ok fails (newSort byKey) accepts (order byKey) (holds byKey)) -> feeds fails input rows -> Z.of_nat (length rows) < 2 ^ 64 ->
  (forall i r key, r ∈ rows -> target_key identity r = Some key -> accepts (mkSortEntry key i r)) ->
  (forall r id, r ∈ rows -> identity r = Some id -> blen (ri_TableID id) < 2 ^ 32) ->
  feeds fails (TargetRowDedup ctx_err zero input identity newSort) (firsts row_target [] (targets rows)).
Proof.
  intros Hso Hin Hlen Hacc Htab. set (cs := candidate <$> rows).
  assert (Forall (fun r => is_target r = true) (targets rows)) as Ht by (apply Forall_forall; by intros r [Hr _]%elem_of_targets).
  assert (firsts row_target [] (targets rows) = (fun e => default zero (kc_row (sk_Row e))) <$> first_entries [] (entries (fun c => Ok (E := fault) (kc_key c)) (included (Some keyed_rows) cs))) as ->.
  { rewrite (list_fmap_compose sk_Row (fun c => default zero (kc_row c))), (firsts_entries kc_key), entries_rows.
    - unfold cs. rewrite included_targets, firsts_candidates by done. symmetry. apply (firsts_same (fun r => kc_key (candidate r)) row_target []).
      intros a b [Ha Hra]%elem_of_targets [Hb Hrb]%elem_of_targets.
      destruct (keyed_target a Ha) as (ka & Hka & _ & Ea), (keyed_target b Hb) as (kb & Hkb & _ & Eb). rewrite Ea, Eb. cbn [kc_key].
      unfold target_key, row_target in *. destruct (identity a) as [ia|] eqn:Eia, (identity b) as [ib|] eqn:Eib; try done.
      pose proof (StorageKey_exact ia ib (Htab a ia Hra Eia) (Htab b ib Hrb Eib)) as Hkk. rewrite <- Hkk, Hka, Hkb. split; congruence.
    - intros e He. by apply (entries_key (fun c => Ok (E := fault) (kc_key c))) in He. }
  unfold TargetRowDedup. apply (feeds_map fails _ (fun e => default zero (kc_row (sk_Row e)))).
  apply (feeds_dedup ctx_err fails ctx_fails _ _ _ (fun byKey => candidate_sorter (newSort byKey) zero) (fun e => accepts (strip e) /\ wrap (strip e) = e) (fun byKey l t => holds byKey (strip <$> l) t /\ wrap <$> (strip <$> l) = l)).
  - intros byKey. by apply candidate_sorter_ok.
  - assert (cs = ok_rows (fun row => Ok (E := fault) (keyed identity row)) rows) as ->.
    { unfold cs, ok_rows. clear. induction rows as [|r rows IH]; [done|]. cbn. by f_equal. }
    by apply feeds_Projection.
  - unfold cs. by rewrite length_fmap.
  - intros p r f [= <-] _. done.
  - done.
  - apply Forall_forall. intros e He. unfold cs in He. rewrite included_targets in He. apply list_elem_of_lookup in He as [i Hi].
    unfold entries in Hi. rewrite list_lookup_imap, list_lookup_fmap in Hi. destruct (targets rows !! i) as [r|] eqn:Er; [|done]. injection Hi as <-.
    apply list_elem_of_lookup_2, elem_of_targets in Er as [Htr Hr]. destruct (keyed_target r Htr) as (key & Hkey & _ & ->).
    split; [|done]. unfold strip, key_of. cbn. by apply Hacc.
Qed.
End Targets.

Lemma feeds_Distinct {fault T} (ctx_err : nat -> option fault) (fails : Prop) (input : @Operator fault T) (key : T -> result fault bytes)
    (newSort : bool -> @Sorter fault (SortRow T) (SortRow T)) accepts holds rows :
  (forall n f, ctx_err n = Some f -> fails) -> (forall byKey, sorter_ok fails (newSort byKey) accepts (order byKey) (holds byKey)) -> feeds fails input rows ->
  Z.of_nat (length rows) < 2 ^ 64 -> (forall r f, r ∈ rows -> key r = Err f -> fails) -> Forall accepts (entries key rows) ->
  feeds fails (Distinct ctx_err input key newSort) (firsts (key_of key) [] rows).
Proof.
  intros Hctx Hso Hin Hlen Hkey Hacc. pose proof (feeds_dedup ctx_err fails Hctx input None key newSort accepts holds Hso rows Hin Hlen) as Hd.
  assert (firsts (key_of key) [] rows = sk_Row <$> first_entries [] (entries key rows)) as ->.
  { rewrite (firsts_entries (key_of key)) by (intros a; by apply entries_key). by rewrite entries_rows. }
  apply (feeds_map fails _ sk_Row). by apply Hd.
Qed.

(** ** Evaluated runs *)

(** Candidates of two tables; the third addresses the row of the first, and the fourth no row. *)
Definition some_candidates : list (RowIdentity * Z) :=
  [(NewRowIdentity [x61] [x01], 1); (NewRowIdentity [x62] [x01], 2); (NewRowIdentity [x61] [x01], 3); (NewRowIdentity [x61] [], 4); (NewRowIdentity [x61] [x02], 5)].

Lemma target_dedup_exact_witness :
  let op := TargetRowDedup (fault := unit) (fun _ => None) (mkIdentity [] [] false, 0) (Materialized (fun _ => None) some_candidates) (fun r => Some r.1)
    (fun byKey => list_sorter (entry_less byKey)) in
  snd <$> (op (list (RowIdentity * Z)) collect 0%nat []).1.2 = [1; 2; 5] /\
  feeds False op (firsts (row_target (fun r => Some r.1)) [] (targets (fun r => Some r.1) some_candidates)).
Proof.
  split; [by vm_compute|].
  apply (target_dedup_exact (fault := unit) (fun _ => None) False ltac:(done) (mkIdentity [] [] false, 0) (fun r => Some r.1) (fun byKey => list_sorter (entry_less byKey)) (fun _ => True) (fun _ l t => t = l)).
  - intros byKey. apply list_sorter_ok.
  - by apply feeds_Materialized.
  - by vm_compute.
  - done.
  - intros r id Hr [= <-]. repeat (apply elem_of_cons in Hr as [->|Hr]; [done|]). by apply not_elem_of_nil in Hr.
Defined.
