(* ===== verification/Decimal.v ===== *)
(** * Fixed-point numbers: [storage/decimal.go]

    A [Decimal] is its canonical text, which keeps the scale.  Integers of [math/big] are [Z]; the text of an
    integer and its reading are those of base ten.  The functions of the package [strings] are written
    on byte strings.  The operations take the texts apart as the code does; [fixed n s] is the text of
    the number [n / 10^s], and what the operations do is stated on [n] and [s].  Not here: conversions from
    other Go types, the column declaration, and the upgrade of old snapshots. *)

From stdpp Require Import list strings.
From Stdlib Require Import Strings.Byte.
From S2P Require Import Prelude.

(** ** Functions of the standard library *)

Definition zero_digit : byte := x30.
Definition dot : byte := x2e.
Definition minus : byte := x2d.

Definition is_digit (b : byte) : bool := (48 <=? bval b) && (bval b <=? 57).
Definition digit_val (b : byte) : Z := bval b - 48.
Definition digit_of (n : Z) : byte := byte_of_Z (48 + n).

(** [strings.IndexByte] and [strings.IndexAny], where [None] is [-1]. *)
Fixpoint index_where (p : byte -> bool) (s : bytes) : option nat :=
  match s with
  | [] => None
  | b :: s => if p b then Some 0%nat else S <$> index_where p s
  end.
Definition IndexByte (s : bytes) (c : byte) : option nat := index_where (fun b => bool_decide (b = c)) s.

Fixpoint trim_left (p : byte -> bool) (s : bytes) : bytes :=
  match s with
  | b :: r => if p b then trim_left p r else s
  | [] => []
  end.
Definition is_zero_digit (b : byte) : bool := bool_decide (b = zero_digit).
Definition TrimLeftZeros (s : bytes) : bytes := trim_left is_zero_digit s.
Definition TrimRightZeros (s : bytes) : bytes := reverse (trim_left is_zero_digit (reverse s)).

Definition HasPrefix (c : byte) (s : bytes) : bool := match s with b :: _ => bool_decide (b = c) | [] => false end.
Definition TrimPrefix (c : byte) (s : bytes) : bytes := if HasPrefix c s then tail s else s.
Definition TrimSuffix (c : byte) (s : bytes) : bytes := reverse (TrimPrefix c (reverse s)).

(** [strings.Cut(s, ".")] *)
Definition CutDot (s : bytes) : bytes * bytes :=
  match IndexByte s dot with
  | Some i => (take i s, drop (S i) s)
  | None => (s, [])
  end.

(** The encodings of the characters that are space. *)
Definition spaces : list bytes :=
  [[x09]; [x0a]; [x0b]; [x0c]; [x0d]; [x20]; [xc2; x85]; [xc2; xa0]; [xe1; x9a; x80]; [xe2; x80; xa8]; [xe2; x80; xa9];
    [xe2; x80; xaf]; [xe2; x81; x9f]; [xe3; x80; x80]]
  ++ ((fun n => [xe2; x80; byte_of_Z (128 + Z.of_nat n)]) <$> seq 0 11).

Fixpoint trim_prefixes (fuel : nat) (ps : list bytes) (s : bytes) : bytes :=
  match fuel with
  | O => s
  | S fuel =>
      match filter (fun p => bool_decide (p `prefix_of` s)) ps with
      | p :: _ => trim_prefixes fuel ps (drop (length p) s)
      | [] => s
      end
  end.
Definition TrimSpace (s : bytes) : bytes :=
  let s := trim_prefixes (length s) spaces s in
  reverse (trim_prefixes (length s) (reverse <$> spaces) (reverse s)).

(** A run of digits as a number, and a number as digits. *)
Definition digits_val (s : bytes) : Z := foldl (fun n b => 10 * n + digit_val b) 0 s.

Fixpoint text_loop (fuel : nat) (n : Z) (acc : bytes) : bytes :=
  match fuel with
  | O => acc
  | S fuel => if n <? 10 then digit_of n :: acc else text_loop fuel (n / 10) (digit_of (n mod 10) :: acc)
  end.
Definition nat_text (n : Z) : bytes := text_loop (S (Z.to_nat (Z.log2 n))) n [].

(** [n.Text(10)] *)
Definition Text (n : Z) : bytes := if n <? 0 then minus :: nat_text (- n) else nat_text n.

(** An optional sign and a run of digits. *)
Definition signed_digits (s : bytes) : option Z :=
  let '(neg, s) := match s with b :: r => if bool_decide (b = minus) then (true, r) else if bool_decide (b = x2b)
    then (false, r) else (false, s) | [] => (false, s) end in
  if bool_decide (s = []) || negb (forallb is_digit s) then None
  else Some (if neg then - digits_val s else digits_val s).

(** [strconv.Atoi] and [strconv.ParseInt(s, 10, 64)] *)
Definition Atoi (s : bytes) : option Z :=
  match signed_digits s with
  | Some n => if (- 2 ^ 63 <=? n) && (n <? 2 ^ 63) then Some n else None
  | None => None
  end.

(** ** Decimals *)

Definition MaxDecimalPrecision : Z := 65.
Definition MaxDecimalScale : Z := 30.

(** [ErrNumber] is an error of [strconv]. *)
Inductive decimal_error : Type := ErrDecimalRange | ErrDivisionByZero | ErrNumber.

Abbreviation Decimal := bytes.

Definition Scale (d : Decimal) : Z := match IndexByte d dot with Some i => blen d - Z.of_nat i - 1 | None => 0 end.

Definition IsZero (d : Decimal) : bool := forallb (fun c => negb ((49 <=? bval c) && (bval c <=? 57))) d.

Definition Int64 (d : Decimal) : result decimal_error Z :=
  let parse s := match Atoi s with Some n => Ok n | None => Err ErrNumber end in
  match IndexByte d dot with
  | Some i =>
      if negb (bool_decide (TrimRightZeros (TrimLeftZeros (drop (S i) d)) = [])) then Err ErrDecimalRange
      else parse (take i d)
  | None => parse d
  end.

(** A point is put before the last [scale] digits, with zeros in front where there are too few. *)
Definition place_point (s : bytes) (scale : Z) : bytes :=
  if 0 <? scale then
    let s := if blen s <=? scale then replicate (Z.to_nat (scale + 1 - blen s)) zero_digit ++ s else s in
    take (Z.to_nat (blen s - scale)) s ++ [dot] ++ drop (Z.to_nat (blen s - scale)) s
  else s.

Definition decimalFromCoefficient (n : Z) (scale : Z) : result decimal_error Decimal :=
  let s := Text n in
  let negative := HasPrefix minus s in
  let s := if negative then tail s else s in
  if (MaxDecimalPrecision <? blen s) || (MaxDecimalScale <? scale) then Err ErrDecimalRange
  else
    let s := place_point s scale in
    Ok (if negative then minus :: s else s).

(** [strings.Replace(s, ".", "", 1)] *)
Definition remove_dot (s : bytes) : bytes := match IndexByte s dot with Some i => take i s ++ drop (S i) s | None => s end.

(** A text [SetString] does not accept leaves an unspecified number, for which 0 stands. *)
Definition decimalCoefficient (d : Decimal) : Z * Z := (default 0 (signed_digits (remove_dot d)), Scale d).

(** The digits of a literal, without its sign: the point is taken out, and counted. *)
Definition scan_digits (s : bytes) : option (bytes * Z) :=
  let '(ip, fp) := CutDot s in
  let scale := match IndexByte s dot with Some i => blen s - Z.of_nat i - 1 | None => 0 end in
  if negb (forallb is_digit (ip ++ fp)) || bool_decide (ip ++ fp = []) then None else Some (ip ++ fp, scale).

Definition ParseDecimal (raw : bytes) : result decimal_error Decimal :=
  let s := TrimSpace raw in
  guard (negb ((blen s =? 0) || (256 <? blen s))) else ErrDecimalRange in
  let '(negative, s) := match s with b :: r => if bool_decide (b = x2b) || bool_decide (b = minus)
    then (bool_decide (b = minus), r) else (false, s) | [] => (false, s) end in
  guard (negb (bool_decide (s = []))) else ErrDecimalRange in
  match (match index_where (fun b => bool_decide (b = x65) || bool_decide (b = x45)) s with
         | Some e => match Atoi (drop (S e) s) with
                     | Some exponent => if (exponent <? - MaxDecimalScale) || (MaxDecimalPrecision <? exponent)
                       then None else Some (exponent, take e s)
                     | None => None
                     end
         | None => Some (0, s)
         end) with
  | None => Err ErrDecimalRange
  | Some (exponent, s) =>
      match scan_digits s with
      | None => Err ErrDecimalRange
      | Some (s, scale) =>
          let scale := scale - exponent in
          let '(s, scale) := if scale <? 0 then (s ++ replicate (Z.to_nat (- scale)) zero_digit, 0) else (s, scale) in
          guard (negb (MaxDecimalScale <? scale)) else ErrDecimalRange in
          let s := TrimLeftZeros s in
          let '(s, negative) := if bool_decide (s = []) then ([zero_digit], false) else (s, negative) in
          guard (negb ((MaxDecimalPrecision <? blen s) || (MaxDecimalPrecision <? Z.max (blen s) scale))) else ErrDecimalRange in
          let s := place_point s scale in
          Ok (if negative then minus :: s else s)
      end
  end.

(** [Exp] gives one for an exponent that is not positive. *)
Definition decimalPower (n : Z) : Z := if n <=? 0 then 1 else 10 ^ n.

(** Half away from zero. *)
Definition roundCoefficient (n places : Z) (truncate : bool) : Z :=
  if places <=? 0 then n * decimalPower (- places)
  else
    let divisor := decimalPower places in
    let q := n ÷ divisor in
    let r := Z.rem n divisor in
    if negb truncate && (divisor <=? 2 * Z.abs r) then if n <? 0 then q - 1 else q + 1 else q.

Definition Round (d : Decimal) (scale : Z) (truncate : bool) : result decimal_error Decimal :=
  if (scale <? - MaxDecimalPrecision) || (MaxDecimalScale <? scale) then Err ErrDecimalRange
  else
    let '(n, oldScale) := decimalCoefficient d in
    let n := roundCoefficient n (oldScale - scale) truncate in
    if scale <? 0 then decimalFromCoefficient (n * decimalPower (- scale)) 0 else decimalFromCoefficient n scale.

Definition Quantize (d : Decimal) (precision scale : Z) : result decimal_error Decimal :=
  if (precision <? 1) || (MaxDecimalPrecision <? precision) || (scale <? 0) || (MaxDecimalScale <? scale) || (precision <? scale) then Err ErrDecimalRange
  else
    match Round d scale false with
    | Err e => Err e
    | Ok rounded =>
        let integer := TrimPrefix minus rounded in
        let integer := match IndexByte integer dot with Some i => take i integer | None => integer end in
        if precision - scale <? blen (TrimLeftZeros integer) then Err ErrDecimalRange else Ok rounded
    end.

Inductive operator : Type := OpPlus | OpMinus | OpRem | OpTimes | OpDivide.

Definition DecimalBinary (op : operator) (left right : Decimal) : result decimal_error Decimal :=
  let '(a, as_) := decimalCoefficient left in
  let '(b, bs) := decimalCoefficient right in
  let scale := Z.max as_ bs in
  let a' := a * decimalPower (scale - as_) in
  let b' := b * decimalPower (scale - bs) in
  match op with
  | OpPlus => decimalFromCoefficient (a' + b') scale
  | OpMinus => decimalFromCoefficient (a' - b') scale
  | OpRem => if b' =? 0 then Err ErrDivisionByZero else decimalFromCoefficient (Z.rem a' b') scale
  | OpTimes =>
      let scale := as_ + bs in
      if MaxDecimalScale <? scale then decimalFromCoefficient (roundCoefficient (a * b) (scale - MaxDecimalScale) false) MaxDecimalScale
      else decimalFromCoefficient (a * b) scale
  | OpDivide =>
      if b =? 0 then Err ErrDivisionByZero
      else
        let scale := Z.min MaxDecimalScale (as_ + 4) in
        let a := a * decimalPower (scale + bs - as_) in
        let quotient := a ÷ b in
        let remainder := Z.rem a b in
        let quotient := if Z.abs b <=? 2 * Z.abs remainder then if Z.sgn a * Z.sgn b <? 0 then quotient - 1
          else quotient + 1 else quotient in
        decimalFromCoefficient quotient scale
  end.

(** The fractions, with zeros where one is shorter. *)
Fixpoint compare_right (rf : bytes) : Z :=
  match rf with
  | [] => 0
  | r :: rf => if bval zero_digit <? bval r then -1 else if bval r <? bval zero_digit then 1 else compare_right rf
  end.

Fixpoint compare_fractions (lf rf : bytes) : Z :=
  match lf with
  | [] => compare_right rf
  | l :: lf =>
      let r := match rf with r :: _ => r | [] => zero_digit end in
      if bval l <? bval r then -1 else if bval r <? bval l then 1 else compare_fractions lf (tail rf)
  end.

Definition compare_int (c : comparison) : Z := match c with Lt => -1 | Eq => 0 | Gt => 1 end.

Definition CompareDecimal (left right : Decimal) : Z :=
  let ln := HasPrefix minus left && negb (IsZero left) in
  let rn := HasPrefix minus right && negb (IsZero right) in
  if negb (Bool.eqb ln rn) then if ln then -1 else 1
  else
    let '(li, lf) := CutDot (TrimPrefix minus left) in
    let '(ri, rf) := CutDot (TrimPrefix minus right) in
    let li := TrimLeftZeros li in
    let ri := TrimLeftZeros ri in
    let result := if blen li <? blen ri then -1 else if blen ri <? blen li then 1 else compare_int (bcompare li ri) in
    let result := if result =? 0 then compare_fractions lf rf else result in
    if ln then - result else result.

Definition DecimalKey (d : Decimal) : bytes :=
  let s := match IndexByte d dot with Some _ => TrimSuffix dot (TrimRightZeros d) | None => d end in
  if bool_decide (s = [minus; zero_digit]) then [zero_digit] else s.

(** ** Digits *)

Abbreviation digits s := (Forall (fun b => is_digit b = true) s).

Lemma is_digit_val b : is_digit b = true <-> 0 <= digit_val b <= 9.
Proof. unfold is_digit, digit_val. rewrite andb_true_iff, !Z.leb_le. lia. Qed.

Lemma digit_of_val n : 0 <= n <= 9 -> digit_val (digit_of n) = n.
Proof. intros Hn. unfold digit_val, digit_of. rewrite bval_of_Z, Z.mod_small; lia. Qed.

Lemma digit_of_digit n : 0 <= n <= 9 -> is_digit (digit_of n) = true.
Proof. intros Hn. apply is_digit_val. by rewrite digit_of_val. Qed.

Lemma digit_val_inj a b : digit_val a = digit_val b -> a = b.
Proof. unfold digit_val. intros. apply bval_inj. lia. Qed.

Lemma digits_val_snoc s b : digits_val (s ++ [b]) = 10 * digits_val s + digit_val b.
Proof. unfold digits_val. by rewrite foldl_app. Qed.

Lemma blen_snoc (s : bytes) b : blen (s ++ [b]) = Z.succ (blen s).
Proof. unfold blen. rewrite length_app. cbn [length]. lia. Qed.

Lemma blen_nonneg (s : bytes) : 0 <= blen s.
Proof. unfold blen. lia. Qed.

Lemma digits_val_app s t : digits_val (s ++ t) = digits_val s * 10 ^ blen t + digits_val t.
Proof.
  induction t as [|b t IH] using rev_ind.
  - rewrite app_nil_r. change (blen []) with 0. change (digits_val []) with 0. rewrite Z.pow_0_r. lia.
  - rewrite app_assoc, !digits_val_snoc, IH, blen_snoc, Z.pow_succ_r by apply blen_nonneg. ring.
Qed.

Lemma digits_val_cons b s : digits_val (b :: s) = digit_val b * 10 ^ blen s + digits_val s.
Proof.
  change (b :: s) with ([b] ++ s). rewrite digits_val_app.
  by replace (digits_val [b]) with (digit_val b) by (unfold digits_val; cbn; lia).
Qed.

Lemma digits_val_range s : digits s -> 0 <= digits_val s < 10 ^ blen s.
Proof.
  induction s as [|b s IH] using rev_ind; intros Hd; [by vm_compute|]. apply Forall_app in Hd as [Hs Hb].
  apply Forall_cons in Hb as [Hb%is_digit_val _].
  specialize (IH Hs). rewrite digits_val_snoc, blen_snoc, Z.pow_succ_r by apply blen_nonneg. lia.
Qed.

Lemma digits_compare s t : digits s -> digits t -> length s = length t -> bcompare s t = (digits_val s ?= digits_val t).
Proof.
  revert t. induction s as [|a s IH]; intros [|b t] Hs Ht Hl; [done..|]. apply Forall_cons in Hs as [Ha Hs], Ht as [Hb Ht].
  injection Hl as Hl.
  cbn [bcompare]. rewrite !digits_val_cons, (IH t Hs Ht Hl). pose proof (digits_val_range s Hs).
  pose proof (digits_val_range t Ht). unfold blen in *. rewrite Hl in *.
  assert (bval a ?= bval b = (digit_val a ?= digit_val b)) as -> by (unfold digit_val;
    destruct (Z.compare_spec (bval a) (bval b)), (Z.compare_spec (bval a - 48) (bval b - 48)); lia || done).
  destruct (Z.compare_spec (digit_val a) (digit_val b)) as [->|L|L]; symmetry.
  - destruct (Z.compare_spec (digits_val s) (digits_val t));
      [apply Z.compare_eq_iff|apply Z.compare_lt_iff|apply Z.compare_gt_iff]; lia.
  - apply Z.compare_lt_iff. nia.
  - apply Z.compare_gt_iff. nia.
Qed.

Lemma digits_inj s t : digits s -> digits t -> length s = length t -> digits_val s = digits_val t -> s = t.
Proof. intros Hs Ht Hl Hv. apply bcompare_eq. rewrite digits_compare by done. by apply Z.compare_eq_iff. Qed.

Lemma zeros_digits n : digits (replicate n zero_digit).
Proof. by apply Forall_replicate. Qed.

Lemma zeros_val n : digits_val (replicate n zero_digit) = 0.
Proof. induction n as [|n IH]; [done|]. rewrite replicate_S_end, digits_val_snoc, IH. done. Qed.

(** A digit string of a given width. *)
Fixpoint fixed_digits (k : nat) (m : Z) : bytes :=
  match k with
  | O => []
  | S k => fixed_digits k (m / 10) ++ [digit_of (m mod 10)]
  end.

Lemma fixed_digits_spec k m : 0 <= m < 10 ^ Z.of_nat k -> digits (fixed_digits k m) /\ length (fixed_digits k m) = k /\
  digits_val (fixed_digits k m) = m.
Proof.
  revert m. induction k as [|k IH]; intros m Hm; [cbn in *; split_and!; [constructor|done|unfold digits_val; cbn; lia]|].
  rewrite Nat2Z.inj_succ, Z.pow_succ_r in Hm by lia. pose proof (Z.mod_pos_bound m 10 ltac:(lia)).
  pose proof (Z.div_mod m 10 ltac:(lia)).
  destruct (IH (m / 10)) as (Hd & Hl & Hv); [split; [apply Z.div_pos; lia|apply Z.div_lt_upper_bound; lia]|].
  cbn [fixed_digits]. split_and!.
  - apply Forall_app_2; [done|]. repeat constructor. apply digit_of_digit. lia.
  - rewrite length_app, Hl. cbn. lia.
  - rewrite digits_val_snoc, Hv, digit_of_val; lia.
Qed.

(** *** The text of a number *)

Lemma trim_left_le p s : (length (trim_left p s) <= length s)%nat.
Proof. induction s as [|b s IH]; [done|]. cbn. destruct (p b); cbn; lia. Qed.

Lemma trim_fixed p b s : trim_left p (b :: s) = b :: s -> p b = false.
Proof.
  cbn. destruct (p b); [|done]. intros Heq. pose proof (trim_left_le p s) as Hle. rewrite Heq in Hle. cbn in Hle. lia.
Qed.

Lemma text_loop_spec fuel n acc : 0 <= n < 10 ^ Z.of_nat fuel -> (0 < fuel)%nat ->
  exists s, text_loop fuel n acc = s ++ acc /\ digits s /\ digits_val s = n /\ s <> [] /\ (0 < n -> TrimLeftZeros s = s) /\
    (n = 0 -> s = [zero_digit]).
Proof.
  revert n acc. induction fuel as [|fuel IH]; intros n acc Hn Hf; [lia|]. cbn [text_loop].
  destruct (Z.ltb_spec n 10) as [L|L].
  - exists [digit_of n]. split; [done|]. split; [repeat constructor; apply digit_of_digit; lia|].
    split; [unfold digits_val; cbn [foldl]; rewrite digit_of_val; lia|]. split; [done|]. split; [|by intros ->].
    intros Hp. unfold TrimLeftZeros. cbn. unfold is_zero_digit. rewrite bool_decide_eq_false_2; [done|]. intros Heq.
    apply (f_equal digit_val) in Heq. rewrite digit_of_val in Heq by lia. change (digit_val zero_digit) with 0 in Heq. lia.
  - rewrite Nat2Z.inj_succ, Z.pow_succ_r in Hn by lia. pose proof (Z.mod_pos_bound n 10 ltac:(lia)).
    pose proof (Z.div_mod n 10 ltac:(lia)).
    destruct (IH (n / 10) (digit_of (n mod 10) :: acc)) as (s & Es & Hd & Hv & Hne & Ht & _).
    { split; [apply Z.div_pos; lia|apply Z.div_lt_upper_bound; lia]. }
    { destruct fuel; [|lia]. cbn in Hn. lia. }
    exists (s ++ [digit_of (n mod 10)]). split; [by rewrite <- app_assoc|].
    split; [apply Forall_app_2; [done|]; repeat constructor; apply digit_of_digit; lia|].
    split; [rewrite digits_val_snoc, Hv, digit_of_val; lia|].
    split; [by destruct s|]. split; [|lia]. intros _. specialize (Ht ltac:(lia)). destruct s as [|b s]; [done|].
    unfold TrimLeftZeros in *. cbn [app]. cbn [trim_left].
    by rewrite (trim_fixed _ _ _ Ht).
Qed.

Lemma nat_text_spec n : 0 <= n ->
  digits (nat_text n) /\ digits_val (nat_text n) = n /\ nat_text n <> [] /\ (0 < n ->
    TrimLeftZeros (nat_text n) = nat_text n) /\ (n = 0 -> nat_text n = [zero_digit]).
Proof.
  intros Hn. unfold nat_text.
  destruct (text_loop_spec (S (Z.to_nat (Z.log2 n))) n []) as (s & -> & H); [|lia|by rewrite app_nil_r].
  split; [done|]. rewrite Nat2Z.inj_succ, Z2Nat.id by apply Z.log2_nonneg.
  destruct (Z.eq_dec n 0) as [->|Hne]; [by vm_compute|].
  pose proof (Z.log2_spec n ltac:(lia)) as [_ Hlog]. eapply Z.lt_le_trans; [exact Hlog|]. apply Z.pow_le_mono_l.
  pose proof (Z.log2_nonneg n). lia.
Qed.

(** Without leading zeros the length tells the size. *)
Lemma no_zeros_bound s : digits s -> TrimLeftZeros s = s -> s <> [] -> 10 ^ (blen s - 1) <= digits_val s.
Proof.
  intros Hd Ht Hne. destruct s as [|b s]; [done|]. apply Forall_cons in Hd as [Hb Hd]. rewrite digits_val_cons.
  pose proof (digits_val_range s Hd).
  apply is_digit_val in Hb. assert (digit_val b <> 0).
  { intros H0. assert (b = zero_digit) as -> by by apply digit_val_inj. by apply trim_fixed in Ht. }
  unfold blen in *. cbn [length]. replace (Z.of_nat (S (length s)) - 1) with (Z.of_nat (length s)) by lia. nia.
Qed.

(** Digits without a leading zero, or the digit zero alone. *)
Definition plain (t : bytes) : Prop := digits t /\ t <> [] /\ (TrimLeftZeros t = t \/ t = [zero_digit]).

Lemma nat_text_plain n : 0 <= n -> plain (nat_text n).
Proof.
  intros Hn. destruct (nat_text_spec n Hn) as (Hd & _ & Hne & Hp & Hz). split; [done|]. split; [done|].
  destruct (Z.eq_dec n 0) as [->|]; [right; auto|left; apply Hp; lia].
Qed.

Lemma nat_text_digits n : 0 <= n -> digits (nat_text n).
Proof. intros Hn. by destruct (nat_text_plain n Hn). Qed.

Lemma nat_text_val n : 0 <= n -> digits_val (nat_text n) = n.
Proof. intros Hn. by destruct (nat_text_spec n Hn) as (_ & ? & _). Qed.

Lemma blen_pos (t : bytes) : t <> [] -> 1 <= blen t.
Proof. destruct t; [done|]. unfold blen. cbn. lia. Qed.

(** The length and the size of a plain text. *)
Lemma plain_length t k : plain t -> 1 <= k -> blen t <= k <-> digits_val t < 10 ^ k.
Proof.
  intros (Hd & Hne & Hp) Hk. pose proof (digits_val_range t Hd) as [_ Hr]. split; intros H.
  - eapply Z.lt_le_trans; [exact Hr|]. apply Z.pow_le_mono_r; lia.
  - destruct Hp as [Hp| ->]; [|unfold blen; cbn; lia]. pose proof (no_zeros_bound t Hd Hp Hne).
    destruct (Z.le_gt_cases (blen t) k) as [|L]; [done|].
    assert (10 ^ k <= 10 ^ (blen t - 1)) by (apply Z.pow_le_mono_r; lia). lia.
Qed.

Lemma plain_inj s t : plain s -> plain t -> digits_val s = digits_val t -> s = t.
Proof.
  intros Hs Ht Hv.
  assert (blen s = blen t) as Hl; [|unfold blen in Hl; apply digits_inj; [by destruct Hs|by destruct Ht|lia|done]].
  assert (1 <= blen s) by (apply blen_pos; by destruct Hs as (_ & ? & _)).
  assert (1 <= blen t) by (apply blen_pos; by destruct Ht as (_ & ? & _)).
  apply Z.le_antisymm;
    [apply (plain_length s _ Hs); [done|]; rewrite Hv; by apply plain_length|apply (plain_length t _ Ht); [done|];
      rewrite <- Hv; by apply plain_length].
Qed.

Lemma plain_text t : plain t -> nat_text (digits_val t) = t.
Proof.
  intros Ht. pose proof (digits_val_range t ltac:(by destruct Ht)).
  apply plain_inj; [apply nat_text_plain; lia|done|apply nat_text_val; lia].
Qed.

Lemma nat_text_length n k : 0 <= n -> 1 <= k -> blen (nat_text n) <= k <-> n < 10 ^ k.
Proof. intros Hn Hk. rewrite plain_length, nat_text_val by auto using nat_text_plain. done. Qed.

Lemma nat_text_nonempty n : 0 <= n -> 1 <= blen (nat_text n).
Proof. intros Hn. apply blen_pos. by destruct (nat_text_plain n Hn) as (_ & ? & _). Qed.

(** Leading zeros do not change what is read. *)
Lemma trim_zeros_spec s : digits s -> digits (TrimLeftZeros s) /\ digits_val (TrimLeftZeros s) = digits_val s /\
  (TrimLeftZeros s = [] -> digits_val s = 0) /\ TrimLeftZeros (TrimLeftZeros s) = TrimLeftZeros s.
Proof.
  unfold TrimLeftZeros. induction s as [|b s IH]; [done|]. intros Hd. pose proof Hd as [Hb Hs]%Forall_cons.
  destruct (IH Hs) as (H1 & H2 & H3 & H4). cbn [trim_left].
  destruct (is_zero_digit b) eqn:E; [|split_and!; [done..|cbn [trim_left]; by rewrite E]].
  apply bool_decide_eq_true_1 in E as ->.
  rewrite digits_val_cons. change (digit_val zero_digit) with 0. rewrite Z.mul_0_l, Z.add_0_l. done.
Qed.

(** *** The text of a coefficient and a scale *)

Definition fraction (s m : Z) : bytes := fixed_digits (Z.to_nat s) (m mod 10 ^ s).
Definition fixed_abs (m s : Z) : bytes := nat_text (m / 10 ^ s) ++ if 0 <? s then dot :: fraction s m else [].
Definition fixed (n s : Z) : Decimal := if n <? 0 then minus :: fixed_abs (- n) s else fixed_abs n s.

Lemma fraction_spec s m : 0 <= s -> digits (fraction s m) /\ blen (fraction s m) = s /\ digits_val (fraction s m) = m mod 10 ^ s.
Proof.
  intros Hs. unfold fraction, blen. destruct (fixed_digits_spec (Z.to_nat s) (m mod 10 ^ s)) as (? & -> & ?).
  { rewrite Z2Nat.id by done. apply Z.mod_pos_bound, Z.pow_pos_nonneg; lia. }
  split_and!; [done|lia|done].
Qed.

Lemma pow10_pos s : 0 <= s -> 0 < 10 ^ s.
Proof. intros. apply Z.pow_pos_nonneg; lia. Qed.

(** A digit string cut before its last [s] digits. *)
Lemma split_digits p s : digits p -> 0 <= s < blen p ->
  digits (take (Z.to_nat (blen p - s)) p) /\ digits_val (take (Z.to_nat (blen p - s)) p) = digits_val p / 10 ^ s /\
    drop (Z.to_nat (blen p - s)) p = fraction s (digits_val p).
Proof.
  intros Hp Hs. set (k := Z.to_nat (blen p - s)).
  assert (digits (take k p) /\ digits (drop k p)) as [Ht Hdr] by (rewrite <- (take_drop k p) in Hp; by apply Forall_app in Hp).
  assert (blen (drop k p) = s) as Hl by (unfold blen in *; rewrite length_drop; lia).
  pose proof (digits_val_app (take k p) (drop k p)) as Hv. rewrite take_drop, Hl in Hv.
  pose proof (digits_val_range (drop k p) Hdr) as Hr. rewrite Hl in Hr.
  assert (digits_val p / 10 ^ s = digits_val (take k p) /\ digits_val p mod 10 ^ s = digits_val (drop k p)) as [Hq Hm].
  { split; symmetry; [apply (Z.div_unique _ _ _ (digits_val (drop k p)))|apply (Z.mod_unique _ _ (digits_val (take k p)))]; lia.
    }
  split; [done|]. split; [done|]. destruct (fraction_spec s (digits_val p)) as (Hfd & Hfl & Hfv); [lia|].
  apply digits_inj; [done|done|unfold blen in *; lia|congruence].
Qed.

Lemma place_point_text m s : 0 <= m -> 0 <= s -> place_point (nat_text m) s = fixed_abs m s.
Proof.
  intros Hm Hs. unfold place_point, fixed_abs.
  destruct (Z.ltb_spec 0 s) as [Hp|]; [|replace s with 0 by lia; by rewrite Z.pow_0_r, Z.div_1_r, app_nil_r].
  pose proof (nat_text_plain m Hm) as (Hd & Hne & Htr). pose proof (nat_text_val m Hm) as Hv.
  destruct (Z.leb_spec (blen (nat_text m)) s) as [L|L].
  - set (p := replicate _ _ ++ _).
    assert (blen p = s + 1) as Hl by (unfold p; rewrite blen_app; unfold blen in *; rewrite length_replicate; lia).
    assert (digits p) as Hdp by (unfold p; apply Forall_app; split; [apply zeros_digits|done]).
    assert (digits_val p = m) as Hvp by (unfold p; rewrite digits_val_app, zeros_val; lia).
    destruct (split_digits p s Hdp) as (_ & _ & Hf); [lia|]. rewrite Hvp in Hf. rewrite Hf. rewrite Hl.
    replace (Z.to_nat (s + 1 - s)) with 1%nat by lia.
    rewrite Z.div_small by (split; [done|]; apply (nat_text_length m s); [done|lia|done]). f_equal.
    unfold p. pose proof (nat_text_nonempty m Hm). destruct (Z.to_nat (s + 1 - blen (nat_text m))) eqn:E; [lia|done].
  - destruct (split_digits (nat_text m) s Hd) as (Htd & Htv & Hf); [lia|]. rewrite Hf, Hv in *. f_equal. rewrite <- Htv.
    symmetry. apply plain_text.
    destruct Htr as [Htr|Htr]; [|rewrite Htr in L; unfold blen in L; cbn in L; lia]. split; [done|].
    destruct (Z.to_nat (blen (nat_text m) - s)) as [|k] eqn:Ek; [lia|]. destruct (nat_text m) as [|b t]; [done|].
    split; [done|left].
    unfold TrimLeftZeros in *. apply trim_fixed in Htr. cbn. by rewrite Htr.
Qed.

(** ** What a coefficient becomes, and what a text is read as *)

Definition within (n s : Z) : bool := (Z.abs n <? 10 ^ MaxDecimalPrecision) && (s <=? MaxDecimalScale).
Definition ranged (n s : Z) : result decimal_error Decimal := if within n s then Ok (fixed n s) else Err ErrDecimalRange.

Lemma digit_not_sign b : is_digit b = true -> b <> minus /\ b <> dot /\ b <> x2b /\ b <> x65 /\ b <> x45.
Proof. intros Hb. split_and!; intros ->; vm_compute in Hb; discriminate. Qed.

Lemma digits_prefix t r c : digits t -> t <> [] -> is_digit c = false -> HasPrefix c (t ++ r) = false.
Proof.
  intros Hd Hne Hc. destruct t as [|b t]; [done|]. apply Forall_cons in Hd as [Hb _]. cbn. apply bool_decide_eq_false.
  intros ->. congruence.
Qed.

Lemma fixed_abs_prefix m s c : 0 <= m -> 0 <= s -> is_digit c = false -> HasPrefix c (fixed_abs m s) = false.
Proof.
  intros Hm Hs Hc. assert (0 <= m / 10 ^ s) by (apply Z.div_pos; [done|by apply pow10_pos]).
  apply digits_prefix; [by apply nat_text_digits|by destruct (nat_text_plain (m / 10 ^ s)) as (_ & ? & _)|done].
Qed.

Lemma text_sign n : Text n = if n <? 0 then minus :: nat_text (Z.abs n) else nat_text (Z.abs n).
Proof. unfold Text. destruct (Z.ltb_spec n 0); [by rewrite Z.abs_neq by lia|by rewrite Z.abs_eq by lia]. Qed.

Lemma fixed_sign n s : fixed n s = if n <? 0 then minus :: fixed_abs (Z.abs n) s else fixed_abs (Z.abs n) s.
Proof. unfold fixed. destruct (Z.ltb_spec n 0); [by rewrite Z.abs_neq by lia|by rewrite Z.abs_eq by lia]. Qed.

Lemma from_coefficient n s : 0 <= s -> decimalFromCoefficient n s = ranged n s.
Proof.
  intros Hs. unfold decimalFromCoefficient, ranged, within. rewrite text_sign, fixed_sign. pose proof (Z.abs_nonneg n) as Ha.
  assert (HasPrefix minus (nat_text (Z.abs n)) = false) as Hm.
  { rewrite <- (app_nil_r (nat_text _)).
    apply digits_prefix; [by apply nat_text_digits|by destruct (nat_text_plain (Z.abs n)) as (_ & ? & _)|done]. }
  assert (forall b, (if b : bool then tail (minus :: nat_text (Z.abs n)) else nat_text (Z.abs n)) = nat_text (Z.abs n))
    as Ht by by intros [].
  assert ((MaxDecimalPrecision <? blen (nat_text (Z.abs n))) = negb (Z.abs n <? 10 ^ MaxDecimalPrecision)) as Hl.
  { pose proof (nat_text_length (Z.abs n) MaxDecimalPrecision Ha ltac:(done)).
    destruct (Z.ltb_spec MaxDecimalPrecision (blen (nat_text (Z.abs n)))), (Z.ltb_spec (Z.abs n) (10 ^ MaxDecimalPrecision));
      try done; lia.
    }
  assert ((MaxDecimalScale <? s) = negb (s <=? MaxDecimalScale)) as Hk by apply Z.ltb_antisym.
  destruct (n <? 0); [change (HasPrefix minus (minus :: nat_text (Z.abs n))) with true; cbn [tail]|rewrite Hm];
    rewrite Hl, Hk, place_point_text by done; by destruct (_ <? 10 ^ _), (s <=? _).
Qed.

Lemma index_where_app p a x r : Forall (fun b => p b = false) a -> p x = true -> index_where p (a ++ x :: r) = Some (length a).
Proof. intros Ha Hx. induction Ha as [|b a Hb _ IH]; cbn; [by rewrite Hx|]. by rewrite Hb, IH. Qed.

Lemma index_where_none p a : Forall (fun b => p b = false) a -> index_where p a = None.
Proof. induction 1 as [|b a Hb _ IH]; cbn; [done|]. by rewrite Hb, IH. Qed.

Lemma digits_no_dot t : digits t -> Forall (fun b => bool_decide (b = dot) = false) t.
Proof.
  intros Hd. eapply Forall_impl; [exact Hd|]. intros b Hb. cbn in *. apply bool_decide_eq_false.
  by destruct (digit_not_sign b Hb) as (_ & ? & _).
Qed.

(** The two parts of a text. *)
Definition sign_text (n : Z) : bytes := if n <? 0 then [minus] else [].

Lemma sign_no_dot n : Forall (fun b => bool_decide (b = dot) = false) (sign_text n).
Proof. unfold sign_text. destruct (n <? 0); [repeat constructor; by apply bool_decide_eq_false|constructor]. Qed.

Lemma fixed_parts n s : fixed n s = (sign_text n ++ nat_text (Z.abs n / 10 ^ s)) ++ if 0 <? s
  then dot :: fraction s (Z.abs n) else [].
Proof. rewrite fixed_sign. unfold sign_text, fixed_abs. by destruct (n <? 0). Qed.

Lemma whole_no_dot n s : 0 <= s -> Forall (fun b => bool_decide (b = dot) = false) (sign_text n ++ nat_text (Z.abs n / 10 ^ s)).
Proof.
  intros Hs. apply Forall_app.
  split; [apply sign_no_dot|apply digits_no_dot, nat_text_digits, Z.div_pos; [lia|by apply pow10_pos]].
Qed.

Lemma fixed_dot n s : 0 <= s -> IndexByte (fixed n s) dot = if 0 <? s
  then Some (length (sign_text n ++ nat_text (Z.abs n / 10 ^ s))) else None.
Proof.
  intros Hs. rewrite fixed_parts. unfold IndexByte.
  destruct (0 <? s); [|rewrite app_nil_r; by apply index_where_none, whole_no_dot].
  apply index_where_app; [by apply whole_no_dot|by apply bool_decide_eq_true].
Qed.

Lemma scale_fixed n s : 0 <= s -> Scale (fixed n s) = s.
Proof.
  intros Hs. unfold Scale. rewrite fixed_dot by done. destruct (Z.ltb_spec 0 s); [|lia]. rewrite fixed_parts.
  destruct (Z.ltb_spec 0 s); [|lia].
  rewrite blen_app. destruct (fraction_spec s (Z.abs n) Hs) as (_ & Hl & _). unfold blen in *. cbn [length]. lia.
Qed.

Lemma remove_dot_fixed n s : 0 <= s -> remove_dot (fixed n s) = sign_text n ++ nat_text (Z.abs n / 10 ^ s) ++ fraction s (Z.abs n).
Proof.
  intros Hs. unfold remove_dot. rewrite fixed_dot by done. rewrite fixed_parts. destruct (Z.ltb_spec 0 s).
  - rewrite take_app_length, app_assoc. f_equal. change (dot :: ?f) with ([dot] ++ f).
    rewrite app_assoc, drop_app_length'; [done|]. rewrite !length_app. cbn. lia.
  - replace s with 0 by lia. unfold fraction. cbn [Z.to_nat fixed_digits]. by rewrite !app_nil_r.
Qed.

Lemma digits_forallb t : digits t <-> forallb is_digit t = true.
Proof. induction t as [|b t IH]; [done|]. rewrite Forall_cons, IH. cbn. by rewrite andb_true_iff. Qed.

Lemma signed_digits_text neg t : digits t -> t <> [] -> signed_digits ((if neg : bool then [minus]
  else []) ++ t) = Some (if neg then - digits_val t else digits_val t).
Proof.
  intros Hd Hne. pose proof (proj1 (digits_forallb t) Hd) as Hf.
  unfold signed_digits. destruct neg; cbn [app].
  - rewrite bool_decide_eq_true_2 by done. rewrite bool_decide_eq_false_2 by done. by rewrite Hf.
  - destruct t as [|b t]; [done|]. pose proof Hd as [Hb _]%Forall_cons. destruct (digit_not_sign b Hb) as (? & _ & ? & _).
    rewrite !(bool_decide_eq_false_2 (b = _)) by done. by rewrite Hf.
Qed.

Lemma coefficient_fixed n s : 0 <= s -> decimalCoefficient (fixed n s) = (n, s).
Proof.
  intros Hs. unfold decimalCoefficient. rewrite scale_fixed, remove_dot_fixed by done. unfold sign_text.
  pose proof (pow10_pos s Hs).
  assert (0 <= Z.abs n / 10 ^ s) as Hq by (apply Z.div_pos; lia).
  destruct (fraction_spec s (Z.abs n) Hs) as (Hfd & Hfl & Hfv).
  rewrite signed_digits_text;
    [|apply Forall_app; split; [by apply nat_text_digits|done]|destruct (nat_text_plain _ Hq) as (_ & Hne & _);
      by destruct (nat_text _)].
  rewrite digits_val_app, nat_text_val, Hfl, Hfv by done. cbn [default]. pose proof (Z.div_mod (Z.abs n) (10 ^ s)). f_equal.
  cbn. destruct (Z.ltb_spec n 0); lia.
Qed.

(** ** Rounding *)

(** [q] is the integer nearest to [x / y], and of two the one further from zero. *)
Definition rounded (x y q : Z) : Prop := 2 * Z.abs (x - q * y) <= Z.abs y /\ (2 * Z.abs (x - q * y) = Z.abs y ->
  Z.abs x < Z.abs (q * y)).

Lemma rounded_exact y q : rounded (q * y) y q \/ y = 0.
Proof. unfold rounded. destruct (Z.eq_dec y 0); [by right|left]. rewrite Z.sub_diag. lia. Qed.

Lemma mul_gap q y : q * y = 0 \/ Z.abs y <= Z.abs (q * y).
Proof.
  destruct (Z.eq_dec q 0) as [->|Hq]; [by left|right]. rewrite Z.abs_mul, <- (Z.mul_1_l (Z.abs y)) at 1.
  apply Z.mul_le_mono_nonneg_r; lia.
Qed.

Lemma rounded_inj x y q q' : y <> 0 -> rounded x y q -> rounded x y q' -> q = q'.
Proof.
  intros Hy [H1 T1] [H2 T2]. destruct (Z.eq_dec q q') as [|Hne]; [done|exfalso].
  assert (exists d, q' = q + d /\ (d = 1 \/ d = -1 \/ 2 <= Z.abs d)) as (d & -> & Hd) by (exists (q' - q); lia).
  rewrite Z.mul_add_distr_r in *.
  assert (d * y = y \/ d * y = - y \/ 2 * Z.abs y <= Z.abs (d * y)) as Hdy by (destruct Hd as [->|[->|Hd]];
    [lia|lia|right; right; rewrite Z.abs_mul; apply Z.mul_le_mono_nonneg_r; lia]).
  pose proof (mul_gap q y) as Hp.
  clear Hd Hne. generalize dependent (d * y). generalize dependent (q * y). intros. lia.
Qed.

Lemma rounded_scale x y q p : 0 < p -> rounded x y q -> rounded (x * p) (y * p) q.
Proof.
  intros Hp [H1 H2]. unfold rounded. replace (x * p - q * (y * p)) with ((x - q * y) * p) by ring.
  replace (q * (y * p)) with (q * y * p) by ring.
  rewrite !Z.abs_mul, (Z.abs_eq p) by lia. rewrite <- Z.abs_mul. split; [nia|]. intros Heq.
  assert (2 * Z.abs (x - q * y) = Z.abs y) as Ht by nia. specialize (H2 Ht). nia.
Qed.

Lemma quot_rounded x y : y <> 0 ->
  rounded x y (if Z.abs y <=? 2 * Z.abs (Z.rem x y) then if Z.sgn x * Z.sgn y <? 0 then x ÷ y - 1 else x ÷ y + 1 else x ÷ y).
Proof.
  intros Hy. pose proof (Z.quot_rem' x y) as Hx. pose proof (Z.rem_bound_abs x y Hy) as Hb.
  pose proof (Z.rem_nonneg x y Hy) as Hs. pose proof (Z.rem_nonpos x y Hy) as Hs'.
  assert (Z.rem x y = 0 \/ 0 < x /\ 0 < Z.rem x y \/ x < 0 /\ Z.rem x y < 0) as Hr by lia.
  destruct (Z.leb_spec (Z.abs y) (2 * Z.abs (Z.rem x y))).
  - assert (Z.sgn x * Z.sgn y <? 0 = bool_decide (x < 0 <-> 0 < y)) as ->.
    { destruct Hr as [Hr|[[? _]|[? _]]]; [lia|rewrite (Z.sgn_pos x) by lia|rewrite (Z.sgn_neg x) by lia];
        (destruct (Z.lt_trichotomy y 0) as [?|[?|?]]; [rewrite (Z.sgn_neg y) by lia|done|rewrite (Z.sgn_pos y) by lia]);
          symmetry; (apply bool_decide_eq_true; lia) || (apply bool_decide_eq_false; lia).
        }
    unfold rounded.
    case_bool_decide as Hd;
      [replace ((x ÷ y - 1) * y) with (y * (x ÷ y) - y) by ring|replace ((x ÷ y + 1) * y) with (y * (x ÷ y) + y) by ring];
      generalize dependent (y * (x ÷ y)); intros; lia.
  - unfold rounded. rewrite (Z.mul_comm (x ÷ y)). lia.
Qed.

Lemma power_pow n : 0 <= n -> decimalPower n = 10 ^ n.
Proof. intros Hn. unfold decimalPower. destruct (Z.leb_spec n 0); [|done]. by replace n with 0 by lia. Qed.

Lemma round_rounded n p : 0 <= p -> rounded n (10 ^ p) (roundCoefficient n p false).
Proof.
  intros Hp. pose proof (pow10_pos p Hp). unfold roundCoefficient. destruct (Z.leb_spec p 0).
  - replace p with 0 by lia. destruct (rounded_exact 1 n); [|lia]. rewrite Z.mul_1_r in *. done.
  - rewrite power_pow by done. cbn [negb andb]. pose proof (quot_rounded n (10 ^ p) ltac:(lia)) as Hq.
    rewrite (Z.abs_eq (10 ^ p)), (Z.sgn_pos (10 ^ p)) in Hq by lia.
    assert (Z.sgn n * 1 <? 0 = (n <? 0)) as Hs by (rewrite Z.mul_1_r; destruct (Z.ltb_spec n 0);
      [apply Z.ltb_lt|apply Z.ltb_ge]; lia).
    by rewrite Hs in Hq.
Qed.

(** ** The operators *)

(** The value of an operation on [na / 10^sa] and [nb / 10^sb], as a fraction. *)
Definition exact_value (op : operator) (na sa nb sb : Z) : Z * Z :=
  match op with
  | OpPlus => (na * 10 ^ sb + nb * 10 ^ sa, 10 ^ (sa + sb))
  | OpMinus => (na * 10 ^ sb - nb * 10 ^ sa, 10 ^ (sa + sb))
  | OpRem => (Z.rem (na * 10 ^ sb) (nb * 10 ^ sa), 10 ^ (sa + sb))
  | OpTimes => (na * nb, 10 ^ (sa + sb))
  | OpDivide => (na * 10 ^ sb, nb * 10 ^ sa)
  end.

Definition result_scale (op : operator) (sa sb : Z) : Z :=
  match op with
  | OpPlus | OpMinus | OpRem => Z.max sa sb
  | OpTimes => Z.min MaxDecimalScale (sa + sb)
  | OpDivide => Z.min MaxDecimalScale (sa + 4)
  end.

Definition divides (op : operator) : bool := match op with OpRem | OpDivide => true | _ => false end.

(** A coefficient brought to a larger scale. *)
Lemma rescale n sa sb s : 0 <= sa <= s -> 0 <= sb -> n * 10 ^ (s - sa) * 10 ^ (sa + sb) = n * 10 ^ sb * 10 ^ s.
Proof.
  intros Ha Hb. replace (10 ^ s) with (10 ^ (s - sa) * 10 ^ sa) by (rewrite <- Z.pow_add_r by lia; f_equal; lia).
  rewrite (Z.pow_add_r 10 sa sb) by lia. ring.
Qed.

Lemma rounded_of_eq x y q : 0 < y -> q * y = x -> rounded x y q.
Proof. intros Hy <-. destruct (rounded_exact y q); [done|lia]. Qed.

Lemma binary_linear op na sa nb sb n : 0 <= sa -> 0 <= sb -> (if op is OpPlus then True else op = OpMinus) ->
  n = (if op is OpPlus then Z.add else Z.sub) (na * 10 ^ (Z.max sa sb - sa)) (nb * 10 ^ (Z.max sa sb - sb)) ->
  rounded ((exact_value op na sa nb sb).1 * 10 ^ Z.max sa sb) (exact_value op na sa nb sb).2 n.
Proof.
  intros Ha Hb Hop ->. pose proof (rescale na sa sb (Z.max sa sb) ltac:(lia) Hb) as E1.
  pose proof (rescale nb sb sa (Z.max sa sb) ltac:(lia) Ha) as E2. rewrite (Z.add_comm sb) in E2.
  destruct op; try done; cbn [exact_value fst snd]; apply rounded_of_eq; try (apply pow10_pos; lia);
    [rewrite !Z.mul_add_distr_r|rewrite !Z.mul_sub_distr_r]; lia.
Qed.

Lemma binary_rem na sa nb sb : 0 <= sa -> 0 <= sb -> nb <> 0 ->
  rounded ((exact_value OpRem na sa nb sb).1 * 10 ^ Z.max sa sb) (exact_value OpRem na sa nb sb).2 (Z.rem (na * 10 ^ (Z.max sa sb - sa)) (nb * 10 ^ (Z.max sa sb - sb))).
Proof.
  intros Ha Hb Hnb. cbn [exact_value fst snd]. pose proof (pow10_pos (sa + sb) ltac:(lia)).
  pose proof (pow10_pos (Z.max sa sb) ltac:(lia)). pose proof (pow10_pos sa Ha).
  pose proof (pow10_pos (Z.max sa sb - sb) ltac:(lia)).
  apply rounded_of_eq; [done|]. rewrite <- !Z.mul_rem_distr_r by nia. rewrite (rescale na sa sb) by lia.
  by rewrite (Z.add_comm sa), (rescale nb sb sa) by lia.
Qed.

Lemma binary_times na sa nb sb : 0 <= sa -> 0 <= sb ->
  let s := sa + sb in
  let n := if MaxDecimalScale <? s then roundCoefficient (na * nb) (s - MaxDecimalScale) false else na * nb in
  rounded ((exact_value OpTimes na sa nb sb).1 * 10 ^ Z.min MaxDecimalScale s) (exact_value OpTimes na sa nb sb).2 n.
Proof.
  intros Ha Hb. cbn [exact_value fst snd]. destruct (Z.ltb_spec MaxDecimalScale (sa + sb)) as [L|L].
  - rewrite Z.min_l by lia.
    replace (10 ^ (sa + sb)) with (10 ^ (sa + sb - MaxDecimalScale) * 10 ^ MaxDecimalScale) by (rewrite <- Z.pow_add_r
      by (unfold MaxDecimalScale in *; lia); f_equal; lia).
    apply rounded_scale; [by apply pow10_pos|]. apply round_rounded. lia.
  - rewrite Z.min_r by lia. apply rounded_of_eq; [apply pow10_pos; lia|done].
Qed.

Lemma binary_divide na sa nb sb : 0 <= sa <= MaxDecimalScale -> 0 <= sb -> nb <> 0 ->
  let s := Z.min MaxDecimalScale (sa + 4) in
  let a := na * decimalPower (s + sb - sa) in
  rounded ((exact_value OpDivide na sa nb sb).1 * 10 ^ s) (exact_value OpDivide na sa nb sb).2
    (if Z.abs nb <=? 2 * Z.abs (Z.rem a nb) then if Z.sgn a * Z.sgn nb <? 0 then a ÷ nb - 1 else a ÷ nb + 1 else a ÷ nb).
Proof.
  intros Ha Hb Hnb. cbn [exact_value fst snd]. cbv zeta. set (s := Z.min MaxDecimalScale (sa + 4)).
  assert (sa <= s) as Hs by (unfold s, MaxDecimalScale in *; lia). rewrite power_pow by lia.
  replace (na * 10 ^ sb * 10 ^ s) with (na * 10 ^ (s + sb - sa) * 10 ^ sa);
    [apply rounded_scale; [apply pow10_pos; lia|]; by apply quot_rounded|].
  rewrite <- !Z.mul_assoc, <- !Z.pow_add_r by lia. do 2 f_equal. lia.
Qed.

(** C36: The five operators on any two decimals: with a divisor of zero, [%] and [/] report it; otherwise the
    exact value of the operation, as a fraction, is rounded to the scale of the operation, to the nearest and half
    away from zero, and the one coefficient this leaves is the result where it has at most 65 digits.  The
    scale of a sum, a difference and a remainder is the larger one, where nothing is rounded; that of a product is the
    sum of the two, and of a quotient four more than that of the dividend, at most thirty. *)
Theorem decimal_arithmetic_exact op na sa nb sb : 0 <= sa <= MaxDecimalScale -> 0 <= sb <= MaxDecimalScale ->
  let '(num, den) := exact_value op na sa nb sb in
  let scale := result_scale op sa sb in
  if divides op && (nb =? 0) then DecimalBinary op (fixed na sa) (fixed nb sb) = Err ErrDivisionByZero
  else den <> 0 /\ exists n, rounded (num * 10 ^ scale) den n /\ (forall n', rounded (num * 10 ^ scale) den n' -> n' = n) /\
       DecimalBinary op (fixed na sa) (fixed nb sb) = (if Z.abs n <? 10 ^ MaxDecimalPrecision then Ok (fixed n scale)
         else Err ErrDecimalRange).
Proof.
  intros Ha Hb. unfold DecimalBinary. rewrite !coefficient_fixed by lia. pose proof (pow10_pos sa ltac:(lia)).
  pose proof (pow10_pos (sa + sb) ltac:(lia)).
  assert (forall num den n s, 0 <= s <= MaxDecimalScale -> den <> 0 -> rounded (num * 10 ^ s) den n -> den <> 0 /\
    exists m, rounded (num * 10 ^ s) den m /\ (forall n', rounded (num * 10 ^ s) den n' -> n' = m) /\
    decimalFromCoefficient n s = (if Z.abs m <? 10 ^ MaxDecimalPrecision then Ok (fixed m s) else Err ErrDecimalRange)) as Hfin.
  { intros num den n s Hs Hden Hr. split; [done|]. exists n. split; [done|]. split; [intros n' Hn'; by eapply rounded_inj|].
    rewrite from_coefficient by lia. unfold ranged, within.
    destruct (Z.leb_spec s MaxDecimalScale); [by rewrite andb_true_r|lia]. }
  assert (nb * decimalPower (Z.max sa sb - sb) =? 0 = (nb =? 0)) as Hz.
  { rewrite power_pow by lia. pose proof (pow10_pos (Z.max sa sb - sb) ltac:(lia)).
    destruct (Z.eqb_spec nb 0), (Z.eqb_spec (nb * 10 ^ (Z.max sa sb - sb)) 0); nia. }
  destruct op; cbn [divides andb result_scale].
  - apply Hfin; [lia|lia|]. apply (binary_linear OpPlus); [lia|lia|done|]. by rewrite !power_pow by lia.
  - apply Hfin; [lia|lia|]. apply (binary_linear OpMinus); [lia|lia|done|]. by rewrite !power_pow by lia.
  - rewrite Hz. destruct (Z.eqb_spec nb 0); [done|]. apply Hfin; [lia|lia|]. rewrite !power_pow by lia.
    apply binary_rem; lia.
  - pose proof (binary_times na sa nb sb ltac:(lia) ltac:(lia)) as Ht. cbv zeta in Ht.
    destruct (Z.ltb_spec MaxDecimalScale (sa + sb)); [rewrite Z.min_l in * by lia|rewrite Z.min_r in * by lia]; apply Hfin;
      done || lia.
  - cbn [exact_value]. destruct (Z.eqb_spec nb 0); [done|]. apply Hfin; [unfold MaxDecimalScale in *; lia|nia|].
    apply binary_divide; [lia|lia|done].
Qed.

Lemma decimal_arithmetic_exact_witness :
  3 * 10 ^ 0 <> 0 /\ exists n, rounded (2 * 10 ^ 0 * 10 ^ 4) (3 * 10 ^ 0) n /\
    (forall n', rounded (2 * 10 ^ 0 * 10 ^ 4) (3 * 10 ^ 0) n' -> n' = n) /\
    DecimalBinary OpDivide (fixed 2 0) (fixed 3 0) = (if Z.abs n <? 10 ^ MaxDecimalPrecision then Ok (fixed n 4)
      else Err ErrDecimalRange).
Proof. apply (decimal_arithmetic_exact OpDivide 2 0 3 0); unfold MaxDecimalScale; lia. Defined.

(** ** Rounding to a scale and to a column *)

Lemma round_fixed n s k : 0 <= s <= MaxDecimalScale -> 0 <= k <= MaxDecimalScale ->
  exists m, rounded (n * 10 ^ k) (10 ^ s) m /\ Round (fixed n s) k false = ranged m k.
Proof.
  intros Hs Hk. unfold Round. destruct (Z.ltb_spec k (- MaxDecimalPrecision)); [unfold MaxDecimalPrecision in *; lia|].
  destruct (Z.ltb_spec MaxDecimalScale k); [lia|].
  cbn [orb]. rewrite coefficient_fixed by lia. destruct (Z.ltb_spec k 0); [lia|]. eexists.
  split; [|apply from_coefficient; lia].
  destruct (Z.le_gt_cases (s - k) 0) as [L|L].
  - unfold roundCoefficient. destruct (Z.leb_spec (s - k) 0); [|lia]. rewrite power_pow by lia.
    apply rounded_of_eq; [apply pow10_pos; lia|].
    rewrite <- Z.mul_assoc, <- Z.pow_add_r by lia. do 2 f_equal. lia.
  - replace (10 ^ s) with (10 ^ (s - k) * 10 ^ k) by (rewrite <- Z.pow_add_r by lia; f_equal; lia).
    apply rounded_scale; [apply pow10_pos; lia|]. apply round_rounded. lia.
Qed.

(** The digits before the point. *)
Lemma integer_digits n s p : 0 <= s <= p ->
  let integer := TrimPrefix minus (fixed n s) in
  let integer := match IndexByte integer dot with Some i => take i integer | None => integer end in
  blen (TrimLeftZeros integer) <= p - s <-> Z.abs n < 10 ^ p.
Proof.
  intros Hs. cbv zeta. pose proof (pow10_pos s ltac:(lia)) as Hp.
  assert (0 <= Z.abs n / 10 ^ s) as Hq by (apply Z.div_pos; lia).
  assert (TrimPrefix minus (fixed n s) = fixed (Z.abs n) s) as ->.
  { rewrite (fixed_sign n), (fixed_sign (Z.abs n)), Z.abs_involutive. destruct (Z.ltb_spec (Z.abs n) 0); [lia|].
    unfold TrimPrefix. destruct (n <? 0); [done|]. by rewrite fixed_abs_prefix by (done || lia). }
  rewrite fixed_dot by lia. rewrite (fixed_parts (Z.abs n)). unfold sign_text. destruct (Z.ltb_spec (Z.abs n) 0); [lia|].
  rewrite app_nil_l, Z.abs_eq by lia.
  assert (forall b r, (if b : bool then take (length (nat_text (Z.abs n / 10 ^ s))) (nat_text (Z.abs n / 10 ^ s) ++ r)
    else nat_text (Z.abs n / 10 ^ s)) = nat_text (Z.abs n / 10 ^ s)) as Ht by (intros [] r; [by rewrite take_app_length|done]).
  destruct (0 <? s); [rewrite take_app_length|rewrite app_nil_r]; clear Ht;
  (destruct (nat_text_spec _ Hq) as (_ & Hv & _ & Hpos & Hzero); destruct (Z.eq_dec (Z.abs n / 10 ^ s) 0) as [E|E];
    [rewrite (Hzero E); assert (Z.abs n < 10 ^ s) by (apply Z.div_small_iff in E; lia); assert (10 ^ s <= 10 ^ p)
      by (apply Z.pow_le_mono_r; lia); change (blen (TrimLeftZeros [zero_digit])) with 0; lia|];
    rewrite Hpos by lia; destruct (Z.eq_dec p s) as [->|];
      [rewrite Z.sub_diag; pose proof (nat_text_nonempty _ Hq); split; [lia|intros L; exfalso; apply E, Z.div_small; lia]|];
    rewrite nat_text_length by lia;
      replace (10 ^ p) with (10 ^ s * 10 ^ (p - s)) by (rewrite <- Z.pow_add_r by lia; f_equal; lia); split; intros L;
      [|apply Z.div_lt_upper_bound; lia]; pose proof (Z.div_mod (Z.abs n) (10 ^ s) ltac:(lia));
      pose proof (Z.mod_pos_bound (Z.abs n) (10 ^ s) Hp); nia).
Qed.

(** A value put into a column of a precision and a scale: a declaration out of bounds is refused, the coefficient is
    the value rounded to the scale of the column, to the nearest and half away from zero, and it is accepted
    exactly when it has at most as many digits as the precision, so that what is stored is within the column. *)
Theorem decimal_quantize_exact n s p k : 0 <= s <= MaxDecimalScale ->
  if bool_decide (1 <= p <= MaxDecimalPrecision /\ 0 <= k <= MaxDecimalScale /\ k <= p) then
    exists m, rounded (n * 10 ^ k) (10 ^ s) m /\ Quantize (fixed n s) p k = (if Z.abs m <? 10 ^ p then Ok (fixed m k)
      else Err ErrDecimalRange)
  else Quantize (fixed n s) p k = Err ErrDecimalRange.
Proof.
  intros Hs. unfold Quantize.
  case_bool_decide as Hd;
    destruct (Z.ltb_spec p 1), (Z.ltb_spec MaxDecimalPrecision p), (Z.ltb_spec k 0), (Z.ltb_spec MaxDecimalScale k), (Z.ltb_spec p k); try lia; try done; cbn [orb].
  destruct (round_fixed n s k Hs ltac:(lia)) as (m & Hm & ->). exists m. split; [done|]. unfold ranged, within.
  destruct (Z.leb_spec k MaxDecimalScale); [|lia]. rewrite andb_true_r.
  assert (10 ^ p <= 10 ^ MaxDecimalPrecision) by (apply Z.pow_le_mono_r; lia).
  destruct (Z.ltb_spec (Z.abs m) (10 ^ MaxDecimalPrecision)); [|destruct (Z.ltb_spec (Z.abs m) (10 ^ p)); [lia|done]].
  pose proof (integer_digits m k p ltac:(lia)) as Hi. cbv zeta in Hi.
  destruct (Z.ltb_spec (p - k) (blen (TrimLeftZeros (match IndexByte (TrimPrefix minus (fixed m k)) dot with Some i =>
    take i (TrimPrefix minus (fixed m k)) | None =>
    TrimPrefix minus (fixed m k) end)))), (Z.ltb_spec (Z.abs m) (10 ^ p)); try done; lia.
Qed.
