(* ===== verification/DecimalText.v ===== *)
(** * Decimals as texts: order, keys and literals

    [CompareDecimal] and [DecimalKey] of [storage/decimal.go] work on the texts alone; here they are the order and the
    equality of the values.  [ParseDecimal] is what a literal means, and reads back what it has written. *)

From stdpp Require Import list strings.
From Stdlib Require Import Strings.Byte.
From S2P Require Import Prelude Decimal.

(** ** Order and keys *)

Lemma iszero_app s t : IsZero (s ++ t) = IsZero s && IsZero t.
Proof. apply forallb_app. Qed.

Lemma iszero_digits t : digits t -> IsZero t = (digits_val t =? 0).
Proof.
  induction t as [|b t IH]; [done|]. intros Ht. pose proof Ht as [Hb Hd]%Forall_cons.
  change (IsZero (b :: t)) with (negb ((49 <=? bval b) && (bval b <=? 57)) && IsZero t).
  rewrite IH, digits_val_cons by done. pose proof (digits_val_range t Hd) as Hr.
  pose proof (pow10_pos (blen t) (blen_nonneg t)). apply is_digit_val in Hb. unfold digit_val in *.
  destruct (Z.leb_spec 49 (bval b)), (Z.leb_spec (bval b) 57), (Z.eqb_spec (digits_val t) 0); cbn; symmetry; try lia;
    (apply Z.eqb_eq; nia) || (apply Z.eqb_neq; nia).
Qed.

Lemma iszero_fixed n s : 0 <= s -> IsZero (fixed n s) = (n =? 0).
Proof.
  intros Hs. pose proof (pow10_pos s Hs). rewrite fixed_parts, !iszero_app.
  assert (0 <= Z.abs n / 10 ^ s) as Hq by (apply Z.div_pos; lia).
  assert (IsZero (sign_text n) = true) as -> by (unfold sign_text; by destruct (n <? 0)).
  rewrite iszero_digits, nat_text_val by (done || by apply nat_text_digits). cbn [andb].
  pose proof (Z.div_mod (Z.abs n) (10 ^ s) ltac:(lia)). destruct (Z.ltb_spec 0 s).
  - change (IsZero (dot :: fraction s (Z.abs n))) with (IsZero (fraction s (Z.abs n))).
    destruct (fraction_spec s (Z.abs n) Hs) as (Hfd & _ & Hfv). rewrite iszero_digits, Hfv by done.
    pose proof (Z.mod_pos_bound (Z.abs n) (10 ^ s) ltac:(lia)).
    destruct (Z.eqb_spec (Z.abs n / 10 ^ s) 0), (Z.eqb_spec (Z.abs n mod 10 ^ s) 0); cbn; symmetry;
      (apply Z.eqb_eq; nia) || (apply Z.eqb_neq; nia).
  - replace s with 0 by lia. rewrite andb_true_r, Z.pow_0_r, Z.div_1_r.
    destruct (Z.eqb_spec (Z.abs n) 0), (Z.eqb_spec n 0); done || lia.
Qed.

Lemma prefix_fixed n s : 0 <= s -> HasPrefix minus (fixed n s) = (n <? 0).
Proof. intros Hs. rewrite fixed_sign. destruct (n <? 0); [done|]. apply fixed_abs_prefix; [lia|done|done]. Qed.

Lemma trim_sign n s : 0 <= s -> TrimPrefix minus (fixed n s) = fixed_abs (Z.abs n) s.
Proof. intros Hs. unfold TrimPrefix. rewrite prefix_fixed by done. rewrite fixed_sign. by destruct (n <? 0). Qed.

Lemma cut_app t r : Forall (fun b => bool_decide (b = dot) = false) t -> CutDot (t ++ dot :: r) = (t, r).
Proof.
  intros Ht. unfold CutDot, IndexByte. rewrite index_where_app by (done || by apply bool_decide_eq_true).
  rewrite take_app_length. f_equal.
  rewrite (app_assoc t [dot] r : t ++ dot :: r = _), drop_app_length'; [done|]. rewrite length_app. cbn. lia.
Qed.

Lemma cut_none t : Forall (fun b => bool_decide (b = dot) = false) t -> CutDot t = (t, []).
Proof. intros Ht. unfold CutDot, IndexByte. by rewrite index_where_none. Qed.

Lemma fraction_zero m : fraction 0 m = [].
Proof. done. Qed.

Lemma cut_fixed m s : 0 <= m -> 0 <= s -> CutDot (fixed_abs m s) = (nat_text (m / 10 ^ s), fraction s m).
Proof.
  intros Hm Hs. unfold fixed_abs.
  assert (Forall (fun b => bool_decide (b = dot) = false) (nat_text (m / 10 ^ s))) as Hd
    by (apply digits_no_dot, nat_text_digits, Z.div_pos; [done|by apply pow10_pos]).
  destruct (Z.ltb_spec 0 s); [by apply cut_app|]. replace s with 0 in * by lia. rewrite app_nil_r. by apply cut_none.
Qed.

Lemma bval_digit_compare a b : (bval a ?= bval b) = (digit_val a ?= digit_val b).
Proof.
  unfold digit_val. destruct (Z.compare_spec (bval a) (bval b)), (Z.compare_spec (bval a - 48) (bval b - 48)); lia || done.
  Qed.

Lemma step_compare a b (r : Z) c : (a = b -> r = compare_int c) ->
  (if bval a <? bval b then -1 else if bval b <? bval a then 1
    else r) = compare_int (match digit_val a ?= digit_val b with Eq => c | x => x end).
Proof.
  intros Hr. rewrite <- bval_digit_compare.
  destruct (Z.compare_spec (bval a) (bval b)) as [E|E|E], (Z.ltb_spec (bval a) (bval b)), (Z.ltb_spec (bval b) (bval a));
    try lia; try done.
  apply Hr. by apply bval_inj.
Qed.

Lemma scaled_compare a b x y p q : 0 < p -> 0 < q -> 0 <= x < p -> 0 <= y < q ->
  ((a * p + x) * q ?= (b * q + y) * p) = match a ?= b with Eq => x * q ?= y * p | c => c end.
Proof.
  intros Hp Hq Hx Hy. destruct (Z.compare_spec a b) as [->|L|L].
  - rewrite !Z.mul_add_distr_r. replace (b * q * p) with (b * p * q) by ring. apply Z.add_compare_mono_l.
  - apply Z.compare_lt_iff. assert ((a * p + x) * q < (a + 1) * (p * q)) by nia.
    assert ((a + 1) * (p * q) <= b * (p * q)) by (apply Z.mul_le_mono_nonneg_r; nia). nia.
  - apply Z.compare_gt_iff. assert ((b * q + y) * p < (b + 1) * (p * q)) by nia.
    assert ((b + 1) * (p * q) <= a * (p * q)) by (apply Z.mul_le_mono_nonneg_r; nia). nia.
Qed.

Lemma compare_right_spec rf : digits rf -> compare_right rf = compare_int (0 ?= digits_val rf).
Proof.
  induction rf as [|r rf IH]; [done|]. intros [Hr Hd]%Forall_cons. cbn [compare_right].
  rewrite (step_compare zero_digit r _ (0 ?= digits_val rf)) by auto.
  rewrite digits_val_cons. change (digit_val zero_digit) with 0. pose proof (digits_val_range rf Hd).
  apply is_digit_val in Hr. f_equal.
  pose proof (pow10_pos (blen rf) (blen_nonneg rf)).
  destruct (Z.compare_spec 0 (digit_val r)) as [<-|L|L];
    [by rewrite Z.mul_0_l, Z.add_0_l|symmetry; apply Z.compare_lt_iff; nia|lia].
Qed.

Lemma compare_fractions_spec lf rf : digits lf -> digits rf ->
  compare_fractions lf rf = compare_int (digits_val lf * 10 ^ blen rf ?= digits_val rf * 10 ^ blen lf).
Proof.
  revert rf. induction lf as [|l lf IH]; intros rf Hl Hr.
  - cbn [compare_fractions]. rewrite compare_right_spec by done. change (digits_val []) with 0. change (blen []) with 0.
    by rewrite Z.mul_0_l, Z.pow_0_r, Z.mul_1_r.
  - apply Forall_cons in Hl as [Hlb Hl]. pose proof (digits_val_range lf Hl) as Hrl.
    pose proof (pow10_pos (blen lf) (blen_nonneg lf)) as Hpl.
    assert (forall (b : byte) t, blen (b :: t) = Z.succ (blen t)) as Hlen by (intros; unfold blen; cbn [length]; lia).
    cbn [compare_fractions]. rewrite digits_val_cons. destruct rf as [|r rf]; cbn [tail].
    + rewrite (step_compare l zero_digit _ _ (fun _ => IH [] Hl Hr)). change (digits_val []) with 0. change (blen []) with 0.
      change (digit_val zero_digit) with 0.
      rewrite !Z.pow_0_r, !Z.mul_1_r, !Z.mul_0_l. f_equal. apply is_digit_val in Hlb.
      destruct (Z.compare_spec (digit_val l) 0) as [->|L|L];
        [by rewrite Z.mul_0_l, Z.add_0_l|lia|symmetry; apply Z.compare_gt_iff; nia].
    + apply Forall_cons in Hr as [Hrb Hr].
      rewrite (step_compare l r _ _ (fun _ => IH rf Hl Hr)), digits_val_cons, !Hlen, !Z.pow_succ_r by apply blen_nonneg.
      f_equal. symmetry.
      pose proof (digits_val_range rf Hr) as Hrr. pose proof (pow10_pos (blen rf) (blen_nonneg rf)) as Hpr.
      rewrite <- scaled_compare by lia. rewrite !Z.mul_assoc, !(Z.mul_comm _ 10), <- !Z.mul_assoc.
      rewrite <- !Zmult_compare_compat_l by lia. f_equal; ring.
Qed.

Lemma whole_compare s t : digits s -> digits t -> TrimLeftZeros s = s -> TrimLeftZeros t = t ->
  (if blen s <? blen t then -1 else if blen t <? blen s then 1
    else compare_int (bcompare s t)) = compare_int (digits_val s ?= digits_val t).
Proof.
  assert (forall s t, digits s -> digits t -> TrimLeftZeros t = t -> blen s < blen t -> digits_val s < digits_val t) as Hlt.
  { clear. intros s t Hs Ht Htt Hl. pose proof (digits_val_range s Hs) as [_ Hr].
    assert (t <> []) as Hne by (intros ->; pose proof (blen_nonneg s); unfold blen in *; cbn in *; lia).
    pose proof (no_zeros_bound t Ht Htt Hne). assert (10 ^ blen s <= 10 ^ (blen t - 1)) by (apply Z.pow_le_mono_r; lia). lia.
    }
  intros Hs Ht Hss Htt.
  destruct (Z.ltb_spec (blen s) (blen t)) as [L|L]; [by rewrite (proj2 (Z.compare_lt_iff _ _)) by by apply Hlt|].
  destruct (Z.ltb_spec (blen t) (blen s)) as [L'|L']; [by rewrite (proj2 (Z.compare_gt_iff _ _)) by by apply Hlt|].
  rewrite digits_compare; [done..|]. unfold blen in *. lia.
Qed.

Lemma compare_abs ma sa mb sb : 0 <= ma -> 0 <= mb -> 0 <= sa -> 0 <= sb ->
  let li := TrimLeftZeros (nat_text (ma / 10 ^ sa)) in
  let ri := TrimLeftZeros (nat_text (mb / 10 ^ sb)) in
  let result := if blen li <? blen ri then -1 else if blen ri <? blen li then 1 else compare_int (bcompare li ri) in
  (if result =? 0 then compare_fractions (fraction sa ma) (fraction sb mb)
    else result) = compare_int (ma * 10 ^ sb ?= mb * 10 ^ sa).
Proof.
  intros Hma Hmb Hsa Hsb. cbv zeta. pose proof (pow10_pos sa Hsa) as Hpa. pose proof (pow10_pos sb Hsb) as Hpb.
  assert (0 <= ma / 10 ^ sa) as Hqa by (apply Z.div_pos; lia). assert (0 <= mb / 10 ^ sb) as Hqb by (apply Z.div_pos; lia).
  destruct (trim_zeros_spec _ (nat_text_digits _ Hqa)) as (Hda & Hva & _ & Hta).
  destruct (trim_zeros_spec _ (nat_text_digits _ Hqb)) as (Hdb & Hvb & _ & Htb).
  rewrite whole_compare, Hva, Hvb, !nat_text_val by done.
  destruct (fraction_spec sa ma Hsa) as (Hfa & Hla & Hra). destruct (fraction_spec sb mb Hsb) as (Hfb & Hlb & Hrb).
  rewrite compare_fractions_spec, Hla, Hra, Hlb, Hrb by done.
  pose proof (scaled_compare (ma / 10 ^ sa) (mb / 10 ^ sb) (ma mod 10 ^ sa) (mb mod 10 ^ sb) (10 ^ sa) (10 ^ sb) Hpa Hpb (Z.mod_pos_bound _ _ Hpa) (Z.mod_pos_bound _ _ Hpb)) as Hs.
  rewrite !(Z.mul_comm (_ / _)), <- !Z.div_mod in Hs by lia. rewrite Hs. by destruct (_ / _ ?= _ / _).
Qed.

Lemma compare_fixed na sa nb sb : 0 <= sa -> 0 <= sb ->
  CompareDecimal (fixed na sa) (fixed nb sb) = compare_int (na * 10 ^ sb ?= nb * 10 ^ sa).
Proof.
  intros Hsa Hsb. unfold CompareDecimal. rewrite !prefix_fixed, !iszero_fixed, !trim_sign by done.
  pose proof (pow10_pos sa Hsa) as Hpa. pose proof (pow10_pos sb Hsb) as Hpb.
  assert (forall n, (n <? 0) && negb (n =? 0) = (n <? 0)) as Hn by (intros n;
    destruct (Z.ltb_spec n 0), (Z.eqb_spec n 0); done || lia).
  rewrite !Hn. clear Hn.
  destruct (Z.ltb_spec na 0) as [La|La], (Z.ltb_spec nb 0) as [Lb|Lb]; cbn [negb Bool.eqb];
    [|by rewrite (proj2 (Z.compare_lt_iff _ _)) by nia|by rewrite (proj2 (Z.compare_gt_iff _ _)) by nia|];
    rewrite !cut_fixed by lia; cbv beta iota; rewrite compare_abs by lia.
  - rewrite !Z.abs_neq, !Z.mul_opp_l, Z.compare_opp by lia. rewrite (Z.compare_antisym (na * _)). by destruct (na * _ ?= _).
  - by rewrite !Z.abs_eq by lia.
Qed.

(** *** Keys *)

Lemma trim_left_app p a c r : p c = false -> trim_left p (a ++ c :: r) = trim_left p a ++ c :: r.
Proof. intros Hc. induction a as [|b a IH]; cbn; [by rewrite Hc|]. by destruct (p b). Qed.

Lemma trim_right_app a f : TrimRightZeros (a ++ dot :: f) = a ++ dot :: TrimRightZeros f.
Proof.
  unfold TrimRightZeros. rewrite reverse_app, reverse_cons, <- app_assoc. cbn [app]. rewrite trim_left_app by done.
  by rewrite reverse_app, reverse_cons, reverse_involutive, <- app_assoc.
Qed.

Lemma trim_left_zeros s : exists i, s = replicate i zero_digit ++ trim_left is_zero_digit s.
Proof.
  induction s as [|b s [i IH]]; [by exists 0%nat|]. cbn. destruct (is_zero_digit b) eqn:E; [|by exists 0%nat].
  apply bool_decide_eq_true_1 in E as ->.
  exists (S i). cbn. by f_equal.
Qed.

Lemma trim_right_zeros s : exists i, s = TrimRightZeros s ++ replicate i zero_digit.
Proof.
  destruct (trim_left_zeros (reverse s)) as [i Hi]. exists i. unfold TrimRightZeros. rewrite <- (reverse_involutive s) at 1.
  rewrite Hi at 1.
  by rewrite reverse_app, reverse_replicate.
Qed.

Lemma trim_right_pad f i : TrimRightZeros (f ++ replicate i zero_digit) = TrimRightZeros f.
Proof. unfold TrimRightZeros. rewrite reverse_app, reverse_replicate. f_equal. by induction i. Qed.

(** A point, where digits follow. *)
Definition pointed (t : bytes) : bytes := match t with [] => [] | _ => dot :: t end.

Lemma trim_suffix_digits a t : digits t -> TrimSuffix dot (a ++ dot :: t) = a ++ pointed t.
Proof.
  intros Ht. unfold TrimSuffix. rewrite reverse_app, reverse_cons, <- app_assoc. cbn [app].
  destruct t as [|b t _] using rev_ind.
  - change (reverse (reverse a) = a ++ []). by rewrite app_nil_r, reverse_involutive.
  - apply Forall_app in Ht as [_ [Hb _]%Forall_cons]. rewrite reverse_snoc. unfold TrimPrefix. cbn [app HasPrefix].
    rewrite bool_decide_eq_false_2 by (by destruct (digit_not_sign b Hb) as (_ & ? & _)).
    rewrite reverse_cons, reverse_app, reverse_cons, reverse_involutive, reverse_involutive, <- !app_assoc. cbn [app].
    by destruct t.
Qed.

Lemma trim_right_digits f : digits f -> digits (TrimRightZeros f).
Proof. intros Hf. destruct (trim_right_zeros f) as [i Hi]. rewrite Hi in Hf. by apply Forall_app in Hf as [? _]. Qed.

Lemma key_fixed n s : 0 <= s ->
  DecimalKey (fixed n s) = (sign_text n ++ nat_text (Z.abs n / 10 ^ s)) ++ pointed (TrimRightZeros (fraction s (Z.abs n))).
Proof.
  intros Hs. unfold DecimalKey. rewrite fixed_dot, fixed_parts by done. pose proof (pow10_pos s Hs).
  assert (0 <= Z.abs n / 10 ^ s) as Hq by (apply Z.div_pos; lia).
  destruct (fraction_spec s (Z.abs n) Hs) as (Hfd & Hfl & Hfv). set (a := sign_text n ++ _). set (k := a ++ pointed _).
  assert ((if 0 <? s then TrimSuffix dot (TrimRightZeros (a ++ if 0 <? s then dot :: fraction s (Z.abs n) else []))
    else a ++ (if 0 <? s then dot :: fraction s (Z.abs n) else [])) = k) as Hk.
  { unfold k.
    destruct (Z.ltb_spec 0 s); [rewrite trim_right_app; by rewrite trim_suffix_digits by by apply trim_right_digits|].
    by replace s with 0 by lia. }
  transitivity (if bool_decide (k = [minus; zero_digit]) then [zero_digit] else k); [by rewrite <- Hk; destruct (0 <? s)|].
  rewrite bool_decide_eq_false_2; [done|].
  intros Hbad. assert (CutDot k = (a, TrimRightZeros (fraction s (Z.abs n)))) as Hc.
  { unfold k.
    destruct (TrimRightZeros _) eqn:E; [rewrite app_nil_r; by apply cut_none, whole_no_dot|by apply cut_app, whole_no_dot]. }
  rewrite Hbad in Hc. injection Hc as Ha Ht. unfold a, sign_text in Ha. pose proof (nat_text_val _ Hq) as Hv.
  pose proof (nat_text_digits _ Hq) as Hd.
  destruct (Z.ltb_spec n 0); cbn [app] in Ha;
    [|rewrite <- Ha in Hd; apply Forall_cons in Hd as [Hm _]; vm_compute in Hm; discriminate].
  injection Ha as Ha. rewrite <- Ha in Hv. change (digits_val [zero_digit]) with 0 in Hv.
  destruct (trim_right_zeros (fraction s (Z.abs n))) as [i Hi]. rewrite <- Ht in Hi.
  rewrite Hi, app_nil_l, zeros_val in Hfv. pose proof (Z.div_mod (Z.abs n) (10 ^ s) ltac:(lia)). lia.
Qed.

Lemma key_value na sa nb sb : 0 <= sa -> 0 <= sb -> DecimalKey (fixed na sa) = DecimalKey (fixed nb sb) ->
  na * 10 ^ sb = nb * 10 ^ sa.
Proof.
  intros Hsa Hsb Hk. pose proof (pow10_pos sa Hsa) as Hpa. pose proof (pow10_pos sb Hsb) as Hpb.
  rewrite !key_fixed in Hk by done.
  assert (forall n s t, 0 <= s -> CutDot ((sign_text n ++ nat_text (Z.abs n / 10 ^ s)) ++ pointed t) = (sign_text n ++ nat_text (Z.abs n / 10 ^ s), t)) as Hcut.
  { intros n s [|b t] Hs; [rewrite app_nil_r; by apply cut_none, whole_no_dot|by apply cut_app, whole_no_dot]. }
  apply (f_equal CutDot) in Hk. rewrite !Hcut in Hk by done. injection Hk as Hw Ht. clear Hcut.
  assert (0 <= Z.abs na / 10 ^ sa) as Hqa by (apply Z.div_pos; lia).
  assert (0 <= Z.abs nb / 10 ^ sb) as Hqb by (apply Z.div_pos; lia).
  assert ((na <? 0) = (nb <? 0) /\ nat_text (Z.abs na / 10 ^ sa) = nat_text (Z.abs nb / 10 ^ sb)) as [Hsg Hn].
  { pose proof (digits_prefix (nat_text (Z.abs na / 10 ^ sa)) [] minus (nat_text_digits _ Hqa) ltac:(by destruct (nat_text_plain _ Hqa) as (_ & ? & _)) eq_refl) as Hma.
    pose proof (digits_prefix (nat_text (Z.abs nb / 10 ^ sb)) [] minus (nat_text_digits _ Hqb) ltac:(by destruct (nat_text_plain _ Hqb) as (_ & ? & _)) eq_refl) as Hmb.
    rewrite app_nil_r in *. unfold sign_text in Hw.
    destruct (na <? 0), (nb <? 0); cbn [app] in Hw; [by injection Hw|by rewrite <- Hw in Hmb|by rewrite Hw in Hma|done]. }
  apply (f_equal digits_val) in Hn. rewrite !nat_text_val in Hn by done.
  destruct (fraction_spec sa (Z.abs na) Hsa) as (_ & Hla & Hra).
  destruct (fraction_spec sb (Z.abs nb) Hsb) as (_ & Hlb & Hrb).
  destruct (trim_right_zeros (fraction sa (Z.abs na))) as [i Hi].
  destruct (trim_right_zeros (fraction sb (Z.abs nb))) as [j Hj]. rewrite <- Ht in Hj.
  set (t := TrimRightZeros (fraction sa (Z.abs na))) in *.
  rewrite Hi in Hla, Hra. rewrite Hj in Hlb, Hrb. rewrite blen_app in Hla, Hlb.
  rewrite digits_val_app, zeros_val, Z.add_0_r in Hra, Hrb.
  pose proof (Z.div_mod (Z.abs na) (10 ^ sa) ltac:(lia)) as Da. pose proof (Z.div_mod (Z.abs nb) (10 ^ sb) ltac:(lia)) as Db.
  rewrite <- Hra in Da. rewrite <- Hrb, <- Hn in Db.
  assert (Z.abs na * 10 ^ sb = Z.abs nb * 10 ^ sa) as Habs.
  { rewrite Da, Db, !Z.mul_add_distr_r. f_equal; [ring|].
    rewrite <- !Z.mul_assoc, <- !Z.pow_add_r by (done || apply blen_nonneg). do 2 f_equal. lia. }
  destruct (Z.ltb_spec na 0), (Z.ltb_spec nb 0); try done;
    [rewrite !Z.abs_neq in Habs by lia|rewrite !Z.abs_eq in Habs by lia]; lia.
Qed.

Lemma value_key na sa nb sb : 0 <= sa <= sb -> na * 10 ^ sb = nb * 10 ^ sa -> DecimalKey (fixed na sa) = DecimalKey (fixed nb sb).
Proof.
  intros Hs Hv. pose proof (pow10_pos sa ltac:(lia)) as Hpa. pose proof (pow10_pos (sb - sa) ltac:(lia)) as Hpd.
  assert (10 ^ sb = 10 ^ sa * 10 ^ (sb - sa)) as Hsb by (rewrite <- Z.pow_add_r by lia; f_equal; lia).
  assert (nb = na * 10 ^ (sb - sa)) as -> by (rewrite Hsb in Hv; nia). rewrite !key_fixed by lia.
  set (p := 10 ^ (sb - sa)) in *.
  assert (sign_text (na * p) = sign_text na) as -> by (unfold sign_text;
    destruct (Z.ltb_spec (na * p) 0), (Z.ltb_spec na 0); done || nia).
  rewrite Z.abs_mul, (Z.abs_eq p), Hsb, Z.div_mul_cancel_r by lia. f_equal.
  assert (fraction sb (Z.abs na * p) = fraction sa (Z.abs na) ++ replicate (Z.to_nat (sb - sa)) zero_digit) as ->;
    [|by rewrite trim_right_pad].
  destruct (fraction_spec sb (Z.abs na * p)) as (Hd1 & Hl1 & Hv1); [lia|].
  destruct (fraction_spec sa (Z.abs na)) as (Hd2 & Hl2 & Hv2); [lia|].
  assert (blen (replicate (Z.to_nat (sb - sa)) zero_digit) = sb - sa) as Hl3 by (unfold blen; rewrite length_replicate; lia).
  apply digits_inj; [done|apply Forall_app; split; [done|apply zeros_digits]| |].
  - rewrite <- (Nat2Z.id (length _)), <- (Nat2Z.id (length (_ ++ _))). f_equal.
    change (blen (fraction sb (Z.abs na * p)) = blen (fraction sa (Z.abs na) ++ replicate (Z.to_nat (sb - sa)) zero_digit)).
    rewrite blen_app. lia.
  - rewrite digits_val_app, Hv1, Hv2, zeros_val, Hl3, Hsb, Z.mul_mod_distr_r by lia. fold p. lia.
Qed.

(** C37: Two decimals compare as their values do, whatever their scales, and a value equal to another in the order
    has the same key and no other value has it: the texts alone are compared, and a key is cut from a text. *)
Theorem decimal_order_exact na sa nb sb : 0 <= sa -> 0 <= sb ->
  CompareDecimal (fixed na sa) (fixed nb sb) = Z.sgn (na * 10 ^ sb - nb * 10 ^ sa) /\
  (DecimalKey (fixed na sa) = DecimalKey (fixed nb sb) <-> na * 10 ^ sb = nb * 10 ^ sa).
Proof.
  intros Hsa Hsb. split; [|split; [by apply key_value|]].
  - rewrite compare_fixed by done.
    destruct (Z.compare_spec (na * 10 ^ sb) (nb * 10 ^ sa)); cbn [compare_int];
      [rewrite (proj2 (Z.sgn_null_iff _))|rewrite (proj2 (Z.sgn_neg_iff _))|rewrite (proj2 (Z.sgn_pos_iff _))]; lia.
  - intros Hv. destruct (Z.le_ge_cases sa sb); [by apply value_key|]. symmetry. by apply value_key.
Qed.

Lemma decimal_order_exact_witness : CompareDecimal (fixed (-150) 2) (fixed (-15) 1) = 0 /\
  (DecimalKey (fixed (-150) 2) = DecimalKey (fixed (-15) 1) <-> -150 * 10 ^ 1 = -15 * 10 ^ 2).
Proof. apply (decimal_order_exact (-150) 2 (-15) 1); lia. Defined.

(** ** Literals *)

(** The bytes of a literal. *)
Definition lit_byte (b : byte) : bool := is_digit b || bool_decide (b ∈ [dot; minus; x2b; x65; x45]).

Definition starts_lit (s : bytes) : Prop := match s with b :: _ => lit_byte b = true | [] => True end.
Definition no_lit (ps : list bytes) : Prop := Forall (fun p => match p with c :: _ => lit_byte c = false | [] => False end) ps.

Lemma trim_prefixes_none fuel ps s : no_lit ps -> starts_lit s -> trim_prefixes fuel ps s = s.
Proof.
  intros Hps Hs. destruct fuel as [|fuel]; [done|]. cbn.
  assert (filter (fun p => bool_decide (p `prefix_of` s)) ps = []) as ->; [|done].
  induction Hps as [|p ps Hp _ IH]; [done|]. rewrite filter_cons, IH. case_decide as Hd; [|done]. exfalso.
  apply bool_decide_spec in Hd as [r ->].
  destruct p as [|c p]; [done|]. cbn in Hs. congruence.
Qed.

Lemma digits_lit t : digits t -> Forall (fun b => lit_byte b = true) t.
Proof. intros Ht. eapply Forall_impl; [exact Ht|]. intros b Hb. unfold lit_byte. by rewrite Hb. Qed.

(** A run of digits as the code goes on with it: without its leading zeros, and [0] where nothing is left. *)
Lemma trimmed_text t : digits t -> (if bool_decide (TrimLeftZeros t = []) then [zero_digit]
  else TrimLeftZeros t) = nat_text (digits_val t).
Proof.
  intros Ht. destruct (trim_zeros_spec t Ht) as (Hd & Hv & Hz & Htt). case_bool_decide as Hb; [by rewrite (Hz Hb)|].
  rewrite <- Hv. symmetry. apply plain_text. split; [done|]. split; [done|by left].
Qed.

Lemma trimmed_zero t : digits t -> bool_decide (TrimLeftZeros t = []) = (digits_val t =? 0).
Proof.
  intros Ht. destruct (trim_zeros_spec t Ht) as (Hd & Hv & Hz & Htt). case_bool_decide as Hb; [by rewrite (Hz Hb)|].
  symmetry. apply Z.eqb_neq.
  rewrite <- Hv. pose proof (no_zeros_bound _ Hd Htt Hb). pose proof (pow10_pos (blen (TrimLeftZeros t) - 1)).
  pose proof (blen_pos _ Hb). lia.
Qed.

Definition with_sign (neg : bool) (v : Z) : Z := if neg then - v else v.

(** The end of [ParseDecimal]. *)
Definition parse_tail (negative : bool) (s : bytes) (scale : Z) : result decimal_error Decimal :=
  guard (negb (MaxDecimalScale <? scale)) else ErrDecimalRange in
  let s := TrimLeftZeros s in
  let '(s, negative) := if bool_decide (s = []) then ([zero_digit], false) else (s, negative) in
  guard (negb ((MaxDecimalPrecision <? blen s) || (MaxDecimalPrecision <? Z.max (blen s) scale))) else ErrDecimalRange in
  let s := place_point s scale in
  Ok (if negative then minus :: s else s).

Lemma parse_tail_exact neg s scale : digits s -> 0 <= scale ->
  parse_tail neg s scale = ranged (with_sign neg (digits_val s)) scale.
Proof.
  intros Hs Hsc. unfold parse_tail, ranged, within. rewrite Z.leb_antisym.
  destruct (MaxDecimalScale <? scale) eqn:Esc; cbn [negb andb]; [by rewrite andb_false_r|]. apply Z.ltb_ge in Esc.
  pose proof (trimmed_text s Hs) as Ht. pose proof (trimmed_zero s Hs) as Hz. pose proof (digits_val_range s Hs) as [Hv _].
  set (v := digits_val s) in *.
  assert ((if bool_decide (TrimLeftZeros s = []) then ([zero_digit], false)
    else (TrimLeftZeros s, neg)) = (nat_text v, neg && negb (v =? 0))) as ->.
  { rewrite <- Hz. rewrite <- Ht. by destruct (bool_decide _), neg. }
  assert (Z.abs (with_sign neg v) = v) as Ha by (destruct neg; cbn; lia). rewrite Ha, andb_true_r.
  assert ((MaxDecimalPrecision <? Z.max (blen (nat_text v)) scale) = (MaxDecimalPrecision <? blen (nat_text v))) as ->.
  { destruct (Z.ltb_spec MaxDecimalPrecision (blen (nat_text v))), (Z.ltb_spec MaxDecimalPrecision (Z.max (blen (nat_text v)) scale)); try done; unfold MaxDecimalPrecision, MaxDecimalScale in *; lia.
    }
  pose proof (nat_text_length v MaxDecimalPrecision Hv ltac:(done)) as Hl. rewrite place_point_text, orb_diag by done.
  rewrite (fixed_sign (with_sign neg v)), Ha.
  assert ((with_sign neg v <? 0) = neg && negb (v =? 0)) as -> by (destruct neg; cbn [with_sign andb];
    destruct (Z.eqb_spec v 0); cbn [negb]; (apply Z.ltb_lt; lia) || (apply Z.ltb_ge; lia)).
  destruct (Z.ltb_spec MaxDecimalPrecision (blen (nat_text v))), (Z.ltb_spec v (10 ^ MaxDecimalPrecision)); try lia;
    by destruct (neg && _).
Qed.

(** The digits and the exponent, put together. *)
Definition literal_value (neg : bool) (v places k : Z) : result decimal_error Decimal :=
  if (k <? - MaxDecimalScale) || (MaxDecimalPrecision <? k) then Err ErrDecimalRange
  else if places <? k then ranged (with_sign neg (v * 10 ^ (k - places))) 0 else ranged (with_sign neg v) (places - k).

Definition parse_number (negative : bool) (s : bytes) (scale : Z) : result decimal_error Decimal :=
  let '(s, scale) := if scale <? 0 then (s ++ replicate (Z.to_nat (- scale)) zero_digit, 0)
    else (s, scale) in parse_tail negative s scale.

Lemma parse_number_exact neg s places k : digits s -> - MaxDecimalScale <= k <= MaxDecimalPrecision ->
  parse_number neg s (places - k) = literal_value neg (digits_val s) places k.
Proof.
  intros Hs Hk. unfold parse_number, literal_value. destruct (Z.ltb_spec k (- MaxDecimalScale)); [lia|].
  destruct (Z.ltb_spec MaxDecimalPrecision k); [lia|]. cbn [orb].
  destruct (Z.ltb_spec (places - k) 0), (Z.ltb_spec places k); try lia; [|apply parse_tail_exact; [done|lia]].
  rewrite parse_tail_exact; [|apply Forall_app; split; [done|apply zeros_digits]|done].
  rewrite digits_val_app, zeros_val, Z.add_0_r. unfold blen. rewrite length_replicate.
  do 2 f_equal. f_equal. f_equal. lia.
Qed.

(** The part between the sign and the digits. *)
Definition parse_unsigned (negative : bool) (s : bytes) : result decimal_error Decimal :=
  match (match index_where (fun b => bool_decide (b = x65) || bool_decide (b = x45)) s with
         | Some e => match Atoi (drop (S e) s) with
                     | Some exponent => if (exponent <? - MaxDecimalScale) || (MaxDecimalPrecision <? exponent)
                       then None else Some (exponent, take e s)
                     | None => None
                     end
         | None => Some (0, s)
         end) with
  | None => Err ErrDecimalRange
  | Some (exponent, s) => match scan_digits s with None => Err ErrDecimalRange | Some (s, scale) =>
    parse_number negative s (scale - exponent) end
  end.

Lemma parse_split raw : ParseDecimal raw =
  let s := TrimSpace raw in
  if (blen s =? 0) || (256 <? blen s) then Err ErrDecimalRange
  else
    let '(negative, s) := match s with b :: r => if bool_decide (b = x2b) || bool_decide (b = minus)
      then (bool_decide (b = minus), r) else (false, s) | [] => (false, s) end in
    if bool_decide (s = []) then Err ErrDecimalRange else parse_unsigned negative s.
Proof.
  unfold ParseDecimal. cbv zeta. destruct ((blen (TrimSpace raw) =? 0) || _); [done|]. cbn [negb].
  destruct (match TrimSpace raw with [] => _ | _ => _ end) as [neg s].
  destruct (bool_decide (s = [])); done.
Qed.

(** The text of a number as it is written: a sign, digits, a point with digits, and an exponent. *)
Definition literal (sign : option bool) (ip : bytes) (fp : option bytes) (ex : option (bool * bytes)) : bytes :=
  match sign with Some true => [minus] | Some false => [x2b] | None => [] end
  ++ (ip ++ match fp with Some f => dot :: f | None => [] end)
  ++ match ex with Some (upper, e) => (if upper : bool then x45 else x65) :: e | None => [] end.

Lemma index_dot_point t fp : digits t -> IndexByte (t ++ match fp with Some f => dot :: f | None => [] end) dot = (fun _ =>
  length t) <$> fp.
Proof.
  intros Ht. apply digits_no_dot in Ht.
  destruct fp; cbn;
    [apply index_where_app; [done|by apply bool_decide_eq_true]|rewrite app_nil_r; by apply index_where_none].
  Qed.

Lemma scan_literal ip fp : digits ip -> digits (default [] fp) -> ip ++ default [] fp <> [] ->
  scan_digits (ip ++ match fp with Some f => dot :: f | None => [] end) = Some (ip ++ default [] fp, blen (default [] fp)).
Proof.
  intros Hi Hf Hne. unfold scan_digits. rewrite index_dot_point by done.
  assert (forallb is_digit (ip ++ default [] fp) = true) as Hd by (apply digits_forallb; by apply Forall_app).
  destruct fp as [f|]; cbn [default fmap option_fmap option_map const id] in *.
  - rewrite cut_app by by apply digits_no_dot. rewrite Hd, bool_decide_eq_false_2 by done. cbn. do 2 f_equal. unfold blen.
    rewrite length_app. cbn. lia.
  - rewrite !app_nil_r in *. rewrite cut_none by by apply digits_no_dot.
    rewrite app_nil_r, Hd, bool_decide_eq_false_2 by done. done.
Qed.

Definition exponent_mark (b : byte) : bool := bool_decide (b = x65) || bool_decide (b = x45).

Lemma digits_no_mark t : digits t -> Forall (fun b => exponent_mark b = false) t.
Proof.
  intros Ht. eapply Forall_impl; [exact Ht|]. intros b Hb. unfold exponent_mark.
  destruct (digit_not_sign b Hb) as (_ & _ & _ & ? & ?). by rewrite !bool_decide_eq_false_2.
Qed.

Lemma parse_unsigned_literal neg ip fp ex : digits ip -> digits (default [] fp) -> ip ++ default [] fp <> [] ->
  parse_unsigned neg ((ip ++ match fp with Some f => dot :: f | None => [] end) ++ match ex with Some (upper, e) =>
    (if upper : bool then x45 else x65) :: e | None => [] end) =
  match (match ex with Some (_, e) => Atoi e | None => Some 0 end) with
  | Some k => literal_value neg (digits_val (ip ++ default [] fp)) (blen (default [] fp)) k
  | None => Err ErrDecimalRange
  end.
Proof.
  intros Hi Hf Hne. set (body := ip ++ _). assert (Forall (fun b => exponent_mark b = false) body) as Hb.
  { unfold body. apply Forall_app. split; [by apply digits_no_mark|]. destruct fp; [|done].
    constructor; [done|by apply digits_no_mark]. }
  assert (forall k, - MaxDecimalScale <= k <= MaxDecimalPrecision -> match scan_digits body with None =>
    Err ErrDecimalRange | Some (s, scale) => parse_number neg s (scale - k) end =
    literal_value neg (digits_val (ip ++ default [] fp)) (blen (default [] fp)) k) as Hn.
  { intros k Hk. unfold body. rewrite scan_literal by done. apply parse_number_exact; [by apply Forall_app|done]. }
  unfold parse_unsigned. fold exponent_mark. destruct ex as [[u e]|].
  - change (fun b : byte => bool_decide (b = x65) || bool_decide (b = x45)) with exponent_mark.
    rewrite index_where_app by (done || by destruct u). rewrite take_app_length.
    change ((if u then x45 else x65) :: e) with ([if u then x45 else x65] ++ e).
    rewrite app_assoc, drop_app_length' by (rewrite length_app; cbn; lia).
    destruct (Atoi e) as [k|]; [|done]. unfold literal_value at 1.
    destruct ((k <? - MaxDecimalScale) || (MaxDecimalPrecision <? k)) eqn:Ek; [done|].
    apply orb_false_iff in Ek as [E1%Z.ltb_ge E2%Z.ltb_ge]. rewrite Hn by lia. unfold literal_value.
    destruct (Z.ltb_spec k (- MaxDecimalScale)); [lia|]. by destruct (Z.ltb_spec MaxDecimalPrecision k); [lia|].
  - change (fun b : byte => bool_decide (b = x65) || bool_decide (b = x45)) with exponent_mark.
    rewrite app_nil_r, index_where_none by done. by apply Hn.
Qed.

Lemma literal_bytes sign ip fp ex : digits ip -> digits (default [] fp) -> Forall (fun b =>
  lit_byte b = true) (default [] (snd <$> ex)) -> Forall (fun b => lit_byte b = true) (literal sign ip fp ex).
Proof.
  intros Hi Hf He. unfold literal.
  repeat apply Forall_app_2;
    [by destruct sign as [[]|]; repeat constructor|by apply digits_lit|destruct fp; [constructor;
      [done|by apply digits_lit]|done]|].
  destruct ex as [[[] e]|]; [constructor..|]; done.
Qed.

(** Spaces around a text are taken off. *)
Definition prefix_free (ps : list bytes) : bool :=
  forallb (fun p => negb (bool_decide (p = [])) && forallb (fun q =>
    bool_decide (p = q) || negb (bool_decide (p `prefix_of` q))) ps) ps.

Lemma prefix_free_spec ps p q r t : prefix_free ps = true -> p ∈ ps -> q ∈ ps -> p ++ r = q ++ t -> p = q /\ r = t.
Proof.
  intros Hps Hp Hq Heq. assert (forall p q, p ∈ ps -> q ∈ ps -> p `prefix_of` q -> p = q) as Hfree.
  { clear -Hps. intros p q Hp Hq Hpq. unfold prefix_free in Hps. rewrite forallb_forall in Hps.
    specialize (Hps p (proj1 (list_elem_of_In _ _) Hp)). apply andb_true_iff in Hps as [_ Hps].
    rewrite forallb_forall in Hps. specialize (Hps q (proj1 (list_elem_of_In _ _) Hq)).
    apply orb_true_iff in Hps as [Hps|Hps]; [by apply bool_decide_eq_true_1 in Hps|].
    by rewrite bool_decide_eq_true_2 in Hps. }
  assert (p = q) as ->; [|by simplify_eq].
  destruct (app_eq_inv _ _ _ _ Heq) as [(k & -> & _)|(k & -> & _)]; [symmetry|]; apply Hfree; done || by eexists.
Qed.

Lemma trim_prefixes_spaces fuel ps pre s : prefix_free ps = true -> no_lit ps -> starts_lit s ->
  Forall (fun p => p ∈ ps) pre -> (length pre <= fuel)%nat -> trim_prefixes fuel ps (concat pre ++ s) = s.
Proof.
  intros Hfree Hps Hs Hpre. revert fuel. induction Hpre as [|p pre Hp _ IH]; intros fuel Hf; [by apply trim_prefixes_none|].
  destruct fuel as [|fuel]; [cbn in Hf; lia|].
  cbn [concat trim_prefixes]. rewrite <- app_assoc. destruct (filter _ ps) as [|q qs] eqn:E.
  - exfalso.
    assert (p ∈ filter (fun p0 => bool_decide (p0 `prefix_of` p ++ concat pre ++ s)) ps) as Hin
      by (apply list_elem_of_filter; split; [apply bool_decide_spec; by eexists|done]).
    rewrite E in Hin. by apply not_elem_of_nil in Hin.
  - assert (q ∈ filter (fun p0 => bool_decide (p0 `prefix_of` p ++ concat pre ++ s)) ps) as Hin by (rewrite E; left).
    apply list_elem_of_filter in Hin as [[t Ht]%bool_decide_spec Hq].
    destruct (prefix_free_spec ps p q _ _ Hfree Hp Hq Ht) as [<- _]. rewrite drop_app_length. apply IH. cbn in Hf. lia.
Qed.

Lemma concat_length pre ps : no_lit ps -> Forall (fun p => p ∈ ps) pre -> (length pre <= length (concat pre))%nat.
Proof.
  intros Hps. unfold no_lit in Hps. rewrite Forall_forall in Hps. induction 1 as [|p pre Hp _ IH]; [done|].
  specialize (Hps p Hp). cbn. rewrite length_app. destruct p; [done|]. cbn. lia.
Qed.

Lemma reverse_concat (ls : list bytes) : reverse (concat ls) = concat (reverse <$> reverse ls).
Proof.
  induction ls as [|l ls IH]; [done|]. cbn [concat]. rewrite reverse_app, IH, reverse_cons, fmap_app, concat_app. cbn.
  by rewrite app_nil_r.
Qed.

Lemma trim_space_around pre post s : Forall (fun p => p ∈ spaces) pre -> Forall (fun p => p ∈ spaces) post ->
  Forall (fun b => lit_byte b = true) s -> s <> [] ->
  TrimSpace (concat pre ++ s ++ concat post) = s.
Proof.
  intros Hpre Hpost Hs Hne. assert (no_lit spaces) as Hn1 by by repeat constructor.
  assert (no_lit (reverse <$> spaces)) as Hn2 by by repeat constructor. unfold TrimSpace.
  rewrite trim_prefixes_spaces; [|by vm_compute|done|destruct s; [done|]; by apply Forall_cons in Hs as [? _]|done|].
  2:{ rewrite length_app. pose proof (concat_length pre spaces Hn1 Hpre). lia. }
  assert (Forall (fun p => p ∈ reverse <$> spaces) (reverse <$> reverse post)) as Hr
    by (apply Forall_fmap, Forall_reverse; eapply Forall_impl; [exact Hpost|]; intros p Hp; by apply list_elem_of_fmap_2).
  rewrite reverse_app, reverse_concat, trim_prefixes_spaces; [by rewrite reverse_involutive|by vm_compute|done| |done|].
  - assert (Forall (fun b => lit_byte b = true) (reverse s)) as Hrs by by apply Forall_reverse.
    destruct (reverse s); [done|]. by apply Forall_cons in Hrs as [? _].
  - pose proof (concat_length _ _ Hn2 Hr) as Hl. rewrite <- reverse_concat, length_reverse in Hl. rewrite length_app. lia.
Qed.

Lemma parse_literal sign ip fp ex : digits ip -> digits (default [] fp) -> ip ++ default [] fp <> [] ->
  Forall (fun b => lit_byte b = true) (default [] (snd <$> ex)) -> blen (literal sign ip fp ex) <= 256 ->
  forall raw, TrimSpace raw = literal sign ip fp ex -> ParseDecimal raw =
  match (match ex with Some (_, e) => Atoi e | None => Some 0 end) with
  | Some k => literal_value (default false sign) (digits_val (ip ++ default [] fp)) (blen (default [] fp)) k
  | None => Err ErrDecimalRange
  end.
Proof.
  intros Hi Hf Hne He Hl raw Hraw. rewrite parse_split, Hraw. cbv zeta.
  rewrite <- (parse_unsigned_literal (default false sign)) by done. unfold literal in *.
  set (u := (ip ++ match fp with Some f => dot :: f | None => [] end) ++ match ex with Some _ => _ | None => _ end) in *.
  assert (exists b r, u = b :: r /\ b <> x2b /\ b <> minus) as (b & r & Hu & Hp & Hm).
  { unfold u.
    destruct ip as [|b ip]; cbn [app];
      [|do 2 eexists; split; [done|]; apply Forall_cons in Hi as [Hb _]; destruct (digit_not_sign b Hb); intuition].
    destruct fp; [|by cbn in Hne]. do 2 eexists. by split. }
  assert (u <> []) as Hun by by rewrite Hu. assert (1 <= blen u) by by apply blen_pos. rewrite blen_app in Hl.
  destruct (Z.eqb_spec (blen (match sign with Some true => [minus] | Some false => [x2b] | None => [] end ++ u)) 0) as [E|_];
    [rewrite blen_app in E; pose proof (blen_nonneg (match sign with Some true => [minus] | Some false => [x2b] | None =>
      [] end)); lia|].
  rewrite blen_app.
  destruct (Z.ltb_spec 256 (blen (match sign with Some true => [minus] | Some false => [x2b] | None => [] end) + blen u));
    [lia|].
  cbn [orb].
  pose proof (bool_decide_eq_false_2 _ Hun) as Hub.
  destruct sign as [[]|]; cbn [app default];
    [change (bool_decide (minus = x2b) || _) with true; change (bool_decide (minus = minus)) with true; cbv iota beta;
      by rewrite Hub|change (bool_decide (x2b = x2b) || _) with true; change (bool_decide (x2b = minus)) with false;
      cbv iota beta; by rewrite Hub|].
  rewrite Hu in *. rewrite !(bool_decide_eq_false_2 (b = _)) by done. cbn [orb]. by rewrite Hub.
Qed.

Lemma trim_space_literal s : Forall (fun b => lit_byte b = true) s -> s <> [] -> TrimSpace s = s.
Proof.
  intros Hs Hne. pose proof (trim_space_around [] [] s (Forall_nil_2 _) (Forall_nil_2 _) Hs Hne) as Ht. cbn [concat] in Ht.
  by rewrite app_nil_l, app_nil_r in Ht.
Qed.

Lemma literal_nonempty sign ip fp ex : ip ++ default [] fp <> [] -> literal sign ip fp ex <> [].
Proof.
  intros Hne Hl. unfold literal in Hl. destruct sign as [[]|]; [done..|]. apply app_eq_nil in Hl as [_ [Hl _]%app_eq_nil].
  apply app_eq_nil in Hl as [-> Hf]. by destruct fp.
Qed.

(** A text of a coefficient is a literal, read back as it is. *)
Lemma parse_fixed n s : 0 <= s -> within n s = true -> ParseDecimal (fixed n s) = Ok (fixed n s).
Proof.
  intros Hs Hfit. pose proof Hfit as [Hn%Z.ltb_lt Hs']%andb_true_iff. apply Z.leb_le in Hs'. pose proof (pow10_pos s Hs).
  assert (0 <= Z.abs n / 10 ^ s) as Hq by (apply Z.div_pos; lia).
  destruct (fraction_spec s (Z.abs n) Hs) as (Hfd & Hfl & Hfv).
  set (fp := if 0 <? s then Some (fraction s (Z.abs n)) else None).
  assert (default [] fp = fraction s (Z.abs n)) as Hfp by (unfold fp; destruct (Z.ltb_spec 0 s);
    [done|by replace s with 0 by lia]).
  assert (fixed n s = literal (if n <? 0 then Some true else None) (nat_text (Z.abs n / 10 ^ s)) fp None) as Hlit.
  { rewrite fixed_parts. unfold literal, sign_text, fp. rewrite app_nil_r, <- app_assoc. by destruct (n <? 0), (0 <? s). }
  assert (blen (fixed n s) <= 256) as Hlen.
  { rewrite fixed_parts, !blen_app.
    assert (blen (nat_text (Z.abs n / 10 ^ s)) <= 65) by (apply nat_text_length; [done|lia|]; apply Z.div_lt_upper_bound;
      unfold MaxDecimalPrecision in *; nia).
    assert (blen (sign_text n) <= 1) by (unfold sign_text; by destruct (n <? 0)).
    assert (blen (if 0 <? s then dot :: fraction s (Z.abs n) else []) <= 31); [|lia].
    unfold MaxDecimalScale in *. destruct (0 <? s); [|done]. unfold blen in *. cbn [length]. lia. }
  assert (digits (default [] fp)) as Hfpd by by rewrite Hfp.
  assert (nat_text (Z.abs n / 10 ^ s) ++ default [] fp <> []) as Hne by (destruct (nat_text_plain _ Hq) as (_ & Hne & _);
    by destruct (nat_text _)).
  assert (TrimSpace (fixed n s) = literal (if n <? 0 then Some true else None) (nat_text (Z.abs n / 10 ^ s)) fp None) as Htrim.
  { rewrite Hlit. apply trim_space_literal; [apply literal_bytes; [by apply nat_text_digits|done|done]|].
    by apply literal_nonempty. }
  rewrite (parse_literal (if n <? 0 then Some true else None) (nat_text (Z.abs n / 10 ^ s)) fp None);
    [|by apply nat_text_digits|done|done|done|by rewrite <- Hlit|done].
  unfold literal_value. rewrite Hfp, Hfl. cbn [orb]. destruct (Z.ltb_spec s 0); [lia|].
  rewrite Z.sub_0_r, digits_val_app, nat_text_val, Hfl, Hfv by done.
  replace (Z.abs n / 10 ^ s * 10 ^ s + Z.abs n mod 10 ^ s) with (Z.abs n) by (pose proof (Z.div_mod (Z.abs n) (10 ^ s)); lia).
  assert (with_sign (default false (if n <? 0 then Some true else None)) (Z.abs n) = n) as ->
    by (destruct (Z.ltb_spec n 0); cbn; lia).
  unfold ranged. by rewrite Hfit.
Qed.

(** C38: What a literal means, with space around it or none, any sign, a point or none, and an exponent or none: the
    digits without the point are the coefficient, the digits after it less the exponent the scale, and a
    negative scale becomes zeros; a text whose exponent is not an integer, or is out of bounds, whose scale is above
    thirty or whose coefficient has more than 65 digits is refused. *)
Theorem decimal_literal_exact pre sign ip fp ex post : Forall (fun p => p ∈ spaces) pre -> Forall (fun p => p ∈ spaces) post ->
  digits ip -> digits (default [] fp) -> ip ++ default [] fp <> [] ->
  Forall (fun b => lit_byte b = true) (default [] (snd <$> ex)) -> blen (literal sign ip fp ex) <= 256 ->
  ParseDecimal (concat pre ++ literal sign ip fp ex ++ concat post) =
  match (match ex with Some (_, e) => Atoi e | None => Some 0 end) with
  | Some k => literal_value (default false sign) (digits_val (ip ++ default [] fp)) (blen (default [] fp)) k
  | None => Err ErrDecimalRange
  end.
Proof.
  intros Hpre Hpost Hi Hf Hne He Hl. apply parse_literal; [done..|].
  apply trim_space_around; [done|done|by apply literal_bytes|by apply literal_nonempty].
Qed.

Lemma decimal_literal_exact_witness :
  ParseDecimal (concat [[x20]; [xc2; xa0]] ++ literal (Some true) (str "012"%string) (Some (str "50"%string)) (Some (true, str "+1"%string)) ++ concat [[x0a]]) = literal_value true 1250 2 1.
Proof.
  apply (decimal_literal_exact [[x20]; [xc2;
    xa0]] (Some true) (str "012"%string) (Some (str "50"%string)) (Some (true, str "+1"%string)) [[x0a]]);
    [repeat constructor; by apply (bool_decide_unpack _)|repeat constructor;
      by apply (bool_decide_unpack _)|by repeat constructor|by repeat constructor|done|by repeat constructor|by vm_compute].
Defined.

Lemma scan_digits_ok s ds scale : scan_digits s = Some (ds, scale) -> digits ds /\ 0 <= scale.
Proof.
  unfold scan_digits. destruct (CutDot s) as [ip fp]. destruct (negb (forallb is_digit (ip ++ fp))) eqn:E; [done|].
  destruct (bool_decide _); [done|]. intros [= <- <-].
  apply negb_false_iff, digits_forallb in E. split; [done|]. unfold IndexByte.
  destruct (index_where _ s) as [i|] eqn:Ei; [|done].
  assert (forall p t j, index_where p t = Some j -> (j < length t)%nat) as Hlt.
  { clear. intros p t. induction t as [|b t IH]; intros j; cbn; [done|]. destruct (p b); [intros [= <-]; lia|].
    destruct (index_where p t) as [k|]; [|done]. intros [= <-]. specialize (IH k eq_refl). lia. }
  specialize (Hlt _ _ _ Ei). unfold blen. lia.
Qed.

Lemma ranged_ok n s d : 0 <= s -> ranged n s = Ok d -> exists n s, 0 <= s /\ within n s = true /\ d = fixed n s.
Proof. unfold ranged. destruct (within n s) eqn:E; [|done]. intros Hs [= <-]. by exists n, s. Qed.

Lemma parse_canonical raw d : ParseDecimal raw = Ok d -> exists n s, 0 <= s /\ within n s = true /\ d = fixed n s.
Proof.
  rewrite parse_split. cbv zeta. destruct (_ || _); [done|].
  destruct (match TrimSpace raw with [] => _ | _ => _ end) as [neg s]. destruct (bool_decide (s = [])); [done|].
  unfold parse_unsigned. destruct (match index_where _ s with Some _ => _ | None => _ end) as [[k body]|] eqn:Ek; [|done].
  assert (- MaxDecimalScale <= k <= MaxDecimalPrecision) as Hk.
  { destruct (index_where _ s) as [e|]; [|injection Ek as <- _; done]. destruct (Atoi _) as [k'|]; [|done].
    destruct ((k' <? _) || _) eqn:Eb; [done|]. injection Ek as <- _.
    apply orb_false_iff in Eb as [E1%Z.ltb_ge E2%Z.ltb_ge]. lia. }
  destruct (scan_digits body) as [[ds scale]|] eqn:Es; [|done]. apply scan_digits_ok in Es as [Hds Hsc].
  rewrite parse_number_exact by done. unfold literal_value.
  destruct (_ || _); [done|]. destruct (Z.ltb_spec scale k); apply ranged_ok; lia.
Qed.

(** C39: Whatever text is accepted, the decimal that is kept is the canonical text of a coefficient of at most 65 digits
    and a scale of at most thirty, which are the ones read back from it; and this text, parsed again, is itself. *)
Theorem decimal_text_roundtrip raw d : ParseDecimal raw = Ok d ->
  (exists n s, 0 <= s <= MaxDecimalScale /\ Z.abs n < 10 ^ MaxDecimalPrecision /\ d = fixed n s /\
    decimalCoefficient d = (n, s)) /\ ParseDecimal d = Ok d.
Proof.
  intros (n & s & Hs & Hf & ->)%parse_canonical. split; [|by apply parse_fixed]. exists n, s.
  pose proof Hf as [?%Z.ltb_lt ?%Z.leb_le]%andb_true_iff.
  rewrite coefficient_fixed by done. done.
Qed.

Lemma decimal_text_roundtrip_witness : let d := str "-125.0"%string in
  (exists n s, 0 <= s <= MaxDecimalScale /\ Z.abs n < 10 ^ MaxDecimalPrecision /\ d = fixed n s /\
    decimalCoefficient d = (n, s)) /\ ParseDecimal d = Ok d.
Proof. apply (decimal_text_roundtrip (str " -012.50e1 "%string)). by vm_compute. Defined.

(** *** Integers *)

Lemma trim_zeros_nil f : digits f -> bool_decide (TrimRightZeros (TrimLeftZeros f) = []) = (digits_val f =? 0).
Proof.
  intros Hf. destruct (trim_zeros_spec f Hf) as (Hd & Hv & Hz & Htt).
  destruct (trim_right_zeros (TrimLeftZeros f)) as [i Hi]. case_bool_decide as Hb.
  - rewrite Hb in Hi. symmetry. apply Z.eqb_eq. by rewrite <- Hv, Hi, app_nil_l, zeros_val.
  - symmetry. apply Z.eqb_neq. intros H0. destruct (TrimLeftZeros f) as [|b t] eqn:E; [done|]. rewrite <- E in *.
    assert (TrimLeftZeros f <> []) as Hne by by rewrite E.
    pose proof (no_zeros_bound _ Hd Htt Hne). pose proof (pow10_pos (blen (TrimLeftZeros f) - 1)).
    pose proof (blen_pos _ Hne). lia.
Qed.

(** A decimal is an [int64] where it is a whole number within the range. *)
Lemma int64_fixed n s : 0 <= s ->
  Int64 (fixed n s) =
  if Z.abs n mod 10 ^ s =? 0 then
    if (- 2 ^ 63 <=? n ÷ 10 ^ s) && (n ÷ 10 ^ s <? 2 ^ 63) then Ok (n ÷ 10 ^ s) else Err ErrNumber
  else Err ErrDecimalRange.
Proof.
  intros Hs. pose proof (pow10_pos s Hs). assert (0 <= Z.abs n / 10 ^ s) as Hq by (apply Z.div_pos; lia).
  destruct (fraction_spec s (Z.abs n) Hs) as (Hfd & Hfl & Hfv).
  assert (signed_digits (sign_text n ++ nat_text (Z.abs n / 10 ^ s)) = Some (n ÷ 10 ^ s)) as Hsd.
  { unfold sign_text.
    rewrite signed_digits_text, nat_text_val by (done || by apply nat_text_digits || by destruct (nat_text_plain _ Hq)
      as (_ & ? & _)).
    f_equal.
    destruct (Z.ltb_spec n 0); [|by rewrite Z.abs_eq, Z.quot_div_nonneg by lia].
    rewrite Z.abs_neq by lia. rewrite <- Z.quot_div_nonneg by lia. rewrite Z.quot_opp_l by lia. lia. }
  assert (Atoi (sign_text n ++ nat_text (Z.abs n / 10 ^ s)) = if (- 2 ^ 63 <=? n ÷ 10 ^ s) && (n ÷ 10 ^ s <? 2 ^ 63)
    then Some (n ÷ 10 ^ s) else None) as Ha by (unfold Atoi; by rewrite Hsd).
  unfold Int64. rewrite fixed_dot, fixed_parts by done. destruct (Z.ltb_spec 0 s).
  - rewrite take_app_length. change (dot :: ?f) with ([dot] ++ f).
    rewrite app_assoc, drop_app_length' by (rewrite !length_app; cbn [length]; lia).
    rewrite trim_zeros_nil, Hfv, Ha by done. destruct (_ =? 0); cbn [negb andb]; [|done]. by destruct (_ && _).
  - replace s with 0 in * by lia. rewrite app_nil_r, Ha, Z.mod_1_r. cbn [Z.eqb andb]. by destruct (_ && _).
Qed.

(** ** Evaluated *)

Example parse_examples :
  ParseDecimal (str " -012.50e1 "%string) = Ok (str "-125.0"%string) /\
    ParseDecimal (str "1e3"%string) = Ok (str "1000"%string) /\ ParseDecimal (str ".5"%string) = Ok (str "0.5"%string) /\
  ParseDecimal (str "-0.00"%string) = Ok (str "0.00"%string) /\ ParseDecimal (str "5."%string) = Ok (str "5"%string) /\
    ParseDecimal (str "1.2.3"%string) = Err ErrDecimalRange.
Proof. by vm_compute. Qed.

Example arithmetic_examples :
  DecimalBinary OpPlus (str "1.5"%string) (str "-2.25"%string) = Ok (str "-0.75"%string) /\
    DecimalBinary OpDivide (str "1"%string) (str "-3"%string) = Ok (str "-0.3333"%string) /\
  DecimalBinary OpDivide (str "2"%string) (str "3"%string) = Ok (str "0.6667"%string) /\
    Quantize (str "-1.005"%string) 3 2 = Ok (str "-1.01"%string) /\
  CompareDecimal (str "-1.50"%string) (str "-1.5"%string) = 0 /\
    CompareDecimal (str "10"%string) (str "9.99"%string) = 1 /\ DecimalKey (str "1.50"%string) = str "1.5"%string.
Proof. by vm_compute. Qed.
